(* ===== verification/_CoqProject ===== *)
-Q . S2P
Prelude.v
StdMap.v
ThreadId.v
Event.v
Comb.v
CombEnum.v
CombProofs.v
Cone.v
Alloc.v
Causality.v
AllocProofs.v
HeapExt.v
Order.v
Walks.v
Demo.v
EventProps.v
Independence.v
Unfolding.v
Configuration.v
Cex.v
ColorProofs.v
UnfoldingProofs.v
DedupProofs.v
Scenario.v
Dependence.v
Heads.v
Booking.v
ConfInv.v
OpBase.v
OpProofs.v
OpCond.v
Startup.v
System.v
TraceProofs.v
Machine.v
MachineSteps.v
MachineTotal.v
SystemProps.v
CexProofs.v
Csd.v
Schedule.v
CsdProofs.v
CsdProps.v
Csd2.v
Csd2Base.v
Csd2Proofs.v
Csd2Props.v
Erv.v
ErvProofs.v
ErvProps.v
AltProps.v
Node.v
NodeInv.v
NodeOps.v
NodeCatch.v
NodeBranch.v
NodeRun.v
NodeDestroy.v
NodeProps.v
Findings.v
ObjectAccesses.v
AccessProofs.v
SharedProofs.v
RaceDetection.v
RaceWalk.v
RaceCheck.v
RaceDecide.v
Tracking.v
Monitor.v
World.v
RaceDemo.v
AccessProps.v
RaceProps.v
Solver.v
SolverProofs.v
Independent.v
IndependentProofs.v
MapOfSets.v
SolverChain.v
SolverProps.v
