(* ===== verification/Prelude.v ===== *)
(** * The partial-order library of POR-SE, its race detector and solver chain

    POR-SE explores the interleavings of a multi-threaded program up to
    partial-order equivalence. Its library (src/include/por, src/lib/Por)
    records what the threads do as events, keeps all events in one shared
    prime event structure, the unfolding, and represents a state of the
    program as a configuration, a causally closed and conflict-free set of
    events given by the last event of every thread. The symbolic executor
    asks a configuration for an extension, commits it, and later computes the
    conflicting extensions from which other interleavings start. A binary
    tree of nodes records what was explored: the left child of a node executes
    its event, the right child explores the executions without it. The executor
    checks every memory access for data races, with queries that a chain of
    solvers answers.

    ** Parts, files and source

    - Prelude: faults, the error monad [res] and its inversion tactics, the
      algorithms of <algorithm> with predicates that may fault. StdMap:
      std::map and std::set as sorted association lists.
    - ThreadId (thread_id.h): ids of threads as paths of 16-bit local ids;
      constructors, comparison, printing, parsing.
    - Event (event/*.h): the sixteen event classes as constructors of one
      data type, their accessors, the causal comparison [is_less_than].
      Alloc: the constructors with their asserts, one [alloc_*] per class.
    - Comb (comb.h, comb.cpp) and Cone (cone.h, cone.cpp, iterator.h): sets
      of events per thread, extremal events, enumeration of concurrent
      combinations; vector clocks, iteration over causes, set difference.
    - Independence and Unfolding (event.cpp, unfolding.h, unfolding.cpp):
      [is_independent_of], [is_extension_of], cutoffs, immediate conflicts,
      deduplication, removal, colours, [compute_alternative].
    - Configuration (configuration.h, configuration.cpp): construction from
      startup threads, the fifteen operations, [commit], iteration. Cex: the
      conflicting extensions of a configuration.
    - Erv (erv.cpp): the total order on local configurations by size, Parikh
      vector and Foata normal form. Csd (csd.cpp): the searches for the
      context-switch degree of an event, with the 64-bit arithmetic of csd_t.
      Csd2 (csd2.cpp, csd.h): the implementation in use, which counts
      preemptions and keeps one state that is advanced and reverted.
    - Node (node.h, node.cpp): the exploration tree, its branches and
      schedules, replaying events, right branches for alternatives,
      backtracking and the destructor. NodeRun: the steps in which the
      executor builds the tree.
    - ObjectAccesses, RaceDetection (lib/Core/RaceDetection and
      Executor::processMemoryAccess): the data race detector of an execution
      state: per thread and event the accesses to every memory object, in
      lists that forked states share until one of them writes; the check of a
      new access without and with the solver.
    - Solver (klee/Solver/{Solver, SolverImpl, IncompleteSolver}.h,
      lib/Solver/{Solver, SolverImpl, IncompleteSolver, ValidatingSolver,
      AssignmentValidatingSolver, CachingSolver}.cpp, lib/Core/TimingSolver.cpp,
      StateBoundTimingSolver.h), Independent (IndependentSolver.cpp), MapOfSets
      (MapOfSets.h), SolverChain (CexCachingSolver.cpp,
      ConstructSolverChain.cpp): the layers through which the detector's
      queries pass before they reach a core solver.
    - Scenario, System: a driver for the operations, and the step relation of
      several configurations over one unfolding (operations, copies and
      insertions of conflicting extensions, in any order). World: execution
      states, each with a configuration, a path condition and a detector, that
      perform events, access memory, fork and terminate. Machine: the
      abstract specification, threads with a status, locks that are free,
      held or destroyed, condition variables with their waiting threads.

    The remaining files hold the proofs: Causality (the invariant of stored
    events), AllocProofs, HeapExt, Order, Walks, CombEnum and CombProofs (the
    causal order, cones, combs and iteration), ColorProofs, UnfoldingProofs,
    DedupProofs, Dependence (the unfolding), Heads, Booking, ConfInv, OpBase,
    OpProofs, OpCond, Startup, TraceProofs (the configuration), MachineSteps,
    MachineTotal (the refinement of the machine), CexProofs (the conflicting
    extensions of acquisitions), Schedule, CsdProofs, Csd2Base, Csd2Proofs
    (context switches of executions), ErvProofs (the order on local
    configurations), NodeInv, NodeOps, NodeCatch, NodeBranch, NodeDestroy (the
    tree), AccessProofs, SharedProofs, Tracking (what the access lists
    record), RaceWalk, RaceCheck and RaceDecide (the race check), Monitor (the
    detector against the history of a state), SolverProofs, IndependentProofs
    (the contract of the solvers, slices and factors). EventProps, SystemProps,
    CexProofs, CsdProps, Csd2Props, ErvProps, AltProps, NodeProps, AccessProps,
    RaceProps and SolverProps state the main theorems with their witnesses; Demo, System,
    NodeRun and RaceDemo build the concrete event structures, runs, trees and
    worlds the witnesses use; Findings, Csd2Props, AccessProps, RaceProps and
    SolverProps also evaluate runs in which the code misbehaves.

    ** Representation

    - An object on the heap is an address (N) in a finite map [heap]; operator
      new is the class [Allocator], which promises a fresh address. Sorting
      by pointer value sorts by address. The template payload of local events
      and the fingerprint types of the metadata are the class [Payload].
    - The mutable fields of events (successors, conflicts, colours, metadata,
      cutoff) are fields of the record [event]; [same_core] relates two
      versions of an event with equal immutable fields, [heap_ext] two heaps.
    - asserts are on and LIBPOR_CHECKED is off: a failed assert, a null
      dereference, an access out of range and undefined behaviour are the
      faults of [res].
    - std::size_t depths and sizes are [nat]; the event counter of the
      unfolding wraps at 2^64, local thread ids at 2^16, colours are unbounded.
    - A loop over pointers has fuel: the depth of an event for walks along a
      thread, the number of events for searches along successors, the number
      of edges for the cutoff search. The theorems that say a function
      returns show that this suffices; [compute_alternative] takes its fuel
      as an argument, and some fuel gives its result. Walks up the tree have
      the next unused address as fuel, since children are younger than their
      parents; the destructor has three rounds for every node.
    - The nodes of the tree and the configurations they share are kept by
      address in the record [tree]; the execution states attached to nodes are
      opaque.

    - Symbolic expressions and the solver are the classes [ExprLib], [ExprSem]
      and the record [SolverInterface]; [solver_sound] is what the detector
      relies on. Access lists live in a store with use counts; a failed
      acquisition is a fault. std::size_t offsets wrap at 2^64; accesses that
      reach beyond the address space are excluded by [operation_ok].
    - The solver layers use expressions through [QueryLib], whose laws
      [QuerySem] say what an expression evaluates to and which bytes it reads.
      A solver is a record of methods over a state of its own and of those
      below; a method that returns false has no answer, [None]. [impl_ok] is the
      documented contract of SolverImpl; core solvers, the fast counterexample
      solver and oracles are parameters that keep it. The searches of getRange
      have 65 rounds, since each halves an interval of 64-bit numbers; a pass of
      the independence search that is not the last takes a constraint off its
      list, so one more pass than constraints suffices.

    ** What is proved

    - The constructors establish the invariant [wf_heap]: predecessors are
      stored, depth and cone describe the causal past. On conflict-free sets
      [is_less_than] decides the causal order; iteration, [setminus], the
      extremal events, immediate predecessors and the concurrent combinations
      are exact (EventProps).
    - [deduplicate] keeps the invariant [uf_ok] of the unfolding, stores every
      event once, and records exactly the immediate conflicts;
      [is_independent_of] is total and symmetric; [mark_as_cutoff] marks
      exactly the events above (SystemProps).
    - Every operation hands out only extensions that [commit] accepts, and
      committing keeps the invariant [conf_ok]. Hence in every reachable state
      configurations are traces (closed, conflict-free, dependent events
      ordered, where the order of two signals that both notify a thread is an
      obligation of the client), acquisitions of a lock exclude each other, waits and
      notifications are paired, waiting lists and iteration are exact, and
      configurations do not disturb each other (SystemProps). The obligations
      of the client that the code does not check are the premise
      [admissible]; the client does not keep one of them, that notifying signals
      on one condition variable are ordered, on every run (Findings).
    - Under these obligations an operation is performed exactly when the
      abstract machine can step, and both reach the same abstract state
      (SystemProps).

    - The conflicting extensions of an acquisition are exactly the other
      acquisitions of the lock (CexProofs). [compute_csd_1] is the least number
      of context switches over all executions of a local configuration, and
      the bounded search agrees with it (CsdProps); like the code, executions
      take destroy events to race with nothing ([must_precede]). The comparison
      of local configurations is a strict total order that refines causality on
      events with pairwise distinct metadata ids, which [deduplicate] does not
      always keep distinct (Findings), and the levels of the Foata normal form
      are exact (ErvProps).
    - The implementation in use returns for programs that notify and destroy
      only what they have synchronised with ([disciplined]); it never calls an
      event above the limit that an execution within the limit reaches
      (Csd2Props). Without this premise the search can get stuck, and its
      result is not the least number of preemptions (Csd2Props).
    - [compute_alternative] finds exactly the immediate conflicts of an excluded
      event that fit the configuration; in every reachable state the recorded
      conflicts separate dependent events, so the alternative can be scheduled
      after the configuration (AltProps).
    - In every reachable tree a left child adds exactly the event of its
      parent, a right child excludes it; the schedule of a node lists the
      events of its configuration in a causal order; replaying and right
      branches rebuild exactly these schedules; the destructor removes every
      node; [backtrack] removes none, which is not what it is for (NodeProps).
    - In every reachable world each detector has recorded exactly what its own
      state accessed, list by list the use counts are right, and [isDataRace]
      decides races: it answers that there is one exactly if the operation
      conflicts, for some feasible values, with an access of another thread
      that does not happen before it; [processMemoryAccess] terminates the
      state exactly then (RaceProps). FREE operations and the accesses that they
      prune are not part of this history, as in the code. The premise, part of
      every step of a world ([undisturbed]), is that no access straddles
      the end of a new one of its own thread: then the code records too many
      bytes, and AccessProps shows how they turn into lost ones. While a list
      is shared some accesses fail instead of being recorded (RaceProps).
    - Over a core solver that keeps the contract every layer and the whole
      chain keep it, whatever the caches hold, and the detector's interface to
      the chain is a sound solver. The slice of constraints passed on is exact
      and leaves the answers unchanged; the initial values put together from
      independent factors solve the whole query; getRange gives the exact range;
      the map of sets finds a subset or superset whenever there is one
      (SolverProps).

    ** Not modelled

    String output (to_string, to_dotgraph, print_statistics) and the
    LIBPOR_CHECKED self checks; the destructor of the unfolding; the rest of the
    executor (lib/Core) and of klee, whose calls on the library are the steps
    of System, NodeRun and World. Of the solvers: the core solvers and the fast
    counterexample solver, which are interfaces; the logging solvers, the
    cross-check whose oracle is the core solver of the chain itself, status
    codes, times and statistics other than the counters of the cache; of the map
    of sets its iterator and the lists of all subsets and supersets. [create_right_branches] is modelled, but that its
    alternatives are free of conflicts with the configuration is a premise of
    the theorem about [make_right_branch]. *)

From stdpp Require Import base tactics list gmap sorting numbers option.

(** ** Faults and the error monad

    Every run of the modelled code either returns a value or stops at one of
    these faults: a failed [assert], a dereferenced null or dangling pointer,
    a container access out of range ([std::map::at], a vector index), an
    operation the C++ standard leaves undefined, or an exhausted loop bound
    of the model. *)

Inductive fault : Set :=
  | AssertFailed
  | NullDeref
  | OutOfRange
  | UndefinedBehaviour
  | OutOfFuel.

#[export] Instance fault_eq_dec : EqDecision fault.
Proof. solve_decision. Defined.

Inductive res (A : Type) : Type :=
  | Ok (a : A)
  | Err (f : fault).
Arguments Ok {A} a.
Arguments Err {A} f.

#[export] Instance res_ret : MRet res := @Ok.
#[export] Instance res_bind : MBind res := λ A B f m,
  match m with Ok a => f a | Err e => Err e end.
#[export] Instance res_fmap : FMap res := λ A B f m,
  match m with Ok a => Ok (f a) | Err e => Err e end.

(** [assert(b)] of a build without [NDEBUG]. *)
Definition cassert (b : bool) : res unit :=
  if b then Ok tt else Err AssertFailed.

(** [*p] for a nullable pointer. *)
Definition nonnull {A} (p : option A) : res A :=
  match p with Some a => Ok a | None => Err NullDeref end.

(** [v.at(i)]. *)
Definition in_range {A} (p : option A) : res A :=
  match p with Some a => Ok a | None => Err OutOfRange end.

(** A range-based [for] loop that updates a local accumulator. *)
Fixpoint for_each {A B} (f : B → A → res B) (b : B) (l : list A) : res B :=
  match l with
  | [] => Ok b
  | x :: l' => b' ← f b x; for_each f b' l'
  end.

(** [std::any_of], [std::all_of], [std::find_if] and [std::remove_if] with a
    predicate that may fault. *)
Fixpoint any_of {A} (f : A → res bool) (l : list A) : res bool :=
  match l with
  | [] => Ok false
  | x :: l' => b ← f x; if (b : bool) then Ok true else any_of f l'
  end.

Fixpoint all_of {A} (f : A → res bool) (l : list A) : res bool :=
  match l with
  | [] => Ok true
  | x :: l' => b ← f x; if (b : bool) then all_of f l' else Ok false
  end.

Fixpoint find_if {A} (f : A → res bool) (l : list A) : res (option A) :=
  match l with
  | [] => Ok None
  | x :: l' => b ← f x; if (b : bool) then Ok (Some x) else find_if f l'
  end.

Fixpoint filter_res {A} (f : A → res bool) (l : list A) : res (list A) :=
  match l with
  | [] => Ok []
  | x :: l' =>
      b ← f x; r ← filter_res f l'; Ok (if (b : bool) then x :: r else r)
  end.

(** [std::sort] with a comparator that may fault: an insertion sort. The C++
    algorithm is unspecified only on elements the comparator leaves
    unordered. *)
Fixpoint sort_insert {A} (less : A → A → res bool) (x : A) (l : list A)
    : res (list A) :=
  match l with
  | [] => Ok [x]
  | y :: l' =>
      b ← less y x;
      if (b : bool) then r ← sort_insert less x l'; Ok (y :: r)
      else Ok (x :: y :: l')
  end.

Fixpoint std_sort {A} (less : A → A → res bool) (l : list A) : res (list A) :=
  match l with
  | [] => Ok []
  | x :: l' => r ← std_sort less l'; sort_insert less x r
  end.

(** ** Inversion of monadic computations *)

Lemma bind_ok {A B} (m : res A) (f : A → res B) b :
  m ≫= f = Ok b ↔ ∃ a, m = Ok a ∧ f a = Ok b.
Proof.
  destruct m; unfold mbind, res_bind; split; [eauto | | discriminate |];
    intros (? & [= ->] & ?); done.
Qed.

Lemma fmap_ok {A B} (m : res A) (f : A → B) b :
  f <$> m = Ok b ↔ ∃ a, m = Ok a ∧ b = f a.
Proof.
  destruct m; unfold fmap, res_fmap; split; [intros [= <-]; eauto | | discriminate |];
    intros (? & [= ->] & ->); done.
Qed.

Lemma cassert_ok b u : cassert b = Ok u ↔ b = true.
Proof. destruct b, u; unfold cassert; naive_solver. Qed.

Lemma nonnull_ok {A} (p : option A) a : nonnull p = Ok a ↔ p = Some a.
Proof. destruct p; unfold nonnull; naive_solver. Qed.

Lemma in_range_ok {A} (p : option A) a : in_range p = Ok a ↔ p = Some a.
Proof. destruct p; unfold in_range; naive_solver. Qed.

Lemma ok_inj {A} (a b : A) : Ok a = Ok b ↔ a = b.
Proof. naive_solver. Qed.

Lemma err_ok {A} (a : A) f : Err f = Ok a ↔ False.
Proof. naive_solver. Qed.

(** [mret] on [res] is [Ok]; the equation lets [rewrite] see through binds. *)
Lemma bind_Ok_l {A B} (a : A) (f : A → res B) : Ok a ≫= f = f a.
Proof. done. Qed.

Lemma bind_Err_l {A B} e (f : A → res B) : Err e ≫= f = Err e.
Proof. done. Qed.

(** Computations of the monad simplify with [autorewrite with por]; the
    components add the order lemmas they use to the database. *)
Create HintDb por.
#[export] Hint Rewrite @bind_Ok_l @bind_Err_l : por.

(** [res_inv] turns a hypothesis [m = Ok a] into the equations of its parts,
    and splits the branches it went through. *)
Ltac res_inv_step :=
  match goal with
  | H : Err _ = Ok _ |- _ => discriminate H
  | H : Ok _ = Err _ |- _ => discriminate H
  | H : Ok _ = Ok _ |- _ => injection H as H; try subst
  | H : mbind _ _ = Ok _ |- _ =>
      apply bind_ok in H; destruct H as (? & ? & ?)
  | H : fmap _ _ = Ok _ |- _ =>
      apply fmap_ok in H; destruct H as (? & ? & ?); try subst
  | H : cassert _ = Ok _ |- _ => apply cassert_ok in H
  | H : nonnull _ = Ok _ |- _ => apply nonnull_ok in H
  | H : in_range _ = Ok _ |- _ => apply in_range_ok in H
  | u : unit |- _ => destruct u
  end.
Ltac res_inv := repeat res_inv_step.

(** Case split on the scrutinee of a match that an [= Ok _] hypothesis went
    through. *)
Ltac res_case :=
  match goal with
  | H : (match ?x with _ => _ end) = Ok _ |- _ =>
      lazymatch x with context [match _ with _ => _ end] => fail | _ =>
      let E := fresh "E" in destruct x eqn:E; try discriminate H end
  end.
Ltac res_crush := repeat first [progress res_inv | res_case].

(** ** Loop lemmas *)

Lemma for_each_app {A B} (f : B → A → res B) b l1 l2 :
  for_each f b (l1 ++ l2) = (b' ← for_each f b l1; for_each f b' l2).
Proof.
  revert b; induction l1 as [|x l1 IH]; intros b; simpl; [done|].
  destruct (f b x); simpl; [apply IH | done].
Qed.

(** Invariant rule of [for_each]. *)
Lemma for_each_inv {A B} (P : list A → B → Prop) (f : B → A → res B) b l b' :
  P [] b →
  (∀ done x c c', P done c → x ∈ l → f c x = Ok c' → P (done ++ [x]) c') →
  for_each f b l = Ok b' → P l b'.
Proof.
  intros H0 Hs. enough (∀ l2 l1 c, l = l1 ++ l2 → P l1 c →
      for_each f c l2 = Ok b' → P l b') as Hgen by (by apply (Hgen l [] b)).
  induction l2 as [|x l2 IH]; intros l1 c -> HP Hf; simpl in Hf.
  - res_inv. by rewrite app_nil_r.
  - res_inv. eapply (IH (l1 ++ [x])); [by rewrite <-app_assoc | | done].
    eapply Hs; [done | set_solver | done].
Qed.

(** [for_each] returns whenever its body does under the invariant. *)
Lemma for_each_total {A B} (P : B → Prop) (f : B → A → res B) b l :
  P b →
  (∀ x c, x ∈ l → P c → ∃ c', f c x = Ok c' ∧ P c') →
  ∃ b', for_each f b l = Ok b' ∧ P b'.
Proof.
  revert b; induction l as [|x l IH]; intros b HP Hs; simpl; [by eauto|].
  destruct (Hs x b) as (c & Hc & HPc); [set_solver | done |].
  rewrite Hc. simpl. apply IH; [done|]. intros; apply Hs; set_solver.
Qed.

Lemma any_of_spec {A} (f : A → res bool) (g : A → bool) l :
  (∀ x, x ∈ l → f x = Ok (g x)) → any_of f l = Ok (existsb g l).
Proof.
  induction l as [|x l IH]; intros H; simpl; [done|].
  rewrite H by set_solver. simpl.
  destruct (g x); simpl; [done|]. apply IH; set_solver.
Qed.

Lemma all_of_spec {A} (f : A → res bool) (g : A → bool) l :
  (∀ x, x ∈ l → f x = Ok (g x)) → all_of f l = Ok (forallb g l).
Proof.
  induction l as [|x l IH]; intros H; simpl; [done|].
  rewrite H by set_solver. simpl.
  destruct (g x); simpl; [|done]. apply IH; set_solver.
Qed.

Lemma filter_res_spec {A} (f : A → res bool) (g : A → bool) l :
  (∀ x, x ∈ l → f x = Ok (g x)) → filter_res f l = Ok (List.filter g l).
Proof.
  induction l as [|x l IH]; intros H; simpl; [done|].
  rewrite H by set_solver. simpl. rewrite IH by set_solver. simpl.
  by destruct (g x).
Qed.

(** What a filter that returned has kept. *)
Lemma filter_res_elem {A} (f : A → res bool) l r x :
  filter_res f l = Ok r → x ∈ l → ∃ b, f x = Ok b ∧ (b = true → x ∈ r).
Proof.
  revert r. induction l as [|y l IH]; intros r Hr Hx; [by apply elem_of_nil in Hx|].
  simpl in Hr. res_inv. apply elem_of_cons in Hx as [->|Hx].
  - eexists. split; [done|]. intros ->. by left.
  - match goal with H : filter_res f l = Ok ?r |- _ => destruct (IH r H Hx) as (b & Hb & Hm) end.
    exists b. split; [done|]. intros Hbt%Hm. by case_match; [right|].
Qed.

Lemma filter_res_sub {A} (f : A → res bool) l r x : filter_res f l = Ok r → x ∈ r → x ∈ l.
Proof.
  revert r. induction l as [|y l IH]; intros r Hr Hx; simpl in Hr; res_inv;
    [by apply elem_of_nil in Hx|].
  match goal with H : context [if ?b then _ else _] |- _ => destruct b end.
  - apply elem_of_cons in Hx as [->|Hx]; [by left | right; eauto].
  - right; eauto.
Qed.

Lemma filter_res_kept {A} (f : A → res bool) l r x : filter_res f l = Ok r → x ∈ r → f x = Ok true.
Proof.
  revert r. induction l as [|y l IH]; intros r Hr Hx; simpl in Hr.
  { injection Hr as <-. by apply elem_of_nil in Hx. }
  apply bind_ok in Hr as (b & Hb & (r' & Hr' & [= <-])%bind_ok). destruct b; [|by eapply IH].
  apply elem_of_cons in Hx as [->|Hx]; [done | by eapply IH].
Qed.

Lemma find_if_some {A} (f : A → res bool) l x :
  find_if f l = Ok (Some x) → x ∈ l ∧ f x = Ok true.
Proof.
  induction l as [|y l IH]; simpl; [done|]. intros (b & Hb & H)%bind_ok. destruct b.
  - injection H as <-. split; [by left | done].
  - destruct (IH H). split; [by right | done].
Qed.

(** ** Sorting *)

Lemma sort_insert_perm {A} (less : A → A → res bool) x l l' :
  sort_insert less x l = Ok l' → l' ≡ₚ x :: l.
Proof.
  revert l'; induction l as [|y l IH]; intros l' H; simpl in H; res_crush; auto.
  match goal with H : sort_insert _ _ _ = _ |- _ => rewrite (IH _ H) end.
  apply Permutation_swap.
Qed.

Lemma std_sort_perm {A} (less : A → A → res bool) l l' :
  std_sort less l = Ok l' → l' ≡ₚ l.
Proof.
  revert l'; induction l as [|x l IH]; intros l' H; simpl in H; res_inv; [done|].
  match goal with H : sort_insert _ _ _ = _ |- _ =>
    rewrite (sort_insert_perm _ _ _ _ H) end.
  match goal with H : std_sort _ _ = _ |- _ => by rewrite (IH _ H) end.
Qed.

(** Sorting by a comparator that decides a transitive total relation gives
    the strongly sorted permutation. *)
Lemma std_sort_sorted {A} (less : A → A → res bool) (lt : A → A → bool) l :
  (∀ x y, x ∈ l → y ∈ l → less x y = Ok (lt x y)) →
  (∀ x y z, x ∈ l → y ∈ l → z ∈ l → lt y x = false → lt z y = false → lt z x = false) →
  (∀ x y, x ∈ l → y ∈ l → lt x y = true → lt y x = false) →
  ∃ l', std_sort less l = Ok l' ∧ l' ≡ₚ l ∧
    StronglySorted (λ x y, lt y x = false) l'.
Proof.
  induction l as [|x l IH]; intros Hok Htr Has; simpl.
  { exists []. split_and!; [done | done | constructor]. }
  destruct IH as (r & -> & Hp & Hs).
  { intros; apply Hok; set_solver. }
  { intros a b c ???. apply Htr; set_solver. }
  { intros; apply Has; set_solver. }
  simpl. assert (∀ y, y ∈ r → y ∈ l) as Hin by (intros y; by rewrite Hp).
  enough (∃ l', sort_insert less x r = Ok l' ∧ l' ≡ₚ x :: r ∧
      StronglySorted (λ x y, lt y x = false) l') as (l' & ? & Hp' & ?).
  { exists l'. split_and!; [done | by rewrite Hp', Hp | done]. }
  clear Hp. induction r as [|y r IHr]; simpl.
  { exists [x]. split_and!; [done | done | repeat constructor]. }
  apply StronglySorted_inv in Hs as [Hs Hy].
  assert (y ∈ l) as Hyl by (apply Hin; left).
  rewrite Hok by (by constructor). simpl. destruct (lt y x) eqn:E.
  - destruct IHr as (l' & -> & Hp' & Hs'); [done | by intros; apply Hin; right |].
    exists (y :: l'). split; [done|]. split.
    { by rewrite Hp', Permutation_swap. }
    constructor; [done|]. rewrite Hp'. constructor; [|done].
    apply Has; [by right | by left | done].
  - exists (x :: y :: r). split_and!; [done | done |].
    constructor; [by constructor|]. constructor; [done|].
    rewrite List.Forall_forall in Hy |- *. intros z Hz.
    apply (Htr x y z); [by left | by right | | done | by apply Hy].
    right. apply Hin. right. by apply list_elem_of_In.
Qed.

(** ** Lists *)

Lemma filter_true_id {A} (l : list A) : List.filter (λ _, true) l = l.
Proof. induction l; simpl; congruence. Qed.

Lemma elem_of_list_filter_b {A} (g : A → bool) l x :
  x ∈ List.filter g l ↔ x ∈ l ∧ g x = true.
Proof. rewrite !list_elem_of_In, filter_In. done. Qed.

Lemma existsb_elem_of {A} (g : A → bool) l :
  existsb g l = true ↔ ∃ x, x ∈ l ∧ g x = true.
Proof.
  rewrite existsb_exists. by setoid_rewrite list_elem_of_In.
Qed.

Lemma forallb_elem_of {A} (g : A → bool) l :
  forallb g l = true ↔ ∀ x, x ∈ l → g x = true.
Proof.
  rewrite forallb_forall. by setoid_rewrite list_elem_of_In.
Qed.

Lemma Forall2_elem_r {A B} (R : A → B → Prop) l k y :
  Forall2 R l k → y ∈ k → ∃ x, x ∈ l ∧ R x y.
Proof.
  induction 1 as [|a b l k Hab _ IH]; [by intros ?%elem_of_nil|].
  intros [->|Hy]%elem_of_cons; [exists a; split; [by left | done]|].
  destruct (IH Hy) as (x & ? & ?). exists x. split; [by right | done].
Qed.
