(* ===== verification/StdMap.v ===== *)
(** * The ordered associative containers of the standard library

    [std::map<K, V>] and [std::set<K>] as lists sorted by the key's [operator<]:
    iterating the list is iterating the container, and every search goes by
    the comparator alone, as the red-black tree's does. The laws of the
    comparator are a class, so that each key type (thread ids, lock ids, the
    tuples of the unfolding) proves them once. *)

From stdpp Require Import base tactics list sorting.
From S2P Require Import Prelude.

Class StdLess (K : Type) := std_less : K → K → bool.

Class StdLessLaws (K : Type) `{StdLess K} := {
  less_irrefl (a : K) : std_less a a = false;
  less_trans (a b c : K) :
    std_less a b = true → std_less b c = true → std_less a c = true;
  less_total (a b : K) :
    std_less a b = false → std_less b a = false → a = b;
}.

Definition smap (K V : Type) : Type := list (K * V).
Bind Scope list_scope with smap.

Section operations.
Context {K V : Type} `{StdLess K}.

(** [m.find(k)]. *)
Fixpoint smap_find (k : K) (m : smap K V) : option V :=
  match m with
  | [] => None
  | (k', v') :: m' =>
      if std_less k k' then None
      else if std_less k' k then smap_find k m'
      else Some v'
  end.

(** [m.count(k) != 0]. *)
Definition smap_has (k : K) (m : smap K V) : bool :=
  match smap_find k m with Some _ => true | None => false end.

(** [m.at(k)]. *)
Definition smap_at (k : K) (m : smap K V) : res V := in_range (smap_find k m).

(** [m[k] = v]. *)
Fixpoint smap_set (k : K) (v : V) (m : smap K V) : smap K V :=
  match m with
  | [] => [(k, v)]
  | (k', v') :: m' =>
      if std_less k k' then (k, v) :: (k', v') :: m'
      else if std_less k' k then (k', v') :: smap_set k v m'
      else (k', v) :: m'
  end.

(** [m.emplace(k, v)]: an existing element is kept. *)
Definition smap_emplace (k : K) (v : V) (m : smap K V) : smap K V :=
  match smap_find k m with Some _ => m | None => smap_set k v m end.

(** [m.erase(k)]. *)
Fixpoint smap_erase (k : K) (m : smap K V) : smap K V :=
  match m with
  | [] => []
  | (k', v') :: m' =>
      if std_less k k' then (k', v') :: m'
      else if std_less k' k then (k', v') :: smap_erase k m'
      else m'
  end.

Definition smap_keys (m : smap K V) : list K := m.*1.
Definition smap_vals (m : smap K V) : list V := m.*2.

(** The representation invariant: strictly ascending keys. *)
Definition smap_sorted (m : smap K V) : Prop :=
  StronglySorted (λ p q, std_less p.1 q.1 = true) m.
End operations.

Definition sset (K : Type) : Type := smap K unit.

Section sset.
Context {K : Type} `{StdLess K}.
(** [s.insert(k)] and [s.count(k)]. *)
Definition sset_insert (k : K) (s : sset K) : sset K := smap_emplace k tt s.
Definition sset_has (k : K) (s : sset K) : bool := smap_has k s.
End sset.

Section laws.
Context {K V : Type} `{StdLessLaws K}.
Implicit Types (m : smap K V) (k : K) (v : V).

Lemma less_asym (a b : K) : std_less a b = true → std_less b a = false.
Proof.
  intros H1. destruct (std_less b a) eqn:H2; [|done].
  pose proof (less_trans _ _ _ H1 H2) as Hc. by rewrite less_irrefl in Hc.
Qed.

Lemma less_ne (a b : K) : std_less a b = true → a ≠ b.
Proof. intros Hl ->. by rewrite less_irrefl in Hl. Qed.

(** Three-way case analysis on two keys. *)
Lemma less_cases (a b : K) :
  (a = b ∧ std_less a b = false ∧ std_less b a = false) ∨
  (std_less a b = true ∧ std_less b a = false ∧ a ≠ b) ∨
  (std_less a b = false ∧ std_less b a = true ∧ a ≠ b).
Proof.
  destruct (std_less a b) eqn:E1; [right; left|].
  { split_and!; [done | by apply less_asym | by apply less_ne]. }
  destruct (std_less b a) eqn:E2; [right; right | left].
  - split_and!; [done.. |]. intros ->. by rewrite less_irrefl in E2.
  - split_and!; [by apply less_total | done | done].
Qed.

Lemma smap_find_set_eq k v m : smap_find k (smap_set k v m) = Some v.
Proof.
  induction m as [|[k' v'] m IH]; simpl; [by rewrite less_irrefl|].
  destruct (less_cases k k') as [(-> & E1 & E2)|[(E1 & E2 & ?)|(E1 & E2 & ?)]];
    rewrite E1; try rewrite E2; simpl; rewrite ?less_irrefl, ?E1, ?E2; done.
Qed.

Lemma smap_find_set_ne k k' v m :
  k ≠ k' → smap_find k' (smap_set k v m) = smap_find k' m.
Proof.
  intros Hne. induction m as [|[k1 v1] m IH]; simpl.
  { destruct (less_cases k k') as [(-> & ? & ?)|[(E1 & E2 & ?)|(E1 & E2 & ?)]];
      [done | |]; rewrite ?E1, ?E2; done. }
  destruct (less_cases k k1) as [(-> & E1 & E2)|[(E1 & E2 & ?)|(E1 & E2 & ?)]];
    rewrite E1; try rewrite E2; simpl.
  - destruct (less_cases k1 k') as [(-> & ? & ?)|[(E3 & E4 & ?)|(E3 & E4 & ?)]];
      [done | |]; by rewrite E4, ?E3.
  - destruct (less_cases k k') as [(-> & ? & ?)|[(E3 & E4 & ?)|(E3 & E4 & ?)]];
      [done | |]; rewrite E4, ?E3; [done|].
    by rewrite (less_trans _ _ _ E4 E1).
  - destruct (std_less k' k1); [done|]. destruct (std_less k1 k'); done.
Qed.

Lemma smap_find_set k k' v m :
  (k = k' ∧ smap_find k' (smap_set k v m) = Some v) ∨
  (k ≠ k' ∧ smap_find k' (smap_set k v m) = smap_find k' m).
Proof.
  destruct (less_cases k k') as [(-> & _)|[(_ & _ & Hne)|(_ & _ & Hne)]].
  - left. split; [done | apply smap_find_set_eq].
  - right. split; [done | by apply smap_find_set_ne].
  - right. split; [done | by apply smap_find_set_ne].
Qed.

Lemma smap_set_length k v m :
  smap_find k m = None → length (smap_set k v m) = S (length m).
Proof.
  induction m as [|[k' v'] m IH]; simpl; [done|].
  destruct (std_less k k'); [done|]. destruct (std_less k' k); [|done].
  intros Hn. simpl. by rewrite IH.
Qed.

Lemma smap_find_emplace_same k v m :
  is_Some (smap_find k (smap_emplace k v m)).
Proof.
  unfold smap_emplace. destruct (smap_find k m) eqn:E; [by eauto|].
  rewrite smap_find_set_eq. eauto.
Qed.

(** Sortedness is kept by every operation. *)
Lemma smap_set_elem k v m p :
  p ∈ smap_set k v m → p.1 = k ∨ p ∈ m.
Proof.
  induction m as [|[k1 v1] m IH]; simpl.
  { intros ->%list_elem_of_singleton. by left. }
  destruct (less_cases k k1) as [(-> & E1 & E2)|[(E1 & E2 & ?)|(E1 & E2 & ?)]];
    rewrite E1; try rewrite E2; rewrite !elem_of_cons;
    [intros [->|?] | intros [->|[->|?]] | intros [->|?%IH]]; naive_solver.
Qed.

Lemma smap_sorted_nil : smap_sorted ([] : smap K V).
Proof. constructor. Qed.

Lemma smap_set_sorted k v m : smap_sorted m → smap_sorted (smap_set k v m).
Proof.
  unfold smap_sorted. induction 1 as [|[k1 v1] m Hm IH Hf]; simpl.
  { repeat constructor. }
  rewrite List.Forall_forall in Hf.
  destruct (less_cases k k1) as [(-> & E1 & E2)|[(E1 & E2 & ?)|(E1 & E2 & ?)]];
    rewrite E1; try rewrite E2; constructor; try done.
  - by apply List.Forall_forall.
  - constructor; [done|]. by apply List.Forall_forall.
  - apply List.Forall_forall. intros [k2 v2] [[= <- <-]|Hin]; [done|].
    eapply less_trans; [exact E1 | exact (Hf _ Hin)].
  - apply List.Forall_forall. intros p Hp%list_elem_of_In%smap_set_elem.
    destruct Hp as [->|Hp%list_elem_of_In]; [done | by apply Hf].
Qed.

Lemma smap_emplace_sorted k v m :
  smap_sorted m → smap_sorted (smap_emplace k v m).
Proof.
  unfold smap_emplace. destruct (smap_find k m); [done | apply smap_set_sorted].
Qed.

Lemma smap_erase_elem k m p : p ∈ smap_erase k m → p ∈ m.
Proof.
  induction m as [|[k1 v1] m IH]; simpl; [done|].
  destruct (std_less k k1); [done|].
  destruct (std_less k1 k); rewrite ?elem_of_cons; naive_solver.
Qed.

Lemma smap_erase_sorted k m : smap_sorted m → smap_sorted (smap_erase k m).
Proof.
  unfold smap_sorted. induction 1 as [|[k1 v1] m Hm IH Hf]; simpl; [constructor|].
  destruct (std_less k k1); [by constructor|].
  destruct (std_less k1 k); [|done]. constructor; [done|].
  rewrite List.Forall_forall in Hf |- *.
  intros p Hp%list_elem_of_In%smap_erase_elem%list_elem_of_In. by apply Hf.
Qed.

Lemma smap_find_below k m :
  (∀ p, p ∈ m → std_less k p.1 = true) → smap_find k m = None.
Proof.
  destruct m as [|[k1 v1] m]; simpl; [done|]. intros Hb.
  specialize (Hb (k1, v1) (list_elem_of_here _ _)). simpl in Hb. by rewrite Hb.
Qed.

Lemma smap_elem_find k v m : smap_sorted m → (k, v) ∈ m ↔ smap_find k m = Some v.
Proof.
  unfold smap_sorted. induction 1 as [|[k1 v1] m Hm IH Hf]; simpl.
  { split; [by intros ?%elem_of_nil | done]. }
  rewrite List.Forall_forall in Hf. rewrite elem_of_cons.
  assert (∀ p, p ∈ m → std_less k1 p.1 = true) as Hf'.
  { intros p Hp%list_elem_of_In. by apply Hf. }
  destruct (less_cases k k1) as [(-> & E1 & E2)|[(E1 & E2 & ?)|(E1 & E2 & ?)]];
    rewrite E1; try rewrite E2.
  - split; [|intros [= ->]; by left]. intros [[= ->]|Hin]; [done|].
    apply Hf' in Hin. simpl in Hin. by rewrite less_irrefl in Hin.
  - split; [|done]. intros [[= -> ->]|Hin]; [done|].
    apply Hf' in Hin. simpl in Hin. by rewrite (less_asym _ _ Hin) in E1.
  - rewrite <-IH. split; [|by right]. by intros [[= -> ->]|?].
Qed.

Lemma smap_find_erase_eq k m : smap_sorted m → smap_find k (smap_erase k m) = None.
Proof.
  unfold smap_sorted. induction 1 as [|[k1 v1] m Hm IH Hf]; simpl; [done|].
  destruct (less_cases k k1) as [(-> & E1 & E2)|[(E1 & E2 & ?)|(E1 & E2 & ?)]];
    rewrite E1; try rewrite E2; simpl; rewrite ?E1, ?E2; [|done..].
  apply smap_find_below. rewrite List.Forall_forall in Hf.
  intros p Hp%list_elem_of_In. by apply Hf.
Qed.

Lemma smap_find_erase_ne k k' m :
  smap_sorted m → k ≠ k' → smap_find k' (smap_erase k m) = smap_find k' m.
Proof.
  unfold smap_sorted. intros Hs Hne.
  induction Hs as [|[k1 v1] m Hm IH Hf]; simpl; [done|].
  destruct (less_cases k k1) as [(-> & E1 & E2)|[(E1 & E2 & ?)|(E1 & E2 & ?)]];
    rewrite E1; try rewrite E2; simpl; [| done |].
  - destruct (less_cases k' k1) as [(-> & ? & ?)|[(E3 & E4 & ?)|(E3 & E4 & ?)]];
      [done | |]; rewrite E3, ?E4; [|done].
    apply smap_find_below. rewrite List.Forall_forall in Hf.
    intros p Hp%list_elem_of_In. eapply less_trans; [done | by apply Hf].
  - destruct (std_less k' k1); [done|]. by destruct (std_less k1 k').
Qed.

(** Two sorted maps with the same lookups are the same container. *)
Lemma smap_ext m1 m2 :
  smap_sorted m1 → smap_sorted m2 →
  (∀ k, smap_find k m1 = smap_find k m2) → m1 = m2.
Proof.
  unfold smap_sorted. intros H1. revert m2.
  induction H1 as [|[k1 v1] m1 Hm1 IH Hf1]; intros m2 H2 Heq.
  { destruct m2 as [|[k v] m2]; [done|]. specialize (Heq k). simpl in Heq.
    by rewrite less_irrefl in Heq. }
  destruct H2 as [|[k2 v2] m2 Hm2 Hf2].
  { specialize (Heq k1). simpl in Heq. by rewrite less_irrefl in Heq. }
  rewrite List.Forall_forall in Hf1, Hf2.
  assert (k1 = k2) as <-.
  { pose proof (Heq k1) as Hk1. pose proof (Heq k2) as Hk2. simpl in *.
    rewrite less_irrefl in Hk1. rewrite less_irrefl in Hk2.
    destruct (less_cases k1 k2) as [(-> & _)|[(E1 & E2 & ?)|(E1 & E2 & ?)]];
      [done | by rewrite E1 in Hk1 | by rewrite E2 in Hk2]. }
  f_equal.
  - pose proof (Heq k1) as Hk1. simpl in *. rewrite less_irrefl in Hk1. congruence.
  - apply IH; [done|]. intros k. specialize (Heq k). simpl in Heq.
    destruct (less_cases k k1) as [(-> & E1 & E2)|[(E1 & E2 & ?)|(E1 & E2 & ?)]].
    + rewrite !smap_find_below; [done| |]; intros p Hp%list_elem_of_In;
        [by apply Hf2 | by apply Hf1].
    + rewrite !smap_find_below; [done| |]; intros p Hp%list_elem_of_In;
        (eapply less_trans; [exact E1 |]); [by apply Hf2 | by apply Hf1].
    + by rewrite E1, E2 in Heq.
Qed.

Lemma smap_sorted_nodup m : smap_sorted m → NoDup (smap_keys m).
Proof.
  unfold smap_sorted, smap_keys. induction 1 as [|[k1 v1] m Hm IH Hf]; simpl;
    constructor; [|done].
  rewrite List.Forall_forall in Hf. intros ([k2 v2] & Heq & Hin)%list_elem_of_fmap.
  simpl in Heq. subst. apply list_elem_of_In, Hf in Hin.
  simpl in Hin. by rewrite less_irrefl in Hin.
Qed.

End laws.

Lemma sset_has_insert {K} `{StdLessLaws K} (k k' : K) (s : sset K) :
  sset_has k' (sset_insert k s) = true ↔ k = k' ∨ sset_has k' s = true.
Proof.
  unfold sset_has, sset_insert, smap_has, smap_emplace.
  destruct (smap_find k s) as [[]|] eqn:E.
  - split; [by right|]. intros [->|?]; [by rewrite E | done].
  - destruct (smap_find_set k k' tt s) as [[-> ->]|[? ->]]; naive_solver.
Qed.

(** Lock and condition variable ids are [std::uint64_t]. *)
#[export] Instance N_less : StdLess N := N.ltb.
#[export] Instance N_less_laws : StdLessLaws N.
Proof.
  split; unfold std_less, N_less.
  - intros a. apply N.ltb_irrefl.
  - intros a b c. rewrite !N.ltb_lt. apply N.lt_trans.
  - intros a b. rewrite !N.ltb_ge. lia.
Qed.

(** The lexicographic order of [std::tuple]. *)
#[export] Instance pair_less {A B} `{StdLess A, StdLess B} : StdLess (A * B) :=
  λ p q, if std_less p.1 q.1 then true
         else if std_less q.1 p.1 then false else std_less p.2 q.2.

#[export] Instance pair_less_laws {A B} `{StdLessLaws A, StdLessLaws B} :
  StdLessLaws (A * B).
Proof.
  split.
  - intros [a b]. unfold std_less, pair_less. simpl. by rewrite !less_irrefl.
  - intros [a1 b1] [a2 b2] [a3 b3]. unfold std_less at 1 2 3, pair_less; simpl.
    destruct (less_cases a1 a2) as [(-> & E1 & E2)|[(E1 & E2 & ?)|(E1 & E2 & ?)]];
      rewrite E1; try rewrite E2; try done;
    destruct (less_cases a2 a3) as [(-> & E3 & E4)|[(E3 & E4 & ?)|(E3 & E4 & ?)]];
      rewrite ?E1, ?E2, ?E3, ?E4; try done; try apply less_trans.
    by rewrite (less_trans _ _ _ E1 E3).
  - intros [a1 b1] [a2 b2]. unfold std_less at 1 2, pair_less; simpl.
    destruct (less_cases a1 a2) as [(-> & E1 & E2)|[(E1 & E2 & ?)|(E1 & E2 & ?)]];
      rewrite E1; try rewrite E2; try done. intros. f_equal. by apply less_total.
Qed.
