(* ===== verification/ThreadId.v ===== *)
(** * Thread ids ([include/por/thread_id.h])

    A thread id is the sequence of 16-bit local ids on the path from the
    initial thread to the thread. This file models the comparison operators
    (the order of every [std::map] keyed by thread ids), the child
    constructor, and the printer and parser ([operator<<], [to_string],
    [from_string]) over character lists. *)

From Stdlib Require Import Ascii String.
From stdpp Require Import base tactics list numbers.
From S2P Require Import Prelude StdMap.

(** [thread_size_t] is [std::uint16_t]. *)
Definition thread_size_max : N := 65535.

Definition thread_id : Type := list N.

(** Every local id of a thread id is a non-zero 16-bit value. *)
Definition tid_wf (t : thread_id) : Prop :=
  Forall (λ n, (0 < n ≤ thread_size_max)%N) t.

#[export] Instance tid_wf_dec t : Decision (tid_wf t).
Proof. unfold tid_wf. apply _. Defined.

(** [thread_id()] and [thread_id(parent, localId)]. *)
Definition tid_root : thread_id := [].

Definition tid_child (parent : thread_id) (localId : N) : res thread_id :=
  _ ← cassert (negb (localId =? 0)%N);
  Ok (parent ++ [localId]).

(** [empty()]; [operator bool] is its negation. *)
Definition tid_empty (t : thread_id) : bool :=
  match t with [] => true | _ => false end.

(** [operator==]: equal sizes and [memcmp] of the arrays. *)
Fixpoint tid_memcmp_eq (lhs rhs : thread_id) : bool :=
  match lhs, rhs with
  | [], [] => true
  | x :: l, y :: r => (x =? y)%N && tid_memcmp_eq l r
  | _, _ => false
  end.

Definition tid_eqb (lhs rhs : thread_id) : bool :=
  Nat.eqb (length lhs) (length rhs) && tid_memcmp_eq lhs rhs.

(** The loop shared by the four ordering operators: it returns at the first
    index where the local ids differ. *)
Fixpoint tid_scan (before : N → N → bool) (lhs rhs : thread_id) : option bool :=
  match lhs, rhs with
  | x :: l, y :: r =>
      if before x y then Some true
      else if before y x then Some false
      else tid_scan before l r
  | _, _ => None
  end.

Definition N_gtb (x y : N) : bool := (y <? x)%N.

Definition tid_lt (lhs rhs : thread_id) : bool :=
  match tid_scan N.ltb lhs rhs with
  | Some b => b
  | None => Nat.ltb (length lhs) (length rhs)
  end.

Definition tid_gt (lhs rhs : thread_id) : bool :=
  match tid_scan N_gtb lhs rhs with
  | Some b => b
  | None => Nat.ltb (length rhs) (length lhs)
  end.

Definition tid_le (lhs rhs : thread_id) : bool :=
  match tid_scan N.ltb lhs rhs with
  | Some b => b
  | None => Nat.leb (length lhs) (length rhs)
  end.

Definition tid_ge (lhs rhs : thread_id) : bool :=
  match tid_scan N_gtb lhs rhs with
  | Some b => b
  | None => Nat.leb (length rhs) (length lhs)
  end.

#[export] Instance tid_less : StdLess thread_id := tid_lt.

(** ** Printing *)

Definition digit_char (d : N) : ascii := ascii_of_N (48 + d).

(** [os << entry] for an unsigned entry: the decimal digits, most significant
    first. [fuel] bounds the digits; five are enough for 16 bits. *)
Fixpoint decimal (fuel : nat) (n : N) : list ascii :=
  match fuel with
  | O => []
  | S fuel' =>
      if (n <? 10)%N then [digit_char n]
      else decimal fuel' (n / 10) ++ [digit_char (n mod 10)]
  end.

Definition print_lid (n : N) : list ascii := decimal 5 n.

(** [operator<<]: the entries separated by commas. *)
Fixpoint tid_print_rest (t : thread_id) : list ascii :=
  match t with
  | [] => []
  | n :: t' => ","%char :: print_lid n ++ tid_print_rest t'
  end.

Definition to_string (t : thread_id) : list ascii :=
  match t with
  | [] => []
  | n :: t' => print_lid n ++ tid_print_rest t'
  end.

(** ** Parsing *)

Definition is_digit (c : ascii) : bool :=
  (48 <=? N_of_ascii c)%N && (N_of_ascii c <=? 57)%N.

Definition digit_value (c : ascii) : N := (N_of_ascii c - 48)%N.

(** [sstream >> lid] on a stream that starts with a digit: the longest run of
    digits is consumed; a value above the type's range sets [failbit]
    ([None]). The end of the stream inside the run sets [eofbit], which is
    the case that nothing is left. *)
Fixpoint read_digits (acc : N) (s : list ascii) : N * list ascii :=
  match s with
  | c :: s' => if is_digit c then read_digits (acc * 10 + digit_value c) s' else (acc, s)
  | [] => (acc, [])
  end.

Definition extract_lid (s : list ascii) : option N * list ascii :=
  let '(v, rest) := read_digits 0 s in
  ((if (v <=? thread_size_max)%N then Some v else None), rest).

(** The loop of [from_string]. Each round consumes at least one character, so
    the length of the input bounds the rounds. *)
Fixpoint from_string_loop (fuel : nat) (tid : thread_id) (s : list ascii)
    : option thread_id :=
  match fuel with
  | O => None
  | S fuel' =>
      match s with
      | c :: _ =>
          if is_digit c then
            match extract_lid s with
            | (Some lid, rest) =>
                if (lid =? 0)%N then None
                else
                  let tid' := tid ++ [lid] in
                  match rest with
                  | [] => Some tid'
                  | c' :: rest' =>
                      if Ascii.eqb c' ","%char then from_string_loop fuel' tid' rest'
                      else None
                  end
            | (None, _) => None
            end
          else None
      | [] => None
      end
  end.

Definition from_string (s : list ascii) : option thread_id :=
  from_string_loop (S (length s)) tid_root s.

(** ** The operators are one total order *)

Lemma tid_memcmp_eq_spec l r : tid_memcmp_eq l r = true ↔ l = r.
Proof.
  revert r; induction l as [|x l IH]; intros [|y r]; simpl; try done.
  rewrite andb_true_iff, N.eqb_eq, IH. naive_solver.
Qed.

Lemma tid_eqb_spec l r : tid_eqb l r = true ↔ l = r.
Proof.
  unfold tid_eqb. rewrite andb_true_iff, Nat.eqb_eq, tid_memcmp_eq_spec.
  naive_solver.
Qed.

Lemma tid_lt_cons x y l r :
  tid_lt (x :: l) (y :: r) =
    if (x <? y)%N then true else if (y <? x)%N then false else tid_lt l r.
Proof.
  unfold tid_lt. simpl. destruct (x <? y)%N; [done|]. by destruct (y <? x)%N.
Qed.

#[export] Instance tid_less_laws : StdLessLaws thread_id.
Proof.
  split; unfold std_less, tid_less.
  - induction a as [|x a IH]; [done|]. by rewrite tid_lt_cons, N.ltb_irrefl.
  - induction a as [|x a IH]; intros [|y b] [|z c]; try done.
    rewrite !tid_lt_cons.
    destruct (N.ltb_spec x y), (N.ltb_spec y x), (N.ltb_spec y z), (N.ltb_spec z y),
      (N.ltb_spec x z), (N.ltb_spec z x); try done; try lia; apply IH.
  - induction a as [|x a IH]; intros [|y b]; try done.
    rewrite !tid_lt_cons.
    destruct (N.ltb_spec x y), (N.ltb_spec y x); try done.
    intros H1 H2. f_equal; [lia | by apply IH].
Qed.

Lemma tid_scan_gtb l r : tid_scan N_gtb l r = tid_scan N.ltb r l.
Proof.
  revert r; induction l as [|x l IH]; intros [|y r]; simpl; try done.
  unfold N_gtb at 1 2. by destruct (y <? x)%N, (x <? y)%N.
Qed.

Lemma tid_scan_swap l r :
  tid_scan N.ltb l r = negb <$> tid_scan N.ltb r l.
Proof.
  revert r; induction l as [|x l IH]; intros [|y r]; simpl; try done.
  destruct (N.ltb_spec x y), (N.ltb_spec y x); simpl; try done; lia.
Qed.

Lemma tid_operators_agree l r :
  tid_gt l r = tid_lt r l ∧
  tid_le l r = negb (tid_lt r l) ∧
  tid_ge l r = negb (tid_lt l r).
Proof.
  unfold tid_gt, tid_le, tid_ge, tid_lt. rewrite !tid_scan_gtb, (tid_scan_swap l r).
  destruct (tid_scan N.ltb r l) as [[]|]; simpl; try done.
  split_and!; [done | |]; destruct (Nat.ltb_spec (length r) (length l)),
    (Nat.leb_spec (length l) (length r)), (Nat.ltb_spec (length l) (length r)),
    (Nat.leb_spec (length r) (length l)); try done; lia.
Qed.

Lemma tid_lt_prefix t u : u ≠ [] → tid_lt t (t ++ u) = true.
Proof.
  intros Hu. induction t as [|x t IH]; simpl.
  - by destruct u.
  - by rewrite tid_lt_cons, N.ltb_irrefl.
Qed.

(** ** Printing and parsing are inverse *)

Lemma digit_char_digit d : (d < 10)%N → is_digit (digit_char d) = true.
Proof.
  intros Hd. unfold is_digit, digit_char. rewrite N_ascii_embedding by lia.
  apply andb_true_iff. rewrite !N.leb_le. lia.
Qed.

Lemma digit_value_char d : (d < 10)%N → digit_value (digit_char d) = d.
Proof.
  intros Hd. unfold digit_value, digit_char. rewrite N_ascii_embedding by lia. lia.
Qed.

Lemma read_digits_app acc s rest :
  forallb is_digit s = true →
  read_digits acc (s ++ rest) = read_digits (read_digits acc s).1 rest.
Proof.
  revert acc; induction s as [|c s IH]; intros acc Hs; simpl in *; [done|].
  apply andb_true_iff in Hs as [Hc Hs]. rewrite Hc. by apply IH.
Qed.

Lemma decimal_spec fuel n :
  (n < 10 ^ N.of_nat (S fuel))%N →
  forallb is_digit (decimal (S fuel) n) = true ∧
  (read_digits 0 (decimal (S fuel) n)).1 = n ∧
  decimal (S fuel) n ≠ [].
Proof.
  revert n; induction fuel as [|fuel IH]; intros n Hn.
  - simpl in Hn. simpl. destruct (N.ltb_spec n 10) as [Hlt|Hge]; [|lia].
    simpl. rewrite digit_char_digit, digit_value_char by done. done.
  - cbn [decimal]. destruct (N.ltb_spec n 10) as [Hlt|Hge].
    { simpl. rewrite digit_char_digit, digit_value_char by done. done. }
    assert (n / 10 < 10 ^ N.of_nat (S fuel))%N as Hdiv.
    { apply N.Div0.div_lt_upper_bound. 
      replace (N.of_nat (S (S fuel))) with (N.succ (N.of_nat (S fuel))) in Hn by lia.
      rewrite N.pow_succ_r' in Hn. lia. }
    assert (n mod 10 < 10)%N as Hmod by (apply N.mod_lt; lia).
    apply IH in Hdiv as (Hd & Hv & Hne).
    change (if (n / 10 <? 10)%N then _ else _) with (decimal (S fuel) (n / 10)).
    split_and!.
    + rewrite forallb_app, Hd. simpl. by rewrite digit_char_digit.
    + rewrite read_digits_app by done. rewrite Hv. simpl.
      rewrite digit_char_digit, digit_value_char by done. simpl.
      rewrite (N.div_mod n 10) at 3 by lia. lia.
    + destruct (decimal (S fuel) (n / 10)); done.
Qed.

Lemma read_digits_stop acc s rest :
  forallb is_digit s = true →
  match rest with [] => True | c :: _ => is_digit c = false end →
  read_digits acc (s ++ rest) = ((read_digits acc s).1, rest).
Proof.
  intros Hs Hr. rewrite read_digits_app by done.
  destruct rest as [|c rest]; simpl; [done|]. by rewrite Hr.
Qed.

Lemma extract_print n rest :
  (n ≤ thread_size_max)%N →
  match rest with [] => True | c :: _ => is_digit c = false end →
  extract_lid (print_lid n ++ rest) = (Some n, rest).
Proof.
  intros Hn Hr. unfold extract_lid, print_lid.
  destruct (decimal_spec 4 n) as (Hd & Hv & _).
  { unfold thread_size_max in Hn. simpl. lia. }
  rewrite read_digits_stop by done. rewrite Hv.
  by destruct (N.leb_spec n thread_size_max); [|lia].
Qed.

Lemma print_lid_head n :
  (n ≤ thread_size_max)%N → ∃ c s, print_lid n = c :: s ∧ is_digit c = true.
Proof.
  intros Hn. destruct (decimal_spec 4 n) as (Hd & _ & Hne).
  { unfold thread_size_max in Hn. simpl. lia. }
  unfold print_lid. destruct (decimal 5 n) as [|c s]; [done|].
  simpl in Hd. apply andb_true_iff in Hd as [??]. eauto.
Qed.

Lemma from_string_loop_print fuel acc n t :
  tid_wf (n :: t) → length t < fuel →
  from_string_loop fuel acc (print_lid n ++ tid_print_rest t) = Some (acc ++ n :: t).
Proof.
  revert acc n t; induction fuel as [|fuel IH]; intros acc n t Hwf Hf; [lia|].
  inversion Hwf as [|?? Hn Ht]; subst.
  destruct (print_lid_head n) as (c & s & Hc & Hdc); [lia|].
  assert (match tid_print_rest t with [] => True | c :: _ => is_digit c = false end)
    as Hr by (by destruct t).
  pose proof (extract_print n _ (proj2 Hn) Hr) as He.
  cbn [from_string_loop]. rewrite Hc in He |- *. cbn [app] in He |- *.
  rewrite Hdc, He. destruct (N.eqb_spec n 0) as [->|_]; [lia|].
  destruct t as [|n' t]; [done|]. cbn [tid_print_rest Ascii.eqb].
  simpl Ascii.eqb. cbv iota.
  replace (acc ++ n :: n' :: t) with ((acc ++ [n]) ++ n' :: t) by (by rewrite <-app_assoc).
  apply IH; [done | simpl in Hf; lia].
Qed.

Lemma length_tid_print_rest t : length t ≤ length (tid_print_rest t).
Proof. induction t as [|n t IH]; simpl; [done|]. rewrite length_app. lia. Qed.

Lemma parse_print t : tid_wf t → t ≠ [] → from_string (to_string t) = Some t.
Proof.
  intros Hwf Hne. destruct t as [|n t]; [done|].
  unfold from_string, to_string.
  rewrite from_string_loop_print; [done | done |].
  rewrite length_app. pose proof (length_tid_print_rest t). lia.
Qed.

Lemma from_string_loop_wf fuel acc s t :
  tid_wf acc → from_string_loop fuel acc s = Some t → tid_wf t ∧ t ≠ [].
Proof.
  revert acc s; induction fuel as [|fuel IH]; intros acc s Hacc; simpl; [done|].
  destruct s as [|c s]; [done|]. destruct (is_digit c); [|done].
  destruct (extract_lid (c :: s)) as [[lid|] rest] eqn:He; [|done].
  destruct (N.eqb_spec lid 0) as [->|Hlid]; [done|].
  assert (tid_wf (acc ++ [lid])) as Hacc'.
  { apply Forall_app. split; [done|]. constructor; [|constructor].
    unfold extract_lid in He. destruct (read_digits 0 (c :: s)) as [v r].
    destruct (N.leb_spec v thread_size_max); [|done]. injection He as -> ->. lia. }
  destruct rest as [|c' rest].
  { intros [= <-]. split; [done|]. by destruct acc. }
  destruct (Ascii.eqb c' ","); [|done]. by apply IH.
Qed.

(** C32: printing a thread id and parsing the result gives the thread id back,
    for every non-empty thread id of non-zero 16-bit local ids. *)
Theorem from_to_string t :
  tid_wf t → t ≠ [] → from_string (to_string t) = Some t.
Proof. apply parse_print. Qed.

(** Whatever [from_string] accepts is a non-empty thread id of non-zero
    16-bit local ids, and its printed form parses to the same id: values out
    of range, zeros, empty fields and trailing separators are rejected. *)
Theorem from_string_canonical s t :
  from_string s = Some t →
  tid_wf t ∧ t ≠ [] ∧ from_string (to_string t) = Some t.
Proof.
  intros [Hwf Hne]%from_string_loop_wf; [|constructor]. split_and!; [done..|].
  by apply parse_print.
Qed.

(** the comparison operators of thread ids, four hand-written loops and
    [operator==], are one strict total order, so thread ids can key a
    [std::map]; a thread is smaller than the threads it creates. *)
Theorem thread_id_order :
  (∀ a b c, tid_lt a b = true → tid_lt b c = true → tid_lt a c = true) ∧
  (∀ a b, (tid_lt a b = true ∧ tid_eqb a b = false ∧ tid_lt b a = false) ∨
          (tid_lt a b = false ∧ tid_eqb a b = true ∧ tid_lt b a = false) ∨
          (tid_lt a b = false ∧ tid_eqb a b = false ∧ tid_lt b a = true)) ∧
  (∀ a b, tid_gt a b = tid_lt b a ∧ tid_le a b = negb (tid_lt b a) ∧
          tid_ge a b = negb (tid_lt a b)) ∧
  (∀ a b, tid_eqb a b = true ↔ a = b) ∧
  (∀ a n b, tid_child a n = Ok b → tid_lt a b = true).
Proof.
  split_and!; [apply (less_trans (K := thread_id)) | | apply tid_operators_agree
    | apply tid_eqb_spec |].
  - intros a b. pose proof (tid_eqb_spec a b) as He.
    pose proof (less_trans (K := thread_id) a b a) as Ht.
    pose proof (less_irrefl (K := thread_id) a) as Hi.
    pose proof (less_total (K := thread_id) a b) as Hc.
    unfold std_less, tid_less in *.
    destruct (tid_lt a b) eqn:E1, (tid_lt b a) eqn:E2, (tid_eqb a b) eqn:E3; auto; exfalso;
      try (by rewrite Ht in Hi);
      try (assert (a = b) as Hab by (by apply He); subst; congruence).
    assert (false = true); [apply He, Hc; done | done].
  - intros a n b Hb. unfold tid_child in Hb. res_inv. by apply tid_lt_prefix.
Qed.

(** ** The theorems at concrete ids *)

Lemma from_to_string_witness : from_string (to_string [1; 65535; 20]%N) = Some [1; 65535; 20]%N.
Proof.
  apply (from_to_string [1; 65535; 20]%N); [|discriminate].
  refine (bool_decide_eq_true_1 _ _). vm_compute. reflexivity.
Defined.

Lemma from_string_canonical_witness :
  ∃ s, from_string s = Some [1; 20]%N ∧ tid_wf [1; 20]%N ∧ [1; 20]%N ≠ [] ∧
    from_string (to_string [1; 20]%N) = Some [1; 20]%N.
Proof.
  exists (list_ascii_of_string "01,020"). split; [vm_compute; reflexivity|].
  apply (from_string_canonical (list_ascii_of_string "01,020") [1; 20]%N).
  vm_compute. reflexivity.
Defined.
