(* ===== verification/Event.v ===== *)
(** * Events ([include/por/event/*.h]): data, accessors, causality test

    An event is a heap object; a pointer [event const*] is its address
    ([eid]). Each subclass of [por::event::event] is a constructor of
    [event_data] holding the fields of that class; the base-class fields are
    the record [event]. The virtual accessors are functions by cases on
    [event_data]. *)

From stdpp Require Import base tactics list gmap numbers.
From S2P Require Import Prelude StdMap ThreadId.

(** ** Opaque payload types

    [decision] is the template parameter [D] of [event::local<D>]; [fp_value]
    and [fp_delta] are the fingerprint types stored in [event::metadata]. The
    library only copies them and compares them. *)
Class Payload := {
  decision : Type;
  decision_eq_dec :: EqDecision decision;
  fp_value : Type;
  fp_value_eq_dec :: EqDecision fp_value;
  fp_value_default : fp_value;
  fp_delta : Type;
  fp_delta_eq_dec :: EqDecision fp_delta;
  fp_delta_default : fp_delta;
}.

(** Addresses of events. *)
Abbreviation eid := N (only parsing).

Abbreviation lock_id_t := N (only parsing).
Abbreviation cond_id_t := N (only parsing).

(** [event_kind], in the order of the enumeration. *)
Inductive event_kind : Set :=
  | local | program_init | thread_create | thread_join | thread_init
  | thread_exit | lock_create | lock_destroy | lock_acquire | lock_release
  | condition_variable_create | condition_variable_destroy
  | wait1 | wait2 | signal | broadcast.

#[export] Instance event_kind_eq_dec : EqDecision event_kind.
Proof. solve_decision. Defined.

(** [unfolding::kind_index], which is also the enumeration's numbering. *)
Definition kind_index (k : event_kind) : nat :=
  match k with
  | local => 0 | program_init => 1 | thread_create => 2 | thread_join => 3
  | thread_init => 4 | thread_exit => 5 | lock_create => 6 | lock_destroy => 7
  | lock_acquire => 8 | lock_release => 9 | condition_variable_create => 10
  | condition_variable_destroy => 11 | wait1 => 12 | wait2 => 13
  | signal => 14 | broadcast => 15
  end.

Definition kind_eqb (a b : event_kind) : bool := Nat.eqb (kind_index a) (kind_index b).

#[export] Instance event_kind_less : StdLess event_kind :=
  λ a b, Nat.ltb (kind_index a) (kind_index b).

Lemma kind_index_inj a b : kind_index a = kind_index b → a = b.
Proof. destruct a, b; simpl; intros; congruence. Qed.

Lemma kind_eqb_eq a b : kind_eqb a b = true ↔ a = b.
Proof.
  unfold kind_eqb. rewrite Nat.eqb_eq. split; [apply kind_index_inj | by intros ->].
Qed.

Lemma kind_eqb_ne a b : kind_eqb a b = false ↔ a ≠ b.
Proof. rewrite <-not_true_iff_false, kind_eqb_eq. done. Qed.

#[export] Instance event_kind_less_laws : StdLessLaws event_kind.
Proof.
  split; unfold std_less, event_kind_less.
  - intros a. apply Nat.ltb_irrefl.
  - intros a b c. rewrite !Nat.ltb_lt. lia.
  - intros a b. rewrite !Nat.ltb_ge. intros. apply kind_index_inj. lia.
Qed.

Section events.
Context {PL : Payload}.

(** [event::metadata]; [operator==] compares the fingerprints only. *)
Record metadata := Metadata {
  md_fingerprint : fp_value;
  md_thread_delta : fp_delta;
  md_pending_frees : smap thread_id (list N);
  md_id : N;
}.

Definition metadata_default : metadata :=
  Metadata fp_value_default fp_delta_default [] 0.

Definition metadata_eqb (a b : metadata) : bool :=
  bool_decide (md_fingerprint a = md_fingerprint b) &&
  bool_decide (md_thread_delta a = md_thread_delta b).

(** The fields of each event class. [tp] is the same-thread predecessor. The
    [_predecessors] array of [signal] is [tp] followed by [cps], or by a
    single null pointer when [cps] is empty. *)
Inductive event_data : Type :=
  | Local (tp : eid) (path : list decision)
  | ProgramInit
  | ThreadCreate (tp : eid) (created_tid : thread_id)
  | ThreadJoin (tp : eid) (joined : eid)
  | ThreadInit (creation : eid)
  | ThreadExit (tp : eid) (atomic : bool)
  | LockCreate (tp : eid) (lid : lock_id_t)
  | LockDestroy (tp : eid) (lp : option eid) (lid : lock_id_t)
  | LockAcquire (tp : eid) (lp : option eid) (lid : lock_id_t) (all_cex_known : bool)
  | LockRelease (tp : eid) (lp : eid) (lid : lock_id_t) (atomic : bool)
  | ConditionVariableCreate (tp : eid) (cid : cond_id_t)
  | ConditionVariableDestroy (tp : eid) (cps : list eid) (cid : cond_id_t)
  | Wait1 (tp : eid) (lp : eid) (cps : list eid) (cid : cond_id_t) (lid : lock_id_t)
  | Wait2 (tp : eid) (np : eid) (lp : eid) (cid : cond_id_t) (lid : lock_id_t)
      (all_cex_known : bool)
  | Signal (tp : eid) (cps : list eid) (cid : cond_id_t)
  | Broadcast (tp : eid) (cps : list eid) (num_notified : nat) (cid : cond_id_t).

Definition data_kind (d : event_data) : event_kind :=
  match d with
  | Local _ _ => local
  | ProgramInit => program_init
  | ThreadCreate _ _ => thread_create
  | ThreadJoin _ _ => thread_join
  | ThreadInit _ => thread_init
  | ThreadExit _ _ => thread_exit
  | LockCreate _ _ => lock_create
  | LockDestroy _ _ _ => lock_destroy
  | LockAcquire _ _ _ _ => lock_acquire
  | LockRelease _ _ _ _ => lock_release
  | ConditionVariableCreate _ _ => condition_variable_create
  | ConditionVariableDestroy _ _ _ => condition_variable_destroy
  | Wait1 _ _ _ _ _ => wait1
  | Wait2 _ _ _ _ _ _ => wait2
  | Signal _ _ _ => signal
  | Broadcast _ _ _ _ => broadcast
  end.

(** The base-class fields of [por::event::event]. *)
Record event := Event {
  ev_tid : thread_id;
  ev_data : event_data;
  ev_cone : smap thread_id eid;
  ev_depth : nat;
  ev_color : N;
  ev_imm_cfl_color : N;
  ev_successors : list eid;
  ev_immediate_conflicts : list eid;
  ev_metadata : metadata;
  ev_is_cutoff : bool;
  ev_lc_size : nat;
}.

Definition ev_kind (e : event) : event_kind := data_kind (ev_data e).

Abbreviation heap := (gmap N event).

(** [*p]. *)
Definition deref (h : heap) (p : eid) : res event := nonnull (h !! p).

(** ** Virtual accessors *)

Definition data_thread_predecessor (d : event_data) : option eid :=
  match d with
  | ProgramInit | ThreadInit _ => None
  | Local tp _ | ThreadCreate tp _ | ThreadJoin tp _ | ThreadExit tp _
  | LockCreate tp _ | LockDestroy tp _ _ | LockAcquire tp _ _ _
  | LockRelease tp _ _ _ | ConditionVariableCreate tp _
  | ConditionVariableDestroy tp _ _ | Wait1 tp _ _ _ _ | Wait2 tp _ _ _ _ _
  | Signal tp _ _ | Broadcast tp _ _ _ => Some tp
  end.

Definition thread_predecessor (e : event) : option eid :=
  data_thread_predecessor (ev_data e).

Definition lock_predecessor (e : event) : option eid :=
  match ev_data e with
  | LockDestroy _ lp _ | LockAcquire _ lp _ _ => lp
  | LockRelease _ lp _ _ | Wait1 _ lp _ _ _ | Wait2 _ _ lp _ _ _ => Some lp
  | _ => None
  end.

Definition condition_variable_predecessors (e : event) : list eid :=
  match ev_data e with
  | ConditionVariableDestroy _ cps _ | Wait1 _ _ cps _ _
  | Signal _ cps _ | Broadcast _ cps _ _ => cps
  | Wait2 tp np _ _ _ _ => [tp; np]
  | _ => []
  end.

Definition ev_lid (e : event) : lock_id_t :=
  match ev_data e with
  | LockCreate _ l | LockDestroy _ _ l | LockAcquire _ _ l _ | LockRelease _ _ l _
  | Wait1 _ _ _ _ l | Wait2 _ _ _ _ l _ => l
  | _ => 0%N
  end.

Definition ev_cid (e : event) : cond_id_t :=
  match ev_data e with
  | ConditionVariableCreate _ c | ConditionVariableDestroy _ _ c
  | Wait1 _ _ _ c _ | Wait2 _ _ _ c _ _ | Signal _ _ c | Broadcast _ _ _ c => c
  | _ => 0%N
  end.

(** Two-element [_predecessors] arrays with an optional or repeated second
    entry. *)
Definition two_predecessors (tp : eid) (lp : option eid) : list eid :=
  match lp with
  | Some l => if bool_decide (tp = l) then [tp] else [tp; l]
  | None => [tp]
  end.

Definition data_predecessors (d : event_data) : list eid :=
  match d with
  | ProgramInit => []
  | Local tp _ | ThreadCreate tp _ | ThreadExit tp _ | LockCreate tp _
  | ConditionVariableCreate tp _ => [tp]
  | ThreadInit c => [c]
  | ThreadJoin tp j => [tp; j]
  | LockDestroy tp lp _ | LockAcquire tp lp _ _ => two_predecessors tp lp
  | LockRelease tp lp _ _ => two_predecessors tp (Some lp)
  | ConditionVariableDestroy tp cps _ => tp :: cps
  | Wait1 tp lp cps _ _ => tp :: lp :: cps
  | Wait2 tp np lp _ _ _ => [tp; np; lp]
  | Signal tp cps _ => tp :: cps
  | Broadcast tp cps _ _ => tp :: cps
  end.

Definition predecessors (e : event) : list eid := data_predecessors (ev_data e).

Definition ends_atomic_operation (e : event) : bool :=
  match ev_data e with
  | ThreadInit _ => true
  | ThreadExit _ a | LockRelease _ _ _ a => a
  | _ => false
  end.

Definition atomic_predecessor (e : event) : option eid :=
  match ev_data e with
  | ThreadInit c => Some c
  | ThreadExit tp a => if a then Some tp else None
  | LockRelease _ lp _ a => if a then Some lp else None
  | _ => None
  end.

(** [thread_join::joined_thread]. *)
Definition joined_thread (h : heap) (e : event) : res thread_id :=
  match ev_data e with
  | ThreadJoin _ j => ej ← deref h j; Ok (ev_tid ej)
  | _ => Err UndefinedBehaviour
  end.

(** [signal::is_lost], [wait_predecessor] and [notified_thread]. *)
Definition cps_lost (h : heap) (cps : list eid) : res bool :=
  match cps with
  | [w] => ew ← deref h w; Ok (negb (kind_eqb (ev_kind ew) wait1))
  | _ => Ok true
  end.

Definition signal_is_lost (h : heap) (e : event) : res bool :=
  match ev_data e with
  | Signal _ cps _ => cps_lost h cps
  | _ => Err UndefinedBehaviour
  end.

Definition signal_wait_predecessor (h : heap) (e : event) : res (option eid) :=
  match ev_data e with
  | Signal _ cps _ =>
      lost ← cps_lost h cps;
      Ok (if (lost : bool) then None else head cps)
  | _ => Err UndefinedBehaviour
  end.

Definition signal_notified_thread (h : heap) (e : event) : res thread_id :=
  match ev_data e with
  | Signal _ [w] _ =>
      ew ← deref h w;
      Ok (if kind_eqb (ev_kind ew) wait1 then ev_tid ew else tid_root)
  | Signal _ _ _ => Ok tid_root
  | _ => Err UndefinedBehaviour
  end.

(** [broadcast::is_lost], [wait_predecessors] and [is_notifying_thread]. *)
Definition broadcast_is_lost (e : event) : res bool :=
  match ev_data e with
  | Broadcast _ _ n _ => Ok (Nat.eqb n 0)
  | _ => Err UndefinedBehaviour
  end.

Definition broadcast_wait_predecessors (e : event) : res (list eid) :=
  match ev_data e with
  | Broadcast _ cps n _ => Ok (take n cps)
  | _ => Err UndefinedBehaviour
  end.

Definition broadcast_is_notifying_thread (h : heap) (e : event) (t : thread_id)
    : res bool :=
  ws ← broadcast_wait_predecessors e;
  any_of (λ w, ew ← deref h w; Ok (tid_eqb (ev_tid ew) t)) ws.

(** ** The causality test

    [is_less_than(cone)], [is_less_than(event)] and [is_less_than_eq]; they
    are only meant for events that are not in conflict. *)
Definition is_less_than_cone (h : heap) (e : event) (c : smap thread_id eid)
    : res bool :=
  match smap_find (ev_tid e) c with
  | Some p =>
      ep ← deref h p;
      Ok (Nat.ltb (ev_depth e) (ev_depth ep) || Nat.eqb (ev_depth e) (ev_depth ep))
  | None => Ok (kind_eqb (ev_kind e) program_init)
  end.

Definition ev_less (h : heap) (e rhs : event) : res bool :=
  if tid_eqb (ev_tid rhs) (ev_tid e)
  then Ok (Nat.ltb (ev_depth e) (ev_depth rhs))
  else is_less_than_cone h e (ev_cone rhs).

Definition is_less_than (h : heap) (a b : eid) : res bool :=
  ea ← deref h a; eb ← deref h b; ev_less h ea eb.

Definition is_less_than_eq (h : heap) (a b : eid) : res bool :=
  if bool_decide (b = a) then Ok true else is_less_than h a b.

(** ** Immediate predecessors of the classes that override the accessor

    [two_immediate] is the case analysis shared by the lock events. The
    remaining classes take the maximal events of their cone. *)
Definition two_immediate (h : heap) (tp lp : eid) : res (list eid) :=
  b1 ← is_less_than_eq h tp lp;
  if (b1 : bool) then Ok [lp]
  else
    b2 ← is_less_than h lp tp;
    if (b2 : bool) then Ok [tp] else Ok [tp; lp].

End events.

Abbreviation heap := (gmap N event).
Arguments two_predecessors : simpl never.

(** ** Lemmas *)

Section lemmas.
Context {PL : Payload}.
Implicit Types (h : heap) (e : event).

Lemma deref_ok h p e : deref h p = Ok e ↔ h !! p = Some e.
Proof. apply nonnull_ok. Qed.

Lemma is_less_than_ok h a b ea eb :
  h !! a = Some ea → h !! b = Some eb → is_less_than h a b = ev_less h ea eb.
Proof. intros Ha Hb. unfold is_less_than, deref. by rewrite Ha, Hb. Qed.

Lemma two_predecessors_elem tp lp p :
  p ∈ two_predecessors tp lp ↔ p = tp ∨ lp = Some p.
Proof.
  unfold two_predecessors. destruct lp as [l|].
  - case_bool_decide; subst; rewrite ?elem_of_cons, elem_of_nil; naive_solver.
  - rewrite elem_of_cons, elem_of_nil. naive_solver.
Qed.

(** The same-thread predecessor is a predecessor. *)
Lemma thread_predecessor_pred e p :
  thread_predecessor e = Some p → p ∈ predecessors e.
Proof.
  unfold thread_predecessor, predecessors.
  destruct (ev_data e); simpl; intros [= ->];
    rewrite ?two_predecessors_elem; try (by left); by constructor.
Qed.

Lemma lock_predecessor_pred e p :
  lock_predecessor e = Some p → p ∈ predecessors e.
Proof.
  unfold lock_predecessor, predecessors.
  destruct (ev_data e); simpl; intros [= ->];
    rewrite ?two_predecessors_elem; try (by right); set_solver.
Qed.

Lemma condition_variable_predecessors_pred e p :
  p ∈ condition_variable_predecessors e → p ∈ predecessors e.
Proof.
  unfold condition_variable_predecessors, predecessors.
  destruct (ev_data e); simpl; rewrite ?elem_of_nil, ?elem_of_cons; naive_solver.
Qed.
End lemmas.

Ltac res_inv_ev :=
  repeat first
    [ progress res_inv
    | match goal with H : deref _ _ = Ok _ |- _ => apply deref_ok in H end ].

(** Boolean assertions to propositions. *)
Ltac asserts_prop :=
  repeat match goal with
  | H : negb _ = true |- _ => apply negb_true_iff in H
  | H : kind_eqb _ _ = true |- _ => apply kind_eqb_eq in H
  | H : kind_eqb _ _ = false |- _ => apply kind_eqb_ne in H
  | H : tid_eqb _ _ = true |- _ => apply tid_eqb_spec in H
  | H : tid_eqb _ _ = false |- _ =>
      apply not_true_iff_false in H; rewrite tid_eqb_spec in H
  | H : (_ =? _)%N = true |- _ => apply N.eqb_eq in H
  | H : (_ =? _)%N = false |- _ => apply N.eqb_neq in H
  | H : bool_decide _ = true |- _ => apply bool_decide_eq_true in H
  | H : _ || _ = true |- _ => apply orb_true_iff in H
  | H : _ && _ = true |- _ => apply andb_true_iff in H; destruct H
  end.
