(* ===== verification/Comb.v ===== *)
(** * Teeth and combs ([include/por/comb.h], [lib/Por/comb.cpp])

    A tooth holds events of one thread, first element minimal and last
    element maximal, with a flag that says whether all of it is sorted; a
    comb maps threads to teeth. The file models every operation of both
    classes, the scans for minimal and maximal events, and the enumeration of
    concurrent combinations by bit masks and an index odometer. *)

From stdpp Require Import base tactics list gmap numbers.
From S2P Require Import Prelude StdMap ThreadId Event.

(** ** The scan for extremal elements

    [cone::max], [comb::max] and [comb::min] run the same loop: each
    candidate erases the elements it supersedes and is dropped when an
    element of the result supersedes it. [before r t] says that [t]
    supersedes [r]. *)
Fixpoint extremal_scan (before : eid → eid → res bool) (t : eid) (result : list eid)
    : res (list eid * bool) :=
  match result with
  | [] => Ok ([], true)
  | r :: rs =>
      b ← before r t;
      if (b : bool) then extremal_scan before t rs
      else
        b2 ← before t r;
        if (b2 : bool) then Ok (r :: rs, false)
        else '(rs', m) ← extremal_scan before t rs; Ok (r :: rs', m)
  end.

Definition extremal_step (before : eid → eid → res bool) (result : list eid) (t : eid)
    : res (list eid) :=
  '(r', m) ← extremal_scan before t result;
  Ok (if (m : bool) then r' ++ [t] else r').

Definition extremal (before : eid → eid → res bool) (l : list eid) : res (list eid) :=
  for_each (extremal_step before) [] l.

Section comb.
Context {PL : Payload}.

(** ** Teeth *)

Record tooth := Tooth { t_events : list eid; t_sorted : bool }.

Definition tooth_empty : tooth := Tooth [] true.

Definition tooth_min (t : tooth) : option eid := list.head (t_events t).
Definition tooth_max (t : tooth) : option eid := list.last (t_events t).

(** [_events.insert(std::prev(_events.end()), &e)]. *)
Definition insert_before_last (e : eid) (l : list eid) : list eid :=
  take (length l - 1) l ++ e :: drop (length l - 1) l.

Definition tooth_insert (h : heap) (e : eid) (t : tooth) : res tooth :=
  match t_events t with
  | [] =>
      _ ← cassert (t_sorted t);
      Ok (Tooth [e] (t_sorted t))
  | front :: rest =>
      let back := List.last rest front in
      below ← is_less_than h e front;
      if (below : bool) then Ok (Tooth (e :: t_events t) (t_sorted t))
      else
        above ← (if Nat.eqb (length (t_events t)) 1 && negb (bool_decide (front = e))
                 then Ok true else is_less_than h back e);
        if (above : bool) then Ok (Tooth (t_events t ++ [e]) (t_sorted t))
        else if bool_decide (e ∈ t_events t) then Ok t
        else
          let l := insert_before_last e (t_events t) in
          if Nat.eqb (length l) 3 then
            _ ← cassert (t_sorted t);
            Ok (Tooth l (t_sorted t))
          else
            _ ← cassert (Nat.ltb 3 (length l));
            Ok (Tooth l false)
  end.

(** [_events.erase(std::find(..., &e))]. *)
Fixpoint erase_first (e : eid) (l : list eid) : list eid :=
  match l with
  | [] => []
  | x :: l' => if bool_decide (x = e) then l' else x :: erase_first e l'
  end.

(** [tooth::remove]. The two branches for an unsorted tooth call [std::min]
    and [std::max] on the iterators [begin()] and [end()], whose comparator
    dereferences [end()]. *)
Definition tooth_remove (e : eid) (t : tooth) : res tooth :=
  if bool_decide (e ∉ t_events t) then Ok t
  else if t_sorted t || Nat.leb (length (t_events t)) 3
  then Ok (Tooth (erase_first e (t_events t)) true)
  else if negb (bool_decide (head (t_events t) = Some e)) &&
          negb (bool_decide (list_find (eq e) (t_events t) =
                             Some (length (t_events t) - 1, e)))
  then Ok (Tooth (erase_first e (t_events t))
                 (t_sorted t || Nat.eqb (length (t_events t)) 4))
  else Err UndefinedBehaviour.

Definition tooth_sort (h : heap) (t : tooth) : res tooth :=
  if t_sorted t then Ok t
  else l ← std_sort (is_less_than h) (t_events t); Ok (Tooth l true).

(** ** Combs *)

Definition comb : Type := smap thread_id tooth.

(** [_teeth[t]]: a missing tooth is created empty. *)
Definition comb_tooth (t : thread_id) (c : comb) : tooth :=
  default tooth_empty (smap_find t c).

Definition comb_insert (h : heap) (e : eid) (c : comb) : res comb :=
  ee ← deref h e;
  t ← tooth_insert h e (comb_tooth (ev_tid ee) c);
  Ok (smap_set (ev_tid ee) t c).

(** [comb(begin, end)] over non-null pointers. *)
Definition comb_of_range (h : heap) (l : list eid) : res comb :=
  for_each (λ c e, comb_insert h e c) [] l.

(** The order of [comb_iterator]: teeth by thread id, each front to back. *)
Definition comb_events (c : comb) : list eid :=
  concat (t_events <$> smap_vals c).

(** [comb(comb, filter)]. *)
Definition comb_filter (h : heap) (c : comb) (filter : event → bool) : res comb :=
  for_each (λ acc e,
    ee ← deref h e;
    if filter ee then comb_insert h e acc else Ok acc) [] (comb_events c).

Definition comb_size (c : comb) : nat := length (comb_events c).

Definition comb_empty (c : comb) : bool :=
  match c with [] => true | _ => false end.

Definition comb_sort (h : heap) (c : comb) : res comb :=
  for_each (λ acc '(tid, t), t' ← tooth_sort h t; Ok (acc ++ [(tid, t')])) [] c.

Definition comb_is_sorted (c : comb) : bool := forallb t_sorted (smap_vals c).

(** [comb::max] dereferences the maximum of every tooth, [comb::min] the
    minimum. *)
Fixpoint tooth_ends (f : tooth → option eid) (l : list tooth) : res (list eid) :=
  match l with
  | [] => Ok []
  | t :: l' => e ← nonnull (f t); r ← tooth_ends f l'; Ok (e :: r)
  end.

Definition comb_max (h : heap) (c : comb) : res (list eid) :=
  l ← tooth_ends tooth_max (smap_vals c);
  extremal (is_less_than h) l.

Definition comb_min (h : heap) (c : comb) : res (list eid) :=
  l ← tooth_ends tooth_min (smap_vals c);
  extremal (λ r t, is_less_than h t r) l.

Definition comb_remove_from (tid : thread_id) (e : eid) (c : comb) : res comb :=
  t ← tooth_remove e (comb_tooth tid c);
  Ok (match t_events t with
      | [] => smap_erase tid c
      | _ => smap_set tid t c
      end).

Definition comb_remove (h : heap) (e : eid) (c : comb) : res comb :=
  ee ← deref h e; comb_remove_from (ev_tid ee) e c.

(** [remove(begin, end)]: events of threads without a tooth are skipped. *)
Definition comb_remove_range (h : heap) (l : list eid) (c : comb) : res comb :=
  for_each (λ acc e,
    ee ← deref h e;
    if smap_has (ev_tid ee) acc then comb_remove_from (ev_tid ee) e acc else Ok acc)
    c l.

(** ** Concurrent combinations *)

(** The subset built in one round: it is complete ([Some]) when every new
    event is concurrent to the ones before it. *)
Definition concurrent_to (h : heap) (new_event : eid) (subset : list eid) : res bool :=
  any_of (λ e,
    b ← is_less_than h e new_event;
    if (b : bool) then Ok true else is_less_than h new_event e) subset.

Fixpoint build_subset (h : heap) (subset : list eid) (teeth : list (list eid))
    (indices : list nat) : res (option (list eid)) :=
  match teeth, indices with
  | t :: teeth', i :: indices' =>
      e ← in_range (t !! i);
      clash ← concurrent_to h e subset;
      if (clash : bool) then Ok None
      else build_subset h (subset ++ [e]) teeth' indices'
  | _, _ => Ok (Some subset)
  end.

(** Search the lowest position that can be incremented, increment it and
    reset the lower ones; [None] when all positions are at their highest. *)
Fixpoint next_indices (indices highest : list nat) : option (list nat) :=
  match indices, highest with
  | i :: is', hi :: his =>
      if Nat.eqb i hi then (0 ::.) <$> next_indices is' his
      else Some (S i :: is')
  | _, _ => None
  end.

Section enumeration.
(** [filter] is a callback with side effects on a state [S]. *)
Context {S : Type} (filter : S → list eid → res (S * bool)).

Definition offer (s : S) (result : list (list eid)) (subset : list eid)
    : res (S * list (list eid)) :=
  '(s', keep) ← filter s subset;
  Ok (s', if (keep : bool) then result ++ [subset] else result).

Fixpoint combinations_of (h : heap) (fuel : nat) (teeth : list (list eid))
    (indices : list nat) (s : S) (result : list (list eid))
    : res (S * list (list eid)) :=
  match fuel with
  | O => Err OutOfFuel
  | Datatypes.S fuel' =>
      sub ← build_subset h [] teeth indices;
      '(s', result') ←
        match sub with
        | Some subset => offer s result subset
        | None => Ok (s, result)
        end;
      match next_indices indices ((λ t, length t - 1) <$> teeth) with
      | Some indices' => combinations_of h fuel' teeth indices' s' result'
      | None => Ok (s', result')
      end
  end.

Definition selected (mask : nat) (teeth : list (list eid)) : list (list eid) :=
  (imap (λ i t, if Nat.testbit mask i then Some t else None) teeth) ≫= λ o,
    match o with Some t => [t] | None => [] end.

Definition mask_round (h : heap) (teeth : list (list eid))
    (acc : S * list (list eid)) (mask : nat) : res (S * list (list eid)) :=
  let sel := selected mask teeth in
  match sel with
  | [] => offer acc.1 acc.2 []
  | _ => combinations_of h (foldr (λ t n, length t * n) 1 sel) sel
           (replicate (length sel) 0) acc.1 acc.2
  end.

Definition concurrent_combinations (h : heap) (c : comb) (s : S)
    : res (S * list (list eid)) :=
  c' ← comb_sort h c;
  let teeth := t_events <$> smap_vals c' in
  _ ← cassert (Nat.ltb (length teeth) 64);
  for_each (mask_round h teeth) (s, []) (seq 0 (2 ^ length teeth)).
End enumeration.
End comb.
