(* ===== verification/CombEnum.v ===== *)
(** * The enumeration of concurrent combinations is exact

    [comb::concurrent_combinations] runs over bit masks (which threads take
    part) and, for each mask, over an odometer of event indices. The odometer
    is a mixed-radix counter, so it visits each index tuple exactly once and
    stops; the masks are in bijection with the sublists of teeth. *)

From stdpp Require Import base tactics list gmap numbers sorting.
From S2P Require Import Prelude StdMap ThreadId Event Comb.

(** ** The odometer as a mixed-radix counter *)

Fixpoint odo_val (idx hi : list nat) : nat :=
  match idx, hi with
  | i :: is', h :: hs => i + S h * odo_val is' hs
  | _, _ => 0
  end.

Fixpoint odo_prod (hi : list nat) : nat :=
  match hi with [] => 1 | h :: hs => S h * odo_prod hs end.

Definition odo_valid (idx hi : list nat) : Prop := Forall2 le idx hi.

Lemma odo_val_lt idx hi : odo_valid idx hi → odo_val idx hi < odo_prod hi.
Proof. induction 1 as [|i h is' hs Hle _ IH]; simpl; [lia | nia]. Qed.

Lemma odo_val_inj idx idx' hi :
  odo_valid idx hi → odo_valid idx' hi → odo_val idx hi = odo_val idx' hi → idx = idx'.
Proof.
  intros H1. revert idx'. induction H1 as [|i h is' hs Hle H1 IH]; intros idx' H2 Hv.
  { by inversion H2. }
  inversion H2 as [|i' ? is'' ? Hle' H2']; subst. simpl in Hv.
  assert (odo_val is' hs = odo_val is'' hs) as Heq by nia.
  f_equal; [rewrite Heq in Hv; lia | by apply IH].
Qed.

Lemma next_indices_spec idx hi :
  odo_valid idx hi →
  match next_indices idx hi with
  | Some idx' => odo_valid idx' hi ∧ odo_val idx' hi = S (odo_val idx hi)
  | None => S (odo_val idx hi) = odo_prod hi
  end.
Proof.
  induction 1 as [|i h is' hs Hle Hv IH]; simpl; [done|].
  destruct (Nat.eqb_spec i h) as [->|Hne].
  - destruct (next_indices is' hs) as [is''|]; simpl.
    + destruct IH as [IH1 IH2]. split; [constructor; [lia | done]|]. rewrite IH2. lia.
    + nia.
  - split; [constructor; [lia | done] | simpl; lia].
Qed.

Fixpoint odo_visit (fuel : nat) (idx hi : list nat) : list (list nat) :=
  match fuel with
  | 0 => []
  | S fuel' =>
      idx :: match next_indices idx hi with
             | Some idx' => odo_visit fuel' idx' hi
             | None => []
             end
  end.

Lemma odo_visit_elem fuel idx hi idx' :
  odo_valid idx hi → odo_prod hi ≤ fuel + odo_val idx hi →
  idx' ∈ odo_visit fuel idx hi ↔ odo_valid idx' hi ∧ odo_val idx hi ≤ odo_val idx' hi.
Proof.
  revert idx. induction fuel as [|fuel IH]; intros idx Hv Hf.
  { pose proof (odo_val_lt _ _ Hv). lia. }
  pose proof (next_indices_spec _ _ Hv) as Hn. simpl. rewrite elem_of_cons.
  destruct (next_indices idx hi) as [idx2|].
  - destruct Hn as [Hv2 Hn]. rewrite IH by (done || lia). rewrite Hn. split.
    + intros [->|[??]]; split; try done; lia.
    + intros [Hv' Hle]. destruct (decide (odo_val idx hi = odo_val idx' hi)).
      * left. symmetry. by eapply odo_val_inj.
      * right. split; [done | lia].
  - rewrite elem_of_nil. split.
    + intros [->|[]]. split; [done | lia].
    + intros [Hv' Hle]. left. pose proof (odo_val_lt _ _ Hv').
      symmetry. eapply odo_val_inj; [done.. | lia].
Qed.

Lemma odo_visit_nodup fuel idx hi :
  odo_valid idx hi → odo_prod hi ≤ fuel + odo_val idx hi →
  NoDup (odo_visit fuel idx hi).
Proof.
  revert idx. induction fuel as [|fuel IH]; intros idx Hv Hf; simpl; [constructor|].
  pose proof (next_indices_spec _ _ Hv) as Hn.
  destruct (next_indices idx hi) as [idx2|]; [|apply NoDup_singleton].
  destruct Hn as [Hv2 Hn]. constructor; [|apply IH; [done | lia]].
  rewrite odo_visit_elem by (done || lia). intros [_ ?]. lia.
Qed.

Lemma odo_zero hi : odo_valid (replicate (length hi) 0) hi ∧
  odo_val (replicate (length hi) 0) hi = 0.
Proof.
  induction hi as [|h hs [IH1 IH2]]; simpl; [split; [constructor | done]|].
  split; [constructor; [lia | done] | rewrite IH2; lia].
Qed.

(** ** Masks select sublists of teeth *)

Lemma selected_cons mask t ts :
  selected mask (t :: ts) =
    (if Nat.odd mask then [t] else []) ++ selected (Nat.div2 mask) ts.
Proof.
  unfold selected. simpl.
  rewrite (imap_ext _ (λ i t, if Nat.testbit (Nat.div2 mask) i then Some t else None)).
  - by destruct (Nat.odd mask).
  - done.
Qed.

Lemma selected_even k t ts : selected (2 * k) (t :: ts) = selected k ts.
Proof.
  rewrite selected_cons. replace (Nat.odd (2 * k)) with false.
  - by rewrite Nat.div2_double.
  - symmetry. rewrite Nat.odd_mul. done.
Qed.

Lemma selected_odd k t ts : selected (S (2 * k)) (t :: ts) = t :: selected k ts.
Proof.
  rewrite selected_cons. replace (Nat.odd (S (2 * k))) with true.
  - by rewrite Nat.div2_succ_double.
  - symmetry. rewrite Nat.odd_succ, Nat.even_mul. done.
Qed.

(** [choice teeth s]: [s] takes one event from each of some teeth, in order. *)
Inductive choice : list (list eid) → list eid → Prop :=
  | choice_nil : choice [] []
  | choice_skip t ts s : choice ts s → choice (t :: ts) s
  | choice_pick t ts x s : x ∈ t → choice ts s → choice (t :: ts) (x :: s).

(** [picks sel s]: one event of every tooth of [sel]. *)
Abbreviation picks sel s := (Forall2 (λ (x : eid) (t : list eid), x ∈ t) s sel).

Lemma choice_masks teeth s :
  choice teeth s ↔ ∃ mask, mask < 2 ^ length teeth ∧ picks (selected mask teeth) s.
Proof.
  split.
  - induction 1 as [|t ts s _ (m & Hm & Hp)|t ts x s Hx _ (m & Hm & Hp)].
    + exists 0. split; [simpl; lia | constructor].
    + exists (2 * m). rewrite selected_even. simpl. split; [lia | done].
    + exists (S (2 * m)). rewrite selected_odd. split; [simpl; lia | by constructor].
  - revert s. induction teeth as [|t ts IH]; intros s (m & Hm & Hp).
    { unfold selected in Hp. simpl in Hp. inversion Hp. constructor. }
    destruct (Nat.Even_or_Odd m) as [[k ->]|[k ->]].
    + rewrite selected_even in Hp. apply choice_skip, IH. exists k.
      split; [simpl in Hm; lia | done].
    + replace (2 * k + 1) with (S (2 * k)) in * by lia. rewrite selected_odd in Hp.
      inversion Hp as [|x ? s' ? Hx Hp']; subst. apply choice_pick; [done|].
      apply IH. exists k. split; [simpl in Hm; lia | done].
Qed.

Lemma picks_elem (sel : list (list eid)) (s : list eid) x : picks sel s → x ∈ s → x ∈ concat sel.
Proof.
  induction 1 as [|y t s sel Hy _ IH]; simpl; [done|].
  rewrite elem_of_cons, elem_of_app. intros [->|?]; [by left | right; by apply IH].
Qed.

Lemma selected_elem mask (teeth : list (list eid)) x : x ∈ concat (selected mask teeth) → x ∈ concat teeth.
Proof.
  revert mask. induction teeth as [|t ts IH]; intros mask; [done|].
  rewrite selected_cons. destruct (Nat.odd mask); simpl; rewrite ?elem_of_app;
    intros; naive_solver.
Qed.

(** The events of a choice determine the mask. *)
Lemma masks_inj teeth s m1 m2 :
  NoDup (concat teeth) → m1 < 2 ^ length teeth → m2 < 2 ^ length teeth →
  picks (selected m1 teeth) s → picks (selected m2 teeth) s → m1 = m2.
Proof.
  revert s m1 m2. induction teeth as [|t ts IH]; intros s m1 m2 Hnd H1 H2 P1 P2.
  { simpl in *. lia. }
  simpl in Hnd, H1, H2. apply NoDup_app in Hnd as (_ & Hdisj & Hnd).
  assert (∀ k x s', x ∈ t → ¬ picks (selected k ts) (x :: s')) as Hcl.
  { intros k x s' Hx Hp. apply (Hdisj x Hx), (selected_elem k).
    eapply picks_elem; [done | by left]. }
  destruct (Nat.Even_or_Odd m1) as [[k1 ->]|[k1 ->]],
    (Nat.Even_or_Odd m2) as [[k2 ->]|[k2 ->]];
    repeat match goal with
    | H : context [2 * ?k + 1] |- _ =>
        replace (2 * k + 1) with (S (2 * k)) in H by lia
    | H : context [selected (S (2 * ?k)) (_ :: _)] |- _ => rewrite selected_odd in H
    | H : context [selected (2 * ?k) (_ :: _)] |- _ => rewrite selected_even in H
    end.
  - rewrite (IH s k1 k2); [done | done | lia | lia | done | done].
  - inversion P2; subst. exfalso. by eapply Hcl.
  - inversion P1; subst. exfalso. by eapply Hcl.
  - inversion P1; subst. inversion P2; subst.
    erewrite (IH _ k1 k2); [lia | done | lia | lia | done | done].
Qed.

(** ** One mask: all index tuples *)

Fixpoint pick (teeth : list (list eid)) (idx : list nat) : list eid :=
  match teeth, idx with
  | t :: ts, i :: is' =>
      match t !! i with Some x => x :: pick ts is' | None => [] end
  | _, _ => []
  end.

Abbreviation highest teeth := ((λ t : list eid, length t - 1) <$> (teeth : list (list eid))).

Lemma picks_pick teeth s :
  Forall (λ t, t ≠ []) teeth →
  picks teeth s ↔ ∃ idx, odo_valid idx (highest teeth) ∧ pick teeth idx = s.
Proof.
  intros Hne. revert s. induction Hne as [|t ts Ht _ IH]; intros s; simpl; split.
  - inversion 1; subst. exists []. split; [constructor | done].
  - intros (idx & Hv & <-). inversion Hv; subst. constructor.
  - inversion 1 as [|x ? s' ? Hx Hp]; subst.
    apply IH in Hp as (idx & Hv & <-). apply list_elem_of_lookup in Hx as [i Hi].
    exists (i :: idx). split; [|by rewrite Hi]. constructor; [|done].
    apply lookup_lt_Some in Hi. lia.
  - intros (idx & Hv & <-). inversion Hv as [|i ? is' ? Hle Hv']; subst.
    destruct (lookup_lt_is_Some_2 t i) as [x Hx].
    { destruct t; [done | simpl in *; lia]. }
    rewrite Hx. constructor; [by eapply list_elem_of_lookup_2 | apply IH; eauto].
Qed.

Lemma odo_prod_highest teeth :
  Forall (λ t, t ≠ []) teeth →
  odo_prod (highest teeth) = foldr (λ (t : list eid) n, length t * n) 1 teeth.
Proof.
  induction 1 as [|t ts Ht _ IH]; [done|]. rewrite fmap_cons. cbn [odo_prod foldr].
  rewrite IH. destruct t; [done|]. cbn [length]. f_equal. lia.
Qed.

Section enumeration.
Context {PL : Payload} (h : heap) (lt : eid → eid → bool).

(** Pairwise concurrency. *)
Definition concurrent (s : list eid) : Prop := ∀ x y, x ∈ s → y ∈ s → lt x y = false.

Fixpoint compatible (pre l : list eid) : bool :=
  match l with
  | [] => true
  | x :: l' =>
      negb (existsb (λ e, lt e x || lt x e) pre) && compatible (pre ++ [x]) l'
  end.

Lemma compatible_spec pre l :
  (∀ x, x ∈ l → lt x x = false) →
  compatible pre l = true ↔
    (∀ x y, x ∈ l → y ∈ pre → lt x y = false ∧ lt y x = false) ∧ concurrent l.
Proof.
  revert pre. induction l as [|a l IH]; intros pre Hirr; simpl.
  { split; [|done]. intros _. split; [intros ?? []%elem_of_nil | intros ?? []%elem_of_nil]. }
  rewrite andb_true_iff, negb_true_iff, <-not_true_iff_false, existsb_elem_of.
  rewrite IH by (intros; apply Hirr; by right). split.
  - intros (Hpre & Hl & Hc). split.
    + intros x y [->|Hx]%elem_of_cons Hy.
      * destruct (lt a y) eqn:E1, (lt y a) eqn:E2; try done; destruct Hpre;
          exists y; by rewrite ?E1, ?E2.
      * apply Hl; [done|]. apply elem_of_app. by left.
    + intros x y [->|Hx]%elem_of_cons [->|Hy]%elem_of_cons.
      * apply Hirr. by left.
      * apply (Hl y a); [done|]. apply elem_of_app. right. by left.
      * apply (Hl x a); [done|]. apply elem_of_app. right. by left.
      * by apply Hc.
  - intros [Hpre Hc]. split_and!.
    + intros (y & Hy & Hlt). destruct (Hpre a y) as [E1 E2]; [by left | done |].
      by rewrite E1, E2 in Hlt.
    + intros x y Hx [Hy|Hy]%elem_of_app.
      * apply Hpre; [by right | done].
      * apply list_elem_of_singleton in Hy as ->. split; apply Hc; (by left || by right).
    + intros x y Hx Hy. apply Hc; by right.
Qed.

Lemma build_subset_spec teeth idx pre :
  (∀ x y, x ∈ pre ++ concat teeth → y ∈ pre ++ concat teeth →
    is_less_than h x y = Ok (lt x y)) →
  Forall (λ t, t ≠ []) teeth → odo_valid idx (highest teeth) →
  build_subset h pre teeth idx =
    Ok (if compatible pre (pick teeth idx) then Some (pre ++ pick teeth idx) else None).
Proof.
  intros Hless Hne. revert pre idx Hless.
  induction Hne as [|t ts Ht _ IH]; intros pre idx Hless Hv.
  { simpl. by rewrite app_nil_r. }
  inversion Hv as [|i ? is' ? Hle Hv']; subst. simpl.
  destruct (lookup_lt_is_Some_2 t i) as [x Hx].
  { destruct t; [done | simpl in *; lia]. }
  rewrite Hx. simpl. assert (x ∈ t) as Hxt by (by eapply list_elem_of_lookup_2).
  simpl in Hless. setoid_rewrite elem_of_app in Hless. setoid_rewrite elem_of_app in Hless.
  unfold concurrent_to. rewrite (any_of_spec _ (λ e, lt e x || lt x e)).
  2: { intros y Hy. rewrite (Hless y x), (Hless x y) by tauto. simpl.
       by destruct (lt y x). }
  simpl. destruct (existsb _ pre); simpl; [done|].
  rewrite IH; [by rewrite <-app_assoc | | done].
  intros u v. rewrite !elem_of_app, !list_elem_of_singleton. intros Hu Hv2.
  apply Hless; [destruct Hu as [[?| ->]|?] | destruct Hv2 as [[?| ->]|?]]; tauto.
Qed.

Context {S : Type} (filter : S → list eid → res (S * bool)).
Context (f : S → list eid → S) (keep : list eid → bool).

(** What one index tuple contributes to the state and the result. *)
Definition tuple_round (teeth : list (list eid)) (acc : S * list (list eid))
    (idx : list nat) : res (S * list (list eid)) :=
  sub ← build_subset h [] teeth idx;
  match sub with
  | Some subset => offer filter acc.1 acc.2 subset
  | None => Ok acc
  end.

Lemma combinations_of_visit fuel teeth idx s result :
  odo_valid idx (highest teeth) →
  odo_prod (highest teeth) ≤ fuel + odo_val idx (highest teeth) →
  combinations_of filter h fuel teeth idx s result =
    for_each (tuple_round teeth) (s, result) (odo_visit fuel idx (highest teeth)).
Proof.
  revert idx s result. induction fuel as [|fuel IH]; intros idx s result Hv Hf.
  { pose proof (odo_val_lt _ _ Hv). lia. }
  pose proof (next_indices_spec _ _ Hv) as Hn. cbn [combinations_of odo_visit for_each].
  assert (tuple_round teeth (s, result) idx = (sub ← build_subset h [] teeth idx;
    match sub with Some x => offer filter s result x | None => Ok (s, result) end))
    as -> by done.
  destruct (build_subset h [] teeth idx) as [sub|]; [|done]. rewrite !bind_Ok_l.
  destruct (match sub with Some x => offer filter s result x | None => Ok (s, result) end)
    as [[s' r']|]; [|done].
  rewrite !bind_Ok_l. destruct (next_indices idx (highest teeth)) as [idx2|].
  - destruct Hn as [Hv2 Hn]. apply IH; [done | lia].
  - done.
Qed.

Hypothesis filter_pure : ∀ s x, filter s x = Ok (f s x, keep x).

(** The subsets offered to the callback, for a list of index tuples. *)
Definition offers (teeth : list (list eid)) (idxs : list (list nat)) : list (list eid) :=
  List.filter (compatible []) (pick teeth <$> idxs).

Lemma tuple_rounds_spec teeth idxs s r :
  (∀ x y, x ∈ concat teeth → y ∈ concat teeth → is_less_than h x y = Ok (lt x y)) →
  Forall (λ t, t ≠ []) teeth → Forall (λ idx, odo_valid idx (highest teeth)) idxs →
  for_each (tuple_round teeth) (s, r) idxs =
    Ok (foldl f s (offers teeth idxs), r ++ List.filter keep (offers teeth idxs)).
Proof.
  intros Hless Hne Hv. revert s r. induction Hv as [|idx idxs Hv _ IH]; intros s r; simpl.
  { by rewrite app_nil_r. }
  unfold tuple_round at 2. rewrite build_subset_spec by done. rewrite bind_Ok_l.
  unfold offers. rewrite fmap_cons. cbn [List.filter app fst snd].
  destruct (compatible [] (pick teeth idx)) eqn:E; [|by rewrite bind_Ok_l, IH].
  unfold offer. rewrite filter_pure, !bind_Ok_l. rewrite IH. cbn [foldl List.filter].
  f_equal. f_equal. destruct (keep (pick teeth idx)); [by rewrite <-app_assoc | done].
Qed.

Definition mask_offers (teeth : list (list eid)) (mask : nat) : list (list eid) :=
  let sel := selected mask teeth in
  offers sel (odo_visit (odo_prod (highest sel)) (replicate (length sel) 0) (highest sel)).

Lemma selected_nonempty mask teeth :
  Forall (λ t, t ≠ []) teeth → Forall (λ t, t ≠ []) (selected mask teeth).
Proof.
  intros Hne. revert mask. induction Hne as [|t ts Ht _ IH]; intros mask; [constructor|].
  rewrite selected_cons. destruct (Nat.odd mask); simpl; [by constructor | done].
Qed.

Lemma visit_all_elem (sel : list (list eid)) idx :
  idx ∈ odo_visit (odo_prod (highest sel)) (replicate (length sel) 0) (highest sel) ↔
    odo_valid idx (highest sel).
Proof.
  destruct (odo_zero (highest sel)) as [Hv H0]. rewrite length_fmap in Hv, H0.
  rewrite odo_visit_elem by (done || lia). rewrite H0. split; [by intros [? _]|].
  intros. split; [done | lia].
Qed.

Lemma mask_round_spec teeth s r mask :
  (∀ x y, x ∈ concat teeth → y ∈ concat teeth → is_less_than h x y = Ok (lt x y)) →
  Forall (λ t, t ≠ []) teeth →
  mask_round filter h teeth (s, r) mask =
    Ok (foldl f s (mask_offers teeth mask), r ++ List.filter keep (mask_offers teeth mask)).
Proof.
  intros Hless Hne. unfold mask_round, mask_offers.
  pose proof (selected_nonempty mask _ Hne) as Hsel.
  assert (∀ x y, x ∈ concat (selected mask teeth) → y ∈ concat (selected mask teeth) →
    is_less_than h x y = Ok (lt x y)) as Hless' by (intros; apply Hless; by eapply selected_elem).
  destruct (selected mask teeth) as [|t ts] eqn:E.
  { unfold offer. rewrite filter_pure. simpl. by destruct (keep []); rewrite ?app_nil_r. }
  rewrite <-odo_prod_highest by done. destruct (odo_zero (highest (t :: ts))) as [Hv H0].
  rewrite length_fmap in Hv, H0.
  rewrite combinations_of_visit by (done || lia). apply tuple_rounds_spec; [done..|].
  apply List.Forall_forall. intros idx Hidx%list_elem_of_In. by apply visit_all_elem.
Qed.

Lemma mask_offers_elem teeth mask s :
  Forall (λ t, t ≠ []) teeth → (∀ x, x ∈ concat teeth → lt x x = false) →
  s ∈ mask_offers teeth mask ↔ picks (selected mask teeth) s ∧ concurrent s.
Proof.
  intros Hne Hirr. unfold mask_offers, offers.
  rewrite elem_of_list_filter_b, list_elem_of_fmap. setoid_rewrite visit_all_elem.
  rewrite (picks_pick _ _ (selected_nonempty mask _ Hne)).
  assert (∀ idx, odo_valid idx (highest (selected mask teeth)) →
    compatible [] (pick (selected mask teeth) idx) = true ↔
    concurrent (pick (selected mask teeth) idx)) as Hc.
  { intros idx Hv. rewrite compatible_spec.
    - split; [by intros [_ ?]|]. intros; split; [|done]. intros ??? []%elem_of_nil.
    - intros x Hx. apply Hirr, (selected_elem mask). eapply picks_elem; [|done].
      apply picks_pick; [by apply selected_nonempty | eauto]. }
  split.
  - intros [(idx & -> & Hv) Hcomp]. split; [by eauto|]. by apply Hc.
  - intros [(idx & Hv & <-) Hconc]. split; [by eauto|]. by apply Hc.
Qed.

Lemma pick_inj teeth idx idx' :
  NoDup (concat teeth) → Forall (λ t, t ≠ []) teeth →
  odo_valid idx (highest teeth) → odo_valid idx' (highest teeth) →
  pick teeth idx = pick teeth idx' → idx = idx'.
Proof.
  intros Hnd Hne. revert idx idx'. induction Hne as [|t ts Ht _ IH]; intros idx idx' H1 H2.
  { inversion H1; inversion H2; done. }
  inversion H1 as [|i ? is1 ? Hi H1']; subst. inversion H2 as [|j ? is2 ? Hj H2']; subst.
  simpl. simpl in Hnd. apply NoDup_app in Hnd as (Hndt & _ & Hnd).
  destruct (lookup_lt_is_Some_2 t i) as [x Hx]; [destruct t; [done | simpl in *; lia]|].
  destruct (lookup_lt_is_Some_2 t j) as [y Hy]; [destruct t; [done | simpl in *; lia]|].
  rewrite Hx, Hy. intros [= -> Heq].
  rewrite (NoDup_lookup t i j y Hndt Hx Hy). f_equal. by apply IH.
Qed.

Lemma NoDup_selected mask teeth : NoDup (concat teeth) → NoDup (concat (selected mask teeth)).
Proof.
  revert mask. induction teeth as [|t ts IH]; intros mask Hnd; [done|].
  rewrite selected_cons. simpl in Hnd. apply NoDup_app in Hnd as (Ht & Hd & Hnd).
  destruct (Nat.odd mask); simpl; [|by apply IH].
  apply NoDup_app. split_and!; [done | | by apply IH].
  intros x Hx Hin. apply (Hd x Hx). by eapply selected_elem.
Qed.

Lemma mask_offers_nodup teeth mask :
  NoDup (concat teeth) → Forall (λ t, t ≠ []) teeth → NoDup (mask_offers teeth mask).
Proof.
  intros Hnd Hne. unfold mask_offers, offers.
  apply NoDup_ListNoDup, List.NoDup_filter, NoDup_ListNoDup.
  destruct (odo_zero (highest (selected mask teeth))) as [Hv H0].
  rewrite length_fmap in Hv, H0. apply NoDup_fmap_2_strong.
  - intros x y Hx%visit_all_elem Hy%visit_all_elem. apply pick_inj; try done.
    + by apply NoDup_selected.
    + by apply selected_nonempty.
  - apply odo_visit_nodup; [done | lia].
Qed.

Lemma mask_rounds_spec teeth s r masks :
  (∀ x y, x ∈ concat teeth → y ∈ concat teeth → is_less_than h x y = Ok (lt x y)) →
  Forall (λ t, t ≠ []) teeth →
  for_each (mask_round filter h teeth) (s, r) masks =
    Ok (foldl f s (masks ≫= mask_offers teeth),
        r ++ List.filter keep (masks ≫= mask_offers teeth)).
Proof.
  intros Hless Hne. revert s r. induction masks as [|m ms IH]; intros s r; simpl.
  { by rewrite app_nil_r. }
  rewrite mask_round_spec by done. rewrite bind_Ok_l, IH.
  by rewrite foldl_app, List.filter_app, app_assoc.
Qed.

Lemma all_offers_elem teeth s :
  Forall (λ t, t ≠ []) teeth → (∀ x, x ∈ concat teeth → lt x x = false) →
  s ∈ seq 0 (2 ^ length teeth) ≫= mask_offers teeth ↔ choice teeth s ∧ concurrent s.
Proof.
  intros Hne Hirr. rewrite list_elem_of_bind, choice_masks. split.
  - intros (m & Hs & Hm). apply elem_of_seq in Hm. apply mask_offers_elem in Hs as [??]; [|done..].
    split; [|done]. exists m. split; [lia | done].
  - intros [(m & Hm & Hp) Hc]. exists m. split; [by apply mask_offers_elem|].
    apply elem_of_seq. lia.
Qed.

Lemma all_offers_nodup teeth :
  NoDup (concat teeth) → Forall (λ t, t ≠ []) teeth →
  (∀ x, x ∈ concat teeth → lt x x = false) →
  NoDup (seq 0 (2 ^ length teeth) ≫= mask_offers teeth).
Proof.
  intros Hnd Hne Hirr. apply NoDup_bind.
  - intros m1 m2 s Hm1 Hm2 H1 H2. apply elem_of_seq in Hm1, Hm2.
    apply mask_offers_elem in H1 as [H1 _]; [|done..].
    apply mask_offers_elem in H2 as [H2 _]; [|done..].
    eapply masks_inj; [done | lia | lia | done | done].
  - intros m _. by apply mask_offers_nodup.
  - apply NoDup_seq.
Qed.
End enumeration.
