(* ===== verification/CombProofs.v ===== *)
(** * Correctness of combs

    The extremal scan returns exactly the maximal (or minimal) elements of a
    strict order; teeth keep their invariant; and the enumeration of
    concurrent combinations returns every choice of pairwise concurrent
    events, at most one per thread, exactly once. *)

From stdpp Require Import base tactics list gmap numbers sorting.
From S2P Require Import Prelude StdMap ThreadId Event Comb CombEnum.

(** ** Extremal elements *)

Section extremal.
Context (before : eid → eid → res bool) (lt : eid → eid → bool) (l : list eid).
Hypothesis before_lt : ∀ x y, x ∈ l → y ∈ l → before x y = Ok (lt x y).
Hypothesis lt_irrefl : ∀ x, x ∈ l → lt x x = false.
Hypothesis lt_trans : ∀ x y z, x ∈ l → y ∈ l → z ∈ l →
  lt x y = true → lt y z = true → lt x z = true.

Lemma extremal_scan_keep t result :
  t ∈ l → (∀ r, r ∈ result → r ∈ l ∧ lt t r = false) →
  extremal_scan before t result = Ok (List.filter (λ r, negb (lt r t)) result, true).
Proof.
  intros Ht. induction result as [|r rs IH]; intros Hr; simpl; [done|].
  destruct (Hr r) as [Hrl Hrt]; [by left|].
  assert (∀ r, r ∈ rs → r ∈ l ∧ lt t r = false) as Hrs by (intros; apply Hr; by right).
  rewrite (before_lt r t) by done. simpl. destruct (lt r t); simpl; [by apply IH|].
  rewrite (before_lt t r), Hrt by done. simpl. by rewrite IH.
Qed.

Lemma extremal_scan_drop t result :
  t ∈ l → (∀ r, r ∈ result → r ∈ l ∧ lt r t = false) →
  (∃ r, r ∈ result ∧ lt t r = true) →
  extremal_scan before t result = Ok (result, false).
Proof.
  intros Ht. induction result as [|r rs IH]; intros Hr [r0 [Hin Hlt]]; simpl.
  { by apply elem_of_nil in Hin. }
  destruct (Hr r) as [Hrl Hrt]; [by left|].
  rewrite (before_lt r t), Hrt by done. simpl. rewrite (before_lt t r) by done.
  simpl. destruct (lt t r) eqn:E; [done|]. rewrite IH; [done | |].
  - intros; apply Hr; by right.
  - exists r0. apply elem_of_cons in Hin as [->|?]; [by rewrite E in Hlt | done].
Qed.

Definition extremal_in (s : list eid) (x : eid) : Prop :=
  x ∈ s ∧ ∀ y, y ∈ s → lt x y = false.

(** A finite strict order has an extremal element above each element. *)
Lemma extremal_above s x :
  (∀ y, y ∈ s → y ∈ l) → x ∈ l →
  (∃ y, y ∈ s ∧ lt x y = true) → ∃ y, extremal_in s y ∧ lt x y = true.
Proof.
  intros Hs Hx (y & Hy & Hxy).
  enough (∀ n y, length (List.filter (lt y) s) < n → y ∈ s → lt x y = true →
    ∃ z, extremal_in s z ∧ lt x z = true) as Hgen by (by apply (Hgen _ y (Nat.lt_succ_diag_r _))).
  clear y Hy Hxy. induction n as [|n IH]; intros y Hn Hy Hxy; [lia|].
  destruct (existsb (lt y) s) eqn:E.
  - apply existsb_elem_of in E as (z & Hz & Hyz).
    apply (IH z); [|done|apply (lt_trans x y z); auto].
    apply Nat.lt_le_trans with (length (List.filter (lt y) s)); [|lia].
    assert (∀ u, u ∈ s → lt z u = true → lt y u = true) as Himp.
    { intros u Hu Hzu. apply (lt_trans y z u); auto. }
    clear -Himp Hz Hyz Hs lt_irrefl. induction s as [|u s IHs]; simpl.
    { by apply elem_of_nil in Hz. }
    assert (∀ u, u ∈ s → lt z u = true → lt y u = true) as Himp'.
    { intros v Hv. apply Himp. by right. }
    assert (length (List.filter (lt z) s) ≤ length (List.filter (lt y) s)) as Hle.
    { clear -Himp'. induction s as [|v s IHs]; simpl; [done|].
      pose proof (Himp' v (list_elem_of_here _ _)) as Hv.
      assert (length (List.filter (lt z) s) ≤ length (List.filter (lt y) s)).
      { apply IHs. intros w Hw. apply Himp'. by right. }
      destruct (lt z v); [rewrite (Hv eq_refl); simpl; lia|].
      destruct (lt y v); simpl; lia. }
    apply elem_of_cons in Hz as [->|Hz].
    + rewrite Hyz, (lt_irrefl u) by (apply Hs; by left). simpl. lia.
    + assert (length (List.filter (lt z) s) < length (List.filter (lt y) s)).
      { apply IHs; [by intros; apply Hs; right | done | done]. }
      pose proof (Himp u (list_elem_of_here _ _)) as Hu.
      destruct (lt z u); [rewrite (Hu eq_refl); simpl; lia|].
      destruct (lt y u); simpl; lia.
  - exists y. split; [split; [done|] | done]. intros z Hz.
    destruct (lt y z) eqn:Eyz; [|done].
    rewrite (proj2 (existsb_elem_of (lt y) s)) in E; [done | by eauto].
Qed.

Lemma extremal_step_spec s result t :
  (∀ y, y ∈ s → y ∈ l) → t ∈ l → t ∉ s →
  NoDup result → (∀ x, x ∈ result ↔ extremal_in s x) →
  ∃ r', extremal_step before result t = Ok r' ∧ NoDup r' ∧
    (∀ x, x ∈ r' ↔ extremal_in (s ++ [t]) x).
Proof.
  intros Hs Ht Hnin Hnd Hres. unfold extremal_step.
  assert (∀ r, r ∈ result → r ∈ s ∧ r ∈ l) as Hrl.
  { intros r [Hr _]%Hres. auto. }
  destruct (existsb (lt t) result) eqn:E.
  - apply existsb_elem_of in E as (r & Hr & Htr).
    rewrite extremal_scan_drop; [| done | | by eauto].
    + exists result. simpl. split_and!; [done | done |]. intros x. rewrite Hres.
      unfold extremal_in. setoid_rewrite elem_of_app. setoid_rewrite list_elem_of_singleton.
      split.
      * intros [Hx Hm]. split; [by left|]. intros y [Hy| ->]; [by apply Hm|].
        destruct (lt x t) eqn:Ext; [|done].
        apply Hres in Hr as [Hr _]. rewrite <-(Hm r Hr). symmetry.
        apply (lt_trans x t r); auto.
      * intros [[Hx| ->] Hm].
        -- split; [done|]. intros y Hy. apply Hm. by left.
        -- rewrite Hm in Htr; [done|]. left. by apply Hrl.
    + intros q Hq. split; [by apply Hrl|]. destruct (lt q t) eqn:Eqt; [|done].
      pose proof (proj1 (Hres q) Hq) as [_ Hm].
      rewrite <-(Hm r); [|by apply Hrl]. symmetry.
      apply (lt_trans q t r); auto; by apply Hrl.
  - assert (∀ r, r ∈ result → lt t r = false) as Hno.
    { intros r Hr. destruct (lt t r) eqn:Etr; [|done].
      rewrite (proj2 (existsb_elem_of (lt t) result)) in E; [done | by eauto]. }
    assert (∀ y, y ∈ s → lt t y = false) as Hno'.
    { intros y Hy. destruct (lt t y) eqn:Ety; [|done].
      destruct (extremal_above s t) as (z & Hz & Htz); [done | done | by eauto |].
      apply Hres in Hz. by rewrite (Hno z) in Htz. }
    rewrite extremal_scan_keep; [| done |].
    2: { intros r Hr. split; [by apply Hrl | by apply Hno]. }
    simpl. eexists. split; [done|].
    assert (∀ x, x ∈ List.filter (λ r, negb (lt r t)) result ↔
              x ∈ result ∧ lt x t = false) as Hf.
    { intros x. rewrite elem_of_list_filter_b, negb_true_iff. done. }
    split.
    { apply NoDup_app. split_and!.
      - apply NoDup_ListNoDup, List.NoDup_filter, NoDup_ListNoDup, Hnd.
      - intros x [Hx _]%Hf Hxt%list_elem_of_singleton. subst. by destruct (Hrl _ Hx).
      - apply NoDup_singleton. }
    intros x. rewrite elem_of_app, Hf, list_elem_of_singleton, Hres.
    unfold extremal_in. setoid_rewrite elem_of_app. setoid_rewrite list_elem_of_singleton.
    split.
    + intros [[[Hx Hm] Hxt]| ->].
      * split; [by left|]. intros y [Hy| ->]; [by apply Hm | done].
      * split; [by right|]. intros y [Hy| ->]; [by apply Hno' | by apply lt_irrefl].
    + intros [[Hx| ->] Hm]; [left|by right]. split_and!; [done| |].
      * intros y Hy. apply Hm. by left.
      * apply Hm. by right.
Qed.

Lemma extremal_spec :
  NoDup l →
  ∃ r, extremal before l = Ok r ∧ NoDup r ∧ ∀ x, x ∈ r ↔ extremal_in l x.
Proof.
  intros Hnd. unfold extremal.
  enough (∀ l2 l1 acc, l = l1 ++ l2 → NoDup acc → (∀ x, x ∈ acc ↔ extremal_in l1 x) →
    ∃ r, for_each (extremal_step before) acc l2 = Ok r ∧ NoDup r ∧
      ∀ x, x ∈ r ↔ extremal_in l x) as Hgen.
  { apply (Hgen l []); [done | constructor |]. intros x.
    unfold extremal_in. rewrite elem_of_nil. naive_solver. }
  induction l2 as [|t l2 IH]; intros l1 acc Hl Hacc Hx.
  { exists acc. rewrite app_nil_r in Hl. by subst l1. }
  destruct (extremal_step_spec l1 acc t) as (r' & Hr' & Hnd' & Hx');
    [| | | done | done |].
  { intros y Hy. rewrite Hl. set_solver. }
  { rewrite Hl. set_solver. }
  { rewrite Hl in Hnd. apply NoDup_app in Hnd as (_ & Hd & _).
    intros Hin. apply (Hd t Hin). by left. }
  simpl. rewrite Hr'. simpl. apply (IH (l1 ++ [t])); [|done|done].
  by rewrite <-app_assoc.
Qed.
End extremal.

(** ** Teeth *)

Section teeth.
Context {PL : Payload} (h : heap).

(** The depth of the event at an address. *)
Definition dep (x : eid) : nat :=
  match h !! x with Some e => ev_depth e | None => 0 end.

Definition on_thread (tid : thread_id) (x : eid) : Prop :=
  ∃ e, h !! x = Some e ∧ ev_tid e = tid.

(** On one thread the causality test compares depths. *)
Lemma less_same_thread tid x y :
  on_thread tid x → on_thread tid y → is_less_than h x y = Ok (Nat.ltb (dep x) (dep y)).
Proof.
  intros (ex & Hx & <-) (ey & Hy & Hty). unfold is_less_than, deref, dep.
  rewrite Hx, Hy. simpl. unfold ev_less. by rewrite (proj2 (tid_eqb_spec _ _) Hty).
Qed.

Abbreviation deeper := (λ x y, dep x < dep y).

(** The class invariant of [tooth] for a conflict-free set of events. *)
Record tooth_ok (tid : thread_id) (t : tooth) : Prop := {
  tok_thread x : x ∈ t_events t → on_thread tid x;
  tok_nodup : NoDup (t_events t);
  tok_inj x y : x ∈ t_events t → y ∈ t_events t → dep x = dep y → x = y;
  tok_min a x : tooth_min t = Some a → x ∈ t_events t → dep a ≤ dep x;
  tok_max b x : tooth_max t = Some b → x ∈ t_events t → dep x ≤ dep b;
  tok_sorted : t_sorted t = true → StronglySorted deeper (t_events t);
  tok_unsorted : t_sorted t = false → 4 ≤ length (t_events t);
}.

Lemma StronglySorted_snoc {A} (R : A → A → Prop) l x :
  StronglySorted R l → (∀ y, y ∈ l → R y x) → StronglySorted R (l ++ [x]).
Proof.
  induction 1 as [|a l Hs IH Hf]; simpl; intros Hx; [repeat constructor|].
  constructor; [apply IH; intros; apply Hx; by right|].
  apply Forall_app. split; [done|]. constructor; [apply Hx; by left | constructor].
Qed.

Lemma insert_before_last_snoc e l b :
  insert_before_last e (l ++ [b]) = l ++ [e; b].
Proof.
  unfold insert_before_last. rewrite length_app. simpl.
  replace (length l + 1 - 1) with (length l) by lia.
  by rewrite take_app_length, drop_app_length.
Qed.

Lemma list_last_Some (a : eid) l : list.last (a :: l) = Some (List.last l a).
Proof.
  revert a. induction l as [|b l IH]; intros a; [done|].
  change (list.last (a :: b :: l)) with (list.last (b :: l)). rewrite IH.
  destruct l as [|c l]; [done|]. f_equal. clear IH.
  change (List.last (c :: l) b = List.last (c :: l) a).
  revert c. induction l as [|d l IH]; intros c; [done | apply (IH d)].
Qed.

Lemma tooth_ok_empty tid : tooth_ok tid tooth_empty.
Proof.
  split; simpl; try done; try (intros; by match goal with H : _ ∈ [] |- _ =>
    apply elem_of_nil in H end); constructor.
Qed.

(** Inserting above all, below all, or strictly inside. *)
Lemma tooth_ok_push_front tid t e :
  tooth_ok tid t → on_thread tid e → (∀ x, x ∈ t_events t → dep e < dep x) →
  t_events t ≠ [] → tooth_ok tid (Tooth (e :: t_events t) (t_sorted t)).
Proof.
  intros Hok He Hlt Hne. destruct Hok as [Ht Hn Hi Hmi Hma Hs Hu]. split; simpl.
  - intros x [->|?]%elem_of_cons; auto.
  - constructor; [|done]. intros Hin. specialize (Hlt e Hin). lia.
  - intros x y [->|Hx]%elem_of_cons [->|Hy]%elem_of_cons Heq; auto.
    + specialize (Hlt y Hy). lia.
    + specialize (Hlt x Hx). lia.
  - intros a x [= <-] [->|Hx]%elem_of_cons; [lia|]. specialize (Hlt x Hx). lia.
  - intros b x Hb [->|Hx]%elem_of_cons; unfold tooth_max in Hb; simpl in Hb;
      destruct (t_events t) as [|c l] eqn:E; try done.
    + pose proof (Hlt c (list_elem_of_here _ _)) as Hc.
      apply Nat.le_trans with (dep c); [lia|]. apply (Hma b c); [|by left].
      unfold tooth_max. by rewrite E.
    + apply (Hma b); [|done]. unfold tooth_max. by rewrite E.
  - intros Hsort. constructor; [auto|]. apply List.Forall_forall.
    intros x Hx%list_elem_of_In. auto.
  - intros Hun. specialize (Hu Hun). lia.
Qed.

Lemma tooth_ok_push_back tid t e :
  tooth_ok tid t → on_thread tid e → (∀ x, x ∈ t_events t → dep x < dep e) →
  tooth_ok tid (Tooth (t_events t ++ [e]) (t_sorted t)).
Proof.
  intros Hok He Hlt. destruct Hok as [Ht Hn Hi Hmi Hma Hs Hu]. split; simpl.
  - intros x [?| ->%list_elem_of_singleton]%elem_of_app; auto.
  - apply NoDup_app. split_and!; [done | | apply NoDup_singleton].
    intros x Hx ->%list_elem_of_singleton. specialize (Hlt e Hx). lia.
  - intros x y [Hx| ->%list_elem_of_singleton]%elem_of_app
      [Hy| ->%list_elem_of_singleton]%elem_of_app Heq; auto.
    + specialize (Hlt x Hx). lia.
    + specialize (Hlt y Hy). lia.
  - intros a x Ha [Hx| ->%list_elem_of_singleton]%elem_of_app;
      unfold tooth_min in Ha; simpl in Ha; destruct (t_events t) as [|c l] eqn:E.
    + by apply elem_of_nil in Hx.
    + apply (Hmi a); [|done]. unfold tooth_min. by rewrite E.
    + injection Ha as <-. done.
    + injection Ha as <-. specialize (Hlt c (list_elem_of_here _ _)). lia.
  - intros b x Hb. unfold tooth_max in Hb. simpl in Hb. rewrite last_snoc in Hb.
    injection Hb as <-. intros [Hx| ->%list_elem_of_singleton]%elem_of_app; [|done].
    specialize (Hlt x Hx). lia.
  - intros Hsort. apply StronglySorted_snoc; auto.
  - intros Hun. specialize (Hu Hun). rewrite length_app. lia.
Qed.

Lemma tooth_ok_insert_inside tid t e a m b :
  tooth_ok tid t → on_thread tid e → t_events t = a :: m ++ [b] →
  e ∉ t_events t → (∀ x, x ∈ t_events t → dep x = dep e → x = e) →
  dep a ≤ dep e → dep e ≤ dep b →
  tooth_ok tid (Tooth (a :: m ++ [e; b]) (if m is [] then t_sorted t else false)).
Proof.
  intros Hok He Hev Hnin Hinj Hae Heb. destruct Hok as [Ht Hn Hi Hmi Hma Hs Hu].
  unfold tooth_min, tooth_max in *. rewrite Hev in *. 
  assert (∀ x, x ∈ a :: m ++ [e; b] ↔ x = e ∨ x ∈ a :: m ++ [b]) as Hel
    by (intros x; set_solver).
  assert (dep a < dep e) as Hae'.
  { destruct (decide (dep a = dep e)) as [E|]; [|lia].
    destruct Hnin. rewrite <-(Hinj a); [by left | by left | done]. }
  assert (b ∈ a :: m ++ [b]) as Hbin by set_solver.
  assert (dep e < dep b) as Heb'.
  { destruct (decide (dep b = dep e)) as [E|]; [|lia].
    destruct Hnin. by rewrite <-(Hinj b). }
  split; unfold tooth_min, tooth_max; cbn [t_events t_sorted].
  - intros x [->|?]%Hel; auto.
  - assert (a :: m ++ [e; b] ≡ₚ e :: a :: m ++ [b]) as ->; [|by constructor].
    rewrite <-(Permutation_middle (a :: m) [b] e). done.
  - intros x y [->|Hx]%Hel [->|Hy]%Hel Heq; auto.
    symmetry. apply Hinj; [done | lia].
  - intros a' x [= <-] [->|Hx]%Hel; [lia | by apply Hmi].
  - intros b' x Hb'. replace (a :: m ++ [e; b]) with ((a :: m ++ [e]) ++ [b]) in Hb'
      by (simpl; by rewrite <-app_assoc).
    rewrite last_snoc in Hb'. injection Hb' as <-.
    intros [->|Hx]%Hel; [lia|]. apply Hma; [|done].
    rewrite app_comm_cons. apply last_snoc.
  - destruct m as [|c m]; [|done]. intros Hsort. repeat constructor; simpl; lia.
  - destruct m as [|c m]; [intros Hun; specialize (Hu Hun); simpl in Hu; lia|].
    intros _. simpl. rewrite length_app. simpl. lia.
Qed.

(** The part of [tooth::insert] after the comparison with the front; [above]
    is the outcome of its second comparison. *)
Definition tooth_insert_upper (e : eid) (t : tooth) (above : bool) : res tooth :=
  if above then Ok (Tooth (t_events t ++ [e]) (t_sorted t))
  else if bool_decide (e ∈ t_events t) then Ok t
  else let l := insert_before_last e (t_events t) in
    if length l =? 3 then _ ← cassert (t_sorted t); Ok (Tooth l (t_sorted t))
    else _ ← cassert (3 <? length l); Ok (Tooth l false).

Lemma tooth_ok_short tid t : tooth_ok tid t → length (t_events t) < 4 → t_sorted t = true.
Proof.
  intros Hok Hl. destruct (t_sorted t) eqn:Hs; [done|].
  pose proof (tok_unsorted _ _ Hok Hs). lia.
Qed.

Section insert.
Context (tid : thread_id) (t : tooth) (e : eid).
Hypothesis Hok : tooth_ok tid t.
Hypothesis He : on_thread tid e.
Hypothesis Hinj : ∀ x, x ∈ t_events t → dep x = dep e → x = e.

Lemma tooth_insert_upper_inside a m b :
  t_events t = a :: m ++ [b] → e ∉ t_events t → dep a ≤ dep e → dep e ≤ dep b →
  ∃ t', tooth_insert_upper e t false = Ok t' ∧ tooth_ok tid t' ∧ t_events t' ≠ [] ∧
    ∀ x, x ∈ t_events t' ↔ x = e ∨ x ∈ t_events t.
Proof.
  intros Hm Hin Hge Hle.
  pose proof (tooth_ok_insert_inside tid t e a m b Hok He Hm Hin Hinj Hge Hle) as Hok'.
  unfold tooth_insert_upper. rewrite bool_decide_eq_false_2 by done.
  assert (insert_before_last e (t_events t) = a :: m ++ [e; b]) as ->.
  { rewrite Hm, app_comm_cons. by rewrite insert_before_last_snoc. }
  cbv zeta. assert (∀ x, x ∈ a :: m ++ [e; b] ↔ x = e ∨ x ∈ t_events t) as Hel.
  { intros x. rewrite Hm. set_solver. }
  destruct m as [|c m]; simpl.
  - assert (t_sorted t = true) as Hs.
    { apply (tooth_ok_short tid); [done|]. rewrite Hm. simpl. lia. }
    rewrite Hs in Hok' |- *. simpl. by eexists.
  - rewrite length_app. simpl.
    replace (length m + 2) with (S (S (length m))) by lia. simpl. by eexists.
Qed.

Lemma tooth_insert_upper_spec a rest above :
  t_events t = a :: rest → dep a ≤ dep e →
  (above = true ↔ dep (List.last rest a) < dep e) →
  ∃ t', tooth_insert_upper e t above = Ok t' ∧ tooth_ok tid t' ∧ t_events t' ≠ [] ∧
    ∀ x, x ∈ t_events t' ↔ x = e ∨ x ∈ t_events t.
Proof.
  intros Hev Hge Hc. set (b := List.last rest a) in *.
  assert (tooth_max t = Some b) as Hmax.
  { unfold tooth_max. rewrite Hev. apply list_last_Some. }
  destruct above.
  { eexists. split_and!; [done | | by destruct (t_events t) |].
    - apply tooth_ok_push_back; [done..|]. intros x Hx.
      pose proof (tok_max _ _ Hok b x Hmax Hx). apply proj1 in Hc. lia.
    - intros x. simpl. rewrite elem_of_app, list_elem_of_singleton. naive_solver. }
  assert (dep e ≤ dep b) as Hle.
  { destruct (decide (dep b < dep e)) as [Hd|]; [by apply Hc in Hd | lia]. }
  destruct (decide (e ∈ t_events t)) as [Hin|Hin].
  { exists t. unfold tooth_insert_upper. rewrite bool_decide_eq_true_2 by done.
    split_and!; [done | done | by rewrite Hev | naive_solver]. }
  destruct rest as [|r rest _] using rev_ind.
  { exfalso. subst b. simpl in *. apply Hin.
    assert (a ∈ t_events t) as Ha by (rewrite Hev; by left).
    rewrite <-(Hinj a); [done | done | lia]. }
  apply (tooth_insert_upper_inside a rest b); [|done..].
  rewrite Hev. unfold b. by rewrite List.last_last.
Qed.

End insert.

Lemma tooth_insert_spec tid t e :
  tooth_ok tid t → on_thread tid e →
  (∀ x, x ∈ t_events t → dep x = dep e → x = e) →
  ∃ t', tooth_insert h e t = Ok t' ∧ tooth_ok tid t' ∧ t_events t' ≠ [] ∧
    ∀ x, x ∈ t_events t' ↔ x = e ∨ x ∈ t_events t.
Proof.
  intros Hok He Hinj.
  unfold tooth_insert. destruct (t_events t) as [|a rest] eqn:Hev.
  { rewrite (tooth_ok_short tid t) by (done || rewrite Hev; simpl; lia).
    simpl. eexists. split_and!; [done | | done |].
    - apply (tooth_ok_push_back tid tooth_empty e (tooth_ok_empty tid) He).
      intros x []%elem_of_nil.
    - intros x. simpl. rewrite list_elem_of_singleton, elem_of_nil. naive_solver. }
  rewrite <-Hev in *. assert (a ∈ t_events t) as Ha by (rewrite Hev; by left).
  assert (tooth_min t = Some a) as Hmin by (unfold tooth_min; by rewrite Hev).
  rewrite (less_same_thread tid e a) by (done || by apply (tok_thread _ _ Hok)).
  rewrite bind_Ok_l. destruct (Nat.ltb_spec (dep e) (dep a)) as [Hlt|Hge].
  { eexists. split_and!; [done | | done | by intros x; simpl; rewrite elem_of_cons].
    apply tooth_ok_push_front; [done | done | | by rewrite Hev].
    intros x Hx. pose proof (tok_min _ _ Hok a x Hmin Hx). lia. }
  set (b := List.last rest a) in *.
  destruct (Nat.eqb (length (t_events t)) 1 && negb (bool_decide (a = e))) eqn:E1;
    [rewrite bind_Ok_l; apply (tooth_insert_upper_spec tid t e Hok He Hinj a rest true Hev Hge)|].
  - split; [intros _|done].
    apply andb_true_iff in E1 as [E1%Nat.eqb_eq E2%negb_true_iff%bool_decide_eq_false].
    rewrite Hev in E1. destruct rest; [|done]. subst b. simpl.
    destruct (decide (dep a = dep e)) as [E|]; [|lia]. destruct E2. by apply Hinj.
  - rewrite (less_same_thread tid b e).
    + rewrite bind_Ok_l. apply (tooth_insert_upper_spec tid t e Hok He Hinj a rest _ Hev Hge). apply Nat.ltb_lt.
    + apply (tok_thread _ _ Hok), last_Some_elem_of. rewrite Hev. apply list_last_Some.
    + done.
Qed.

(** [tooth::remove] on a sorted tooth. *)
Lemma erase_first_elem e l x :
  NoDup l → x ∈ erase_first e l ↔ x ≠ e ∧ x ∈ l.
Proof.
  induction 1 as [|y l Hy _ IH]; simpl; [rewrite elem_of_nil; naive_solver|].
  case_bool_decide as E; [subst y|]; rewrite ?elem_of_cons, ?IH; naive_solver.
Qed.

Lemma erase_first_sorted (R : eid → eid → Prop) e (l : list eid) :
  StronglySorted R l → StronglySorted R (erase_first e l).
Proof.
  induction 1 as [|y l Hs IH Hf]; simpl; [constructor|].
  case_bool_decide; [done|]. constructor; [done|].
  rewrite List.Forall_forall in Hf |- *. intros x Hx. apply Hf. revert Hx. clear.
  induction l as [|z l IH]; simpl; [done|]. case_bool_decide; naive_solver.
Qed.

(** A strictly ascending list of events of one thread is a sorted tooth. *)
Lemma tooth_ok_of_sorted tid l :
  (∀ x, x ∈ l → on_thread tid x) → StronglySorted deeper l → tooth_ok tid (Tooth l true).
Proof.
  intros Ht Hs.
  assert (∀ l x y, StronglySorted deeper l → x ∈ l → y ∈ l →
    x = y ∨ dep x < dep y ∨ dep y < dep x) as Htri.
  { clear. intros l x y. induction 1 as [|a l Hs IH Hf]; [by intros ?%elem_of_nil|].
    rewrite List.Forall_forall in Hf.
    intros [->|Hx]%elem_of_cons [->|Hy]%elem_of_cons; auto;
      apply list_elem_of_In, Hf in Hx || apply list_elem_of_In, Hf in Hy; auto. }
  split; cbn [t_events t_sorted]; try done.
  - clear -Hs. induction Hs as [|a l Hs IH Hf]; constructor; [|done].
    intros Hin%list_elem_of_In. rewrite List.Forall_forall in Hf. apply Hf in Hin. lia.
  - intros x y Hx Hy Heq. destruct (Htri l x y Hs Hx Hy) as [|[|]]; [done | lia | lia].
  - unfold tooth_min. intros a x Ha. destruct Hs as [|c l Hs Hf]; [done|].
    injection Ha as ->. intros [->|Hx%list_elem_of_In]%elem_of_cons; [done|].
    rewrite List.Forall_forall in Hf. apply Hf in Hx. lia.
  - unfold tooth_max. intros b x Hb. cbn [t_events] in Hb. clear Ht. revert b Hb.
    induction Hs as [|c l Hs IH Hf]; [done|]. intros b Hb.
    rewrite list_last_Some in Hb. rewrite List.Forall_forall in Hf.
    destruct l as [|d l].
    { injection Hb as <-. by intros ->%list_elem_of_singleton. }
    assert (list.last (d :: l) = Some b) as Hb2.
    { rewrite <-Hb, <-(list_last_Some c). done. }
    intros [->|Hx]%elem_of_cons; [|by apply IH].
    apply Nat.lt_le_incl, Hf, list_elem_of_In. by apply last_Some_elem_of.
Qed.

Lemma tooth_remove_spec tid t e :
  tooth_ok tid t → t_sorted t = true →
  ∃ t', tooth_remove e t = Ok t' ∧ tooth_ok tid t' ∧ t_sorted t' = true ∧
    ∀ x, x ∈ t_events t' ↔ x ≠ e ∧ x ∈ t_events t.
Proof.
  intros Hok Hs. unfold tooth_remove. case_bool_decide as Hin.
  { exists t. split_and!; [done..|]. intros x. naive_solver. }
  rewrite Hs. simpl. eexists. split_and!; [done | | done |].
  - apply tooth_ok_of_sorted.
    + intros x Hx. cbn in Hx. apply erase_first_elem in Hx as [_ Hx]; [|by apply Hok].
      by apply (tok_thread _ _ Hok).
    + by apply erase_first_sorted, (tok_sorted _ _ Hok).
  - intros x. simpl. apply erase_first_elem, (tok_nodup _ _ Hok).
Qed.

Lemma tooth_sort_spec tid t :
  tooth_ok tid t →
  ∃ t', tooth_sort h t = Ok t' ∧ tooth_ok tid t' ∧ t_sorted t' = true ∧
    t_events t' ≡ₚ t_events t.
Proof.
  intros Hok. unfold tooth_sort. destruct (t_sorted t) eqn:Hs; [by eauto|].
  destruct (std_sort_sorted (is_less_than h) (λ x y, Nat.ltb (dep x) (dep y)) (t_events t))
    as (l & -> & Hp & Hl).
  { intros x y Hx Hy. apply (less_same_thread tid); by apply (tok_thread _ _ Hok). }
  { intros x y z _ _ _. rewrite !Nat.ltb_ge. lia. }
  { intros x y _ _. rewrite Nat.ltb_lt, Nat.ltb_ge. lia. }
  simpl. eexists. split_and!; [done | | done | done].
  assert (∀ x, x ∈ l → x ∈ t_events t) as Hin by (intros x; by rewrite Hp).
  apply tooth_ok_of_sorted.
  { intros x Hx. by apply (tok_thread _ _ Hok), Hin. }
  assert (NoDup l) as Hnd by (rewrite Hp; apply Hok). clear Hp.
  induction Hl as [|a l Hl IH Hf]; [constructor|]. apply NoDup_cons in Hnd as [Ha Hnd].
  constructor; [apply IH; [intros; apply Hin; by right | done]|].
  rewrite List.Forall_forall in Hf |- *. intros y Hy. pose proof (Hf y Hy) as Hle.
  apply Nat.ltb_ge in Hle. apply list_elem_of_In in Hy.
  destruct (decide (dep a = dep y)) as [E|]; [|lia].
  destruct Ha. rewrite (tok_inj _ _ Hok a y); [done | apply Hin; by left | apply Hin; by right | done].
Qed.

(** ** Combs *)

Definition comb_ok (c : comb) : Prop :=
  smap_sorted c ∧ ∀ tid t, (tid, t) ∈ c → tooth_ok tid t ∧ t_events t ≠ [].

Lemma comb_events_elem c x :
  x ∈ comb_events c ↔ ∃ tid t, (tid, t) ∈ c ∧ x ∈ t_events t.
Proof.
  unfold comb_events, smap_vals. rewrite list_elem_of_In, in_concat.
  setoid_rewrite <-list_elem_of_In. split.
  - intros (l & (t & -> & Ht)%list_elem_of_fmap & Hx).
    apply list_elem_of_fmap in Ht as ([tid t'] & -> & Hin). eauto.
  - intros (tid & t & Hin & Hx). exists (t_events t). split; [|done].
    apply list_elem_of_fmap. exists t. split; [done|].
    apply list_elem_of_fmap. by exists (tid, t).
Qed.

Lemma comb_ok_nil : comb_ok [].
Proof. split; [apply smap_sorted_nil | intros ?? []%elem_of_nil]. Qed.

Lemma comb_ok_tooth c tid : comb_ok c → tooth_ok tid (comb_tooth tid c).
Proof.
  intros [Hs Hok]. unfold comb_tooth. destruct (smap_find tid c) as [t|] eqn:E; simpl.
  - apply Hok. by apply smap_elem_find.
  - apply tooth_ok_empty.
Qed.

Lemma comb_tooth_elem c tid x :
  comb_ok c → x ∈ t_events (comb_tooth tid c) ↔ x ∈ comb_events c ∧ on_thread tid x.
Proof.
  intros [Hs Hok]. rewrite comb_events_elem. unfold comb_tooth. split.
  - destruct (smap_find tid c) as [t|] eqn:E; simpl; [|by intros ?%elem_of_nil].
    apply smap_elem_find in E; [|done]. intros Hx. split; [by eauto|].
    apply (tok_thread _ _ (proj1 (Hok _ _ E)) _ Hx).
  - intros [(tid' & t & Hin & Hx) (e & He & Ht)].
    destruct (tok_thread _ _ (proj1 (Hok _ _ Hin)) _ Hx) as (e' & He' & Ht').
    rewrite He in He'. injection He' as <-. subst tid tid'.
    apply smap_elem_find in Hin; [|done]. by rewrite Hin.
Qed.

(** [comb::insert] adds the event and keeps the invariant, when no other
    event of the comb has the same thread and depth. *)
Lemma comb_insert_spec c e ee :
  comb_ok c → h !! e = Some ee →
  (∀ x, x ∈ comb_events c → on_thread (ev_tid ee) x → dep x = dep e → x = e) →
  ∃ c', comb_insert h e c = Ok c' ∧ comb_ok c' ∧
    ∀ x, x ∈ comb_events c' ↔ x = e ∨ x ∈ comb_events c.
Proof.
  intros Hc He Hinj. unfold comb_insert, deref. rewrite He. simpl.
  assert (on_thread (ev_tid ee) e) as Hte by (by exists ee).
  destruct (tooth_insert_spec (ev_tid ee) (comb_tooth (ev_tid ee) c) e)
    as (t' & -> & Hok' & Hne & Hel).
  { by apply comb_ok_tooth. }
  { done. }
  { intros x [Hx Ht]%comb_tooth_elem Hd; [|done]. by apply Hinj. }
  rewrite bind_Ok_l. eexists. split; [done|].
  assert (comb_ok (smap_set (ev_tid ee) t' c)) as Hc'.
  { split; [by apply smap_set_sorted, Hc|]. intros tid t Hin.
    apply smap_elem_find in Hin; [|by apply smap_set_sorted, Hc].
    destruct (smap_find_set (ev_tid ee) tid t' c) as [[<- Hf]|[Hne' Hf]]; rewrite Hf in Hin.
    - by injection Hin as <-.
    - apply Hc. by apply smap_elem_find; [apply Hc|]. }
  split; [done|]. intros x. 
  assert (∀ tid, x ∈ t_events (comb_tooth tid (smap_set (ev_tid ee) t' c)) ↔
    (tid = ev_tid ee ∧ x = e) ∨ x ∈ t_events (comb_tooth tid c)) as Htooth.
  { intros tid. unfold comb_tooth at 1.
    destruct (smap_find_set (ev_tid ee) tid t' c) as [[<- ->]|[Hne' ->]]; simpl;
      [rewrite Hel | unfold comb_tooth]; naive_solver. }
  assert (∀ c, comb_ok c → x ∈ comb_events c ↔
    ∃ tid, x ∈ t_events (comb_tooth tid c)) as Hev.
  { intros c0 Hc0. setoid_rewrite comb_tooth_elem; [|done].
    split; [|by intros (? & ? & _)]. intros Hx. pose proof Hx as Hx'.
    apply comb_events_elem in Hx as (tid & t & Hin & Hx). exists tid. split; [done|].
    by apply (tok_thread _ _ (proj1 (proj2 Hc0 _ _ Hin))). }
  rewrite !Hev by done. setoid_rewrite Htooth. naive_solver.
Qed.

Lemma comb_sort_loop c acc :
  (∀ tid t, (tid, t) ∈ c → tooth_ok tid t) →
  ∃ c', for_each (λ acc '(tid, t), t' ← tooth_sort h t; Ok (acc ++ [(tid, t')])) acc c =
      Ok (acc ++ c') ∧
    Forall2 (λ p q, p.1 = q.1 ∧ tooth_ok q.1 q.2 ∧ t_sorted q.2 = true ∧
      t_events q.2 ≡ₚ t_events p.2) c c'.
Proof.
  revert acc. induction c as [|[tid t] c IH]; intros acc Hok; simpl.
  { exists []. rewrite app_nil_r. split; [done | constructor]. }
  destruct (tooth_sort_spec tid t) as (t' & -> & Hok' & Hs & Hp); [apply Hok; by left|].
  simpl. destruct (IH (acc ++ [(tid, t')])) as (c' & -> & Hf).
  { intros; apply Hok; by right. }
  exists ((tid, t') :: c'). rewrite <-app_assoc. split; [done|]. by constructor.
Qed.

Lemma choice_perm teeth teeth' s :
  Forall2 (≡ₚ) teeth teeth' → choice teeth s ↔ choice teeth' s.
Proof.
  intros Hf. enough (∀ ts ts', Forall2 (≡ₚ) ts ts' → ∀ s, choice ts s → choice ts' s) as Hgen.
  { split; apply Hgen; [done|]. clear -Hf. induction Hf; constructor; [by symmetry | done]. }
  clear. induction 1 as [|t t' ts ts' Hp _ IH]; intros s; [done|].
  inversion 1; subst; [apply choice_skip | apply choice_pick]; auto. by rewrite <-Hp.
Qed.

Lemma comb_ok_nodup c :
  comb_ok c → NoDup (concat (t_events <$> smap_vals c)).
Proof.
  intros [Hs Hok]. unfold smap_vals. unfold smap_sorted in Hs.
  induction Hs as [|[tid t] c Hs IH Hf]; simpl; [constructor|].
  assert (∀ tid t, (tid, t) ∈ c → tooth_ok tid t ∧ t_events t ≠ []) as Hok'
    by (intros; apply Hok; by right).
  apply NoDup_app. split_and!; [apply (tok_nodup tid), Hok; by left | | by apply IH].
  intros x Hx Hin. destruct (Hok tid t) as [Ht _]; [by left|].
  destruct (tok_thread _ _ Ht x Hx) as (e & He & Hte).
  apply (comb_events_elem c) in Hin as (tid' & t' & Hin & Hx').
  destruct (tok_thread _ _ (proj1 (Hok' _ _ Hin)) x Hx') as (e' & He' & Hte').
  rewrite He in He'. injection He' as <-. rewrite List.Forall_forall in Hf.
  apply list_elem_of_In, Hf in Hin. simpl in Hin. subst tid tid'.
  by rewrite less_irrefl in Hin.
Qed.
End teeth.

(** ** Enumeration and extremal events of a comb *)

Section comb_spec.
Context {PL : Payload} (h : heap).
Implicit Types c : comb.

Abbreviation teeth_of c := (t_events <$> smap_vals (c : comb)).

(** [comb::sort] sorts every tooth and keeps its events. *)
Lemma comb_sort_spec c :
  comb_ok h c →
  ∃ c', comb_sort h c = Ok c' ∧ comb_ok h c' ∧ comb_is_sorted c' = true ∧
    Forall2 (≡ₚ) (teeth_of c) (teeth_of c').
Proof.
  intros [Hs Hok]. unfold comb_sort.
  destruct (comb_sort_loop h c []) as (c' & -> & Hcc); [intros; by apply Hok|].
  exists c'. split_and!; [done | split | |].
  - clear -Hs Hcc. unfold smap_sorted in *. revert c' Hcc.
    induction Hs as [|p c Hs IH Hfa]; intros c' Hcc; inversion Hcc as [|? q ? c'' Hpq Hr];
      subst; constructor; [by apply IH|].
    destruct Hpq as [Hpq _]. rewrite List.Forall_forall in Hfa |- *.
    intros r Hin%list_elem_of_In.
    apply (Forall2_elem_r _ _ _ _ Hr) in Hin as (p' & Hin & Heq & _).
    rewrite <-Hpq, <-Heq. by apply Hfa, list_elem_of_In.
  - intros tid t Hin.
    apply (Forall2_elem_r _ _ _ _ Hcc) in Hin as ([tid' t'] & Hin & E & Ht & _ & Hp).
    split; [done|]. simpl in *. intros Hn. rewrite Hn in Hp. apply Permutation_nil_l in Hp.
    by apply (Hok _ _ Hin).
  - clear -Hcc. unfold comb_is_sorted, smap_vals.
    induction Hcc as [|?? ?? (_ & _ & Hst & _) _ IH]; simpl; [done|]. by rewrite Hst.
  - unfold smap_vals. clear -Hcc.
    induction Hcc as [|?? ?? (_ & _ & _ & Hp)]; simpl; constructor; [by symmetry | done].
Qed.

Lemma comb_ok_nonempty c : comb_ok h c → Forall (λ t, t ≠ []) (teeth_of c).
Proof.
  intros [_ Hok]. apply List.Forall_forall.
  intros t (tt & -> & Ht)%list_elem_of_In%list_elem_of_fmap.
  apply list_elem_of_fmap in Ht as ([tid t'] & -> & Hin). by apply (Hok tid).
Qed.

Lemma concat_perm_elem (ts ts' : list (list eid)) x :
  Forall2 (≡ₚ) ts ts' → x ∈ concat ts ↔ x ∈ concat ts'.
Proof.
  induction 1 as [|t t' ts ts' Hp _ IH]; [done|]. simpl. by rewrite !elem_of_app, IH, Hp.
Qed.

Context (c : comb) (lt : eid → eid → bool).
Hypothesis Hc : comb_ok h c.
Hypothesis Hlt : ∀ x y, x ∈ comb_events c → y ∈ comb_events c →
  is_less_than h x y = Ok (lt x y).

Lemma comb_lt_irrefl x : x ∈ comb_events c → lt x x = false.
Proof.
  intros Hx. pose proof (Hlt x x Hx Hx) as Hxx.
  apply comb_events_elem in Hx as (tid & t & Hin & Hx).
  pose proof (tok_thread h _ _ (proj1 (proj2 Hc _ _ Hin)) x Hx) as Ht.
  rewrite (less_same_thread h tid) in Hxx by done. injection Hxx as <-.
  apply Nat.ltb_irrefl.
Qed.

Lemma concurrent_combinations_gen {S : Type} (filter : S → list eid → res (S * bool))
    (f : S → list eid → S) (keep : list eid → bool) (s : S) :
  (∀ s x, filter s x = Ok (f s x, keep x)) → length c < 64 →
  ∃ s' r, concurrent_combinations filter h c s = Ok (s', r) ∧ NoDup r ∧
    ∀ x, x ∈ r ↔ (choice (teeth_of c) x ∧ concurrent lt x) ∧ keep x = true.
Proof.
  intros Hf Hlen. unfold concurrent_combinations.
  destruct (comb_sort_spec c Hc) as (c' & -> & Hc' & _ & Hperm). rewrite bind_Ok_l.
  cbv zeta. pose proof (comb_ok_nonempty c' Hc') as Hne.
  pose proof (comb_ok_nodup h c' Hc') as Hnd.
  assert (length (teeth_of c') = length c) as Hl.
  { rewrite <-(Forall2_length _ _ _ Hperm). unfold smap_vals. by rewrite !length_fmap. }
  set (teeth := teeth_of c') in *.
  assert (∀ x, x ∈ concat teeth ↔ x ∈ comb_events c) as Hev.
  { intros x. symmetry. by apply concat_perm_elem. }
  rewrite Hl. destruct (Nat.ltb_spec (length c) 64); [|lia].
  cbn [cassert]. rewrite bind_Ok_l, <-Hl.
  rewrite (mask_rounds_spec h lt filter f keep Hf); [|by intros; apply Hlt; apply Hev | done].
  do 2 eexists. split; [done|]. cbn [app]. split.
  - apply NoDup_ListNoDup, List.NoDup_filter, NoDup_ListNoDup, all_offers_nodup;
      [done | done |]. intros x Hx. by apply comb_lt_irrefl, Hev.
  - intros x. rewrite elem_of_list_filter_b, all_offers_elem, <-(choice_perm _ _ _ Hperm);
      [done | done |]. intros y Hy. by apply comb_lt_irrefl, Hev.
Qed.

(** Minima and maxima of the teeth. *)
Lemma tooth_ends_spec (f : tooth → option eid) (l : list tooth) :
  (∀ t, t ∈ l → ∃ e, f t = Some e ∧ e ∈ t_events t) →
  ∃ r, tooth_ends f l = Ok r ∧ Forall2 (λ t e, f t = Some e ∧ e ∈ t_events t) l r.
Proof.
  induction l as [|t l IH]; intros Hl; simpl; [by eauto|].
  destruct (Hl t) as (e & He & Hin); [by left|]. rewrite He. simpl.
  destruct IH as (r & -> & Hr); [intros; apply Hl; by right|]. simpl.
  exists (e :: r). split; [done|]. by constructor.
Qed.

Lemma Forall2_elem_l {A B} (R : A → B → Prop) l k x :
  Forall2 R l k → x ∈ l → ∃ y, y ∈ k ∧ R x y.
Proof. intros H1%Forall2_flip Hx. by apply (Forall2_elem_r _ _ _ _ H1). Qed.

(** The ends of the teeth, when [f] picks an element below (or above) all
    others of the tooth in [R]. *)
Section ends.
Context (f : tooth → option eid) (R : eid → eid → bool).
Hypothesis f_end : ∀ tid t, (tid, t) ∈ c →
  ∃ e, f t = Some e ∧ e ∈ t_events t ∧ ∀ x, x ∈ t_events t → x = e ∨ R x e = true.
Hypothesis R_irrefl : ∀ x, x ∈ comb_events c → R x x = false.
Hypothesis R_trans : ∀ x y z, x ∈ comb_events c → y ∈ comb_events c → z ∈ comb_events c →
  R x y = true → R y z = true → R x z = true.
Context (before : eid → eid → res bool).
Hypothesis before_R : ∀ x y, x ∈ comb_events c → y ∈ comb_events c →
  before x y = Ok (R x y).

Lemma tooth_of_vals t : t ∈ smap_vals c ↔ ∃ tid, (tid, t) ∈ c.
Proof.
  unfold smap_vals. rewrite list_elem_of_fmap. split.
  - intros ([tid t'] & -> & Hin). eauto.
  - intros (tid & Hin). by exists (tid, t).
Qed.

Lemma ends_extremal :
  ∃ l r, tooth_ends f (smap_vals c) = Ok l ∧ extremal before l = Ok r ∧ NoDup r ∧
    ∀ x, x ∈ r ↔ extremal_in R (comb_events c) x.
Proof.
  destruct (tooth_ends_spec f (smap_vals c)) as (l & Hl & Hf).
  { intros t (tid & Hin)%tooth_of_vals. destruct (f_end _ _ Hin) as (e & ? & ? & _). eauto. }
  assert (∀ x, x ∈ l → x ∈ comb_events c) as Hsub.
  { intros x Hx. apply (Forall2_elem_r _ _ _ _ Hf) in Hx as (t & Ht & _ & Hx).
    apply tooth_of_vals in Ht as (tid & Ht). apply comb_events_elem. eauto. }
  assert (∀ x, x ∈ comb_events c → ∃ e, e ∈ l ∧ (x = e ∨ R x e = true)) as Hcov.
  { intros x (tid & t & Hin & Hx)%comb_events_elem.
    destruct (Forall2_elem_l _ _ _ t Hf) as (e & He & Hfe & _);
      [apply tooth_of_vals; eauto|]. exists e. split; [done|].
    destruct (f_end _ _ Hin) as (e' & Hfe' & _ & Hall). rewrite Hfe in Hfe'.
    injection Hfe' as <-. by apply Hall. }
  assert (NoDup l) as Hnd.
  { pose proof (comb_ok_nodup h c Hc) as Hnd. clear -Hf Hnd.
    induction Hf as [|t e ts l [_ Hin] Hf IH]; [constructor|]. simpl in Hnd.
    apply NoDup_app in Hnd as (_ & Hd & Hnd). constructor; [|by apply IH].
    intros He. apply (Forall2_elem_r _ _ _ _ Hf) in He as (t' & Ht' & _ & He).
    apply (Hd e Hin), list_elem_of_In, in_concat. exists (t_events t').
    split; [|by apply list_elem_of_In]. apply list_elem_of_In, list_elem_of_fmap. eauto. }
  destruct (extremal_spec before R l) as (r & Hr & Hndr & Hx); [| | |done|].
  { intros; apply before_R; auto. } { intros; apply R_irrefl; auto. }
  { intros x y z ???. apply R_trans; auto. }
  exists l, r. split_and!; [done..|]. intros x. rewrite Hx. unfold extremal_in. split.
  - intros [Hin Hm]. split; [by apply Hsub|]. intros y Hy.
    destruct (Hcov y Hy) as (e & He & [->|Hye]); [by apply Hm|].
    destruct (R x y) eqn:E; [|done]. rewrite <-(Hm e He). symmetry. apply (R_trans x y e); auto.
  - intros [Hin Hm]. destruct (Hcov x Hin) as (e & He & [->|Hxe]).
    + split; [done|]. intros y Hy. auto.
    + rewrite Hm in Hxe; [done | by apply Hsub].
Qed.
End ends.

Hypothesis Htrans : ∀ x y z, x ∈ comb_events c → y ∈ comb_events c → z ∈ comb_events c →
  lt x y = true → lt y z = true → lt x z = true.

Lemma comb_same_tooth tid t x y :
  (tid, t) ∈ c → x ∈ t_events t → y ∈ t_events t → lt x y = Nat.ltb (dep h x) (dep h y).
Proof.
  intros Hin Hx Hy. destruct (proj2 Hc _ _ Hin) as [Hok _].
  pose proof (Hlt x y) as Hl. rewrite (less_same_thread h tid) in Hl.
  - symmetry. apply ok_inj, Hl; apply comb_events_elem; eauto.
  - by apply (tok_thread h _ _ Hok).
  - by apply (tok_thread h _ _ Hok).
Qed.

Lemma tooth_end_lt tid t e x :
  (tid, t) ∈ c → e ∈ t_events t → x ∈ t_events t →
  dep h x ≤ dep h e → x = e ∨ lt x e = true.
Proof.
  intros Hin He Hx Hle. destruct (proj2 Hc _ _ Hin) as [Hok _].
  destruct (decide (dep h x = dep h e)) as [E|]; [left; by apply (tok_inj h _ _ Hok)|].
  right. rewrite (comb_same_tooth tid t) by done. apply Nat.ltb_lt. lia.
Qed.

Lemma comb_max_gen :
  ∃ r, comb_max h c = Ok r ∧ NoDup r ∧
    ∀ x, x ∈ r ↔ x ∈ comb_events c ∧ ∀ y, y ∈ comb_events c → lt x y = false.
Proof.
  destruct (ends_extremal tooth_max lt) with (before := is_less_than h)
    as (l & r & Hl & Hr & Hnd & Hx); [| apply comb_lt_irrefl | done | done |].
  - intros tid t Hin. destruct (proj2 Hc _ _ Hin) as [Hok Hne].
    destruct (t_events t) as [|a rest] eqn:Hev; [done|].
    assert (tooth_max t = Some (List.last rest a)) as Hmax.
    { unfold tooth_max. rewrite Hev. apply list_last_Some. }
    rewrite <-Hev. pose proof Hmax as Hb. apply last_Some_elem_of in Hb.
    eexists. split_and!; [done | done |]. intros x Hx.
    apply (tooth_end_lt tid t); [done..|]. by apply (tok_max h _ _ Hok).
  - exists r. unfold comb_max. by rewrite Hl, bind_Ok_l.
Qed.

Lemma comb_min_gen :
  ∃ r, comb_min h c = Ok r ∧ NoDup r ∧
    ∀ x, x ∈ r ↔ x ∈ comb_events c ∧ ∀ y, y ∈ comb_events c → lt y x = false.
Proof.
  destruct (ends_extremal tooth_min (λ x y, lt y x)) with
    (before := λ r t, is_less_than h t r) as (l & r & Hl & Hr & Hnd & Hx);
    [| apply comb_lt_irrefl | | |].
  - intros tid t Hin. destruct (proj2 Hc _ _ Hin) as [Hok Hne].
    destruct (t_events t) as [|a rest] eqn:Hev; [done|].
    assert (tooth_min t = Some a) as Hmin by (unfold tooth_min; by rewrite Hev).
    rewrite <-Hev. eexists. split_and!; [done | rewrite Hev; by left |]. intros x Hx.
    destruct (tooth_end_lt tid t x a) as [->|]; [done | done | rewrite Hev; by left | | by left | by right].
    by apply (tok_min h _ _ Hok).
  - intros x y z Hx Hy Hz H1 H2. by apply (Htrans z y x).
  - intros x y Hx Hy. by apply Hlt.
  - exists r. unfold comb_min. by rewrite Hl, bind_Ok_l.
Qed.
End comb_spec.
