(* ===== verification/Cone.v ===== *)
(** * Cones ([include/por/cone.h], [lib/Por/cone.cpp])

    A cone maps each thread to the maximal event of that thread in a causally
    closed set (without [program_init]). It is kept by every event for its
    causes, and built from a configuration's thread heads. *)

From stdpp Require Import base tactics list gmap numbers.
From S2P Require Import Prelude StdMap ThreadId Event Comb.

Section cone.
Context {PL : Payload}.

Abbreviation cone := (smap thread_id eid).

(** [if(!has(tid) || at(tid)->depth() < event->depth()) _map[tid] = event]. *)
Definition cone_update (h : heap) (tid : thread_id) (q : eid) (c : cone) : res cone :=
  match smap_find tid c with
  | None => Ok (smap_set tid q c)
  | Some r =>
      er ← deref h r;
      eq ← deref h q;
      Ok (if Nat.ltb (ev_depth er) (ev_depth eq) then smap_set tid q c else c)
  end.

Definition cone_insert (h : heap) (p : eid) (c : cone) : res cone :=
  ep ← deref h p;
  if kind_eqb (ev_kind ep) program_init then Ok c
  else
    c' ← for_each (λ acc '(tid, q), cone_update h tid q acc) c (ev_cone ep);
    cone_update h (ev_tid ep) p c'.

(** [cone(immediate_predecessor)]. *)
Definition cone_of_pred (h : heap) (ip : eid) : res cone :=
  ep ← deref h ip;
  Ok (if kind_eqb (ev_kind ep) program_init then ev_cone ep
      else smap_set (ev_tid ep) ip (ev_cone ep)).

(** [cone(immediate_predecessor, single_other_predecessor, other_predecessors)]
    with non-null [other_predecessors]. *)
Definition cone_of_preds (h : heap) (ip : eid) (single : option eid) (others : list eid)
    : res cone :=
  ep ← deref h ip;
  let c := smap_set (ev_tid ep) ip (ev_cone ep) in
  c1 ← match single with Some s => cone_insert h s c | None => Ok c end;
  for_each (λ acc op, cone_insert h op acc) c1 others.

(** [cone(begin, end)] over non-null pointers. *)
Definition cone_of_range (h : heap) (l : list eid) : res cone :=
  for_each (λ acc e, cone_insert h e acc) [] l.

(** [at(tid)->depth()] compared with [event->depth()], as both
    [is_lte_for_all_of] and [is_gte_for_all_of] do. *)
Definition is_lte_for_all_of (h : heap) (c rhs : cone) : res bool :=
  all_of (λ '(tid, event),
    match smap_find tid c with
    | None => Ok true
    | Some p =>
        ep ← deref h p; ee ← deref h event;
        Ok (negb (Nat.ltb (ev_depth ee) (ev_depth ep)))
    end) rhs.

Definition is_gte_for_all_of (h : heap) (c rhs : cone) : res bool :=
  all_of (λ '(tid, event),
    match smap_find tid c with
    | None => Ok false
    | Some p =>
        ep ← deref h p; ee ← deref h event;
        Ok (negb (Nat.ltb (ev_depth ep) (ev_depth ee)))
    end) rhs.

Definition extend_unchecked_single (h : heap) (e : eid) (c : cone) : res cone :=
  ee ← deref h e;
  _ ← cassert (negb (kind_eqb (ev_kind ee) program_init));
  _ ← match smap_find (ev_tid ee) c with
      | None => Ok tt
      | Some p => ep ← deref h p; cassert (Nat.leb (ev_depth ep) (ev_depth ee))
      end;
  Ok (smap_set (ev_tid ee) e c).

(** [cone::max]. *)
Definition cone_max (h : heap) (c : cone) : res (list eid) :=
  extremal (is_less_than h) (smap_vals c).

(** The walks of [setminus] down one thread. [fuel] bounds the events of the
    thread; the depth of the starting event suffices. *)
Fixpoint walk_insert (h : heap) (fuel : nat) (stop : nat → bool) (e : option eid)
    (result : comb) : res comb :=
  match e with
  | None => Ok result
  | Some p =>
      match fuel with
      | O => Err OutOfFuel
      | S fuel' =>
          ep ← deref h p;
          if stop (ev_depth ep) then Ok result
          else
            result' ← comb_insert h p result;
            walk_insert h fuel' stop (thread_predecessor ep) result'
      end
  end.

(** [cone::setminus]: a comb of [this] without [rhs]. *)
Definition setminus (h : heap) (c rhs : cone) : res comb :=
  for_each (λ result '(tid, event),
    ee ← deref h event;
    match smap_find tid rhs with
    | None => walk_insert h (S (ev_depth ee)) (λ _, false) (Some event) result
    | Some r =>
        er ← deref h r;
        if Nat.ltb (ev_depth ee) (ev_depth er) then Ok result
        else walk_insert h (S (ev_depth ee)) (λ d, Nat.leb d (ev_depth er))
               (Some event) result
    end) [] c.

(** [event::immediate_predecessors_from_cone]. *)
Definition immediate_predecessors_from_cone (h : heap) (e : event) : res (list eid) :=
  _ ← cassert (negb (kind_eqb (ev_kind e) thread_init));
  cone_max h (ev_cone e).

(** [immediate_predecessors], with the overrides of the event classes. *)
Definition immediate_predecessors (h : heap) (e : event) : res (list eid) :=
  match ev_data e with
  | ProgramInit | Local _ _ | ThreadCreate _ _ | ThreadInit _ | ThreadExit _ _
  | LockCreate _ _ | ConditionVariableCreate _ _ => Ok (predecessors e)
  | ThreadJoin tp j =>
      b ← is_less_than h tp j;
      Ok (if (b : bool) then [j] else [tp; j])
  | LockDestroy tp lp _ | LockAcquire tp lp _ _ =>
      match lp with None => Ok [tp] | Some l => two_immediate h tp l end
  | LockRelease tp lp _ _ => two_immediate h tp lp
  | Wait2 _ np lp _ _ _ =>
      b1 ← is_less_than h np lp;
      if (b1 : bool) then Ok [lp]
      else
        b2 ← is_less_than h lp np;
        Ok (if (b2 : bool) then [np] else [np; lp])
  | Signal tp cps _ =>
      lost ← signal_is_lost h e;
      match lost, cps with
      | false, w :: _ =>
          b1 ← is_less_than h w tp;
          if (b1 : bool) then Ok [tp]
          else
            b2 ← is_less_than h tp w;
            Ok (if (b2 : bool) then [w] else [tp; w])
      | _, _ => immediate_predecessors_from_cone h e
      end
  | ConditionVariableDestroy _ _ _ | Wait1 _ _ _ _ _ | Broadcast _ _ _ _ =>
      immediate_predecessors_from_cone h e
  end.

(** [event::synchronized_events]. *)
Definition synchronized_events (h : heap) (e : event) : res comb :=
  match thread_predecessor e with
  | None => Err AssertFailed
  | Some tp =>
      etp ← deref h tp;
      c ← setminus h (ev_cone e) (ev_cone etp);
      c' ← comb_remove h tp c;
      _ ← cassert (negb (smap_has (ev_tid e) c'));
      Ok c'
  end.

(** ** Local configurations ([event_iterator])

    The sequence of [local_configuration(include_program_init)] and
    [causes(include_program_init)]: the event itself, then the cone's threads
    in descending order, each from its maximal event down, then
    [program_init], which is the predecessor of the last [thread_init]. *)
Fixpoint thread_walk (h : heap) (fuel : nat) (p : eid) : res (list eid) :=
  match fuel with
  | O => Err OutOfFuel
  | S fuel' =>
      ep ← deref h p;
      match thread_predecessor ep with
      | None => Ok [p]
      | Some q => r ← thread_walk h fuel' q; Ok (p :: r)
      end
  end.

(** The events of the cone's threads, in iteration order. *)
Fixpoint cone_walk (h : heap) (threads : list eid) : res (list eid) :=
  match threads with
  | [] => Ok []
  | p :: ps =>
      ep ← deref h p;
      l ← thread_walk h (S (ev_depth ep)) p;
      r ← cone_walk h ps;
      Ok (l ++ r)
  end.

(** The first predecessor of the last event visited, or of the event itself
    when its cone is empty. *)
Definition first_predecessor (e : event) : res eid := in_range (list.head (predecessors e)).

Definition event_range (h : heap) (p : eid) (with_root with_event : bool)
    : res (list eid) :=
  e ← deref h p;
  let with_root := if kind_eqb (ev_kind e) program_init then false else with_root in
  below ← cone_walk h (rev (smap_vals (ev_cone e)));
  root ←
    (if with_root then
       match list.last below with
       | None =>
           _ ← cassert (kind_eqb (ev_kind e) thread_init);
           r ← first_predecessor e;
           er ← deref h r;
           _ ← cassert (kind_eqb (ev_kind er) program_init);
           Ok [r]
       | Some l => el ← deref h l; r ← first_predecessor el; Ok [r]
       end
     else Ok []);
  Ok ((if with_event then [p] else []) ++ below ++ root).

Definition local_configuration (h : heap) (p : eid) (include_program_init : bool)
    : res (list eid) := event_range h p include_program_init true.

Definition causes (h : heap) (p : eid) (include_program_init : bool)
    : res (list eid) := event_range h p include_program_init false.
End cone.

Abbreviation cone := (smap thread_id eid).
