(* ===== verification/Alloc.v ===== *)
(** * Event constructors ([alloc] of every event class)

    Each [alloc] builds a temporary event: the base-class constructor
    computes cone, depth and cutoff flag from the predecessors, and the
    class's constructor checks its assertions. Nothing is stored yet; the
    unfolding does that. *)

From stdpp Require Import base tactics list gmap numbers sorting.
From S2P Require Import Prelude StdMap ThreadId Event Comb Cone.

Section alloc.
Context {PL : Payload}.

Definition make_event (tid : thread_id) (d : event_data) (c : cone) (depth : nat)
    (cutoff : bool) : event :=
  {| ev_tid := tid; ev_data := d; ev_cone := c; ev_depth := depth;
     ev_color := 0; ev_imm_cfl_color := 0; ev_successors := [];
     ev_immediate_conflicts := []; ev_metadata := metadata_default;
     ev_is_cutoff := cutoff; ev_lc_size := 0 |}.

(** [event(kind, tid, immediate_predecessor)]. *)
Definition event_of_pred (h : heap) (tid : thread_id) (d : event_data) (ip : eid)
    : res event :=
  ep ← deref h ip;
  c ← cone_of_pred h ip;
  Ok (make_event tid d c (ev_depth ep + 1) (ev_is_cutoff ep)).

(** [std::max_element] of the depths of the cone's events; the range is never
    empty, since the cone holds the immediate predecessor. *)
Definition cone_events (h : heap) (c : cone) : res (list event) :=
  for_each (λ acc p, e ← deref h p; Ok (acc ++ [e])) [] (smap_vals c).

Definition max_depth (l : list event) : nat := foldr (λ e n, Nat.max (ev_depth e) n) 0 l.

(** [event(kind, tid, immediate_predecessor, single_other_predecessor,
    other_predecessors)]. *)
Definition event_of_preds (h : heap) (tid : thread_id) (d : event_data) (ip : eid)
    (single : option eid) (others : list eid) : res event :=
  c ← cone_of_preds h ip single others;
  es ← cone_events h c;
  let depth := max_depth es + 1 in
  _ ← for_each (λ _ p, ep ← deref h p; cassert (Nat.ltb (ev_depth ep) depth)) tt
        (ip :: option_list single ++ others);
  Ok (make_event tid d c depth (existsb ev_is_cutoff es)).

(** The assertions on the same-thread predecessor that most constructors
    share. *)
Definition check_thread_predecessor (h : heap) (tid : thread_id) (tp : eid) : res unit :=
  ep ← deref h tp;
  _ ← cassert (negb (tid_empty (ev_tid ep)));
  _ ← cassert (tid_eqb (ev_tid ep) tid);
  _ ← cassert (negb (kind_eqb (ev_kind ep) program_init));
  cassert (negb (kind_eqb (ev_kind ep) thread_exit)).

(** [std::sort(cond_predecessors.begin(), cond_predecessors.end())]: pointers
    sorted by address. *)
Definition sort_ptrs (l : list eid) : list eid := merge_sort N.le l.

Definition alloc_local (h : heap) (tid : thread_id) (tp : eid) (path : list decision)
    : res event :=
  e ← event_of_pred h tid (Local tp path) tp;
  _ ← check_thread_predecessor h tid tp;
  Ok e.

(** [program_init()]. *)
Definition program_init_event : event :=
  make_event tid_root ProgramInit [] 0 false.

Definition alloc_thread_create (h : heap) (tid : thread_id) (tp : eid)
    (new_tid : thread_id) : res event :=
  e ← event_of_pred h tid (ThreadCreate tp new_tid) tp;
  _ ← check_thread_predecessor h tid tp;
  _ ← cassert (negb (tid_empty new_tid));
  _ ← cassert (negb (tid_eqb new_tid tid));
  Ok e.

Definition alloc_thread_join (h : heap) (tid : thread_id) (tp joined : eid) : res event :=
  e ← event_of_preds h tid (ThreadJoin tp joined) tp (Some joined) [];
  _ ← check_thread_predecessor h tid tp;
  ej ← deref h joined;
  _ ← cassert (negb (tid_empty (ev_tid ej)));
  _ ← cassert (negb (tid_eqb (ev_tid ej) tid));
  _ ← cassert (kind_eqb (ev_kind ej) thread_exit);
  Ok e.

Definition alloc_thread_init (h : heap) (tid : thread_id) (creation : eid) : res event :=
  e ← event_of_pred h tid (ThreadInit creation) creation;
  ec ← deref h creation;
  _ ← cassert (negb (tid_eqb (ev_tid ec) tid));
  _ ← cassert ((kind_eqb (ev_kind ec) program_init && tid_empty (ev_tid ec))
               || (kind_eqb (ev_kind ec) thread_create && negb (tid_empty (ev_tid ec))));
  Ok e.

Definition alloc_thread_exit (h : heap) (tid : thread_id) (tp : eid) (atomic : bool)
    : res event :=
  e ← event_of_pred h tid (ThreadExit tp atomic) tp;
  _ ← check_thread_predecessor h tid tp;
  ep ← deref h tp;
  _ ← cassert (negb atomic || kind_eqb (ev_kind ep) lock_release);
  Ok e.

Definition alloc_lock_create (h : heap) (tid : thread_id) (lid : lock_id_t) (tp : eid)
    : res event :=
  e ← event_of_pred h tid (LockCreate tp lid) tp;
  _ ← check_thread_predecessor h tid tp;
  _ ← cassert (negb (lid =? 0)%N);
  Ok e.

Definition alloc_lock_destroy (h : heap) (tid : thread_id) (lid : lock_id_t) (tp : eid)
    (lp : option eid) : res event :=
  e ← event_of_preds h tid (LockDestroy tp lp lid) tp lp [];
  _ ← check_thread_predecessor h tid tp;
  _ ← match lp with
      | None => Ok tt
      | Some l =>
          el ← deref h l;
          _ ← cassert (negb (kind_eqb (ev_kind el) lock_acquire));
          _ ← cassert (kind_eqb (ev_kind el) lock_create || kind_eqb (ev_kind el) lock_release);
          cassert (ev_lid el =? lid)%N
      end;
  Ok e.

Definition alloc_lock_acquire (h : heap) (tid : thread_id) (lid : lock_id_t) (tp : eid)
    (lp : option eid) : res event :=
  e ← event_of_preds h tid (LockAcquire tp lp lid false) tp lp [];
  _ ← check_thread_predecessor h tid tp;
  _ ← match lp with
      | None => Ok tt
      | Some l =>
          el ← deref h l;
          _ ← cassert (kind_eqb (ev_kind el) lock_create || kind_eqb (ev_kind el) lock_release
                       || kind_eqb (ev_kind el) wait1);
          cassert (ev_lid el =? lid)%N
      end;
  _ ← cassert (negb (lid =? 0)%N);
  Ok e.

Definition alloc_lock_release (h : heap) (tid : thread_id) (lid : lock_id_t) (tp lp : eid)
    (atomic : bool) : res event :=
  e ← event_of_preds h tid (LockRelease tp lp lid atomic) tp (Some lp) [];
  _ ← check_thread_predecessor h tid tp;
  el ← deref h lp;
  _ ← cassert (kind_eqb (ev_kind el) lock_acquire || kind_eqb (ev_kind el) wait2);
  _ ← cassert (tid_eqb (ev_tid el) tid);
  _ ← cassert (ev_lid el =? lid)%N;
  _ ← cassert (negb (lid =? 0)%N);
  _ ← cassert (negb atomic ||
               (bool_decide (lp = tp) && kind_eqb (ev_kind el) lock_acquire));
  Ok e.

Definition alloc_condition_variable_create (h : heap) (tid : thread_id) (cid : cond_id_t)
    (tp : eid) : res event :=
  e ← event_of_pred h tid (ConditionVariableCreate tp cid) tp;
  _ ← check_thread_predecessor h tid tp;
  _ ← cassert (negb (cid =? 0)%N);
  Ok e.

Definition alloc_condition_variable_destroy (h : heap) (tid : thread_id) (cid : cond_id_t)
    (tp : eid) (cond_predecessors : list eid) : res event :=
  let cps := sort_ptrs cond_predecessors in
  e ← event_of_preds h tid (ConditionVariableDestroy tp cps cid) tp None cps;
  _ ← check_thread_predecessor h tid tp;
  _ ← for_each (λ _ p,
        ep ← deref h p;
        match ev_kind ep with
        | condition_variable_create | broadcast | signal | wait2 =>
            cassert (ev_cid ep =? cid)%N
        | _ => Err AssertFailed
        end) tt cps;
  _ ← cassert (negb (cid =? 0)%N);
  Ok e.

Definition alloc_wait1 (h : heap) (tid : thread_id) (cid : cond_id_t) (lid : lock_id_t)
    (tp lp : eid) (cond_predecessors : list eid) : res event :=
  let cps := sort_ptrs cond_predecessors in
  e ← event_of_preds h tid (Wait1 tp lp cps cid lid) tp (Some lp) cps;
  _ ← check_thread_predecessor h tid tp;
  el ← deref h lp;
  _ ← cassert (kind_eqb (ev_kind el) lock_acquire || kind_eqb (ev_kind el) wait2);
  _ ← cassert (tid_eqb (ev_tid el) tid);
  _ ← cassert (ev_lid el =? lid)%N;
  _ ← for_each (λ _ p,
        ep ← deref h p;
        match ev_kind ep with
        | signal =>
            lost ← signal_is_lost h ep;
            _ ← cassert lost;
            cassert (ev_cid ep =? cid)%N
        | broadcast =>
            n ← broadcast_is_notifying_thread h ep tid;
            _ ← cassert (negb n);
            cassert (ev_cid ep =? cid)%N
        | condition_variable_create => cassert (ev_cid ep =? cid)%N
        | _ => Err AssertFailed
        end) tt cps;
  _ ← cassert (negb (cid =? 0)%N);
  _ ← cassert (negb (lid =? 0)%N);
  Ok e.

Definition alloc_wait2 (h : heap) (tid : thread_id) (cid : cond_id_t) (lid : lock_id_t)
    (tp lp np : eid) : res event :=
  e ← event_of_preds h tid (Wait2 tp np lp cid lid false) tp (Some lp) [np];
  ep ← deref h tp;
  _ ← cassert (negb (tid_empty (ev_tid ep)));
  _ ← cassert (tid_eqb (ev_tid ep) tid);
  _ ← cassert (kind_eqb (ev_kind ep) wait1);
  el ← deref h lp;
  _ ← cassert (kind_eqb (ev_kind el) lock_release || kind_eqb (ev_kind el) wait1);
  _ ← cassert (ev_lid el =? lid)%N;
  _ ← cassert (negb (cid =? 0)%N);
  _ ← cassert (negb (lid =? 0)%N);
  en ← deref h np;
  _ ← cassert (negb (tid_eqb (ev_tid en) tid));
  _ ← (if kind_eqb (ev_kind en) signal then
         nt ← signal_notified_thread h en;
         _ ← cassert (tid_eqb nt tid);
         _ ← cassert (ev_cid en =? cid)%N;
         wp ← signal_wait_predecessor h en;
         cassert (bool_decide (wp = Some tp))
       else
         _ ← cassert (kind_eqb (ev_kind en) broadcast);
         n ← broadcast_is_notifying_thread h en tid;
         _ ← cassert n;
         _ ← cassert (ev_cid en =? cid)%N;
         ws ← broadcast_wait_predecessors en;
         cassert (bool_decide (tp ∈ ws)));
  Ok e.

(** The notifying signal. *)
Definition alloc_signal (h : heap) (tid : thread_id) (cid : cond_id_t) (tp w : eid)
    : res event :=
  e ← event_of_preds h tid (Signal tp [w] cid) tp (Some w) [];
  _ ← check_thread_predecessor h tid tp;
  wp ← signal_wait_predecessor h e;
  _ ← cassert (bool_decide (wp = Some w));
  ew ← deref h w;
  _ ← cassert (negb (tid_empty (ev_tid ew)));
  _ ← cassert (negb (tid_eqb (ev_tid ew) tid));
  _ ← cassert (kind_eqb (ev_kind ew) wait1);
  _ ← cassert (ev_cid ew =? cid)%N;
  _ ← cassert (negb (cid =? 0)%N);
  Ok e.

(** The lost signal. *)
Definition alloc_signal_lost (h : heap) (tid : thread_id) (cid : cond_id_t) (tp : eid)
    (cond_predecessors : list eid) : res event :=
  let cps := sort_ptrs cond_predecessors in
  e ← event_of_preds h tid (Signal tp cps cid) tp None cps;
  _ ← check_thread_predecessor h tid tp;
  wp ← signal_wait_predecessor h e;
  _ ← cassert (bool_decide (wp = None));
  _ ← for_each (λ _ p,
        ep ← deref h p;
        match ev_kind ep with
        | signal =>
            lost ← signal_is_lost h ep;
            _ ← cassert (negb lost);
            nt ← signal_notified_thread h ep;
            _ ← cassert (negb (tid_eqb nt tid));
            cassert (ev_cid ep =? cid)%N
        | broadcast =>
            lost ← broadcast_is_lost ep;
            _ ← cassert (negb lost);
            n ← broadcast_is_notifying_thread h ep tid;
            _ ← cassert (negb n);
            cassert (ev_cid ep =? cid)%N
        | condition_variable_create => cassert (ev_cid ep =? cid)%N
        | _ => Err AssertFailed
        end) tt cps;
  _ ← cassert (negb (cid =? 0)%N);
  lost ← signal_is_lost h e;
  _ ← cassert lost;
  Ok e.

(** The predecessors of a broadcast, grouped by kind: [wait1] events first,
    then notifications, then the creation event. *)
Definition broadcast_groups (h : heap) (cid : cond_id_t) (cps : list eid)
    : res (list eid * list eid * list eid) :=
  for_each (λ '(w, sb, cr) p,
    ep ← deref h p;
    match ev_kind ep with
    | condition_variable_create =>
        _ ← cassert (ev_cid ep =? cid)%N; Ok (w, sb, cr ++ [p])
    | wait1 => _ ← cassert (ev_cid ep =? cid)%N; Ok (w ++ [p], sb, cr)
    | signal | broadcast => _ ← cassert (ev_cid ep =? cid)%N; Ok (w, sb ++ [p], cr)
    | _ => Err AssertFailed
    end) ([], [], []) cps.

Definition alloc_broadcast (h : heap) (tid : thread_id) (cid : cond_id_t) (tp : eid)
    (cond_predecessors : list eid) : res event :=
  let cps := sort_ptrs cond_predecessors in
  '(w, sb, cr) ← broadcast_groups h cid cps;
  e ← event_of_preds h tid (Broadcast tp (w ++ sb ++ cr) (length w) cid) tp None cps;
  _ ← cassert (Nat.eqb (length w) 0 || Nat.eqb (length cr) 0);
  _ ← cassert (Nat.leb (length cr) 1);
  _ ← cassert (negb (cid =? 0)%N);
  _ ← check_thread_predecessor h tid tp;
  _ ← for_each (λ _ p,
        ep ← deref h p;
        _ ← cassert (negb (tid_empty (ev_tid ep)));
        cassert (negb (tid_eqb (ev_tid ep) tid))) tt w;
  _ ← (if Nat.ltb 0 (length w) then
         for_each (λ _ p,
           ep ← deref h p;
           if kind_eqb (ev_kind ep) wait1 then cassert (negb (tid_eqb (ev_tid ep) tid))
           else
             _ ← cassert (kind_eqb (ev_kind ep) signal);
             lost ← signal_is_lost h ep;
             _ ← cassert (negb lost);
             nt ← signal_notified_thread h ep;
             _ ← cassert (negb (tid_eqb nt tid));
             for_each (λ _ q, eq ← deref h q; cassert (negb (tid_eqb nt (ev_tid eq)))) tt w)
           tt (w ++ sb ++ cr)
       else
         for_each (λ _ p,
           ep ← deref h p;
           match ev_kind ep with
           | signal =>
               lost ← signal_is_lost h ep;
               _ ← cassert (negb lost);
               nt ← signal_notified_thread h ep;
               cassert (negb (tid_eqb nt tid))
           | broadcast =>
               lost ← broadcast_is_lost ep;
               _ ← cassert (negb lost);
               n ← broadcast_is_notifying_thread h ep tid;
               cassert (negb n)
           | condition_variable_create => Ok tt
           | _ => Err AssertFailed
           end) tt (w ++ sb ++ cr));
  Ok e.
End alloc.
