(* ===== verification/Causality.v ===== *)
(** * Causality and the heap invariant

    The causal order is the transitive closure of [predecessors]. The heap
    invariant says, of every event, that its predecessors exist and are less
    deep, and that its cone holds, per thread, the deepest of its causes.
    The base-class constructors establish it, so the cone decides causality
    for events that are not in conflict. *)

From stdpp Require Import base tactics list gmap numbers relations.
From S2P Require Import Prelude StdMap ThreadId Event Comb CombEnum CombProofs Cone Alloc.

Section causality.
Context {PL : Payload}.
Implicit Types (h : heap) (e : event) (c : cone).

(** [q] is a predecessor of the event at [p]. *)
Definition imm h (q p : eid) : Prop := ∃ e, h !! p = Some e ∧ q ∈ predecessors e.

(** Causally before, reflexive and strict. *)
Definition causal_le h : relation eid := rtc (imm h).
Definition causal_lt h : relation eid := tc (imm h).

(** [x] is a cause of [e], an event that need not be stored. *)
Definition below h (x : eid) e : Prop := ∃ q, q ∈ predecessors e ∧ causal_le h x q.

Definition is_event h (t : thread_id) (p : eid) : Prop :=
  ∃ e, h !! p = Some e ∧ ev_tid e = t ∧ ev_kind e ≠ program_init.

(** ** Cones against a set of events *)

Definition cone_sound h c (P : eid → Prop) : Prop :=
  ∀ t p, smap_find t c = Some p → P p ∧ is_event h t p.

Definition covers h c (x : eid) : Prop :=
  ∀ e, h !! x = Some e → ev_kind e ≠ program_init →
  ∃ p, smap_find (ev_tid e) c = Some p ∧ dep h x ≤ dep h p.

Record cone_for h c (P : eid → Prop) : Prop := {
  cone_for_sorted : smap_sorted c;
  cone_for_sound : cone_sound h c P;
  cone_for_complete x : P x → covers h c x;
}.

(** ** The invariant *)

(** The event stored at [p] satisfies [Φ]. *)
Definition at_event h (p : eid) (Φ : event → Prop) : Prop := ∃ e, h !! p = Some e ∧ Φ e.

Definition kind_in (ks : list event_kind) e : Prop := ev_kind e ∈ ks.

(** The condition variable predecessors of an event on [cid]. *)
Definition cond_preds_ok h (cid : cond_id_t) (cps : list eid) : Prop :=
  ∀ q, q ∈ cps → at_event h q (λ x,
    kind_in [condition_variable_create; wait1; wait2; signal; broadcast] x ∧ ev_cid x = cid).

(** What the constructors assert of the predecessors, per class. *)
Definition class_ok h e : Prop :=
  match ev_data e with
  | ThreadJoin _ j =>
      at_event h j (λ x, ev_kind x = thread_exit ∧ ev_tid x ≠ ev_tid e)
  | ThreadInit c =>
      at_event h c (λ x, kind_in [program_init; thread_create] x ∧ ev_tid x ≠ ev_tid e)
  | ThreadExit tp true => at_event h tp (λ x, ev_kind x = lock_release)
  | LockDestroy _ (Some l) lid =>
      at_event h l (λ x, kind_in [lock_create; lock_release] x ∧ ev_lid x = lid)
  | LockAcquire _ (Some l) lid _ =>
      at_event h l (λ x, kind_in [lock_create; lock_release; wait1] x ∧ ev_lid x = lid)
  | LockRelease _ l lid _ =>
      at_event h l (λ x, kind_in [lock_acquire; wait2] x ∧ ev_lid x = lid ∧
        ev_tid x = ev_tid e)
  | ConditionVariableDestroy _ cps cid => cond_preds_ok h cid cps
  | Wait1 _ l cps cid lid =>
      at_event h l (λ x, kind_in [lock_acquire; wait2] x ∧ ev_lid x = lid ∧
        ev_tid x = ev_tid e) ∧
      cond_preds_ok h cid cps
  | Signal _ cps cid =>
      cond_preds_ok h cid cps ∧
      ((∃ w, cps = [w] ∧ at_event h w (λ x, ev_kind x = wait1)) ∨
       ∀ q, q ∈ cps → at_event h q (λ x, ev_kind x ≠ wait1))
  | Broadcast _ cps n cid =>
      cond_preds_ok h cid cps ∧ n ≤ length cps ∧
      (∀ q, q ∈ take n cps → at_event h q (λ x, ev_kind x = wait1)) ∧
      (∀ q, q ∈ drop n cps → at_event h q (λ x, ev_kind x ≠ wait1))
  | Wait2 tp np l cid lid _ =>
      at_event h tp (λ x, ev_kind x = wait1) ∧
      at_event h np (λ x, kind_in [signal; broadcast] x ∧ ev_cid x = cid ∧
        tp ∈ condition_variable_predecessors x) ∧
      at_event h l (λ x, kind_in [lock_release; wait1] x ∧ ev_lid x = lid)
  | _ => True
  end.

Record wf_event h e : Prop := {
  wf_preds q : q ∈ predecessors e → is_Some (h !! q);
  wf_depth q : q ∈ predecessors e → dep h q < ev_depth e;
  wf_depth_tight :
    (ev_kind e = program_init ∧ ev_depth e = 0) ∨
    ∃ q, q ∈ predecessors e ∧ ev_depth e = S (dep h q);
  wf_cone : cone_for h (ev_cone e) (λ x, below h x e);
  wf_thread_pred p : thread_predecessor e = Some p →
    at_event h p (λ x, ev_tid x = ev_tid e ∧ ev_kind x ≠ program_init ∧
      ev_kind x ≠ thread_exit);
  wf_tid : ev_tid e = tid_root ↔ ev_kind e = program_init;
  wf_class : class_ok h e;
}.

Definition wf_heap h : Prop := ∀ p e, h !! p = Some e → wf_event h e.

(** ** Order lemmas *)

Lemma imm_lookup h q p : imm h q p → is_Some (h !! p).
Proof. intros (e & He & _). eauto. Qed.

Lemma causal_lt_alt h x y : causal_lt h x y ↔ ∃ e, h !! y = Some e ∧ below h x e.
Proof.
  unfold causal_lt, below, causal_le. split.
  - induction 1 as [x y (e & He & Hq)|x z y Hxz _ (e & He & q & Hq & Hzq)].
    + exists e. split; [done|]. by exists x.
    + exists e. split; [done|]. exists q. split; [done|]. by eapply rtc_l.
  - intros (e & He & q & Hq & Hxq). eapply tc_rtc_l; [done|]. apply tc_once. by exists e.
Qed.

Lemma causal_le_alt h x y : causal_le h x y ↔ x = y ∨ causal_lt h x y.
Proof. apply rtc_tc. Qed.

Lemma imm_dep h q p : wf_heap h → imm h q p → dep h q < dep h p.
Proof.
  intros Hwf (e & He & Hq). pose proof (wf_depth _ _ (Hwf _ _ He) _ Hq) as Hd.
  unfold dep at 2. by rewrite He.
Qed.

Lemma causal_lt_dep h x y : wf_heap h → causal_lt h x y → dep h x < dep h y.
Proof.
  intros Hwf. unfold causal_lt. induction 1 as [x y Hi|x y z Hi _ IH].
  - by apply imm_dep.
  - apply (imm_dep h) in Hi; [lia | done].
Qed.

Lemma causal_le_dep h x y : wf_heap h → causal_le h x y → dep h x ≤ dep h y.
Proof.
  intros Hwf [->|Hlt]%causal_le_alt; [done|]. apply causal_lt_dep in Hlt; [lia | done].
Qed.

Lemma causal_lt_irrefl h x : wf_heap h → ¬ causal_lt h x x.
Proof. intros Hwf Hx. apply causal_lt_dep in Hx; [lia | done]. Qed.

#[export] Instance causal_le_preorder h : PreOrder (causal_le h).
Proof. unfold causal_le. split; apply _. Qed.

Lemma causal_lt_trans h x y z : causal_lt h x y → causal_lt h y z → causal_lt h x z.
Proof. unfold causal_lt. apply transitivity. Qed.

Lemma causal_le_lt_trans h x y z : causal_le h x y → causal_lt h y z → causal_lt h x z.
Proof. unfold causal_lt, causal_le. apply tc_rtc_l. Qed.

Lemma causal_le_in h x y : wf_heap h → causal_le h x y → is_Some (h !! y) → is_Some (h !! x).
Proof.
  intros Hwf. unfold causal_le. induction 1 as [|x y z Hi _ IH]; [done|]. intros Hz.
  destruct (IH Hz) as [ey Hey]. destruct Hi as (ey' & Hey' & Hin). 
  by apply (wf_preds _ _ (Hwf _ _ Hey')).
Qed.

(** ** Building cones *)

Lemma cone_update_spec h c (P : eid → Prop) t q :
  smap_sorted c → cone_sound h c P → P q → is_event h t q →
  ∃ c', cone_update h t q c = Ok c' ∧ smap_sorted c' ∧ cone_sound h c' P ∧
    covers h c' q ∧ ∀ x, covers h c x → covers h c' x.
Proof.
  intros Hs Hsd HP Hq. unfold cone_update.
  assert (∀ r, smap_find t c = Some r → dep h r ≤ dep h q → 
    let c' := smap_set t q c in ∀ x, covers h c x → covers h c' x) as Hmono.
  { intros r Hr Hle c' x Hx e He Hk. destruct (Hx e He Hk) as (p & Hp & Hxp). subst c'.
    destruct (smap_find_set t (ev_tid e) q c) as [[Het Hf]|[_ Hf]]; rewrite Hf; [|by eauto].
    rewrite <-Het, Hr in Hp. injection Hp as <-. exists q. split; [done | lia]. }
  assert (cone_sound h (smap_set t q c) P) as Hsd'.
  { intros t' p. destruct (smap_find_set t t' q c) as [[<- ->]|[_ ->]]; [|apply Hsd].
    by intros [= <-]. }
  destruct Hq as (eq & Heq & Ht & Hk).
  assert (covers h (smap_set t q c) q) as Hcq.
  { intros e He _. rewrite Heq in He. injection He as <-. rewrite Ht, smap_find_set_eq. eauto. }
  destruct (smap_find t c) as [r|] eqn:Hr.
  - destruct (Hsd t r Hr) as [HPr (er & Her & Htr & Hkr)]. unfold deref.
    rewrite Her, Heq. simpl.
    assert (dep h r = ev_depth er) as Hdr by (unfold dep; by rewrite Her).
    assert (dep h q = ev_depth eq) as Hdq by (unfold dep; by rewrite Heq).
    destruct (Nat.ltb_spec (ev_depth er) (ev_depth eq)).
    + eexists. split_and!; [done | by apply smap_set_sorted | done | done |].
      apply (Hmono r); [done | lia].
    + exists c. split_and!; [done..| | done]. intros e He _. rewrite Heq in He.
      injection He as <-. rewrite Ht, Hr. eexists. split; [done | lia].
  - eexists. split_and!; [done | by apply smap_set_sorted | done | done |].
    intros x Hx e He Hke. destruct (Hx e He Hke) as (p & Hp & Hxp).
    destruct (smap_find_set t (ev_tid e) q c) as [[Het Hf]|[_ Hf]]; rewrite Hf; [|by eauto].
    by rewrite <-Het, Hr in Hp.
Qed.

Lemma cone_updates_spec h (P : eid → Prop) l c :
  smap_sorted c → cone_sound h c P →
  (∀ t q, (t, q) ∈ l → P q ∧ is_event h t q) →
  ∃ c', for_each (λ acc '(t, q), cone_update h t q acc) c l = Ok c' ∧
    smap_sorted c' ∧ cone_sound h c' P ∧
    (∀ t q, (t, q) ∈ l → covers h c' q) ∧ ∀ x, covers h c x → covers h c' x.
Proof.
  revert c. induction l as [|[t q] l IH]; intros c Hs Hsd Hl; simpl.
  { exists c. split_and!; [done..| |done]. intros ?? []%elem_of_nil. }
  destruct (Hl t q) as [HP Hq]; [by left|].
  destruct (cone_update_spec h c P t q Hs Hsd HP Hq) as (c1 & -> & Hs1 & Hsd1 & Hq1 & Hm1).
  rewrite bind_Ok_l. destruct (IH c1 Hs1 Hsd1) as (c2 & -> & Hs2 & Hsd2 & Hl2 & Hm2).
  { intros; apply Hl; by right. }
  exists c2. split_and!; [done..| |by auto].
  intros t' q' [[= -> ->]|Hin]%elem_of_cons; [auto | by eapply Hl2].
Qed.

Lemma cone_sound_mono h c (P Q : eid → Prop) :
  (∀ x, P x → Q x) → cone_sound h c P → cone_sound h c Q.
Proof. intros HPQ Hs t p Hp. destruct (Hs t p Hp). auto. Qed.

Lemma covers_le h c p x :
  covers h c p → dep h x ≤ dep h p →
  (∀ e, h !! x = Some e → ∃ e', h !! p = Some e' ∧ ev_tid e' = ev_tid e ∧
     ev_kind e' ≠ program_init) →
  covers h c x.
Proof.
  intros Hp Hle Hx e He _. destruct (Hx e He) as (e' & He' & Ht & Hk).
  destruct (Hp e' He' Hk) as (r & Hr & Hpr). rewrite Ht in Hr. exists r.
  split; [done | lia].
Qed.

(** Covering the entries of a cone covers everything it is the cone of. *)
Lemma cone_for_covers h c c' (P : eid → Prop) x :
  cone_for h c P → (∀ t q, (t, q) ∈ c → covers h c' q) → P x → covers h c' x.
Proof.
  intros [Hs Hsd Hcp] Hc' HPx e He Hk. destruct (Hcp x HPx e He Hk) as (p & Hp & Hle).
  destruct (Hsd _ _ Hp) as [_ (ep & Hep & Ht & Hkp)].
  destruct (Hc' (ev_tid e) p) with (e := ep) as (r & Hr & Hpr);
    [by apply smap_elem_find | done | done |].
  rewrite Ht in Hr. exists r. split; [done | lia].
Qed.

Lemma cone_insert_spec h c (P : eid → Prop) p ep :
  wf_heap h → cone_for h c P → h !! p = Some ep →
  ∃ c', cone_insert h p c = Ok c' ∧ cone_for h c' (λ x, P x ∨ causal_le h x p).
Proof.
  intros Hwf [Hs Hsd Hcp] Hp. unfold cone_insert, deref. rewrite Hp. simpl.
  pose proof (Hwf p ep Hp) as Hwe. destruct (kind_eqb (ev_kind ep) program_init) eqn:Hk.
  { exists c. split; [done|]. apply kind_eqb_eq in Hk. split; [done | |].
    - by eapply cone_sound_mono; [|done]; auto.
    - intros x [Hx|Hx]; [by apply Hcp|]. apply causal_le_alt in Hx as [->|Hx].
      { intros e He Hke. rewrite Hp in He. by injection He as <-. }
      apply causal_lt_alt in Hx as (ep' & Hep' & q & Hq & _). rewrite Hp in Hep'.
      injection Hep' as <-. unfold predecessors in Hq. unfold ev_kind in Hk.
      destruct (ev_data ep); simpl in *; try done. by apply elem_of_nil in Hq. }
  apply kind_eqb_ne in Hk. set (Q := λ x, P x ∨ causal_le h x p).
  destruct (wf_cone _ _ Hwe) as [Hs' Hsd' Hcp'].
  destruct (cone_updates_spec h Q (ev_cone ep) c) as (c1 & -> & Hs1 & Hsd1 & Hl1 & Hm1).
  { done. } { by eapply cone_sound_mono; [|done]; left. }
  { intros t q Hin. apply smap_elem_find in Hin; [|done].
    destruct (Hsd' t q Hin) as [Hb Hev]. split; [|done]. right.
    apply causal_le_alt. right. apply causal_lt_alt. eauto. }
  rewrite bind_Ok_l.
  destruct (cone_update_spec h c1 Q (ev_tid ep) p) as (c2 & -> & Hs2 & Hsd2 & Hq2 & Hm2);
    [done | done | right; reflexivity | by exists ep |].
  exists c2. split; [done|]. split; [done | done |].
  intros x [Hx|Hx]; [by apply Hm2, Hm1, Hcp|].
  apply causal_le_alt in Hx as [->|Hx]; [done|].
  apply causal_lt_alt in Hx as (ep' & Hep' & Hb). rewrite Hp in Hep'. injection Hep' as <-.
  apply Hm2. eapply cone_for_covers; [by apply (wf_cone _ _ Hwe) | done | done].
Qed.

Lemma cone_inserts_spec h c (P : eid → Prop) l :
  wf_heap h → cone_for h c P → (∀ p, p ∈ l → is_Some (h !! p)) →
  ∃ c', for_each (λ acc p, cone_insert h p acc) c l = Ok c' ∧
    cone_for h c' (λ x, P x ∨ ∃ p, p ∈ l ∧ causal_le h x p).
Proof.
  intros Hwf. revert c P. induction l as [|p l IH]; intros c P Hc Hl; simpl.
  { exists c. split; [done|]. destruct Hc as [Hs Hsd Hcp]. split; [done| |].
    - eapply cone_sound_mono; [|done]. auto.
    - intros x [?|(p & []%elem_of_nil & _)]. by apply Hcp. }
  destruct (Hl p) as [ep Hp]; [by left|].
  destruct (cone_insert_spec h c P p ep Hwf Hc Hp) as (c1 & -> & Hc1). rewrite bind_Ok_l.
  destruct (IH c1 _ Hc1) as (c2 & -> & [Hs2 Hsd2 Hcp2]); [intros; apply Hl; by right|].
  exists c2. split; [done|].
  assert (∀ x, (P x ∨ causal_le h x p) ∨ (∃ p0, p0 ∈ l ∧ causal_le h x p0) ↔
    P x ∨ (∃ p0, p0 ∈ p :: l ∧ causal_le h x p0)) as Heq.
  { intros x. setoid_rewrite elem_of_cons. naive_solver. }
  split; [done | |].
  - eapply cone_sound_mono; [|done]. intros x Hx. by apply Heq.
  - intros x Hx. by apply Hcp2, Heq.
Qed.

Lemma cone_of_range_spec h l :
  wf_heap h → (∀ p, p ∈ l → is_Some (h !! p)) →
  ∃ c, cone_of_range h l = Ok c ∧ cone_for h c (λ x, ∃ p, p ∈ l ∧ causal_le h x p).
Proof.
  intros Hwf Hl. destruct (cone_inserts_spec h [] (λ _, False) l) as (c & Hc & [Hs Hsd Hcp]);
    [done | by split; [constructor | |] | done |].
  exists c. split; [done|]. split; [done | | intros x Hx; apply Hcp; by right].
  eapply cone_sound_mono; [|done]. naive_solver.
Qed.

(** [_map[ip.tid()] = &ip] on a copy of the predecessor's cone. *)
Lemma cone_head_spec h ip ep :
  wf_heap h → h !! ip = Some ep → ev_kind ep ≠ program_init →
  cone_for h (smap_set (ev_tid ep) ip (ev_cone ep)) (λ x, causal_le h x ip).
Proof.
  intros Hwf Hp Hk. pose proof (Hwf ip ep Hp) as Hwe.
  destruct (wf_cone _ _ Hwe) as [Hs Hsd Hcp].
  assert (∀ x, below h x ep → causal_lt h x ip) as Hb by (intros; apply causal_lt_alt; eauto).
  split.
  - by apply smap_set_sorted.
  - intros t p. destruct (smap_find_set (ev_tid ep) t ip (ev_cone ep)) as [[<- ->]|[_ ->]].
    + intros [= <-]. split; [reflexivity | by exists ep].
    + intros Hf. destruct (Hsd t p Hf) as [Hbp Hev]. split; [|done].
      apply causal_le_alt. auto.
  - intros x Hx e He Hke.
    destruct (smap_find_set (ev_tid ep) (ev_tid e) ip (ev_cone ep)) as [[Ht ->]|[Hne ->]].
    + exists ip. split; [done|]. by apply causal_le_dep.
    + apply causal_le_alt in Hx as [->|Hx].
      { rewrite Hp in He. by injection He as <-. }
      apply causal_lt_alt in Hx as (ep' & Hep' & Hb'). rewrite Hp in Hep'.
      injection Hep' as <-. by apply (Hcp x Hb').
Qed.

(** ** Constructors *)

Lemma wf_program_init_cone h e :
  wf_event h e → ev_kind e = program_init → ev_cone e = [] ∧ predecessors e = [].
Proof.
  intros Hwe Hk. assert (predecessors e = []) as Hp.
  { unfold predecessors, ev_kind in *. by destruct (ev_data e). }
  split; [|done]. destruct (wf_cone _ _ Hwe) as [Hs Hsd _].
  destruct (ev_cone e) as [|[t p] c] eqn:Hc; [done|].
  destruct (Hsd t p) as [(q & Hq & _) _]; [apply smap_elem_find; [done | by left]|].
  rewrite Hp in Hq. by apply elem_of_nil in Hq.
Qed.

Lemma program_init_causes h p e x :
  wf_heap h → h !! p = Some e → ev_kind e = program_init → causal_le h x p → x = p.
Proof.
  intros Hwf Hp Hk [->|Hx]%causal_le_alt; [done|].
  apply causal_lt_alt in Hx as (e' & He' & q & Hq & _). rewrite Hp in He'.
  injection He' as <-. destruct (wf_program_init_cone _ _ (Hwf _ _ Hp) Hk) as [_ Hn].
  rewrite Hn in Hq. by apply elem_of_nil in Hq.
Qed.

Lemma dep_lookup h p e : h !! p = Some e → dep h p = ev_depth e.
Proof. intros Hp. unfold dep. by rewrite Hp. Qed.

Lemma cone_for_equiv h c (P Q : eid → Prop) :
  (∀ x, P x ↔ Q x) → cone_for h c P → cone_for h c Q.
Proof.
  intros Heq [Hs Hsd Hcp]. split; [done | | intros x Hx; by apply Hcp, Heq].
  eapply cone_sound_mono; [|done]. intros x. by apply Heq.
Qed.

(** A cone depends on the set it stands for up to equivalence only. *)
#[export] Instance cone_for_proper h c :
  Proper (pointwise_relation eid iff ==> iff) (cone_for h c).
Proof.
  intros P Q HPQ. split; apply cone_for_equiv; [done|]. intros x. symmetry. apply HPQ.
Qed.

(** The part of [wf_event] that the base-class constructors establish. *)
Record wf_base h e : Prop := {
  wfb_preds q : q ∈ predecessors e → is_Some (h !! q);
  wfb_depth q : q ∈ predecessors e → dep h q < ev_depth e;
  wfb_tight : ∃ q, q ∈ predecessors e ∧ ev_depth e = S (dep h q);
  wfb_cone : cone_for h (ev_cone e) (λ x, below h x e);
}.

Lemma event_of_pred_wf h tid d ip e :
  wf_heap h → data_predecessors d = [ip] → event_of_pred h tid d ip = Ok e → wf_base h e.
Proof.
  intros Hwf Hd He. unfold event_of_pred, cone_of_pred, deref in He.
  destruct (h !! ip) as [ep|] eqn:Hip; [|done]. simpl in He.
  injection He as <-. assert (∀ cut c d', predecessors (make_event tid d c d' cut) = [ip]) as Hp
    by done.
  split; [setoid_rewrite Hp.. |].
  - intros q ->%list_elem_of_singleton. eauto.
  - intros q ->%list_elem_of_singleton. simpl. rewrite (dep_lookup _ _ _ Hip). lia.
  - exists ip. split; [by apply list_elem_of_singleton|]. simpl.
    rewrite (dep_lookup _ _ _ Hip). lia.
  - unfold below. setoid_rewrite Hp. setoid_rewrite list_elem_of_singleton.
    apply (cone_for_equiv h _ (λ x, causal_le h x ip)); [naive_solver|]. simpl.
    destruct (kind_eqb (ev_kind ep) program_init) eqn:Hk; [|apply kind_eqb_ne in Hk;
      by apply cone_head_spec].
    apply kind_eqb_eq in Hk. destruct (wf_program_init_cone _ _ (Hwf _ _ Hip) Hk) as [-> _].
    split; [constructor | by intros ??|].
    intros x ->%(program_init_causes h ip ep) e He Hke; [|done..]. by simplify_eq.
Qed.

Lemma cone_events_spec h (c : list eid) (l acc : list event) :
  for_each (λ acc p, e ← deref h p; Ok (acc ++ [e])) acc c = Ok l →
  ∃ k, l = acc ++ k ∧ Forall2 (λ p e, h !! p = Some e) c k.
Proof.
  revert acc. induction c as [|p c IH]; intros acc Hl; simpl in Hl; res_inv_ev.
  { exists []. rewrite app_nil_r. split; [done | constructor]. }
  match goal with H : for_each _ _ _ = _ |- _ => apply IH in H as (k & -> & Hk) end.
  eexists. rewrite <-app_assoc. split; [done|]. by constructor.
Qed.

Lemma max_depth_spec l :
  (∀ e, e ∈ l → ev_depth e ≤ max_depth l) ∧
  (l ≠ [] → ∃ e, e ∈ l ∧ max_depth l = ev_depth e).
Proof.
  induction l as [|a l [IH1 IH2]]; simpl; [split; [by intros e ?%elem_of_nil | done]|].
  split.
  - intros e [->|He]%elem_of_cons; [lia|]. specialize (IH1 e He). lia.
  - intros _. destruct (decide (max_depth l ≤ ev_depth a)).
    + exists a. split; [by left | lia].
    + destruct l as [|b l]; [simpl in *; lia|]. destruct IH2 as (e & He & Hm); [done|].
      exists e. split; [by right | lia].
Qed.

Lemma for_each_unit_inv {A} (f : unit → A → res unit) u v l :
  for_each f u l = Ok v → ∀ x, x ∈ l → f tt x = Ok tt.
Proof.
  revert u. induction l as [|y l IH]; intros u Hf x Hx; [by apply elem_of_nil in Hx|].
  simpl in Hf. apply bind_ok in Hf as ([] & Hy & Hf). destruct u.
  apply elem_of_cons in Hx as [->|Hx]; [done | by eapply IH].
Qed.

Lemma cone_of_preds_spec h ip single others c :
  wf_heap h → (∀ e, h !! ip = Some e → ev_kind e ≠ program_init) →
  (∀ q, single = Some q → is_Some (h !! q)) → (∀ q, q ∈ others → is_Some (h !! q)) →
  cone_of_preds h ip single others = Ok c →
  cone_for h c (λ x, (causal_le h x ip ∨ ∃ q, single = Some q ∧ causal_le h x q) ∨
    ∃ q, q ∈ others ∧ causal_le h x q).
Proof.
  intros Hwf Hk Hsi Hot Hc. unfold cone_of_preds in Hc. res_inv_ev.
  match goal with H : h !! ip = Some ?e |- _ => pose proof (cone_head_spec h ip e Hwf H (Hk e H))
    as Hhead end.
  match goal with H : for_each _ _ _ = _ |- _ => rename H into Hfor end.
  match goal with H : match single with _ => _ end = _ |- _ => rename H into Hsing end.
  match type of Hfor with for_each _ ?c1 _ = _ => assert (cone_for h c1
    (λ x, causal_le h x ip ∨ ∃ q, single = Some q ∧ causal_le h x q)) as Hc1 end.
  { destruct single as [s|]; res_inv.
    - destruct (Hsi s eq_refl) as [es Hs].
      destruct (cone_insert_spec h _ _ s es Hwf Hhead Hs) as (c1 & Hc1 & Hf).
      rewrite Hc1 in Hsing. injection Hsing as <-.
      eapply cone_for_equiv; [|done]. naive_solver.
    - eapply cone_for_equiv; [|done]. naive_solver. }
  destruct (cone_inserts_spec h _ _ others Hwf Hc1 Hot) as (c2 & Hc2 & Hf).
  rewrite Hc2 in Hfor. by injection Hfor as <-.
Qed.

Lemma option_list_elem (o : option eid) q : q ∈ option_list o ↔ o = Some q.
Proof.
  destruct o; simpl; [rewrite list_elem_of_singleton | rewrite elem_of_nil]; naive_solver.
Qed.

Lemma event_of_preds_lookup h tid d ip single others e :
  event_of_preds h tid d ip single others = Ok e →
  ∀ q, q ∈ ip :: option_list single ++ others → is_Some (h !! q) ∧ dep h q < ev_depth e.
Proof.
  intros He q Hq. unfold event_of_preds in He. res_inv_ev.
  match goal with H : for_each _ tt _ = _ |- _ =>
    pose proof (for_each_unit_inv _ _ _ _ H q Hq) as Hb end.
  cbv beta in Hb. res_inv_ev. split; [by eauto|]. erewrite dep_lookup by done. by apply Nat.ltb_lt.
Qed.

Lemma event_of_preds_wf h tid d ip single others e :
  wf_heap h → (∀ e, h !! ip = Some e → ev_kind e ≠ program_init) →
  (∀ q, q ∈ data_predecessors d ↔ q ∈ ip :: option_list single ++ others) →
  event_of_preds h tid d ip single others = Ok e → wf_base h e.
Proof.
  intros Hwf Hk Hd He. pose proof (event_of_preds_lookup _ _ _ _ _ _ _ He) as Hl.
  unfold event_of_preds, cone_events in He. res_inv_ev.
  match goal with H : cone_of_preds _ _ _ _ = Ok ?c0 |- _ => rename H into Hc; rename c0 into c end.
  match goal with H : for_each _ [] _ = Ok ?l0 |- _ =>
    apply cone_events_spec in H as (l & -> & Hev) end. simpl in *.
  assert (∀ q, q ∈ predecessors (make_event tid d c (max_depth l + 1)
    (existsb ev_is_cutoff l)) ↔ q ∈ ip :: option_list single ++ others) as Hp by done.
  assert (cone_for h c (λ x, below h x (make_event tid d c (max_depth l + 1)
    (existsb ev_is_cutoff l)))) as Hcone.
  { eapply cone_for_equiv; [|eapply (cone_of_preds_spec h ip single others); [done | done | | | done]].
    - intros x. unfold below. setoid_rewrite Hp. setoid_rewrite elem_of_cons.
      setoid_rewrite elem_of_app. setoid_rewrite option_list_elem. naive_solver.
    - intros q ->. apply Hl. right. by left.
    - intros q Hq. apply Hl. right. apply elem_of_app. by right. }
  split; [setoid_rewrite Hp; naive_solver.. | | done].
  destruct (Hl ip) as [[eip Hip] _]; [by left|].
  destruct (cone_for_complete _ _ _ Hcone ip) with (e := eip) as (p & Hpf & _);
    [exists ip; split; [apply Hp; by left | reflexivity] | done | by apply Hk |].
  apply smap_elem_find in Hpf; [|by apply (cone_for_sorted _ _ _ Hcone)].
  assert (l ≠ []) as Hne.
  { intros ->. apply Forall2_nil_inv_r in Hev. destruct c; [|done]. by apply elem_of_nil in Hpf. }
  destruct (proj2 (max_depth_spec l) Hne) as (em & Hem & Hmax).
  destruct (Forall2_elem_r _ _ _ _ Hev Hem) as (m & Hm & Hmh).
  apply list_elem_of_fmap in Hm as ([tm m'] & -> & Hin). simpl in Hmh.
  apply smap_elem_find in Hin; [|by apply (cone_for_sorted _ _ _ Hcone)].
  destruct (cone_for_sound _ _ _ Hcone _ _ Hin) as [(q & Hq & Hle) _].
  exists q. split; [done|]. apply Hp, Hl in Hq as [_ Hlt]. simpl in *.
  apply causal_le_dep in Hle; [|done]. rewrite (dep_lookup _ _ _ Hmh) in Hle. lia.
Qed.
End causality.

Declare Scope por_scope.
Delimit Scope por_scope with por.
Notation "x ≼[ h ] y" := (causal_le h x y) (at level 70, h at level 200, y at next level) : por_scope.
Notation "x ≺[ h ] y" := (causal_lt h x y) (at level 70, h at level 200, y at next level) : por_scope.

#[export] Hint Resolve causal_lt_trans causal_le_lt_trans : por.
