(* ===== verification/AllocProofs.v ===== *)
(** * The constructors establish the heap invariant

    Every [alloc] of [Alloc] returns an event that satisfies [wf_event]: its
    predecessors exist, its depth is one more than the deepest of them, and
    its cone is the cone of its causes. Storing such an event, or changing
    the mutable fields of stored ones, keeps the invariant. *)

From stdpp Require Import base tactics list gmap numbers relations sorting.
From S2P Require Import Prelude StdMap ThreadId Event Comb CombEnum CombProofs Cone Alloc Causality.

Section alloc_proofs.
Context {PL : Payload}.
Implicit Types (h : heap) (e : event).

Lemma event_of_pred_fields h tid d ip e :
  event_of_pred h tid d ip = Ok e → ev_tid e = tid ∧ ev_data e = d.
Proof. unfold event_of_pred. intros. by res_inv_ev. Qed.

Lemma event_of_preds_fields h tid d ip single others e :
  event_of_preds h tid d ip single others = Ok e → ev_tid e = tid ∧ ev_data e = d.
Proof. unfold event_of_preds. intros. by res_inv_ev. Qed.

Lemma tid_empty_spec t : tid_empty t = true ↔ t = tid_root.
Proof. by destruct t. Qed.

Lemma check_thread_predecessor_ok h tid tp u :
  check_thread_predecessor h tid tp = Ok u →
  at_event h tp (λ x, ev_tid x = tid ∧ ev_kind x ≠ program_init ∧ ev_kind x ≠ thread_exit) ∧
  tid ≠ tid_root.
Proof.
  unfold check_thread_predecessor. intros. res_inv_ev.
  rewrite !negb_true_iff, !kind_eqb_ne, tid_eqb_spec in *. subst. split; [by eexists|].
  intros E. match goal with H : tid_empty _ = false |- _ => by rewrite E in H end.
Qed.

Lemma wf_of_base h e tp tid u :
  wf_base h e → ev_tid e = tid → thread_predecessor e = Some tp →
  check_thread_predecessor h tid tp = Ok u → class_ok h e → wf_event h e.
Proof.
  intros Hb Ht Htp [Hat Hne]%check_thread_predecessor_ok Hcl. destruct Hb as [H1 H2 H3 H4].
  split; [done | done | by right | done | | | done].
  - intros p Hp. simplify_eq. done.
  - rewrite Ht. split; [done|]. unfold ev_kind, thread_predecessor in *.
    by destruct (ev_data e).
Qed.

Lemma sort_ptrs_elem l x : x ∈ sort_ptrs l ↔ x ∈ l.
Proof. unfold sort_ptrs. by rewrite merge_sort_Permutation. Qed.

Lemma at_not_init h tid tp u :
  check_thread_predecessor h tid tp = Ok u → ∀ e, h !! tp = Some e → ev_kind e ≠ program_init.
Proof.
  intros [(x & Hx & _ & Hk & _) _]%check_thread_predecessor_ok e He. by simplify_eq.
Qed.

(** Discharge [wf_event] for an event built by [event_of_pred] or
    [event_of_preds], leaving the class conditions. *)
Ltac alloc_solve :=
  lazymatch goal with
  | Hf : event_of_pred _ _ _ _ = Ok ?e, Hc : check_thread_predecessor _ _ _ = Ok _ |- _ =>
      pose proof (event_of_pred_fields _ _ _ _ _ Hf) as [Htid Hdata];
      eapply (wf_of_base _ e) with (4 := Hc);
        [by eapply event_of_pred_wf with (3 := Hf) | done | unfold thread_predecessor; by rewrite Hdata |
         unfold class_ok; rewrite Hdata]
  | Hf : event_of_preds _ _ _ _ _ _ = Ok ?e, Hc : check_thread_predecessor _ _ _ = Ok _ |- _ =>
      pose proof (event_of_preds_fields _ _ _ _ _ _ _ Hf) as [Htid Hdata];
      eapply (wf_of_base _ e) with (4 := Hc);
        [eapply event_of_preds_wf with (4 := Hf); [done | by eapply at_not_init |]
        | done | unfold thread_predecessor; by rewrite Hdata |
         unfold class_ok; rewrite Hdata]
  end.

(** Close a kind condition from a disjunction of kinds. *)
Ltac kind_cases :=
  eexists; split; [eassumption|]; unfold kind_in;
  repeat match goal with H : _ ∨ _ |- _ => destruct H end; asserts_prop;
  repeat match goal with H : _ ∨ _ |- _ => destruct H end; asserts_prop;
  match goal with H : ev_kind ?x = _ |- context [ev_kind ?x] => rewrite H end;
  split_and?; try congruence; set_solver.

(** A condition variable predecessor that passed the loop's [switch]. *)
Ltac cond_pred_cases :=
  match goal with Hx : _ !! ?q = Some ?x |- at_event _ ?q _ =>
    exists x; split; [exact Hx|]; unfold kind_in;
    destruct (ev_kind x) eqn:?; try discriminate; res_inv; asserts_prop;
    (split; [set_solver | congruence])
  end.

Lemma alloc_local_wf h tid tp path e :
  wf_heap h → alloc_local h tid tp path = Ok e → wf_event h e.
Proof. unfold alloc_local. intros Hwf He. res_inv. by alloc_solve. Qed.

Lemma alloc_thread_create_wf h tid tp new_tid e :
  wf_heap h → alloc_thread_create h tid tp new_tid = Ok e → wf_event h e.
Proof. unfold alloc_thread_create. intros Hwf He. res_inv. by alloc_solve. Qed.

Lemma alloc_lock_create_wf h tid lid tp e :
  wf_heap h → alloc_lock_create h tid lid tp = Ok e → wf_event h e.
Proof. unfold alloc_lock_create. intros Hwf He. res_inv. by alloc_solve. Qed.

Lemma alloc_condition_variable_create_wf h tid cid tp e :
  wf_heap h → alloc_condition_variable_create h tid cid tp = Ok e → wf_event h e.
Proof. unfold alloc_condition_variable_create. intros Hwf He. res_inv. by alloc_solve. Qed.

Lemma alloc_thread_exit_wf h tid tp atomic e :
  wf_heap h → alloc_thread_exit h tid tp atomic = Ok e → wf_event h e.
Proof.
  unfold alloc_thread_exit. intros Hwf He. res_inv_ev. alloc_solve.
  destruct atomic; [|done]. asserts_prop. eexists. split; [done|].
  by match goal with H : _ ∨ _ |- _ => destruct H end; asserts_prop.
Qed.

Lemma alloc_thread_join_wf h tid tp joined e :
  wf_heap h → alloc_thread_join h tid tp joined = Ok e → wf_event h e.
Proof.
  unfold alloc_thread_join. intros Hwf He. res_inv_ev. asserts_prop.
  alloc_solve; [done|]. eexists. split_and!; [done | done | congruence].
Qed.

Lemma alloc_thread_init_wf h tid creation e :
  wf_heap h → tid ≠ tid_root → alloc_thread_init h tid creation = Ok e → wf_event h e.
Proof.
  unfold alloc_thread_init. intros Hwf Hne He. res_inv_ev. asserts_prop.
  match goal with H : event_of_pred _ _ _ _ = Ok _ |- _ => rename H into Hf end.
  pose proof (event_of_pred_fields _ _ _ _ _ Hf) as [Htid Hdata].
  destruct (event_of_pred_wf _ _ (ThreadInit creation) creation _ Hwf eq_refl Hf) as [H1' H2' H3' H4'].
  split; [done | done | by right | done | | | ].
  - intros p. unfold thread_predecessor. by rewrite Hdata.
  - rewrite Htid. unfold ev_kind. by rewrite Hdata.
  - unfold class_ok. rewrite Hdata, Htid. eexists. split; [done|]. split; [|done].
    unfold kind_in. match goal with H : _ ∨ _ |- _ => destruct H end; asserts_prop;
      match goal with H : ev_kind _ = _ |- _ => rewrite H end; set_solver.
Qed.

Lemma alloc_lock_destroy_wf h tid lid tp lp e :
  wf_heap h → alloc_lock_destroy h tid lid tp lp = Ok e → wf_event h e.
Proof.
  unfold alloc_lock_destroy. intros Hwf He. res_inv. alloc_solve.
  - intros q. simpl. rewrite two_predecessors_elem, elem_of_cons, app_nil_r, option_list_elem.
    done.
  - destruct lp; [|done]. res_inv_ev. asserts_prop. by kind_cases.
Qed.

Lemma alloc_lock_acquire_wf h tid lid tp lp e :
  wf_heap h → alloc_lock_acquire h tid lid tp lp = Ok e → wf_event h e.
Proof.
  unfold alloc_lock_acquire. intros Hwf He. res_inv. alloc_solve.
  - intros q. simpl. rewrite two_predecessors_elem, elem_of_cons, app_nil_r, option_list_elem.
    done.
  - destruct lp; [|done]. res_inv_ev. asserts_prop. by kind_cases.
Qed.

Lemma alloc_lock_release_wf h tid lid tp lp atomic e :
  wf_heap h → alloc_lock_release h tid lid tp lp atomic = Ok e → wf_event h e.
Proof.
  unfold alloc_lock_release. intros Hwf He. res_inv_ev. asserts_prop. alloc_solve.
  - intros q. simpl. rewrite two_predecessors_elem, !elem_of_cons, elem_of_nil. naive_solver.
  - by kind_cases.
Qed.

Lemma alloc_condition_variable_destroy_wf h tid cid tp cps e :
  wf_heap h → alloc_condition_variable_destroy h tid cid tp cps = Ok e → wf_event h e.
Proof.
  unfold alloc_condition_variable_destroy. intros Hwf He. res_inv. alloc_solve; [done|].
  intros q Hq. match goal with H : for_each _ _ _ = Ok _ |- _ =>
    pose proof (for_each_unit_inv _ _ _ _ H q Hq) as Hb end.
  cbv beta in Hb. res_inv_ev. by cond_pred_cases.
Qed.

Lemma alloc_wait1_wf h tid cid lid tp lp cps e :
  wf_heap h → alloc_wait1 h tid cid lid tp lp cps = Ok e → wf_event h e.
Proof.
  unfold alloc_wait1. intros Hwf He. res_inv_ev. asserts_prop. alloc_solve; [done|].
  split; [by kind_cases|].
  intros q Hq. match goal with H : for_each _ _ _ = Ok _ |- _ =>
    pose proof (for_each_unit_inv _ _ _ _ H q Hq) as Hb end.
  cbv beta in Hb. res_inv_ev. by cond_pred_cases.
Qed.

Lemma alloc_signal_wf h tid cid tp w e :
  wf_heap h → alloc_signal h tid cid tp w = Ok e → wf_event h e.
Proof.
  unfold alloc_signal. intros Hwf He. res_inv_ev. asserts_prop. alloc_solve; [done|]. split.
  - intros q ->%list_elem_of_singleton. eexists. split; [done|]. split; [|done].
    unfold kind_in. match goal with H : ev_kind _ = wait1 |- _ => rewrite H end. set_solver.
  - left. eexists. split; [done|]. by eexists.
Qed.

Lemma alloc_signal_lost_wf h tid cid tp cps e :
  wf_heap h → alloc_signal_lost h tid cid tp cps = Ok e → wf_event h e.
Proof.
  unfold alloc_signal_lost. intros Hwf He. res_inv_ev. alloc_solve; [done|].
  assert (∀ q, q ∈ sort_ptrs cps → at_event h q (λ x,
    kind_in [condition_variable_create; signal; broadcast] x ∧ ev_cid x = cid)) as Hall.
  { intros q Hq. match goal with H : for_each _ _ _ = Ok _ |- _ =>
      pose proof (for_each_unit_inv _ _ _ _ H q Hq) as Hb end.
    cbv beta in Hb. res_inv_ev. by cond_pred_cases. }
  split.
  - intros q (x & Hx & Hk & Hc)%Hall. exists x. split; [done|]. split; [|done]. unfold kind_in in *.
    set_solver.
  - right. intros q (x & Hx & Hk & _)%Hall. exists x. split; [done|]. unfold kind_in in *.
    intros E. rewrite E in Hk. set_solver.
Qed.

Lemma broadcast_groups_perm h cid cps w sb cr :
  broadcast_groups h cid cps = Ok (w, sb, cr) → w ++ sb ++ cr ≡ₚ cps.
Proof.
  unfold broadcast_groups. intros Hf.
  apply (for_each_inv (λ l '(w, sb, cr), w ++ sb ++ cr ≡ₚ l)) in Hf; [done | done |].
  intros l p [[w1 sb1] cr1] [[w2 sb2] cr2] <- _ Hs. res_inv_ev.
  destruct (ev_kind _); try done; res_inv; simplify_eq; by solve_Permutation.
Qed.

(** The groups hold the [wait1] events and the other ones. *)
Lemma broadcast_groups_kinds h cid cps w sb cr :
  broadcast_groups h cid cps = Ok (w, sb, cr) →
  (∀ q, q ∈ w → at_event h q (λ x, ev_kind x = wait1 ∧ ev_cid x = cid)) ∧
  (∀ q, q ∈ sb ++ cr → at_event h q (λ x,
    kind_in [condition_variable_create; signal; broadcast] x ∧ ev_cid x = cid)).
Proof.
  unfold broadcast_groups. intros Hf.
  apply (for_each_inv (λ _ '(w, sb, cr),
    (∀ q, q ∈ w → at_event h q (λ x, ev_kind x = wait1 ∧ ev_cid x = cid)) ∧
    (∀ q, q ∈ sb ++ cr → at_event h q (λ x,
      kind_in [condition_variable_create; signal; broadcast] x ∧ ev_cid x = cid)))) in Hf;
    [done | split; by intros q ?%elem_of_nil |].
  intros l p [[w1 sb1] cr1] [[w2 sb2] cr2] [Hw Hs] _ Hst. res_inv_ev.
  match goal with H : h !! p = Some ?x |- _ => rename H into Hp; rename x into ep end.
  assert (∀ ks, ev_kind ep ∈ ks → ev_cid ep = cid → at_event h p (λ x, kind_in ks x ∧ ev_cid x = cid))
    as Hat by (intros; by exists ep).
  destruct (ev_kind ep) eqn:Hk; try done; res_inv; asserts_prop; simplify_eq;
    (split; [intros q; rewrite ?elem_of_app, ?list_elem_of_singleton;
             first [by apply Hw | intros [?| ->]; [by apply Hw | by exists ep]]
            |intros q; rewrite ?elem_of_app, ?list_elem_of_singleton; intros Hq;
             first [apply Hs; rewrite elem_of_app; done |
               destruct (decide (q = p)) as [->|]; [apply Hat; [set_solver | done]
                 | apply Hs; rewrite elem_of_app; naive_solver]]]).
Qed.

Lemma alloc_broadcast_wf h tid cid tp cps e :
  wf_heap h → alloc_broadcast h tid cid tp cps = Ok e → wf_event h e.
Proof.
  unfold alloc_broadcast. intros Hwf He. apply bind_ok in He as ([[w sb] cr] & Hg & He).
  apply bind_ok in He as (e' & Hf & He). res_inv. alloc_solve.
  - intros q. apply broadcast_groups_perm in Hg. simpl. by rewrite !elem_of_cons, Hg.
  - apply broadcast_groups_kinds in Hg as [Hw Hs]. rewrite take_app_length, drop_app_length.
    split_and!.
    + intros q [Hq|Hq]%elem_of_app.
      * destruct (Hw q Hq) as (x & ? & Hk & ?). exists x. unfold kind_in. rewrite Hk.
        split_and!; [done | set_solver | done].
      * destruct (Hs q Hq) as (x & ? & Hk & ?). exists x. unfold kind_in in *.
        split_and!; [done | set_solver | done].
    + rewrite length_app. lia.
    + intros q Hq. destruct (Hw q Hq) as (x & ? & ? & _). by exists x.
    + intros q Hq. destruct (Hs q Hq) as (x & ? & Hk & _). exists x. split; [done|].
      unfold kind_in in Hk. intros E. rewrite E in Hk. set_solver.
Qed.

(** The notification of a [wait2] names its [wait1] among its condition
    variable predecessors. *)
Lemma wait2_notification h tid cid tp np en :
  h !! np = Some en →
  (if kind_eqb (ev_kind en) signal then
     nt ← signal_notified_thread h en;
     _ ← cassert (tid_eqb nt tid);
     _ ← cassert (ev_cid en =? cid)%N;
     wp ← signal_wait_predecessor h en;
     cassert (bool_decide (wp = Some tp))
   else
     _ ← cassert (kind_eqb (ev_kind en) broadcast);
     n ← broadcast_is_notifying_thread h en tid;
     _ ← cassert n;
     _ ← cassert (ev_cid en =? cid)%N;
     ws ← broadcast_wait_predecessors en;
     cassert (bool_decide (tp ∈ ws))) = Ok tt →
  kind_in [signal; broadcast] en ∧ ev_cid en = cid ∧ tp ∈ condition_variable_predecessors en.
Proof.
  intros Hnp He. unfold kind_in.
  destruct (kind_eqb (ev_kind en) signal) eqn:Hk; res_inv; asserts_prop;
    match goal with H : ev_kind en = _ |- _ => rewrite H end; (split; [set_solver|]);
    (split; [done|]).
  - unfold signal_wait_predecessor, condition_variable_predecessors in *.
    destruct (ev_data en) as [| | | | | | | | | | | | | |tp' cps c|]; try done. res_inv.
    match goal with H : (if ?b then _ else head cps) = Some tp |- _ =>
      destruct b, cps; simplify_eq/= end. by left.
  - unfold broadcast_wait_predecessors, condition_variable_predecessors in *.
    destruct (ev_data en) as [| | | | | | | | | | | | | | |? ? n ?]; try done. res_inv. by eapply (subseteq_take n).
Qed.

Lemma alloc_wait2_wf h tid cid lid tp lp np e :
  wf_heap h → alloc_wait2 h tid cid lid tp lp np = Ok e → wf_event h e.
Proof.
  unfold alloc_wait2. intros Hwf He.
  do 12 (apply bind_ok in He as (? & ? & He)). apply bind_ok in He as ([] & Hn & He). res_inv_ev.
  asserts_prop. apply (wait2_notification h tid cid tp np) in Hn; [|done].
  match goal with H : event_of_preds _ _ _ _ _ _ = Ok _ |- _ => rename H into Hf end.
  pose proof (event_of_preds_fields _ _ _ _ _ _ _ Hf) as [Htid Hdata].
  match goal with H : h !! tp = Some ?x |- _ => rename H into Htp; rename x into etp end.
  assert (wf_base h e) as [H1' H2' H3' H4'].
  { eapply event_of_preds_wf with (4 := Hf); [done | intros ? ?; simplify_eq; congruence |].
    intros q. simpl. set_solver. }
  split; [done | done | by right | done | | | ].
  - intros p. unfold thread_predecessor. rewrite Hdata. intros [= <-].
    exists etp. split; [done|]. rewrite Htid. split_and!; congruence.
  - rewrite Htid. unfold ev_kind. rewrite Hdata. simpl. split; [|done].
    intros ->. match goal with H : tid_empty _ = false, H' : ev_tid etp = _ |- _ =>
      by rewrite H' in H end.
  - unfold class_ok. rewrite Hdata. split_and!; [by exists etp | by eexists |].
    by kind_cases.
Qed.

Lemma program_init_event_wf h : wf_event h program_init_event.
Proof.
  assert (∀ x, ¬ below h x program_init_event) as Hb by (by intros x (q & []%elem_of_nil & _)).
  split; try done.
  - by intros q ?%elem_of_nil.
  - by intros q ?%elem_of_nil.
  - by left.
  - split; [constructor | done | intros x Hx; by apply Hb in Hx].
Qed.

(** ** The events a constructor can return *)

Inductive allocated h : event → Prop :=
  | alloc_is_program_init : allocated h program_init_event
  | alloc_is_local tid tp path e : alloc_local h tid tp path = Ok e → allocated h e
  | alloc_is_thread_create tid tp n e : alloc_thread_create h tid tp n = Ok e → allocated h e
  | alloc_is_thread_join tid tp j e : alloc_thread_join h tid tp j = Ok e → allocated h e
  | alloc_is_thread_init tid c e :
      tid ≠ tid_root → alloc_thread_init h tid c = Ok e → allocated h e
  | alloc_is_thread_exit tid tp a e : alloc_thread_exit h tid tp a = Ok e → allocated h e
  | alloc_is_lock_create tid l tp e : alloc_lock_create h tid l tp = Ok e → allocated h e
  | alloc_is_lock_destroy tid l tp lp e :
      alloc_lock_destroy h tid l tp lp = Ok e → allocated h e
  | alloc_is_lock_acquire tid l tp lp e :
      alloc_lock_acquire h tid l tp lp = Ok e → allocated h e
  | alloc_is_lock_release tid l tp lp a e :
      alloc_lock_release h tid l tp lp a = Ok e → allocated h e
  | alloc_is_condition_variable_create tid c tp e :
      alloc_condition_variable_create h tid c tp = Ok e → allocated h e
  | alloc_is_condition_variable_destroy tid c tp cps e :
      alloc_condition_variable_destroy h tid c tp cps = Ok e → allocated h e
  | alloc_is_wait1 tid c l tp lp cps e : alloc_wait1 h tid c l tp lp cps = Ok e → allocated h e
  | alloc_is_wait2 tid c l tp lp np e : alloc_wait2 h tid c l tp lp np = Ok e → allocated h e
  | alloc_is_signal tid c tp w e : alloc_signal h tid c tp w = Ok e → allocated h e
  | alloc_is_signal_lost tid c tp cps e :
      alloc_signal_lost h tid c tp cps = Ok e → allocated h e
  | alloc_is_broadcast tid c tp cps e : alloc_broadcast h tid c tp cps = Ok e → allocated h e.

Lemma allocated_wf h e : wf_heap h → allocated h e → wf_event h e.
Proof.
  intros Hwf. destruct 1; eauto using program_init_event_wf, alloc_local_wf,
    alloc_thread_create_wf, alloc_thread_join_wf, alloc_thread_init_wf, alloc_thread_exit_wf,
    alloc_lock_create_wf, alloc_lock_destroy_wf, alloc_lock_acquire_wf, alloc_lock_release_wf,
    alloc_condition_variable_create_wf, alloc_condition_variable_destroy_wf, alloc_wait1_wf,
    alloc_wait2_wf, alloc_signal_wf, alloc_signal_lost_wf, alloc_broadcast_wf.
Qed.
End alloc_proofs.
