(* ===== verification/HeapExt.v ===== *)
(** * Extending the event heap

    The unfolding adds events and changes the mutable fields of stored ones
    (successors, immediate conflicts, colours, metadata, the cutoff flag and
    [all_cex_known]); it never changes the fields that causality depends on.
    [heap_ext] is that extension order, and the heap invariant is stable
    under it. *)

From stdpp Require Import base tactics list gmap numbers relations.
From S2P Require Import Prelude StdMap ThreadId Event Comb CombEnum CombProofs Cone Alloc Causality.

Section heap_ext.
Context {PL : Payload}.
Implicit Types (h : heap) (e : event).

(** The class fields without the mutable flag. *)
Definition data_core (d : event_data) : event_data :=
  match d with
  | LockAcquire tp lp l _ => LockAcquire tp lp l false
  | Wait2 tp np lp c l _ => Wait2 tp np lp c l false
  | _ => d
  end.

Record same_core e e' : Prop := {
  core_tid : ev_tid e = ev_tid e';
  core_data : data_core (ev_data e) = data_core (ev_data e');
  core_cone : ev_cone e = ev_cone e';
  core_depth : ev_depth e = ev_depth e';
}.

#[export] Instance same_core_equiv : Equivalence same_core.
Proof.
  split; [by split | by intros ?? []; split |].
  intros ??? [] []. split; by etrans.
Qed.

Lemma data_core_inv d d' :
  data_core d = data_core d' →
  data_kind d = data_kind d' ∧ data_predecessors d = data_predecessors d' ∧
  data_thread_predecessor d = data_thread_predecessor d'.
Proof. destruct d, d'; simpl; intros [=]; simplify_eq; done. Qed.

#[export] Instance ev_kind_proper : Proper (same_core ==> eq) ev_kind.
Proof. intros e e' [_ Hd _ _]. by apply data_core_inv. Qed.

#[export] Instance predecessors_proper : Proper (same_core ==> eq) predecessors.
Proof. intros e e' [_ Hd _ _]. by apply data_core_inv. Qed.

#[export] Instance thread_predecessor_proper : Proper (same_core ==> eq) thread_predecessor.
Proof. intros e e' [_ Hd _ _]. by apply data_core_inv. Qed.

#[export] Instance ev_lid_proper : Proper (same_core ==> eq) ev_lid.
Proof.
  intros e e' [_ Hd _ _]. unfold ev_lid.
  destruct (ev_data e), (ev_data e'); simpl in Hd; by simplify_eq.
Qed.

#[export] Instance ev_cid_proper : Proper (same_core ==> eq) ev_cid.
Proof.
  intros e e' [_ Hd _ _]. unfold ev_cid.
  destruct (ev_data e), (ev_data e'); simpl in Hd; by simplify_eq.
Qed.

#[export] Instance condition_variable_predecessors_proper :
  Proper (same_core ==> eq) condition_variable_predecessors.
Proof.
  intros e e' [_ Hd _ _]. unfold condition_variable_predecessors.
  destruct (ev_data e), (ev_data e'); simpl in Hd; by simplify_eq.
Qed.

#[export] Instance lock_predecessor_proper : Proper (same_core ==> eq) lock_predecessor.
Proof.
  intros e e' [_ Hd _ _]. unfold lock_predecessor.
  destruct (ev_data e), (ev_data e'); simpl in Hd; by simplify_eq.
Qed.

#[export] Instance ev_tid_proper : Proper (same_core ==> eq) ev_tid.
Proof. by intros e e' []. Qed.

#[export] Instance ev_depth_proper : Proper (same_core ==> eq) ev_depth.
Proof. by intros e e' []. Qed.

#[export] Instance ev_cone_proper : Proper (same_core ==> eq) ev_cone.
Proof. by intros e e' []. Qed.

Definition heap_ext : relation heap := λ h h',
  ∀ p e, h !! p = Some e → ∃ e', h' !! p = Some e' ∧ same_core e e'.

#[export] Instance heap_ext_preorder : PreOrder heap_ext.
Proof.
  split.
  - intros h p e Hp. exists e. done.
  - intros h1 h2 h3 H12 H23 p e Hp. destruct (H12 p e Hp) as (e2 & H2 & Hs).
    destruct (H23 p e2 H2) as (e3 & H3 & Hs'). exists e3. split; [done | by etrans].
Qed.

(** Storing at a free address and updating mutable fields extend the heap. *)
Lemma heap_ext_fresh h p e : h !! p = None → heap_ext h (<[p := e]> h).
Proof.
  intros Hp q e' Hq. exists e'. rewrite lookup_insert_ne by congruence. done.
Qed.

Lemma heap_ext_update h p e e' :
  h !! p = Some e → same_core e e' → heap_ext h (<[p := e']> h).
Proof.
  intros Hp Hs q eq Hq. destruct (decide (p = q)) as [->|].
  - exists e'. rewrite lookup_insert_eq. by simplify_eq.
  - exists eq. by rewrite lookup_insert_ne.
Qed.

Section ext.
Context (h h' : heap).
Hypothesis Hext : heap_ext h h'.

Lemma ext_dep p : is_Some (h !! p) → dep h' p = dep h p.
Proof.
  intros [e Hp]. destruct (Hext p e Hp) as (e' & Hp' & Hs).
  by rewrite (dep_lookup _ _ _ Hp), (dep_lookup _ _ _ Hp'), (ev_depth_proper _ _ Hs).
Qed.

Lemma ext_is_event t p : is_event h t p → is_event h' t p.
Proof.
  intros (e & Hp & Ht & Hk). destruct (Hext p e Hp) as (e' & Hp' & Hs).
  exists e'. by rewrite <-(ev_tid_proper _ _ Hs), <-(ev_kind_proper _ _ Hs).
Qed.

Lemma ext_at_event p (Φ : event → Prop) :
  Proper (same_core ==> iff) Φ → at_event h p Φ → at_event h' p Φ.
Proof.
  intros HΦ (e & Hp & HΦe). destruct (Hext p e Hp) as (e' & Hp' & Hs).
  exists e'. split; [done|]. by apply (HΦ _ _ Hs).
Qed.

Lemma ext_imm q p : imm h q p → imm h' q p.
Proof.
  intros (e & Hp & Hq). destruct (Hext p e Hp) as (e' & Hp' & Hs).
  exists e'. by rewrite <-(predecessors_proper _ _ Hs).
Qed.

Lemma ext_imm_inv q p : is_Some (h !! p) → imm h' q p → imm h q p.
Proof.
  intros [e Hp] (e' & Hp' & Hq). destruct (Hext p e Hp) as (e'' & Hp'' & Hs).
  simplify_eq. exists e. by rewrite (predecessors_proper _ _ Hs).
Qed.

Lemma ext_causal_le x y : causal_le h x y → causal_le h' x y.
Proof. apply (rtc_congruence (λ x, x)), ext_imm. Qed.

Hypothesis Hwf : wf_heap h.

Lemma ext_causal_le_inv x y : is_Some (h !! y) → causal_le h' x y → causal_le h x y.
Proof.
  intros Hy Hle. revert Hy. unfold causal_le in *.
  induction Hle as [|x z y Hxz _ IH]; [done|]. intros Hy. specialize (IH Hy).
  eapply rtc_l; [|done]. apply ext_imm_inv; [|done].
  by apply (causal_le_in h z y Hwf).
Qed.

Lemma ext_causal_lt_iff x y : is_Some (h !! y) → causal_lt h' x y ↔ causal_lt h x y.
Proof.
  intros [e Hy]. destruct (Hext y e Hy) as (e' & Hy' & Hs). rewrite !causal_lt_alt. split.
  - intros (e'' & ? & q & Hq & Hle). simplify_eq. exists e. split; [done|]. exists q.
    rewrite (predecessors_proper _ _ Hs). split; [done|].
    apply ext_causal_le_inv; [|done]. apply (wf_preds _ _ (Hwf _ _ Hy)).
    by rewrite (predecessors_proper _ _ Hs).
  - intros (e'' & ? & q & Hq & Hle). simplify_eq. exists e'. split; [done|]. exists q.
    rewrite <-(predecessors_proper _ _ Hs). split; [done|]. by apply ext_causal_le.
Qed.

Lemma ext_below e x :
  (∀ q, q ∈ predecessors e → is_Some (h !! q)) → below h' x e ↔ below h x e.
Proof.
  intros Hq. unfold below. split; intros (q & Hin & Hle); exists q; split; try done.
  - by apply ext_causal_le_inv; [apply Hq|].
  - by apply ext_causal_le.
Qed.

Lemma ext_cone_for c (P : eid → Prop) :
  (∀ x, P x → is_Some (h !! x)) → cone_for h c P → cone_for h' c P.
Proof.
  intros HP [Hs Hsd Hcp]. split; [done| |].
  - intros t p Hp. destruct (Hsd t p Hp). split; [done | by apply ext_is_event].
  - intros x Hx e' He' Hk. destruct (HP x Hx) as [e He].
    destruct (Hext x e He) as (e'' & ? & Hs'). simplify_eq.
    rewrite <-(ev_tid_proper _ _ Hs'). rewrite <-(ev_kind_proper _ _ Hs') in Hk.
    destruct (Hcp x Hx e He Hk) as (p & Hp & Hle). exists p. split; [done|].
    destruct (Hsd _ _ Hp) as [Hpp _]. by rewrite !ext_dep by (apply HP; done).
Qed.

Lemma ext_cond_preds_ok cid cps : cond_preds_ok h cid cps → cond_preds_ok h' cid cps.
Proof.
  intros Hc q Hq. eapply ext_at_event; [|by apply Hc]. unfold kind_in. intros ?? Hs. by rewrite Hs.
Qed.

Lemma ext_at_kind q (Φ : event_kind → Prop) :
  at_event h q (λ x, Φ (ev_kind x)) → at_event h' q (λ x, Φ (ev_kind x)).
Proof. apply ext_at_event. intros ?? Hs. by rewrite Hs. Qed.

Lemma ext_class_ok e : class_ok h e → class_ok h' e.
Proof.
  unfold class_ok. destruct (ev_data e); try done;
    repeat case_match; try done; intros; destruct_and?; split_and?;
    try (by apply ext_cond_preds_ok); try done;
    try (unfold kind_in in *; eapply ext_at_event; try done; intros ?? Hs; by rewrite Hs).
  - match goal with H : _ ∨ _ |- _ => destruct H as [(w & -> & Hw)|Hn] end.
    + left. exists w. split; [done|]. by apply (ext_at_kind w (λ k, k = wait1)).
    + right. intros q Hq. by apply (ext_at_kind q (λ k, k ≠ wait1)), Hn.
  - intros q Hq. apply (ext_at_kind q (λ k, k = wait1)). auto.
  - intros q Hq. apply (ext_at_kind q (λ k, k ≠ wait1)). auto.
Qed.

Lemma ext_wf_event e : wf_event h e → wf_event h' e.
Proof.
  intros [H1 H2 H3 H4 H5 H6 H7]. split.
  - intros q Hq. destruct (H1 q Hq) as [eq Heq].
    destruct (Hext q eq Heq) as (? & ? & _). eauto.
  - intros q Hq. rewrite ext_dep by auto. auto.
  - destruct H3 as [?|(q & Hq & Hd)]; [by left | right]. exists q.
    by rewrite ext_dep by auto.
  - apply (cone_for_proper h' _ (λ x, below h x e)); [intros x; symmetry; by apply ext_below|].
    apply ext_cone_for; [|done]. intros x (q & Hq & Hle).
    apply (causal_le_in h x q Hwf Hle). auto.
  - intros p Hp. eapply ext_at_event; [|by apply H5]. intros ?? Hs. by rewrite Hs.
  - done.
  - by apply ext_class_ok.
Qed.
End ext.

(** The scans compare elements of the list only. *)
Lemma extremal_scan_subset (before : eid → eid → res bool) t l l' m :
  extremal_scan before t l = Ok (l', m) → l' ⊆ l.
Proof.
  revert l' m. induction l as [|r l IH]; intros l' m Hs; simpl in Hs; [by simplify_eq|].
  destruct (before r t) as [[]|]; simpl in Hs; [apply IH in Hs; set_solver | | done].
  destruct (before t r) as [[]|]; simpl in Hs; [by simplify_eq | | done].
  destruct (extremal_scan before t l) as [[r' m']|] eqn:E; simpl in Hs; simplify_eq.
  specialize (IH r' m eq_refl). set_solver.
Qed.

Lemma extremal_scan_ext (f g : eid → eid → res bool) t l :
  (∀ r, r ∈ l → f r t = g r t ∧ f t r = g t r) → extremal_scan f t l = extremal_scan g t l.
Proof.
  induction l as [|r l IH]; intros Hfg; simpl; [done|].
  destruct (Hfg r) as [-> ->]; [by left|]. rewrite IH; [done|]. intros; apply Hfg; by right.
Qed.

Lemma extremal_ext (f g : eid → eid → res bool) l :
  (∀ x y, x ∈ l → y ∈ l → f x y = g x y) → extremal f l = extremal g l.
Proof.
  intros Hfg. unfold extremal.
  enough (∀ l2 acc, l2 ⊆ l → acc ⊆ l →
    for_each (extremal_step f) acc l2 = for_each (extremal_step g) acc l2) as Hgen
    by (apply Hgen; set_solver).
  induction l2 as [|t l2 IH]; intros acc Hl2 Hacc; simpl; [done|].
  assert (t ∈ l) as Ht by (apply Hl2; by left).
  assert (extremal_step f acc t = extremal_step g acc t) as ->.
  { unfold extremal_step. rewrite (extremal_scan_ext f g); [done|]. intros; split; auto. }
  destruct (extremal_step g acc t) as [r|] eqn:Hs; simpl; [|done].
  apply IH; [set_solver|]. unfold extremal_step in Hs.
  destruct (extremal_scan g t acc) as [[r' m]|] eqn:Hsc; simpl in Hs; simplify_eq.
  apply extremal_scan_subset in Hsc. destruct m; set_solver.
Qed.

Section accessors.
Context (h h' : heap).
Hypothesis Hext : heap_ext h h'.
Hypothesis Hwf : wf_heap h.

Lemma ext_is_less_than a b :
  is_Some (h !! a) → is_Some (h !! b) → is_less_than h' a b = is_less_than h a b.
Proof.
  intros [ea Ha] [eb Hb]. destruct (Hext a ea Ha) as (ea' & Ha' & Hsa).
  destruct (Hext b eb Hb) as (eb' & Hb' & Hsb).
  rewrite (is_less_than_ok _ _ _ _ _ Ha Hb), (is_less_than_ok _ _ _ _ _ Ha' Hb').
  unfold ev_less, is_less_than_cone. rewrite <-(core_tid _ _ Hsa), <-(core_tid _ _ Hsb),
    <-(core_depth _ _ Hsa), <-(core_depth _ _ Hsb), <-(core_cone _ _ Hsb),
    <-(ev_kind_proper _ _ Hsa).
  destruct (smap_find _ _) as [p|] eqn:Hp; [|done].
  destruct (cone_for_sound _ _ _ (wf_cone _ _ (Hwf b eb Hb)) _ _ Hp) as [_ (ep & Hep & _)].
  destruct (Hext p ep Hep) as (ep' & Hep' & Hsp). unfold deref. rewrite Hep, Hep'. simpl.
  by rewrite (core_depth _ _ Hsp).
Qed.

Lemma ext_cone_max c (P : eid → Prop) : cone_for h c P → cone_max h' c = cone_max h c.
Proof.
  intros Hc. apply extremal_ext.
  assert (∀ x, x ∈ smap_vals c → is_Some (h !! x)) as Hin.
  { intros x ([t p] & -> & Hin)%list_elem_of_fmap.
    apply smap_elem_find in Hin; [|by apply (cone_for_sorted _ _ _ Hc)].
    destruct (cone_for_sound _ _ _ Hc _ _ Hin) as [_ (e & He & _)]. eauto. }
  intros x y Hx Hy. apply ext_is_less_than; auto.
Qed.

Lemma ext_is_less_than_eq a b :
  is_Some (h !! a) → is_Some (h !! b) → is_less_than_eq h' a b = is_less_than_eq h a b.
Proof. intros Ha Hb. unfold is_less_than_eq. by rewrite ext_is_less_than. Qed.

Lemma ext_two_immediate a b :
  is_Some (h !! a) → is_Some (h !! b) → two_immediate h' a b = two_immediate h a b.
Proof.
  intros Ha Hb. unfold two_immediate. by rewrite ext_is_less_than_eq, ext_is_less_than.
Qed.

Lemma ext_immediate_predecessors e e' :
  wf_event h e → same_core e e' → immediate_predecessors h' e' = immediate_predecessors h e.
Proof.
  intros Hw Hs. pose proof (core_data _ _ Hs) as Hd. pose proof (wf_preds _ _ Hw) as Hpr.
  assert (immediate_predecessors_from_cone h' e' = immediate_predecessors_from_cone h e) as Hfc.
  { unfold immediate_predecessors_from_cone.
    rewrite <-(ev_kind_proper _ _ Hs), <-(core_cone _ _ Hs).
    by rewrite (ext_cone_max _ _ (wf_cone _ _ Hw)). }
  unfold immediate_predecessors. unfold signal_is_lost. rewrite Hfc. clear Hfc.
  assert (predecessors e = predecessors e') as Hp by (by apply predecessors_proper).
  rewrite <-Hp. unfold predecessors in Hpr.
  destruct (ev_data e) eqn:E, (ev_data e') eqn:E'; simpl in Hd; try discriminate Hd; simplify_eq/=;
    try done; repeat case_match; try done; simplify_eq/=;
    rewrite ?ext_is_less_than, ?ext_two_immediate; try done;
    try (apply Hpr; rewrite ?two_predecessors_elem, ?elem_of_cons; auto; fail).
  match goal with |- context [deref h ?w] => destruct (Hpr w) as [ew Hew]; [set_solver|];
    destruct (Hext w ew Hew) as (ew' & Hew' & Hsw) end.
  unfold deref. rewrite Hew, Hew'. simpl. by rewrite (ev_kind_proper _ _ Hsw).
Qed.
End accessors.

Lemma class_ok_core h e e' : same_core e e' → class_ok h e → class_ok h e'.
Proof.
  intros [Ht Hd _ _]. unfold class_ok. rewrite Ht.
  destruct (ev_data e), (ev_data e'); simpl in Hd; by simplify_eq.
Qed.

Lemma wf_event_core h e e' : same_core e e' → wf_event h e → wf_event h e'.
Proof.
  intros Hs [H1 H2 H3 H4 H5 H6 H7]. pose proof (class_ok_core h _ _ Hs H7).
  assert (∀ x, below h x e ↔ below h x e') as Hb by (intros; unfold below; by rewrite (predecessors_proper _ _ Hs)).
  rewrite (predecessors_proper _ _ Hs) in *. rewrite (ev_depth_proper _ _ Hs) in *.
  rewrite (ev_cone_proper _ _ Hs), (ev_kind_proper _ _ Hs), (ev_tid_proper _ _ Hs) in *.
  rewrite (thread_predecessor_proper _ _ Hs) in *.
  split; try done. by eapply cone_for_proper; [intros x; symmetry; apply Hb|].
Qed.

(** The invariant is kept when the heap is extended by well-formed events. *)
Lemma wf_heap_ext h h' :
  wf_heap h → heap_ext h h' →
  (∀ p e, h' !! p = Some e → h !! p = None → wf_event h e) → wf_heap h'.
Proof.
  intros Hwf Hext Hnew p e' Hp'. apply (ext_wf_event h h' Hext Hwf).
  destruct (h !! p) as [e|] eqn:Hp; [|by eapply Hnew].
  destruct (Hext p e Hp) as (e'' & ? & Hs). simplify_eq.
  eapply wf_event_core; [done | by apply (Hwf p)].
Qed.

Lemma wf_heap_insert h p e :
  wf_heap h → h !! p = None → wf_event h e → wf_heap (<[p := e]> h).
Proof.
  intros Hwf Hp He. eapply wf_heap_ext; [done | by apply heap_ext_fresh |].
  intros q eq Hq Hn. destruct (decide (p = q)) as [->|].
  - rewrite lookup_insert_eq in Hq. by simplify_eq.
  - rewrite lookup_insert_ne in Hq by done. congruence.
Qed.

Lemma wf_heap_update h p e e' :
  wf_heap h → h !! p = Some e → same_core e e' → wf_heap (<[p := e']> h).
Proof.
  intros Hwf Hp Hs. eapply wf_heap_ext; [done | by eapply heap_ext_update |].
  intros q eq Hq Hn. destruct (decide (p = q)) as [->|].
  - congruence.
  - rewrite lookup_insert_ne in Hq by done. congruence.
Qed.

Lemma wf_heap_empty : wf_heap (∅ : heap).
Proof. intros p e. by rewrite lookup_empty. Qed.
End heap_ext.
