(* ===== verification/Order.v ===== *)
(** * The causality test decides causality

    [is_less_than] compares depths and cones; its comment allows it only for
    events that are not in conflict. [conflict_free] states that condition: a
    causally closed set with one initial event per thread and at most one
    same-thread successor per event. On such a set the events of a thread
    form a chain, and the test returns and is exact. The specifications of
    the scans, walks and differences on cones and combs follow. *)

From stdpp Require Import base tactics list gmap numbers relations.
From S2P Require Import Prelude StdMap ThreadId Event Comb CombEnum CombProofs Cone Alloc Causality.

Section order.
Context {PL : Payload}.
Implicit Types (h : heap) (e : event) (C : eid → Prop).

(** [q] is the same-thread predecessor of the event at [p]. *)
Definition tpred h (q p : eid) : Prop := at_event h p (λ e, thread_predecessor e = Some q).

Definition thread_le h : relation eid := rtc (tpred h).

Record conflict_free h C : Prop := {
  cf_in x : C x → is_Some (h !! x);
  cf_closed x y : C y → causal_le h x y → C x;
  cf_init x y ex ey : C x → C y → h !! x = Some ex → h !! y = Some ey →
    thread_predecessor ex = None → thread_predecessor ey = None →
    ev_tid ex = ev_tid ey → x = y;
  cf_thread x y q : C x → C y → tpred h q x → tpred h q y → x = y;
}.

Section chain.
Context (h : heap) (C : eid → Prop).
Hypothesis Hwf : wf_heap h.
Hypothesis HC : conflict_free h C.

Lemma tpred_imm q p : tpred h q p → imm h q p.
Proof. intros (e & He & Ht). exists e. split; [done | by apply thread_predecessor_pred]. Qed.

Lemma thread_le_causal q p : thread_le h q p → causal_le h q p.
Proof. apply (rtc_congruence (λ x, x)), tpred_imm. Qed.

Lemma tpred_C q p : C p → tpred h q p → C q.
Proof. intros Hp Ht. eapply (cf_closed _ _ HC); [done|]. by apply rtc_once, tpred_imm. Qed.

Lemma tpred_tid q p eq ep :
  h !! q = Some eq → h !! p = Some ep → tpred h q p → ev_tid eq = ev_tid ep.
Proof.
  intros Hq Hp (e & He & Ht). simplify_eq.
  destruct (wf_thread_pred _ _ (Hwf _ _ Hp) q Ht) as (x & Hx & Htx & _). by simplify_eq.
Qed.

Lemma thread_le_inv x p :
  thread_le h x p → x = p ∨ ∃ q, tpred h q p ∧ thread_le h x q.
Proof.
  unfold thread_le. intros [->|Hr]%rtc_tc; [by left|]. right.
  induction Hr as [x y Hxy|x y z Hxy _ (q & Hq & Hyq)].
  - exists x. done.
  - exists q. split; [done|]. by eapply rtc_l.
Qed.

Lemma thread_init_least n x y ex ey :
  dep h y < n → C x → C y → h !! x = Some ex → h !! y = Some ey → ev_tid ex = ev_tid ey →
  thread_predecessor ex = None → thread_le h x y.
Proof.
  revert y ey. induction n as [|n IH]; intros y ey Hn Hx Hy Hex Hey Ht Hnone; [lia|].
  destruct (thread_predecessor ey) as [q|] eqn:Hq.
  - assert (tpred h q y) as Htp by (by exists ey).
    pose proof (imm_dep h q y Hwf (tpred_imm _ _ Htp)) as Hd.
    pose proof (tpred_C _ _ Hy Htp) as HCq. destruct (cf_in _ _ HC q HCq) as [eq Heq].
    pose proof (tpred_tid _ _ _ _ Heq Hey Htp) as Htq.
    eapply rtc_r; [|done]. apply (IH q eq); [lia | done..| congruence | done].
  - rewrite (cf_init _ _ HC x y ex ey); done.
Qed.

(** The events of one thread form a chain. *)
Lemma thread_chain n x y ex ey :
  dep h x + dep h y < n → C x → C y → h !! x = Some ex → h !! y = Some ey →
  ev_tid ex = ev_tid ey → thread_le h x y ∨ thread_le h y x.
Proof.
  revert x y ex ey. induction n as [|n IH]; intros x y ex ey Hn Hx Hy Hex Hey Ht; [lia|].
  destruct (thread_predecessor ex) as [qx|] eqn:Hqx;
    [|left; by eapply thread_init_least with (ex := ex); eauto].
  destruct (thread_predecessor ey) as [qy|] eqn:Hqy;
    [|right; by eapply thread_init_least with (ex := ey); eauto].
  assert (tpred h qx x) as Tx by (by exists ex). assert (tpred h qy y) as Ty by (by exists ey).
  pose proof (tpred_C _ _ Hx Tx) as Cx. pose proof (tpred_C _ _ Hy Ty) as Cy.
  destruct (cf_in _ _ HC qx Cx) as [eqx Heqx]. destruct (cf_in _ _ HC qy Cy) as [eqy Heqy].
  pose proof (imm_dep h _ _ Hwf (tpred_imm _ _ Tx)).
  pose proof (imm_dep h _ _ Hwf (tpred_imm _ _ Ty)).
  pose proof (tpred_tid _ _ _ _ Heqx Hex Tx). pose proof (tpred_tid _ _ _ _ Heqy Hey Ty).
  assert (∀ a b qa qb, C a → C b → tpred h qa a → tpred h qb b → C qb →
    thread_le h qa qb → thread_le h a b) as Hup.
  { intros a b qa qb Ha Hb Ta Tb Hqb Hle. unfold thread_le in Hle.
    inversion Hle as [|? z ? Hz Hr]; subst.
    - by rewrite (cf_thread _ _ HC a b qb).
    - assert (C z) as Hz' by (eapply (cf_closed _ _ HC); [done | by apply thread_le_causal]).
      rewrite (cf_thread _ _ HC a z qa) by done. by eapply rtc_r. }
  destruct (IH qx qy eqx eqy) as [Hle|Hle]; [lia | done..| congruence | left | right];
    by eapply Hup.
Qed.

Lemma same_thread_le x y ex ey :
  C x → C y → h !! x = Some ex → h !! y = Some ey → ev_tid ex = ev_tid ey →
  dep h x ≤ dep h y → thread_le h x y.
Proof.
  intros Hx Hy Hex Hey Ht Hd.
  destruct (thread_chain (S (dep h x + dep h y)) x y ex ey) as [Hle|Hle]; try done; [lia|].
  pose proof (thread_le_causal _ _ Hle) as [->|Hlt]%causal_le_alt; [done|].
  apply causal_lt_dep in Hlt; [lia | done].
Qed.

Lemma root_below n y ey :
  dep h y < n → h !! y = Some ey →
  ∃ r er, h !! r = Some er ∧ ev_kind er = program_init ∧ causal_le h r y.
Proof.
  revert y ey. induction n as [|n IH]; intros y ey Hn Hy; [lia|].
  pose proof (Hwf _ _ Hy) as Hw.
  destruct (wf_depth_tight _ _ Hw) as [[Hk _]|(q & Hq & Hd)]; [by exists y, ey|].
  destruct (wf_preds _ _ Hw q Hq) as [eq Heq].
  assert (imm h q y) as Hi by (by exists ey).
  pose proof (imm_dep h q y Hwf Hi).
  destruct (IH q eq) as (r & er & Hr & Hk & Hle); [lia | done |].
  exists r, er. split_and!; [done..|]. by eapply rtc_r.
Qed.

Lemma init_tid x ex : h !! x = Some ex → ev_tid ex = tid_root ↔ ev_kind ex = program_init.
Proof. intros Hx. apply (wf_tid _ _ (Hwf _ _ Hx)). Qed.

Lemma init_no_thread_predecessor e : ev_kind e = program_init → thread_predecessor e = None.
Proof. unfold ev_kind, thread_predecessor. by destruct (ev_data e). Qed.

Lemma root_unique x y ex ey :
  C x → C y → h !! x = Some ex → h !! y = Some ey →
  ev_kind ex = program_init → ev_kind ey = program_init → x = y.
Proof.
  intros Hx Hy Hex Hey Hkx Hky. apply (cf_init _ _ HC x y ex ey); try done.
  - by apply init_no_thread_predecessor.
  - by apply init_no_thread_predecessor.
  - by rewrite (proj2 (init_tid _ _ Hex) Hkx), (proj2 (init_tid _ _ Hey) Hky).
Qed.

Lemma root_least r er y :
  C r → C y → h !! r = Some er → ev_kind er = program_init → causal_le h r y.
Proof.
  intros Hr Hy Her Hk. destruct (cf_in _ _ HC y Hy) as [ey Hey].
  destruct (root_below (S (dep h y)) y ey) as (r' & er' & Hr' & Hk' & Hle); [lia | done |].
  assert (C r') by (by eapply (cf_closed _ _ HC)).
  by rewrite (root_unique r r' er er').
Qed.

(** A cause of [b] on [a]'s thread at least as deep as [a] puts [a] below. *)
Lemma cone_entry_above a ea b eb p :
  C a → C b → h !! a = Some ea → h !! b = Some eb →
  smap_find (ev_tid ea) (ev_cone eb) = Some p → dep h a ≤ dep h p → causal_lt h a b.
Proof.
  intros Ha Hb Hea Heb Hp Hle. pose proof (wf_cone _ _ (Hwf _ _ Heb)) as Hc.
  destruct (cone_for_sound _ _ _ Hc _ _ Hp) as [Hbel (ep & Hep & Ht & _)].
  assert (causal_lt h p b) as Hpb by (apply causal_lt_alt; eauto).
  assert (C p) as HCp by (eapply (cf_closed _ _ HC); [done|]; apply causal_le_alt; auto).
  eapply causal_le_lt_trans; [|done]. apply thread_le_causal.
  by apply (same_thread_le a p ea ep).
Qed.

Lemma is_less_than_decides a b :
  C a → C b → ∃ r, is_less_than h a b = Ok r ∧ (r = true ↔ causal_lt h a b).
Proof.
  intros Ha Hb. destruct (cf_in _ _ HC a Ha) as [ea Hea]. destruct (cf_in _ _ HC b Hb) as [eb Heb].
  rewrite (is_less_than_ok h a b ea eb) by done. unfold ev_less.
  pose proof (dep_lookup _ _ _ Hea) as Hda. pose proof (dep_lookup _ _ _ Heb) as Hdb.
  destruct (tid_eqb (ev_tid eb) (ev_tid ea)) eqn:Ht.
  { apply tid_eqb_spec in Ht. eexists. split; [done|]. rewrite Nat.ltb_lt, <-Hda, <-Hdb. split.
    - intros Hlt. assert (causal_le h a b) as [->|?]%causal_le_alt; [|lia | done].
      apply thread_le_causal, (same_thread_le a b ea eb); try done. lia.
    - by apply causal_lt_dep. }
  pose proof (wf_cone _ _ (Hwf _ _ Heb)) as [_ Hsd Hcp]. unfold is_less_than_cone.
  destruct (smap_find (ev_tid ea) (ev_cone eb)) as [p|] eqn:Hp.
  - destruct (Hsd _ _ Hp) as [_ (ep & Hep & Htp & Hkp)]. unfold deref. rewrite Hep. simpl.
    eexists. split; [done|]. rewrite orb_true_iff, Nat.ltb_lt, Nat.eqb_eq, <-Hda,
      <-(dep_lookup _ _ _ Hep). split.
    + intros Hle. eapply (cone_entry_above a ea b eb p); try done. lia.
    + intros (eb' & ? & Hbel)%causal_lt_alt. simplify_eq.
      destruct (Hcp a Hbel ea Hea) as (p' & Hp' & Hle); [|simplify_eq; lia].
      rewrite <-(init_tid _ _ Hea), <-Htp. by rewrite (init_tid _ _ Hep).
  - eexists. split; [done|]. rewrite kind_eqb_eq. split.
    + intros Hk. assert (causal_le h a b) as [->|?]%causal_le_alt; [|simplify_eq| done].
      * by eapply root_least.
      * apply not_true_iff_false in Ht. by rewrite tid_eqb_spec in Ht.
    + intros (eb' & ? & Hbel)%causal_lt_alt. simplify_eq.
      destruct (decide (ev_kind ea = program_init)) as [|Hk]; [done|].
      destruct (Hcp a Hbel ea Hea Hk) as (p' & Hp' & _). congruence.
Qed.

(** The test as a pure function, for the generic scans. *)
Definition lt_of (x y : eid) : bool :=
  match is_less_than h x y with Ok b => b | Err _ => false end.

Lemma lt_of_ok x y : C x → C y → is_less_than h x y = Ok (lt_of x y).
Proof.
  intros Hx Hy. unfold lt_of. by destruct (is_less_than_decides x y Hx Hy) as (r & -> & _).
Qed.

Lemma lt_of_true x y : C x → C y → lt_of x y = true ↔ causal_lt h x y.
Proof.
  intros Hx Hy. unfold lt_of. destruct (is_less_than_decides x y Hx Hy) as (r & -> & Hr). done.
Qed.

Lemma lt_of_false x y : C x → C y → lt_of x y = false ↔ ¬ causal_lt h x y.
Proof. intros Hx Hy. rewrite <-not_true_iff_false, lt_of_true by done. done. Qed.

Lemma lt_of_irrefl x : C x → lt_of x x = false.
Proof. intros Hx. apply lt_of_false; [done..|]. by apply causal_lt_irrefl. Qed.

Lemma lt_of_trans x y z :
  C x → C y → C z → lt_of x y = true → lt_of y z = true → lt_of x z = true.
Proof. intros Hx Hy Hz. rewrite !lt_of_true by done. apply causal_lt_trans. Qed.

(** ** Maximal events of a cone *)

Lemma cone_vals_nodup c (P : eid → Prop) : cone_for h c P → NoDup (smap_vals c).
Proof.
  intros [Hs Hsd _]. unfold smap_vals. apply NoDup_fmap_2_strong.
  - intros [t p] [t' p'] Hin Hin' Heq. simpl in Heq. subst p'. f_equal.
    apply smap_elem_find in Hin, Hin'; [|done..].
    destruct (Hsd _ _ Hin) as [_ (e & He & Ht & _)].
    destruct (Hsd _ _ Hin') as [_ (e' & He' & Ht' & _)]. congruence.
  - apply (NoDup_fmap_1 fst). by apply smap_sorted_nodup.
Qed.

Lemma cone_vals_elem c (P : eid → Prop) p :
  cone_for h c P → p ∈ smap_vals c ↔ ∃ t, smap_find t c = Some p.
Proof.
  intros [Hs _ _]. unfold smap_vals. rewrite list_elem_of_fmap. split.
  - intros ([t p'] & -> & Hin). exists t. by apply smap_elem_find.
  - intros (t & Hf). exists (t, p). split; [done | by apply smap_elem_find].
Qed.

(** Every event of the set is below the cone's entry for its thread. *)
Lemma cone_for_above c (P : eid → Prop) x ex :
  cone_for h c P → (∀ x, P x → C x) → P x → h !! x = Some ex → ev_kind ex ≠ program_init →
  ∃ p, smap_find (ev_tid ex) c = Some p ∧ thread_le h x p.
Proof.
  intros [Hs Hsd Hcp] HPC Hx Hex Hk. destruct (Hcp x Hx ex Hex Hk) as (p & Hp & Hle).
  destruct (Hsd _ _ Hp) as [HPp (ep & Hep & Ht & _)]. exists p. split; [done|].
  apply (same_thread_le x p ex ep); auto.
Qed.

Lemma cone_max_spec c (P : eid → Prop) :
  cone_for h c P → (∀ x, P x → C x) →
  ∃ r, cone_max h c = Ok r ∧ NoDup r ∧
    ∀ x, x ∈ r ↔ P x ∧ at_event h x (λ e, ev_kind e ≠ program_init) ∧
      ∀ y, P y → ¬ causal_lt h x y.
Proof.
  intros Hc HPC. pose proof (cone_vals_nodup c P Hc) as Hnd.
  assert (∀ x, x ∈ smap_vals c → P x ∧ at_event h x (λ e, ev_kind e ≠ program_init)) as Hin.
  { intros x (t & Hf)%(cone_vals_elem c P); [|done].
    destruct (cone_for_sound _ _ _ Hc _ _ Hf) as [? (e & ? & ? & ?)]. split; [done | by exists e]. }
  assert (∀ x, x ∈ smap_vals c → C x) as HinC by (intros x Hx; by apply HPC, Hin).
  destruct (extremal_spec (is_less_than h) lt_of (smap_vals c)) as (r & Hr & Hndr & Hx);
    [auto using lt_of_ok | auto using lt_of_irrefl | eauto using lt_of_trans | done |].
  exists r. split_and!; [done..|]. intros x. rewrite Hx. unfold extremal_in. split.
  - intros [Hv Hmax]. destruct (Hin x Hv) as [HPx Hat]. split_and!; [done..|].
    intros y Hy Hxy. destruct (cf_in _ _ HC y (HPC y Hy)) as [ey Hey].
    assert (ev_kind ey ≠ program_init) as Hk.
    { intros Hk. assert (x = y) as ->; [|by eapply causal_lt_irrefl].
      eapply program_init_causes; [done | done | done|]. apply causal_le_alt. by right. }
    destruct (cone_for_above c P y ey) as (p & Hp & Hyp); [done..|].
    assert (p ∈ smap_vals c) as Hpv by (apply (cone_vals_elem c P); eauto).
    specialize (Hmax p Hpv). apply lt_of_false in Hmax; [|by auto..]. apply Hmax.
    apply thread_le_causal, causal_le_alt in Hyp as [->|Hyp]; [done|].
    by eapply causal_lt_trans.
  - intros (HPx & (ex & Hex & Hk) & Hmax).
    destruct (cone_for_above c P x ex) as (p & Hp & Hxp); [done..|].
    assert (p ∈ smap_vals c) as Hpv by (apply (cone_vals_elem c P); eauto).
    apply thread_le_causal, causal_le_alt in Hxp as [->|Hxp];
      [|by apply Hmax in Hxp; [|apply Hin]].
    split; [done|]. intros y Hy. apply lt_of_false; [auto..|]. apply Hmax. by apply Hin.
Qed.

(** ** Immediate predecessors *)

Definition immediate_cause (x p : eid) : Prop :=
  causal_lt h x p ∧ ∀ y, causal_lt h x y → ¬ causal_lt h y p.

Lemma immediate_cause_pred x p e :
  h !! p = Some e →
  immediate_cause x p ↔ x ∈ predecessors e ∧ ∀ q, q ∈ predecessors e → ¬ causal_lt h x q.
Proof.
  intros Hp. unfold immediate_cause.
  assert (∀ q, q ∈ predecessors e → causal_lt h q p) as Hq.
  { intros q Hq. apply causal_lt_alt. exists e. split; [done|]. exists q. by split. }
  split.
  - intros [(e' & ? & q & Hqe & Hle)%causal_lt_alt Hmax]. simplify_eq.
    apply causal_le_alt in Hle as [->|Hlt]; [|by destruct (Hmax q Hlt); apply Hq].
    split; [done|]. intros q' Hq' Hlt. apply (Hmax q'); [done | auto].
  - intros [Hin Hmax]. split; [auto|]. intros y Hxy (e' & ? & q & Hqe & Hle)%causal_lt_alt.
    simplify_eq. apply (Hmax q Hqe). apply causal_le_alt in Hle as [->|]; [done|].
    by eapply causal_lt_trans.
Qed.

Lemma pred_C p e q : C p → h !! p = Some e → q ∈ predecessors e → C q.
Proof.
  intros Hp He Hq. eapply (cf_closed _ _ HC); [done|]. apply rtc_once. by exists e.
Qed.

(** Two candidates, as [two_immediate] and its variants compare them. *)
Lemma max_of_two (a b x : eid) :
  C a → C b → a ≠ b → ¬ causal_lt h b a →
  (x ∈ (if lt_of a b then [b] else [a; b])) ↔
    (x = a ∨ x = b) ∧ ¬ causal_lt h x a ∧ ¬ causal_lt h x b.
Proof.
  intros Ha Hb Hne Hba. pose proof (causal_lt_irrefl h a Hwf).
  pose proof (causal_lt_irrefl h b Hwf).
  destruct (lt_of a b) eqn:E; [rewrite lt_of_true in E by done | rewrite lt_of_false in E by done];
    rewrite !elem_of_cons, elem_of_nil; naive_solver.
Qed.

Lemma two_immediate_spec tp lp p e :
  C p → h !! p = Some e → (∀ q, q ∈ predecessors e ↔ q = tp ∨ q = lp) →
  ∃ l, two_immediate h tp lp = Ok l ∧ ∀ x, x ∈ l ↔ immediate_cause x p.
Proof.
  intros Hp He Hpr. assert (C tp) as Ct by (apply (pred_C p e); [done..|]; apply Hpr; auto).
  assert (C lp) as Cl by (apply (pred_C p e); [done..|]; apply Hpr; auto).
  setoid_rewrite (immediate_cause_pred _ p e He). setoid_rewrite Hpr.
  unfold two_immediate, is_less_than_eq. pose proof (causal_lt_irrefl h tp Hwf).
  pose proof (causal_lt_irrefl h lp Hwf).
  case_bool_decide as Heq; simpl.
  { subst. eexists. split; [done|]. setoid_rewrite list_elem_of_singleton. naive_solver. }
  rewrite (lt_of_ok tp lp) by done. simpl. destruct (lt_of tp lp) eqn:E1.
  { rewrite lt_of_true in E1 by done. eexists. split; [done|]. intros x.
    rewrite list_elem_of_singleton. split; [|naive_solver].
    intros ->. split; [auto|]. intros q [->| ->]; [|done]. intros Hlt.
    by eapply (causal_lt_irrefl h tp Hwf), causal_lt_trans. }
  rewrite lt_of_false in E1 by done. rewrite (lt_of_ok lp tp) by done. simpl.
  destruct (lt_of lp tp) eqn:E2; eexists; (split; [done|]); intros x;
    [rewrite lt_of_true in E2 by done | rewrite lt_of_false in E2 by done];
    rewrite ?elem_of_cons, elem_of_nil; naive_solver.
Qed.
End chain.
End order.
