(* ===== verification/Walks.v ===== *)
(** * Immediate predecessors, local configurations and cone differences

    Specifications, on a conflict-free set, of the operations that walk the
    event structure: [immediate_predecessors] of every event class, the
    iteration over [local_configuration] and [causes], and [cone::setminus]. *)

From stdpp Require Import base tactics list gmap numbers relations sorting.
From S2P Require Import Prelude StdMap ThreadId Event Comb CombEnum CombProofs Cone Alloc Causality.
From S2P Require Import Order.

Section walks.
Context {PL : Payload}.
Context (h : heap) (C : eid → Prop).
Hypothesis Hwf : wf_heap h.
Hypothesis HC : conflict_free h C.
Implicit Types (e : event).

Abbreviation lt := (lt_of h).

(** ** Immediate predecessors *)

Lemma single_immediate p e q :
  h !! p = Some e → predecessors e = [q] → ∀ x, x ∈ [q] ↔ immediate_cause h x p.
Proof.
  intros He Hpr x. rewrite (immediate_cause_pred h x p e He), Hpr.
  setoid_rewrite list_elem_of_singleton. pose proof (causal_lt_irrefl h q Hwf). naive_solver.
Qed.

Lemma below_lt p e x : h !! p = Some e → below h x e ↔ causal_lt h x p.
Proof. intros He. rewrite causal_lt_alt. split; [eauto | intros (? & ? & ?); by simplify_eq]. Qed.

(** For an event with a same-thread predecessor the maximal events of the
    cone are the immediate causes. *)
Lemma from_cone_spec p e tp :
  C p → h !! p = Some e → thread_predecessor e = Some tp →
  ∃ l, immediate_predecessors_from_cone h e = Ok l ∧ ∀ x, x ∈ l ↔ immediate_cause h x p.
Proof.
  intros Hp He Htp. unfold immediate_predecessors_from_cone.
  assert (kind_eqb (ev_kind e) thread_init = false) as ->.
  { apply kind_eqb_ne. unfold ev_kind, thread_predecessor in *. by destruct (ev_data e). }
  simpl. pose proof (wf_cone _ _ (Hwf _ _ He)) as Hc.
  assert (∀ x, below h x e → C x) as HPC.
  { intros x Hx%(below_lt p). 2: done. eapply (cf_closed _ _ HC); [done|].
    apply causal_le_alt. by right. }
  destruct (cone_max_spec h C Hwf HC _ _ Hc HPC) as (r & -> & _ & Hr).
  exists r. split; [done|]. intros x. rewrite Hr. unfold immediate_cause.
  setoid_rewrite (below_lt p e _ He). split; [naive_solver|].
  intros [Hlt Hmax]. split_and!; [done | | naive_solver].
  assert (C x) as Cx by (by apply HPC, (below_lt p)).
  destruct (cf_in _ _ HC x Cx) as [ex Hex]. exists ex. split; [done|]. intros Hk.
  destruct (wf_thread_pred _ _ (Hwf _ _ He) tp Htp) as (et & Het & _ & Hkt & _).
  assert (causal_lt h tp p) as Htpp.
  { apply (below_lt p e); [done|]. exists tp. split; [by apply thread_predecessor_pred | done]. }
  assert (causal_le h x tp) as [->|Hxt]%causal_le_alt.
  { apply (root_least h C Hwf HC x ex tp); try done. apply (cf_closed _ _ HC tp p); [done|].
    apply causal_le_alt. by right. }
  - congruence.
  - by apply (Hmax tp).
Qed.

(** Comparing [a] with [b] and dropping [a] when it is below. *)
Lemma drop_lower p e a b :
  C p → h !! p = Some e → (∀ q, q ∈ predecessors e ↔ q = a ∨ q = b) →
  a ≠ b → ¬ causal_lt h b a →
  ∀ x, x ∈ (if lt a b then [b] else [a; b]) ↔ immediate_cause h x p.
Proof.
  intros Hp He Hpr Hne Hba x. rewrite (immediate_cause_pred h x p e He).
  rewrite (max_of_two h C Hwf HC a b x); [setoid_rewrite Hpr; naive_solver | | | done | done];
    apply (pred_C h C HC p e); try done; apply Hpr; auto.
Qed.

(** Comparing in both directions, as [wait2] and [signal] do. *)
Lemma either_lower p e a b l3 :
  C p → h !! p = Some e → (∀ q, q ∈ predecessors e → q = a ∨ q = b ∨ causal_lt h q a) →
  a ∈ predecessors e → b ∈ predecessors e → (∀ x, x ∈ l3 ↔ x = a ∨ x = b) →
  ∃ l, (b1 ← is_less_than h a b;
        if (b1 : bool) then Ok [b]
        else b2 ← is_less_than h b a; Ok (if (b2 : bool) then [a] else l3)) = Ok l ∧
    ∀ x, x ∈ l ↔ immediate_cause h x p.
Proof.
  intros Hp He Hpr Ha Hb Hl3.
  assert (C a) as Ca by (by apply (pred_C h C HC p e)).
  assert (C b) as Cb by (by apply (pred_C h C HC p e)).
  rewrite (lt_of_ok h C Hwf HC a b), (lt_of_ok h C Hwf HC b a) by done. simpl.
  setoid_rewrite (immediate_cause_pred h _ p e He).
  pose proof (causal_lt_irrefl h a Hwf) as Ia. pose proof (causal_lt_irrefl h b Hwf) as Ib.
  pose proof (causal_lt_trans h) as Tr.
  destruct (lt_of h a b) eqn:E1;
    [rewrite (lt_of_true h C Hwf HC) in E1 by done | rewrite (lt_of_false h C Hwf HC) in E1 by done].
  { eexists. split; [done|]. intros x. rewrite list_elem_of_singleton. split.
    - intros ->. split; [done|]. intros q Hq Hlt. destruct (Hpr q Hq) as [->|[->|Hqa]];
        [by apply Ia, (Tr _ b) | done | by apply Ia, (Tr _ b), (Tr _ q)].
    - intros [Hx Hm]. destruct (Hpr x Hx) as [->|[->|Hxa]];
        [by destruct (Hm b Hb) | done | by destruct (Hm a Ha)]. }
  destruct (lt_of h b a) eqn:E2; eexists; (split; [done|]); intros x;
    [rewrite (lt_of_true h C Hwf HC) in E2 by done | rewrite (lt_of_false h C Hwf HC) in E2 by done];
    rewrite ?Hl3, ?elem_of_cons, ?elem_of_nil; split.
  - intros [->|[]]. split; [done|]. intros q Hq Hlt.
    destruct (Hpr q Hq) as [->|[->|Hqa]]; [done | done | by apply Ia, (Tr _ q)].
  - intros [Hx Hm]. destruct (Hpr x Hx) as [->|[->|Hxa]];
      [auto | by destruct (Hm a Ha) | by destruct (Hm a Ha)].
  - intros [->| ->]; (split; [done|]); intros q Hq Hlt;
      destruct (Hpr q Hq) as [->|[->|Hqa]]; try done;
      [by apply Ia, (Tr _ q) | by apply E2, (Tr _ q)].
  - intros [Hx Hm]. destruct (Hpr x Hx) as [->|[->|Hxa]];
      [auto | auto | by destruct (Hm a Ha)].
Qed.

(** The class-by-class accessor agrees with the causal order. A joined
    thread's exit must not be a cause of the joining thread already. *)
Lemma immediate_predecessors_spec p e :
  C p → h !! p = Some e → (∀ tp j, ev_data e = ThreadJoin tp j → ¬ causal_lt h j tp) →
  ∃ l, immediate_predecessors h e = Ok l ∧ ∀ x, x ∈ l ↔ immediate_cause h x p.
Proof.
  intros Hp He Hjoin. pose proof (Hwf _ _ He) as Hw. pose proof (wf_class _ _ Hw) as Hcl.
  pose proof (wf_preds _ _ Hw) as Hpreds.
  assert (∀ q, q ∈ predecessors e → C q) as HCq by (intros; by apply (pred_C h C HC p e)).
  assert (∀ tp, thread_predecessor e = Some tp → ∃ l, immediate_predecessors_from_cone h e =
    Ok l ∧ ∀ x, x ∈ l ↔ immediate_cause h x p) as Hfrom by (intros; by eapply from_cone_spec).
  assert (∀ q, predecessors e = [q] → ∃ l, Ok (predecessors e) = Ok l ∧
    ∀ x, x ∈ l ↔ immediate_cause h x p) as Hone.
  { intros q Hq. exists [q]. split; [by rewrite Hq | by apply (single_immediate p e)]. }
  unfold immediate_predecessors, class_ok, signal_is_lost in *.
  unfold thread_predecessor, predecessors in *.
  destruct (ev_data e) as
    [tp| |tp|tp j|c|tp|tp|tp [l|] lid|tp [l|] lid k|tp l lid a|tp|tp cps|tp l cps
    |tp np l cid lid k|tp cps cid|tp cps] eqn:Hd; simpl in *;
    try (by eapply Hone); try (by eapply Hfrom).
  - exists []. split; [done|].
    intros x. rewrite (immediate_cause_pred h x p e He). unfold predecessors. rewrite Hd. simpl.
    split; [by intros ?%elem_of_nil | by intros [?%elem_of_nil _]].
  - destruct Hcl as (ej & Hej & _ & Hne).
    rewrite (lt_of_ok h C Hwf HC) by (apply HCq; set_solver). simpl.
    eexists. split; [done|]. apply (drop_lower p e); try done; [|intros ->|by eapply Hjoin].
    + unfold predecessors. rewrite Hd. set_solver.
    + destruct (wf_thread_pred _ _ Hw j) as (x & Hx & Ht & _);
        [unfold thread_predecessor; by rewrite Hd|]. by simplify_eq.
  - apply (two_immediate_spec h C Hwf HC _ _ p e); try done.
    intros q. unfold predecessors. rewrite Hd. simpl. rewrite two_predecessors_elem. naive_solver.
  - apply (two_immediate_spec h C Hwf HC _ _ p e); try done.
    intros q. unfold predecessors. rewrite Hd. simpl. rewrite two_predecessors_elem. naive_solver.
  - apply (two_immediate_spec h C Hwf HC _ _ p e); try done.
    intros q. unfold predecessors. rewrite Hd. simpl. rewrite two_predecessors_elem. naive_solver.
  - destruct Hcl as (_ & (en & Hen & _ & _ & Hin) & _).
    apply either_lower with (e := e); try done; unfold predecessors; rewrite ?Hd; simpl;
      [|set_solver..]. intros q. rewrite !elem_of_cons, elem_of_nil.
    intros [->|[->|[->|[]]]]; auto. right. right. apply (below_lt np en); [done|].
    exists tp. split; [|done]. by apply condition_variable_predecessors_pred.
  - unfold cps_lost. destruct cps as [|w [|w' cps]]; simpl; [by eapply Hfrom| |by eapply Hfrom].
    destruct (Hpreds w) as [ew Hew]; [set_solver|]. unfold deref. rewrite Hew. simpl.
    destruct (kind_eqb (ev_kind ew) wait1); simpl; [|by eapply Hfrom].
    apply either_lower with (e := e); try done; unfold predecessors; rewrite ?Hd; set_solver.
Qed.

(** ** Walking one thread down *)

Lemma tpred_exists p e q :
  h !! p = Some e → thread_predecessor e = Some q → is_Some (h !! q) ∧ dep h q < dep h p.
Proof.
  intros He Hq. assert (tpred h q p) as Ht by (by exists e). split.
  - apply (wf_preds _ _ (Hwf _ _ He)), (thread_predecessor_pred _ _ Hq).
  - by apply imm_dep, tpred_imm.
Qed.

Lemma thread_le_cons p e x :
  h !! p = Some e →
  thread_le h x p ↔ x = p ∨ ∃ q, thread_predecessor e = Some q ∧ thread_le h x q.
Proof.
  intros He. split.
  - intros [->|(q & (e' & ? & Hq) & Hle)]%thread_le_inv; [by left|]. simplify_eq. eauto.
  - intros [->|(q & Hq & Hle)]; [reflexivity|]. eapply rtc_r; [done|]. by exists e.
Qed.

Lemma thread_le_dep x p : thread_le h x p → dep h x ≤ dep h p.
Proof. intros. by apply causal_le_dep, thread_le_causal. Qed.

Lemma thread_le_tid x p e : h !! p = Some e → thread_le h x p → at_event h x (λ ex, ev_tid ex = ev_tid e).
Proof.
  intros He Hle. revert e He. unfold thread_le in Hle.
  induction Hle as [x|x y p Hxy Hyp IH]; intros e He; [by exists e|].
  destruct (IH e He) as (ey & Hey & Ht). destruct Hxy as (ey' & Hey' & Hx). rewrite Hey in Hey'. injection Hey' as <-.
  destruct (wf_thread_pred _ _ (Hwf _ _ Hey) x Hx) as (ex & Hex & Htx & _).
  exists ex. split; [done | congruence].
Qed.

Lemma thread_walk_spec fuel p e :
  dep h p < fuel → h !! p = Some e →
  ∃ l z ez, thread_walk h fuel p = Ok l ∧ NoDup l ∧ (∀ x, x ∈ l ↔ thread_le h x p) ∧
    list.last l = Some z ∧ h !! z = Some ez ∧ thread_predecessor ez = None ∧ thread_le h z p.
Proof.
  revert p e. induction fuel as [|fuel IH]; intros p e Hd He; [lia|]. simpl.
  unfold deref. rewrite He. simpl. destruct (thread_predecessor e) as [q|] eqn:Hq.
  - destruct (tpred_exists p e q He Hq) as [[eq Heq] Hlt].
    destruct (IH q eq) as (l & z & ez & -> & Hnd & Hl & Hz & Hez & Hn & Hzq); [lia | done |].
    simpl. exists (p :: l), z, ez. split_and!; try done.
    + constructor; [|done]. intros Hin%Hl%thread_le_dep. lia.
    + intros x. rewrite elem_of_cons, Hl, (thread_le_cons p e x He). naive_solver.
    + by destruct l.
    + apply (thread_le_cons p e z He). eauto.
  - exists [p], p, e. split_and!; try done; [apply NoDup_singleton|].
    intros x. rewrite list_elem_of_singleton, (thread_le_cons p e x He). naive_solver.
Qed.

(** Threads with distinct heads walked one after the other. *)
Definition distinct_heads (ps : list eid) : Prop :=
  NoDup ps ∧ ∀ p p' e e', p ∈ ps → p' ∈ ps → h !! p = Some e → h !! p' = Some e' →
    ev_tid e = ev_tid e' → p = p'.

Lemma cone_walk_spec ps :
  (∀ p, p ∈ ps → is_Some (h !! p)) → distinct_heads ps →
  ∃ l, cone_walk h ps = Ok l ∧ NoDup l ∧ (∀ x, x ∈ l ↔ ∃ p, p ∈ ps ∧ thread_le h x p) ∧
    match list.last ps with
    | None => l = []
    | Some p => ∃ z ez, list.last l = Some z ∧ h !! z = Some ez ∧
        thread_predecessor ez = None ∧ thread_le h z p
    end.
Proof.
  induction ps as [|p ps IH]; intros Hin [Hnd Hdis].
  { exists []. split_and!; [done | constructor | | done]. intros x. setoid_rewrite elem_of_nil.
    naive_solver. }
  apply NoDup_cons in Hnd as [Hp Hnd]. destruct (Hin p) as [e He]; [by left|].
  cbn [cone_walk]. rewrite (proj2 (deref_ok h p e) He), bind_Ok_l, <-(dep_lookup _ _ _ He).
  destruct (thread_walk_spec (S (dep h p)) p e) as (l1 & z1 & ez1 & -> & Hn1 & Hl1 & Hz1); [lia | done|].
  rewrite bind_Ok_l. destruct IH as (l2 & -> & Hn2 & Hl2 & Hz2).
  { intros; apply Hin; by right. }
  { split; [done|]. intros; eapply Hdis; try done; by right. }
  simpl. exists (l1 ++ l2). split_and!; [done | | |].
  - apply NoDup_app. split_and!; [done | | done]. intros x Hx1%Hl1 (p' & Hp' & Hx2)%Hl2.
    destruct (Hin p') as [e' He']; [by right|].
    destruct (thread_le_tid x p e He Hx1) as (ex & Hex & Ht).
    destruct (thread_le_tid x p' e' He' Hx2) as (ex' & Hex' & Ht'). simplify_eq.
    assert (p = p') as -> by (apply (Hdis p p' e e'); [by left | by right | done | done | congruence]). done.
  - intros x. rewrite elem_of_app, Hl1, Hl2. setoid_rewrite elem_of_cons. naive_solver.
  - destruct ps as [|p2 ps].
    + simpl in *. subst l2. rewrite app_nil_r. eauto.
    + change (list.last (p :: p2 :: ps)) with (list.last (p2 :: ps)). 
      destruct (list.last (p2 :: ps)) as [q|] eqn:Hlast; [|by apply last_None in Hlast].
      destruct Hz2 as (z & ez & Hz & Hrest). exists z, ez. split; [|done].
      rewrite last_app, Hz. done.
Qed.

(** ** Local configurations *)

(** A thread is created by a thread with a smaller id (a child id extends
    the id of its creator). *)
Definition creators_first : Prop := ∀ x c ex ec,
  C x → h !! x = Some ex → ev_data ex = ThreadInit c → h !! c = Some ec →
  ev_kind ec = thread_create → tid_lt (ev_tid ec) (ev_tid ex) = true.

Lemma cone_heads_distinct c (P : eid → Prop) :
  cone_for h c P →
  (∀ p, p ∈ rev (smap_vals c) → is_Some (h !! p)) ∧ distinct_heads (rev (smap_vals c)).
Proof.
  intros Hc. assert (∀ p, p ∈ rev (smap_vals c) → ∃ t, smap_find t c = Some p ∧ is_event h t p) as Hin.
  { intros p Hp. rewrite list_elem_of_In, <-in_rev, <-list_elem_of_In in Hp.
    apply (cone_vals_elem h c P p Hc) in Hp as (t & Hf). exists t. split; [done|].
    by apply (cone_for_sound _ _ _ Hc). }
  split; [intros p Hp; destruct (Hin p Hp) as (t & _ & e & He & _); eauto|]. split.
  - rewrite Permutation_rev. rewrite rev_involutive. by eapply cone_vals_nodup.
  - intros p p' e e' (t & Hf & x & Hx & Ht & _)%Hin (t' & Hf' & x' & Hx' & Ht' & _)%Hin He He' Heq.
    simplify_eq. congruence.
Qed.

Lemma causes_walk p e :
  C p → h !! p = Some e →
  ∃ l, cone_walk h (rev (smap_vals (ev_cone e))) = Ok l ∧ NoDup l ∧
    (∀ x, x ∈ l ↔ causal_lt h x p ∧ at_event h x (λ ex, ev_kind ex ≠ program_init)) ∧
    match ev_cone e with
    | [] => l = []
    | (_, q) :: _ => ∃ z ez, list.last l = Some z ∧ h !! z = Some ez ∧
        thread_predecessor ez = None ∧ thread_le h z q
    end.
Proof.
  intros Hp He. pose proof (wf_cone _ _ (Hwf _ _ He)) as Hc.
  destruct (cone_heads_distinct _ _ Hc) as [Hin Hdis].
  destruct (cone_walk_spec _ Hin Hdis) as (l & Hl & Hnd & Hx & Hlast).
  exists l. split_and!; [done | done | |].
  - intros x. rewrite Hx. setoid_rewrite list_elem_of_In. setoid_rewrite <-in_rev.
    setoid_rewrite <-list_elem_of_In. split.
    + intros (q & (t & Hf)%(cone_vals_elem h _ _ _ Hc) & Hle).
      destruct (cone_for_sound _ _ _ Hc _ _ Hf) as [Hb (eq & Heq & Ht & Hk)].
      apply (below_lt p e) in Hb; [|done]. split.
      * eapply causal_le_lt_trans; [by apply thread_le_causal | done].
      * destruct (thread_le_tid x q eq Heq Hle) as (ex & Hex & Htx). exists ex. split; [done|].
        rewrite <-(init_tid h Hwf _ _ Hex), Htx. by rewrite (init_tid h Hwf _ _ Heq).
    + intros [Hlt (ex & Hex & Hk)].
      destruct (cone_for_above h C Hwf HC _ _ x ex Hc) as (q & Hf & Hle);
        [| by apply (below_lt p e) | done | done |].
      * intros y Hy%(below_lt p e); [|done]. eapply (cf_closed _ _ HC); [done|].
        apply causal_le_alt. by right.
      * exists q. split; [|done]. apply (cone_vals_elem h _ _ _ Hc). eauto.
  - destruct (ev_cone e) as [|[t q] c]; [done|]. simpl in Hlast.
    by rewrite last_snoc in Hlast.
Qed.

(** The walk ends at the initial event of a thread that [program_init]
    created, since the cone's first thread has the smallest id. *)
Lemma walk_ends_at_root p e t q c z ez :
  creators_first → C p → h !! p = Some e → ev_cone e = (t, q) :: c →
  h !! z = Some ez → thread_predecessor ez = None → thread_le h z q →
  ∃ r, list.head (predecessors ez) = Some r ∧ causal_lt h r p ∧
    at_event h r (λ er, ev_kind er = program_init).
Proof.
  intros Hcr Hp He Hcone Hez Hn Hle. pose proof (wf_cone _ _ (Hwf _ _ He)) as Hc.
  assert (smap_find t (ev_cone e) = Some q) as Hf.
  { apply smap_elem_find; [by apply (cone_for_sorted _ _ _ Hc)|]. rewrite Hcone. by left. }
  destruct (cone_for_sound _ _ _ Hc _ _ Hf) as [Hb (eq & Heq & Ht & Hk)].
  apply (below_lt p e) in Hb; [|done].
  assert (causal_lt h z p) as Hzp by (eapply causal_le_lt_trans; [by apply thread_le_causal | done]).
  assert (C z) as Cz by (eapply (cf_closed _ _ HC); [apply Hp|]; apply causal_le_alt; by right).
  destruct (thread_le_tid z q eq Heq Hle) as (ez0 & Hez0 & Htz).
  assert (ez0 = ez) as -> by congruence. subst t.
  assert (ev_kind ez ≠ program_init) as Hkz.
  { rewrite <-(init_tid h Hwf _ _ Hez), Htz. by rewrite (init_tid h Hwf _ _ Heq). }
  pose proof (wf_class _ _ (Hwf _ _ Hez)) as Hcl. unfold class_ok in Hcl.
  destruct (ev_data ez) as [| | | |cr| | | | | | | | | | |] eqn:Hd;
    unfold thread_predecessor, ev_kind in Hn, Hkz; rewrite Hd in Hn, Hkz; try done.
  destruct Hcl as (ec & Hec & Hkc & _). exists cr. unfold predecessors. rewrite Hd.
  assert (causal_lt h cr p) as Hcp.
  { eapply causal_lt_trans; [|done]. apply tc_once. exists ez. split; [done|].
    unfold predecessors. rewrite Hd. by left. }
  split_and!; [done | done|]. exists ec. split; [done|].
  destruct (decide (ev_kind ec = thread_create)) as [Hkt|Hkt];
    [|unfold kind_in in Hkc; set_solver].
  pose proof (Hcr z cr ez ec Cz Hez Hd Hec Hkt) as Hlt. exfalso.
  destruct (cone_for_complete _ _ _ Hc cr) with (e := ec) as (q' & Hf' & _);
    [by apply (below_lt p e) | done | by rewrite Hkt |].
  pose proof (cone_for_sorted _ _ _ Hc) as Hs. rewrite Htz in Hlt.
  apply smap_elem_find in Hf'; [|done]. rewrite Hcone in Hf', Hs.
  apply StronglySorted_inv in Hs as [_ Hs].
  change (std_less (ev_tid ec) (ev_tid eq) = true) in Hlt.
  apply elem_of_cons in Hf' as [[= Heqt _]|Hf']; [rewrite Heqt in Hlt; by rewrite less_irrefl in Hlt|].
  rewrite List.Forall_forall in Hs. apply list_elem_of_In, Hs in Hf'. simpl in Hf'.
  apply less_asym in Hf'. congruence.
Qed.

(** An event whose cone is empty is [program_init] or follows it. *)
Lemma empty_cone p e :
  h !! p = Some e → ev_cone e = [] → ev_kind e ≠ program_init →
  ev_kind e = thread_init ∧
  ∃ r, predecessors e = [r] ∧ at_event h r (λ er, ev_kind er = program_init).
Proof.
  intros He Hcone Hk. pose proof (Hwf _ _ He) as Hw. pose proof (wf_cone _ _ Hw) as Hc.
  assert (∀ q, q ∈ predecessors e → at_event h q (λ er, ev_kind er = program_init)) as Hq.
  { intros q Hq. destruct (wf_preds _ _ Hw q Hq) as [eq Heq]. exists eq. split; [done|].
    destruct (decide (ev_kind eq = program_init)) as [|Hkq]; [done|].
    destruct (cone_for_complete _ _ _ Hc q) with (e := eq) as (r & Hr & _); [|done..|].
    - exists q. by split.
    - by rewrite Hcone in Hr. }
  destruct (thread_predecessor e) as [tp|] eqn:Htp.
  { destruct (wf_thread_pred _ _ Hw tp Htp) as (et & Het & _ & Hkt & _).
    destruct (Hq tp) as (x & Hx & Hkx); [by apply thread_predecessor_pred|]. by simplify_eq. }
  unfold thread_predecessor, predecessors, ev_kind in *.
  destruct (ev_data e) as [| | | |c| | | | | | | | | | |]; try done. simpl in *.
  split; [done|]. exists c. split; [done|]. apply Hq. by left.
Qed.

Lemma root_causes p e r :
  C p → h !! p = Some e → at_event h r (λ er, ev_kind er = program_init) → C r →
  ev_kind e ≠ program_init → ∀ x, (causal_lt h x p ∧ at_event h x (λ ex, ev_kind ex = program_init))
    ↔ x = r.
Proof.
  intros Hp He (er & Her & Hkr) Cr Hk x. split.
  - intros [Hlt (ex & Hex & Hkx)]. apply (root_unique h C Hwf HC x r ex er); try done.
    eapply (cf_closed _ _ HC); [apply Hp|]. apply causal_le_alt. by right.
  - intros ->. split; [|by exists er].
    assert (causal_le h r p) as [->|]%causal_le_alt by (by eapply (root_least h C Hwf HC)); [|done].
    congruence.
Qed.

Lemma range_root p e l0 with_root :
  creators_first → C p → h !! p = Some e →
  cone_walk h (rev (smap_vals (ev_cone e))) = Ok l0 →
  ∃ root,
    (if (if kind_eqb (ev_kind e) program_init then false else with_root) then
       match list.last l0 with
       | None =>
           _ ← cassert (kind_eqb (ev_kind e) thread_init);
           r ← first_predecessor e;
           er ← deref h r;
           _ ← cassert (kind_eqb (ev_kind er) program_init);
           Ok [r]
       | Some l => el ← deref h l; r ← first_predecessor el; Ok [r]
       end
     else Ok []) = Ok root ∧ NoDup root ∧
    ∀ x, x ∈ root ↔ with_root = true ∧ causal_lt h x p ∧
      at_event h x (λ ex, ev_kind ex = program_init).
Proof.
  intros Hcr Hp He Hl0. destruct (kind_eqb (ev_kind e) program_init) eqn:Hk.
  { apply kind_eqb_eq in Hk. exists []. split_and!; [done | constructor|]. intros x.
    split; [by intros ?%elem_of_nil | intros (_ & Hlt & _)].
    assert (x = p) as -> by (eapply program_init_causes; try done; apply causal_le_alt; by right).
    by apply causal_lt_irrefl in Hlt. }
  apply kind_eqb_ne in Hk. destruct with_root; [|exists []; split_and!; [done | constructor|];
    intros x; split; [by intros ?%elem_of_nil | by intros (? & _)]].
  enough (∃ r, match list.last l0 with
    | None => _ ← cassert (kind_eqb (ev_kind e) thread_init); r ← first_predecessor e;
        er ← deref h r; _ ← cassert (kind_eqb (ev_kind er) program_init); Ok [r]
    | Some l => el ← deref h l; r ← first_predecessor el; Ok [r] end = Ok [r] ∧
    causal_lt h r p ∧ at_event h r (λ er, ev_kind er = program_init)) as (r & Hr & Hlt & Hat).
  { exists [r]. split_and!; [done | apply NoDup_singleton|]. intros x.
    rewrite list_elem_of_singleton. assert (C r) by (eapply (cf_closed _ _ HC); [apply Hp|];
      apply causal_le_alt; by right). rewrite (root_causes p e r); naive_solver. }
  destruct (causes_walk p e Hp He) as (l1 & Hl1 & _ & _ & Hend).
  assert (l1 = l0) as -> by congruence.
  destruct (ev_cone e) as [|[t q] c] eqn:Hcone.
  - subst l0. destruct (empty_cone p e He Hcone Hk) as (Hki & r & Hpr & er & Her & Hker).
    exists r. simpl. unfold first_predecessor, deref. rewrite Hki, Hpr. simpl. rewrite Her. simpl.
    rewrite Hker. split_and!; [done | | by exists er]. apply (below_lt p e); [done|].
    exists r. rewrite Hpr. split; [by left | done].
  - destruct Hend as (z & ez & -> & Hez & Hn & Hle).
    destruct (walk_ends_at_root p e t q c z ez) as (r & Hr & Hlt & Hat); [done..|].
    exists r. unfold first_predecessor, deref. rewrite Hez. simpl. by rewrite Hr.
Qed.

Lemma event_range_spec p e with_root with_event :
  creators_first → C p → h !! p = Some e →
  ∃ l, event_range h p with_root with_event = Ok l ∧ NoDup l ∧
    ∀ x, x ∈ l ↔ (with_event = true ∧ x = p) ∨
      (causal_lt h x p ∧
        (with_root = true ∨ at_event h x (λ ex, ev_kind ex ≠ program_init))).
Proof.
  intros Hcr Hp He. unfold event_range. rewrite (proj2 (deref_ok h p e) He), bind_Ok_l.
  destruct (causes_walk p e Hp He) as (l0 & Hl0 & Hnd0 & Hx0 & _). rewrite Hl0, bind_Ok_l.
  destruct (range_root p e l0 with_root Hcr Hp He Hl0) as (root & -> & Hndr & Hxr).
  rewrite bind_Ok_l. eexists. split; [done|].
  assert (∀ x, x ∈ l0 ++ root ↔ causal_lt h x p ∧
    (with_root = true ∨ at_event h x (λ ex, ev_kind ex ≠ program_init))) as Hx.
  { intros x. rewrite elem_of_app, Hx0, Hxr. split; [naive_solver|]. intros [Hlt Hor].
    assert (C x) as Cx by (eapply (cf_closed _ _ HC); [apply Hp|]; apply causal_le_alt; by right).
    destruct (cf_in _ _ HC x Cx) as [ex Hex].
    destruct (decide (ev_kind ex = program_init)) as [Hk|Hk]; [right | left; split; [done | by exists ex]].
    destruct Hor as [|(ex' & ? & ?)]; [|congruence]. split_and!; [done..|]. by exists ex. }
  assert (NoDup (l0 ++ root)) as Hnd.
  { apply NoDup_app. split_and!; [done | | done].
    intros x (_ & ex & Hex & Hk)%Hx0 (_ & _ & ex' & Hex' & Hk')%Hxr. congruence. }
  split.
  - destruct with_event; [|done]. simpl. constructor; [|done].
    intros [Hlt _]%Hx. by apply causal_lt_irrefl in Hlt.
  - intros x. rewrite elem_of_app, Hx. destruct with_event;
      rewrite ?list_elem_of_singleton, ?elem_of_nil; naive_solver.
Qed.
End walks.

(** ** Differences of cones and the comb operations on conflict-free sets

    [cone::setminus] walks every thread of the left cone down to the right
    cone's event and collects what it passes in a comb. On a conflict-free
    set the comb holds exactly the difference of the two configurations.
    [comb::min], [comb::max] and [comb::concurrent_combinations] get their
    specifications in terms of the causal order here too. *)

Section setminus.
Context {PL : Payload}.
Context (h : heap) (C : eid → Prop).
Hypothesis Hwf : wf_heap h.
Hypothesis HC : conflict_free h C.

Lemma same_depth_eq x y t :
  C x → C y → on_thread h t x → on_thread h t y → dep h x = dep h y → x = y.
Proof.
  intros Hx Hy (ex & Hex & <-) (ey & Hey & Ht) Hd.
  assert (thread_le h x y) as Hle by (apply (same_thread_le h C Hwf HC x y ex ey); [done..|lia]).
  apply thread_le_causal, causal_le_alt in Hle as [->|Hlt]; [done|].
  apply causal_lt_dep in Hlt; [lia | done].
Qed.

Lemma comb_insert_C c p :
  comb_ok h c → (∀ x, x ∈ comb_events c → C x) → C p →
  ∃ c', comb_insert h p c = Ok c' ∧ comb_ok h c' ∧
    ∀ x, x ∈ comb_events c' ↔ x = p ∨ x ∈ comb_events c.
Proof.
  intros Hok Hin Hp. destruct (cf_in _ _ HC p Hp) as [e He].
  apply (comb_insert_spec h c p e Hok He). intros x Hx Ht Hd.
  apply (same_depth_eq x p (ev_tid e)); auto. by exists e.
Qed.

Lemma comb_of_range_spec l :
  (∀ p, p ∈ l → C p) →
  ∃ c, comb_of_range h l = Ok c ∧ comb_ok h c ∧ ∀ x, x ∈ comb_events c ↔ x ∈ l.
Proof.
  intros Hl. unfold comb_of_range.
  enough (∀ acc, comb_ok h acc → (∀ x, x ∈ comb_events acc → C x) →
    ∃ c, for_each (λ c e, comb_insert h e c) acc l = Ok c ∧ comb_ok h c ∧
      ∀ x, x ∈ comb_events c ↔ x ∈ comb_events acc ∨ x ∈ l) as Hgen.
  { destruct (Hgen []) as (c & Hc & Hok & Hx); [apply comb_ok_nil | by intros x ?%elem_of_nil|].
    exists c. split_and!; [done..|]. intros x. rewrite Hx. change (comb_events []) with (@nil eid).
    rewrite elem_of_nil. naive_solver. }
  induction l as [|p l IH]; intros acc Hok Hin; simpl.
  { exists acc. split_and!; [done..|]. intros x. rewrite elem_of_nil. naive_solver. }
  assert (C p) as Hp by (apply Hl; by left).
  destruct (comb_insert_C acc p Hok Hin Hp) as (c1 & -> & Hok1 & Hx1). simpl.
  destruct (IH (λ q Hq, Hl q (list_elem_of_further _ _ _ Hq)) c1 Hok1) as (c2 & -> & Hok2 & Hx2).
  { intros x [->|?]%Hx1; auto. }
  exists c2. split_and!; [done..|]. intros x. rewrite Hx2, Hx1, elem_of_cons. naive_solver.
Qed.

Lemma walk_insert_spec (stop : nat → bool) fuel p c :
  (∀ d d', d ≤ d' → stop d' = true → stop d = true) →
  comb_ok h c → (∀ x, x ∈ comb_events c → C x) → C p → dep h p < fuel →
  ∃ c', walk_insert h fuel stop (Some p) c = Ok c' ∧ comb_ok h c' ∧
    ∀ x, x ∈ comb_events c' ↔
      x ∈ comb_events c ∨ (thread_le h x p ∧ stop (dep h x) = false).
Proof.
  intros Hstop. revert p c. induction fuel as [|fuel IH]; intros p c Hok Hin Hp Hd; [lia|].
  destruct (cf_in _ _ HC p Hp) as [e He]. simpl. unfold deref. rewrite He. simpl.
  pose proof (dep_lookup _ _ _ He) as Hdp. destruct (stop (ev_depth e)) eqn:Hst.
  { exists c. split_and!; [done..|]. intros x. split; [by left|]. intros [?|[Hle Hs]]; [done|].
    apply (thread_le_dep h Hwf) in Hle.
    rewrite (Hstop _ (ev_depth e)) in Hs; [done | lia | done]. }
  destruct (comb_insert_C c p Hok Hin Hp) as (c1 & -> & Hok1 & Hx1). simpl.
  assert (∀ x, x ∈ comb_events c1 → C x) as Hin1 by (intros x [->|?]%Hx1; auto).
  destruct (thread_predecessor e) as [q|] eqn:Hq.
  - destruct (tpred_exists h Hwf p e q He Hq) as [_ Hlt].
    assert (C q) as Cq by (apply (tpred_C h C HC q p); [done | by exists e]).
    destruct (IH q c1 Hok1 Hin1 Cq) as (c2 & -> & Hok2 & Hx2); [lia|].
    exists c2. split_and!; [done..|]. intros x.
    rewrite Hx2, Hx1, (thread_le_cons h p e x He). rewrite <-Hdp in Hst. naive_solver.
  - destruct fuel; exists c1; (split_and!; [done..|]); intros x;
      rewrite Hx1, (thread_le_cons h p e x He); rewrite <-Hdp in Hst; naive_solver.
Qed.

Context (c rhs : cone) (P Q : eid → Prop).
Hypothesis HcP : cone_for h c P.
Hypothesis HcQ : cone_for h rhs Q.
Hypothesis HPC : ∀ x, P x → C x.
Hypothesis HQC : ∀ x, Q x → C x.
Hypothesis HQd : ∀ x y, Q y → causal_le h x y → Q x.
Hypothesis HPd : ∀ x y, P y → causal_le h x y → P x.

(** [rhs]'s entry for a thread bounds the events of [Q] on it. *)
Lemma rhs_bound t x ex :
  C x → h !! x = Some ex → ev_tid ex = t → ev_kind ex ≠ program_init →
  Q x ↔ match smap_find t rhs with Some r => dep h x ≤ dep h r | None => False end.
Proof.
  intros Cx Hex Ht Hk. split.
  - intros Qx. destruct (cone_for_complete _ _ _ HcQ x Qx ex Hex Hk) as (r & Hr & Hle).
    rewrite Ht in Hr. by rewrite Hr.
  - destruct (smap_find t rhs) as [r|] eqn:Hr; [|done]. intros Hle.
    destruct (cone_for_sound _ _ _ HcQ _ _ Hr) as [Qr (er & Her & Htr & _)].
    apply (HQd x r Qr), thread_le_causal.
    apply (same_thread_le h C Hwf HC x r ex er); auto. congruence.
Qed.

Definition setminus_step (result : comb) (te : thread_id * eid) : res comb :=
  let '(tid, event) := te in
  ee ← deref h event;
  match smap_find tid rhs with
  | None => walk_insert h (S (ev_depth ee)) (λ _, false) (Some event) result
  | Some r =>
      er ← deref h r;
      if Nat.ltb (ev_depth ee) (ev_depth er) then Ok result
      else walk_insert h (S (ev_depth ee)) (λ d, Nat.leb d (ev_depth er)) (Some event) result
  end.

Lemma setminus_step_spec acc t p :
  comb_ok h acc → (∀ x, x ∈ comb_events acc → C x) → smap_find t c = Some p →
  ∃ acc', setminus_step acc (t, p) = Ok acc' ∧ comb_ok h acc' ∧
    ∀ x, x ∈ comb_events acc' ↔ x ∈ comb_events acc ∨ (thread_le h x p ∧ ¬ Q x).
Proof.
  intros Hok Hin Hp. destruct (cone_for_sound _ _ _ HcP _ _ Hp) as [HPp (e & He & Ht & Hk)].
  pose proof (dep_lookup _ _ _ He) as Hdp.
  assert (∀ x, thread_le h x p → Q x ↔ match smap_find t rhs with
    Some r => dep h x ≤ dep h r | None => False end) as HQ.
  { intros x Hle. destruct (thread_le_tid h Hwf x p e He Hle) as (ex & Hex & Htx).
    apply (rhs_bound t x ex); [|done|congruence|].
    - by eapply HPC, HPd, thread_le_causal.
    - rewrite <-(init_tid h Hwf _ _ Hex), Htx. by rewrite (init_tid h Hwf _ _ He). }
  unfold setminus_step, deref. rewrite He. simpl. rewrite <-Hdp.
  destruct (smap_find t rhs) as [r|] eqn:Hr.
  - destruct (cone_for_sound _ _ _ HcQ _ _ Hr) as [Qr (er & Her & Htr & _)].
    rewrite Her. simpl. rewrite <-(dep_lookup _ _ _ Her).
    destruct (Nat.ltb_spec (dep h p) (dep h r)) as [Hlt|Hge].
    + exists acc. split_and!; [done..|]. intros x. split; [by left|]. intros [?|[Hle Hnq]]; [done|].
      destruct Hnq. apply HQ; [done|]. apply (thread_le_dep h Hwf) in Hle. lia.
    + destruct (walk_insert_spec (λ d, d <=? dep h r) (S (dep h p)) p acc)
        as (c' & Hc' & Hok' & Hx'); [intros d d' ?; rewrite !Nat.leb_le; lia | by auto.. | lia|].
      exists c'. split_and!; [done..|]. intros x. rewrite Hx'. rewrite Nat.leb_gt.
      split; (intros [?|[Hle Hy]]; [by left | right; split; [done|]]).
      * rewrite (HQ x Hle). lia.
      * rewrite (HQ x Hle) in Hy. lia.
  - destruct (walk_insert_spec (λ _, false) (S (dep h p)) p acc)
      as (c' & Hc' & Hok' & Hx'); [done | by auto.. | lia|].
    exists c'. split_and!; [done..|]. intros x. rewrite Hx'. naive_solver.
Qed.

Lemma setminus_steps l acc :
  (∀ t p, (t, p) ∈ l → smap_find t c = Some p) →
  comb_ok h acc → (∀ x, x ∈ comb_events acc → C x) →
  ∃ acc', for_each setminus_step acc l = Ok acc' ∧ comb_ok h acc' ∧
    ∀ x, x ∈ comb_events acc' ↔
      x ∈ comb_events acc ∨ ∃ t p, (t, p) ∈ l ∧ thread_le h x p ∧ ¬ Q x.
Proof.
  revert acc. induction l as [|[t p] l IH]; intros acc Hl Hok Hin.
  { exists acc. split_and!; [done..|]. intros x. setoid_rewrite elem_of_nil. naive_solver. }
  assert (smap_find t c = Some p) as Hp by (apply Hl; by left).
  destruct (setminus_step_spec acc t p Hok Hin Hp) as (a1 & Ha1 & Hok1 & Hx1).
  cbn [for_each]. rewrite Ha1, bind_Ok_l.
  destruct (IH a1) as (a2 & -> & Hok2 & Hx2); [intros; apply Hl; by right | done | |].
  { intros x [?|[Hle _]]%Hx1; [by auto|]. eapply (cf_closed _ _ HC); [|by apply thread_le_causal].
    by apply HPC, (cone_for_sound _ _ _ HcP t). }
  exists a2. split_and!; [done..|]. intros x. rewrite Hx2, Hx1. setoid_rewrite elem_of_cons.
  split.
  - intros [[?|?]|(t' & p' & ? & ?)]; [by left | right; by eauto | right; by eauto].
  - intros [?|(t' & p' & [[= -> ->]|Hin'] & Hle & Hnq)]; [by auto | by auto |]. right. eauto.
Qed.

Lemma setminus_spec :
  ∃ r, setminus h c rhs = Ok r ∧ comb_ok h r ∧
    ∀ x, x ∈ comb_events r ↔
      P x ∧ ¬ Q x ∧ at_event h x (λ e, ev_kind e ≠ program_init).
Proof.
  destruct (setminus_steps c []) as (r & Hr & Hok & Hx).
  { intros t p Hin. apply smap_elem_find; [by apply (cone_for_sorted _ _ _ HcP) | done]. }
  { apply comb_ok_nil. } { by intros x ?%elem_of_nil. }
  exists r. split_and!; [done..|]. intros x. rewrite Hx. split.
  - intros [?%elem_of_nil|(t & p & Hin & Hle & Hnq)]; [done|].
    apply smap_elem_find in Hin; [|by apply (cone_for_sorted _ _ _ HcP)].
    destruct (cone_for_sound _ _ _ HcP _ _ Hin) as [HPp (e & He & Ht & Hk)].
    destruct (thread_le_tid h Hwf x p e He Hle) as (ex & Hex & Htx). split_and!; [|done|].
    + by eapply HPd, thread_le_causal.
    + exists ex. split; [done|]. rewrite <-(init_tid h Hwf _ _ Hex), Htx.
      by rewrite (init_tid h Hwf _ _ He).
  - intros (HPx & Hnq & ex & Hex & Hk). right.
    destruct (cone_for_above h C Hwf HC c P x ex) as (p & Hp & Hle); [done..|].
    exists (ev_tid ex), p. split; [|done].
    apply smap_elem_find; [by apply (cone_for_sorted _ _ _ HcP) | done].
Qed.
End setminus.
