(* ===== verification/Demo.v ===== *)
(** * A concrete event structure

    Two threads that use one lock, built with the constructors of [Alloc],
    and executable checks of the hypotheses the theorems make about heaps and
    conflict-free sets. *)

From stdpp Require Import base tactics list gmap numbers relations.
From S2P Require Import Prelude StdMap ThreadId Event Comb CombEnum CombProofs Cone Alloc Causality.
From S2P Require Import AllocProofs HeapExt Order Walks.

(** Payloads without content. *)
#[export] Instance unit_payload : Payload := {|
  decision := N; fp_value := unit; fp_value_default := tt;
  fp_delta := unit; fp_delta_default := tt |}.

(** ** Deciding conflict-freedom of a finite set *)

Section check.
Context {PL : Payload}.

Definition tp_of (h : heap) (x : eid) : option eid := e ← h !! x; thread_predecessor e.

Definition conflict_free_b (h : heap) (l : list eid) : bool :=
  forallb (λ x, match h !! x with
    | None => false
    | Some e => forallb (λ q, bool_decide (q ∈ l)) (predecessors e)
    end) l &&
  forallb (λ x, forallb (λ y,
    match h !! x, h !! y with
    | Some ex, Some ey =>
        match thread_predecessor ex, thread_predecessor ey with
        | None, None => negb (tid_eqb (ev_tid ex) (ev_tid ey)) || bool_decide (x = y)
        | Some qx, Some qy => negb (bool_decide (qx = qy)) || bool_decide (x = y)
        | _, _ => true
        end
    | _, _ => true
    end) l) l.

Lemma conflict_free_b_spec (h : heap) (l : list eid) :
  conflict_free_b h l = true → conflict_free h (λ x, x ∈ l).
Proof.
  unfold conflict_free_b. rewrite andb_true_iff, !forallb_elem_of.
  setoid_rewrite forallb_elem_of. intros [Hcl Hpair]. split.
  - intros x Hx. specialize (Hcl x Hx). destruct (h !! x); [eauto | done].
  - intros x y Hy Hle. revert Hy. unfold causal_le in Hle.
    induction Hle as [|x z y (e & He & Hq) _ IH]; [done|]. intros Hy. specialize (IH Hy).
    specialize (Hcl z IH). rewrite He, forallb_elem_of in Hcl. by apply Hcl, bool_decide_eq_true in Hq.
  - intros x y ex ey Hx Hy Hex Hey Hnx Hny Ht. specialize (Hpair x Hx y Hy).
    rewrite Hex, Hey, Hnx, Hny, (proj2 (tid_eqb_spec _ _) Ht) in Hpair. simpl in Hpair.
    by apply bool_decide_eq_true in Hpair.
  - intros x y q Hx Hy (ex & Hex & Hqx) (ey & Hey & Hqy). specialize (Hpair x Hx y Hy).
    rewrite Hex, Hey, Hqx, Hqy in Hpair. rewrite (bool_decide_true (q = q)) in Hpair by done.
    simpl in Hpair. by apply bool_decide_eq_true in Hpair.
Qed.

Definition creators_first_b (h : heap) (l : list eid) : bool :=
  forallb (λ x, match h !! x with
    | Some e =>
        match ev_data e with
        | ThreadInit c =>
            match h !! c with
            | Some ec => negb (kind_eqb (ev_kind ec) thread_create) ||
                tid_lt (ev_tid ec) (ev_tid e)
            | None => true
            end
        | _ => true
        end
    | None => true
    end) l.

Lemma creators_first_b_spec (h : heap) (l : list eid) :
  creators_first_b h l = true → creators_first h (λ x, x ∈ l).
Proof.
  unfold creators_first_b. rewrite forallb_elem_of. intros Hb x c ex ec Hx Hex Hd Hec Hk.
  specialize (Hb x Hx). rewrite Hex, Hd, Hec, (proj2 (kind_eqb_eq _ _) Hk) in Hb. done.
Qed.

(** ** Building a heap with the constructors *)

Fixpoint build (h : heap) (a : eid) (steps : list (heap → res event)) : res heap :=
  match steps with
  | [] => Ok h
  | f :: steps' => e ← f h; build (<[a := e]> h) (N.succ a) steps'
  end.

Lemma build_wf steps : ∀ (h h' : heap) (a : eid),
  (∀ f h e, f ∈ steps → f h = Ok e → allocated h e) →
  (∀ x, is_Some (h !! x) → (x < a)%N) → wf_heap h → build h a steps = Ok h' → wf_heap h'.
Proof.
  induction steps as [|f steps IH]; intros h h' a Hal Hlt Hwf Hb; simpl in Hb; res_inv; [done|].
  match goal with H : f h = Ok ?x |- _ => rename H into Hf; rename x into e end.
  eapply IH; [| | |done].
  - intros g h0 e0 Hg. apply Hal. by right.
  - intros x [y Hy]. destruct (decide (x = a)) as [->|]; [lia|].
    rewrite lookup_insert_ne in Hy by done. pose proof (Hlt x (mk_is_Some _ _ Hy)). lia.
  - apply wf_heap_insert; [done | |].
    + destruct (h !! a) eqn:E; [|done]. pose proof (Hlt a (mk_is_Some _ _ E)). lia.
    + apply allocated_wf; [done|]. eapply Hal; [by left | done].
Qed.
End check.

(** ** The example *)

Definition t1 : thread_id := [1%N].
Definition t2 : thread_id := [1%N; 1%N].

Definition demo_steps : list (heap → res event) :=
  [ (λ _, Ok program_init_event);                          (* 1 *)
    (λ h, alloc_thread_init h t1 1);                       (* 2 *)
    (λ h, alloc_lock_create h t1 7 2);                     (* 3 *)
    (λ h, alloc_thread_create h t1 3 t2);                  (* 4 *)
    (λ h, alloc_thread_init h t2 4);                       (* 5 *)
    (λ h, alloc_lock_acquire h t1 7 4 (Some 3%N));         (* 6 *)
    (λ h, alloc_lock_release h t1 7 6 6 true);             (* 7 *)
    (λ h, alloc_local h t2 5 [0%N]);                       (* 8 *)
    (λ h, alloc_lock_acquire h t2 7 8 (Some 7%N));         (* 9 *)
    (λ h, alloc_lock_acquire h t2 7 8 (Some 3%N)) ].       (* 10, conflicts with 6 *)

Definition demo_res : res heap := Eval vm_compute in build ∅ 1 demo_steps.
Definition demo : heap := match demo_res with Ok h => h | Err _ => ∅ end.

(** One maximal configuration of the example. *)
Definition demo_conf : list eid := [1; 2; 3; 4; 5; 6; 7; 8; 9]%N.

Lemma demo_built : build ∅ 1 demo_steps = Ok demo.
Proof. vm_compute. reflexivity. Qed.

Lemma demo_wf : wf_heap demo.
Proof.
  apply (build_wf demo_steps ∅ demo 1); [| | apply wf_heap_empty | apply demo_built].
  - intros f h e Hf He. unfold demo_steps in Hf.
    repeat (apply elem_of_cons in Hf as [->|Hf]); [| | | | | | | | | |by apply elem_of_nil in Hf];
      simplify_eq; eauto using allocated.
    + eapply alloc_is_thread_init; [|done]. done.
    + eapply alloc_is_thread_init; [|done]. done.
  - intros x. rewrite lookup_empty. by intros [].
Qed.

Lemma demo_conflict_free : conflict_free demo (λ x, x ∈ demo_conf).
Proof. apply conflict_free_b_spec. vm_compute. reflexivity. Qed.

Lemma demo_creators_first : creators_first demo (λ x, x ∈ demo_conf).
Proof. apply creators_first_b_spec. vm_compute. reflexivity. Qed.
