(* ===== verification/EventProps.v ===== *)
(** * Properties of events, cones and combs

    The theorems about the event structure: the constructors keep the heap
    invariant, the causality test and the accessors built on it are exact on
    conflict-free sets, and combs enumerate antichains. Each theorem with
    hypotheses is applied to the event structure of [Demo]. *)

From stdpp Require Import base tactics list gmap numbers relations.
From S2P Require Import Prelude StdMap ThreadId Event Comb CombEnum CombProofs Cone Alloc Causality.
From S2P Require Import AllocProofs HeapExt Order Walks Demo.

Section antichains.
Context {PL : Payload}.
Implicit Types (h : heap) (s x y : list eid).

(** A set of events, listed once each, none of which causes another. *)
Definition antichain h (s : list eid) : Prop :=
  NoDup s ∧ ∀ a b, a ∈ s → b ∈ s → ¬ causal_lt h a b.

Lemma choice_elem teeth s a : choice teeth s → a ∈ s → a ∈ concat teeth.
Proof.
  induction 1 as [|t ts s _ IH|t ts b s Hb _ IH]; simpl; [done| |];
    rewrite elem_of_app; [auto|]. intros [->|?]%elem_of_cons; auto.
Qed.

Lemma choice_nodup teeth s : choice teeth s → NoDup (concat teeth) → NoDup s.
Proof.
  induction 1 as [|t ts s _ IH|t ts a s Ha Hc IH]; simpl; [constructor| |];
    intros (_ & Hdis & Hnd)%NoDup_app; [auto|]. constructor; [|auto].
  intros Hin. apply (Hdis a Ha). by eapply choice_elem.
Qed.

Lemma choice_unique teeth s s' :
  choice teeth s → choice teeth s' → NoDup (concat teeth) → s ≡ₚ s' → s = s'.
Proof.
  intros Hs. revert s'. induction Hs as [|t ts s Hs IH|t ts a s Ha Hs IH]; intros s' Hs' Hnd Hp.
  - by inversion Hs'.
  - simpl in Hnd. apply NoDup_app in Hnd as (_ & Hdis & Hnd). inversion Hs' as [|? ? ? Hs''|? ? b ? Hb Hs'']; subst.
    + by apply IH.
    + exfalso. apply (Hdis b Hb). eapply choice_elem; [exact Hs|]. rewrite Hp. by left.
  - simpl in Hnd. apply NoDup_app in Hnd as (_ & Hdis & Hnd). inversion Hs' as [|? ? ? Hs''|? ? b s'' Hb Hs'']; subst.
    + exfalso. apply (Hdis a Ha). eapply choice_elem; [exact Hs''|]. rewrite <-Hp. by left.
    + assert (a = b) as ->.
      { assert (a ∈ b :: s'') as [->|Hin]%elem_of_cons by (rewrite <-Hp; by left); [done|].
        exfalso. apply (Hdis a Ha). by eapply choice_elem. }
      f_equal. apply IH; [done..|]. by eapply Permutation_cons_inv.
Qed.

(** A set with at most one event per tooth is a choice. *)
Lemma choice_exists teeth s :
  NoDup s → (∀ a, a ∈ s → a ∈ concat teeth) →
  (∀ t a b, t ∈ teeth → a ∈ t → b ∈ t → a ∈ s → b ∈ s → a = b) →
  ∃ s', s' ≡ₚ s ∧ choice teeth s'.
Proof.
  revert s. induction teeth as [|t ts IH]; intros s Hnd Hin Hone; simpl in Hin.
  { destruct s as [|a s]; [|by specialize (Hin a (list_elem_of_here _ _)); apply elem_of_nil in Hin].
    exists []. split; [done | constructor]. }
  assert (∀ s0, NoDup s0 → (∀ a, a ∈ s0 → a ∈ s ∧ a ∉ t) → ∃ s', s' ≡ₚ s0 ∧ choice ts s') as IH'.
  { intros s0 Hnd0 H0. apply IH; [done | |].
    - intros a Ha. destruct (H0 a Ha) as [Has Hat]. specialize (Hin a Has).
      rewrite elem_of_app in Hin. naive_solver.
    - intros t' a b Ht' Ha Hb Has Hbs. apply (Hone t'); [by right | done | done| |]; by apply H0. }
  destruct (decide (Exists (λ a, a ∈ t) s)) as [Hex|Hno];
    [rewrite list.Exists_exists in Hex | rewrite list.Exists_exists in Hno].
  - destruct Hex as (a & Has & Hat).
    apply list_elem_of_split in Has as (l1 & l2 & ->).
    assert (l1 ++ a :: l2 ≡ₚ a :: l1 ++ l2) as Hp by (by rewrite Permutation_middle).
    rewrite Hp in Hnd. apply NoDup_cons in Hnd as [Hna Hnd].
    destruct (IH' (l1 ++ l2)) as (s' & Hs' & Hc); [done| |].
    + intros b Hb. split; [rewrite Hp; by right|]. intros Hbt.
      assert (b = a) as ->; [|done]. apply (Hone t); [by left | done | done | |]; rewrite Hp;
        [by right | by left].
    + exists (a :: s'). split; [by rewrite Hp, Hs' | by constructor].
  - destruct (IH' s) as (s' & Hs' & Hc); [done | |].
    + intros a Ha. split; [done|]. intros Hat. apply Hno. eauto.
    + exists s'. split; [done | by constructor].
Qed.

Lemma choice_antichain h C c s :
  wf_heap h → conflict_free h C → comb_ok h c → (∀ a, a ∈ comb_events c → C a) →
  choice (t_events <$> smap_vals c) s → concurrent (lt_of h) s →
  antichain h s ∧ ∀ a, a ∈ s → a ∈ comb_events c.
Proof.
  intros Hwf HC Hok Hin Hch Hco.
  assert (∀ a, a ∈ s → a ∈ comb_events c) as Hs by (intros a; by apply choice_elem).
  split; [|done]. split; [eapply choice_nodup; [done|]; by eapply comb_ok_nodup|].
  intros a b Ha Hb. apply (lt_of_false h C Hwf HC); auto.
Qed.

Lemma antichain_choice h C c s :
  wf_heap h → conflict_free h C → comb_ok h c → (∀ a, a ∈ comb_events c → C a) →
  antichain h s → (∀ a, a ∈ s → a ∈ comb_events c) →
  ∃ s', s' ≡ₚ s ∧ choice (t_events <$> smap_vals c) s' ∧ concurrent (lt_of h) s'.
Proof.
  intros Hwf HC Hok Hin [Hnd Han] Hs.
  destruct (choice_exists (t_events <$> smap_vals c) s Hnd Hs) as (s' & Hp & Hc).
  - intros t a b (t' & -> & Ht)%list_elem_of_fmap Ha Hb Has Hbs.
    apply tooth_of_vals in Ht as (tid & Ht). destruct (proj2 Hok _ _ Ht) as [Htok _].
    pose proof (tok_thread _ _ _ Htok a Ha) as Hta. pose proof (tok_thread _ _ _ Htok b Hb) as Htb.
    destruct Hta as (ea & Hea & Hta'), Htb as (eb & Heb & Htb').
    apply (tok_inj _ _ _ Htok); [done..|].
    destruct (Nat.lt_trichotomy (dep h a) (dep h b)) as [Hlt|[|Hlt]]; [|done|]; exfalso.
    + apply (Han a b Has Hbs). assert (causal_le h a b) as [->|]%causal_le_alt; [|lia|done].
      eapply thread_le_causal, (same_thread_le h C Hwf HC a b ea eb); auto; [congruence | lia].
    + apply (Han b a Hbs Has). assert (causal_le h b a) as [->|]%causal_le_alt; [|lia|done].
      eapply thread_le_causal, (same_thread_le h C Hwf HC b a eb ea); auto; [congruence | lia].
  - exists s'. split_and!; [done..|]. intros a b Ha Hb.
    rewrite Hp in Ha, Hb. apply (lt_of_false h C Hwf HC); auto.
Qed.
End antichains.

Section properties.
Context {PL : Payload}.
Implicit Types (h : heap) (C : eid → Prop).

(** C27: every event class's constructor establishes the heap invariant (its
    predecessors are stored and less deep, its depth is one more than the
    deepest of them, its cone has exactly one entry per thread of its causes,
    the deepest one, and the class's asserted conditions hold), and storing
    the event at a free address keeps the invariant of the whole heap. *)
Theorem constructors_keep_invariant h e a :
  wf_heap h → allocated h e → h !! a = None →
  wf_event h e ∧ wf_heap (<[a := e]> h).
Proof.
  intros Hwf Hal Ha. pose proof (allocated_wf h e Hwf Hal) as Hwe.
  split; [done | by apply wf_heap_insert].
Qed.

(** C26: on a conflict-free set [event::is_less_than] returns, and it returns
    true exactly for causally ordered events; so the comparison of a depth
    with one cone entry decides the transitive closure of the predecessor
    relation. *)
Theorem is_less_than_exact h C a b :
  wf_heap h → conflict_free h C → C a → C b →
  ∃ r, is_less_than h a b = Ok r ∧ (r = true ↔ causal_lt h a b).
Proof. intros Hwf HC. by apply (is_less_than_decides h C). Qed.

(** For every event class [immediate_predecessors] returns exactly the
    causes with no cause in between, whether the class compares its own
    predecessors or takes the maximum of its cone; a [thread_join] needs that
    the joined thread's exit is not a cause of the joining thread already. *)
Theorem immediate_predecessors_exact h C p e :
  wf_heap h → conflict_free h C → C p → h !! p = Some e →
  (∀ tp j, ev_data e = ThreadJoin tp j → ¬ causal_lt h j tp) →
  ∃ l, immediate_predecessors h e = Ok l ∧ ∀ x, x ∈ l ↔ immediate_cause h x p.
Proof. intros Hwf HC. by apply (immediate_predecessors_spec h C). Qed.

(** C29: the iterations over [local_configuration] and [causes] visit every
    event of the causal past exactly once, [program_init] included if and
    only if it is asked for, when threads are created by threads with
    smaller ids. *)
Theorem local_configuration_exact h C p root :
  wf_heap h → conflict_free h C → creators_first h C → C p →
  ∃ lc cs, local_configuration h p root = Ok lc ∧ causes h p root = Ok cs ∧
    NoDup lc ∧ NoDup cs ∧
    (∀ x, x ∈ cs ↔ causal_lt h x p ∧
      (root = true ∨ at_event h x (λ e, ev_kind e ≠ program_init))) ∧
    (∀ x, x ∈ lc ↔ x = p ∨ x ∈ cs).
Proof.
  intros Hwf HC Hcr Hp. destruct (cf_in _ _ HC p Hp) as [e He].
  destruct (event_range_spec h C Hwf HC p e root true Hcr Hp He) as (lc & Hlc & Hnd1 & Hx1).
  destruct (event_range_spec h C Hwf HC p e root false Hcr Hp He) as (cs & Hcs & Hnd2 & Hx2).
  exists lc, cs. split_and!; [done..| |].
  - intros x. rewrite Hx2. naive_solver.
  - intros x. rewrite Hx1, Hx2. naive_solver.
Qed.

(** C30: building cones from two lists of non-conflicting events and taking
    [setminus] gives a comb with exactly the events (other than
    [program_init]) that are below the first list and not below the second. *)
Theorem setminus_exact h C l1 l2 :
  wf_heap h → conflict_free h C → (∀ p, p ∈ l1 → C p) → (∀ p, p ∈ l2 → C p) →
  ∃ c1 c2 r, cone_of_range h l1 = Ok c1 ∧ cone_of_range h l2 = Ok c2 ∧
    setminus h c1 c2 = Ok r ∧ comb_ok h r ∧
    ∀ x, x ∈ comb_events r ↔
      (∃ p, p ∈ l1 ∧ causal_le h x p) ∧ (¬ ∃ p, p ∈ l2 ∧ causal_le h x p) ∧
      at_event h x (λ e, ev_kind e ≠ program_init).
Proof.
  intros Hwf HC H1 H2.
  destruct (cone_of_range_spec h l1 Hwf) as (c1 & Hc1 & Hf1); [intros; by apply (cf_in _ _ HC), H1|].
  destruct (cone_of_range_spec h l2 Hwf) as (c2 & Hc2 & Hf2); [intros; by apply (cf_in _ _ HC), H2|].
  destruct (setminus_spec h C Hwf HC c1 c2 _ _ Hf1 Hf2) as (r & Hr & Hok & Hx).
  - intros x (p & Hp & Hle). eapply (cf_closed _ _ HC); [by apply H1 | done].
  - intros x (p & Hp & Hle). eapply (cf_closed _ _ HC); [by apply H2 | done].
  - intros x y (p & Hp & Hle) Hxy. exists p. split; [done | by etrans].
  - intros x y (p & Hp & Hle) Hxy. exists p. split; [done | by etrans].
  - by exists c1, c2, r.
Qed.

(** A comb built from non-conflicting events holds exactly these events,
    and [comb::max] and [comb::min] return exactly its maximal and minimal
    events in the causal order, each once. *)
Theorem comb_extrema_exact h C l :
  wf_heap h → conflict_free h C → (∀ p, p ∈ l → C p) →
  ∃ c hi lo, comb_of_range h l = Ok c ∧ comb_max h c = Ok hi ∧ comb_min h c = Ok lo ∧
    (∀ x, x ∈ comb_events c ↔ x ∈ l) ∧ NoDup hi ∧ NoDup lo ∧
    (∀ x, x ∈ hi ↔ x ∈ l ∧ ∀ y, y ∈ l → ¬ causal_lt h x y) ∧
    (∀ x, x ∈ lo ↔ x ∈ l ∧ ∀ y, y ∈ l → ¬ causal_lt h y x).
Proof.
  intros Hwf HC Hl. destruct (comb_of_range_spec h C Hwf HC l Hl) as (c & Hc & Hok & Hx).
  assert (∀ x, x ∈ comb_events c → C x) as Hin by (intros x ?%Hx; auto).
  destruct (comb_max_gen h c (lt_of h)) as (hi & Hhi & Hn1 & Hx1);
    [done | eauto using lt_of_ok | eauto using lt_of_trans |].
  destruct (comb_min_gen h c (lt_of h)) as (lo & Hlo & Hn2 & Hx2);
    [done | eauto using lt_of_ok | eauto using lt_of_trans |].
  exists c, hi, lo. split_and!; try done; intros x; [rewrite Hx1 | rewrite Hx2];
    setoid_rewrite Hx; (split; intros [Hxl Hm]; (split; [done|]); intros y Hy;
    specialize (Hm y Hy)); by apply (lt_of_false h C Hwf HC) in Hm || apply (lt_of_false h C Hwf HC); auto.
Qed.

(** C31: [concurrent_combinations] over a comb of fewer than 64 threads
    returns, for every antichain of the comb's events, exactly one list with
    these events if the filter keeps that list, and nothing else; no list is
    returned twice. *)
Theorem concurrent_combinations_exact h C c {S : Type}
    (filter : S → list eid → res (S * bool)) (f : S → list eid → S)
    (keep : list eid → bool) (s : S) :
  wf_heap h → conflict_free h C → comb_ok h c → (∀ x, x ∈ comb_events c → C x) →
  length c < 64 → (∀ s x, filter s x = Ok (f s x, keep x)) →
  ∃ s' r, concurrent_combinations filter h c s = Ok (s', r) ∧ NoDup r ∧
    (∀ x, x ∈ r → antichain h x ∧ (∀ a, a ∈ x → a ∈ comb_events c) ∧ keep x = true) ∧
    (∀ x y, x ∈ r → y ∈ r → x ≡ₚ y → x = y) ∧
    (∀ x, antichain h x → (∀ a, a ∈ x → a ∈ comb_events c) →
      ∃ y, y ≡ₚ x ∧ (keep y = true ↔ y ∈ r)).
Proof.
  intros Hwf HC Hok Hin Hlen Hf.
  destruct (concurrent_combinations_gen h c (lt_of h) Hok) with (filter := filter) (f := f)
    (keep := keep) (s := s) as (s' & r & Hr & Hnd & Hx); [eauto using lt_of_ok | done | done |].
  exists s', r. split_and!; [done | done | | |].
  - intros x [[Hch Hco] Hk]%Hx. by destruct (choice_antichain h C c x).
  - intros x y [[Hchx _] _]%Hx [[Hchy _] _]%Hx. eapply choice_unique; [done..|].
    by eapply comb_ok_nodup.
  - intros x Han Hxs. destruct (antichain_choice h C c x) as (y & Hp & Hch & Hco); [done..|].
    exists y. split; [done|]. rewrite Hx. naive_solver.
Qed.
End properties.

(** ** The theorems at the example *)

Abbreviation in_demo := (λ x : eid, x ∈ demo_conf).

(** Membership in a concrete list. *)
Ltac by_compute := refine (bool_decide_eq_true_1 _ _); vm_compute; reflexivity.

Definition demo_local : event :=
  match alloc_local demo t1 7%N [1%N] with Ok e => e | Err _ => program_init_event end.

Lemma constructors_keep_invariant_witness :
  wf_event demo demo_local ∧ wf_heap (<[11%N := demo_local]> demo).
Proof.
  apply (constructors_keep_invariant demo demo_local 11%N).
  - apply demo_wf.
  - apply (alloc_is_local demo t1 7%N [1%N]). vm_compute. reflexivity.
  - vm_compute. reflexivity.
Defined.

Lemma is_less_than_exact_witness :
  ∃ r, is_less_than demo 3%N 9%N = Ok r ∧ (r = true ↔ causal_lt demo 3%N 9%N).
Proof.
  apply (is_less_than_exact demo in_demo 3%N 9%N);
    [apply demo_wf | apply demo_conflict_free | by_compute | by_compute].
Defined.

Lemma immediate_predecessors_exact_witness :
  ∃ e l, demo !! 9%N = Some e ∧ immediate_predecessors demo e = Ok l ∧
    ∀ x, x ∈ l ↔ immediate_cause demo x 9%N.
Proof.
  destruct (demo !! 9%N) as [e|] eqn:He; [|exfalso; vm_compute in He; discriminate He].
  destruct (immediate_predecessors_exact demo in_demo 9%N e) as (l & Hl & Hx).
  - apply demo_wf.
  - apply demo_conflict_free.
  - by_compute.
  - exact He.
  - intros tp j Hd. exfalso. vm_compute in He. injection He as <-. discriminate Hd.
  - exists e, l. auto.
Defined.

Lemma local_configuration_exact_witness :
  ∃ lc cs, local_configuration demo 9%N true = Ok lc ∧ causes demo 9%N true = Ok cs ∧
    NoDup lc ∧ NoDup cs ∧
    (∀ x, x ∈ cs ↔ causal_lt demo x 9%N ∧
      (true = true ∨ at_event demo x (λ e, ev_kind e ≠ program_init))) ∧
    (∀ x, x ∈ lc ↔ x = 9%N ∨ x ∈ cs).
Proof.
  apply (local_configuration_exact demo in_demo 9%N true);
    [apply demo_wf | apply demo_conflict_free | apply demo_creators_first | by_compute].
Defined.

Lemma setminus_exact_witness :
  ∃ c1 c2 r, cone_of_range demo [9%N] = Ok c1 ∧ cone_of_range demo [6%N] = Ok c2 ∧
    setminus demo c1 c2 = Ok r ∧ comb_ok demo r ∧
    ∀ x, x ∈ comb_events r ↔
      (∃ p, p ∈ [9%N] ∧ causal_le demo x p) ∧ (¬ ∃ p, p ∈ [6%N] ∧ causal_le demo x p) ∧
      at_event demo x (λ e, ev_kind e ≠ program_init).
Proof.
  apply (setminus_exact demo in_demo [9%N] [6%N]).
  - apply demo_wf.
  - apply demo_conflict_free.
  - intros p ->%list_elem_of_singleton. by_compute.
  - intros p ->%list_elem_of_singleton. by_compute.
Defined.

Lemma comb_extrema_exact_witness :
  ∃ c hi lo, comb_of_range demo demo_conf = Ok c ∧ comb_max demo c = Ok hi ∧
    comb_min demo c = Ok lo ∧
    (∀ x, x ∈ comb_events c ↔ x ∈ demo_conf) ∧ NoDup hi ∧ NoDup lo ∧
    (∀ x, x ∈ hi ↔ x ∈ demo_conf ∧ ∀ y, y ∈ demo_conf → ¬ causal_lt demo x y) ∧
    (∀ x, x ∈ lo ↔ x ∈ demo_conf ∧ ∀ y, y ∈ demo_conf → ¬ causal_lt demo y x).
Proof.
  apply (comb_extrema_exact demo in_demo demo_conf);
    [apply demo_wf | apply demo_conflict_free | intros p Hp; exact Hp].
Defined.

(** A comb with the events of two threads. *)
Definition demo_comb : comb :=
  match comb_of_range demo [6; 7; 8; 5]%N with Ok c => c | Err _ => [] end.

Lemma demo_comb_ok : comb_ok demo demo_comb ∧ ∀ x, x ∈ comb_events demo_comb → in_demo x.
Proof.
  assert (∀ p, p ∈ [6; 7; 8; 5]%N → in_demo p) as Hin.
  { intros p Hp. repeat (apply elem_of_cons in Hp as [->|Hp]; [by_compute|]).
    by apply elem_of_nil in Hp. }
  destruct (comb_of_range_spec demo in_demo demo_wf demo_conflict_free _ Hin)
    as (c & Hc & Hok & Hx).
  unfold demo_comb. rewrite Hc. split; [done|]. intros x Hxc. by apply Hin, Hx.
Qed.

Lemma concurrent_combinations_exact_witness :
  ∃ s' r, concurrent_combinations (λ (n : nat) x, Ok (S n, true)) demo demo_comb 0 = Ok (s', r) ∧
    NoDup r ∧
    (∀ x, x ∈ r → antichain demo x ∧ (∀ a, a ∈ x → a ∈ comb_events demo_comb) ∧ true = true) ∧
    (∀ x y, x ∈ r → y ∈ r → x ≡ₚ y → x = y) ∧
    (∀ x, antichain demo x → (∀ a, a ∈ x → a ∈ comb_events demo_comb) →
      ∃ y, y ≡ₚ x ∧ (true = true ↔ y ∈ r)).
Proof.
  apply (concurrent_combinations_exact demo in_demo demo_comb
    (λ (n : nat) x, Ok (S n, true)) (λ n _, S n) (λ _, true) 0);
    [apply demo_wf | apply demo_conflict_free | apply demo_comb_ok | apply demo_comb_ok
    | vm_compute; lia | intros; reflexivity].
Defined.
