(* ===== verification/Independence.v ===== *)
(** * The independence relation ([lib/Por/event.cpp])

    [event::is_independent_of] and its helpers. The relation drives the
    computation of immediate conflicts; it has to be symmetric, which the
    code only checks in a build with [LIBPOR_CHECKED]. *)

From stdpp Require Import base tactics list gmap numbers relations.
From S2P Require Import Prelude StdMap ThreadId Event Comb CombEnum CombProofs Cone Alloc Causality.
From S2P Require Import HeapExt.

Section independence.
Context {PL : Payload}.
Implicit Types (h : heap) (a b e other : event).

Definition lock_is_independent (lock_event other : event) : res bool :=
  _ ← cassert (match ev_kind lock_event with
               | lock_create | lock_acquire | lock_release | lock_destroy | wait1 | wait2 => true
               | _ => false
               end);
  _ ← cassert (negb (ev_lid lock_event =? 0)%N);
  Ok (if negb (ev_lid other =? 0)%N then negb (ev_lid lock_event =? ev_lid other)%N else true).

(** [is_lost()] of a signal or broadcast. *)
Definition notification_is_lost h e : res bool :=
  match ev_kind e with
  | signal => signal_is_lost h e
  | broadcast => broadcast_is_lost e
  | _ => Err UndefinedBehaviour
  end.

Definition lost_notification_is_independent h (lost other : event) : res bool :=
  _ ← cassert (kind_eqb (ev_kind lost) signal || kind_eqb (ev_kind lost) broadcast);
  l ← notification_is_lost h lost;
  _ ← cassert l;
  if kind_eqb (ev_kind other) wait2 then Ok true
  else if negb (ev_cid lost =? ev_cid other)%N then Ok true
  else
    match ev_kind other with
    | signal | broadcast =>
        lo ← notification_is_lost h other;
        Ok (if (lo : bool) then true else negb (ev_cid lost =? ev_cid other)%N)
    | wait1 => Ok false
    | _ => Ok (negb (ev_cid lost =? ev_cid other)%N)
    end.

(** [thread_create::created_tid]. *)
Definition created_tid e : res thread_id :=
  match ev_data e with
  | ThreadCreate _ t => Ok t
  | _ => Err UndefinedBehaviour
  end.

Definition is_thread_event e : bool :=
  match ev_kind e with
  | thread_create | thread_exit | thread_init | thread_join => true
  | _ => false
  end.

Definition thread_event_is_independent h (thread_event other : event) : res bool :=
  match ev_kind thread_event with
  | thread_create =>
      if kind_eqb (ev_kind other) thread_init then
        c ← created_tid thread_event; Ok (negb (tid_eqb c (ev_tid other)))
      else Ok true
  | thread_exit =>
      if kind_eqb (ev_kind other) thread_join then
        j ← joined_thread h other; Ok (negb (tid_eqb (ev_tid thread_event) j))
      else Ok true
  | thread_join =>
      match ev_kind other with
      | thread_join =>
          j ← joined_thread h thread_event;
          j' ← joined_thread h other;
          Ok (negb (tid_eqb j j'))
      | thread_exit =>
          j ← joined_thread h thread_event; Ok (negb (tid_eqb j (ev_tid other)))
      | _ => Ok true
      end
  | thread_init =>
      if kind_eqb (ev_kind other) thread_create then
        c ← created_tid other; Ok (negb (tid_eqb (ev_tid thread_event) c))
      else Ok true
  | _ => Ok true
  end.

Definition thread_is_independent h a b : res bool :=
  if is_thread_event a then thread_event_is_independent h a b
  else if is_thread_event b then thread_event_is_independent h b a
  else Ok true.

(** The [switch] on [this->kind()]. *)
Definition independent_by_kind h e other : res bool :=
  let same_cid := (ev_cid e =? ev_cid other)%N in
  match ev_kind e with
  | lock_create | lock_acquire | lock_release | lock_destroy => lock_is_independent e other
  | wait1 =>
      l ← lock_is_independent e other;
      if negb l then Ok false
      else
        match ev_kind other with
        | signal =>
            if negb same_cid then Ok true
            else
              lost ← signal_is_lost h other;
              if (lost : bool) then Ok false
              else
                nt ← signal_notified_thread h other;
                Ok (negb (tid_eqb (ev_tid e) nt))
        | broadcast | condition_variable_create | condition_variable_destroy =>
            Ok (negb (ev_cid e =? ev_cid other)%N)
        | _ => Ok true
        end
  | wait2 =>
      l ← lock_is_independent e other;
      if negb l then Ok false
      else
        match ev_kind other with
        | condition_variable_create | condition_variable_destroy => Ok (negb same_cid)
        | signal =>
            if negb same_cid then Ok true
            else nt ← signal_notified_thread h other; Ok (negb (tid_eqb nt (ev_tid e)))
        | broadcast =>
            if negb same_cid then Ok true
            else n ← broadcast_is_notifying_thread h other (ev_tid e); Ok (negb n)
        | _ => Ok true
        end
  | signal =>
      lost ← signal_is_lost h e;
      if (lost : bool) then lost_notification_is_independent h e other
      else
        match ev_kind other with
        | wait1 | wait2 =>
            if negb same_cid then Ok true
            else nt ← signal_notified_thread h e; Ok (negb (tid_eqb nt (ev_tid other)))
        | condition_variable_create | condition_variable_destroy | broadcast | signal =>
            Ok (negb same_cid)
        | _ => Ok true
        end
  | broadcast =>
      lost ← broadcast_is_lost e;
      if (lost : bool) then lost_notification_is_independent h e other
      else
        match ev_kind other with
        | wait1 => Ok (negb same_cid)
        | wait2 =>
            if negb same_cid then Ok true
            else n ← broadcast_is_notifying_thread h e (ev_tid other); Ok (negb n)
        | condition_variable_create | condition_variable_destroy | broadcast | signal =>
            Ok (negb same_cid)
        | _ => Ok true
        end
  | condition_variable_create | condition_variable_destroy =>
      Ok ((ev_cid e =? 0)%N || negb same_cid)
  | thread_create | thread_init | thread_exit | thread_join => thread_is_independent h e other
  | local | program_init => Err AssertFailed
  end.

Definition is_independent_of h e other : res bool :=
  if tid_eqb (ev_tid e) (ev_tid other) then Ok false
  else if kind_eqb (ev_kind e) local || kind_eqb (ev_kind other) local then Ok true
  else if kind_eqb (ev_kind e) program_init || kind_eqb (ev_kind other) program_init
  then Ok false
  else
    t ← thread_is_independent h e other;
    if negb t then Ok false else independent_by_kind h e other.

(** ** Symmetry *)

(** The ids the constructors assert to be non-null. *)
Definition ids_nonzero e : Prop :=
  match ev_data e with
  | LockCreate _ l | LockDestroy _ _ l | LockAcquire _ _ l _ | LockRelease _ _ l _ => l ≠ 0%N
  | Wait1 _ _ _ c l | Wait2 _ _ _ c l _ => c ≠ 0%N ∧ l ≠ 0%N
  | ConditionVariableCreate _ c | ConditionVariableDestroy _ _ c
  | Signal _ _ c | Broadcast _ _ _ c => c ≠ 0%N
  | _ => True
  end.

Lemma tid_eqb_sym s t : tid_eqb s t = tid_eqb t s.
Proof. apply eq_true_iff_eq. rewrite !tid_eqb_spec. naive_solver. Qed.

Lemma thread_is_independent_sym h a b :
  thread_is_independent h a b = thread_is_independent h b a.
Proof.
  unfold thread_is_independent, is_thread_event, thread_event_is_independent.
  unfold created_tid, joined_thread, ev_kind.
  destruct (ev_data a) eqn:Ha, (ev_data b) eqn:Hb; simpl; try done;
    try (by rewrite tid_eqb_sym); unfold deref;
    repeat match goal with |- context [h !! ?x] => destruct (h !! x) end; simpl; try done;
    by rewrite tid_eqb_sym.
Qed.

Definition is_lock_event (k : event_kind) : bool :=
  match k with
  | lock_create | lock_acquire | lock_release | lock_destroy | wait1 | wait2 => true
  | _ => false
  end.

Definition is_cond_event (k : event_kind) : bool :=
  match k with
  | condition_variable_create | condition_variable_destroy | wait1 | wait2 | signal
  | broadcast => true
  | _ => false
  end.

(** What the relation reads of an event, with the partial accessors resolved. *)
Record ind_facts h e : Prop := {
  if_lid : (ev_lid e =? 0)%N = negb (is_lock_event (ev_kind e));
  if_cid : (ev_cid e =? 0)%N = negb (is_cond_event (ev_kind e));
  if_signal : ev_kind e = signal → ∃ l nt, signal_is_lost h e = Ok l ∧
    signal_notified_thread h e = Ok nt ∧ (l = true → nt = tid_root);
  if_broadcast : ev_kind e = broadcast → ∃ l, broadcast_is_lost e = Ok l ∧
    ∀ t, ∃ n, broadcast_is_notifying_thread h e t = Ok n ∧ (l = true → n = false);
  if_tid : ev_tid e = tid_root → ev_kind e = program_init;
  if_join : ev_kind e = thread_join → ∃ t, joined_thread h e = Ok t;
  if_create : ev_kind e = thread_create → ∃ t, created_tid e = Ok t;
}.

Lemma wf_ind_facts h e : wf_event h e → ids_nonzero e → ind_facts h e.
Proof.
  intros Hw Hids. pose proof (wf_preds _ _ Hw) as Hpr. pose proof (proj1 (wf_tid _ _ Hw)) as Ht.
  split; [| | | |done| |].
  - unfold ids_nonzero, ev_lid, ev_kind in *. destruct (ev_data e); simpl; try done;
      apply N.eqb_neq; naive_solver.
  - unfold ids_nonzero, ev_cid, ev_kind in *. destruct (ev_data e); simpl; try done;
      apply N.eqb_neq; naive_solver.
  - unfold ev_kind, signal_is_lost, signal_notified_thread, cps_lost, predecessors in *.
    destruct (ev_data e) as [| | | | | | | | | | | | | |tp [|w [|w' ws]] c|]; try done; intros _;
      try (by do 2 eexists). destruct (Hpr w) as [ew Hew]; [simpl; set_solver|].
    unfold deref. rewrite Hew. simpl. do 2 eexists. split_and!; [done..|].
    by destruct (kind_eqb _ _).
  - unfold ev_kind, broadcast_is_lost, broadcast_is_notifying_thread,
      broadcast_wait_predecessors, predecessors in *.
    destruct (ev_data e) as [| | | | | | | | | | | | | | |tp cps n c]; try done. intros _.
    eexists. split; [done|]. intros t. simpl.
    rewrite (any_of_spec _ (λ w, match h !! w with Some ew => tid_eqb (ev_tid ew) t
      | None => false end)).
    + eexists. split; [done|]. intros ->%Nat.eqb_eq. done.
    + intros w Hw'. destruct (Hpr w) as [ew Hew]; [right; by apply (subseteq_take n)|].
      unfold deref. by rewrite Hew.
  - unfold ev_kind, joined_thread, predecessors in *. destruct (ev_data e) as [| | |tp j| | | | | | | | | | | |];
      try done. intros _. destruct (Hpr j) as [ej Hej]; [simpl; set_solver|].
    unfold deref. rewrite Hej. by eexists.
  - unfold ev_kind, created_tid in *. destruct (ev_data e); try done. by eexists.
Qed.

Lemma thread_is_independent_total h a b :
  ind_facts h a → ind_facts h b → ∃ r, thread_is_independent h a b = Ok r.
Proof.
  intros [_ _ _ _ _ Ja Ca] [_ _ _ _ _ Jb Cb].
  unfold thread_is_independent, is_thread_event, thread_event_is_independent.
  destruct (ev_kind a), (ev_kind b); simpl; try (by eexists);
    repeat match goal with H : ?x = ?x → _ |- _ => specialize (H eq_refl) end;
    repeat match goal with
    | H : ∃ _, joined_thread h ?e = _ |- context [joined_thread h ?e] =>
        destruct H as (? & ->); rewrite bind_Ok_l
    | H : ∃ _, created_tid ?e = _ |- context [created_tid ?e] =>
        destruct H as (? & ->); rewrite bind_Ok_l
    end; by eexists.
Qed.

(** Resolve the partial accessors of the two events from their facts. *)
Ltac ind_resolve :=
  repeat match goal with
  | H : ?x = ?x → _ |- _ => specialize (H eq_refl)
  | H : ∃ _, _ |- _ => destruct H
  | H : _ ∧ _ |- _ => destruct H
  | H : ∀ t, ∃ n, broadcast_is_notifying_thread ?h ?e t = _ ∧ _
    |- context [broadcast_is_notifying_thread ?h ?e ?t] =>
      destruct (H t) as (? & -> & ?)
  | H : signal_is_lost _ _ = Ok _ |- _ => rewrite H; clear H
  | H : signal_notified_thread _ _ = Ok _ |- _ => rewrite H; clear H
  | H : broadcast_is_lost _ = Ok _ |- _ => rewrite H; clear H
  end.

Lemma not_root_eqb t : t ≠ tid_root → tid_eqb tid_root t = false.
Proof. intros Ht. apply not_true_iff_false. rewrite tid_eqb_spec. naive_solver. Qed.

Lemma independent_by_kind_sym h a b :
  ind_facts h a → ind_facts h b → tid_eqb (ev_tid a) (ev_tid b) = false →
  kind_eqb (ev_kind a) local || kind_eqb (ev_kind b) local = false →
  kind_eqb (ev_kind a) program_init || kind_eqb (ev_kind b) program_init = false →
  thread_is_independent h a b = Ok true →
  ∃ r, independent_by_kind h a b = Ok r ∧ independent_by_kind h b a = Ok r.
Proof.
  intros Fa Fb Ht Hl Hp Hth. pose proof Hth as Hth'. rewrite thread_is_independent_sym in Hth'.
  destruct Fa as [La Ca Sa Ba Ta _ _], Fb as [Lb Cb Sb Bb Tb _ _].
  unfold independent_by_kind, lost_notification_is_independent, notification_is_lost,
    lock_is_independent. rewrite Hth, Hth'. clear Hth Hth'.
  assert ((ev_cid a =? ev_cid b)%N = true → (ev_cid a =? 0)%N = (ev_cid b =? 0)%N) as Esc
    by (by intros ->%N.eqb_eq).
  rewrite (N.eqb_sym (ev_cid b) (ev_cid a)), (N.eqb_sym (ev_lid b) (ev_lid a)).
  rewrite La, Lb, ?Ca, ?Cb in *. clear La Lb Ca Cb.
  generalize dependent (ev_cid a =? ev_cid b)%N. intros sc Esc.
  generalize (ev_lid a =? ev_lid b)%N. intros sl.
  rewrite tid_eqb_sym in Ht.
  destruct (ev_kind a) eqn:Ka, (ev_kind b) eqn:Kb; simpl in *; try discriminate Hl;
    try discriminate Hp; try (by eexists); ind_resolve; simpl; destruct sc; simpl; try (by eexists);
    try (by specialize (Esc eq_refl));
    destruct sl; simpl; try (by eexists);
    repeat match goal with
    | |- context [if ?b then _ else _] => destruct b eqn:?; simpl
    | H : true = true → ?x = _ |- _ => rewrite (H eq_refl)
    end; try (by eexists); try (eexists; split; [done|]; by rewrite tid_eqb_sym);
    (rewrite not_root_eqb; [by eexists | naive_solver]).
Qed.

(** The relation is total and symmetric on stored events. *)
Lemma is_independent_of_sym h a b :
  ind_facts h a → ind_facts h b →
  ∃ r, is_independent_of h a b = Ok r ∧ is_independent_of h b a = Ok r.
Proof.
  intros Fa Fb. unfold is_independent_of.
  rewrite (tid_eqb_sym (ev_tid b)), (orb_comm (kind_eqb (ev_kind b) local)),
    (orb_comm (kind_eqb (ev_kind b) program_init)).
  destruct (tid_eqb (ev_tid a) (ev_tid b)) eqn:Ht; [by eexists|].
  destruct (_ || _) eqn:Hl; [by eexists|].
  destruct (_ || kind_eqb (ev_kind b) program_init) eqn:Hp; [by eexists|].
  destruct (thread_is_independent_total h a b Fa Fb) as (t & Hth).
  rewrite (thread_is_independent_sym h b a), Hth. simpl.
  destruct t; simpl; [|by eexists]. by apply independent_by_kind_sym.
Qed.

(** ** The relation reads the immutable fields only *)

Record ind_eq h h' e e' : Prop := {
  ie_tid : ev_tid e = ev_tid e';
  ie_kind : ev_kind e = ev_kind e';
  ie_lid : ev_lid e = ev_lid e';
  ie_cid : ev_cid e = ev_cid e';
  ie_slost : signal_is_lost h e = signal_is_lost h' e';
  ie_nt : signal_notified_thread h e = signal_notified_thread h' e';
  ie_blost : broadcast_is_lost e = broadcast_is_lost e';
  ie_bn t : broadcast_is_notifying_thread h e t = broadcast_is_notifying_thread h' e' t;
  ie_created : created_tid e = created_tid e';
  ie_joined : joined_thread h e = joined_thread h' e';
}.

Lemma is_independent_of_eq h h' a a' b b' :
  ind_eq h h' a a' → ind_eq h h' b b' → is_independent_of h a b = is_independent_of h' a' b'.
Proof.
  intros [T1 K1 L1 C1 S1 N1 B1 M1 R1 J1] [T2 K2 L2 C2 S2 N2 B2 M2 R2 J2].
  unfold is_independent_of, independent_by_kind, thread_is_independent, is_thread_event,
    thread_event_is_independent, lost_notification_is_independent, notification_is_lost,
    lock_is_independent.
  by rewrite ?T1, ?K1, ?L1, ?C1, ?S1, ?N1, ?B1, ?R1, ?J1, ?M1, ?T2, ?K2, ?L2, ?C2, ?S2, ?N2, ?B2,
    ?R2, ?J2, ?M2.
Qed.

Lemma ext_ind_eq h h' e e' :
  heap_ext h h' → same_core e e' → (∀ q, q ∈ predecessors e → is_Some (h !! q)) →
  ind_eq h h' e e'.
Proof.
  intros Hext Hs Hpr. pose proof (core_data _ _ Hs) as Hd.
  assert (∀ q, q ∈ predecessors e → ∃ x x', deref h q = Ok x ∧ deref h' q = Ok x' ∧
    ev_tid x = ev_tid x' ∧ ev_kind x = ev_kind x') as Hq.
  { intros q Hq. destruct (Hpr q Hq) as [x Hx]. destruct (Hext q x Hx) as (x' & Hx' & Hsx).
    exists x, x'. unfold deref. rewrite Hx, Hx'.
    split_and!; [done.. | apply Hsx | by apply ev_kind_proper]. }
  split; [by apply ev_tid_proper | by apply ev_kind_proper | by apply ev_lid_proper
    | by apply ev_cid_proper | | | | | |].
  all: unfold signal_is_lost, signal_notified_thread, broadcast_is_lost, joined_thread,
    broadcast_is_notifying_thread, broadcast_wait_predecessors, created_tid, predecessors in *.
  all: destruct (ev_data e), (ev_data e'); simpl in Hd; try discriminate Hd; simplify_eq/=;
    try done.
  - unfold cps_lost. destruct cps0 as [|w []]; try done.
    destruct (Hq w) as (x & x' & -> & -> & _ & Hk); [set_solver|]. simpl. by rewrite Hk.
  - destruct cps0 as [|w []]; try done.
    destruct (Hq w) as (x & x' & -> & -> & Ht & Hk); [set_solver|]. simpl. by rewrite Hk, Ht.
  - intros t. assert (∀ ws, ws ⊆ cps0 → any_of (λ w, ew ← deref h w; Ok (tid_eqb (ev_tid ew) t)) ws =
      any_of (λ w, ew ← deref h' w; Ok (tid_eqb (ev_tid ew) t)) ws) as Hany.
    { induction ws as [|w ws IH]; intros Hsub; [done|]. simpl.
      destruct (Hq w) as (x & x' & -> & -> & Ht & _); [right; apply Hsub; by left|]. simpl.
      rewrite Ht. destruct (tid_eqb _ _); [done|]. apply IH. intros y Hy. apply Hsub. by right. }
    simpl. apply Hany, subseteq_take.
  - destruct (Hq joined0) as (x & x' & -> & -> & Ht & _); [set_solver|]. simpl. by rewrite Ht.
Qed.
End independence.
