(* ===== verification/Unfolding.v ===== *)
(** * The unfolding ([include/por/unfolding.h], [lib/Por/unfolding.cpp])

    The unfolding owns all events: a map from (thread, depth, kind) to the
    events with that key, the root, a counter, and the statistics. The event
    objects are in the heap; the colour counters are the function-local
    statics of [event::new_color] and [event::new_cfl_color]. *)

From stdpp Require Import base tactics list gmap numbers.
From S2P Require Import Prelude StdMap ThreadId Event Comb Cone Alloc Independence.

(** [operator new]: an address that no live event has. *)
Class Allocator {PL : Payload} := {
  fresh_addr : heap → eid;
  fresh_addr_free h : h !! fresh_addr h = None;
}.

#[export] Instance nat_less : StdLess nat := Nat.ltb.
#[export] Instance nat_less_laws : StdLessLaws nat.
Proof.
  split; unfold std_less, nat_less.
  - apply Nat.ltb_irrefl.
  - intros a b c. rewrite !Nat.ltb_lt. lia.
  - intros a b. rewrite !Nat.ltb_ge. lia.
Qed.

Section unfolding.
Context {PL : Payload}.
Implicit Types (h : heap) (e : event).

(** ** Writing to event objects *)

Definition set_color (c : N) e : event :=
  Event (ev_tid e) (ev_data e) (ev_cone e) (ev_depth e) c (ev_imm_cfl_color e)
    (ev_successors e) (ev_immediate_conflicts e) (ev_metadata e) (ev_is_cutoff e) (ev_lc_size e).
Definition set_imm_cfl_color (c : N) e : event :=
  Event (ev_tid e) (ev_data e) (ev_cone e) (ev_depth e) (ev_color e) c
    (ev_successors e) (ev_immediate_conflicts e) (ev_metadata e) (ev_is_cutoff e) (ev_lc_size e).
Definition set_successors (s : list eid) e : event :=
  Event (ev_tid e) (ev_data e) (ev_cone e) (ev_depth e) (ev_color e) (ev_imm_cfl_color e)
    s (ev_immediate_conflicts e) (ev_metadata e) (ev_is_cutoff e) (ev_lc_size e).
Definition set_immediate_conflicts (s : list eid) e : event :=
  Event (ev_tid e) (ev_data e) (ev_cone e) (ev_depth e) (ev_color e) (ev_imm_cfl_color e)
    (ev_successors e) s (ev_metadata e) (ev_is_cutoff e) (ev_lc_size e).
Definition set_metadata (m : metadata) e : event :=
  Event (ev_tid e) (ev_data e) (ev_cone e) (ev_depth e) (ev_color e) (ev_imm_cfl_color e)
    (ev_successors e) (ev_immediate_conflicts e) m (ev_is_cutoff e) (ev_lc_size e).
Definition set_is_cutoff (b : bool) e : event :=
  Event (ev_tid e) (ev_data e) (ev_cone e) (ev_depth e) (ev_color e) (ev_imm_cfl_color e)
    (ev_successors e) (ev_immediate_conflicts e) (ev_metadata e) b (ev_lc_size e).
Definition set_metadata_id (i : N) e : event :=
  set_metadata (Metadata (md_fingerprint (ev_metadata e)) (md_thread_delta (ev_metadata e))
    (md_pending_frees (ev_metadata e)) i) e.

Definition upd h (p : eid) (f : event → event) : res heap :=
  e ← deref h p; Ok (<[p := f e]> h).

(** ** Successors *)

(** [add_to_successors]. *)
Definition add_to_successors h (p : eid) : res heap :=
  e ← deref h p;
  imm ← immediate_predecessors h e;
  for_each (λ h q, upd h q (λ eq, set_successors (ev_successors eq ++ [p]) eq)) h imm.

(** [std::iter_swap(it, end() - 1); pop_back()]. *)
Definition swap_remove (p : eid) (l : list eid) : list eid :=
  match list_find (eq p) l, list.last l with
  | Some (i, _), Some z => take (length l - 1) (<[i := z]> l)
  | _, _ => l
  end.

Definition remove_from_successors_of h (p q : eid) : res heap :=
  upd h q (λ eq, set_successors (swap_remove p (ev_successors eq)) eq).

(** The events whose successor lists an event's destructor clears. *)
Definition destructor_predecessors h e : res (list eid) :=
  match ev_data e with
  | ProgramInit => Ok []
  | ThreadInit c => Ok [c]
  | Local tp _ | ThreadCreate tp _ | ThreadExit tp _ | LockCreate tp _
  | ConditionVariableCreate tp _ => Ok [tp]
  | _ => immediate_predecessors_from_cone h e
  end.

(** [delete p]. *)
Definition destroy_event h (p : eid) : res heap :=
  e ← deref h p;
  _ ← cassert (match ev_successors e with [] => true | _ => false end);
  preds ← destructor_predecessors h e;
  h' ← for_each (λ h q, remove_from_successors_of h p q) h preds;
  Ok (delete p h').

(** ** Cutoffs *)

(** The loop of [mark_as_cutoff]; the head of [W] is its back. Every push
    follows an edge to a successor. *)
Fixpoint cutoff_loop h (fuel : nat) (W : list eid) (new_cutoffs : nat) : res (heap * nat) :=
  match W with
  | [] => Ok (h, new_cutoffs)
  | w :: W' =>
      match fuel with
      | O => Err OutOfFuel
      | S fuel' =>
          ew ← deref h w;
          let h' := <[w := set_is_cutoff true ew]> h in
          W'' ← for_each (λ acc s,
                  es ← deref h' s;
                  Ok (if ev_is_cutoff es then acc else s :: acc)) W' (ev_successors ew);
          cutoff_loop h' fuel' W'' (S new_cutoffs)
      end
  end.

Definition cutoff_fuel h : nat :=
  S (map_fold (λ _ e n, length (ev_successors e) + n) 0 h).

Definition mark_as_cutoff h (p : eid) : res (heap * nat) :=
  e ← deref h p;
  if ev_is_cutoff e then Ok (h, 0) else cutoff_loop h (cutoff_fuel h) [p] 0.

(** ** Immediate conflicts *)

(** Colour [p] red and its known conflicts blue, once. *)
Definition paint (red blue : N) (hW : heap * list eid) (p : eid) : res (heap * list eid) :=
  let '(h, W) := hW in
  ep ← deref h p;
  if (ev_imm_cfl_color ep =? red)%N then Ok (h, W)
  else
    let h1 := <[p := set_imm_cfl_color red ep]> h in
    h2 ← for_each (λ h c, upd h c (set_imm_cfl_color blue)) h1 (ev_immediate_conflicts ep);
    Ok (h2, W ++ [p]).

(** [for(i = 0; i < W.size(); ++i)] over the growing vector. *)
Fixpoint paint_causes (red blue : N) (fuel i : nat) (h : heap) (W : list eid)
    : res (heap * list eid) :=
  match W !! i with
  | None => Ok (h, W)
  | Some w =>
      match fuel with
      | O => Err OutOfFuel
      | S fuel' =>
          ew ← deref h w;
          '(h', W') ← for_each (paint red blue) (h, W) (predecessors ew);
          paint_causes red blue fuel' (S i) h' W'
      end
  end.

(** One successor of a red event. *)
Definition examine_successor (this : eid) (red blue : N)
    (st : heap * list eid * list eid) (succ : eid) : res (heap * list eid * list eid) :=
  let '(h, W, result) := st in
  es ← deref h succ;
  if bool_decide (succ = this) || (ev_imm_cfl_color es =? red)%N
     || (ev_imm_cfl_color es =? blue)%N then Ok st
  else
    nonred ← any_of (λ p, ep ← deref h p; Ok (negb (ev_imm_cfl_color ep =? red)%N))
               (predecessors es);
    if (nonred : bool) then Ok st
    else
      et ← deref h this;
      ind ← is_independent_of h et es;
      if (ind : bool) then Ok (<[succ := set_imm_cfl_color red es]> h, succ :: W, result)
      else Ok (<[succ := set_imm_cfl_color blue es]> h, W, result ++ [succ]).

(** [while(!W.empty())]; the head of [W] is its back. *)
Fixpoint conflict_loop (this : eid) (red blue : N) (fuel : nat) (h : heap) (W result : list eid)
    : res (heap * list eid) :=
  match W with
  | [] => Ok (h, result)
  | w :: W' =>
      match fuel with
      | O => Err OutOfFuel
      | S fuel' =>
          ew ← deref h w;
          '(h', W'', result') ←
            for_each (examine_successor this red blue) (h, W', result) (ev_successors ew);
          conflict_loop this red blue fuel' h' W'' result'
      end
  end.

(** [compute_immediate_conflicts], with the counter of [new_cfl_color]. Every
    event is painted red at most once, so the number of events bounds both
    loops. *)
Definition compute_immediate_conflicts (h : heap) (next_cfl_color : N) (this : eid)
    : res (heap * N * list eid) :=
  let blue := N.succ next_cfl_color in
  let red := N.succ blue in
  e ← deref h this;
  '(h1, W1) ← for_each (paint red blue) (h, []) (predecessors e);
  '(h2, W2) ← paint_causes red blue (size h) 0 h1 W1;
  '(h3, result) ← conflict_loop this red blue (size h) h2 (rev W2) [];
  Ok (h3, red, result).

(** ** Comparison *)

(** [has_same_local_path]. *)
Definition has_same_local_path (a b : event) : res bool :=
  match ev_data a, ev_data b with
  | Local _ pa, Local _ pb => Ok (bool_decide (pa = pb))
  | _, _ => Err UndefinedBehaviour
  end.

(** [compare_events] for two different objects. The arrays that
    [predecessors()] ranges over are compared pointer by pointer. *)
Definition compare_events (a b : event) : res bool :=
  if negb (tid_eqb (ev_tid a) (ev_tid b)) then Ok false
  else if negb (Nat.eqb (ev_depth a) (ev_depth b)) then Ok false
  else if negb (kind_eqb (ev_kind a) (ev_kind b)) then Ok false
  else if negb (ev_lid a =? ev_lid b)%N then Ok false
  else if negb (ev_cid a =? ev_cid b)%N then Ok false
  else if negb (bool_decide (atomic_predecessor a = atomic_predecessor b)) then Ok false
  else
    same ←
      match ev_kind a with
      | thread_create =>
          ca ← created_tid a; cb ← created_tid b; Ok (tid_eqb ca cb)
      | local => has_same_local_path a b
      | _ => Ok true
      end;
    if negb same then Ok false
    else Ok (bool_decide (predecessors a = predecessors b)).

(** ** The unfolding *)

Definition key : Type := thread_id * (nat * event_kind).
Definition key_of e : key := (ev_tid e, (ev_depth e, ev_kind e)).

Record stats := Stats {
  st_events_created : list nat;
  st_unique_events : list nat;
  st_cutoff_events : list nat;
  st_events_deduplicated : nat;
  st_cex_created : nat;
  st_cex_inserted : nat;
  st_configurations : nat;
}.

Definition stats0 : stats := Stats (replicate 16 0) (replicate 16 0) (replicate 16 0) 0 0 0 0.

Definition inc_at (k : event_kind) (l : list nat) : list nat :=
  alter S (kind_index k) l.

Definition stats_inc_event_created (k : event_kind) (s : stats) : stats :=
  Stats (inc_at k (st_events_created s)) (st_unique_events s) (st_cutoff_events s)
    (st_events_deduplicated s) (st_cex_created s) (st_cex_inserted s) (st_configurations s).
Definition stats_inc_unique_event (k : event_kind) (s : stats) : stats :=
  Stats (st_events_created s) (inc_at k (st_unique_events s)) (st_cutoff_events s)
    (st_events_deduplicated s) (st_cex_created s) (st_cex_inserted s) (st_configurations s).
Definition stats_inc_cutoff_event (k : event_kind) (s : stats) : stats :=
  Stats (st_events_created s) (st_unique_events s) (inc_at k (st_cutoff_events s))
    (st_events_deduplicated s) (st_cex_created s) (st_cex_inserted s) (st_configurations s).
Definition stats_inc_event_deduplicated (s : stats) : stats :=
  Stats (st_events_created s) (st_unique_events s) (st_cutoff_events s)
    (S (st_events_deduplicated s)) (st_cex_created s) (st_cex_inserted s) (st_configurations s).
Definition stats_inc_cex_created (n : nat) (s : stats) : stats :=
  Stats (st_events_created s) (st_unique_events s) (st_cutoff_events s)
    (st_events_deduplicated s) (st_cex_created s + n) (st_cex_inserted s) (st_configurations s).
Definition stats_inc_cex_inserted (s : stats) : stats :=
  Stats (st_events_created s) (st_unique_events s) (st_cutoff_events s)
    (st_events_deduplicated s) (st_cex_created s) (S (st_cex_inserted s)) (st_configurations s).
Definition stats_inc_configuration (s : stats) : stats :=
  Stats (st_events_created s) (st_unique_events s) (st_cutoff_events s)
    (st_events_deduplicated s) (st_cex_created s) (st_cex_inserted s) (S (st_configurations s)).

Record unfolding := Unfolding {
  uf_heap : heap;
  uf_events : smap key (list eid);
  uf_root : eid;
  uf_size : N;
  uf_stats : stats;
  uf_next_color : N;
  uf_next_cfl_color : N;
}.

Definition set_heap (h : heap) (u : unfolding) : unfolding :=
  Unfolding h (uf_events u) (uf_root u) (uf_size u) (uf_stats u) (uf_next_color u)
    (uf_next_cfl_color u).
Definition upd_stats (f : stats → stats) (u : unfolding) : unfolding :=
  Unfolding (uf_heap u) (uf_events u) (uf_root u) (uf_size u) (f (uf_stats u))
    (uf_next_color u) (uf_next_cfl_color u).

(** [std::size_t] counters wrap around. *)
Definition u64 (n : N) : N := (n mod 2 ^ 64)%N.

Context {AL : Allocator}.

(** [store_event]: the key's vector grows by the new object. *)
Definition store_event e (u : unfolding) : unfolding * eid :=
  let p := fresh_addr (uf_heap u) in
  let size' := u64 (uf_size u + 1) in
  let vec := default [] (smap_find (key_of e) (uf_events u)) in
  (Unfolding (<[p := set_metadata_id size' e]> (uf_heap u))
     (smap_set (key_of e) (vec ++ [p]) (uf_events u)) (uf_root u) size'
     (stats_inc_unique_event (ev_kind e) (uf_stats u)) (uf_next_color u) (uf_next_cfl_color u),
   p).

(** [unfolding()]. The member [_size] has no initialiser: its first value is
    whatever the memory held, the parameter [garbage]. *)
Definition new_unfolding (garbage : N) : unfolding :=
  let u := Unfolding ∅ [] 0 garbage stats0 0 0 in
  let '(u', root) := store_event program_init_event u in
  Unfolding (uf_heap u') (uf_events u') root (uf_size u') (uf_stats u') (uf_next_color u')
    (uf_next_cfl_color u').

(** The branch of [deduplicate] for an event that exists at [v]. *)
Definition found_duplicate e (u : unfolding) (v : eid) : res unfolding :=
  let h := uf_heap u in
  h1 ← (if ev_is_cutoff e then '(h', _) ← mark_as_cutoff h v; Ok h' else Ok h);
  ev ← deref h1 v;
  Ok (upd_stats stats_inc_event_deduplicated
        (set_heap (if metadata_eqb (ev_metadata ev) metadata_default
                   then <[v := set_metadata (ev_metadata e) ev]> h1 else h1) u)).

(** The branch for a new event: store it, link it to its immediate
    predecessors, and compute its immediate conflicts. *)
Definition insert_new e (u : unfolding) : res (unfolding * eid) :=
  let '(u1, p) := store_event e u in
  h2 ← add_to_successors (uf_heap u1) p;
  '(h3, cfl, conflicts) ← compute_immediate_conflicts h2 (uf_next_cfl_color u1) p;
  h4 ← upd h3 p (set_immediate_conflicts conflicts);
  h5 ← for_each (λ h other,
         upd h other (λ eo, set_immediate_conflicts (ev_immediate_conflicts eo ++ [p]) eo))
         h4 conflicts;
  Ok (Unfolding h5 (uf_events u1) (uf_root u1) (uf_size u1) (uf_stats u1)
        (uf_next_color u1) cfl, p).

(** [deduplicate]: the unfolding, whether the event is new, and the event. *)
Definition deduplicate e (u : unfolding) : res (unfolding * bool * eid) :=
  dup ← find_if (λ v, ev ← deref (uf_heap u) v; compare_events e ev)
          (default [] (smap_find (key_of e) (uf_events u)));
  match dup with
  | Some v => u' ← found_duplicate e u v; Ok (u', false, v)
  | None => '(u', p) ← insert_new e u; Ok (u', true, p)
  end.

(** [remove_event]. *)
Definition remove_event (p : eid) (u : unfolding) : res unfolding :=
  e ← deref (uf_heap u) p;
  match smap_find (key_of e) (uf_events u) with
  | None => Ok u
  | Some vec =>
      if bool_decide (p ∈ vec) then
        h1 ← for_each (λ h ic,
               upd h ic (λ ei, set_immediate_conflicts
                 (erase_first p (ev_immediate_conflicts ei)) ei))
               (uf_heap u) (ev_immediate_conflicts e);
        h2 ← destroy_event h1 p;
        Ok (Unfolding h2
              (smap_set (key_of e) (List.filter (λ v, negb (bool_decide (v = p))) vec)
                 (uf_events u))
              (uf_root u) (u64 (uf_size u + (2 ^ 64 - 1))) (uf_stats u) (uf_next_color u)
              (uf_next_cfl_color u))
      else Ok u
  end.

(** [event::colorize(begin, end)] with a new colour. *)
Definition colorize (l : list eid) (u : unfolding) : res (unfolding * N) :=
  let c := N.succ (uf_next_color u) in
  h' ← for_each (λ h p, upd h p (set_color c)) (uf_heap u) l;
  Ok (Unfolding h' (uf_events u) (uf_root u) (uf_size u) (uf_stats u) c (uf_next_cfl_color u), c).

Definition in_immediate_conflict_with_color h (p : eid) (color : N) : res bool :=
  e ← deref h p;
  any_of (λ c, ec ← deref h c; Ok (ev_color ec =? color)%N) (ev_immediate_conflicts e).

(** The search for a conflict below [f]; the head of [W] is its back. [fuel]
    bounds the paths of the walk. *)
Fixpoint alternative_loop h (red blue : N) (fuel : nat) (W : list eid) : res bool :=
  match W with
  | [] => Ok false
  | w :: W' =>
      match fuel with
      | O => Err OutOfFuel
      | S fuel' =>
          ew ← deref h w;
          if (ev_color ew =? red)%N then alternative_loop h red blue fuel' W'
          else
            b ← (if (ev_color ew =? blue)%N then Ok true
                 else in_immediate_conflict_with_color h w red);
            if (b : bool) then Ok true
            else
              imm ← immediate_predecessors h ew;
              alternative_loop h red blue fuel' (rev imm ++ W')
      end
  end.

(** [compute_alternative(c, D)] with [c] given as the sequence its iterator
    yields. *)
Definition compute_alternative (fuel : nat) (c D : list eid) (u : unfolding)
    : res (unfolding * option eid) :=
  _ ← cassert (match D with [] => false | _ => true end);
  '(u1, red) ← colorize c u;
  '(u2, blue) ← colorize D u1;
  let h := uf_heap u2 in
  e ← find_if (λ d,
        ed ← deref h d;
        _ ← cassert (negb (ends_atomic_operation ed));
        b ← in_immediate_conflict_with_color h d red; Ok (negb b)) D;
  match e with
  | None => Err AssertFailed
  | Some e =>
      ee ← deref h e;
      ep ← find_if (λ f,
             ef ← deref h f;
             _ ← cassert (negb (ev_color ef =? red)%N);
             if ev_is_cutoff ef then Ok false
             else b ← alternative_loop h red blue fuel [f]; Ok (negb b))
             (ev_immediate_conflicts ee);
      Ok (u2, ep)
  end.
End unfolding.
