(* ===== verification/Configuration.v ===== *)
(** * Configurations ([include/por/configuration.h], [lib/Por/configuration.cpp])

    A configuration is a causally closed, conflict-free set of events,
    represented by the latest event of every thread, lock and condition
    variable. Every operation looks up these heads, checks its preconditions
    and builds an extension (a new event that is not stored yet); [commit]
    puts the event into the unfolding and updates the heads. The unfolding is
    shared between configurations and passed explicitly. *)

From stdpp Require Import base tactics list gmap numbers.
From S2P Require Import Prelude StdMap ThreadId Event Comb Cone Alloc Unfolding.

Section configuration.
Context {PL : Payload} {AL : Allocator}.
Implicit Types (h : heap) (e : event).

(** [cf_addr] is the address of the object, which an extension records. *)
Record configuration := Configuration {
  cf_addr : N;
  cf_thread_heads : smap thread_id eid;
  cf_lock_heads : smap lock_id_t eid;
  cf_cond_heads : smap cond_id_t (list eid);
  cf_w2_heads : smap cond_id_t (list eid);
  cf_used_cond_ids : sset cond_id_t;
  cf_used_lock_ids : sset lock_id_t;
  cf_size : nat;
  cf_last_extension : nat;
}.

Record extension := Extension {
  ex_event : event;
  ex_configuration : N;
  ex_index : nat;
}.

(** [ex]: every extension gets the next index. *)
Definition ex e (c : configuration) : configuration * extension :=
  (Configuration (cf_addr c) (cf_thread_heads c) (cf_lock_heads c) (cf_cond_heads c)
     (cf_w2_heads c) (cf_used_cond_ids c) (cf_used_lock_ids c) (cf_size c)
     (S (cf_last_extension c)),
   Extension e (cf_addr c) (S (cf_last_extension c))).

(** ** Construction *)

(** [configuration_root]: the unfolding and the heads of the startup threads. *)
Record configuration_root := ConfigurationRoot {
  cr_unfolding : unfolding;
  cr_thread_heads : smap thread_id eid;
}.

Definition new_configuration_root (garbage : N) : configuration_root :=
  ConfigurationRoot (new_unfolding garbage) [].

(** [add_thread]; the local id is narrowed to the 16 bits of
    [thread_size_t]. *)
Definition add_thread (r : configuration_root) : res configuration_root :=
  let u := cr_unfolding r in
  tid ← tid_child tid_root ((N.of_nat (length (cr_thread_heads r)) + 1) mod 65536);
  e ← alloc_thread_init (uf_heap u) tid (uf_root u);
  '(u', _, p) ← deduplicate e u;
  let heads := smap_emplace tid p (cr_thread_heads r) in
  init ← in_range (smap_find tid heads);
  ei ← deref (uf_heap u') init;
  _ ← cassert (bool_decide (predecessors ei = [uf_root u]));
  Ok (ConfigurationRoot (upd_stats (stats_inc_event_created thread_init) u') heads).

(** A chain of [add_thread] calls. *)
Fixpoint add_threads (n : nat) (r : configuration_root) : res configuration_root :=
  match n with O => Ok r | S n' => r' ← add_thread r; add_threads n' r' end.

(** [configuration(configuration_root&&)]. *)
Definition construct (addr : N) (r : configuration_root) : res (unfolding * configuration) :=
  let u := upd_stats (stats_inc_unique_event program_init)
             (upd_stats (stats_inc_event_created program_init) (cr_unfolding r)) in
  _ ← cassert (match cr_thread_heads r with [] => false | _ => true end);
  Ok (u, Configuration addr (cr_thread_heads r) [] [] [] [] [] (length (cr_thread_heads r) + 1) 0).

(** [configuration()]. *)
Definition new_configuration (garbage addr : N) : res (unfolding * configuration) :=
  r ← add_thread (new_configuration_root garbage);
  construct addr r.

(** ** Queries *)

Definition last_of_tid (c : configuration) (tid : thread_id) : option eid :=
  smap_find tid (cf_thread_heads c).
Definition last_of_lid (c : configuration) (lid : lock_id_t) : option eid :=
  smap_find lid (cf_lock_heads c).
Definition last_of_cid (c : configuration) (cid : cond_id_t) : list eid :=
  default [] (smap_find cid (cf_cond_heads c)).

Definition can_acquire_lock h (c : configuration) (lock : lock_id_t) : res bool :=
  _ ← cassert (0 <? lock)%N;
  let lock_event := last_of_lid c lock in
  if (match lock_event with None => true | _ => false end) &&
     negb (sset_has lock (cf_used_lock_ids c)) then Ok true
  else
    p ← nonnull lock_event;
    e ← deref h p;
    Ok (match ev_kind e with lock_create | lock_release | wait1 => true | _ => false end).

(** [wait2_predecessor_cond]: the notification of the given wait1. *)
Definition wait2_predecessor_cond h (w1 : eid) (cond_preds : list eid) : res (option eid) :=
  find_if (λ p,
    e ← deref h p;
    match ev_kind e with
    | broadcast => ws ← broadcast_wait_predecessors e; Ok (bool_decide (w1 ∈ ws))
    | signal => wp ← signal_wait_predecessor h e; Ok (bool_decide (wp = Some w1))
    | _ => Ok false
    end) cond_preds.

Definition was_notified h (c : configuration) (thread : thread_id) (cond : cond_id_t)
    : res bool :=
  match last_of_tid c thread with
  | None => Err AssertFailed
  | Some w1 =>
      e ← deref h w1;
      if negb (kind_eqb (ev_kind e) wait1) then Ok false
      else
        n ← wait2_predecessor_cond h w1 (last_of_cid c cond);
        Ok (match n with Some _ => true | None => false end)
  end.

Definition active_threads h (c : configuration) : res nat :=
  for_each (λ n p,
    e ← deref h p;
    Ok (if negb (kind_eqb (ev_kind e) thread_exit) && negb (kind_eqb (ev_kind e) wait1)
        then S n else n)) 0 (smap_vals (cf_thread_heads c)).

(** ** The preconditions the operations share *)

(** [assert(it != _thread_heads.end())] and the head. *)
Definition existing_head (c : configuration) (thread : thread_id) : res eid :=
  match smap_find thread (cf_thread_heads c) with
  | Some p => Ok p
  | None => Err AssertFailed
  end.

(** The thread exists, has not exited and is not blocked. *)
Definition running_head h (c : configuration) (thread : thread_id) : res eid :=
  p ← existing_head c thread;
  e ← deref h p;
  _ ← cassert (negb (kind_eqb (ev_kind e) thread_exit));
  _ ← cassert (negb (kind_eqb (ev_kind e) wait1));
  Ok p.

Definition lock_head (c : configuration) (lock : lock_id_t) : res eid :=
  match smap_find lock (cf_lock_heads c) with
  | Some p => Ok p
  | None => Err AssertFailed
  end.

(** ** Extensions *)

Abbreviation extend_result := (res (configuration * extension)).

Definition create_thread h (c : configuration) (thread new_tid : thread_id) : extend_result :=
  te ← running_head h c thread;
  _ ← cassert (negb (tid_empty new_tid));
  _ ← cassert (negb (smap_has new_tid (cf_thread_heads c)));
  e ← alloc_thread_create h thread te new_tid;
  Ok (ex e c).

Definition init_thread h (c : configuration) (thread created_from : thread_id) : extend_result :=
  tc ← existing_head c created_from;
  ec ← deref h tc;
  _ ← cassert (kind_eqb (ev_kind ec) thread_create);
  _ ← cassert (negb (tid_eqb (ev_tid ec) thread));
  _ ← cassert (negb (smap_has thread (cf_thread_heads c)));
  e ← alloc_thread_init h thread tc;
  Ok (ex e c).

Definition join_thread h (c : configuration) (thread joined : thread_id) : extend_result :=
  te ← running_head h c thread;
  je ← existing_head c joined;
  ej ← deref h je;
  _ ← cassert (kind_eqb (ev_kind ej) thread_exit);
  e ← alloc_thread_join h thread te je;
  Ok (ex e c).

Definition exit_thread h (c : configuration) (thread : thread_id) (atomic : bool)
    : extend_result :=
  te ← running_head h c thread;
  n ← active_threads h c;
  _ ← cassert (Nat.ltb 0 n);
  e ← alloc_thread_exit h thread te atomic;
  Ok (ex e c).

Definition create_lock h (c : configuration) (thread : thread_id) (lock : lock_id_t)
    : extend_result :=
  te ← running_head h c thread;
  _ ← cassert (0 <? lock)%N;
  _ ← cassert (negb (smap_has lock (cf_lock_heads c)));
  _ ← cassert (negb (sset_has lock (cf_used_lock_ids c)));
  e ← alloc_lock_create h thread lock te;
  Ok (ex e c).

Definition destroy_lock h (c : configuration) (thread : thread_id) (lock : lock_id_t)
    : extend_result :=
  te ← running_head h c thread;
  match smap_find lock (cf_lock_heads c) with
  | None =>
      _ ← cassert (0 <? lock)%N;
      e ← alloc_lock_destroy h thread lock te None;
      Ok (ex e c)
  | Some le =>
      e ← alloc_lock_destroy h thread lock te (Some le);
      Ok (ex e c)
  end.

Definition acquire_lock h (c : configuration) (thread : thread_id) (lock : lock_id_t)
    : extend_result :=
  te ← running_head h c thread;
  can ← can_acquire_lock h c lock;
  _ ← cassert can;
  match smap_find lock (cf_lock_heads c) with
  | None =>
      _ ← cassert (0 <? lock)%N;
      e ← alloc_lock_acquire h thread lock te None;
      Ok (ex e c)
  | Some le =>
      e ← alloc_lock_acquire h thread lock te (Some le);
      Ok (ex e c)
  end.

Definition release_lock h (c : configuration) (thread : thread_id) (lock : lock_id_t)
    (atomic : bool) : extend_result :=
  te ← running_head h c thread;
  le ← lock_head c lock;
  e ← alloc_lock_release h thread lock te le atomic;
  Ok (ex e c).

Definition create_cond h (c : configuration) (thread : thread_id) (cond : cond_id_t)
    : extend_result :=
  te ← running_head h c thread;
  _ ← cassert (0 <? cond)%N;
  _ ← cassert (negb (smap_has cond (cf_cond_heads c)));
  _ ← cassert (negb (sset_has cond (cf_used_cond_ids c)));
  e ← alloc_condition_variable_create h thread cond te;
  Ok (ex e c).

Definition destroy_cond h (c : configuration) (thread : thread_id) (cond : cond_id_t)
    : extend_result :=
  te ← running_head h c thread;
  _ ← cassert (0 <? cond)%N;
  match smap_find cond (cf_cond_heads c) with
  | None =>
      e ← alloc_condition_variable_destroy h thread cond te [];
      Ok (ex e c)
  | Some cond_preds =>
      _ ← cassert (Nat.ltb 0 (length cond_preds));
      let preds := cond_preds ++ default [] (smap_find cond (cf_w2_heads c)) in
      e ← alloc_condition_variable_destroy h thread cond te preds;
      Ok (ex e c)
  end.

(** [wait1_predecessors_cond]: lost signals and broadcasts for others that
    are not below the thread's last event. *)
Definition wait1_predecessors_cond h (thread_event : eid) (cond_preds : list eid)
    : res (list eid) :=
  et ← deref h thread_event;
  filter_res (λ pred,
    ep ← deref h pred;
    skip ←
      match ev_kind ep with
      | wait1 => Ok true
      | signal => lost ← signal_is_lost h ep; Ok (negb lost)
      | broadcast => broadcast_is_notifying_thread h ep (ev_tid et)
      | _ => Ok false
      end;
    if (skip : bool) then Ok false
    else if tid_eqb (ev_tid ep) (ev_tid et) then Ok false
    else le ← is_less_than_eq h pred thread_event; Ok (negb le)) cond_preds.

Definition wait1_op h (c : configuration) (thread : thread_id) (cond : cond_id_t)
    (lock : lock_id_t) : extend_result :=
  te ← running_head h c thread;
  match smap_find cond (cf_cond_heads c) with
  | None =>
      _ ← cassert (0 <? cond)%N;
      _ ← cassert (0 <? lock)%N;
      le ← lock_head c lock;
      e ← alloc_wait1 h thread cond lock te le [];
      Ok (ex e c)
  | Some cond_preds =>
      le ← lock_head c lock;
      non_waiting ← wait1_predecessors_cond h te cond_preds;
      e ← alloc_wait1 h thread cond lock te le non_waiting;
      Ok (ex e c)
  end.

Definition wait2_op h (c : configuration) (thread : thread_id) (cond : cond_id_t)
    (lock : lock_id_t) : extend_result :=
  te ← existing_head c thread;
  et ← deref h te;
  _ ← cassert (negb (kind_eqb (ev_kind et) thread_exit));
  _ ← cassert (kind_eqb (ev_kind et) wait1);
  match smap_find cond (cf_cond_heads c) with
  | None => Err AssertFailed
  | Some cond_preds =>
      le ← lock_head c lock;
      cond_event ← wait2_predecessor_cond h te cond_preds;
      match cond_event with
      | None => Err AssertFailed
      | Some np =>
          e ← alloc_wait2 h thread cond lock te le np;
          Ok (ex e c)
      end
  end.

(** [notified_wait1_predecessor]. *)
Definition notified_wait1_predecessor h (notified_thread : thread_id) (cond_preds : list eid)
    : res eid :=
  r ← find_if (λ p,
        e ← deref h p;
        Ok (tid_eqb (ev_tid e) notified_thread && kind_eqb (ev_kind e) wait1)) cond_preds;
  match r with Some p => Ok p | None => Err AssertFailed end.

(** [lost_notification_predecessors_cond]: the non-lost notifications that are
    not below the thread's last event. *)
Definition lost_notification_predecessors_cond h (thread_event : eid) (cond_preds : list eid)
    : res (list eid) :=
  et ← deref h thread_event;
  filter_res (λ pred,
    ep ← deref h pred;
    skip ←
      match ev_kind ep with
      | wait1 => Err AssertFailed
      | broadcast =>
          lost ← broadcast_is_lost ep;
          if (lost : bool) then Ok true
          else broadcast_is_notifying_thread h ep (ev_tid et)
      | signal =>
          lost ← signal_is_lost h ep;
          if (lost : bool) then Ok true
          else nt ← signal_notified_thread h ep; Ok (tid_eqb nt (ev_tid et))
      | _ => Ok false
      end;
    if (skip : bool) then Ok false
    else if tid_eqb (ev_tid ep) (ev_tid et) then Ok false
    else le ← is_less_than_eq h pred thread_event; Ok (negb le)) cond_preds.

(** The notified thread exists and is blocked. *)
Definition waiting_head h (c : configuration) (thread : thread_id) : res eid :=
  p ← existing_head c thread;
  e ← deref h p;
  _ ← cassert (negb (kind_eqb (ev_kind e) thread_exit));
  _ ← cassert (kind_eqb (ev_kind e) wait1);
  Ok p.

Definition signal_thread h (c : configuration) (thread : thread_id) (cond : cond_id_t)
    (notified_thread : thread_id) : extend_result :=
  te ← running_head h c thread;
  match smap_find cond (cf_cond_heads c) with
  | None =>
      if tid_empty notified_thread then
        _ ← cassert (0 <? cond)%N;
        e ← alloc_signal_lost h thread cond te [];
        Ok (ex e c)
      else Err AssertFailed
  | Some cond_preds =>
      if tid_empty notified_thread then
        prev ← lost_notification_predecessors_cond h te cond_preds;
        e ← alloc_signal_lost h thread cond te prev;
        Ok (ex e c)
      else
        _ ← cassert (negb (tid_eqb notified_thread thread));
        ne ← waiting_head h c notified_thread;
        ce ← notified_wait1_predecessor h notified_thread cond_preds;
        _ ← cassert (bool_decide (ce = ne));
        e ← alloc_signal h thread cond te ce;
        Ok (ex e c)
  end.

(** The loop over the notified threads. *)
Definition broadcast_notified h (c : configuration) (thread : thread_id)
    (cond_preds : list eid) (notified_threads : list thread_id) : res (list eid) :=
  for_each (λ acc nid,
    _ ← cassert (negb (tid_eqb nid thread));
    ne ← waiting_head h c nid;
    ce ← notified_wait1_predecessor h nid cond_preds;
    _ ← cassert (bool_decide (ce = ne));
    Ok (acc ++ [ne])) [] notified_threads.

(** The previous signals a notifying broadcast depends on. *)
Definition broadcast_previous h (thread : thread_id) (te : eid) (cond_preds : list eid)
    (notified_threads : list thread_id) : res (list eid) :=
  filter_res (λ pred,
    ep ← deref h pred;
    skip ←
      match ev_kind ep with
      | wait1 | condition_variable_create | broadcast => Ok true
      | signal =>
          lost ← signal_is_lost h ep;
          if (lost : bool) then Ok true
          else
            nt ← signal_notified_thread h ep;
            Ok (tid_eqb nt thread || existsb (tid_eqb nt) notified_threads)
      | _ => Ok false
      end;
    if (skip : bool) then Ok false
    else if tid_eqb (ev_tid ep) thread then Ok false
    else le ← is_less_than_eq h pred te; Ok (negb le)) cond_preds.

Definition broadcast_threads h (c : configuration) (thread : thread_id) (cond : cond_id_t)
    (notified_threads : list thread_id) : extend_result :=
  te ← running_head h c thread;
  match smap_find cond (cf_cond_heads c), notified_threads with
  | None, [] =>
      _ ← cassert (0 <? cond)%N;
      e ← alloc_broadcast h thread cond te [];
      Ok (ex e c)
  | None, _ => Err AssertFailed
  | Some cond_preds, [] =>
      prev ← lost_notification_predecessors_cond h te cond_preds;
      e ← alloc_broadcast h thread cond te prev;
      Ok (ex e c)
  | Some cond_preds, _ =>
      notified ← broadcast_notified h c thread cond_preds notified_threads;
      prev ← broadcast_previous h thread te cond_preds notified_threads;
      e ← alloc_broadcast h thread cond te (notified ++ prev);
      Ok (ex e c)
  end.

(** [local]: a blocked thread is not excluded. *)
Definition local_op h (c : configuration) (thread : thread_id) (path : list decision)
    : extend_result :=
  te ← existing_head c thread;
  et ← deref h te;
  _ ← cassert (negb (kind_eqb (ev_kind et) thread_exit));
  e ← alloc_local h thread te path;
  Ok (ex e c).

(** ** Commit *)

Definition no_cond_predecessors e : bool :=
  match condition_variable_predecessors e with [] => true | _ => false end.

Definition set_lock_head (l : lock_id_t) (p : eid) (c : configuration) : configuration :=
  Configuration (cf_addr c) (cf_thread_heads c) (smap_set l p (cf_lock_heads c))
    (cf_cond_heads c) (cf_w2_heads c) (cf_used_cond_ids c) (cf_used_lock_ids c) (cf_size c)
    (cf_last_extension c).
Definition erase_lock_head (l : lock_id_t) (c : configuration) : configuration :=
  Configuration (cf_addr c) (cf_thread_heads c) (smap_erase l (cf_lock_heads c))
    (cf_cond_heads c) (cf_w2_heads c) (cf_used_cond_ids c) (cf_used_lock_ids c) (cf_size c)
    (cf_last_extension c).
Definition use_lock_id (l : lock_id_t) (c : configuration) : configuration :=
  Configuration (cf_addr c) (cf_thread_heads c) (cf_lock_heads c) (cf_cond_heads c)
    (cf_w2_heads c) (cf_used_cond_ids c) (sset_insert l (cf_used_lock_ids c)) (cf_size c)
    (cf_last_extension c).
Definition use_cond_id (k : cond_id_t) (c : configuration) : configuration :=
  Configuration (cf_addr c) (cf_thread_heads c) (cf_lock_heads c) (cf_cond_heads c)
    (cf_w2_heads c) (sset_insert k (cf_used_cond_ids c)) (cf_used_lock_ids c) (cf_size c)
    (cf_last_extension c).
Definition set_cond_heads (m : smap cond_id_t (list eid)) (c : configuration) : configuration :=
  Configuration (cf_addr c) (cf_thread_heads c) (cf_lock_heads c) m
    (cf_w2_heads c) (cf_used_cond_ids c) (cf_used_lock_ids c) (cf_size c)
    (cf_last_extension c).
Definition set_w2_heads (m : smap cond_id_t (list eid)) (c : configuration) : configuration :=
  Configuration (cf_addr c) (cf_thread_heads c) (cf_lock_heads c) (cf_cond_heads c)
    m (cf_used_cond_ids c) (cf_used_lock_ids c) (cf_size c)
    (cf_last_extension c).

(** [_thread_heads[event->tid()] = event; ++_size]. *)
Definition advance_thread (tid : thread_id) (p : eid) (c : configuration) : configuration :=
  Configuration (cf_addr c) (smap_set tid p (cf_thread_heads c)) (cf_lock_heads c)
    (cf_cond_heads c) (cf_w2_heads c) (cf_used_cond_ids c) (cf_used_lock_ids c)
    (S (cf_size c)) (cf_last_extension c).

(** [*std::find(begin, end, wait) = event]: past the end when the wait1 is
    not there. *)
Fixpoint replace_first (w p : eid) (l : list eid) : res (list eid) :=
  match l with
  | [] => Err UndefinedBehaviour
  | x :: l' =>
      if bool_decide (x = w) then Ok (p :: l') else r ← replace_first w p l'; Ok (x :: r)
  end.

(** The [switch] of [commit]. *)
Definition update_heads h (p : eid) e (c : configuration) : res configuration :=
  let lid := ev_lid e in
  let cid := ev_cid e in
  let conds := cf_cond_heads c in
  let use_if_first c := if no_cond_predecessors e then use_cond_id cid c else c in
  match ev_kind e with
  | lock_create => Ok (set_lock_head lid p (use_lock_id lid c))
  | lock_acquire =>
      let c' := match lock_predecessor e with None => use_lock_id lid c | Some _ => c end in
      Ok (set_lock_head lid p c')
  | lock_release => Ok (set_lock_head lid p c)
  | lock_destroy =>
      Ok (match lock_predecessor e with
          | None => use_lock_id lid c
          | Some _ => erase_lock_head lid c
          end)
  | condition_variable_create =>
      Ok (set_cond_heads (smap_emplace cid [p] conds) (use_cond_id cid c))
  | wait1 =>
      Ok (set_cond_heads (smap_set cid (default [] (smap_find cid conds) ++ [p]) conds)
            (set_lock_head lid p (use_if_first c)))
  | wait2 =>
      Ok (set_w2_heads
            (smap_set cid (default [] (smap_find cid (cf_w2_heads c)) ++ [p]) (cf_w2_heads c))
            (set_lock_head lid p c))
  | signal =>
      let cond_preds := default [] (smap_find cid conds) in
      wp ← signal_wait_predecessor h e;
      cond_preds' ← match wp with
                    | Some w => replace_first w p cond_preds
                    | None => Ok (cond_preds ++ [p])
                    end;
      Ok (set_cond_heads (smap_set cid cond_preds' conds) (use_if_first c))
  | broadcast =>
      let cond_preds := default [] (smap_find cid conds) in
      lost ← broadcast_is_lost e;
      ws ← broadcast_wait_predecessors e;
      let kept := if (lost : bool) then cond_preds
                  else List.filter (λ x, negb (bool_decide (x ∈ ws))) cond_preds in
      Ok (set_cond_heads (smap_set cid (kept ++ [p]) conds) (use_if_first c))
  | condition_variable_destroy =>
      Ok (if no_cond_predecessors e then use_cond_id cid c
          else set_w2_heads (smap_erase cid (cf_w2_heads c))
                 (set_cond_heads (smap_erase cid conds) c))
  | local | program_init | thread_create | thread_exit | thread_init | thread_join => Ok c
  end.

Definition commit (x : extension) (u : unfolding) (c : configuration)
    : res (unfolding * configuration * eid) :=
  _ ← cassert ((ex_configuration x =? cf_addr c)%N &&
               Nat.eqb (ex_index x) (cf_last_extension c));
  '(u', _, p) ← deduplicate (ex_event x) u;
  e ← deref (uf_heap u') p;
  let u'' := upd_stats (stats_inc_event_created (ev_kind e)) u' in
  c' ← update_heads (uf_heap u'') p e (advance_thread (ev_tid e) p c);
  Ok (u'', c', p).

(** ** Iteration

    The sequence of [configuration_iterator]: threads in descending order,
    each from its head down, then [program_init]. *)
Definition configuration_events (u : unfolding) (c : configuration) : res (list eid) :=
  match cf_thread_heads c with
  | [] => Ok []
  | _ =>
      l ← cone_walk (uf_heap u) (rev (smap_vals (cf_thread_heads c)));
      Ok (l ++ [uf_root u])
  end.

(** [cone(configuration)]: the thread heads. *)
Definition cone_of_configuration (c : configuration) : smap thread_id eid :=
  cf_thread_heads c.
End configuration.
