(* ===== verification/Cex.v ===== *)
(** * Conflicting extensions ([include/por/configuration.h])

    For an event of a configuration, the events of the same thread that could
    have happened instead: an acquisition after an earlier release, a wait
    with other notifications before it, a notification with other waiters.
    Every candidate is deduplicated into the unfolding, so the functions pass
    the unfolding through. *)

From stdpp Require Import base tactics list gmap numbers.
From S2P Require Import Prelude StdMap ThreadId Event Comb Cone Alloc Unfolding Configuration.

Section cex.
Context {PL : Payload} {AL : Allocator}.
Implicit Types (h : heap) (e : event).

(** The unfolding and the deduplication results so far. *)
Definition cex_state : Type := unfolding * list (bool * eid).

(** [result.emplace_back(_unfolding->deduplicate(...))] and the statistics. *)
Definition emplace (k : event_kind) (mk : heap → res event) (st : cex_state) : res cex_state :=
  let '(u, result) := st in
  e ← mk (uf_heap u);
  '(u', unknown, p) ← deduplicate e u;
  Ok (upd_stats (stats_inc_event_created k) u', result ++ [(unknown, p)]).

(** ** Acquisitions *)

(** Descend the chain of lock events while the condition holds. *)
Fixpoint descend_lock h (fuel : nat) (go_on : eid → res bool) (em : option eid)
    : res (option eid) :=
  match em with
  | None => Ok None
  | Some m =>
      b ← go_on m;
      if negb b then Ok (Some m)
      else
        match fuel with
        | O => Err OutOfFuel
        | S fuel' => e ← deref h m; descend_lock h fuel' go_on (lock_predecessor e)
        end
  end.

(** The last loop of [cex_acquire], over the lock events before [er]. *)
Fixpoint acquire_loop (fuel : nat) (go_on : heap → eid → res bool)
    (mk : eid → heap → res event) (is_acq : bool) (ep : option eid) (st : cex_state)
    : res cex_state :=
  match ep with
  | None => Ok st
  | Some p =>
      let h := uf_heap st.1 in
      b ← go_on h p;
      if negb b then Ok st
      else
        match fuel with
        | O => Err OutOfFuel
        | S fuel' =>
            e ← deref h p;
            st' ←
              match ev_kind e with
              | lock_release | wait1 | lock_create =>
                  if is_acq then emplace lock_acquire (mk p) st
                  else
                    _ ← cassert (negb (kind_eqb (ev_kind e) lock_create));
                    emplace wait2 (mk p) st
              | _ => Ok st
              end;
            acquire_loop fuel' go_on mk is_acq (lock_predecessor e) st'
        end
  end.

(** The candidate at [em], the last lock event in the causes. *)
Definition acquire_at_em e (et : eid) (es em : option eid) (st : cex_state) : res cex_state :=
  let is_acq := kind_eqb (ev_kind e) lock_acquire in
  let acq lp := emplace lock_acquire
    (λ h, alloc_lock_acquire h (ev_tid e) (ev_lid e) et lp) st in
  match em with
  | None => _ ← cassert is_acq; acq None
  | Some m =>
      emv ← deref (uf_heap st.1) m;
      match ev_kind emv with
      | lock_release | wait1 =>
          if is_acq then acq (Some m)
          else if kind_eqb (ev_kind emv) lock_release then
            s ← nonnull es;
            emplace wait2 (λ h, alloc_wait2 h (ev_tid e) (ev_cid e) (ev_lid e) et m s) st
          else Ok st
      | lock_create => _ ← cassert is_acq; acq (Some m)
      | _ => Ok st
      end
  end.

Definition cex_acquire (p : eid) (u : unfolding) : res cex_state :=
  let h := uf_heap u in
  e ← deref h p;
  _ ← cassert (kind_eqb (ev_kind e) lock_acquire || kind_eqb (ev_kind e) wait2);
  let is_acq := kind_eqb (ev_kind e) lock_acquire in
  et ← nonnull (thread_predecessor e);
  ett ← deref h et;
  let er := lock_predecessor e in
  let fuel := ev_depth e in
  if ev_is_cutoff ett then Ok (u, [])
  else
    es ← (if is_acq then Ok None
          else match ev_data e with
               | Wait2 _ np _ _ _ _ => Ok (Some np)
               | _ => Err UndefinedBehaviour
               end);
    es_cutoff ← match es with
                | None => Ok false
                | Some s => ess ← deref h s; Ok (ev_is_cutoff ess)
                end;
    if (es_cutoff : bool) then Ok (u, [])
    else
      em ← descend_lock h fuel (λ m,
             b1 ← is_less_than_eq h m et;
             if (b1 : bool) then Ok false
             else match es with
                  | None => Ok true
                  | Some s => b2 ← is_less_than h m s; Ok (negb b2)
                  end) er;
      if bool_decide (em = er) then Ok (u, [])
      else
        st1 ← acquire_at_em e et es em (u, []);
        r ← nonnull er;
        erv ← deref h r;
        acquire_loop fuel (λ h x,
          b1 ← match em with None => Ok true | Some m => b ← is_less_than_eq h x m; Ok (negb b) end;
          if negb b1 then Ok false
          else match es with None => Ok true | Some s => b ← is_less_than_eq h x s; Ok (negb b) end)
          (λ lp h, if is_acq then alloc_lock_acquire h (ev_tid e) (ev_lid e) et (Some lp)
                   else s ← nonnull es;
                        alloc_wait2 h (ev_tid e) (ev_cid e) (ev_lid e) et lp s)
          is_acq (lock_predecessor erv) st1.

(** ** Waits *)

(** Whether the cone of [M] and [et] differs from the cone of the event. *)
Definition wait1_cex_found h (c ce : smap thread_id eid) : res bool :=
  _ ← cassert (Nat.leb (length c) (length ce));
  if negb (Nat.eqb (length c) (length ce)) then Ok true
  else any_of (λ '(tid, x), y ← in_range (smap_find tid c); is_less_than h y x) ce.

Definition cex_wait1 (p : eid) (u : unfolding) : res cex_state :=
  let h := uf_heap u in
  e ← deref h p;
  _ ← cassert (kind_eqb (ev_kind e) wait1);
  et ← nonnull (thread_predecessor e);
  ett ← deref h et;
  if ev_is_cutoff ett then Ok (u, [])
  else
    '(cond_create, cmb) ← for_each (λ '(cc, cmb) q,
        eq ← deref h q;
        if kind_eqb (ev_kind eq) condition_variable_create then Ok (Some q, cmb)
        else
          b ← (if tid_eqb (ev_tid eq) (ev_tid e) then Ok true else is_less_than h q et);
          _ ← cassert (negb b);
          cmb' ← comb_insert h q cmb;
          Ok (cc, cmb')) (None, []) (condition_variable_predecessors e);
    '(st, _) ← concurrent_combinations (λ st M,
        let h := uf_heap st.1 in
        c ← cone_of_preds h et cond_create M;
        found ← wait1_cex_found h c (ev_cone e);
        if negb found then Ok (st, false)
        else
          lp ← nonnull (lock_predecessor e);
          let N := M ++ option_list cond_create in
          st' ← emplace wait1
                  (λ h, alloc_wait1 h (ev_tid e) (ev_cid e) (ev_lid e) et lp N) st;
          Ok (st', false)) h cmb (u, []);
    Ok st.

(** ** Notifications *)

(** Remove from [wait1s] what the events of one thread notify. *)
Fixpoint outstanding_walk h (fuel : nat) (cid : cond_id_t) (e : option eid) (wait1s : list eid)
    : res (list eid) :=
  match e, wait1s with
  | None, _ | _, [] => Ok wait1s
  | Some p, front :: _ =>
      match fuel with
      | O => Err OutOfFuel
      | S fuel' =>
          ep ← deref h p;
          ef ← deref h front;
          if Nat.ltb (ev_depth ep) (ev_depth ef) then Ok wait1s
          else
            wait1s' ←
              match ev_kind ep with
              | signal =>
                  if negb (ev_cid ep =? cid)%N then Ok wait1s
                  else
                    lost ← signal_is_lost h ep;
                    if (lost : bool) then Ok wait1s
                    else
                      wp ← signal_wait_predecessor h ep;
                      Ok (List.filter (λ w, negb (bool_decide (Some w = wp))) wait1s)
              | broadcast =>
                  if negb (ev_cid ep =? cid)%N then Ok wait1s
                  else
                    lost ← broadcast_is_lost ep;
                    if (lost : bool) then Ok wait1s
                    else
                      ws ← broadcast_wait_predecessors ep;
                      filter_res (λ w,
                        ew ← deref h w;
                        b ← any_of (λ n,
                              en ← deref h n;
                              Ok (tid_eqb (ev_tid en) (ev_tid ew) &&
                                  Nat.eqb (ev_depth en) (ev_depth ew))) ws;
                        Ok (negb b)) wait1s
              | _ => Ok wait1s
              end;
            outstanding_walk h fuel' cid (thread_predecessor ep) wait1s'
      end
  end.

(** [outstanding_wait1(cid, cone)]. *)
Definition outstanding_wait1_cone h (cid : cond_id_t) (c : smap thread_id eid)
    : res (list eid) :=
  wait1s ← filter_res (λ p,
             e ← deref h p; Ok (kind_eqb (ev_kind e) wait1 && (ev_cid e =? cid)%N))
             (smap_vals c);
  match wait1s with
  | [] => Ok []
  | _ =>
      sorted ← std_sort (λ a b,
                 ea ← deref h a; eb ← deref h b;
                 Ok (Nat.ltb (ev_depth ea) (ev_depth eb))) wait1s;
      for_each (λ ws p,
        e ← deref h p;
        outstanding_walk h (S (ev_depth e)) cid (Some p) ws) sorted (smap_vals c)
  end.

(** [outstanding_wait1(cid, events)]. *)
Definition outstanding_wait1 h (cid : cond_id_t) (events : list eid) : res (list eid) :=
  match events with
  | [] => Err AssertFailed
  | [x] => e ← deref h x; outstanding_wait1_cone h cid (ev_cone e)
  | _ => c ← cone_of_range h events; outstanding_wait1_cone h cid c
  end.

(** [max.size() == M.size()] and no element of [M] below one of [max]. *)
Definition is_max h (max M : list eid) : res bool :=
  if negb (Nat.eqb (length max) (length M)) then Ok false
  else
    b ← any_of (λ m, any_of (λ x, is_less_than h m x) max) M;
    Ok (negb b).

(** Only non-lost notifications. *)
Definition only_notifications h (M : list eid) : res bool :=
  let signals := all_of (λ m,
        em ← deref h m;
        if negb (kind_eqb (ev_kind em) signal) then Ok false
        else lost ← signal_is_lost h em; Ok (negb lost)) M in
  match M with
  | [m] =>
      em ← deref h m;
      if kind_eqb (ev_kind em) broadcast then lost ← broadcast_is_lost em; Ok (negb lost)
      else signals
  | _ => signals
  end.

(** Only wait1s and non-lost signals. *)
Definition only_waits_and_signals h (M : list eid) : res bool :=
  all_of (λ m,
    em ← deref h m;
    match ev_kind em with
    | wait1 => Ok true
    | signal => lost ← signal_is_lost h em; Ok (negb lost)
    | _ => Ok false
    end) M.

(** The condition variable predecessors of a lost notification. *)
Definition lost_cond_predecessors h e (M : list eid) : res (list eid) :=
  filter_res (λ m,
    em ← deref h m;
    match ev_kind em with
    | broadcast =>
        lost ← broadcast_is_lost em;
        if (lost : bool) then Ok false
        else n ← broadcast_is_notifying_thread h em (ev_tid e); Ok (negb n)
    | signal =>
        lost ← signal_is_lost h em;
        if (lost : bool) then Ok false
        else nt ← signal_notified_thread h em; Ok (negb (tid_eqb nt (ev_tid e)))
    | _ => Ok false
    end) M.

(** The events on the same condition variable outside of [[et]] and of the
    successors of [e], walking one thread down. *)
Record notification_combs := NotificationCombs {
  nc_cond_create : option eid;
  nc_comb : comb;
  nc_wait1_comb : comb;
}.

Fixpoint notification_walk h (fuel : nat) (p : eid) e (et : eid) (pred : option eid)
    (nc : notification_combs) : res notification_combs :=
  match pred with
  | None => Ok nc
  | Some q =>
      match fuel with
      | O => Err OutOfFuel
      | S fuel' =>
          eq ← deref h q;
          if tid_eqb (ev_tid eq) (ev_tid e) then Ok nc
          else
            b1 ← is_less_than h p q;
            if (b1 : bool) then Ok nc
            else
              b2 ← is_less_than h q et;
              if (b2 : bool) then Ok nc
              else
                nc' ←
                  (if negb (ev_cid eq =? ev_cid e)%N then Ok nc
                   else match ev_kind eq with
                     | condition_variable_create =>
                         Ok (NotificationCombs (Some q) (nc_comb nc) (nc_wait1_comb nc))
                     | wait2 => Ok nc
                     | k =>
                         c ← comb_insert h q (nc_comb nc);
                         w ← (if kind_eqb k wait1 then comb_insert h q (nc_wait1_comb nc)
                              else Ok (nc_wait1_comb nc));
                         Ok (NotificationCombs (nc_cond_create nc) c w)
                     end);
                notification_walk h fuel' p e et (thread_predecessor eq) nc'
      end
  end.

(** The callback for lost notifications. *)
Definition lost_candidate e (et : eid) (max : list eid) (cond_create : option eid)
    (st : cex_state) (M : list eid) : res (cex_state * bool) :=
  let h := uf_heap st.1 in
  m ← is_max h max M;
  if (m : bool) then Ok (st, false)
  else
    ok ← only_notifications h M;
    if negb ok then Ok (st, false)
    else
      out ← outstanding_wait1 h (ev_cid e) (M ++ [et]);
      match out with
      | _ :: _ => Ok (st, false)
      | [] =>
          n ← lost_cond_predecessors h e M;
          let N := n ++ option_list cond_create in
          st' ←
            (if kind_eqb (ev_kind e) signal
             then emplace signal (λ h, alloc_signal_lost h (ev_tid e) (ev_cid e) et N) st
             else emplace broadcast (λ h, alloc_broadcast h (ev_tid e) (ev_cid e) et N) st);
          Ok (st', false)
      end.

(** The callback for notifying broadcasts. *)
Definition broadcast_candidate e (et : eid) (max : list eid)
    (st : cex_state) (M : list eid) : res (cex_state * bool) :=
  let h := uf_heap st.1 in
  m ← is_max h max M;
  if (m : bool) then Ok (st, false)
  else
    ok ← only_waits_and_signals h M;
    if negb ok then Ok (st, false)
    else
      out ← outstanding_wait1 h (ev_cid e) (M ++ [et]);
      match out with
      | [] => Ok (st, false)
      | _ =>
          st' ← emplace broadcast (λ h, alloc_broadcast h (ev_tid e) (ev_cid e) et M) st;
          Ok (st', false)
      end.

(** The loop over the waits a signal could notify instead. *)
Definition signal_candidates e (et : eid) (wait_pred : option eid) (W : list eid)
    (st : cex_state) : res cex_state :=
  for_each (λ st w,
    if bool_decide (Some w = wait_pred) then Ok st
    else emplace signal (λ h, alloc_signal h (ev_tid e) (ev_cid e) et w) st) st W.

Definition cex_notification (c : configuration) (p : eid) (u : unfolding) : res cex_state :=
  let h := uf_heap u in
  e ← deref h p;
  _ ← cassert (kind_eqb (ev_kind e) signal || kind_eqb (ev_kind e) broadcast);
  et ← nonnull (thread_predecessor e);
  ett ← deref h et;
  if ev_is_cutoff ett then Ok (u, [])
  else
    cmb0 ← for_each (λ cmb q,
             eq ← deref h q;
             b ← (if tid_eqb (ev_tid eq) (ev_tid e) then Ok true else is_less_than h q et);
             if (b : bool) then Ok cmb else comb_insert h q cmb)
             [] (condition_variable_predecessors e);
    max ← comb_max h cmb0;
    nc ← for_each (λ nc q,
           eq ← deref h q;
           notification_walk h (S (ev_depth eq)) p e et (Some q) nc)
           (NotificationCombs None [] []) (smap_vals (cf_thread_heads c));
    '(st1, _) ← concurrent_combinations (lost_candidate e et max (nc_cond_create nc))
                  h (nc_comb nc) (u, []);
    st2 ←
      (if kind_eqb (ev_kind e) signal then
         W ← outstanding_wait1_cone (uf_heap st1.1) (ev_cid e) (ev_cone ett);
         wp ← signal_wait_predecessor (uf_heap st1.1) e;
         signal_candidates e et wp (W ++ comb_events (nc_wait1_comb nc)) st1
       else Ok st1);
    if kind_eqb (ev_kind e) broadcast then
      '(st3, _) ← concurrent_combinations (broadcast_candidate e et max)
                    (uf_heap st2.1) (nc_comb nc) st2;
      Ok st3
    else Ok st2.

(** ** Deadlocks *)

Definition stats_cex (n : nat) (u : unfolding) : unfolding :=
  upd_stats (stats_inc_cex_created n) u.

Definition conflicting_extensions_deadlock (c : configuration) (tid : thread_id)
    (lid : lock_id_t) (kind : event_kind) (unknown_only : bool) (u : unfolding)
    : res (unfolding * list eid) :=
  let h := uf_heap u in
  et ← nonnull (last_of_tid c tid);
  ett ← deref h et;
  if ev_is_cutoff ett then Ok (u, [])
  else
    em ← match last_of_lid c lid with Some m => Ok m | None => Err AssertFailed end;
    P0 ← cone_of_pred h et;
    es ←
      (if kind_eqb kind wait2 then
         _ ← cassert (kind_eqb (ev_kind ett) wait1);
         _ ← cassert (match ev_successors ett with [] => false | _ => true end);
         match smap_find (ev_cid ett) (cf_cond_heads c) with
         | None => Err AssertFailed
         | Some cond_preds => wait2_predecessor_cond h et cond_preds
         end
       else _ ← cassert (kind_eqb kind lock_acquire); Ok None);
    stop ← match es with
           | None => Ok (kind_eqb kind wait2)
           | Some s => ess ← deref h s; Ok (ev_is_cutoff ess)
           end;
    if (stop : bool) then Ok (u, [])
    else
      P ← match es with None => Ok P0 | Some s => cone_insert h s P0 end;
      A ← setminus h (cf_thread_heads c) P;
      A' ← comb_insert h em A;
      X ← comb_filter h A' (λ e, (ev_lid e =? lid)%N && negb (ev_is_cutoff e) &&
            match ev_kind e with lock_release | wait1 | lock_create => true | _ => false end);
      '(u', candidates) ← for_each (λ st m,
          emv ← deref (uf_heap st.1) m;
          if ev_is_cutoff emv then Ok st
          else if kind_eqb kind lock_acquire then
            emplace lock_acquire (λ h, alloc_lock_acquire h tid lid et (Some m)) st
          else
            _ ← cassert (kind_eqb kind wait2);
            _ ← cassert (negb (kind_eqb (ev_kind emv) lock_create));
            s ← nonnull es;
            ess ← deref (uf_heap st.1) s;
            emplace wait2 (λ h, alloc_wait2 h tid (ev_cid ess) lid et m s) st)
          (u, []) (comb_events X);
      let result := (List.filter (λ '(unknown, _), negb (unknown_only && negb unknown))
                       candidates).*2 in
      Ok (stats_cex (length result) u', result).

(** ** All conflicting extensions *)

(** [mark_all_cex_known]. *)
Definition mark_all_cex_known (p : eid) (u : unfolding) : res unfolding :=
  h' ← upd (uf_heap u) p (λ e,
         Event (ev_tid e)
           (match ev_data e with
            | LockAcquire tp lp l _ => LockAcquire tp lp l true
            | Wait2 tp np lp cd l _ => Wait2 tp np lp cd l true
            | d => d
            end) (ev_cone e) (ev_depth e) (ev_color e) (ev_imm_cfl_color e)
           (ev_successors e) (ev_immediate_conflicts e) (ev_metadata e) (ev_is_cutoff e)
           (ev_lc_size e));
  Ok (set_heap h' u).

Definition all_cex_known e : bool :=
  match ev_data e with
  | LockAcquire _ _ _ b | Wait2 _ _ _ _ _ b => b
  | _ => false
  end.

(** One event of the configuration. *)
Definition cex_of_event (c : configuration) (p : eid) (u : unfolding) : res cex_state :=
  e ← deref (uf_heap u) p;
  match ev_kind e with
  | lock_acquire | wait2 =>
      if all_cex_known e then Ok (u, [])
      else
        '(u', cand) ← cex_acquire p u;
        u'' ← mark_all_cex_known p u';
        Ok (u'', cand)
  | wait1 => cex_wait1 p u
  | signal | broadcast => cex_notification c p u
  | _ => Ok (u, [])
  end.

Definition conflicting_extensions (c : configuration) (unknown_only : bool) (u : unfolding)
    : res (unfolding * list eid) :=
  let u0 := upd_stats stats_inc_configuration u in
  events ← configuration_events u0 c;
  '(u1, result) ← for_each (λ '(u, result) p,
      '(u', cand) ← cex_of_event c p u;
      keep ← filter_res (λ '(unknown, q),
               eq ← deref (uf_heap u') q;
               Ok (negb ((unknown_only && negb unknown) || ev_is_cutoff eq))) cand;
      Ok (u', result ++ keep.*2)) (u0, []) events;
  Ok (stats_cex (length result) u1, result).

(** [configuration::compute_alternative]. *)
Definition configuration_compute_alternative (fuel : nat) (c : configuration) (D : list eid)
    (u : unfolding) : res (unfolding * option eid) :=
  events ← configuration_events u c;
  compute_alternative fuel events D u.

(** ** Extensions of a configuration ([event::is_extension_of]) *)

Fixpoint reaches h (fuel : nat) (e : option eid) (p : eid) : res bool :=
  match e with
  | None => Ok false
  | Some x =>
      if bool_decide (x = p) then Ok true
      else
        match fuel with
        | O => Err OutOfFuel
        | S fuel' => ex ← deref h x; reaches h fuel' (thread_predecessor ex) p
        end
  end.

Definition is_extension_of h e (c : configuration) : res bool :=
  let C := cone_of_configuration c in
  gap ← any_of (λ '(_, p),
          ep ← deref h p;
          match smap_find (ev_tid ep) C with
          | None => Ok true
          | Some q => eq ← deref h q; Ok (Nat.ltb (ev_depth eq) (ev_depth ep))
          end) (ev_cone e);
  if (gap : bool) then Ok false
  else
    imm ← immediate_predecessors h e;
    all_of (λ p,
      ep ← deref h p;
      match smap_find (ev_tid ep) C with
      | None => Err AssertFailed
      | Some q =>
          eq ← deref h q;
          _ ← cassert (Nat.leb (ev_depth ep) (ev_depth eq));
          reaches h (S (ev_depth eq)) (Some q) p
      end) imm.
End cex.
