(* ===== verification/ColorProofs.v ===== *)
(** * Immediate conflicts

    [compute_immediate_conflicts] paints causes red and known conflicts blue
    and then searches forward from the red events. The proofs relate each of
    its three loops to a set of events; the colours are the only fields that
    change. *)

From stdpp Require Import base tactics list gmap numbers relations fin_maps.
From S2P Require Import Prelude StdMap ThreadId Event Comb CombEnum CombProofs Cone Alloc Causality.
From S2P Require Import HeapExt Order Walks Independence Unfolding.

Section colors.
Context {PL : Payload}.
Implicit Types (h : heap) (e : event).

(** ** Heaps that differ in conflict colours only *)

Definition cfl_eq h h' : Prop :=
  ∀ p, (set_imm_cfl_color 0 <$> h !! p) = (set_imm_cfl_color 0 <$> h' !! p).

#[export] Instance cfl_eq_equiv : Equivalence cfl_eq.
Proof.
  split; [by intros h p | by intros h h' H p | intros a b c H1 H2 p; by rewrite H1].
Qed.

Lemma cfl_eq_lookup h h' p e :
  cfl_eq h h' → h !! p = Some e →
  ∃ e', h' !! p = Some e' ∧ set_imm_cfl_color 0 e = set_imm_cfl_color 0 e'.
Proof.
  intros Heq Hp. specialize (Heq p). rewrite Hp in Heq. simpl in Heq. symmetry in Heq.
  apply fmap_Some in Heq as (e' & He' & Hc). eauto.
Qed.

Lemma cfl_eq_fields e e' :
  set_imm_cfl_color 0 e = set_imm_cfl_color 0 e' →
  same_core e e' ∧ ev_data e = ev_data e' ∧ ev_successors e = ev_successors e' ∧
  ev_immediate_conflicts e = ev_immediate_conflicts e' ∧ ev_is_cutoff e = ev_is_cutoff e' ∧
  ev_metadata e = ev_metadata e' ∧ ev_color e = ev_color e'.
Proof. intros [= ????]. repeat split; congruence. Qed.

Lemma cfl_eq_ext h h' : cfl_eq h h' → heap_ext h h'.
Proof.
  intros Heq p e Hp. destruct (cfl_eq_lookup _ _ _ _ Heq Hp) as (e' & He' & Hc).
  exists e'. split; [done | by apply cfl_eq_fields].
Qed.

Lemma cfl_eq_some h h' p : cfl_eq h h' → is_Some (h !! p) ↔ is_Some (h' !! p).
Proof.
  intros Heq. specialize (Heq p). split; intros [e He]; rewrite He in Heq; simpl in Heq.
  - symmetry in Heq. apply fmap_Some in Heq as (? & ? & _). eauto.
  - apply fmap_Some in Heq as (? & ? & _). eauto.
Qed.

Lemma cfl_eq_insert h p e c :
  h !! p = Some e → cfl_eq h (<[p := set_imm_cfl_color c e]> h).
Proof.
  intros Hp q. destruct (decide (p = q)) as [->|].
  - by rewrite lookup_insert_eq, Hp.
  - by rewrite lookup_insert_ne.
Qed.

(** The conflict colour at an address. *)
Definition col h (p : eid) : option N := ev_imm_cfl_color <$> h !! p.

Lemma col_insert h p e c q :
  col (<[p := set_imm_cfl_color c e]> h) q = if decide (p = q) then Some c else col h q.
Proof.
  unfold col. destruct (decide (p = q)) as [->|]; [by rewrite lookup_insert_eq|].
  by rewrite lookup_insert_ne.
Qed.

Lemma col_some h p e : h !! p = Some e → col h p = Some (ev_imm_cfl_color e).
Proof. intros Hp. unfold col. by rewrite Hp. Qed.

Lemma col_is_some h p c : col h p = Some c → is_Some (h !! p).
Proof. unfold col. intros (e & He & _)%fmap_Some. eauto. Qed.

Lemma upd_ok h p e f : h !! p = Some e → upd h p f = Ok (<[p := f e]> h).
Proof. intros Hp. unfold upd, deref. by rewrite Hp. Qed.

(** Painting a list of stored events. *)
Lemma paint_all_spec h c l :
  (∀ p, p ∈ l → is_Some (h !! p)) →
  ∃ h', for_each (λ h p, upd h p (set_imm_cfl_color c)) h l = Ok h' ∧ cfl_eq h h' ∧
    ∀ q, col h' q = if decide (q ∈ l) then Some c else col h q.
Proof.
  revert h. induction l as [|p l IH]; intros h Hl; simpl.
  { exists h. split_and!; [done..|]. intros q. by destruct (decide (q ∈ [])) as [?%elem_of_nil|]. }
  destruct (Hl p) as [e He]; [by left|]. rewrite (upd_ok h p e _ He), bind_Ok_l.
  pose proof (cfl_eq_insert h p e c He) as Heq.
  destruct (IH (<[p := set_imm_cfl_color c e]> h)) as (h' & Hh' & Heq' & Hcol).
  { intros q Hq. apply (cfl_eq_some _ _ _ Heq), Hl. by right. }
  exists h'. split_and!; [done | by etrans |]. intros q. rewrite Hcol, col_insert.
  destruct (decide (q ∈ l)), (decide (q ∈ p :: l)) as [Hin|Hin], (decide (p = q)) as [->|];
    try done; exfalso; revert Hin; rewrite elem_of_cons; naive_solver.
Qed.

Lemma stored_length (l : list eid) h :
  NoDup l → (∀ p, p ∈ l → is_Some (h !! p)) → length l ≤ size h.
Proof.
  intros Hnd Hl. rewrite <-(size_list_to_set (C := gset eid) l Hnd), <-size_dom.
  apply subseteq_size. intros p Hp%elem_of_list_to_set. apply elem_of_dom. auto.
Qed.

(** ** The loops *)

Section loops.
Context (h0 : heap) (this : eid) (red blue : N).
Hypothesis Hwf : wf_heap h0.
Hypothesis Hne : red ≠ blue.
Hypothesis Hold : ∀ p c, col h0 p = Some c → c ≠ red ∧ c ≠ blue.
(** Conflict lists point to stored events. *)
Hypothesis Hconf : ∀ x e c, h0 !! x = Some e → c ∈ ev_immediate_conflicts e → is_Some (h0 !! c).

Definition cause (x : eid) : Prop := causal_lt h0 x this.
Definition conflicts_of (x c : eid) : Prop := at_event h0 x (λ e, c ∈ ev_immediate_conflicts e).
(** The conflicts that are inherited from the causes. *)
Definition inherited (c : eid) : Prop := ∃ x, cause x ∧ conflicts_of x c.

(** The causes are free of conflicts. *)
Hypothesis Hcf : ∀ x y, cause x → cause y → ¬ conflicts_of x y.

Record painted (h : heap) (W : list eid) : Prop := {
  pt_eq : cfl_eq h0 h;
  pt_nodup : NoDup W;
  pt_red p : col h p = Some red ↔ p ∈ W;
  pt_cause p : p ∈ W → cause p;
  pt_blue p : col h p = Some blue ↔ ∃ x, x ∈ W ∧ conflicts_of x p;
  pt_old p c : col h p = Some c → c = red ∨ c = blue ∨ col h0 p = Some c;
}.

Lemma painted_start : painted h0 [].
Proof.
  split; [done | constructor | | by intros p ?%elem_of_nil | | by auto].
  - intros p. rewrite elem_of_nil. split; [|done]. by intros [??]%Hold.
  - intros p. split; [by intros [??]%Hold | by intros (x & ?%elem_of_nil & _)].
Qed.

Lemma cause_stored x : is_Some (h0 !! this) → cause x → is_Some (h0 !! x).
Proof.
  intros Ht Hx. apply (causal_le_in h0 x this Hwf); [|done]. apply causal_le_alt. by right.
Qed.

Hypothesis Hthis : is_Some (h0 !! this).

Lemma paint_spec h W p :
  painted h W → cause p →
  ∃ h' W', paint red blue (h, W) p = Ok (h', W') ∧ painted h' W' ∧
    (∃ k, W' = W ++ k) ∧ p ∈ W'.
Proof.
  intros [Heq Hnd Hred Hca Hblue Hold'] Hp. destruct (cause_stored p Hthis Hp) as [e0 He0].
  destruct (cfl_eq_lookup _ _ _ _ Heq He0) as (e & He & Hfe).
  pose proof (cfl_eq_fields _ _ Hfe) as (_ & _ & _ & Hic & _).
  unfold paint, deref. rewrite He. simpl.
  destruct (N.eqb_spec (ev_imm_cfl_color e) red) as [Hc|Hc].
  { exists h, W. split_and!; [done | done | exists []; by rewrite app_nil_r |].
    apply Hred. by rewrite (col_some _ _ _ He), Hc. }
  assert (p ∉ W) as HpW by (intros ?%Hred; rewrite (col_some _ _ _ He) in *; congruence).
  pose proof (cfl_eq_insert h p e red He) as Heq1.
  destruct (paint_all_spec (<[p := set_imm_cfl_color red e]> h) blue (ev_immediate_conflicts e))
    as (h' & Hh' & Heq2 & Hcol).
  { intros c Hcin. rewrite <-Hic in Hcin.
    apply (cfl_eq_some h0); [by etrans; [|done] | by apply (Hconf p e0)]. }
  rewrite Hh'. simpl. exists h', (W ++ [p]). split_and!; [done | | by eexists | set_solver].
  assert (∀ c, conflicts_of p c ↔ c ∈ ev_immediate_conflicts e) as Hpc.
  { intros c. unfold conflicts_of, at_event. rewrite <-Hic, He0. naive_solver. }
  split.
  - by do 2 (etrans; [|done]).
  - apply NoDup_app. split_and!; [done | set_solver | apply NoDup_singleton].
  - intros q. rewrite Hcol, col_insert, elem_of_app, list_elem_of_singleton, <-Hred.
    destruct (decide (q ∈ _)) as [Hq|Hq].
    + split; [congruence|]. apply Hpc in Hq.
      intros [HqW| ->]; [apply Hred, Hca in HqW|]; by destruct (Hcf p q) || destruct (Hcf p p).
    + destruct (decide (p = q)); naive_solver.
  - intros q [?| ->%list_elem_of_singleton]%elem_of_app; auto.
  - intros q. rewrite Hcol, col_insert. setoid_rewrite elem_of_app.
    setoid_rewrite list_elem_of_singleton.
    destruct (decide (q ∈ _)) as [Hq|Hq]; [split; [|done]; intros _; exists p; rewrite Hpc; auto|].
    destruct (decide (p = q)) as [->|Hpq].
    + split; [congruence|]. intros (x & [Hx| ->] & Hxq); [|by apply Hpc in Hxq].
      by destruct (Hcf x q (Hca x Hx) Hp).
    + rewrite Hblue. split; [naive_solver|]. intros (x & [Hx| ->] & Hxq); [eauto|].
      by apply Hpc in Hxq.
  - intros q c. rewrite Hcol, col_insert. destruct (decide (q ∈ _)); [intros [= <-]; auto|].
    destruct (decide (p = q)); [intros [= <-]; auto | auto].
Qed.

Lemma paint_list_spec l h W :
  painted h W → (∀ p, p ∈ l → cause p) →
  ∃ h' W', for_each (paint red blue) (h, W) l = Ok (h', W') ∧ painted h' W' ∧
    (∃ k, W' = W ++ k) ∧ ∀ p, p ∈ l → p ∈ W'.
Proof.
  revert h W. induction l as [|p l IH]; intros h W Hpt Hl.
  { exists h, W. split_and!; [done..| exists []; by rewrite app_nil_r | by intros p ?%elem_of_nil]. }
  destruct (paint_spec h W p Hpt) as (h1 & W1 & Hp1 & Hpt1 & (k1 & ->) & Hin1);
    [apply Hl; by left|]. cbn [for_each]. rewrite Hp1, bind_Ok_l.
  destruct (IH h1 _ Hpt1) as (h2 & W2 & -> & Hpt2 & (k2 & ->) & Hin2);
    [intros; apply Hl; by right|].
  do 2 eexists. split_and!; [done | done | rewrite <-app_assoc; by eexists |].
  intros q [->|Hq]%elem_of_cons; [apply elem_of_app; by left | by apply Hin2].
Qed.

Lemma painted_length h W : painted h W → length W ≤ size h0.
Proof.
  intros [_ Hnd _ Hca _ _]. apply stored_length; [done|]. intros p Hp. by apply cause_stored, Hca.
Qed.

Lemma paint_causes_spec fuel i h W :
  painted h W → size h0 ≤ fuel + i →
  (∀ j w q, j < i → W !! j = Some w → imm h0 q w → q ∈ W) →
  ∃ h' W', paint_causes red blue fuel i h W = Ok (h', W') ∧ painted h' W' ∧
    (∃ k, W' = W ++ k) ∧ ∀ w q, w ∈ W' → imm h0 q w → q ∈ W'.
Proof.
  revert i h W. induction fuel as [|fuel IH]; intros i h W Hpt Hf Hdone; simpl;
    destruct (W !! i) as [w|] eqn:Hw.
  - apply lookup_lt_Some in Hw. apply painted_length in Hpt. lia.
  - exists h, W. split_and!; [done..| exists []; by rewrite app_nil_r |].
    intros w q (j & Hj)%list_elem_of_lookup. eapply Hdone; [|done].
    apply lookup_ge_None in Hw. apply lookup_lt_Some in Hj. lia.
  - assert (w ∈ W) as HwW by (apply list_elem_of_lookup; eauto).
    pose proof (pt_cause _ _ Hpt w HwW) as Hcw.
    destruct (cause_stored w Hthis Hcw) as [e0 He0].
    destruct (cfl_eq_lookup _ _ _ _ (pt_eq _ _ Hpt) He0) as (e & He & Hfe).
    pose proof (cfl_eq_fields _ _ Hfe) as (_ & Hd & _). rewrite (proj2 (deref_ok h w e) He), bind_Ok_l.
    assert (predecessors e = predecessors e0) as Hpe by (unfold predecessors; by rewrite Hd).
    destruct (paint_list_spec (predecessors e) h W Hpt) as (h1 & W1 & -> & Hpt1 & (k & ->) & Hin).
    { rewrite Hpe. intros q Hq. eapply causal_lt_trans; [|done]. apply tc_once. by exists e0. }
    rewrite bind_Ok_l. destruct (IH (S i) h1 (W ++ k) Hpt1) as (h2 & W2 & -> & Hpt2 & (k2 & ->) & Hcl).
    + lia.
    + intros j w' q Hj Hw' Hq. rewrite elem_of_app. destruct (decide (j = i)) as [->|].
      * rewrite lookup_app_l in Hw' by (by eapply lookup_lt_Some). simplify_eq.
        destruct Hq as (e' & ? & Hq). simplify_eq. rewrite <-Hpe in Hq. by apply elem_of_app, Hin.
      * left. apply (Hdone j w' q); [lia | | done].
        rewrite lookup_app_l in Hw'; [done|]. apply lookup_lt_Some in Hw. lia.
    + do 2 eexists. split_and!; [done | done | rewrite <-app_assoc; by eexists | done].
  - exists h, W. split_and!; [done..| exists []; by rewrite app_nil_r |].
    intros w q (j & Hj)%list_elem_of_lookup. eapply Hdone; [|done].
    apply lookup_ge_None in Hw. apply lookup_lt_Some in Hj. lia.
Qed.

(** ** The forward search *)

Context (et : event).
Hypothesis Het : h0 !! this = Some et.
(** Independence is decided for stored events. *)
Hypothesis Hind : ∀ s es, h0 !! s = Some es → ∃ b, is_independent_of h0 et es = Ok b.
(** [imm0 q s]: [q] is an immediate predecessor of [s]. *)
Definition imm0 (q s : eid) : Prop :=
  at_event h0 s (λ es, ∃ l, immediate_predecessors h0 es = Ok l ∧ q ∈ l).
(** The successor lists mirror the immediate predecessors. *)
Hypothesis Hsucc : ∀ w e s, h0 !! w = Some e → s ∈ ev_successors e ↔ imm0 w s.
(** Every predecessor is below an immediate one. *)
Hypothesis Hcover : ∀ q s, imm h0 q s → ∃ m, imm0 m s ∧ causal_le h0 q m.

Definition independent (s : eid) : Prop :=
  at_event h0 s (λ es, is_independent_of h0 et es = Ok true).

(** The events that can all happen without [this]: its causes, and events
    independent of it over such events. *)
Inductive avoidable : eid → Prop :=
  | av_cause x : cause x → avoidable x
  | av_step s : s ≠ this → ¬ inherited s → (∃ q, imm h0 q s) →
      (∀ q, imm h0 q s → avoidable q) → independent s → avoidable s.

(** The conflicts to be found. *)
Definition immediate_conflict (s : eid) : Prop :=
  s ≠ this ∧ ¬ inherited s ∧ ¬ cause s ∧ (∃ q, imm h0 q s) ∧
  (∀ q, imm h0 q s → avoidable q) ∧ is_Some (h0 !! s) ∧ ¬ independent s.

Record searched (h : heap) (V W result todo : list eid) : Prop := {
  se_eq : cfl_eq h0 h;
  se_V : NoDup V;
  se_red p : col h p = Some red ↔ p ∈ V;
  se_avoid p : p ∈ V → avoidable p;
  se_closed p q : p ∈ V → imm h0 q p → q ∈ V;
  se_cause p : cause p → p ∈ V;
  se_blue p : col h p = Some blue ↔ inherited p ∨ p ∈ result;
  se_result p : p ∈ result → immediate_conflict p;
  se_nodup : NoDup result;
  se_W p : p ∈ W → p ∈ V;
  se_done s : s ∉ todo → (∃ m, imm0 m s) → (∀ m, imm0 m s → m ∈ V ∧ m ∉ W) →
    s = this ∨ s ∈ V ∨ col h s = Some blue;
  se_old p c : col h p = Some c → c = red ∨ c = blue ∨ col h0 p = Some c;
}.

Lemma searched_stored h V W result todo p : searched h V W result todo → p ∈ V → is_Some (h0 !! p).
Proof. intros Hs Hp%(se_red _ _ _ _ _ Hs)%col_is_some. by apply (cfl_eq_some _ _ _ (se_eq _ _ _ _ _ Hs)). Qed.

Lemma searched_below h V W result todo p q :
  searched h V W result todo → p ∈ V → causal_le h0 q p → q ∈ V.
Proof.
  intros Hs Hp Hle. unfold causal_le in Hle. induction Hle as [|q z p Hqz _ IH]; [done|].
  eapply (se_closed _ _ _ _ _ Hs); [by apply IH | done].
Qed.

Lemma inherited_not_avoidable p : inherited p → ¬ avoidable p.
Proof.
  intros Hi Ha. destruct Ha as [x Hx|s _ Hn]; [|done]. destruct Hi as (y & Hy & Hyx).
  by apply (Hcf y x).
Qed.

(** The candidate [s] is skipped. *)
Definition skipped (h : heap) (V : list eid) (s : eid) : Prop :=
  s = this ∨ s ∈ V ∨ col h s = Some blue ∨ ∃ q, imm h0 q s ∧ q ∉ V.

(** What [examine_successor] does, in terms of the red events [V]. *)
Lemma examine_eval h V W result todo s e :
  searched h V W result todo → h !! s = Some e →
  (skipped h V s ∧ examine_successor this red blue (h, W, result) s = Ok (h, W, result)) ∨
  (¬ skipped h V s ∧ independent s ∧
    examine_successor this red blue (h, W, result) s =
      Ok (<[s := set_imm_cfl_color red e]> h, s :: W, result)) ∨
  (¬ skipped h V s ∧ ¬ independent s ∧
    examine_successor this red blue (h, W, result) s =
      Ok (<[s := set_imm_cfl_color blue e]> h, W, result ++ [s])).
Proof.
  intros Hs He. pose proof (se_eq _ _ _ _ _ Hs) as Heq.
  destruct (cfl_eq_lookup h h0 s e) as (e0 & He0 & Hfe); [by symmetry | done |].
  destruct (cfl_eq_lookup _ _ _ _ Heq Het) as (et' & Het' & Hft).
  pose proof (cfl_eq_fields _ _ Hfe) as (Hce & Hde & _).
  pose proof (cfl_eq_fields _ _ Hft) as (Hct & _).
  assert (∀ q, q ∈ predecessors e ↔ imm h0 q s) as Himm.
  { intros q. unfold imm, predecessors. rewrite He0, Hde. naive_solver. }
  pose proof (se_red _ _ _ _ _ Hs s) as Hrs. rewrite (col_some _ _ _ He) in Hrs.
  unfold skipped, examine_successor. rewrite (col_some _ _ _ He).
  rewrite (proj2 (deref_ok h s e) He), bind_Ok_l.
  destruct (bool_decide_reflect (s = this)) as [->|Hst]; [left; auto|]. simpl.
  destruct (N.eqb_spec (ev_imm_cfl_color e) red) as [Hc|Hc]; [left; rewrite Hc in Hrs; naive_solver|].
  simpl. destruct (N.eqb_spec (ev_imm_cfl_color e) blue) as [Hb|Hb]; [left; rewrite Hb; auto|].
  assert (s ∉ V) as HsV by (rewrite <-Hrs; congruence).
  rewrite (any_of_spec _ (λ q, negb (bool_decide (q ∈ V)))).
  2: { intros q Hq%Himm. destruct (causal_le_in h0 q s Hwf) as [eq Heqq]; [by apply rtc_once | eauto |].
    destruct (cfl_eq_lookup _ _ _ _ Heq Heqq) as (eq' & Heq' & _).
    rewrite (proj2 (deref_ok h q eq') Heq'), bind_Ok_l. do 2 f_equal.
    apply eq_true_iff_eq. rewrite N.eqb_eq, bool_decide_eq_true, <-(se_red _ _ _ _ _ Hs),
      (col_some _ _ _ Heq'). split; [by intros -> | by intros [= ->]]. }
  rewrite bind_Ok_l. destruct (existsb _ _) eqn:Hex.
  { left. split; [|done]. right. right. right.
    apply existsb_elem_of in Hex as (q & Hq & HqV%negb_true_iff%bool_decide_eq_false).
    exists q. by rewrite <-Himm. }
  right. assert (¬ (∃ q, imm h0 q s ∧ q ∉ V)) as Hall.
  { intros (q & Hq%Himm & HqV). assert (existsb (λ q, negb (bool_decide (q ∈ V)))
      (predecessors e) = true); [|congruence].
    apply existsb_elem_of. exists q. split; [done|]. by rewrite bool_decide_false. }
  rewrite (proj2 (deref_ok h this et') Het'), bind_Ok_l.
  rewrite <-(is_independent_of_eq h0 h et et' e0 e).
  2: { apply ext_ind_eq; [by apply cfl_eq_ext | done | by apply (wf_preds _ _ (Hwf _ _ Het))]. }
  2: { apply ext_ind_eq; [by apply cfl_eq_ext | by symmetry |
         by apply (wf_preds _ _ (Hwf _ _ He0))]. }
  assert (independent s ↔ is_independent_of h0 et e0 = Ok true) as Hi.
  { unfold independent, at_event. rewrite He0. naive_solver. }
  destruct (Hind s e0 He0) as (b & Hb'). rewrite Hi, Hb', bind_Ok_l.
  destruct b; [left | right]; (split_and!; [|congruence|done]);
    intros [?|[?|[?|?]]]; congruence.
Qed.

Lemma searched_skip h V W result todo s :
  searched h V W result (s :: todo) → skipped h V s → searched h V W result todo.
Proof.
  intros Hs Hor. destruct Hs as [H1 H2 H3 H4 H5 H6 H7 H8 H9 H10 H11 H12] eqn:E. split; try done.
  intros x Hx Hex Hall. destruct (decide (x = s)) as [->|Hne'].
  - destruct Hor as [?|[?|[?|(q & Hq & HqV)]]]; [by auto..|]. exfalso. apply HqV.
    destruct (Hcover q s Hq) as (m & Hm & Hle). destruct (Hall m Hm) as [HmV _].
    by apply (searched_below h V W result (s :: todo) m).
  - apply H11; [|done|done]. rewrite elem_of_cons. naive_solver.
Qed.

(** What holds of a candidate that is not skipped. *)
Lemma not_skipped h V W result todo s :
  searched h V W result todo → ¬ skipped h V s →
  s ≠ this ∧ s ∉ V ∧ ¬ inherited s ∧ ¬ cause s ∧ (∀ q, imm h0 q s → q ∈ V).
Proof.
  intros Hs Hn. unfold skipped in Hn. assert (s ∉ V) as HsV by naive_solver.
  split_and!; [naive_solver | done | | by intros ?%(se_cause _ _ _ _ _ Hs) |].
  - intros Hi. apply Hn. right. right. left. apply (se_blue _ _ _ _ _ Hs). by left.
  - intros q Hq. destruct (decide (q ∈ V)); [done|]. exfalso. apply Hn. right. right. right. eauto.
Qed.

Lemma searched_push h V W result todo s e :
  searched h V W result (s :: todo) → h !! s = Some e → ¬ skipped h V s → independent s →
  (∃ q, imm h0 q s) →
  searched (<[s := set_imm_cfl_color red e]> h) (s :: V) (s :: W) result todo.
Proof.
  intros Hs He Hn Hi Hpr. destruct (not_skipped _ _ _ _ _ _ Hs Hn) as (Hst & HsV & Hni & Hnc & Hall).
  destruct Hs as [H1 H2 H3 H4 H5 H6 H7 H8 H9 H10 H11 H12]. split.
  - etrans; [done | by apply cfl_eq_insert].
  - by constructor.
  - intros p. rewrite col_insert, elem_of_cons, <-H3. destruct (decide (s = p)); naive_solver.
  - intros p [->|Hp]%elem_of_cons; [|auto]. apply av_step; auto.
  - intros p q [->|Hp]%elem_of_cons Hq; right; eauto.
  - intros p Hp. right. auto.
  - intros p. rewrite col_insert, <-H7. destruct (decide (s = p)) as [->|]; [|done].
    rewrite H7. split; [congruence|]. intros [|Hr]; [done|].
    apply H8 in Hr as (_ & _ & _ & _ & _ & _ & Hr). done.
  - done.
  - done.
  - intros p [->|Hp]%elem_of_cons; [by left | right; auto].
  - intros x Hx Hex Hm. rewrite col_insert. destruct (decide (s = x)) as [->|Hsx];
      [right; left; by left|].
    destruct (H11 x) as [?|[?|?]]; [rewrite elem_of_cons; naive_solver | done | | by auto |
      right; left; by right | by auto].
    intros m Hmx. destruct (Hm m Hmx) as [Hm1 Hm2]. rewrite elem_of_cons in Hm1, Hm2. naive_solver.
  - intros p c. rewrite col_insert. destruct (decide (s = p)); [intros [= <-]; auto | auto].
Qed.

Lemma searched_conflict h V W result todo s e :
  searched h V W result (s :: todo) → h !! s = Some e → ¬ skipped h V s → ¬ independent s →
  (∃ q, imm h0 q s) →
  searched (<[s := set_imm_cfl_color blue e]> h) V W (result ++ [s]) todo.
Proof.
  intros Hs He Hn Hi Hpr. destruct (not_skipped _ _ _ _ _ _ Hs Hn) as (Hst & HsV & Hni & Hnc & Hall).
  destruct Hs as [H1 H2 H3 H4 H5 H6 H7 H8 H9 H10 H11 H12].
  assert (s ∉ result) as Hsr.
  { intros Hr. apply Hn. right. right. left. apply H7. by right. }
  split; try done.
  - etrans; [done | by apply cfl_eq_insert].
  - intros p. rewrite col_insert, <-H3. destruct (decide (s = p)) as [->|]; [|done].
    rewrite H3. split; [congruence | done].
  - intros p. rewrite col_insert, elem_of_app, list_elem_of_singleton.
    destruct (decide (s = p)) as [->|]; [naive_solver|]. rewrite H7. naive_solver.
  - intros p [?| ->%list_elem_of_singleton]%elem_of_app; [auto|]. split_and!; try done.
    + intros q Hq. auto.
    + by apply (cfl_eq_some _ _ _ H1).
  - apply NoDup_app. split_and!; [done | | apply NoDup_singleton].
    intros x Hx ->%list_elem_of_singleton. done.
  - intros x Hx Hex Hm. rewrite col_insert. destruct (decide (s = x)) as [->|Hsx]; [by auto|].
    apply H11; [rewrite elem_of_cons; naive_solver | done | done].
  - intros p c. rewrite col_insert. destruct (decide (s = p)); [intros [= <-]; auto | auto].
Qed.

Lemma examine_spec h V W result todo s :
  searched h V W result (s :: todo) → is_Some (h0 !! s) → (∃ q, imm h0 q s) →
  ∃ h' V' W' result',
    examine_successor this red blue (h, W, result) s = Ok (h', W', result') ∧
    searched h' V' W' result' todo ∧ length W' + length V = length W + length V'.
Proof.
  intros Hs Hst Hpr. apply (cfl_eq_some _ _ _ (se_eq _ _ _ _ _ Hs)) in Hst as [e He].
  destruct (examine_eval _ _ _ _ _ s e Hs He) as [[Hsk ->]|[(Hn & Hi & ->)|(Hn & Hi & ->)]].
  - exists h, V, W, result. split_and!; [done | by eapply searched_skip | lia].
  - do 4 eexists. split_and!; [done | by apply searched_push | simpl; lia].
  - do 4 eexists. split_and!; [done | by apply searched_conflict | lia].
Qed.

Lemma examine_list_spec l h V W result :
  searched h V W result l → (∀ s, s ∈ l → is_Some (h0 !! s) ∧ ∃ q, imm h0 q s) →
  ∃ h' V' W' result',
    for_each (examine_successor this red blue) (h, W, result) l = Ok (h', W', result') ∧
    searched h' V' W' result' [] ∧ length W' + length V = length W + length V'.
Proof.
  revert h V W result. induction l as [|s l IH]; intros h V W result Hs Hl.
  { exists h, V, W, result. split_and!; [done..|lia]. }
  destruct (Hl s) as [Hst Hpr]; [by left|].
  destruct (examine_spec h V W result l s Hs Hst Hpr) as (h1 & V1 & W1 & r1 & Hex & Hs1 & Hlen).
  cbn [for_each]. rewrite Hex, bind_Ok_l.
  destruct (IH h1 V1 W1 r1 Hs1) as (h2 & V2 & W2 & r2 & -> & Hs2 & Hlen2); [intros; apply Hl; by right|].
  exists h2, V2, W2, r2. split_and!; [done..|lia].
Qed.

Hypothesis Himm0 : ∀ m s, imm0 m s → imm h0 m s.

Lemma imm0_stored m s : imm0 m s → is_Some (h0 !! s).
Proof. intros (es & Hes & _). eauto. Qed.

(** Popping [w] leaves its successors to be examined. *)
Lemma searched_pop h V W result w e0 :
  searched h V (w :: W) result [] → h0 !! w = Some e0 →
  searched h V W result (ev_successors e0).
Proof.
  intros [H1 H2 H3 H4 H5 H6 H7 H8 H9 H10 H11 H12] He0. split; try done.
  - intros p Hp. apply H10. by right.
  - intros s Hs Hex Hall. apply H11; [apply not_elem_of_nil | done |].
    intros m Hm. destruct (Hall m Hm) as [HmV HmW]. split; [done|].
    intros [->|?]%elem_of_cons; [|done]. apply Hs. by apply (Hsucc w e0).
Qed.

Lemma conflict_loop_spec fuel h V W result :
  searched h V W result [] → length W + size h0 ≤ fuel + length V →
  ∃ h' V' result', conflict_loop this red blue fuel h W result = Ok (h', result') ∧
    searched h' V' [] result' [].
Proof.
  revert h V W result. induction fuel as [|fuel IH]; intros h V W result Hs Hf;
    (destruct W as [|w W]; [by exists h, V, result|]).
  { assert (length V ≤ size h0); [|simpl in Hf; lia].
    apply stored_length; [apply (se_V _ _ _ _ _ Hs)|]. intros p. by apply (searched_stored _ _ _ _ _ _ Hs). }
  assert (w ∈ V) as HwV by (apply (se_W _ _ _ _ _ Hs); by left).
  destruct (searched_stored _ _ _ _ _ _ Hs HwV) as [e0 He0].
  destruct (cfl_eq_lookup _ _ _ _ (se_eq _ _ _ _ _ Hs) He0) as (e & He & Hfe).
  pose proof (cfl_eq_fields _ _ Hfe) as (_ & _ & Hsu & _).
  cbn [conflict_loop]. rewrite (proj2 (deref_ok h w e) He), bind_Ok_l, <-Hsu.
  destruct (examine_list_spec (ev_successors e0) h V W result) as (h1 & V1 & W1 & r1 & -> & Hs1 & Hlen).
  - by eapply searched_pop.
  - intros s Hin. apply (Hsucc w e0) in Hin; [|done].
    split; [by eapply imm0_stored | exists w; by apply Himm0].
  - rewrite bind_Ok_l. apply (IH h1 V1 W1 r1 Hs1). simpl in Hf. lia.
Qed.

(** When nothing is left, the search is complete. *)
Lemma searched_complete h V result s :
  searched h V [] result [] → (∃ q, imm h0 q s) → (∀ q, imm h0 q s → q ∈ V) →
  s = this ∨ s ∈ V ∨ inherited s ∨ s ∈ result.
Proof.
  intros Hs [q Hq] Hall. destruct (se_done _ _ _ _ _ Hs s) as [?|[?|Hb]]; auto.
  - apply not_elem_of_nil.
  - destruct (Hcover q s Hq) as (m & Hm & _). eauto.
  - intros m Hm%Himm0. split; [auto | apply not_elem_of_nil].
  - apply (se_blue _ _ _ _ _ Hs) in Hb. tauto.
Qed.

Lemma searched_avoidable h V result p :
  searched h V [] result [] → p ∈ V ↔ avoidable p.
Proof.
  intros Hs. split; [apply (se_avoid _ _ _ _ _ Hs)|].
  induction 1 as [x Hx|s Hst Hni Hpr _ IH Hi]; [by apply (se_cause _ _ _ _ _ Hs)|].
  destruct (searched_complete _ _ _ s Hs Hpr IH) as [|[|[|Hr]]]; try done.
  apply (se_result _ _ _ _ _ Hs) in Hr as (_ & _ & _ & _ & _ & _ & Hr). done.
Qed.

Lemma searched_conflicts h V result s :
  searched h V [] result [] → s ∈ result ↔ immediate_conflict s.
Proof.
  intros Hs. split; [apply (se_result _ _ _ _ _ Hs)|]. intros (Hst & Hni & Hnc & Hpr & Hall & _ & Hd).
  destruct (searched_complete _ _ _ s Hs Hpr) as [|[Hv|[|]]]; try done.
  - intros q Hq. by apply (searched_avoidable _ _ _ q Hs), Hall.
  - apply (searched_avoidable _ _ _ s Hs) in Hv. by destruct Hv.
Qed.
End loops.

(** ** The whole computation *)

(** What the structure has to satisfy around the new event. *)
Record conflict_ready h (this : eid) (et : event) : Prop := {
  cr_wf : wf_heap h;
  cr_this : h !! this = Some et;
  cr_conf x e c : h !! x = Some e → c ∈ ev_immediate_conflicts e → is_Some (h !! c);
  cr_causes x y : cause h this x → cause h this y → ¬ conflicts_of h x y;
  cr_ind s es : h !! s = Some es → ∃ b, is_independent_of h et es = Ok b;
  cr_succ w e s : h !! w = Some e → s ∈ ev_successors e ↔ imm0 h w s;
  cr_cover q s : imm h q s → ∃ m, imm0 h m s ∧ causal_le h q m;
  cr_imm0 m s : imm0 h m s → imm h m s;
}.

Lemma painted_searched h this red blue h' W :
  wf_heap h → is_Some (h !! this) → red ≠ blue →
  painted h this red blue h' W →
  (∀ q, imm h q this → q ∈ W) → (∀ w q, w ∈ W → imm h q w → q ∈ W) →
  ∀ et, searched h this red blue et h' W (rev W) [] [].
Proof.
  intros Hwf Ht Hne [Heq Hnd Hred Hca Hblue Hold] Hp Hcl et.
  assert (∀ x, cause h this x → x ∈ W) as HcW.
  { intros x (et' & Het & q & Hq & Hle)%causal_lt_alt.
    assert (q ∈ W) as HqW by (apply Hp; by exists et'). clear Hq. unfold causal_le in Hle.
    induction Hle as [|x z q Hxz _ IH]; [done|]. eapply Hcl; [by apply IH | done]. }
  split; try done.
  - intros p Hp'. by apply av_cause, Hca.
  - intros p. rewrite Hblue, elem_of_nil. unfold inherited. split.
    + intros (x & Hx & Hxp). left. exists x. auto.
    + intros [(x & Hx & Hxp)|[]]. exists x. auto.
  - by intros p ?%elem_of_nil.
  - constructor.
  - intros p. rewrite list_elem_of_In, <-in_rev, <-list_elem_of_In. done.
  - intros s _ (m & Hm) Hall. destruct (Hall m Hm) as [HmW Hn]. exfalso. apply Hn.
    by rewrite list_elem_of_In, <-in_rev, <-list_elem_of_In.
Qed.

Lemma compute_immediate_conflicts_spec h next this et :
  conflict_ready h this et → (∀ p c, col h p = Some c → (c ≤ next)%N) →
  ∃ h' result,
    compute_immediate_conflicts h next this = Ok (h', N.succ (N.succ next), result) ∧
    cfl_eq h h' ∧ NoDup result ∧ (∀ s, s ∈ result ↔ immediate_conflict h this et s) ∧
    (∀ p c, col h' p = Some c → (c ≤ N.succ (N.succ next))%N).
Proof.
  intros [Hwf Het Hconf Hcf Hind Hsucc Hcover Himm0] Hcol.
  set (blue := N.succ next). set (red := N.succ blue).
  assert (red ≠ blue) as Hne by lia.
  assert (∀ p c, col h p = Some c → c ≠ red ∧ c ≠ blue) as Hold.
  { intros p c Hc%Hcol. lia. }
  assert (is_Some (h !! this)) as Hst by eauto.
  unfold compute_immediate_conflicts. fold blue red.
  rewrite (proj2 (deref_ok h this et) Het), bind_Ok_l.
  destruct (paint_list_spec h this red blue Hwf Hne Hold Hconf Hcf Hst (predecessors et) h [])
    as (h1 & W1 & -> & Hp1 & _ & Hin1).
  { by apply painted_start. }
  { intros p Hp. apply tc_once. by exists et. }
  rewrite bind_Ok_l.
  destruct (paint_causes_spec h this red blue Hwf Hne Hold Hconf Hcf Hst (size h) 0 h1 W1 Hp1)
    as (h2 & W2 & -> & Hp2 & (k & ->) & Hcl); [lia | intros; lia |].
  rewrite bind_Ok_l.
  assert (searched h this red blue et h2 (W1 ++ k) (rev (W1 ++ k)) [] []) as Hs.
  { apply painted_searched; try done. intros q (et' & ? & Hq). simplify_eq.
    apply elem_of_app. left. auto. }
  destruct (conflict_loop_spec h this red blue Hwf Hne Hold et Het Hind Hsucc Hcover Himm0
    (size h) h2 _ _ _ Hs) as (h3 & V & result & -> & Hs3).
  { rewrite length_rev. lia. }
  rewrite bind_Ok_l. exists h3, result. split_and!; [done | apply Hs3 | | |].
  - apply (se_nodup _ _ _ _ _ _ _ _ _ _ Hs3).
  - intros s. by eapply searched_conflicts.
  - intros p c Hc. apply (se_old _ _ _ _ _ _ _ _ _ _ Hs3) in Hc as [->|[->|Hc%Hcol]]; lia.
Qed.
End colors.

(** ** Cutoff marking

    [mark_as_cutoff] marks an event and everything reachable over successor
    lists. The stack discipline keeps it from expanding an event twice, so
    the number of edges bounds its iterations. *)

Section cutoff.
Context {PL : Payload}.
Implicit Types (h : heap) (e : event).

(** Heaps that differ in cutoff flags only. *)
Definition cut_eq h h' : Prop :=
  ∀ p, (set_is_cutoff false <$> h !! p) = (set_is_cutoff false <$> h' !! p).

#[export] Instance cut_eq_equiv : Equivalence cut_eq.
Proof.
  split; [by intros h p | by intros h h' H p | intros a b c H1 H2 p; by rewrite H1].
Qed.

Lemma cut_eq_lookup h h' p e :
  cut_eq h h' → h !! p = Some e →
  ∃ e', h' !! p = Some e' ∧ set_is_cutoff false e = set_is_cutoff false e'.
Proof.
  intros Heq Hp. specialize (Heq p). rewrite Hp in Heq. simpl in Heq. symmetry in Heq.
  apply fmap_Some in Heq as (e' & He' & Hc). eauto.
Qed.

Lemma cut_eq_fields e e' :
  set_is_cutoff false e = set_is_cutoff false e' →
  same_core e e' ∧ ev_data e = ev_data e' ∧ ev_successors e = ev_successors e' ∧
  ev_immediate_conflicts e = ev_immediate_conflicts e' ∧
  ev_imm_cfl_color e = ev_imm_cfl_color e' ∧ ev_metadata e = ev_metadata e'.
Proof. intros [= ????]. repeat split; congruence. Qed.

Lemma cut_eq_ext h h' : cut_eq h h' → heap_ext h h'.
Proof.
  intros Heq p e Hp. destruct (cut_eq_lookup _ _ _ _ Heq Hp) as (e' & He' & Hc).
  exists e'. split; [done | by apply cut_eq_fields].
Qed.

Lemma cut_eq_insert h p e b : h !! p = Some e → cut_eq h (<[p := set_is_cutoff b e]> h).
Proof.
  intros Hp q. destruct (decide (p = q)) as [->|].
  - by rewrite lookup_insert_eq, Hp.
  - by rewrite lookup_insert_ne.
Qed.

Definition is_cut h (p : eid) : Prop := at_event h p (λ e, ev_is_cutoff e = true).
Definition succ_of h (p s : eid) : Prop := at_event h p (λ e, s ∈ ev_successors e).

Lemma is_cut_insert h w e x :
  h !! w = Some e → is_cut (<[w := set_is_cutoff true e]> h) x ↔ x = w ∨ is_cut h x.
Proof.
  intros Hw. unfold is_cut, at_event. destruct (decide (w = x)) as [->|Hne].
  - rewrite lookup_insert_eq. split; [by left|]. intros _. by eexists.
  - rewrite lookup_insert_ne by done. naive_solver.
Qed.

(** The edges that can still be followed. *)
Definition pending h : nat :=
  map_fold (λ _ e n, (if ev_is_cutoff e then 0 else length (ev_successors e)) + n) 0 h.

Lemma pending_insert h p e :
  h !! p = None →
  pending (<[p := e]> h) = (if ev_is_cutoff e then 0 else length (ev_successors e)) + pending h.
Proof. intros Hp. unfold pending. rewrite map_fold_insert_L; [done | intros; lia | done]. Qed.

Lemma pending_mark h w e :
  h !! w = Some e →
  pending (<[w := set_is_cutoff true e]> h) +
    (if ev_is_cutoff e then 0 else length (ev_successors e)) = pending h.
Proof.
  intros Hw. rewrite <-(insert_delete_eq h w (set_is_cutoff true e)).
  rewrite pending_insert by apply lookup_delete_eq. simpl.
  rewrite <-(insert_delete_id h w e) at 2 by done.
  rewrite pending_insert by apply lookup_delete_eq. lia.
Qed.

Lemma pending_fuel h : S (pending h) ≤ cutoff_fuel h.
Proof.
  unfold cutoff_fuel. apply le_n_S. induction h as [|p e h Hp IH] using map_ind.
  - unfold pending. by rewrite !map_fold_empty.
  - rewrite pending_insert by done. rewrite map_fold_insert_L; [|intros; lia | done].
    cbv beta. destruct (ev_is_cutoff e); lia.
Qed.

Definition fresh_in h (s : eid) : bool :=
  match h !! s with Some e => negb (ev_is_cutoff e) | None => true end.

Lemma push_spec h (l W : list eid) :
  (∀ s, s ∈ l → is_Some (h !! s)) →
  for_each (λ acc s, es ← deref h s; Ok (if ev_is_cutoff es then acc else s :: acc)) W l =
    Ok (rev (List.filter (fresh_in h) l) ++ W).
Proof.
  revert W. induction l as [|s l IH]; intros W Hl; [done|].
  destruct (Hl s) as [e He]; [by left|]. cbn [for_each].
  rewrite (proj2 (deref_ok h s e) He), bind_Ok_l. cbn [List.filter].
  assert (∀ s, s ∈ l → is_Some (h !! s)) as Hl' by (intros; apply Hl; by right).
  assert (fresh_in h s = negb (ev_is_cutoff e)) as -> by (unfold fresh_in; by rewrite He).
  destruct (ev_is_cutoff e); rewrite bind_Ok_l, IH by done; simpl; [done|].
  by rewrite <-app_assoc.
Qed.

Section loop.
Context (h0 : heap) (p0 : eid).
Hypothesis Hstored : ∀ x s, succ_of h0 x s → is_Some (h0 !! s).
Hypothesis Hclosed : ∀ x s, is_cut h0 x → succ_of h0 x s → is_cut h0 s.

Definition reachable (x : eid) : Prop := rtc (succ_of h0) p0 x.

Record marking h (W : list eid) : Prop := {
  mk_eq : cut_eq h0 h;
  mk_old x : is_cut h0 x → is_cut h x;
  mk_reach x : is_cut h x → is_cut h0 x ∨ reachable x;
  mk_W x : x ∈ W → reachable x ∧ is_Some (h0 !! x);
  mk_closed x s : is_cut h x → succ_of h0 x s → is_cut h s ∨ s ∈ W;
  mk_start : is_cut h p0 ∨ p0 ∈ W;
  mk_stack l1 x l2 s : W = l1 ++ x :: l2 → is_cut h x → succ_of h0 x s → is_cut h s ∨ s ∈ l1;
}.

Lemma marking_step h w W e :
  marking h (w :: W) → h !! w = Some e →
  let h' := <[w := set_is_cutoff true e]> h in
  let P := rev (List.filter (fresh_in h') (ev_successors e)) in
  marking h' (P ++ W) ∧
  length (P ++ W) + pending h' < length (w :: W) + pending h.
Proof.
  intros [Heq Hold Hreach HW Hcl Hp0 Hst] He h' P.
  destruct (cut_eq_lookup h h0 w e) as (e0 & He0 & Hf); [by symmetry | done |].
  pose proof (cut_eq_fields _ _ Hf) as (_ & _ & Hsu & _).
  assert (∀ s, succ_of h0 w s ↔ s ∈ ev_successors e) as Hws.
  { intros s. unfold succ_of, at_event. rewrite He0, Hsu. naive_solver. }
  assert (∀ x, is_cut h' x ↔ x = w ∨ is_cut h x) as Hcut by (intros; by apply is_cut_insert).
  destruct (HW w) as [Hrw _]; [by left|].
  assert (∀ s, s ∈ P ↔ s ∈ ev_successors e ∧ ¬ is_cut h' s) as HP.
  { intros s. unfold P. rewrite list_elem_of_In, <-in_rev, <-list_elem_of_In, elem_of_list_filter_b.
    unfold fresh_in. split.
    - intros [Hs Hb]. split; [done|]. intros (es & Hes & Hc). by rewrite Hes, Hc in Hb.
    - intros [Hs Hn]. split; [done|]. destruct (h' !! s) as [es|] eqn:Es; [|done].
      destruct (ev_is_cutoff es) eqn:Ec; [|done]. destruct Hn. by exists es. }
  assert (ev_is_cutoff e = true → P = []) as HPn.
  { intros Hc. destruct P as [|s P'] eqn:EP; [done|]. exfalso.
    assert (s ∈ s :: P') as Hin by (by left). apply HP in Hin as [Hin Hnc]. apply Hnc.
    apply Hcut. right. destruct (Hst [] w W s) as [?|?%elem_of_nil]; [done | by exists e | by apply Hws | done | done]. }
  assert (∀ s, succ_of h0 w s → is_cut h' s ∨ s ∈ P) as Hnew.
  { intros s Hs%Hws. destruct (decide (s ∈ P)) as [|HnP]; [by right|]. left.
    destruct (h' !! s) as [es|] eqn:Es; [|exfalso; apply HnP, HP; split; [done|];
      intros (es' & ? & ?); congruence].
    destruct (ev_is_cutoff es) eqn:Ec; [by exists es|]. exfalso. apply HnP, HP.
    split; [done|]. intros (es' & ? & ?). congruence. }
  assert (length P ≤ length (ev_successors e)) as HPl
    by (unfold P; rewrite length_rev; apply filter_length_le).
  clearbody P. split; [split|].
  - etrans; [done | by apply cut_eq_insert].
  - intros x Hx. apply Hcut. right. auto.
  - intros x [->|Hx]%Hcut; auto.
  - intros x [[Hx _]%HP|Hx]%elem_of_app; [|apply HW; by right].
    apply Hws in Hx. split; [by eapply rtc_r | by eapply Hstored].
  - intros x s [->|Hx]%Hcut Hs; rewrite elem_of_app; [naive_solver|].
    destruct (Hcl x s Hx Hs) as [?|[->|?]%elem_of_cons]; [rewrite Hcut; auto
        | rewrite Hcut; auto | auto].
  - rewrite Hcut, elem_of_app. destruct Hp0 as [?|[->|?]%elem_of_cons]; auto.
  - intros l1 x l2 s Hl Hx Hs. apply app_eq_app in Hl as (k & [[HPk Hk]|[-> Hk]]).
    + destruct k as [|x' k]; [|exfalso; assert (x ∈ P) as [_ ?]%HP; [|done]; injection Hk as -> _;
        rewrite HPk; set_solver].
      rewrite app_nil_r in HPk. simpl in Hk. subst l1 W. apply Hcut in Hx as [->|Hx]; [auto|].
      destruct (Hst [w] x l2 s) as [?| ->%list_elem_of_singleton]; [done..| |]; rewrite Hcut; auto.
    + rewrite elem_of_app. apply Hcut in Hx as [->|Hx]; [destruct (Hnew s Hs); auto|].
      destruct (Hst (w :: k) x l2 s) as [?|[->|?]%elem_of_cons];
        [by rewrite Hk | done | done | rewrite Hcut; auto | rewrite Hcut; auto | auto].
  - rewrite length_app. pose proof (pending_mark h w e He) as Hpm. simpl. fold h' in Hpm.
    destruct (ev_is_cutoff e) eqn:Hc; [rewrite (HPn eq_refl); simpl; lia | lia].
Qed.

Lemma cutoff_loop_spec fuel h W n :
  marking h W → length W + pending h ≤ fuel →
  ∃ h' n', cutoff_loop h fuel W n = Ok (h', n') ∧ marking h' [].
Proof.
  revert h W n. induction fuel as [|fuel IH]; intros h W n Hm Hf;
    (destruct W as [|w W]; [by exists h, n|]); [simpl in Hf; lia|].
  destruct (mk_W _ _ Hm w) as [_ [e0 He0]]; [by left|].
  destruct (cut_eq_lookup _ _ _ _ (mk_eq _ _ Hm) He0) as (e & He & Hfe).
  pose proof (cut_eq_fields _ _ Hfe) as (_ & _ & Hsu & _).
  cbn [cutoff_loop]. rewrite (proj2 (deref_ok h w e) He), bind_Ok_l. cbv zeta.
  rewrite push_spec.
  - rewrite bind_Ok_l. destruct (marking_step h w W e Hm He) as [Hm' Hlt].
    apply IH; [done|]. cbv zeta in Hlt. lia.
  - intros s Hs. destruct (Hstored w s) as [es0 Hes0]; [exists e0; by rewrite Hsu|].
    destruct (cut_eq_lookup _ _ _ _ (mk_eq _ _ Hm) Hes0) as (es & Hes & _).
    destruct (decide (w = s)) as [->|]; [by rewrite lookup_insert_eq|].
    rewrite lookup_insert_ne by done. eauto.
Qed.

Lemma reachable_cut h x :
  is_cut h p0 → (∀ x s, is_cut h x → succ_of h0 x s → is_cut h s) → reachable x → is_cut h x.
Proof.
  intros Hp Hc Hx. unfold reachable in Hx. revert Hp.
  induction Hx as [|x y z Hxy _ IH]; [done|]. intros Hx. apply IH. by eapply Hc.
Qed.

(** The flags after marking: the old ones and everything reachable. *)
Lemma mark_as_cutoff_spec :
  is_Some (h0 !! p0) →
  ∃ h' n, mark_as_cutoff h0 p0 = Ok (h', n) ∧ cut_eq h0 h' ∧
    ∀ x, is_cut h' x ↔ is_cut h0 x ∨ reachable x.
Proof.
  intros [e He]. unfold mark_as_cutoff. rewrite (proj2 (deref_ok h0 p0 e) He), bind_Ok_l.
  destruct (ev_is_cutoff e) eqn:Hc.
  { exists h0, 0. split_and!; [done..|]. intros x. split; [by left|]. intros [?|Hr]; [done|].
    apply (reachable_cut h0); try done. by exists e. }
  destruct (cutoff_loop_spec (cutoff_fuel h0) h0 [p0] 0) as (h' & n & -> & Hm).
  - split; try done; [by left| | | |].
    + intros x ->%list_elem_of_singleton. split; [constructor | eauto].
    + intros x s Hx Hs. left. by eapply Hclosed.
    + right. by left.
    + intros l1 x l2 s Hl Hx Hs. left. by eapply Hclosed.
  - simpl. pose proof (pending_fuel h0). lia.
  - destruct Hm as [Heq Hold Hr _ Hcl Hp0 _]. exists h', n. split_and!; [done..|].
    intros x. split; [auto|]. intros [Hx|Hx]; [auto|]. apply (reachable_cut h'); [| |done].
    + by destruct Hp0 as [|?%elem_of_nil].
    + intros y s Hy Hs. by destruct (Hcl y s Hy Hs) as [|?%elem_of_nil].
Qed.
End loop.
End cutoff.
