(* ===== verification/UnfoldingProofs.v ===== *)
(** * The unfolding's invariant

    The unfolding stores every event once (up to [compare_events]) under its
    key, successor lists mirror immediate predecessors, and conflict lists
    are symmetric. [deduplicate] returns under this invariant, keeps it, and
    gives a new event its exact immediate conflicts. *)

From stdpp Require Import base tactics list gmap numbers relations.
From S2P Require Import Prelude StdMap ThreadId Event Comb CombEnum CombProofs Cone Alloc Causality.
From S2P Require Import HeapExt Order Walks Independence Unfolding ColorProofs.

Section updates.
Context {PL : Payload}.
Implicit Types (h : heap) (e : event).

(** ** Loops of updates *)

Lemma for_each_upd (R : relation event) `{!PreOrder R} (f : event → event) h l :
  (∀ e, R e (f e)) → (∀ q, q ∈ l → is_Some (h !! q)) →
  ∃ h', for_each (λ h q, upd h q f) h l = Ok h' ∧
    (∀ q, is_Some (h !! q) ↔ is_Some (h' !! q)) ∧
    ∀ q e, h !! q = Some e → ∃ e', h' !! q = Some e' ∧ R e e' ∧ (q ∉ l → e' = e) ∧
      (q ∈ l → ∃ e'', R e e'' ∧ R (f e'') e').
Proof.
  intros Hf. revert h. induction l as [|x l IH]; intros h Hl.
  { exists h. split_and!; [done..|]. intros q e Hq. exists e. split_and!; [done..|].
    by intros ?%elem_of_nil. }
  destruct (Hl x) as [ex Hx]; [by left|]. cbn [for_each].
  rewrite (upd_ok h x ex f Hx), bind_Ok_l.
  assert (∀ q, is_Some (h !! q) ↔ is_Some (<[x := f ex]> h !! q)) as Hd.
  { intros q. destruct (decide (x = q)) as [->|]; [rewrite lookup_insert_eq; naive_solver|].
    by rewrite lookup_insert_ne. }
  destruct (IH (<[x := f ex]> h)) as (h' & -> & Hd' & Hr).
  { intros q Hq. apply Hd, Hl. by right. }
  exists h'. split_and!; [done | intros q; by rewrite Hd|].
  intros q e Hq. destruct (decide (x = q)) as [->|Hne].
  - assert (ex = e) as -> by congruence. destruct (Hr q (f e)) as (e' & He' & HR & Hn & Hi); [by rewrite lookup_insert_eq|].
    exists e'. split_and!; [done | (etrans; [apply Hf | done]) | intros Hq'; destruct Hq'; by left |].
    intros _. exists e. done.
  - destruct (Hr q e) as (e' & He' & HR & Hn & Hi); [by rewrite lookup_insert_ne|].
    exists e'. split_and!; [done..| |].
    + intros Hq'. apply Hn. set_solver.
    + intros [->|?]%elem_of_cons; [done | auto].
Qed.

(** Every field but the successors, which grow by [p] at most. *)
Record succ_rel (p : eid) e e' : Prop := {
  sr_core : same_core e e';
  sr_data : ev_data e = ev_data e';
  sr_conf : ev_immediate_conflicts e = ev_immediate_conflicts e';
  sr_col : ev_imm_cfl_color e = ev_imm_cfl_color e';
  sr_cut : ev_is_cutoff e = ev_is_cutoff e';
  sr_succ s : s ∈ ev_successors e → s ∈ ev_successors e';
  sr_succ' s : s ∈ ev_successors e' → s = p ∨ s ∈ ev_successors e;
}.

#[export] Instance succ_rel_preorder p : PreOrder (succ_rel p).
Proof.
  split.
  - intros e. split; auto. done.
  - intros a b c [] []. split; try congruence; [by etrans | by auto |].
    intros s Hs. naive_solver.
Qed.

(** Every field but the conflicts, which grow by [p] at most. *)
Record conf_rel (p : eid) e e' : Prop := {
  cl_core : same_core e e';
  cl_data : ev_data e = ev_data e';
  cl_succ : ev_successors e = ev_successors e';
  cl_col : ev_imm_cfl_color e = ev_imm_cfl_color e';
  cl_cut : ev_is_cutoff e = ev_is_cutoff e';
  cl_conf s : s ∈ ev_immediate_conflicts e → s ∈ ev_immediate_conflicts e';
  cl_conf' s : s ∈ ev_immediate_conflicts e' → s = p ∨ s ∈ ev_immediate_conflicts e;
}.

#[export] Instance conf_rel_preorder p : PreOrder (conf_rel p).
Proof.
  split.
  - intros e. split; auto. done.
  - intros a b c [] []. split; try congruence; [by etrans | by auto |].
    intros s Hs. naive_solver.
Qed.

(** ** Comparison *)

Lemma compare_events_refl e : compare_events e e = Ok true.
Proof.
  unfold compare_events. rewrite (proj2 (tid_eqb_spec _ _) eq_refl), Nat.eqb_refl,
    (proj2 (kind_eqb_eq _ _) eq_refl), !N.eqb_refl, bool_decide_true by done. simpl.
  unfold ev_kind, created_tid, has_same_local_path.
  destruct (ev_data e); simpl; rewrite ?(proj2 (tid_eqb_spec _ _) eq_refl), ?bool_decide_true by done;
    done.
Qed.

Lemma compare_events_total a b : ∃ r, compare_events a b = Ok r.
Proof.
  unfold compare_events.
  destruct (tid_eqb _ _); simpl; [|by eexists]. destruct (Nat.eqb _ _); simpl; [|by eexists].
  destruct (kind_eqb _ _) eqn:Hk; simpl; [|by eexists]. apply kind_eqb_eq in Hk.
  destruct (_ =? _)%N; simpl; [|by eexists]. destruct (ev_cid a =? ev_cid b)%N; simpl; [|by eexists].
  destruct (bool_decide _); simpl; [|by eexists].
  unfold ev_kind, created_tid, has_same_local_path in *.
  destruct (ev_data a), (ev_data b); simpl in *; try discriminate Hk; try (by eexists);
    match goal with |- context [if negb ?x then _ else _] => destruct x end; by eexists.
Qed.

Lemma compare_events_key a b : compare_events a b = Ok true → key_of a = key_of b.
Proof.
  unfold compare_events, key_of.
  destruct (tid_eqb _ _) eqn:Ht; simpl; [|done]. apply tid_eqb_spec in Ht.
  destruct (Nat.eqb _ _) eqn:Hd; simpl; [|done]. apply Nat.eqb_eq in Hd.
  destruct (kind_eqb _ _) eqn:Hk; simpl; [|done]. apply kind_eqb_eq in Hk.
  intros _. by rewrite Ht, Hd, Hk.
Qed.

Lemma bool_decide_sym {A} `{EqDecision A} (x y : A) : bool_decide (x = y) = bool_decide (y = x).
Proof. apply bool_decide_ext. naive_solver. Qed.

Lemma compare_events_sym a b : compare_events a b = compare_events b a.
Proof.
  unfold compare_events. rewrite (tid_eqb_sym (ev_tid a)), (Nat.eqb_sym (ev_depth a)),
    (N.eqb_sym (ev_lid a)), (N.eqb_sym (ev_cid a)), (bool_decide_sym (atomic_predecessor a)),
    (bool_decide_sym (predecessors a)).
  destruct (kind_eqb (ev_kind a) (ev_kind b)) eqn:Hk.
  - apply kind_eqb_eq in Hk. rewrite Hk, (proj2 (kind_eqb_eq _ _) eq_refl). simpl.
    unfold ev_kind, created_tid, has_same_local_path in *.
    destruct (ev_data a), (ev_data b); simpl in Hk; try discriminate Hk; try done.
    + by rewrite (bool_decide_sym path).
    + simpl. by rewrite (tid_eqb_sym created_tid0).
  - assert (kind_eqb (ev_kind b) (ev_kind a) = false) as ->; [|done].
    apply kind_eqb_ne. apply kind_eqb_ne in Hk. congruence.
Qed.

(** What [compare_events] compares: it holds of two events exactly when these
    agree, so it is an equivalence. *)
Definition identity e :=
  (key_of e, (ev_lid e, ev_cid e), (atomic_predecessor e, predecessors e),
   match ev_data e with ThreadCreate _ t => Some t | _ => None end,
   match ev_data e with Local _ l => Some l | _ => None end).

Lemma compare_events_identity a b : compare_events a b = Ok true ↔ identity a = identity b.
Proof.
  split.
  - intros Hc. pose proof (compare_events_key _ _ Hc) as Hk. revert Hc.
    unfold compare_events, identity.
    destruct (tid_eqb _ _), (Nat.eqb _ _), (kind_eqb _ _); simpl; try done.
    destruct (_ =? _)%N eqn:Hl; simpl; [|done]. apply N.eqb_eq in Hl.
    destruct (ev_cid a =? ev_cid b)%N eqn:Hci; simpl; [|done]. apply N.eqb_eq in Hci.
    case_bool_decide as Hat; simpl; [|done]. rewrite Hk, Hl, Hci, Hat.
    injection Hk as _ _ Hk. unfold ev_kind, created_tid, has_same_local_path in *.
    destruct (ev_data a), (ev_data b); simpl in Hk; try discriminate Hk; simpl;
      try (intros [= Hp%bool_decide_eq_true]; by rewrite Hp).
    + case_bool_decide; simpl; [|done]. intros [= Hp%bool_decide_eq_true]. by subst; rewrite Hp.
    + destruct (tid_eqb _ _) eqn:Ht; simpl; [|done]. apply tid_eqb_spec in Ht.
      intros [= Hp%bool_decide_eq_true]. by subst; rewrite Hp.
  - unfold identity, compare_events, key_of. intros [= Ht Hd Hk Hl Hci Hat Hp Hcr Hpa].
    rewrite Ht, Hd, Hk, Hl, Hci, Hat, Hp, (proj2 (tid_eqb_spec _ _) eq_refl), Nat.eqb_refl,
      (proj2 (kind_eqb_eq _ _) eq_refl), !N.eqb_refl, !bool_decide_true by done. simpl.
    unfold ev_kind, created_tid, has_same_local_path in *.
    destruct (ev_data a), (ev_data b); simpl in *; try discriminate Hk; try done; simplify_eq;
      rewrite ?(proj2 (tid_eqb_spec _ _) eq_refl), ?bool_decide_true by done; done.
Qed.

Lemma compare_events_join a b c :
  compare_events a b = Ok true → compare_events a c = Ok true → compare_events b c = Ok true.
Proof. rewrite !compare_events_identity. congruence. Qed.

(** Comparison reads immutable fields only. *)
Lemma compare_events_core a b b' : same_core b b' → compare_events a b = compare_events a b'.
Proof.
  intros Hs. pose proof (core_data _ _ Hs) as Hd. unfold compare_events.
  rewrite (core_tid _ _ Hs), (core_depth _ _ Hs), (ev_kind_proper _ _ Hs), (ev_lid_proper _ _ Hs),
    (ev_cid_proper _ _ Hs), (predecessors_proper _ _ Hs).
  assert (atomic_predecessor b = atomic_predecessor b') as ->.
  { unfold atomic_predecessor. destruct (ev_data b), (ev_data b'); simpl in Hd; by simplify_eq. }
  assert (created_tid b = created_tid b') as ->.
  { unfold created_tid. destruct (ev_data b), (ev_data b'); simpl in Hd; by simplify_eq. }
  assert (has_same_local_path a b = has_same_local_path a b') as ->; [|done].
  unfold has_same_local_path. destruct (ev_data a), (ev_data b), (ev_data b'); simpl in Hd; by simplify_eq.
Qed.
End updates.

Section invariant.
Context {PL : Payload}.
Implicit Types (h : heap) (e : event).

(** ** Local configurations *)

Record lc_ok h (p : eid) e : Prop := {
  lc_free : conflict_free h (λ x, causal_le h x p);
  lc_join tp j : ev_data e = ThreadJoin tp j → ¬ causal_lt h j tp;
  lc_ids : ids_nonzero e;
  (** A lock event without a lock predecessor is the first on its lock. *)
  lc_lock x ex : ev_lid e ≠ 0%N → lock_predecessor e = None → causal_lt h x p →
    h !! x = Some ex → ev_lid ex ≠ ev_lid e;
}.

Lemma imm0_exact h q s e :
  wf_heap h → h !! s = Some e → lc_ok h s e → imm0 h q s ↔ immediate_cause h q s.
Proof.
  intros Hwf He [Hf Hj _ _].
  destruct (immediate_predecessors_spec h _ Hwf Hf s e) as (l & Hl & Hx); [reflexivity | done | done |].
  rewrite <-Hx. unfold imm0, at_event. rewrite He. split.
  - intros (e' & [= <-] & l' & Hl' & Hq). congruence.
  - intros Hq. eauto.
Qed.

(** A predecessor is below a maximal one. *)
Lemma immediate_above n h q s e :
  wf_heap h → h !! s = Some e → conflict_free h (λ x, causal_le h x s) →
  dep h s < n + dep h q → q ∈ predecessors e →
  ∃ m, immediate_cause h m s ∧ causal_le h q m.
Proof.
  intros Hwf He Hf. revert q. induction n as [|n IH]; intros q Hn Hq.
  { assert (imm h q s) as Hi by (by exists e). apply imm_dep in Hi; [lia | done]. }
  assert (∀ x, x ∈ predecessors e → causal_le h x s) as HC.
  { intros x Hx. apply rtc_once. by exists e. }
  destruct (existsb (lt_of h q) (predecessors e)) eqn:Hex.
  - apply existsb_elem_of in Hex as (q' & Hq' & Hlt).
    apply (lt_of_true h _ Hwf Hf) in Hlt; [|by apply HC..].
    destruct (IH q') as (m & Hm & Hle); [|done|].
    + apply causal_lt_dep in Hlt; [lia | done].
    + exists m. split; [done|]. etrans; [|done]. apply causal_le_alt. by right.
  - exists q. split; [|reflexivity]. apply (immediate_cause_pred h q s e He). split; [done|].
    intros q' Hq' Hlt. assert (existsb (lt_of h q) (predecessors e) = true); [|congruence].
    apply existsb_elem_of. exists q'. split; [done|].
    apply (lt_of_true h _ Hwf Hf); [by apply HC..|done].
Qed.

Lemma lc_cover h q s :
  wf_heap h → (∀ p e, h !! p = Some e → lc_ok h p e) → imm h q s →
  ∃ m, imm0 h m s ∧ causal_le h q m.
Proof.
  intros Hwf Hlc (e & He & Hq). pose proof (Hlc s e He) as Hs.
  destruct (immediate_above (S (dep h s)) h q s e) as (m & Hm & Hle);
    [done | done | apply Hs | lia | done |].
  exists m. split; [by apply (imm0_exact h m s e) | done].
Qed.

Lemma imm0_imm h m s :
  wf_heap h → (∀ p e, h !! p = Some e → lc_ok h p e) → imm0 h m s → imm h m s.
Proof.
  intros Hwf Hlc Hm. destruct Hm as (e & He & Hl) eqn:E. clear E.
  assert (imm0 h m s) as Hm' by (by exists e).
  apply (imm0_exact h m s e) in Hm'; [|by auto..].
  apply (immediate_cause_pred h m s e He) in Hm' as [Hm' _]. by exists e.
Qed.

(** ** Stability under extension *)

Lemma ext_conflict_free h h' (C : eid → Prop) :
  wf_heap h → heap_ext h h' → conflict_free h C → conflict_free h' C.
Proof.
  intros Hwf Hext [H1 H2 H3 H4].
  assert (∀ q x, C x → tpred h' q x → tpred h q x) as Htp.
  { intros q x Hx (e' & He' & Ht). destruct (H1 x Hx) as [e He].
    destruct (Hext x e He) as (e'' & ? & Hs). simplify_eq. exists e. split; [done|].
    by rewrite (thread_predecessor_proper _ _ Hs). }
  split.
  - intros x Hx. destruct (H1 x Hx) as [e He]. destruct (Hext x e He) as (? & ? & _). eauto.
  - intros x y Hy Hle. apply (H2 x y Hy). apply (ext_causal_le_inv h h'); auto.
  - intros x y ex' ey' Hx Hy Hex' Hey' Hnx Hny Ht.
    destruct (H1 x Hx) as [ex Hex]. destruct (Hext x ex Hex) as (? & ? & Hsx). simplify_eq.
    destruct (H1 y Hy) as [ey Hey]. destruct (Hext y ey Hey) as (? & ? & Hsy). simplify_eq.
    rewrite <-(thread_predecessor_proper _ _ Hsx) in Hnx.
    rewrite <-(thread_predecessor_proper _ _ Hsy) in Hny.
    rewrite <-(ev_tid_proper _ _ Hsx), <-(ev_tid_proper _ _ Hsy) in Ht. by eapply H3.
  - intros x y q Hx Hy Hqx Hqy. eapply H4; eauto.
Qed.

Lemma conflict_free_iff h (C D : eid → Prop) :
  (∀ x, C x ↔ D x) → conflict_free h C → conflict_free h D.
Proof.
  intros Heq [H1 H2 H3 H4]. split.
  - intros x Hx. by apply H1, Heq.
  - intros x y Hy Hle. apply Heq. eapply H2; [by apply Heq | done].
  - intros x y ex ey Hx Hy. apply H3; by apply Heq.
  - intros x y q Hx Hy. apply H4; by apply Heq.
Qed.

Lemma ids_nonzero_core e e' : same_core e e' → ids_nonzero e → ids_nonzero e'.
Proof.
  intros [_ Hd _ _]. unfold ids_nonzero.
  destruct (ev_data e), (ev_data e'); simpl in Hd; by simplify_eq.
Qed.

Lemma ext_lc_ok h h' p e e' :
  wf_heap h → heap_ext h h' → h !! p = Some e → same_core e e' → lc_ok h p e → lc_ok h' p e'.
Proof.
  intros Hwf Hext Hp Hs [Hf Hj Hi Hl]. split.
  - eapply conflict_free_iff; [|by eapply ext_conflict_free]. intros x. split.
    + by apply ext_causal_le.
    + apply ext_causal_le_inv; eauto.
  - intros tp j Hd Hlt. assert (ev_data e = ThreadJoin tp j) as Hd'.
    { pose proof (core_data _ _ Hs) as Hc. rewrite Hd in Hc. destruct (ev_data e); by simplify_eq/=. }
    apply (Hj tp j Hd'). apply (ext_causal_lt_iff h h' Hext Hwf); [|done].
    apply (wf_preds _ _ (Hwf _ _ Hp)). unfold predecessors. rewrite Hd'. by left.
  - by eapply ids_nonzero_core.
  - intros x ex' Hn Hnone Hlt Hx'. apply (ext_causal_lt_iff h h' Hext Hwf) in Hlt; [|eauto].
    assert (is_Some (h !! x)) as [ex Hx].
    { apply (causal_le_in h x p); [done | by apply tc_rtc | eauto]. }
    destruct (Hext x ex Hx) as (ex'' & ? & Hsx). assert (ex'' = ex') as -> by congruence.
    rewrite <-(ev_lid_proper _ _ Hs), <-(ev_lid_proper _ _ Hsx) in *.
    rewrite <-(lock_predecessor_proper _ _ Hs) in Hnone. by eapply Hl.
Qed.

(** Two well-formed events over conflict-free causes that compare equal agree
    in all immutable fields. *)
Lemma broadcast_count h tp tp' cps n n' cid e e' :
  ev_data e = Broadcast tp cps n cid → ev_data e' = Broadcast tp' cps n' cid →
  class_ok h e → class_ok h e' → n = n'.
Proof.
  unfold class_ok. intros -> -> (_ & Hn & Hw & Hr) (_ & Hn' & Hw' & Hr').
  assert (∀ a b, a < b → b ≤ length cps →
    (∀ q, q ∈ take b cps → at_event h q (λ x, ev_kind x = wait1)) →
    (∀ q, q ∈ drop a cps → at_event h q (λ x, ev_kind x ≠ wait1)) → False) as Hno.
  { intros a b Hab Hb Htk Hdr. destruct (lookup_lt_is_Some_2 cps a) as [q Hq]; [lia|].
    destruct (Htk q) as (x & Hx & Hk).
    { apply list_elem_of_lookup. exists a. by rewrite lookup_take_lt. }
    destruct (Hdr q) as (x' & Hx' & Hk').
    { apply list_elem_of_lookup. exists 0. by rewrite lookup_drop, Nat.add_0_r. }
    congruence. }
  destruct (Nat.lt_trichotomy n n') as [?|[?|?]]; [exfalso|done|exfalso]; by eapply Hno.
Qed.

Lemma cone_for_unique h c c' (P : eid → Prop) C :
  wf_heap h → conflict_free h C → (∀ x, P x → C x) →
  cone_for h c P → cone_for h c' P → c = c'.
Proof.
  intros Hwf HC Hsub [Hs Hsd Hcp] [Hs' Hsd' Hcp']. apply smap_ext; [done..|].
  assert (∀ c c' t p, cone_sound h c P → (∀ x, P x → covers h c x) → cone_sound h c' P →
    (∀ x, P x → covers h c' x) → smap_find t c = Some p → smap_find t c' = Some p) as Hhalf.
  { clear -Hwf HC Hsub. intros c c' t p Hsd Hcp Hsd' Hcp' Hp.
    destruct (Hsd t p Hp) as [HP (ep & Hep & <- & Hk)].
    destruct (Hcp' p HP ep Hep Hk) as (r & Hr & Hle).
    destruct (Hsd' _ _ Hr) as [HPr (er & Her & Ht & Hkr)].
    destruct (Hcp r HPr er Her Hkr) as (p' & Hp' & Hle'). rewrite Ht in Hp'.
    assert (p' = p) as -> by congruence.
    assert (thread_le h p r) as H1 by (eapply (same_thread_le h C); eauto).
    assert (thread_le h r p) as H2 by (eapply (same_thread_le h C); eauto).
    apply thread_le_causal in H1, H2. apply causal_le_alt in H1 as [->|H1]; [done|].
    apply causal_le_alt in H2 as [->|H2]; [done|].
    exfalso. eapply (causal_lt_irrefl h p); [done | by eapply causal_lt_trans]. }
  intros t. destruct (smap_find t c) as [p|] eqn:Hp; [symmetry; by eapply (Hhalf c c')|].
  destruct (smap_find t c') as [p|] eqn:Hp'; [|done]. rewrite <-Hp. by eapply (Hhalf c' c).
Qed.

Definition first_on_lock h e : Prop :=
  ev_lid e ≠ 0%N → lock_predecessor e = None →
  ∀ x ex, below h x e → h !! x = Some ex → ev_lid ex ≠ ev_lid e.

Lemma two_predecessors_inj tp lp tp' lp' :
  two_predecessors tp lp = two_predecessors tp' lp' →
  tp = tp' ∧ (lp = lp' ∨ (lp = None ∧ lp' = Some tp) ∨ (lp = Some tp ∧ lp' = None)).
Proof.
  unfold two_predecessors. destruct lp, lp'; repeat case_bool_decide; intros; simplify_eq; auto.
Qed.

Lemma first_clash h e tp x lid :
  first_on_lock h e →
  (ev_data e = LockDestroy tp None lid ∨ ∃ b, ev_data e = LockAcquire tp None lid b) →
  lid ≠ 0%N → h !! tp = Some x → ev_lid x = lid → False.
Proof.
  intros Hf He Hn Hx Hl.
  assert (ev_lid e = lid ∧ lock_predecessor e = None ∧ tp ∈ predecessors e) as (El & Enone & Hp).
  { unfold ev_lid, lock_predecessor, predecessors.
    destruct He as [->|[b ->]]; (split_and!; [done..| apply two_predecessors_elem; by left]). }
  eapply Hf; [by rewrite El | done | by exists tp | done | congruence].
Qed.

Lemma identity_data h e e' :
  wf_event h e → wf_event h e' → first_on_lock h e → first_on_lock h e' → ids_nonzero e →
  identity e = identity e' → data_core (ev_data e) = data_core (ev_data e').
Proof.
  intros Hw Hw' Hf Hf' Hids. pose proof (wf_class _ _ Hw) as Hc. pose proof (wf_class _ _ Hw') as Hc'.
  unfold identity, key_of. intros [= Ht Hd Hk Hl Hci Hat Hp Hcr Hpa].
  pose proof (λ tp tp' cps n n' cid, broadcast_count h tp tp' cps n n' cid e e') as Hn.
  unfold ev_kind, ev_lid, ev_cid, predecessors, class_ok, atomic_predecessor, ids_nonzero in *.
  destruct (ev_data e) eqn:He, (ev_data e') eqn:He'; simpl in Hk; try discriminate Hk; simpl in *;
    simplify_eq; try done.
  - by destruct atomic, atomic0.
  - apply two_predecessors_inj in Hp as [-> [->|[[-> ->]|[-> ->]]]]; [done|exfalso..].
    + destruct Hc' as (x & Hx & _ & Hlx). by eapply (first_clash h e _ x _ Hf); eauto.
    + destruct Hc as (x & Hx & _ & Hlx). by eapply (first_clash h e' _ x _ Hf'); eauto.
  - apply two_predecessors_inj in Hp as [-> [->|[[-> ->]|[-> ->]]]]; [done|exfalso..].
    + destruct Hc' as (x & Hx & _ & Hlx). by eapply (first_clash h e _ x _ Hf); eauto.
    + destruct Hc as (x & Hx & _ & Hlx). by eapply (first_clash h e' _ x _ Hf'); eauto.
  - apply two_predecessors_inj in Hp as [-> [[= ->]|[[? ?]|[? ?]]]]; [|done..].
    by destruct atomic, atomic0.
  - f_equal. by eapply Hn.
Qed.

Lemma identity_core h e e' C :
  wf_heap h → wf_event h e → wf_event h e' → first_on_lock h e → first_on_lock h e' →
  ids_nonzero e → conflict_free h C → (∀ x, below h x e → C x) →
  identity e = identity e' → same_core e e'.
Proof.
  intros Hwf Hw Hw' Hf Hf' Hids HC Hsub Hid.
  pose proof (identity_data h e e' Hw Hw' Hf Hf' Hids Hid) as Hdata.
  unfold identity, key_of in Hid. injection Hid as Ht Hd Hk Hl Hci Hat Hp Hcr Hpa.
  split; [done..| |done].
  eapply (cone_for_unique h _ _ (λ x, below h x e) C); [done | done | done | apply Hw |].
  apply (cone_for_equiv h _ (λ x, below h x e')); [|apply Hw']. intros x. unfold below. by rewrite Hp.
Qed.

Lemma ext_imm0 h h' w s :
  wf_heap h → heap_ext h h' → is_Some (h !! s) → imm0 h' w s ↔ imm0 h w s.
Proof.
  intros Hwf Hext [e He]. destruct (Hext s e He) as (e' & He' & Hs). unfold imm0, at_event.
  rewrite He, He'. pose proof (ext_immediate_predecessors h h' Hext Hwf e e' (Hwf _ _ He) Hs) as Hp.
  split; intros (? & [= <-] & l & Hl & Hw); eexists; (split; [done|]); exists l; split; congruence.
Qed.

(** Immediate conflicts depend on the immutable fields and on the inherited
    conflicts only. *)
Lemma avoidable_mono h h' this et et' s :
  (∀ x, cause h this x → cause h' this x) →
  (∀ c, inherited h' this c → inherited h this c) →
  (∀ q x, imm h q x ↔ imm h' q x) →
  (∀ x, independent h et x → independent h' et' x) →
  avoidable h this et s → avoidable h' this et' s.
Proof.
  intros Hc Hi Hm Hind. induction 1 as [x Hx|s Hs Hin [q Hq] _ IH Hx].
  - apply av_cause. auto.
  - apply av_step; [done | naive_solver | | | by auto].
    + exists q. by apply Hm.
    + intros q' Hq'%Hm. auto.
Qed.

Lemma immediate_conflict_transfer h h' this et et' s :
  wf_heap h → wf_heap h' → heap_ext h h' → (∀ q, is_Some (h !! q) ↔ is_Some (h' !! q)) →
  h !! this = Some et → h' !! this = Some et' →
  (∀ c, inherited h this c ↔ inherited h' this c) →
  immediate_conflict h this et s ↔ immediate_conflict h' this et' s.
Proof.
  intros Hwf Hwf' Hext Hd Het Het' Hinh.
  assert (∀ q x, imm h q x ↔ imm h' q x) as Himm.
  { intros q x. split; [by apply ext_imm|]. intros Hq. apply (ext_imm_inv h h' Hext); [|done].
    apply Hd. destruct Hq as (? & ? & _). eauto. }
  assert (∀ x, cause h this x ↔ cause h' this x) as Hc.
  { intros x. unfold cause. rewrite (ext_causal_lt_iff h h' Hext Hwf); [done | eauto]. }
  assert (same_core et et') as Hs.
  { destruct (Hext this et Het) as (? & ? & ?). congruence. }
  assert (∀ x, independent h et x ↔ independent h' et' x) as Hind.
  { intros x. unfold independent, at_event.
    assert (∀ ex ex', h !! x = Some ex → h' !! x = Some ex' →
      is_independent_of h et ex = is_independent_of h' et' ex') as Hie.
    { intros ex ex' Hx Hx'. destruct (Hext x ex Hx) as (? & ? & ?). simplify_eq.
      apply is_independent_of_eq; apply ext_ind_eq; try done; eapply wf_preds; by eapply Hwf. }
    split; intros (ex & Hx & Hi).
    - destruct (Hext x ex Hx) as (ex' & Hx' & _). exists ex'. by rewrite <-(Hie ex ex').
    - assert (is_Some (h !! x)) as [ex' Hx'] by (apply Hd; eauto). exists ex'. by rewrite (Hie ex' ex). }
  assert (∀ x, avoidable h this et x ↔ avoidable h' this et' x) as Hav.
  { intros x. split; apply avoidable_mono; try (intros; by apply Hc);
      try (intros; by apply Hinh); try (intros; by apply Hind); intros; by rewrite Himm. }
  unfold immediate_conflict. rewrite (Hinh s), (Hc s), (Hd s), (Hind s).
  assert ((∃ q, imm h q s) ↔ ∃ q, imm h' q s) as -> by (apply exist_proper; auto).
  assert ((∀ q, imm h q s → avoidable h this et q) ↔ (∀ q, imm h' q s → avoidable h' this et' q))
    as -> by (apply forall_proper; intros q; by rewrite Himm, Hav).
  done.
Qed.
End invariant.
