(* ===== verification/DedupProofs.v ===== *)
(** * Deduplication keeps the unfolding's invariant *)

From stdpp Require Import base tactics list gmap numbers relations.
From S2P Require Import Prelude StdMap ThreadId Event Comb CombEnum CombProofs Cone Alloc Causality.
From S2P Require Import HeapExt Order Walks Independence Unfolding ColorProofs UnfoldingProofs.

Section dedup.
Context {PL : Payload} {AL : Allocator}.
Implicit Types (h : heap) (e : event) (u : unfolding).

Record uf_ok u : Prop := {
  uo_wf : wf_heap (uf_heap u);
  uo_lc p e : uf_heap u !! p = Some e → lc_ok (uf_heap u) p e;
  uo_sorted : smap_sorted (uf_events u);
  uo_index k p : p ∈ default [] (smap_find k (uf_events u)) ↔
    at_event (uf_heap u) p (λ e, key_of e = k);
  uo_distinct p q ep eq : uf_heap u !! p = Some ep → uf_heap u !! q = Some eq →
    compare_events ep eq = Ok true → p = q;
  uo_succ w e s : uf_heap u !! w = Some e → s ∈ ev_successors e ↔ imm0 (uf_heap u) w s;
  uo_conf x y : conflicts_of (uf_heap u) x y → x ≠ y ∧ conflicts_of (uf_heap u) y x;
  uo_col p c : col (uf_heap u) p = Some c → (c ≤ uf_next_cfl_color u)%N;
  uo_cut x s : is_cut (uf_heap u) x → succ_of (uf_heap u) x s → is_cut (uf_heap u) s;
  uo_dep x y ex ey : conflicts_of (uf_heap u) x y →
    uf_heap u !! x = Some ex → uf_heap u !! y = Some ey →
    is_independent_of (uf_heap u) ex ey = Ok false ∧ ¬ causal_le (uf_heap u) x y;
  uo_root : at_event (uf_heap u) (uf_root u) (λ e, ev_kind e = program_init);
}.

(** What a new event has to satisfy: the constructors give [ne_wf],
    [ne_fresh] and [ne_cutoff]; the rest says that its causes are free of
    conflicts and that it is the next event of its thread over them. *)
Record new_event_ok h e : Prop := {
  ne_wf : wf_event h e;
  ne_ids : ids_nonzero e;
  ne_free : conflict_free h (λ x, below h x e);
  ne_next x q : below h x e → thread_predecessor e = Some q → ¬ tpred h q x;
  ne_first x ex : below h x e → h !! x = Some ex → thread_predecessor e = None →
    ev_tid ex = ev_tid e → thread_predecessor ex = None → False;
  ne_join tp j : ev_data e = ThreadJoin tp j → ¬ causal_lt h j tp;
  ne_lock : first_on_lock h e;
  ne_conf x y : below h x e → below h y e → ¬ conflicts_of h x y;
  ne_fresh : ev_successors e = [] ∧ ev_immediate_conflicts e = [] ∧ ev_imm_cfl_color e = 0%N;
  ne_cutoff q : q ∈ predecessors e → is_cut h q → ev_is_cutoff e = true;
}.

(** ** Storing the event *)

Section store.
Context (h : heap) (e : event) (p : eid) (i : N).
Hypothesis Hwf : wf_heap h.
Hypothesis Hp : h !! p = None.
Hypothesis Hne : new_event_ok h e.

Definition stored : event := set_metadata_id i e.
Definition h1 : heap := <[p := stored]> h.

Lemma stored_core : same_core e stored.
Proof. by split. Qed.

Lemma h1_ext : heap_ext h h1.
Proof. by apply heap_ext_fresh. Qed.

Lemma h1_lookup : h1 !! p = Some stored.
Proof. apply lookup_insert_eq. Qed.

Lemma h1_other q : q ≠ p → h1 !! q = h !! q.
Proof. intros. unfold h1. by rewrite lookup_insert_ne. Qed.

Lemma h1_wf : wf_heap h1.
Proof.
  apply wf_heap_insert; [done..|]. eapply wf_event_core; [apply stored_core | apply Hne].
Qed.

Lemma h1_below x : causal_lt h1 x p ↔ below h x e.
Proof.
  rewrite causal_lt_alt, h1_lookup.
  rewrite <-(ext_below h h1 h1_ext Hwf e x) by apply (wf_preds _ _ (ne_wf _ _ Hne)).
  unfold below. change (predecessors stored) with (predecessors e). split.
  - intros (e' & [= <-] & q & Hq & Hle). eauto.
  - intros (q & Hq & Hle). eexists. split; [done|]. eauto.
Qed.

Lemma below_stored x : below h x e → is_Some (h !! x).
Proof. apply (cf_in _ _ (ne_free _ _ Hne)). Qed.

Lemma h1_le x : causal_le h1 x p ↔ x = p ∨ below h x e.
Proof. by rewrite causal_le_alt, h1_below. Qed.

Lemma h1_tpred q x : below h x e → tpred h1 q x ↔ tpred h q x.
Proof.
  intros [ex Hx]%below_stored. unfold tpred, at_event. rewrite h1_other by congruence. done.
Qed.

Lemma h1_conflict_free : conflict_free h1 (λ x, causal_le h1 x p).
Proof.
  pose proof (ext_conflict_free h h1 _ Hwf h1_ext (ne_free _ _ Hne)) as [H1 H2 H3 H4].
  split.
  - intros x [->|Hx]%h1_le; [by rewrite h1_lookup | auto].
  - intros x y Hy Hle. by etrans.
  - intros x y ex ey [->|Hx]%h1_le [->|Hy]%h1_le Hex Hey Hnx Hny Ht; [done| | |by eapply H3].
    + rewrite h1_lookup in Hex. injection Hex as <-. exfalso.
      assert (y ≠ p) by (apply below_stored in Hy as [? ?]; congruence).
      rewrite h1_other in Hey by done. by eapply (ne_first _ _ Hne y ey).
    + rewrite h1_lookup in Hey. injection Hey as <-. exfalso.
      assert (x ≠ p) by (apply below_stored in Hx as [? ?]; congruence).
      rewrite h1_other in Hex by done. by eapply (ne_first _ _ Hne x ex).
  - assert (∀ y q, below h y e → tpred h1 q p → tpred h1 q y → False) as Hcl.
    { intros y q Hy (e' & He' & Hq) Hqy. rewrite h1_lookup in He'. injection He' as <-.
      eapply (ne_next _ _ Hne y q Hy); [done | by apply h1_tpred]. }
    intros x y q [->|Hx]%h1_le [->|Hy]%h1_le Hqx Hqy; [done | | |by eapply H4];
      exfalso; by eapply Hcl.
Qed.

Lemma h1_lc q eq :
  (∀ p e, h !! p = Some e → lc_ok h p e) → h1 !! q = Some eq → lc_ok h1 q eq.
Proof.
  intros Hlc Hq. destruct (decide (q = p)) as [->|Hqp].
  - rewrite h1_lookup in Hq. injection Hq as <-. split; [apply h1_conflict_free | | apply Hne |].
    2: { intros x ex Hn Hnone Hlt%h1_below Hx. apply (ne_lock _ _ Hne Hn Hnone x ex Hlt).
         rewrite h1_other in Hx; [done|]. apply below_stored in Hlt as [? ?]. congruence. }
    intros tp j Hd Hlt. apply (ne_join _ _ Hne tp j Hd).
    apply (ext_causal_lt_iff h h1 h1_ext Hwf); [|done].
    apply (wf_preds _ _ (ne_wf _ _ Hne)). change (ev_data stored) with (ev_data e) in Hd.
    unfold predecessors. rewrite Hd. by left.
  - rewrite h1_other in Hq by done. eapply ext_lc_ok; [done | apply h1_ext | done | done | auto].
Qed.

(** ** Linking it to its immediate predecessors *)

Hypothesis Hlc : ∀ q eq, h !! q = Some eq → lc_ok h q eq.
Hypothesis Hsucc : ∀ w ew s, h !! w = Some ew → s ∈ ev_successors ew ↔ imm0 h w s.

(** The heap after [add_to_successors]. *)
Record linked (h2 : heap) : Prop := {
  lk_dom q : is_Some (h1 !! q) ↔ is_Some (h2 !! q);
  lk_rel q eq : h1 !! q = Some eq → ∃ eq', h2 !! q = Some eq' ∧ succ_rel p eq eq' ∧
    (p ∈ ev_successors eq' ↔ imm0 h1 q p);
}.

Lemma imm0_h1 w s : s ≠ p → is_Some (h !! s) → imm0 h1 w s ↔ imm0 h w s.
Proof. intros _ Hs. apply ext_imm0; [done | apply h1_ext | done]. Qed.

Lemma no_succ_new q eq : h !! q = Some eq → p ∉ ev_successors eq.
Proof. intros Hq Hin%(Hsucc q eq); [|done]. destruct Hin as (ep & Hep & _). congruence. Qed.

Lemma add_to_successors_spec :
  ∃ h2, add_to_successors h1 p = Ok h2 ∧ linked h2.
Proof.
  pose proof (h1_lc p stored Hlc h1_lookup) as [Hf Hj _ _].
  destruct (immediate_predecessors_spec h1 _ h1_wf Hf p stored) as (l & Hl & Hx);
    [reflexivity | apply h1_lookup | done |].
  assert (∀ q, q ∈ l → is_Some (h !! q)) as Hin.
  { intros q [Hq _]%Hx. by apply below_stored, h1_below. }
  unfold add_to_successors. rewrite (proj2 (deref_ok h1 p stored) h1_lookup), bind_Ok_l, Hl, bind_Ok_l.
  destruct (for_each_upd (succ_rel p) (λ eq, set_successors (ev_successors eq ++ [p]) eq) h1 l)
    as (h2 & -> & Hd & Hr).
  { intros eq. split; try done; simpl; intros s; rewrite elem_of_app, list_elem_of_singleton; tauto. }
  { intros q [eq Hq]%Hin. rewrite h1_other by congruence. eauto. }
  exists h2. split; [done|]. split; [done|]. intros q eq Hq.
  destruct (Hr q eq Hq) as (eq' & Hq' & HR & Hn & Hi). exists eq'. split_and!; [done..|].
  assert (imm0 h1 q p ↔ q ∈ l) as ->.
  { unfold imm0, at_event. rewrite h1_lookup. split.
    - intros (? & [= <-] & l' & Hl' & Hql). congruence.
    - intros Hql. eauto. }
  split.
  - intros Hps. destruct (decide (q ∈ l)) as [|Hql]; [done|]. rewrite (Hn Hql) in Hps. exfalso.
    destruct (decide (q = p)) as [->|Hqp].
    + rewrite h1_lookup in Hq. injection Hq as <-. simpl in Hps.
      rewrite (proj1 (ne_fresh _ _ Hne)) in Hps. by apply elem_of_nil in Hps.
    + rewrite h1_other in Hq by done. by eapply no_succ_new.
  - intros Hql. destruct (Hi Hql) as (e'' & _ & HR'). apply (sr_succ _ _ _ HR'). simpl.
    apply elem_of_app. right. by left.
Qed.

Section link.
Context (h2 : heap).
Hypothesis Hlk : linked h2.

Lemma h2_ext1 : heap_ext h1 h2.
Proof.
  intros q eq Hq. destruct (lk_rel _ Hlk q eq Hq) as (eq' & Hq' & Hr & _).
  exists eq'. split; [done | apply Hr].
Qed.

Lemma h2_ext : heap_ext h h2.
Proof. etrans; [apply h1_ext | apply h2_ext1]. Qed.

Lemma h2_wf : wf_heap h2.
Proof.
  apply (wf_heap_ext h1); [apply h1_wf | apply h2_ext1 |].
  intros q eq Hq Hn. assert (is_Some (h1 !! q)) as [? ?] by (apply (lk_dom _ Hlk); eauto). congruence.
Qed.

(** The stored events are the old ones and the new one, with old fields. *)
Lemma h2_inv q eq' :
  h2 !! q = Some eq' → ∃ eq, h1 !! q = Some eq ∧ succ_rel p eq eq' ∧
    (p ∈ ev_successors eq' ↔ imm0 h1 q p).
Proof.
  intros Hq. assert (is_Some (h1 !! q)) as [eq Heq] by (apply (lk_dom _ Hlk); eauto).
  destruct (lk_rel _ Hlk q eq Heq) as (eq'' & ? & ? & ?). simplify_eq. eauto.
Qed.

Lemma h2_lc q eq : h2 !! q = Some eq → lc_ok h2 q eq.
Proof.
  intros (eq1 & Hq1 & Hr & _)%h2_inv. eapply (ext_lc_ok h1); [apply h1_wf | apply h2_ext1 | done
    | apply Hr | by apply h1_lc].
Qed.

Lemma h2_succ w ew s : h2 !! w = Some ew → s ∈ ev_successors ew ↔ imm0 h2 w s.
Proof.
  intros Hw. destruct (h2_inv w ew Hw) as (ew1 & Hw1 & Hr & Hpw).
  destruct (decide (s = p)) as [->|Hsp].
  { rewrite Hpw. symmetry. apply (ext_imm0 h1); [apply h1_wf | apply h2_ext1 |].
    rewrite h1_lookup. eauto. }
  assert (s ∈ ev_successors ew ↔ s ∈ ev_successors ew1) as ->.
  { split; [intros [?|?]%(sr_succ' _ _ _ Hr); done | apply Hr]. }
  assert (imm0 h2 w s ↔ is_Some (h !! s) ∧ imm0 h w s) as ->.
  { split.
    - intros Hi. assert (is_Some (h1 !! s)) as Hs1.
      { destruct Hi as (es & Hes & _). apply (lk_dom _ Hlk). eauto. }
      assert (is_Some (h !! s)) as Hs by (by rewrite h1_other in Hs1). split; [done|].
      by apply (ext_imm0 h h2 w s Hwf h2_ext Hs).
    - intros [Hs Hi]. by apply (ext_imm0 h h2 w s Hwf h2_ext Hs). }
  destruct (decide (w = p)) as [->|Hwp].
  - rewrite h1_lookup in Hw1. injection Hw1 as <-. simpl. rewrite (proj1 (ne_fresh _ _ Hne)).
    split; [by intros ?%elem_of_nil|]. intros [_ Hi%(imm0_imm h _ _ Hwf Hlc)].
    destruct Hi as (es & Hes & Hin). destruct (wf_preds _ _ (Hwf _ _ Hes) p Hin). congruence.
  - rewrite h1_other in Hw1 by done. rewrite (Hsucc w ew1 s Hw1). split; [|tauto].
    intros Hi. split; [|done]. destruct Hi as (es & Hes & _). eauto.
Qed.

Hypothesis Hconf : ∀ x y, conflicts_of h x y → x ≠ y ∧ conflicts_of h y x.
Hypothesis Hids : ∀ q eq, h !! q = Some eq → ids_nonzero eq.

Lemma h2_conflicts x y : conflicts_of h2 x y ↔ conflicts_of h x y.
Proof.
  unfold conflicts_of, at_event. split.
  - intros (ex & Hx & Hy). destruct (h2_inv x ex Hx) as (ex1 & Hx1 & Hr & _).
    rewrite <-(sr_conf _ _ _ Hr) in Hy. destruct (decide (x = p)) as [->|Hxp].
    + rewrite h1_lookup in Hx1. injection Hx1 as <-. simpl in Hy.
      rewrite (proj1 (proj2 (ne_fresh _ _ Hne))) in Hy. by apply elem_of_nil in Hy.
    + rewrite h1_other in Hx1 by done. eauto.
  - intros (ex & Hx & Hy). assert (x ≠ p) by congruence.
    assert (h1 !! x = Some ex) as Hx1 by (by rewrite h1_other).
    destruct (lk_rel _ Hlk x ex Hx1) as (ex' & Hx' & Hr & _). exists ex'. split; [done|].
    by rewrite <-(sr_conf _ _ _ Hr).
Qed.

Lemma h2_below x : causal_lt h2 x p ↔ below h x e.
Proof.
  rewrite (ext_causal_lt_iff h1 h2 h2_ext1 h1_wf), h1_below; [done|]. rewrite h1_lookup. eauto.
Qed.

Lemma h2_ready ep : h2 !! p = Some ep → conflict_ready h2 p ep.
Proof.
  intros Hep. split; [apply h2_wf | done | | | | apply h2_succ | |].
  - intros x ex c Hx Hc. assert (conflicts_of h2 x c) as Hxc by (by exists ex).
    apply h2_conflicts, Hconf in Hxc as [_ (ec & Hec & _)].
    destruct (h2_ext c ec Hec) as (? & ? & _). eauto.
  - intros x y Hx%h2_below Hy%h2_below Hxy%h2_conflicts. by eapply (ne_conf _ _ Hne x y).
  - intros s es Hs. destruct (is_independent_of_sym h2 ep es) as (r & Hr & _); [| |eauto].
    + apply wf_ind_facts; [by eapply h2_wf | apply (h2_lc p ep Hep)].
    + apply wf_ind_facts; [by eapply h2_wf | apply (h2_lc s es Hs)].
  - intros q s. apply lc_cover; [apply h2_wf | apply h2_lc].
  - intros m s. apply imm0_imm; [apply h2_wf | apply h2_lc].
Qed.
End link.
End store.

(** ** Recording the conflicts *)

Record recorded (p : eid) (result : list eid) (top : N) (h2 h5 : heap) : Prop := {
  rc_dom q : is_Some (h2 !! q) ↔ is_Some (h5 !! q);
  rc_rel q eq : h2 !! q = Some eq → ∃ eq', h5 !! q = Some eq' ∧ same_core eq eq' ∧
    ev_successors eq = ev_successors eq' ∧ ev_is_cutoff eq = ev_is_cutoff eq' ∧
    (ev_imm_cfl_color eq' ≤ top)%N ∧
    ∀ y, y ∈ ev_immediate_conflicts eq' ↔
      if decide (q = p) then y ∈ result else y ∈ ev_immediate_conflicts eq ∨ (y = p ∧ q ∈ result);
  rc_new : at_event h5 p (λ ep, ev_immediate_conflicts ep = result);
}.

Lemma record_conflicts_spec h2 h3 p result top ep :
  cfl_eq h2 h3 → h2 !! p = Some ep → p ∉ result → (∀ s, s ∈ result → is_Some (h2 !! s)) →
  (∀ q c, col h3 q = Some c → (c ≤ top)%N) →
  ∃ h4 h5, upd h3 p (set_immediate_conflicts result) = Ok h4 ∧
    for_each (λ h other, upd h other
      (λ eo, set_immediate_conflicts (ev_immediate_conflicts eo ++ [p]) eo)) h4 result = Ok h5 ∧
    recorded p result top h2 h5.
Proof.
  intros Heq Hp Hpr Hres Hcol. destruct (cfl_eq_lookup _ _ _ _ Heq Hp) as (ep3 & Hp3 & Hf3).
  rewrite (upd_ok h3 p ep3 _ Hp3). set (h4 := <[p := set_immediate_conflicts result ep3]> h3).
  assert (∀ q, is_Some (h2 !! q) ↔ is_Some (h4 !! q)) as Hd4.
  { intros q. rewrite (cfl_eq_some _ _ q Heq). unfold h4. destruct (decide (p = q)) as [->|].
    - rewrite lookup_insert_eq. naive_solver.
    - by rewrite lookup_insert_ne. }
  destruct (for_each_upd (conf_rel p)
    (λ eo, set_immediate_conflicts (ev_immediate_conflicts eo ++ [p]) eo) h4 result)
    as (h5 & Hh5 & Hd5 & Hr5).
  { intros eo. split; try done; simpl; intros s; rewrite elem_of_app, list_elem_of_singleton; tauto. }
  { intros s Hs. by apply Hd4, Hres. }
  exists h4, h5. split_and!; [done..|]. split; [intros q; by rewrite Hd4| |].
  2: { destruct (Hr5 p (set_immediate_conflicts result ep3)) as (ep5 & Hp5 & _ & Hn & _);
         [apply lookup_insert_eq|]. exists ep5. split; [done|]. by rewrite (Hn Hpr). }
  intros q eq Hq. destruct (decide (q = p)) as [->|Hqp].
  - assert (eq = ep) as -> by congruence.
    destruct (cfl_eq_fields _ _ Hf3) as (Hc & _ & Hs & _ & Hcu & _).
    destruct (Hr5 p (set_immediate_conflicts result ep3)) as (eq' & Hq' & HR & Hn & _);
      [apply lookup_insert_eq|]. rewrite (Hn Hpr) in Hq'. eexists. split; [exact Hq'|].
    split_and!; [by destruct Hc | done | done | exact (Hcol p _ (col_some h3 p ep3 Hp3)) |].
    intros y. by destruct (decide (p = p)).
  - destruct (cfl_eq_lookup _ _ _ _ Heq Hq) as (eq3 & Hq3 & Hf).
    destruct (cfl_eq_fields _ _ Hf) as (Hc & _ & Hs & Hco & Hcu & _).
    destruct (Hr5 q eq3) as (eq' & Hq' & HR & Hn & Hi); [by unfold h4; rewrite lookup_insert_ne|].
    exists eq'. split_and!; [done | etrans; [done | apply HR] | rewrite Hs; apply HR
      | rewrite Hcu; apply HR | rewrite <-(cl_col _ _ _ HR); apply (Hcol q); by apply col_some |].
    intros y. rewrite Hco. split.
    + intros Hy. destruct (decide (q ∈ result)) as [Hqr|Hqr];
        [|rewrite (Hn Hqr) in Hy; by left].
      apply (cl_conf' _ _ _ HR) in Hy as [->|?]; auto.
    + intros [Hy|[-> Hqr]]; [by apply (cl_conf _ _ _ HR)|].
      destruct (Hi Hqr) as (e'' & _ & HR'). apply (cl_conf _ _ _ HR'). simpl.
      apply elem_of_app. right. by left.
Qed.

Section record.
Context (p : eid) (result : list eid) (top : N) (h2 h5 : heap).
Hypothesis Hrc : recorded p result top h2 h5.
Hypothesis Hwf2 : wf_heap h2.

Lemma rc_ext : heap_ext h2 h5.
Proof.
  intros q eq Hq. destruct (rc_rel _ _ _ _ _ Hrc q eq Hq) as (eq' & Hq' & Hc & _). eauto.
Qed.

Lemma rc_wf : wf_heap h5.
Proof.
  apply (wf_heap_ext h2); [done | apply rc_ext |]. intros q eq Hq Hn.
  assert (is_Some (h2 !! q)) as [? ?] by (apply (rc_dom _ _ _ _ _ Hrc); eauto). congruence.
Qed.

Lemma rc_inv q eq' : h5 !! q = Some eq' → ∃ eq, h2 !! q = Some eq ∧ same_core eq eq' ∧
  ev_successors eq = ev_successors eq' ∧ ev_is_cutoff eq = ev_is_cutoff eq' ∧
  (ev_imm_cfl_color eq' ≤ top)%N ∧
  ∀ y, y ∈ ev_immediate_conflicts eq' ↔
    if decide (q = p) then y ∈ result else y ∈ ev_immediate_conflicts eq ∨ (y = p ∧ q ∈ result).
Proof.
  intros Hq. assert (is_Some (h2 !! q)) as [eq Heq] by (apply (rc_dom _ _ _ _ _ Hrc); eauto).
  destruct (rc_rel _ _ _ _ _ Hrc q eq Heq) as (eq'' & Hq'' & Hrest).
  assert (eq'' = eq') as -> by congruence. eauto.
Qed.

Lemma rc_cut x : is_cut h5 x ↔ is_cut h2 x.
Proof.
  unfold is_cut, at_event. split.
  - intros (e & He & Hc). destruct (rc_inv x e He) as (e' & He' & _ & _ & Hcu & _).
    exists e'. by rewrite Hcu.
  - intros (e & He & Hc). destruct (rc_rel _ _ _ _ _ Hrc x e He) as (e' & He' & _ & _ & Hcu & _).
    exists e'. by rewrite <-Hcu.
Qed.

Lemma rc_succ_of x s : succ_of h5 x s ↔ succ_of h2 x s.
Proof.
  unfold succ_of, at_event. split.
  - intros (e & He & Hc). destruct (rc_inv x e He) as (e' & He' & _ & Hs & _).
    exists e'. by rewrite Hs.
  - intros (e & He & Hc). destruct (rc_rel _ _ _ _ _ Hrc x e He) as (e' & He' & _ & Hs & _).
    exists e'. by rewrite <-Hs.
Qed.

Lemma rc_conflicts x y :
  is_Some (h2 !! p) → (∀ s, s ∈ result → is_Some (h2 !! s)) →
  conflicts_of h5 x y ↔
    (x = p ∧ y ∈ result) ∨ (x ≠ p ∧ (conflicts_of h2 x y ∨ (y = p ∧ x ∈ result))).
Proof.
  intros Hp Hres. unfold conflicts_of, at_event. split.
  - intros (e & He & Hy). destruct (rc_inv x e He) as (e' & He' & _ & _ & _ & _ & Hc).
    apply Hc in Hy. destruct (decide (x = p)); [by left | right]. naive_solver.
  - intros Hor. assert (is_Some (h2 !! x)) as [e He].
    { destruct Hor as [[-> _]|[_ [(? & ? & _)|[_ ?]]]]; [done | eauto | auto]. }
    destruct (rc_rel _ _ _ _ _ Hrc x e He) as (e' & He' & _ & _ & _ & _ & Hc).
    exists e'. split; [done|]. apply Hc. destruct (decide (x = p)); naive_solver.
Qed.
End record.

(** ** Inserting a new event *)

Section insert.
Context (u : unfolding) (e : event) (p : eid) (i : N) (h2 h5 : heap) (result : list eid) (top : N).
Abbreviation h := (uf_heap u).
Hypothesis Hok : uf_ok u.
Hypothesis Hne : new_event_ok h e.
Hypothesis Hp : h !! p = None.
Hypothesis Hnew : ∀ v ev, h !! v = Some ev → compare_events e ev ≠ Ok true.
Hypothesis Hlk : linked h e p i h2.
Hypothesis Hrc : recorded p result top h2 h5.
Hypothesis Hres : ∀ s, s ∈ result → s ≠ p ∧ is_Some (h2 !! s).
Context (e2 : event).
Hypothesis He2 : h2 !! p = Some e2.
Hypothesis Hic : ∀ s, s ∈ result ↔ immediate_conflict h2 p e2 s.

Lemma ins_wf2 : wf_heap h2.
Proof. eapply (h2_wf h e p i); try done; apply Hok. Qed.

Lemma ins_ext : heap_ext h h5.
Proof.
  etrans; [|by eapply rc_ext]. eapply (h2_ext h e p i); done.
Qed.

(** The new event's fields. *)
Lemma ins_new : ∃ ep, h5 !! p = Some ep ∧ same_core e ep ∧ ev_is_cutoff e = ev_is_cutoff ep.
Proof.
  destruct (lk_rel _ _ _ _ _ Hlk p (stored e i)) as (ep2 & Hep2 & Hr & _); [apply h1_lookup|].
  destruct (rc_rel _ _ _ _ _ Hrc p ep2 Hep2) as (ep5 & Hep5 & Hc & _ & Hcu & _).
  exists ep5. split_and!; [done | |].
  - etrans; [apply (stored_core e i)|]. etrans; [apply Hr | done].
  - rewrite <-Hcu, <-(sr_cut _ _ _ Hr). done.
Qed.

Lemma ins_old q eq' : h5 !! q = Some eq' → q ≠ p → ∃ eq, h !! q = Some eq ∧ same_core eq eq' ∧
  ev_is_cutoff eq = ev_is_cutoff eq' ∧ (∀ s, s ≠ p → s ∈ ev_successors eq' ↔ s ∈ ev_successors eq).
Proof.
  intros Hq Hqp. destruct (rc_inv _ _ _ _ _ Hrc q eq' Hq) as (eq2 & Hq2 & Hc & Hs & Hcu & _).
  destruct (h2_inv h e p i h2 Hlk q eq2 Hq2) as (eq1 & Hq1 & Hr & _).
  rewrite (h1_other h e p i) in Hq1 by done. exists eq1. split_and!; [done | | |].
  - etrans; [apply Hr | done].
  - rewrite <-Hcu. apply Hr.
  - intros s Hsp. rewrite <-Hs. split; [intros [?|?]%(sr_succ' _ _ _ Hr); done | apply Hr].
Qed.

Lemma ins_dom q : is_Some (h5 !! q) ↔ q = p ∨ is_Some (h !! q).
Proof.
  rewrite <-(rc_dom _ _ _ _ _ Hrc), <-(lk_dom _ _ _ _ _ Hlk).
  destruct (decide (q = p)) as [->|Hqp].
  - rewrite (h1_lookup h e p i). naive_solver.
  - rewrite (h1_other h e p i) by done. naive_solver.
Qed.

Lemma ins_index k q :
  q ∈ default [] (smap_find k (smap_set (key_of e)
      (default [] (smap_find (key_of e) (uf_events u)) ++ [p]) (uf_events u))) ↔
  at_event h5 q (λ eq, key_of eq = k).
Proof.
  assert (at_event h5 q (λ eq, key_of eq = k) ↔
    (q = p ∧ key_of e = k) ∨ at_event h q (λ eq, key_of eq = k)) as ->.
  { destruct ins_new as (ep & Hep & Hc & _). unfold at_event, key_of. split.
    - intros (eq' & Hq & Hk). destruct (decide (q = p)) as [->|Hqp].
      + left. split; [done|]. simplify_eq. by rewrite (core_tid _ _ Hc), (core_depth _ _ Hc),
          (ev_kind_proper _ _ Hc).
      + right. destruct (ins_old q eq' Hq Hqp) as (eq & Heq & Hc' & _). exists eq. split; [done|].
        by rewrite (core_tid _ _ Hc'), (core_depth _ _ Hc'), (ev_kind_proper _ _ Hc').
    - intros [[-> Hk]|(eq & Heq & Hk)].
      + exists ep. by rewrite <-(core_tid _ _ Hc), <-(core_depth _ _ Hc), <-(ev_kind_proper _ _ Hc).
      + destruct (ins_ext q eq Heq) as (eq' & Heq' & Hc'). exists eq'.
        by rewrite <-(core_tid _ _ Hc'), <-(core_depth _ _ Hc'), <-(ev_kind_proper _ _ Hc'). }
  destruct (smap_find_set (key_of e) k
    (default [] (smap_find (key_of e) (uf_events u)) ++ [p]) (uf_events u)) as [[Hk ->]|[Hk ->]].
  - simpl. rewrite elem_of_app, list_elem_of_singleton, (uo_index _ Hok), Hk. naive_solver.
  - rewrite (uo_index _ Hok). naive_solver.
Qed.

Lemma ins_distinct x y ex ey :
  h5 !! x = Some ex → h5 !! y = Some ey → compare_events ex ey = Ok true → x = y.
Proof.
  intros Hx Hy Hc. destruct ins_new as (ep & Hep & Hcp & _).
  assert (∀ z ez, h5 !! z = Some ez → z ≠ p → compare_events ep ez ≠ Ok true) as Hno.
  { intros z ez Hz Hzp Hcz. destruct (ins_old z ez Hz Hzp) as (ez0 & Hz0 & Hcz0 & _).
    apply (Hnew z ez0 Hz0).
    rewrite (compare_events_core e ez0 ez Hcz0), compare_events_sym,
      (compare_events_core ez e ep Hcp), compare_events_sym. done. }
  destruct (decide (x = p)) as [->|Hxp], (decide (y = p)) as [->|Hyp]; [done | | |].
  - simplify_eq. by destruct (Hno y ey Hy Hyp).
  - simplify_eq. rewrite compare_events_sym in Hc. by destruct (Hno x ex Hx Hxp).
  - destruct (ins_old x ex Hx Hxp) as (ex0 & Hx0 & Hcx & _).
    destruct (ins_old y ey Hy Hyp) as (ey0 & Hy0 & Hcy & _).
    apply (uo_distinct _ Hok x y ex0 ey0 Hx0 Hy0).
    by rewrite (compare_events_core ex0 ey0 ey Hcy), compare_events_sym,
      (compare_events_core ey ex0 ex Hcx), compare_events_sym.
Qed.

Lemma ins_conf x y : conflicts_of h5 x y → x ≠ y ∧ conflicts_of h5 y x.
Proof.
  assert (is_Some (h2 !! p)) as Hp2.
  { apply (lk_dom _ _ _ _ _ Hlk). rewrite (h1_lookup h e p i). eauto. }
  assert (∀ s, s ∈ result → is_Some (h2 !! s)) as Hr2 by (intros; by apply Hres).
  assert (∀ x y, conflicts_of h2 x y → x ≠ y ∧ conflicts_of h2 y x ∧ x ≠ p) as Hsym.
  { intros x' y' Hxy. apply (h2_conflicts h e p i Hp Hne h2 Hlk) in Hxy.
    assert (x' ≠ p) by (destruct Hxy as (? & ? & _); congruence).
    apply (uo_conf _ Hok) in Hxy as [??]. split_and!; [done | | done].
    by apply (h2_conflicts h e p i Hp Hne h2 Hlk). }
  rewrite !(rc_conflicts _ _ _ _ _ Hrc) by done. intros [[-> Hy]|[Hxp [Hxy|[-> Hx]]]].
  - destruct (Hres y Hy) as [Hyp _]. split; [done|]. right. auto.
  - destruct (Hsym x y Hxy) as (? & Hyx & ?). destruct (Hsym y x Hyx) as (_ & _ & ?). auto.
  - auto.
Qed.

Lemma h2_col q c : col h2 q = Some c → (c ≤ uf_next_cfl_color u)%N.
Proof.
  unfold col. intros (eq & Hq & ->)%fmap_Some.
  destruct (h2_inv h e p i h2 Hlk q eq Hq) as (eq1 & Hq1 & Hr & _).
  rewrite <-(sr_col _ _ _ Hr). destruct (decide (q = p)) as [->|Hqp].
  - rewrite h1_lookup in Hq1. injection Hq1 as <-. simpl.
    rewrite (proj2 (proj2 (ne_fresh _ _ Hne))). lia.
  - rewrite h1_other in Hq1 by done. apply (uo_col _ Hok q). unfold col. by rewrite Hq1.
Qed.

(** The successors of an event after the insertion. *)
Lemma ins_succ x s : succ_of h5 x s → (s = p ∧ x ∈ predecessors e) ∨ (x ≠ p ∧ succ_of h x s).
Proof.
  intros Hs0. apply (rc_succ_of _ _ _ _ _ Hrc) in Hs0.
  destruct Hs0 as [ex2 [Hx2 Hs]].
  pose proof (h2_inv h e p i h2 Hlk x ex2 Hx2) as Hinv. destruct Hinv as (ex1 & Hx1 & Hr & Hpx).
  destruct (decide (s = p)) as [->|Hsp].
  - left. split; [done|]. apply Hpx in Hs.
    apply (imm0_imm (h1 h e p i)) in Hs.
    + destruct Hs as (ep & Hep & Hin). rewrite h1_lookup in Hep. by injection Hep as <-.
    + apply h1_wf; [apply Hok | done | done].
    + intros. eapply h1_lc; try done; apply Hok.
  - right. destruct (sr_succ' _ _ _ Hr s Hs) as [?|Hs1]; [done|]. clear Hs Hr Hpx.
    rename Hs1 into Hs.
    destruct (decide (x = p)) as [->|Hxp].
    + rewrite h1_lookup in Hx1. injection Hx1 as <-. simpl in Hs.
      rewrite (proj1 (ne_fresh _ _ Hne)) in Hs. by apply elem_of_nil in Hs.
    + rewrite h1_other in Hx1 by done. split; [done|]. by exists ex1.
Qed.

Lemma ins_is_cut x : x ≠ p → is_cut h5 x ↔ is_cut h x.
Proof.
  intros Hxp. unfold is_cut, at_event. split.
  - intros (ex & Hx & Hc). destruct (ins_old x ex Hx Hxp) as (ex0 & Hx0 & _ & Hcu & _).
    exists ex0. by rewrite Hcu.
  - intros (ex0 & Hx0 & Hc). assert (is_Some (h5 !! x)) as [ex Hx] by (apply ins_dom; eauto).
    destruct (ins_old x ex Hx Hxp) as (ex0' & ? & _ & Hcu & _). simplify_eq.
    exists ex. by rewrite <-Hcu.
Qed.

Lemma ins_cut x s : is_cut h5 x → succ_of h5 x s → is_cut h5 s.
Proof.
  intros Hx [[-> Hin]|[Hxp Hs]]%ins_succ.
  - destruct ins_new as (ep & Hep & Hcp & Hcu). exists ep. split; [done|]. rewrite <-Hcu.
    apply (ne_cutoff _ _ Hne x Hin). apply ins_is_cut; [|done].
    destruct (wf_preds _ _ (ne_wf _ _ Hne) x Hin). congruence.
  - apply ins_is_cut in Hx; [|done]. pose proof (uo_cut _ Hok x s Hx Hs) as Hcs.
    apply ins_is_cut; [|done]. destruct Hcs as (? & ? & _). congruence.
Qed.

Lemma ins_succ_iff w ew s : h5 !! w = Some ew → s ∈ ev_successors ew ↔ imm0 h5 w s.
Proof.
  intros Hw. destruct (rc_inv _ _ _ _ _ Hrc w ew Hw) as (ew2 & Hw2 & _ & Hs & _).
  rewrite <-Hs. rewrite (h2_succ h e p i (uo_wf _ Hok) Hp Hne (uo_lc _ Hok) (uo_succ _ Hok) h2 Hlk
    w ew2 s Hw2). split.
  - intros Hi. apply (ext_imm0 h2 h5); [apply ins_wf2 | by eapply rc_ext | | done].
    destruct Hi as (? & ? & _). eauto.
  - intros Hi. apply (ext_imm0 h2 h5) in Hi; [done | apply ins_wf2 | by eapply rc_ext |].
    destruct Hi as (? & ? & _). apply (rc_dom _ _ _ _ _ Hrc). eauto.
Qed.

Lemma ins_independent x y ex ey ex2 ey2 :
  h5 !! x = Some ex → h5 !! y = Some ey → h2 !! x = Some ex2 → h2 !! y = Some ey2 →
  is_independent_of h5 ex ey = is_independent_of h2 ex2 ey2.
Proof.
  intros Hx Hy Hx2 Hy2. assert (heap_ext h2 h5) as Hext by (by eapply rc_ext).
  destruct (Hext x ex2 Hx2) as (ex' & Hx' & Hcx), (Hext y ey2 Hy2) as (ey' & Hy' & Hcy).
  assert (ex' = ex) as -> by congruence. assert (ey' = ey) as -> by congruence.
  symmetry. apply is_independent_of_eq; apply ext_ind_eq; try done; apply wf_preds;
    by eapply ins_wf2.
Qed.

(** The new event's conflicts are dependent on it and not ordered with it. *)
Lemma ins_result_dep s es ep :
  s ∈ result → h5 !! s = Some es → h5 !! p = Some ep →
  is_independent_of h5 ep es = Ok false ∧ is_independent_of h5 es ep = Ok false ∧
  ¬ causal_le h5 p s ∧ ¬ causal_le h5 s p.
Proof.
  intros Hs Hes Hep. destruct (Hres s Hs) as [Hsp [es2 Hes2]].
  apply Hic in Hs as (_ & _ & Hc & _ & _ & _ & Hni).
  destruct (is_independent_of_sym h2 e2 es2) as (r & Hr & Hr').
  { apply wf_ind_facts; [by eapply ins_wf2|].
    eapply (h2_lc h e p i); try done; apply Hok. }
  { apply wf_ind_facts; [by eapply ins_wf2|]. eapply (h2_lc h e p i); try done; apply Hok. }
  assert (r = false) as ->.
  { destruct r; [|done]. destruct Hni. by exists es2. }
  assert (heap_ext h2 h5) as Hext by (by eapply rc_ext).
  assert (is_Some (h !! s)) as Hsh.
  { destruct (proj1 (ins_dom s)); [by eauto | done | done]. }
  split_and!.
  - by rewrite (ins_independent p s ep es e2 es2).
  - by rewrite (ins_independent s p es ep es2 e2).
  - intros Hle. apply (ext_causal_le_inv h h5 ins_ext (uo_wf _ Hok)) in Hle; [|done].
    apply causal_le_in in Hle; [|apply Hok | done]. destruct Hle; congruence.
  - intros [?|Hlt]%causal_le_alt; [done|]. apply Hc. unfold cause.
    apply (ext_causal_lt_iff h2 h5 Hext ins_wf2) in Hlt; [done | eauto].
Qed.

Lemma ins_dep x y ex ey :
  conflicts_of h5 x y → h5 !! x = Some ex → h5 !! y = Some ey →
  is_independent_of h5 ex ey = Ok false ∧ ¬ causal_le h5 x y.
Proof.
  intros Hxy Hx Hy. apply (rc_conflicts _ _ _ _ _ Hrc) in Hxy; [|eauto | intros; by apply Hres].
  destruct Hxy as [[-> Hr]|[Hxp [Hxy|[-> Hr]]]].
  - destruct (ins_result_dep y ey ex) as (? & ? & ? & ?); done.
  - apply (h2_conflicts h e p i Hp Hne h2 Hlk) in Hxy.
    destruct Hxy as (ex0 & Hx0 & Hyc) eqn:E. clear E.
    destruct (uo_conf _ Hok x y) as [_ (ey0 & Hy0 & _)]; [by exists ex0|].
    destruct (uo_dep _ Hok x y ex0 ey0) as [Hi Hle]; [by exists ex0 | done | done |].
    destruct (ins_ext x ex0 Hx0) as (ex' & Hx' & Hcx), (ins_ext y ey0 Hy0) as (ey' & Hy' & Hcy).
    assert (ex' = ex) as -> by congruence. assert (ey' = ey) as -> by congruence. split.
    + rewrite <-Hi. symmetry. apply is_independent_of_eq; apply ext_ind_eq; try done;
        try apply ins_ext; apply wf_preds; by eapply (uo_wf _ Hok).
    + intros Hl. apply Hle. apply (ext_causal_le_inv h h5 ins_ext (uo_wf _ Hok)); [eauto | done].
  - destruct (ins_result_dep x ex ey) as (? & ? & ? & ?); done.
Qed.

Lemma ins_uf_ok st nc :
  uf_ok (Unfolding h5 (smap_set (key_of e)
      (default [] (smap_find (key_of e) (uf_events u)) ++ [p]) (uf_events u))
    (uf_root u) i st nc top).
Proof.
  split; simpl.
  - eapply rc_wf; [done | apply ins_wf2].
  - intros q eq Hq. destruct (rc_inv _ _ _ _ _ Hrc q eq Hq) as (eq2 & Hq2 & Hc & _).
    eapply (ext_lc_ok h2); [apply ins_wf2 | by eapply rc_ext | done | done |].
    eapply (h2_lc h e p i); try done; apply Hok.
  - apply smap_set_sorted, Hok.
  - apply ins_index.
  - apply ins_distinct.
  - apply ins_succ_iff.
  - apply ins_conf.
  - intros q c Hc. unfold col in Hc. apply fmap_Some in Hc as (eq & Hq & ->).
    by destruct (rc_inv _ _ _ _ _ Hrc q eq Hq) as (_ & _ & _ & _ & _ & ? & _).
  - apply ins_cut.
  - apply ins_dep.
  - eapply ext_at_event; [apply ins_ext | | apply Hok]. intros ?? Hs. by rewrite Hs.
Qed.

Lemma ins_exact ep :
  h5 !! p = Some ep →
  ∀ s, s ∈ ev_immediate_conflicts ep ↔ immediate_conflict h5 p ep s.
Proof.
  intros Hep s. destruct (rc_new _ _ _ _ _ Hrc) as (ep' & Hep' & Hr).
  assert (ep' = ep) as -> by congruence. rewrite Hr, Hic.
  assert (heap_ext h2 h5) as Hext by (by eapply rc_ext).
  apply immediate_conflict_transfer; try done; [apply ins_wf2 | by eapply rc_wf, ins_wf2
    | apply (rc_dom _ _ _ _ _ Hrc) |].
  intros c. unfold inherited. apply exist_proper. intros x.
  assert (cause h5 p x ↔ cause h2 p x) as ->.
  { apply (ext_causal_lt_iff h2 h5 Hext ins_wf2). eauto. }
  rewrite (rc_conflicts _ _ _ _ _ Hrc) by (eauto; intros; by apply Hres).
  split; intros [Hx Hc]; (split; [done|]).
  - right. split; [|by left]. intros ->. by eapply (causal_lt_irrefl h2); [apply ins_wf2|].
  - destruct Hc as [[-> _]|[_ [?|[-> Hxr]]]]; [|done|].
    + exfalso. by eapply (causal_lt_irrefl h2); [apply ins_wf2|].
    + apply Hic in Hxr as (_ & _ & ? & _). done.
Qed.
End insert.

Lemma insert_new_spec u e :
  uf_ok u → new_event_ok (uf_heap u) e →
  (∀ v ev, uf_heap u !! v = Some ev → compare_events e ev ≠ Ok true) →
  ∃ u' p ep, insert_new e u = Ok (u', p) ∧ uf_ok u' ∧ heap_ext (uf_heap u) (uf_heap u') ∧
    uf_heap u !! p = None ∧ uf_heap u' !! p = Some ep ∧ same_core e ep ∧
    (∀ q, is_Some (uf_heap u' !! q) ↔ q = p ∨ is_Some (uf_heap u !! q)) ∧
    uf_root u' = uf_root u ∧
    NoDup (ev_immediate_conflicts ep) ∧
    (∀ s, s ∈ ev_immediate_conflicts ep ↔ immediate_conflict (uf_heap u') p ep s) ∧
    (∀ x y, conflicts_of (uf_heap u) x y → conflicts_of (uf_heap u') x y).
Proof.
  intros Hok Hne Hnew. unfold insert_new. cbn [store_event].
  set (p := fresh_addr (uf_heap u)). set (i := u64 (uf_size u + 1)).
  assert (uf_heap u !! p = None) as Hp by apply fresh_addr_free.
  destruct (add_to_successors_spec (uf_heap u) e p i (uo_wf _ Hok) Hp Hne (uo_lc _ Hok)
    (uo_succ _ Hok)) as (h2 & Hh2 & Hlk).
  fold (stored e i). change (<[p := stored e i]> (uf_heap u)) with (h1 (uf_heap u) e p i).
  simpl. rewrite Hh2, bind_Ok_l.
  destruct (lk_rel _ _ _ _ _ Hlk p (stored e i) (h1_lookup _ _ _ _)) as (e2 & He2 & _).
  destruct (compute_immediate_conflicts_spec h2 (uf_next_cfl_color u) p e2)
    as (h3 & result & -> & Heq & Hnd & Hic & Hcol).
  { eapply (h2_ready (uf_heap u) e p i); try done; try apply Hok. }
  { intros. by eapply (h2_col u e p i). }
  rewrite bind_Ok_l.
  assert (∀ s, s ∈ result → s ≠ p ∧ is_Some (h2 !! s)) as Hres.
  { intros s Hs%Hic. destruct Hs as (? & _ & _ & _ & _ & ? & _). done. }
  destruct (record_conflicts_spec h2 h3 p result (N.succ (N.succ (uf_next_cfl_color u))) e2)
    as (h4 & h5 & -> & Hh5 & Hrc); [done..| naive_solver | naive_solver | done |].
  rewrite bind_Ok_l, Hh5, bind_Ok_l.
  destruct (ins_new u e p i h2 h5 result _ Hlk Hrc) as (ep & Hep & Hcp & _).
  do 3 eexists. split; [reflexivity|]. simpl. split_and!; try done.
  - by eapply (ins_uf_ok u e p i h2 h5 result).
  - by eapply (ins_ext u e p i h2 h5 result).
  - intros q. by eapply ins_dom.
  - destruct (rc_new _ _ _ _ _ Hrc) as (ep' & ? & Hr).
    assert (ep' = ep) as -> by congruence. by rewrite Hr.
  - by eapply (ins_exact u e p i h2 h5 result).
  - intros x y Hxy. apply (rc_conflicts _ _ _ _ _ Hrc); [by eauto | intros; by apply Hres |].
    right. split; [|left; by apply (h2_conflicts (uf_heap u) e p i Hp Hne h2 Hlk)].
    intros ->. destruct Hxy as (? & ? & _). congruence.
Qed.

(** ** Finding an existing event *)

(** Every field that the invariant mentions but the cutoff mark. *)
Record frame_rel e e' : Prop := {
  fr_core : same_core e e';
  fr_succ : ev_successors e = ev_successors e';
  fr_conf : ev_immediate_conflicts e = ev_immediate_conflicts e';
  fr_col : ev_imm_cfl_color e = ev_imm_cfl_color e';
}.

Definition frame h h' : Prop := ∀ p, option_Forall2 frame_rel (h !! p) (h' !! p).

#[export] Instance frame_rel_equiv : Equivalence frame_rel.
Proof.
  split.
  - by intros e.
  - intros e e' []. by split.
  - intros a b c [] []. split; [by etrans | congruence..].
Qed.

#[export] Instance frame_equiv : Equivalence frame.
Proof.
  split; [by intros h p | by intros h h' H p | intros a b c H1 H2 p; etrans; [apply H1 | apply H2]].
Qed.

Lemma frame_lookup h h' p e :
  frame h h' → h !! p = Some e → ∃ e', h' !! p = Some e' ∧ frame_rel e e'.
Proof. intros Hf Hp. specialize (Hf p). rewrite Hp in Hf. inversion Hf; eauto. Qed.

Lemma frame_ext h h' : frame h h' → heap_ext h h'.
Proof.
  intros Hf p e Hp. destruct (frame_lookup _ _ _ _ Hf Hp) as (e' & ? & ?). exists e'.
  split; [done | by apply fr_core].
Qed.

Lemma frame_cut_eq h h' : cut_eq h h' → frame h h'.
Proof.
  intros Heq p. destruct (h !! p) as [e|] eqn:Hp.
  - destruct (cut_eq_lookup _ _ _ _ Heq Hp) as (e' & -> & (? & _ & ? & ? & ? & _)%cut_eq_fields).
    by constructor.
  - specialize (Heq p). rewrite Hp in Heq. simpl in Heq. symmetry in Heq.
    apply fmap_None in Heq. rewrite Heq. constructor.
Qed.

Lemma frame_update h p e e' : h !! p = Some e → frame_rel e e' → frame h (<[p := e']> h).
Proof.
  intros Hp Hr q. destruct (decide (p = q)) as [->|].
  - rewrite lookup_insert_eq, Hp. by constructor.
  - rewrite lookup_insert_ne by done. destruct (h !! q); by constructor.
Qed.

Lemma frame_wf h h' : frame h h' → wf_heap h → wf_heap h'.
Proof.
  intros Hf Hwf. apply (wf_heap_ext h); [done | by apply frame_ext |]. intros p e Hp Hn.
  symmetry in Hf. destruct (frame_lookup _ _ _ _ Hf Hp) as (? & ? & _). congruence.
Qed.

Lemma frame_at h h' p (Φ : event → Prop) :
  frame h h' → Proper (frame_rel ==> iff) Φ → at_event h p Φ ↔ at_event h' p Φ.
Proof.
  intros Hf HΦ.
  assert (∀ a b, frame a b → at_event a p Φ → at_event b p Φ) as Hgo.
  { intros a b Hab (e & He & He'). destruct (frame_lookup _ _ _ _ Hab He) as (e' & ? & Hr).
    exists e'. split; [done|]. by apply (HΦ _ _ Hr). }
  split; by apply Hgo.
Qed.

Lemma frame_succ_of h h' x s : frame h h' → succ_of h x s ↔ succ_of h' x s.
Proof. intros Hf. apply frame_at; [done|]. intros ?? Hr. by rewrite (fr_succ _ _ Hr). Qed.

Lemma frame_conflicts h h' x s : frame h h' → conflicts_of h x s ↔ conflicts_of h' x s.
Proof. intros Hf. apply frame_at; [done|]. intros ?? Hr. by rewrite (fr_conf _ _ Hr). Qed.

(** The invariant depends on the framed fields and the cutoff marks. *)
Lemma frame_uf_ok u h' st nc :
  uf_ok u → frame (uf_heap u) h' →
  (∀ x s, is_cut h' x → succ_of h' x s → is_cut h' s) →
  uf_ok (Unfolding h' (uf_events u) (uf_root u) (uf_size u) st nc (uf_next_cfl_color u)).
Proof.
  intros Hok Hf Hcut. assert (heap_ext (uf_heap u) h') as Hext by (by apply frame_ext).
  assert (∀ p e', h' !! p = Some e' → ∃ e, uf_heap u !! p = Some e ∧ frame_rel e e') as Hinv.
  { intros p e' Hp. symmetry in Hf. destruct (frame_lookup _ _ _ _ Hf Hp) as (e & ? & ?).
    exists e. split; [done | by symmetry]. }
  split; simpl.
  - by eapply frame_wf; [|apply Hok].
  - intros p e' (e & He & Hr)%Hinv. eapply (ext_lc_ok (uf_heap u)); try done; try apply Hok; [|done].
    by apply fr_core.
  - apply Hok.
  - intros k p. rewrite (uo_index _ Hok). apply frame_at; [done|]. intros x y [Hc _ _ _].
    unfold key_of. by rewrite (core_tid _ _ Hc), (core_depth _ _ Hc), (ev_kind_proper _ _ Hc).
  - intros p q ep eq (ep0 & Hp & [Hcp _ _ _])%Hinv (eq0 & Hq & [Hcq _ _ _])%Hinv Hc.
    apply (uo_distinct _ Hok p q ep0 eq0 Hp Hq).
    by rewrite (compare_events_core ep0 eq0 eq Hcq), compare_events_sym,
      (compare_events_core eq ep0 ep Hcp), compare_events_sym.
  - intros w e' s (e & He & Hr)%Hinv. rewrite <-(fr_succ _ _ Hr), (uo_succ _ Hok w e s He).
    split; intros Hi.
    + apply (ext_imm0 (uf_heap u)); [apply Hok | done | | done]. destruct Hi as (? & ? & _). eauto.
    + apply (ext_imm0 (uf_heap u)) in Hi; [done | apply Hok | done |].
      destruct Hi as (? & (? & ? & _)%Hinv & _). eauto.
  - intros x y. rewrite <-!(frame_conflicts _ _ _ _ Hf). apply Hok.
  - intros p c Hc. apply (uo_col _ Hok p). unfold col in *.
    apply fmap_Some in Hc as (e' & (e & -> & Hr)%Hinv & ->). simpl. by rewrite (fr_col _ _ Hr).
  - done.
  - intros x y ex' ey' Hxy (ex & Hx & [Hcx _ _ _])%Hinv (ey & Hy & [Hcy _ _ _])%Hinv.
    destruct (uo_dep _ Hok x y ex ey) as [Hi Hle]; [by apply (frame_conflicts _ _ _ _ Hf) | done.. |].
    split.
    + rewrite <-Hi. symmetry. apply is_independent_of_eq; apply ext_ind_eq; try done;
        apply wf_preds; by eapply (uo_wf _ Hok).
    + intros Hl. apply Hle. apply (ext_causal_le_inv (uf_heap u) h' Hext (uo_wf _ Hok)); eauto.
  - eapply ext_at_event; [done | | apply Hok]. intros ?? Hs. by rewrite Hs.
Qed.

Lemma succ_stored u x s : uf_ok u → succ_of (uf_heap u) x s → is_Some (uf_heap u !! s).
Proof.
  intros Hok (ex & Hx & Hs). apply (uo_succ _ Hok x ex s Hx) in Hs as (es & Hes & _). eauto.
Qed.

(** The cutoff mark of a rediscovered event passes to the stored one and to
    everything above it; nothing else that matters changes. *)
Lemma found_duplicate_spec e u v :
  uf_ok u → is_Some (uf_heap u !! v) →
  ∃ u', found_duplicate e u v = Ok u' ∧ uf_ok u' ∧ frame (uf_heap u) (uf_heap u') ∧
    uf_root u' = uf_root u ∧
    ∀ x, is_cut (uf_heap u') x ↔
      is_cut (uf_heap u) x ∨ (ev_is_cutoff e = true ∧ reachable (uf_heap u) v x).
Proof.
  intros Hok Hv. unfold found_duplicate.
  assert (∃ h1, (if ev_is_cutoff e then '(h', _) ← mark_as_cutoff (uf_heap u) v; Ok h'
      else Ok (uf_heap u)) = Ok h1 ∧ cut_eq (uf_heap u) h1 ∧
    ∀ x, is_cut h1 x ↔ is_cut (uf_heap u) x ∨ (ev_is_cutoff e = true ∧ reachable (uf_heap u) v x))
    as (h1 & -> & Heq & Hcut).
  { destruct (ev_is_cutoff e).
    - destruct (mark_as_cutoff_spec (uf_heap u) v) as (h1 & n & -> & ? & Hc);
        [intros ??; by apply succ_stored | apply Hok | done |].
      exists h1. split_and!; [done..|]. intros x. rewrite Hc. naive_solver.
    - exists (uf_heap u). split_and!; [done..|]. naive_solver. }
  rewrite bind_Ok_l. destruct Hv as [ev0 Hv0].
  destruct (cut_eq_lookup _ _ _ _ Heq Hv0) as (ev & Hv & _).
  rewrite (proj2 (deref_ok h1 v ev) Hv), bind_Ok_l.
  set (h2 := if metadata_eqb _ _ then _ else _).
  assert (frame h1 h2 ∧ ∀ x, is_cut h2 x ↔ is_cut h1 x) as [Hf2 Hc2].
  { unfold h2. destruct (metadata_eqb _ _); [|done]. split; [by apply (frame_update h1 v ev)|].
    intros x. unfold is_cut, at_event. destruct (decide (v = x)) as [->|].
    - rewrite lookup_insert_eq, Hv. naive_solver.
    - by rewrite lookup_insert_ne. }
  assert (frame (uf_heap u) h2) as Hf by (etrans; [by apply frame_cut_eq | done]).
  eexists. split; [reflexivity|]. simpl. split_and!; try done.
  - apply (frame_uf_ok u h2); [done..|]. intros x s Hx Hs. apply (frame_succ_of _ _ x s Hf) in Hs.
    apply Hc2, Hcut. apply Hc2, Hcut in Hx as [Hx|[He Hr]].
    + left. by eapply (uo_cut _ Hok).
    + right. split; [done|]. by eapply rtc_r.
  - intros x. by rewrite Hc2.
Qed.

(** ** Deduplication *)

Lemma find_if_spec {A} (f : A → res bool) (l : list A) :
  (∀ x, x ∈ l → ∃ b, f x = Ok b) →
  ∃ r, find_if f l = Ok r ∧
    match r with
    | Some x => x ∈ l ∧ f x = Ok true
    | None => ∀ x, x ∈ l → f x = Ok false
    end.
Proof.
  induction l as [|x l IH]; intros Hl; simpl.
  { exists None. split; [done|]. by intros ? ?%elem_of_nil. }
  destruct (Hl x) as [b Hb]; [by left|]. rewrite Hb, bind_Ok_l. destruct b.
  { exists (Some x). split; [done|]. split; [by left | done]. }
  destruct IH as (r & -> & Hr). { intros. apply Hl. by right. }
  exists r. split; [done|]. destruct r as [y|].
  - split; [by right; apply Hr | apply Hr].
  - by intros y [->|?]%elem_of_cons; [|apply Hr].
Qed.

(** An event that is stored already. *)
Definition known h e (v : eid) : Prop := at_event h v (λ ev, compare_events e ev = Ok true).

Lemma deduplicate_search e u :
  uf_ok u →
  ∃ r, find_if (λ v, ev ← deref (uf_heap u) v; compare_events e ev)
      (default [] (smap_find (key_of e) (uf_events u))) = Ok r ∧
    match r with Some v => known (uf_heap u) e v | None => ∀ v, ¬ known (uf_heap u) e v end.
Proof.
  intros Hok. destruct (find_if_spec (λ v, ev ← deref (uf_heap u) v; compare_events e ev)
    (default [] (smap_find (key_of e) (uf_events u)))) as (r & -> & Hr).
  { intros v (ev & Hv & _)%(uo_index _ Hok). simpl.
    rewrite (proj2 (deref_ok _ v ev) Hv), bind_Ok_l. apply compare_events_total. }
  exists r. split; [done|]. destruct r as [v|].
  - destruct Hr as [(ev & Hv & _)%(uo_index _ Hok) Hc]. exists ev. split; [done|].
    by rewrite (proj2 (deref_ok _ v ev) Hv), bind_Ok_l in Hc.
  - intros v (ev & Hv & Hc).
    assert (v ∈ default [] (smap_find (key_of e) (uf_events u))) as Hin%Hr.
    { apply (uo_index _ Hok). exists ev. split; [done|]. by rewrite (compare_events_key e ev Hc). }
    rewrite (proj2 (deref_ok _ v ev) Hv), bind_Ok_l in Hin. congruence.
Qed.

(** What a call to [deduplicate] does. *)
Record deduplicated e u u' (unknown : bool) (p : eid) : Prop := {
  dd_ok : uf_ok u';
  dd_ext : heap_ext (uf_heap u) (uf_heap u');
  dd_root : uf_root u' = uf_root u;
  dd_found : known (uf_heap u') e p;
  dd_core : at_event (uf_heap u') p (same_core e);
  dd_known : unknown = false → known (uf_heap u) e p ∧ frame (uf_heap u) (uf_heap u') ∧
    (ev_is_cutoff e = true → is_cut (uf_heap u') p);
  dd_unknown : unknown = true →
    uf_heap u !! p = None ∧ (∀ v, ¬ known (uf_heap u) e v) ∧
    (∀ q, is_Some (uf_heap u' !! q) ↔ q = p ∨ is_Some (uf_heap u !! q)) ∧
    at_event (uf_heap u') p (λ ep, same_core e ep ∧ NoDup (ev_immediate_conflicts ep) ∧
      ∀ s, s ∈ ev_immediate_conflicts ep ↔ immediate_conflict (uf_heap u') p ep s);
  dd_conflicts x y : conflicts_of (uf_heap u) x y → conflicts_of (uf_heap u') x y;
}.

(** A stored event that compares equal to the new one is the same event. *)
Lemma known_core e u v ev :
  uf_ok u → new_event_ok (uf_heap u) e → uf_heap u !! v = Some ev →
  compare_events e ev = Ok true → same_core e ev.
Proof.
  intros Hok Hne Hv Hc%compare_events_identity.
  apply (identity_core (uf_heap u) e ev (λ x, below (uf_heap u) x e));
    [apply Hok | apply Hne | by eapply (uo_wf _ Hok) | apply Hne | | apply Hne | apply Hne | done | done].
  intros Hn Hnone x ex Hb Hx. eapply (lc_lock _ _ _ (uo_lc _ Hok v ev Hv)); try done.
  apply causal_lt_alt. eauto.
Qed.

Lemma deduplicate_spec e u :
  uf_ok u → new_event_ok (uf_heap u) e →
  ∃ u' unknown p, deduplicate e u = Ok (u', unknown, p) ∧ deduplicated e u u' unknown p.
Proof.
  intros Hok Hne. unfold deduplicate.
  destruct (deduplicate_search e u Hok) as (r & -> & Hr). rewrite bind_Ok_l. destruct r as [v|].
  - destruct Hr as (ev & Hv & Hc). destruct (found_duplicate_spec e u v Hok)
      as (u' & -> & Hok' & Hf & Hroot & Hcut); [eauto|]. rewrite bind_Ok_l.
    exists u', false, v. split; [done|]. split; [done | by apply frame_ext | done | | | | done |].
    + destruct (frame_lookup _ _ _ _ Hf Hv) as (ev' & Hv' & Hr). exists ev'. split; [done|].
      by rewrite <-(compare_events_core e ev ev' (fr_core _ _ Hr)).
    + destruct (frame_lookup _ _ _ _ Hf Hv) as (ev' & Hv' & Hr). exists ev'. split; [done|].
      etrans; [|apply (fr_core _ _ Hr)]. by apply (known_core e u v ev).
    + intros _. split_and!; [by exists ev | done |]. intros He. apply Hcut. right.
      split; [done | constructor].
    + intros x y. by apply frame_conflicts.
  - destruct (insert_new_spec u e Hok Hne) as (u' & p & ep & -> & Hok' & Hext & Hp & Hep & Hcp & Hd &
      Hroot & Hnd & Hic & Hmono).
    { intros v ev Hv Hc. apply (Hr v). by exists ev. }
    rewrite bind_Ok_l. exists u', true, p. split; [done|]. split; [done..| | by exists ep | done | | done].
    + exists ep. split; [done|]. rewrite <-(compare_events_core e e ep Hcp).
      apply compare_events_refl.
    + intros _. split_and!; [done..|]. by exists ep.
Qed.

(** A second call finds the event of the first, whatever lies between them. *)
Lemma deduplicate_again e u u1 p :
  uf_ok u1 → known (uf_heap u) e p → heap_ext (uf_heap u) (uf_heap u1) →
  ∃ u2, deduplicate e u1 = Ok (u2, false, p) ∧ uf_ok u2.
Proof.
  intros Hok (ev & Hv & Hc) Hext. unfold deduplicate.
  destruct (Hext p ev Hv) as (ev1 & Hv1 & Hs).
  rewrite (compare_events_core e ev ev1 Hs) in Hc.
  destruct (deduplicate_search e u1 Hok) as (r & -> & Hr). rewrite bind_Ok_l.
  destruct r as [v|]; [|destruct (Hr p); by exists ev1].
  destruct Hr as (ev2 & Hv2 & Hc2).
  assert (v = p) as ->.
  { apply (uo_distinct _ Hok v p ev2 ev1 Hv2 Hv1). by eapply compare_events_join. }
  destruct (found_duplicate_spec e u1 p Hok) as (u' & -> & ? & _); [eauto|].
  rewrite bind_Ok_l. eauto.
Qed.
End dedup.
