(* ===== verification/Scenario.v ===== *)
(** * Running a configuration

    A concrete allocator and a driver that commits a list of operations one
    after the other; the witnesses of the configuration's theorems are runs
    of this driver. *)

From stdpp Require Import base tactics list gmap numbers.
From S2P Require Import Prelude StdMap ThreadId Event Comb Cone Alloc Demo Unfolding Configuration.

(** The address after the largest one in use. *)
Definition bump (h : heap) : eid := N.succ (map_fold (λ k _ m, N.max k m) 0%N h).

Lemma bump_bound (h : heap) k e : h !! k = Some e → (k < bump h)%N.
Proof.
  unfold bump. revert k e. induction h as [|p e h Hp IH] using map_ind; intros k e' Hk.
  { by rewrite lookup_empty in Hk. }
  rewrite map_fold_insert_L; [|intros; lia | done].
  destruct (decide (p = k)) as [->|Hne].
  - lia.
  - rewrite lookup_insert_ne in Hk by done. specialize (IH k e' Hk). lia.
Qed.

#[export] Program Instance bump_allocator : Allocator := {| fresh_addr := bump |}.
Next Obligation.
  intros h. destruct (h !! bump h) as [e|] eqn:He; [|done]. apply bump_bound in He. lia.
Qed.

(** ** Operations of the client

    The calls that the executor makes on a configuration. *)
Inductive operation {PL : Payload} : Type :=
  | CreateThread (thread new_tid : thread_id)
  | InitThread (thread created_from : thread_id)
  | JoinThread (thread joined : thread_id)
  | ExitThread (thread : thread_id) (atomic : bool)
  | CreateLock (thread : thread_id) (lock : lock_id_t)
  | DestroyLock (thread : thread_id) (lock : lock_id_t)
  | AcquireLock (thread : thread_id) (lock : lock_id_t)
  | ReleaseLock (thread : thread_id) (lock : lock_id_t) (atomic : bool)
  | CreateCond (thread : thread_id) (cond : cond_id_t)
  | DestroyCond (thread : thread_id) (cond : cond_id_t)
  | WaitBegin (thread : thread_id) (cond : cond_id_t) (lock : lock_id_t)
  | WaitEnd (thread : thread_id) (cond : cond_id_t) (lock : lock_id_t)
  | SignalThread (thread : thread_id) (cond : cond_id_t) (notified_thread : thread_id)
  | BroadcastThreads (thread : thread_id) (cond : cond_id_t) (notified_threads : list thread_id)
  | LocalStep (thread : thread_id) (path : list decision).

Section driver.
Context {PL : Payload} {AL : Allocator}.

Definition apply_op (h : heap) (c : configuration) (o : operation)
    : res (configuration * extension) :=
  match o with
  | CreateThread t nt => create_thread h c t nt
  | InitThread t from => init_thread h c t from
  | JoinThread t j => join_thread h c t j
  | ExitThread t a => exit_thread h c t a
  | CreateLock t l => create_lock h c t l
  | DestroyLock t l => destroy_lock h c t l
  | AcquireLock t l => acquire_lock h c t l
  | ReleaseLock t l a => release_lock h c t l a
  | CreateCond t k => create_cond h c t k
  | DestroyCond t k => destroy_cond h c t k
  | WaitBegin t k l => wait1_op h c t k l
  | WaitEnd t k l => wait2_op h c t k l
  | SignalThread t k nt => signal_thread h c t k nt
  | BroadcastThreads t k nts => broadcast_threads h c t k nts
  | LocalStep t path => local_op h c t path
  end.

(** An operation builds an extension, which is committed at once. *)
Definition perform (o : operation) (u : unfolding) (c : configuration)
    : res (unfolding * configuration * eid) :=
  '(c', x) ← apply_op (uf_heap u) c o; commit x u c'.

Definition perform_all (ops : list operation) (uc : unfolding * configuration)
    : res (unfolding * configuration) :=
  for_each (λ st o, '(u', c', _) ← perform o st.1 st.2; Ok (u', c')) uc ops.

(** A program with one startup thread. *)
Definition run (ops : list operation) : res (unfolding * configuration) :=
  uc ← new_configuration 0 1; perform_all ops uc.
End driver.
