(* ===== verification/Dependence.v ===== *)
(** * When two events are dependent

    [is_independent_of] is a nested [switch] over pairs of kinds. This file
    reads it as a relation: two events are dependent only when they share a
    thread, one starts the program, they create/start or exit/join the same
    thread, they use the same lock, or they are related through a condition
    variable. *)

From stdpp Require Import base tactics list gmap numbers relations.
From S2P Require Import Prelude StdMap ThreadId Event Comb CombEnum CombProofs Cone Alloc Causality.
From S2P Require Import AllocProofs HeapExt Order Walks Independence Unfolding ColorProofs.
From S2P Require Import UnfoldingProofs DedupProofs.

Section dependence.
Context {PL : Payload}.
Implicit Types (h : heap) (a b e : event).

(** The [wait1] events that a signal or broadcast notifies. *)
Definition notified h e : list eid :=
  match ev_data e with
  | Signal _ [w] _ =>
      match h !! w with
      | Some ew => if kind_eqb (ev_kind ew) wait1 then [w] else []
      | None => []
      end
  | Broadcast _ cps n _ => take n cps
  | _ => []
  end.

Definition notifies h (n w : eid) : Prop := at_event h n (λ e, w ∈ notified h e).

Definition notifies_thread h e (t : thread_id) : Prop :=
  ∃ w, w ∈ notified h e ∧ at_event h w (λ x, ev_tid x = t).

Definition is_notification (k : event_kind) : bool :=
  match k with signal | broadcast => true | _ => false end.

Lemma notified_pred h e w : w ∈ notified h e → w ∈ condition_variable_predecessors e.
Proof.
  unfold notified, condition_variable_predecessors.
  destruct (ev_data e) as [| | | | | | | | | | | | | |tp [|q []] c|tp cps n c]; try set_solver.
  - destruct (h !! q); [|set_solver]. case_match; set_solver.
  - intros Hw. by apply (subseteq_take n).
Qed.

(** Only notifications notify, and only [wait1] events of the same condition
    variable. *)
Lemma notified_wait1 h e w :
  wf_event h e → w ∈ notified h e →
  at_event h w (λ x, ev_kind x = wait1 ∧ ev_cid x = ev_cid e) ∧
  is_notification (ev_kind e) = true.
Proof.
  intros Hwf. pose proof (wf_class _ _ Hwf) as Hcl.
  unfold notified, class_ok, ev_kind, ev_cid in *.
  destruct (ev_data e) as [| | | | | | | | | | | | | |tp [|q []] c|tp cps n c];
    try (by intros ?%elem_of_nil).
  - destruct (h !! q) as [eq|] eqn:Hq; [|by intros ?%elem_of_nil].
    destruct (kind_eqb _ _) eqn:Hk; [|by intros ?%elem_of_nil]. apply kind_eqb_eq in Hk.
    intros ->%list_elem_of_singleton. split; [|done]. exists eq. split_and!; [done..|].
    destruct Hcl as [Hc _]. destruct (Hc q) as (x & Hx & _ & Hcid); [by left|].
    assert (x = eq) as -> by congruence. done.
  - intros Hw. destruct Hcl as (Hc & _ & Hw1 & _). split; [|done].
    destruct (Hw1 w Hw) as (x & Hx & Hk). exists x. split_and!; [done..|].
    destruct (Hc w) as (x' & Hx' & _ & Hcid); [by apply (subseteq_take n)|].
    assert (x' = x) as -> by congruence. done.
Qed.

(** Any [wait1] among the condition variable predecessors of a notification
    is notified by it. *)
Lemma wait1_notified h e w :
  wf_event h e → is_notification (ev_kind e) = true → w ∈ condition_variable_predecessors e →
  at_event h w (λ x, ev_kind x = wait1) → w ∈ notified h e.
Proof.
  intros Hwf. pose proof (wf_class _ _ Hwf) as Hcl.
  unfold notified, class_ok, ev_kind, condition_variable_predecessors in *.
  destruct (ev_data e) as [| | | | | | | | | | | | | |tp cps c|tp cps n c]; try done; intros _ Hw Hk.
  - destruct Hcl as [_ [(w' & -> & Hw')|Hn]].
    + apply list_elem_of_singleton in Hw as ->. destruct Hk as (x & -> & Hk).
      rewrite (proj2 (kind_eqb_eq _ _) Hk). by left.
    + destruct (Hn w Hw) as (x & Hx & Hk'), Hk as (x' & Hx' & Hk). congruence.
  - destruct Hcl as (_ & _ & _ & Hn). rewrite <-(take_drop n cps) in Hw.
    apply elem_of_app in Hw as [?|Hw]; [done|].
    destruct (Hn w Hw) as (x & Hx & Hk'), Hk as (x' & Hx' & Hk). congruence.
Qed.

Lemma notification_lost h e :
  wf_event h e → is_notification (ev_kind e) = true →
  notification_is_lost h e = Ok (bool_decide (notified h e = [])).
Proof.
  intros Hwf. pose proof (wf_class _ _ Hwf) as Hcl. pose proof (wf_preds _ _ Hwf) as Hpr.
  unfold notified, class_ok, notification_is_lost, signal_is_lost, broadcast_is_lost,
    ev_kind, predecessors in *.
  destruct (ev_data e) as [| | | | | | | | | | | | | |tp [|q []] c|tp cps n c]; try done; intros _;
    simpl in *.
  - destruct (Hpr q) as [eq Hq]; [set_solver|]. unfold deref. rewrite Hq. simpl.
    by destruct (kind_eqb _ _).
  - destruct Hcl as (_ & Hn & _). f_equal. destruct n as [|n]; [done|].
    destruct cps; [simpl in Hn; lia | done].
Qed.

Lemma signal_notifies h e nt t :
  signal_notified_thread h e = Ok nt → tid_eqb nt t = true → t ≠ tid_root → notifies_thread h e t.
Proof.
  unfold signal_notified_thread, notifies_thread, notified, deref.
  destruct (ev_data e) as [| | | | | | | | | | | | | |tp [|q []] c|]; try done; simpl.
  - intros [= <-] Ht%tid_eqb_spec. done.
  - destruct (h !! q) as [eq|] eqn:Hq; [|done]. simpl. intros [= <-]. destruct (kind_eqb _ _).
    + intros Ht%tid_eqb_spec _. exists q. split; [by left | by exists eq].
    + intros Ht%tid_eqb_spec. done.
  - intros [= <-] Ht%tid_eqb_spec. done.
Qed.

Lemma any_of_true {A} (f : A → res bool) l :
  any_of f l = Ok true → ∃ x, x ∈ l ∧ f x = Ok true.
Proof.
  induction l as [|x l IH]; simpl; [done|]. intros ([] & Hx & H)%bind_ok.
  - exists x. split; [by left | done].
  - destruct (IH H) as (y & Hy & Hf). exists y. split; [by right | done].
Qed.

Lemma broadcast_notifies h e t :
  broadcast_is_notifying_thread h e t = Ok true → notifies_thread h e t.
Proof.
  unfold broadcast_is_notifying_thread, broadcast_wait_predecessors, notifies_thread, notified.
  destruct (ev_data e) as [| | | | | | | | | | | | | | |tp cps n c]; try done. simpl.
  intros (w & Hw & Hf)%any_of_true. res_inv_ev. exists w. split; [done|]. eexists. split; [done|].
  by apply tid_eqb_spec.
Qed.

(** ** Dependent pairs *)

Definition thread_dep h a b : Prop :=
  match ev_kind a, ev_kind b with
  | thread_create, thread_init => created_tid a = Ok (ev_tid b)
  | thread_init, thread_create => created_tid b = Ok (ev_tid a)
  | thread_exit, thread_join => joined_thread h b = Ok (ev_tid a)
  | thread_join, thread_exit => joined_thread h a = Ok (ev_tid b)
  | thread_join, thread_join => ∃ t, joined_thread h a = Ok t ∧ joined_thread h b = Ok t
  | _, _ => False
  end.

Definition cond_dep h a b : Prop :=
  match ev_kind a, ev_kind b with
  | (condition_variable_create | condition_variable_destroy), _
  | _, (condition_variable_create | condition_variable_destroy) => True
  | wait1, signal => notified h b = [] ∨ notifies_thread h b (ev_tid a)
  | signal, wait1 => notified h a = [] ∨ notifies_thread h a (ev_tid b)
  | wait1, broadcast | broadcast, wait1 => True
  | wait2, (signal | broadcast) => notifies_thread h b (ev_tid a)
  | (signal | broadcast), wait2 => notifies_thread h a (ev_tid b)
  | (signal | broadcast), (signal | broadcast) => notified h a ≠ [] ∨ notified h b ≠ []
  | _, _ => False
  end.

Lemma thread_is_dependent h a b :
  thread_is_independent h a b = Ok false → thread_dep h a b.
Proof.
  unfold thread_is_independent, is_thread_event, thread_event_is_independent, thread_dep.
  destruct (ev_kind a) eqn:Ka, (ev_kind b) eqn:Kb; simpl; try done; intros; res_inv;
    match goal with H : negb _ = false |- _ => apply negb_false_iff, tid_eqb_spec in H end;
    subst; try done; try (by eexists); by rewrite ?Ka, ?Kb; congruence.
Qed.

Lemma lock_is_dependent a b :
  lock_is_independent a b = Ok false → ev_lid a = ev_lid b ∧ ev_lid a ≠ 0%N.
Proof.
  unfold lock_is_independent. intros. res_inv.
  match goal with H : negb (ev_lid a =? 0)%N = true |- _ => apply negb_true_iff, N.eqb_neq in H end.
  destruct (negb (ev_lid b =? 0)%N); [|done].
  match goal with H : negb _ = false |- _ => apply negb_false_iff, N.eqb_eq in H end. done.
Qed.

Lemma lost_is_dependent h a b :
  wf_event h a → wf_event h b → lost_notification_is_independent h a b = Ok false →
  ev_cid a = ev_cid b ∧ notified h a = [] ∧ is_notification (ev_kind a) = true ∧
  (is_notification (ev_kind b) = true → notified h b ≠ []) ∧ ev_kind b ≠ wait2.
Proof.
  intros Ha Hb. unfold lost_notification_is_independent. intros H. res_inv.
  assert (is_notification (ev_kind a) = true) as Hn.
  { match goal with H : _ || _ = true |- _ => apply orb_true_iff in H as [->%kind_eqb_eq | ->%kind_eqb_eq] end;
      done. }
  match goal with H : notification_is_lost h a = _ |- _ =>
    rewrite (notification_lost h a Ha Hn) in H; injection H as Hl end. subst.
  match goal with H : bool_decide _ = true |- _ => apply bool_decide_eq_true in H end.
  destruct (kind_eqb (ev_kind b) wait2) eqn:K2; [done|]. apply kind_eqb_ne in K2.
  destruct (negb _) eqn:Hc; [done|]. apply negb_false_iff, N.eqb_eq in Hc.
  split_and!; try done. intros Hnb.
  assert (notification_is_lost h b = Ok false) as Hlb.
  { destruct (ev_kind b) eqn:Kb; try done; res_inv;
      match goal with H : notification_is_lost h b = Ok ?x |- _ => by destruct x end. }
  rewrite (notification_lost h b Hb Hnb) in Hlb. injection Hlb as Hlb.
  by apply bool_decide_eq_false in Hlb.
Qed.

Lemma signal_lost_notified h e l :
  wf_event h e → ev_kind e = signal → signal_is_lost h e = Ok l → l = bool_decide (notified h e = []).
Proof.
  intros Hwf Hk Hl. pose proof (notification_lost h e Hwf) as Hn. unfold notification_is_lost in Hn.
  rewrite Hk in Hn. specialize (Hn eq_refl). congruence.
Qed.

Lemma broadcast_lost_notified h e l :
  wf_event h e → ev_kind e = broadcast → broadcast_is_lost e = Ok l →
  l = bool_decide (notified h e = []).
Proof.
  intros Hwf Hk Hl. pose proof (notification_lost h e Hwf) as Hn. unfold notification_is_lost in Hn.
  rewrite Hk in Hn. specialize (Hn eq_refl). congruence.
Qed.

Lemma cid_cond_event e : ev_cid e ≠ 0%N → is_cond_event (ev_kind e) = true.
Proof. unfold ev_cid, ev_kind. by destruct (ev_data e). Qed.

(** Undo one step of a boolean or monadic test. *)
Ltac dep_step :=
  match goal with
  | H : Ok _ = Ok _ |- _ => injection H as H
  | H : Ok _ = Err _ |- _ => discriminate H
  | H : Err _ = Ok _ |- _ => discriminate H
  | H : true = false |- _ => discriminate H
  | H : negb _ = false |- _ => apply negb_false_iff in H
  | H : negb _ = true |- _ => apply negb_true_iff in H
  | H : (_ =? _)%N = true |- _ => apply N.eqb_eq in H
  | H : _ || _ = false |- _ => apply orb_false_iff in H as [??]
  | H : (_ ≫= _) = Ok _ |- _ => apply bind_ok in H as (? & ? & H)
  | H : (if ?b then _ else _) = Ok _ |- _ => destruct b eqn:?
  | H : _ = wait1 ∨ _ |- _ => destruct H
  end.

Lemma dependent_by_kind h a b :
  wf_event h a → wf_event h b → ids_nonzero a → ev_tid a ≠ tid_root → ev_tid b ≠ tid_root →
  independent_by_kind h a b = Ok false →
  thread_dep h a b ∨ (ev_lid a = ev_lid b ∧ ev_lid a ≠ 0%N) ∨
  (ev_cid a = ev_cid b ∧ ev_cid a ≠ 0%N ∧ cond_dep h a b).
Proof.
  intros Ha Hb Hia Hta Htb Hd.
  pose proof (if_cid _ _ (wf_ind_facts h a Ha Hia)) as Hc0.
  unfold independent_by_kind in Hd.
  assert (∀ P, is_cond_event (ev_kind a) = true → ev_cid a = ev_cid b → cond_dep h a b → 
    P ∨ (ev_lid a = ev_lid b ∧ ev_lid a ≠ 0%N) ∨
    (ev_cid a = ev_cid b ∧ ev_cid a ≠ 0%N ∧ cond_dep h a b)) as Hcond.
  { intros P Hk Hcid Hcd. right. right. split_and!; [done| |done].
    rewrite Hk in Hc0. by apply N.eqb_neq. }
  destruct (ev_kind a) eqn:Ka; try discriminate Hd;
    try (right; left; by apply lock_is_dependent); try (left; by apply thread_is_dependent).
  - (* create *) repeat dep_step. apply Hcond; [done..|]. unfold cond_dep. rewrite Ka. done.
  - (* destroy *) repeat dep_step. apply Hcond; [done..|]. unfold cond_dep. rewrite Ka. done.
  - (* wait1 *)
    apply bind_ok in Hd as (l & Hl & Hd). destruct l; [|right; left; by apply lock_is_dependent].
    destruct (ev_kind b) eqn:Kb; repeat dep_step; apply Hcond; try done; unfold cond_dep;
      rewrite Ka, Kb; try done.
    + left. match goal with H : signal_is_lost h b = _ |- _ =>
        apply (signal_lost_notified h b _ Hb Kb) in H as Hn; symmetry in Hn end.
      by apply bool_decide_eq_true in Hn.
    + right. eapply signal_notifies; [done | by rewrite tid_eqb_sym | done].
  - (* wait2 *)
    apply bind_ok in Hd as (l & Hl & Hd). destruct l; [|right; left; by apply lock_is_dependent].
    destruct (ev_kind b) eqn:Kb; repeat dep_step; apply Hcond; try done; unfold cond_dep;
      rewrite Ka, Kb; try done; [by eapply signal_notifies | subst; by apply broadcast_notifies].
  - (* signal *)
    apply bind_ok in Hd as (l & Hl & Hd). apply (signal_lost_notified h a _ Ha Ka) in Hl. destruct l.
    + apply lost_is_dependent in Hd as (Hc & Hn & _ & Hnb & K2); [|done..]. apply Hcond; [done..|].
      assert (is_cond_event (ev_kind b) = true) as Hcb.
      { apply cid_cond_event. rewrite <-Hc. by apply N.eqb_neq. }
      unfold cond_dep. rewrite Ka. destruct (ev_kind b); try done; auto.
    + symmetry in Hl. apply bool_decide_eq_false in Hl.
      destruct (ev_kind b) eqn:Kb; repeat dep_step; apply Hcond; try done; unfold cond_dep;
        rewrite Ka, Kb; try done; try (by left); [right| ]; by eapply signal_notifies.
  - (* broadcast *)
    apply bind_ok in Hd as (l & Hl & Hd). apply (broadcast_lost_notified h a _ Ha Ka) in Hl. destruct l.
    + apply lost_is_dependent in Hd as (Hc & Hn & _ & Hnb & K2); [|done..]. apply Hcond; [done..|].
      assert (is_cond_event (ev_kind b) = true) as Hcb.
      { apply cid_cond_event. rewrite <-Hc. by apply N.eqb_neq. }
      unfold cond_dep. rewrite Ka. destruct (ev_kind b); try done; auto.
    + symmetry in Hl. apply bool_decide_eq_false in Hl.
      destruct (ev_kind b) eqn:Kb; repeat dep_step; apply Hcond; try done; unfold cond_dep;
        rewrite Ka, Kb; try done; try (by left). subst. by apply broadcast_notifies.
Qed.

(** The events that [is_independent_of] does not separate. *)
Lemma dependent_cases h a b :
  wf_event h a → wf_event h b → ids_nonzero a → is_independent_of h a b = Ok false →
  ev_tid a = ev_tid b ∨ ev_kind a = program_init ∨ ev_kind b = program_init ∨
  thread_dep h a b ∨ (ev_lid a = ev_lid b ∧ ev_lid a ≠ 0%N) ∨
  (ev_cid a = ev_cid b ∧ ev_cid a ≠ 0%N ∧ cond_dep h a b).
Proof.
  intros Ha Hb Hia. unfold is_independent_of.
  destruct (tid_eqb _ _) eqn:Ht; [apply tid_eqb_spec in Ht; auto|].
  destruct (_ || _) eqn:Hl; [done|].
  destruct (kind_eqb (ev_kind a) program_init) eqn:Ka; [apply kind_eqb_eq in Ka; auto|].
  destruct (kind_eqb (ev_kind b) program_init) eqn:Kb; [apply kind_eqb_eq in Kb; auto|].
  apply kind_eqb_ne in Ka, Kb. simpl. intros (t & Hth & Hd)%bind_ok. do 3 right.
  destruct t; simpl in Hd; [|left; by apply thread_is_dependent].
  apply dependent_by_kind; try done.
  - intros E. by apply (wf_tid _ _ Ha) in E.
  - intros E. by apply (wf_tid _ _ Hb) in E.
Qed.
End dependence.

(** ** Recorded conflicts separate dependent events

    Whenever two stored events are dependent and neither is a cause of the
    other, the unfolding has recorded an immediate conflict between causes of
    the two. Inserting events keeps this, so it holds in every reachable
    state; it is what makes an alternative fit its configuration. *)

Section separation.
Context {PL : Payload} {AL : Allocator}.
Implicit Types (u : unfolding) (h : heap) (e : event) (p q s x y z : eid) (l : list eid).

(** An immediate conflict was recorded between causes of [x] and [y]. *)
Definition split_by h x y : Prop :=
  ∃ x' y', causal_le h x' x ∧ causal_le h y' y ∧ conflicts_of h x' y'.

Definition separated h : Prop := ∀ x y ex ey, h !! x = Some ex → h !! y = Some ey →
  ¬ causal_le h x y → ¬ causal_le h y x → is_independent_of h ex ey = Ok false → split_by h x y.

Lemma split_by_sym u x y : uf_ok u → split_by (uf_heap u) x y → split_by (uf_heap u) y x.
Proof.
  intros Hok (x' & y' & Hx & Hy & Hc). exists y', x'. split_and!; [done | done |].
  by apply (uo_conf _ Hok).
Qed.

Lemma split_by_above h x y s : split_by h x y → causal_le h y s → split_by h x s.
Proof. intros (x' & y' & Hx & Hy & Hc) Hle. exists x', y'. split_and!; [done | by etrans | done]. Qed.

(** ** Deciding causes and inherited conflicts *)

Lemma causes_listed h p : wf_heap h → is_Some (h !! p) → ∃ l, ∀ x, x ∈ l ↔ causal_lt h x p.
Proof.
  intros Hwf. remember (dep h p) as d eqn:Hd. revert p Hd.
  induction d as [d IH] using lt_wf_ind. intros p -> [e He].
  assert (∀ l, (∀ q, q ∈ l → q ∈ predecessors e) →
    ∃ l', ∀ x, x ∈ l' ↔ ∃ q, q ∈ l ∧ causal_le h x q) as Hall.
  { induction l as [|q l IHl]; intros Hl.
    { exists []. intros x. rewrite elem_of_nil. split; [done|]. by intros (q & ?%elem_of_nil & _). }
    destruct IHl as [l1 Hl1]; [intros; apply Hl; by right|].
    assert (q ∈ predecessors e) as Hq by (apply Hl; left).
    destruct (IH (dep h q)) with (p := q) as [l2 Hl2].
    - apply imm_dep; [done|]. by exists e.
    - done.
    - by apply (wf_preds _ _ (Hwf p e He)).
    - exists (q :: l2 ++ l1). intros x. rewrite elem_of_cons, elem_of_app, Hl1, Hl2. split.
      + intros [->|[Hlt|(q' & Hq' & Hle)]].
        * exists q. split; [left | reflexivity].
        * exists q. split; [left|]. apply causal_le_alt. by right.
        * exists q'. split; [by right | done].
      + intros (q' & [->|Hq']%elem_of_cons & Hle); [|by eauto].
        apply causal_le_alt in Hle as [->|Hlt]; auto. }
  destruct (Hall (predecessors e)) as [l Hl]; [done|]. exists l. intros x.
  rewrite Hl, causal_lt_alt. split.
  - intros (q & Hq & Hle). exists e. split; [done|]. by exists q.
  - intros (e' & He' & q & Hq & Hle). assert (e' = e) as -> by congruence. by exists q.
Qed.

Lemma cause_or_not h p x : wf_heap h → is_Some (h !! p) → causal_lt h x p ∨ ¬ causal_lt h x p.
Proof.
  intros Hwf Hp. destruct (causes_listed h p Hwf Hp) as [l Hl].
  destruct (decide (x ∈ l)) as [Hx|Hx]; [left | right]; by rewrite <-Hl.
Qed.

Lemma conflict_or_not h x y : conflicts_of h x y ∨ ¬ conflicts_of h x y.
Proof.
  unfold conflicts_of, at_event. destruct (h !! x) as [e|]; [|right; naive_solver].
  destruct (decide (y ∈ ev_immediate_conflicts e)); [left | right]; naive_solver.
Qed.

Lemma exists_or_not (P Q : eid → Prop) l :
  (∀ x, x ∈ l → P x ∨ Q x) → (∃ x, x ∈ l ∧ P x) ∨ ∀ x, x ∈ l → Q x.
Proof.
  induction l as [|x l IH]; intros Hl; [right; by intros x ?%elem_of_nil|].
  destruct (Hl x) as [Hx|Hx]; [left | by left; exists x; split; [left|]|].
  destruct IH as [(y & Hy & HP)|HQ]; [intros y Hy; apply Hl; by right | |].
  - left. exists y. split; [by right | done].
  - right. intros y [->|Hy]%elem_of_cons; auto.
Qed.

Lemma inherited_or_not h p x : wf_heap h → is_Some (h !! p) → inherited h p x ∨ ¬ inherited h p x.
Proof.
  intros Hwf Hp. destruct (causes_listed h p Hwf Hp) as [l Hl].
  destruct (exists_or_not (λ z, conflicts_of h z x) (λ z, ¬ conflicts_of h z x) l) as [(z & Hz & Hc)|Hn].
  - intros z _. apply conflict_or_not.
  - left. exists z. split; [by apply Hl | done].
  - right. intros (z & Hz%Hl & Hc). by apply (Hn z).
Qed.

(** ** A new event *)

(** The initial event is the same everywhere. *)
Lemma one_root u x y ex ey : uf_ok u → uf_heap u !! x = Some ex → uf_heap u !! y = Some ey →
  ev_kind ex = program_init → ev_kind ey = program_init → x = y.
Proof.
  intros Hok Hx Hy Kx Ky. apply (uo_distinct _ Hok x y ex ey Hx Hy).
  assert (∀ z ez, uf_heap u !! z = Some ez → ev_kind ez = program_init →
    ev_data ez = ProgramInit ∧ ev_tid ez = tid_root ∧ ev_depth ez = 0) as Hroot.
  { intros z ez Hz Kz. pose proof (uo_wf _ Hok z ez Hz) as Hw.
    assert (ev_data ez = ProgramInit) as Hd by (unfold ev_kind in Kz; by destruct (ev_data ez)).
    split_and!; [done | by apply (wf_tid _ _ Hw) |].
    destruct (wf_depth_tight _ _ Hw) as [[_ ?]|(q & Hq & _)]; [done|].
    unfold predecessors in Hq. rewrite Hd in Hq. by apply elem_of_nil in Hq. }
  destruct (Hroot x ex Hx Kx) as (D1 & T1 & P1), (Hroot y ey Hy Ky) as (D2 & T2 & P2).
  apply compare_events_identity.
  unfold identity, key_of, ev_lid, ev_cid, atomic_predecessor, predecessors, ev_kind.
  by rewrite D1, D2, T1, T2, P1, P2.
Qed.

Section insertion.
Context u p ep (Hok : uf_ok u) (Hp : uf_heap u !! p = Some ep) (Hkind : ev_kind ep ≠ program_init).
Abbreviation h := (uf_heap u).
Hypothesis Hexact : ∀ s, s ∈ ev_immediate_conflicts ep ↔ immediate_conflict h p ep s.

(** Every event that does not follow [p] can happen without it, unless a
    conflict was recorded. *)
Lemma avoidable_or_split x :
  is_Some (h !! x) → ¬ causal_le h p x → avoidable h p ep x ∨ split_by h p x.
Proof.
  pose proof (uo_wf _ Hok) as Hwf.
  remember (dep h x) as d eqn:Hd. revert x Hd. induction d as [d IH] using lt_wf_ind.
  intros x -> [ex Hx] Hnp. assert (x ≠ p) as Hne by (intros ->; apply Hnp; reflexivity).
  destruct (cause_or_not h p x Hwf) as [Hc|Hc]; [by eauto | left; by apply av_cause |].
  destruct (inherited_or_not h p x Hwf) as [(z & Hz & Hzx)|Hi]; [by eauto | |].
  { right. exists z, x. split_and!; [apply causal_le_alt; by right | reflexivity | done]. }
  assert (∃ q, imm h q x) as Hpred.
  { destruct (wf_depth_tight _ _ (Hwf x ex Hx)) as [[Kx _]|(q & Hq & _)]; [|by exists q, ex].
    destruct (root_below h Hwf (S (dep h p)) p ep) as (r & er & Hr & Kr & Hle); [lia | done |].
    assert (x = r) as -> by (by apply (one_root u x r ex er)).
    apply causal_le_alt in Hle as [->|Hlt]; [congruence | done]. }
  destruct (exists_or_not (λ q, split_by h p q) (λ q, avoidable h p ep q) (predecessors ex))
    as [(q & Hq & Hs)|Hav].
  - intros q Hq. assert (imm h q x) as Hi' by (by exists ex).
    destruct (IH (dep h q)) with (x := q) as [?|?]; [by apply imm_dep | done | | | by right | by left].
    + by apply (wf_preds _ _ (Hwf x ex Hx)).
    + intros Hle. apply Hnp. etrans; [done|]. by apply rtc_once.
  - right. apply (split_by_above h p q x Hs). apply rtc_once. by exists ex.
  - assert (∀ q, imm h q x → avoidable h p ep q) as Hav'.
    { intros q (e' & He' & Hq). assert (e' = ex) as -> by congruence. by apply Hav. }
    destruct (is_independent_of_sym h ep ex) as (b & Hb & _);
      [apply wf_ind_facts; [by apply (Hwf p) | by eapply lc_ids, (uo_lc _ Hok)]..
      | apply wf_ind_facts; [by apply (Hwf x) | by eapply lc_ids, (uo_lc _ Hok)] |].
    destruct b.
    + left. apply av_step; [done | done | done | done |]. by exists ex.
    + right. exists p, x. split_and!; [reflexivity | reflexivity |]. exists ep. split; [done|].
      apply Hexact. split_and!; [done | done | done | done | done | by eauto |].
      intros (ex' & Hx' & Hb'). congruence.
Qed.

Lemma new_separated x ex : h !! x = Some ex → ¬ causal_le h p x → ¬ causal_le h x p →
  is_independent_of h ep ex = Ok false → split_by h p x.
Proof.
  intros Hx H1 H2 Hd. destruct (avoidable_or_split x) as [Hav|?]; [by eauto | done | | done].
  exfalso. destruct Hav as [x Hc|x _ _ _ _ (ex' & Hx' & Hi)].
  - apply H2, causal_le_alt. by right.
  - congruence.
Qed.
End insertion.

Lemma frame_independent h h' x y ex ey ex' ey' : wf_heap h → heap_ext h h' →
  h !! x = Some ex → h !! y = Some ey → h' !! x = Some ex' → h' !! y = Some ey' →
  is_independent_of h' ex' ey' = is_independent_of h ex ey.
Proof.
  intros Hwf Hext Hx Hy Hx' Hy'.
  destruct (Hext x ex Hx) as (e1 & He1 & Hc1), (Hext y ey Hy) as (e2 & He2 & Hc2).
  assert (e1 = ex') as -> by congruence. assert (e2 = ey') as -> by congruence.
  symmetry. apply is_independent_of_eq; apply ext_ind_eq; try done; apply wf_preds; by eapply Hwf.
Qed.

(** Events that were stored before stay separated. *)
Lemma old_separated h h' x y ex' ey' :
  wf_heap h → heap_ext h h' → (∀ x y, conflicts_of h x y → conflicts_of h' x y) → separated h →
  is_Some (h !! x) → is_Some (h !! y) → h' !! x = Some ex' → h' !! y = Some ey' →
  ¬ causal_le h' x y → ¬ causal_le h' y x → is_independent_of h' ex' ey' = Ok false →
  split_by h' x y.
Proof.
  intros Hwf Hext Hmono Hs [ex Hx] [ey Hy] Hx' Hy' H1 H2 Hd.
  rewrite (frame_independent h h' x y ex ey) in Hd by done.
  destruct (Hs x y ex ey Hx Hy) as (a & b & Ha & Hb & Hc); [| | done |].
  - intros Hle. apply H1. by apply (ext_causal_le h h' Hext).
  - intros Hle. apply H2. by apply (ext_causal_le h h' Hext).
  - exists a, b. split_and!; [by apply (ext_causal_le h h' Hext).. | by apply Hmono].
Qed.

Lemma deduplicate_separated u e u' unknown p :
  uf_ok u → separated (uf_heap u) → deduplicated e u u' unknown p →
  separated (uf_heap u').
Proof.
  intros Hok Hs [Hok' Hext Hroot _ _ Hkn Hun Hmono] x y ex ey Hx Hy H1 H2 Hd.
  pose proof (uo_wf _ Hok) as Hwf. destruct unknown.
  - destruct (Hun eq_refl) as (Hp & _ & Hdom & ep & Hep & Hcore & _ & Hexact).
    assert (ev_kind ep ≠ program_init) as Hkp.
    { intros Kp. destruct (uo_root _ Hok) as (er & Her & _), (uo_root _ Hok') as (er' & Her' & Kr).
      assert (p = uf_root u') as E by (by apply (one_root u' p (uf_root u') ep er')). congruence. }
    destruct (decide (x = p)) as [->|Hxp]; [|destruct (decide (y = p)) as [->|Hyp]].
    + assert (ex = ep) as -> by congruence. by apply (new_separated u' p ep Hok' Hep Hkp Hexact y ey).
    + assert (ey = ep) as -> by congruence. apply (split_by_sym u' p x Hok').
      apply (new_separated u' p ep Hok' Hep Hkp Hexact x ex); [done | done | done |].
      destruct (is_independent_of_sym (uf_heap u') ep ex) as (b & Hb & Hb');
        [apply wf_ind_facts; [by apply (uo_wf _ Hok' p) | by eapply lc_ids, (uo_lc _ Hok')]..
        | apply wf_ind_facts; [by apply (uo_wf _ Hok' x) | by eapply lc_ids, (uo_lc _ Hok')] |].
      congruence.
    + apply (old_separated (uf_heap u) (uf_heap u') x y ex ey); try done.
      * assert (is_Some (uf_heap u' !! x)) as [?|?]%Hdom by eauto; done.
      * assert (is_Some (uf_heap u' !! y)) as [?|?]%Hdom by eauto; done.
  - destruct (Hkn eq_refl) as (_ & Hf & _).
    assert (∀ z ez, uf_heap u' !! z = Some ez → is_Some (uf_heap u !! z)) as Hst.
    { intros z ez Hz. specialize (Hf z). rewrite Hz in Hf. inversion Hf; eauto. }
    by apply (old_separated (uf_heap u) (uf_heap u') x y ex ey); eauto.
Qed.

Lemma frame_separated h h' : frame h h' → wf_heap h → separated h → separated h'.
Proof.
  intros Hf Hwf Hs x y ex ey Hx Hy.
  assert (∀ z ez, h' !! z = Some ez → is_Some (h !! z)) as Hst.
  { intros z ez Hz. specialize (Hf z). rewrite Hz in Hf. inversion Hf; eauto. }
  apply (old_separated h h' x y ex ey Hwf (frame_ext h h' Hf)); eauto.
  intros a b. by apply frame_conflicts.
Qed.
End separation.
