(* ===== verification/Heads.v ===== *)
(** * Configurations as sets of events

    The thread heads of a configuration stand for a set of events: the heads,
    everything below them, and the root. [heads_ok] says that this set is
    conflict-free, that every head is the last event of its thread, and that
    dependent events are ordered, i.e. that the configuration is a
    Mazurkiewicz trace. An event that [extends] the set keeps all of this
    when it is deduplicated and becomes the head of its thread. *)

From stdpp Require Import base tactics list gmap numbers relations.
From S2P Require Import Prelude StdMap ThreadId Event Comb CombEnum CombProofs Cone Alloc Causality.
From S2P Require Import HeapExt Order Walks Independence Unfolding ColorProofs UnfoldingProofs.
From S2P Require Import DedupProofs Dependence.

Section heads.
Context {PL : Payload} {AL : Allocator}.
Implicit Types (h : heap) (e : event) (u : unfolding) (T : smap thread_id eid).

Definition in_heads u T (x : eid) : Prop :=
  x = uf_root u ∨ ∃ t p, smap_find t T = Some p ∧ causal_le (uf_heap u) x p.

Record heads_ok u T : Prop := {
  ho_sorted : smap_sorted T;
  ho_head t p : smap_find t T = Some p → is_event (uf_heap u) t p;
  ho_free : conflict_free (uf_heap u) (in_heads u T);
  ho_last x e : in_heads u T x → uf_heap u !! x = Some e → ev_kind e ≠ program_init →
    ∃ p, smap_find (ev_tid e) T = Some p ∧ causal_le (uf_heap u) x p;
  ho_dep x y ex ey : in_heads u T x → in_heads u T y →
    uf_heap u !! x = Some ex → uf_heap u !! y = Some ey →
    is_independent_of (uf_heap u) ex ey = Ok false →
    causal_le (uf_heap u) x y ∨ causal_le (uf_heap u) y x;
}.

(** An event whose causes are in the set and include every event of the set
    that it depends on, and that comes next on its thread. *)
Record extends u T e : Prop := {
  xt_wf : wf_event (uf_heap u) e;
  xt_ids : ids_nonzero e;
  xt_fresh : ev_successors e = [] ∧ ev_immediate_conflicts e = [] ∧ ev_imm_cfl_color e = 0%N;
  xt_cutoff q : q ∈ predecessors e → is_cut (uf_heap u) q → ev_is_cutoff e = true;
  xt_kind : ev_kind e ≠ program_init;
  xt_preds q : q ∈ predecessors e → in_heads u T q;
  xt_thread : thread_predecessor e = smap_find (ev_tid e) T;
  xt_join tp j : ev_data e = ThreadJoin tp j → ¬ causal_lt (uf_heap u) j tp;
  xt_lock : first_on_lock (uf_heap u) e;
  xt_dep x ex : in_heads u T x → uf_heap u !! x = Some ex →
    is_independent_of (uf_heap u) e ex = Ok false → below (uf_heap u) x e;
}.

Section extend.
Context (u : unfolding) (T : smap thread_id eid).
Abbreviation h := (uf_heap u).
Hypothesis Hok : uf_ok u.
Hypothesis HT : heads_ok u T.

Lemma in_heads_root : in_heads u T (uf_root u).
Proof. by left. Qed.

Lemma in_heads_head t p : smap_find t T = Some p → in_heads u T p.
Proof. intros Hp. right. exists t, p. split; [done | reflexivity]. Qed.

Lemma in_heads_stored x : in_heads u T x → is_Some (h !! x).
Proof. apply (cf_in _ _ (ho_free _ _ HT)). Qed.

Lemma in_heads_le x y : in_heads u T y → causal_le h x y → in_heads u T x.
Proof. apply (cf_closed _ _ (ho_free _ _ HT)). Qed.

(** The root is the only [program_init] event of the set. *)
Lemma in_heads_init x e :
  in_heads u T x → h !! x = Some e → ev_kind e = program_init → x = uf_root u.
Proof.
  intros Hx He Hk. destruct (uo_root _ Hok) as (er & Her & Hkr).
  apply (cf_init _ _ (ho_free _ _ HT) x (uf_root u) e er); try done; [apply in_heads_root | | |].
  - unfold thread_predecessor, ev_kind in *. by destruct (ev_data e).
  - unfold thread_predecessor, ev_kind in *. by destruct (ev_data er).
  - pose proof (proj2 (wf_tid _ _ (uo_wf _ Hok _ _ He)) Hk) as ->.
    by rewrite (proj2 (wf_tid _ _ (uo_wf _ Hok _ _ Her)) Hkr).
Qed.

Lemma conflict_free_sub (C D : eid → Prop) :
  conflict_free h C → (∀ x, D x → C x) → (∀ x y, D y → causal_le h x y → D x) → conflict_free h D.
Proof.
  intros [H1 H2 H3 H4] Hsub Hcl. split; [auto | done | |].
  - intros x y ex ey Hx Hy. apply H3; auto.
  - intros x y q Hx Hy. apply H4; auto.
Qed.

Context (e : event).
Hypothesis He : extends u T e.

Lemma xt_below x : below h x e → in_heads u T x.
Proof.
  intros (q & Hq & Hle). eapply in_heads_le; [|done]. by apply (xt_preds _ _ _ He).
Qed.

Lemma xt_tid : ev_tid e ≠ tid_root.
Proof. intros E. apply (xt_kind _ _ _ He). by apply (wf_tid _ _ (xt_wf _ _ _ He)). Qed.

Lemma extends_new : new_event_ok h e.
Proof.
  split; try apply He.
  - apply (conflict_free_sub (in_heads u T)); [apply HT | by apply xt_below |].
    intros x y (q & Hq & Hle) Hxy. exists q. split; [done|]. by etrans.
  - intros x q Hx Hq Htp. pose proof (xt_below x Hx) as HCx. pose proof Htp as (ex & Hex & Htx).
    rewrite (xt_thread _ _ _ He) in Hq. destruct (ho_head _ _ HT _ _ Hq) as (eq & Heq & Htq & Hkq).
    pose proof (tpred_tid h (uo_wf _ Hok) q x eq ex Heq Hex Htp) as Htid.
    destruct (ho_last _ _ HT x ex HCx Hex) as (p & Hp & Hle).
    { unfold thread_predecessor, ev_kind in *. by destruct (ev_data ex). }
    rewrite <-Htid, Htq in Hp. assert (p = q) as -> by congruence.
    eapply (causal_lt_irrefl h q); [apply Hok|]. eapply tc_rtc_r; [|done].
    by apply tc_once, tpred_imm.
  - intros x ex Hx Hex Hnone Ht Hnx. rewrite (xt_thread _ _ _ He) in Hnone.
    destruct (ho_last _ _ HT x ex (xt_below x Hx) Hex) as (p & Hp & _).
    + intros Hk. apply xt_tid. rewrite <-Ht. by apply (wf_tid _ _ (uo_wf _ Hok _ _ Hex)).
    + rewrite Ht in Hp. congruence.
  - intros x y Hx Hy Hc. destruct (uo_conf _ Hok x y Hc) as [_ Hc'].
    destruct (in_heads_stored x (xt_below x Hx)) as [ex Hex].
    destruct (in_heads_stored y (xt_below y Hy)) as [ey Hey].
    destruct (uo_dep _ Hok x y ex ey Hc Hex Hey) as [Hd Hn].
    destruct (uo_dep _ Hok y x ey ex Hc' Hey Hex) as [_ Hn'].
    by destruct (ho_dep _ _ HT x y ex ey (xt_below x Hx) (xt_below y Hy) Hex Hey Hd).
Qed.

(** ** After the event was deduplicated *)

Context (u' : unfolding) (unknown : bool) (p : eid).
Hypothesis Hdd : deduplicated e u u' unknown p.
Abbreviation h' := (uf_heap u').
Definition advanced : smap thread_id eid := smap_set (ev_tid e) p T.

Lemma dd_old x ex' :
  is_Some (h !! x) → h' !! x = Some ex' → ∃ ex, h !! x = Some ex ∧ same_core ex ex'.
Proof.
  intros [ex Hx] Hx'. destruct (dd_ext _ _ _ _ _ Hdd x ex Hx) as (ex'' & ? & Hs).
  assert (ex'' = ex') as -> by congruence. eauto.
Qed.

Lemma dd_imm q : imm h' q p ↔ q ∈ predecessors e.
Proof.
  destruct (dd_core _ _ _ _ _ Hdd) as (ep & Hep & Hs). rewrite (predecessors_proper _ _ Hs). split.
  - intros (ep' & ? & Hq). by simplify_eq.
  - intros Hq. by exists ep.
Qed.

Lemma dd_lt x : causal_lt h' x p ↔ below h x e.
Proof.
  rewrite <-(ext_below h h' (dd_ext _ _ _ _ _ Hdd) (uo_wf _ Hok) e x) by apply (wf_preds _ _ (xt_wf _ _ _ He)).
  unfold below. split.
  - intros (ep & Hep & q & Hq & Hle)%causal_lt_alt. exists q. split; [|done]. apply dd_imm. by exists ep.
  - intros (q & Hq & Hle). eapply causal_le_lt_trans; [done|]. apply tc_once. by apply dd_imm.
Qed.

Lemma dd_le x : causal_le h' x p ↔ x = p ∨ below h x e.
Proof. by rewrite causal_le_alt, dd_lt. Qed.

Lemma dd_le_old x y : in_heads u T y → causal_le h' x y ↔ causal_le h x y.
Proof.
  intros Hy. split; [|by apply ext_causal_le, Hdd].
  apply (ext_causal_le_inv h h' (dd_ext _ _ _ _ _ Hdd) (uo_wf _ Hok)). by apply in_heads_stored.
Qed.

(** The new event was not in the set. *)
Lemma dd_not_in : ¬ in_heads u T p.
Proof.
  intros Hp. destruct (in_heads_stored p Hp) as [ep0 Hep0].
  destruct (dd_core _ _ _ _ _ Hdd) as (ep & Hep & Hs).
  destruct (dd_old p ep) as (ep1 & ? & Hs0); [eauto | done |]. assert (ep1 = ep0) as -> by congruence.
  assert (same_core ep0 e) as Hs1 by (etrans; [done | by symmetry]).
  destruct (ho_last _ _ HT p ep0 Hp Hep0) as (q & Hq & Hle).
  { rewrite (ev_kind_proper _ _ Hs1). apply He. }
  rewrite (ev_tid_proper _ _ Hs1), <-(xt_thread _ _ _ He) in Hq.
  rewrite <-(thread_predecessor_proper _ _ Hs1) in Hq.
  eapply (causal_lt_irrefl h p); [apply Hok|]. eapply causal_le_lt_trans; [done|].
  apply tc_once, tpred_imm. by exists ep0.
Qed.

Lemma old_head_below x q :
  smap_find (ev_tid e) T = Some q → causal_le h x q → below h x e.
Proof.
  intros Hq Hle. exists q. split; [|done]. apply thread_predecessor_pred.
  by rewrite (xt_thread _ _ _ He).
Qed.

Lemma advanced_in x : in_heads u' advanced x ↔ x = p ∨ in_heads u T x.
Proof.
  unfold in_heads at 1. rewrite (dd_root _ _ _ _ _ Hdd). unfold advanced. split.
  - intros [->|(t & q & Hq & Hle)]; [right; apply in_heads_root|].
    destruct (smap_find_set (ev_tid e) t p T) as [[<- Hf]|[Hne Hf]]; rewrite Hf in Hq.
    + injection Hq as <-. apply dd_le in Hle as [->|Hb]; [by left | right; by apply xt_below].
    + right. pose proof (in_heads_head t q Hq) as HCq. apply (dd_le_old x q HCq) in Hle.
      by eapply in_heads_le.
  - intros [->|[->|(t & q & Hq & Hle)]]; [|by left|].
    + right. exists (ev_tid e), p. rewrite smap_find_set_eq. split; [done | reflexivity].
    + right. destruct (smap_find_set (ev_tid e) t p T) as [[<- Hf]|[Hne Hf]].
      * exists (ev_tid e), p. split; [done|]. apply dd_le. right. by eapply old_head_below.
      * exists t, q. split; [by rewrite Hf|]. apply dd_le_old; [by eapply in_heads_head | done].
Qed.

Lemma old_thread x ex :
  in_heads u T x → h !! x = Some ex → ev_tid ex = ev_tid e → below h x e.
Proof.
  intros Hx Hex Ht. destruct (ho_last _ _ HT x ex Hx Hex) as (q & Hq & Hle).
  - intros Hk. apply xt_tid. rewrite <-Ht. by apply (wf_tid _ _ (uo_wf _ Hok _ _ Hex)).
  - rewrite Ht in Hq. by eapply old_head_below.
Qed.

Lemma dd_tpred q x : in_heads u T x → tpred h' q x ↔ tpred h q x.
Proof.
  intros Hx. destruct (in_heads_stored x Hx) as [ex Hex]. unfold tpred, at_event.
  destruct (dd_ext _ _ _ _ _ Hdd x ex Hex) as (ex' & Hex' & Hs). rewrite Hex, Hex'.
  split; intros (? & [= <-] & Ht); eexists; (split; [done|]);
    [by rewrite (thread_predecessor_proper _ _ Hs) | by rewrite <-(thread_predecessor_proper _ _ Hs)].
Qed.

Lemma dd_tpred_new q : tpred h' q p ↔ smap_find (ev_tid e) T = Some q.
Proof.
  destruct (dd_core _ _ _ _ _ Hdd) as (ep & Hep & Hs). unfold tpred, at_event. rewrite Hep.
  rewrite <-(xt_thread _ _ _ He), (thread_predecessor_proper _ _ Hs). naive_solver.
Qed.

(** No event of the set has the old head, or nothing, before it on the
    thread of the new event. *)
Lemma dd_next q x : in_heads u T x → tpred h q x → smap_find (ev_tid e) T = Some q → False.
Proof.
  intros Hx Htp Hq. pose proof Htp as (ex & Hex & Htx).
  destruct (ho_head _ _ HT _ _ Hq) as (eq & Heq & Htq & Hkq).
  pose proof (tpred_tid h (uo_wf _ Hok) q x eq ex Heq Hex Htp) as Htid.
  destruct (ho_last _ _ HT x ex Hx Hex) as (q' & Hq' & Hle).
  { unfold thread_predecessor, ev_kind in *. by destruct (ev_data ex). }
  rewrite <-Htid, Htq in Hq'. assert (q' = q) as -> by congruence.
  eapply (causal_lt_irrefl h q); [apply Hok|]. eapply tc_rtc_r; [|done].
  by apply tc_once, tpred_imm.
Qed.

Lemma advanced_free : conflict_free h' (in_heads u' advanced).
Proof.
  destruct (dd_core _ _ _ _ _ Hdd) as (ep & Hep & Hs). split.
  - intros x [->|Hx]%advanced_in; [eauto|]. destruct (in_heads_stored x Hx) as [ex Hex].
    destruct (dd_ext _ _ _ _ _ Hdd x ex Hex) as (? & ? & _). eauto.
  - intros x y Hy Hle. apply advanced_in. apply advanced_in in Hy as [->|Hy].
    + apply dd_le in Hle as [->|Hb]; [by left | right; by apply xt_below].
    + right. apply (dd_le_old x y Hy) in Hle. by eapply in_heads_le.
  - assert (∀ y ey', in_heads u T y → h' !! y = Some ey' → thread_predecessor e = None →
      ev_tid e = ev_tid ey' → False) as Hno.
    { intros y ey' Hy Hey' Hnone Ht. destruct (dd_old y ey') as (ey & Hey & Hsy);
        [by apply in_heads_stored | done |].
      destruct (ho_last _ _ HT y ey Hy Hey) as (q & Hq & _).
      - intros Hk. apply xt_tid. rewrite Ht, <-(ev_tid_proper _ _ Hsy).
        by apply (wf_tid _ _ (uo_wf _ Hok _ _ Hey)).
      - rewrite (ev_tid_proper _ _ Hsy), <-Ht, <-(xt_thread _ _ _ He) in Hq. congruence. }
    intros x y ex ey [->|Hx]%advanced_in [->|Hy]%advanced_in Hex Hey Hnx Hny Ht; [done|exfalso|exfalso|].
    + assert (ex = ep) as -> by congruence. eapply (Hno y ey); try done;
        [by rewrite (thread_predecessor_proper _ _ Hs) | by rewrite (ev_tid_proper _ _ Hs)].
    + assert (ey = ep) as -> by congruence. eapply (Hno x ex); try done;
        [by rewrite (thread_predecessor_proper _ _ Hs) | by rewrite (ev_tid_proper _ _ Hs)].
    + pose proof (ext_conflict_free h h' _ (uo_wf _ Hok) (dd_ext _ _ _ _ _ Hdd) (ho_free _ _ HT)) as Hf.
      by eapply (cf_init _ _ Hf x y ex ey).
  - intros x y q [->|Hx]%advanced_in [->|Hy]%advanced_in Hqx Hqy; [done|exfalso|exfalso|].
    + apply dd_tpred_new in Hqx. apply (dd_tpred q y Hy) in Hqy. by eapply (dd_next q y).
    + apply dd_tpred_new in Hqy. apply (dd_tpred q x Hx) in Hqx. by eapply (dd_next q x).
    + apply (dd_tpred q x Hx) in Hqx. apply (dd_tpred q y Hy) in Hqy.
      by eapply (cf_thread _ _ (ho_free _ _ HT)).
Qed.

Lemma dd_independent x y ex ey ex' ey' :
  h !! x = Some ex → h' !! x = Some ex' → h !! y = Some ey → h' !! y = Some ey' →
  is_independent_of h' ex' ey' = is_independent_of h ex ey.
Proof.
  intros Hx Hx' Hy Hy'. symmetry.
  assert (∀ z ez ez', h !! z = Some ez → h' !! z = Some ez' → ind_eq h h' ez ez') as Hie.
  { intros z ez ez' Hz Hz'. destruct (dd_ext _ _ _ _ _ Hdd z ez Hz) as (? & ? & Hs).
    simplify_eq. apply ext_ind_eq; [apply Hdd | done | eapply wf_preds; by eapply (uo_wf _ Hok)]. }
  apply is_independent_of_eq; by eapply Hie.
Qed.

Lemma dd_independent_new y ep ey ey' :
  h' !! p = Some ep → h !! y = Some ey → h' !! y = Some ey' →
  is_independent_of h' ep ey' = is_independent_of h e ey ∧
  is_independent_of h' ey' ep = is_independent_of h e ey.
Proof.
  intros Hep Hy Hy'. assert (is_independent_of h' ep ey' = is_independent_of h e ey) as Heq.
  { destruct (dd_core _ _ _ _ _ Hdd) as (ep' & ? & Hs). assert (ep' = ep) as -> by congruence.
    destruct (dd_ext _ _ _ _ _ Hdd y ey Hy) as (ey'' & ? & Hsy).
    assert (ey'' = ey') as -> by congruence. symmetry.
    apply is_independent_of_eq; apply ext_ind_eq; try done; try apply Hdd; apply wf_preds;
      [apply He | by eapply (uo_wf _ Hok)]. }
  split; [done|]. pose proof (dd_ok _ _ _ _ _ Hdd) as Hok'.
  destruct (is_independent_of_sym h' ep ey') as (r & Hr & Hr'); [| |congruence];
    apply wf_ind_facts; try (by eapply (uo_wf _ Hok')); by eapply lc_ids, (uo_lc _ Hok').
Qed.

Lemma advanced_ok : heads_ok u' advanced.
Proof.
  destruct (dd_core _ _ _ _ _ Hdd) as (ep & Hep & Hs).
  assert (∀ x ex', in_heads u T x → h' !! x = Some ex' → ∃ ex, h !! x = Some ex ∧ same_core ex ex')
    as Hold by (intros; apply dd_old; [by apply in_heads_stored | done]).
  split.
  - apply smap_set_sorted, HT.
  - unfold advanced. intros t q. destruct (smap_find_set (ev_tid e) t p T) as [[<- ->]|[Hne ->]].
    + intros [= <-]. exists ep. split; [done|].
      rewrite <-(ev_tid_proper _ _ Hs), <-(ev_kind_proper _ _ Hs). split; [done | apply He].
    + intros Hq. eapply ext_is_event; [apply Hdd | by apply HT].
  - apply advanced_free.
  - unfold advanced. intros x ex Hx Hex Hk. apply advanced_in in Hx as [->|Hx].
    + assert (ex = ep) as -> by congruence. rewrite <-(ev_tid_proper _ _ Hs).
      rewrite smap_find_set_eq. exists p. split; [done | reflexivity].
    + destruct (Hold x ex Hx Hex) as (ex0 & Hex0 & Hs0).
      rewrite <-(ev_kind_proper _ _ Hs0) in Hk. rewrite <-(ev_tid_proper _ _ Hs0).
      destruct (ho_last _ _ HT x ex0 Hx Hex0 Hk) as (q & Hq & Hle).
      destruct (smap_find_set (ev_tid e) (ev_tid ex0) p T) as [[Ht ->]|[Hne ->]].
      * exists p. split; [done|]. apply dd_le. right. rewrite <-Ht in Hq. by eapply old_head_below.
      * exists q. split; [done|]. apply dd_le_old; [by eapply in_heads_head | done].
  - intros x y ex ey [->|Hx]%advanced_in [->|Hy]%advanced_in Hex Hey Hd; [left; reflexivity|..].
    + right. assert (ex = ep) as -> by congruence. destruct (Hold y ey Hy Hey) as (ey0 & Hey0 & _).
      destruct (dd_independent_new y ep ey0 ey) as [E _]; [done..|]. rewrite E in Hd.
      apply dd_le. right. by eapply (xt_dep _ _ _ He).
    + left. assert (ey = ep) as -> by congruence. destruct (Hold x ex Hx Hex) as (ex0 & Hex0 & _).
      destruct (dd_independent_new x ep ex0 ex) as [_ E]; [done..|]. rewrite E in Hd.
      apply dd_le. right. by eapply (xt_dep _ _ _ He).
    + destruct (Hold x ex Hx Hex) as (ex0 & Hex0 & _), (Hold y ey Hy Hey) as (ey0 & Hey0 & _).
      rewrite (dd_independent x y ex0 ey0 ex ey) in Hd by done.
      rewrite (dd_le_old x y Hy), (dd_le_old y x Hx). by eapply (ho_dep _ _ HT).
Qed.
End extend.
End heads.
