(* ===== verification/Booking.v ===== *)
(** * What [commit] books

    [commit] ends in a [switch] that updates the lock heads, the condition
    variable heads and the used ids. [booked] states its effect in one form
    for all kinds of events, and [update_heads_spec] shows that the [switch]
    returns and has this effect. *)

From stdpp Require Import base tactics list gmap numbers relations.
From S2P Require Import Prelude StdMap ThreadId Event Comb CombEnum CombProofs Cone Alloc Causality.
From S2P Require Import HeapExt Independence Unfolding Configuration Dependence.

Section booking.
Context {PL : Payload}.
Implicit Types (h : heap) (e : event) (c : configuration).

(** The events listed for a condition variable. *)
Definition cond_list c (k : cond_id_t) : list eid := default [] (smap_find k (cf_cond_heads c)).
Definition w2_list c (k : cond_id_t) : list eid := default [] (smap_find k (cf_w2_heads c)).

Record sorted_heads c : Prop := {
  sh_thread : smap_sorted (cf_thread_heads c);
  sh_lock : smap_sorted (cf_lock_heads c);
  sh_cond : smap_sorted (cf_cond_heads c);
  sh_w2 : smap_sorted (cf_w2_heads c);
}.

Record bookable h e (p : eid) c : Prop := {
  ba_wf : wf_event h e;
  ba_ids : ids_nonzero e;
  ba_sorted : sorted_heads c;
  ba_destroy : ev_kind e = lock_destroy → lock_predecessor e = None →
    smap_find (ev_lid e) (cf_lock_heads c) = None;
  ba_used_lock : ev_lid e ≠ 0%N → lock_predecessor e ≠ None →
    sset_has (ev_lid e) (cf_used_lock_ids c) = true;
  ba_used_cond : ev_cid e ≠ 0%N → condition_variable_predecessors e ≠ [] →
    sset_has (ev_cid e) (cf_used_cond_ids c) = true;
  ba_listed w : w ∈ notified h e → w ∈ cond_list c (ev_cid e);
  ba_nodup : NoDup (cond_list c (ev_cid e));
  ba_new : p ∉ cond_list c (ev_cid e);
  ba_create : ev_kind e = condition_variable_create →
    smap_find (ev_cid e) (cf_cond_heads c) = None;
  ba_cond_destroy : ev_kind e = condition_variable_destroy →
    condition_variable_predecessors e = [] → smap_find (ev_cid e) (cf_cond_heads c) = None;
}.

Record booked h e (p : eid) c c' : Prop := {
  bk_sorted : sorted_heads c';
  bk_addr : cf_addr c' = cf_addr c ∧ cf_last_extension c' = cf_last_extension c ∧
    cf_size c' = cf_size c;
  bk_thread : cf_thread_heads c' = cf_thread_heads c;
  bk_lock_ne l : l ≠ ev_lid e ∨ ev_lid e = 0%N →
    smap_find l (cf_lock_heads c') = smap_find l (cf_lock_heads c);
  bk_lock : ev_lid e ≠ 0%N → smap_find (ev_lid e) (cf_lock_heads c') =
    if decide (ev_kind e = lock_destroy) then None else Some p;
  bk_used_lock l : sset_has l (cf_used_lock_ids c') = true ↔
    sset_has l (cf_used_lock_ids c) = true ∨ (l = ev_lid e ∧ l ≠ 0%N);
  bk_cond_ne k : k ≠ ev_cid e ∨ ev_cid e = 0%N →
    smap_find k (cf_cond_heads c') = smap_find k (cf_cond_heads c) ∧
    smap_find k (cf_w2_heads c') = smap_find k (cf_w2_heads c);
  bk_cond : ev_cid e ≠ 0%N →
    match ev_kind e with
    | condition_variable_destroy => smap_find (ev_cid e) (cf_cond_heads c') = None ∧
        ∀ y, y ∈ w2_list c' (ev_cid e) → y ∈ w2_list c (ev_cid e)
    | wait2 =>
        smap_find (ev_cid e) (cf_cond_heads c') = smap_find (ev_cid e) (cf_cond_heads c) ∧
        ∀ y, y ∈ w2_list c' (ev_cid e) ↔ y = p ∨ y ∈ w2_list c (ev_cid e)
    | _ =>
        w2_list c' (ev_cid e) = w2_list c (ev_cid e) ∧
        ∃ l, smap_find (ev_cid e) (cf_cond_heads c') = Some l ∧ NoDup l ∧
          ∀ y, y ∈ l ↔ y = p ∨ (y ∈ cond_list c (ev_cid e) ∧ y ∉ notified h e)
    end;
  bk_used_cond k : sset_has k (cf_used_cond_ids c') = true ↔
    sset_has k (cf_used_cond_ids c) = true ∨ (k = ev_cid e ∧ k ≠ 0%N);
}.

(** ** The list operations of the [switch] *)

Lemma replace_first_spec w p l :
  w ∈ l → NoDup l → p ∉ l →
  ∃ l', replace_first w p l = Ok l' ∧ NoDup l' ∧ ∀ y, y ∈ l' ↔ y = p ∨ (y ∈ l ∧ y ≠ w).
Proof.
  induction l as [|x l IH]; [by intros ?%elem_of_nil|]. intros Hw [Hx Hnd]%NoDup_cons Hp.
  apply not_elem_of_cons in Hp as [Hpx Hp]. simpl. case_bool_decide as Heq.
  - subst x. exists (p :: l). split_and!; [done | by constructor |]. intros y.
    rewrite !elem_of_cons. split; [|naive_solver]. intros [->|Hy]; [by left|].
    right. split; [by right|]. by intros ->.
  - apply elem_of_cons in Hw as [->|Hw]; [done|].
    destruct (IH Hw Hnd Hp) as (l' & -> & Hnd' & Hl'). rewrite bind_Ok_l. exists (x :: l').
    split_and!; [done| |].
    + constructor; [|done]. rewrite Hl'. naive_solver.
    + intros y. rewrite !elem_of_cons, Hl'. naive_solver.
Qed.

Lemma append_spec (p : eid) (l : list eid) :
  NoDup l → p ∉ l → NoDup (l ++ [p]) ∧ ∀ y, y ∈ l ++ [p] ↔ y = p ∨ y ∈ l.
Proof.
  intros Hnd Hp. split.
  - apply NoDup_app. split_and!; [done | by intros x Hx ->%list_elem_of_singleton
      | apply NoDup_singleton].
  - intros y. rewrite elem_of_app, list_elem_of_singleton. tauto.
Qed.

Lemma remove_if_spec (ws : list eid) (p : eid) (l : list eid) :
  NoDup l → p ∉ l →
  NoDup (List.filter (λ x, negb (bool_decide (x ∈ ws))) l ++ [p]) ∧
  ∀ y, y ∈ List.filter (λ x, negb (bool_decide (x ∈ ws))) l ++ [p] ↔
    y = p ∨ (y ∈ l ∧ y ∉ ws).
Proof.
  intros Hnd Hp. set (f := λ x, negb (bool_decide (x ∈ ws))).
  assert (∀ y, y ∈ List.filter f l ↔ y ∈ l ∧ y ∉ ws) as Hf.
  { intros y. rewrite list_elem_of_In, List.filter_In, <-list_elem_of_In. unfold f.
    by rewrite negb_true_iff, bool_decide_eq_false. }
  destruct (append_spec p (List.filter f l)) as [H1 H2].
  - apply NoDup_ListNoDup, List.NoDup_filter, NoDup_ListNoDup. done.
  - rewrite Hf. naive_solver.
  - split; [done|]. intros y. by rewrite H2, Hf.
Qed.

(** ** The [switch] *)

Lemma lid_zero e : is_lock_event (ev_kind e) = false → ev_lid e = 0%N.
Proof. unfold ev_lid, ev_kind. by destruct (ev_data e). Qed.
Lemma cid_zero e : is_cond_event (ev_kind e) = false → ev_cid e = 0%N.
Proof. unfold ev_cid, ev_kind. by destruct (ev_data e). Qed.

Lemma signal_notified h e :
  wf_event h e → ev_kind e = signal →
  (∃ w, signal_wait_predecessor h e = Ok (Some w) ∧ notified h e = [w]) ∨
  (signal_wait_predecessor h e = Ok None ∧ notified h e = []).
Proof.
  intros Hwf Hk. pose proof (wf_preds _ _ Hwf) as Hpr.
  unfold signal_wait_predecessor, notified, cps_lost, ev_kind, predecessors in *.
  destruct (ev_data e) as [| | | | | | | | | | | | | |tp [|w []] k|]; try done; simpl in *; try (by right).
  destruct (Hpr w) as [ew Hw]; [set_solver|]. unfold deref. rewrite Hw. simpl.
  destruct (kind_eqb (data_kind (ev_data ew)) wait1); simpl; [left; by exists w | by right].
Qed.

Lemma broadcast_notified_list h e :
  wf_event h e → ev_kind e = broadcast →
  ∃ lost, broadcast_is_lost e = Ok lost ∧ broadcast_wait_predecessors e = Ok (notified h e) ∧
    (lost = true → notified h e = []).
Proof.
  intros Hwf Hk. unfold broadcast_is_lost, broadcast_wait_predecessors, notified, ev_kind in *.
  destruct (ev_data e) as [| | | | | | | | | | | | | | |tp cps n k]; try done.
  eexists. split_and!; [done..|]. by intros ->%Nat.eqb_eq.
Qed.

Lemma notified_nil h e : is_notification (ev_kind e) = false → notified h e = [].
Proof. unfold notified, ev_kind. by destruct (ev_data e). Qed.

Section switch.
Context (h : heap) (e : event) (p : eid) (c : configuration).
Hypothesis Hb : bookable h e p c.

(** The lock heads after setting or erasing an entry. *)
Lemma set_lock_find (l : lock_id_t) :
  (l ≠ ev_lid e → smap_find l (smap_set (ev_lid e) p (cf_lock_heads c)) =
    smap_find l (cf_lock_heads c)) ∧
  smap_find (ev_lid e) (smap_set (ev_lid e) p (cf_lock_heads c)) = Some p.
Proof.
  split; [|apply smap_find_set_eq]. intros Hne. by rewrite smap_find_set_ne.
Qed.

(** The effect on the condition variable's list, from its new value. *)
Lemma set_cond_booked l :
  NoDup l → (∀ y, y ∈ l ↔ y = p ∨ (y ∈ cond_list c (ev_cid e) ∧ y ∉ notified h e)) →
  ∃ l', smap_find (ev_cid e) (smap_set (ev_cid e) l (cf_cond_heads c)) = Some l' ∧ NoDup l' ∧
    ∀ y, y ∈ l' ↔ y = p ∨ (y ∈ cond_list c (ev_cid e) ∧ y ∉ notified h e).
Proof. intros. exists l. by rewrite smap_find_set_eq. Qed.

Lemma append_booked :
  notified h e = [] →
  NoDup (cond_list c (ev_cid e) ++ [p]) ∧
  ∀ y, y ∈ cond_list c (ev_cid e) ++ [p] ↔
    y = p ∨ (y ∈ cond_list c (ev_cid e) ∧ y ∉ notified h e).
Proof.
  intros ->. destruct (append_spec p (cond_list c (ev_cid e))) as [H1 H2]; [apply Hb..|].
  split; [done|]. intros y. rewrite H2. set_solver.
Qed.

Lemma use_if_first_has k :
  ev_cid e ≠ 0%N →
  sset_has k (cf_used_cond_ids (if no_cond_predecessors e then use_cond_id (ev_cid e) c else c)) = true
  ↔ sset_has k (cf_used_cond_ids c) = true ∨ (k = ev_cid e ∧ k ≠ 0%N).
Proof.
  intros Hn. unfold no_cond_predecessors.
  destruct (condition_variable_predecessors e) as [|q l] eqn:Hc; simpl.
  - rewrite sset_has_insert. naive_solver.
  - split; [by left|]. intros [?|[-> _]]; [done|]. apply Hb; [done|]. by rewrite Hc.
Qed.

Lemma used_lock_has k :
  ev_lid e ≠ 0%N → lock_predecessor e ≠ None →
  sset_has k (cf_used_lock_ids c) = true ↔
  sset_has k (cf_used_lock_ids c) = true ∨ (k = ev_lid e ∧ k ≠ 0%N).
Proof. intros Hn Hl. split; [by left|]. intros [?|[-> _]]; [done|]. by apply Hb. Qed.

Definition same_maps c1 : Prop :=
  sorted_heads c1 ∧ cf_addr c1 = cf_addr c ∧ cf_last_extension c1 = cf_last_extension c ∧
  cf_size c1 = cf_size c ∧ cf_thread_heads c1 = cf_thread_heads c ∧
  cf_lock_heads c1 = cf_lock_heads c ∧ cf_cond_heads c1 = cf_cond_heads c ∧
  cf_w2_heads c1 = cf_w2_heads c ∧ cf_used_cond_ids c1 = cf_used_cond_ids c.

Lemma same_maps_refl : same_maps c.
Proof. split; [apply Hb | done]. Qed.

Lemma same_maps_use l : same_maps (use_lock_id l c).
Proof. split; [|done]. destruct (ba_sorted _ _ _ _ Hb). by split. Qed.

Lemma booked_lock c1 :
  ev_lid e ≠ 0%N → ev_cid e = 0%N → ev_kind e ≠ lock_destroy →
  same_maps c1 →
  (∀ l, sset_has l (cf_used_lock_ids c1) = true ↔
    sset_has l (cf_used_lock_ids c) = true ∨ (l = ev_lid e ∧ l ≠ 0%N)) →
  booked h e p c (set_lock_head (ev_lid e) p c1).
Proof.
  intros Hn Hc Hk ([] & E1 & E2 & E3 & E4 & E5 & E6 & E7 & E8) Hu.
  split; simpl; rewrite ?E1, ?E2, ?E3, ?E4, ?E5, ?E6, ?E7, ?E8, ?Hc; try done.
  - split; simpl; rewrite ?E5; try congruence. apply smap_set_sorted. congruence.
  - intros l [Hne|?]; [by apply set_lock_find | done].
  - intros _. rewrite decide_False by done. by apply set_lock_find.
  - intros k. split; [by left|]. by intros [?|[-> ?]].
Qed.

Lemma booked_notification l :
  is_notification (ev_kind e) = true → NoDup l →
  (∀ y, y ∈ l ↔ y = p ∨ (y ∈ cond_list c (ev_cid e) ∧ y ∉ notified h e)) →
  booked h e p c (set_cond_heads (smap_set (ev_cid e) l (cf_cond_heads c))
    (if no_cond_predecessors e then use_cond_id (ev_cid e) c else c)).
Proof.
  intros Hn Hnd Hl. destruct (ba_sorted _ _ _ _ Hb) as [Hs1 Hs2 Hs3 Hs4].
  assert (ev_lid e = 0%N) as Hl0 by (apply lid_zero; by destruct (ev_kind e)).
  assert (ev_cid e ≠ 0%N) as Hc0.
  { apply N.eqb_neq. rewrite (if_cid _ _ (wf_ind_facts h e (ba_wf _ _ _ _ Hb) (ba_ids _ _ _ _ Hb))).
    by destruct (ev_kind e). }
  split; simpl; rewrite ?Hl0; try done.
  all: try (by destruct (no_cond_predecessors e)).
  - destruct (no_cond_predecessors e); (split; simpl; [done | done | by apply smap_set_sorted | done]).
  - intros l0. destruct (no_cond_predecessors e); simpl; naive_solver.
  - intros k [Hne|?]; [|done]. split; [by rewrite smap_find_set_ne|].
    by destruct (no_cond_predecessors e).
  - intros _. pose proof (set_cond_booked l Hnd Hl) as Hsc.
    assert (w2_list (set_cond_heads (smap_set (ev_cid e) l (cf_cond_heads c))
      (if no_cond_predecessors e then use_cond_id (ev_cid e) c else c)) (ev_cid e) =
      w2_list c (ev_cid e)) as Hw by (by destruct (no_cond_predecessors e)).
    destruct (ev_kind e); done.
  - intros k. by apply use_if_first_has.
Qed.

Lemma update_heads_spec : ∃ c', update_heads h p e c = Ok c' ∧ booked h e p c c'.
Proof.
  destruct Hb as [Hwf Hids [Hs1 Hs2 Hs3 Hs4] Hds Hul Huc Hls Hnd Hnew Hcr Hcd].
  pose proof (if_lid _ _ (wf_ind_facts h e Hwf Hids)) as Hl0.
  pose proof (if_cid _ _ (wf_ind_facts h e Hwf Hids)) as Hc0.
  unfold update_heads. destruct (ev_kind e) eqn:Hk; simpl in Hl0, Hc0;
    first [apply N.eqb_eq in Hl0 | apply N.eqb_neq in Hl0];
    first [apply N.eqb_eq in Hc0 | apply N.eqb_neq in Hc0].
  all: try (exists c; split; [done|]; split; rewrite ?Hl0, ?Hc0; try done;
    [intros l; split; [by left|]; by intros [?|[? ?]] | intros l; split; [by left|]; by intros [?|[? ?]]]).
  - (* lock_create *)
    eexists. split; [reflexivity|]. apply booked_lock; [done | done | by rewrite Hk | apply same_maps_use |].
    intros l. simpl. rewrite sset_has_insert. naive_solver.
  - (* lock_destroy *)
    destruct (lock_predecessor e) as [lp|] eqn:Hlp; (eexists; split; [reflexivity|]); split; simpl;
      rewrite ?Hk, ?Hc0; try done.
    + split; simpl; try done; by apply smap_erase_sorted.
    + intros l [Hne|?]; [|done]. by rewrite smap_find_erase_ne.
    + intros _. by apply smap_find_erase_eq.
    + intros l. apply used_lock_has; [done|]. by rewrite Hlp.
    + intros k. naive_solver.
    + intros _. by apply Hds.
    + intros l. rewrite sset_has_insert. naive_solver.
    + intros k. naive_solver.
  - (* lock_acquire *)
    eexists. split; [reflexivity|].
    destruct (lock_predecessor e) as [lp|] eqn:Hlp; apply booked_lock; try done; try (by rewrite Hk);
      try apply same_maps_refl; try apply same_maps_use.
    + intros l. apply used_lock_has; [done|]. by rewrite Hlp.
    + intros l. simpl. rewrite sset_has_insert. naive_solver.
  - (* lock_release *)
    eexists. split; [reflexivity|]. apply booked_lock; [done | done | by rewrite Hk | apply same_maps_refl |].
    intros l. apply used_lock_has; [done|]. unfold lock_predecessor, ev_kind in *. by destruct (ev_data e).
  - (* condition_variable_create *)
    eexists. split; [reflexivity|]. split; simpl; rewrite ?Hl0; try done.
    + split; simpl; try done; by apply smap_emplace_sorted.
    + intros l. naive_solver.
    + intros k [Hne|?]; [|done]. unfold smap_emplace. rewrite (Hcr eq_refl).
      by rewrite smap_find_set_ne.
    + intros _. rewrite Hk. split; [done|]. unfold smap_emplace. rewrite (Hcr eq_refl).
      apply set_cond_booked; [apply NoDup_singleton|]. intros y.
      unfold cond_list. rewrite (Hcr eq_refl). simpl. set_solver.
    + intros k. rewrite sset_has_insert. naive_solver.
  - (* condition_variable_destroy *)
    unfold no_cond_predecessors. destruct (condition_variable_predecessors e) as [|q l] eqn:Hq;
      (eexists; split; [reflexivity|]); split; simpl; rewrite ?Hl0; try done.
    + intros l. naive_solver.
    + intros _. rewrite Hk. split; [by apply Hcd | done].
    + intros k. rewrite sset_has_insert. naive_solver.
    + split; simpl; try done; by apply smap_erase_sorted.
    + intros l'. naive_solver.
    + intros k [Hne|?]; [|done]. by rewrite !smap_find_erase_ne.
    + intros _. rewrite Hk, smap_find_erase_eq by done. split; [done|]. intros y.
      unfold w2_list at 1. simpl. rewrite smap_find_erase_eq by done. by intros ?%elem_of_nil.
    + intros k. split; [by left|]. intros [?|[-> _]]; [done|]. by apply Huc.
  - (* wait1 *)
    eexists. split; [reflexivity|]. split; simpl.
    + destruct (no_cond_predecessors e); split; simpl; try done; by apply smap_set_sorted.
    + by destruct (no_cond_predecessors e).
    + by destruct (no_cond_predecessors e).
    + intros l [Hne|?]; [|done]. destruct (no_cond_predecessors e); simpl; by rewrite smap_find_set_ne.
    + intros _. rewrite decide_False by congruence.
      destruct (no_cond_predecessors e); simpl; apply smap_find_set_eq.
    + intros l. destruct (no_cond_predecessors e); simpl; (apply used_lock_has; [done|]);
        unfold lock_predecessor, ev_kind in *; by destruct (ev_data e).
    + intros k [Hne|?]; [|done]. split; [by rewrite smap_find_set_ne|].
      by destruct (no_cond_predecessors e).
    + intros _. rewrite Hk. split; [unfold w2_list; by destruct (no_cond_predecessors e)|].
      apply set_cond_booked; apply append_booked; apply notified_nil; by rewrite Hk.
    + intros k. by apply use_if_first_has.
  - (* wait2 *)
    eexists. split; [reflexivity|]. split; simpl.
    + split; simpl; try done; by apply smap_set_sorted.
    + done.
    + done.
    + intros l [Hne|?]; [|done]. by rewrite smap_find_set_ne.
    + intros _. rewrite decide_False by congruence. apply smap_find_set_eq.
    + intros l. apply used_lock_has; [done|]. unfold lock_predecessor, ev_kind in *. by destruct (ev_data e).
    + intros k [Hne|?]; [|done]. split; [done|]. by rewrite smap_find_set_ne.
    + intros _. rewrite Hk. split; [done|]. intros y. unfold w2_list at 1. simpl.
      rewrite smap_find_set_eq. simpl. rewrite elem_of_app, list_elem_of_singleton.
      unfold w2_list. tauto.
    + intros k. split; [by left|]. intros [?|[-> _]]; [done|]. apply Huc; [done|].
      unfold condition_variable_predecessors, ev_kind in *. by destruct (ev_data e).
  - (* signal *)
    assert (∃ wp l', signal_wait_predecessor h e = Ok wp ∧
      (match wp with Some w => replace_first w p (default [] (smap_find (ev_cid e) (cf_cond_heads c)))
       | None => Ok (default [] (smap_find (ev_cid e) (cf_cond_heads c)) ++ [p]) end) = Ok l' ∧
      NoDup l' ∧ ∀ y, y ∈ l' ↔ y = p ∨ (y ∈ cond_list c (ev_cid e) ∧ y ∉ notified h e))
      as (wp & l' & -> & Hl' & Hndl & Hml).
    { destruct (signal_notified h e Hwf Hk) as [(w & -> & Hn)|[-> Hn]].
      - destruct (replace_first_spec w p (cond_list c (ev_cid e))) as (l' & Hr & Hnd' & Hm);
          [apply Hls; rewrite Hn; by left | done | done |].
        exists (Some w), l'. split_and!; [done..|]. intros y. rewrite Hm, Hn. set_solver.
      - exists None. eexists. split_and!; [done | done | by apply append_booked..]. }
    rewrite bind_Ok_l, Hl', bind_Ok_l. eexists. split; [reflexivity|].
    apply booked_notification; [by rewrite Hk | done..].
  - (* broadcast *)
    destruct (broadcast_notified_list h e Hwf Hk) as (lost & -> & -> & Hlost).
    rewrite !bind_Ok_l. eexists. split; [reflexivity|].
    destruct (remove_if_spec (notified h e) p (cond_list c (ev_cid e)) Hnd Hnew) as [H1 H2].
    destruct lost.
    + destruct (append_booked (Hlost eq_refl)) as [H3 H4].
      apply booked_notification; [by rewrite Hk | done..].
    + apply booked_notification; [by rewrite Hk | done..].
Qed.
End switch.
End booking.
