(* ===== verification/ConfInv.v ===== *)
(** * The configuration's invariant

    [conf_ok] relates the heads that a configuration keeps to the set of its
    events: the lock head is the last event on its lock, the list of a
    condition variable holds every event on it but the notified [wait1]s and
    the [wait2]s, a [wait1] is notified once and followed by its [wait2].
    [commit_spec] shows that committing an event that meets the conditions
    [committable] returns and keeps the invariant. *)

From stdpp Require Import base tactics list gmap numbers relations.
From S2P Require Import Prelude StdMap ThreadId Event Comb CombEnum CombProofs Cone Alloc Causality.
From S2P Require Import HeapExt Order Walks Independence Unfolding Configuration ColorProofs.
From S2P Require Import UnfoldingProofs DedupProofs Dependence Heads Booking.

Section invariant.
Context {PL : Payload} {AL : Allocator}.
Implicit Types (h : heap) (e : event) (u : unfolding) (c : configuration).

(** The events of a configuration. *)
Definition in_conf u c : eid → Prop := in_heads u (cf_thread_heads c).

(** Where an event on a condition variable is kept. *)
Definition listed h c (x : eid) e : Prop :=
  match ev_kind e with
  | wait2 => x ∈ w2_list c (ev_cid e)
  | wait1 => x ∈ cond_list c (ev_cid e) ∨
      ∃ n, n ∈ cond_list c (ev_cid e) ∧ notifies h n x
  | condition_variable_destroy => False
  | _ => x ∈ cond_list c (ev_cid e)
  end.

(** A broadcast or a lost signal: no [wait1] is left waiting after it. *)
Definition settled h e : Prop :=
  ev_kind e = broadcast ∨ (ev_kind e = signal ∧ notified h e = []).

(** [x] is at or before the lock predecessor of the event. *)
Definition before_lock_predecessor h (x : eid) e : Prop :=
  ∃ lp, lock_predecessor e = Some lp ∧ causal_le h x lp.

Record conf_ok u c : Prop := {
  co_uf : uf_ok u;
  co_heads : heads_ok u (cf_thread_heads c);
  co_sorted : sorted_heads c;
  co_lock l p : smap_find l (cf_lock_heads c) = Some p →
    l ≠ 0%N ∧ in_conf u c p ∧ at_event (uf_heap u) p (λ e, ev_lid e = l);
  co_locks x e : in_conf u c x → uf_heap u !! x = Some e → ev_lid e ≠ 0%N →
    sset_has (ev_lid e) (cf_used_lock_ids c) = true ∧
    ∀ p, smap_find (ev_lid e) (cf_lock_heads c) = Some p → causal_le (uf_heap u) x p;
  co_cond k p : p ∈ cond_list c k → in_conf u c p ∧ at_event (uf_heap u) p (λ e,
    ev_cid e = k ∧ ev_kind e ∈ [condition_variable_create; wait1; signal; broadcast]);
  co_nodup k : NoDup (cond_list c k);
  co_w2 k p : p ∈ w2_list c k → in_conf u c p ∧
    at_event (uf_heap u) p (λ e, ev_cid e = k ∧ ev_kind e = wait2);
  co_conds x e : in_conf u c x → uf_heap u !! x = Some e → ev_cid e ≠ 0%N →
    sset_has (ev_cid e) (cf_used_cond_ids c) = true ∧
    (is_Some (smap_find (ev_cid e) (cf_cond_heads c)) → listed (uf_heap u) c x e);
  co_waiting k w n : w ∈ cond_list c k → in_conf u c n → ¬ notifies (uf_heap u) n w;
  co_one n n' w : in_conf u c n → in_conf u c n' →
    notifies (uf_heap u) n w → notifies (uf_heap u) n' w → n = n';
  co_wake x w : in_conf u c x → tpred (uf_heap u) w x →
    at_event (uf_heap u) w (λ e, ev_kind e = wait1) →
    at_event (uf_heap u) x (λ e, ev_kind e = wait2);
  co_woken x e tp np lp cid lid b : in_conf u c x → uf_heap u !! x = Some e →
    ev_data e = Wait2 tp np lp cid lid b → notifies (uf_heap u) np tp;
  co_create x y ex ey t : in_conf u c x → in_conf u c y →
    uf_heap u !! x = Some ex → uf_heap u !! y = Some ey →
    created_tid ex = Ok t → created_tid ey = Ok t → x = y;
  co_first x y ex ey : in_conf u c x → in_conf u c y →
    uf_heap u !! x = Some ex → uf_heap u !! y = Some ey →
    ev_kind ex = condition_variable_create → ev_cid ey = ev_cid ex → causal_le (uf_heap u) x y;
  co_before x w ex : in_conf u c x → uf_heap u !! x = Some ex → settled (uf_heap u) ex →
    w ∈ cond_list c (ev_cid ex) → at_event (uf_heap u) w (λ e, ev_kind e = wait1) →
    causal_le (uf_heap u) x w;
  co_chain x y ex ey : in_conf u c x → in_conf u c y →
    uf_heap u !! x = Some ex → uf_heap u !! y = Some ey → x ≠ y →
    ev_lid ex ≠ 0%N → ev_lid ey = ev_lid ex →
    before_lock_predecessor (uf_heap u) x ey ∨ before_lock_predecessor (uf_heap u) y ex;
  co_live k l : smap_find k (cf_cond_heads c) = Some l → l ≠ [];
  co_held l p : smap_find l (cf_lock_heads c) = Some p →
    at_event (uf_heap u) p (λ e, ev_kind e ≠ lock_destroy);
}.

(** The lock predecessor of a new event is the lock's head, or the lock is
    new. *)
Definition lock_ready c e : Prop :=
  ev_lid e ≠ 0%N →
  match lock_predecessor e with
  | Some lp => smap_find (ev_lid e) (cf_lock_heads c) = Some lp
  | None => sset_has (ev_lid e) (cf_used_lock_ids c) = false
  end.

Record committable u c e : Prop := {
  cm_extends : extends u (cf_thread_heads c) e;
  cm_lock : lock_ready c e;
  cm_live : ev_cid e ≠ 0%N → smap_find (ev_cid e) (cf_cond_heads c) = None →
    sset_has (ev_cid e) (cf_used_cond_ids c) = false ∧ condition_variable_predecessors e = [];
  cm_notified w : w ∈ notified (uf_heap u) e → w ∈ cond_list c (ev_cid e);
  cm_cond_create : ev_kind e = condition_variable_create →
    smap_find (ev_cid e) (cf_cond_heads c) = None;
  cm_cond_destroy : ev_kind e = condition_variable_destroy →
    condition_variable_predecessors e = [] → smap_find (ev_cid e) (cf_cond_heads c) = None;
  cm_wake w : thread_predecessor e = Some w →
    at_event (uf_heap u) w (λ x, ev_kind x = wait1) → ev_kind e = wait2;
  cm_woken tp np lp cid lid b : ev_data e = Wait2 tp np lp cid lid b → notifies (uf_heap u) np tp;
  cm_create t x ex : created_tid e = Ok t → in_conf u c x → uf_heap u !! x = Some ex →
    created_tid ex ≠ Ok t;
  cm_cond x ex : in_conf u c x → uf_heap u !! x = Some ex → ev_cid ex = ev_cid e →
    ev_cid e ≠ 0%N → cond_dep (uf_heap u) e ex → below (uf_heap u) x e;
  cm_missed w : settled (uf_heap u) e → w ∈ cond_list c (ev_cid e) →
    at_event (uf_heap u) w (λ x, ev_kind x = wait1) → w ∈ notified (uf_heap u) e;
}.

(** Notification reads immutable fields only. *)
Lemma notified_ext h h' e e' :
  heap_ext h h' → same_core e e' → (∀ q, q ∈ predecessors e → is_Some (h !! q)) →
  notified h e = notified h' e'.
Proof.
  intros Hext Hs Hpr. pose proof (core_data _ _ Hs) as Hd. unfold notified, predecessors in *.
  destruct (ev_data e) as [| | | | | | | | | | | | | |tp [|w []] k|tp cps n k],
    (ev_data e'); simpl in Hd; try discriminate Hd; simplify_eq/=; try done.
  destruct (Hpr w) as [ew Hw]; [set_solver|]. destruct (Hext w ew Hw) as (ew' & Hw' & Hsw).
  by rewrite Hw, Hw', (ev_kind_proper _ _ Hsw).
Qed.

Lemma created_tid_core e e' : same_core e e' → created_tid e = created_tid e'.
Proof.
  intros [_ Hd _ _]. unfold created_tid.
  destruct (ev_data e), (ev_data e'); simpl in Hd; by simplify_eq.
Qed.

Lemma uf_ok_stats u f : uf_ok u → uf_ok (upd_stats f u).
Proof. intros []. by split. Qed.

Section commit.
Context (u : unfolding) (c : configuration) (e : event).
Abbreviation h := (uf_heap u).
Abbreviation T := (cf_thread_heads c).
Hypothesis Hco : conf_ok u c.
Hypothesis Hcm : committable u c e.
Context (u' : unfolding) (unknown : bool) (p : eid).
Hypothesis Hdd : deduplicated e u u' unknown p.
Abbreviation h' := (uf_heap u').

Lemma uf_of_conf : uf_ok u. Proof. apply Hco. Qed.
Lemma heads_of_conf : heads_ok u T. Proof. apply Hco. Qed.
Lemma extends_of_cm : extends u T e. Proof. apply Hcm. Qed.
Hint Resolve uf_of_conf heads_of_conf extends_of_cm : core.

(** An event of the configuration and its copy in the new heap. *)
Lemma old_event x ex' :
  in_conf u c x → h' !! x = Some ex' → ∃ ex, h !! x = Some ex ∧ same_core ex ex'.
Proof.
  intros Hx. eapply dd_old; [done|]. by eapply in_heads_stored.
Qed.

Lemma new_core ep : h' !! p = Some ep → same_core e ep.
Proof. intros Hp. destruct (dd_core _ _ _ _ _ Hdd) as (ep' & ? & ?). congruence. Qed.

Lemma not_new x : in_conf u c x → x ≠ p.
Proof. intros Hx ->. by eapply (dd_not_in u T). Qed.

Lemma old_notifies n w : in_conf u c n → notifies h' n w ↔ notifies h n w.
Proof.
  intros Hn. destruct (in_heads_stored u T heads_of_conf n Hn) as [en Hen].
  destruct (dd_ext _ _ _ _ _ Hdd n en Hen) as (en' & Hen' & Hs).
  unfold notifies, at_event. rewrite Hen, Hen'.
  assert (notified h en = notified h' en') as Heq.
  { apply notified_ext; [apply Hdd | done |]. apply wf_preds. by eapply (uo_wf _ uf_of_conf). }
  split; intros (? & [= <-] & ?); eexists; (split; [done|]); congruence.
Qed.

Lemma new_notifies w : notifies h' p w ↔ w ∈ notified h e.
Proof.
  destruct (dd_core _ _ _ _ _ Hdd) as (ep & Hep & Hs). unfold notifies, at_event. rewrite Hep.
  rewrite (notified_ext h h' e ep); [naive_solver | apply Hdd | done |].
  apply wf_preds, extends_of_cm.
Qed.

(** Everything a new event notifies is an event of the configuration. *)
Lemma notified_in w : w ∈ notified h e → in_conf u c w.
Proof. intros Hw%(cm_notified _ _ _ Hcm). by eapply (co_cond _ _ Hco). Qed.

Lemma notifies_in n w : in_conf u c n → notifies h n w → in_conf u c w.
Proof.
  intros Hn (en & Hen & Hw). eapply (in_heads_le u T heads_of_conf w n); [done|].
  apply rtc_once. exists en. split; [done|].
  by apply condition_variable_predecessors_pred, (notified_pred h).
Qed.

(** The two ids are in use when the event has predecessors on them. *)
Lemma lock_used : ev_lid e ≠ 0%N → lock_predecessor e ≠ None →
  sset_has (ev_lid e) (cf_used_lock_ids c) = true.
Proof.
  intros Hl Hp. destruct (lock_predecessor e) as [lp|] eqn:Hlp; [|done].
  pose proof (cm_lock _ _ _ Hcm Hl) as Hr. rewrite Hlp in Hr.
  destruct (co_lock _ _ Hco _ _ Hr) as (_ & Hin & el & Hel & Hlid).
  destruct (co_locks _ _ Hco lp el Hin Hel) as [Hu _]; [congruence|]. by rewrite <-Hlid.
Qed.

Lemma cond_pred_cid :
  condition_variable_predecessors e ≠ [] →
  ∃ q, q ∈ predecessors e ∧ at_event h q (λ x, ev_cid x = ev_cid e).
Proof.
  intros Hne. assert (∃ q, q ∈ condition_variable_predecessors e ∧
    at_event h q (λ x, ev_cid x = ev_cid e)) as (q & Hq & Hat);
    [|exists q; split; [by apply condition_variable_predecessors_pred | done]].
  pose proof (wf_class _ _ (xt_wf _ _ _ extends_of_cm)) as Hcl.
  unfold class_ok, condition_variable_predecessors, cond_preds_ok in *.
  assert (∀ cps k, ev_cid e = k → cps ≠ [] → cond_preds_ok h k cps →
    ∃ q, q ∈ cps ∧ at_event h q (λ x, ev_cid x = ev_cid e)) as Hgo.
  { intros [|q cps] k <- Hnil Hok; [done|]. exists q. split; [by left|].
    destruct (Hok q) as (x & ? & _ & ?); [by left|]. by exists x. }
  destruct (ev_data e) eqn:Hd; try done;
    try (by apply (Hgo _ cid); [unfold ev_cid; by rewrite Hd | done | naive_solver]).
  destruct Hcl as (_ & (x & Hx & _ & Hcid & _) & _). exists np. split; [set_solver|].
  exists x. unfold ev_cid at 2. by rewrite Hd.
Qed.

Lemma cond_used : ev_cid e ≠ 0%N → condition_variable_predecessors e ≠ [] →
  sset_has (ev_cid e) (cf_used_cond_ids c) = true.
Proof.
  intros Hc (q & Hq & eq & Heq & Hcid)%cond_pred_cid.
  destruct (co_conds _ _ Hco q eq) as [Hu _];
    [by apply (xt_preds _ _ _ extends_of_cm) | done | congruence |]. by rewrite <-Hcid.
Qed.

Lemma bookable_of_cm ep :
  h' !! p = Some ep → bookable h' ep p (advance_thread (ev_tid ep) p c).
Proof.
  intros Hep. pose proof (new_core ep Hep) as Hs.
  pose proof (dd_ok _ _ _ _ _ Hdd) as Hok'.
  assert (notified h' ep = notified h e) as Hn.
  { symmetry. apply notified_ext; [apply Hdd | done |]. apply wf_preds, extends_of_cm. }
  pose proof (co_sorted _ _ Hco) as [Hs1 Hs2 Hs3 Hs4].
  split; rewrite <-?(ev_kind_proper _ _ Hs), <-?(ev_lid_proper _ _ Hs), <-?(ev_cid_proper _ _ Hs),
    <-?(lock_predecessor_proper _ _ Hs), <-?(condition_variable_predecessors_proper _ _ Hs), ?Hn.
  - by eapply (uo_wf _ Hok').
  - by eapply lc_ids, (uo_lc _ Hok').
  - split; simpl; try done. by apply smap_set_sorted.
  - intros Hk Hnone. simpl. pose proof (xt_ids _ _ _ extends_of_cm) as Hi.
    pose proof (cm_lock _ _ _ Hcm) as Hr. unfold lock_ready in Hr. rewrite Hnone in Hr.
    destruct (smap_find _ _) as [q|] eqn:Hq; [|done]. exfalso.
    destruct (co_lock _ _ Hco _ _ Hq) as (Hl & Hin & eq & Heq & Hlid).
    destruct (co_locks _ _ Hco q eq Hin Heq) as [Hu _]; [congruence|].
    rewrite Hlid, Hr in Hu; done.
  - apply lock_used.
  - apply cond_used.
  - apply Hcm.
  - apply (co_nodup _ _ Hco).
  - intros Hp. apply (co_cond _ _ Hco) in Hp as [Hp _]. by eapply not_new.
  - apply Hcm.
  - apply Hcm.
Qed.

Section booked.
Context (ep : event) (c' : configuration).
Hypothesis Hep : h' !! p = Some ep.
Hypothesis Hbk : booked h' ep p (advance_thread (ev_tid ep) p c) c'.

Lemma ep_core : same_core e ep. Proof. by apply new_core. Qed.

Lemma conf_in x : in_conf u' c' x ↔ x = p ∨ in_conf u c x.
Proof.
  unfold in_conf. rewrite (bk_thread _ _ _ _ _ Hbk). simpl.
  rewrite <-(ev_tid_proper _ _ ep_core). by eapply advanced_in.
Qed.

Lemma heads_booked : heads_ok u' (cf_thread_heads c').
Proof.
  rewrite (bk_thread _ _ _ _ _ Hbk). simpl. rewrite <-(ev_tid_proper _ _ ep_core).
  by eapply advanced_ok.
Qed.

Lemma old_at x (Φ : event → Prop) :
  Proper (same_core ==> iff) Φ → in_conf u c x → at_event h' x Φ ↔ at_event h x Φ.
Proof.
  intros HΦ Hx. split.
  - intros (ex' & Hex' & Hp). destruct (old_event x ex' Hx Hex') as (ex & Hex & Hs).
    exists ex. split; [done|]. by apply (HΦ _ _ Hs).
  - apply ext_at_event; [apply Hdd | done].
Qed.

Lemma old_le x y : in_conf u c y → causal_le h' x y ↔ causal_le h x y.
Proof. intros Hy. by eapply (dd_le_old u T). Qed.

Lemma le_new x : causal_le h' x p ↔ x = p ∨ below h x e.
Proof. by eapply (dd_le u T). Qed.

(** The new lists of the condition variables. *)
Lemma cond_find_ne k :
  k ≠ ev_cid e ∨ ev_cid e = 0%N →
  smap_find k (cf_cond_heads c') = smap_find k (cf_cond_heads c) ∧
  cond_list c' k = cond_list c k ∧ w2_list c' k = w2_list c k.
Proof.
  intros Hk. destruct (bk_cond_ne _ _ _ _ _ Hbk k) as [E1 E2].
  { by rewrite <-(ev_cid_proper _ _ ep_core). }
  unfold cond_list, w2_list. simpl in E1, E2. by rewrite E1, E2.
Qed.

Lemma notified_new : notified h' ep = notified h e.
Proof.
  symmetry. apply notified_ext; [apply Hdd | apply ep_core |]. apply wf_preds, extends_of_cm.
Qed.

(** [bk_cond] in terms of the event that was committed. *)
Lemma cond_booked : ev_cid e ≠ 0%N →
  match ev_kind e with
  | condition_variable_destroy => smap_find (ev_cid e) (cf_cond_heads c') = None ∧
      ∀ y, y ∈ w2_list c' (ev_cid e) → y ∈ w2_list c (ev_cid e)
  | wait2 =>
      smap_find (ev_cid e) (cf_cond_heads c') = smap_find (ev_cid e) (cf_cond_heads c) ∧
      ∀ y, y ∈ w2_list c' (ev_cid e) ↔ y = p ∨ y ∈ w2_list c (ev_cid e)
  | _ =>
      w2_list c' (ev_cid e) = w2_list c (ev_cid e) ∧
      ∃ l, smap_find (ev_cid e) (cf_cond_heads c') = Some l ∧ NoDup l ∧
        ∀ y, y ∈ l ↔ y = p ∨ (y ∈ cond_list c (ev_cid e) ∧ y ∉ notified h e)
  end.
Proof.
  intros Hc. pose proof (bk_cond _ _ _ _ _ Hbk) as Hb.
  rewrite <-(ev_cid_proper _ _ ep_core), <-(ev_kind_proper _ _ ep_core), notified_new in Hb.
  by apply Hb.
Qed.

(** The kinds of the events that are put on a condition variable's list. *)
Definition on_list (k : event_kind) : Prop :=
  k ∈ [condition_variable_create; wait1; signal; broadcast].

Lemma cond_kind : ev_cid e ≠ 0%N →
  ev_kind e = condition_variable_destroy ∨ ev_kind e = wait2 ∨ on_list (ev_kind e).
Proof.
  intros Hc%cid_cond_event. unfold on_list. destruct (ev_kind e); try done; set_solver.
Qed.

Lemma cond_booked_list : ev_cid e ≠ 0%N → on_list (ev_kind e) →
  w2_list c' (ev_cid e) = w2_list c (ev_cid e) ∧
  is_Some (smap_find (ev_cid e) (cf_cond_heads c')) ∧ NoDup (cond_list c' (ev_cid e)) ∧
  ∀ y, y ∈ cond_list c' (ev_cid e) ↔ y = p ∨ (y ∈ cond_list c (ev_cid e) ∧ y ∉ notified h e).
Proof.
  intros Hc Hk. pose proof (cond_booked Hc) as Hb. unfold on_list in Hk.
  assert (w2_list c' (ev_cid e) = w2_list c (ev_cid e) ∧
    ∃ l, smap_find (ev_cid e) (cf_cond_heads c') = Some l ∧ NoDup l ∧
      ∀ y, y ∈ l ↔ y = p ∨ (y ∈ cond_list c (ev_cid e) ∧ y ∉ notified h e)) as (E & l & Hl & Hnd & Hm).
  { destruct (ev_kind e); try done; set_solver. }
  split; [done|]. unfold cond_list at 1 2. rewrite Hl. simpl. eauto.
Qed.

Lemma new_cond_list k y :
  y ∈ cond_list c' k →
  (y ∈ cond_list c k ∧ (k = ev_cid e → y ∉ notified h e)) ∨
  (y = p ∧ k = ev_cid e ∧ ev_cid e ≠ 0%N ∧ on_list (ev_kind e)).
Proof.
  intros Hy. destruct (decide (k = ev_cid e ∧ ev_cid e ≠ 0%N)) as [[-> Hc]|Hne].
  - destruct (cond_kind Hc) as [Hk|[Hk|Hk]].
    + pose proof (cond_booked Hc) as Hb. rewrite Hk in Hb. destruct Hb as [Hb _].
      unfold cond_list in Hy. rewrite Hb in Hy. by apply elem_of_nil in Hy.
    + pose proof (cond_booked Hc) as Hb. rewrite Hk in Hb. destruct Hb as [Hb _].
      unfold cond_list in *. rewrite Hb in Hy. left. split; [done|]. intros _.
      rewrite notified_nil by (by rewrite Hk). apply not_elem_of_nil.
    + destruct (cond_booked_list Hc Hk) as (_ & _ & _ & Hm). apply Hm in Hy as [->|[??]]; auto.
  - destruct (cond_find_ne k) as (_ & E & _).
    { destruct (decide (ev_cid e = 0%N)); [by right | left; naive_solver]. }
    rewrite E in Hy. left. split; [done|]. intros ->. rewrite notified_nil; [apply not_elem_of_nil|].
    destruct (is_notification (ev_kind e)) eqn:Hn; [|done]. exfalso. apply Hne. split; [done|].
    apply N.eqb_neq.
    rewrite (if_cid _ _ (wf_ind_facts h e (xt_wf _ _ _ extends_of_cm) (xt_ids _ _ _ extends_of_cm))).
    by destruct (ev_kind e).
Qed.

(** ** The fields of the invariant *)

Lemma booked_lock_head l q :
  smap_find l (cf_lock_heads c') = Some q →
  l ≠ 0%N ∧ in_conf u' c' q ∧ at_event h' q (λ x, ev_lid x = l).
Proof.
  intros Hq. pose proof ep_core as Hs.
  destruct (decide (l = ev_lid e ∧ ev_lid e ≠ 0%N)) as [[-> Hl]|Hne].
  - pose proof (bk_lock _ _ _ _ _ Hbk) as Hb. rewrite <-(ev_lid_proper _ _ Hs) in Hb.
    rewrite (Hb Hl) in Hq. destruct (decide _); [done|]. injection Hq as <-.
    split_and!; [done | apply conf_in; by left |]. exists ep. by rewrite <-(ev_lid_proper _ _ Hs).
  - rewrite (bk_lock_ne _ _ _ _ _ Hbk) in Hq.
    2: { rewrite <-(ev_lid_proper _ _ Hs).
         destruct (decide (ev_lid e = 0%N)); [by right | left; naive_solver]. }
    destruct (co_lock _ _ Hco _ _ Hq) as (Hl & Hin & Hat).
    split_and!; [done | apply conf_in; by right |]. apply old_at; [|done|done].
    intros ?? E. by rewrite E.
Qed.

Lemma booked_locks x ex' :
  in_conf u' c' x → h' !! x = Some ex' → ev_lid ex' ≠ 0%N →
  sset_has (ev_lid ex') (cf_used_lock_ids c') = true ∧
  ∀ q, smap_find (ev_lid ex') (cf_lock_heads c') = Some q → causal_le h' x q.
Proof.
  intros Hx Hex Hl. pose proof ep_core as Hs. rewrite (bk_used_lock _ _ _ _ _ Hbk).
  rewrite <-(ev_lid_proper _ _ Hs).
  assert (∀ q, ev_lid e ≠ 0%N → smap_find (ev_lid e) (cf_lock_heads c') = Some q → q = p) as Hnew.
  { intros q Hle. pose proof (bk_lock _ _ _ _ _ Hbk) as Hb.
    rewrite <-(ev_lid_proper _ _ Hs) in Hb. rewrite (Hb Hle). destruct (decide _); [done|]. congruence. }
  apply conf_in in Hx as [->|Hx].
  - assert (ex' = ep) as -> by congruence. rewrite <-(ev_lid_proper _ _ Hs) in *.
    split; [by right|]. intros q ->%Hnew; [reflexivity | done].
  - destruct (old_event x ex' Hx Hex) as (ex & Hex0 & Hs0). rewrite <-(ev_lid_proper _ _ Hs0) in *.
    destruct (co_locks _ _ Hco x ex Hx Hex0 Hl) as [Hu Hlast]. split; [by left|]. intros q Hq.
    destruct (decide (ev_lid ex = ev_lid e)) as [He|Hne].
    + rewrite He in *. apply Hnew in Hq as ->; [|done]. apply le_new. right.
      pose proof (cm_lock _ _ _ Hcm Hl) as Hr. destruct (lock_predecessor e) as [lp|] eqn:Hlp.
      * exists lp. split; [by apply lock_predecessor_pred | by apply Hlast].
      * congruence.
    + rewrite (bk_lock_ne _ _ _ _ _ Hbk) in Hq by (rewrite <-(ev_lid_proper _ _ Hs); by left).
      simpl in Hq. destruct (co_lock _ _ Hco _ _ Hq) as (_ & Hin & _).
      apply old_le; [done|]. by apply Hlast.
Qed.

Lemma booked_cond k q :
  q ∈ cond_list c' k → in_conf u' c' q ∧ at_event h' q (λ x,
    ev_cid x = k ∧ ev_kind x ∈ [condition_variable_create; wait1; signal; broadcast]).
Proof.
  intros [[Hq _]|(-> & -> & Hc & Hk)]%new_cond_list; rewrite conf_in.
  - destruct (co_cond _ _ Hco k q Hq) as [Hin Hat]. split; [by right|].
    apply old_at; [|done|done]. intros ?? E. by rewrite E.
  - split; [by left|]. exists ep. split; [done|].
    by rewrite <-(ev_cid_proper _ _ ep_core), <-(ev_kind_proper _ _ ep_core).
Qed.

Lemma booked_nodup k : NoDup (cond_list c' k).
Proof.
  destruct (decide (k = ev_cid e ∧ ev_cid e ≠ 0%N)) as [[-> Hc]|Hne].
  - destruct (cond_kind Hc) as [Hk|[Hk|Hk]].
    + pose proof (cond_booked Hc) as Hb. rewrite Hk in Hb. destruct Hb as [Hb _].
      unfold cond_list. rewrite Hb. constructor.
    + pose proof (cond_booked Hc) as Hb. rewrite Hk in Hb. destruct Hb as [Hb _].
      unfold cond_list. rewrite Hb. apply (co_nodup _ _ Hco).
    + by destruct (cond_booked_list Hc Hk) as (_ & _ & ? & _).
  - destruct (cond_find_ne k) as (_ & -> & _); [|apply (co_nodup _ _ Hco)].
    destruct (decide (ev_cid e = 0%N)); [by right | left; naive_solver].
Qed.

Lemma new_w2_list k y :
  y ∈ w2_list c' k → y ∈ w2_list c k ∨ (y = p ∧ k = ev_cid e ∧ ev_kind e = wait2).
Proof.
  intros Hy. destruct (decide (k = ev_cid e ∧ ev_cid e ≠ 0%N)) as [[-> Hc]|Hne].
  - destruct (cond_kind Hc) as [Hk|[Hk|Hk]].
    + pose proof (cond_booked Hc) as Hb. rewrite Hk in Hb. destruct Hb as [_ Hb]. auto.
    + pose proof (cond_booked Hc) as Hb. rewrite Hk in Hb. destruct Hb as [_ Hb].
      apply Hb in Hy as [->|?]; auto.
    + destruct (cond_booked_list Hc Hk) as (E & _). rewrite E in Hy. auto.
  - destruct (cond_find_ne k) as (_ & _ & E).
    { destruct (decide (ev_cid e = 0%N)); [by right | left; naive_solver]. }
    rewrite E in Hy. auto.
Qed.

Lemma booked_w2 k q :
  q ∈ w2_list c' k → in_conf u' c' q ∧ at_event h' q (λ x, ev_cid x = k ∧ ev_kind x = wait2).
Proof.
  intros [Hq|(-> & -> & Hk)]%new_w2_list; rewrite conf_in.
  - destruct (co_w2 _ _ Hco k q Hq) as [Hin Hat]. split; [by right|].
    apply old_at; [|done|done]. intros ?? E. by rewrite E.
  - split; [by left|]. exists ep. split; [done|].
    by rewrite <-(ev_cid_proper _ _ ep_core), <-(ev_kind_proper _ _ ep_core).
Qed.

Lemma listed_core h0 c0 x e1 e2 : same_core e1 e2 → listed h0 c0 x e1 ↔ listed h0 c0 x e2.
Proof.
  intros Hs. unfold listed. by rewrite (ev_kind_proper _ _ Hs), (ev_cid_proper _ _ Hs).
Qed.

(** The new event is listed itself. *)
Lemma listed_new : ev_cid e ≠ 0%N → is_Some (smap_find (ev_cid e) (cf_cond_heads c')) →
  listed h' c' p e.
Proof.
  intros Hc Hsome. unfold listed. destruct (cond_kind Hc) as [Hk|[Hk|Hk]].
  - pose proof (cond_booked Hc) as Hb. rewrite Hk in *. destruct Hb as [Hb _].
    rewrite Hb in Hsome. by destruct Hsome.
  - pose proof (cond_booked Hc) as Hb. rewrite Hk in *. destruct Hb as [_ Hb]. apply Hb. by left.
  - destruct (cond_booked_list Hc Hk) as (_ & _ & _ & Hm). unfold on_list in Hk.
    assert (p ∈ cond_list c' (ev_cid e)) as Hp by (apply Hm; by left).
    destruct (ev_kind e); try done; set_solver.
Qed.

(** An event that was listed stays listed, or is a [wait1] that the new event
    notifies. *)
Lemma listed_old x ex :
  in_conf u c x → h !! x = Some ex → ev_cid ex ≠ 0%N →
  (is_Some (smap_find (ev_cid ex) (cf_cond_heads c)) → listed h c x ex) →
  sset_has (ev_cid ex) (cf_used_cond_ids c) = true →
  is_Some (smap_find (ev_cid ex) (cf_cond_heads c')) → listed h' c' x ex.
Proof.
  intros Hx Hex Hc Hl Hu Hsome.
  assert (∀ n, n ∈ cond_list c (ev_cid ex) → notifies h n x → notifies h' n x) as Hnot.
  { intros n Hn. apply (co_cond _ _ Hco) in Hn as [Hn _]. by apply old_notifies. }
  destruct (decide (ev_cid ex = ev_cid e)) as [Heq|Hne].
  - rewrite Heq in *. destruct (cond_kind Hc) as [Hk|[Hk|Hk]].
    + pose proof (cond_booked Hc) as Hb. rewrite Hk in Hb. destruct Hb as [Hb _].
      rewrite Hb in Hsome. by destruct Hsome.
    + pose proof (cond_booked Hc) as Hb. rewrite Hk in Hb. destruct Hb as [Hb Hb2].
      assert (cond_list c' (ev_cid e) = cond_list c (ev_cid e)) as El
        by (unfold cond_list; by rewrite Hb).
      rewrite Hb in Hsome. specialize (Hl Hsome). unfold listed in *. rewrite Heq, El in *.
      destruct (ev_kind ex); try done.
      * destruct Hl as [?|(n & Hn & Hnx)]; [by left | right]. exists n. auto.
      * apply Hb2. by right.
    + destruct (cond_booked_list Hc Hk) as (Ew & _ & _ & Hm).
      assert (is_Some (smap_find (ev_cid e) (cf_cond_heads c))) as Hold.
      { destruct (smap_find (ev_cid e) (cf_cond_heads c)) eqn:Hf; [eauto|].
        destruct (cm_live _ _ _ Hcm Hc Hf). congruence. }
      specialize (Hl Hold).
      assert (∀ y, y ∈ cond_list c (ev_cid e) → ¬ at_event h y (λ z, ev_kind z = wait1) →
        y ∈ cond_list c' (ev_cid e)) as Hkeep.
      { intros y Hy Hny. apply Hm. right. split; [done|]. intros Hn.
        apply (notified_wait1 h e y (xt_wf _ _ _ extends_of_cm)) in Hn as [(z & Hz & Hkz & _) _].
        apply Hny. by exists z. }
      unfold listed in *. rewrite Heq, Ew in *.
      assert (x ∈ cond_list c (ev_cid e) → ev_kind ex ≠ wait1 → x ∈ cond_list c' (ev_cid e)) as Hself.
      { intros Hin Hk1. apply Hkeep; [done|]. intros (z & Hz & Hkz). congruence. }
      destruct (ev_kind ex) eqn:Hkx; try done; try (by apply Hself).
      destruct Hl as [Hin|(n & Hn & Hnx)].
      * destruct (decide (x ∈ notified h e)) as [Hin'|Hnot'].
        -- right. exists p. split; [apply Hm; by left | by apply new_notifies].
        -- left. apply Hm. by right.
      * right. exists n. split; [|by apply Hnot]. apply Hkeep; [done|].
        intros (z & Hz & Hkz). destruct Hnx as (z' & Hz' & Hxn).
        assert (z' = z) as -> by congruence.
        apply (notified_wait1 h z x) in Hxn as [_ Hk']; [by rewrite Hkz in Hk'|].
        by eapply (uo_wf _ uf_of_conf).
  - destruct (cond_find_ne (ev_cid ex)) as (E1 & E2 & E3); [by left|]. rewrite E1 in Hsome.
    specialize (Hl Hsome). unfold listed in *. rewrite E2, E3. destruct (ev_kind ex); try done.
    destruct Hl as [?|(n & Hn & Hnx)]; [by left | right]. exists n. auto.
Qed.

Lemma booked_conds x ex' :
  in_conf u' c' x → h' !! x = Some ex' → ev_cid ex' ≠ 0%N →
  sset_has (ev_cid ex') (cf_used_cond_ids c') = true ∧
  (is_Some (smap_find (ev_cid ex') (cf_cond_heads c')) → listed h' c' x ex').
Proof.
  intros Hx Hex Hc. rewrite (bk_used_cond _ _ _ _ _ Hbk), <-(ev_cid_proper _ _ ep_core).
  apply conf_in in Hx as [->|Hx].
  - assert (ex' = ep) as -> by congruence. rewrite <-(ev_cid_proper _ _ ep_core) in *.
    split; [by right|]. intros Hsome. apply (listed_core h' c' p e ep ep_core). by apply listed_new.
  - destruct (old_event x ex' Hx Hex) as (ex & Hex0 & Hs0). rewrite <-(ev_cid_proper _ _ Hs0) in *.
    destruct (co_conds _ _ Hco x ex Hx Hex0 Hc) as [Hu Hl]. split; [by left|]. intros Hsome.
    apply (listed_core h' c' x ex ex' Hs0). by eapply listed_old.
Qed.

(** A listed [wait1] is not notified. *)
Lemma booked_waiting k w n : w ∈ cond_list c' k → in_conf u' c' n → ¬ notifies h' n w.
Proof.
  intros Hw Hn Hnw. apply new_cond_list in Hw as [[Hw Hno]|(-> & -> & _ & _)].
  - apply conf_in in Hn as [->|Hn].
    + apply new_notifies in Hnw.
      destruct (co_cond _ _ Hco k w Hw) as [_ (x & Hx & Hcx & _)].
      destruct (notified_wait1 h e w (xt_wf _ _ _ extends_of_cm) Hnw) as [(x' & Hx' & _ & Hcx') _].
      assert (x' = x) as -> by congruence. apply Hno; [congruence | done].
    + apply old_notifies in Hnw; [|done]. by eapply (co_waiting _ _ Hco).
  - apply conf_in in Hn as [->|Hn].
    + apply new_notifies, notified_in, not_new in Hnw. done.
    + apply old_notifies in Hnw; [|done]. by apply (notifies_in n p Hn), not_new in Hnw.
Qed.

Lemma booked_one n n' w :
  in_conf u' c' n → in_conf u' c' n' → notifies h' n w → notifies h' n' w → n = n'.
Proof.
  assert (∀ m, in_conf u c m → notifies h' p w → notifies h' m w → False) as Hno.
  { intros m Hm Hp%new_notifies%(cm_notified _ _ _ Hcm) Hmw%old_notifies; [|done].
    by eapply (co_waiting _ _ Hco). }
  intros [->|Hn]%conf_in [->|Hn']%conf_in H1 H2; [done | by destruct (Hno n') | by destruct (Hno n)|].
  apply old_notifies in H1, H2; [|done..]. by eapply (co_one _ _ Hco).
Qed.

Lemma booked_wake x w :
  in_conf u' c' x → tpred h' w x → at_event h' w (λ y, ev_kind y = wait1) →
  at_event h' x (λ y, ev_kind y = wait2).
Proof.
  assert (Proper (same_core ==> iff) (λ y, ev_kind y = wait1)) as P1 by (intros ?? E; by rewrite E).
  assert (Proper (same_core ==> iff) (λ y, ev_kind y = wait2)) as P2 by (intros ?? E; by rewrite E).
  intros [->|Hx]%conf_in Ht Hw.
  - exists ep. split; [done|]. rewrite <-(ev_kind_proper _ _ ep_core).
    eapply (dd_tpred_new u T) in Ht as Hf; [|done..].
    apply (cm_wake _ _ _ Hcm w).
    + by rewrite (xt_thread _ _ _ extends_of_cm).
    + apply (old_at w _ P1); [|done]. by eapply in_heads_head.
  - eapply (dd_tpred u T) in Ht; [|done..]. apply (old_at x _ P2); [done|].
    apply (co_wake _ _ Hco x w Hx Ht). apply (old_at w _ P1); [|done].
    eapply (in_heads_le u T heads_of_conf w x); [done|]. by apply rtc_once, tpred_imm.
Qed.

Lemma booked_woken x ex' tp np lp cid lid b :
  in_conf u' c' x → h' !! x = Some ex' → ev_data ex' = Wait2 tp np lp cid lid b →
  notifies h' np tp.
Proof.
  assert (∀ e0 e1, same_core e0 e1 → ev_data e1 = Wait2 tp np lp cid lid b →
    ∃ b', ev_data e0 = Wait2 tp np lp cid lid b') as Hcore.
  { intros e0 e1 [_ Hd _ _] E. rewrite E in Hd. destruct (ev_data e0); simplify_eq/=. eauto. }
  intros [->|Hx]%conf_in Hex Hd.
  - assert (ex' = ep) as -> by congruence. destruct (Hcore e ep ep_core Hd) as [b' Hd'].
    apply old_notifies; [|by eapply (cm_woken _ _ _ Hcm)].
    apply (xt_preds _ _ _ extends_of_cm). unfold predecessors. rewrite Hd'. set_solver.
  - destruct (old_event x ex' Hx Hex) as (ex & Hex0 & Hs0). destruct (Hcore ex ex' Hs0 Hd) as [b' Hd'].
    apply old_notifies; [|by eapply (co_woken _ _ Hco)].
    eapply (in_heads_le u T heads_of_conf np x); [done|]. apply rtc_once. exists ex.
    split; [done|]. unfold predecessors. rewrite Hd'. set_solver.
Qed.

Lemma booked_create x y ex ey t :
  in_conf u' c' x → in_conf u' c' y → h' !! x = Some ex → h' !! y = Some ey →
  created_tid ex = Ok t → created_tid ey = Ok t → x = y.
Proof.
  assert (∀ z ez', in_conf u c z → h' !! z = Some ez' → created_tid ep = Ok t →
    created_tid ez' = Ok t → False) as Hno.
  { intros z ez' Hz Hez Hp Hzt. destruct (old_event z ez' Hz Hez) as (ez & Hez0 & Hs).
    rewrite <-(created_tid_core _ _ ep_core) in Hp. rewrite <-(created_tid_core _ _ Hs) in Hzt.
    by eapply (cm_create _ _ _ Hcm t z ez). }
  intros [->|Hx]%conf_in [->|Hy]%conf_in Hex Hey Hcx Hcy; [done|exfalso|exfalso|].
  - assert (ex = ep) as -> by congruence. by eapply (Hno y ey).
  - assert (ey = ep) as -> by congruence. by eapply (Hno x ex).
  - destruct (old_event x ex Hx Hex) as (ex0 & Hex0 & Hsx).
    destruct (old_event y ey Hy Hey) as (ey0 & Hey0 & Hsy).
    rewrite <-(created_tid_core _ _ Hsx) in Hcx. rewrite <-(created_tid_core _ _ Hsy) in Hcy.
    by eapply (co_create _ _ Hco).
Qed.

(** Events on a condition variable have its id. *)
Lemma cid_nonzero e0 : ids_nonzero e0 → is_cond_event (ev_kind e0) = true → ev_cid e0 ≠ 0%N.
Proof.
  unfold ids_nonzero, ev_cid, ev_kind. destruct (ev_data e0); simpl; try done; naive_solver.
Qed.

Lemma booked_first x y ex' ey' :
  in_conf u' c' x → in_conf u' c' y → h' !! x = Some ex' → h' !! y = Some ey' →
  ev_kind ex' = condition_variable_create → ev_cid ey' = ev_cid ex' → causal_le h' x y.
Proof.
  pose proof ep_core as Hs.
  intros [->|Hx]%conf_in [->|Hy]%conf_in Hex Hey Hk Hc; [reflexivity|..].
  - exfalso. assert (ex' = ep) as -> by congruence.
    destruct (old_event y ey' Hy Hey) as (ey & Hey0 & Hsy).
    rewrite <-(ev_kind_proper _ _ Hs) in Hk.
    rewrite <-(ev_cid_proper _ _ Hs), <-(ev_cid_proper _ _ Hsy) in Hc.
    assert (ev_cid e ≠ 0%N) as Hn by (apply cid_nonzero; [apply extends_of_cm | by rewrite Hk]).
    destruct (cm_live _ _ _ Hcm Hn (cm_cond_create _ _ _ Hcm Hk)) as [Hu _].
    destruct (co_conds _ _ Hco y ey Hy Hey0) as [Hu' _]; [congruence|]. congruence.
  - assert (ey' = ep) as -> by congruence. destruct (old_event x ex' Hx Hex) as (ex & Hex0 & Hsx).
    rewrite <-(ev_kind_proper _ _ Hsx) in Hk.
    rewrite <-(ev_cid_proper _ _ Hs), <-(ev_cid_proper _ _ Hsx) in Hc.
    assert (ev_cid ex ≠ 0%N) as Hn.
    { apply cid_nonzero; [by eapply lc_ids, (uo_lc _ uf_of_conf) | by rewrite Hk]. }
    apply le_new. right. apply (cm_cond _ _ _ Hcm x ex Hx Hex0); [done | congruence |].
    unfold cond_dep. rewrite Hk. by destruct (ev_kind e).
  - destruct (old_event x ex' Hx Hex) as (ex & Hex0 & Hsx).
    destruct (old_event y ey' Hy Hey) as (ey & Hey0 & Hsy).
    rewrite <-(ev_kind_proper _ _ Hsx) in Hk.
    rewrite <-(ev_cid_proper _ _ Hsx), <-(ev_cid_proper _ _ Hsy) in Hc.
    apply old_le; [done|]. by eapply (co_first _ _ Hco).
Qed.

Lemma settled_old x ex ex' :
  h !! x = Some ex → same_core ex ex' → settled h' ex' → settled h ex.
Proof.
  intros Hex Hs. unfold settled. rewrite (ev_kind_proper _ _ Hs).
  rewrite (notified_ext h h' ex ex'); [done | apply Hdd | done |].
  apply wf_preds. by eapply (uo_wf _ uf_of_conf).
Qed.

Lemma booked_before x w ex' :
  in_conf u' c' x → h' !! x = Some ex' → settled h' ex' → w ∈ cond_list c' (ev_cid ex') →
  at_event h' w (λ y, ev_kind y = wait1) → causal_le h' x w.
Proof.
  assert (Proper (same_core ==> iff) (λ y, ev_kind y = wait1)) as P1 by (intros ?? E; by rewrite E).
  pose proof ep_core as Hs. intros Hx Hex Hset Hw Hwk.
  assert (x = p → settled h e) as Hnew.
  { intros ->. assert (ex' = ep) as -> by congruence. unfold settled in *.
    by rewrite (ev_kind_proper _ _ Hs), <-notified_new. }
  apply new_cond_list in Hw as [[Hw Hno]|(-> & Hc & Hn & _)]; apply conf_in in Hx as [->|Hx].
  - exfalso. assert (ex' = ep) as -> by congruence. rewrite <-(ev_cid_proper _ _ Hs) in *.
    apply Hno; [done|]. apply (cm_missed _ _ _ Hcm); [auto | done |].
    apply (old_at w _ P1); [|done]. by eapply (co_cond _ _ Hco).
  - destruct (old_event x ex' Hx Hex) as (ex & Hex0 & Hsx). rewrite <-(ev_cid_proper _ _ Hsx) in *.
    destruct (co_cond _ _ Hco _ _ Hw) as [Hwc _]. apply old_le; [done|].
    eapply (co_before _ _ Hco x w ex); try done; [by eapply settled_old|].
    by apply (old_at w _ P1).
  - reflexivity.
  - destruct (old_event x ex' Hx Hex) as (ex & Hex0 & Hsx). rewrite <-(ev_cid_proper _ _ Hsx) in *.
    apply le_new. right. apply (cm_cond _ _ _ Hcm x ex Hx Hex0); [done..|].
    destruct Hwk as (ep' & Hep' & Hk). assert (ep' = ep) as -> by congruence.
    rewrite <-(ev_kind_proper _ _ Hs) in Hk. apply (settled_old x ex ex' Hex0 Hsx) in Hset.
    unfold cond_dep. rewrite Hk. destruct Hset as [->|[-> Hnot]]; auto.
Qed.

(** The events on a lock form a chain of lock predecessors. *)
Lemma new_chain x ex' :
  in_conf u c x → h' !! x = Some ex' → ev_lid ex' ≠ 0%N → ev_lid ep = ev_lid ex' →
  before_lock_predecessor h' x ep.
Proof.
  intros Hx Hex Hl Heq. destruct (old_event x ex' Hx Hex) as (ex & Hex0 & Hsx).
  rewrite <-(ev_lid_proper _ _ ep_core), <-(ev_lid_proper _ _ Hsx) in *.
  destruct (co_locks _ _ Hco x ex Hx Hex0 Hl) as [Hu Hlast].
  pose proof (cm_lock _ _ _ Hcm) as Hr. unfold lock_ready in Hr. rewrite Heq in Hr.
  specialize (Hr Hl). unfold before_lock_predecessor.
  rewrite <-(lock_predecessor_proper _ _ ep_core).
  destruct (lock_predecessor e) as [lp|] eqn:Hlp; [|congruence].
  exists lp. split; [done|]. apply old_le; [|by apply Hlast].
  by eapply (co_lock _ _ Hco).
Qed.

Lemma old_chain x y ey ey' :
  in_conf u c y → h !! y = Some ey → same_core ey ey' →
  before_lock_predecessor h x ey → before_lock_predecessor h' x ey'.
Proof.
  intros Hy Hey Hs (lp & Hlp & Hle). exists lp. rewrite <-(lock_predecessor_proper _ _ Hs).
  split; [done|]. by eapply ext_causal_le; [apply Hdd|].
Qed.

Lemma booked_chain x y ex' ey' :
  in_conf u' c' x → in_conf u' c' y → h' !! x = Some ex' → h' !! y = Some ey' → x ≠ y →
  ev_lid ex' ≠ 0%N → ev_lid ey' = ev_lid ex' →
  before_lock_predecessor h' x ey' ∨ before_lock_predecessor h' y ex'.
Proof.
  intros [->|Hx]%conf_in [->|Hy]%conf_in Hex Hey Hne Hl Heq; [done|..].
  - right. assert (ex' = ep) as -> by congruence. eapply new_chain; eauto; congruence.
  - left. assert (ey' = ep) as -> by congruence. by eapply new_chain.
  - destruct (old_event x ex' Hx Hex) as (ex & Hex0 & Hsx).
    destruct (old_event y ey' Hy Hey) as (ey & Hey0 & Hsy).
    destruct (co_chain _ _ Hco x y ex ey Hx Hy Hex0 Hey0 Hne) as [Hch|Hch].
    + by rewrite (ev_lid_proper _ _ Hsx).
    + by rewrite (ev_lid_proper _ _ Hsx), (ev_lid_proper _ _ Hsy).
    + left. by eapply (old_chain x y).
    + right. by eapply (old_chain y x).
Qed.

Lemma booked_live k l : smap_find k (cf_cond_heads c') = Some l → l ≠ [].
Proof.
  intros Hk. destruct (decide (k = ev_cid e ∧ ev_cid e ≠ 0%N)) as [[-> Hc]|Hne].
  - destruct (cond_kind Hc) as [Hki|[Hki|Hki]].
    + pose proof (cond_booked Hc) as Hb. rewrite Hki in Hb. destruct Hb as [Hb _]. congruence.
    + pose proof (cond_booked Hc) as Hb. rewrite Hki in Hb. destruct Hb as [Hb _].
      rewrite Hb in Hk. by apply (co_live _ _ Hco) in Hk.
    + destruct (cond_booked_list Hc Hki) as (_ & _ & _ & Hm). intros ->.
      unfold cond_list in Hm at 1. rewrite Hk in Hm. simpl in Hm.
      eapply elem_of_nil, (Hm p). by left.
  - destruct (cond_find_ne k) as (E & _).
    { destruct (decide (ev_cid e = 0%N)); [by right | left; naive_solver]. }
    rewrite E in Hk. by apply (co_live _ _ Hco) in Hk.
Qed.

Lemma booked_held l q :
  smap_find l (cf_lock_heads c') = Some q → at_event h' q (λ x, ev_kind x ≠ lock_destroy).
Proof.
  intros Hq. pose proof (bk_lock _ _ _ _ _ Hbk) as Hb. pose proof (bk_lock_ne _ _ _ _ _ Hbk l) as Hne.
  destruct (decide (l = ev_lid ep ∧ ev_lid ep ≠ 0%N)) as [[-> Hnz]|Hother].
  - rewrite Hb in Hq by done. case_decide; [done|]. injection Hq as <-. by exists ep.
  - rewrite Hne in Hq by (destruct (decide (ev_lid ep = 0%N)); [by right | left; naive_solver]).
    simpl in Hq. apply old_at; [|by apply (co_lock _ _ Hco) in Hq as (_ & ? & _)
      |by apply (co_held _ _ Hco l)].
    intros ?? E. by rewrite E.
Qed.

Lemma booked_conf_ok : conf_ok u' c'.
Proof.
  split.
  - apply Hdd.
  - apply heads_booked.
  - apply (bk_sorted _ _ _ _ _ Hbk).
  - apply booked_lock_head.
  - apply booked_locks.
  - apply booked_cond.
  - apply booked_nodup.
  - apply booked_w2.
  - apply booked_conds.
  - apply booked_waiting.
  - apply booked_one.
  - apply booked_wake.
  - apply booked_woken.
  - apply booked_create.
  - apply booked_first.
  - apply booked_before.
  - apply booked_chain.
  - apply booked_live.
  - apply booked_held.
Qed.
End booked.
End commit.

Lemma conf_ok_stats u c f : conf_ok u c → conf_ok (upd_stats f u) c.
Proof.
  intros Hco. split;
    [by apply uf_ok_stats, Hco | by destruct (co_heads _ _ Hco); split | apply Hco
    | exact (co_lock _ _ Hco) | exact (co_locks _ _ Hco) | exact (co_cond _ _ Hco)
    | exact (co_nodup _ _ Hco) | exact (co_w2 _ _ Hco) | exact (co_conds _ _ Hco)
    | exact (co_waiting _ _ Hco) | exact (co_one _ _ Hco) | exact (co_wake _ _ Hco)
    | exact (co_woken _ _ Hco) | exact (co_create _ _ Hco) | exact (co_first _ _ Hco)
    | exact (co_before _ _ Hco) | exact (co_chain _ _ Hco)
    | exact (co_live _ _ Hco) | exact (co_held _ _ Hco)].
Qed.

(** Committing an event that extends the configuration. *)
Lemma commit_spec u c x :
  conf_ok u c → committable u c (ex_event x) →
  ex_configuration x = cf_addr c → ex_index x = cf_last_extension c →
  ∃ u' c' p, commit x u c = Ok (u', c', p) ∧ conf_ok u' c' ∧
    heap_ext (uf_heap u) (uf_heap u') ∧
    at_event (uf_heap u') p (same_core (ex_event x)) ∧
    ¬ in_conf u c p ∧ (∀ y, in_conf u' c' y ↔ y = p ∨ in_conf u c y) ∧
    cf_size c' = S (cf_size c) ∧ uf_root u' = uf_root u.
Proof.
  intros Hco Hcm Ha Hi. unfold commit. rewrite Ha, Hi, N.eqb_refl, Nat.eqb_refl. simpl.
  destruct (deduplicate_spec (ex_event x) u) as (u1 & unk & p & -> & Hdd);
    [apply Hco | eapply extends_new; [apply Hco | apply Hco | apply Hcm] |].
  rewrite bind_Ok_l. destruct (dd_core _ _ _ _ _ Hdd) as (ep & Hep & Hs).
  rewrite (proj2 (deref_ok _ p ep) Hep), bind_Ok_l.
  set (u2 := upd_stats _ u1).
  destruct (update_heads_spec (uf_heap u1) ep p (advance_thread (ev_tid ep) p c)) as (c' & Hc' & Hbk).
  { by eapply bookable_of_cm. }
  change (uf_heap u2) with (uf_heap u1). rewrite Hc', bind_Ok_l.
  exists u2, c', p. split; [done|].
  split; [by apply conf_ok_stats; eapply (booked_conf_ok u c (ex_event x))|].
  split; [apply Hdd|]. split; [by exists ep|].
  split; [eapply (dd_not_in u (cf_thread_heads c)); try done; try apply Hco; apply Hcm|].
  split; [|split; [by destruct (bk_addr _ _ _ _ _ Hbk) as (_ & _ & ->) | apply Hdd]].
  intros y. change (in_conf u2 c' y) with (in_conf u1 c' y). by eapply conf_in.
Qed.
End invariant.
