(* ===== verification/OpBase.v ===== *)
(** * What every operation has in common

    Facts about events that a constructor returned, and the conditions under
    which such an event extends a configuration: its same-thread predecessor
    is the thread's head, its lock predecessor is the lock's head, and the
    events it depends on through threads and condition variables are below
    it. *)

From stdpp Require Import base tactics list gmap numbers relations.
From S2P Require Import Prelude StdMap ThreadId Event Comb CombEnum CombProofs Cone Alloc Causality.
From S2P Require Import AllocProofs HeapExt Order Walks Independence Unfolding Configuration.
From S2P Require Import ColorProofs UnfoldingProofs DedupProofs Dependence Heads Booking ConfInv.

Section built.
Context {PL : Payload}.
Implicit Types (h : heap) (e : event).

(** An event as the two base-class constructors build it. *)
Inductive built h e : Prop :=
  | built_one tid d ip :
      data_predecessors d = [ip] → event_of_pred h tid d ip = Ok e → built h e
  | built_many tid d ip single others :
      (∀ q, q ∈ data_predecessors d ↔ q ∈ ip :: option_list single ++ others) →
      event_of_preds h tid d ip single others = Ok e →
      (∀ x, h !! ip = Some x → ev_kind x ≠ program_init) → built h e.

Ltac build_one :=
  match goal with H : event_of_pred ?h ?t ?d ?ip = Ok ?e |- built ?h ?e =>
    by apply (built_one h e t d ip) end.
Ltac build_many :=
  match goal with H : event_of_preds ?h ?t ?d ?ip ?s ?o = Ok ?e |- built ?h ?e =>
    apply (built_many h e t d ip s o); [|exact H|by eapply at_not_init] end.

Lemma allocated_built h e : allocated h e → e = program_init_event ∨ built h e.
Proof.
  destruct 1; [by left|right..];
    match goal with H : _ = Ok _ |- _ => rename H into Ha end.
  - unfold alloc_local in Ha. res_inv. build_one.
  - unfold alloc_thread_create in Ha. res_inv. build_one.
  - unfold alloc_thread_join in Ha. res_inv. build_many. set_solver.
  - unfold alloc_thread_init in Ha. res_inv. build_one.
  - unfold alloc_thread_exit in Ha. res_inv. build_one.
  - unfold alloc_lock_create in Ha. res_inv. build_one.
  - unfold alloc_lock_destroy in Ha. res_inv. build_many. intros q. simpl.
    rewrite two_predecessors_elem, elem_of_cons, app_nil_r, option_list_elem. done.
  - unfold alloc_lock_acquire in Ha. res_inv. build_many. intros q. simpl.
    rewrite two_predecessors_elem, elem_of_cons, app_nil_r, option_list_elem. done.
  - unfold alloc_lock_release in Ha. res_inv. build_many. intros q. simpl.
    rewrite two_predecessors_elem, !elem_of_cons, elem_of_nil. naive_solver.
  - unfold alloc_condition_variable_create in Ha. res_inv. build_one.
  - unfold alloc_condition_variable_destroy in Ha. res_inv. build_many. done.
  - unfold alloc_wait1 in Ha. res_inv. build_many. done.
  - unfold alloc_wait2 in Ha. res_inv.
    match goal with H : event_of_preds ?h ?t ?d ?ip ?s ?o = Ok ?e |- built ?h ?e =>
      apply (built_many h e t d ip s o); [set_solver|exact H|] end.
    intros y Hy. res_inv_ev. asserts_prop. simplify_eq. congruence.
  - unfold alloc_signal in Ha. res_inv. build_many. done.
  - unfold alloc_signal_lost in Ha. res_inv. build_many. done.
  - unfold alloc_broadcast in Ha. apply bind_ok in Ha as ([[w sb] cr] & Hg & Ha).
    apply bind_ok in Ha as (e' & Hf & Ha). res_inv. build_many.
    intros q. apply broadcast_groups_perm in Hg. simpl. by rewrite !elem_of_cons, Hg.
Qed.

Lemma built_fresh h e :
  built h e → ev_successors e = [] ∧ ev_immediate_conflicts e = [] ∧ ev_imm_cfl_color e = 0%N.
Proof.
  destruct 1 as [tid d ip _ He|tid d ip s o _ He _].
  - unfold event_of_pred in He. by res_inv.
  - unfold event_of_preds in He. by res_inv.
Qed.

(** Ids are asserted to be non-null by every constructor but that of
    [lock_destroy]. *)
Lemma allocated_ids h e : allocated h e → ev_kind e ≠ lock_destroy → ids_nonzero e.
Proof.
  unfold ev_kind, ids_nonzero.
  destruct 1; [done|..]; match goal with H : _ = Ok _ |- _ => rename H into Ha end; intros Hk.
  - unfold alloc_local in Ha. res_inv. by erewrite (proj2 (event_of_pred_fields _ _ _ _ _ ltac:(eassumption))).
  - unfold alloc_thread_create in Ha. res_inv. by erewrite (proj2 (event_of_pred_fields _ _ _ _ _ ltac:(eassumption))).
  - unfold alloc_thread_join in Ha. res_inv. by erewrite (proj2 (event_of_preds_fields _ _ _ _ _ _ _ ltac:(eassumption))).
  - unfold alloc_thread_init in Ha. res_inv. by erewrite (proj2 (event_of_pred_fields _ _ _ _ _ ltac:(eassumption))).
  - unfold alloc_thread_exit in Ha. res_inv. by erewrite (proj2 (event_of_pred_fields _ _ _ _ _ ltac:(eassumption))).
  - unfold alloc_lock_create in Ha. res_inv. asserts_prop. by erewrite (proj2 (event_of_pred_fields _ _ _ _ _ ltac:(eassumption))).
  - unfold alloc_lock_destroy in Ha. res_inv. destruct Hk.
    by erewrite (proj2 (event_of_preds_fields _ _ _ _ _ _ _ ltac:(eassumption))).
  - unfold alloc_lock_acquire in Ha. res_inv. asserts_prop. by erewrite (proj2 (event_of_preds_fields _ _ _ _ _ _ _ ltac:(eassumption))).
  - unfold alloc_lock_release in Ha. res_inv. asserts_prop. by erewrite (proj2 (event_of_preds_fields _ _ _ _ _ _ _ ltac:(eassumption))).
  - unfold alloc_condition_variable_create in Ha. res_inv. asserts_prop. by erewrite (proj2 (event_of_pred_fields _ _ _ _ _ ltac:(eassumption))).
  - unfold alloc_condition_variable_destroy in Ha. res_inv. asserts_prop. by erewrite (proj2 (event_of_preds_fields _ _ _ _ _ _ _ ltac:(eassumption))).
  - unfold alloc_wait1 in Ha. res_inv. asserts_prop. by erewrite (proj2 (event_of_preds_fields _ _ _ _ _ _ _ ltac:(eassumption))).
  - unfold alloc_wait2 in Ha. res_inv. asserts_prop. by erewrite (proj2 (event_of_preds_fields _ _ _ _ _ _ _ ltac:(eassumption))).
  - unfold alloc_signal in Ha. res_inv. asserts_prop. by erewrite (proj2 (event_of_preds_fields _ _ _ _ _ _ _ ltac:(eassumption))).
  - unfold alloc_signal_lost in Ha. res_inv. asserts_prop. by erewrite (proj2 (event_of_preds_fields _ _ _ _ _ _ _ ltac:(eassumption))).
  - unfold alloc_broadcast in Ha. apply bind_ok in Ha as ([[w sb] cr] & Hg & Ha).
    apply bind_ok in Ha as (e' & Hf & Ha). res_inv. asserts_prop.
    by erewrite (proj2 (event_of_preds_fields _ _ _ _ _ _ _ Hf)).
Qed.
End built.

Section cutoffs.
Context {PL : Payload} {AL : Allocator}.
Implicit Types (h : heap) (e : event) (u : unfolding).

(** The successor lists lead to everything that is causally above. *)
Lemma causal_reachable n u q r :
  uf_ok u → dep (uf_heap u) r < n → causal_le (uf_heap u) q r → reachable (uf_heap u) q r.
Proof.
  intros Hok. revert r. induction n as [|n IH]; intros r Hn Hle; [lia|].
  apply causal_le_alt in Hle as [->|Hlt]; [constructor|].
  apply causal_lt_alt in Hlt as (er & Her & q' & Hq' & Hle).
  destruct (lc_cover (uf_heap u) q' r) as (m & Hm & Hqm);
    [apply Hok | apply (uo_lc _ Hok) | by exists er |].
  pose proof (imm0_imm (uf_heap u) m r (uo_wf _ Hok) (uo_lc _ Hok) Hm) as Him.
  pose proof (imm_dep _ _ _ (uo_wf _ Hok) Him) as Hd.
  assert (is_Some (uf_heap u !! m)) as [em Hem].
  { apply (causal_le_in _ m r (uo_wf _ Hok)); [by apply rtc_once | eauto]. }
  assert (reachable (uf_heap u) q m) as Hr by (apply IH; [lia | by etrans]).
  eapply rtc_r; [exact Hr|]. exists em. split; [done|].
  by apply (uo_succ _ Hok m em r Hem).
Qed.

Lemma reachable_causal u p x :
  uf_ok u → is_Some (uf_heap u !! p) →
  reachable (uf_heap u) p x ↔ is_Some (uf_heap u !! x) ∧ causal_le (uf_heap u) p x.
Proof.
  intros Hok Hp. split; [|intros [_ Hle]; by eapply causal_reachable; [|apply Nat.lt_succ_diag_r|]].
  unfold reachable. intros Hr. revert Hp.
  induction Hr as [|y z x Hyz _ IH]; intros Hp; [split; [done | reflexivity]|].
  destruct IH as [Hx Hle]; [by eapply succ_stored|]. split; [done|].
  etrans; [|done]. apply rtc_once. destruct Hyz as (ey & Hy & Hz).
  apply (imm0_imm _ _ _ (uo_wf _ Hok) (uo_lc _ Hok)). by apply (uo_succ _ Hok y ey z Hy).
Qed.

(** Cutoff marks are closed upwards. *)
Lemma cut_upward u q r :
  uf_ok u → is_cut (uf_heap u) q → causal_le (uf_heap u) q r → is_cut (uf_heap u) r.
Proof.
  intros Hok Hq Hle.
  apply (causal_reachable (S (dep (uf_heap u) r))) in Hle; [|done|lia].
  eapply (reachable_cut _ q (uf_heap u)); [done | apply Hok | done].
Qed.

(** A new event is marked when one of its predecessors is. *)
Lemma built_cutoff u C e q :
  uf_ok u → built (uf_heap u) e → wf_event (uf_heap u) e → conflict_free (uf_heap u) C →
  (∀ x, below (uf_heap u) x e → C x) → q ∈ predecessors e → is_cut (uf_heap u) q →
  ev_is_cutoff e = true.
Proof.
  intros Hok Hb Hw HC Hsub Hq Hcut. pose proof (uo_wf _ Hok) as Hwf.
  destruct Hb as [tid d ip Hd He|tid d ip s o Hd He Hip].
  - pose proof (event_of_pred_fields _ _ _ _ _ He) as [_ Hdata].
    unfold predecessors in Hq. rewrite Hdata, Hd in Hq. apply list_elem_of_singleton in Hq as ->.
    unfold event_of_pred in He. res_inv_ev. simpl. destruct Hcut as (? & ? & ?). congruence.
  - pose proof (event_of_preds_fields _ _ _ _ _ _ _ He) as [_ Hdata].
    assert (ip ∈ predecessors e) as Hpi.
    { unfold predecessors. rewrite Hdata. apply Hd. by left. }
    assert (∀ x, x ∈ predecessors e → C x) as HCp by (intros x Hx; apply Hsub; by exists x).
    assert (∃ r, r ∈ smap_vals (ev_cone e) ∧ is_cut (uf_heap u) r) as (r & Hr & Hcr).
    { assert (∃ q', q' ∈ predecessors e ∧ causal_le (uf_heap u) q q' ∧
        at_event (uf_heap u) q' (λ x, ev_kind x ≠ program_init)) as (q' & Hq' & Hle & x' & Hx' & Hk').
      { destruct (wf_preds _ _ Hw q Hq) as [eq Heq], (wf_preds _ _ Hw ip Hpi) as [ei Hei].
        destruct (decide (ev_kind eq = program_init)) as [Hk|Hk].
        - exists ip. split_and!; [done | by eapply (root_least _ C Hwf HC); eauto |].
          exists ei. split; [done | by apply Hip].
        - exists q. split_and!; [done | reflexivity | by exists eq]. }
      destruct (cone_for_above _ C Hwf HC _ _ q' x' (wf_cone _ _ Hw)) as (r & Hr & Hqr);
        [done | by exists q' | done | done |].
      exists r. split.
      + apply (cone_vals_elem _ _ _ _ (wf_cone _ _ Hw)). eauto.
      + eapply cut_upward; [done..|]. etrans; [done|].
        by apply thread_le_causal. }
    unfold event_of_preds, cone_events in He. res_inv_ev. simpl in *.
    match goal with H : for_each _ [] _ = Ok ?l |- _ => apply cone_events_spec in H as (k & -> & Hk) end.
    simpl. apply existsb_exists.
    apply list_elem_of_lookup in Hr as (j & Hj).
    destruct (Forall2_lookup_l _ _ _ _ _ Hk Hj) as (er & Her & Hrr).
    exists er. split; [apply list_elem_of_In; by eapply list_elem_of_lookup_2|].
    destruct Hcr as (er' & ? & ?). congruence.
Qed.
End cutoffs.

Section intro.
Context {PL : Payload} {AL : Allocator}.
Implicit Types (e : event) (u : unfolding) (c : configuration).

Context (u : unfolding) (c : configuration).
Abbreviation h := (uf_heap u).
Abbreviation T := (cf_thread_heads c).
Hypothesis Hco : conf_ok u c.

Lemma conf_uf : uf_ok u. Proof. apply Hco. Qed.
Lemma conf_heads : heads_ok u T. Proof. apply Hco. Qed.
Lemma conf_wf : wf_heap h. Proof. apply conf_uf. Qed.
Lemma conf_free : conflict_free h (in_conf u c). Proof. apply conf_heads. Qed.
Lemma conf_stored x : in_conf u c x → is_Some (h !! x).
Proof. apply (in_heads_stored u T conf_heads). Qed.
Lemma conf_le x y : in_conf u c y → causal_le h x y → in_conf u c x.
Proof. apply (in_heads_le u T conf_heads). Qed.
Lemma conf_head t p : smap_find t T = Some p → in_conf u c p.
Proof. apply in_heads_head. Qed.

Lemma root_le x : in_conf u c x → causal_le h (uf_root u) x.
Proof.
  intros Hx. destruct (uo_root _ conf_uf) as (er & Her & Hk).
  eapply (root_least h (in_conf u c) conf_wf conf_free); [by left | done..].
Qed.

Lemma extends_intro e :
  allocated h e → ev_kind e ≠ program_init → ids_nonzero e →
  (∀ q, q ∈ predecessors e → in_conf u c q) →
  thread_predecessor e = smap_find (ev_tid e) T →
  (∀ tp j, ev_data e = ThreadJoin tp j → ¬ causal_lt h j tp) →
  lock_ready c e →
  (∀ x ex, in_conf u c x → h !! x = Some ex → thread_dep h e ex → below h x e) →
  (∀ x ex, in_conf u c x → h !! x = Some ex → ev_cid ex = ev_cid e → ev_cid e ≠ 0%N →
    cond_dep h e ex → below h x e) →
  extends u T e.
Proof.
  intros Hal Hk Hids Hpr Htp Hj Hl Hthr Hcond.
  pose proof (allocated_wf h e conf_wf Hal) as Hw.
  destruct (allocated_built h e Hal) as [->|Hb]; [done|].
  assert (∀ x, below h x e → in_conf u c x) as Hsub.
  { intros x (q & Hq & Hle). eapply conf_le; [|done]. auto. }
  split; try done.
  - by eapply built_fresh.
  - intros q Hq Hc. by eapply (built_cutoff u (in_conf u c) e q conf_uf Hb Hw conf_free Hsub).
  - intros Hn Hnone x ex Hx Hex Heq. specialize (Hl Hn). rewrite Hnone in Hl.
    destruct (co_locks _ _ Hco x ex (Hsub x Hx) Hex) as [Hu _]; congruence.
  - intros x ex Hx Hex Hd. pose proof (conf_wf x ex Hex) as Hwx.
    destruct (wf_depth_tight _ _ Hw) as [[? _]|(q0 & Hq0 & _)]; [done|].
    apply (dependent_cases h e ex Hw Hwx Hids) in Hd as [Ht|[Hi|[Hi|[Hd|[[Hlid Hn]|(Hcid & Hn & Hd)]]]]].
    + destruct (ho_last _ _ conf_heads x ex Hx Hex) as (q & Hq & Hle).
      { intros Hi. apply Hk, (wf_tid _ _ Hw). rewrite Ht. by apply (wf_tid _ _ Hwx). }
      rewrite <-Ht, <-Htp in Hq. exists q. split; [by apply thread_predecessor_pred | done].
    + done.
    + assert (x = uf_root u) as -> by (by eapply (in_heads_init u T conf_uf conf_heads)).
      exists q0. split; [done|]. by apply root_le, Hpr.
    + eauto.
    + specialize (Hl Hn). destruct (co_locks _ _ Hco x ex Hx Hex) as [Hu Hle]; [congruence|].
      rewrite <-Hlid in *. destruct (lock_predecessor e) as [lp|] eqn:Hlp; [|congruence].
      exists lp. split; [by apply lock_predecessor_pred | by apply Hle].
    + eauto.
Qed.

(** ** Heads of threads *)

Lemma existing_head_ok t p : existing_head c t = Ok p → smap_find t T = Some p.
Proof. unfold existing_head. by destruct (smap_find t T); [intros [= ->]|]. Qed.

Lemma running_head_ok t p :
  running_head h c t = Ok p →
  smap_find t T = Some p ∧ at_event h p (λ e, ev_kind e ≠ thread_exit ∧ ev_kind e ≠ wait1).
Proof.
  unfold running_head. intros. res_inv_ev. asserts_prop.
  split; [by apply existing_head_ok|]. eexists. by split.
Qed.

Lemma waiting_head_ok t p :
  waiting_head h c t = Ok p →
  smap_find t T = Some p ∧ at_event h p (λ e, ev_kind e = wait1).
Proof.
  unfold waiting_head. intros. res_inv_ev. asserts_prop.
  split; [by apply existing_head_ok|]. eexists. by split.
Qed.

(** The head of a thread is the last of its events. *)
Lemma head_last t p x ex :
  smap_find t T = Some p → in_conf u c x → h !! x = Some ex → ev_tid ex = t →
  ev_kind ex ≠ program_init → thread_le h x p.
Proof.
  intros Hp Hx Hex <- Hk. destruct (ho_last _ _ conf_heads x ex Hx Hex Hk) as (p' & Hp' & Hle).
  assert (p' = p) as -> by congruence. destruct (ho_head _ _ conf_heads _ _ Hp) as (ep & Hep & Ht & _).
  eapply (same_thread_le h (in_conf u c) conf_wf conf_free); eauto using conf_head.
  by apply causal_le_dep, Hle; apply conf_wf.
Qed.

(** A thread that went on after a [wait1] was notified before. *)
Lemma passed_wait1 t p w :
  smap_find t T = Some p → in_conf u c w →
  at_event h w (λ x, ev_tid x = t ∧ ev_kind x = wait1) →
  w = p ∨ ∃ n, in_conf u c n ∧ notifies h n w ∧ causal_lt h n p.
Proof.
  intros Hp Hw (ew & Hew & Ht & Hk).
  assert (thread_le h w p) as Hle by (eapply head_last; eauto; congruence).
  destruct Hle as [|w x p Hwx Hxp]; [by left | right].
  assert (in_conf u c x) as Hx.
  { eapply conf_le; [by eapply conf_head|]. by apply thread_le_causal. }
  destruct (co_wake _ _ Hco x w Hx Hwx) as (ex & Hex & Hkx); [by exists ew|].
  destruct (ev_data ex) as [| | | | | | | | | | | | |tp np lp cid lid b| |] eqn:Hd;
    unfold ev_kind in Hkx; rewrite Hd in Hkx; try discriminate Hkx.
  assert (tp = w) as ->.
  { destruct Hwx as (ex' & ? & Htp). assert (ex' = ex) as -> by congruence.
    unfold thread_predecessor in Htp. rewrite Hd in Htp. by injection Htp. }
  assert (imm h np x) as Hi.
  { exists ex. split; [done|]. unfold predecessors. rewrite Hd. set_solver. }
  exists np. split_and!.
  - eapply conf_le; [exact Hx|]. by apply rtc_once.
  - by eapply (co_woken _ _ Hco).
  - eapply tc_rtc_r; [by apply tc_once | by apply thread_le_causal].
Qed.

(** A notification of one of the thread's [wait1]s is below the thread's
    head, unless the head is that [wait1]. *)
Lemma woken_below t p n w :
  smap_find t T = Some p → in_conf u c n → notifies h n w →
  at_event h w (λ x, ev_tid x = t) → w = p ∨ causal_lt h n p.
Proof.
  intros Hp Hn Hnw (ew & Hew & Ht). pose proof (notifies_in u c Hco n w Hn Hnw) as Hw.
  assert (ev_kind ew = wait1) as Hk.
  { destruct Hnw as (en & Hen & Hin).
    destruct (notified_wait1 h en w (conf_wf n en Hen) Hin) as [(x & ? & ? & _) _]. congruence. }
  destruct (passed_wait1 t p w Hp Hw) as [->|(m & Hm & Hmw & Hlt)]; [by exists ew | by left | right].
  assert (m = n) as -> by (by eapply (co_one _ _ Hco)). done.
Qed.

(** A listed [wait1] is the head of its thread. *)
Lemma waiting_is_head k t p w :
  smap_find t T = Some p → w ∈ cond_list c k →
  at_event h w (λ x, ev_tid x = t ∧ ev_kind x = wait1) → w = p.
Proof.
  intros Hp Hw Hat. destruct (passed_wait1 t p w Hp) as [->|(m & Hm & Hmw & _)];
    [by eapply (co_cond _ _ Hco) | done | done |].
  by destruct (co_waiting _ _ Hco k w m Hw Hm).
Qed.
End intro.
