(* ===== verification/OpProofs.v ===== *)
(** * Every operation of a configuration builds a committable event

    For each operation, the event of the extension it returns satisfies
    [committable]: it extends the configuration's trace, and [commit] can
    book it. Some operations rely on their caller for facts they do not
    check themselves; these are the hypotheses of the lemmas and are
    collected in [admissible] (file [System]). *)

From stdpp Require Import base tactics list gmap numbers relations.
From S2P Require Import Prelude StdMap ThreadId Event Comb CombEnum CombProofs Cone Alloc Causality.
From S2P Require Import AllocProofs HeapExt Order Walks Independence Unfolding Configuration.
From S2P Require Import ColorProofs UnfoldingProofs DedupProofs Dependence Heads Booking ConfInv.
From S2P Require Import OpBase.

(** ** What the constructors build *)

Section data.
Context {PL : Payload}.
Implicit Types (h : heap) (e : event).

Ltac alloc_data := intros; res_inv_ev; eauto using event_of_pred_fields, event_of_preds_fields.

Lemma alloc_local_data h tid tp path e :
  alloc_local h tid tp path = Ok e → ev_tid e = tid ∧ ev_data e = Local tp path.
Proof. unfold alloc_local. alloc_data. Qed.

Lemma alloc_thread_create_data h tid tp nt e :
  alloc_thread_create h tid tp nt = Ok e → ev_tid e = tid ∧ ev_data e = ThreadCreate tp nt.
Proof. unfold alloc_thread_create. alloc_data. Qed.

Lemma alloc_thread_join_data h tid tp j e :
  alloc_thread_join h tid tp j = Ok e → ev_tid e = tid ∧ ev_data e = ThreadJoin tp j.
Proof. unfold alloc_thread_join. alloc_data. Qed.

Lemma alloc_thread_init_data h tid c e :
  alloc_thread_init h tid c = Ok e → ev_tid e = tid ∧ ev_data e = ThreadInit c.
Proof. unfold alloc_thread_init. alloc_data. Qed.

Lemma alloc_thread_exit_data h tid tp a e :
  alloc_thread_exit h tid tp a = Ok e → ev_tid e = tid ∧ ev_data e = ThreadExit tp a.
Proof. unfold alloc_thread_exit. alloc_data. Qed.

Lemma alloc_lock_create_data h tid l tp e :
  alloc_lock_create h tid l tp = Ok e → ev_tid e = tid ∧ ev_data e = LockCreate tp l.
Proof. unfold alloc_lock_create. alloc_data. Qed.

Lemma alloc_lock_destroy_data h tid l tp lp e :
  alloc_lock_destroy h tid l tp lp = Ok e → ev_tid e = tid ∧ ev_data e = LockDestroy tp lp l.
Proof. unfold alloc_lock_destroy. alloc_data. Qed.

Lemma alloc_lock_acquire_data h tid l tp lp e :
  alloc_lock_acquire h tid l tp lp = Ok e → ev_tid e = tid ∧ ev_data e = LockAcquire tp lp l false.
Proof. unfold alloc_lock_acquire. alloc_data. Qed.

Lemma alloc_lock_release_data h tid l tp lp a e :
  alloc_lock_release h tid l tp lp a = Ok e → ev_tid e = tid ∧ ev_data e = LockRelease tp lp l a.
Proof. unfold alloc_lock_release. alloc_data. Qed.

Lemma alloc_condition_variable_create_data h tid k tp e :
  alloc_condition_variable_create h tid k tp = Ok e → ev_tid e = tid ∧ ev_data e = ConditionVariableCreate tp k.
Proof. unfold alloc_condition_variable_create. alloc_data. Qed.

Lemma alloc_condition_variable_destroy_data h tid k tp cps e :
  alloc_condition_variable_destroy h tid k tp cps = Ok e → ev_tid e = tid ∧ ev_data e = ConditionVariableDestroy tp (sort_ptrs cps) k.
Proof. unfold alloc_condition_variable_destroy. alloc_data. Qed.

Lemma alloc_wait1_data h tid k l tp lp cps e :
  alloc_wait1 h tid k l tp lp cps = Ok e → ev_tid e = tid ∧ ev_data e = Wait1 tp lp (sort_ptrs cps) k l.
Proof. unfold alloc_wait1. alloc_data. Qed.

Lemma alloc_wait2_data h tid k l tp lp np e :
  alloc_wait2 h tid k l tp lp np = Ok e → ev_tid e = tid ∧ ev_data e = Wait2 tp np lp k l false.
Proof. unfold alloc_wait2. alloc_data. Qed.

Lemma alloc_signal_data h tid k tp w e :
  alloc_signal h tid k tp w = Ok e → ev_tid e = tid ∧ ev_data e = Signal tp [w] k.
Proof. unfold alloc_signal. alloc_data. Qed.

Lemma alloc_signal_lost_data h tid k tp cps e :
  alloc_signal_lost h tid k tp cps = Ok e → ev_tid e = tid ∧ ev_data e = Signal tp (sort_ptrs cps) k.
Proof. unfold alloc_signal_lost. alloc_data. Qed.

Lemma alloc_broadcast_data h tid k tp cps e :
  alloc_broadcast h tid k tp cps = Ok e →
  ev_tid e = tid ∧ ∃ l n, ev_data e = Broadcast tp l n k ∧ ∀ q, q ∈ l ↔ q ∈ cps.
Proof.
  intros Ha. unfold alloc_broadcast in Ha. apply bind_ok in Ha as ([[w sb] cr] & Hg & Ha).
  apply bind_ok in Ha as (e' & Hf & Ha). res_inv.
  destruct (event_of_preds_fields _ _ _ _ _ _ _ Hf) as [Ht Hd]. split; [done|].
  eexists _, _. split; [done|]. intros q. apply broadcast_groups_perm in Hg.
  by rewrite Hg, sort_ptrs_elem.
Qed.
End data.

Section intro.
Context {PL : Payload} {AL : Allocator}.
Implicit Types (e : event).

Context (u : unfolding) (c : configuration).
Abbreviation h := (uf_heap u).
Abbreviation T := (cf_thread_heads c).
Hypothesis Hco : conf_ok u c.

Lemma wf_in x ex : h !! x = Some ex → wf_event h ex.
Proof. apply (conf_wf u c Hco). Qed.

(** ** Threads *)

Lemma tid_in_heads x ex :
  in_conf u c x → h !! x = Some ex → ev_kind ex ≠ program_init →
  is_Some (smap_find (ev_tid ex) T).
Proof.
  intros Hx Hex Hk. destruct (ho_last _ _ (conf_heads u c Hco) x ex Hx Hex Hk) as (p & Hp & _). eauto.
Qed.

(** A thread that has exited stays where it is. *)
Lemma exit_last t p x ex :
  smap_find t T = Some p → in_conf u c x → h !! x = Some ex → ev_tid ex = t →
  ev_kind ex = thread_exit → x = p.
Proof.
  intros Hp Hx Hex Ht Hk. assert (thread_le h x p) as Hle.
  { eapply (head_last u c Hco); eauto; congruence. }
  destruct Hle as [|x z p (ez & Hez & Htp) _]; [done|]. exfalso.
  destruct (wf_thread_pred _ _ (wf_in z ez Hez) x Htp) as (ex' & ? & _ & _ & Hne). congruence.
Qed.

(** Only a join has an exit among its predecessors. *)
Lemma exit_successor ez q eq :
  wf_event h ez → q ∈ predecessors ez → h !! q = Some eq → ev_kind eq = thread_exit →
  ∃ tp, ev_data ez = ThreadJoin tp q.
Proof.
  intros Hw Hq Heq Hk. pose proof (wf_class _ _ Hw) as Hcl.
  assert (thread_predecessor ez ≠ Some q) as Htp.
  { intros Htp. destruct (wf_thread_pred _ _ Hw q Htp) as (x & ? & _ & _ & ?). congruence. }
  assert (∀ ks (Φ : event → Prop), at_event h q (λ x, kind_in ks x ∧ Φ x) →
    existsb (kind_eqb thread_exit) ks = true) as Hks.
  { intros ks Φ (x & Hx & Hin & _). assert (x = eq) as -> by congruence.
    unfold kind_in in Hin. apply existsb_elem_of. exists (ev_kind eq). rewrite Hk in *. done. }
  unfold class_ok, cond_preds_ok, predecessors, thread_predecessor in *.
  destruct (ev_data ez) as
    [tp| |tp|tp j|cr|tp|tp|tp [l|] lid|tp [l|] lid k|tp l lid a|tp|tp cps cid|tp l cps cid lid
    |tp np l cid lid k|tp cps cid|tp cps n cid]; simpl in *;
    rewrite ?two_predecessors_elem, ?elem_of_cons, ?elem_of_nil in Hq.
  all: repeat match goal with H : _ ∨ _ |- _ => destruct H as [H|H] end;
    try (subst; congruence); try done; try (by subst; eexists).
  all: exfalso; subst.
  - by apply Hks in Hcl.
  - injection Hq as ->. by apply Hks in Hcl.
  - injection Hq as ->. by apply Hks in Hcl.
  - injection Hq as ->. by apply Hks in Hcl.
  - apply Hcl in Hq. by apply Hks in Hq.
  - destruct Hcl as [Hcl _]. by apply Hks in Hcl.
  - destruct Hcl as [_ Hcl]. apply Hcl in Hq. by apply Hks in Hq.
  - destruct Hcl as (_ & Hcl & _). by apply Hks in Hcl.
  - destruct Hcl as (_ & _ & Hcl). by apply Hks in Hcl.
  - destruct Hcl as [Hcl _]. apply Hcl in Hq. by apply Hks in Hq.
  - destruct Hcl as [Hcl _]. apply Hcl in Hq. by apply Hks in Hq.
Qed.

(** An exited thread's last event is below another thread's head only if
    some thread has joined it. *)
Lemma not_joined je ej p :
  in_conf u c p → h !! je = Some ej → ev_kind ej = thread_exit →
  (∀ x ex, in_conf u c x → h !! x = Some ex → joined_thread h ex ≠ Ok (ev_tid ej)) →
  ¬ causal_lt h je p.
Proof.
  intros Hp Hej Hk Hnj Hlt.
  assert (∃ z ez, h !! z = Some ez ∧ je ∈ predecessors ez ∧ causal_le h z p)
    as (z & ez & Hez & Hin & Hle).
  { unfold causal_lt in Hlt. destruct Hlt as [je p (ez & Hez & Hin)|je z p (ez & Hez & Hin) Hzp].
    - exists p, ez. split_and!; [done..|reflexivity].
    - exists z, ez. split_and!; [done..|by apply tc_rtc]. }
  destruct (exit_successor ez je ej (wf_in z ez Hez) Hin Hej Hk) as [tp Hd].
  apply (Hnj z ez); [by eapply (conf_le u c Hco) | done |]. unfold joined_thread. rewrite Hd.
  by rewrite (proj2 (deref_ok _ _ _) Hej).
Qed.

(** ** Committing an event of a running thread *)

Lemma committable_intro e te :
  allocated h e → ids_nonzero e → thread_predecessor e = Some te →
  smap_find (ev_tid e) T = Some te →
  at_event h te (λ x, ev_kind x ≠ thread_exit ∧ ev_kind x ≠ wait1) →
  (∀ q, q ∈ predecessors e → in_conf u c q) →
  (∀ tp j, ev_data e = ThreadJoin tp j → ¬ causal_lt h j tp) →
  lock_ready c e →
  (∀ x ex, in_conf u c x → h !! x = Some ex → thread_dep h e ex → below h x e) →
  (∀ t x ex, created_tid e = Ok t → in_conf u c x → h !! x = Some ex → created_tid ex ≠ Ok t) →
  (ev_cid e ≠ 0%N → smap_find (ev_cid e) (cf_cond_heads c) = None →
    sset_has (ev_cid e) (cf_used_cond_ids c) = false ∧ condition_variable_predecessors e = []) →
  (∀ x ex, in_conf u c x → h !! x = Some ex → ev_cid ex = ev_cid e → ev_cid e ≠ 0%N →
    cond_dep h e ex → below h x e) →
  (∀ w, w ∈ notified h e → w ∈ cond_list c (ev_cid e)) →
  (ev_kind e = condition_variable_create → smap_find (ev_cid e) (cf_cond_heads c) = None) →
  (ev_kind e = condition_variable_destroy → condition_variable_predecessors e = [] →
    smap_find (ev_cid e) (cf_cond_heads c) = None) →
  (∀ w, settled h e → w ∈ cond_list c (ev_cid e) → at_event h w (λ x, ev_kind x = wait1) →
    w ∈ notified h e) →
  committable u c e.
Proof.
  intros Hal Hids Htp Hhead (et & Het & Hk1 & Hk2) Hpr Hj Hl Hthr Hcr Hlive Hcond Hnot Hcc Hcd Hm.
  pose proof (allocated_wf h e (conf_wf u c Hco) Hal) as Hw.
  assert (ev_kind e ≠ program_init) as Hki.
  { unfold thread_predecessor, ev_kind in *. by destruct (ev_data e). }
  split; try done.
  - apply (extends_intro u c Hco); try done. by rewrite Hhead.
  - intros w Hw' (x & Hx & Hkx). congruence.
  - intros tp np lp cid lid b Hd. exfalso. pose proof (wf_class _ _ Hw) as Hcl.
    unfold class_ok, thread_predecessor in *. rewrite Hd in *. injection Htp as ->.
    destruct Hcl as ((x & ? & ?) & _). congruence.
Qed.

(** An event without a condition variable. *)
Lemma committable_plain e te :
  allocated h e → ids_nonzero e → ev_cid e = 0%N → thread_predecessor e = Some te →
  smap_find (ev_tid e) T = Some te →
  at_event h te (λ x, ev_kind x ≠ thread_exit ∧ ev_kind x ≠ wait1) →
  (∀ q, q ∈ predecessors e → in_conf u c q) →
  (∀ tp j, ev_data e = ThreadJoin tp j → ¬ causal_lt h j tp) →
  lock_ready c e →
  (∀ x ex, in_conf u c x → h !! x = Some ex → thread_dep h e ex → below h x e) →
  (∀ t x ex, created_tid e = Ok t → in_conf u c x → h !! x = Some ex → created_tid ex ≠ Ok t) →
  committable u c e.
Proof.
  intros Hal Hids Hc0. intros.
  assert (is_cond_event (ev_kind e) = false) as Hk.
  { destruct (is_cond_event (ev_kind e)) eqn:E; [|done]. by destruct (cid_nonzero e Hids E). }
  eapply committable_intro; try done.
  - intros w. rewrite notified_nil by (by destruct (ev_kind e)). by intros ?%elem_of_nil.
  - intros E. by rewrite E in Hk.
  - intros E. by rewrite E in Hk.
  - intros w [E|[E _]]; by rewrite E in Hk.
Qed.

(** A proposed extension is committable and has the next index. *)
Definition proposes (r : res (configuration * extension)) : Prop :=
  ∀ c' x, r = Ok (c', x) → committable u c (ex_event x) ∧ (c', x) = ex (ex_event x) c.

Lemma proposes_ok e : committable u c e → proposes (Ok (ex e c)).
Proof. intros Hc c' x [= <- <-]. done. Qed.

Lemma proposes_bind {A} (m : res A) f : (∀ a, m = Ok a → proposes (f a)) → proposes (m ≫= f).
Proof. intros Hf c' x (a & Ha & Hx)%bind_ok. by eapply Hf. Qed.

Lemma proposes_err f : proposes (Err f).
Proof. by intros c' x. Qed.

Lemma te_in t te : smap_find t T = Some te → in_conf u c te.
Proof. apply (conf_head u c). Qed.

End intro.

(** Unfold an operation into its successful runs. *)
Ltac op_steps :=
  repeat first
    [ apply proposes_err
    | match goal with
      | |- proposes _ _ (mbind _ _) => apply proposes_bind; intros ? ?
      | |- proposes _ _ (match ?x with _ => _ end) => destruct x eqn:?
      end ].

(** The head of the operating thread. *)
Ltac op_head te Hte Hrun :=
  match goal with H : running_head _ _ _ = Ok ?a |- _ =>
    rename a into te; apply running_head_ok in H; destruct H as [Hte Hrun] end;
  res_inv; asserts_prop.

(** The event of an operation without a condition variable. *)
Ltac op_plain e te Hal Ht Hd :=
  apply proposes_ok, (committable_plain _ _ ltac:(eassumption) e te);
    unfold ev_cid, thread_predecessor, predecessors, lock_ready, lock_predecessor, ev_lid, created_tid;
    rewrite ?Hd, ?Ht; try done;
    try (apply (allocated_ids _ e Hal); unfold ev_kind; by rewrite Hd);
    try (intros q ->%list_elem_of_singleton; by eapply te_in).

(** The kind of the new event decides which dependencies it can have. *)
Ltac op_dep Hd :=
  let Hdep := fresh "Hdep" in
  intros x ex Hx Hex Hdep; unfold thread_dep in Hdep;
  let H := type of Hdep in
  match H with context [ev_kind ?e] => unfold ev_kind at 1 in Hdep end;
  rewrite Hd in Hdep; simpl in Hdep; try done.

Section operations.
Context {PL : Payload} {AL : Allocator}.
Implicit Types (e : event).

Context (u : unfolding) (c : configuration).
Abbreviation h := (uf_heap u).
Abbreviation T := (cf_thread_heads c).
Hypothesis Hco : conf_ok u c.

Lemma create_thread_ok thread nt :
  (∀ x ex, in_conf u c x → h !! x = Some ex → created_tid ex ≠ Ok nt) →
  proposes u c (create_thread h c thread nt).
Proof.
  intros Hadm. unfold create_thread. op_steps. op_head te Hte Hrun.
  match goal with H : alloc_thread_create _ _ _ _ = Ok ?a |- _ => rename a into e; rename H into Ha end.
  destruct (alloc_thread_create_data _ _ _ _ _ Ha) as [Ht Hd].
  assert (allocated h e) as Hal by (by eapply alloc_is_thread_create).
  op_plain e te Hal Ht Hd.
  - op_dep Hd. destruct (ev_kind ex) eqn:Hk; try done. exfalso.
    unfold created_tid in Hdep. rewrite Hd in Hdep. injection Hdep as Hdep.
    destruct (tid_in_heads u c Hco x ex Hx Hex) as [q Hq]; [congruence|].
    match goal with H : smap_has _ _ = false |- _ => unfold smap_has in H end.
    by rewrite Hdep, Hq in *.
  - intros t x ex [= <-]. apply Hadm.
Qed.

Lemma exit_thread_ok thread atomic : proposes u c (exit_thread h c thread atomic).
Proof.
  unfold exit_thread. op_steps. op_head te Hte Hrun.
  match goal with H : alloc_thread_exit _ _ _ _ = Ok ?a |- _ => rename a into e; rename H into Ha end.
  destruct (alloc_thread_exit_data _ _ _ _ _ Ha) as [Ht Hd].
  assert (allocated h e) as Hal by (by eapply alloc_is_thread_exit).
  op_plain e te Hal Ht Hd. op_dep Hd. destruct (ev_kind ex) eqn:Hk; try done. exfalso.
  rewrite Ht in Hdep. unfold joined_thread in Hdep. unfold ev_kind in Hk.
  destruct (ev_data ex) as [| | |tp j| | | | | | | | | | | |] eqn:Hdx; try done. res_inv_ev.
  destruct Hrun as (et & Het & Hke & _).
  pose proof (wf_class _ _ (wf_in u c Hco x ex Hex)) as Hcl. unfold class_ok in Hcl. rewrite Hdx in Hcl.
  destruct Hcl as (ej & Hej & Hkj & _).
  match goal with H : h !! j = Some ?y |- _ => assert (y = ej) as -> by congruence end.
  assert (j = te) as ->; [|congruence].
  eapply (exit_last u c Hco (ev_tid ej)); try done; [congruence|]. eapply (conf_le u c Hco); [exact Hx|].
  apply rtc_once. exists ex. split; [done|]. unfold predecessors. rewrite Hdx. set_solver.
Qed.

Lemma join_thread_ok thread joined :
  (∀ x ex, in_conf u c x → h !! x = Some ex → joined_thread h ex ≠ Ok joined) →
  proposes u c (join_thread h c thread joined).
Proof.
  intros Hadm. unfold join_thread. op_steps. op_head te Hte Hrun.
  match goal with H : existing_head _ _ = Ok ?a |- _ =>
    rename a into je; apply existing_head_ok in H; rename H into Hje end.
  match goal with H : alloc_thread_join _ _ _ _ = Ok ?a |- _ => rename a into e; rename H into Ha end.
  match goal with H : deref _ je = Ok ?a |- _ =>
    rename a into ej; apply deref_ok in H; rename H into Hej end.
  destruct (alloc_thread_join_data _ _ _ _ _ Ha) as [Ht Hd].
  assert (allocated h e) as Hal by (by eapply alloc_is_thread_join).
  assert (ev_tid ej = joined) as Htj.
  { destruct (ho_head _ _ (conf_heads u c Hco) _ _ Hje) as (x & ? & ? & _). congruence. }
  op_plain e te Hal Ht Hd.
  - intros q [->|[->|Hq]%elem_of_cons]%elem_of_cons; [by eapply te_in..|by apply elem_of_nil in Hq].
  - intros tp j [= <- <-]. apply (not_joined u c Hco je ej te); [by eapply te_in | done | done |].
    by rewrite Htj.
  - op_dep Hd.
    assert (joined_thread h e = Ok joined) as Hje'.
    { unfold joined_thread. rewrite Hd, (proj2 (deref_ok _ _ _) Hej). simpl. by rewrite Htj. }
    rewrite Hje' in Hdep. destruct (ev_kind ex) eqn:Hk; try done.
    + destruct Hdep as (t & [= <-] & Ht2). by destruct (Hadm x ex Hx Hex).
    + injection Hdep as Hdep. exists je. unfold predecessors. rewrite Hd. split; [set_solver|].
      assert (x = je) as -> by (by eapply (exit_last u c Hco joined)). reflexivity.
Qed.

Lemma local_ok thread path :
  (∀ te, smap_find thread T = Some te → at_event h te (λ x, ev_kind x ≠ wait1)) →
  proposes u c (local_op h c thread path).
Proof.
  intros Hadm. unfold local_op. op_steps. res_inv_ev. asserts_prop.
  match goal with H : existing_head _ _ = Ok ?a |- _ =>
    rename a into te; apply existing_head_ok in H; rename H into Hte end.
  match goal with H : alloc_local _ _ _ _ = Ok ?a |- _ => rename a into e; rename H into Ha end.
  destruct (alloc_local_data _ _ _ _ _ Ha) as [Ht Hd].
  assert (allocated h e) as Hal by (by eapply alloc_is_local).
  destruct (Hadm te Hte) as (et & Het & Hkw).
  op_plain e te Hal Ht Hd.
  - exists et. split; [done|]. split; [congruence | done].
  - op_dep Hd.
Qed.

Lemma init_thread_ok thread from :
  thread ≠ tid_root →
  (∀ tc, smap_find from T = Some tc → at_event h tc (λ x, created_tid x = Ok thread)) →
  proposes u c (init_thread h c thread from).
Proof.
  intros Hroot Hadm. unfold init_thread. op_steps. res_inv_ev. asserts_prop.
  match goal with H : existing_head _ _ = Ok ?a |- _ =>
    rename a into tc; apply existing_head_ok in H; rename H into Htc end.
  match goal with H : alloc_thread_init _ _ _ = Ok ?a |- _ => rename a into e; rename H into Ha end.
  match goal with H : smap_has _ _ = false |- _ => rename H into Hnew end.
  destruct (alloc_thread_init_data _ _ _ _ Ha) as [Ht Hd].
  assert (allocated h e) as Hal by (by eapply alloc_is_thread_init).
  destruct (Hadm tc Htc) as (ec & Hec & Hcr).
  assert (smap_find thread T = None) as Hnone.
  { unfold smap_has in Hnew. by destruct (smap_find thread T). }
  assert (ev_cid e = 0%N) as Hc0 by (unfold ev_cid; by rewrite Hd).
  assert (ev_kind e = thread_init) as Hki by (unfold ev_kind; by rewrite Hd).
  apply proposes_ok. split; rewrite ?Hc0, ?Hki; try done.
  - apply (extends_intro u c Hco); unfold ev_cid, thread_predecessor, predecessors, lock_ready,
      ev_lid; rewrite ?Hd, ?Ht; try done.
    + unfold ev_kind. by rewrite Hd.
    + apply (allocated_ids _ e Hal); unfold ev_kind; by rewrite Hd.
    + intros q ->%list_elem_of_singleton. by eapply te_in.
    + op_dep Hd. destruct (ev_kind ex) eqn:Hk; try done. rewrite Ht in Hdep.
      assert (x = tc) as ->.
      { eapply (co_create _ _ Hco x tc ex ec thread); try done. by eapply te_in. }
      exists tc. unfold predecessors. rewrite Hd. split; [by left | reflexivity].
  - unfold lock_ready, ev_lid. by rewrite Hd.
  - intros w Hw. unfold notified in Hw. rewrite Hd in Hw. by apply elem_of_nil in Hw.
  - intros w Hw. unfold thread_predecessor in Hw. by rewrite Hd in Hw.
  - intros ? ? ? ? ? ? E. congruence.
  - intros t x ex Hct. unfold created_tid in Hct. by rewrite Hd in Hct.
  - intros w [E|[E _]]; by rewrite Hki in E.
Qed.

(** ** Locks *)

Lemma lock_in l le : smap_find l (cf_lock_heads c) = Some le → in_conf u c le ∧ l ≠ 0%N.
Proof. intros Hl. destruct (co_lock _ _ Hco l le Hl) as (? & ? & _). done. Qed.

Lemma lock_head_ok l le : lock_head c l = Ok le → smap_find l (cf_lock_heads c) = Some le.
Proof. unfold lock_head. by destruct (smap_find l (cf_lock_heads c)); [intros [= ->]|]. Qed.

Lemma two_in t te l lp q :
  smap_find t T = Some te → (∀ le, lp = Some le → smap_find l (cf_lock_heads c) = Some le) →
  q ∈ two_predecessors te lp → in_conf u c q.
Proof.
  intros Hte Hl [->|Hq]%two_predecessors_elem; [by eapply te_in|].
  by eapply lock_in, Hl.
Qed.

(** A lock that nobody holds can be acquired when it was never used. *)
Lemma can_acquire_unused l :
  can_acquire_lock h c l = Ok true → smap_find l (cf_lock_heads c) = None →
  sset_has l (cf_used_lock_ids c) = false.
Proof.
  unfold can_acquire_lock, last_of_lid. intros Hc Hl. rewrite Hl in Hc. simpl in Hc. res_inv.
  destruct (sset_has l (cf_used_lock_ids c)); simpl in *; by res_inv.
Qed.

Lemma create_lock_ok thread l : proposes u c (create_lock h c thread l).
Proof.
  unfold create_lock. op_steps. op_head te Hte Hrun.
  match goal with H : alloc_lock_create _ _ _ _ = Ok ?a |- _ => rename a into e; rename H into Ha end.
  destruct (alloc_lock_create_data _ _ _ _ _ Ha) as [Ht Hd].
  assert (allocated h e) as Hal by (by eapply alloc_is_lock_create).
  op_plain e te Hal Ht Hd. op_dep Hd.
Qed.

Lemma lock_destroy_ids e tp lp l : ev_data e = LockDestroy tp lp l → l ≠ 0%N → ids_nonzero e.
Proof. intros Hd Hl. unfold ids_nonzero. by rewrite Hd. Qed.

Lemma destroy_lock_ok thread l :
  (smap_find l (cf_lock_heads c) = None → sset_has l (cf_used_lock_ids c) = false) →
  proposes u c (destroy_lock h c thread l).
Proof.
  intros Hadm. unfold destroy_lock. op_steps; op_head te Hte Hrun;
  match goal with H : alloc_lock_destroy _ _ _ _ ?lp = Ok ?a, E : smap_find l _ = ?lp' |- _ =>
    rename a into e; rename H into Ha; rename E into Hl end;
  destruct (alloc_lock_destroy_data _ _ _ _ _ _ Ha) as [Ht Hd];
  assert (allocated h e) as Hal by (by eapply alloc_is_lock_destroy);
  op_plain e te Hal Ht Hd.
  - eapply lock_destroy_ids; [done|]. by eapply lock_in.
  - intros q Hq. eapply (two_in _ te l); [exact Hte | | exact Hq]. by intros ? [= <-].
  - op_dep Hd.
  - eapply lock_destroy_ids; [done|].
    match goal with H : (0 <? l)%N = true |- _ => apply N.ltb_lt in H end. lia.
  - intros _. by apply Hadm.
  - op_dep Hd.
Qed.

Lemma acquire_lock_ok thread l : proposes u c (acquire_lock h c thread l).
Proof.
  unfold acquire_lock. op_steps; op_head te Hte Hrun;
  match goal with H : alloc_lock_acquire _ _ _ _ ?lp = Ok ?a, E : smap_find l _ = ?lp' |- _ =>
    rename a into e; rename H into Ha; rename E into Hl end;
  destruct (alloc_lock_acquire_data _ _ _ _ _ _ Ha) as [Ht Hd];
  assert (allocated h e) as Hal by (by eapply alloc_is_lock_acquire);
  op_plain e te Hal Ht Hd.
  - intros q Hq. eapply (two_in _ te l); [exact Hte | | exact Hq]. by intros ? [= <-].
  - op_dep Hd.
  - intros _. apply can_acquire_unused; [congruence | done].
  - op_dep Hd.
Qed.

Lemma release_lock_ok thread l atomic : proposes u c (release_lock h c thread l atomic).
Proof.
  unfold release_lock. op_steps. op_head te Hte Hrun.
  match goal with H : lock_head _ _ = Ok ?a |- _ =>
    rename a into le; apply lock_head_ok in H; rename H into Hl end.
  match goal with H : alloc_lock_release _ _ _ _ _ _ = Ok ?a |- _ => rename a into e; rename H into Ha end.
  destruct (alloc_lock_release_data _ _ _ _ _ _ _ Ha) as [Ht Hd].
  assert (allocated h e) as Hal by (by eapply alloc_is_lock_release).
  op_plain e te Hal Ht Hd.
  - intros q Hq. eapply (two_in _ te l); [exact Hte | | exact Hq]. by intros ? [= <-].
  - op_dep Hd.
Qed.
End operations.
