(* ===== verification/OpCond.v ===== *)
(** * The operations on condition variables build committable events

    The predecessor searches ([wait1_predecessors_cond],
    [lost_notification_predecessors_cond], the search for the previous
    signals of a broadcast) leave out events that are below the new event
    anyway; the lemmas here show that nothing else is left out. *)

From stdpp Require Import base tactics list gmap numbers relations.
From S2P Require Import Prelude StdMap ThreadId Event Comb CombEnum CombProofs Cone Alloc Causality.
From S2P Require Import AllocProofs HeapExt Order Walks Independence Unfolding Configuration.
From S2P Require Import ColorProofs UnfoldingProofs DedupProofs Dependence Heads Booking ConfInv.
From S2P Require Import OpBase OpProofs.

Section conds.
Context {PL : Payload} {AL : Allocator}.
Implicit Types (e : event).

Context (u : unfolding) (c : configuration).
Abbreviation h := (uf_heap u).
Abbreviation T := (cf_thread_heads c).
Hypothesis Hco : conf_ok u c.

(** ** Events below the head of a running thread *)

Section head.
Context (t : thread_id) (te : eid).
Hypothesis Hte : smap_find t T = Some te.
Hypothesis Hrun : at_event h te (λ x, ev_kind x ≠ thread_exit ∧ ev_kind x ≠ wait1).

Lemma head_tid et : h !! te = Some et → ev_tid et = t.
Proof.
  intros Het. destruct (ho_head _ _ (conf_heads u c Hco) _ _ Hte) as (x & ? & ? & _). congruence.
Qed.

Lemma head_not_root : t ≠ tid_root.
Proof.
  destruct (ho_head _ _ (conf_heads u c Hco) _ _ Hte) as (x & Hx & Ht & Hk).
  intros ->. apply Hk. by apply (wf_tid _ _ (wf_in u c Hco te x Hx)).
Qed.

Lemma own_below x ex :
  in_conf u c x → h !! x = Some ex → ev_tid ex = t → causal_le h x te.
Proof.
  intros Hx Hex Ht. apply thread_le_causal, (head_last u c Hco t te x ex); try done.
  intros Hk. apply head_not_root. rewrite <-Ht. by apply (wf_tid _ _ (wf_in u c Hco x ex Hex)).
Qed.

Lemma woke_below n en :
  in_conf u c n → h !! n = Some en → notifies_thread h en t → causal_le h n te.
Proof.
  intros Hn Hen (w & Hw & Hat).
  destruct (woken_below u c Hco t te n w Hte Hn) as [->|Hlt]; [by exists en | done | |].
  - exfalso. destruct (notified_wait1 h en te (wf_in u c Hco n en Hen) Hw) as [(x & Hx & Hk & _) _].
    destruct Hrun as (et & ? & _ & ?). congruence.
  - by apply causal_le_alt; right.
Qed.

Lemma less_eq_below x b :
  in_conf u c x → is_less_than_eq h x te = Ok b → b = true → causal_le h x te.
Proof.
  intros Hx Hb ->. unfold is_less_than_eq in Hb. case_bool_decide as E; [by subst|].
  destruct (is_less_than_decides h (in_conf u c) (conf_wf u c Hco) (conf_free u c Hco) x te)
    as (r & Hr & Hlt); [done | by eapply te_in |].
  rewrite Hr in Hb. injection Hb as ->. apply causal_le_alt. right. by apply Hlt.
Qed.

(** The three searches end alike. *)
Lemma kept_or_below x ex b (prev : list eid) :
  in_conf u c x → h !! x = Some ex → (b = true → x ∈ prev) →
  (if tid_eqb (ev_tid ex) t then Ok false
   else le ← is_less_than_eq h x te; Ok (negb le)) = Ok b →
  x ∈ prev ∨ causal_le h x te.
Proof.
  intros Hx Hex Hin Hb. destruct (tid_eqb _ _) eqn:Ht.
  - right. apply tid_eqb_spec in Ht. by eapply own_below.
  - res_inv. match goal with H : is_less_than_eq _ _ _ = Ok ?r |- _ => destruct r eqn:E end.
    + right. by eapply less_eq_below.
    + left. by apply Hin.
Qed.

Lemma wait1_predecessors_below preds prev x ex :
  wait1_predecessors_cond h te preds = Ok prev → x ∈ preds → in_conf u c x →
  h !! x = Some ex → ev_kind ex = condition_variable_create ∨ settled h ex →
  x ∈ prev ∨ causal_le h x te.
Proof.
  intros Hp Hin Hx Hex Hk. unfold wait1_predecessors_cond in Hp.
  apply bind_ok in Hp as (et & Het%deref_ok & Hp). rewrite (head_tid et Het) in Hp.
  destruct (filter_res_elem _ _ _ x Hp Hin) as (b & Hb & Hkeep).
  rewrite (proj2 (deref_ok _ _ _) Hex), bind_Ok_l in Hb.
  apply bind_ok in Hb as (skip & Hs & Hb). destruct skip; [right | by eapply kept_or_below].
  destruct Hk as [Hk|[Hk|[Hk Hn]]]; rewrite Hk in Hs; [done| |].
  - by eapply woke_below, broadcast_notifies.
  - exfalso. apply bind_ok in Hs as (lost & Hl & Hs).
    apply (signal_lost_notified h ex) in Hl; [|by apply (wf_in u c Hco x) | done].
    rewrite Hn, bool_decide_true in Hl by done. by subst.
Qed.

Lemma lost_predecessors_below preds prev x ex :
  lost_notification_predecessors_cond h te preds = Ok prev → x ∈ preds → in_conf u c x →
  h !! x = Some ex →
  ev_kind ex ≠ wait1 ∧
  (ev_kind ex = condition_variable_create ∨
    (is_notification (ev_kind ex) = true ∧ notified h ex ≠ []) → x ∈ prev ∨ causal_le h x te).
Proof.
  intros Hp Hin Hx Hex. unfold lost_notification_predecessors_cond in Hp.
  apply bind_ok in Hp as (et & Het%deref_ok & Hp). rewrite (head_tid et Het) in Hp.
  destruct (filter_res_elem _ _ _ x Hp Hin) as (b & Hb & Hkeep).
  rewrite (proj2 (deref_ok _ _ _) Hex), bind_Ok_l in Hb.
  apply bind_ok in Hb as (skip & Hs & Hb). split; [by intros Hk; rewrite Hk in Hs|].
  intros Hk. destruct skip; [right | by eapply kept_or_below].
  pose proof (wf_in u c Hco x ex Hex) as Hwx.
  destruct Hk as [Hk|[Hk Hn]]; [by rewrite Hk in Hs|].
  destruct (ev_kind ex) eqn:E; try done; apply bind_ok in Hs as (lost & Hl & Hs).
  - apply (signal_lost_notified h ex) in Hl; [|done..]. rewrite bool_decide_false in Hl by done.
    subst lost. apply bind_ok in Hs as (nt & Hnt & [= Hs]).
    eapply woke_below; [done..|]. eapply signal_notifies; [done..|]. apply head_not_root.
  - apply (broadcast_lost_notified h ex) in Hl; [|done..]. rewrite bool_decide_false in Hl by done.
    subst lost. by eapply woke_below, broadcast_notifies.
Qed.

Lemma broadcast_previous_below preds notified_threads prev x ex :
  broadcast_previous h t te preds notified_threads = Ok prev → x ∈ preds → in_conf u c x →
  h !! x = Some ex → ev_kind ex = signal → notified h ex ≠ [] →
  (∀ n ne, n ∈ notified_threads → smap_find n T = Some ne →
    ∀ m, in_conf u c m → ¬ notifies h m ne) →
  (∀ n, n ∈ notified_threads → is_Some (smap_find n T)) →
  x ∈ prev ∨ causal_le h x te ∨
  ∃ n ne, n ∈ notified_threads ∧ smap_find n T = Some ne ∧ causal_le h x ne.
Proof.
  intros Hp Hin Hx Hex Hk Hn Hwait Hheads. unfold broadcast_previous in Hp.
  destruct (filter_res_elem _ _ _ x Hp Hin) as (b & Hb & Hkeep).
  rewrite (proj2 (deref_ok _ _ _) Hex), bind_Ok_l in Hb.
  apply bind_ok in Hb as (skip & Hs & Hb).
  destruct skip; [|destruct (kept_or_below x ex b prev); auto].
  pose proof (wf_in u c Hco x ex Hex) as Hwx. rewrite Hk in Hs.
  apply bind_ok in Hs as (lost & Hl & Hs).
  apply (signal_lost_notified h ex) in Hl; [|done..]. rewrite bool_decide_false in Hl by done.
  subst lost. apply bind_ok in Hs as (nt & Hnt & [= Hs]).
  apply orb_true_iff in Hs as [Hs|Hs].
  - right; left. eapply woke_below; [done..|]. eapply signal_notifies; [done..|]. apply head_not_root.
  - right; right. apply existsb_elem_of in Hs as (n & Hnin & Htn).
    destruct (Hheads n Hnin) as [ne Hne].
    assert (n ≠ tid_root) as Hnr.
    { destruct (ho_head _ _ (conf_heads u c Hco) _ _ Hne) as (y & Hy & Ht & Hky).
      intros ->. apply Hky. by apply (wf_tid _ _ (wf_in u c Hco ne y Hy)). }
    destruct (signal_notifies h ex nt n Hnt Htn Hnr) as (w & Hw & Hat).
    exists n, ne. split_and!; [done..|].
    destruct (woken_below u c Hco n ne x w Hne Hx) as [->|Hlt]; [by exists ex | done | |].
    + exfalso. eapply (Hwait n ne Hnin Hne x Hx). by exists ex.
    + by apply causal_le_alt; right.
Qed.
End head.

(** ** Committing an event on a condition variable *)

(** A new event whose condition variable is [k], as an operation of a running
    thread builds it. *)
Record cond_event e (te : eid) (k : cond_id_t) : Prop := {
  ce_alloc : allocated h e;
  ce_kind : is_cond_event (ev_kind e) = true;
  ce_cid : ev_cid e = k;
  ce_thread : thread_predecessor e = Some te;
  ce_head : smap_find (ev_tid e) T = Some te;
  ce_run : at_event h te (λ x, ev_kind x ≠ thread_exit ∧ ev_kind x ≠ wait1);
  ce_preds q : q ∈ predecessors e → in_conf u c q;
  ce_lock : lock_ready c e;
}.

Lemma ce_ids e te k : cond_event e te k → ids_nonzero e.
Proof.
  intros He. apply (allocated_ids h e); [apply He|]. intros E.
  pose proof (ce_kind _ _ _ He) as Hk. by rewrite E in Hk.
Qed.

Lemma ce_nonzero e te k : cond_event e te k → k ≠ 0%N.
Proof.
  intros He. rewrite <-(ce_cid _ _ _ He). apply cid_nonzero; [by eapply ce_ids | apply He].
Qed.

Lemma committable_cond e te k :
  cond_event e te k →
  (smap_find k (cf_cond_heads c) = None →
    sset_has k (cf_used_cond_ids c) = false ∧ condition_variable_predecessors e = []) →
  (∀ x ex, in_conf u c x → h !! x = Some ex → ev_cid ex = k → cond_dep h e ex → below h x e) →
  (∀ w, w ∈ notified h e → w ∈ cond_list c k) →
  (ev_kind e = condition_variable_create → smap_find k (cf_cond_heads c) = None) →
  (ev_kind e = condition_variable_destroy → condition_variable_predecessors e = [] →
    smap_find k (cf_cond_heads c) = None) →
  (∀ w, settled h e → w ∈ cond_list c k → at_event h w (λ x, ev_kind x = wait1) →
    w ∈ notified h e) →
  committable u c e.
Proof.
  intros He. pose proof (ce_ids _ _ _ He) as Hids.
  destruct He as [Hal Hk Hcid Htp Hhead Hrun Hpr Hl]. intros Hlive Hdep Hnot Hcc Hcd Hm.
  apply (committable_intro u c Hco e te); rewrite ?Hcid; try done.
  - intros tp j Hd. unfold ev_kind in Hk. by rewrite Hd in Hk.
  - intros x ex _ _ Htd. unfold thread_dep in Htd. by destruct (ev_kind e).
  - intros t x ex Hct. unfold created_tid, ev_kind in *. by destruct (ev_data e).
  - intros x ex Hx Hex Hc _. by apply Hdep.
Qed.

(** Nothing happened on an unused condition variable. *)
Lemma committable_unused e te k :
  cond_event e te k → smap_find k (cf_cond_heads c) = None →
  sset_has k (cf_used_cond_ids c) = false → condition_variable_predecessors e = [] →
  committable u c e.
Proof.
  intros He Hnone Hun Hcp. apply (committable_cond e te k He); try done.
  - intros x ex Hx Hex Hc _. destruct (co_conds _ _ Hco x ex Hx Hex) as [Hu _];
      [rewrite Hc; by eapply ce_nonzero|]. congruence.
  - intros w Hw%notified_pred. rewrite Hcp in Hw. by apply elem_of_nil in Hw.
  - intros w _ Hw. unfold cond_list in Hw. rewrite Hnone in Hw. by apply elem_of_nil in Hw.
Qed.

(** Where the events on a condition variable in use are listed. *)
Lemma live_listed k preds x ex :
  smap_find k (cf_cond_heads c) = Some preds → in_conf u c x → h !! x = Some ex →
  ev_cid ex = k → k ≠ 0%N → listed h c x ex ∧ cond_list c k = preds.
Proof.
  intros Hl Hx Hex Hc Hk. split; [|unfold cond_list; by rewrite Hl].
  destruct (co_conds _ _ Hco x ex Hx Hex) as [_ Hli]; [congruence|]. apply Hli.
  rewrite Hc, Hl. eauto.
Qed.

Lemma cond_list_live k preds q :
  smap_find k (cf_cond_heads c) = Some preds → q ∈ preds → q ∈ cond_list c k.
Proof. intros Hl. unfold cond_list. by rewrite Hl. Qed.

Lemma below_head e te x :
  thread_predecessor e = Some te → causal_le h x te → below h x e.
Proof. intros Htp Hle. exists te. split; [by apply thread_predecessor_pred | done]. Qed.

Lemma below_cond e q x :
  q ∈ condition_variable_predecessors e → causal_le h x q → below h x e.
Proof. intros Hq Hle. exists q. split; [by apply condition_variable_predecessors_pred | done]. Qed.

Lemma notifier_above n w : notifies h n w → causal_le h w n.
Proof.
  intros (en & Hen & Hw). apply rtc_once. exists en. split; [done|].
  by eapply condition_variable_predecessors_pred, notified_pred.
Qed.

(** ** The operations *)

(** The parts of [cond_event] for an event with known data. *)
Ltac cond_event_of Hd Ht :=
  unfold ev_kind, ev_cid, thread_predecessor, predecessors, lock_ready, ev_lid, lock_predecessor;
  rewrite ?Hd, ?Ht; try done.

Lemma create_cond_ok thread k : proposes u c (create_cond h c thread k).
Proof.
  unfold create_cond. op_steps. op_head te Hte Hrun.
  match goal with H : alloc_condition_variable_create _ _ _ _ = Ok ?a |- _ =>
    rename a into e; rename H into Ha end.
  match goal with H : smap_has _ _ = false |- _ => rename H into Hnew end.
  destruct (alloc_condition_variable_create_data _ _ _ _ _ Ha) as [Ht Hd].
  apply proposes_ok, (committable_unused e te k); [split | | done |].
  - by eapply alloc_is_condition_variable_create.
  - cond_event_of Hd Ht.
  - cond_event_of Hd Ht.
  - cond_event_of Hd Ht.
  - cond_event_of Hd Ht.
  - done.
  - cond_event_of Hd Ht. intros q ->%list_elem_of_singleton. by eapply te_in.
  - cond_event_of Hd Ht.
  - unfold smap_has in Hnew. by destruct (smap_find k (cf_cond_heads c)).
  - unfold condition_variable_predecessors. by rewrite Hd.
Qed.

Lemma destroy_cond_ok thread k :
  (smap_find k (cf_cond_heads c) = None → sset_has k (cf_used_cond_ids c) = false) →
  proposes u c (destroy_cond h c thread k).
Proof.
  intros Hadm. unfold destroy_cond. op_steps; op_head te Hte Hrun;
  match goal with H : alloc_condition_variable_destroy _ _ _ _ _ = Ok ?a, E : smap_find k _ = _ |- _ =>
    rename a into e; rename H into Ha; rename E into Hl end;
  destruct (alloc_condition_variable_destroy_data _ _ _ _ _ _ Ha) as [Ht Hd];
  assert (allocated h e) as Hal by (by eapply alloc_is_condition_variable_destroy).
  - rename l into preds.
    assert (∀ q, q ∈ condition_variable_predecessors e ↔ q ∈ preds ∨ q ∈ w2_list c k) as Hcp.
    { intros q. unfold condition_variable_predecessors. rewrite Hd, sort_ptrs_elem, elem_of_app. done. }
    assert (cond_event e te k) as Hce.
    { split; [done | cond_event_of Hd Ht..| done | |cond_event_of Hd Ht].
      intros q Hq. unfold predecessors in Hq. rewrite Hd in Hq. simpl in Hq.
      apply elem_of_cons in Hq as [->|Hq]; [by eapply te_in|].
      rewrite sort_ptrs_elem, elem_of_app in Hq. destruct Hq as [Hq|Hq].
      - eapply (co_cond _ _ Hco k), cond_list_live; done.
      - by eapply (co_w2 _ _ Hco k). }
    pose proof (ce_nonzero _ _ _ Hce) as Hk0.
    apply proposes_ok, (committable_cond e te k Hce); try (by rewrite Hl).
    + intros x ex Hx Hex Hc _. destruct (live_listed k preds x ex) as [Hli Hlist]; try done.
      assert (∀ y, y ∈ cond_list c (ev_cid ex) → causal_le h x y → below h x e) as Hgo.
      { intros y Hy. apply below_cond, Hcp. left. by rewrite <-Hlist, <-Hc. }
      unfold listed in Hli. destruct (ev_kind ex); try done; try (by apply (Hgo x)).
      * destruct Hli as [Hli|(n & Hn & Hnx)]; [by apply (Hgo x)|].
        apply (Hgo n); [done|]. by apply notifier_above.
      * apply (below_cond e x); [|reflexivity]. apply Hcp. right. by rewrite <-Hc.
    + intros w Hw. rewrite notified_nil in Hw by (unfold ev_kind; by rewrite Hd).
      by apply elem_of_nil in Hw.
    + unfold ev_kind. by rewrite Hd.
    + intros _ Hnil. exfalso.
      match goal with H : (0 <? length preds) = true |- _ => apply Nat.ltb_lt in H; rename H into Hlen end.
      destruct preds as [|q preds]; [simpl in Hlen; lia|].
      assert (q ∈ condition_variable_predecessors e) as Hq by (apply Hcp; left; by left).
      rewrite Hnil in Hq. by apply elem_of_nil in Hq.
    + intros w [E|[E _]]; unfold ev_kind in E; by rewrite Hd in E.
  - apply proposes_ok, (committable_unused e te k); [|done|by apply Hadm|].
    + split; [done | cond_event_of Hd Ht..| done | |cond_event_of Hd Ht].
      intros q Hq. unfold predecessors in Hq. rewrite Hd in Hq.
      apply list_elem_of_singleton in Hq as ->. by eapply te_in.
    + unfold condition_variable_predecessors. by rewrite Hd.
Qed.

Lemma lock_ready_of e l le :
  ev_lid e = l → lock_predecessor e = Some le → smap_find l (cf_lock_heads c) = Some le →
  lock_ready c e.
Proof. intros Hl Hp Hf _. by rewrite Hp, Hl. Qed.

(** The list of a condition variable holds events of the configuration. *)
Lemma preds_in k preds q :
  smap_find k (cf_cond_heads c) = Some preds → q ∈ preds → in_conf u c q.
Proof. intros Hl Hq. by eapply (co_cond _ _ Hco k), cond_list_live. Qed.

Lemma wait1_ok thread k l :
  (smap_find k (cf_cond_heads c) = None → sset_has k (cf_used_cond_ids c) = false) →
  proposes u c (wait1_op h c thread k l).
Proof.
  intros Hadm. unfold wait1_op. op_steps; op_head te Hte Hrun;
  match goal with H : lock_head _ _ = Ok ?a |- _ =>
    rename a into le; apply lock_head_ok in H; rename H into Hle end;
  match goal with H : alloc_wait1 _ _ _ _ _ _ _ = Ok ?a, E : smap_find k _ = _ |- _ =>
    rename a into e; rename H into Ha; rename E into Hl end;
  destruct (alloc_wait1_data _ _ _ _ _ _ _ _ Ha) as [Ht Hd];
  assert (allocated h e) as Hal by (by eapply alloc_is_wait1);
  assert (lock_ready c e) as Hlr by (apply (lock_ready_of e l le);
    [unfold ev_lid | unfold lock_predecessor | ]; by rewrite ?Hd).
  - rename l0 into preds.
    match goal with H : wait1_predecessors_cond _ _ _ = Ok ?a |- _ =>
      rename a into prev; rename H into Hprev end.
    assert (∀ q, q ∈ prev → q ∈ preds) as Hsub.
    { intros q Hq. unfold wait1_predecessors_cond in Hprev. res_inv. by eapply filter_res_sub. }
    assert (∀ q, q ∈ condition_variable_predecessors e ↔ q ∈ prev) as Hcp.
    { intros q. unfold condition_variable_predecessors. by rewrite Hd, sort_ptrs_elem. }
    assert (cond_event e te k) as Hce.
    { split; [done | cond_event_of Hd Ht..| done | |done].
      intros q Hq. unfold predecessors in Hq. rewrite Hd in Hq. simpl in Hq.
      apply elem_of_cons in Hq as [->|Hq]; [by eapply te_in|].
      apply elem_of_cons in Hq as [->|Hq]; [by eapply (lock_in u c Hco)|].
      apply sort_ptrs_elem, Hsub in Hq. by eapply preds_in. }
    pose proof (ce_nonzero _ _ _ Hce) as Hk0.
    apply proposes_ok, (committable_cond e te k Hce); try (by rewrite Hl).
    + intros x ex Hx Hex Hc Hdep. destruct (live_listed k preds x ex) as [Hli Hlist]; try done.
      assert (x ∈ preds → ev_kind ex = condition_variable_create ∨ settled h ex → below h x e) as Hgo.
      { intros Hin Hs. destruct (wait1_predecessors_below thread te Hte Hrun preds prev x ex)
          as [Hp|Hp]; try done.
        - apply (below_cond e x); [by apply Hcp | reflexivity].
        - eapply below_head; [apply Hce | done]. }
      unfold listed in Hli. rewrite Hc, Hlist in Hli.
      unfold cond_dep in Hdep. unfold ev_kind at 1 in Hdep. rewrite Hd in Hdep. simpl in Hdep.
      unfold settled in Hgo. destruct (ev_kind ex) eqn:Hk; try done; try (apply Hgo; by auto).
      rewrite Ht in Hdep. destruct Hdep as [Hn|Hn]; [apply Hgo; by auto|].
      eapply below_head; [apply Hce|]. by eapply (woke_below thread te Hte Hrun).
    + intros w Hw. rewrite notified_nil in Hw by (unfold ev_kind; by rewrite Hd).
      by apply elem_of_nil in Hw.
    + unfold ev_kind. by rewrite Hd.
    + unfold ev_kind. by rewrite Hd.
    + intros w [E|[E _]]; unfold ev_kind in E; by rewrite Hd in E.
  - apply proposes_ok, (committable_unused e te k); [|done|by apply Hadm|].
    + split; [done | cond_event_of Hd Ht..| done | |done].
      intros q Hq. unfold predecessors in Hq. rewrite Hd in Hq. simpl in Hq.
      apply elem_of_cons in Hq as [->|Hq]; [by eapply te_in|].
      apply elem_of_cons in Hq as [->|Hq]; [by eapply (lock_in u c Hco)|by apply elem_of_nil in Hq].
    + unfold condition_variable_predecessors. by rewrite Hd.
Qed.

Lemma lost_prev_sub te preds prev q :
  lost_notification_predecessors_cond h te preds = Ok prev → q ∈ prev → q ∈ preds.
Proof.
  unfold lost_notification_predecessors_cond. intros (et & _ & Hf)%bind_ok Hq.
  by eapply filter_res_sub.
Qed.

(** A lost notification has to come after every event on the condition
    variable but lost notifications; none of these is a waiting [wait1]. *)
Lemma lost_committable e te k preds prev :
  cond_event e te k → is_notification (ev_kind e) = true →
  smap_find k (cf_cond_heads c) = Some preds →
  lost_notification_predecessors_cond h te preds = Ok prev →
  (∀ q, q ∈ condition_variable_predecessors e ↔ q ∈ prev) →
  notified h e = [] → committable u c e.
Proof.
  intros Hce Hnk Hl Hprev Hcp Hn. pose proof (ce_nonzero _ _ _ Hce) as Hk0.
  assert (∀ y ey, y ∈ preds → h !! y = Some ey →
    ev_kind ey = condition_variable_create ∨
      (is_notification (ev_kind ey) = true ∧ notified h ey ≠ []) →
    ∀ x, causal_le h x y → below h x e) as Hgo.
  { intros y ey Hin Hey Hs x Hle.
    destruct (lost_predecessors_below (ev_tid e) te (ce_head _ _ _ Hce) (ce_run _ _ _ Hce) preds prev y ey)
      as [_ Hp]; [done | done | by eapply preds_in | done |].
    destruct (Hp Hs) as [Hp'|Hp'].
    - apply (below_cond e y); [by apply Hcp | done].
    - eapply below_head; [apply Hce | by etrans]. }
  apply (committable_cond e te k Hce); try (by rewrite Hl).
  - intros x ex Hx Hex Hc Hdep. destruct (live_listed k preds x ex) as [Hli Hlist]; try done.
    unfold listed in Hli. rewrite Hc, Hlist in Hli.
    assert (∀ P, notifies_thread h e P → False) as Hno.
    { intros P (w & Hw & _). rewrite Hn in Hw. by apply elem_of_nil in Hw. }
    assert (∀ n, n ∈ preds → notifies h n x → below h x e) as Hnot.
    { intros n Hin Hnx. pose proof Hnx as (en & Hen & Hw). apply (Hgo n en Hin Hen); [|by apply notifier_above].
      right. pose proof (wf_in u c Hco n en Hen) as Hwn.
      split; [by eapply notified_wait1 | intros E; rewrite E in Hw; by apply elem_of_nil in Hw]. }
    assert (is_cond_event (ev_kind ex) = true) as Hcx by (apply cid_cond_event; congruence).
    unfold cond_dep in Hdep. rewrite Hn in Hdep.
    destruct (ev_kind ex) eqn:Hk; try done.
    + apply (Hgo x ex Hli Hex); [by left | reflexivity].
    + destruct Hli as [Hli|(m & Hm & Hmx)]; [|by eapply Hnot].
      exfalso. eapply (lost_predecessors_below (ev_tid e) te (ce_head _ _ _ Hce) (ce_run _ _ _ Hce)
        preds prev x ex); done.
    + exfalso. destruct (ev_kind e); try done; by eapply Hno.
    + apply (Hgo x ex Hli Hex); [|reflexivity]. right. rewrite Hk. split; [done|].
      destruct (ev_kind e); try done; naive_solver.
    + apply (Hgo x ex Hli Hex); [|reflexivity]. right. rewrite Hk. split; [done|].
      destruct (ev_kind e); try done; naive_solver.
  - rewrite Hn. by intros w ?%elem_of_nil.
  - intros E. by rewrite E in Hnk.
  - intros E. by rewrite E in Hnk.
  - intros w _ Hw (ew & Hew & Hk). exfalso. unfold cond_list in Hw. rewrite Hl in Hw. simpl in Hw.
    eapply (lost_predecessors_below (ev_tid e) te (ce_head _ _ _ Hce) (ce_run _ _ _ Hce)
        preds prev w ew); try done. by eapply preds_in.
Qed.

(** The notification that the search for a [wait2] finds. *)
Lemma wait2_predecessor_ok w preds np :
  wait2_predecessor_cond h w preds = Ok (Some np) → np ∈ preds ∧ notifies h np w.
Proof.
  unfold wait2_predecessor_cond. intros [Hin Hf]%find_if_some. split; [done|].
  apply bind_ok in Hf as (en & Hen%deref_ok & Hf). pose proof (wf_in u c Hco np en Hen) as Hwn.
  exists en. split; [done|]. destruct (ev_kind en) eqn:Hk; try done.
  - apply bind_ok in Hf as (wp & Hwp & [= ->%bool_decide_eq_true]).
    destruct (signal_notified h en Hwn Hk) as [(w' & Hw' & ->)|[Hw' _]]; rewrite Hwp in Hw';
      [injection Hw' as ->; by left | done].
  - apply bind_ok in Hf as (ws & Hws & [= Hin'%bool_decide_eq_true]).
    destruct (broadcast_notified_list h en Hwn Hk) as (lost & _ & Hl & _). congruence.
Qed.

Lemma wait2_ok thread k l : proposes u c (wait2_op h c thread k l).
Proof.
  unfold wait2_op. op_steps. res_inv_ev. asserts_prop.
  match goal with H : existing_head _ _ = Ok ?a |- _ =>
    rename a into te; apply existing_head_ok in H; rename H into Hte end.
  match goal with H : lock_head _ _ = Ok ?a |- _ =>
    rename a into le; apply lock_head_ok in H; rename H into Hle end.
  match goal with H : wait2_predecessor_cond _ _ _ = Ok (Some ?a) |- _ =>
    rename a into np; apply wait2_predecessor_ok in H; destruct H as [Hnp Hnot] end.
  match goal with H : alloc_wait2 _ _ _ _ _ _ _ = Ok ?a, E : smap_find k _ = Some ?p |- _ =>
    rename a into e; rename p into preds; rename H into Ha; rename E into Hl end.
  destruct (alloc_wait2_data _ _ _ _ _ _ _ _ Ha) as [Ht Hd].
  assert (allocated h e) as Hal by (by eapply alloc_is_wait2).
  pose proof (allocated_wf h e (conf_wf u c Hco) Hal) as Hw.
  assert (ev_cid e = k) as Hcid by (unfold ev_cid; by rewrite Hd).
  assert (ev_kind e = wait2) as Hki by (unfold ev_kind; by rewrite Hd).
  assert (ids_nonzero e) as Hids by (apply (allocated_ids h e Hal); by rewrite Hki).
  assert (k ≠ 0%N) as Hk0 by (rewrite <-Hcid; apply cid_nonzero; [done | by rewrite Hki]).
  pose proof (preds_in k preds np Hl Hnp) as HCnp.
  assert (thread_predecessor e = Some te) as Htp by (unfold thread_predecessor; by rewrite Hd).
  assert (lock_ready c e) as Hlr by (apply (lock_ready_of e l le);
    [unfold ev_lid | unfold lock_predecessor | ]; by rewrite ?Hd).
  assert (∀ x ex, in_conf u c x → h !! x = Some ex → ev_cid ex = k →
    cond_dep h e ex → below h x e) as Hdep.
  { intros x ex Hx Hex Hc Hdep. destruct (live_listed k preds x ex) as [Hli Hlist]; try done.
    unfold listed in Hli.
    assert (notifies_thread h ex (ev_tid e) → below h x e) as Hmine.
    { intros (w & Hwx & Hat). rewrite Ht in Hat.
      destruct (woken_below u c Hco thread te x w Hte Hx) as [->|Hlt]; [by exists ex | done | |].
      - assert (x = np) as -> by (eapply (co_one _ _ Hco); [done..|by exists ex | done]).
        apply (below_cond e np); [|reflexivity]. unfold condition_variable_predecessors.
        rewrite Hd. set_solver.
      - eapply below_head; [done|]. by apply causal_le_alt; right. }
    unfold cond_dep in Hdep. rewrite Hki in Hdep. destruct (ev_kind ex) eqn:Hk; try done; try (by auto).
    eapply below_head; [done|]. eapply (co_first _ _ Hco x te ex); try done; [by eapply te_in|].
    destruct Hnot as (en & Hen & Hin).
    destruct (notified_wait1 h en te (wf_in u c Hco np en Hen) Hin) as [(y & Hy & _ & Hcy) _].
    pose proof (wf_class _ _ Hw) as Hcl. unfold class_ok in Hcl. rewrite Hd in Hcl.
    destruct Hcl as (_ & (y' & Hy' & _ & Hcy' & _) & _). congruence. }
  apply proposes_ok. split; rewrite ?Hcid, ?Hki; try done.
  - apply (extends_intro u c Hco); rewrite ?Hcid, ?Hki; try done.
    + intros q Hq. unfold predecessors in Hq. rewrite Hd in Hq. simpl in Hq.
      apply elem_of_cons in Hq as [->|Hq]; [by eapply te_in|].
      apply elem_of_cons in Hq as [->|Hq]; [done|].
      apply list_elem_of_singleton in Hq as ->. by eapply (lock_in u c Hco).
    + by rewrite Ht, Hte.
    + intros tp j E. congruence.
    + intros x ex _ _ Htd. unfold thread_dep in Htd. by rewrite Hki in Htd.
    + intros x ex Hx Hex Hc _. by apply Hdep.
  - by rewrite Hl.
  - intros w Hwn. rewrite notified_nil in Hwn by (by rewrite Hki). by apply elem_of_nil in Hwn.
  - intros tp np' lp cid lid b E. rewrite Hd in E. by injection E as <- <- _ _ _ _.
  - intros t x ex Hct. unfold created_tid in Hct. by rewrite Hd in Hct.
  - intros x ex Hx Hex Hc _. by apply Hdep.
  - intros w [E|[E _]]; by rewrite Hki in E.
Qed.

Lemma below_trans e x y : causal_le h x y → below h y e → below h x e.
Proof. intros Hle (q & Hq & Hyq). exists q. split; [done | by etrans]. Qed.

(** A notification of waiting threads comes after everything on the condition
    variable that came before one of the [wait1]s; the other notifying
    signals have to be below it. *)
Lemma notifying_committable e te k preds w0 :
  cond_event e te k → is_notification (ev_kind e) = true →
  smap_find k (cf_cond_heads c) = Some preds →
  (∀ w, w ∈ notified h e → w ∈ preds) → w0 ∈ notified h e →
  (∀ x ex, in_conf u c x → h !! x = Some ex → ev_cid ex = k → ev_kind ex = signal →
    notified h ex ≠ [] → below h x e) →
  (ev_kind e = broadcast → ∀ w, w ∈ preds → at_event h w (λ x, ev_kind x = wait1) →
    w ∈ notified h e) →
  committable u c e.
Proof.
  intros Hce Hnk Hl Hin Hw0 Hsig Hbro. pose proof (ce_nonzero _ _ _ Hce) as Hk0.
  pose proof (allocated_wf h e (conf_wf u c Hco) (ce_alloc _ _ _ Hce)) as Hwf.
  assert (∀ w, w ∈ notified h e → w ∈ cond_list c k ∧
    at_event h w (λ x, ev_kind x = wait1 ∧ ev_cid x = k)) as Hwait.
  { intros w Hw. split; [by eapply cond_list_live, Hin|].
    rewrite <-(ce_cid _ _ _ Hce). by apply notified_wait1. }
  assert (∀ w x, w ∈ notified h e → causal_le h x w → below h x e) as Hgo.
  { intros w x Hw. apply below_cond. by eapply notified_pred. }
  assert (∀ x ex, in_conf u c x → h !! x = Some ex → ev_cid ex = k → settled h ex → below h x e)
    as Hset.
  { intros x ex Hx Hex Hc Hs. apply (Hgo w0 x Hw0). destruct (Hwait w0 Hw0) as [Hw (y & Hy & Hky & _)].
    eapply (co_before _ _ Hco x w0 ex); try done; [by rewrite Hc | by exists y]. }
  assert (∀ x ex, in_conf u c x → h !! x = Some ex → notifies_thread h e (ev_tid ex) → below h x e)
    as Hthr.
  { intros x ex Hx Hex (w & Hw & y & Hy & Hty). apply (Hgo w x Hw).
    destruct (Hwait w Hw) as [Hwl (y' & Hy' & Hk & _)]. assert (y' = y) as -> by congruence.
    assert (in_conf u c w) as Hwc by (by eapply (co_cond _ _ Hco k)).
    destruct (tid_in_heads u c Hco w y Hwc Hy) as [p Hp]; [congruence|].
    assert (w = p) as <- by (eapply (waiting_is_head u c Hco k (ev_tid y)); try done; by exists y).
    by eapply (own_below (ev_tid y) w Hp). }
  apply (committable_cond e te k Hce); try (by rewrite Hl).
  - intros x ex Hx Hex Hc Hdep. destruct (live_listed k preds x ex) as [Hli Hlist]; try done.
    unfold listed in Hli. rewrite Hc, Hlist in Hli.
    assert (is_cond_event (ev_kind ex) = true) as Hcx by (apply cid_cond_event; congruence).
    destruct (ev_kind ex) eqn:Hk; try done.
    + apply (Hgo w0 x Hw0). destruct (Hwait w0 Hw0) as [Hwl (y & Hy & _ & Hcy)].
      eapply (co_first _ _ Hco x w0 ex y); try done; [by eapply (co_cond _ _ Hco k) | congruence].
    + unfold cond_dep in Hdep. rewrite Hk in Hdep. destruct (ev_kind e) eqn:Hke; try done.
      * destruct Hdep as [Hn|Hn]; [rewrite Hn in Hw0; by apply elem_of_nil in Hw0|].
        by eapply Hthr.
      * destruct Hli as [Hli|(n & Hn & Hnx)].
        -- apply (Hgo x x); [|reflexivity]. apply Hbro; [done | done |]. by exists ex.
        -- pose proof (preds_in k preds n Hl Hn) as HCn. pose proof Hnx as (en & Hen & Hxn).
           destruct (notified_wait1 h en x (wf_in u c Hco n en Hen) Hxn) as [(y & Hy & _ & Hcy) Hnn].
           assert (ev_cid en = k) as Hcn by congruence.
           apply (below_trans e x n); [by apply notifier_above|].
           destruct (ev_kind en) eqn:Hkn; try done.
           ++ apply (Hsig n en); try done. intros E. rewrite E in Hxn. by apply elem_of_nil in Hxn.
           ++ apply (Hset n en); try done. by left.
    + unfold cond_dep in Hdep. rewrite Hk in Hdep. eapply Hthr; try done.
      by destruct (ev_kind e).
    + destruct (decide (notified h ex = [])) as [Hn|Hn]; [|by eapply Hsig].
      apply (Hset x ex); try done. by right.
    + apply (Hset x ex); try done. by left.
  - intros w Hw. by apply Hwait.
  - intros E. by rewrite E in Hnk.
  - intros E. by rewrite E in Hnk.
  - intros w [E|[E Hn]] Hw Hat; [|rewrite Hn in Hw0; by apply elem_of_nil in Hw0].
    apply Hbro; [done| |done]. unfold cond_list in Hw. by rewrite Hl in Hw.
Qed.

(** What a notifying signal needs: every other notifying signal on the
    condition variable is below one of the two threads' heads. *)
Definition signals_ordered (thread nt : thread_id) (k : cond_id_t) : Prop :=
  ∀ x ex te ne, in_conf u c x → h !! x = Some ex → ev_cid ex = k → ev_kind ex = signal →
    notified h ex ≠ [] → smap_find thread T = Some te → smap_find nt T = Some ne →
    causal_le h x te ∨ causal_le h x ne.

Lemma notified_wait1_ok nt preds w :
  notified_wait1_predecessor h nt preds = Ok w → w ∈ preds.
Proof.
  unfold notified_wait1_predecessor. intros (r & Hr & Hw)%bind_ok.
  destruct r as [q|]; [|done]. injection Hw as ->. by apply find_if_some in Hr as [? _].
Qed.

Lemma signal_ok thread k nt :
  (smap_find k (cf_cond_heads c) = None → sset_has k (cf_used_cond_ids c) = false) →
  (nt ≠ tid_root → signals_ordered thread nt k) →
  proposes u c (signal_thread h c thread k nt).
Proof.
  intros Hadm Hord. unfold signal_thread. op_steps; op_head te Hte Hrun;
  match goal with E : smap_find k _ = _ |- _ => rename E into Hl end.
  - (* lost *)
    match goal with H : lost_notification_predecessors_cond _ _ _ = Ok ?a |- _ =>
      rename a into prev; rename H into Hprev end.
    match goal with H : alloc_signal_lost _ _ _ _ _ = Ok ?a |- _ => rename a into e; rename H into Ha end.
    destruct (alloc_signal_lost_data _ _ _ _ _ _ Ha) as [Ht Hd].
    assert (allocated h e) as Hal by (by eapply alloc_is_signal_lost).
    pose proof (allocated_wf h e (conf_wf u c Hco) Hal) as Hw.
    apply proposes_ok, (lost_committable e te k l prev); try done.
    + split; [done | cond_event_of Hd Ht..| done | |cond_event_of Hd Ht].
      intros q Hq. unfold predecessors in Hq. rewrite Hd in Hq. simpl in Hq.
      apply elem_of_cons in Hq as [->|Hq]; [by eapply te_in|]. rewrite sort_ptrs_elem in Hq.
      eapply preds_in; [done|]. by eapply lost_prev_sub.
    + unfold ev_kind. by rewrite Hd.
    + intros q. unfold condition_variable_predecessors. by rewrite Hd, sort_ptrs_elem.
    + destruct (signal_notified h e Hw) as [(w & Hwp & _)|[_ ?]];
        [unfold ev_kind; by rewrite Hd | | done].
      exfalso. unfold alloc_signal_lost in Ha. res_inv. asserts_prop. congruence.
  - (* notifying *)
    match goal with H : waiting_head _ _ _ = Ok ?a |- _ =>
      rename a into ne; apply waiting_head_ok in H; destruct H as [Hne (en & Hen & Hkn)] end.
    match goal with H : notified_wait1_predecessor _ _ _ = Ok ?a |- _ =>
      apply notified_wait1_ok in H; rename H into Hin end.
    match goal with H : ?a = ne |- _ => subst a end.
    match goal with H : alloc_signal _ _ _ _ _ = Ok ?a |- _ => rename a into e; rename H into Ha end.
    destruct (alloc_signal_data _ _ _ _ _ _ Ha) as [Ht Hd].
    assert (allocated h e) as Hal by (by eapply alloc_is_signal).
    assert (notified h e = [ne]) as Hn.
    { unfold notified. by rewrite Hd, Hen, (proj2 (kind_eqb_eq _ _) Hkn). }
    assert (nt ≠ tid_root) as Hnr.
    { intros ->. done. }
    apply proposes_ok, (notifying_committable e te k l ne); try done.
    + split; [done | cond_event_of Hd Ht..| done | |cond_event_of Hd Ht].
      intros q Hq. unfold predecessors in Hq. rewrite Hd in Hq. simpl in Hq.
      apply elem_of_cons in Hq as [->|Hq]; [by eapply te_in|].
      apply list_elem_of_singleton in Hq as ->. by eapply te_in.
    + unfold ev_kind. by rewrite Hd.
    + rewrite Hn. by intros w ->%list_elem_of_singleton.
    + rewrite Hn. by left.
    + intros x ex Hx Hex Hc Hk Hnx.
      destruct (Hord Hnr x ex te ne) as [Hle|Hle]; try done.
      * eapply below_head; [|done]. unfold thread_predecessor. by rewrite Hd.
      * apply (below_cond e ne); [|done]. unfold condition_variable_predecessors. rewrite Hd. by left.
    + unfold ev_kind. by rewrite Hd.
  - (* unused *)
    match goal with H : alloc_signal_lost _ _ _ _ _ = Ok ?a |- _ => rename a into e; rename H into Ha end.
    destruct (alloc_signal_lost_data _ _ _ _ _ _ Ha) as [Ht Hd].
    apply proposes_ok, (committable_unused e te k); [|done|by apply Hadm|].
    + split; [by eapply alloc_is_signal_lost | cond_event_of Hd Ht..| done | |cond_event_of Hd Ht].
      intros q Hq. unfold predecessors in Hq. rewrite Hd in Hq.
      apply list_elem_of_singleton in Hq as ->. by eapply te_in.
    + unfold condition_variable_predecessors. by rewrite Hd.
Qed.

(** The loop over the threads that a broadcast notifies. *)
Lemma broadcast_notified_ok thread preds nts l :
  broadcast_notified h c thread preds nts = Ok l →
  (∀ w, w ∈ l → ∃ n, n ∈ nts ∧ smap_find n T = Some w) ∧
  (∀ n, n ∈ nts → ∃ w, smap_find n T = Some w ∧ w ∈ l ∧ w ∈ preds ∧
    at_event h w (λ x, ev_kind x = wait1)).
Proof.
  unfold broadcast_notified. intros Hf.
  apply (for_each_inv (λ done acc,
    (∀ w, w ∈ acc → ∃ n, n ∈ done ∧ smap_find n T = Some w) ∧
    (∀ n, n ∈ done → ∃ w, smap_find n T = Some w ∧ w ∈ acc ∧ w ∈ preds ∧
      at_event h w (λ x, ev_kind x = wait1)))) in Hf; [done| |].
  { split; by intros ? ?%elem_of_nil. }
  intros nts' n acc acc' [IH1 IH2] _ Hb. res_inv. asserts_prop.
  match goal with H : waiting_head _ _ _ = Ok ?a |- _ =>
    rename a into ne; apply waiting_head_ok in H; destruct H as [Hne Hat] end.
  match goal with H : notified_wait1_predecessor _ _ _ = Ok ?a |- _ =>
    apply notified_wait1_ok in H; rename H into Hin end.
  match goal with H : ?a = ne |- _ => subst a end.
  split.
  - intros w [Hw| ->%list_elem_of_singleton]%elem_of_app.
    + destruct (IH1 w Hw) as (m & Hm & Hmf). exists m. split; [apply elem_of_app; by left | done].
    + exists n. split; [apply elem_of_app; right; by left | done].
  - intros m [Hm| ->%list_elem_of_singleton]%elem_of_app.
    + destruct (IH2 m Hm) as (w & ? & ? & ? & ?). exists w. split_and!; try done.
      apply elem_of_app; by left.
    + exists ne. split_and!; try done. apply elem_of_app; right; by left.
Qed.

(** What a notifying broadcast needs: it notifies every waiting thread. *)
Definition notifies_all_waiting (k : cond_id_t) (nts : list thread_id) : Prop :=
  ∀ w, w ∈ cond_list c k → at_event h w (λ x, ev_kind x = wait1 → ev_tid x ∈ nts).

(** The lost broadcast. *)
Lemma broadcast_lost_ok thread k te preds prev e :
  smap_find thread T = Some te →
  at_event h te (λ x, ev_kind x ≠ thread_exit ∧ ev_kind x ≠ wait1) →
  smap_find k (cf_cond_heads c) = Some preds →
  lost_notification_predecessors_cond h te preds = Ok prev →
  alloc_broadcast h thread k te prev = Ok e → committable u c e.
Proof.
  intros Hte Hrun Hl Hprev Ha.
  destruct (alloc_broadcast_data _ _ _ _ _ _ Ha) as (Ht & l & n & Hd & Hm).
  assert (allocated h e) as Hal by (by eapply alloc_is_broadcast).
  pose proof (allocated_wf h e (conf_wf u c Hco) Hal) as Hw.
  assert (∀ q, q ∈ condition_variable_predecessors e ↔ q ∈ prev) as Hcp.
  { intros q. unfold condition_variable_predecessors. by rewrite Hd. }
  apply (lost_committable e te k preds prev); try done.
  - split; [done | cond_event_of Hd Ht..| done | |cond_event_of Hd Ht].
    intros q Hq. unfold predecessors in Hq. rewrite Hd in Hq. simpl in Hq.
    apply elem_of_cons in Hq as [->|Hq]; [by eapply te_in|]. apply Hm in Hq.
    eapply preds_in; [done|]. by eapply lost_prev_sub.
  - unfold ev_kind. by rewrite Hd.
  - destruct (notified h e) as [|w ws] eqn:Hn; [done|]. exfalso.
    assert (w ∈ notified h e) as Hwn by (rewrite Hn; by left).
    pose proof (notified_pred h e w Hwn) as Hwp. apply Hcp in Hwp.
    apply (lost_prev_sub te preds) in Hwp; [|done].
    destruct (notified_wait1 h e w Hw Hwn) as [(x & Hx & Hk & _) _].
    destruct (lost_predecessors_below thread te Hte Hrun preds prev w x) as [Hno _]; try done.
    by eapply preds_in.
Qed.

(** The notifying broadcast. *)
Lemma broadcast_notifying_ok thread k te preds nts waits prev e n0 :
  smap_find thread T = Some te →
  at_event h te (λ x, ev_kind x ≠ thread_exit ∧ ev_kind x ≠ wait1) →
  smap_find k (cf_cond_heads c) = Some preds → n0 ∈ nts → notifies_all_waiting k nts →
  broadcast_notified h c thread preds nts = Ok waits →
  broadcast_previous h thread te preds nts = Ok prev →
  alloc_broadcast h thread k te (waits ++ prev) = Ok e → committable u c e.
Proof.
  intros Hte Hrun Hl Hn0 Hall Hno Hprev Ha.
  destruct (alloc_broadcast_data _ _ _ _ _ _ Ha) as (Ht & l & n & Hd & Hm).
  assert (allocated h e) as Hal by (by eapply alloc_is_broadcast).
  pose proof (allocated_wf h e (conf_wf u c Hco) Hal) as Hw.
  destruct (broadcast_notified_ok _ _ _ _ Hno) as [Hw1 Hw2].
  assert (ev_kind e = broadcast) as Hki by (unfold ev_kind; by rewrite Hd).
  assert (∀ q, q ∈ condition_variable_predecessors e ↔ q ∈ waits ++ prev) as Hcp.
  { intros q. unfold condition_variable_predecessors. by rewrite Hd. }
  assert (∀ q, q ∈ waits ++ prev → q ∈ preds) as Hsub.
  { intros q [Hq|Hq]%elem_of_app; [|by eapply filter_res_sub].
    destruct (Hw1 q Hq) as (m & Hmn & Hf). destruct (Hw2 m Hmn) as (w & Hf' & _ & ? & _). congruence. }
  assert (∀ m w, m ∈ nts → smap_find m T = Some w → w ∈ notified h e ∧ w ∈ waits ∧ w ∈ preds) as Hwait.
  { intros m w Hmn Hf. destruct (Hw2 m Hmn) as (w' & Hf' & Hin & Hp & Hat).
    assert (w' = w) as -> by congruence. split; [|done]. apply wait1_notified; try done.
    - by rewrite Hki.
    - apply Hcp, elem_of_app. by left. }
  destruct (Hw2 n0 Hn0) as (w0 & Hf0 & _).
  apply (notifying_committable e te k preds w0); try done.
  - split; [done | cond_event_of Hd Ht..| done | |cond_event_of Hd Ht].
    intros q Hq. unfold predecessors in Hq. rewrite Hd in Hq. simpl in Hq.
    apply elem_of_cons in Hq as [->|Hq]; [by eapply te_in|]. apply Hm, Hsub in Hq.
    by eapply preds_in.
  - by rewrite Hki.
  - intros w Hwn. by apply Hsub, Hcp, (notified_pred h).
  - by eapply Hwait.
  - intros x ex Hx Hex Hc Hk Hn.
    assert (k ≠ 0%N) as Hk0.
    { assert (ev_cid e = k) as <- by (unfold ev_cid; by rewrite Hd). apply cid_nonzero;
        [apply (allocated_ids h e Hal); by rewrite Hki | by rewrite Hki]. }
    destruct (live_listed k preds x ex) as [Hli Hlist]; try done.
    unfold listed in Hli. rewrite Hc, Hlist, Hk in Hli.
    destruct (broadcast_previous_below thread te Hte Hrun preds nts prev x ex)
      as [Hp|[Hp|(m & ne & Hmn & Hne & Hle)]]; try done.
    + intros m ne Hmn Hne y Hy Hny. destruct (Hwait m ne Hmn Hne) as (_ & _ & Hp).
      eapply (co_waiting _ _ Hco k ne y); try done. by eapply cond_list_live.
    + intros m Hmn. destruct (Hw2 m Hmn) as (w & ? & _). eauto.
    + apply (below_cond e x); [|reflexivity]. apply Hcp, elem_of_app. by right.
    + eapply below_head; [|done]. unfold thread_predecessor. by rewrite Hd.
    + apply (below_cond e ne); [|done]. eapply notified_pred. by eapply Hwait.
  - intros _ w Hwp (x & Hx & Hk).
    pose proof (cond_list_live k preds w Hl Hwp) as Hwl.
    destruct (Hall w Hwl) as (x' & Hx' & Hin). assert (x' = x) as -> by congruence.
    specialize (Hin Hk). destruct (Hw2 _ Hin) as (w' & Hf & _).
    assert (w = w') as <- by (eapply (waiting_is_head u c Hco k (ev_tid x)); try done; by exists x).
    by eapply Hwait.
Qed.

Lemma broadcast_ok thread k nts :
  (smap_find k (cf_cond_heads c) = None → sset_has k (cf_used_cond_ids c) = false) →
  (nts ≠ [] → notifies_all_waiting k nts) →
  proposes u c (broadcast_threads h c thread k nts).
Proof.
  intros Hadm Hall. unfold broadcast_threads. op_steps; op_head te Hte Hrun;
  match goal with E : smap_find k _ = _ |- _ => rename E into Hl end;
  match goal with H : alloc_broadcast _ _ _ _ _ = Ok ?a |- _ => rename a into e; rename H into Ha end.
  - apply proposes_ok. by eapply broadcast_lost_ok.
  - apply proposes_ok. eapply (broadcast_notifying_ok thread k te); try done; [by left | by apply Hall].
  - destruct (alloc_broadcast_data _ _ _ _ _ _ Ha) as (Ht & l & n & Hd & Hm).
    assert (l = []) as ->.
    { destruct l as [|q l]; [done|]. assert (q ∈ ([] : list eid)) as []%elem_of_nil by (apply Hm; by left). }
    apply proposes_ok, (committable_unused e te k); [|done|by apply Hadm|].
    + split; [by eapply alloc_is_broadcast | cond_event_of Hd Ht..| done | |cond_event_of Hd Ht].
      intros q Hq. unfold predecessors in Hq. rewrite Hd in Hq.
      apply list_elem_of_singleton in Hq as ->. by eapply te_in.
    + unfold condition_variable_predecessors. by rewrite Hd.
Qed.
End conds.
