(* ===== verification/Startup.v ===== *)
(** * Starting a configuration

    A new unfolding satisfies its invariant, adding startup threads to a
    [configuration_root] keeps it, and the configuration constructed from the
    root satisfies [conf_ok]. The second half shows that a configuration
    keeps its invariant while other configurations extend the shared
    unfolding. *)

From stdpp Require Import base tactics list gmap numbers relations.
From S2P Require Import Prelude StdMap ThreadId Event Comb CombEnum CombProofs Cone Alloc Causality.
From S2P Require Import AllocProofs HeapExt Order Walks Independence Unfolding Configuration.
From S2P Require Import ColorProofs UnfoldingProofs DedupProofs Dependence Heads Booking ConfInv.
From S2P Require Import OpBase.

Section startup.
Context {PL : Payload} {AL : Allocator}.
Implicit Types (h : heap) (e : event) (u : unfolding) (c : configuration).

(** ** The unfolding with only the root *)

Section root.
Context (garbage : N).
Abbreviation u0 := (new_unfolding garbage).
Abbreviation r0 := (fresh_addr (∅ : heap)).
Definition root_event : event := set_metadata_id (u64 (garbage + 1)) program_init_event.

Lemma new_lookup p e : uf_heap u0 !! p = Some e ↔ p = r0 ∧ e = root_event.
Proof.
  change (uf_heap u0) with (<[r0 := root_event]> (∅ : heap)).
  rewrite lookup_insert_Some, lookup_empty. naive_solver.
Qed.

Lemma new_imm q p : ¬ imm (uf_heap u0) q p.
Proof. intros (e & [-> ->]%new_lookup & Hq). by apply elem_of_nil in Hq. Qed.

Lemma new_le x y : causal_le (uf_heap u0) x y → x = y.
Proof. intros Hle. destruct Hle as [|? ? ? Hi]; [done|]. by apply new_imm in Hi. Qed.

Lemma new_wf : wf_heap (uf_heap u0).
Proof.
  change (uf_heap u0) with (<[r0 := root_event]> (∅ : heap)).
  apply wf_heap_insert; [apply wf_heap_empty | apply lookup_empty |].
  apply (wf_event_core _ program_init_event); [done|]. apply allocated_wf, alloc_is_program_init.
  apply wf_heap_empty.
Qed.

Lemma new_unfolding_ok : uf_ok u0.
Proof.
  split.
  - apply new_wf.
  - intros p e [-> ->]%new_lookup. split; try done. split.
    + intros x ->%new_le. eexists. by apply new_lookup.
    + intros x y ->%new_le Hle. done.
    + by intros x y ex ey ->%new_le ->%new_le.
    + by intros x y q ->%new_le ->%new_le.
  - repeat constructor.
  - intros k p. change (uf_events u0) with (smap_set (key_of program_init_event) [r0] []).
    destruct (smap_find_set (key_of program_init_event) k [r0] []) as [[<- ->]|[Hne ->]]; simpl.
    + rewrite list_elem_of_singleton. split.
      * intros ->. exists root_event. split; [by apply new_lookup | done].
      * by intros (e & [-> ->]%new_lookup & _).
    + split; [by intros ?%elem_of_nil|]. by intros (e & [-> ->]%new_lookup & <-).
  - by intros p q ep eq [-> _]%new_lookup [-> _]%new_lookup.
  - intros w e s [-> ->]%new_lookup. split; [by intros ?%elem_of_nil|].
    intros (es & [-> ->]%new_lookup & l & [= <-] & Hl). by apply elem_of_nil in Hl.
  - intros x y (e & [-> ->]%new_lookup & Hc). by apply elem_of_nil in Hc.
  - intros p c (e & [-> ->]%new_lookup & ->)%fmap_Some. simpl. lia.
  - by intros x s (e & [-> ->]%new_lookup & Hc).
  - intros x y ex ey (e & [-> ->]%new_lookup & Hc). by apply elem_of_nil in Hc.
  - exists root_event. split; [by apply new_lookup | done].
Qed.

Lemma new_heads_ok : heads_ok u0 [].
Proof.
  assert (∀ x, in_heads u0 [] x → x = r0) as Hin by (by intros x [->|(? & ? & ? & _)]).
  assert (is_Some (uf_heap u0 !! r0)) as Hr by (eexists; by apply new_lookup).
  split; [constructor | done | | |].
  - split.
    + by intros x ->%Hin.
    + intros x y Hy ->%new_le. done.
    + by intros x y ex ey ->%Hin ->%Hin.
    + by intros x y q ->%Hin ->%Hin.
  - by intros x e _ [_ ->]%new_lookup Hk.
  - intros x y ex ey ->%Hin ->%Hin. left. reflexivity.
Qed.
End root.

(** ** Startup threads *)

(** Only the root and the first events of threads. *)
Definition startup_only u (T : smap thread_id eid) : Prop :=
  ∀ x e, in_heads u T x → uf_heap u !! x = Some e →
    ev_data e = ProgramInit ∨ ∃ r, ev_data e = ThreadInit r.

Lemma startup_conf_ok u T addr n k :
  uf_ok u → heads_ok u T → startup_only u T →
  conf_ok u (Configuration addr T [] [] [] [] [] n k).
Proof.
  intros Hok HT Hst.
  assert (∀ m w, in_heads u T m → ¬ notifies (uf_heap u) m w) as Hno.
  { intros m w Hm (e & He & Hw). unfold notified in Hw.
    destruct (Hst m e Hm He) as [Hd|[r Hd]]; rewrite Hd in Hw; by apply elem_of_nil in Hw. }
  split; simpl; try done.
  - split; simpl; [apply HT | constructor..].
  - intros x e Hx He Hl. exfalso. apply Hl. unfold ev_lid.
    by destruct (Hst x e Hx He) as [->|[r ->]].
  - intros l p Hp. by apply elem_of_nil in Hp.
  - intros l. constructor.
  - intros l p Hp. by apply elem_of_nil in Hp.
  - intros x e Hx He Hl. exfalso. apply Hl. unfold ev_cid.
    by destruct (Hst x e Hx He) as [->|[r ->]].
  - intros l w m Hw. by apply elem_of_nil in Hw.
  - intros m m' w Hm _ Hmw. by destruct (Hno m w).
  - intros x w Hx (e & He & Htp) _. unfold thread_predecessor in Htp.
    by destruct (Hst x e Hx He) as [Hd|[r Hd]]; rewrite Hd in Htp.
  - intros x e ? ? ? ? ? ? Hx He Hd. by destruct (Hst x e Hx He) as [Hd'|[r Hd']]; rewrite Hd' in Hd.
  - intros x y ex ey t Hx _ Hex _ Hc. unfold created_tid in Hc.
    by destruct (Hst x ex Hx Hex) as [Hd|[r Hd]]; rewrite Hd in Hc.
  - intros x y ex ey Hx _ Hex _ Hk. unfold ev_kind in Hk.
    by destruct (Hst x ex Hx Hex) as [Hd|[r Hd]]; rewrite Hd in Hk.
  - intros x w ex _ _ _ Hw. by apply elem_of_nil in Hw.
  - intros x y ex ey Hx _ Hex _ _ Hl. exfalso. apply Hl. unfold ev_lid.
    by destruct (Hst x ex Hx Hex) as [->|[r ->]].
Qed.

(** The startup threads are numbered from one. *)
Record root_ok (r : configuration_root) : Prop := {
  ro_uf : uf_ok (cr_unfolding r);
  ro_heads : heads_ok (cr_unfolding r) (cr_thread_heads r);
  ro_only : startup_only (cr_unfolding r) (cr_thread_heads r);
  ro_tids t : is_Some (smap_find t (cr_thread_heads r)) →
    ∃ i, t = [i] ∧ (i ≤ N.of_nat (length (cr_thread_heads r)))%N;
}.

Lemma new_root_ok garbage : root_ok (new_configuration_root garbage).
Proof.
  split; [apply new_unfolding_ok | apply new_heads_ok | |by intros t []].
  intros x e _ [_ ->]%new_lookup. by left.
Qed.

Lemma first_thread_alloc u tid :
  uf_ok u → tid ≠ tid_root →
  ∃ e, alloc_thread_init (uf_heap u) tid (uf_root u) = Ok e ∧ ev_tid e = tid ∧
    ev_data e = ThreadInit (uf_root u) ∧ allocated (uf_heap u) e.
Proof.
  intros Hok Ht. destruct (uo_root _ Hok) as (er & Her & Hk).
  pose proof (proj2 (wf_tid _ _ (uo_wf _ Hok _ _ Her)) Hk) as Htr.
  destruct (alloc_thread_init (uf_heap u) tid (uf_root u)) as [e|f] eqn:He.
  - exists e. pose proof (alloc_is_thread_init (uf_heap u) tid (uf_root u) e Ht He) as Ha.
    unfold alloc_thread_init in He. apply bind_ok in He as (e' & Hf & He). res_inv_ev.
    destruct (event_of_pred_fields _ _ _ _ _ Hf). done.
  - exfalso. unfold alloc_thread_init, event_of_pred, cone_of_pred in He.
    rewrite (proj2 (deref_ok _ _ er) Her) in He. simpl in He.
    rewrite Htr, Hk in He. simpl in He. destruct (tid_eqb tid_root tid) eqn:E; [|done].
    by apply tid_eqb_spec in E.
Qed.

(** The first event of a new startup thread extends the startup events. *)
Lemma first_thread_extends u (T : smap thread_id eid) (tid : thread_id) :
  uf_ok u → heads_ok u T → startup_only u T → tid ≠ tid_root → smap_find tid T = None →
  ∃ e, alloc_thread_init (uf_heap u) tid (uf_root u) = Ok e ∧ ev_tid e = tid ∧
    ev_data e = ThreadInit (uf_root u) ∧ extends u T e.
Proof.
  intros Hok HT Hst Hne Hnew.
  destruct (first_thread_alloc u tid Hok Hne) as (e & He & Ht & Hd & Hal).
  exists e. split_and!; [done..|].
  apply (extends_intro u (Configuration 0 T [] [] [] [] [] 0 0)); simpl; try done.
  - by apply startup_conf_ok.
  - unfold ev_kind. by rewrite Hd.
  - apply (allocated_ids _ _ Hal). unfold ev_kind. by rewrite Hd.
  - unfold predecessors. rewrite Hd. intros q ->%list_elem_of_singleton. by left.
  - unfold thread_predecessor. by rewrite Hd, Ht, Hnew.
  - intros tp j E. congruence.
  - unfold lock_ready, ev_lid. by rewrite Hd.
  - intros x ex Hx Hex Htd. exfalso. unfold thread_dep, ev_kind in Htd. rewrite Hd in Htd.
    by destruct (Hst x ex Hx Hex) as [Hd'|[r Hd']]; rewrite Hd' in Htd.
  - intros x ex _ _ _ Hc. exfalso. apply Hc. unfold ev_cid. by rewrite Hd.
Qed.

Lemma startup_data_core e e' :
  same_core e e' → ev_data e = ProgramInit ∨ (∃ r, ev_data e = ThreadInit r) →
  ev_data e' = ProgramInit ∨ ∃ r, ev_data e' = ThreadInit r.
Proof.
  intros [_ Hdc _ _]. destruct (ev_data e), (ev_data e'); simpl in Hdc; naive_solver.
Qed.

Lemma add_thread_ok r :
  root_ok r → (N.of_nat (length (cr_thread_heads r)) + 1 < 65536)%N →
  ∃ r', add_thread r = Ok r' ∧ root_ok r' ∧
    length (cr_thread_heads r') = S (length (cr_thread_heads r)).
Proof.
  intros [Hok HT Hst Htids] Hlen. unfold add_thread. destruct r as [u T]; simpl in *.
  set (i := (N.of_nat (length T) + 1)%N). rewrite N.mod_small by lia.
  assert (tid_child tid_root i = Ok [i]) as ->.
  { unfold tid_child. rewrite (proj2 (N.eqb_neq i 0)) by lia. done. }
  rewrite bind_Ok_l.
  assert (smap_find ([i] : thread_id) T = None) as Hnew.
  { destruct (smap_find ([i] : thread_id) T) eqn:Hf; [|done].
    destruct (Htids [i]) as (j & [= <-] & Hj); [eauto|]. lia. }
  destruct (first_thread_extends u T [i] Hok HT Hst) as (e & -> & Ht & Hd & Hx); [done..|].
  rewrite bind_Ok_l.
  destruct (deduplicate_spec e u Hok) as (u' & unk & p & -> & Hdd); [by eapply extends_new|].
  rewrite bind_Ok_l. unfold smap_emplace. rewrite Hnew, smap_find_set_eq. simpl.
  destruct (dd_core _ _ _ _ _ Hdd) as (ep & Hep & Hs).
  rewrite (proj2 (deref_ok _ p ep) Hep), bind_Ok_l.
  rewrite bool_decide_true by (rewrite <-(predecessors_proper _ _ Hs); unfold predecessors; by rewrite Hd).
  eexists. split; [reflexivity|]. simpl.
  rewrite smap_set_length by done. split; [|done].
  assert (heads_ok u' (smap_set [i] p T)) as Hh.
  { rewrite <-Ht. by eapply (advanced_ok u T Hok HT e). }
  split; simpl.
  - apply uf_ok_stats, Hdd.
  - by destruct Hh; split.
  - intros x ex Hxi Hex. change (in_heads u' (smap_set [i] p T) x) in Hxi. rewrite <-Ht in Hxi.
    change (uf_heap u' !! x = Some ex) in Hex.
    apply (advanced_in u T Hok HT e Hx u' unk p Hdd) in Hxi as [->|Hxi].
    + assert (ex = ep) as -> by congruence. apply (startup_data_core e ep Hs). eauto.
    + destruct (in_heads_stored u T HT x Hxi) as [ex0 Hex0].
      destruct (dd_ext _ _ _ _ _ Hdd x ex0 Hex0) as (ex1 & ? & Hs1).
      assert (ex1 = ex) as -> by congruence. apply (startup_data_core ex0 ex Hs1). by apply (Hst x).
  - intros t. unfold thread_id in *. rewrite smap_set_length by done.
    destruct (smap_find_set [i] t p T) as [[<- ->]|[_ ->]].
    + intros _. exists i. split; [done | lia].
    + intros (j & -> & Hj)%Htids. exists j. split; [done | lia].
Qed.

Lemma add_threads_ok n r :
  root_ok r → (N.of_nat (length (cr_thread_heads r) + n) < 65536)%N →
  ∃ r', add_threads n r = Ok r' ∧ root_ok r' ∧
    length (cr_thread_heads r') = length (cr_thread_heads r) + n.
Proof.
  revert r. induction n as [|n IH]; intros r Hr Hn; simpl.
  { exists r. split_and!; [done | done | lia]. }
  destruct (add_thread_ok r Hr) as (r1 & -> & Hr1 & Hl1); [lia|]. rewrite bind_Ok_l.
  destruct (IH r1 Hr1) as (r2 & -> & Hr2 & Hl2); [lia|].
  exists r2. split_and!; [done | done | lia].
Qed.

(** The size of a configuration counts its events. *)
Definition sized u c : Prop :=
  ∃ l, NoDup l ∧ (∀ x, x ∈ l ↔ in_conf u c x) ∧ length l = cf_size c.

(** Below the head of a startup thread is only the root. *)
Lemma startup_below u T t p x :
  uf_ok u → heads_ok u T → startup_only u T → smap_find t T = Some p →
  causal_le (uf_heap u) x p → x = p ∨ x = uf_root u.
Proof.
  intros Hok HT Hst Hp [->|Hlt]%causal_le_alt; [by left | right].
  pose proof (in_heads_head u T t p Hp) as HCp.
  apply causal_lt_alt in Hlt as (ep & Hep & q & Hq & Hle).
  destruct (ho_head _ _ HT t p Hp) as (ep' & Hep' & _ & Hk).
  assert (ep' = ep) as -> by congruence.
  destruct (Hst p ep HCp Hep) as [Hd|[r Hd]]; [unfold ev_kind in Hk; by rewrite Hd in Hk|].
  unfold predecessors in Hq. rewrite Hd in Hq. apply list_elem_of_singleton in Hq as ->.
  assert (in_heads u T r) as HCr.
  { eapply (in_heads_le u T HT); [exact HCp|]. apply rtc_once. exists ep. split; [done|].
    unfold predecessors. rewrite Hd. by left. }
  pose proof (wf_class _ _ (uo_wf _ Hok p ep Hep)) as Hcl. unfold class_ok in Hcl. rewrite Hd in Hcl.
  destruct Hcl as (er & Her & Hkr & _). unfold kind_in, ev_kind in Hkr.
  destruct (Hst r er HCr Her) as [Hdr|[r' Hdr]]; rewrite Hdr in Hkr; [|exfalso; set_solver].
  assert (r = uf_root u) as ->.
  { apply (in_heads_init u T Hok HT r er); [done..|]. unfold ev_kind. by rewrite Hdr. }
  apply causal_le_alt in Hle as [->|(er' & Her' & q & Hq & _)%causal_lt_alt]; [done|].
  assert (er' = er) as -> by congruence. unfold predecessors in Hq. rewrite Hdr in Hq.
  by apply elem_of_nil in Hq.
Qed.

(** The thread heads are the cone of the events below them. *)
Lemma heads_cone u T : uf_ok u → heads_ok u T → cone_for (uf_heap u) T (in_heads u T).
Proof.
  intros Hok HT. split.
  - apply HT.
  - intros t p Hp. split; [by eapply in_heads_head | by eapply ho_head].
  - intros x Hx e He Hk. destruct (ho_last _ _ HT x e Hx He Hk) as (p & Hp & Hle).
    exists p. split; [done|]. eapply causal_le_dep; [apply Hok | done].
Qed.

Lemma startup_sized u T addr k :
  uf_ok u → heads_ok u T → startup_only u T →
  sized u (Configuration addr T [] [] [] [] [] (length T + 1) k).
Proof.
  intros Hok HT Hst. exists (uf_root u :: smap_vals T).
  pose proof (heads_cone u T Hok HT) as Hcone.
  pose proof (λ p, cone_vals_elem (uf_heap u) T _ p Hcone) as Hv.
  split_and!.
  - constructor.
    + intros [t Ht]%Hv. destruct (ho_head _ _ HT t _ Ht) as (e & He & _ & Hk).
      destruct (uo_root _ Hok) as (e' & ? & ?). congruence.
    + by eapply cone_vals_nodup.
  - intros x. rewrite elem_of_cons, Hv. unfold in_conf, in_heads. simpl. split.
    + intros [->|[t Ht]]; [by left | right]. exists t, x. split; [done | reflexivity].
    + intros [->|(t & p & Ht & Hle)]; [by left|].
      destruct (startup_below u T t p x) as [->| ->]; eauto.
  - simpl. unfold smap_vals. rewrite length_fmap. lia.
Qed.

Lemma sized_stats u c f : sized u c → sized (upd_stats f u) c.
Proof. done. Qed.

(** Between one and 65535 startup threads give a configuration of the root
    and the threads' first events. *)
Lemma startup_spec garbage addr n :
  0 < n → (N.of_nat n < 65536)%N →
  ∃ r u c, add_threads n (new_configuration_root garbage) = Ok r ∧
    construct addr r = Ok (u, c) ∧ conf_ok u c ∧ sized u c ∧
    cf_addr c = addr ∧ cf_size c = S n ∧ length (cf_thread_heads c) = n.
Proof.
  intros H0 Hn. destruct (add_threads_ok n _ (new_root_ok garbage)) as (r & Hr & Hok & Hl); [done|].
  simpl in Hl. exists r. unfold construct. destruct (cr_thread_heads r) as [|[t p] T] eqn:HT.
  { simpl in Hl. lia. }
  simpl. do 2 eexists. destruct Hok as [Hok Hh Hst _]. rewrite HT in *.
  split_and!; try done; simpl; [| |simpl in Hl; lia..].
  - apply conf_ok_stats, conf_ok_stats. by apply startup_conf_ok.
  - apply sized_stats, sized_stats. by apply startup_sized.
Qed.
End startup.

(** ** Other configurations extend the shared unfolding *)

Section extension.
Context {PL : Payload} {AL : Allocator}.
Implicit Types (e : event).

Context (u u' : unfolding) (c : configuration).
Abbreviation h := (uf_heap u).
Abbreviation h' := (uf_heap u').
Abbreviation T := (cf_thread_heads c).
Hypothesis Hco : conf_ok u c.
Hypothesis Hok' : uf_ok u'.
Hypothesis Hext : heap_ext h h'.
Hypothesis Hroot : uf_root u' = uf_root u.

Lemma kept_event x ex' :
  in_conf u c x → h' !! x = Some ex' → ∃ ex, h !! x = Some ex ∧ same_core ex ex'.
Proof.
  intros Hx Hx'. destruct (conf_stored u c Hco x Hx) as [ex Hex].
  destruct (Hext x ex Hex) as (ex'' & ? & Hs). assert (ex'' = ex') as -> by congruence. eauto.
Qed.

Lemma kept_le x y : in_conf u c y → causal_le h' x y ↔ causal_le h x y.
Proof.
  intros Hy. split; [|by apply ext_causal_le].
  apply (ext_causal_le_inv h h' Hext (conf_wf u c Hco)). by apply (conf_stored u c Hco).
Qed.

Lemma kept_in x : in_conf u' c x ↔ in_conf u c x.
Proof.
  unfold in_conf, in_heads. rewrite Hroot. split; (intros [->|(t & p & Hp & Hle)]; [by left|]);
    right; exists t, p; (split; [done|]); apply kept_le; try done; by eapply (conf_head u c).
Qed.

Lemma kept_at x (Φ : event → Prop) :
  Proper (same_core ==> iff) Φ → in_conf u c x → at_event h' x Φ ↔ at_event h x Φ.
Proof.
  intros HΦ Hx. split; [|by apply ext_at_event].
  intros (ex' & Hex' & Hp). destruct (kept_event x ex' Hx Hex') as (ex & Hex & Hs).
  exists ex. split; [done|]. by apply (HΦ _ _ Hs).
Qed.

Lemma kept_notified x ex ex' : h !! x = Some ex → same_core ex ex' → notified h ex = notified h' ex'.
Proof.
  intros Hex Hs. apply notified_ext; [done..|]. apply wf_preds. by apply (conf_wf u c Hco x).
Qed.

Lemma kept_notifies n w : in_conf u c n → notifies h' n w ↔ notifies h n w.
Proof.
  intros Hn. destruct (conf_stored u c Hco n Hn) as [en Hen].
  destruct (Hext n en Hen) as (en' & Hen' & Hs). unfold notifies, at_event. rewrite Hen, Hen'.
  pose proof (kept_notified n en en' Hen Hs) as Heq.
  split; intros (? & [= <-] & ?); eexists; (split; [done|]); congruence.
Qed.

Lemma kept_heads : heads_ok u' T.
Proof.
  pose proof (conf_heads u c Hco) as HT. split.
  - apply HT.
  - intros t p Hp. apply (ext_is_event h h' Hext). by apply HT.
  - eapply conflict_free_iff; [|eapply ext_conflict_free; [apply (conf_wf u c Hco) | done | apply HT]].
    intros x. symmetry. apply kept_in.
  - intros x ex' Hx%kept_in Hex' Hk. destruct (kept_event x ex' Hx Hex') as (ex & Hex & Hs).
    rewrite <-(ev_kind_proper _ _ Hs) in Hk. rewrite <-(ev_tid_proper _ _ Hs).
    destruct (ho_last _ _ HT x ex Hx Hex Hk) as (p & Hp & Hle). exists p. split; [done|].
    apply kept_le; [by eapply (conf_head u c) | done].
  - intros x y ex' ey' Hx%kept_in Hy%kept_in Hex' Hey' Hd.
    destruct (kept_event x ex' Hx Hex') as (ex & Hex & Hsx).
    destruct (kept_event y ey' Hy Hey') as (ey & Hey & Hsy).
    rewrite (kept_le x y Hy), (kept_le y x Hx). apply (ho_dep _ _ HT x y ex ey); try done.
    rewrite <-Hd. apply is_independent_of_eq; apply ext_ind_eq; try done; apply wf_preds;
      by eapply (conf_wf u c Hco).
Qed.

Lemma kept_listed x ex ex' :
  in_conf u c x → same_core ex ex' → listed h c x ex → listed h' c x ex'.
Proof.
  intros Hx Hs. unfold listed. rewrite (ev_kind_proper _ _ Hs), (ev_cid_proper _ _ Hs).
  destruct (ev_kind ex'); try done. intros [?|(n & Hn & Hnx)]; [by left | right].
  exists n. split; [done|]. apply kept_notifies; [|done]. by eapply (co_cond _ _ Hco).
Qed.

Lemma conf_ok_ext : conf_ok u' c.
Proof.
  assert (∀ k, Proper (same_core ==> iff) (λ y, ev_kind y = k)) as P1 by (intros k ?? E; by rewrite E).
  split; try apply Hco; try done.
  - apply kept_heads.
  - intros l p Hp. destruct (co_lock _ _ Hco l p Hp) as (Hl & Hin & Hat).
    split_and!; [done | by apply kept_in |]. apply kept_at; [|done|done]. intros ?? E. by rewrite E.
  - intros x ex' Hx%kept_in Hex' Hl. destruct (kept_event x ex' Hx Hex') as (ex & Hex & Hs).
    rewrite <-(ev_lid_proper _ _ Hs) in *. destruct (co_locks _ _ Hco x ex Hx Hex Hl) as [Hu Hle].
    split; [done|]. intros p Hp. apply kept_le; [by eapply (co_lock _ _ Hco) | by apply Hle].
  - intros k p Hp. destruct (co_cond _ _ Hco k p Hp) as [Hin Hat]. split; [by apply kept_in|].
    apply kept_at; [|done|done]. intros ?? E. by rewrite E.
  - intros k p Hp. destruct (co_w2 _ _ Hco k p Hp) as [Hin Hat]. split; [by apply kept_in|].
    apply kept_at; [|done|done]. intros ?? E. by rewrite E.
  - intros x ex' Hx%kept_in Hex' Hc. destruct (kept_event x ex' Hx Hex') as (ex & Hex & Hs).
    rewrite <-(ev_cid_proper _ _ Hs) in *. destruct (co_conds _ _ Hco x ex Hx Hex Hc) as [Hu Hl].
    split; [done|]. intros Hsome. eapply kept_listed; [done..|]. by apply Hl.
  - intros k w n Hw Hn%kept_in. rewrite (kept_notifies n w Hn). by apply (co_waiting _ _ Hco k).
  - intros n n' w Hn%kept_in Hn'%kept_in. rewrite (kept_notifies n w Hn), (kept_notifies n' w Hn').
    by apply (co_one _ _ Hco).
  - intros x w Hx%kept_in Htp Hw. apply kept_at; [apply P1 | done|].
    assert (tpred h w x) as Htp'.
    { destruct Htp as (ex' & Hex' & Htp). destruct (kept_event x ex' Hx Hex') as (ex & Hex & Hs).
      exists ex. split; [done|]. by rewrite (thread_predecessor_proper _ _ Hs). }
    apply (co_wake _ _ Hco x w Hx Htp'). apply kept_at; [apply P1 | |done].
    eapply (conf_le u c Hco); [exact Hx|]. by apply rtc_once, tpred_imm.
  - intros x ex' tp np lp cid lid b Hx%kept_in Hex' Hd.
    destruct (kept_event x ex' Hx Hex') as (ex & Hex & [_ Hdc _ _]). rewrite Hd in Hdc.
    destruct (ev_data ex) as [| | | | | | | | | | | | |tp0 np0 lp0 cid0 lid0 b0| |] eqn:Hd0;
      simplify_eq/=.
    apply kept_notifies; [|by eapply (co_woken _ _ Hco)].
    eapply (conf_le u c Hco); [exact Hx|]. apply rtc_once. exists ex. split; [done|].
    unfold predecessors. rewrite Hd0. set_solver.
  - intros x y ex' ey' t Hx%kept_in Hy%kept_in Hex' Hey' Hcx Hcy.
    destruct (kept_event x ex' Hx Hex') as (ex & Hex & Hsx).
    destruct (kept_event y ey' Hy Hey') as (ey & Hey & Hsy).
    rewrite <-(created_tid_core _ _ Hsx) in Hcx. rewrite <-(created_tid_core _ _ Hsy) in Hcy.
    by eapply (co_create _ _ Hco).
  - intros x y ex' ey' Hx%kept_in Hy%kept_in Hex' Hey' Hk Hc.
    destruct (kept_event x ex' Hx Hex') as (ex & Hex & Hsx).
    destruct (kept_event y ey' Hy Hey') as (ey & Hey & Hsy).
    rewrite <-(ev_kind_proper _ _ Hsx) in Hk.
    rewrite <-(ev_cid_proper _ _ Hsx), <-(ev_cid_proper _ _ Hsy) in Hc.
    apply kept_le; [done|]. by eapply (co_first _ _ Hco).
  - intros x w ex' Hx%kept_in Hex' Hset Hw Hk.
    destruct (kept_event x ex' Hx Hex') as (ex & Hex & Hs). rewrite <-(ev_cid_proper _ _ Hs) in Hw.
    destruct (co_cond _ _ Hco _ _ Hw) as [Hwc _]. apply kept_le; [done|].
    eapply (co_before _ _ Hco x w ex); try done.
    + unfold settled in *. by rewrite (ev_kind_proper _ _ Hs), (kept_notified x ex ex' Hex Hs).
    + by apply (kept_at w _ (P1 wait1)).
  - intros x y ex' ey' Hx%kept_in Hy%kept_in Hex' Hey' Hne Hl Heq.
    destruct (kept_event x ex' Hx Hex') as (ex & Hex & Hsx).
    destruct (kept_event y ey' Hy Hey') as (ey & Hey & Hsy).
    rewrite <-(ev_lid_proper _ _ Hsx), <-?(ev_lid_proper _ _ Hsy) in *.
    assert (∀ z e0 e1, same_core e0 e1 → before_lock_predecessor h z e0 →
      before_lock_predecessor h' z e1) as Hb.
    { intros z e0 e1 Hs (lp & Hlp & Hle). exists lp. rewrite <-(lock_predecessor_proper _ _ Hs).
      split; [done|]. by apply (ext_causal_le h h' Hext). }
    destruct (co_chain _ _ Hco x y ex ey Hx Hy Hex Hey Hne Hl Heq); [left | right]; by eapply Hb.
  - intros l p Hp. apply kept_at; [|by eapply (co_lock _ _ Hco) | by apply (co_held _ _ Hco l)].
    intros ?? E. by rewrite E.
Qed.
End extension.
