(* ===== verification/System.v ===== *)
(** * Configurations over a shared unfolding

    Several configurations extend one unfolding: each performs operations,
    configurations are copied, and conflicting extensions are inserted. The
    invariant of every configuration holds in every reachable state, as long
    as the client respects [admissible]; the theorems of [SystemProps] read
    off what it means. *)

From stdpp Require Import base tactics list gmap numbers relations.
From S2P Require Import Prelude StdMap ThreadId Event Comb CombEnum CombProofs Cone Alloc Causality.
From S2P Require Import AllocProofs HeapExt Order Walks Demo Independence Unfolding Configuration.
From S2P Require Import ColorProofs UnfoldingProofs DedupProofs Scenario Dependence Heads Booking.
From S2P Require Import ConfInv OpBase OpProofs OpCond Startup.

Section system.
Context {PL : Payload} {AL : Allocator}.
Implicit Types (u : unfolding) (c : configuration) (o : operation).

(** ** What the client has to respect

    Facts that the operations neither check nor establish. Most are what the
    executor does anyway: new thread ids are fresh, a thread is joined once, a
    destroyed lock or condition variable is not used again. That notifying
    signals on one condition variable are ordered ([signals_ordered]) is not:
    the event manager passes on the signals in the order in which they happen,
    and [signal_thread] does not order a notifying signal after an earlier
    one. Runs that violate it are outside the theorems about reachable
    systems; [Findings.concurrent_signals_conflict] evaluates one. *)

(** A condition variable or lock that is not active was never used. *)
Definition never_used {V} (k : N) (heads : smap N V) (used : sset N) : Prop :=
  smap_find k heads = None → sset_has k used = false.

Definition admissible u c o : Prop :=
  let h := uf_heap u in
  match o with
  | CreateThread _ nt =>
      ∀ x ex, in_conf u c x → h !! x = Some ex → created_tid ex ≠ Ok nt
  | InitThread t from =>
      t ≠ tid_root ∧ ∀ tc, smap_find from (cf_thread_heads c) = Some tc →
        at_event h tc (λ x, created_tid x = Ok t)
  | JoinThread _ j =>
      ∀ x ex, in_conf u c x → h !! x = Some ex → joined_thread h ex ≠ Ok j
  | DestroyLock _ l => never_used l (cf_lock_heads c) (cf_used_lock_ids c)
  | DestroyCond _ k | WaitBegin _ k _ => never_used k (cf_cond_heads c) (cf_used_cond_ids c)
  | SignalThread t k nt =>
      never_used k (cf_cond_heads c) (cf_used_cond_ids c) ∧
      (nt ≠ tid_root → signals_ordered u c t nt k)
  | BroadcastThreads _ k nts =>
      never_used k (cf_cond_heads c) (cf_used_cond_ids c) ∧
      (nts ≠ [] → notifies_all_waiting u c k nts)
  | LocalStep t _ =>
      ∀ te, smap_find t (cf_thread_heads c) = Some te → at_event h te (λ x, ev_kind x ≠ wait1)
  | _ => True
  end.

Lemma apply_op_proposes u c o :
  conf_ok u c → admissible u c o → proposes u c (apply_op (uf_heap u) c o).
Proof.
  intros Hco Ha. destruct o; simpl in *.
  - by apply create_thread_ok.
  - destruct Ha as [Hu Hs]. exact (init_thread_ok u c Hco thread created_from Hu Hs).
  - by apply join_thread_ok.
  - by apply exit_thread_ok.
  - by apply create_lock_ok.
  - by apply destroy_lock_ok.
  - by apply acquire_lock_ok.
  - by apply release_lock_ok.
  - by apply create_cond_ok.
  - by apply destroy_cond_ok.
  - by apply wait1_ok.
  - by apply wait2_ok.
  - destruct Ha as [Hu Hs]. exact (signal_ok u c Hco thread cond notified_thread Hu Hs).
  - destruct Ha as [Hu Hs]. exact (broadcast_ok u c Hco thread cond notified_threads Hu Hs).
  - by apply local_ok.
Qed.

(** Handing out an extension changes the index only. *)
Lemma conf_ok_ex u c e : conf_ok u c → conf_ok u (ex e c).1.
Proof.
  intros [H1 H2 [] H4 H5 H6 H7 H8 H9 H10 H11 H12 H13 H14 H15 H16 H17 H18 H19].
  by split.
Qed.

Lemma committable_ex u c e e' : committable u c e → committable u (ex e' c).1 e.
Proof. intros []. by split. Qed.

(** What performing an operation does. *)
Record performed u c u' c' (p : eid) : Prop := {
  pf_ok : conf_ok u' c';
  pf_ext : heap_ext (uf_heap u) (uf_heap u');
  pf_root : uf_root u' = uf_root u;
  pf_new : ¬ in_conf u c p;
  pf_in y : in_conf u' c' y ↔ y = p ∨ in_conf u c y;
  pf_size : cf_size c' = S (cf_size c);
}.

Lemma commit_performed u c o c' x :
  conf_ok u c → admissible u c o → apply_op (uf_heap u) c o = Ok (c', x) →
  ∃ u'' c'' p, commit x u c' = Ok (u'', c'', p) ∧ performed u c u'' c'' p ∧
    at_event (uf_heap u'') p (same_core (ex_event x)).
Proof.
  intros Hco Ha Hop. destruct (apply_op_proposes u c o Hco Ha c' x Hop) as [Hcm Hx].
  injection Hx as Hc' Hx'. set (e := ex_event x) in *.
  assert (conf_ok u c') as Hco' by (rewrite Hc'; by apply (conf_ok_ex u c e)).
  assert (committable u c' e) as Hcm' by (rewrite Hc'; by apply (committable_ex u c e e)).
  destruct (commit_spec u c' x) as (u'' & c'' & p & Hcom & Hok & Hext & Hat & Hnew & Hin & Hsz & Hroot);
    [done | done | by rewrite Hx', Hc' | by rewrite Hx', Hc' |].
  exists u'', c'', p. split_and!; [done| |done].
  assert (∀ y, in_conf u c' y ↔ in_conf u c y) as Hsame by (intros y; by rewrite Hc').
  split; try done.
  - by rewrite <-Hsame.
  - intros y. by rewrite Hin, Hsame.
  - by rewrite Hsz, Hc'.
Qed.

(** ** The system *)

Record system := System { sy_unfolding : unfolding; sy_confs : list configuration }.

(** [configuration(configuration const&)]: a copy at another address. *)
Definition copy_configuration (addr : N) (c : configuration) : configuration :=
  Configuration addr (cf_thread_heads c) (cf_lock_heads c) (cf_cond_heads c) (cf_w2_heads c)
    (cf_used_cond_ids c) (cf_used_lock_ids c) (cf_size c) (cf_last_extension c).

Inductive sys_step : relation system :=
  | step_operation u cs i c o u' c' p :
      cs !! i = Some c → admissible u c o → perform o u c = Ok (u', c', p) →
      sys_step (System u cs) (System u' (<[i := c']> cs))
  | step_copy u cs i c addr :
      cs !! i = Some c → sys_step (System u cs) (System u (cs ++ [copy_configuration addr c]))
  | step_insert u cs e u' unknown p :
      new_event_ok (uf_heap u) e → deduplicate e u = Ok (u', unknown, p) →
      sys_step (System u cs) (System u' cs).

Inductive initial : system → Prop :=
  | start garbage addr n r u c :
      add_threads n (new_configuration_root garbage) = Ok r → construct addr r = Ok (u, c) →
      0 < n → (N.of_nat n < 65536)%N → initial (System u [c]).

Definition reachable_system (s : system) : Prop := ∃ s0, initial s0 ∧ rtc sys_step s0 s.

(** The invariant of a configuration in use. *)
Record configured u c : Prop := {
  cd_ok : conf_ok u c;
  cd_sized : sized u c;
  cd_heads : cf_thread_heads c ≠ [];
}.

Definition system_ok (s : system) : Prop := ∀ c, c ∈ sy_confs s → configured (sy_unfolding s) c.

Lemma kept_ok u u' c :
  configured u c → uf_ok u' → heap_ext (uf_heap u) (uf_heap u') →
  uf_root u' = uf_root u → configured u' c.
Proof.
  intros [Hco (l & Hnd & Hl & Hlen) Hne] Hok' Hext Hroot. split; [by eapply conf_ok_ext| |done].
  exists l. split_and!; [done| |done]. intros x. rewrite Hl. symmetry. by apply kept_in.
Qed.

Lemma performed_sized u c u' c' p : sized u c → performed u c u' c' p → sized u' c'.
Proof.
  intros (l & Hnd & Hl & Hlen) [_ _ _ Hnew Hin Hsz]. exists (p :: l). split_and!.
  - constructor; [|done]. by rewrite Hl.
  - intros x. by rewrite elem_of_cons, Hl, Hin.
  - simpl. by rewrite Hlen, Hsz.
Qed.

Lemma performed_ok u c u' c' p : configured u c → performed u c u' c' p → configured u' c'.
Proof.
  intros [Hco Hsz _] Hpf. split; [apply Hpf | by eapply performed_sized|].
  intros Hnil. destruct (proj2 (pf_in _ _ _ _ _ Hpf p)) as [->|(t & q & Hq & _)]; [by left| |].
  - apply (pf_new _ _ _ _ _ Hpf). rewrite (pf_root _ _ _ _ _ Hpf). by left.
  - by rewrite Hnil in Hq.
Qed.

Lemma initial_ok s : initial s → system_ok s.
Proof.
  destruct 1 as [garbage addr n r u c Hr Hc H0 Hn].
  destruct (startup_spec garbage addr n H0 Hn) as (r' & u' & c' & Hr' & Hc' & Hok & Hsz & _ & _ & Hl).
  assert (r' = r) as -> by congruence. rewrite Hc in Hc'. injection Hc' as <- <-.
  intros c' ->%list_elem_of_singleton. split; [done..|]. intros E. rewrite E in Hl. simpl in Hl. lia.
Qed.

Lemma perform_spec o u c u' c' p :
  conf_ok u c → admissible u c o → perform o u c = Ok (u', c', p) → performed u c u' c' p.
Proof.
  intros Hco Ha Hp. unfold perform in Hp. apply bind_ok in Hp as ([c1 x] & Hop & Hcom).
  destruct (commit_performed u c o c1 x Hco Ha Hop) as (u2 & c2 & p2 & Hcom2 & Hpf & _).
  rewrite Hcom in Hcom2. by injection Hcom2 as <- <- <-.
Qed.

Lemma step_ok s s' : system_ok s → sys_step s s' → system_ok s'.
Proof.
  intros Hs Hst. destruct Hst as [u cs i c o u' c' p Hi Ha Hp|u cs i c addr Hi|u cs e u' k p Hne Hd];
    unfold system_ok in *; simpl in *.
  - assert (configured u c) as Hc by (apply Hs; by eapply list_elem_of_lookup_2).
    pose proof (perform_spec o u c u' c' p (cd_ok _ _ Hc) Ha Hp) as Hpf.
    intros c3 Hc3. apply list_elem_of_lookup_1 in Hc3 as (j & Hj).
    apply list_lookup_insert_Some in Hj as [(-> & <- & _)|[_ Hj]].
    + by eapply performed_ok.
    + apply (kept_ok u u'); [|apply Hpf..]. apply Hs. by eapply list_elem_of_lookup_2.
  - intros c2 [Hc2| ->%list_elem_of_singleton]%elem_of_app; [by apply Hs|].
    destruct (Hs c) as [Hco Hsz Hne]; [by eapply list_elem_of_lookup_2|]. split; [|done..].
    destruct Hco as [H1 H2 [] H4 H5 H6 H7 H8 H9 H10 H11 H12 H13 H14 H15 H16 H17 H18 H19].
    by split.
  - intros c Hc. pose proof (Hs c Hc) as Hcd.
    destruct (deduplicate_spec e u (co_uf _ _ (cd_ok _ _ Hcd)) Hne) as (u2 & k2 & p2 & Hd2 & Hdd).
    rewrite Hd in Hd2. injection Hd2 as <- <- <-.
    apply (kept_ok u u'); [done | apply Hdd..].
Qed.

Lemma reachable_ok s : reachable_system s → system_ok s.
Proof.
  intros (s0 & H0 & Hr). apply initial_ok in H0.
  induction Hr as [|s0 s1 s Hst _ IH]; [done|]. apply IH. by eapply step_ok.
Qed.
End system.

(** ** Executable runs

    A checked driver: it performs an operation only when an executable check
    of [admissible] succeeds, so every state it returns is a reachable state
    of the system. The witnesses of the system's theorems are such runs. *)

Section runs.
Context {PL : Payload} {AL : Allocator}.
Implicit Types (u : unfolding) (c : configuration) (o : operation).

(** Every stored event passes a test. *)
Definition all_events (h : heap) (f : event → bool) : bool :=
  forallb (λ pe, f pe.2) (map_to_list h).

Lemma all_events_spec (h : heap) f x e : all_events h f = true → h !! x = Some e → f e = true.
Proof.
  unfold all_events. rewrite forallb_forall. intros Hf He.
  apply (Hf (x, e)), list_elem_of_In, elem_of_map_to_list, He.
Qed.

Definition never_used_b {V} (k : N) (heads : smap N V) (used : sset N) : bool :=
  match smap_find k heads with Some _ => true | None => negb (sset_has k used) end.

Lemma never_used_b_spec {V} k (heads : smap N V) used :
  never_used_b k heads used = true → never_used k heads used.
Proof. unfold never_used_b, never_used. intros Hb Hn. rewrite Hn in Hb. by apply negb_true_iff. Qed.

Definition res_eqb {A} `{EqDecision A} (r : res A) (a : A) : bool :=
  match r with Ok b => bool_decide (b = a) | Err _ => false end.

Lemma res_eqb_spec {A} `{EqDecision A} (r : res A) (a : A) : res_eqb r a = true ↔ r = Ok a.
Proof. destruct r; simpl; [rewrite bool_decide_eq_true; split; congruence | done]. Qed.

Definition head_test (h : heap) c (t : thread_id) (f : event → bool) : bool :=
  match smap_find t (cf_thread_heads c) with
  | None => true
  | Some p => match h !! p with Some e => f e | None => false end
  end.

Lemma head_test_spec h c t f te :
  head_test h c t f = true → smap_find t (cf_thread_heads c) = Some te →
  at_event h te (λ e, f e = true).
Proof. unfold head_test. intros Hf Ht. rewrite Ht in Hf. case_match; [by eexists | done]. Qed.

(** A check that suffices for [admissible]: a notifying signal is accepted
    when no signal on its condition variable has notified a thread yet. *)
Definition admissible_b u c o : bool :=
  let h := uf_heap u in
  match o with
  | CreateThread _ nt => all_events h (λ e, negb (res_eqb (created_tid e) nt))
  | InitThread t from =>
      negb (tid_eqb t tid_root) && head_test h c from (λ e, res_eqb (created_tid e) t)
  | JoinThread _ j => all_events h (λ e, negb (res_eqb (joined_thread h e) j))
  | DestroyLock _ l => never_used_b l (cf_lock_heads c) (cf_used_lock_ids c)
  | DestroyCond _ k | WaitBegin _ k _ => never_used_b k (cf_cond_heads c) (cf_used_cond_ids c)
  | SignalThread _ k _ =>
      never_used_b k (cf_cond_heads c) (cf_used_cond_ids c) &&
      all_events h (λ e, negb (N.eqb (ev_cid e) k && kind_eqb (ev_kind e) signal) ||
        bool_decide (notified h e = []))
  | BroadcastThreads _ k nts =>
      never_used_b k (cf_cond_heads c) (cf_used_cond_ids c) &&
      forallb (λ w, match h !! w with
        | Some e => negb (kind_eqb (ev_kind e) wait1) || bool_decide (ev_tid e ∈ nts)
        | None => false
        end) (cond_list c k)
  | LocalStep t _ => head_test h c t (λ e, negb (kind_eqb (ev_kind e) wait1))
  | _ => true
  end.

Lemma negb_kind e k : negb (kind_eqb (ev_kind e) k) = true → ev_kind e ≠ k.
Proof. intros Hb%negb_true_iff E. apply kind_eqb_eq in E. congruence. Qed.

Lemma admissible_b_spec u c o : admissible_b u c o = true → admissible u c o.
Proof.
  destruct o; simpl; try done; rewrite ?andb_true_iff.
  - intros Hf x ex _ Hex Hc. eapply all_events_spec in Hf; [|done]. simpl in Hf.
    by rewrite (proj2 (res_eqb_spec _ _) Hc) in Hf.
  - intros [Ht Hf]. split.
    + intros ->. by apply negb_true_iff in Ht.
    + intros tc Htc. destruct (head_test_spec _ _ _ _ _ Hf Htc) as (e & He & Hc).
      exists e. split; [done|]. by apply res_eqb_spec.
  - intros Hf x ex _ Hex Hj. eapply all_events_spec in Hf; [|done]. simpl in Hf.
    by rewrite (proj2 (res_eqb_spec _ _) Hj) in Hf.
  - apply never_used_b_spec.
  - apply never_used_b_spec.
  - apply never_used_b_spec.
  - intros [Hu Hf]. split; [by apply never_used_b_spec|].
    intros _ x ex te ne _ Hex Hk Hs Hn _ _. eapply all_events_spec in Hf; [|done]. simpl in Hf.
    rewrite (proj2 (N.eqb_eq _ _) Hk), (proj2 (kind_eqb_eq _ _) Hs) in Hf. simpl in Hf.
    by apply bool_decide_eq_true in Hf.
  - intros [Hu Hf]. split; [by apply never_used_b_spec|]. intros _ w Hw.
    rewrite forallb_forall in Hf. apply list_elem_of_In, Hf in Hw. case_match; [|done].
    eexists. split; [done|]. intros Hk. apply orb_true_iff in Hw as [Hw|Hw].
    + by apply negb_kind in Hw.
    + by apply bool_decide_eq_true in Hw.
  - intros Hf te Hte. destruct (head_test_spec _ _ _ _ _ Hf Hte) as (e & He & Hk).
    exists e. split; [done|]. by apply negb_kind.
Qed.

(** Performs the operations one after the other, each after its check. *)
Definition checked_perform (uc : unfolding * configuration) o : res (unfolding * configuration) :=
  _ ← cassert (admissible_b uc.1 uc.2 o);
  '(u', c', _) ← perform o uc.1 uc.2; Ok (u', c').

Definition checked_run (n : nat) (ops : list operation) : res (unfolding * configuration) :=
  r ← add_threads n (new_configuration_root 0);
  uc ← construct 1 r;
  for_each checked_perform uc ops.

Lemma checked_perform_step u c o u' c' :
  checked_perform (u, c) o = Ok (u', c') → sys_step (System u [c]) (System u' [c']).
Proof.
  unfold checked_perform. simpl. intros ([] & Ha & ([[u1 c1] p] & Hp & [= <- <-])%bind_ok)%bind_ok.
  apply (step_operation u [c] 0 c o u1 c1 p); [done| |done]. apply admissible_b_spec.
  unfold cassert in Ha. by case_match.
Qed.

Lemma checked_run_reachable n ops u c :
  0 < n → (N.of_nat n < 65536)%N → checked_run n ops = Ok (u, c) →
  reachable_system (System u [c]).
Proof.
  intros H0 Hn. unfold checked_run. intros (r & Hr & ([u0 c0] & Hc & Hops)%bind_ok)%bind_ok.
  exists (System u0 [c0]). split; [by econstructor|]. clear r Hr Hc. revert u0 c0 Hops.
  induction ops as [|o ops IH]; intros u0 c0 Hops; simpl in Hops.
  { injection Hops as -> ->. constructor. }
  apply bind_ok in Hops as ([u1 c1] & Hp & Hops). eapply rtc_l; [|by apply IH].
  by eapply checked_perform_step.
Qed.
End runs.
