(* ===== verification/TraceProofs.v ===== *)
(** * What the invariant of a configuration means

    Lemmas that read off [conf_ok]: iteration visits the configuration's
    events once, acquisitions of one lock exclude each other, and
    notifications and waits are paired. *)

From stdpp Require Import base tactics list gmap numbers relations.
From S2P Require Import Prelude StdMap ThreadId Event Comb CombEnum CombProofs Cone Alloc Causality.
From S2P Require Import AllocProofs HeapExt Order Walks Demo Independence Unfolding Configuration.
From S2P Require Import ColorProofs UnfoldingProofs DedupProofs Scenario Dependence Heads Booking.
From S2P Require Import ConfInv OpBase OpProofs OpCond Startup System.

Section trace.
Context {PL : Payload} {AL : Allocator}.
Implicit Types (e : event).
Context (u : unfolding) (c : configuration).
Abbreviation h := (uf_heap u).
Abbreviation T := (cf_thread_heads c).
Hypothesis Hco : conf_ok u c.

(** ** Iteration *)

Lemma events_spec :
  T ≠ [] → ∃ l, configuration_events u c = Ok l ∧ NoDup l ∧ ∀ x, x ∈ l ↔ in_conf u c x.
Proof.
  intros Hne. pose proof (conf_heads u c Hco) as HT. pose proof (conf_uf u c Hco) as Hok.
  pose proof (heads_cone u T Hok HT) as Hcone. pose proof (conf_wf u c Hco) as Hwf.
  destruct (cone_heads_distinct h _ _ Hcone) as [Hin Hdis].
  destruct (cone_walk_spec h Hwf _ Hin Hdis) as (l & Hl & Hnd & Hx & _).
  exists (l ++ [uf_root u]). unfold configuration_events. rewrite Hl.
  assert (∀ x, x ∈ l ↔ ∃ t p, smap_find t T = Some p ∧ thread_le h x p) as Hx'.
  { intros x. rewrite Hx. setoid_rewrite list_elem_of_In. setoid_rewrite <-in_rev.
    setoid_rewrite <-list_elem_of_In. setoid_rewrite (cone_vals_elem h _ _ _ Hcone). naive_solver. }
  split_and!.
  - by destruct T.
  - apply NoDup_app. split_and!; [done| |apply NoDup_singleton].
    intros x (t & p & Hp & Hle)%Hx' ->%list_elem_of_singleton.
    destruct (ho_head _ _ HT t p Hp) as (e & He & Ht & Hk).
    destruct (uo_root _ Hok) as (er & Her & Hkr).
    destruct (thread_le_tid h Hwf _ p e He Hle) as (er' & Her' & Htr).
    assert (er' = er) as -> by congruence.
    apply Hk, (wf_tid _ _ (Hwf _ _ He)). rewrite <-Htr. by apply (wf_tid _ _ (Hwf _ _ Her)).
  - intros x. rewrite elem_of_app, list_elem_of_singleton, Hx'. split.
    + intros [(t & p & Hp & Hle)| ->]; [right|by left].
      exists t, p. split; [done|]. by apply thread_le_causal.
    + intros HCx. destruct (conf_stored u c Hco x HCx) as [ex Hex].
      destruct (decide (ev_kind ex = program_init)) as [Hk|Hk].
      { right. by apply (in_heads_init u T Hok HT x ex). }
      left. destruct (cone_for_above h (in_conf u c) Hwf (conf_free u c Hco) T _ x ex Hcone)
        as (p & Hp & Hle); [done..|]. eauto.
Qed.

(** ** Locks *)

Definition acquires e : Prop := kind_in [lock_acquire; wait2] e.
Definition gives_up e : Prop := kind_in [lock_release; wait1] e.

(** The acquisition [a] is ended by an event of its own thread before [b]. *)
Definition released_before (a b : eid) : Prop :=
  ∃ r er ea, in_conf u c r ∧ h !! r = Some er ∧ h !! a = Some ea ∧ gives_up er ∧
    lock_predecessor er = Some a ∧ ev_tid er = ev_tid ea ∧ causal_lt h r b.

Lemma lock_pred_lt x ex lp : h !! x = Some ex → lock_predecessor ex = Some lp → causal_lt h lp x.
Proof.
  intros Hex Hlp. apply causal_lt_alt. exists ex. split; [done|].
  exists lp. split; [by apply lock_predecessor_pred | reflexivity].
Qed.

(** Two events on a lock, one below the other, are linked through the lock
    predecessor of the later one. *)
Lemma chain_down x y ex ey :
  in_conf u c y → h !! x = Some ex → h !! y = Some ey → causal_lt h x y →
  ev_lid ex ≠ 0%N → ev_lid ey = ev_lid ex → before_lock_predecessor h x ey.
Proof.
  intros HCy Hex Hey Hlt Hl Heq. pose proof (conf_wf u c Hco) as Hwf.
  assert (in_conf u c x) as HCx by (eapply (conf_le u c Hco); [done|]; apply causal_le_alt; by right).
  destruct (co_chain _ _ Hco x y ex ey) as [?|(lp & Hlp & Hle)]; try done.
  { intros ->. by eapply causal_lt_irrefl. }
  exfalso. eapply causal_lt_irrefl; [done|]. eapply causal_lt_trans; [exact Hlt|].
  eapply causal_le_lt_trans; [done|]. by eapply lock_pred_lt.
Qed.

(** The lock predecessor of an acquisition. *)
Lemma acquired_from b eb lp :
  h !! b = Some eb → acquires eb → lock_predecessor eb = Some lp →
  at_event h lp (λ x, (ev_kind x = lock_create ∨ gives_up x) ∧ ev_lid x = ev_lid eb).
Proof.
  intros Heb Hacq Hlp. pose proof (wf_class _ _ (conf_wf u c Hco _ _ Heb)) as Hcl.
  unfold class_ok, acquires, kind_in, ev_kind, lock_predecessor, gives_up, ev_lid in *.
  destruct (ev_data eb); simpl in *; try (exfalso; set_solver).
  - rewrite Hlp in Hcl. destruct Hcl as (x & Hx & Hk & Hl). exists x. split_and!; [done| |done].
    rewrite !elem_of_cons in Hk. unfold kind_in, ev_kind. rewrite !elem_of_cons. naive_solver.
  - destruct Hcl as (_ & _ & x & Hx & Hk & Hl). injection Hlp as ->. exists x. naive_solver.
Qed.

Lemma gives_up_of r er :
  h !! r = Some er → gives_up er →
  ∃ q eq, lock_predecessor er = Some q ∧ h !! q = Some eq ∧ acquires eq ∧
    ev_lid eq = ev_lid er ∧ ev_tid eq = ev_tid er.
Proof.
  intros Her Hg. pose proof (wf_class _ _ (conf_wf u c Hco _ _ Her)) as Hcl.
  unfold class_ok, gives_up, kind_in, ev_kind, lock_predecessor, ev_lid in *.
  destruct (ev_data er); simpl in *; try (exfalso; set_solver).
  - destruct Hcl as (q & Hq & Hk & Hl & Ht). by eexists _, q.
  - destruct Hcl as [(q & Hq & Hk & Hl & Ht) _]. by eexists _, q.
Qed.

Lemma acquires_not_gives_up e : acquires e → gives_up e → False.
Proof. unfold acquires, gives_up, kind_in. destruct (ev_kind e); set_solver. Qed.

Lemma released_lower n a b ea eb :
  dep h b < n → in_conf u c b → h !! a = Some ea → h !! b = Some eb →
  acquires ea → acquires eb → ev_lid ea ≠ 0%N → ev_lid eb = ev_lid ea →
  before_lock_predecessor h a eb → released_before a b.
Proof.
  revert b eb. induction n as [|n IH]; intros b eb Hn HCb Hea Heb Ha Hb Hl Heq (lp & Hlp & Hle); [lia|].
  pose proof (conf_wf u c Hco) as Hwf. pose proof (lock_pred_lt b eb lp Heb Hlp) as Hlt.
  destruct (acquired_from b eb lp Heb Hb Hlp) as (el & Hel & Hk & Hll).
  assert (in_conf u c lp) as HCl by (eapply (conf_le u c Hco); [done|]; apply causal_le_alt; by right).
  assert (causal_lt h a lp) as Halp.
  { apply causal_le_alt in Hle as [->|?]; [|done]. assert (el = ea) as -> by congruence.
    destruct Hk as [Hk|Hk]; [unfold acquires, kind_in in Ha; rewrite Hk in Ha; exfalso; set_solver|].
    by destruct (acquires_not_gives_up ea). }
  destruct (chain_down a lp ea el HCl Hea Hel Halp Hl) as (q & Hq & Haq); [congruence|].
  destruct Hk as [Hk|Hg]; [unfold lock_predecessor in Hq; unfold ev_kind in Hk; by destruct (ev_data el)|].
  destruct (gives_up_of lp el Hel Hg) as (q' & eq & Hq' & Heq' & Hacq & Hlq & Htq).
  assert (q' = q) as -> by congruence. pose proof (lock_pred_lt lp el q Hel Hq) as Hqlp.
  apply causal_le_alt in Haq as [->|Haq].
  - exists lp, el, ea. split_and!; try done. assert (eq = ea) as -> by congruence. done.
  - assert (in_conf u c q) as HCq by (eapply (conf_le u c Hco); [exact HCl|]; apply causal_le_alt; by right).
    destruct (IH q eq) as (r & er & ea' & ? & ? & ? & ? & ? & ? & Hr); try done.
    + apply causal_lt_dep in Hqlp, Hlt; [lia | done..].
    + congruence.
    + eapply chain_down; try done. congruence.
    + exists r, er, ea'. split_and!; try done. eapply causal_lt_trans; [done|].
      by eapply causal_lt_trans.
Qed.

Lemma acquires_lid a ea : h !! a = Some ea → acquires ea → ev_lid ea ≠ 0%N.
Proof.
  intros Hea Ha. pose proof (lc_ids _ _ _ (uo_lc _ (conf_uf u c Hco) _ _ Hea)) as Hids.
  unfold ids_nonzero, acquires, kind_in, ev_kind, ev_lid in *.
  destruct (ev_data ea); simpl in *; try done; try (exfalso; set_solver). naive_solver.
Qed.

Lemma exclusion a b ea eb :
  in_conf u c a → in_conf u c b → h !! a = Some ea → h !! b = Some eb → a ≠ b →
  acquires ea → acquires eb → ev_lid eb = ev_lid ea →
  released_before a b ∨ released_before b a.
Proof.
  intros HCa HCb Hea Heb Hne Ha Hb Heq. pose proof (acquires_lid a ea Hea Ha) as Hl.
  destruct (co_chain _ _ Hco a b ea eb HCa HCb Hea Heb Hne Hl Heq) as [Hbl|Hbl]; [left|right].
  - by apply (released_lower (S (dep h b)) a b ea eb); try lia.
  - apply (released_lower (S (dep h a)) b a eb ea); try done; [lia | congruence].
Qed.

(** ** Condition variables *)

(** [x] is the [wait2] that completes the [wait1] at [w], which [n] notified. *)
Definition completes (x w n : eid) : Prop :=
  tpred h w x ∧ at_event h w (λ e, ev_kind e = wait1) ∧ in_conf u c n ∧
  at_event h n (λ e, kind_in [signal; broadcast] e) ∧ notifies h n w ∧
  causal_lt h w n ∧ causal_lt h n x.

Lemma cond_pred_lt w n en :
  h !! n = Some en → w ∈ condition_variable_predecessors en → causal_lt h w n.
Proof.
  intros Hen Hw. apply causal_lt_alt. exists en. split; [done|].
  exists w. split; [|reflexivity]. by apply condition_variable_predecessors_pred.
Qed.

Lemma wait2_completes x ex :
  in_conf u c x → h !! x = Some ex → ev_kind ex = wait2 → ∃ w n, completes x w n.
Proof.
  intros HCx Hex Hk. pose proof (wf_class _ _ (conf_wf u c Hco _ _ Hex)) as Hcl.
  destruct (ev_data ex) as [| | | | | | | | | | | |tp np lp cid lid a| | |] eqn:Hd;
    try (unfold ev_kind in Hk; by rewrite Hd in Hk).
  unfold class_ok in Hcl. rewrite Hd in Hcl.
  destruct Hcl as ((ew & Hew & Hkw) & (en & Hen & Hkn & _ & Hpn) & _).
  assert (∀ q, q ∈ predecessors ex → causal_lt h q x) as Hp.
  { intros q Hq. apply causal_lt_alt. exists ex. split; [done|]. by exists q. }
  exists tp, np. split_and!.
  - exists ex. split; [done|]. unfold thread_predecessor. by rewrite Hd.
  - by exists ew.
  - eapply (conf_le u c Hco); [exact HCx|]. apply causal_le_alt. right. apply Hp.
    unfold predecessors. rewrite Hd. set_solver.
  - by exists en.
  - by eapply (co_woken _ _ Hco).
  - by eapply cond_pred_lt.
  - apply Hp. unfold predecessors. rewrite Hd. set_solver.
Qed.

(** The list of a live condition variable holds exactly the waiting threads'
    [wait1]s. *)
Lemma waiting_exact k preds w :
  smap_find k (cf_cond_heads c) = Some preds →
  (w ∈ preds ∧ at_event h w (λ e, ev_kind e = wait1)) ↔
  in_conf u c w ∧ at_event h w (λ e, ev_kind e = wait1 ∧ ev_cid e = k) ∧
    ∀ n, in_conf u c n → ¬ notifies h n w.
Proof.
  intros Hk. assert (cond_list c k = preds) as Hl by (unfold cond_list; by rewrite Hk).
  rewrite <-Hl. split.
  - intros [Hw (ew & Hew & Hkw)]. destruct (co_cond _ _ Hco k w Hw) as [HCw (ew' & Hew' & Hc & _)].
    split_and!; [done| |intros n; by apply (co_waiting _ _ Hco k w n)].
    exists ew. split_and!; [done | done | congruence].
  - intros (HCw & (ew & Hew & Hkw & Hc) & Hno). split; [|by exists ew].
    assert (ev_cid ew ≠ 0%N) as Hnz.
    { apply cid_nonzero; [|by rewrite Hkw]. apply (lc_ids _ _ _ (uo_lc _ (conf_uf u c Hco) _ _ Hew)). }
    destruct (co_conds _ _ Hco w ew HCw Hew Hnz) as [_ Hli]. rewrite Hc in Hli.
    specialize (Hli ltac:(eauto)). unfold listed in Hli. rewrite Hkw, Hc in Hli.
    destruct Hli as [?|(n & Hn & Hnw)]; [done|].
    destruct (Hno n); [by apply (co_cond _ _ Hco k) | done].
Qed.
End trace.

(** ** The unfoldings of reachable states separate dependent events *)

Section reach.
Context {PL : Payload} {AL : Allocator}.
Implicit Types (u : unfolding) (c : configuration) (o : operation) (e : event).

Lemma inserted_separated u e u' unknown p :
  uf_ok u → new_event_ok (uf_heap u) e → separated (uf_heap u) →
  deduplicate e u = Ok (u', unknown, p) → separated (uf_heap u').
Proof.
  intros Hok Hne Hs Hd. destruct (deduplicate_spec e u Hok Hne) as (u1 & unk & q & Hd' & Hdd).
  rewrite Hd in Hd'. injection Hd' as <- <- <-. by apply (deduplicate_separated u e u' unknown p).
Qed.

Lemma performed_separated u c o u' c' p :
  conf_ok u c → admissible u c o → separated (uf_heap u) → perform o u c = Ok (u', c', p) →
  separated (uf_heap u').
Proof.
  intros Hco Ha Hs Hp. unfold perform in Hp. apply bind_ok in Hp as ([c1 x] & Hop & Hcom).
  destruct (apply_op_proposes u c o Hco Ha c1 x Hop) as [Hcm _].
  unfold commit in Hcom. apply bind_ok in Hcom as (v & _ & Hcom).
  apply bind_ok in Hcom as ([[u1 unk] q] & Hd & Hcom). apply bind_ok in Hcom as (e & _ & Hcom).
  apply bind_ok in Hcom as (c2 & _ & Hcom). injection Hcom as <- _ _. cbn.
  apply (inserted_separated u (ex_event x) u1 unk q); [apply Hco | | done | done].
  eapply extends_new; [apply Hco | apply Hco | apply Hcm].
Qed.

Lemma add_thread_separated r r' :
  root_ok r → (N.of_nat (length (cr_thread_heads r)) + 1 < 65536)%N → add_thread r = Ok r' →
  separated (uf_heap (cr_unfolding r)) → separated (uf_heap (cr_unfolding r')).
Proof.
  intros [Hok HT Hst Htids] Hlen Hadd Hs. unfold add_thread in Hadd. destruct r as [u T]; simpl in *.
  set (i := (N.of_nat (length T) + 1)%N) in *. rewrite N.mod_small in Hadd by lia.
  assert (tid_child tid_root i = Ok [i]) as Hi.
  { unfold tid_child. rewrite (proj2 (N.eqb_neq i 0)) by lia. done. }
  rewrite Hi, bind_Ok_l in Hadd.
  assert (smap_find ([i] : thread_id) T = None) as Hnew.
  { destruct (smap_find ([i] : thread_id) T) eqn:Hf; [|done].
    destruct (Htids [i]) as (j & [= <-] & Hj); [eauto|]. lia. }
  destruct (first_thread_extends u T [i] Hok HT Hst) as (e & He & Ht & Hd & Hx); [done..|].
  rewrite He, bind_Ok_l in Hadd. apply bind_ok in Hadd as ([[u1 unk] p] & Hdd & Hadd).
  apply bind_ok in Hadd as (init & _ & Hadd). apply bind_ok in Hadd as (ei & _ & Hadd).
  apply bind_ok in Hadd as (v & _ & [= <-]). cbn.
  apply (inserted_separated u e u1 unk p); [done | by eapply extends_new | done | done].
Qed.

Lemma add_threads_separated n r r' :
  root_ok r → (N.of_nat (length (cr_thread_heads r) + n) < 65536)%N → add_threads n r = Ok r' →
  separated (uf_heap (cr_unfolding r)) → separated (uf_heap (cr_unfolding r')).
Proof.
  revert r. induction n as [|n IH]; intros r Hr Hn; simpl; [by intros [= <-]|].
  intros (r1 & H1 & H2)%bind_ok Hs.
  destruct (add_thread_ok r Hr) as (r1' & H1' & Hr1 & Hl); [lia|].
  assert (r1' = r1) as -> by congruence. apply (IH r1); [done | lia | done |].
  apply (add_thread_separated r); [done | lia | done | done].
Qed.

Lemma new_separated_root garbage : separated (uf_heap (new_unfolding garbage)).
Proof.
  intros x y ex ey [-> _]%new_lookup [-> _]%new_lookup Hn. destruct Hn. reflexivity.
Qed.

Lemma step_separated s s' : system_ok s → sys_step s s' → sy_confs s ≠ [] ∧ separated (uf_heap (sy_unfolding s)) →
  sy_confs s' ≠ [] ∧ separated (uf_heap (sy_unfolding s')).
Proof.
  intros Hs Hst [Hne Hsep].
  destruct Hst as [u cs i c o u' c' p Hi Ha Hp|u cs i c addr Hi|u cs e u' k p Hnew Hd]; simpl in *.
  - split; [intros Hn; apply Hne; apply nil_length_inv; by rewrite <-(length_insert cs i c'), Hn|].
    apply (performed_separated u c o u' c' p); try done. apply Hs. by eapply list_elem_of_lookup_2.
  - split; [by destruct cs | done].
  - split; [done|]. destruct cs as [|c cs]; [done|].
    apply (inserted_separated u e u' k p); try done. apply (Hs c). by left.
Qed.

Lemma initial_separated s : initial s → sy_confs s ≠ [] ∧ separated (uf_heap (sy_unfolding s)).
Proof.
  intros [garbage addr n r u c Hadd Hcon H0 Hn]. simpl. split; [done|].
  unfold construct in Hcon. apply bind_ok in Hcon as (v & _ & [= <- _]). cbn.
  apply (add_threads_separated n (new_configuration_root garbage)); [apply new_root_ok | done | done |].
  apply new_separated_root.
Qed.

Lemma reachable_separated s : reachable_system s → separated (uf_heap (sy_unfolding s)).
Proof.
  intros (s0 & H0 & Hr). pose proof (initial_ok s0 H0) as Hok. apply initial_separated in H0.
  cut (sy_confs s ≠ [] ∧ separated (uf_heap (sy_unfolding s))); [by intros [_ ?]|].
  induction Hr as [|s0 s1 s Hst _ IH]; [done|].
  apply IH; [by eapply step_separated | by eapply step_ok].
Qed.

(** ** Fitting a configuration *)

Section fitting.
Context u c (f : eid) (Hc : configured u c) (Hsep : separated (uf_heap u)).
Abbreviation h := (uf_heap u).

(** No cause of [f] outside of the configuration is in immediate conflict
    with it. *)
Hypothesis Hfit : ∀ x, causal_le h x f → ¬ in_conf u c x → ¬ ∃ y, in_conf u c y ∧ conflicts_of h x y.

Lemma conf_or_not x : in_conf u c x ∨ ¬ in_conf u c x.
Proof.
  destruct Hc as [Hco _ Hne]. destruct (events_spec u c Hco Hne) as (l & _ & _ & Hx).
  rewrite <-Hx. destruct (decide (x ∈ l)); auto.
Qed.

Lemma le_or_not x y : is_Some (h !! y) → causal_le h x y ∨ ¬ causal_le h x y.
Proof.
  intros Hy. rewrite causal_le_alt. destruct (decide (x = y)) as [->|Hn]; [by left; left|].
  destruct (cause_or_not h y x) as [?|?]; [apply (conf_uf u c), Hc | done | by left; right|].
  right. by intros [?|?].
Qed.

(** Causes of [f] and events of the configuration that depend on each other
    are ordered. *)
Lemma fitting_ordered x y ex ey :
  causal_le h x f → in_conf u c y → h !! x = Some ex → h !! y = Some ey →
  is_independent_of h ex ey = Ok false → causal_le h x y ∨ causal_le h y x.
Proof.
  intros Hxf Hy Hex Hey Hi. pose proof (cd_ok _ _ Hc) as Hco. pose proof (conf_uf u c Hco) as Hok.
  pose proof (ho_dep _ _ (conf_heads u c Hco)) as Hdep.
  destruct (conf_or_not x) as [Hx|Hx]; [by apply (Hdep x y ex ey)|].
  destruct (le_or_not x y) as [?|Hn1]; [by eexists | by left|].
  destruct (le_or_not y x) as [?|Hn2]; [by eexists | by right|]. exfalso.
  destruct (Hsep x y ex ey Hex Hey Hn1 Hn2 Hi) as (x' & y' & Hx' & Hy' & Hcf).
  assert (in_conf u c y') as Hcy by (by apply (conf_le u c Hco y' y)).
  destruct (conf_or_not x') as [Hcx|Hcx].
  - destruct (conf_stored u c Hco x' Hcx) as [ex' Hex'], (conf_stored u c Hco y' Hcy) as [ey' Hey'].
    destruct (uo_dep _ Hok x' y' ex' ey' Hcf Hex' Hey') as [Hi' Hle]. apply uo_conf in Hcf as [_ Hcf]; [|done].
    destruct (uo_dep _ Hok y' x' ey' ex' Hcf Hey' Hex') as [_ Hle'].
    by destruct (Hdep x' y' ex' ey' Hcx Hcy Hex' Hey' Hi').
  - apply (Hfit x'); [by etrans | done | by exists y'].
Qed.

Lemma fitting_thread x y ex ey :
  causal_le h x f → in_conf u c y → h !! x = Some ex → h !! y = Some ey → ev_tid ex = ev_tid ey →
  in_conf u c x ∨ causal_le h y f.
Proof.
  intros Hxf Hy Hex Hey Ht. destruct (fitting_ordered x y ex ey) as [Hle|Hle]; try done.
  - unfold is_independent_of. by rewrite Ht, (proj2 (tid_eqb_spec _ _) eq_refl).
  - left. by apply (conf_le u c (cd_ok _ _ Hc) x y).
  - right. by etrans.
Qed.

Lemma fitting_union (P : eid → eid → Prop) :
  (∀ x y, P x y → P y x) →
  (∀ x y, P x y → ∃ ex ey, h !! x = Some ex ∧ h !! y = Some ey ∧ ev_tid ex = ev_tid ey) →
  (∀ x y, in_conf u c x → in_conf u c y → P x y → x = y) →
  (∀ x y, causal_le h x f → causal_le h y f → P x y → x = y) →
  ∀ x y, in_conf u c x ∨ causal_le h x f → in_conf u c y ∨ causal_le h y f → P x y → x = y.
Proof.
  intros Hsym Htid Hcc Hff.
  assert (∀ x y, causal_le h x f → in_conf u c y → P x y → x = y) as Hfc.
  { intros x y Hx Hy HP. destruct (Htid x y HP) as (ex & ey & Hex & Hey & Ht).
    destruct (fitting_thread x y ex ey) as [?|?]; auto. }
  intros x y [Hx|Hx] [Hy|Hy] HP; [by apply Hcc | symmetry; by apply Hfc; auto | by apply Hfc | by apply Hff].
Qed.

(** The configuration and the causes of [f] have one sequence of events per
    thread. *)
Lemma fitting_free : is_Some (h !! f) → conflict_free h (λ x, in_conf u c x ∨ causal_le h x f).
Proof.
  intros [ef Hf]. pose proof (cd_ok _ _ Hc) as Hco. pose proof (conf_uf u c Hco) as Hok.
  pose proof (uo_wf _ Hok) as Hwf. destruct (ho_free _ _ (conf_heads u c Hco)) as [H1 H2 H3 H4].
  destruct (lc_free _ _ _ (uo_lc _ Hok f ef Hf)) as [F1 F2 F3 F4].
  split.
  - intros x [?|?]; auto.
  - intros x y [Hy|Hy] Hle; [left; by apply (H2 x y) | right; by apply (F2 x y)].
  - intros x y ex ey Hx Hy Hex Hey Hpx Hpy Ht.
    apply (fitting_union (λ x y, ∃ ex ey, h !! x = Some ex ∧ h !! y = Some ey ∧
      thread_predecessor ex = None ∧ thread_predecessor ey = None ∧ ev_tid ex = ev_tid ey)); try done.
    + intros a b (ea & eb & ? & ? & ? & ? & ?). by exists eb, ea.
    + intros a b (ea & eb & ? & ? & ? & ? & ?). by exists ea, eb.
    + intros a b ? ? (ea & eb & ? & ? & ? & ? & ?). by apply (H3 a b ea eb).
    + intros a b ? ? (ea & eb & ? & ? & ? & ? & ?). by apply (F3 a b ea eb).
    + by exists ex, ey.
  - intros x y q Hx Hy Hqx Hqy.
    apply (fitting_union (λ x y, tpred h q x ∧ tpred h q y)); try done.
    + by intros a b [? ?].
    + intros a b [Ha Hb]. destruct (id Ha) as (ea & Hea & Hta), (id Hb) as (eb & Heb & Htb).
      destruct (wf_preds _ _ (Hwf a ea Hea) q) as [eq Heq]; [by apply thread_predecessor_pred|].
      exists ea, eb. split_and!; [done..|].
      rewrite <-(tpred_tid h Hwf q a eq ea Heq Hea Ha). by apply (tpred_tid h Hwf q b eq eb).
    + intros a b ? ? [? ?]. by apply (H4 a b q).
    + intros a b ? ? [? ?]. by apply (F4 a b q).
Qed.
End fitting.
End reach.
