(* ===== verification/Machine.v ===== *)
(** * An abstract machine for threads, locks and condition variables

    The specification that the operations of a configuration implement. Its
    state has no events: a thread runs, waits, has been notified or has
    exited; a lock is free or held; a condition variable is live or
    destroyed. [machine_step] says for every operation when it is possible
    and what it does. [machine_of] computes the abstract state of a
    configuration. *)

From stdpp Require Import base tactics list gmap numbers relations.
From S2P Require Import Prelude StdMap ThreadId Event Comb CombEnum CombProofs Cone Alloc Causality.
From S2P Require Import AllocProofs HeapExt Order Walks Demo Independence Unfolding Configuration.
From S2P Require Import ColorProofs UnfoldingProofs DedupProofs Scenario Dependence Heads Booking.
From S2P Require Import ConfInv OpBase OpProofs OpCond Startup.

(** What a running thread did last, as far as a later operation asks. *)
Inductive recent :=
  | Created (new_tid : thread_id)
  | Acquired (l : lock_id_t)
  | Released
  | Other.

Inductive status :=
  | Running (r : recent)
  | Waiting (k : cond_id_t)
  | Notified (k : cond_id_t)
  | Exited.

(** A lock given up by a waiting thread cannot be destroyed; one that was
    only created cannot be returned to by a waiting thread. *)
Inductive lock_state :=
  | Fresh
  | Free
  | FreedByWait
  | Held (t : thread_id)
  | LockDestroyed.

Inductive cond_state := Live | CondDestroyed.

#[export] Instance recent_eq_dec : EqDecision recent.
Proof. solve_decision. Defined.
#[export] Instance status_eq_dec : EqDecision status.
Proof. solve_decision. Defined.
#[export] Instance lock_state_eq_dec : EqDecision lock_state.
Proof. solve_decision. Defined.
#[export] Instance cond_state_eq_dec : EqDecision cond_state.
Proof. solve_decision. Defined.

Record machine := Machine {
  mc_threads : gmap thread_id status;
  mc_locks : gmap lock_id_t lock_state;
  mc_conds : gmap cond_id_t cond_state;
}.

(** ** Steps *)

Section steps.
Context {PL : Payload}.
Implicit Types (m : machine) (t : thread_id).

Definition set_thread t (s : status) m : machine :=
  Machine (<[t := s]> (mc_threads m)) (mc_locks m) (mc_conds m).
Definition set_lock (l : lock_id_t) (s : lock_state) m : machine :=
  Machine (mc_threads m) (<[l := s]> (mc_locks m)) (mc_conds m).
Definition set_cond (k : cond_id_t) (s : cond_state) m : machine :=
  Machine (mc_threads m) (mc_locks m) (<[k := s]> (mc_conds m)).

Definition is_running m t : option recent :=
  match mc_threads m !! t with Some (Running r) => Some r | _ => None end.

Definition is_free (s : option lock_state) : Prop :=
  match s with Some (Fresh | Free | FreedByWait) | None => True | _ => False end.
#[export] Instance is_free_dec s : Decision (is_free s).
Proof. destruct s as [[]|]; simpl; apply _. Defined.

Definition usable m (k : cond_id_t) : Prop := k ≠ 0%N ∧ mc_conds m !! k ≠ Some CondDestroyed.
#[export] Instance usable_dec m k : Decision (usable m k).
Proof. unfold usable. apply _. Defined.

(** The threads that wait on a condition variable. *)
Definition waiters m (k : cond_id_t) : gset thread_id :=
  dom (filter (λ ts, ts.2 = Waiting k) (mc_threads m)).

Definition wake (k : cond_id_t) (nts : list thread_id) m : machine :=
  Machine (map_imap (λ t s, Some (if decide (t ∈ nts) then Notified k else s)) (mc_threads m))
    (mc_locks m) (mc_conds m).

Definition machine_step (o : operation) m : option machine :=
  match o with
  | CreateThread t nt =>
      _ ← is_running m t;
      guard (nt ≠ tid_root ∧ mc_threads m !! nt = None);;
      Some (set_thread t (Running (Created nt)) m)
  | InitThread t from =>
      r ← is_running m from;
      guard (r = Created t ∧ mc_threads m !! t = None);;
      Some (set_thread t (Running Other) m)
  | JoinThread t j =>
      _ ← is_running m t;
      guard (mc_threads m !! j = Some Exited);;
      Some (set_thread t (Running Other) m)
  | ExitThread t atomic =>
      r ← is_running m t;
      guard (atomic = true → r = Released);;
      Some (set_thread t Exited m)
  | CreateLock t l =>
      _ ← is_running m t;
      guard (l ≠ 0%N ∧ mc_locks m !! l = None);;
      Some (set_lock l Fresh (set_thread t (Running Other) m))
  | DestroyLock t l =>
      _ ← is_running m t;
      guard (l ≠ 0%N ∧ mc_locks m !! l ∈ [None; Some Fresh; Some Free]);;
      Some (set_lock l LockDestroyed (set_thread t (Running Other) m))
  | AcquireLock t l =>
      _ ← is_running m t;
      guard (l ≠ 0%N ∧ is_free (mc_locks m !! l));;
      Some (set_lock l (Held t) (set_thread t (Running (Acquired l)) m))
  | ReleaseLock t l atomic =>
      r ← is_running m t;
      guard (mc_locks m !! l = Some (Held t) ∧ (atomic = true → r = Acquired l));;
      Some (set_lock l Free (set_thread t (Running Released) m))
  | CreateCond t k =>
      _ ← is_running m t;
      guard (k ≠ 0%N ∧ mc_conds m !! k = None);;
      Some (set_cond k Live (set_thread t (Running Other) m))
  | DestroyCond t k =>
      _ ← is_running m t;
      guard (usable m k ∧ waiters m k = ∅);;
      Some (set_cond k CondDestroyed (set_thread t (Running Other) m))
  | WaitBegin t k l =>
      _ ← is_running m t;
      guard (usable m k ∧ mc_locks m !! l = Some (Held t));;
      Some (set_cond k Live (set_lock l FreedByWait (set_thread t (Waiting k) m)))
  | WaitEnd t k l =>
      guard (mc_threads m !! t = Some (Notified k) ∧ mc_conds m !! k = Some Live ∧
        mc_locks m !! l ∈ [Some Free; Some FreedByWait]);;
      Some (set_lock l (Held t) (set_thread t (Running Other) m))
  | SignalThread t k nt =>
      _ ← is_running m t;
      guard (usable m k ∧
        (nt = tid_root ∧ waiters m k = ∅ ∨ nt ≠ tid_root ∧ nt ∈ waiters m k));;
      Some (set_cond k Live (set_thread t (Running Other)
        (if decide (nt = tid_root) then m else wake k [nt] m)))
  | BroadcastThreads t k nts =>
      _ ← is_running m t;
      guard (usable m k ∧ waiters m k = list_to_set nts);;
      Some (set_cond k Live (set_thread t (Running Other) (wake k nts m)))
  | LocalStep t _ =>
      _ ← is_running m t;
      Some (set_thread t (Running Other) m)
  end.
End steps.

(** ** The abstract state of a configuration *)

Section abstraction.
Context {PL : Payload}.
Implicit Types (h : heap) (e : event) (c : configuration).

Definition recent_of e : recent :=
  match ev_data e with
  | ThreadCreate _ nt => Created nt
  | LockAcquire _ _ l _ => Acquired l
  | LockRelease _ _ _ _ => Released
  | _ => Other
  end.

Definition status_of c (p : eid) e : status :=
  match ev_kind e with
  | thread_exit => Exited
  | wait1 => if decide (p ∈ cond_list c (ev_cid e)) then Waiting (ev_cid e) else Notified (ev_cid e)
  | _ => Running (recent_of e)
  end.

Definition lock_state_of e : lock_state :=
  match ev_kind e with
  | lock_create => Fresh
  | lock_release => Free
  | wait1 => FreedByWait
  | _ => Held (ev_tid e)
  end.

(** A [std::map] as a finite map. *)
Definition to_gmap {K V} `{Countable K, StdLess K} (m : smap K V) : gmap K V :=
  list_to_map (omap (λ k, pair k <$> smap_find k m) (smap_keys m)).

Definition machine_of h c : machine := {|
  mc_threads := omap (λ p, status_of c p <$> h !! p) (to_gmap (cf_thread_heads c));
  mc_locks := omap (λ p, lock_state_of <$> h !! p) (to_gmap (cf_lock_heads c))
    ∪ ((λ _, LockDestroyed) <$> to_gmap (cf_used_lock_ids c));
  mc_conds := ((λ _, Live) <$> to_gmap (cf_cond_heads c))
    ∪ ((λ _, CondDestroyed) <$> to_gmap (cf_used_cond_ids c));
|}.
End abstraction.

(** ** Committing an event, seen from the abstract machine

    [commit_machine] computes the abstract state after a commit from the
    committed event alone. *)

(** ** Lookups in the abstract state *)

Section lookups.
Context {PL : Payload}.
Implicit Types (h : heap) (c : configuration).

Lemma smap_find_key {K V} `{StdLessLaws K} k (v : V) (m : smap K V) :
  smap_find k m = Some v → k ∈ smap_keys m.
Proof.
  unfold smap_keys. induction m as [|[k' v'] m IH]; simpl; [done|].
  destruct (less_cases k k') as [(-> & E1 & E2)|[(E1 & E2 & ?)|(E1 & E2 & ?)]];
    rewrite E1; try rewrite E2; [by left | done | right; auto].
Qed.

Lemma to_gmap_lookup {K V} `{Countable K, !StdLess K, !StdLessLaws K} (m : smap K V) k :
  to_gmap m !! k = smap_find k m.
Proof.
  unfold to_gmap. apply option_eq. intros v.
  assert (∀ ks, (list_to_map (omap (λ k, pair k <$> smap_find k m) ks) : gmap K V) !! k = Some v ↔
    k ∈ ks ∧ smap_find k m = Some v) as Hgen.
  { induction ks as [|k' ks IH]; simpl.
    - rewrite lookup_empty. split; [done|]. by intros [?%elem_of_nil _].
    - destruct (smap_find k' m) as [v'|] eqn:Hk'; simpl.
      + rewrite lookup_insert_Some, IH, elem_of_cons. destruct (decide (k' = k)) as [->|]; naive_solver.
      + rewrite IH, elem_of_cons. naive_solver. }
  rewrite Hgen. split; [naive_solver|]. intros Hv. split; [by eapply smap_find_key | done].
Qed.

Lemma thread_lookup h c t :
  mc_threads (machine_of h c) !! t =
  p ← smap_find t (cf_thread_heads c); status_of c p <$> h !! p.
Proof. simpl. by rewrite lookup_omap, to_gmap_lookup. Qed.

Lemma lock_lookup h c l :
  mc_locks (machine_of h c) !! l =
  match p ← smap_find l (cf_lock_heads c); lock_state_of <$> h !! p with
  | Some s => Some s
  | None => if sset_has l (cf_used_lock_ids c) then Some LockDestroyed else None
  end.
Proof.
  simpl. rewrite lookup_union, lookup_omap, lookup_fmap, !to_gmap_lookup.
  unfold sset_has, smap_has. destruct (_ ≫= _); simpl; [by rewrite union_Some_l|].
  rewrite (left_id_L None (∪)). by destruct (smap_find l (cf_used_lock_ids c)).
Qed.

Lemma cond_lookup h c k :
  mc_conds (machine_of h c) !! k =
  match smap_find k (cf_cond_heads c) with
  | Some _ => Some Live
  | None => if sset_has k (cf_used_cond_ids c) then Some CondDestroyed else None
  end.
Proof.
  simpl. rewrite lookup_union, !lookup_fmap, !to_gmap_lookup.
  unfold sset_has, smap_has. destruct (smap_find k (cf_cond_heads c)); simpl; [by rewrite union_Some_l|].
  rewrite (left_id_L None (∪)). by destruct (smap_find k (cf_used_cond_ids c)).
Qed.
End lookups.

(** ** The effect of one event *)

Section effect.
Context {PL : Payload} {AL : Allocator}.
Implicit Types (e : event) (m : machine).

Definition notified_tids (h : heap) e : list thread_id := omap (λ w, ev_tid <$> h !! w) (notified h e).

Definition new_status e : status :=
  match ev_kind e with
  | thread_exit => Exited
  | wait1 => Waiting (ev_cid e)
  | _ => Running (recent_of e)
  end.

Definition new_lock e : lock_state :=
  if decide (ev_kind e = lock_destroy) then LockDestroyed else lock_state_of e.
Definition new_cond e : cond_state :=
  if decide (ev_kind e = condition_variable_destroy) then CondDestroyed else Live.

Definition after_event (h : heap) e m : machine :=
  let m := set_thread (ev_tid e) (new_status e) (wake (ev_cid e) (notified_tids h e) m) in
  let m := if decide (ev_lid e = 0%N) then m else set_lock (ev_lid e) (new_lock e) m in
  if decide (ev_cid e = 0%N ∨ ev_kind e = wait2) then m else set_cond (ev_cid e) (new_cond e) m.

#[export] Instance recent_of_core : Proper (same_core ==> eq) recent_of.
Proof.
  intros e e' [_ Hd _ _]. unfold recent_of.
  destruct (ev_data e), (ev_data e'); simpl in Hd; by simplify_eq.
Qed.
#[export] Instance lock_state_of_core : Proper (same_core ==> eq) lock_state_of.
Proof.
  intros e e' Hs. unfold lock_state_of. by rewrite (ev_kind_proper _ _ Hs), (ev_tid_proper _ _ Hs).
Qed.
#[export] Instance status_of_core c p : Proper (same_core ==> eq) (status_of c p).
Proof.
  intros e e' Hs. unfold status_of.
  by rewrite (ev_kind_proper _ _ Hs), (ev_cid_proper _ _ Hs), (recent_of_core _ _ Hs).
Qed.

Context (u : unfolding) (c : configuration) (e : event).
Abbreviation h := (uf_heap u).
Abbreviation T := (cf_thread_heads c).
Hypothesis Hco : conf_ok u c.
Hypothesis Hcm : committable u c e.
Context (u' : unfolding) (unknown : bool) (p : eid).
Hypothesis Hdd : deduplicated e u u' unknown p.
Abbreviation h' := (uf_heap u').
Context (ep : event) (c' : configuration).
Hypothesis Hep : h' !! p = Some ep.
Hypothesis Hbk : booked h' ep p (advance_thread (ev_tid ep) p c) c'.
(** A condition variable is not destroyed under a waiting thread. *)
Hypothesis Hidle : ev_kind e = condition_variable_destroy →
  ∀ w, w ∈ cond_list c (ev_cid e) → at_event h w (λ x, ev_kind x ≠ wait1).

Lemma core_of_new : same_core e ep.
Proof. by eapply new_core. Qed.

Lemma old_head q eq' (t : thread_id) :
  smap_find t T = Some q → h' !! q = Some eq' → ∃ eq, h !! q = Some eq ∧ same_core eq eq' ∧ ev_tid eq = t.
Proof.
  intros Hq Heq'. destruct (old_event u c e Hco u' unknown p Hdd q eq') as (eq & Heq & Hs);
    [by eapply conf_head | done |]. exists eq. split_and!; [done..|].
  destruct (ho_head _ _ (conf_heads u c Hco) t q Hq) as (x & Hx & Ht & _). congruence.
Qed.

(** Whether a waiting head stays on its list. *)
Lemma still_listed t q eq :
  t ≠ ev_tid e → smap_find t T = Some q → h !! q = Some eq → ev_tid eq = t → ev_kind eq = wait1 →
  q ∈ cond_list c' (ev_cid eq) ↔ q ∈ cond_list c (ev_cid eq) ∧ t ∉ notified_tids h e.
Proof.
  intros Hne Hq Heq Ht Hk.
  assert (q ≠ p) as Hqp by (eapply (not_new u c e Hco Hcm u' unknown p Hdd); by eapply conf_head).
  assert (t ∈ notified_tids h e ↔ q ∈ notified h e) as Hn.
  { unfold notified_tids. rewrite list_elem_of_omap. split.
    - intros (w & Hw & Hwt). destruct (h !! w) as [ew|] eqn:Hew; simplify_eq/=.
      assert (w = q) as ->; [|done].
      eapply (waiting_is_head u c Hco (ev_cid e)); [done | by apply Hcm |].
      exists ew. split_and!; [done..|].
      destruct (notified_wait1 h e w) as [(x & ? & ? & _) _]; [apply Hcm | done | congruence].
    - intros Hqn. exists q. split; [done|]. by rewrite Heq, <-Ht. }
  rewrite Hn. split.
  - intros Hin. eapply (new_cond_list u c e) in Hin as [[H1 H2]|[? _]]; try done.
    split; [done|]. intros Hin. apply H2; [|done].
    destruct (notified_wait1 h e q) as [(x & ? & _ & ?) _]; [apply Hcm | done | congruence].
  - intros [Hin Hnn]. destruct (decide (ev_cid eq = ev_cid e ∧ ev_cid e ≠ 0%N)) as [[E Hc]|Hneq].
    + rewrite E in *. destruct (cond_kind u c e Hco Hcm u' unknown p Hdd ep c' Hep Hbk Hc) as [Hki|[Hki|Hki]].
      * destruct (Hidle Hki q Hin) as (x & Hx & Hxk). congruence.
      * pose proof (cond_booked u c e Hcm u' unknown p Hdd ep c' Hep Hbk Hc) as Hb.
        rewrite Hki in Hb. unfold cond_list in *. by rewrite (proj1 Hb).
      * destruct (cond_booked_list u c e Hco Hcm u' unknown p Hdd ep c' Hep Hbk Hc Hki) as (_ & _ & _ & Hm).
        apply Hm. by right.
    + destruct (cond_find_ne u c e u' unknown p Hdd ep c' Hep Hbk (ev_cid eq)) as (_ & -> & _); [|done].
      destruct (decide (ev_cid e = 0%N)); [by right | left; naive_solver].
Qed.

Lemma threads_after t :
  mc_threads (machine_of h' c') !! t = mc_threads (after_event h e (machine_of h c)) !! t.
Proof.
  assert (mc_threads (after_event h e (machine_of h c)) =
    mc_threads (set_thread (ev_tid e) (new_status e) (wake (ev_cid e) (notified_tids h e) (machine_of h c)))) as ->.
  { unfold after_event. by repeat case_decide. }
  cbn [mc_threads set_thread wake].
  rewrite thread_lookup, (bk_thread _ _ _ _ _ Hbk). cbn [cf_thread_heads advance_thread].
  rewrite <-(ev_tid_proper _ _ core_of_new).
  destruct (smap_find_set (ev_tid e) t p T) as [[<- ->]|[Hne ->]].
  - rewrite lookup_insert_eq. simpl. rewrite Hep. simpl. f_equal.
    unfold status_of, new_status. rewrite <-(ev_kind_proper _ _ core_of_new),
      <-(ev_cid_proper _ _ core_of_new), <-(recent_of_core _ _ core_of_new).
    destruct (ev_kind e) eqn:Hk; try done. rewrite decide_True; [done|].
    assert (ev_cid e ≠ 0%N) as Hc.
    { apply cid_nonzero; [apply (xt_ids _ _ _ (cm_extends _ _ _ Hcm)) | by rewrite Hk]. }
    destruct (cond_booked_list u c e Hco Hcm u' unknown p Hdd ep c' Hep Hbk Hc) as (_ & _ & _ & Hm).
    { unfold on_list. rewrite Hk. set_solver. }
    apply Hm. by left.
  - rewrite lookup_insert_ne, map_lookup_imap, thread_lookup by done.
    destruct (smap_find t T) as [q|] eqn:Hq; [|done]. simpl.
    destruct (ho_head _ _ (conf_heads u c Hco) t q Hq) as (eq & Heq & Ht & _).
    destruct (dd_ext _ _ _ _ _ Hdd q eq Heq) as (eq' & Heq' & Hs). rewrite Heq, Heq'. simpl. f_equal.
    rewrite <-(status_of_core c' q _ _ Hs).
    destruct (decide (t ∈ notified_tids h e)) as [Hin|Hnin].
    + unfold notified_tids in Hin. apply list_elem_of_omap in Hin as (w & Hw & Hwt).
      destruct (h !! w) as [ew|] eqn:Hew; simplify_eq/=.
      destruct (notified_wait1 h e w) as [(x & Hx & Hk & Hcw) _]; [apply Hcm | done|].
      assert (x = ew) as -> by congruence.
      assert (w = q) as ->.
      { eapply (waiting_is_head u c Hco (ev_cid e)); [done | by apply Hcm |]. by exists ew. }
      assert (ew = eq) as -> by congruence.
      unfold status_of. rewrite Hk, Hcw, decide_False; [done|]. rewrite <-Hcw.
      rewrite (still_listed (ev_tid eq) q eq) by (done || congruence). intros [_ Hnn]. apply Hnn.
      apply list_elem_of_omap. exists q. split; [done|]. by rewrite Heq.
    + unfold status_of. destruct (ev_kind eq) eqn:Hk; try done.
      pose proof (still_listed t q eq ltac:(congruence) Hq Heq Ht Hk) as Hl.
      repeat case_decide; naive_solver.
Qed.

Lemma locks_after l :
  mc_locks (machine_of h' c') !! l = mc_locks (after_event h e (machine_of h c)) !! l.
Proof.
  assert (mc_locks (after_event h e (machine_of h c)) =
    if decide (ev_lid e = 0%N) then mc_locks (machine_of h c)
    else <[ev_lid e := new_lock e]> (mc_locks (machine_of h c))) as ->.
  { unfold after_event. by repeat case_decide. }
  pose proof (bk_used_lock _ _ _ _ _ Hbk l) as Hu. pose proof (bk_lock _ _ _ _ _ Hbk) as Hl.
  pose proof (bk_lock_ne _ _ _ _ _ Hbk l) as Hne. cbn [cf_lock_heads cf_used_lock_ids advance_thread] in *.
  rewrite <-?(ev_lid_proper _ _ core_of_new), <-?(ev_kind_proper _ _ core_of_new) in *.
  destruct (decide (l = ev_lid e ∧ ev_lid e ≠ 0%N)) as [[-> Hnz]|Hother].
  - rewrite decide_False, lookup_insert_eq, lock_lookup, Hl by done. unfold new_lock.
    destruct (decide (ev_kind e = lock_destroy)) as [Hk|Hk]; simpl.
    + destruct (sset_has (ev_lid e) (cf_used_lock_ids c')); [done|]. naive_solver.
    + rewrite Hep. simpl. by rewrite (lock_state_of_core _ _ core_of_new).
  - transitivity (mc_locks (machine_of h c) !! l).
    + rewrite !lock_lookup, Hne by (destruct (decide (ev_lid e = 0%N)); [by right | left; naive_solver]).
      assert (sset_has l (cf_used_lock_ids c') = sset_has l (cf_used_lock_ids c)) as ->.
      { apply Bool.eq_iff_eq_true. rewrite Hu. naive_solver. }
      destruct (smap_find l (cf_lock_heads c)) as [q|] eqn:Hq; [|done]. simpl.
      destruct (co_lock _ _ Hco l q Hq) as (_ & HCq & eq & Heq & _).
      destruct (dd_ext _ _ _ _ _ Hdd q eq Heq) as (eq' & Heq' & Hs). rewrite Heq, Heq'. simpl.
      by rewrite (lock_state_of_core _ _ Hs).
    + destruct (decide (ev_lid e = 0%N)); [done|]. rewrite lookup_insert_ne; naive_solver.
Qed.

Lemma conds_after k :
  mc_conds (machine_of h' c') !! k = mc_conds (after_event h e (machine_of h c)) !! k.
Proof.
  assert (mc_conds (after_event h e (machine_of h c)) =
    if decide (ev_cid e = 0%N ∨ ev_kind e = wait2) then mc_conds (machine_of h c)
    else <[ev_cid e := new_cond e]> (mc_conds (machine_of h c))) as ->.
  { unfold after_event. by repeat case_decide. }
  pose proof (bk_used_cond _ _ _ _ _ Hbk k) as Hu. cbn [cf_used_cond_ids advance_thread] in *.
  rewrite <-?(ev_cid_proper _ _ core_of_new) in *.
  destruct (decide (k = ev_cid e ∧ ev_cid e ≠ 0%N)) as [[-> Hnz]|Hother].
  - pose proof (cond_booked u c e Hcm u' unknown p Hdd ep c' Hep Hbk Hnz) as Hb.
    rewrite cond_lookup. unfold new_cond.
    assert (sset_has (ev_cid e) (cf_used_cond_ids c') = true) as -> by (apply Hu; by right).
    clear Hu.
    destruct (cond_kind u c e Hco Hcm u' unknown p Hdd ep c' Hep Hbk Hnz) as [Hk|[Hk|Hk]].
    + rewrite Hk in Hb. rewrite (proj1 Hb), decide_False, lookup_insert_eq, decide_True; [done..|].
      intros [?|?]; congruence.
    + rewrite Hk in Hb. rewrite (proj1 Hb), decide_True, cond_lookup by (by right).
      rewrite (cond_used u c e Hco Hcm u' unknown p Hdd Hnz); [done|].
      unfold condition_variable_predecessors, ev_kind in *. by destruct (ev_data e).
    + destruct (cond_booked_list u c e Hco Hcm u' unknown p Hdd ep c' Hep Hbk Hnz Hk) as (_ & [l ->] & _).
      unfold on_list in Hk. rewrite decide_False, lookup_insert_eq, decide_False; [done | |].
      * intros Hk'. rewrite Hk' in Hk. set_solver.
      * intros [?|Hk']; [done|]. rewrite Hk' in Hk. set_solver.
  - transitivity (mc_conds (machine_of h c) !! k).
    + destruct (cond_find_ne u c e u' unknown p Hdd ep c' Hep Hbk k) as (E & _ & _).
      { destruct (decide (ev_cid e = 0%N)); [by right | left; naive_solver]. }
      rewrite !cond_lookup, E.
      assert (sset_has k (cf_used_cond_ids c') = sset_has k (cf_used_cond_ids c)) as ->; [|done].
      apply Bool.eq_iff_eq_true. rewrite Hu. naive_solver.
    + destruct (decide (ev_cid e = 0%N ∨ ev_kind e = wait2)); [done|].
      rewrite lookup_insert_ne; naive_solver.
Qed.

Lemma booked_machine : machine_of h' c' = after_event h e (machine_of h c).
Proof.
  pose proof threads_after as H1. pose proof locks_after as H2. pose proof conds_after as H3.
  destruct (machine_of h' c'), (after_event h e (machine_of h c)). simpl in *.
  f_equal; by apply map_eq.
Qed.
End effect.

(** The abstract state after committing an extension. *)
Lemma commit_machine {PL : Payload} {AL : Allocator} u c x u' c' p :
  conf_ok u c → committable u c (ex_event x) →
  (ev_kind (ex_event x) = condition_variable_destroy →
    ∀ w, w ∈ cond_list c (ev_cid (ex_event x)) → at_event (uf_heap u) w (λ y, ev_kind y ≠ wait1)) →
  commit x u c = Ok (u', c', p) →
  machine_of (uf_heap u') c' = after_event (uf_heap u) (ex_event x) (machine_of (uf_heap u) c).
Proof.
  intros Hco Hcm Hidle Hc. unfold commit in Hc. apply bind_ok in Hc as ([] & _ & Hc).
  apply bind_ok in Hc as ([[u1 unk] q] & Hd & Hc).
  destruct (deduplicate_spec (ex_event x) u) as (u2 & unk2 & q2 & Hd2 & Hdd);
    [apply Hco | eapply extends_new; [apply Hco | apply Hco | apply Hcm] |].
  rewrite Hd in Hd2. injection Hd2 as <- <- <-.
  apply bind_ok in Hc as (ep & Hep & Hc). apply deref_ok in Hep.
  apply bind_ok in Hc as (c2 & Hup & Hc). injection Hc as <- <- <-.
  destruct (update_heads_spec (uf_heap u1) ep q (advance_thread (ev_tid ep) q c)) as (c3 & Hc3 & Hbk).
  { by eapply bookable_of_cm. }
  change (uf_heap (upd_stats _ u1)) with (uf_heap u1) in *. rewrite Hup in Hc3. injection Hc3 as <-.
  by eapply (booked_machine u c (ex_event x)).
Qed.
