(* ===== verification/MachineSteps.v ===== *)
(** * Every operation takes a step of the abstract machine

    When an operation of a configuration hands out an extension, the abstract
    machine can take the step, and its next state is the one
    [commit_machine] computes from the extension's event. *)

From stdpp Require Import base tactics list gmap numbers relations.
From S2P Require Import Prelude StdMap ThreadId Event Comb CombEnum CombProofs Cone Alloc Causality.
From S2P Require Import AllocProofs HeapExt Order Walks Demo Independence Unfolding Configuration.
From S2P Require Import ColorProofs UnfoldingProofs DedupProofs Scenario Dependence Heads Booking.
From S2P Require Import ConfInv OpBase OpProofs OpCond Startup System Machine.

Section yields.
Context {PL : Payload}.

(** Every extension that is handed out has an event with [P]. *)
Definition yields (P : event → Prop) (r : res (configuration * extension)) : Prop :=
  ∀ c' x, r = Ok (c', x) → P (ex_event x).

Lemma yields_ok P e c : P e → yields P (Ok (ex e c)).
Proof. by intros He c' x [= <- <-]. Qed.

Lemma yields_bind {A} P (m : res A) f : (∀ a, m = Ok a → yields P (f a)) → yields P (m ≫= f).
Proof. intros Hf c' x (a & Ha & Hx)%bind_ok. by eapply Hf. Qed.

Lemma yields_err P f : yields P (Err f).
Proof. by intros c' x. Qed.
End yields.

Ltac yield_steps :=
  repeat first
    [ apply yields_err
    | match goal with
      | |- yields _ (mbind _ _) => apply yields_bind; intros ? ?
      | |- yields _ (match ?x with _ => _ end) => destruct x eqn:?
      end ].

(** The effect of an event whose data is known. *)
Ltac effect Ht Hd :=
  unfold after_event, new_status, new_lock, new_cond, notified_tids, notified, ev_kind, ev_cid, ev_lid,
    recent_of, lock_state_of; rewrite Ht, Hd; simpl; unfold ev_kind; rewrite ?Hd; simpl.

Section steps.
Context {PL : Payload} {AL : Allocator}.
Implicit Types (e : event) (o : operation).

Lemma wake_nil k m : wake k [] m = m.
Proof.
  destruct m as [T L K]. unfold wake. simpl. f_equal. apply map_eq. intros t.
  rewrite map_lookup_imap. by destruct (T !! t).
Qed.

Context (u : unfolding) (c : configuration).
Abbreviation h := (uf_heap u).
Abbreviation T := (cf_thread_heads c).
Abbreviation m := (machine_of h c).
Hypothesis Hco : conf_ok u c.

(** ** The abstract state through the heads *)

Lemma running_status t te et :
  smap_find t T = Some te → h !! te = Some et → ev_kind et ≠ thread_exit → ev_kind et ≠ wait1 →
  is_running m t = Some (recent_of et).
Proof.
  intros Hte Het H1 H2. unfold is_running. rewrite thread_lookup, Hte. simpl. rewrite Het. simpl.
  unfold status_of. by destruct (ev_kind et).
Qed.

Lemma running_machine t te :
  running_head h c t = Ok te →
  smap_find t T = Some te ∧ ∃ et, h !! te = Some et ∧ ev_tid et = t ∧ ev_kind et ≠ thread_exit ∧
    ev_kind et ≠ wait1 ∧ is_running m t = Some (recent_of et).
Proof.
  intros (Hte & et & Het & H1 & H2)%running_head_ok. split; [done|]. exists et.
  split_and!; [done| |done|done|by eapply running_status].
  destruct (ho_head _ _ (conf_heads u c Hco) t te Hte) as (x & Hx & Ht & _). congruence.
Qed.

Lemma waiting_status t k :
  mc_threads m !! t = Some (Waiting k) ↔
  ∃ w, smap_find t T = Some w ∧ w ∈ cond_list c k ∧
    at_event h w (λ e, ev_kind e = wait1 ∧ ev_tid e = t).
Proof.
  rewrite thread_lookup. split.
  - destruct (smap_find t T) as [w|] eqn:Hw; [|done]. simpl.
    destruct (ho_head _ _ (conf_heads u c Hco) t w Hw) as (e & He & Ht & _). rewrite He. simpl.
    unfold status_of. destruct (ev_kind e) eqn:Hk; try done. case_decide; [|done].
    intros [= <-]. exists w. split_and!; [done..|]. by exists e.
  - intros (w & Hw & Hin & e & He & Hk & Ht). rewrite Hw. simpl. rewrite He. simpl.
    unfold status_of. rewrite Hk. destruct (co_cond _ _ Hco k w Hin) as (_ & x & Hx & Hc & _).
    assert (x = e) as -> by congruence. by rewrite Hc, decide_True.
Qed.

Lemma elem_waiters mm k t : t ∈ waiters mm k ↔ mc_threads mm !! t = Some (Waiting k).
Proof.
  unfold waiters. rewrite elem_of_dom. unfold is_Some. setoid_rewrite map_lookup_filter_Some.
  naive_solver.
Qed.

Lemma no_waiters k :
  (∀ w, w ∈ cond_list c k → at_event h w (λ e, ev_kind e ≠ wait1)) → waiters m k = ∅.
Proof.
  intros Hno. apply set_eq. intros t. rewrite elem_waiters, waiting_status, elem_of_empty.
  split; [|done]. intros (w & _ & Hw & e & He & Hk & _). destruct (Hno w Hw) as (x & Hx & Hn). congruence.
Qed.

Lemma no_cond_waiters k : smap_find k (cf_cond_heads c) = None → waiters m k = ∅.
Proof. intros Hk. apply no_waiters. unfold cond_list. rewrite Hk. by intros w ?%elem_of_nil. Qed.

Lemma lock_of_head l le el :
  smap_find l (cf_lock_heads c) = Some le → h !! le = Some el →
  mc_locks m !! l = Some (lock_state_of el).
Proof. intros Hl He. rewrite lock_lookup, Hl. simpl. by rewrite He. Qed.

Lemma lock_unused l :
  smap_find l (cf_lock_heads c) = None → sset_has l (cf_used_lock_ids c) = false →
  mc_locks m !! l = None.
Proof. intros Hl Hu. by rewrite lock_lookup, Hl, Hu. Qed.

Lemma cond_usable k :
  never_used k (cf_cond_heads c) (cf_used_cond_ids c) → k ≠ 0%N → usable m k.
Proof.
  intros Hn Hk. split; [done|]. rewrite cond_lookup. unfold never_used in Hn.
  destruct (smap_find k (cf_cond_heads c)); [done|]. by rewrite Hn.
Qed.

Lemma cond_nonzero k l : smap_find k (cf_cond_heads c) = Some l → k ≠ 0%N.
Proof.
  intros Hk. pose proof (co_live _ _ Hco k l Hk) as Hne. destruct l as [|q l]; [done|].
  destruct (co_cond _ _ Hco k q) as (_ & e & He & Hc & Hki).
  { unfold cond_list. rewrite Hk. by left. }
  rewrite <-Hc. apply cid_nonzero; [apply (lc_ids _ _ _ (uo_lc _ (conf_uf u c Hco) _ _ He))|].
  rewrite !elem_of_cons in Hki. by destruct Hki as [->|[->|[->|[->|?%elem_of_nil]]]].
Qed.

(** ** Threads *)

Definition takes o e : Prop := machine_step o m = Some (after_event h e m).

Ltac take_head te et Hte Het Htid Hr :=
  match goal with H : running_head _ _ _ = Ok ?a |- _ =>
    rename a into te; apply running_machine in H as (Hte & et & Het & Htid & _ & _ & Hr) end;
  res_inv_ev; asserts_prop; apply yields_ok; unfold takes; cbn [machine_step]; rewrite Hr; cbn [mbind option_bind].

Lemma create_thread_takes t nt :
  yields (takes (CreateThread t nt)) (create_thread h c t nt).
Proof.
  unfold create_thread. yield_steps. take_head te et Hte Het Ht0 Hr.
  match goal with H : alloc_thread_create _ _ _ _ = Ok ?a |- _ =>
    destruct (alloc_thread_create_data _ _ _ _ _ H) as [Ht Hd] end.
  rewrite option_guard_True; [effect Ht Hd; by rewrite wake_nil|].
  split; [by intros ->|]. rewrite thread_lookup.
    match goal with H : smap_has _ _ = false |- _ => unfold smap_has in H end. by destruct (smap_find nt T).
Qed.

Lemma head_lookup t te et :
  smap_find t T = Some te → h !! te = Some et → mc_threads m !! t = Some (status_of c te et).
Proof. intros Hte Het. rewrite thread_lookup, Hte. simpl. by rewrite Het. Qed.

Lemma init_thread_takes t from :
  admissible u c (InitThread t from) →
  yields (takes (InitThread t from)) (init_thread h c t from).
Proof.
  intros [Hne Hcr]. unfold init_thread. yield_steps. res_inv_ev. asserts_prop. apply yields_ok.
  match goal with H : existing_head _ _ = Ok ?a |- _ => rename a into tc; apply existing_head_ok in H as Hte end.
  match goal with H : h !! tc = Some ?a |- _ => rename a into et; rename H into Het end.
  match goal with H : alloc_thread_init _ _ _ = Ok ?a |- _ =>
    destruct (alloc_thread_init_data _ _ _ _ H) as [Ht Hd] end.
  destruct (Hcr tc Hte) as (et' & Het' & Hc). assert (et' = et) as -> by congruence.
  unfold created_tid in Hc. destruct (ev_data et) as [| |tp nt| | | | | | | | | | | | |] eqn:Hdt; try done.
  injection Hc as ->. unfold takes. cbn [machine_step]. rewrite (running_status from tc et); [|congruence..].
  cbn [mbind option_bind]. rewrite option_guard_True; [effect Ht Hd; by rewrite wake_nil|].
  split; [unfold recent_of; by rewrite Hdt|]. rewrite thread_lookup.
  match goal with H : smap_has _ _ = false |- _ => unfold smap_has in H end. by destruct (smap_find t T).
Qed.

Lemma join_thread_takes t j : yields (takes (JoinThread t j)) (join_thread h c t j).
Proof.
  unfold join_thread. yield_steps. take_head te et Hte Het Ht0 Hr.
  match goal with H : existing_head _ _ = Ok ?a |- _ => rename a into je; apply existing_head_ok in H as Hje end.
  match goal with H : alloc_thread_join _ _ _ _ = Ok ?a |- _ =>
    destruct (alloc_thread_join_data _ _ _ _ _ H) as [Ht Hd] end.
  rewrite option_guard_True; [effect Ht Hd; by rewrite wake_nil|].
  erewrite head_lookup by done. unfold status_of.
  by match goal with H : ev_kind _ = thread_exit |- _ => rewrite H end.
Qed.

Lemma exit_thread_takes t a : yields (takes (ExitThread t a)) (exit_thread h c t a).
Proof.
  unfold exit_thread. yield_steps. take_head te et Hte Het Ht0 Hr.
  match goal with H : alloc_thread_exit _ _ _ _ = Ok ?a |- _ =>
    destruct (alloc_thread_exit_data _ _ _ _ _ H) as [Ht Hd]; rename H into Ha end.
  rewrite option_guard_True; [effect Ht Hd; by rewrite wake_nil|].
  intros ->. unfold alloc_thread_exit in Ha. res_inv_ev. asserts_prop.
  match goal with H : _ ∨ _ |- _ => destruct H as [?|H] end; [done|]. asserts_prop.
  match goal with H : h !! te = Some ?x, H' : ev_kind ?x = lock_release |- _ =>
    assert (x = et) as -> by congruence; unfold recent_of; unfold ev_kind in H' end.
  by destruct (ev_data et).
Qed.

Lemma local_takes t path :
  admissible u c (LocalStep t path) → yields (takes (LocalStep t path)) (local_op h c t path).
Proof.
  intros Hadm. unfold local_op. yield_steps. res_inv_ev. asserts_prop. apply yields_ok.
  match goal with H : existing_head _ _ = Ok ?a |- _ => rename a into te; apply existing_head_ok in H as Hte end.
  match goal with H : h !! te = Some ?a |- _ => rename a into et; rename H into Het end.
  match goal with H : alloc_local _ _ _ _ = Ok ?a |- _ =>
    destruct (alloc_local_data _ _ _ _ _ H) as [Ht Hd] end.
  destruct (Hadm te Hte) as (et' & Het' & Hk). assert (et' = et) as -> by congruence.
  unfold takes. cbn [machine_step]. rewrite (running_status t te et) by done. cbn [mbind option_bind]. effect Ht Hd. by rewrite wake_nil.
Qed.

(** ** Locks *)

Lemma create_lock_takes t l : yields (takes (CreateLock t l)) (create_lock h c t l).
Proof.
  unfold create_lock. yield_steps. take_head te et Hte Het Ht0 Hr.
  match goal with H : alloc_lock_create _ _ _ _ = Ok ?a |- _ =>
    destruct (alloc_lock_create_data _ _ _ _ _ H) as [Ht Hd] end.
  match goal with H : (0 <? l)%N = true |- _ => apply N.ltb_lt in H end.
  rewrite option_guard_True.
  - effect Ht Hd. rewrite wake_nil. by rewrite decide_False by lia.
  - split; [lia|]. apply lock_unused; [|done].
    match goal with H : smap_has _ _ = false |- _ => unfold smap_has in H end. by destruct (smap_find l _).
Qed.

Lemma destroy_lock_takes t l :
  admissible u c (DestroyLock t l) → yields (takes (DestroyLock t l)) (destroy_lock h c t l).
Proof.
  intros Hadm. unfold destroy_lock. yield_steps.
  all: take_head te et Hte Het Ht0 Hr.
  all: match goal with H : alloc_lock_destroy _ _ _ _ _ = Ok ?a |- _ =>
    destruct (alloc_lock_destroy_data _ _ _ _ _ _ H) as [Ht Hd]; rename H into Ha end.
  all: match goal with H : smap_find _ (cf_lock_heads _) = _ |- _ => rename H into Hl end.
  - destruct (co_lock _ _ Hco _ _ Hl) as (Hnz & _ & _).
    rewrite option_guard_True; [effect Ht Hd; rewrite wake_nil; by rewrite decide_False|].
    split; [done|]. unfold alloc_lock_destroy in Ha. res_inv_ev. asserts_prop.
    rewrite (lock_of_head l _ _ Hl ltac:(done)). unfold lock_state_of.
    match goal with H : _ ∨ _ |- _ => destruct H end; asserts_prop;
      match goal with H : ev_kind _ = lock_create |- _ => rewrite H | H : ev_kind _ = lock_release |- _ => rewrite H end;
      set_solver.
  - match goal with H : (0 <? l)%N = true |- _ => apply N.ltb_lt in H end.
    rewrite option_guard_True; [effect Ht Hd; rewrite wake_nil; by rewrite decide_False by lia|].
    split; [lia|]. rewrite lock_unused by auto. by left.
Qed.

Lemma acquire_lock_takes t l : yields (takes (AcquireLock t l)) (acquire_lock h c t l).
Proof.
  unfold acquire_lock. yield_steps.
  all: take_head te et Hte Het Ht0 Hr.
  all: match goal with H : alloc_lock_acquire _ _ _ _ _ = Ok ?a |- _ =>
    destruct (alloc_lock_acquire_data _ _ _ _ _ _ H) as [Ht Hd]; rename H into Ha end.
  all: match goal with H : smap_find _ (cf_lock_heads _) = _ |- _ => rename H into Hl end.
  - destruct (co_lock _ _ Hco _ _ Hl) as (Hnz & _ & _).
    rewrite option_guard_True; [effect Ht Hd; rewrite wake_nil; by rewrite decide_False|].
    split; [done|]. unfold alloc_lock_acquire in Ha. res_inv_ev. asserts_prop.
    rewrite (lock_of_head l _ _ Hl ltac:(done)). unfold lock_state_of.
    repeat match goal with H : _ ∨ _ |- _ => destruct H; asserts_prop end;
      by match goal with H : ev_kind ?x = _ |- context [ev_kind ?x] => rewrite H end.
  - match goal with H : (0 <? l)%N = true |- _ => apply N.ltb_lt in H end.
    rewrite option_guard_True; [effect Ht Hd; rewrite wake_nil; by rewrite decide_False by lia|].
    split; [lia|]. rewrite lock_unused; [done..|]. apply (can_acquire_unused u c); [congruence | done].
Qed.

Lemma release_lock_takes t l a : yields (takes (ReleaseLock t l a)) (release_lock h c t l a).
Proof.
  unfold release_lock. yield_steps. take_head te et Hte Het Ht0 Hr.
  match goal with H : alloc_lock_release _ _ _ _ _ _ = Ok ?a |- _ =>
    destruct (alloc_lock_release_data _ _ _ _ _ _ _ H) as [Ht Hd]; rename H into Ha end.
  match goal with H : lock_head _ _ = Ok ?a |- _ => rename a into le; apply lock_head_ok in H; rename H into Hl end.
  destruct (co_lock _ _ Hco _ _ Hl) as (Hnz & _ & _).
  rewrite option_guard_True; [effect Ht Hd; rewrite wake_nil; by rewrite decide_False|].
  unfold alloc_lock_release in Ha. res_inv_ev. asserts_prop.
  match goal with H : h !! le = Some ?x |- _ => rename x into el; rename H into Hel end.
  rewrite (lock_of_head l le el Hl Hel). split.
  - unfold lock_state_of. repeat match goal with H : _ ∨ _ |- _ => destruct H; asserts_prop end;
      match goal with H : ev_kind el = _ |- _ => rewrite H end; congruence.
  - intros ->. repeat match goal with H : negb _ = true ∨ _ |- _ => destruct H; [done|] | H : false = true ∨ _ |- _ => destruct H; [done|] end.
    asserts_prop. subst. assert (el = et) as -> by congruence.
    unfold recent_of, ev_kind, ev_lid in *. destruct (ev_data et); simpl in *; congruence.
Qed.

(** ** Condition variables *)

Lemma create_cond_takes t k : yields (takes (CreateCond t k)) (create_cond h c t k).
Proof.
  unfold create_cond. yield_steps. take_head te et Hte Het Ht0 Hr.
  match goal with H : alloc_condition_variable_create _ _ _ _ = Ok ?a |- _ =>
    destruct (alloc_condition_variable_create_data _ _ _ _ _ H) as [Ht Hd] end.
  match goal with H : (0 <? k)%N = true |- _ => apply N.ltb_lt in H end.
  rewrite option_guard_True.
  - effect Ht Hd. rewrite wake_nil. rewrite decide_False; [done|]. intros [?|?]; [lia | done].
  - split; [lia|]. rewrite cond_lookup.
    match goal with H : smap_has _ _ = false |- _ => unfold smap_has in H end.
    destruct (smap_find k _); [done|]. by match goal with H : sset_has _ _ = false |- _ => rewrite H end.
Qed.

Lemma destroy_cond_takes t k :
  admissible u c (DestroyCond t k) → yields (takes (DestroyCond t k)) (destroy_cond h c t k).
Proof.
  intros Hadm. unfold destroy_cond. yield_steps.
  all: take_head te et Hte Het Ht0 Hr.
  all: match goal with H : alloc_condition_variable_destroy _ _ _ _ _ = Ok ?a |- _ =>
    destruct (alloc_condition_variable_destroy_data _ _ _ _ _ _ H) as [Ht Hd]; rename H into Ha end.
  all: match goal with H : (0 <? _)%N = true |- _ => apply N.ltb_lt in H end.
  all: match goal with H : smap_find _ (cf_cond_heads _) = _ |- _ => rename H into Hk end.
  all: rewrite option_guard_True;
    [effect Ht Hd; rewrite wake_nil; rewrite decide_False; [done|]; intros [?|?]; [lia | done]|].
  all: split; [apply cond_usable; [done | lia]|].
  - apply no_waiters. unfold cond_list. rewrite Hk. simpl. intros w Hw.
    unfold alloc_condition_variable_destroy in Ha. res_inv_ev.
    match goal with H : for_each _ _ _ = Ok _ |- _ => pose proof (for_each_unit_inv _ _ _ _ H w) as Hb end.
    rewrite sort_ptrs_elem, elem_of_app in Hb. specialize (Hb (or_introl Hw)). cbv beta in Hb.
    apply bind_ok in Hb as (ew & Hew%deref_ok & Hb). exists ew. split; [done|].
    intros Hkw. by rewrite Hkw in Hb.
  - by apply no_cond_waiters.
Qed.

Lemma wait1_effect t k l te le cps e :
  alloc_wait1 h t k l te le cps = Ok e → lock_head c l = Ok le → k ≠ 0%N ∧
  mc_locks m !! l = Some (Held t) ∧
  after_event h e m = set_cond k Live (set_lock l FreedByWait (set_thread t (Waiting k) m)).
Proof.
  intros Ha Hl%lock_head_ok. destruct (alloc_wait1_data _ _ _ _ _ _ _ _ Ha) as [Ht Hd].
  assert (k ≠ 0%N ∧ l ≠ 0%N ∧ mc_locks m !! l = Some (Held t)) as (Hk & Hl0 & Hh).
  { clear Ht Hd. unfold alloc_wait1 in Ha. res_inv_ev. asserts_prop. split_and!; [done..|].
    match goal with H : h !! le = Some ?x |- _ => rewrite (lock_of_head l le x Hl H) end.
    unfold lock_state_of. repeat match goal with H : _ ∨ _ |- _ => destruct H; asserts_prop end;
    match goal with H : ev_kind ?x = _ |- context [ev_kind ?x] => rewrite H end; congruence. }
  split_and!; [done..|]. effect Ht Hd. rewrite wake_nil.
  by rewrite !decide_False by (first [done | by intros [?|?]]).
Qed.

Lemma wait1_takes t k l :
  admissible u c (WaitBegin t k l) → yields (takes (WaitBegin t k l)) (wait1_op h c t k l).
Proof.
  intros Hadm. unfold wait1_op. yield_steps; take_head te et Hte Het Ht0 Hr;
  (match goal with H : alloc_wait1 _ _ _ _ _ _ _ = Ok _ |- _ =>
    eapply wait1_effect in H as (Hk & Hlk & ->); [|done] end);
  (rewrite option_guard_True; [done|]); (split; [by apply cond_usable | done]).
Qed.

Lemma wait2_takes t k l : yields (takes (WaitEnd t k l)) (wait2_op h c t k l).
Proof.
  unfold wait2_op. yield_steps. res_inv_ev. asserts_prop. apply yields_ok.
  match goal with H : existing_head _ _ = Ok ?a |- _ =>
    rename a into te; apply existing_head_ok in H; rename H into Hte end.
  match goal with H : h !! te = Some ?a |- _ => rename a into et; rename H into Het end.
  match goal with H : lock_head _ _ = Ok ?a |- _ =>
    rename a into le; apply lock_head_ok in H; rename H into Hl end.
  match goal with H : wait2_predecessor_cond _ _ _ = Ok (Some ?a) |- _ =>
    rename a into np; apply (wait2_predecessor_ok u c Hco) in H as [Hnp Hnot] end.
  match goal with H : alloc_wait2 _ _ _ _ _ _ _ = Ok ?a |- _ =>
    destruct (alloc_wait2_data _ _ _ _ _ _ _ _ H) as [Ht Hd]; rename H into Ha end.
  match goal with H : smap_find k _ = Some ?p |- _ => rename p into preds; rename H into Hk end.
  unfold takes. cbn [machine_step].
  assert (ev_cid et = k) as Hck.
  { destruct Hnot as (en & Hen & Hin).
    destruct (notified_wait1 h en te (wf_in u c Hco np en Hen) Hin) as [(y & Hy & _ & Hcy) _].
    destruct (co_cond _ _ Hco k np) as (_ & y' & Hy' & Hcy' & _); [unfold cond_list; by rewrite Hk|].
    congruence. }
  assert (te ∉ cond_list c k) as Hnl.
  { intros Hin. eapply (co_waiting _ _ Hco k te np); [done| |done].
    apply (co_cond _ _ Hco k). unfold cond_list. by rewrite Hk. }
  assert (k ≠ 0%N ∧ l ≠ 0%N ∧ mc_locks m !! l ∈ [Some Free; Some FreedByWait]) as (Hk0 & Hl0 & Hfree).
  { clear Ht Hd. unfold alloc_wait2 in Ha. res_inv_ev. asserts_prop. split_and!; [done..|].
    match goal with H : h !! le = Some ?x |- _ => rewrite (lock_of_head l le x Hl H) end.
    unfold lock_state_of. repeat match goal with H : _ ∨ _ |- _ => destruct H; asserts_prop end;
    match goal with H : ev_kind ?x = _ |- context [ev_kind ?x] => rewrite H end; set_solver. }
  rewrite option_guard_True.
  - effect Ht Hd. rewrite wake_nil. repeat case_decide; naive_solver.
  - rewrite (head_lookup t te et Hte Het), cond_lookup, Hk. split_and!; [|done|done].
    unfold status_of. rewrite Hck, decide_False by done.
    by match goal with H : ev_kind et = wait1 |- _ => rewrite H end.
Qed.

(** The effect of a notification, from the threads it wakes. *)
Lemma notification_effect e t k nts :
  is_notification (ev_kind e) = true → ev_cid e = k → k ≠ 0%N → ev_tid e = t →
  (∀ t' s, mc_threads m !! t' = Some s → t' ∈ notified_tids h e ↔ t' ∈ nts) →
  after_event h e m = set_cond k Live (set_thread t (Running Other) (wake k nts m)).
Proof.
  intros Hn Hc Hk Ht Hw. assert (wake k (notified_tids h e) m = wake k nts m) as Hwake.
  { unfold wake. f_equal. apply map_eq. intros t'. rewrite !map_lookup_imap.
    destruct (mc_threads m !! t') as [s|] eqn:Hs; [|done]. simpl. specialize (Hw t' s Hs).
    repeat case_decide; naive_solver. }
  unfold after_event. rewrite Hc, Ht, Hwake. unfold new_status, new_cond, recent_of.
  assert (ev_lid e = 0%N) as -> by (apply lid_zero; by destruct (ev_kind e)).
  unfold ev_kind in *. destruct (ev_data e); try done; simpl;
    rewrite decide_False by (by intros [?|?]); done.
Qed.

Lemma lost_no_wait1 te preds prev w :
  lost_notification_predecessors_cond h te preds = Ok prev → w ∈ preds →
  at_event h w (λ e, ev_kind e ≠ wait1).
Proof.
  unfold lost_notification_predecessors_cond. intros (et & _ & Hf)%bind_ok Hw.
  destruct (filter_res_elem _ _ _ _ Hf Hw) as (b & Hb & _).
  apply bind_ok in Hb as (ew & Hew%deref_ok & Hb). exists ew. split; [done|].
  intros Hk. by rewrite Hk in Hb.
Qed.

(** A notification that wakes nobody. *)
Lemma lost_effect e t k :
  is_notification (ev_kind e) = true → notified h e = [] → ev_cid e = k → k ≠ 0%N → ev_tid e = t →
  after_event h e m = set_cond k Live (set_thread t (Running Other) m).
Proof.
  intros Hn Hno Hc Hk Ht. rewrite <-(wake_nil k m) at 2. apply notification_effect; try done.
  unfold notified_tids. by rewrite Hno.
Qed.

Lemma lost_signal t k te cps e :
  alloc_signal_lost h t k te cps = Ok e →
  k ≠ 0%N ∧ after_event h e m = set_cond k Live (set_thread t (Running Other) m).
Proof.
  intros Ha. destruct (alloc_signal_lost_data _ _ _ _ _ _ Ha) as [Ht Hd].
  assert (k ≠ 0%N ∧ signal_is_lost h e = Ok true) as [Hk Hlost].
  { clear Ht Hd. unfold alloc_signal_lost in Ha. res_inv_ev. asserts_prop. subst. done. }
  split; [done|]. apply lost_effect; try done.
  - unfold ev_kind. by rewrite Hd.
  - unfold signal_is_lost, cps_lost in Hlost. unfold notified. rewrite Hd in *.
    destruct (sort_ptrs cps) as [|w []]; try done. res_inv_ev.
    match goal with H : h !! w = Some _ |- _ => rewrite H end. asserts_prop.
    case_match; [|done]. asserts_prop. done.
  - unfold ev_cid. by rewrite Hd.
Qed.

Lemma signal_takes t k nt :
  admissible u c (SignalThread t k nt) →
  yields (takes (SignalThread t k nt)) (signal_thread h c t k nt).
Proof.
  intros [Hadm _]. unfold signal_thread. yield_steps; take_head te et Hte Het Ht0 Hr;
  match goal with H : smap_find k (cf_cond_heads _) = _ |- _ => rename H into Hk end;
  try (match goal with H : alloc_signal_lost _ _ _ _ _ = Ok _ |- _ =>
    apply lost_signal in H as [Hk0 ->] end);
  try (assert (nt = tid_root) as -> by (by destruct nt)).
  - rewrite option_guard_True; [by rewrite decide_True|]. split; [by apply cond_usable|].
    left. split; [done|]. apply no_waiters. unfold cond_list. rewrite Hk. simpl.
    intros w Hw. by eapply lost_no_wait1.
  - match goal with H : waiting_head _ _ _ = Ok ?a |- _ =>
      rename a into ne; apply waiting_head_ok in H as [Hne (en & Hen & Hkn)] end.
    match goal with H : notified_wait1_predecessor _ _ _ = Ok ?a |- _ =>
      apply notified_wait1_ok in H; rename H into Hin end.
    match goal with H : ?a = ne |- _ => subst a end.
    assert (nt ≠ tid_root) as Hnr by (by intros ->).
    match goal with H : alloc_signal _ _ _ _ _ = Ok ?a |- _ => rename a into e;
      destruct (alloc_signal_data _ _ _ _ _ _ H) as [Ht Hd]; rename H into Ha end.
    assert (ev_tid en = nt) as Hten.
    { destruct (ho_head _ _ (conf_heads u c Hco) nt ne Hne) as (x & Hx & Hxt & _). congruence. }
    assert (k ≠ 0%N) as Hk0 by (by eapply cond_nonzero).
    rewrite option_guard_True.
    + rewrite decide_False by done. f_equal. symmetry. apply notification_effect; try done.
      * unfold ev_kind. by rewrite Hd.
      * unfold ev_cid. by rewrite Hd.
      * intros t' s _. unfold notified_tids, notified.
        rewrite Hd, Hen, (proj2 (kind_eqb_eq _ _) Hkn). simpl. by rewrite Hen, <-Hten.
    + split; [by apply cond_usable|]. right. split; [done|]. apply elem_waiters, waiting_status.
      exists ne. split_and!; [done | unfold cond_list; by rewrite Hk | by exists en].
  - rewrite option_guard_True; [by rewrite decide_True|]. split; [by apply cond_usable|].
    left. split; [done|]. by apply no_cond_waiters.
Qed.

(** A broadcast wakes the threads whose [wait1]s are among its
    predecessors. *)
Lemma broadcast_effect t k te cps e nts :
  alloc_broadcast h t k te cps = Ok e →
  (∀ q, q ∈ cps → is_Some (h !! q)) →
  (∀ t' s, mc_threads m !! t' = Some s →
    t' ∈ nts ↔ ∃ w, w ∈ cps ∧ at_event h w (λ x, ev_kind x = wait1 ∧ ev_tid x = t')) →
  k ≠ 0%N ∧
  after_event h e m = set_cond k Live (set_thread t (Running Other) (wake k nts m)).
Proof.
  intros Ha Hst Hnt. destruct (alloc_broadcast_data _ _ _ _ _ _ Ha) as (Ht & l & n & Hd & Hm).
  assert (allocated h e) as Hal by (by eapply alloc_is_broadcast).
  pose proof (allocated_wf h e (conf_wf u c Hco) Hal) as Hw.
  assert (ev_kind e = broadcast) as Hki by (unfold ev_kind; by rewrite Hd).
  assert (ev_cid e = k) as Hck by (unfold ev_cid; by rewrite Hd).
  assert (k ≠ 0%N) as Hk0.
  { rewrite <-Hck. apply cid_nonzero; [apply (allocated_ids h e Hal); by rewrite Hki | by rewrite Hki]. }
  split; [done|]. apply notification_effect; try done; [by rewrite Hki|].
  intros t' s Hs. rewrite (Hnt t' s Hs). unfold notified_tids. rewrite list_elem_of_omap. split.
  - intros (w & Hwn & Hwt). destruct (h !! w) as [ew|] eqn:Hew; simplify_eq/=.
    destruct (notified_wait1 h e w Hw Hwn) as [(x & Hx & Hkx & _) _]. exists w. split.
    + apply Hm. apply notified_pred in Hwn. unfold condition_variable_predecessors in Hwn. by rewrite Hd in Hwn.
    + exists ew. split_and!; [done | congruence | done].
  - intros (w & Hwc & ew & Hew & Hkw & Htw). exists w. split; [|by rewrite Hew, <-Htw].
    apply wait1_notified; try done.
    + by rewrite Hki.
    + unfold condition_variable_predecessors. rewrite Hd. by apply Hm.
    + by exists ew.
Qed.

Lemma broadcast_takes t k nts :
  admissible u c (BroadcastThreads t k nts) →
  yields (takes (BroadcastThreads t k nts)) (broadcast_threads h c t k nts).
Proof.
  intros [Hadm Hall]. unfold broadcast_threads. yield_steps; take_head te et Hte Het Ht0 Hr;
  match goal with H : smap_find k (cf_cond_heads _) = _ |- _ => rename H into Hk end.
  - match goal with H : lost_notification_predecessors_cond _ _ _ = Ok ?p |- _ =>
      rename p into prev; rename H into Hprev end.
    assert (∀ w, w ∈ prev → at_event h w (λ x, ev_kind x ≠ wait1)) as Hno.
    { intros w Hw. eapply lost_no_wait1; [done|]. by eapply lost_prev_sub. }
    match goal with H : alloc_broadcast _ _ _ _ _ = Ok _ |- _ =>
      apply (broadcast_effect _ _ _ _ _ []) in H as [Hk0 ->] end.
    + rewrite option_guard_True; [done|]. split; [by apply cond_usable|].
      apply no_waiters. unfold cond_list. rewrite Hk. simpl. intros w Hw. by eapply lost_no_wait1.
    + intros q (x & Hx & _)%Hno. eauto.
    + intros t' s _. split; [by intros ?%elem_of_nil|].
      intros (w & (x & Hx & Hxk)%Hno & y & Hy & ? & _). congruence.
  - match goal with H : broadcast_notified _ _ _ _ _ = Ok ?p |- _ =>
      rename p into waits; destruct (broadcast_notified_ok u c _ _ _ _ H) as [Hw1 Hw2] end.
    match goal with H : broadcast_previous _ _ _ _ _ = Ok ?p |- _ => rename p into prev; rename H into Hprev end.
    match goal with H : alloc_broadcast _ _ _ _ _ = Ok _ |- _ =>
      apply (broadcast_effect _ _ _ _ _ (t0 :: l0)) in H as [Hk0 ->] end.
    + rewrite option_guard_True; [done|]. split; [by apply cond_usable|].
      apply set_eq. intros t'. rewrite elem_waiters, waiting_status, elem_of_list_to_set. split.
      * intros (w & Hf & Hw & x & Hx & Hkx & Htx).
        destruct (Hall ltac:(done) w Hw) as (y & Hy & Hin). rewrite <-Htx.
        assert (y = x) as -> by congruence. by apply Hin.
      * intros Hin. destruct (Hw2 t' Hin) as (w & Hf & _ & Hwp & x & Hx & Hkx).
        exists w. split_and!; [done | unfold cond_list; by rewrite Hk|].
        destruct (ho_head _ _ (conf_heads u c Hco) t' w Hf) as (y & Hy & Hyt & _).
        exists x. split_and!; [done | done | congruence].
    + intros q [Hq|Hq]%elem_of_app.
      * destruct (Hw1 q Hq) as (t' & _ & Hf). by eapply (conf_stored u c Hco), conf_head.
      * eapply (conf_stored u c Hco), preds_in; [done | done|]. by eapply filter_res_sub.
    + intros t' s _. split.
      * intros Hin. destruct (Hw2 t' Hin) as (w & Hf & Hw & _ & x & Hx & Hkx). exists w.
        split; [apply elem_of_app; by left|].
        destruct (ho_head _ _ (conf_heads u c Hco) t' w Hf) as (y & Hy & Hyt & _).
        exists x. split_and!; [done | done | congruence].
      * intros (w & [Hw|Hw]%elem_of_app & x & Hx & Hkx & Htx).
        -- destruct (Hw1 w Hw) as (t2 & Hin & Hf).
           destruct (ho_head _ _ (conf_heads u c Hco) t2 w Hf) as (y & Hy & Hyt & _).
           assert (t2 = t') as -> by congruence. done.
        -- exfalso. unfold broadcast_previous in Hprev.
           apply (filter_res_kept _ _ _ w) in Hprev; [|done]. apply bind_ok in Hprev as (y & Hy%deref_ok & Hb).
           assert (y = x) as -> by congruence. by rewrite Hkx in Hb.
  - match goal with H : alloc_broadcast _ _ _ _ _ = Ok _ |- _ =>
      apply (broadcast_effect _ _ _ _ _ []) in H as [Hk0 ->] end.
    + rewrite option_guard_True; [done|]. split; [by apply cond_usable|]. by apply no_cond_waiters.
    + by intros q ?%elem_of_nil.
    + intros t' s _. split; [by intros ?%elem_of_nil|]. by intros (w & ?%elem_of_nil & _).
Qed.

(** ** All operations *)

Lemma apply_op_takes o : admissible u c o → yields (takes o) (apply_op h c o).
Proof.
  intros Ha. destruct o; cbn [apply_op];
    [apply create_thread_takes | by apply init_thread_takes | apply join_thread_takes
    | apply exit_thread_takes | apply create_lock_takes | by apply destroy_lock_takes
    | apply acquire_lock_takes | apply release_lock_takes | apply create_cond_takes
    | by apply destroy_cond_takes | by apply wait1_takes | apply wait2_takes
    | by apply signal_takes | by apply broadcast_takes | by apply local_takes].
Qed.

(** Only [destroy_cond] destroys a condition variable. *)
Lemma apply_op_destroys o :
  yields (λ e, ev_kind e = condition_variable_destroy →
    ∃ t, o = DestroyCond t (ev_cid e)) (apply_op h c o).
Proof.
  destruct o; cbn [apply_op];
    unfold create_thread, init_thread, join_thread, exit_thread, create_lock, destroy_lock,
      acquire_lock, release_lock, create_cond, destroy_cond, wait1_op, wait2_op, signal_thread,
      broadcast_threads, local_op;
    yield_steps; apply yields_ok; unfold ev_kind, ev_cid;
    match goal with
    | H : alloc_condition_variable_destroy _ _ _ _ _ = Ok _ |- _ =>
        destruct (alloc_condition_variable_destroy_data _ _ _ _ _ _ H) as [_ ->]; by eexists
    | H : alloc_broadcast _ _ _ _ _ = Ok _ |- _ =>
        destruct (alloc_broadcast_data _ _ _ _ _ _ H) as (_ & ? & ? & -> & _); done
    | H : alloc_thread_create _ _ _ _ = Ok _ |- _ =>
        destruct (alloc_thread_create_data _ _ _ _ _ H) as [_ ->]; done
    | H : alloc_thread_init _ _ _ = Ok _ |- _ =>
        destruct (alloc_thread_init_data _ _ _ _ H) as [_ ->]; done
    | H : alloc_thread_join _ _ _ _ = Ok _ |- _ =>
        destruct (alloc_thread_join_data _ _ _ _ _ H) as [_ ->]; done
    | H : alloc_thread_exit _ _ _ _ = Ok _ |- _ =>
        destruct (alloc_thread_exit_data _ _ _ _ _ H) as [_ ->]; done
    | H : alloc_lock_create _ _ _ _ = Ok _ |- _ =>
        destruct (alloc_lock_create_data _ _ _ _ _ H) as [_ ->]; done
    | H : alloc_lock_destroy _ _ _ _ _ = Ok _ |- _ =>
        destruct (alloc_lock_destroy_data _ _ _ _ _ _ H) as [_ ->]; done
    | H : alloc_lock_acquire _ _ _ _ _ = Ok _ |- _ =>
        destruct (alloc_lock_acquire_data _ _ _ _ _ _ H) as [_ ->]; done
    | H : alloc_lock_release _ _ _ _ _ _ = Ok _ |- _ =>
        destruct (alloc_lock_release_data _ _ _ _ _ _ _ H) as [_ ->]; done
    | H : alloc_condition_variable_create _ _ _ _ = Ok _ |- _ =>
        destruct (alloc_condition_variable_create_data _ _ _ _ _ H) as [_ ->]; done
    | H : alloc_wait1 _ _ _ _ _ _ _ = Ok _ |- _ =>
        destruct (alloc_wait1_data _ _ _ _ _ _ _ _ H) as [_ ->]; done
    | H : alloc_wait2 _ _ _ _ _ _ _ = Ok _ |- _ =>
        destruct (alloc_wait2_data _ _ _ _ _ _ _ _ H) as [_ ->]; done
    | H : alloc_signal_lost _ _ _ _ _ = Ok _ |- _ =>
        destruct (alloc_signal_lost_data _ _ _ _ _ _ H) as [_ ->]; done
    | H : alloc_signal _ _ _ _ _ = Ok _ |- _ =>
        destruct (alloc_signal_data _ _ _ _ _ _ H) as [_ ->]; done
    | H : alloc_local _ _ _ _ = Ok _ |- _ =>
        destruct (alloc_local_data _ _ _ _ _ H) as [_ ->]; done
    end.
Qed.

Lemma waiter_listed k w ew :
  w ∈ cond_list c k → h !! w = Some ew → ev_kind ew = wait1 → ev_tid ew ∈ waiters m k.
Proof.
  intros Hw Hew Hk. apply elem_waiters, waiting_status.
  destruct (co_cond _ _ Hco k w Hw) as [HCw _].
  destruct (ho_last _ _ (conf_heads u c Hco) w ew HCw Hew) as (p & Hp & _); [congruence|].
  assert (w = p) as <- by (eapply (waiting_is_head u c Hco k (ev_tid ew)); try done; by exists ew).
  exists w. split_and!; [done..|]. by exists ew.
Qed.

(** A performed operation is a step of the machine. *)
Lemma perform_takes o u' c' p :
  admissible u c o → perform o u c = Ok (u', c', p) →
  machine_step o m = Some (machine_of (uf_heap u') c').
Proof.
  intros Ha Hp. unfold perform in Hp. apply bind_ok in Hp as ([c1 x] & Hop & Hcom).
  pose proof (apply_op_takes o Ha c1 x Hop) as Ht. unfold takes in Ht. rewrite Ht. f_equal. symmetry.
  destruct (apply_op_proposes u c o Hco Ha c1 x Hop) as [Hcm Hx]. injection Hx as Hc1 Hx'.
  assert (machine_of h c1 = m) as Hm by (by rewrite Hc1). rewrite <-Hm.
  apply (commit_machine u c1 x u' c' p); [| | |done].
  - rewrite Hc1. by apply (conf_ok_ex u c (ex_event x)).
  - rewrite Hc1 at 1. by apply (committable_ex u c (ex_event x) (ex_event x)).
  - intros Hd w Hw. assert (cond_list c1 (ev_cid (ex_event x)) = cond_list c (ev_cid (ex_event x))) as E
      by (by rewrite Hc1). rewrite E in Hw.
    destruct (apply_op_destroys o c1 x Hop Hd) as [t ->]. cbn [machine_step] in Ht.
    destruct (is_running m t); [|done]. cbn [mbind option_bind] in Ht.
    destruct (decide (usable m (ev_cid (ex_event x)) ∧ waiters m (ev_cid (ex_event x)) = ∅))
      as [[_ Hno]|Hg]; [|by rewrite option_guard_False in Ht].
    destruct (co_cond _ _ Hco _ w Hw) as (_ & ew & Hew & _). exists ew. split; [done|]. intros Hk.
    pose proof (waiter_listed _ w ew Hw Hew Hk) as Hin. rewrite Hno in Hin. by apply elem_of_empty in Hin.
Qed.
End steps.
