(* ===== verification/MachineTotal.v ===== *)
(** * The operations return when the abstract machine can step

    The converse of [MachineSteps]: when [machine_step] is defined on the
    abstract state of a configuration, none of the asserts of the operation,
    of the event constructors and of the searches through the condition
    variable's list fails. *)

From stdpp Require Import base tactics list gmap numbers relations sorting.
From S2P Require Import Prelude StdMap ThreadId Event Comb CombEnum CombProofs Cone Alloc Causality.
From S2P Require Import AllocProofs HeapExt Order Walks Demo Independence Unfolding Configuration.
From S2P Require Import ColorProofs UnfoldingProofs DedupProofs Scenario Dependence Heads Booking.
From S2P Require Import ConfInv OpBase OpProofs OpCond Startup System Machine MachineSteps.

(** ** When the constructors return

    The base-class constructors return whenever the predecessors are stored;
    the constructors of the event classes return when their assertions hold.
    A [_total] lemma states the assertions of one class. *)

Section total.
Context {PL : Payload}.
Context (h : heap).
Hypothesis Hwf : wf_heap h.
Implicit Types (e : event).

Lemma deref_total p e : h !! p = Some e → deref h p = Ok e.
Proof. by intros ?%deref_ok. Qed.

Lemma for_each_check {A} (f : unit → A → res unit) l :
  (∀ x, x ∈ l → f tt x = Ok tt) → for_each f tt l = Ok tt.
Proof.
  induction l as [|x l IH]; intros Hf; simpl; [done|].
  rewrite (Hf x) by (by left). simpl. apply IH. intros; apply Hf. by right.
Qed.

Lemma cone_of_preds_total ip single others :
  at_event h ip (λ e, ev_kind e ≠ program_init) →
  (∀ q, single = Some q → is_Some (h !! q)) → (∀ q, q ∈ others → is_Some (h !! q)) →
  ∃ c, cone_of_preds h ip single others = Ok c.
Proof.
  intros (ep & Hip & Hk) Hsi Hot. unfold cone_of_preds. rewrite (deref_total _ _ Hip), bind_Ok_l.
  pose proof (cone_head_spec h ip ep Hwf Hip Hk) as Hhead.
  assert (∃ c1 (P : eid → Prop), match single with
    | Some s => cone_insert h s (smap_set (ev_tid ep) ip (ev_cone ep))
    | None => Ok (smap_set (ev_tid ep) ip (ev_cone ep)) end = Ok c1 ∧ cone_for h c1 P)
    as (c1 & P & -> & Hc1).
  { destruct single as [s|]; [|by eexists _, _].
    destruct (Hsi s eq_refl) as [es Hs].
    destruct (cone_insert_spec h _ _ s es Hwf Hhead Hs) as (c1 & Hc1 & Hf). by eexists _, _. }
  rewrite bind_Ok_l. destruct (cone_inserts_spec h c1 P others Hwf Hc1 Hot) as (c2 & Hc2 & _). eauto.
Qed.

Lemma cone_events_total c acc :
  (∀ p, p ∈ c → is_Some (h !! p)) →
  ∃ l, for_each (λ acc p, e ← deref h p; Ok (acc ++ [e])) acc c = Ok l.
Proof.
  revert acc. induction c as [|p c IH]; intros acc Hc; simpl; [eauto|].
  destruct (Hc p) as [e He]; [by left|]. rewrite (deref_total _ _ He). simpl.
  apply IH. intros; apply Hc. by right.
Qed.

Lemma event_of_preds_total tid d ip single others :
  at_event h ip (λ e, ev_kind e ≠ program_init) →
  (∀ q, single = Some q → is_Some (h !! q)) → (∀ q, q ∈ others → is_Some (h !! q)) →
  ∃ e, event_of_preds h tid d ip single others = Ok e ∧ ev_tid e = tid ∧ ev_data e = d.
Proof.
  intros Hip Hsi Hot. destruct (cone_of_preds_total ip single others Hip Hsi Hot) as (c & Hc).
  pose proof Hip as (ei & Hei & Hki).
  pose proof (cone_of_preds_spec h ip single others c Hwf ltac:(congruence) Hsi Hot Hc) as [Hs Hsd Hcp].
  assert (∀ p, p ∈ smap_vals c → is_Some (h !! p)) as Hst.
  { intros p Hp. unfold smap_vals in Hp. apply list_elem_of_fmap in Hp as ([t q] & -> & Hin).
    apply smap_elem_find in Hin; [|done]. destruct (Hsd t q Hin) as [_ (e & He & _)]. eauto. }
  destruct (cone_events_total (smap_vals c) [] Hst) as (es & Hes).
  unfold event_of_preds, cone_events. rewrite Hc, bind_Ok_l, Hes, bind_Ok_l.
  apply cone_events_spec in Hes as (k & -> & Hk). rewrite app_nil_l. cbv zeta.
  rewrite for_each_check; [eexists; split; [reflexivity | done]|].
  intros q Hq.
  assert (is_Some (h !! q) ∧ ((causal_le h q ip ∨ ∃ q', single = Some q' ∧ causal_le h q q') ∨
    ∃ q', q' ∈ others ∧ causal_le h q q')) as [[eq Heq] Hin].
  { apply elem_of_cons in Hq as [->|[Hq|Hq]%elem_of_app].
    - split; [eauto|]. left; left. reflexivity.
    - destruct single as [s|]; [|by apply elem_of_nil in Hq]. apply list_elem_of_singleton in Hq as ->.
      split; [by apply Hsi|]. left; right. eexists. by split.
    - split; [by apply Hot|]. right. exists q. by split. }
  rewrite (deref_total _ _ Heq). simpl. unfold cassert.
  destruct (Nat.ltb_spec (ev_depth eq) (max_depth k + 1)); [done|]. exfalso.
  destruct (decide (ev_kind eq = program_init)) as [Hkq|Hkq].
  - destruct (wf_depth_tight _ _ (Hwf _ _ Heq)) as [[_ ?]|(r & Hr & _)]; [lia|].
    destruct (wf_program_init_cone _ _ (Hwf _ _ Heq) Hkq) as [_ Hn]. rewrite Hn in Hr.
    by apply elem_of_nil in Hr.
  - destruct (Hcp q Hin eq Heq Hkq) as (p & Hp & Hle).
    assert (p ∈ smap_vals c) as Hpv.
    { unfold smap_vals. apply list_elem_of_fmap. exists (ev_tid eq, p). split; [done|].
      by apply smap_elem_find. }
    apply list_elem_of_lookup_1 in Hpv as (i & Hi).
    destruct (Forall2_lookup_l _ _ _ _ _ Hk Hi) as (e & He & Hep).
    pose proof (proj1 (max_depth_spec k) e ltac:(by eapply list_elem_of_lookup_2)) as Hmax.
    rewrite (dep_lookup _ _ _ Heq), (dep_lookup _ _ _ Hep) in Hle. lia.
Qed.

Lemma event_of_pred_total tid d ip :
  is_Some (h !! ip) → ∃ e, event_of_pred h tid d ip = Ok e ∧ ev_tid e = tid ∧ ev_data e = d.
Proof.
  intros [ep Hip]. unfold event_of_pred, cone_of_pred. rewrite (deref_total _ _ Hip). simpl. by eexists.
Qed.

(** The head of a thread that has not exited. *)
Definition alive (tid : thread_id) (tp : eid) : Prop :=
  at_event h tp (λ e, ev_tid e = tid ∧ ev_kind e ≠ program_init ∧ ev_kind e ≠ thread_exit).

Lemma alive_stored tid tp : alive tid tp → is_Some (h !! tp).
Proof. intros (e & He & _). eauto. Qed.

Lemma alive_pred tid tp : alive tid tp → at_event h tp (λ e, ev_kind e ≠ program_init).
Proof. intros (e & He & _ & ? & _). by exists e. Qed.

Lemma alive_tid tid tp : alive tid tp → tid ≠ tid_root.
Proof. intros (e & He & <- & Hk & _). by rewrite (wf_tid _ _ (Hwf _ _ He)). Qed.

Lemma check_thread_predecessor_total tid tp : alive tid tp → check_thread_predecessor h tid tp = Ok tt.
Proof.
  intros Hal. pose proof (alive_tid _ _ Hal) as Hne. destruct Hal as (e & He & Ht & Hk1 & Hk2).
  unfold check_thread_predecessor. rewrite (deref_total _ _ He). simpl. rewrite Ht.
  assert (tid_empty tid = false) as -> by (by destruct tid).
  rewrite (proj2 (tid_eqb_spec tid tid)) by done.
  apply kind_eqb_ne in Hk1, Hk2. by rewrite Hk1, Hk2.
Qed.
End total.

Definition returns {A} (r : res A) : Prop := ∃ a, r = Ok a.

Lemma returns_bind {A B} (m : res A) (f : A → res B) a :
  m = Ok a → returns (f a) → returns (m ≫= f).
Proof. by intros ->. Qed.

Lemma returns_ok {A} (a : A) : returns (Ok a).
Proof. by exists a. Qed.

Lemma guard_some {A} P `{Decision P} (mx : option A) x : (guard P;; mx) = Some x → P ∧ mx = Some x.
Proof.
  destruct (decide P) as [HP|HP].
  - by rewrite option_guard_True.
  - by rewrite option_guard_False.
Qed.

Section returns.
Context {PL : Payload} {AL : Allocator}.
Implicit Types (e : event) (o : operation).

Context (u : unfolding) (c : configuration).
Abbreviation h := (uf_heap u).
Abbreviation T := (cf_thread_heads c).
Abbreviation m := (machine_of h c).
Hypothesis Hco : conf_ok u c.

Lemma is_running_inv t r :
  is_running m t = Some r →
  ∃ te et, running_head h c t = Ok te ∧ smap_find t T = Some te ∧ h !! te = Some et ∧ ev_tid et = t ∧
    alive h t te ∧ r = recent_of et ∧ ev_kind et ≠ wait1 ∧ t ≠ tid_root.
Proof.
  unfold is_running. rewrite thread_lookup. destruct (smap_find t T) as [te|] eqn:Hte; [|done]. simpl.
  destruct (ho_head _ _ (conf_heads u c Hco) t te Hte) as (et & Het & Ht & Hk). rewrite Het. simpl.
  unfold status_of. intros Hr. exists te, et.
  assert (ev_kind et ≠ thread_exit ∧ ev_kind et ≠ wait1 ∧ r = recent_of et) as (H1 & H2 & H3).
  { destruct (ev_kind et); try case_decide; naive_solver. }
  assert (alive h t te) as Hal by (exists et; naive_solver).
  split_and!; try done; [|by eapply (alive_tid h (conf_wf u c Hco))].
  unfold running_head, existing_head. rewrite Hte. simpl. rewrite (deref_total h _ _ Het). simpl.
  apply kind_eqb_ne in H1, H2. by rewrite H1, H2.
Qed.

Lemma exited_inv t :
  mc_threads m !! t = Some Exited →
  ∃ te et, existing_head c t = Ok te ∧ h !! te = Some et ∧ ev_tid et = t ∧ ev_kind et = thread_exit.
Proof.
  rewrite thread_lookup. destruct (smap_find t T) as [te|] eqn:Hte; [|done]. simpl.
  destruct (ho_head _ _ (conf_heads u c Hco) t te Hte) as (et & Het & Ht & Hk). rewrite Het. simpl.
  unfold status_of. intros Hs. exists te, et. unfold existing_head. rewrite Hte.
  split_and!; try done. destruct (ev_kind et); try case_decide; naive_solver.
Qed.

Lemma absent_inv t : mc_threads m !! t = None → smap_has t T = false.
Proof.
  rewrite thread_lookup. unfold smap_has. destruct (smap_find t T) as [te|] eqn:Hte; [|done]. simpl.
  destruct (ho_head _ _ (conf_heads u c Hco) t te Hte) as (et & Het & Ht & Hk). by rewrite Het.
Qed.

Lemma tid_empty_ne (t : thread_id) : t ≠ tid_root → tid_empty t = false.
Proof. by destruct t. Qed.

Lemma tid_eqb_ne (t t' : thread_id) : t ≠ t' → tid_eqb t t' = false.
Proof. intros Hne. destruct (tid_eqb t t') eqn:E; [|done]. by apply tid_eqb_spec in E. Qed.

(** ** Threads *)

(** The step's guard, and the head of the operating thread. *)
Ltac step_inv Hs te et Hrun Hte Het Htt Hal Hrec Hroot :=
  cbn [machine_step]; intros Hs;
  match type of Hs with context [is_running ?mm ?t] =>
    let r := fresh "r" in let Hr := fresh in
    destruct (is_running mm t) as [r|] eqn:Hr; [|done]; cbn [mbind option_bind] in Hs;
    apply is_running_inv in Hr as (te & et & Hrun & Hte & Het & Htt & Hal & Hrec & _ & Hroot)
  end;
  try (apply guard_some in Hs as [Hs _]).

Lemma alive_check t te : alive h t te → check_thread_predecessor h t te = Ok tt.
Proof. apply check_thread_predecessor_total, (conf_wf u c Hco). Qed.

Lemma create_thread_returns t nt m' :
  machine_step (CreateThread t nt) m = Some m' → returns (create_thread h c t nt).
Proof.
  step_inv Hs te et Hrun Hte Het Htt Hal Hrec Hroot. destruct Hs as [Hnt Hno].
  unfold create_thread. eapply returns_bind; [done|].
  rewrite tid_empty_ne, absent_inv by done. simpl. unfold alloc_thread_create.
  destruct (event_of_pred_total h t (ThreadCreate te nt) te) as (e & -> & _); [eauto|]. simpl.
  rewrite alive_check by done. simpl.
  rewrite tid_empty_ne by done. simpl. rewrite tid_eqb_ne; [apply returns_ok|].
  intros ->. apply absent_inv in Hno. unfold smap_has in Hno. by rewrite Hte in Hno.
Qed.

Lemma init_thread_returns t from m' :
  machine_step (InitThread t from) m = Some m' → returns (init_thread h c t from).
Proof.
  step_inv Hs te et Hrun Hte Het Htt Hal Hrec Hroot. destruct Hs as [-> Hno].
  assert (ev_kind et = thread_create) as Hk.
  { unfold recent_of, ev_kind in *. by destruct (ev_data et). }
  apply absent_inv in Hno. assert (from ≠ t) as Hne.
  { intros ->. unfold smap_has in Hno. by rewrite Hte in Hno. }
  unfold init_thread, existing_head. rewrite Hte. simpl. rewrite (deref_total h _ _ Het). simpl.
  rewrite Hk, Htt, tid_eqb_ne, Hno by done. simpl. unfold alloc_thread_init.
  destruct (event_of_pred_total h t (ThreadInit te) te) as (e & -> & _); [eauto|]. simpl.
  rewrite (deref_total h _ _ Het). simpl. rewrite Hk, Htt, tid_eqb_ne, tid_empty_ne by done. apply returns_ok.
Qed.

Lemma join_thread_returns t j m' :
  machine_step (JoinThread t j) m = Some m' → returns (join_thread h c t j).
Proof.
  step_inv Hs te et Hrun Hte Het Htt Hal Hrec Hroot.
  assert (j ≠ t) as Hne.
  { intros ->. apply exited_inv in Hs as (je & ej & Hje & Hej & _ & Hk).
    apply existing_head_ok in Hje. destruct Hal as (x & Hx & _ & _ & Hn). congruence. }
  apply exited_inv in Hs as (je & ej & Hje & Hej & Htj & Hk).
  unfold join_thread. rewrite Hrun, Hje. simpl. rewrite (deref_total h _ _ Hej). simpl. rewrite Hk. simpl.
  unfold alloc_thread_join.
  destruct (event_of_preds_total h (conf_wf u c Hco) t (ThreadJoin te je) te (Some je) [])
    as (e & -> & _); [by eapply alive_pred | intros q [= <-]; eauto | by intros q ?%elem_of_nil|].
  rewrite bind_Ok_l, alive_check, bind_Ok_l by done. rewrite (deref_total h _ _ Hej). simpl.
  rewrite Htj, Hk, tid_eqb_ne, tid_empty_ne; [apply returns_ok| |done].
  intros ->. by rewrite (wf_tid _ _ (conf_wf u c Hco _ _ Hej)), Hk in Htj.
Qed.

Lemma active_threads_total n l :
  (∀ p, p ∈ l → is_Some (h !! p)) →
  ∃ n', for_each (λ n p, e ← deref h p;
    Ok (if negb (kind_eqb (ev_kind e) thread_exit) && negb (kind_eqb (ev_kind e) wait1)
        then S n else n)) n l = Ok n' ∧ n ≤ n' ∧
    ∀ p e, p ∈ l → h !! p = Some e → ev_kind e ≠ thread_exit → ev_kind e ≠ wait1 → n < n'.
Proof.
  revert n. induction l as [|q l IH]; intros n Hl; simpl.
  { exists n. split_and!; [done..|]. by intros p e ?%elem_of_nil. }
  destruct (Hl q) as [eq Heq]; [by left|]. rewrite (deref_total h _ _ Heq). simpl.
  match goal with |- context [for_each _ ?k _] => destruct (IH k) as (n' & Hn' & Hle & Hlt) end.
  { intros; apply Hl. by right. }
  exists n'. split; [done|]. split; [by case_match; lia|].
  intros p e [->|Hp]%elem_of_cons He H1 H2.
  - assert (e = eq) as -> by congruence. apply kind_eqb_ne in H1, H2. rewrite H1, H2 in Hle. simpl in Hle. lia.
  - specialize (Hlt p e Hp He H1 H2). case_match; lia.
Qed.

Lemma exit_thread_returns t a m' :
  machine_step (ExitThread t a) m = Some m' → returns (exit_thread h c t a).
Proof.
  step_inv Hs te et Hrun Hte Het Htt Hal Hrec Hroot.
  pose proof (heads_cone u T (conf_uf u c Hco) (conf_heads u c Hco)) as Hcone.
  unfold exit_thread. rewrite Hrun. simpl. unfold active_threads.
  destruct (active_threads_total 0 (smap_vals T)) as (n & -> & _ & Hpos).
  { intros p (t' & Hp)%(cone_vals_elem h _ _ _ Hcone). by eapply (conf_stored u c Hco), conf_head. }
  rewrite bind_Ok_l. apply running_head_ok in Hrun as [_ (et' & Het' & H1 & H2)].
  assert (0 < n) as Hn.
  { apply (Hpos te et'); try done. apply (cone_vals_elem h _ _ _ Hcone). eauto. }
  rewrite (proj2 (Nat.ltb_lt 0 n) Hn). simpl. unfold alloc_thread_exit.
  destruct (event_of_pred_total h t (ThreadExit te a) te) as (e & -> & _); [eauto|]. simpl.
  rewrite alive_check by done. simpl. rewrite (deref_total h _ _ Het). simpl.
  destruct a; [|apply returns_ok]. specialize (Hs eq_refl). subst r.
  assert (ev_kind et = lock_release) as ->; [|apply returns_ok].
  unfold recent_of, ev_kind in *. by destruct (ev_data et).
Qed.

Lemma local_returns t path m' :
  machine_step (LocalStep t path) m = Some m' → returns (local_op h c t path).
Proof.
  step_inv Hs te et Hrun Hte Het Htt Hal Hrec Hroot.
  unfold local_op, existing_head. rewrite Hte. simpl. rewrite (deref_total h _ _ Het). simpl.
  destruct Hal as (x & Hx & Hxt & H1 & H2). assert (x = et) as -> by congruence.
  pose proof H2 as H2'. apply kind_eqb_ne in H2. rewrite H2. simpl. unfold alloc_local.
  destruct (event_of_pred_total h t (Local te path) te) as (e & -> & _); [eauto|]. simpl.
  rewrite alive_check by (by exists et). apply returns_ok.
Qed.

(** ** Locks *)

Lemma lock_inv l s :
  mc_locks m !! l = Some s → s ≠ LockDestroyed →
  ∃ le el, smap_find l (cf_lock_heads c) = Some le ∧ h !! le = Some el ∧ lock_state_of el = s ∧
    ev_lid el = l ∧ l ≠ 0%N.
Proof.
  rewrite lock_lookup. destruct (smap_find l (cf_lock_heads c)) as [le|] eqn:Hl.
  - destruct (co_lock _ _ Hco l le Hl) as (Hnz & _ & el & Hel & Hlid). simpl. rewrite Hel. simpl.
    intros [= <-] _. by exists le, el.
  - simpl. case_match; naive_solver.
Qed.

Lemma lock_none l : mc_locks m !! l = None →
  smap_find l (cf_lock_heads c) = None ∧ sset_has l (cf_used_lock_ids c) = false.
Proof.
  rewrite lock_lookup. destruct (smap_find l (cf_lock_heads c)) as [le|] eqn:Hl; simpl.
  - destruct (co_lock _ _ Hco l le Hl) as (_ & _ & el & Hel & _). by rewrite Hel.
  - by case_match.
Qed.

Lemma create_lock_returns t l m' :
  machine_step (CreateLock t l) m = Some m' → returns (create_lock h c t l).
Proof.
  step_inv Hs te et Hrun Hte Het Htt Hal Hrec Hroot. destruct Hs as [Hnz [Hl Hu]%lock_none].
  unfold create_lock, smap_has. rewrite Hrun, Hl, Hu. simpl.
  rewrite (proj2 (N.ltb_lt 0 l)) by lia. simpl. unfold alloc_lock_create.
  destruct (event_of_pred_total h t (LockCreate te l) te) as (e & -> & _); [eauto|]. simpl.
  rewrite alive_check by done. simpl. rewrite (proj2 (N.eqb_neq l 0)) by done. apply returns_ok.
Qed.

Lemma lock_preds te (t : thread_id) lp d :
  alive h t te → (∀ q, lp = Some q → is_Some (h !! q)) →
  ∃ e, event_of_preds h t d te lp [] = Ok e ∧ ev_tid e = t ∧ ev_data e = d.
Proof.
  intros Hal Hlp. apply event_of_preds_total; [apply (conf_wf u c Hco) | by eapply alive_pred | done |].
  by intros q ?%elem_of_nil.
Qed.

Lemma destroy_lock_returns t l m' :
  machine_step (DestroyLock t l) m = Some m' → returns (destroy_lock h c t l).
Proof.
  step_inv Hs te et Hrun Hte Het Htt Hal Hrec Hroot. destruct Hs as [Hnz Hl].
  unfold destroy_lock. rewrite Hrun. simpl. destruct (mc_locks m !! l) as [s|] eqn:Hlk.
  - apply lock_inv in Hlk as (le & el & Hf & Hel & Hst & Hlid & _);
      [|intros ->; rewrite !elem_of_cons, elem_of_nil in Hl; naive_solver].
    rewrite Hf. unfold alloc_lock_destroy.
    destruct (lock_preds te t (Some le) (LockDestroy te (Some le) l) Hal) as (e & -> & _);
      [intros q [= <-]; eauto|].
    rewrite bind_Ok_l, alive_check by done. simpl. rewrite (deref_total h _ _ Hel). simpl.
    rewrite Hlid, N.eqb_refl. rewrite !elem_of_cons, elem_of_nil in Hl. unfold lock_state_of in Hst.
    destruct (ev_kind el); try naive_solver; apply returns_ok.
  - apply lock_none in Hlk as [-> _]. rewrite (proj2 (N.ltb_lt 0 l)) by lia. simpl. unfold alloc_lock_destroy.
    destruct (lock_preds te t None (LockDestroy te None l) Hal) as (e & -> & _); [done|].
    rewrite bind_Ok_l, alive_check by done. apply returns_ok.
Qed.

Lemma acquire_lock_returns t l m' :
  machine_step (AcquireLock t l) m = Some m' → returns (acquire_lock h c t l).
Proof.
  step_inv Hs te et Hrun Hte Het Htt Hal Hrec Hroot. destruct Hs as [Hnz Hl].
  unfold acquire_lock, can_acquire_lock, last_of_lid. rewrite Hrun, (proj2 (N.ltb_lt 0 l)) by lia. simpl.
  destruct (mc_locks m !! l) as [s|] eqn:Hlk.
  - apply lock_inv in Hlk as (le & el & Hf & Hel & Hst & Hlid & _); [|by intros ->].
    rewrite Hf. simpl. rewrite (deref_total h _ _ Hel). simpl.
    assert (ev_kind el ∈ [lock_create; lock_release; wait1]) as Hk.
    { rewrite !elem_of_cons. unfold lock_state_of in Hst. subst s. destruct (ev_kind el); naive_solver. }
    rewrite !elem_of_cons, elem_of_nil in Hk. unfold alloc_lock_acquire.
    destruct (lock_preds te t (Some le) (LockAcquire te (Some le) l false) Hal) as (e & He & _);
      [intros q [= <-]; eauto|].
    rewrite He, bind_Ok_l, alive_check, bind_Ok_l, (deref_total h _ _ Hel) by done.
    rewrite bind_Ok_l, Hlid, N.eqb_refl, (proj2 (N.eqb_neq l 0)) by done.
    destruct Hk as [Hk|[Hk|[Hk|[]]]]; rewrite Hk; apply returns_ok.
  - apply lock_none in Hlk as [-> ->]. simpl. unfold alloc_lock_acquire.
    destruct (lock_preds te t None (LockAcquire te None l false) Hal) as (e & -> & _); [done|].
    rewrite bind_Ok_l, alive_check by done. simpl. rewrite (proj2 (N.eqb_neq l 0)) by done. apply returns_ok.
Qed.

Lemma held_inv l t :
  mc_locks m !! l = Some (Held t) →
  ∃ le el, lock_head c l = Ok le ∧ smap_find l (cf_lock_heads c) = Some le ∧ h !! le = Some el ∧
    (ev_kind el = lock_acquire ∨ ev_kind el = wait2) ∧ ev_tid el = t ∧ ev_lid el = l ∧ l ≠ 0%N.
Proof.
  intros (le & el & Hf & Hel & Hst & Hlid & Hnz)%lock_inv; [|done]. exists le, el.
  unfold lock_head. rewrite Hf. unfold lock_state_of in Hst.
  destruct (co_held _ _ Hco l le Hf) as (x & Hx & Hnd). assert (x = el) as -> by congruence.
  assert (ev_kind el = lock_acquire ∨ ev_kind el = wait2) as Hk.
  { assert (ev_lid el ≠ 0%N) as Hl0 by congruence. unfold ev_lid, ev_kind in *.
    destruct (ev_data el); simpl in *; naive_solver. }
  split_and!; try done. destruct Hk as [Hk|Hk]; rewrite Hk in Hst; congruence.
Qed.

Lemma release_lock_returns t l a m' :
  machine_step (ReleaseLock t l a) m = Some m' → returns (release_lock h c t l a).
Proof.
  step_inv Hs te et Hrun Hte Het Htt Hal Hrec Hroot. destruct Hs as [Hl Hat].
  apply held_inv in Hl as (le & el & Hlh & Hf & Hel & Hk & Htl & Hlid & Hnz).
  unfold release_lock. rewrite Hrun, Hlh, !bind_Ok_l. unfold alloc_lock_release.
  destruct (lock_preds te t (Some le) (LockRelease te le l a) Hal) as (e & -> & _);
    [intros q [= <-]; eauto|].
  rewrite bind_Ok_l, alive_check, bind_Ok_l, (deref_total h _ _ Hel), bind_Ok_l by done.
  rewrite Hlid, N.eqb_refl, (proj2 (N.eqb_neq l 0)), Htl, (proj2 (tid_eqb_spec t t)) by done.
  assert (cassert (negb a || bool_decide (le = te) && kind_eqb (ev_kind el) lock_acquire) = Ok tt) as ->.
  { destruct a; [|done]. specialize (Hat eq_refl). subst r.
    assert (ev_kind et = lock_acquire ∧ ev_lid et = l) as [Hket Hlet].
    { unfold recent_of, ev_kind, ev_lid in *. destruct (ev_data et); simplify_eq/=; done. }
    assert (le = te) as ->.
    { pose proof (conf_head u c t te Hte) as HCt.
      destruct (co_locks _ _ Hco te et HCt Het) as [_ Hle]; [congruence|].
      rewrite Hlet in Hle. specialize (Hle le Hf).
      assert (thread_le h le te) as Hle2.
      { apply (head_last u c Hco t te le el); try done; [by eapply (co_lock _ _ Hco)|].
        destruct Hk as [->| ->]; done. }
      apply thread_le_causal, causal_le_alt in Hle2 as [?|Hlt]; [done|]. exfalso.
      eapply (causal_lt_irrefl h te); [apply (conf_wf u c Hco)|]. by eapply causal_le_lt_trans. }
    assert (el = et) as -> by congruence. rewrite bool_decide_true, Hket by done. done. }
  destruct Hk as [->| ->]; apply returns_ok.
Qed.

(** ** Condition variables *)

Lemma filter_res_total {A} (f : A → res bool) l :
  (∀ x, x ∈ l → returns (f x)) → returns (filter_res f l).
Proof.
  induction l as [|x l IH]; intros Hf; simpl; [apply returns_ok|].
  destruct (Hf x) as [b ->]; [by left|]. simpl. destruct IH as [r ->]; [intros; apply Hf; by right|].
  apply returns_ok.
Qed.

Lemma any_of_total {A} (f : A → res bool) l : (∀ x, x ∈ l → returns (f x)) → returns (any_of f l).
Proof.
  induction l as [|x l IH]; intros Hf; simpl; [apply returns_ok|].
  destruct (Hf x) as [[] ->]; [by left|apply returns_ok|]. simpl. apply IH. intros; apply Hf; by right.
Qed.

Lemma signal_queries x ex :
  h !! x = Some ex → ev_kind ex = signal →
  signal_is_lost h ex = Ok (bool_decide (notified h ex = [])) ∧
  ∃ nt, signal_notified_thread h ex = Ok nt.
Proof.
  intros Hex Hk. pose proof (conf_wf u c Hco x ex Hex) as Hw.
  pose proof (notification_lost h ex Hw ltac:(by rewrite Hk)) as Hl.
  unfold notification_is_lost in Hl. rewrite Hk in Hl. split; [done|].
  unfold signal_is_lost, signal_notified_thread, cps_lost, ev_kind in *.
  destruct (ev_data ex) as [| | | | | | | | | | | | | |tp [|w []] k|]; try done; eauto.
  destruct (h !! w) as [ew|] eqn:Hew; [|unfold deref in Hl; by rewrite Hew in Hl].
  rewrite (deref_total h _ _ Hew). simpl. eauto.
Qed.

Lemma broadcast_queries x ex t :
  h !! x = Some ex → ev_kind ex = broadcast →
  broadcast_is_lost ex = Ok (bool_decide (notified h ex = [])) ∧
  returns (broadcast_is_notifying_thread h ex t).
Proof.
  intros Hex Hk. pose proof (conf_wf u c Hco x ex Hex) as Hw.
  pose proof (notification_lost h ex Hw ltac:(by rewrite Hk)) as Hl.
  unfold notification_is_lost in Hl. rewrite Hk in Hl. split; [done|].
  destruct (broadcast_notified_list h ex Hw Hk) as (_ & _ & Hws & _).
  unfold broadcast_is_notifying_thread. rewrite Hws. simpl. apply any_of_total.
  intros w Hwn. apply notified_pred, condition_variable_predecessors_pred in Hwn.
  destruct (wf_preds _ _ Hw w Hwn) as [ew Hew]. rewrite (deref_total h _ _ Hew). apply returns_ok.
Qed.

Lemma less_eq_total a b : in_conf u c a → in_conf u c b → returns (is_less_than_eq h a b).
Proof.
  intros Ha Hb. unfold is_less_than_eq. case_bool_decide; [apply returns_ok|].
  destruct (is_less_than_decides h (in_conf u c) (conf_wf u c Hco) (conf_free u c Hco) a b Ha Hb)
    as (r & -> & _). apply returns_ok.
Qed.

(** The tail that the three filters over the list share. *)
Lemma filter_tail (skip : bool) (ep : event) (t : thread_id) pred te :
  in_conf u c pred → in_conf u c te →
  returns (if skip then Ok false
    else if tid_eqb (ev_tid ep) t then Ok false
    else le ← is_less_than_eq h pred te; Ok (negb le)).
Proof.
  intros Hp Hte. destruct skip; [apply returns_ok|]. destruct (tid_eqb _ _); [apply returns_ok|].
  destruct (less_eq_total pred te Hp Hte) as [b ->]. apply returns_ok.
Qed.

Lemma listed_kind k preds q :
  smap_find k (cf_cond_heads c) = Some preds → q ∈ preds →
  in_conf u c q ∧ ∃ eq, h !! q = Some eq ∧ ev_cid eq = k ∧
    (ev_kind eq = condition_variable_create ∨ ev_kind eq = wait1 ∨ ev_kind eq = signal ∨
      ev_kind eq = broadcast).
Proof.
  intros Hk Hq. destruct (co_cond _ _ Hco k q) as (HCq & eq & Heq & Hc & Hki).
  { unfold cond_list. by rewrite Hk. }
  split; [done|]. exists eq. rewrite !elem_of_cons, elem_of_nil in Hki. naive_solver.
Qed.

Lemma wait1_predecessors_total k preds te et :
  smap_find k (cf_cond_heads c) = Some preds → in_conf u c te → h !! te = Some et →
  ∃ prev, wait1_predecessors_cond h te preds = Ok prev.
Proof.
  intros Hk HCt Het. unfold wait1_predecessors_cond. rewrite (deref_total h _ _ Het), bind_Ok_l.
  apply filter_res_total. intros q Hq. destruct (listed_kind k preds q Hk Hq) as (HCq & eq & Heq & _ & Hki).
  rewrite (deref_total h _ _ Heq), bind_Ok_l.
  destruct Hki as [Hki|[Hki|[Hki|Hki]]]; rewrite Hki.
  - rewrite bind_Ok_l. by apply (filter_tail false eq (ev_tid et)).
  - rewrite bind_Ok_l. apply returns_ok.
  - destruct (signal_queries q eq Heq Hki) as [-> _]. rewrite !bind_Ok_l. by apply filter_tail.
  - destruct (broadcast_queries q eq (ev_tid et) Heq Hki) as [_ [b ->]]. rewrite bind_Ok_l. by apply filter_tail.
Qed.

Lemma sort_ptrs_stored l : (∀ q, q ∈ l → is_Some (h !! q)) → ∀ q, q ∈ sort_ptrs l → is_Some (h !! q).
Proof. intros Hl q Hq. rewrite sort_ptrs_elem in Hq. by apply Hl. Qed.

(** What the constructor of [wait1] asserts of a predecessor. *)
Definition wait1_check (t : thread_id) (k : cond_id_t) (q : eid) : res unit :=
  ep ← deref h q;
  match ev_kind ep with
  | signal => lost ← signal_is_lost h ep; _ ← cassert lost; cassert (ev_cid ep =? k)%N
  | broadcast =>
      n ← broadcast_is_notifying_thread h ep t; _ ← cassert (negb n); cassert (ev_cid ep =? k)%N
  | condition_variable_create => cassert (ev_cid ep =? k)%N
  | _ => Err AssertFailed
  end.

Lemma wait1_kept k preds te et t prev q :
  smap_find k (cf_cond_heads c) = Some preds → h !! te = Some et → ev_tid et = t →
  wait1_predecessors_cond h te preds = Ok prev → q ∈ prev →
  wait1_check t k q = Ok tt.
Proof.
  intros Hk Het Ht Hp Hq. unfold wait1_predecessors_cond in Hp. rewrite (deref_total h _ _ Het), bind_Ok_l in Hp.
  pose proof (filter_res_sub _ _ _ _ Hp Hq) as Hin. apply (filter_res_kept _ _ _ q) in Hp; [|done].
  destruct (listed_kind k preds q Hk Hin) as (_ & eq & Heq & Hc & Hki).
  apply bind_ok in Hp as (x & Hx%deref_ok & Hp). assert (x = eq) as -> by congruence.
  unfold wait1_check. rewrite (deref_total h _ _ Heq), bind_Ok_l. rewrite Ht in Hp. rewrite Hc, N.eqb_refl.
  apply bind_ok in Hp as (skip & Hs & Hb). destruct skip; [done|].
  destruct Hki as [Hki|[Hki|[Hki|Hki]]]; rewrite Hki in *; try done.
  - apply bind_ok in Hs as (lost & -> & [= Hl]). apply negb_false_iff in Hl as ->. done.
  - rewrite Hs. done.
Qed.

Lemma wait1_returns t k l m' :
  machine_step (WaitBegin t k l) m = Some m' → returns (wait1_op h c t k l).
Proof.
  step_inv Hs te et Hrun Hte Het Htt Hal Hrec Hroot. destruct Hs as [[Hk0 Hus] Hl].
  apply held_inv in Hl as (le & el & Hlh & Hf & Hel & Hkl & Htl & Hlid & Hnz).
  unfold wait1_op. rewrite Hrun, bind_Ok_l.
  assert (∀ cps, (∀ q, q ∈ cps → is_Some (h !! q)) → (∀ q, q ∈ cps → wait1_check t k q = Ok tt) → returns (alloc_wait1 h t k l te le cps)) as Halloc.
  { intros cps Hst Hck. unfold alloc_wait1. cbv zeta.
    destruct (event_of_preds_total h (conf_wf u c Hco) t (Wait1 te le (sort_ptrs cps) k l) te (Some le)
      (sort_ptrs cps)) as (e & -> & _);
      [by eapply alive_pred | intros q [= <-]; eauto | by apply sort_ptrs_stored|].
    rewrite bind_Ok_l, alive_check, bind_Ok_l, (deref_total h _ _ Hel), bind_Ok_l by done.
    rewrite Hlid, N.eqb_refl, Htl, (proj2 (tid_eqb_spec t t)) by done.
    rewrite for_each_check by (intros q Hq; rewrite sort_ptrs_elem in Hq; by apply Hck).
    rewrite (proj2 (N.eqb_neq l 0)), (proj2 (N.eqb_neq k 0)) by done.
    destruct Hkl as [->| ->]; apply returns_ok. }
  destruct (smap_find k (cf_cond_heads c)) as [preds|] eqn:Hk.
  - rewrite Hlh, bind_Ok_l.
    destruct (wait1_predecessors_total k preds te et Hk ltac:(by eapply conf_head) Het) as [prev Hprev].
    rewrite Hprev, bind_Ok_l. destruct (Halloc prev) as [e ->]; [| |apply returns_ok].
    + intros q Hq. unfold wait1_predecessors_cond in Hprev. apply bind_ok in Hprev as (? & _ & Hprev).
      destruct (listed_kind k preds q Hk) as (_ & eq & Heq & _); [by eapply filter_res_sub | eauto].
    + intros q Hq. apply (wait1_kept k preds te et t prev q Hk Het Htt Hprev Hq).
  - rewrite (proj2 (N.ltb_lt 0 k)), (proj2 (N.ltb_lt 0 l)) by lia. cbn [cassert]. rewrite !bind_Ok_l, Hlh, bind_Ok_l.
    destruct (Halloc []) as [e ->]; [by intros q ?%elem_of_nil | by intros q ?%elem_of_nil | apply returns_ok].
Qed.

Lemma create_cond_returns t k m' :
  machine_step (CreateCond t k) m = Some m' → returns (create_cond h c t k).
Proof.
  step_inv Hs te et Hrun Hte Het Htt Hal Hrec Hroot. destruct Hs as [Hk0 Hk].
  rewrite cond_lookup in Hk. unfold create_cond, smap_has. rewrite Hrun, bind_Ok_l.
  destruct (smap_find k (cf_cond_heads c)); [done|].
  destruct (sset_has k (cf_used_cond_ids c)); [done|].
  rewrite (proj2 (N.ltb_lt 0 k)) by lia. simpl. unfold alloc_condition_variable_create.
  destruct (event_of_pred_total h t (ConditionVariableCreate te k) te) as (e & -> & _); [eauto|]. simpl.
  rewrite alive_check by done. simpl. rewrite (proj2 (N.eqb_neq k 0)) by done. apply returns_ok.
Qed.

(** No event on the list of a condition variable without waiting threads is
    a [wait1]. *)
Lemma idle_list k w ew :
  waiters m k = ∅ → w ∈ cond_list c k → h !! w = Some ew → ev_kind ew ≠ wait1.
Proof.
  intros Hno Hw Hew Hk. pose proof (waiter_listed u c Hco k w ew Hw Hew Hk) as Hin.
  rewrite Hno in Hin. by apply elem_of_empty in Hin.
Qed.

Lemma destroy_cond_returns t k m' :
  machine_step (DestroyCond t k) m = Some m' → returns (destroy_cond h c t k).
Proof.
  step_inv Hs te et Hrun Hte Het Htt Hal Hrec Hroot. destruct Hs as [[Hk0 _] Hno].
  unfold destroy_cond. rewrite Hrun, bind_Ok_l, (proj2 (N.ltb_lt 0 k)) by lia. cbn [cassert]. rewrite bind_Ok_l.
  assert (∀ cps, (∀ q, q ∈ cps → at_event h q (λ e, ev_cid e = k ∧
      (ev_kind e = condition_variable_create ∨ ev_kind e = signal ∨ ev_kind e = broadcast ∨
        ev_kind e = wait2))) →
    returns (alloc_condition_variable_destroy h t k te cps)) as Halloc.
  { intros cps Hcps. unfold alloc_condition_variable_destroy. cbv zeta.
    destruct (event_of_preds_total h (conf_wf u c Hco) t (ConditionVariableDestroy te (sort_ptrs cps) k)
      te None (sort_ptrs cps)) as (e & -> & _); [by eapply alive_pred | done | |].
    { apply sort_ptrs_stored. intros q (x & Hx & _)%Hcps. eauto. }
    rewrite bind_Ok_l, alive_check, bind_Ok_l by done.
    rewrite for_each_check; [simpl; rewrite (proj2 (N.eqb_neq k 0)) by done; apply returns_ok|].
    intros q Hq. rewrite sort_ptrs_elem in Hq. destruct (Hcps q Hq) as (x & Hx & Hxc & Hxk).
    rewrite (deref_total h _ _ Hx), bind_Ok_l, Hxc, N.eqb_refl.
    by destruct Hxk as [->|[->|[->| ->]]]. }
  destruct (smap_find k (cf_cond_heads c)) as [preds|] eqn:Hk.
  - pose proof (co_live _ _ Hco k preds Hk) as Hne. destruct preds as [|p0 preds']; [done|]. simpl.
    destruct (Halloc ((p0 :: preds') ++ default [] (smap_find k (cf_w2_heads c)))) as [e He];
      [|simpl in He; rewrite He; apply returns_ok].
    intros q [Hq|Hq]%elem_of_app.
    + destruct (listed_kind k _ q Hk Hq) as (_ & eq & Heq & Hc & Hki). exists eq. split_and!; [done..|].
      assert (ev_kind eq ≠ wait1); [|naive_solver]. apply (idle_list k q); [done| |done].
      unfold cond_list. by rewrite Hk.
    + destruct (co_w2 _ _ Hco k q Hq) as (_ & eq & Heq & Hc & Hki). exists eq. naive_solver.
  - destruct (Halloc []) as [e ->]; [by intros q ?%elem_of_nil | apply returns_ok].
Qed.

Lemma find_if_total {A} (f : A → res bool) l :
  (∀ x, x ∈ l → returns (f x)) → (∃ x, x ∈ l ∧ f x = Ok true) → ∃ y, find_if f l = Ok (Some y).
Proof.
  intros Hf (x & Hx & Hfx). induction l as [|y l IH]; [by apply elem_of_nil in Hx|]. simpl.
  destruct (Hf y) as [[] Hy]; [by left| |]; rewrite Hy; simpl; [eauto|].
  apply IH; [intros; apply Hf; by right|]. apply elem_of_cons in Hx as [->|?]; [congruence | done].
Qed.

Lemma any_of_elem {A} (f : A → res bool) l x :
  (∀ y, y ∈ l → returns (f y)) → x ∈ l → f x = Ok true → any_of f l = Ok true.
Proof.
  intros Hf Hx Hfx. induction l as [|y l IH]; [by apply elem_of_nil in Hx|]. simpl.
  destruct (Hf y) as [[] Hy]; [by left| |]; rewrite Hy; simpl; [done|].
  apply IH; [intros; apply Hf; by right|]. apply elem_of_cons in Hx as [->|?]; [congruence | done].
Qed.

Lemma notified_inv t k :
  mc_threads m !! t = Some (Notified k) →
  ∃ te et, existing_head c t = Ok te ∧ smap_find t T = Some te ∧ h !! te = Some et ∧ ev_tid et = t ∧
    ev_kind et = wait1 ∧ ev_cid et = k ∧ te ∉ cond_list c k.
Proof.
  rewrite thread_lookup. destruct (smap_find t T) as [te|] eqn:Hte; [|done]. simpl.
  destruct (ho_head _ _ (conf_heads u c Hco) t te Hte) as (et & Het & Ht & Hk). rewrite Het. simpl.
  unfold status_of, existing_head. rewrite Hte. intros Hs. exists te, et.
  destruct (ev_kind et); try done. case_decide; [done|]. injection Hs as <-. done.
Qed.

(** The search of [wait2] finds the notification. *)
Lemma wait2_predecessor_total k preds te et :
  smap_find k (cf_cond_heads c) = Some preds → in_conf u c te → h !! te = Some et →
  ev_kind et = wait1 → ev_cid et = k → te ∉ cond_list c k →
  ∃ np, wait2_predecessor_cond h te preds = Ok (Some np).
Proof.
  intros Hk HCt Het Hkt Hct Hnl. unfold wait2_predecessor_cond.
  assert (ev_cid et ≠ 0%N) as Hnz.
  { apply cid_nonzero; [apply (lc_ids _ _ _ (uo_lc _ (conf_uf u c Hco) _ _ Het)) | by rewrite Hkt]. }
  destruct (co_conds _ _ Hco te et HCt Het Hnz) as [_ Hli]. rewrite Hct in Hli.
  specialize (Hli ltac:(eauto)). unfold listed in Hli. rewrite Hkt, Hct in Hli.
  destruct Hli as [?|(n & Hn & en & Hen & Hnt)]; [done|].
  unfold cond_list in Hn. rewrite Hk in Hn. simpl in Hn.
  apply find_if_total.
  - intros q Hq. destruct (listed_kind k preds q Hk Hq) as (_ & eq & Heq & _ & Hki).
    rewrite (deref_total h _ _ Heq), bind_Ok_l. pose proof (conf_wf u c Hco q eq Heq) as Hw.
    destruct Hki as [Hki|[Hki|[Hki|Hki]]]; rewrite Hki; try apply returns_ok.
    + destruct (signal_notified h eq Hw Hki) as [(w & -> & _)|[-> _]]; apply returns_ok.
    + destruct (broadcast_notified_list h eq Hw Hki) as (_ & _ & -> & _). apply returns_ok.
  - exists n. split; [done|]. rewrite (deref_total h _ _ Hen), bind_Ok_l.
    pose proof (conf_wf u c Hco n en Hen) as Hw. destruct (notified_wait1 h en te Hw Hnt) as [_ Hnk].
    destruct (ev_kind en) eqn:Hki; try done.
    + destruct (signal_notified h en Hw Hki) as [(w & -> & Hnw)|[_ Hnw]]; rewrite Hnw in Hnt.
      * apply list_elem_of_singleton in Hnt as <-. simpl. by rewrite bool_decide_true.
      * by apply elem_of_nil in Hnt.
    + destruct (broadcast_notified_list h en Hw Hki) as (_ & _ & -> & _). simpl. by rewrite bool_decide_true.
Qed.

(** The notification passes the asserts of the constructor. *)
Lemma notification_checks k preds t te et np :
  smap_find k (cf_cond_heads c) = Some preds → smap_find t T = Some te → h !! te = Some et →
  ev_tid et = t → ev_kind et = wait1 → wait2_predecessor_cond h te preds = Ok (Some np) →
  ∃ en, h !! np = Some en ∧ ev_tid en ≠ t ∧ ev_cid en = k ∧
    ((ev_kind en = signal ∧ signal_notified_thread h en = Ok t ∧
      signal_wait_predecessor h en = Ok (Some te)) ∨
     (ev_kind en = broadcast ∧ broadcast_is_notifying_thread h en t = Ok true ∧
      ∃ ws, broadcast_wait_predecessors en = Ok ws ∧ te ∈ ws)).
Proof.
  intros Hk Hte Het Htt Hkt Hf. destruct (wait2_predecessor_ok u c Hco _ _ _ Hf) as [Hnp (en & Hen & Hnt)].
  destruct (listed_kind k preds np Hk Hnp) as (HCn & x & Hx & Hc & _). assert (x = en) as -> by congruence.
  pose proof (conf_wf u c Hco np en Hen) as Hw. exists en. split_and!; [done| |done|].
  - intros Htn. assert (causal_lt h te np) as Hlt.
    { apply causal_lt_alt. exists en. split; [done|]. exists te. split; [|reflexivity].
      by apply condition_variable_predecessors_pred, (notified_pred h). }
    assert (thread_le h np te) as Hle.
    { apply (head_last u c Hco t te np en); try done. intros Hki.
      destruct (notified_wait1 h en te Hw Hnt) as [_ Hnk]. by rewrite Hki in Hnk. }
    eapply (causal_lt_irrefl h np); [apply (conf_wf u c Hco)|].
    eapply causal_le_lt_trans; [by apply thread_le_causal | exact Hlt].
  - destruct (notified_wait1 h en te Hw Hnt) as [_ Hnk]. destruct (ev_kind en) eqn:Hki; try done; [left|right].
    + split; [done|]. destruct (signal_notified h en Hw Hki) as [(w & -> & Hnw)|[_ Hnw]]; rewrite Hnw in Hnt;
        [|by apply elem_of_nil in Hnt].
      apply list_elem_of_singleton in Hnt as <-. split; [|done].
      unfold notified in Hnw. unfold signal_notified_thread. unfold ev_kind in Hki.
      destruct (ev_data en) as [| | | | | | | | | | | | | |tp [|w []] k'|]; try done.
      destruct (h !! w) as [ew|] eqn:Hew; [|done]. rewrite (deref_total h _ _ Hew). simpl.
      destruct (kind_eqb (ev_kind ew) wait1); [|done]. injection Hnw as ->. congruence.
    + destruct (broadcast_notified_list h en Hw Hki) as (_ & _ & Hws & _).
      split_and!; [done| |by eexists]. unfold broadcast_is_notifying_thread. rewrite Hws. simpl.
      eapply any_of_elem; [|done|].
      * intros w Hwn. apply notified_pred, condition_variable_predecessors_pred in Hwn.
        destruct (wf_preds _ _ Hw w Hwn) as [ew Hew]. rewrite (deref_total h _ _ Hew). apply returns_ok.
      * rewrite (deref_total h _ _ Het). simpl. by rewrite Htt, (proj2 (tid_eqb_spec t t)).
Qed.

Lemma wait2_returns t k l m' :
  machine_step (WaitEnd t k l) m = Some m' → returns (wait2_op h c t k l).
Proof.
  cbn [machine_step]. intros [(Ht & Hcl & Hl) _]%guard_some.
  apply notified_inv in Ht as (te & et & Hex & Hte & Het & Htt & Hkt & Hct & Hnl).
  rewrite cond_lookup in Hcl. destruct (smap_find k (cf_cond_heads c)) as [preds|] eqn:Hk;
    [|by case_match].
  assert (∃ s, mc_locks m !! l = Some s ∧ (s = Free ∨ s = FreedByWait)) as (s & Hls & Hs).
  { rewrite !elem_of_cons, elem_of_nil in Hl. naive_solver. }
  apply lock_inv in Hls as (le & el & Hf & Hel & Hst & Hlid & Hnz); [|naive_solver].
  pose proof (conf_head u c t te Hte) as HCt.
  destruct (wait2_predecessor_total k preds te et) as [np Hnp]; try done.
  destruct (notification_checks k preds t te et np) as (en & Hen & Htn & Hcn & Hchk); try done.
  assert (ev_kind el = lock_release ∨ ev_kind el = wait1) as Hkl.
  { unfold lock_state_of in Hst. destruct (ev_kind el); naive_solver. }
  assert (k ≠ 0%N) as Hk0 by (by eapply cond_nonzero).
  unfold wait2_op. rewrite Hex, bind_Ok_l, (deref_total h _ _ Het), bind_Ok_l, Hkt. simpl.
  unfold lock_head. rewrite Hk, Hf, bind_Ok_l, Hnp, bind_Ok_l. unfold alloc_wait2.
  destruct (event_of_preds_total h (conf_wf u c Hco) t (Wait2 te np le k l false) te (Some le) [np])
    as (e & -> & _); [exists et; split; [done | congruence] | intros q [= <-]; eauto
      | intros q ->%list_elem_of_singleton; eauto|].
  rewrite bind_Ok_l, (deref_total h _ _ Het), bind_Ok_l, Hkt, Htt.
  rewrite tid_empty_ne, (proj2 (tid_eqb_spec t t)); [|done|]; cycle 1.
  { intros ->. by rewrite (wf_tid _ _ (conf_wf u c Hco _ _ Het)), Hkt in Htt. }
  cbn [cassert negb kind_eqb]. rewrite !bind_Ok_l, (deref_total h _ _ Hel), bind_Ok_l, Hlid, N.eqb_refl.
  rewrite (proj2 (N.eqb_neq l 0)), (proj2 (N.eqb_neq k 0)) by done.
  destruct Hkl as [->| ->]; simpl; rewrite (deref_total h _ _ Hen); simpl;
    rewrite (tid_eqb_ne (ev_tid en) t), Hcn, N.eqb_refl by done; simpl;
    destruct Hchk as [(-> & -> & ->)|(-> & -> & ws & -> & Hin)]; simpl;
    rewrite ?(proj2 (tid_eqb_spec t t)), ?bool_decide_true by done; apply returns_ok.
Qed.

(** What is known of an event that the search for the predecessors of a lost
    notification keeps. *)
Definition lost_pred (t : thread_id) (k : cond_id_t) (q : eid) : Prop :=
  at_event h q (λ e, ev_cid e = k ∧
    (ev_kind e = condition_variable_create ∨
     (ev_kind e = signal ∧ signal_is_lost h e = Ok false ∧
       ∃ nt, signal_notified_thread h e = Ok nt ∧ tid_eqb nt t = false) ∨
     (ev_kind e = broadcast ∧ broadcast_is_lost e = Ok false ∧
       broadcast_is_notifying_thread h e t = Ok false))).

Lemma lost_total k preds te et t :
  smap_find k (cf_cond_heads c) = Some preds → waiters m k = ∅ → in_conf u c te →
  h !! te = Some et → ev_tid et = t →
  ∃ prev, lost_notification_predecessors_cond h te preds = Ok prev ∧
    (∀ q, q ∈ prev → q ∈ preds) ∧ ∀ q, q ∈ prev → lost_pred t k q.
Proof.
  intros Hk Hno HCt Het Htt.
  assert (returns (lost_notification_predecessors_cond h te preds)) as [prev Hp].
  { unfold lost_notification_predecessors_cond. rewrite (deref_total h _ _ Het), bind_Ok_l.
    apply filter_res_total. intros q Hq. destruct (listed_kind k preds q Hk Hq) as (HCq & eq & Heq & _ & Hki).
    rewrite (deref_total h _ _ Heq), bind_Ok_l.
    destruct Hki as [Hki|[Hki|[Hki|Hki]]]; rewrite Hki.
    - rewrite bind_Ok_l. by apply (filter_tail false eq (ev_tid et)).
    - exfalso. apply (idle_list k q eq); try done. unfold cond_list. by rewrite Hk.
    - destruct (signal_queries q eq Heq Hki) as [-> [nt ->]]. rewrite bind_Ok_l.
      destruct (bool_decide _); rewrite !bind_Ok_l; first [apply returns_ok | by apply filter_tail].
    - destruct (broadcast_queries q eq (ev_tid et) Heq Hki) as [-> [b ->]]. rewrite bind_Ok_l.
      destruct (bool_decide _); rewrite !bind_Ok_l; first [apply returns_ok | by apply filter_tail]. }
  exists prev. split_and!; [done | intros q; by eapply lost_prev_sub|]. intros q Hq.
  pose proof (lost_prev_sub u te preds prev q Hp Hq) as Hin.
  unfold lost_notification_predecessors_cond in Hp. rewrite (deref_total h _ _ Het), bind_Ok_l in Hp.
  apply (filter_res_kept _ _ _ q) in Hp; [|done].
  destruct (listed_kind k preds q Hk Hin) as (_ & eq & Heq & Hc & Hki).
  apply bind_ok in Hp as (x & Hx%deref_ok & Hp). assert (x = eq) as -> by congruence.
  apply bind_ok in Hp as (skip & Hs & Hb). destruct skip; [done|]. rewrite Htt in Hs.
  exists eq. split_and!; [done..|].
  destruct Hki as [Hki|[Hki|[Hki|Hki]]]; rewrite Hki in *; [by left | done | right; left | right; right].
  - apply bind_ok in Hs as ([] & Hl & Hs); [done|]. apply bind_ok in Hs as (nt & Hnt & [= Hs]). eauto.
  - apply bind_ok in Hs as ([] & Hl & Hs); [done|]. done.
Qed.

Lemma signal_lost_alloc t k te prev :
  alive h t te → k ≠ 0%N → (∀ q, q ∈ prev → lost_pred t k q) →
  returns (alloc_signal_lost h t k te prev).
Proof.
  intros Hal Hk0 Hprev. unfold alloc_signal_lost. cbv zeta.
  destruct (event_of_preds_total h (conf_wf u c Hco) t (Signal te (sort_ptrs prev) k) te None (sort_ptrs prev))
    as (e & -> & _ & Hd); [by eapply alive_pred | done | |].
  { apply sort_ptrs_stored. intros q (x & Hx & _)%Hprev. eauto. }
  assert (cps_lost h (sort_ptrs prev) = Ok true) as Hlost.
  { unfold cps_lost. destruct (sort_ptrs prev) as [|q []] eqn:Hl; try done.
    destruct (Hprev q) as (x & Hx & _ & Hxk); [rewrite <-sort_ptrs_elem, Hl; by left|].
    rewrite (deref_total h _ _ Hx). simpl. by destruct Hxk as [->|[[-> _]|[-> _]]]. }
  rewrite bind_Ok_l, alive_check, bind_Ok_l by done.
  assert (signal_is_lost h e = Ok true) as Hle by (unfold signal_is_lost; by rewrite Hd).
  unfold signal_wait_predecessor. rewrite Hd, Hlost, Hle. simpl.
  rewrite for_each_check; [simpl; rewrite (proj2 (N.eqb_neq k 0)) by done; apply returns_ok|].
  intros q Hq. rewrite sort_ptrs_elem in Hq. destruct (Hprev q Hq) as (x & Hx & Hxc & Hxk).
  rewrite (deref_total h _ _ Hx). simpl. rewrite Hxc, N.eqb_refl.
  destruct Hxk as [->|[(-> & -> & nt & -> & Hnt)|(-> & -> & ->)]]; simpl; [done| |done].
  by rewrite Hnt.
Qed.

Lemma waiting_inv t k :
  t ∈ waiters m k →
  ∃ w ew, waiting_head h c t = Ok w ∧ smap_find t T = Some w ∧ h !! w = Some ew ∧ ev_tid ew = t ∧
    ev_kind ew = wait1 ∧ ev_cid ew = k ∧ w ∈ cond_list c k.
Proof.
  intros (w & Hw & Hin & ew & Hew & Hk & Ht)%elem_waiters%(waiting_status u c Hco). exists w, ew.
  destruct (co_cond _ _ Hco k w Hin) as (_ & x & Hx & Hc & _). assert (x = ew) as -> by congruence.
  split_and!; try done. unfold waiting_head, existing_head. rewrite Hw. simpl.
  rewrite (deref_total h _ _ Hew). simpl. by rewrite Hk.
Qed.

(** The search for the notified [wait1] finds the head of the thread. *)
Lemma notified_wait1_total k preds t w ew :
  smap_find k (cf_cond_heads c) = Some preds → smap_find t T = Some w → h !! w = Some ew →
  ev_tid ew = t → ev_kind ew = wait1 → w ∈ preds → notified_wait1_predecessor h t preds = Ok w.
Proof.
  intros Hk Hw Hew Ht Hkw Hin. unfold notified_wait1_predecessor.
  destruct (find_if_total (λ p, e ← deref h p;
    Ok (tid_eqb (ev_tid e) t && kind_eqb (ev_kind e) wait1)) preds) as [y Hy].
  - intros q Hq. destruct (listed_kind k preds q Hk Hq) as (_ & eq & Heq & _).
    rewrite (deref_total h _ _ Heq). apply returns_ok.
  - exists w. split; [done|]. rewrite (deref_total h _ _ Hew). simpl.
    by rewrite Hkw, Ht, (proj2 (tid_eqb_spec t t)).
  - rewrite Hy. simpl. f_equal. apply find_if_some in Hy as [Hyp Hf].
    apply bind_ok in Hf as (ey & Hey%deref_ok & [= Hf]). asserts_prop.
    eapply (waiting_is_head u c Hco k t); [done | unfold cond_list; by rewrite Hk | by exists ey].
Qed.

Lemma signal_returns t k nt m' :
  machine_step (SignalThread t k nt) m = Some m' → returns (signal_thread h c t k nt).
Proof.
  step_inv Hs te et Hrun Hte Het Htt Hal Hrec Hroot. destruct Hs as [[Hk0 Hus] Hnt].
  unfold signal_thread. rewrite Hrun, bind_Ok_l.
  destruct Hnt as [[-> Hno]|[Hnr Hw]].
  - simpl. destruct (smap_find k (cf_cond_heads c)) as [preds|] eqn:Hk.
    + destruct (lost_total k preds te et t) as (prev & -> & _ & Hprev); try done; [by eapply conf_head|].
      rewrite bind_Ok_l. destruct (signal_lost_alloc t k te prev Hal Hk0 Hprev) as [e ->]. apply returns_ok.
    + rewrite (proj2 (N.ltb_lt 0 k)) by lia. simpl.
      destruct (signal_lost_alloc t k te [] Hal Hk0) as [e ->]; [by intros q ?%elem_of_nil | apply returns_ok].
  - apply waiting_inv in Hw as (w & ew & Hwh & Hw & Hew & Htw & Hkw & Hcw & Hin).
    assert (nt ≠ t) as Hne.
    { intros ->. apply running_head_ok in Hrun as [? (x & Hx & _ & Hn)]. congruence. }
    unfold cond_list in Hin. destruct (smap_find k (cf_cond_heads c)) as [preds|] eqn:Hk;
      [|by apply elem_of_nil in Hin].
    rewrite tid_empty_ne, tid_eqb_ne, Hwh, (notified_wait1_total k preds nt w ew) by done.
    simpl. rewrite bool_decide_true by done. simpl. unfold alloc_signal.
    destruct (event_of_preds_total h (conf_wf u c Hco) t (Signal te [w] k) te (Some w) [])
      as (e & -> & _ & Hd); [by eapply alive_pred | intros q [= <-]; eauto | by intros q ?%elem_of_nil|].
    rewrite bind_Ok_l, alive_check, bind_Ok_l by done.
    unfold signal_wait_predecessor, cps_lost. rewrite Hd, (deref_total h _ _ Hew). simpl. rewrite Hkw. simpl.
    rewrite bool_decide_true by done. simpl.
    rewrite Htw, tid_empty_ne, tid_eqb_ne, Hcw, N.eqb_refl, (proj2 (N.eqb_neq k 0)) by done. apply returns_ok.
Qed.

(** ** Broadcasts *)

Lemma broadcast_groups_total k cps :
  (∀ q, q ∈ cps → at_event h q (λ e, ev_cid e = k ∧
    (ev_kind e = condition_variable_create ∨ ev_kind e = wait1 ∨ ev_kind e = signal ∨
      ev_kind e = broadcast))) →
  ∃ w sb cr, broadcast_groups h k cps = Ok (w, sb, cr) ∧
    (∀ q, q ∈ w → at_event h q (λ e, ev_kind e = wait1)) ∧
    (∀ q, q ∈ sb → at_event h q (λ e, ev_kind e = signal ∨ ev_kind e = broadcast)) ∧
    (∀ q, q ∈ cr → at_event h q (λ e, ev_kind e = condition_variable_create)).
Proof.
  intros Hc. destruct (for_each_total (λ '(w, sb, cr),
    (∀ q, q ∈ w → at_event h q (λ e, ev_kind e = wait1)) ∧
    (∀ q, q ∈ sb → at_event h q (λ e, ev_kind e = signal ∨ ev_kind e = broadcast)) ∧
    (∀ q, q ∈ cr → at_event h q (λ e, ev_kind e = condition_variable_create)))
    (λ '(w, sb, cr) p,
      ep ← deref h p;
      match ev_kind ep with
      | condition_variable_create =>
          _ ← cassert (ev_cid ep =? k)%N; Ok (w, sb, cr ++ [p])
      | wait1 => _ ← cassert (ev_cid ep =? k)%N; Ok (w ++ [p], sb, cr)
      | signal | broadcast => _ ← cassert (ev_cid ep =? k)%N; Ok (w, sb ++ [p], cr)
      | _ => Err AssertFailed
      end) ([], [], []) cps) as ([[w sb] cr] & Hg & Hk).
  - split_and!; by intros q ?%elem_of_nil.
  - intros q [[w sb] cr] Hq (Hw & Hsb & Hcr). destruct (Hc q Hq) as (eq & Heq & Hck & Hki).
    rewrite (deref_total h _ _ Heq), bind_Ok_l, Hck, N.eqb_refl.
    assert (at_event h q (λ e, ev_kind e = ev_kind eq)) as Hat by (by exists eq).
    destruct Hki as [Hki|[Hki|[Hki|Hki]]]; rewrite Hki in *; simpl; (eexists (_, _, _); split; [done|]);
      split_and!; try done; intros q' [Hq'| ->%list_elem_of_singleton]%elem_of_app; auto;
      exists eq; auto.
  - by exists w, sb, cr.
Qed.

Lemma filter_res_nodup {A} (f : A → res bool) l r : NoDup l → filter_res f l = Ok r → NoDup r.
Proof.
  revert r. induction l as [|x l IH]; intros r Hnd Hr; simpl in Hr.
  { injection Hr as <-. constructor. }
  apply NoDup_cons in Hnd as [Hx Hnd].
  apply bind_ok in Hr as (b & _ & (r' & Hr' & [= <-])%bind_ok). specialize (IH r' Hnd Hr').
  destruct b; [|done]. constructor; [|done]. intros Hin. apply Hx. by eapply filter_res_sub.
Qed.

(** A configuration creates a condition variable once. *)
Lemma one_creation k preds l :
  smap_find k (cf_cond_heads c) = Some preds → NoDup l → (∀ q, q ∈ l → q ∈ preds) →
  (∀ q, q ∈ l → at_event h q (λ e, ev_kind e = condition_variable_create)) → length l ≤ 1.
Proof.
  intros Hk Hnd Hsub Hcr. destruct l as [|x [|y l]]; simpl; [lia | lia|]. exfalso.
  apply NoDup_cons in Hnd as [Hx _]. apply Hx.
  assert (x ∈ x :: y :: l) as Hx1 by (by left). assert (y ∈ x :: y :: l) as Hy1 by (right; by left).
  destruct (listed_kind k preds x Hk (Hsub x Hx1)) as (HCx & ex & Hex & Hcx & _).
  destruct (listed_kind k preds y Hk (Hsub y Hy1)) as (HCy & ey & Hey & Hcy & _).
  destruct (Hcr x Hx1) as (x' & ? & Hkx). destruct (Hcr y Hy1) as (y' & ? & Hky).
  assert (causal_le h x y) as Hxy by (eapply (co_first _ _ Hco x y ex ey); congruence).
  assert (causal_le h y x) as Hyx by (eapply (co_first _ _ Hco y x ey ex); congruence).
  apply causal_le_alt in Hxy as [->|Hxy]; [by left|]. exfalso.
  eapply (causal_lt_irrefl h y); [apply (conf_wf u c Hco)|]. by eapply causal_le_lt_trans.
Qed.

Lemma broadcast_lost_alloc t k te prev :
  alive h t te → k ≠ 0%N → NoDup prev → (∀ q, q ∈ prev → lost_pred t k q) →
  (prev = [] ∨ ∃ preds, smap_find k (cf_cond_heads c) = Some preds ∧ ∀ q, q ∈ prev → q ∈ preds) →
  returns (alloc_broadcast h t k te prev).
Proof.
  intros Hal Hk0 Hnd Hprev Hsub. unfold alloc_broadcast. cbv zeta.
  destruct (broadcast_groups_total k (sort_ptrs prev)) as (w & sb & cr & Hg & Hw & Hsb & Hcr).
  { intros q Hq. rewrite sort_ptrs_elem in Hq. destruct (Hprev q Hq) as (x & Hx & Hxc & Hxk).
    exists x. naive_solver. }
  pose proof (broadcast_groups_perm _ _ _ _ _ _ Hg) as Hperm.
  assert (sort_ptrs prev ≡ₚ prev) as Hsort by apply merge_sort_Permutation.
  assert (∀ q, q ∈ w ++ sb ++ cr → q ∈ prev) as Hin by (intros q; by rewrite Hperm, sort_ptrs_elem).
  assert (w = []) as ->.
  { destruct w as [|q w]; [done|]. exfalso. destruct (Hw q) as (x & Hx & Hk); [by left|].
    destruct (Hprev q) as (x' & Hx' & _ & Hk'); [apply Hin; by left|].
    assert (x' = x) as -> by congruence. destruct Hk' as [?|[[? _]|[? _]]]; congruence. }
  assert (length cr ≤ 1) as Hcr1.
  { destruct Hsub as [->|(preds & Hk & Hsub)].
    - destruct cr as [|q cr]; [simpl; lia|]. exfalso. eapply elem_of_nil, (Hin q). set_solver.
    - apply (one_creation k preds); try done.
      + rewrite <-Hsort, <-Hperm in Hnd. by apply NoDup_app in Hnd as (_ & _ & (_ & _ & ?)%NoDup_app).
      + intros q Hq. apply Hsub, Hin. set_solver. }
  rewrite Hg, bind_Ok_l.
  destruct (event_of_preds_total h (conf_wf u c Hco) t (Broadcast te ([] ++ sb ++ cr) (length ([] : list eid)) k)
    te None (sort_ptrs prev)) as (e & -> & _); [by eapply alive_pred | done | |].
  { apply sort_ptrs_stored. intros q (x & Hx & _)%Hprev. eauto. }
  cbn [length Nat.eqb orb Nat.ltb Nat.leb app cassert].
  rewrite !bind_Ok_l. rewrite (proj2 (Nat.leb_le _ _) Hcr1), (proj2 (N.eqb_neq k 0)) by done.
  cbn [cassert negb]. rewrite !bind_Ok_l, alive_check by done. cbn [for_each]. rewrite !bind_Ok_l.
  rewrite for_each_check; [apply returns_ok|]. intros q Hq.
  destruct (Hprev q) as (x & Hx & Hxc & Hxk); [by apply Hin|].
  rewrite (deref_total h _ _ Hx). simpl.
  destruct Hxk as [->|[(-> & -> & nt & -> & Hnt)|(-> & -> & ->)]]; simpl; [done| |done].
  by rewrite Hnt.
Qed.

Lemma broadcast_notified_total t k preds nts te :
  smap_find k (cf_cond_heads c) = Some preds → running_head h c t = Ok te →
  (∀ n, n ∈ nts → n ∈ waiters m k) → returns (broadcast_notified h c t preds nts).
Proof.
  intros Hk Hrun Hn. unfold broadcast_notified.
  destruct (for_each_total (λ _ : list eid, True) (λ acc nid,
    _ ← cassert (negb (tid_eqb nid t));
    ne ← waiting_head h c nid;
    ce ← notified_wait1_predecessor h nid preds;
    _ ← cassert (bool_decide (ce = ne));
    Ok (acc ++ [ne])) [] nts) as (l & Hl & _); [done| |by exists l].
  intros n acc Hin _. apply Hn, waiting_inv in Hin as (w & ew & Hwh & Hw & Hew & Htw & Hkw & Hcw & Hin).
  assert (n ≠ t) as Hne.
  { intros ->. apply running_head_ok in Hrun as [? (x & Hx & _ & Hk')]. congruence. }
  unfold cond_list in Hin. rewrite Hk in Hin. simpl in Hin.
  rewrite tid_eqb_ne, Hwh, (notified_wait1_total k preds n w ew) by done. simpl.
  rewrite bool_decide_true by done. by eexists.
Qed.

(** The signals that a notifying broadcast has to come after. *)
Lemma broadcast_previous_total t k preds nts te :
  smap_find k (cf_cond_heads c) = Some preds → in_conf u c te →
  ∃ prev, broadcast_previous h t te preds nts = Ok prev ∧ ∀ q, q ∈ prev → q ∈ preds ∧
    at_event h q (λ e, ev_cid e = k ∧ ev_kind e = signal ∧ signal_is_lost h e = Ok false ∧
      ∃ nt, signal_notified_thread h e = Ok nt ∧ nt ≠ t ∧ nt ∉ nts).
Proof.
  intros Hk HCt. assert (returns (broadcast_previous h t te preds nts)) as [prev Hp].
  { unfold broadcast_previous. apply filter_res_total. intros q Hq.
    destruct (listed_kind k preds q Hk Hq) as (HCq & eq & Heq & _ & Hki).
    rewrite (deref_total h _ _ Heq), bind_Ok_l.
    destruct Hki as [Hki|[Hki|[Hki|Hki]]]; rewrite Hki; try apply returns_ok.
    destruct (signal_queries q eq Heq Hki) as [-> [nt ->]]. rewrite bind_Ok_l.
    destruct (bool_decide _); rewrite !bind_Ok_l; first [apply returns_ok | by apply filter_tail]. }
  exists prev. split; [done|]. intros q Hq. unfold broadcast_previous in Hp.
  pose proof (filter_res_sub _ _ _ _ Hp Hq) as Hin. split; [done|].
  apply (filter_res_kept _ _ _ q) in Hp; [|done].
  destruct (listed_kind k preds q Hk Hin) as (_ & eq & Heq & Hc & Hki).
  apply bind_ok in Hp as (x & Hx%deref_ok & Hp). assert (x = eq) as -> by congruence.
  apply bind_ok in Hp as (skip & Hs & Hb). destruct skip; [done|]. exists eq.
  destruct Hki as [Hki|[Hki|[Hki|Hki]]]; rewrite Hki in *; try done.
  apply bind_ok in Hs as ([] & Hl & Hs); [done|]. apply bind_ok in Hs as (nt & Hnt & [= Hs]).
  apply orb_false_iff in Hs as [Hs1 Hs2]. split_and!; try done. exists nt. split_and!; [done| |].
  - intros ->. by rewrite (proj2 (tid_eqb_spec t t)) in Hs1.
  - intros Hnin. apply not_true_iff_false in Hs2. apply Hs2. apply existsb_exists. exists nt.
    split; [by apply list_elem_of_In | by apply tid_eqb_spec].
Qed.

Lemma broadcast_notifying_alloc t k te preds nts waits prev n0 :
  smap_find k (cf_cond_heads c) = Some preds → running_head h c t = Ok te → alive h t te → k ≠ 0%N →
  n0 ∈ nts → broadcast_notified h c t preds nts = Ok waits →
  (∀ q, q ∈ prev → q ∈ preds ∧
    at_event h q (λ e, ev_cid e = k ∧ ev_kind e = signal ∧ signal_is_lost h e = Ok false ∧
      ∃ nt, signal_notified_thread h e = Ok nt ∧ nt ≠ t ∧ nt ∉ nts)) →
  returns (alloc_broadcast h t k te (waits ++ prev)).
Proof.
  intros Hk Hrun Hal Hk0 Hn0 Hno Hprev.
  destruct (broadcast_notified_ok u c _ _ _ _ Hno) as [Hw1 Hw2].
  assert (∀ q, q ∈ waits → at_event h q (λ e, ev_cid e = k ∧ ev_kind e = wait1 ∧ ev_tid e ∈ nts ∧
    ev_tid e ≠ t ∧ ev_tid e ≠ tid_root)) as Hwait.
  { intros q Hq. destruct (Hw1 q Hq) as (n & Hn & Hf). destruct (Hw2 n Hn) as (w & Hf' & _ & Hp & ew & Hew & Hkw).
    assert (w = q) as -> by congruence.
    destruct (ho_head _ _ (conf_heads u c Hco) n q Hf) as (x & Hx & Hxt & Hxk).
    assert (x = ew) as -> by congruence.
    destruct (listed_kind k preds q Hk Hp) as (_ & y & Hy & Hyc & _). assert (y = ew) as -> by congruence.
    exists ew. rewrite Hxt. split_and!; try done.
    - intros ->. apply running_head_ok in Hrun as [? (z & Hz & _ & Hzk)]. congruence.
    - intros ->. by apply Hxk, (wf_tid _ _ (conf_wf u c Hco _ _ Hew)). }
  unfold alloc_broadcast. cbv zeta.
  destruct (broadcast_groups_total k (sort_ptrs (waits ++ prev))) as (w & sb & cr & Hg & Hw & Hsb & Hcr).
  { intros q Hq. rewrite sort_ptrs_elem in Hq. apply elem_of_app in Hq as [Hq|Hq].
    - destruct (Hwait q Hq) as (x & Hx & ? & ? & _). exists x. naive_solver.
    - destruct (Hprev q Hq) as (_ & x & Hx & ? & ? & _). exists x. naive_solver. }
  pose proof (broadcast_groups_perm _ _ _ _ _ _ Hg) as Hperm.
  assert (∀ q, q ∈ w ++ sb ++ cr ↔ q ∈ waits ∨ q ∈ prev) as Hin.
  { intros q. by rewrite Hperm, sort_ptrs_elem, elem_of_app. }
  assert (∀ q, q ∈ w → q ∈ waits) as Hww.
  { intros q Hq. destruct (Hw q Hq) as (x & Hx & Hkx).
    destruct (proj1 (Hin q)) as [?|Hp]; [apply elem_of_app; by left | done|].
    destruct (Hprev q Hp) as (_ & y & Hy & _ & ? & _). congruence. }
  assert (cr = []) as ->.
  { destruct cr as [|q cr]; [done|]. exfalso. destruct (Hcr q) as (x & Hx & Hkx); [by left|].
    destruct (proj1 (Hin q)) as [Hq|Hq]; [set_solver| |].
    - destruct (Hwait q Hq) as (y & Hy & _ & ? & _). congruence.
    - destruct (Hprev q Hq) as (_ & y & Hy & _ & ? & _). congruence. }
  assert (0 < length w) as Hlen.
  { destruct (Hw2 n0 Hn0) as (q & _ & Hq & _ & x & Hx & Hkx).
    assert (q ∈ w) as Hqw.
    { pose proof (proj2 (Hin q) (or_introl Hq)) as Hq'. rewrite app_nil_r in Hq'.
      apply elem_of_app in Hq' as [?|Hq']; [done|].
      destruct (Hsb q Hq') as (y & Hy & Hky). assert (y = x) as -> by congruence.
      rewrite Hkx in Hky. by destruct Hky. }
    destruct w; [by apply elem_of_nil in Hqw | simpl; lia]. }
  rewrite Hg, bind_Ok_l.
  destruct (event_of_preds_total h (conf_wf u c Hco) t (Broadcast te (w ++ sb ++ []) (length w) k)
    te None (sort_ptrs (waits ++ prev))) as (e & -> & _); [by eapply alive_pred | done | |].
  { apply sort_ptrs_stored. intros q [Hq|Hq]%elem_of_app.
    - destruct (Hwait q Hq) as (x & Hx & _). eauto.
    - destruct (Hprev q Hq) as (_ & x & Hx & _). eauto. }
  rewrite bind_Ok_l. cbn [length Nat.eqb Nat.leb]. rewrite orb_true_r.
  rewrite (proj2 (N.eqb_neq k 0)), (proj2 (Nat.ltb_lt 0 _) Hlen) by done. cbn [cassert negb].
  rewrite !bind_Ok_l, alive_check, bind_Ok_l by done.
  rewrite (for_each_check _ w); [rewrite bind_Ok_l|].
  2: { intros q Hq. destruct (Hwait q (Hww q Hq)) as (x & Hx & _ & _ & _ & Hxt & Hxr).
       rewrite (deref_total h _ _ Hx). simpl. by rewrite tid_empty_ne, tid_eqb_ne by done. }
  rewrite for_each_check; [apply returns_ok|]. intros q Hq. destruct (proj1 (Hin q) Hq) as [Hqw|Hqp].
  - destruct (Hwait q Hqw) as (x & Hx & _ & Hkx & _ & Hxt & _).
    rewrite (deref_total h _ _ Hx). simpl. rewrite Hkx. simpl. by rewrite tid_eqb_ne.
  - destruct (Hprev q Hqp) as (_ & x & Hx & _ & Hkx & Hl & nt & Hnt & Hnt1 & Hnt2).
    rewrite (deref_total h _ _ Hx). simpl. rewrite Hkx. simpl. rewrite Hl. simpl. rewrite Hnt. simpl.
    rewrite tid_eqb_ne by done. simpl. apply for_each_check. intros q' Hq'.
    destruct (Hwait q' (Hww q' Hq')) as (y & Hy & _ & _ & Hyn & _).
    rewrite (deref_total h _ _ Hy). simpl. rewrite tid_eqb_ne; [done|]. by intros ->.
Qed.

Lemma broadcast_returns t k nts m' :
  machine_step (BroadcastThreads t k nts) m = Some m' → returns (broadcast_threads h c t k nts).
Proof.
  step_inv Hs te et Hrun Hte Het Htt Hal Hrec Hroot. destruct Hs as [[Hk0 Hus] Hw].
  unfold broadcast_threads. rewrite Hrun, bind_Ok_l. pose proof (conf_head u c t te Hte) as HCt.
  destruct (smap_find k (cf_cond_heads c)) as [preds|] eqn:Hk, nts as [|n0 nts].
  - destruct (lost_total k preds te et t) as (prev & Hp & Hsub & Hprev); try done.
    rewrite Hp, bind_Ok_l. destruct (broadcast_lost_alloc t k te prev) as [e ->]; try done.
    + unfold lost_notification_predecessors_cond in Hp. apply bind_ok in Hp as (? & _ & Hp).
      eapply filter_res_nodup; [|done]. pose proof (co_nodup _ _ Hco k) as Hnd.
      unfold cond_list in Hnd. by rewrite Hk in Hnd.
    + right. eauto.
    + apply returns_ok.
  - assert (∀ n, n ∈ n0 :: nts → n ∈ waiters m k) as Hall.
    { intros n Hn. rewrite Hw. by apply elem_of_list_to_set. }
    destruct (broadcast_notified_total t k preds (n0 :: nts) te) as [waits Hwt]; try done.
    destruct (broadcast_previous_total t k preds (n0 :: nts) te Hk HCt) as (prev & Hp & Hprev).
    rewrite Hwt, bind_Ok_l, Hp, bind_Ok_l.
    destruct (broadcast_notifying_alloc t k te preds (n0 :: nts) waits prev n0) as [e ->]; try done;
      [by left | apply returns_ok].
  - rewrite (proj2 (N.ltb_lt 0 k)) by lia. cbn [cassert]. rewrite bind_Ok_l.
    destruct (broadcast_lost_alloc t k te []) as [e ->]; try done; [constructor | by intros q ?%elem_of_nil
      | by left | apply returns_ok].
  - exfalso. rewrite (no_cond_waiters u c Hco k Hk) in Hw. set_solver.
Qed.

(** ** All operations *)

Lemma apply_op_returns o m' : machine_step o m = Some m' → returns (apply_op h c o).
Proof.
  destruct o; cbn [apply_op]; eauto using create_thread_returns, init_thread_returns,
    join_thread_returns, exit_thread_returns, create_lock_returns, destroy_lock_returns,
    acquire_lock_returns, release_lock_returns, create_cond_returns, destroy_cond_returns,
    wait1_returns, wait2_returns, signal_returns, broadcast_returns, local_returns.
Qed.

Lemma perform_returns o m' :
  admissible u c o → machine_step o m = Some m' →
  ∃ u' c' p, perform o u c = Ok (u', c', p) ∧ machine_of (uf_heap u') c' = m'.
Proof.
  intros Ha Hs. destruct (apply_op_returns o m' Hs) as [[c1 x] Hop].
  destruct (commit_performed u c o c1 x Hco Ha Hop) as (u2 & c2 & p & Hcom & _ & _).
  assert (perform o u c = Ok (u2, c2, p)) as Hp by (unfold perform; by rewrite Hop, bind_Ok_l).
  exists u2, c2, p. split; [done|]. pose proof (perform_takes u c Hco o u2 c2 p Ha Hp). congruence.
Qed.
End returns.
