(* ===== verification/SystemProps.v ===== *)
(** * The theorems about configurations

    What every reachable state of the system guarantees, and runs that show
    the hypotheses at work. *)

From stdpp Require Import base tactics list gmap numbers relations.
From S2P Require Import Prelude StdMap ThreadId Event Comb CombEnum CombProofs Cone Alloc Causality.
From S2P Require Import AllocProofs HeapExt Order Walks Demo Independence Unfolding Configuration.
From S2P Require Import ColorProofs UnfoldingProofs DedupProofs Scenario Dependence Heads Booking.
From S2P Require Import ConfInv OpBase OpProofs OpCond Startup System TraceProofs Machine.
From S2P Require Import MachineSteps MachineTotal.

(** ** Properties of the unfolding

    Independence is symmetric, cutoff marks reach exactly the events above
    the marked one, deduplication stores every event once and records exactly
    its immediate conflicts, and startup gives a configuration that satisfies
    its invariant. *)

Section properties.
Context {PL : Payload} {AL : Allocator}.
Implicit Types (h : heap) (e : event) (u : unfolding).

(** on well-formed events [is_independent_of] always returns, and it is
    symmetric, although the code distinguishes the kinds of the two events in
    nested [switch] statements that treat them differently. *)
Theorem independence_symmetric h a b :
  wf_event h a → wf_event h b → ids_nonzero a → ids_nonzero b →
  ∃ r, is_independent_of h a b = Ok r ∧ is_independent_of h b a = Ok r.
Proof. intros. apply is_independent_of_sym; by apply wf_ind_facts. Qed.

(** C28: [mark_as_cutoff] terminates, changes nothing but cutoff marks, and
    afterwards exactly the old cutoffs and the events causally above or equal
    to the marked event are cutoffs. *)
Theorem mark_as_cutoff_exact u p :
  uf_ok u → is_Some (uf_heap u !! p) →
  ∃ h' n, mark_as_cutoff (uf_heap u) p = Ok (h', n) ∧ cut_eq (uf_heap u) h' ∧
    ∀ x, is_cut h' x ↔
      is_cut (uf_heap u) x ∨ (is_Some (uf_heap u !! x) ∧ causal_le (uf_heap u) p x).
Proof.
  intros Hok Hp. destruct (mark_as_cutoff_spec (uf_heap u) p) as (h' & n & Hm & Heq & Hc);
    [intros ??; by apply succ_stored | apply Hok | done |].
  exists h', n. split_and!; [done..|]. intros x. rewrite Hc, (reachable_causal u p x Hok Hp). done.
Qed.

(** C15: [deduplicate] of a new event whose causes are conflict-free returns
    and keeps the unfolding's invariant (index, distinctness of stored
    events, successor lists, symmetric conflicts, cutoff closure). The
    returned event equals the given one in every immutable field; if an equal
    event was stored already, that one is returned and no event is added;
    otherwise exactly one event is added, and its list of immediate conflicts
    holds exactly its immediate conflicts, each once. *)
Theorem deduplicate_correct u e :
  uf_ok u → new_event_ok (uf_heap u) e →
  ∃ u' unknown p, deduplicate e u = Ok (u', unknown, p) ∧ uf_ok u' ∧
    heap_ext (uf_heap u) (uf_heap u') ∧ uf_root u' = uf_root u ∧
    at_event (uf_heap u') p (same_core e) ∧
    (unknown = false ↔ ∃ v, known (uf_heap u) e v) ∧
    (unknown = false → known (uf_heap u) e p ∧
      ∀ q, is_Some (uf_heap u' !! q) ↔ is_Some (uf_heap u !! q)) ∧
    (unknown = true → uf_heap u !! p = None ∧
      (∀ q, is_Some (uf_heap u' !! q) ↔ q = p ∨ is_Some (uf_heap u !! q)) ∧
      at_event (uf_heap u') p (λ ep, NoDup (ev_immediate_conflicts ep) ∧
        ∀ s, s ∈ ev_immediate_conflicts ep ↔ immediate_conflict (uf_heap u') p ep s)).
Proof.
  intros Hok Hne. destruct (deduplicate_spec e u Hok Hne) as (u' & unk & p & Hd & Hdd).
  exists u', unk, p. split; [done|]. destruct Hdd as [Hok' Hext Hroot Hf Hc Hkn Hun].
  split_and!; [done..| | |].
  - destruct unk; split; [done | | naive_solver | done].
    intros [v Hv]. destruct (Hun eq_refl) as (_ & Hno & _). by destruct (Hno v).
  - intros Hu. destruct (Hkn Hu) as (Hk & Hfr & _). split; [done|]. intros q.
    specialize (Hfr q). split; intros [x Hx]; rewrite Hx in Hfr; inversion Hfr; eauto.
  - intros Hu. destruct (Hun Hu) as (Hp & _ & Hdom & ep & Hep & _ & Hn). split_and!; [done..|].
    by exists ep.
Qed.

(** deduplication is idempotent, also across later extensions of the
    unfolding: an event that was deduplicated once is found at the same
    address by every later call, and nothing is added. *)
Theorem deduplicate_idempotent u e u1 unknown p :
  uf_ok u → new_event_ok (uf_heap u) e → deduplicate e u = Ok (u1, unknown, p) →
  ∀ u2, uf_ok u2 → heap_ext (uf_heap u1) (uf_heap u2) →
  ∃ u3, deduplicate e u2 = Ok (u3, false, p) ∧ uf_ok u3.
Proof.
  intros Hok Hne Hd u2 Hok2 Hext.
  destruct (deduplicate_spec e u Hok Hne) as (u' & unk & p' & Hd' & Hdd).
  rewrite Hd in Hd'. injection Hd' as <- <- <-.
  by apply (deduplicate_again e u1 u2 p Hok2 (dd_found _ _ _ _ _ Hdd)).
Qed.

(** Adding between 1 and 65535 startup threads to a [configuration_root]
    and constructing the configuration returns, whatever the uninitialised
    size member held; the configuration satisfies its invariant, has one head
    per startup thread, and its size counts these events and [program_init]. *)
Theorem startup_correct garbage addr n :
  0 < n → (N.of_nat n < 65536)%N →
  ∃ r u c, add_threads n (new_configuration_root garbage) = Ok r ∧
    construct addr r = Ok (u, c) ∧ conf_ok u c ∧ sized u c ∧
    cf_addr c = addr ∧ cf_size c = S n ∧ length (cf_thread_heads c) = n.
Proof. apply startup_spec. Qed.
End properties.

(** ** The theorems at concrete unfoldings *)

Definition u0 : unfolding := new_unfolding 41.

(** The first event of thread [1]. *)
Definition first_event : event :=
  match alloc_thread_init (uf_heap u0) t1 (uf_root u0) with
  | Ok e => e
  | Err _ => program_init_event
  end.

Lemma first_event_ok : new_event_ok (uf_heap u0) first_event.
Proof.
  destruct (first_thread_extends u0 [] t1) as (e & He & _ & _ & Hx);
    [apply new_unfolding_ok | apply new_heads_ok | | done | done |].
  - intros x e _ [_ ->]%new_lookup. by left.
  - unfold first_event. rewrite He. eapply (extends_new u0 []);
      [apply new_unfolding_ok | apply new_heads_ok | done].
Qed.

Lemma mark_as_cutoff_exact_witness :
  ∃ h' n, mark_as_cutoff (uf_heap u0) (uf_root u0) = Ok (h', n) ∧ cut_eq (uf_heap u0) h' ∧
    ∀ x, is_cut h' x ↔ is_cut (uf_heap u0) x ∨
      (is_Some (uf_heap u0 !! x) ∧ causal_le (uf_heap u0) (uf_root u0) x).
Proof.
  apply (mark_as_cutoff_exact u0 (uf_root u0)); [apply new_unfolding_ok|].
  exists (root_event 41). vm_compute. reflexivity.
Defined.

Lemma deduplicate_correct_witness :
  ∃ u' unknown p, deduplicate first_event u0 = Ok (u', unknown, p) ∧ uf_ok u' ∧
    (unknown = false ↔ ∃ v, known (uf_heap u0) first_event v).
Proof.
  destruct (deduplicate_correct u0 first_event) as (u' & k & p & H1 & H2 & _ & _ & _ & H3 & _);
    [apply new_unfolding_ok | apply first_event_ok |].
  exists u', k, p. auto.
Defined.

Lemma startup_correct_witness :
  ∃ r u c, add_threads 3 (new_configuration_root 41) = Ok r ∧ construct 1 r = Ok (u, c) ∧
    conf_ok u c ∧ sized u c ∧ cf_addr c = 1%N ∧ cf_size c = 4 ∧ length (cf_thread_heads c) = 3.
Proof. apply (startup_correct 41 1 3); lia. Defined.

Section properties.
Context {PL : Payload} {AL : Allocator}.
Implicit Types (u : unfolding) (c : configuration) (o : operation).

(** C2: when an operation that respects the client's obligations hands out an
    extension, committing it returns, stores the extension's event or finds
    it in the unfolding, adds exactly this event to the configuration, counts
    it, changes no immutable field of any event and keeps the invariant of
    the unfolding and of the configuration. *)
Theorem operation_correct u c o c' x :
  conf_ok u c → admissible u c o → apply_op (uf_heap u) c o = Ok (c', x) →
  ∃ u'' c'' p, commit x u c' = Ok (u'', c'', p) ∧ conf_ok u'' c'' ∧
    heap_ext (uf_heap u) (uf_heap u'') ∧ at_event (uf_heap u'') p (same_core (ex_event x)) ∧
    ¬ in_conf u c p ∧ (∀ y, in_conf u'' c'' y ↔ y = p ∨ in_conf u c y) ∧
    cf_size c'' = S (cf_size c).
Proof.
  intros Hco Ha Hop. destruct (commit_performed u c o c' x Hco Ha Hop) as (u2 & c2 & p & H & [] & ?).
  exists u2, c2, p. done.
Qed.

(** C3: in every state that is reachable by operations that respect the client's
    obligations [admissible] every configuration satisfies its invariant
    and its size is the number of its events, whichever configurations share
    the unfolding and however their operations, copies and insertions of
    conflicting extensions interleave. *)
Theorem reachable_invariant s c :
  reachable_system s → c ∈ sy_confs s →
  conf_ok (sy_unfolding s) c ∧ sized (sy_unfolding s) c.
Proof. intros Hs Hc. by destruct (reachable_ok s Hs c Hc). Qed.

(** performing an operation on one configuration does not change the set
    of events of another one over the same unfolding, nor break its
    invariant. *)
Theorem configurations_isolated u c d o u' c' p :
  conf_ok u c → conf_ok u d → admissible u c o → perform o u c = Ok (u', c', p) →
  conf_ok u' d ∧ ∀ y, in_conf u' d y ↔ in_conf u d y.
Proof.
  intros Hc Hd Ha Hp. destruct (perform_spec o u c u' c' p Hc Ha Hp) as [Hok Hext Hroot _ _ _].
  split; [by eapply conf_ok_ext; [| apply Hok | |] | intros y; by apply kept_in].
Qed.

(** Two signals on one condition variable that both notify a thread. *)
Definition notifying_signals h ex ey : Prop :=
  ev_kind ex = signal ∧ ev_kind ey = signal ∧ ev_cid ex = ev_cid ey ∧ notified h ex ≠ [] ∧ notified h ey ≠ [].

(** C33: a configuration of a state that is reachable under the obligations
    [admissible] of the client is a trace, except for signals: it contains the
    causes of its events, and two of its events, unless they are signals on one
    condition variable that both notify a thread, are not recorded as immediate
    conflicts of each other and are causally ordered if [is_independent_of]
    calls them dependent. For two notifying signals the order is not
    established by the code: [admissible] demands it of the client, and
    [Findings.concurrent_signals_conflict] is a run without it. *)
Theorem configuration_is_trace s c :
  reachable_system s → c ∈ sy_confs s →
  let u := sy_unfolding s in
  (∀ x y, in_conf u c y → causal_le (uf_heap u) x y → in_conf u c x) ∧
  ∀ x y ex ey, in_conf u c x → in_conf u c y →
    uf_heap u !! x = Some ex → uf_heap u !! y = Some ey → ¬ notifying_signals (uf_heap u) ex ey →
    ¬ conflicts_of (uf_heap u) x y ∧
    (is_independent_of (uf_heap u) ex ey = Ok false →
      causal_le (uf_heap u) x y ∨ causal_le (uf_heap u) y x).
Proof.
  intros Hs Hc u. destruct (reachable_ok s Hs c Hc) as [Hco _ _]. split; [by apply conf_le|].
  intros x y ex ey Hx Hy Hex Hey _.
  pose proof (ho_dep _ _ (conf_heads u c Hco) x y ex ey Hx Hy Hex Hey) as Hdep. split; [|done].
  intros Hcf. pose proof (conf_uf u c Hco) as Hok.
  destruct (uo_dep _ Hok x y ex ey Hcf Hex Hey) as [Hi Hle]. apply uo_conf in Hcf as [_ Hcf]; [|done].
  destruct (uo_dep _ Hok y x ey ex Hcf Hey Hex) as [_ Hle']. by destruct (Hdep Hi).
Qed.

(** Iterating over a configuration of a reachable state terminates and
    visits exactly its events, each once, as many as its size says. *)
Theorem configuration_iteration_exact s c :
  reachable_system s → c ∈ sy_confs s →
  ∃ l, configuration_events (sy_unfolding s) c = Ok l ∧ NoDup l ∧
    (∀ x, x ∈ l ↔ in_conf (sy_unfolding s) c x) ∧ length l = cf_size c.
Proof.
  intros Hs Hc. destruct (reachable_ok s Hs c Hc) as [Hco (l' & Hnd' & Hl' & Hsz) Hne].
  destruct (events_spec _ c Hco Hne) as (l & Hl & Hnd & Hx). exists l. split_and!; [done..|].
  rewrite <-Hsz. apply Permutation_length, NoDup_Permutation; [done..|].
  intros x. by rewrite Hx, Hl'.
Qed.

(** C4: mutual exclusion. Of two acquisitions of one lock in a configuration
    (a [lock_acquire] or the [wait2] of a returning wait), one was given up
    by its own thread, through a [lock_release] or a [wait1] whose lock
    predecessor it is, causally before the other. *)
Theorem mutual_exclusion s c a b ea eb :
  reachable_system s → c ∈ sy_confs s →
  let u := sy_unfolding s in
  in_conf u c a → in_conf u c b → uf_heap u !! a = Some ea → uf_heap u !! b = Some eb → a ≠ b →
  acquires ea → acquires eb → ev_lid eb = ev_lid ea →
  released_before u c a b ∨ released_before u c b a.
Proof. intros Hs Hc u. apply exclusion, (reachable_ok s Hs c Hc). Qed.

(** C14: every [wait2] of a configuration completes the [wait1] before it on
    its thread after a signal or broadcast of the configuration notified that
    [wait1]; a [wait1] is notified at most once; a thread that waits goes on
    with the [wait2] only. *)
Theorem waits_are_paired s c :
  reachable_system s → c ∈ sy_confs s →
  let u := sy_unfolding s in
  (∀ x ex, in_conf u c x → uf_heap u !! x = Some ex → ev_kind ex = wait2 →
    ∃ w n, completes u c x w n) ∧
  (∀ n n' w, in_conf u c n → in_conf u c n' →
    notifies (uf_heap u) n w → notifies (uf_heap u) n' w → n = n') ∧
  (∀ x w, in_conf u c x → tpred (uf_heap u) w x →
    at_event (uf_heap u) w (λ e, ev_kind e = wait1) →
    at_event (uf_heap u) x (λ e, ev_kind e = wait2)).
Proof.
  intros Hs Hc u. destruct (reachable_ok s Hs c Hc) as [Hco _ _].
  split_and!; [by apply wait2_completes | by apply (co_one _ _ Hco) | by apply (co_wake _ _ Hco)].
Qed.

(** C34: the list kept for a live condition variable holds exactly the
    [wait1]s on it that no event of the configuration has notified, and each
    of them is causally after every broadcast and every lost signal on the
    variable, so none of these has missed it. *)
Theorem waiting_threads_exact s c k preds :
  reachable_system s → c ∈ sy_confs s →
  let u := sy_unfolding s in
  smap_find k (cf_cond_heads c) = Some preds →
  ∀ w, (w ∈ preds ∧ at_event (uf_heap u) w (λ e, ev_kind e = wait1) ↔
      in_conf u c w ∧ at_event (uf_heap u) w (λ e, ev_kind e = wait1 ∧ ev_cid e = k) ∧
      ∀ n, in_conf u c n → ¬ notifies (uf_heap u) n w) ∧
    (w ∈ preds → at_event (uf_heap u) w (λ e, ev_kind e = wait1) →
      ∀ x ex, in_conf u c x → uf_heap u !! x = Some ex → ev_cid ex = k →
        settled (uf_heap u) ex → causal_le (uf_heap u) x w).
Proof.
  intros Hs Hc u Hk w. destruct (reachable_ok s Hs c Hc) as [Hco _ _].
  split; [by apply waiting_exact|]. intros Hw Hat x ex HCx Hex Hcid Hset.
  apply (co_before _ _ Hco x w ex); try done. rewrite Hcid. unfold cond_list. by rewrite Hk.
Qed.
End properties.

(** ** A program with two threads, a lock and a condition variable *)

Ltac by_compute := refine (bool_decide_eq_true_1 _ _); vm_compute; reflexivity.

Definition t2 : thread_id := [1%N; 1%N].

Definition program : list operation :=
  [CreateThread t1 t2; InitThread t2 t1; CreateLock t1 1; CreateCond t1 2;
   AcquireLock t2 1; WaitBegin t2 2 1; AcquireLock t1 1; SignalThread t1 2 t2;
   ReleaseLock t1 1 false; WaitEnd t2 2 1; ReleaseLock t2 1 false; ExitThread t2 false;
   JoinThread t1 t2; DestroyCond t1 2; DestroyLock t1 1; ExitThread t1 false]%N.

(** The state after the first [n] operations. *)
Definition after (n : nat) : unfolding * configuration :=
  match checked_run 1 (take n program) with
  | Ok uc => uc
  | Err _ => (new_unfolding 0, Configuration 1 [] [] [] [] [] [] 0 0)
  end.
Definition state (n : nat) : system := System (after n).1 [(after n).2].

Lemma after_reachable n :
  match checked_run 1 (take n program) with Ok _ => true | Err _ => false end = true →
  reachable_system (state n).
Proof.
  unfold state, after. destruct (checked_run 1 (take n program)) as [[u c]|f] eqn:Hr; [|done].
  intros _. apply (checked_run_reachable 1 (take n program)); [lia | done | exact Hr].
Qed.

Lemma program_runs : cf_size (after 16).2 = 18 ∧ reachable_system (state 16).
Proof. split; [vm_compute; reflexivity | apply after_reachable; vm_compute; reflexivity]. Qed.

Lemma state_conf n : (after n).2 ∈ sy_confs (state n).
Proof. by left. Qed.

Definition listed_events (n : nat) : list eid :=
  match configuration_events (after n).1 (after n).2 with Ok l => l | Err _ => [] end.

Lemma in_after n x :
  reachable_system (state n) → x ∈ listed_events n → in_conf (after n).1 (after n).2 x.
Proof.
  intros Hs Hx. destruct (reachable_ok _ Hs _ (state_conf n)) as [Hco _ Hne].
  destruct (events_spec _ _ Hco Hne) as (l & Hl & _ & Hin). apply Hin.
  unfold listed_events in Hx. simpl in Hl. by rewrite Hl in Hx.
Qed.

Ltac reached := apply after_reachable; vm_compute; reflexivity.
Ltac in_run := apply in_after; [reached | by_compute].

Lemma operation_correct_witness :
  ∃ c' x, apply_op (uf_heap (after 7).1) (after 7).2 (SignalThread t1 2 t2) = Ok (c', x) ∧
  ∃ u'' c'' p, commit x (after 7).1 c' = Ok (u'', c'', p) ∧ conf_ok u'' c'' ∧
    ¬ in_conf (after 7).1 (after 7).2 p ∧ cf_size c'' = 10.
Proof.
  destruct (apply_op (uf_heap (after 7).1) (after 7).2 (SignalThread t1 2 t2)) as [[c' x]|f] eqn:Ho;
    [|exfalso; vm_compute in Ho; discriminate Ho].
  exists c', x. split; [reflexivity|].
  destruct (operation_correct (after 7).1 (after 7).2 (SignalThread t1 2 t2) c' x)
    as (u2 & c2 & p & H1 & H2 & _ & _ & H3 & _ & H4).
  - apply (reachable_ok (state 7)); [reached | apply state_conf].
  - apply admissible_b_spec. vm_compute. reflexivity.
  - exact Ho.
  - exists u2, c2, p. split_and!; [done..|]. rewrite H4. vm_compute. reflexivity.
Defined.

Lemma reachable_invariant_witness :
  reachable_system (state 16) ∧ conf_ok (after 16).1 (after 16).2 ∧ sized (after 16).1 (after 16).2.
Proof.
  split; [reached|]. apply (reachable_invariant (state 16)); [reached | apply state_conf].
Defined.

Lemma configuration_is_trace_witness :
  (∀ x y, in_conf (after 16).1 (after 16).2 y → causal_le (uf_heap (after 16).1) x y →
    in_conf (after 16).1 (after 16).2 x) ∧ ¬ conflicts_of (uf_heap (after 16).1) 9%N 12%N.
Proof.
  destruct (configuration_is_trace (state 16) (after 16).2) as [Hcl Hp]; [reached | apply state_conf|].
  split; [exact Hcl|].
  destruct (uf_heap (after 16).1 !! 9%N) as [e9|] eqn:H9; [|exfalso; vm_compute in H9; discriminate H9].
  destruct (uf_heap (after 16).1 !! 12%N) as [e12|] eqn:H12; [|exfalso; vm_compute in H12; discriminate H12].
  apply (Hp 9%N 12%N e9 e12); [in_run | in_run | exact H9 | exact H12|].
  intros (Hk & _). vm_compute in H9. injection H9 as <-. discriminate Hk.
Defined.

Lemma configuration_iteration_exact_witness :
  ∃ l, configuration_events (after 16).1 (after 16).2 = Ok l ∧ NoDup l ∧
    (∀ x, x ∈ l ↔ in_conf (after 16).1 (after 16).2 x) ∧ length l = cf_size (after 16).2.
Proof.
  apply (configuration_iteration_exact (state 16) (after 16).2); [reached | apply state_conf].
Defined.

(** The [lock_acquire] of the signalling thread and the [wait2]. *)
Lemma mutual_exclusion_witness :
  released_before (after 16).1 (after 16).2 9%N 12%N ∨
  released_before (after 16).1 (after 16).2 12%N 9%N.
Proof.
  destruct (uf_heap (after 16).1 !! 9%N) as [ea|] eqn:Ha; [|exfalso; vm_compute in Ha; discriminate Ha].
  destruct (uf_heap (after 16).1 !! 12%N) as [eb|] eqn:Hb; [|exfalso; vm_compute in Hb; discriminate Hb].
  apply (mutual_exclusion (state 16) (after 16).2 9%N 12%N ea eb);
    [reached | apply state_conf | in_run | in_run | exact Ha | exact Hb | done | | |];
    vm_compute in Ha, Hb; injection Ha as <-; injection Hb as <-; [unfold acquires, kind_in; by_compute..|reflexivity].
Defined.

Lemma waits_are_paired_witness : ∃ w n, completes (after 16).1 (after 16).2 12%N w n.
Proof.
  destruct (waits_are_paired (state 16) (after 16).2) as [Hw _]; [reached | apply state_conf|].
  destruct (uf_heap (after 16).1 !! 12%N) as [eb|] eqn:Hb; [|exfalso; vm_compute in Hb; discriminate Hb].
  apply (Hw 12%N eb); [in_run | exact Hb|]. vm_compute in Hb. injection Hb as <-. reflexivity.
Defined.

(** After six operations thread [t2] waits. *)
Lemma waiting_threads_exact_witness :
  in_conf (after 6).1 (after 6).2 8%N ∧
  ∀ n, in_conf (after 6).1 (after 6).2 n → ¬ notifies (uf_heap (after 6).1) n 8%N.
Proof.
  destruct (waiting_threads_exact (state 6) (after 6).2 2%N [6%N; 8%N]) with (w := 8%N) as [[Hw _] _];
    [reached | apply state_conf | vm_compute; reflexivity|].
  destruct Hw as (H1 & _ & H2); [|split; [exact H1 | exact H2]].
  split; [by_compute|].
  destruct (uf_heap (after 6).1 !! 8%N) as [eb|] eqn:Hb; [|exfalso; vm_compute in Hb; discriminate Hb].
  exists eb. split; [exact Hb|]. vm_compute in Hb. injection Hb as <-. reflexivity.
Defined.

(** ** Configurations implement the abstract machine

    The operations of a configuration refine [machine_step], with equality of
    the abstract states and of the success of every step. *)

Section refinement.
Context {PL : Payload} {AL : Allocator}.
Implicit Types (u : unfolding) (c : configuration) (o : operation).

(** C1: on a configuration that satisfies its invariant, an operation that
    respects the client's obligations is performed exactly when the abstract
    machine can take the step, and then reaches the abstract state that the
    machine reaches; otherwise it stops at a failed assertion or other
    fault. *)
Theorem operations_refine_machine u c o :
  conf_ok u c → admissible u c o →
  match machine_step o (machine_of (uf_heap u) c) with
  | Some m' => ∃ u' c' p, perform o u c = Ok (u', c', p) ∧ machine_of (uf_heap u') c' = m'
  | None => ∃ f, perform o u c = Err f
  end.
Proof.
  intros Hco Ha. destruct (machine_step o _) as [m'|] eqn:Hs; [by apply perform_returns|].
  destruct (perform o u c) as [[[u' c'] p]|f] eqn:Hp; [|by exists f].
  by rewrite (perform_takes u c Hco o u' c' p Ha Hp) in Hs.
Qed.

End refinement.

(** ** The theorems on a run *)

Lemma operations_refine_machine_witness :
  match machine_step (SignalThread t1 2 t2) (machine_of (uf_heap (after 7).1) (after 7).2) with
  | Some m' => ∃ u' c' p, perform (SignalThread t1 2 t2) (after 7).1 (after 7).2 = Ok (u', c', p) ∧
      machine_of (uf_heap u') c' = m'
  | None => ∃ f, perform (SignalThread t1 2 t2) (after 7).1 (after 7).2 = Err f
  end.
Proof.
  apply (operations_refine_machine (after 7).1 (after 7).2 (SignalThread t1 2 t2)).
  - apply (reachable_ok (state 7)); [reached | apply state_conf].
  - apply admissible_b_spec. vm_compute. reflexivity.
Defined.

(** The machine runs the program, and the lock and the condition variable are
    destroyed at its end. *)
Definition machine_run (ops : list operation) (m : machine) : option machine :=
  foldl (λ om o, m ← om; machine_step o m) (Some m) ops.

Example program_on_machine :
  match machine_run program (machine_of (uf_heap (after 0).1) (after 0).2) with
  | Some m => mc_threads m !! t1 = Some Exited ∧ mc_threads m !! t2 = Some Exited ∧
      mc_locks m !! 1%N = Some LockDestroyed ∧ mc_conds m !! 2%N = Some CondDestroyed
  | None => False
  end.
Proof. vm_compute. repeat split. Qed.
