(* ===== verification/CexProofs.v ===== *)
(** * Conflicting extensions by acquisitions

    For an acquisition in a configuration, [cex_acquire] finds exactly the
    other points at which the same thread could have acquired the lock. *)

From stdpp Require Import base tactics list gmap numbers relations.
From S2P Require Import Prelude StdMap ThreadId Event Comb CombEnum CombProofs Cone Alloc Causality.
From S2P Require Import AllocProofs HeapExt Order Walks Demo EventProps Independence Unfolding.
From S2P Require Import Configuration Cex ColorProofs UnfoldingProofs DedupProofs Scenario.
From S2P Require Import Dependence Heads Booking ConfInv OpBase OpProofs OpCond Startup System.
From S2P Require Import TraceProofs MachineTotal SystemProps.

Section alternatives.
Context {PL : Payload} {AL : Allocator}.
Implicit Types (h : heap) (u : unfolding) (c : configuration) (x y q : eid) (m : option eid).

(** ** Where a lock can be acquired *)

Definition frees (e : event) : Prop := kind_in [lock_create; lock_release; wait1] e.

(** In the history [D] the last event on the lock is [m], and it leaves the
    lock free. *)
Definition free_at h (lid : lock_id_t) (D : eid → Prop) m : Prop :=
  match m with
  | None => ∀ x ex, D x → h !! x = Some ex → ev_lid ex ≠ lid
  | Some q => at_event h q (λ e, ev_lid e = lid ∧ frees e) ∧
      ∀ x ex, D x → h !! x = Some ex → ev_lid ex = lid → causal_le h x q
  end.

(** What has happened when an acquisition with the predecessors [et] and [m]
    takes place. *)
Definition history h (et : eid) m x : Prop :=
  causal_le h x et ∨ ∃ q, m = Some q ∧ causal_le h x q.

(** The acquisition [p] with predecessors [et] and [er] could have taken place
    after [m] instead. *)
Definition alternative h (p et : eid) (er : option eid) (lid : lock_id_t) m : Prop :=
  m ≠ er ∧ (∀ q, m = Some q → causal_lt h q p) ∧ free_at h lid (history h et m) m.

(** The acquisition of [lid] by [tid] after [et] and [m]. *)
Definition acquisition h (tid : thread_id) (lid : lock_id_t) (et : eid) m q : Prop :=
  at_event h q (λ e, ev_tid e = tid ∧ data_core (ev_data e) = LockAcquire et m lid false).

Section conf.
Context (u : unfolding) (c : configuration).
Hypothesis Hco : conf_ok u c.
Abbreviation h := (uf_heap u).

(** ** Extensions of a part of a configuration *)

Lemma conf_no_conflict x y : in_conf u c x → in_conf u c y → ¬ conflicts_of h x y.
Proof.
  intros Hx Hy Hc. pose proof (conf_uf u c Hco) as Hok. destruct (uo_conf _ Hok x y Hc) as [_ Hc'].
  destruct (conf_stored u c Hco x Hx) as [ex Hex], (conf_stored u c Hco y Hy) as [ey Hey].
  destruct (uo_dep _ Hok x y ex ey Hc Hex Hey) as [Hd Hn].
  destruct (uo_dep _ Hok y x ey ex Hc' Hey Hex) as [_ Hn'].
  by destruct (ho_dep _ _ (conf_heads u c Hco) x y ex ey Hx Hy Hex Hey Hd).
Qed.

(** An event that a constructor built over causes in the configuration, in
    place of the event [p] of the same thread. *)
Lemma alternative_new p et e :
  in_conf u c p → tpred h et p → allocated h e → ev_kind e ∉ [program_init; lock_destroy; thread_join] →
  thread_predecessor e = Some et →
  (∀ q, q ∈ predecessors e → in_conf u c q ∧ ¬ causal_le h p q) →
  first_on_lock h e → new_event_ok h e.
Proof.
  intros Hp Htp Hal Hk Het Hpr Hfl. pose proof (conf_wf u c Hco) as Hwf.
  assert (built h e) as Hb.
  { destruct (allocated_built h e Hal) as [->|?]; [|done]. destruct Hk. left. }
  assert (∀ x, below h x e → in_conf u c x) as Hin.
  { intros x (q & Hq & Hle). eapply (conf_le u c Hco); [by apply Hpr | done]. }
  pose proof (allocated_wf h e Hwf Hal) as Hwe. split; try done.
  - apply (allocated_ids h); [done|]. intros E. apply Hk. rewrite E. right. left.
  - apply (conflict_free_sub u (in_conf u c)); [apply (conf_free u c Hco) | done|].
    intros x y (q & Hq & Hle) Hxy. exists q. split; [done|]. by etrans.
  - intros x q Hx Hq Hqx. rewrite Het in Hq. injection Hq as <-.
    assert (x = p) as -> by (apply (cf_thread _ _ (conf_free u c Hco) x p et); auto).
    destruct Hx as (q & Hq & Hle). by apply (Hpr q Hq).
  - intros x ex Hx Hex Hnone. congruence.
  - intros tp j Hd _. apply Hk. unfold ev_kind. rewrite Hd. right. right. left.
  - intros x y Hx Hy. apply conf_no_conflict; auto.
  - by apply (built_fresh h).
  - intros q Hq Hcut. apply (built_cutoff u (in_conf u c) e q); try done; [apply Hco | apply (conf_free u c Hco)].
Qed.

(** Inserting such an event. *)
Lemma emplace_spec k (mk : heap → res event) (e : event) result :
  mk h = Ok e → new_event_ok h e →
  ∃ u' unknown q, emplace k mk (u, result) = Ok (u', result ++ [(unknown, q)]) ∧
    conf_ok u' c ∧ heap_ext h (uf_heap u') ∧ uf_root u' = uf_root u ∧
    at_event (uf_heap u') q (same_core e).
Proof.
  intros Hmk Hne. destruct (deduplicate_spec e u (conf_uf u c Hco) Hne) as (u' & b & q & Hdd & Hd).
  unfold emplace. rewrite Hmk, bind_Ok_l, Hdd, bind_Ok_l.
  exists (upd_stats (stats_inc_event_created k) u'), b, q. split; [done|]. split_and!.
  - apply conf_ok_stats.
    exact (conf_ok_ext u u' c Hco (dd_ok _ _ _ _ _ Hd) (dd_ext _ _ _ _ _ Hd) (dd_root _ _ _ _ _ Hd)).
  - exact (dd_ext _ _ _ _ _ Hd).
  - exact (dd_root _ _ _ _ _ Hd).
  - exact (dd_core _ _ _ _ _ Hd).
Qed.

Lemma leq_spec x y :
  in_conf u c x → in_conf u c y → ∃ b, is_less_than_eq h x y = Ok b ∧ (b = true ↔ causal_le h x y).
Proof.
  intros Hx Hy. unfold is_less_than_eq. case_bool_decide as Heq.
  { subst. exists true. split; [done|]. split; [reflexivity | done]. }
  destruct (is_less_than_decides h (in_conf u c) (conf_wf u c Hco) (conf_free u c Hco) x y Hx Hy)
    as (b & -> & Hb). exists b. split; [done|]. rewrite Hb, causal_le_alt. split; [by right|].
  intros [->|?]; done.
Qed.

(** Events on one lock are ordered. *)
Lemma lock_total x y ex ey :
  in_conf u c x → in_conf u c y → h !! x = Some ex → h !! y = Some ey →
  ev_lid ex ≠ 0%N → ev_lid ey = ev_lid ex → causal_le h x y ∨ causal_lt h y x.
Proof.
  intros Hx Hy Hex Hey Hl Heq. destruct (decide (x = y)) as [->|Hne]; [left; reflexivity|].
  destruct (co_chain _ _ Hco x y ex ey) as [(lp & Hlp & Hle)|(lp & Hlp & Hle)]; try done.
  - left. etrans; [done|]. apply causal_le_alt. right. by eapply lock_pred_lt.
  - right. eapply causal_le_lt_trans; [done|]. by eapply lock_pred_lt.
Qed.

Context (p et : eid) (er : option eid) (lid : lock_id_t) (known : bool) (e : event).
Hypothesis Hp : in_conf u c p.
Hypothesis He : h !! p = Some e.
Hypothesis Hd : ev_data e = LockAcquire et er lid known.

Let Hwf : wf_heap h := conf_wf u c Hco.

Lemma acq_lid : ev_lid e = lid ∧ lid ≠ 0%N.
Proof.
  assert (ev_lid e = lid) as Hl by (unfold ev_lid; by rewrite Hd). split; [done|]. rewrite <-Hl.
  apply (acquires_lid u c Hco p e He). unfold acquires, kind_in, ev_kind. rewrite Hd. left.
Qed.

Lemma et_tpred : tpred h et p.
Proof. exists e. split; [done|]. unfold thread_predecessor. by rewrite Hd. Qed.

Lemma et_lt : causal_lt h et p.
Proof. apply tc_once, tpred_imm, et_tpred. Qed.

Lemma below_in x : causal_lt h x p → in_conf u c x.
Proof. intros Hx. eapply (conf_le u c Hco); [exact Hp|]. apply causal_le_alt. by right. Qed.

(** The events on the lock before [p] lead up to its lock predecessor. *)
Lemma lock_before x ex :
  causal_lt h x p → h !! x = Some ex → ev_lid ex = lid →
  ∃ r, er = Some r ∧ causal_le h x r.
Proof.
  intros Hx Hex Hl. destruct acq_lid as [Hle Hn].
  destruct (chain_down u c Hco x p ex e) as (r & Hr & Hxr); try done; [congruence..|].
  exists r. split; [|done]. unfold lock_predecessor in Hr. by rewrite Hd in Hr.
Qed.

Lemma er_spec r :
  er = Some r → causal_lt h r p ∧ at_event h r (λ z, frees z ∧ ev_lid z = lid).
Proof.
  intros ->. split.
  - eapply (lock_pred_lt u); [exact He|]. unfold lock_predecessor. by rewrite Hd.
  - pose proof (wf_class _ _ (Hwf _ _ He)) as Hcl. unfold class_ok in Hcl. rewrite Hd in Hcl. exact Hcl.
Qed.

(** Below an event on the lock, the next one is its lock predecessor. *)
Lemma lock_step x ex y ey :
  causal_lt h y p → h !! y = Some ey → ev_lid ey = lid →
  causal_lt h x y → h !! x = Some ex → ev_lid ex = lid →
  ∃ r, lock_predecessor ey = Some r ∧ causal_le h x r.
Proof.
  intros Hy Hey Hly Hx Hex Hlx. destruct acq_lid as [_ Hn].
  apply (chain_down u c Hco x y ex ey); try done; [by apply below_in | congruence..].
Qed.

Lemma lock_pred_lock y ey r :
  causal_lt h y p → h !! y = Some ey → ev_lid ey = lid → lock_predecessor ey = Some r →
  causal_lt h r y ∧ at_event h r (λ z, ev_lid z = lid).
Proof.
  intros Hy Hey Hl Hr. split; [by eapply (lock_pred_lt u)|].
  pose proof (wf_class _ _ (Hwf _ _ Hey)) as Hcl. unfold class_ok, lock_predecessor, ev_lid in *.
  destruct (ev_data ey) as [| | | | | | |tp lp l|tp lp l k|tp lp l k| | |tp lp cps k l|tp np lp k l b| |] eqn:Hdy;
    try done; simplify_eq;
    first [ destruct Hcl as (z & Hz & _ & Hlz); by exists z
          | destruct Hcl as (z & Hz & _ & Hlz & _); by exists z
          | destruct Hcl as [(z & Hz & _ & Hlz & _) _]; by exists z
          | destruct Hcl as (_ & _ & z & Hz & _ & Hlz); by exists z ].
Qed.

(** ** An alternative acquisition *)

Lemma alternative_alloc m :
  alternative h p et er lid m →
  ∃ e', alloc_lock_acquire h (ev_tid e) lid et m = Ok e' ∧ new_event_ok h e' ∧
    ev_tid e' = ev_tid e ∧ ev_data e' = LockAcquire et m lid false.
Proof.
  intros (Hne & Hlt & Hfree). destruct acq_lid as [Hle Hn].
  assert (alive h (ev_tid e) et) as Hal.
  { pose proof (wf_thread_pred _ _ (Hwf _ _ He) et) as Ht. apply Ht.
    unfold thread_predecessor. by rewrite Hd. }
  assert (∀ q, m = Some q → is_Some (h !! q)) as Hst.
  { intros q Hq. apply (conf_stored u c Hco), below_in. by apply Hlt. }
  destruct (event_of_preds_total h Hwf (ev_tid e) (LockAcquire et m lid false) et m []) as (e' & Hev & Ht' & Hd');
    [by eapply alive_pred | done | by intros q ?%elem_of_nil|].
  assert (alloc_lock_acquire h (ev_tid e) lid et m = Ok e') as Hacq.
  { unfold alloc_lock_acquire. rewrite Hev, bind_Ok_l, (check_thread_predecessor_total h Hwf _ _ Hal), bind_Ok_l.
    destruct m as [q|].
    - destruct Hfree as [(eq & Heq & Hlq & Hfr) _]. rewrite (deref_total h _ _ Heq), bind_Ok_l, Hlq, N.eqb_refl.
      rewrite (proj2 (N.eqb_neq lid 0)) by done. unfold frees, kind_in in Hfr.
      rewrite !elem_of_cons, elem_of_nil in Hfr. destruct Hfr as [->|[->|[->|[]]]]; done.
    - simpl. by rewrite (proj2 (N.eqb_neq lid 0)). }
  exists e'. split_and!; [done | | done | done].
  assert (∀ q, q ∈ predecessors e' ↔ q = et ∨ m = Some q) as Hpr.
  { intros q. unfold predecessors. rewrite Hd'. apply two_predecessors_elem. }
  apply (alternative_new p et); [done | apply et_tpred | by eapply alloc_is_lock_acquire | | | |].
  - unfold ev_kind. rewrite Hd'. set_solver.
  - unfold thread_predecessor. by rewrite Hd'.
  - assert (∀ q, causal_lt h q p → in_conf u c q ∧ ¬ causal_le h p q) as Hlow.
    { intros q Hq. split; [by apply below_in|]. intros Hpq. apply (causal_lt_irrefl h p Hwf).
      by eapply causal_le_lt_trans. }
    intros q [->|Hq]%Hpr; [apply Hlow, et_lt | by apply Hlow, Hlt].
  - intros _ Hnone x ex (q & Hq & Hx) Hex. unfold lock_predecessor in Hnone. rewrite Hd' in Hnone. subst m.
    unfold ev_lid at 2. rewrite Hd'. apply (Hfree x ex); [|done].
    apply Hpr in Hq as [->|]; [by left | done].
Qed.

(** ** The candidates *)

(** [em] is the last event on the lock in the causes of [et]. *)
Definition last_before_et (em : option eid) : Prop :=
  (∀ x, em = Some x → causal_lt h x p ∧ causal_le h x et ∧ at_event h x (λ z, ev_lid z = lid)) ∧
  (∀ x ex, causal_lt h x p → h !! x = Some ex → ev_lid ex = lid → causal_le h x et →
    ∃ z, em = Some z ∧ causal_le h x z).

Definition free_event (q : eid) : Prop := at_event h q (λ z, ev_lid z = lid ∧ frees z).

(** The candidates that the code tries: [em] itself, and what comes between
    [em] and the lock predecessor of [er]. *)
Definition at_em (em m : option eid) : Prop := m = em ∧ ∀ q, m = Some q → free_event q.

Definition between (em : option eid) (from m : option eid) : Prop :=
  ∃ q r, m = Some q ∧ from = Some r ∧ causal_le h q r ∧ free_event q ∧
    ∀ z, em = Some z → ¬ causal_le h q z.

Lemma lock_order x y :
  causal_lt h x p → causal_lt h y p → at_event h x (λ z, ev_lid z = lid) →
  at_event h y (λ z, ev_lid z = lid) → causal_le h x y ∨ causal_lt h y x.
Proof.
  intros Hx Hy (ex & Hex & Hlx) (ey & Hey & Hly). destruct acq_lid as [_ Hn].
  apply (lock_total x y ex ey); try done; [by apply below_in | by apply below_in | congruence..].
Qed.

Lemma no_alternative em m :
  last_before_et em → em = er → ¬ alternative h p et er lid m.
Proof.
  intros [Hem Hlast] Heqm (Hne & Hlt & Hfree). destruct em as [r|]; symmetry in Heqm.
  - destruct (Hem r eq_refl) as (Hrp & Hret & er' & Her' & Hlr). destruct m as [q|].
    + destruct Hfree as [(eq & Heq & Hlq & _) Hall]. pose proof (Hlt q eq_refl) as Hqp.
      assert (causal_le h r q) as Hrq by (eapply Hall; [by left | done | done]).
      destruct (lock_before q eq Hqp Heq Hlq) as (r' & Hr' & Hqr). rewrite Heqm in Hr'. injection Hr' as <-.
      apply Hne. rewrite Heqm. f_equal. apply causal_le_alt in Hrq as [->|Hrq]; [done|].
      apply causal_le_alt in Hqr as [->|Hqr]; [done|]. apply causal_lt_dep in Hrq, Hqr; [lia | done..].
    + by eapply Hfree; [left | |].
  - destruct m as [q|]; [|by rewrite Heqm in Hne]. destruct Hfree as [(eq & Heq & Hlq & _) _].
    destruct (lock_before q eq (Hlt q eq_refl) Heq Hlq) as (r' & Hr' & _). congruence.
Qed.

Lemma alternative_iff em m r er' :
  last_before_et em → em ≠ er → er = Some r → h !! r = Some er' →
  alternative h p et er lid m ↔ at_em em m ∨ between em (lock_predecessor er') m.
Proof.
  intros [Hem Hlast] Hne Her Her'. destruct (er_spec r Her) as [Hrp (er2 & Her2 & _ & Hlr)].
  assert (er2 = er') as -> by congruence. split.
  - intros (Hmr & Hlt & Hfree). destruct m as [q|].
    + pose proof (Hlt q eq_refl) as Hqp. destruct Hfree as [Hfq Hall]. pose proof Hfq as (eq & Heq & Hlq & _).
      destruct em as [z|].
      * destruct (Hem z eq_refl) as (Hzp & Hzet & ez & Hez & Hlz).
        assert (causal_le h z q) as Hzq by (eapply Hall; [by left | done | done]).
        destruct (decide (q = z)) as [->|Hqz].
        { left. split; [done|]. by intros ? [= <-]. }
        right. destruct (lock_before q eq Hqp Heq Hlq) as (r' & Hr' & Hqr). rewrite Her in Hr'. injection Hr' as <-.
        apply causal_le_alt in Hqr as [->|Hqr]; [congruence|].
        destruct (lock_step q eq r er' Hrp Her' Hlr Hqr Heq Hlq) as (r'' & Hr'' & Hle).
        exists q, r''. split_and!; try done. intros ? [= <-] Hqz'.
        apply causal_le_alt in Hzq as [->|Hzq]; [done|]. apply causal_le_alt in Hqz' as [->|Hqz']; [done|].
        apply causal_lt_dep in Hzq, Hqz'; [lia | done..].
      * right. destruct (lock_before q eq Hqp Heq Hlq) as (r' & Hr' & Hqr). rewrite Her in Hr'. injection Hr' as <-.
        apply causal_le_alt in Hqr as [->|Hqr]; [congruence|].
        destruct (lock_step q eq r er' Hrp Her' Hlr Hqr Heq Hlq) as (r'' & Hr'' & Hle).
        exists q, r''. by split_and!.
    + left. split; [|done]. destruct em as [z|]; [|done].
      destruct (Hem z eq_refl) as (_ & Hzet & ez & Hez & Hlz). by destruct (Hfree z ez (or_introl Hzet) Hez).
  - assert (∀ x ex, causal_le h x et → h !! x = Some ex → ev_lid ex = lid → ∃ z, em = Some z ∧ causal_le h x z) as Het.
    { intros x ex Hx Hex Hl. apply (Hlast x ex); try done. eapply causal_le_lt_trans; [done | apply et_lt]. }
    intros [[-> Hfr]|(q & r' & -> & Hr' & Hqr & Hfq & Hnot)].
    + split; [done|]. split; [intros q Hq; by apply Hem|]. destruct em as [z|].
      * split; [by apply Hfr|]. intros x ex [Hx|(q & [= <-] & Hx)] Hex Hl; [|done].
        destruct (Het x ex Hx Hex Hl) as (? & [= <-] & ?). done.
      * intros x ex [Hx|(q & ? & _)] Hex Hl; [|done]. by destruct (Het x ex Hx Hex Hl) as (? & ? & _).
    + destruct (lock_pred_lock r er' r' Hrp Her' Hlr Hr') as [Hr'r Hlr'].
      assert (causal_lt h q r) as Hqrr by (by eapply causal_le_lt_trans).
      assert (causal_lt h q p) as Hqp by (by eapply causal_lt_trans).
      split; [|split; [by intros ? [= <-]|split; [done|]]].
      * rewrite Her. intros [= ->]. by apply (causal_lt_irrefl h r Hwf).
      * intros x ex [Hx|(? & [= <-] & Hx)] Hex Hl; [|done].
        destruct (Het x ex Hx Hex Hl) as (z & Hz & Hxz). destruct (Hem z Hz) as (Hzp & _ & Hlz).
        destruct (lock_order q z Hqp Hzp) as [Hqz|Hzq]; [|done| by destruct (Hnot z Hz)|].
        { destruct Hfq as (eq & Heq & ? & _). by exists eq. }
        etrans; [done|]. apply causal_le_alt. by right.
Qed.

Lemma descend_spec fuel : ∀ m0,
  (∀ x, m0 = Some x → causal_lt h x p ∧ at_event h x (λ z, ev_lid z = lid) ∧ dep h x < fuel) →
  ∃ em, descend_lock h fuel (λ z, b1 ← is_less_than_eq h z et; if (b1 : bool) then Ok false else Ok true) m0
      = Ok em ∧
    (∀ x, em = Some x → causal_lt h x p ∧ causal_le h x et ∧ at_event h x (λ z, ev_lid z = lid)) ∧
    (∀ x ex y, m0 = Some y → causal_le h x y → h !! x = Some ex → ev_lid ex = lid → causal_le h x et →
      ∃ z, em = Some z ∧ causal_le h x z).
Proof.
  induction fuel as [|fuel IH]; intros [m|] Hm.
  - destruct (Hm m eq_refl) as (_ & _ & ?). lia.
  - exists None. split_and!; [done | done | by intros x ex y].
  - destruct (Hm m eq_refl) as (Hmp & Hlm & Hdm). cbn [descend_lock].
    destruct (leq_spec m et) as (b & -> & Hb); [by apply below_in | apply below_in, et_lt|].
    rewrite bind_Ok_l. destruct b; rewrite bind_Ok_l; cbn [negb].
    + exists (Some m). split_and!; [done | |].
      * intros x [= <-]. split_and!; [done | by apply Hb | done].
      * intros x ex y [= <-] Hx _ _ _. eauto.
    + pose proof Hlm as (em & Hem & Hle). rewrite (deref_total h _ _ Hem), bind_Ok_l.
      destruct (IH (lock_predecessor em)) as (r & -> & H1 & H2).
      { intros x Hx. destruct (lock_pred_lock m em x Hmp Hem Hle Hx) as [Hxm Hlx].
        split_and!; [by eapply causal_lt_trans | done|]. apply causal_lt_dep in Hxm; [lia | done]. }
      exists r. split_and!; [done | done|]. intros x ex y [= <-] Hx Hex Hl Hxet.
      apply causal_le_alt in Hx as [->|Hx].
      { assert (false = true) by (by apply Hb). done. }
      destruct (lock_step x ex m em Hmp Hem Hle Hx Hex Hl) as (q & Hq & Hxq). by eapply H2.
  - exists None. split_and!; [done | done | by intros x ex y].
Qed.
End conf.

(** ** Inserting the candidates one after the other *)

Section insert.
Context (u : unfolding) (c : configuration) (p et : eid) (er : option eid) (lid : lock_id_t).
Context (known : bool) (e : event).
Hypothesis Hco : conf_ok u c.
Hypothesis Hp : in_conf u c p.
Hypothesis He : uf_heap u !! p = Some e.
Hypothesis Hd : ev_data e = LockAcquire et er lid known.
Implicit Types (st : cex_state) (P : option eid → Prop).
Abbreviation h := (uf_heap u).

(** A state of the computation, later than the start. *)
Record later st : Prop := {
  lt_conf : conf_ok st.1 c;
  lt_ext : heap_ext h (uf_heap st.1);
  lt_root : uf_root st.1 = uf_root u;
}.

(** Between two states, exactly the acquisitions in [P] were inserted. *)
Record grown st st' P : Prop := {
  gr_later : later st';
  gr_ext : heap_ext (uf_heap st.1) (uf_heap st'.1);
  gr_new : ∃ new, st'.2 = st.2 ++ new ∧
    (∀ k q, (k, q) ∈ new → ∃ m, P m ∧ acquisition (uf_heap st'.1) (ev_tid e) lid et m q) ∧
    (∀ m, P m → ∃ k q, (k, q) ∈ new ∧ acquisition (uf_heap st'.1) (ev_tid e) lid et m q);
}.

Lemma acquisition_ext h1 h2 tid m q :
  heap_ext h1 h2 → acquisition h1 tid lid et m q → acquisition h2 tid lid et m q.
Proof.
  intros Hext. apply (ext_at_event h1 h2 Hext). intros x y Hs. split; intros [H1 H2]; split.
  all: rewrite <-?(core_tid _ _ Hs), <-?(core_data _ _ Hs); try done.
  all: rewrite ?(core_tid _ _ Hs), ?(core_data _ _ Hs); done.
Qed.

Lemma grown_none st : later st → grown st st (λ _, False).
Proof.
  intros Hl. split; [done | reflexivity|]. exists []. split; [by rewrite app_nil_r|].
  split; [by intros k q ?%elem_of_nil | done].
Qed.

Lemma grown_app st st1 st2 P Q :
  grown st st1 P → grown st1 st2 Q → grown st st2 (λ m, P m ∨ Q m).
Proof.
  intros [_ Hx1 (n1 & Hn1 & Hs1 & Hc1)] [Hl2 Hx2 (n2 & Hn2 & Hs2 & Hc2)].
  split; [done | by etrans|]. exists (n1 ++ n2). split; [by rewrite Hn2, Hn1, app_assoc|]. split.
  - intros k q [Hin|Hin]%elem_of_app.
    + destruct (Hs1 k q Hin) as (m & HP & Ha). exists m. split; [by left | by eapply acquisition_ext].
    + destruct (Hs2 k q Hin) as (m & HP & Ha). exists m. split; [by right | done].
  - intros m [HP|HQ].
    + destruct (Hc1 m HP) as (k & q & Hin & Ha). exists k, q. split; [apply elem_of_app; by left | by eapply acquisition_ext].
    + destruct (Hc2 m HQ) as (k & q & Hin & Ha). exists k, q. split; [apply elem_of_app; by right | done].
Qed.

Lemma grown_iff st st' P Q : (∀ m, P m ↔ Q m) → grown st st' P → grown st st' Q.
Proof.
  intros Heq [Hl Hx (n & Hn & Hs & Hc)]. split; [done | done|]. exists n. split; [done|]. split.
  - intros k q Hin. destruct (Hs k q Hin) as (m & HP & Ha). exists m. split; [by apply Heq | done].
  - intros m HQ. by apply Hc, Heq.
Qed.

Lemma alternative_ext u' m :
  conf_ok u' c → heap_ext h (uf_heap u') → alternative h p et er lid m →
  alternative (uf_heap u') p et er lid m.
Proof.
  intros Hco' Hext (Hne & Hlt & Hfree). pose proof (conf_wf u c Hco) as Hwf.
  assert (is_Some (h !! p)) as Hsp by eauto.
  assert (∀ x y, in_conf u c y → causal_le (uf_heap u') x y → causal_le h x y) as Hback.
  { intros x y Hy. apply (ext_causal_le_inv h _ Hext Hwf). by apply (conf_stored u c Hco). }
  assert (∀ x, causal_lt h x p → in_conf u c x) as Hin by (by apply below_in).
  assert (∀ x, history (uf_heap u') et m x → history h et m x ∧ in_conf u c x) as Hhist.
  { intros x [Hx|(q & -> & Hx)].
    - pose proof (Hin et (et_lt u p et er lid known e He Hd)) as Het.
      apply Hback in Hx; [|done]. split; [by left | by eapply (conf_le u c Hco)].
    - pose proof (Hin q (Hlt q eq_refl)) as Hq. apply Hback in Hx; [|done].
      split; [right; eauto | by eapply (conf_le u c Hco)]. }
  assert (∀ x ex', in_conf u c x → uf_heap u' !! x = Some ex' → ∃ ex, h !! x = Some ex ∧ ev_lid ex = ev_lid ex') as Hev.
  { intros x ex' Hx Hex'. destruct (conf_stored u c Hco x Hx) as [ex Hex].
    destruct (Hext x ex Hex) as (ex2 & Hex2 & Hs). exists ex. split; [done|].
    assert (ex2 = ex') as <- by congruence. by rewrite Hs. }
  split; [done|]. split.
  - intros q Hq. apply (ext_causal_lt_iff h _ Hext Hwf q p Hsp). by apply Hlt.
  - destruct m as [q|].
    + destruct Hfree as [Hat Hall]. split.
      * eapply (ext_at_event h _ Hext); [|exact Hat]. intros a b Hs. unfold frees, kind_in. by rewrite Hs.
      * intros x ex' [Hx Hc]%Hhist Hex' Hl. destruct (Hev x ex' Hc Hex') as (ex & Hex & Hle).
        apply (ext_causal_le h _ Hext). apply (Hall x ex); [done | done | congruence].
    + intros x ex' [Hx Hc]%Hhist Hex'. destruct (Hev x ex' Hc Hex') as (ex & Hex & <-). by apply (Hfree x).
Qed.

Lemma emplace_alternative st m :
  later st → alternative h p et er lid m →
  ∃ st', emplace lock_acquire (λ h, alloc_lock_acquire h (ev_tid e) lid et m) st = Ok st' ∧
    grown st st' (λ m', m' = m).
Proof.
  intros Hl Ha. destruct st as [u1 result]. pose proof Hl as [Hco1 Hx1 Hr1]. cbn [fst snd] in *.
  destruct (Hx1 p e He) as (e1 & He1 & Hs).
  assert (∃ known1, ev_data e1 = LockAcquire et er lid known1) as [known1 Hd1].
  { pose proof (core_data _ _ Hs) as Hc. rewrite Hd in Hc. simpl in Hc.
    destruct (ev_data e1); try done. simpl in Hc. simplify_eq. eauto. }
  destruct (alternative_alloc u1 c Hco1 p et er lid known1 e1) with m as (e' & Halloc & Hne & Ht' & Hd');
    [|done..| by apply alternative_ext|].
  { by apply (kept_in u u1 c Hco Hx1 Hr1). }
  rewrite <-(core_tid _ _ Hs) in Halloc.
  destruct (emplace_spec u1 c Hco1 lock_acquire (λ h, alloc_lock_acquire h (ev_tid e) lid et m) e' result)
    as (u2 & b & q & -> & Hco2 & Hx2 & Hr2 & Hq); [done | done|].
  eexists. split; [done|]. split; simpl; [split; simpl; [done | by etrans | congruence] | done|].
  assert (acquisition (uf_heap u2) (ev_tid e) lid et m q) as Hacq.
  { destruct Hq as (eq & Heq & Hsq). exists eq. split; [done|].
    rewrite <-(core_tid _ _ Hsq), <-(core_data _ _ Hsq), Ht', Hd'. split; [symmetry; apply Hs | done]. }
  exists [(b, q)]. split; [done|]. split.
  - intros k q' Hin. apply list_elem_of_singleton in Hin as [= -> ->]. eauto.
  - intros m' ->. exists b, q. split; [left | done].
Qed.

Abbreviation last_before := (last_before_et u p et lid).
Abbreviation at_em := (at_em u lid).
Abbreviation between := (between u lid).
Abbreviation alt := (alternative h p et er lid).

Lemma later_event st x ex :
  later st → h !! x = Some ex → ∃ ex', uf_heap st.1 !! x = Some ex' ∧ same_core ex ex'.
Proof. intros Hl Hex. exact (lt_ext _ Hl x ex Hex). Qed.

Lemma frees_cases ex : frees ex ∨ ¬ frees ex.
Proof. unfold frees, kind_in. destruct (decide (ev_kind ex ∈ [lock_create; lock_release; wait1])); auto. Qed.

Lemma acq_kind : kind_eqb (ev_kind e) lock_acquire = true.
Proof. unfold ev_kind. by rewrite Hd. Qed.

Lemma acq_ev_lid : ev_lid e = lid.
Proof. unfold ev_lid. by rewrite Hd. Qed.

Lemma at_em_spec st em :
  later st → last_before em → (∀ m, at_em em m → alt m) →
  ∃ st', acquire_at_em e et None em st = Ok st' ∧ grown st st' (at_em em).
Proof.
  intros Hl [Hem _] Halt. unfold acquire_at_em. rewrite acq_kind, acq_ev_lid. destruct em as [z|].
  - destruct (Hem z eq_refl) as (_ & _ & ez & Hez & Hlz).
    destruct (later_event st z ez Hl Hez) as (ez' & Hez' & Hs). rewrite (deref_total _ _ _ Hez'), bind_Ok_l.
    rewrite <-(ev_kind_proper _ _ Hs). destruct (frees_cases ez) as [Hf|Hf].
    + destruct (emplace_alternative st (Some z) Hl) as (st' & Hst' & Hg).
      { apply Halt. split; [done|]. intros ? [= <-]. by exists ez. }
      exists st'. split.
      * unfold frees, kind_in in Hf. rewrite !elem_of_cons, elem_of_nil in Hf.
        destruct Hf as [->|[->|[->|[]]]]; done.
      * eapply grown_iff; [|exact Hg]. intros m. split; [|by intros [-> _]].
        intros ->. split; [done|]. intros ? [= <-]. by exists ez.
    + exists st. split.
      * unfold frees, kind_in in Hf. rewrite !elem_of_cons, elem_of_nil in Hf.
        destruct (ev_kind ez); tauto.
      * eapply grown_iff; [|by apply grown_none]. intros m. split; [done|]. intros [-> Hfr].
        destruct (Hfr z eq_refl) as (ez2 & Hez2 & _ & Hf2). assert (ez2 = ez) as -> by congruence. done.
  - destruct (emplace_alternative st None Hl) as (st' & Hst' & Hg); [by apply Halt|].
    exists st'. split; [done|]. eapply grown_iff; [|exact Hg]. intros m. split; [by intros -> | by intros [-> _]].
Qed.

Lemma between_step em x ex m :
  causal_lt h x p → h !! x = Some ex → ev_lid ex = lid → (∀ z, em = Some z → ¬ causal_le h x z) →
  between em (Some x) m ↔ (m = Some x ∧ frees ex) ∨ between em (lock_predecessor ex) m.
Proof.
  intros Hx Hex Hl Hnot. split.
  - intros (q & r & -> & [= <-] & Hqx & Hfq & Hn). apply causal_le_alt in Hqx as [->|Hqx].
    + left. split; [done|]. destruct Hfq as (ex' & ? & _ & ?). assert (ex' = ex) as <- by congruence. done.
    + right. pose proof Hfq as (eq & Heq & Hlq & _).
      destruct (lock_step u c Hco p et er lid known e Hp He Hd q eq x ex Hx Hex Hl Hqx Heq Hlq) as (r & Hr & Hle).
      exists q, r. by split_and!.
  - intros [[-> Hf]|(q & r & -> & Hr & Hqr & Hfq & Hn)].
    + exists x, x. split_and!; [done | done | reflexivity | by exists ex | done].
    + exists q, x. split_and!; [done | done | | done | done]. etrans; [done|]. apply causal_le_alt. right.
      by eapply (lock_pred_lt u).
Qed.

Lemma acquire_loop_spec fuel : ∀ from em st,
  later st → (∀ z, em = Some z → in_conf u c z) →
  (∀ x, from = Some x → causal_lt h x p ∧ at_event h x (λ z, ev_lid z = lid) ∧ dep h x < fuel) →
  (∀ m, between em from m → alt m) →
  ∃ st', acquire_loop fuel (λ h x,
      b1 ← match em with None => Ok true | Some m => b ← is_less_than_eq h x m; Ok (negb b) end;
      if negb b1 then Ok false else Ok true)
      (λ lp h, alloc_lock_acquire h (ev_tid e) lid et (Some lp)) true from st = Ok st' ∧
    grown st st' (between em from).
Proof.
  induction fuel as [|fuel IH]; intros [x|] em st Hl Hem Hfrom Halt.
  - destruct (Hfrom x eq_refl) as (_ & _ & ?). lia.
  - exists st. split; [done|]. eapply grown_iff; [|by apply grown_none]. intros m. split; [done|].
    by intros (q & r & _ & ? & _).
  - destruct (Hfrom x eq_refl) as (Hxp & (ex & Hex & Hlx) & Hdx).
    assert (in_conf u c x) as Hx by (by eapply below_in). cbn [acquire_loop]. cbv zeta.
    assert (∃ b1, (match em with None => Ok true
        | Some m => b ← is_less_than_eq (uf_heap st.1) x m; Ok (negb b) end) = Ok b1 ∧
      (b1 = true ↔ ∀ z, em = Some z → ¬ causal_le h x z)) as (b1 & -> & Hb1).
    { destruct em as [z|]; [|exists true; split; [done | naive_solver]].
      rewrite (ext_is_less_than_eq h _ (lt_ext _ Hl) (conf_wf u c Hco))
        by (apply (conf_stored u c Hco); auto).
      destruct (leq_spec u c Hco x z) as (b & -> & Hb); [done | by apply Hem|]. exists (negb b).
      split; [done|]. rewrite negb_true_iff. destruct b; split; try done.
      - intros Hn. by destruct (Hn z eq_refl); apply Hb.
      - intros _ ? [= <-] Hle. by apply Hb in Hle. }
    rewrite bind_Ok_l. destruct b1; cbn [negb]; rewrite bind_Ok_l; cbn [negb].
    2: { exists st. split; [done|]. eapply grown_iff; [|by apply grown_none]. intros m. split; [done|].
         intros (q & r & _ & [= <-] & Hqx & _ & Hn). assert (false = true); [|done]. apply Hb1.
         intros z Hz Hxz. apply (Hn z Hz). by etrans. }
    pose proof (proj1 Hb1 eq_refl) as Hnot.
    pose proof (λ m, between_step em x ex m Hxp Hex Hlx Hnot) as Hstep.
    destruct (later_event st x ex Hl Hex) as (ex' & Hex' & Hs).
    rewrite (deref_total _ _ _ Hex'), bind_Ok_l, <-(ev_kind_proper _ _ Hs), <-(lock_predecessor_proper _ _ Hs).
    assert (∃ st1, (match ev_kind ex with
        | lock_release | wait1 | lock_create =>
            emplace lock_acquire (λ h, alloc_lock_acquire h (ev_tid e) lid et (Some x)) st
        | _ => Ok st
        end) = Ok st1 ∧ grown st st1 (λ m, m = Some x ∧ frees ex)) as (st1 & Hst1 & Hg1).
    { destruct (frees_cases ex) as [Hf|Hf].
      - destruct (emplace_alternative st (Some x) Hl) as (st1 & Hst1 & Hg).
        { apply Halt, Hstep. by left. }
        exists st1. split; [|eapply grown_iff; [|exact Hg]; intros m; naive_solver].
        unfold frees, kind_in in Hf. rewrite !elem_of_cons, elem_of_nil in Hf.
        destruct Hf as [->|[->|[->|[]]]]; done.
      - exists st. split; [|eapply grown_iff; [|by apply grown_none]; intros m; naive_solver].
        unfold frees, kind_in in Hf. rewrite !elem_of_cons, elem_of_nil in Hf.
        destruct (ev_kind ex); tauto. }
    destruct (IH (lock_predecessor ex) em st1) as (st2 & Hst2 & Hg2).
    + apply Hg1.
    + done.
    + intros y Hy. assert (causal_lt h y x ∧ at_event h y (λ z, ev_lid z = lid)) as [Hyx Hly]
        by (eapply lock_pred_lock; eauto).
      split_and!; [by eapply causal_lt_trans | done|].
      apply causal_lt_dep in Hyx; [lia | apply (conf_wf u c Hco)].
    + intros m Hm. apply Halt, Hstep. by right.
    + exists st2. split.
      * destruct (ev_kind ex); rewrite Hst1, bind_Ok_l; exact Hst2.
      * eapply grown_iff; [|by eapply grown_app]. intros m. by rewrite Hstep.
  - exists st. split; [done|]. eapply grown_iff; [|by apply grown_none]. intros m. split; [done|].
    by intros (q & r & _ & ? & _).
Qed.

Lemma cex_acquire_spec :
  ∃ st, cex_acquire p u = Ok st ∧
    grown (u, []) st (λ m, at_event h et (λ z, ev_is_cutoff z = false) ∧ alt m).
Proof.
  assert (later (u, [])) as Hl by (split; [done | reflexivity | done]).
  assert (causal_lt h et p) as Hetp by (by eapply et_lt).
  assert (in_conf u c et) as Het by (by eapply below_in).
  destruct (conf_stored u c Hco et Het) as [ett Hett].
  unfold cex_acquire. rewrite (deref_total _ _ _ He), bind_Ok_l, acq_kind. cbv zeta. cbn [orb cassert].
  rewrite bind_Ok_l. unfold thread_predecessor at 1. rewrite Hd. cbn [data_thread_predecessor nonnull].
  rewrite bind_Ok_l, (deref_total _ _ _ Hett), bind_Ok_l. destruct (ev_is_cutoff ett) eqn:Hcut.
  { exists (u, []). split; [done|]. eapply grown_iff; [|by apply grown_none]. intros m. split; [done|].
    intros [(z & Hz & Hzc) _]. congruence. }
  rewrite !bind_Ok_l. assert (∀ m, at_event h et (λ z, ev_is_cutoff z = false) ∧ alt m ↔ alt m) as Hiff.
  { intros m. split; [tauto|]. intros Ha. split; [by exists ett | done]. }
  assert (lock_predecessor e = er) as -> by (unfold lock_predecessor; by rewrite Hd).
  assert (∀ r, er = Some r → causal_lt h r p ∧ at_event h r (λ z, ev_lid z = lid) ∧ dep h r < ev_depth e) as Her.
  { intros r Hr. assert (causal_lt h r p ∧ at_event h r (λ z, frees z ∧ ev_lid z = lid)) as [Hrp (z & Hz & _ & Hlz)]
      by (eapply er_spec; eauto).
    split_and!; [done | by exists z|]. rewrite <-(dep_lookup _ _ _ He).
    apply causal_lt_dep; [apply (conf_wf u c Hco) | done]. }
  assert (∃ em, descend_lock h (ev_depth e) (λ z, b1 ← is_less_than_eq h z et;
      if (b1 : bool) then Ok false else Ok true) er = Ok em ∧ last_before em) as (em & Hdes & Hlast).
  { edestruct (descend_spec u c Hco p et er lid known e) as (em & Hem & H1 & H2); eauto. exists em.
    split; [done|]. split; [done|]. intros x ex Hxp Hex Hlx Hxet.
    edestruct (lock_before u c Hco p et er lid known e) as (r & Hr & Hxr); eauto. }
  rewrite Hdes, bind_Ok_l. case_bool_decide as Hem.
  { exists (u, []). split; [done|]. eapply grown_iff; [|by apply grown_none]. intros m. rewrite Hiff.
    split; [done|]. eapply no_alternative; eauto. }
  assert (∃ r, er = Some r) as [r Hr].
  { destruct er as [r|] eqn:Hr; [eauto|]. destruct em as [z|]; [|done].
    destruct (proj1 Hlast z eq_refl) as (Hzp & _ & ez & Hez & Hlz).
    edestruct (lock_before u c Hco p et None lid known e) as (r & ? & _); eauto; congruence. }
  destruct (Her r Hr) as (Hrp & (er' & Her' & Hlr) & Hdr).
  assert (∀ m, alt m ↔ at_em em m ∨ between em (lock_predecessor er') m) as Halt
    by (intros m; eapply alternative_iff; eauto).
  destruct (at_em_spec (u, []) em Hl Hlast) as (st1 & Hst1 & Hg1); [intros m Hm; apply Halt; by left|].
  rewrite Hst1, bind_Ok_l. assert (nonnull er = Ok r) as -> by (by rewrite Hr).
  rewrite bind_Ok_l, (deref_total _ _ _ Her'), bind_Ok_l.
  destruct (acquire_loop_spec (ev_depth e) (lock_predecessor er') em st1) as (st2 & Hst2 & Hg2).
  - apply Hg1.
  - intros z Hz. destruct (proj1 Hlast z Hz) as (Hzp & _). exact (below_in u c Hco p Hp z Hzp).
  - intros y Hy. assert (causal_lt h y r ∧ at_event h y (λ z, ev_lid z = lid)) as [Hyr Hly]
      by (eapply lock_pred_lock; eauto).
    split_and!; [by eapply causal_lt_trans | done|].
    apply causal_lt_dep in Hyr; [lia | apply (conf_wf u c Hco)].
  - intros m Hm. apply Halt. by right.
  - exists st2. rewrite acq_ev_lid. split; [exact Hst2|]. eapply grown_iff; [|exact (grown_app _ _ _ _ _ Hg1 Hg2)].
    intros m. etrans; [symmetry; apply Halt | symmetry; apply Hiff].
Qed.
End insert.
End alternatives.

(** ** The conflicting extensions of acquisitions are exact *)

Section props.
Context {PL : Payload} {AL : Allocator}.

(** An alternative to [p] is not in the configuration. *)
Lemma alternative_outside u u' c p et er lid known e m q :
  conf_ok u c → conf_ok u' c → heap_ext (uf_heap u) (uf_heap u') → uf_root u' = uf_root u →
  in_conf u c p → uf_heap u !! p = Some e → ev_data e = LockAcquire et er lid known →
  m ≠ er → acquisition (uf_heap u') (ev_tid e) lid et m q → ¬ in_conf u' c q.
Proof.
  intros Hco Hco' Hext Hroot Hp He Hd Hne (eq & Heq & Ht & Hdq) Hq.
  destruct (Hext p e He) as (e' & He' & Hs). pose proof (core_data _ _ Hs) as Hc. rewrite Hd in Hc.
  simpl in Hc.
  assert (thread_predecessor e' = Some et ∧ thread_predecessor eq = Some et) as [H1 H2].
  { unfold thread_predecessor. destruct (ev_data e'), (ev_data eq); simpl in Hc, Hdq; by simplify_eq. }
  assert (q = p) as ->.
  { apply (cf_thread _ _ (conf_free u' c Hco') q p et); [done | | by exists eq | by exists e'].
    by apply (kept_in u u' c Hco Hext Hroot). }
  apply Hne. assert (eq = e') as -> by congruence. rewrite <-Hc in Hdq. by simplify_eq.
Qed.

(** C38: for an acquisition [p] of a configuration, [cex_acquire] returns, keeps
    the unfolding and the configuration intact, and unless the thread's
    previous event is a cutoff it finds exactly the acquisitions by the same
    thread that could have happened instead: those after an earlier event on
    the lock (or before any) such that the lock is free in the history of
    that event and of the thread. None of them is in the configuration. *)
Theorem cex_acquire_exact u c p e et er lid known :
  conf_ok u c → in_conf u c p → uf_heap u !! p = Some e →
  ev_data e = LockAcquire et er lid known →
  ∃ u' cand, cex_acquire p u = Ok (u', cand) ∧ conf_ok u' c ∧ heap_ext (uf_heap u) (uf_heap u') ∧
    (∀ q, q ∈ cand.*2 → ¬ in_conf u' c q ∧
      ∃ m, alternative (uf_heap u) p et er lid m ∧
        acquisition (uf_heap u') (ev_tid e) lid et m q) ∧
    (∀ m, at_event (uf_heap u) et (λ x, ev_is_cutoff x = false) →
      alternative (uf_heap u) p et er lid m →
      ∃ q, q ∈ cand.*2 ∧ acquisition (uf_heap u') (ev_tid e) lid et m q).
Proof.
  intros Hco Hp He Hd.
  destruct (cex_acquire_spec u c p et er lid known e Hco Hp He Hd) as ([u' cand] & Hcex & [Hl Hx (new & Hn & Hs & Hc)]).
  destruct Hl as [Hco' Hext Hroot]. simpl in *. subst new.
  exists u', cand. split_and!; [done | done | done | |].
  - intros q ([k q'] & -> & Hin)%list_elem_of_fmap. destruct (Hs k q' Hin) as (m & [_ Ha] & Hacq).
    split; [|by exists m]. by eapply (alternative_outside u u'); try done; apply Ha.
  - intros m Hcut Ha. destruct (Hc m (conj Hcut Ha)) as (k & q & Hin & Hacq). exists q. split; [|done].
    apply list_elem_of_fmap. by exists (k, q).
Qed.
End props.

(** The first thread acquires the lock while the second one waits; it could
    have acquired it before the second one. *)
Lemma cex_acquire_exact_witness :
  ∃ u' cand, cex_acquire 9 (after 7).1 = Ok (u', cand) ∧ conf_ok u' (after 7).2 ∧
    heap_ext (uf_heap (after 7).1) (uf_heap u') ∧
    (∀ q, q ∈ cand.*2 → ¬ in_conf u' (after 7).2 q ∧
      ∃ m, alternative (uf_heap (after 7).1) 9 6 (Some 8%N) 1 m ∧
        acquisition (uf_heap u') t1 1 6 m q) ∧
    (∀ m, at_event (uf_heap (after 7).1) 6 (λ x, ev_is_cutoff x = false) →
      alternative (uf_heap (after 7).1) 9 6 (Some 8%N) 1 m →
      ∃ q, q ∈ cand.*2 ∧ acquisition (uf_heap u') t1 1 6 m q).
Proof.
  destruct (uf_heap (after 7).1 !! 9%N) as [e|] eqn:He; [|vm_compute in He; discriminate He].
  assert (ev_tid e = t1 ∧ ev_data e = LockAcquire 6 (Some 8%N) 1 false) as [Ht Hd]
    by (vm_compute in He; injection He as <-; done).
  rewrite <-Ht. apply (cex_acquire_exact (after 7).1 (after 7).2 9 e 6 (Some 8%N) 1 false).
  - apply (reachable_ok (state 7)); [reached | apply state_conf].
  - in_run.
  - exact He.
  - exact Hd.
Defined.

Example first_acquisition_found :
  match cex_acquire 9 (after 7).1 with
  | Ok (u', [(true, q)]) => ev_data <$> uf_heap u' !! q = Some (LockAcquire 6 (Some 5%N) 1 false)
  | _ => False
  end.
Proof. vm_compute. reflexivity. Qed.
