(* ===== verification/Csd.v ===== *)
(** * The context-switch degree of an event ([lib/Por/csd.cpp])

    How many context switches an execution of the causes of an event needs at
    least. The search runs the current thread as far as its events are
    enabled and tries every other thread with an enabled event next. *)

From stdpp Require Import base tactics list gmap numbers.
From S2P Require Import Prelude StdMap ThreadId Event Comb Cone Alloc Unfolding.

(** [csd_t] is [std::size_t]. *)
Abbreviation csd_t := N (only parsing).

Definition csd_add (a b : csd_t) : csd_t := u64 (a + b).
Definition csd_sub (a b : csd_t) : csd_t := u64 (a + (2 ^ 64 - b)).

(** [thread_id(thread_id{}, 1)]. *)
Definition initial_thread : thread_id := [1%N].

Section csd.
Context {PL : Payload}.
Implicit Types (h : heap) (e : event).

(** The events of every thread, and how many of them have run. *)
Definition thread_events : Type := smap thread_id (list eid).
Definition advancement : Type := smap thread_id (list eid * nat).

Definition compute_thread_count e : nat :=
  if kind_eqb (ev_kind e) thread_init then length (ev_cone e) + 1 else length (ev_cone e).

(** ** Collecting the events of the threads *)

(** [for(ev = pair.second; ev; ev = ev->thread_predecessor()) vec.emplace_front(ev)]. *)
Fixpoint collect_walk h (fuel : nat) (ev : option eid) (vec : list eid) : res (list eid) :=
  match ev with
  | None => Ok vec
  | Some p =>
      match fuel with
      | O => Err OutOfFuel
      | S fuel' => e ← deref h p; collect_walk h fuel' (thread_predecessor e) (p :: vec)
      end
  end.

(** The assertions on the creation of a thread. *)
Definition check_creation h e : res unit :=
  match ev_data e with
  | ThreadInit cause =>
      ec ← deref h cause;
      _ ← cassert (kind_eqb (ev_kind ec) thread_create || kind_eqb (ev_kind ec) program_init);
      cassert (if kind_eqb (ev_kind ec) program_init then tid_eqb (ev_tid e) initial_thread
               else true)
  | _ => Err UndefinedBehaviour
  end.

(** [events[tid]]. *)
Definition events_of (t : thread_id) (events : thread_events) : list eid :=
  default [] (smap_find t events).

Definition collect_thread h (events : thread_events) (head : thread_id * eid)
    : res thread_events :=
  let '(t, p) := head in
  e ← deref h p;
  vec ← collect_walk h (S (ev_depth e)) (Some p) (events_of t events);
  front ← in_range (list.head vec);
  ef ← deref h front;
  _ ← cassert (kind_eqb (ev_kind ef) thread_init);
  _ ← check_creation h ef;
  Ok (smap_set t vec events).

Definition collect h (p : eid) : res thread_events :=
  e ← deref h p;
  let events := smap_set (ev_tid e) [p] [] in
  _ ← (if kind_eqb (ev_kind e) thread_init then check_creation h e else Ok tt);
  events ← for_each (collect_thread h) events (ev_cone e);
  first ← match events with [] => Err AssertFailed | x :: _ => Ok x end;
  _ ← cassert (tid_eqb first.1 initial_thread);
  Ok events.

(** ** Enabled events *)

Definition has_run h (adv : advancement) (p : eid) : res bool :=
  e ← deref h p;
  '(evs, n) ← smap_at (ev_tid e) adv;
  match n with
  | O => Ok false
  | S k => q ← in_range (evs !! k); eq ← deref h q; Ok (Nat.leb (ev_depth e) (ev_depth eq))
  end.

(** [lock_pred->tid() == ev->tid() || has_run(advancement, lock_pred)]. *)
Definition lock_available h (adv : advancement) e (lock_pred : eid) : res bool :=
  el ← deref h lock_pred;
  if tid_eqb (ev_tid el) (ev_tid e) then Ok true else has_run h adv lock_pred.

Definition event_is_enabled h (adv : advancement) (p : eid) : res bool :=
  e ← deref h p;
  match ev_data e with
  | ThreadJoin _ joined_pred => has_run h adv joined_pred
  | ThreadInit creation_pred =>
      ec ← deref h creation_pred;
      if kind_eqb (ev_kind ec) program_init then Ok true else has_run h adv creation_pred
  | LockAcquire _ None _ _ => Ok true
  | LockAcquire _ (Some lock_pred) _ _ => lock_available h adv e lock_pred
  | Wait1 _ _ cond_preds _ _ | Signal _ cond_preds _ | Broadcast _ cond_preds _ _ =>
      all_of (has_run h adv) cond_preds
  | Wait2 _ notifying_pred lock_pred _ _ _ =>
      notified ← has_run h adv notifying_pred;
      if negb notified then Ok false else lock_available h adv e lock_pred
  | _ => Ok true
  end.

(** ** Running a thread *)

(** The loop of [advance_current_thread], at position [n] of the thread. *)
Fixpoint advance_loop h (fuel : nat) (adv : advancement) (t : thread_id) (evs : list eid)
    (n : nat) : res advancement :=
  let adv' := smap_set t (evs, S n) adv in
  if Nat.leb (length evs) (S n) then Ok adv'
  else
    ev ← in_range (evs !! S n);
    enabled ← event_is_enabled h adv' ev;
    if (enabled : bool) then
      match fuel with
      | O => Err OutOfFuel
      | S fuel' => advance_loop h fuel' adv' t evs (S n)
      end
    else Ok adv'.

Definition advance_current_thread h (adv : advancement) (t : thread_id) : res advancement :=
  '(evs, n) ← smap_at t adv;
  ev ← in_range (evs !! n);
  enabled ← event_is_enabled h adv ev;
  _ ← cassert enabled;
  advance_loop h (length evs) adv t evs n.

Definition unfinished (x : list eid * nat) : bool := Nat.ltb x.2 (length x.1).

(** A thread the search can switch to. *)
Definition switchable h (adv : advancement) (current t : thread_id) (x : list eid * nat)
    : res bool :=
  if negb (tid_eqb t current) && unfinished x then
    ev ← in_range (x.1 !! x.2); event_is_enabled h adv ev
  else Ok false.

(** ** The searches *)

(** The loop leaves with [None] when an execution within the limit is found;
    otherwise it tells whether there was an alternative. *)
Fixpoint csd_limit_search h (fuel : nat) (adv : advancement) (current : thread_id)
    (current_csd csd_limit : csd_t) : res bool :=
  adv' ← advance_current_thread h adv current;
  if forallb (λ x, negb (unfinished x.2)) adv' then Ok false
  else if (csd_limit <? csd_add current_csd 1%N)%N then Ok true
  else
    match fuel with
    | O => Err OutOfFuel
    | S fuel' =>
        st ← for_each (λ st '(t, x),
               match st with
               | None => Ok None
               | Some possible =>
                   sw ← switchable h adv' current t x;
                   if (sw : bool) then
                     above ← csd_limit_search h fuel' adv' t (csd_add current_csd 1%N) csd_limit;
                     Ok (if (above : bool) then Some true else None)
                   else Ok (Some possible)
               end) (Some false) adv';
        match st with
        | None => Ok false
        | Some possible => _ ← cassert possible; Ok true
        end
    end.

Definition count_active (adv : advancement) : csd_t :=
  N.of_nat (length (List.filter (λ x, unfinished x.2) adv)).

(** The loop leaves with [inl csd] when the switch is the best there can be. *)
Fixpoint csd_search h (fuel : nat) (adv : advancement) (current : thread_id)
    (csd_budget : csd_t) : res csd_t :=
  adv' ← advance_current_thread h adv current;
  let active_threads := count_active adv' in
  if (active_threads =? 0)%N then Ok 0%N
  else if (csd_budget <? active_threads)%N then Ok (csd_add csd_budget 1%N)
  else
    match fuel with
    | O => Err OutOfFuel
    | S fuel' =>
        st ← for_each (λ (st : csd_t + csd_t * bool) '(t, x),
               match st with
               | inl csd => Ok (inl csd)
               | inr (csd, possible) =>
                   sw ← switchable h adv' current t x;
                   if (sw : bool) then
                     next ← csd_search h fuel' adv' t (csd_sub csd 2%N);
                     let next_csd := csd_add next 1%N in
                     if (next_csd <=? 1)%N then
                       _ ← cassert ((0 <? csd) && (csd <=? csd_add csd_budget 1%N))%N;
                       Ok (inl next_csd)
                     else if (next_csd <? csd)%N then Ok (inr (next_csd, true))
                     else Ok (inr (csd, true))
                   else Ok (inr (csd, possible))
               end) (inr (csd_add csd_budget 1%N, false)) adv';
        match st with
        | inl csd => Ok csd
        | inr (csd, has_enabled_events) =>
            _ ← cassert has_enabled_events;
            _ ← cassert ((0 <? csd) && (csd <=? csd_add csd_budget 1%N))%N;
            Ok csd
        end
    end.

(** ** The analyses *)

Definition initial_advancement (events : thread_events) : advancement :=
  (λ '(t, evs), (t, (evs, 0))) <$> events.

(** No execution switches more often than it has events. *)
Definition search_fuel (events : thread_events) : nat :=
  sum_list_with (λ x, length x.2) events.

Definition is_above_csd_limit_1 h (p : eid) (limit : csd_t) : res bool :=
  e ← deref h p;
  let thread_count := compute_thread_count e in
  if Nat.leb thread_count 1 then
    _ ← cassert (negb (Nat.eqb thread_count 0)); Ok false
  else if (limit <? N.of_nat (thread_count - 1))%N then Ok true
  else
    events ← collect h p;
    first ← in_range (list.head events);
    csd_limit_search h (search_fuel events) (initial_advancement events) first.1 0%N limit.

Definition compute_csd_1 h (p : eid) : res csd_t :=
  e ← deref h p;
  let thread_count := compute_thread_count e in
  if Nat.leb thread_count 1 then
    _ ← cassert (negb (Nat.eqb thread_count 0)); Ok 0%N
  else
    events ← collect h p;
    first ← in_range (list.head events);
    csd_search h (search_fuel events) (initial_advancement events) first.1 (2 ^ 64 - 2)%N.
End csd.
