(* ===== verification/Schedule.v ===== *)
(** * Schedules of threads whose events wait for each other

    Threads run their events one after the other; whether the next event of a
    thread is ready depends on how far the others are, and more progress of
    the others never disables it. A schedule is the sequence of threads that
    take the steps of a complete execution. Running one thread as far as
    possible before switching never costs a context switch: the basis for the
    searches in [Csd]. *)

From stdpp Require Import base tactics list numbers gmap relations sorting.
From S2P Require Import Prelude StdMap ThreadId Event Comb CombEnum CombProofs Cone Alloc Causality.
From S2P Require Import Order Walks Unfolding Csd.

Section schedules.
Context {T : Type} `{EqDecision T}.
Implicit Types (s : T → nat) (t u cur : T) (σ : list T).

(** The number of context switches of a schedule, [cur] being the thread that
    ran last. *)
Fixpoint switches cur σ : nat :=
  match σ with
  | [] => 0
  | u :: σ' => (if bool_decide (u = cur) then 0 else 1) + switches u σ'
  end.

Definition context_switches σ : nat :=
  match σ with [] => 0 | t :: σ' => switches t σ' end.

Lemma switches_change cur u σ :
  switches cur σ ≤ (if bool_decide (u = cur) then 0 else 1) + switches u σ.
Proof.
  destruct σ as [|v σ]; simpl; [lia|]. repeat case_bool_decide; subst; try done; lia.
Qed.

Lemma switches_repeat t k σ : switches t (replicate k t ++ σ) = switches t σ.
Proof. induction k as [|k IH]; simpl; [done|]. rewrite bool_decide_true by done. done. Qed.

(** Leaving out one thread shortens a list without duplicates by at most one. *)
Lemma length_without u (l : list T) : NoDup l → length l ≤ S (length (filter (λ t, t ≠ u) l)).
Proof.
  intros Hnd. etrans; [apply (submseteq_length l (u :: filter (λ t, t ≠ u) l))|done].
  apply NoDup_submseteq; [done|]. intros t Ht. rewrite elem_of_cons, list_elem_of_filter.
  destruct (decide (t = u)); tauto.
Qed.

(** Distinct threads that occur in a schedule need a switch each. *)
Lemma switches_visits σ : ∀ cur l,
  NoDup l → cur ∉ l → (∀ t, t ∈ l → t ∈ σ) → length l ≤ switches cur σ.
Proof.
  induction σ as [|u σ IH]; intros cur l Hnd Hcur Hin.
  { destruct l as [|t l]; [simpl; lia|]. specialize (Hin t ltac:(left)). by apply elem_of_nil in Hin. }
  simpl. case_bool_decide as Hu.
  { subst. apply IH; [done..|]. intros t Ht. specialize (Hin t Ht).
    apply elem_of_cons in Hin as [->|]; done. }
  etrans; [by apply (length_without u)|]. apply le_n_S. apply IH.
  - by apply list.NoDup_filter.
  - rewrite list_elem_of_filter. tauto.
  - intros t [Hne Ht]%list_elem_of_filter. specialize (Hin t Ht).
    apply elem_of_cons in Hin as [->|]; done.
Qed.

Lemma switches_visits_away cur l σ :
  NoDup l → (∀ t, t ∈ l → t ∈ σ) → head σ ≠ Some cur → length l ≤ switches cur σ.
Proof.
  intros Hnd Hin Hhd. destruct σ as [|u σ].
  { destruct l as [|t l]; [simpl; lia|]. specialize (Hin t ltac:(left)). by apply elem_of_nil in Hin. }
  simpl in *. rewrite bool_decide_false by congruence.
  etrans; [by apply (length_without u)|]. apply le_n_S. apply switches_visits.
  - by apply list.NoDup_filter.
  - rewrite list_elem_of_filter. tauto.
  - intros t [Hne Ht]%list_elem_of_filter. specialize (Hin t Ht).
    apply elem_of_cons in Hin as [->|]; done.
Qed.

(** ** Complete executions *)

Context (threads : list T) (len : T → nat) (ready : (T → nat) → T → Prop).

Definition step s t : T → nat := λ u, if decide (u = t) then S (s t) else s u.

Definition behind s s' : Prop := ∀ t, s t ≤ s' t.

Definition finished s : Prop := ∀ t, t ∈ threads → len t ≤ s t.

Definition can_step s t : Prop := t ∈ threads ∧ s t < len t ∧ ready s t.

Inductive finishes : (T → nat) → list T → Prop :=
  | finishes_nil s : finished s → finishes s []
  | finishes_cons s t σ : can_step s t → finishes (step s t) σ → finishes s (t :: σ).

(** [k] context switches suffice when [t] takes the next step. *)
Definition degree s t (k : nat) : Prop := ∃ σ, finishes s (t :: σ) ∧ switches t σ = k.

Hypothesis ready_mono : ∀ s s' t, behind s s' → s t = s' t → ready s t → ready s' t.

Lemma step_eq s t : step s t t = S (s t).
Proof. unfold step. by rewrite decide_True. Qed.

Lemma step_ne s t u : u ≠ t → step s t u = s u.
Proof. intros. unfold step. by rewrite decide_False. Qed.

Lemma behind_step s s' t : behind s s' → s t < s' t → behind (step s t) s'.
Proof. intros Hb Hlt u. destruct (decide (u = t)) as [->|]; [rewrite step_eq | rewrite step_ne]; auto. Qed.

Lemma behind_both s s' t : behind s s' → behind (step s t) (step s' t).
Proof.
  intros Hb u. specialize (Hb u) as Hu.
  destruct (decide (u = t)) as [->|]; [rewrite !step_eq; lia | by rewrite !step_ne].
Qed.

Lemma behind_stepped s t : behind s (step s t).
Proof. intros u. destruct (decide (u = t)) as [->|]; [rewrite step_eq; lia | by rewrite step_ne]. Qed.

(** An execution can be replayed from a state that is ahead, without the steps
    that were taken already; this needs no additional switches. *)
Lemma catch_up s σ :
  finishes s σ → ∀ s', behind s s' →
  ∃ σ', finishes s' σ' ∧ ∀ cur, switches cur σ' ≤ switches cur σ.
Proof.
  induction 1 as [s Hfin|s t σ (Ht & Hlt & Hr) Hf IH]; intros s' Hb.
  { exists []. split; [|done]. constructor. intros t Ht. specialize (Hfin t Ht). specialize (Hb t). lia. }
  pose proof (Hb t) as Hbt. destruct (decide (s t = s' t)) as [Heq|Hne].
  - destruct (IH (step s' t) (behind_both _ _ t Hb)) as (σ' & Hf' & Hsw).
    exists (t :: σ'). split.
    + constructor; [|done]. split_and!; [done | lia | by eapply ready_mono].
    + intros cur. simpl. specialize (Hsw t). lia.
  - destruct (IH s') as (σ' & Hf' & Hsw); [apply behind_step; [done | lia]|].
    exists σ'. split; [done|]. intros cur. simpl.
    pose proof (switches_change cur t σ') as Hch. specialize (Hsw t). lia.
Qed.

(** Every unfinished thread occurs in the schedule. *)
Lemma finishes_visits s σ t : finishes s σ → t ∈ threads → s t < len t → t ∈ σ.
Proof.
  intros Hf. induction Hf as [s Hfin|s u σ Hc Hf IH]; intros Ht Hlt.
  - specialize (Hfin t Ht). lia.
  - destruct (decide (t = u)) as [->|Hne]; [left|right]. apply IH; [done|]. by rewrite step_ne.
Qed.

(** ** Running one thread *)

(** Running [t] as far as possible from [s] ends in [s']. *)
Inductive runs_to t : (T → nat) → (T → nat) → Prop :=
  | runs_stop s : ¬ can_step s t → runs_to t s s
  | runs_more s s' : can_step s t → runs_to t (step s t) s' → runs_to t s s'.

Lemma runs_behind t s s' : runs_to t s s' → behind s s'.
Proof.
  induction 1 as [|s s' Hc Hr IH]; [by intros u|]. intros u.
  etrans; [apply (behind_stepped s t u) | apply IH].
Qed.

Lemma runs_stuck t s s' : runs_to t s s' → ¬ can_step s' t.
Proof. by induction 1. Qed.

Lemma runs_prepend t s s' σ :
  runs_to t s s' → finishes s' σ → ∃ k, finishes s (replicate k t ++ σ) ∧ (can_step s t → 0 < k).
Proof.
  intros Hr Hf. induction Hr as [s Hst|s s' Hc Hr IH].
  - exists 0. by split.
  - destruct (IH Hf) as (k & Hk & _). exists (S k). split; [by constructor | lia].
Qed.

Lemma degree_run t s s' σ :
  runs_to t s s' → can_step s t → finishes s' σ → degree s t (switches t σ).
Proof.
  intros Hr Hc Hf. destruct (runs_prepend t s s' σ Hr Hf) as (k & Hk & Hpos).
  specialize (Hpos Hc). destruct k as [|k]; [lia|]. exists (replicate k t ++ σ).
  split; [done | apply switches_repeat].
Qed.

(** ** The steps of a search *)

Lemma degree_finished t s s' : runs_to t s s' → can_step s t → finished s' → degree s t 0.
Proof. intros Hr Hc Hf. apply (degree_run t s s' [] Hr Hc). by constructor. Qed.

Lemma degree_switch t u s s' k :
  runs_to t s s' → can_step s t → u ≠ t → degree s' u k → degree s t (S k).
Proof.
  intros Hr Hc Hne (σ & Hf & Hk). pose proof (degree_run t s s' (u :: σ) Hr Hc Hf) as Hd.
  simpl in Hd. by rewrite bool_decide_false, Hk in Hd.
Qed.

Lemma replayed t s s' k :
  runs_to t s s' → degree s t k →
  ∃ σ', finishes s' σ' ∧ switches t σ' ≤ k ∧ head σ' ≠ Some t.
Proof.
  intros Hr (σ & Hf & Hk).
  destruct (catch_up _ _ Hf s' (runs_behind _ _ _ Hr)) as (σ' & Hf' & Hsw).
  specialize (Hsw t). simpl in Hsw. rewrite bool_decide_true in Hsw by done.
  exists σ'. split_and!; [done | lia|].
  inversion Hf' as [? Hfin|? u ρ Hc Hρ]; subst; [done|]. simpl. intros [= ->].
  by apply (runs_stuck t s s').
Qed.

Lemma degree_inv t s s' k :
  runs_to t s s' → degree s t k →
  finished s' ∨ ∃ u k', u ≠ t ∧ can_step s' u ∧ degree s' u k' ∧ S k' ≤ k.
Proof.
  intros Hr Hd. destruct (replayed t s s' k Hr Hd) as (σ' & Hf' & Hsw & Hhd).
  inversion Hf' as [? Hfin|? u ρ Hc Hρ]; subst; [by left | right].
  simpl in Hhd, Hsw. rewrite bool_decide_false in Hsw by congruence.
  exists u, (switches u ρ). split_and!; [congruence | done | by exists ρ | lia].
Qed.

Definition active s : list T := filter (λ t, s t < len t) threads.

Lemma degree_active t s s' k :
  NoDup threads → runs_to t s s' → degree s t k → length (active s') ≤ k.
Proof.
  intros Hnd Hr Hd. destruct (replayed t s s' k Hr Hd) as (σ' & Hf' & Hsw & Hhd).
  etrans; [apply (switches_visits_away t _ σ')|done].
  - by apply list.NoDup_filter.
  - intros u [Hlt Hu]%list_elem_of_filter. by eapply finishes_visits.
  - done.
Qed.

Lemma degree_threads t s k :
  NoDup threads → (∀ u, u ∈ threads → s u < len u) → degree s t k → length threads ≤ S k.
Proof.
  intros Hnd Hall (σ & Hf & Hk). etrans; [by apply (length_without t)|]. apply le_n_S.
  rewrite <-Hk. apply switches_visits; [by apply list.NoDup_filter | rewrite list_elem_of_filter; tauto|].
  intros u [Hne Hu]%list_elem_of_filter.
  pose proof (finishes_visits _ _ u Hf Hu (Hall u Hu)) as Hin.
  apply elem_of_cons in Hin as [->|]; done.
Qed.

(** ** Progress *)

Definition remaining s : nat := sum_list_with (λ t, len t - s t) threads.

Lemma sum_list_with_ext {A} (f g : A → nat) (l : list A) :
  (∀ x, x ∈ l → f x = g x) → sum_list_with f l = sum_list_with g l.
Proof.
  induction l as [|x l IH]; intros Heq; [done|]. simpl. rewrite (Heq x) by left.
  rewrite IH; [done|]. intros y Hy. apply Heq. by right.
Qed.

Lemma remaining_step s t : NoDup threads → can_step s t → remaining s = S (remaining (step s t)).
Proof.
  intros Hnd (Ht & Hlt & _). unfold remaining. clear - Hnd Ht Hlt.
  induction threads as [|u l IH]; [by apply elem_of_nil in Ht|]. simpl.
  apply list.NoDup_cons in Hnd as [Hu Hnd]. destruct (decide (u = t)) as [->|Hne].
  - rewrite step_eq, (sum_list_with_ext (λ u, len u - step s t u) (λ u, len u - s u)); [lia|].
    intros v Hv. rewrite step_ne; [done|]. by intros ->.
  - rewrite step_ne by done. apply elem_of_cons in Ht as [->|Ht]; [done|]. rewrite (IH Hnd Ht). lia.
Qed.

Lemma remaining_runs t s s' : NoDup threads → runs_to t s s' → remaining s' ≤ remaining s.
Proof.
  intros Hnd. induction 1 as [|s s' Hc Hr IH]; [done|]. rewrite (remaining_step s t Hnd Hc). lia.
Qed.

Lemma remaining_runs_lt t s s' :
  NoDup threads → can_step s t → runs_to t s s' → remaining s' < remaining s.
Proof.
  intros Hnd Hc Hr. inversion Hr as [? Hst|? ? Hc' Hr']; subst; [done|].
  rewrite (remaining_step s t Hnd Hc). pose proof (remaining_runs t _ _ Hnd Hr'). lia.
Qed.

Lemma finished_dec s : finished s ∨ ∃ t, t ∈ threads ∧ s t < len t.
Proof.
  destruct (decide (Exists (λ t, s t < len t) threads)) as [He|He].
  - right. by apply list.Exists_exists in He.
  - left. intros t Ht. destruct (decide (s t < len t)) as [Hlt|]; [|lia].
    destruct He. apply list.Exists_exists. eauto.
Qed.

(** Without deadlocks, every state can be completed. *)
Hypothesis live : ∀ s, (∃ t, t ∈ threads ∧ s t < len t) → ∃ t, can_step s t.

Lemma finishes_exists s : NoDup threads → ∃ σ, finishes s σ.
Proof.
  intros Hnd. remember (remaining s) as n eqn:Hn. revert s Hn.
  induction n as [n IH] using lt_wf_ind. intros s Hn.
  destruct (finished_dec s) as [Hf|Hu]; [exists []; by constructor|].
  destruct (live s Hu) as [t Ht]. pose proof (remaining_step s t Hnd Ht) as Hr.
  destruct (IH (remaining (step s t)) ltac:(lia) (step s t) eq_refl) as [σ Hσ].
  exists (t :: σ). by constructor.
Qed.

Lemma degree_exists s t : NoDup threads → can_step s t → ∃ k, degree s t k.
Proof.
  intros Hnd Hc. destruct (finishes_exists (step s t) Hnd) as [σ Hσ].
  exists (switches t σ), σ. split; [by constructor | done].
Qed.

(** A schedule has as many steps as the threads have left. *)
Lemma finishes_length s σ : NoDup threads → finishes s σ → length σ = remaining s.
Proof.
  intros Hnd. induction 1 as [s Hf|s t σ Hc Hf IH]; simpl.
  - unfold remaining. symmetry. apply Nat.le_0_r.
    assert (∀ l, l ⊆ threads → sum_list_with (λ t, len t - s t) l = 0) as Hz; [|by rewrite Hz].
    induction l as [|u l IH]; [done|]. intros Hl. simpl.
    specialize (Hf u (Hl u ltac:(left))). rewrite IH; [lia|]. intros v Hv. apply Hl. by right.
  - by rewrite (remaining_step s t Hnd Hc), IH.
Qed.

Lemma switches_length cur σ : switches cur σ ≤ length σ.
Proof. revert cur. induction σ as [|u σ IH]; intros cur; simpl; [done|]. specialize (IH u). case_bool_decide; lia. Qed.

Lemma degree_bound s t k : NoDup threads → degree s t k → k < remaining s.
Proof.
  intros Hnd (σ & Hf & <-). rewrite <-(finishes_length _ _ Hnd Hf). simpl.
  pose proof (switches_length t σ). lia.
Qed.
End schedules.

(** ** The events of the threads below an event

    [collect] returns, for every thread with events in the causes of an event,
    all of these events in the order of the thread. *)

Section collect.
Context {PL : Payload}.
Implicit Types (h : heap) (e : event) (x y q : eid) (t : thread_id).

(** What the analysis expects of the local configuration of [p]: it is free
    of conflicts, threads are created by smaller threads, and the only
    startup thread is the initial one. *)
Record analysable h (p : eid) : Prop := {
  an_wf : wf_heap h;
  an_free : conflict_free h (λ x, causal_le h x p);
  an_creators : creators_first h (λ x, causal_le h x p);
  an_start x ex c : causal_le h x p → h !! x = Some ex → ev_data ex = ThreadInit c →
    at_event h c (λ ec, ev_kind ec = program_init) → ev_tid ex = initial_thread;
  an_event : at_event h p (λ e, ev_kind e ≠ program_init);
}.

(** The events of a thread in order, without a gap. *)
Definition is_chain h (l : list eid) : Prop :=
  ∀ i x, l !! i = Some x →
    match i with
    | 0 => at_event h x (λ ex, thread_predecessor ex = None)
    | S j => ∃ q, l !! j = Some q ∧ tpred h q x
    end.

Lemma chain_snoc h l q x :
  is_chain h l → list.last l = Some q → tpred h q x → is_chain h (l ++ [x]).
Proof.
  intros Hl Hq Hx i y Hy. destruct (decide (i < length l)) as [Hi|Hi].
  - rewrite lookup_app_l in Hy by done. specialize (Hl i y Hy). destruct i as [|j]; [done|].
    destruct Hl as (r & Hr & ?). exists r. split; [|done]. rewrite lookup_app_l; [done | lia].
  - rewrite lookup_app_r in Hy by lia. apply list_lookup_singleton_Some in Hy as [Hi' <-].
    assert (i = length l) as -> by lia. rewrite last_lookup in Hq. destruct (length l) as [|j] eqn:Hlen.
    { apply nil_length_inv in Hlen. by subst. }
    simpl in Hq. exists q. split; [|done]. rewrite lookup_app_l; [done | lia].
Qed.

Lemma chain_single h x ex : h !! x = Some ex → thread_predecessor ex = None → is_chain h [x].
Proof.
  intros Hx Hn i y [-> <-]%list_lookup_singleton_Some. by exists ex.
Qed.

(** The first event of a chain has no predecessor; distinct positions hold
    distinct depths. *)
Lemma chain_depth h l i j x y :
  wf_heap h → is_chain h l → l !! i = Some x → l !! j = Some y → i < j → dep h x < dep h y.
Proof.
  intros Hwf Hl Hx. revert y. induction j as [|j IH]; intros y Hy Hij; [lia|].
  pose proof (Hl _ _ Hy) as (q & Hq & Ht). apply tpred_imm, imm_dep in Ht; [|done].
  destruct (decide (i = j)) as [->|]; [by simplify_eq|]. specialize (IH q Hq ltac:(lia)). lia.
Qed.

Lemma collect_walk_spec h fuel q eq vec :
  wf_heap h → dep h q < fuel → h !! q = Some eq →
  ∃ l, collect_walk h fuel (Some q) vec = Ok (l ++ vec) ∧ is_chain h l ∧
    list.last l = Some q ∧ ∀ x, x ∈ l ↔ thread_le h x q.
Proof.
  intros Hwf. revert q eq vec. induction fuel as [|fuel IH]; intros q eq vec Hd Hq; [lia|].
  simpl. unfold deref. rewrite Hq. simpl. destruct (thread_predecessor eq) as [q'|] eqn:Ht.
  - destruct (tpred_exists h Hwf q eq q' Hq Ht) as [[eq' Hq'] Hlt].
    destruct (IH q' eq' (q :: vec) ltac:(lia) Hq') as (l & Hw & Hc & Hlast & Hin).
    exists (l ++ [q]). rewrite <-app_assoc. split_and!; [done | | by rewrite last_snoc |].
    + apply (chain_snoc h l q'); [done..|]. by exists eq.
    + intros x. rewrite elem_of_app, list_elem_of_singleton, Hin, (thread_le_cons h q eq x Hq), Ht.
      naive_solver.
  - exists [q]. split_and!; [by destruct fuel | by eapply chain_single | done|].
    intros x. rewrite list_elem_of_singleton, (thread_le_cons h q eq x Hq), Ht. naive_solver.
Qed.

(** ** The threads of a local configuration *)

Context (h : heap) (p : eid) (e : event).
Hypothesis Han : analysable h p.
Hypothesis He : h !! p = Some e.

Abbreviation C := (λ x, causal_le h x p).
Let Hwf : wf_heap h := an_wf _ _ Han.
Let HC : conflict_free h C := an_free _ _ Han.

Definition thread_vec t (vec : list eid) : Prop :=
  is_chain h vec ∧ ∀ x, x ∈ vec ↔ causal_le h x p ∧ is_event h t x.

Lemma stored x : causal_le h x p → is_Some (h !! x).
Proof. apply (cf_in _ _ HC). Qed.

Lemma not_root : ev_kind e ≠ program_init.
Proof. destruct (an_event _ _ Han) as (? & ? & ?). by simplify_eq. Qed.

(** An event below [p] is [p], or its thread is in the cone. *)
Lemma cone_thread x ex :
  causal_le h x p → h !! x = Some ex → ev_kind ex ≠ program_init →
  x = p ∨ ∃ q, smap_find (ev_tid ex) (ev_cone e) = Some q ∧ thread_le h x q ∧ causal_lt h x p.
Proof.
  intros [->|Hlt]%causal_le_alt Hx Hk; [by left | right].
  destruct (cone_for_above h C Hwf HC (ev_cone e) (λ x, below h x e) x ex) as (q & Hq & Hle);
    [by apply (wf_cone _ _ (Hwf _ _ He)) | | by apply (below_lt h p) | done | done | eauto].
  intros y Hy%(below_lt h p); [|done]. apply causal_le_alt. by right.
Qed.

Lemma cone_entry t q :
  smap_find t (ev_cone e) = Some q → causal_lt h q p ∧ is_event h t q.
Proof.
  intros Hq. destruct (cone_for_sound _ _ _ (wf_cone _ _ (Hwf _ _ He)) t q Hq) as [Hb Hev].
  split; [by apply (below_lt h p e) | done].
Qed.

(** The entry of the event's own thread is its predecessor. *)
Lemma own_entry q : smap_find (ev_tid e) (ev_cone e) = Some q → tpred h q p.
Proof.
  intros Hq. destruct (cone_entry _ _ Hq) as [Hlt (eq & Heq & Ht & Hk)].
  assert (thread_le h q p) as Hle.
  { apply (same_thread_le h C Hwf HC q p eq e); try done; [apply causal_le_alt; by right|].
    apply Nat.lt_le_incl. by apply causal_lt_dep. }
  apply thread_le_inv in Hle as [->|(tp & Htp & Hle)]; [by apply causal_lt_irrefl in Hlt|].
  destruct Htp as (e' & He' & Htp). simplify_eq.
  destruct (wf_thread_pred _ _ (Hwf _ _ He) tp Htp) as (et & Het & Htt & Hkt & _).
  assert (causal_lt h tp p) as Htl.
  { apply (below_lt h p e); [done|]. exists tp. split; [by apply thread_predecessor_pred | done]. }
  destruct (cone_thread tp et) as [->|(q' & Hq' & Hle' & _)];
    [apply causal_le_alt; by right | done | done | by apply causal_lt_irrefl in Htl |].
  rewrite Htt, Hq in Hq'. simplify_eq.
  assert (q' = tp) as ->; [|by exists e].
  apply thread_le_causal, causal_le_alt in Hle as [->|Hl1]; [done|].
  apply thread_le_causal, causal_le_alt in Hle' as [->|Hl2]; [done|].
  apply causal_lt_dep in Hl1, Hl2; [lia | done..].
Qed.

Lemma creation_checked x ex :
  causal_le h x p → h !! x = Some ex → ev_kind ex ≠ program_init → thread_predecessor ex = None →
  ev_kind ex = thread_init ∧ check_creation h ex = Ok tt.
Proof.
  intros Hx Hex Hk Hn. destruct (ev_data ex) as [| | | |c| | | | | | | | | | |] eqn:Hd;
    unfold thread_predecessor, ev_kind in *; rewrite Hd in *; try done.
  split; [done|]. unfold check_creation. rewrite Hd.
  pose proof (wf_class _ _ (Hwf _ _ Hex)) as Hcl. unfold class_ok in Hcl. rewrite Hd in Hcl.
  destruct Hcl as (ec & Hec & Hin & _). unfold deref. rewrite Hec. simpl.
  assert (kind_eqb (ev_kind ec) thread_create || kind_eqb (ev_kind ec) program_init = true) as ->.
  { unfold kind_in in Hin. apply elem_of_cons in Hin as [->|Hin]; [done|].
    by apply list_elem_of_singleton in Hin as ->. }
  simpl. destruct (kind_eqb (ev_kind ec) program_init) eqn:Hki; [|done].
  apply kind_eqb_eq in Hki. rewrite (an_start _ _ Han x ex c); [done..|]. by exists ec.
Qed.

Definition own t : list eid := if decide (t = ev_tid e) then [p] else [].

Lemma collect_thread_spec events t q :
  smap_find t (ev_cone e) = Some q → events_of t events = own t →
  ∃ vec, collect_thread h events (t, q) = Ok (smap_set t vec events) ∧ thread_vec t vec.
Proof.
  intros Hq Hown. destruct (cone_entry t q Hq) as [Hlt (eq & Heq & Ht & Hk)].
  assert (causal_le h q p) as Hqp by (apply causal_le_alt; by right).
  destruct (collect_walk_spec h (S (ev_depth eq)) q eq (own t)) as (l & Hw & Hc & Hlast & Hin);
    [done | by rewrite (dep_lookup _ _ _ Heq); lia | done |].
  unfold collect_thread. rewrite (proj2 (deref_ok h q eq) Heq), bind_Ok_l, Hown, Hw, bind_Ok_l.
  destruct l as [|f l]; [done|]. simpl.
  assert (thread_le h f q) as Hf by (apply Hin; left).
  assert (causal_le h f p) as Hfp by (etrans; [by apply thread_le_causal | done]).
  pose proof (Hc 0 f eq_refl) as (ef & Hef & Hfn).
  destruct (thread_le_tid h Hwf f q eq Heq Hf) as (ef2 & Hef2 & Hft).
  rewrite Hef in Hef2. injection Hef2 as <-.
  destruct (creation_checked f ef Hfp Hef) as [Hfk Hchk]; [|done|].
  { intros Hfk. apply (init_tid h Hwf f ef Hef) in Hfk. rewrite Hft in Hfk.
    by apply (init_tid h Hwf q eq Heq) in Hfk. }
  unfold deref. rewrite Hef. simpl. rewrite Hfk. simpl. rewrite Hchk. simpl.
  exists (f :: l ++ own t). split; [done|].
  change (f :: l ++ own t) with ((f :: l) ++ own t). unfold own. split.
  - case_decide as Hte; [|by rewrite app_nil_r]. eapply chain_snoc; [done..|].
    apply own_entry. by rewrite <-Hte.
  - intros x. rewrite elem_of_app, Hin. split.
    + intros [Hx|Hx].
      * split; [etrans; [by apply thread_le_causal | done]|].
        destruct (thread_le_tid h Hwf x q eq Heq Hx) as (ex & Hex & Hxt). exists ex.
        split_and!; [done | congruence|]. intros Hxk. apply (init_tid h Hwf x ex Hex) in Hxk.
        rewrite Hxt in Hxk. by apply (init_tid h Hwf q eq Heq) in Hxk.
      * case_decide as Hte; [|by apply elem_of_nil in Hx]. apply list_elem_of_singleton in Hx as ->.
        split; [reflexivity|]. exists e. split_and!; [done | congruence | apply not_root].
    + intros [Hx (ex & Hex & Hxt & Hxk)]. destruct (cone_thread x ex Hx Hex Hxk) as [->|(q' & Hq' & Hle & _)].
      * right. simplify_eq. rewrite decide_True by done. left.
      * left. rewrite Hxt, Hq in Hq'. by simplify_eq.
Qed.

Lemma collect_threads_spec l : ∀ events,
  (∀ t q, (t, q) ∈ l → smap_find t (ev_cone e) = Some q) → NoDup l.*1 →
  (∀ t, t ∈ l.*1 → events_of t events = own t) → smap_sorted events →
  ∃ events', for_each (collect_thread h) events l = Ok events' ∧ smap_sorted events' ∧
    (∀ t, t ∈ l.*1 → ∃ vec, smap_find t events' = Some vec ∧ thread_vec t vec) ∧
    (∀ t, t ∉ l.*1 → smap_find t events' = smap_find t events).
Proof.
  induction l as [|[t q] l IH]; intros events Hl Hnd Hown Hs; cbn [for_each].
  { exists events. split_and!; [done | done | by intros t ?%elem_of_nil | done]. }
  simpl in Hnd. apply list.NoDup_cons in Hnd as [Ht Hnd].
  destruct (collect_thread_spec events t q) as (vec & -> & Hvec); [apply Hl; left | apply Hown; left|].
  rewrite bind_Ok_l. destruct (IH (smap_set t vec events)) as (events' & Hf & Hs' & Hin & Hout).
  - intros t' q' Ht'. apply Hl. by right.
  - done.
  - intros t' Ht'. unfold events_of. rewrite smap_find_set_ne by (by intros ->). apply Hown. by right.
  - by apply smap_set_sorted.
  - exists events'. split_and!; [done | done | |].
    + intros t' [->|Ht']%elem_of_cons; [|by apply Hin]. exists vec. split; [|done].
      rewrite Hout by done. apply smap_find_set_eq.
    + intros t' [Hne Ht']%not_elem_of_cons. rewrite Hout by done. by apply smap_find_set_ne.
Qed.

(** The result of [collect]. *)
Record collected (events : thread_events) : Prop := {
  cl_sorted : smap_sorted events;
  cl_vec t vec : smap_find t events = Some vec → thread_vec t vec ∧ vec ≠ [];
  cl_all x ex : causal_le h x p → h !! x = Some ex → ev_kind ex ≠ program_init →
    is_Some (smap_find (ev_tid ex) events);
  cl_first : ∃ vec events', events = (initial_thread, vec) :: events';
  cl_count : length events = compute_thread_count e;
}.

Lemma own_thread_first :
  smap_find (ev_tid e) (ev_cone e) = None →
  thread_predecessor e = None ∧ ev_kind e = thread_init ∧ check_creation h e = Ok tt ∧
  thread_vec (ev_tid e) [p].
Proof.
  intros Hn. assert (thread_predecessor e = None) as Htp.
  { destruct (thread_predecessor e) as [q|] eqn:Hq; [|done].
    destruct (wf_thread_pred _ _ (Hwf _ _ He) q Hq) as (eq & Heq & Ht & Hk & _).
    assert (causal_lt h q p) as Hlt.
    { apply (below_lt h p e); [done|]. exists q. split; [by apply thread_predecessor_pred | done]. }
    destruct (cone_thread q eq) as [->|(q' & Hq' & _)];
      [apply causal_le_alt; by right | done | done | by apply causal_lt_irrefl in Hlt | congruence]. }
  destruct (creation_checked p e) as [Hk Hc]; [reflexivity | done | apply not_root | done |].
  split_and!; [done..|]. split; [by eapply chain_single|].
  intros x. rewrite list_elem_of_singleton. split.
  - intros ->. split; [reflexivity|]. exists e. split_and!; [done | done | apply not_root].
  - intros [Hx (ex & Hex & Ht & Hkx)]. destruct (cone_thread x ex Hx Hex Hkx) as [->|(q & Hq & _)]; [done|].
    congruence.
Qed.

Lemma own_thread_later q :
  smap_find (ev_tid e) (ev_cone e) = Some q → ev_kind e ≠ thread_init.
Proof.
  intros (e' & He' & Htp)%own_entry. simplify_eq. unfold thread_predecessor, ev_kind in *.
  by destruct (ev_data e).
Qed.

(** The least thread is the initial one: the creator of another thread would
    be smaller. *)
Lemma least_thread events t vec events' :
  smap_sorted events →
  (∀ t vec, smap_find t events = Some vec → thread_vec t vec ∧ vec ≠ []) →
  (∀ x ex, causal_le h x p → h !! x = Some ex → ev_kind ex ≠ program_init →
    is_Some (smap_find (ev_tid ex) events)) →
  events = (t, vec) :: events' → t = initial_thread.
Proof.
  intros Hs Hvec Hall ->. destruct (Hvec t vec) as [[Hc Hin] Hne].
  { apply smap_elem_find; [done | left]. }
  destruct vec as [|z vec]; [done|]. pose proof (Hc 0 z eq_refl) as (ez & Hez & Hn).
  destruct (proj1 (Hin z) ltac:(left)) as [Hz (ez' & Hez' & Ht & Hk)]. rewrite Hez in Hez'. injection Hez' as <-.
  destruct (ev_data ez) as [| | | |c| | | | | | | | | | |] eqn:Hd;
    unfold thread_predecessor, ev_kind in *; rewrite Hd in *; try done.
  pose proof (wf_class _ _ (Hwf _ _ Hez)) as Hcl. unfold class_ok in Hcl. rewrite Hd in Hcl.
  destruct Hcl as (ec & Hec & Hkc & _). unfold kind_in in Hkc.
  apply elem_of_cons in Hkc as [Hkc|Hkc]; [|apply list_elem_of_singleton in Hkc].
  - rewrite <-Ht. apply (an_start _ _ Han z ez c); [done..|]. by exists ec.
  - assert (causal_le h c p) as Hcp.
    { etrans; [|exact Hz]. apply rtc_once. exists ez. split; [done|]. unfold predecessors. rewrite Hd. left. }
    pose proof (an_creators _ _ Han z c ez ec Hz Hez Hd Hec Hkc) as Hlt. rewrite Ht in Hlt.
    destruct (Hall c ec Hcp Hec) as [vc Hvc]; [intros Hki; unfold ev_kind in Hkc; by rewrite Hki in Hkc|].
    apply smap_elem_find in Hvc; [|done]. apply StronglySorted_inv in Hs as [_ Hs].
    apply elem_of_cons in Hvc as [Hvc|Hvc].
    + injection Hvc as Htc _. rewrite Htc in Hlt. by apply (less_ne (K:=thread_id)) in Hlt.
    + rewrite Forall_forall in Hs. specialize (Hs _ Hvc). simpl in Hs.
      apply less_asym in Hs. unfold std_less, tid_less in Hs. congruence.
Qed.

(** The threads are the one of the event and those in its cone. *)
Lemma count_threads (events : thread_events) :
  smap_sorted events →
  (∀ t, is_Some (smap_find t events) ↔ t = ev_tid e ∨ t ∈ (ev_cone e).*1) →
  length events = compute_thread_count e.
Proof.
  intros Hs Hkeys. pose proof (wf_cone _ _ (Hwf _ _ He)) as Hcone.
  assert (smap_sorted (ev_cone e)) as Hsc by apply (cone_for_sorted _ _ _ Hcone).
  assert (∀ t q, smap_find t (ev_cone e) = Some q → t ∈ (ev_cone e).*1) as Hkey.
  { intros t q Hq. apply smap_elem_find in Hq; [|done]. apply list_elem_of_fmap. by exists (t, q). }
  assert (∀ t, t ∈ events.*1 ↔ t = ev_tid e ∨ t ∈ (ev_cone e).*1) as Helem.
  { intros t. rewrite <-Hkeys. split.
    - intros ([t' v] & -> & Hv)%list_elem_of_fmap. exists v. by apply smap_elem_find.
    - intros [v Hv]. apply smap_elem_find in Hv; [|done]. apply list_elem_of_fmap. by exists (t, v). }
  pose proof (smap_sorted_nodup _ Hs) as Hnd. pose proof (smap_sorted_nodup _ Hsc) as Hndc.
  unfold smap_keys in *. rewrite <-(length_fmap fst events). unfold compute_thread_count.
  destruct (smap_find (ev_tid e) (ev_cone e)) as [q|] eqn:Hq.
  - pose proof (own_thread_later q Hq) as Hk. apply kind_eqb_ne in Hk. rewrite Hk.
    rewrite <-(length_fmap fst (ev_cone e)). apply Permutation_length, NoDup_Permutation; [done..|].
    intros t. rewrite Helem. split; [|tauto]. intros [->|]; [|done]. by eapply Hkey.
  - destruct (own_thread_first Hq) as (_ & -> & _). cbn [kind_eqb]. rewrite Nat.add_1_r.
    rewrite <-(length_fmap fst (ev_cone e)).
    change (S (length (ev_cone e).*1)) with (length (ev_tid e :: (ev_cone e).*1)).
    apply Permutation_length, NoDup_Permutation; [done| |].
    + apply list.NoDup_cons. split; [|done]. intros Ht. apply list_elem_of_fmap in Ht as ([t q] & Heq & Ht).
      apply smap_elem_find in Ht; [|done]. simpl in Heq. congruence.
    + intros t. by rewrite Helem, elem_of_cons.
Qed.

Lemma collect_spec : ∃ events, collect h p = Ok events ∧ collected events.
Proof.
  unfold collect. rewrite (proj2 (deref_ok h p e) He), bind_Ok_l.
  assert ((if kind_eqb (ev_kind e) thread_init then check_creation h e else Ok tt) = Ok tt) as ->.
  { destruct (kind_eqb (ev_kind e) thread_init) eqn:Hk; [|done]. apply kind_eqb_eq in Hk.
    destruct (smap_find (ev_tid e) (ev_cone e)) as [q|] eqn:Hq; [|apply (own_thread_first Hq)].
    by apply own_thread_later in Hq. }
  rewrite bind_Ok_l. pose proof (wf_cone _ _ (Hwf _ _ He)) as Hcone.
  assert (smap_sorted (ev_cone e)) as Hsc by apply (cone_for_sorted _ _ _ Hcone).
  destruct (collect_threads_spec (ev_cone e) (smap_set (ev_tid e) [p] [])) as (events & -> & Hs & Hin & Hout).
  { intros t q Ht. by apply smap_elem_find in Ht. }
  { by apply smap_sorted_nodup. }
  { intros t _. unfold events_of, own. case_decide as Ht; [subst; by rewrite smap_find_set_eq|].
    by rewrite smap_find_set_ne. }
  { apply smap_set_sorted, smap_sorted_nil. }
  rewrite bind_Ok_l.
  assert (∀ t q, smap_find t (ev_cone e) = Some q → t ∈ (ev_cone e).*1) as Hkey.
  { intros t q Hq. apply smap_elem_find in Hq; [|done]. apply list_elem_of_fmap. by exists (t, q). }
  assert (∀ t, t ∉ (ev_cone e).*1 → smap_find t (ev_cone e) = None) as Hnokey.
  { intros t Ht. destruct (smap_find t (ev_cone e)) as [q|] eqn:Hq; [|done]. by apply Hkey in Hq. }
  assert (∀ t vec, smap_find t events = Some vec → thread_vec t vec ∧ vec ≠ []) as Hvec.
  { intros t vec Hv. destruct (decide (t ∈ (ev_cone e).*1)) as [Ht|Ht].
    - destruct (Hin t Ht) as (vec' & Hv' & Hvec). rewrite Hv in Hv'. injection Hv' as <-. split; [done|].
      apply list_elem_of_fmap in Ht as ([t' q] & -> & Htq). simpl in *. apply smap_elem_find in Htq; [|done].
      destruct (cone_entry _ _ Htq) as [Hlt Hev]. intros ->.
      assert (q ∈ ([] : list eid)) as Hq; [|by apply elem_of_nil in Hq].
      apply Hvec. split; [apply causal_le_alt; by right | done].
    - rewrite Hout in Hv by done. pose proof (Hnokey t Ht) as Hnone.
      destruct (decide (t = ev_tid e)) as [->|Hne]; [|by rewrite smap_find_set_ne in Hv].
      rewrite smap_find_set_eq in Hv. injection Hv as <-. split; [|done]. by apply own_thread_first. }
  assert (∀ x ex, causal_le h x p → h !! x = Some ex → ev_kind ex ≠ program_init →
    is_Some (smap_find (ev_tid ex) events)) as Hall.
  { intros x ex Hx Hex Hk. destruct (decide (ev_tid ex ∈ (ev_cone e).*1)) as [Ht|Ht].
    - destruct (Hin _ Ht) as (vec & Hv & _). eauto.
    - rewrite Hout by done. destruct (cone_thread x ex Hx Hex Hk) as [->|(q & Hq & _)].
      + simplify_eq. rewrite smap_find_set_eq. eauto.
      + by apply Hkey in Hq. }
  destruct events as [|[t vec] events'].
  { destruct (Hall p e) as [? Hv]; [reflexivity | done | apply not_root|]. done. }
  pose proof (least_thread _ t vec events' Hs Hvec Hall eq_refl) as ->. rewrite bind_Ok_l. simpl.
  eexists. split; [done|]. split; [done | done | done | by eauto|].
  apply count_threads; [done|].
  intros t. split.
    - intros [v Hv]. destruct (decide (t ∈ (ev_cone e).*1)) as [Ht|Ht]; [by right | left].
      rewrite Hout in Hv by done. destruct (decide (t = ev_tid e)) as [->|Hne]; [done|].
      by rewrite smap_find_set_ne in Hv.
    - intros [->|Ht].
      + apply (Hall p e); [reflexivity | done | apply not_root].
      + destruct (Hin t Ht) as (v & Hv & _). eauto.
Qed.
End collect.
