(* ===== verification/CsdProofs.v ===== *)
(** * The searches for the context-switch degree

    The states of a search are functions that count the steps of every
    thread; the theorems of [Schedule] apply because an event that is enabled
    stays enabled. *)

From stdpp Require Import base tactics list gmap numbers relations sorting.
From S2P Require Import Prelude StdMap ThreadId Event Comb CombEnum CombProofs Cone Alloc Causality.
From S2P Require Import Order Walks Unfolding Csd Schedule.

Section enabled.
Context {PL : Payload}.
Context (h : heap) (p : eid) (e : event) (events : thread_events).
Hypothesis Han : analysable h p.
Hypothesis He : h !! p = Some e.
Hypothesis Hcl : collected h p e events.
Implicit Types (x y q : eid) (t : thread_id) (s : thread_id → nat).

Let Hwf : wf_heap h := an_wf _ _ Han.

(** ** Waiting for events of other threads *)

Definition other_thread (x : event) (l : eid) : list eid :=
  match h !! l with
  | Some el => if tid_eqb (ev_tid el) (ev_tid x) then [] else [l]
  | None => []
  end.

(** The events an event waits for, besides those of its own thread. *)
Definition needs x : list eid :=
  match h !! x with
  | None => []
  | Some ex =>
      match ev_data ex with
      | ThreadJoin _ j => [j]
      | ThreadInit c =>
          match h !! c with
          | Some ec => if kind_eqb (ev_kind ec) program_init then [] else [c]
          | None => []
          end
      | LockAcquire _ (Some l) _ _ => other_thread ex l
      | Wait1 _ _ cps _ _ | Signal _ cps _ | Broadcast _ cps _ _ => cps
      | Wait2 _ np lp _ _ _ => np :: other_thread ex lp
      | _ => []
      end
  end.

Definition threads : list thread_id := smap_keys events.
Definition vec t : list eid := events_of t events.
Definition len t : nat := length (vec t).

Definition ran s y : Prop :=
  at_event h y (λ ey, ∃ i, vec (ev_tid ey) !! i = Some y ∧ i < s (ev_tid ey)).

Definition ready s t : Prop := ∃ x, vec t !! s t = Some x ∧ ∀ y, y ∈ needs x → ran s y.

Definition bounded s : Prop := ∀ t, s t ≤ len t.

Definition adv_of s : advancement := (λ '(t, evs), (t, (evs, s t))) <$> events.

Lemma threads_nodup : NoDup threads.
Proof. apply smap_sorted_nodup, Hcl. Qed.

Lemma thread_vec_of t : t ∈ threads → smap_find t events = Some (vec t).
Proof.
  intros ([t' v] & -> & Hv)%list_elem_of_fmap. apply smap_elem_find in Hv; [|apply Hcl].
  unfold vec, events_of. cbn [fst]. by rewrite Hv.
Qed.

Lemma in_threads t v : smap_find t events = Some v → t ∈ threads ∧ v = vec t.
Proof.
  intros Hv. unfold vec, events_of. rewrite Hv. split; [|done].
  apply smap_elem_find in Hv; [|apply Hcl]. apply list_elem_of_fmap. by exists (t, v).
Qed.

Lemma vec_chain t : t ∈ threads → is_chain h (vec t).
Proof. intros Ht%thread_vec_of. apply (cl_vec _ _ _ _ Hcl) in Ht. apply Ht. Qed.

Lemma vec_elem t x : t ∈ threads → x ∈ vec t ↔ causal_le h x p ∧ is_event h t x.
Proof. intros Ht%thread_vec_of. apply (cl_vec _ _ _ _ Hcl) in Ht. apply Ht. Qed.

Lemma len_pos t : t ∈ threads → 0 < len t.
Proof.
  intros Ht%thread_vec_of. apply (cl_vec _ _ _ _ Hcl) in Ht as [_ Hne].
  unfold len. destruct (vec t); [done | simpl; lia].
Qed.

Lemma vec_outside t : t ∉ threads → vec t = [].
Proof.
  intros Ht. unfold vec, events_of. destruct (smap_find t events) as [v|] eqn:Hv; [|done].
  by apply in_threads in Hv as [? _].
Qed.

(** Every event below [p] has a place in its thread. *)
Lemma event_place x ex :
  causal_le h x p → h !! x = Some ex → ev_kind ex ≠ program_init →
  ev_tid ex ∈ threads ∧ ∃ i, vec (ev_tid ex) !! i = Some x.
Proof.
  intros Hx Hex Hk. destruct (cl_all _ _ _ _ Hcl x ex Hx Hex Hk) as [v Hv].
  destruct (in_threads _ _ Hv) as [Ht ->]. split; [done|].
  apply list_elem_of_lookup, vec_elem; [done|]. split; [done|]. by exists ex.
Qed.

Lemma place_event t i x :
  vec t !! i = Some x → t ∈ threads ∧ causal_le h x p ∧ is_event h t x.
Proof.
  intros Hx. destruct (decide (t ∈ threads)) as [Ht|Ht].
  - split; [done|]. apply vec_elem; [done|]. by eapply list_elem_of_lookup_2.
  - by rewrite (vec_outside t Ht) in Hx.
Qed.

Lemma place_unique t i j x : vec t !! i = Some x → vec t !! j = Some x → i = j.
Proof.
  intros Hi Hj. destruct (place_event t i x Hi) as (Ht & _ & _).
  pose proof (vec_chain t Ht) as Hc. destruct (decide (i < j)) as [Hlt|]; [|destruct (decide (j < i))].
  - pose proof (chain_depth h (vec t) i j x x Hwf Hc Hi Hj Hlt). lia.
  - pose proof (chain_depth h (vec t) j i x x Hwf Hc Hj Hi ltac:(done)). lia.
  - lia.
Qed.

(** The order of a thread is the order of depths. *)
Lemma place_depth t i j x y :
  vec t !! i = Some x → vec t !! j = Some y → dep h x ≤ dep h y ↔ i ≤ j.
Proof.
  intros Hx Hy. destruct (place_event t i x Hx) as (Ht & _ & _).
  pose proof (vec_chain t Ht) as Hc. split.
  - intros Hd. destruct (decide (j < i)) as [Hlt|]; [|lia].
    pose proof (chain_depth h (vec t) j i y x Hwf Hc Hy Hx Hlt). lia.
  - intros Hij. destruct (decide (i = j)) as [->|]; [by simplify_eq|].
    pose proof (chain_depth h (vec t) i j x y Hwf Hc Hx Hy ltac:(lia)). lia.
Qed.

(** What an event waits for is a cause of it. *)
Lemma other_thread_elem (ex : event) l y :
  y ∈ other_thread ex l ↔ y = l ∧ at_event h l (λ el, ev_tid el ≠ ev_tid ex).
Proof.
  unfold other_thread, at_event. destruct (h !! l) as [el|]; [|rewrite elem_of_nil; naive_solver].
  destruct (tid_eqb _ _) eqn:Ht; [apply tid_eqb_spec in Ht; rewrite elem_of_nil; naive_solver|].
  rewrite list_elem_of_singleton. split; [|by intros [-> _]]. intros ->. split; [done|].
  exists el. split; [done|]. intros Heq. apply tid_eqb_spec in Heq. congruence.
Qed.

Lemma at_kind_not_root ks (Φ : event → Prop) y :
  at_event h y (λ ey, kind_in ks ey ∧ Φ ey) → program_init ∉ ks →
  at_event h y (λ ey, ev_kind ey ≠ program_init).
Proof. intros (ey & Hy & Hk & _) Hn. exists ey. split; [done|]. intros Hp. unfold kind_in in Hk. by rewrite Hp in Hk. Qed.

Lemma needs_pred x ex y :
  h !! x = Some ex → y ∈ needs x →
  y ∈ predecessors ex ∧ at_event h y (λ ey, ev_kind ey ≠ program_init).
Proof.
  intros Hex Hy. pose proof (wf_class _ _ (Hwf _ _ Hex)) as Hc. unfold class_ok in Hc.
  unfold needs in Hy. rewrite Hex in Hy. unfold predecessors.
  assert (∀ cid cps, cond_preds_ok h cid cps → y ∈ cps →
    at_event h y (λ ey, ev_kind ey ≠ program_init)) as Hcond.
  { intros cid cps Hok Hin. eapply at_kind_not_root; [by apply Hok|]. set_solver. }
  destruct (ev_data ex) as [| | |tp j|c| | | |tp [l|] lid k| | | |tp l cps cid lid|tp np l cid lid k|tp cps cid|tp cps n cid] eqn:Hd;
    try by apply elem_of_nil in Hy.
  - apply list_elem_of_singleton in Hy as ->. split; [right; left|].
    destruct Hc as (ej & Hj & Hk & _). exists ej. by rewrite Hk.
  - destruct Hc as (ec & Hec & _). rewrite Hec in Hy.
    destruct (kind_eqb (ev_kind ec) program_init) eqn:Hk; [by apply elem_of_nil in Hy|].
    apply list_elem_of_singleton in Hy as ->. split; [left|]. exists ec. split; [done|]. by apply kind_eqb_ne.
  - apply other_thread_elem in Hy as [-> _]. split; [apply two_predecessors_elem; by right|].
    eapply at_kind_not_root; [exact Hc|]. set_solver.
  - split; [by right; right|]. by eapply Hcond; [apply Hc|].
  - destruct Hc as (_ & Hnp & Hl). apply elem_of_cons in Hy as [->|Hy].
    + split; [right; left|]. eapply at_kind_not_root; [exact Hnp|]. set_solver.
    + apply other_thread_elem in Hy as [-> _]. split; [right; right; left|].
      eapply at_kind_not_root; [exact Hl|]. set_solver.
  - split; [by right|]. by eapply Hcond; [apply Hc|].
  - split; [by right|]. by eapply Hcond; [apply Hc|].
Qed.

Lemma needs_below x y :
  causal_le h x p → y ∈ needs x →
  causal_lt h y x ∧ causal_le h y p ∧ at_event h y (λ ey, ev_kind ey ≠ program_init).
Proof.
  intros Hx Hy. destruct (cf_in _ _ (an_free _ _ Han) x Hx) as [ex Hex].
  destruct (needs_pred x ex y Hex Hy) as [Hp Hk].
  assert (imm h y x) as Hi by (by exists ex).
  split_and!; [by apply tc_once | etrans; [by apply rtc_once | done] | done].
Qed.

(** ** Enabled events *)

Lemma adv_find s t : smap_find t (adv_of s) = (λ evs, (evs, s t)) <$> smap_find t events.
Proof.
  unfold adv_of. clear Hcl. induction events as [|[u evs] m IH]; [done|]. simpl.
  destruct (std_less t u) eqn:H1; [done|]. destruct (std_less u t) eqn:H2; [exact IH|].
  destruct (less_cases t u) as [[-> _]|[[? _]|[_ [? _]]]]; [done | congruence..].
Qed.

Lemma adv_sorted s : smap_sorted (adv_of s).
Proof.
  pose proof (cl_sorted _ _ _ _ Hcl) as Hs. unfold adv_of, smap_sorted in *. clear Hcl.
  induction Hs as [|[u evs] m Hs IH Hf]; simpl; constructor; [done|].
  apply Forall_fmap. eapply Forall_impl; [exact Hf|]. by intros [v ?].
Qed.

Lemma adv_step s t :
  t ∈ threads → smap_set t (vec t, S (s t)) (adv_of s) = adv_of (step s t).
Proof.
  intros Ht. apply smap_ext; [apply smap_set_sorted, adv_sorted | apply adv_sorted|].
  intros u. rewrite adv_find. destruct (decide (t = u)) as [<-|Hne].
  - by rewrite smap_find_set_eq, step_eq, (thread_vec_of t Ht).
  - by rewrite smap_find_set_ne, adv_find, step_ne.
Qed.

Lemma has_run_spec s y :
  bounded s → causal_le h y p → at_event h y (λ ey, ev_kind ey ≠ program_init) →
  ∃ b, has_run h (adv_of s) y = Ok b ∧ (b = true ↔ ran s y).
Proof.
  intros Hb Hy (ey & Hey & Hk). destruct (event_place y ey Hy Hey Hk) as (Ht & i & Hi).
  unfold has_run. rewrite (proj2 (deref_ok h y ey) Hey), bind_Ok_l. unfold smap_at.
  rewrite adv_find, (thread_vec_of _ Ht). simpl.
  assert (ran s y ↔ i < s (ev_tid ey)) as Hran.
  { split.
    - intros (ey' & Hey' & j & Hj & Hlt). simplify_eq. by rewrite (place_unique _ i j y Hi Hj).
    - intros Hlt. exists ey. eauto. }
  setoid_rewrite Hran. destruct (s (ev_tid ey)) as [|k] eqn:Hs; [exists false; split; [done | split; [done | lia]]|].
  destruct (lookup_lt_is_Some_2 (vec (ev_tid ey)) k) as [q Hq].
  { specialize (Hb (ev_tid ey)). unfold len in Hb. lia. }
  rewrite Hq. simpl. destruct (place_event _ _ _ Hq) as (_ & _ & eq & Heq & _).
  rewrite (proj2 (deref_ok h q eq) Heq). simpl. eexists. split; [done|].
  rewrite Nat.leb_le, <-(dep_lookup _ _ _ Hey), <-(dep_lookup _ _ _ Heq).
  rewrite (place_depth _ i k y q Hi Hq). lia.
Qed.

Lemma all_ran_spec s l :
  bounded s →
  (∀ y, y ∈ l → causal_le h y p ∧ at_event h y (λ ey, ev_kind ey ≠ program_init)) →
  ∃ b, all_of (has_run h (adv_of s)) l = Ok b ∧ (b = true ↔ ∀ y, y ∈ l → ran s y).
Proof.
  intros Hb. induction l as [|y l IH]; intros Hl; simpl.
  { exists true. split; [done|]. split; [|done]. by intros _ y ?%elem_of_nil. }
  destruct (Hl y) as [Hy Hk]; [left|].
  destruct (has_run_spec s y Hb Hy Hk) as (b & -> & Hby). simpl. destruct b.
  - destruct IH as (b & -> & Hbl); [intros z Hz; apply Hl; by right|]. exists b. split; [done|].
    rewrite Hbl. setoid_rewrite elem_of_cons. naive_solver.
  - exists false. split; [done|]. split; [done|]. intros Hall. apply Hby, Hall. left.
Qed.

Lemma lock_available_spec s (ex : event) l :
  bounded s → causal_le h l p → at_event h l (λ el, ev_kind el ≠ program_init) →
  ∃ b, lock_available h (adv_of s) ex l = Ok b ∧ (b = true ↔ ∀ y, y ∈ other_thread ex l → ran s y).
Proof.
  intros Hb Hl Hk. destruct Hk as (el & Hel & Hk). unfold lock_available.
  rewrite (proj2 (deref_ok h l el) Hel), bind_Ok_l. unfold other_thread. rewrite Hel.
  destruct (tid_eqb (ev_tid el) (ev_tid ex)).
  - exists true. split; [done|]. split; [|done]. by intros _ y ?%elem_of_nil.
  - destruct (has_run_spec s l Hb Hl) as (b & -> & Hbl); [by exists el|]. exists b. split; [done|].
    rewrite Hbl. setoid_rewrite list_elem_of_singleton. naive_solver.
Qed.

Lemma enabled_spec s x :
  bounded s → causal_le h x p →
  ∃ b, event_is_enabled h (adv_of s) x = Ok b ∧ (b = true ↔ ∀ y, y ∈ needs x → ran s y).
Proof.
  intros Hb Hx. destruct (cf_in _ _ (an_free _ _ Han) x Hx) as [ex Hex].
  assert (∀ q, q ∈ predecessors ex → causal_le h q p) as Hpred.
  { intros q Hq. etrans; [|done]. apply rtc_once. by exists ex. }
  pose proof (needs_below x) as Hn. pose proof (wf_class _ _ (Hwf _ _ Hex)) as Hc.
  unfold event_is_enabled. rewrite (proj2 (deref_ok h x ex) Hex), bind_Ok_l.
  unfold needs in *. rewrite Hex in *. unfold predecessors in Hpred. unfold class_ok in Hc.
  assert (∃ b, Ok true = Ok b ∧ (b = true ↔ ∀ y, y ∈ ([] : list eid) → ran s y)) as Hnone.
  { exists true. split; [done|]. split; [|done]. by intros _ y ?%elem_of_nil. }
  destruct (ev_data ex) as [| | |tp j|c| | | |tp [l|] lid k| | | |tp l cps cid lid|tp np l cid lid k|tp cps cid|tp cps n cid] eqn:Hd;
    try exact Hnone.
  - destruct (has_run_spec s j Hb) as (b & -> & Hbj); [by apply Hn; [|left]..|]. exists b. split; [done|].
    rewrite Hbj. setoid_rewrite list_elem_of_singleton. naive_solver.
  - destruct Hc as (ec & Hec & _). rewrite Hec in Hn. rewrite (proj2 (deref_ok h c ec) Hec), bind_Ok_l, Hec.
    destruct (kind_eqb (ev_kind ec) program_init); [exact Hnone|].
    destruct (has_run_spec s c Hb) as (b & -> & Hbc); [by apply Hn; [|left]..|]. exists b. split; [done|].
    rewrite Hbc. setoid_rewrite list_elem_of_singleton. naive_solver.
  - apply lock_available_spec; [done | apply Hpred, two_predecessors_elem; by right|].
    eapply at_kind_not_root; [exact Hc|]. set_solver.
  - apply all_ran_spec; [done|]. intros y Hy. by apply Hn.
  - destruct Hc as (_ & Hnp & Hl).
    destruct (has_run_spec s np Hb) as (b & -> & Hbn); [by apply Hn; [|left]..|]. simpl.
    destruct b; simpl.
    + destruct (lock_available_spec s ex l) as (b & -> & Hbl);
        [done | apply Hpred; right; right; left | eapply at_kind_not_root; [exact Hl|]; set_solver|].
      exists b. split; [done|]. rewrite Hbl. setoid_rewrite elem_of_cons. naive_solver.
    + exists false. split; [done|]. split; [done|]. intros Hall. apply Hbn, Hall. left.
  - apply all_ran_spec; [done|]. intros y Hy. by apply Hn.
  - apply all_ran_spec; [done|]. intros y Hy. by apply Hn.
Qed.

(** ** The threads as a schedule *)

Abbreviation can_step := (can_step threads len ready).
Abbreviation runs_to := (runs_to threads len ready).
Abbreviation degree := (degree threads len ready).
Abbreviation finished := (finished threads len).
Abbreviation remaining := (remaining threads len).

Lemma ran_mono s s' y : behind s s' → ran s y → ran s' y.
Proof.
  intros Hb (ey & Hey & i & Hi & Hlt). exists ey. split; [done|]. exists i. split; [done|].
  specialize (Hb (ev_tid ey)). lia.
Qed.

Lemma ready_mono s s' t : behind s s' → s t = s' t → ready s t → ready s' t.
Proof.
  intros Hb Heq (x & Hx & Hn). exists x. rewrite <-Heq. split; [done|].
  intros y Hy. by eapply ran_mono, Hn.
Qed.

Lemma all_ran_or s (l : list eid) :
  (∀ y, y ∈ l → causal_le h y p ∧ at_event h y (λ ey, ev_kind ey ≠ program_init)) →
  (∀ y, y ∈ l → ran s y) ∨ ∃ y t i, y ∈ l ∧ vec t !! i = Some y ∧ s t ≤ i.
Proof.
  induction l as [|y l IH]; intros Hl; [left; by intros y ?%elem_of_nil|].
  destruct IH as [Hran|(z & t & i & Hz & Hi & Hs)]; [intros z Hz; apply Hl; by right | |].
  - destruct (Hl y) as [Hy (ey & Hey & Hk)]; [left|].
    destruct (event_place y ey Hy Hey Hk) as (Ht & i & Hi).
    destruct (decide (i < s (ev_tid ey))) as [Hlt|Hge].
    + left. intros z [->|Hz]%elem_of_cons; [|by apply Hran]. exists ey. eauto.
    + right. exists y, (ev_tid ey), i. split_and!; [left | done | lia].
  - right. exists z, t, i. split_and!; [by right | done | done].
Qed.

(** The shallowest event that has not run is ready. *)
Lemma live s : (∃ t, t ∈ threads ∧ s t < len t) → ∃ t, can_step s t.
Proof.
  intros (t & Ht & Hlt). destruct (lookup_lt_is_Some_2 (vec t) (s t) Hlt) as [x Hx].
  remember (dep h x) as d eqn:Hd. revert t x Ht Hlt Hx Hd.
  induction d as [d IH] using lt_wf_ind. intros t x Ht Hlt Hx ->.
  destruct (place_event t _ x Hx) as (_ & Hxp & _).
  destruct (all_ran_or s (needs x)) as [Hall|(y & u & i & Hy & Hi & Hs)].
  - intros y Hy. apply (needs_below x); done.
  - exists t. split_and!; [done..|]. by exists x.
  - destruct (place_event u i y Hi) as (Hu & _ & _).
    assert (s u < len u) as Hlu by (apply lookup_lt_Some in Hi; unfold len; lia).
    destruct (lookup_lt_is_Some_2 (vec u) (s u) Hlu) as [z Hz].
    apply (IH (dep h z)) with u z; try done.
    apply (place_depth u (s u) i z y Hz Hi) in Hs.
    pose proof (causal_lt_dep h y x Hwf (proj1 (needs_below x y Hxp Hy))). lia.
Qed.

Lemma bounded_step s t : bounded s → s t < len t → bounded (step s t).
Proof.
  intros Hb Hlt u. destruct (decide (u = t)) as [->|]; [rewrite step_eq; lia | rewrite step_ne; auto].
Qed.

(** The next event of a thread. *)
Lemma next_enabled s t :
  bounded s → t ∈ threads → s t < len t →
  ∃ x b, vec t !! s t = Some x ∧ event_is_enabled h (adv_of s) x = Ok b ∧ (b = true ↔ can_step s t).
Proof.
  intros Hb Ht Hlt. destruct (lookup_lt_is_Some_2 (vec t) (s t) Hlt) as [x Hx].
  destruct (place_event t _ x Hx) as (_ & Hxp & _).
  destruct (enabled_spec s x Hb Hxp) as (b & Hen & Hbx). exists x, b. split_and!; [done | done|].
  rewrite Hbx. split.
  - intros Hn. split_and!; [done..|]. by exists x.
  - intros (_ & _ & x' & Hx' & Hn). by simplify_eq.
Qed.

Lemma advance_loop_spec fuel : ∀ s t,
  bounded s → t ∈ threads → s t < len t → len t ≤ S (s t) + fuel →
  ∃ s', advance_loop h fuel (adv_of s) t (vec t) (s t) = Ok (adv_of s') ∧
    runs_to t (step s t) s' ∧ bounded s'.
Proof.
  induction fuel as [|fuel IH]; intros s t Hb Ht Hlt Hf; cbn [advance_loop];
    rewrite (adv_step s t Ht); pose proof (bounded_step s t Hb Hlt) as Hb'; fold (len t).
  all: destruct (Nat.leb_spec (len t) (S (s t))) as [Hend|Hmore].
  1, 3: exists (step s t); split_and!; [done | | done]; constructor;
    intros (_ & Hl & _); rewrite step_eq in Hl; lia.
  { lia. }
  destruct (next_enabled (step s t) t) as (x & b & Hx & Hen & Hbx); [done | done | by rewrite step_eq|].
  rewrite step_eq in Hx. rewrite Hx. simpl. rewrite Hen, bind_Ok_l. destruct b.
  - destruct (IH (step s t) t) as (s' & Hl & Hr & Hb''); [done | done | by rewrite step_eq | rewrite step_eq; lia|].
    rewrite step_eq in Hl. exists s'. split_and!; [done | | done]. constructor; [by apply Hbx | done].
  - exists (step s t). split_and!; [done | | done]. constructor. by intros Hc%Hbx.
Qed.

Lemma advance_spec s t :
  bounded s → can_step s t →
  ∃ s', advance_current_thread h (adv_of s) t = Ok (adv_of s') ∧ runs_to t s s' ∧ bounded s'.
Proof.
  intros Hb Hc. pose proof Hc as (Ht & Hlt & _). unfold advance_current_thread, smap_at.
  rewrite adv_find, (thread_vec_of t Ht). cbn [fmap option_fmap option_map in_range].
  rewrite bind_Ok_l. destruct (next_enabled s t Hb Ht Hlt) as (x & b & Hx & Hen & Hbx).
  rewrite Hx. simpl. rewrite Hen, bind_Ok_l. rewrite (proj2 Hbx Hc). simpl.
  destruct (advance_loop_spec (length (vec t)) s t) as (s' & -> & Hr & Hb'); [done..|unfold len; lia|].
  exists s'. split_and!; [done | by constructor | done].
Qed.

Lemma switchable_spec s cur t :
  bounded s → t ∈ threads →
  ∃ b, switchable h (adv_of s) cur t (vec t, s t) = Ok b ∧ (b = true ↔ t ≠ cur ∧ can_step s t).
Proof.
  intros Hb Ht. unfold switchable, unfinished. simpl. fold (len t).
  destruct (tid_eqb t cur) eqn:Hc; simpl.
  { exists false. split; [done|]. split; [done|]. intros [Hne _]. by apply tid_eqb_spec in Hc. }
  destruct (Nat.ltb_spec (s t) (len t)) as [Hlt|Hge].
  - destruct (next_enabled s t Hb Ht Hlt) as (x & b & Hx & Hen & Hbx). rewrite Hx. simpl. rewrite Hen.
    exists b. split; [done|]. rewrite Hbx. split; [|tauto]. intros Hs. split; [|done].
    intros ->. assert (tid_eqb cur cur = true) by (by apply tid_eqb_spec). congruence.
  - exists false. split; [done|]. split; [done|]. intros [_ (_ & Hlt & _)]. lia.
Qed.

(** ** The limited search *)

Lemma adv_elem s t (w : list eid * nat) : (t, w) ∈ adv_of s ↔ t ∈ threads ∧ w = (vec t, s t).
Proof.
  unfold adv_of. rewrite list_elem_of_fmap. split.
  - intros ([u v] & Heq & Hin). injection Heq as -> ->. apply smap_elem_find in Hin; [|apply Hcl].
    by apply in_threads in Hin as [? ->].
  - intros [Ht ->]. exists (t, vec t). split; [done|]. apply smap_elem_find; [apply Hcl|].
    by apply thread_vec_of.
Qed.

Lemma all_finished s :
  forallb (λ x : thread_id * (list eid * nat), negb (unfinished x.2)) (adv_of s) = true ↔ finished s.
Proof.
  rewrite forallb_elem_of. unfold unfinished. split.
  - intros Hall t Ht. specialize (Hall (t, (vec t, s t))). simpl in Hall.
    rewrite negb_true_iff, Nat.ltb_ge in Hall. apply Hall. by apply adv_elem.
  - intros Hf [t x] [Ht ->]%adv_elem. simpl. rewrite negb_true_iff, Nat.ltb_ge. by apply Hf.
Qed.

Lemma stuck_switch t s s' :
  runs_to t s s' → ¬ finished s' → ∃ u, u ≠ t ∧ can_step s' u.
Proof.
  intros Hr Hnf. destruct (finished_dec threads len s') as [?|Hu]; [done|].
  destruct (live s' Hu) as [u Hc]. exists u. split; [|done]. intros ->.
  by apply (runs_stuck threads len ready t s s').
Qed.

(** A switch that keeps the limit. *)
Definition within s (cur : thread_id) (n : N) (limit : N) (u : thread_id) : Prop :=
  u ≠ cur ∧ can_step s u ∧ ∃ k, degree s u k ∧ (n + N.of_nat k ≤ limit)%N.

Definition limit_body s (cur : thread_id) (search : thread_id → res bool)
    (st : option bool) '((t, w) : thread_id * (list eid * nat)) : res (option bool) :=
  match st with
  | None => Ok None
  | Some possible =>
      sw ← switchable h (adv_of s) cur t w;
      if (sw : bool) then above ← search t; Ok (if (above : bool) then Some true else None)
      else Ok (Some possible)
  end.

Lemma limit_left s cur search l : for_each (limit_body s cur search) None l = Ok None.
Proof. induction l as [|[u w] l IH]; [done | exact IH]. Qed.

Lemma limit_loop s cur n limit search (l : advancement) :
  bounded s → (∀ t w, (t, w) ∈ l → t ∈ threads ∧ w = (vec t, s t)) →
  (∀ u, u ≠ cur → can_step s u →
    ∃ b, search u = Ok b ∧ (b = false ↔ ∃ k, degree s u k ∧ (n + N.of_nat k ≤ limit)%N)) →
  ∀ possible, ∃ st,
    for_each (limit_body s cur search) (Some possible) l = Ok st ∧
    match st with
    | None => ∃ u, within s cur n limit u
    | Some possible' =>
        (possible' = true ↔ possible = true ∨ ∃ u, u ∈ l.*1 ∧ u ≠ cur ∧ can_step s u) ∧
        ∀ u, u ∈ l.*1 → ¬ within s cur n limit u
    end.
Proof.
  intros Hb Hl Hsearch. induction l as [|[t w] l IH]; intros possible; cbn [for_each limit_body].
  { exists (Some possible). split; [done|]. split; [|by intros u ?%elem_of_nil].
    setoid_rewrite elem_of_nil. naive_solver. }
  destruct (Hl t w) as [Ht ->]; [left|]. specialize (IH (λ t w Hin, Hl t w (list_elem_of_further _ _ _ Hin))).
  destruct (switchable_spec s cur t Hb Ht) as (b & -> & Hbt). rewrite bind_Ok_l.
  cbn [fmap list_fmap fst]. destruct b.
  - destruct (proj1 Hbt eq_refl) as [Hne Hc]. destruct (Hsearch t Hne Hc) as (above & -> & Hab).
    rewrite !bind_Ok_l. destruct above.
    + destruct (IH true) as (st & -> & Hst). exists st. split; [done|]. destruct st as [possible'|]; [|done].
      destruct Hst as [Hp Hw]. split.
      * rewrite Hp. split; [|by left]. intros _. right. exists t. split; [left | done].
      * intros u [->|Hu]%elem_of_cons; [|by apply Hw]. intros (_ & _ & Hk). by apply Hab in Hk.
    + exists None. rewrite limit_left. split; [done|]. exists t. split_and!; [done | done | by apply Hab].
  - rewrite bind_Ok_l. destruct (IH possible) as (st & -> & Hst). exists st. split; [done|].
    assert (¬ (t ≠ cur ∧ can_step s t)) as Hn by (intros Hc; by apply Hbt in Hc).
    destruct st as [possible'|]; [|done]. destruct Hst as [Hp Hw]. split.
    + rewrite Hp. setoid_rewrite elem_of_cons. split; [naive_solver|].
      intros [Hp'|(u & [->|Hu] & Hc)]; [by left | by destruct Hn | right; by exists u].
    + intros u [->|Hu]%elem_of_cons; [|by apply Hw]. intros (Hne & Hc & _). by apply Hn.
Qed.

Lemma limit_search_spec fuel : ∀ s t cur limit,
  bounded s → can_step s t → remaining s ≤ fuel → (cur ≤ limit)%N →
  (N.of_nat (remaining s) + cur < 2 ^ 64)%N →
  ∃ b, csd_limit_search h fuel (adv_of s) t cur limit = Ok b ∧
    (b = false ↔ ∃ k, degree s t k ∧ (cur + N.of_nat k ≤ limit)%N).
Proof.
  induction fuel as [|fuel IH]; intros s t cur limit Hb Hc Hf Hcur Hov;
    pose proof (remaining_step threads len ready s t threads_nodup Hc) as Hrem; [lia|].
  destruct (advance_spec s t Hb Hc) as (s' & Hadv & Hr & Hb'). cbn [csd_limit_search].
  rewrite Hadv, bind_Ok_l. destruct (forallb _ (adv_of s')) eqn:Hfin.
  { apply all_finished in Hfin. exists false. split; [done|]. split; [|done]. intros _. exists 0.
    split; [by apply (degree_finished threads len ready t s s') | lia]. }
  assert (¬ finished s') as Hnf by (intros Hx%all_finished; congruence).
  assert (∀ k, degree s t k → 0 < k) as Hpos.
  { intros k Hk. destruct (degree_inv threads len ready ready_mono t s s' k Hr Hk)
      as [?|(u & k' & _ & _ & _ & Hk')]; [done | lia]. }
  assert (csd_add cur 1%N = (cur + 1)%N) as ->.
  { unfold csd_add, u64. apply N.mod_small. lia. }
  destruct (N.ltb_spec limit (cur + 1)) as [Hlim|Hlim].
  { exists true. split; [done|]. split; [done|]. intros (k & Hk & Hle). specialize (Hpos k Hk). lia. }
  pose proof (remaining_runs_lt threads len ready t s s' threads_nodup Hc Hr) as Hlt.
  destruct (limit_loop s' t (cur + 1)%N limit (λ u, csd_limit_search h fuel (adv_of s') u (cur + 1)%N limit)
    (adv_of s')) with false as (st & Hloop & Hst); [done | by intros u w ?%adv_elem | |].
  { intros u _ Hcu. apply IH; [done | done | lia | lia | lia]. }
  unfold limit_body in Hloop. rewrite Hloop, bind_Ok_l. destruct st as [possible|].
  - destruct Hst as [Hp Hw]. assert (∀ u, can_step s' u → u ∈ (adv_of s').*1) as Hkey.
    { intros u (Hu & _). apply list_elem_of_fmap. exists (u, (vec u, s' u)). split; [done|]. by apply adv_elem. }
    assert (possible = true) as ->.
    { apply Hp. right. destruct (stuck_switch t s s' Hr Hnf) as (u & Hne & Hcu). eauto. }
    simpl. exists true. split; [done|]. split; [done|]. intros (k & Hk & Hle).
    destruct (degree_inv threads len ready ready_mono t s s' k Hr Hk) as [?|(u & k' & Hne & Hcu & Hk' & Hkk)]; [done|].
    exfalso. apply (Hw u (Hkey u Hcu)). split_and!; [done | done|]. exists k'. split; [done | lia].
  - destruct Hst as (u & Hne & Hcu & k & Hk & Hle). exists false. split; [done|]. split; [|done]. intros _.
    exists (S k). split; [by apply (degree_switch threads len ready t u s s') | lia].
Qed.

(** ** The minimising search *)

Lemma count_active_spec s : count_active (adv_of s) = N.of_nat (length (active threads len s)).
Proof.
  unfold count_active, active, threads, smap_keys. f_equal.
  assert (∀ l, (∀ t evs, (t, evs) ∈ l → evs = vec t) →
    length (List.filter (λ w : thread_id * (list eid * nat), unfinished w.2)
      ((λ '(t, evs), (t, (evs, s t))) <$> l)) = length (filter (λ t, s t < len t) l.*1)) as Hgen.
  { induction l as [|[t evs] l IH]; intros Hl; [done|].
    cbn [fmap list_fmap fst List.filter snd]. rewrite filter_cons.
    rewrite (Hl t evs) by left. unfold unfinished at 1. cbn [fst snd]. fold (len t).
    specialize (IH (λ t evs Hin, Hl t evs (list_elem_of_further _ _ _ Hin))).
    destruct (Nat.ltb_spec (s t) (len t)); [rewrite decide_True by done | rewrite decide_False by lia];
      cbn [length]; by rewrite IH. }
  apply Hgen. intros t evs Hin. apply smap_elem_find in Hin; [|apply Hcl]. by apply in_threads in Hin as [_ ?].
Qed.

(** [r] is the least degree, cut off above the budget. *)
Definition least_within s t (budget r : N) : Prop :=
  (r ≤ budget + 1)%N ∧ (∀ k, degree s t k → (r ≤ N.of_nat k)%N) ∧
  ((r ≤ budget)%N → degree s t (N.to_nat r)).

Definition search_body s (cur : thread_id) (budget : csd_t)
    (search : thread_id → csd_t → res csd_t) (st : csd_t + csd_t * bool)
    '((t, w) : thread_id * (list eid * nat)) : res (csd_t + csd_t * bool) :=
  match st with
  | inl csd => Ok (inl csd)
  | inr (csd, possible) =>
      sw ← switchable h (adv_of s) cur t w;
      if (sw : bool) then
        next ← search t (csd_sub csd 2%N);
        let next_csd := csd_add next 1%N in
        if (next_csd <=? 1)%N then
          _ ← cassert ((0 <? csd) && (csd <=? csd_add budget 1))%N;
          Ok (inl next_csd)
        else if (next_csd <? csd)%N then Ok (inr (next_csd, true))
        else Ok (inr (csd, true))
      else Ok (inr (csd, possible))
  end.

Lemma search_left s cur budget search csd l :
  for_each (search_body s cur budget search) (inl csd) l = Ok (inl csd).
Proof. induction l as [|[u w] l IH]; [done | exact IH]. Qed.

(** The best number of switches so far: the initial value or the switch to
    one of the threads seen. *)
Record best_of s (cur : thread_id) (budget : N) (seen : list thread_id) (csd : N) : Prop := {
  bo_range : (2 ≤ csd ≤ budget + 1)%N;
  bo_best u k : u ∈ seen → u ≠ cur → can_step s u → degree s u k → (csd ≤ N.of_nat (S k))%N;
  bo_some : csd = (budget + 1)%N ∨
    ∃ u k, u ≠ cur ∧ can_step s u ∧ degree s u k ∧ csd = N.of_nat (S k);
}.

Lemma best_step s cur budget seen csd t r :
  best_of s cur budget seen csd → t ≠ cur → can_step s t → least_within s t (csd - 2)%N r →
  (r + 1 ≠ 1)%N →
  best_of s cur budget (seen ++ [t]) (if (r + 1 <? csd)%N then r + 1 else csd)%N.
Proof.
  intros [Hr Hbest Hsome] Hne Hc (Hle & Hmin & Hdeg) Hnz.
  assert (∀ u, u ∈ seen ++ [t] → u ∈ seen ∨ u = t) as Hin.
  { intros u Hu. apply elem_of_app in Hu as [|Hu%list_elem_of_singleton]; auto. }
  destruct (N.ltb_spec (r + 1) csd) as [Hlt|Hge].
  - split; [lia | |].
    + intros u k Hu Hu1 Hu2 Hk. destruct (Hin u Hu) as [Hs| ->].
      * specialize (Hbest u k Hs Hu1 Hu2 Hk). lia.
      * specialize (Hmin k Hk). lia.
    + right. exists t, (N.to_nat r). split_and!; [done | done | apply Hdeg; lia | lia].
  - split; [lia | | done]. intros u k Hu Hu1 Hu2 Hk. destruct (Hin u Hu) as [Hs| ->]; [by eapply Hbest|].
    specialize (Hmin k Hk). lia.
Qed.

Lemma best_skip s cur budget seen csd t :
  best_of s cur budget seen csd → ¬ (t ≠ cur ∧ can_step s t) →
  best_of s cur budget (seen ++ [t]) csd.
Proof.
  intros [Hr Hbest Hsome] Hn. split; [done | | done]. intros u k Hu Hu1 Hu2 Hk.
  apply elem_of_app in Hu as [|Hu%list_elem_of_singleton]; [by eapply Hbest | subst; tauto].
Qed.

Lemma search_loop s cur budget search (l : advancement) :
  bounded s → (budget < 2 ^ 64 - 1)%N →
  (∀ t w, (t, w) ∈ l → t ∈ threads ∧ w = (vec t, s t)) →
  (∀ u b, u ≠ cur → can_step s u → (b < 2 ^ 64 - 1)%N →
    ∃ r, search u b = Ok r ∧ least_within s u b r) →
  ∀ seen csd possible, best_of s cur budget seen csd → ∃ st,
    for_each (search_body s cur budget search) (inr (csd, possible)) l = Ok st ∧
    match st with
    | inl r => r = 1%N ∧ ∃ u, u ≠ cur ∧ can_step s u ∧ degree s u 0
    | inr (csd', possible') =>
        best_of s cur budget (seen ++ l.*1) csd' ∧
        (possible = true ∨ (∃ u, u ∈ l.*1 ∧ u ≠ cur ∧ can_step s u) → possible' = true)
    end.
Proof.
  intros Hb Hbud Hl Hsearch. induction l as [|[t w] l IH]; intros seen csd possible Hbest;
    cbn [for_each search_body].
  { exists (inr (csd, possible)). split; [done|]. cbn [fmap list_fmap]. rewrite app_nil_r. split; [done|].
    setoid_rewrite elem_of_nil. naive_solver. }
  destruct (Hl t w) as [Ht ->]; [left|]. specialize (IH (λ t w Hin, Hl t w (list_elem_of_further _ _ _ Hin))).
  destruct (switchable_spec s cur t Hb Ht) as (b & -> & Hbt). rewrite bind_Ok_l.
  pose proof (bo_range _ _ _ _ _ Hbest) as Hrange.
  assert (seen ++ ((t, (vec t, s t)) :: l).*1 = (seen ++ [t]) ++ l.*1) as -> by (by rewrite <-app_assoc).
  destruct b.
  - destruct (proj1 Hbt eq_refl) as [Hne Hc].
    assert (csd_sub csd 2%N = (csd - 2)%N) as ->.
    { unfold csd_sub, u64. replace (csd + (2 ^ 64 - 2))%N with (csd - 2 + 1 * 2 ^ 64)%N by lia.
      rewrite N.Div0.mod_add. apply N.mod_small. lia. }
    destruct (Hsearch t (csd - 2)%N Hne Hc ltac:(lia)) as (r & -> & Hr). rewrite bind_Ok_l.
    pose proof Hr as (Hle & _ & Hdeg).
    assert (csd_add r 1%N = (r + 1)%N) as -> by (unfold csd_add, u64; apply N.mod_small; lia).
    assert (csd_add budget 1%N = (budget + 1)%N) as -> by (unfold csd_add, u64; apply N.mod_small; lia).
    destruct (N.leb_spec (r + 1) 1) as [Hone|Hmore].
    + rewrite (proj2 (N.ltb_lt 0 csd)), (proj2 (N.leb_le csd (budget + 1))) by lia. simpl.
      exists (inl (r + 1)%N). rewrite search_left. split; [done|]. split; [lia|].
      exists t. split_and!; [done | done|]. assert (r = 0%N) as -> by lia. apply Hdeg. lia.
    + assert (best_of s cur budget (seen ++ [t]) (if (r + 1 <? csd)%N then r + 1 else csd)%N) as Hbest'
        by (apply best_step; [done..|lia]).
      destruct (r + 1 <? csd)%N; rewrite bind_Ok_l;
        destruct (IH _ _ true Hbest') as (st & -> & Hst); exists st; (split; [done|]);
        destruct st as [r'|[csd2 possible']]; [done | | done |];
        destruct Hst as [? Hp]; (split; [done|]); auto.
  - rewrite bind_Ok_l. assert (¬ (t ≠ cur ∧ can_step s t)) as Hn by (intros Hc; by apply Hbt in Hc).
    destruct (IH _ csd possible (best_skip _ _ _ _ _ _ Hbest Hn)) as (st & -> & Hst). exists st. split; [done|].
    destruct st as [r'|[csd2 possible']]; [done|]. destruct Hst as [? Hp]. split; [done|].
    cbn [fmap list_fmap fst]. setoid_rewrite elem_of_cons. intros [?|(u & [->|Hu] & Hu')]; apply Hp;
      [by left | tauto | right; eauto].
Qed.

Lemma active_finished s : length (active threads len s) = 0 ↔ finished s.
Proof.
  unfold active. split.
  - intros Hl%nil_length_inv t Ht. destruct (decide (s t < len t)) as [Hlt|]; [|lia].
    assert (t ∈ filter (λ t, s t < len t) threads) as Hin by (by apply list_elem_of_filter).
    rewrite Hl in Hin. by apply elem_of_nil in Hin.
  - intros Hf. destruct (filter (λ t, s t < len t) threads) as [|t l] eqn:Hl; [done|].
    assert (t ∈ filter (λ t, s t < len t) threads) as [Hlt Ht]%list_elem_of_filter by (rewrite Hl; left).
    specialize (Hf t Ht). lia.
Qed.

Lemma search_spec fuel : ∀ s t budget,
  bounded s → can_step s t → remaining s ≤ fuel → (budget < 2 ^ 64 - 1)%N →
  ∃ r, csd_search h fuel (adv_of s) t budget = Ok r ∧ least_within s t budget r.
Proof.
  induction fuel as [|fuel IH]; intros s t budget Hb Hc Hf Hbud;
    pose proof (remaining_step threads len ready s t threads_nodup Hc) as Hrem; [lia|].
  destruct (advance_spec s t Hb Hc) as (s' & Hadv & Hr & Hb'). cbn [csd_search].
  rewrite Hadv, bind_Ok_l, count_active_spec. cbv zeta. set (n := length (active threads len s')).
  destruct (N.eqb_spec (N.of_nat n) 0) as [Hn|Hn].
  { assert (finished s') as Hfin by (apply active_finished; fold n; lia). exists 0%N. split; [done|].
    split_and!; [lia | lia|]. intros _. by apply (degree_finished threads len ready t s s'). }
  assert (csd_add budget 1%N = (budget + 1)%N) as -> by (unfold csd_add, u64; apply N.mod_small; lia).
  destruct (N.ltb_spec budget (N.of_nat n)) as [Hlt|Hge].
  { exists (budget + 1)%N. split; [done|]. split_and!; [lia | | lia]. intros k Hk.
    pose proof (degree_active threads len ready ready_mono t s s' k threads_nodup Hr Hk) as Hle. fold n in Hle. lia. }
  assert (¬ finished s') as Hnf by (intros Hx%active_finished; fold n in Hx; lia).
  pose proof (remaining_runs_lt threads len ready t s s' threads_nodup Hc Hr) as Hrl.
  destruct (search_loop s' t budget (λ u b, csd_search h fuel (adv_of s') u b) (adv_of s'))
    with (@nil thread_id) (budget + 1)%N false as (st & Hloop & Hst);
    [done | done | by intros u w ?%adv_elem | | |].
  { intros u b _ Hcu Hbb. apply IH; [done | done | lia | done]. }
  { split; [lia | by intros u k ?%elem_of_nil | by left]. }
  unfold search_body in Hloop. 
  assert (csd_add budget 1%N = (budget + 1)%N) as Hadd by (unfold csd_add, u64; apply N.mod_small; lia).
  rewrite Hadd in Hloop. rewrite Hloop, bind_Ok_l.
  assert (∀ k, degree s t k → ∃ u k', u ≠ t ∧ can_step s' u ∧ degree s' u k' ∧ S k' ≤ k) as Hinv.
  { intros k Hk. destruct (degree_inv threads len ready ready_mono t s s' k Hr Hk) as [?|?]; done. }
  destruct st as [r|[csd possible]].
  - destruct Hst as (-> & u & Hne & Hcu & Hk). exists 1%N. split; [done|]. split_and!; [lia | |].
    + intros k (u' & k' & _ & _ & _ & Hle)%Hinv. lia.
    + intros _. by apply (degree_switch threads len ready t u s s' 0).
  - destruct Hst as [[Hrange Hbest Hsome] Hp].
    assert (∀ u, can_step s' u → u ∈ (adv_of s').*1) as Hkey.
    { intros u (Hu & _). apply list_elem_of_fmap. exists (u, (vec u, s' u)). split; [done|]. by apply adv_elem. }
    rewrite Hp.
    2: { right. destruct (stuck_switch t s s' Hr Hnf) as (u & Hne & Hcu). eauto. }
    rewrite (proj2 (N.ltb_lt 0 csd)), (proj2 (N.leb_le csd (budget + 1))) by lia. simpl.
    exists csd. split; [done|]. split_and!; [lia | |].
    + intros k (u & k' & Hne & Hcu & Hk & Hle)%Hinv.
      specialize (Hbest u k' ltac:(by apply Hkey) Hne Hcu Hk). lia.
    + intros Hle. destruct Hsome as [?|(u & k & Hne & Hcu & Hk & ->)]; [lia|]. rewrite Nat2N.id.
      by apply (degree_switch threads len ready t u s s' k).
Qed.
End enabled.
