(* ===== verification/CsdProps.v ===== *)
(** * The context-switch degree is exact

    [compute_csd_1] returns the least number of context switches of the
    executions of an event's causes, and [is_above_csd_limit_1] decides
    whether all of them exceed a limit. *)

From stdpp Require Import base tactics list gmap numbers relations sorting.
From S2P Require Import Prelude StdMap ThreadId Event Comb CombEnum CombProofs Cone Alloc Causality.
From S2P Require Import Order Walks Demo Unfolding ColorProofs Csd Schedule CsdProofs.

(** ** Linearisations of a local configuration

    What the context-switch degree measures: the executions of the causes of
    an event, as orders of these events, and how often they change the
    thread. Every order corresponds to a schedule of the threads. *)

Section linearize.
Context {PL : Payload}.
Implicit Types (x y q : eid) (t : thread_id) (s : thread_id → nat) (σ : list thread_id).

Definition event_tid (h : heap) x : thread_id :=
  match h !! x with Some ex => ev_tid ex | None => tid_root end.

(** [y] comes before [x] in every execution. A destroyed lock or condition
    variable is assumed to be unused: the destroying event waits for its own
    thread only. *)
Definition must_precede (h : heap) y x : Prop :=
  at_event h y (λ ey, ev_kind ey ≠ program_init) ∧
  (tpred h y x ∨ at_event h x (λ ex, y ∈ predecessors ex ∧
    ev_kind ex ∉ [lock_destroy; condition_variable_destroy])).

(** The events of [l] in an order in which they can happen. *)
Definition executable (h : heap) (l : list eid) : Prop :=
  ∀ l1 x l2 y, l = l1 ++ x :: l2 → must_precede h y x → y ∈ l1.

Record linearization (h : heap) (p : eid) (l : list eid) : Prop := {
  ln_nodup : NoDup l;
  ln_elem x : x ∈ l ↔ causal_le h x p ∧ at_event h x (λ ex, ev_kind ex ≠ program_init);
  ln_order : executable h l;
}.

(** The number of context switches of an execution. *)
Definition switch_count (h : heap) (l : list eid) : nat := context_switches (event_tid h <$> l).

Context (h : heap) (p : eid) (e : event) (events : thread_events).
Hypothesis Han : analysable h p.
Hypothesis He : h !! p = Some e.
Hypothesis Hcl : collected h p e events.
Let Hwf : wf_heap h := an_wf _ _ Han.

Abbreviation vec := (vec events).
Abbreviation threads := (threads events).
Abbreviation len := (len events).
Abbreviation needs := (needs h).
Abbreviation ready := (ready h events).
Abbreviation finishes := (finishes threads len ready).
Abbreviation can_step := (can_step threads len ready).

Lemma event_tid_spec t x : is_event h t x → event_tid h x = t.
Proof. intros (ex & Hex & Ht & _). unfold event_tid. by rewrite Hex. Qed.

(** ** What an event waits for *)

Lemma needs_precede x y : causal_le h x p → y ∈ needs x → must_precede h y x.
Proof.
  intros Hx Hy. destruct (needs_below h p e events Han He Hcl x y Hx Hy) as (_ & _ & Hk). split; [done|]. right.
  destruct (cf_in _ _ (an_free _ _ Han) x Hx) as [ex Hex]. exists ex. split; [done|].
  split; [by apply (needs_pred h p e events Han He Hcl x)|]. unfold CsdProofs.needs in Hy. rewrite Hex in Hy.
  unfold ev_kind. destruct (ev_data ex); try (by apply elem_of_nil in Hy);
    intros [Hd|[Hd|[]%elem_of_nil]%elem_of_cons]%elem_of_cons; done.
Qed.

(** Other causes are on the thread of the event. *)
Lemma pred_needs x ex y :
  h !! x = Some ex → y ∈ predecessors ex → at_event h y (λ ey, ev_kind ey ≠ program_init) →
  ev_kind ex ∉ [lock_destroy; condition_variable_destroy] →
  y ∈ needs x ∨ at_event h y (λ ey, ev_tid ey = ev_tid ex).
Proof.
  intros Hex Hy (ey & Hey & Hky) Hk. pose proof (wf_class _ _ (Hwf _ _ Hex)) as Hc.
  assert (∀ q, thread_predecessor ex = Some q → y = q → at_event h y (λ ey, ev_tid ey = ev_tid ex)) as Htp.
  { intros q Hq ->. destruct (wf_thread_pred _ _ (Hwf _ _ Hex) q Hq) as (eq & Heq & Ht & _). by exists eq. }
  assert (∀ (l : eid) (Φ Ψ : event → Prop), at_event h l (λ z, Φ z ∧ Ψ z ∧ ev_tid z = ev_tid ex) → y = l →
    at_event h y (λ ey, ev_tid ey = ev_tid ex)) as Hown.
  { intros l Φ Ψ (el & Hel & _ & _ & Ht) ->. by exists el. }
  assert (∀ l : eid, y = l → y ∈ other_thread h ex l ∨ at_event h y (λ ey, ev_tid ey = ev_tid ex)) as Hother.
  { intros l ->. destruct (decide (ev_tid ey = ev_tid ex)); [right; by exists ey | left].
    apply other_thread_elem. split; [done|]. by exists ey. }
  unfold CsdProofs.needs, predecessors, thread_predecessor, class_ok, ev_kind in *. rewrite Hex.
  destruct (ev_data ex) as [tp pa| |tp nt|tp j|c|tp at_|tp lid|tp lp lid|tp lp lid k|tp lp lid k|tp cid|tp cps cid|tp l cps cid lid|tp np l cid lid k|tp cps cid|tp cps n cid] eqn:Hd;
    simpl in Hy, Htp.
  - apply list_elem_of_singleton in Hy. eauto.
  - by apply elem_of_nil in Hy.
  - apply list_elem_of_singleton in Hy. eauto.
  - apply elem_of_cons in Hy as [Hy|Hy]; eauto.
  - apply list_elem_of_singleton in Hy as ->. rewrite Hey. left.
    rewrite (proj2 (kind_eqb_ne _ _) Hky). left.
  - apply list_elem_of_singleton in Hy. eauto.
  - apply list_elem_of_singleton in Hy. eauto.
  - set_solver.
  - apply two_predecessors_elem in Hy as [Hy|Hy]; [eauto|]. subst lp. destruct (Hother y eq_refl); [by left | by right].
  - apply two_predecessors_elem in Hy as [Hy|[= Hy]]; [eauto|]. right. eapply Hown; [exact Hc | done].
  - apply list_elem_of_singleton in Hy. eauto.
  - set_solver.
  - apply elem_of_cons in Hy as [Hy|[Hy|Hy]%elem_of_cons]; [eauto | | by left]. right. by eapply Hown; [apply Hc|].
  - apply elem_of_cons in Hy as [Hy|[Hy|Hy]%elem_of_cons]; [eauto | subst; left; left|].
    apply list_elem_of_singleton in Hy. destruct (Hother l Hy); [left; by right | by right].
  - apply elem_of_cons in Hy as [Hy|Hy]; [eauto | by left].
  - apply elem_of_cons in Hy as [Hy|Hy]; [eauto | by left].
Qed.

(** ** Executions and schedules *)

(** The events in [l] are the first [s t] events of every thread. *)
Definition taken s (l : list eid) : Prop := ∀ t i y, vec t !! i = Some y → y ∈ l ↔ i < s t.

Lemma taken_nil : taken (λ _, 0) [].
Proof. intros t i y _. rewrite elem_of_nil. lia. Qed.

Lemma taken_snoc s l t x :
  taken s l → vec t !! s t = Some x → taken (step s t) (l ++ [x]).
Proof.
  intros Ht Hx u i y Hy. rewrite elem_of_app, list_elem_of_singleton, (Ht u i y Hy).
  destruct (decide (u = t)) as [->|Hne].
  - rewrite step_eq. split; [intros [?| ->]; [lia|]|].
    + rewrite (place_unique h p e events Han Hcl t i (s t) x Hy Hx). lia.
    + intros Hi. destruct (decide (i = s t)) as [->|]; [right; congruence | left; lia].
  - rewrite step_ne by done. split; [|by left]. intros [?| ->]; [done|]. exfalso. apply Hne.
    destruct (place_event h p e events Hcl u i x Hy) as (_ & _ & <-%event_tid_spec).
    by destruct (place_event h p e events Hcl t (s t) x Hx) as (_ & _ & <-%event_tid_spec).
Qed.

(** The predecessor on the thread is the event one place earlier. *)
Lemma chain_tpred t i x y :
  vec t !! i = Some x → tpred h y x → ∃ j, i = S j ∧ vec t !! j = Some y.
Proof.
  intros Hx (ex & Hex & Hy). destruct (place_event h p e events Hcl t i x Hx) as (Ht & _ & _).
  pose proof (vec_chain h p e events Hcl t Ht i x Hx) as Hc. destruct i as [|j].
  - destruct Hc as (ex' & Hex' & Hn). congruence.
  - destruct Hc as (q & Hq & ex' & Hex' & Hn). exists j. split; [done|]. congruence.
Qed.

Lemma lin_finishes l2 : ∀ l1 s,
  linearization h p (l1 ++ l2) → taken s l1 → finishes s (event_tid h <$> l2).
Proof.
  induction l2 as [|x l2 IH]; intros l1 s Hlin Hs.
  { constructor. intros t Ht. destruct (decide (s t < len t)) as [Hlt|]; [|lia].
    destruct (lookup_lt_is_Some_2 (vec t) (s t) Hlt) as [y Hy].
    destruct (place_event h p e events Hcl t _ y Hy) as (_ & Hyp & ey & Hey & _ & Hk).
    assert (y ∈ l1 ++ []) as Hin by (apply (ln_elem _ _ _ Hlin); split; [done | by exists ey]).
    rewrite app_nil_r in Hin. apply (Hs t _ y Hy) in Hin. lia. }
  destruct (proj1 (ln_elem _ _ _ Hlin x)) as (Hxp & ex & Hex & Hk); [apply elem_of_app; right; left|].
  destruct (event_place h p e events Hcl x ex Hxp Hex Hk) as (Ht & j & Hj). set (t := ev_tid ex) in *.
  assert (∀ y, must_precede h y x → y ∈ l1) as Hbefore by (intros y; by apply (ln_order _ _ _ Hlin l1 x l2)).
  assert (j = s t) as ->.
  { assert (x ∉ l1) as Hnot.
    { intros Hin. pose proof (ln_nodup _ _ _ Hlin) as Hnd. apply NoDup_app in Hnd as (_ & Hd & _).
      by apply (Hd x Hin); left. }
    rewrite (Hs t j x Hj) in Hnot. pose proof (vec_chain h p e events Hcl t Ht j x Hj) as Hc.
    destruct j as [|j]; [lia|]. destruct Hc as (q & Hq & Htq).
    assert (q ∈ l1) as Hin.
    { apply Hbefore. split; [|by left]. destruct (place_event h p e events Hcl t j q Hq) as (_ & _ & eq & Heq & _ & Hkq).
      by exists eq. }
    apply (Hs t j q Hq) in Hin. lia. }
  assert (event_tid h x = t) as Htid by (unfold event_tid; by rewrite Hex).
  cbn [fmap list_fmap]. rewrite Htid. constructor.
  - split_and!; [done | by eapply lookup_lt_Some|]. exists x. split; [done|]. intros y Hy.
    pose proof (Hbefore y (needs_precede x y Hxp Hy)) as Hin.
    destruct (needs_below h p e events Han He Hcl x y Hxp Hy) as (_ & Hyp & ey & Hey & Hky).
    destruct (event_place h p e events Hcl y ey Hyp Hey Hky) as (_ & i & Hi).
    exists ey. split; [done|]. exists i. split; [done|]. by apply (Hs _ i y Hi).
  - apply (IH (l1 ++ [x])); [by rewrite <-app_assoc | by apply taken_snoc].
Qed.

(** What must precede the next event of a thread has been taken. *)
Lemma next_preceded s l t x y :
  can_step s t → vec t !! s t = Some x → taken s l → must_precede h y x → y ∈ l.
Proof.
  intros (Ht & _ & x' & Hx' & Hn) Hx Hs [Hky [Htp|(ex & Hex & Hp & Hk)]];
    assert (x' = x) as -> by congruence.
  { destruct (chain_tpred t (s t) x y Hx Htp) as (j & Hj & Hy). apply (Hs t j y Hy). lia. }
  destruct (place_event h p e events Hcl t _ x Hx) as (_ & Hxp & ex' & Hex' & Htx & _).
  assert (ex' = ex) as -> by congruence. subst t.
  destruct (pred_needs x ex y Hex Hp Hky Hk) as [Hy|(ey & Hey & Hty)].
  - destruct (Hn y Hy) as (ey & Hey & i & Hi & Hlt). by apply (Hs _ i y Hi).
  - destruct Hky as (ey' & Hey' & Hky). assert (ey' = ey) as -> by congruence.
    assert (causal_lt h y x) as Hlt by (apply tc_once; by exists ex).
    assert (causal_le h y p) as Hyp by (etrans; [apply causal_le_alt; by right | done]).
    destruct (event_place h p e events Hcl y ey Hyp Hey Hky) as (_ & i & Hi).
    rewrite Hty in Hi. apply (Hs _ i y Hi). destruct (decide (i < s (ev_tid ex))) as [|Hge]; [done|].
    apply causal_lt_dep in Hlt; [|done].
    pose proof (proj2 (place_depth h p e events Han Hcl _ _ _ x y Hx Hi) ltac:(lia)). lia.
Qed.

Lemma executable_snoc l x :
  executable h l → (∀ y, must_precede h y x → y ∈ l) → executable h (l ++ [x]).
Proof.
  intros Hl Hx l1 z l2 y Heq Hy. destruct l2 as [|w l2 _] using rev_ind.
  - apply app_inj_2 in Heq as [<- [= <-]]; [|done]. by apply Hx.
  - rewrite app_comm_cons, app_assoc in Heq. apply app_inj_2 in Heq as [-> _]; [|done]. by eapply Hl.
Qed.

Lemma finishes_lin s σ : finishes s σ → ∀ l,
  taken s l → NoDup l → executable h l →
  (∀ x, x ∈ l → causal_le h x p ∧ at_event h x (λ ex, ev_kind ex ≠ program_init)) →
  ∃ l2, event_tid h <$> l2 = σ ∧ linearization h p (l ++ l2).
Proof.
  induction 1 as [s Hf|s t σ Hc Hf IH]; intros l Hs Hnd Hex Hin.
  - exists []. split; [done|]. rewrite app_nil_r. split; [done | | done].
    intros x. split; [apply Hin|]. intros (Hx & ex & Hexx & Hk).
    destruct (event_place h p e events Hcl x ex Hx Hexx Hk) as (Ht & i & Hi).
    apply (Hs _ i x Hi). apply lookup_lt_Some in Hi. specialize (Hf _ Ht). unfold CsdProofs.len in Hf. lia.
  - pose proof Hc as (Ht & Hlt & _). destruct (lookup_lt_is_Some_2 (vec t) (s t) Hlt) as [x Hx].
    destruct (place_event h p e events Hcl t _ x Hx) as (_ & Hxp & Hev).
    destruct (IH (l ++ [x])) as (l2 & <- & Hlin).
    + by apply taken_snoc.
    + apply NoDup_app. split_and!; [done | | apply NoDup_singleton].
      intros z Hz ->%list_elem_of_singleton. apply (Hs t _ x Hx) in Hz. lia.
    + apply executable_snoc; [done|]. intros y Hy. by eapply next_preceded.
    + intros z [Hz| ->%list_elem_of_singleton]%elem_of_app; [by apply Hin|]. split; [done|].
      destruct Hev as (ex & Hexx & _ & Hk). by exists ex.
    + exists (x :: l2). rewrite <-app_assoc in Hlin. split; [|done]. cbn [fmap list_fmap].
      by rewrite (event_tid_spec t x Hev).
Qed.

Lemma lin_schedule σ :
  finishes (λ _, 0) σ ↔ ∃ l, linearization h p l ∧ event_tid h <$> l = σ.
Proof.
  split.
  - intros Hf. destruct (finishes_lin _ _ Hf []) as (l & Hl & Hlin).
    + apply taken_nil.
    + by constructor.
    + intros l1 x l2 y Heq. by destruct l1.
    + by intros x ?%elem_of_nil.
    + by exists l.
  - intros (l & Hlin & <-). by apply (lin_finishes l []); [|apply taken_nil].
Qed.

(** Every execution starts with the initial thread. *)
Lemma first_step t : can_step (λ _, 0) t → t = initial_thread.
Proof.
  intros (Ht & _ & x & Hx & Hn). destruct (place_event h p e events Hcl t _ x Hx) as (_ & Hxp & ex & Hex & <- & Hk).
  pose proof (vec_chain h p e events Hcl _ Ht 0 x Hx) as (ex' & Hex' & Htp).
  assert (ex' = ex) as -> by congruence.
  destruct (ev_data ex) as [| | | |c| | | | | | | | | | |] eqn:Hd;
    unfold thread_predecessor, ev_kind in *; rewrite Hd in *; try done.
  apply (an_start _ _ Han x ex c); [done..|].
  pose proof (wf_class _ _ (Hwf _ _ Hex)) as Hc. unfold class_ok in Hc. rewrite Hd in Hc.
  destruct Hc as (ec & Hec & _). exists ec. split; [done|].
  unfold CsdProofs.needs in Hn. rewrite Hex, Hd, Hec in Hn.
  destruct (kind_eqb (ev_kind ec) program_init) eqn:Hki; [by apply kind_eqb_eq|].
  destruct (Hn c ltac:(left)) as (_ & _ & i & _ & Hlt). lia.
Qed.

Lemma first_can_step : can_step (λ _, 0) initial_thread.
Proof.
  destruct (live h p e events Han He Hcl (λ _, 0)) as [t Ht].
  - destruct (cl_first _ _ _ _ Hcl) as (v & ev' & Hev). exists initial_thread.
    assert (initial_thread ∈ threads) as Hin by (unfold CsdProofs.threads; rewrite Hev; left).
    split; [done|]. by eapply len_pos.
  - by rewrite (first_step t Ht) in Ht.
Qed.

(** The degrees of the search are the switches of the executions. *)
Lemma degree_lin k :
  degree threads len ready (λ _, 0) initial_thread k ↔
  ∃ l, linearization h p l ∧ switch_count h l = k.
Proof.
  unfold degree, switch_count. split.
  - intros (σ & Hf & <-). apply lin_schedule in Hf as (l & Hlin & Hl). exists l. by rewrite Hl.
  - intros (l & Hlin & <-). pose proof (proj2 (lin_schedule _) (ex_intro _ l (conj Hlin eq_refl))) as Hf.
    destruct (event_tid h <$> l) as [|t σ].
    { inversion Hf as [? Hfin|]; subst. pose proof first_can_step as (Ht & Hlt & _).
      specialize (Hfin _ Ht). cbv beta in *. lia. }
    inversion Hf as [|? ? ? Hc Hσ]; subst. rewrite (first_step t Hc) in *. by exists σ.
Qed.
End linearize.

Section props.
Context {PL : Payload}.
Implicit Types (h : heap) (p : eid).

Section search.
Context (h : heap) (p : eid) (e : event) (events : thread_events).
Hypothesis Han : analysable h p.
Hypothesis He : h !! p = Some e.
Hypothesis Hcl : collected h p e events.

Abbreviation start := (λ _ : thread_id, 0).
Abbreviation remaining := (remaining (threads events) (len events)).
Abbreviation degree := (degree (threads events) (len events) (ready h events)).

Lemma start_bounded : bounded events start.
Proof. intros t. lia. Qed.

Lemma fuel_remaining : search_fuel events = remaining start.
Proof.
  unfold search_fuel, Schedule.remaining, threads, smap_keys.
  assert (∀ l, (∀ t v, (t, v) ∈ l → v = vec events t) →
    sum_list_with (λ x : thread_id * list eid, length x.2) l =
    sum_list_with (λ t, len events t - 0) l.*1) as Hgen.
  { induction l as [|[t v] l IH]; intros Hl; [done|]. cbn [sum_list_with fmap list_fmap fst snd]. rewrite (Hl t v) by left.
    rewrite IH; [unfold len; by rewrite Nat.sub_0_r|]. intros u w Hw. apply Hl. by right. }
  apply Hgen. intros t v Hv. apply smap_elem_find in Hv; [|apply Hcl].
  by apply (in_threads h p e events Hcl) in Hv as [_ ?].
Qed.

Lemma lin_length l : linearization h p l → length l = remaining start.
Proof.
  intros Hlin. pose proof (proj2 (lin_schedule h p e events Han He Hcl _) (ex_intro _ l (conj Hlin eq_refl))) as Hf.
  rewrite <-(finishes_length _ _ _ _ _ (threads_nodup h p e events Hcl) Hf). by rewrite length_fmap.
Qed.

Lemma lin_exists : ∃ l, linearization h p l.
Proof.
  destruct (degree_exists (threads events) (len events) (ready h events) (live h p e events Han He Hcl)
    start initial_thread) as [k Hk].
  - by eapply threads_nodup.
  - by eapply first_can_step.
  - apply (degree_lin h p e events Han He Hcl) in Hk as (l & Hl & _). eauto.
Qed.

Lemma remaining_size : remaining start ≤ size h.
Proof.
  destruct lin_exists as [l Hl]. rewrite <-(lin_length l Hl). apply stored_length; [apply Hl|].
  intros x Hx. apply (ln_elem _ _ _ Hl) in Hx as [Hx _]. by apply (cf_in _ _ (an_free _ _ Han)).
Qed.

(** Every thread but the first is switched to. *)
Lemma switch_threads l : linearization h p l → compute_thread_count e ≤ S (switch_count h l).
Proof.
  intros Hl. rewrite <-(cl_count _ _ _ _ Hcl).
  assert (degree start initial_thread (switch_count h l)) as Hd
    by (apply (degree_lin h p e events Han He Hcl); eauto).
  apply degree_threads in Hd.
  - unfold threads, smap_keys in Hd. by rewrite length_fmap in Hd.
  - by eapply threads_nodup.
  - intros u Hu. by eapply len_pos.
Qed.

(** An execution of one thread does not switch. *)
Lemma one_thread l : linearization h p l → compute_thread_count e ≤ 1 → switch_count h l = 0.
Proof.
  intros Hl Hc. rewrite <-(cl_count _ _ _ _ Hcl) in Hc.
  destruct (cl_first _ _ _ _ Hcl) as (v & ev' & Hev). rewrite Hev in Hc. simpl in Hc.
  assert (ev' = []) as -> by (destruct ev'; [done | simpl in Hc; lia]).
  assert (∀ x, x ∈ l → event_tid h x = initial_thread) as Ht.
  { intros x Hx. apply (ln_elem _ _ _ Hl) in Hx as (Hx & ex & Hex & Hk).
    destruct (event_place h p e events Hcl x ex Hx Hex Hk) as [Ht _]. unfold threads in Ht.
    rewrite Hev in Ht. unfold event_tid. rewrite Hex. by apply list_elem_of_singleton in Ht. }
  unfold switch_count. clear - Ht. destruct l as [|x l]; [done|]. simpl. rewrite (Ht x) by left.
  assert (∀ y, y ∈ l → event_tid h y = initial_thread) as Ht' by (intros; apply Ht; by right). clear Ht.
  induction l as [|y l IH]; [done|]. simpl. rewrite (Ht' y) by left. rewrite bool_decide_true by done.
  apply IH. intros z Hz. apply Ht'. by right.
Qed.

Lemma thread_count_pos : compute_thread_count e ≠ 0.
Proof.
  rewrite <-(cl_count _ _ _ _ Hcl). destruct (cl_first _ _ _ _ Hcl) as (v & ev' & ->). done.
Qed.

Lemma search_first : ∃ v, list.head events = Some (initial_thread, v).
Proof. destruct (cl_first _ _ _ _ Hcl) as (v & ev' & ->). by exists v. Qed.
End search.

(** C35: for an event whose causes are free of conflicts, [compute_csd_1]
    terminates without a failed assertion and returns the least number of
    context switches over all executions of the event's causes: some execution
    has that many switches and none has fewer. As in the code, destroy events
    are taken not to race: an execution orders them by [must_precede], after
    the events of their own thread only. *)
Theorem compute_csd_1_exact h p :
  analysable h p → (N.of_nat (size h) < 2 ^ 64 - 1)%N →
  ∃ k, compute_csd_1 h p = Ok k ∧
    (∃ l, linearization h p l ∧ N.of_nat (switch_count h l) = k) ∧
    ∀ l, linearization h p l → (k ≤ N.of_nat (switch_count h l))%N.
Proof.
  intros Han Hsize. destruct (an_event _ _ Han) as (e & He & Hk).
  destruct (collect_spec h p e Han He) as (events & Hev & Hcl).
  destruct (lin_exists h p e events Han He Hcl) as [l0 Hl0].
  unfold compute_csd_1. rewrite (proj2 (deref_ok h p e) He), bind_Ok_l.
  destruct (Nat.leb_spec (compute_thread_count e) 1) as [Hone|Hmore].
  { assert (negb (compute_thread_count e =? 0) = true) as ->
      by (apply negb_true_iff, Nat.eqb_neq; by eapply thread_count_pos).
    exists 0%N. split; [done|]. split; [|lia]. exists l0. split; [done|].
    by rewrite (one_thread h p e events Hcl l0). }
  destruct (search_first h p e events Hcl) as [v Hv]. rewrite Hev, bind_Ok_l, Hv.
  cbn [in_range]. rewrite bind_Ok_l. cbn [fst].
  pose proof (remaining_size h p e events Han He Hcl) as Hrem.
  destruct (search_spec h p e events Han He Hcl (search_fuel events) (λ _, 0) initial_thread (2 ^ 64 - 2)%N)
    as (r & Hr & Hle & Hmin & Hdeg); [apply start_bounded | by eapply first_can_step
      | by rewrite (fuel_remaining h p e events Hcl) | lia |].
  assert (∀ l, linearization h p l → (r ≤ N.of_nat (switch_count h l))%N) as Hlow.
  { intros l Hl. apply Hmin. apply (degree_lin h p e events Han He Hcl). eauto. }
  exists r. split; [exact Hr|]. split; [|done].
  assert (switch_count h l0 < remaining (threads events) (len events) (λ _, 0)) as Hb.
  { apply (degree_bound (threads events) (len events) (ready h events) (λ _, 0) initial_thread).
    - by eapply threads_nodup.
    - apply (degree_lin h p e events Han He Hcl). eauto. }
  specialize (Hlow l0 Hl0) as H0.
  destruct (proj1 (degree_lin h p e events Han He Hcl _) (Hdeg ltac:(lia))) as (l & Hl & Hsw).
  exists l. split; [done|]. rewrite Hsw. lia.
Qed.

(** C36: [is_above_csd_limit_1] terminates without a failed assertion and
    answers yes exactly if every execution of the event's causes has more
    context switches than the limit; executions order destroy events by
    [must_precede], as the code does. *)
Theorem is_above_csd_limit_1_exact h p limit :
  analysable h p → (N.of_nat (size h) < 2 ^ 64)%N →
  ∃ b, is_above_csd_limit_1 h p limit = Ok b ∧
    (b = true ↔ ∀ l, linearization h p l → (limit < N.of_nat (switch_count h l))%N).
Proof.
  intros Han Hsize. destruct (an_event _ _ Han) as (e & He & Hk).
  destruct (collect_spec h p e Han He) as (events & Hev & Hcl).
  destruct (lin_exists h p e events Han He Hcl) as [l0 Hl0].
  unfold is_above_csd_limit_1. rewrite (proj2 (deref_ok h p e) He), bind_Ok_l.
  destruct (Nat.leb_spec (compute_thread_count e) 1) as [Hone|Hmore].
  { assert (negb (compute_thread_count e =? 0) = true) as ->
      by (apply negb_true_iff, Nat.eqb_neq; by eapply thread_count_pos).
    exists false. split; [done|]. split; [done|]. intros Hall. specialize (Hall l0 Hl0).
    rewrite (one_thread h p e events Hcl l0) in Hall by done. lia. }
  destruct (N.ltb_spec limit (N.of_nat (compute_thread_count e - 1))) as [Hlim|Hlim].
  { exists true. split; [done|]. split; [|done]. intros _ l Hl.
    pose proof (switch_threads h p e events Han He Hcl l Hl). lia. }
  destruct (search_first h p e events Hcl) as [v Hv]. rewrite Hev, bind_Ok_l, Hv.
  cbn [in_range]. rewrite bind_Ok_l. cbn [fst].
  pose proof (remaining_size h p e events Han He Hcl) as Hrem.
  destruct (limit_search_spec h p e events Han He Hcl (search_fuel events) (λ _, 0) initial_thread 0%N limit)
    as (b & Hb & Hbk); [apply start_bounded | by eapply first_can_step
      | by rewrite (fuel_remaining h p e events Hcl) | lia | lia |].
  exists b. split; [exact Hb|]. split.
  - intros -> l Hl. destruct (N.lt_ge_cases limit (N.of_nat (switch_count h l))) as [|Hge]; [done|].
    assert (true = false) as Hc; [|done]. apply Hbk. exists (switch_count h l). split; [|lia].
    apply (degree_lin h p e events Han He Hcl). eauto.
  - intros Hall. destruct b; [done|]. destruct (proj1 Hbk eq_refl) as (k & Hdk & Hle).
    apply (degree_lin h p e events Han He Hcl) in Hdk as (l & Hl & <-). specialize (Hall l Hl). lia.
Qed.
End props.

(** ** The theorems on the example *)

Lemma conflict_free_below {PL : Payload} (h : heap) (C : eid → Prop) (p : eid) :
  conflict_free h C → C p → conflict_free h (λ x, causal_le h x p).
Proof.
  intros HC Hp. assert (∀ x, causal_le h x p → C x) as Hsub by (intros; by eapply (cf_closed _ _ HC)).
  split.
  - intros x Hx. by apply (cf_in _ _ HC), Hsub.
  - intros x y Hy Hx. by etrans.
  - intros x y ex ey Hx Hy. apply (cf_init _ _ HC); auto.
  - intros x y q Hx Hy. apply (cf_thread _ _ HC); auto.
Qed.

Lemma demo_analysable : analysable demo 9.
Proof.
  assert (9%N ∈ demo_conf) as H9 by (apply (bool_decide_unpack _); vm_compute; exact I).
  assert (∀ x, causal_le demo x 9%N → x ∈ demo_conf) as Hsub
    by (intros x Hx; by apply (cf_closed _ _ demo_conflict_free x 9%N)).
  split.
  - apply demo_wf.
  - exact (conflict_free_below demo (λ x, x ∈ demo_conf) 9 demo_conflict_free H9).
  - intros x c ex ec Hx. by apply demo_creators_first, Hsub.
  - intros x ex c Hx%Hsub Hex Hd (ec & Hec & Hk). unfold demo_conf in Hx.
    repeat (apply elem_of_cons in Hx as [->|Hx]); [..|by apply elem_of_nil in Hx];
      vm_compute in Hex; injection Hex as <-; try done; simpl in Hd; injection Hd as <-;
      vm_compute in Hec; injection Hec as <-; done.
  - eexists. split; [vm_compute; reflexivity | done].
Qed.

Lemma compute_csd_1_exact_witness :
  ∃ k, compute_csd_1 demo 9 = Ok k ∧
    (∃ l, linearization demo 9 l ∧ N.of_nat (switch_count demo l) = k) ∧
    ∀ l, linearization demo 9 l → (k ≤ N.of_nat (switch_count demo l))%N.
Proof. apply (compute_csd_1_exact demo 9); [apply demo_analysable | vm_compute; reflexivity]. Defined.

Lemma is_above_csd_limit_1_exact_witness :
  ∃ b, is_above_csd_limit_1 demo 9 0 = Ok b ∧
    (b = true ↔ ∀ l, linearization demo 9 l → (0 < N.of_nat (switch_count demo l))%N).
Proof.
  apply (is_above_csd_limit_1_exact demo 9 0); [apply demo_analysable | vm_compute; reflexivity].
Defined.

Example demo_degree : compute_csd_1 demo 9 = Ok 1%N ∧ is_above_csd_limit_1 demo 9 1 = Ok false.
Proof. split; vm_compute; reflexivity. Qed.
