(* ===== verification/Csd2.v ===== *)
(** * The context-switch degree in use ([lib/Por/csd2.cpp])

    [is_above_csd_limit] forwards to this second implementation. It counts
    preemptions only: leaving a thread is free when the thread has no event
    left, or when its next event waits for another thread to act. To tell,
    the search keeps which locks are taken. It keeps one object for the whole
    search, advances a thread in it before a recursive call and reverts the
    thread afterwards, and it leaves out events that cannot matter. *)

From stdpp Require Import base tactics list gmap numbers.
From S2P Require Import Prelude StdMap ThreadId Event Comb Cone Alloc Unfolding Csd.

Inductive enabled_t := ENABLED | PREEMPTING_DISABLED | NONPREEMPTING_DISABLED.

Definition is_enabled_t (x : enabled_t) : bool := match x with ENABLED => true | _ => false end.

Section csd2.
Context {PL : Payload}.
Implicit Types (h : heap) (e : event) (t : thread_id).

(** The events of a thread are kept latest first; the number counts those
    that have not run. *)
Record csd_search_t := CsdSearch {
  cs_advancement : advancement;
  cs_locked : smap N bool;
}.
Implicit Types (st : csd_search_t).

(** ** Enabled events *)

Definition has_run_2 h st (p : eid) : res bool :=
  e ← deref h p;
  '(evs, n) ← smap_at (ev_tid e) (cs_advancement st);
  match evs !! n with
  | None => Ok false
  | Some q => eq ← deref h q; Ok (Nat.leb (ev_depth e) (ev_depth eq))
  end.

(** [lock_pred->tid() == ev->tid() || has_run(lock_pred)]. *)
Definition lock_available_2 h st e (lock_pred : eid) : res bool :=
  el ← deref h lock_pred;
  if tid_eqb (ev_tid el) (ev_tid e) then Ok true else has_run_2 h st lock_pred.

Definition lock_preemption h st e (lock_pred : eid) : res enabled_t :=
  available ← lock_available_2 h st e lock_pred;
  if (available : bool) then Ok ENABLED
  else
    taken ← smap_at (ev_lid e) (cs_locked st);
    Ok (if (taken : bool) then NONPREEMPTING_DISABLED else PREEMPTING_DISABLED).

Definition event_preemption h st (p : eid) : res enabled_t :=
  e ← deref h p;
  match ev_data e with
  | ThreadJoin _ joined_pred =>
      run ← has_run_2 h st joined_pred;
      Ok (if (run : bool) then ENABLED else NONPREEMPTING_DISABLED)
  | ThreadInit creation_pred =>
      ec ← deref h creation_pred;
      if kind_eqb (ev_kind ec) program_init then Ok ENABLED
      else
        run ← has_run_2 h st creation_pred;
        Ok (if (run : bool) then ENABLED else NONPREEMPTING_DISABLED)
  | LockAcquire _ None _ _ => Ok ENABLED
  | LockAcquire _ (Some lock_pred) _ _ => lock_preemption h st e lock_pred
  | Wait1 _ _ cond_preds _ _ | Signal _ cond_preds _ | Broadcast _ cond_preds _ _ =>
      run ← all_of (has_run_2 h st) cond_preds;
      Ok (if (run : bool) then ENABLED else PREEMPTING_DISABLED)
  | Wait2 _ notifying_pred lock_pred _ _ _ =>
      notified ← has_run_2 h st notifying_pred;
      if negb notified then Ok NONPREEMPTING_DISABLED else lock_preemption h st e lock_pred
  | _ => Ok ENABLED
  end.

Definition event_is_enabled_2 h st (p : eid) : res bool :=
  e ← deref h p;
  match ev_data e with
  | ThreadJoin _ joined_pred => has_run_2 h st joined_pred
  | ThreadInit creation_pred =>
      ec ← deref h creation_pred;
      if kind_eqb (ev_kind ec) program_init then Ok true else has_run_2 h st creation_pred
  | LockAcquire _ None _ _ => Ok true
  | LockAcquire _ (Some lock_pred) _ _ => lock_available_2 h st e lock_pred
  | Wait1 _ _ cond_preds _ _ | Signal _ cond_preds _ | Broadcast _ cond_preds _ _ =>
      all_of (has_run_2 h st) cond_preds
  | Wait2 _ notifying_pred lock_pred _ _ _ =>
      notified ← has_run_2 h st notifying_pred;
      if negb notified then Ok false else lock_available_2 h st e lock_pred
  | _ => Ok true
  end.

(** ** Advancing and reverting a thread *)

Definition set_position t (evs : list eid) (n : nat) st : csd_search_t :=
  CsdSearch (smap_set t (evs, n) (cs_advancement st)) (cs_locked st).

(** [locked.at(lid) = b]. *)
Definition set_locked (lid : N) (b : bool) st : res csd_search_t :=
  _ ← smap_at lid (cs_locked st);
  Ok (CsdSearch (cs_advancement st) (smap_set lid b (cs_locked st))).

(** The lock is taken after these events, and free after those. *)
Definition takes_lock e : bool :=
  match ev_kind e with lock_acquire | wait2 => true | _ => false end.

Definition frees_lock e : bool :=
  match ev_kind e with lock_release | wait1 => true | _ => false end.

Definition run_lock e st : res csd_search_t :=
  if takes_lock e then set_locked (ev_lid e) true st
  else if frees_lock e then set_locked (ev_lid e) false st
  else Ok st.

Definition revert_lock e st : res csd_search_t :=
  if takes_lock e then set_locked (ev_lid e) false st
  else if frees_lock e then set_locked (ev_lid e) true st
  else Ok st.

(** The loop of [advance_thread], with [n] events of the thread left. *)
Fixpoint advance_thread_loop h t (evs : list eid) (n : nat) st : res (csd_search_t * csd_t) :=
  match n with
  | O => Err AssertFailed
  | S m =>
      let st := set_position t evs m st in
      match m with
      | O => Ok (st, 0%N)
      | S k =>
          ev ← in_range (evs !! k);
          enabled ← event_preemption h st ev;
          match enabled with
          | NONPREEMPTING_DISABLED => Ok (st, 0%N)
          | PREEMPTING_DISABLED => Ok (st, 1%N)
          | ENABLED =>
              e ← deref h ev;
              st ← run_lock e st;
              advance_thread_loop h t evs m st
          end
      end
  end.

Definition advance_thread_2 h t st : res (csd_search_t * csd_t) :=
  '(evs, n) ← smap_at t (cs_advancement st);
  _ ← cassert (Nat.ltb 0 n);
  ev ← in_range (evs !! (n - 1));
  enabled ← event_preemption h st ev;
  _ ← cassert (is_enabled_t enabled);
  advance_thread_loop h t evs n st.

(** The loop of [revert_thread], [k] events before its end. *)
Fixpoint revert_thread_loop h t (evs : list eid) (n k : nat) st : res csd_search_t :=
  match k with
  | O => Ok st
  | S k' =>
      ev ← in_range (evs !! n);
      e ← deref h ev;
      st ← revert_lock e st;
      revert_thread_loop h t evs (S n) k' (set_position t evs (S n) st)
  end.

Definition revert_thread h t (to : nat) st : res csd_search_t :=
  '(evs, n) ← smap_at t (cs_advancement st);
  _ ← cassert (Nat.ltb n to && Nat.leb to (length evs));
  revert_thread_loop h t evs n (to - n) st.

(** ** The searches *)

Definition all_done st : bool :=
  forallb (λ x : thread_id * (list eid * nat), Nat.eqb x.2.2 0) (cs_advancement st).

(** A thread the search can switch to. *)
Definition switchable_2 h st (self t : thread_id) : res bool :=
  '(evs, n) ← smap_at t (cs_advancement st);
  if negb (tid_eqb t self) && Nat.ltb 0 n then
    ev ← in_range (evs !! (n - 1)); event_is_enabled_2 h st ev
  else Ok false.

(** [_is_above]: the loop leaves with [None] when an execution within the
    limit is found; otherwise it tells whether there was an alternative. *)
Fixpoint is_above_search h (fuel : nat) t st (current_csd csd_limit : csd_t)
    : res (bool * csd_search_t) :=
  '(evs, previous_advancement) ← smap_at t (cs_advancement st);
  '(st, csd_step) ← advance_thread_2 h t st;
  '(above, st) ←
    (if all_done st then Ok (false, st)
     else if (csd_limit <? csd_add current_csd csd_step)%N then Ok (true, st)
     else
       match fuel with
       | O => Err OutOfFuel
       | S fuel' =>
           '(found, st) ← for_each (λ '(found, st) u,
             match found with
             | None => Ok (None, st)
             | Some possible =>
                 sw ← switchable_2 h st t u;
                 if (sw : bool) then
                   '(above, st) ← is_above_search h fuel' u st (csd_add current_csd csd_step) csd_limit;
                   Ok (if (above : bool) then Some true else None, st)
                 else Ok (Some possible, st)
             end) (Some false, st) (smap_keys (cs_advancement st));
           match found with
           | None => Ok (false, st)
           | Some possible => _ ← cassert possible; Ok (true, st)
           end
       end);
  st ← revert_thread h t previous_advancement st;
  Ok (above, st).

(** [_compute]: the loop leaves with [inl csd] when no alternative can be
    better. *)
Fixpoint compute_search h (fuel : nat) t st (csd_budget : csd_t) : res (csd_t * csd_search_t) :=
  '(evs, previous_advancement) ← smap_at t (cs_advancement st);
  '(st, csd_step) ← advance_thread_2 h t st;
  '(csd, st) ←
    (if all_done st then Ok (0%N, st)
     else if (csd_budget <? csd_step)%N then Ok (csd_add csd_budget 1%N, st)
     else
       match fuel with
       | O => Err OutOfFuel
       | S fuel' =>
           '(found, st) ← for_each (λ '(found, st) u,
             match found with
             | inl csd => Ok (inl csd, st)
             | inr (csd, possible) =>
                 sw ← switchable_2 h st t u;
                 if (sw : bool) then
                   '(next, st) ← compute_search h fuel' u st (csd_sub (csd_sub csd 1%N) csd_step);
                   let next_csd := csd_add next csd_step in
                   if (next_csd <=? csd_step)%N then
                     _ ← cassert ((csd_step <=? csd) && (csd <=? csd_add csd_budget 1%N))%N;
                     Ok (inl next_csd, st)
                   else if (next_csd <? csd)%N then Ok (inr (next_csd, true), st)
                   else Ok (inr (csd, true), st)
                 else Ok (inr (csd, possible), st)
             end) (inr (csd_add csd_budget 1%N, false) : csd_t + csd_t * bool, st)
             (smap_keys (cs_advancement st));
           match found with
           | inl csd => Ok (csd, st)
           | inr (csd, has_enabled_events) =>
               _ ← cassert has_enabled_events;
               _ ← cassert ((csd_step <=? csd) && (csd <=? csd_add csd_budget 1%N))%N;
               Ok (csd, st)
           end
       end);
  st ← revert_thread h t previous_advancement st;
  Ok (csd, st).

(** ** Collecting the events *)

(** Some event of [preds] is not below the thread predecessor. *)
Definition waits_beyond h e (preds : list eid) : res bool :=
  match preds with
  | [] => Ok false
  | _ =>
      thread_pred ← nonnull (thread_predecessor e);
      any_of (λ q, b ← is_less_than_eq h q thread_pred; Ok (negb b)) preds
  end.

Definition may_be_blocking h (p : eid) : res bool :=
  e ← deref h p;
  match ev_data e with
  | LockAcquire thread_pred (Some lock_pred) _ _ =>
      b ← is_less_than_eq h lock_pred thread_pred; Ok (negb b)
  | ThreadInit _ | ThreadJoin _ _ | Wait2 _ _ _ _ _ _ => Ok true
  | Wait1 _ _ cond_preds _ _ | Signal _ cond_preds _ | Broadcast _ cond_preds _ _ =>
      waits_beyond h e cond_preds
  | _ => Ok false
  end.

(** [locked.try_emplace(lid, false)] for the events that change a lock. *)
Definition note_lock e (locked : smap N bool) : smap N bool :=
  if takes_lock e || frees_lock e then smap_emplace (ev_lid e) false locked else locked.

(** [vec.empty() || may_be_blocking(vec.back())]. *)
Definition keeps_next h (vec : list eid) : res bool :=
  match list.last vec with None => Ok true | Some q => may_be_blocking h q end.

Fixpoint collect_walk_2 h (fuel : nat) (ev : option eid) (vec : list eid) (locked : smap N bool)
    : res (list eid * smap N bool) :=
  match ev with
  | None => Ok (vec, locked)
  | Some p =>
      match fuel with
      | O => Err OutOfFuel
      | S fuel' =>
          e ← deref h p;
          keep ← match ev_kind e with
                 | local => Ok false
                 | thread_init | thread_join | lock_acquire | lock_release | wait1 | wait2 => Ok true
                 | _ => keeps_next h vec
                 end;
          collect_walk_2 h fuel' (thread_predecessor e) (if (keep : bool) then vec ++ [p] else vec)
            (note_lock e locked)
      end
  end.

Definition collect_thread_2 h (p : eid) e st (head : thread_id * eid) : res csd_search_t :=
  let '(tid, cone_event) := head in
  let own := tid_eqb (ev_tid e) tid in
  _ ← cassert (negb own || negb (kind_eqb (ev_kind e) thread_init));
  let locked := if own then note_lock e (cs_locked st) else cs_locked st in
  ec ← deref h cone_event;
  '(vec, locked) ← collect_walk_2 h (S (ev_depth ec)) (Some cone_event)
                     (if own then [p] else []) locked;
  back ← in_range (list.last vec);
  eb ← deref h back;
  _ ← cassert (kind_eqb (ev_kind eb) thread_init);
  Ok (CsdSearch (smap_emplace tid (vec, length vec) (cs_advancement st)) locked).

(** The constructor of [csd_search_t]. *)
Definition new_csd_search h (p : eid) : res csd_search_t :=
  e ← deref h p;
  let thread_count := compute_thread_count e in
  if Nat.leb thread_count 1 then
    _ ← cassert (Nat.ltb 0 thread_count); Ok (CsdSearch [] [])
  else
    let st := if kind_eqb (ev_kind e) thread_init
              then CsdSearch (smap_emplace (ev_tid e) ([p], 1) []) [] else CsdSearch [] [] in
    st ← for_each (collect_thread_2 h p e) st (ev_cone e);
    first ← match cs_advancement st with [] => Err AssertFailed | x :: _ => Ok x end;
    _ ← cassert (tid_eqb first.1 initial_thread);
    Ok st.

(** ** The analyses *)

(** Every recursive call runs at least one event, so the number of events
    bounds their depth. *)
Definition is_above_csd_limit_2 h (p : eid) (limit : csd_t) : res bool :=
  st ← new_csd_search h p;
  match cs_advancement st with
  | [] => Ok false
  | (first, _) :: _ => '(b, _) ← is_above_search h (size h) first st 0%N limit; Ok b
  end.

Definition compute_csd_2 h (p : eid) : res csd_t :=
  st ← new_csd_search h p;
  match cs_advancement st with
  | [] => Ok 0%N
  | (first, _) :: _ =>
      '(csd, _) ← compute_search h (size h) first st (2 ^ 64 - 2)%N; Ok csd
  end.

(** [csd.h]: the analysis in use. *)
Definition is_above_csd_limit h (p : eid) (limit : csd_t) : res bool := is_above_csd_limit_2 h p limit.
End csd2.
