(* ===== verification/Csd2Base.v ===== *)
(** * What the second analysis of the context-switch degree relies on

    [csd2.cpp] leaves out events that, as it expects, never wait. That holds
    for programs that notify and destroy only what they have synchronised
    with; the comments of the code call everything else a race. *)

From stdpp Require Import base tactics list gmap numbers relations sorting.
From S2P Require Import Prelude StdMap ThreadId Event Comb CombEnum CombProofs Cone Alloc Causality.
From S2P Require Import Order Walks Unfolding Csd Schedule CsdProofs CsdProps Csd2.

Section base.
Context {PL : Payload}.
Implicit Types (x y z q : eid) (t u : thread_id) (s : thread_id → nat).

(** Notifications and destructions come after everything they depend on, and
    events wait for events of other threads only. *)
Record disciplined (h : heap) (p : eid) : Prop := {
  di_analysable : analysable h p;
  di_sync x ex q : causal_le h x p → h !! x = Some ex →
    ev_kind ex ∈ [signal; broadcast; lock_destroy; condition_variable_destroy] →
    q ∈ predecessors ex → ∃ tp, thread_predecessor ex = Some tp ∧ causal_le h q tp;
  di_other x y : causal_le h x p → y ∈ needs h x → event_tid h y ≠ event_tid h x;
}.

Context (h : heap) (p : eid) (e : event) (events : thread_events).
Hypothesis Hdi : disciplined h p.
Hypothesis He : h !! p = Some e.
Hypothesis Hcl : collected h p e events.
Let Han : analysable h p := di_analysable _ _ Hdi.
Let Hwf : wf_heap h := an_wf _ _ Han.

Abbreviation vec := (vec events).
Abbreviation threads := (threads events).
Abbreviation len := (len events).
Abbreviation needs := (needs h).
Abbreviation ran := (ran h events).
Abbreviation ready := (ready h events).
Abbreviation can_step := (can_step threads len ready).
Abbreviation bounded := (bounded events).

(** ** Events that have run *)

(** What an event that has run waited for has run. *)
Definition closed s : Prop := ∀ x y, ran s x → y ∈ needs x → ran s y.

Lemma ran_place s t i x : vec t !! i = Some x → ran s x ↔ i < s t.
Proof.
  intros Hi. destruct (place_event h p e events Hcl t i x Hi) as (_ & _ & ex & Hex & Ht & _). split.
  - intros (ex' & Hex' & j & Hj & Hlt). assert (ex' = ex) as -> by congruence. rewrite Ht in *.
    by rewrite (place_unique h p e events Han Hcl t i j x Hi Hj).
  - intros Hlt. exists ex. split; [done|]. exists i. by rewrite Ht.
Qed.

Lemma ran_stored s x : ran s x → ∃ t i, vec t !! i = Some x ∧ i < s t.
Proof. intros (ex & _ & i & Hi & Hlt). eauto. Qed.

Lemma ran_step s t x : vec t !! s t = Some x → ∀ y, ran (step s t) y ↔ ran s y ∨ y = x.
Proof.
  intros Hx y. split.
  - intros Hy. destruct (ran_stored _ _ Hy) as (u & i & Hi & Hlt). rewrite (ran_place s u i y Hi).
    destruct (decide (u = t)) as [->|Hne]; [|by rewrite step_ne in Hlt; auto].
    rewrite step_eq in Hlt. destruct (decide (i = s t)) as [->|]; [right; congruence | left; lia].
  - intros [Hy| ->].
    + eapply ran_mono; [|exact Hy]. apply behind_stepped.
    + rewrite (ran_place _ t (s t) x Hx), step_eq. lia.
Qed.

Lemma closed_step s t : closed s → can_step s t → closed (step s t).
Proof.
  intros Hc (_ & _ & x & Hx & Hn) z y Hz Hy. apply (ran_step s t x Hx).
  apply (ran_step s t x Hx) in Hz as [Hz| ->]; left; [by eapply Hc | by apply Hn].
Qed.

Lemma closed_start : closed (λ _, 0).
Proof. intros x y (t & i & _ & Hlt)%ran_stored. lia. Qed.

Lemma earlier_ran s t x y ex ey :
  ran s x → causal_lt h y x → causal_le h x p → h !! x = Some ex → h !! y = Some ey →
  ev_tid ey = ev_tid ex → ev_kind ey ≠ program_init → ran s y.
Proof.
  intros Hr Hlt Hxp Hex Hey Ht Hk. assert (causal_le h y p) as Hyp.
  { etrans; [|exact Hxp]. apply causal_le_alt. by right. }
  destruct (event_place h p e events Hcl y ey Hyp Hey Hk) as (_ & j & Hj).
  destruct Hr as (ex' & Hex' & i & Hi & Hs). assert (ex' = ex) as -> by congruence. rewrite Ht in Hj.
  apply (ran_place s _ j y Hj). enough (j ≤ i) by lia.
  apply (place_depth h p e events Han Hcl _ j i y x Hj Hi). apply Nat.lt_le_incl. by apply causal_lt_dep.
Qed.

Lemma not_root_tid x ex : h !! x = Some ex → ev_kind ex ≠ program_init → ev_tid ex ≠ tid_root.
Proof. intros Hex Hk Ht. apply Hk. by apply (wf_tid _ _ (Hwf _ _ Hex)). Qed.

(** All causes of an event that has run have run. *)
Lemma ran_down s : closed s → ∀ x y, ran s x → causal_le h x p → causal_le h y x →
  at_event h y (λ ey, ev_kind ey ≠ program_init) → ran s y.
Proof.
  intros Hc x. remember (dep h x) as d eqn:Hd. revert x Hd.
  induction d as [d IH] using lt_wf_ind. intros x -> y Hx Hxp Hle Hky.
  apply causal_le_alt in Hle as [->|Hlt]; [done|].
  apply causal_lt_alt in Hlt as (ex & Hex & q & Hq & Hyq).
  assert (imm h q x) as Hqx by (by exists ex). assert (causal_lt h q x) as Hqlt by (by apply tc_once).
  assert (causal_le h q p) as Hqp by (etrans; [by apply rtc_once | done]).
  assert (ran s q → ran s y) as Hdown.
  { intros Hrq. apply (IH (dep h q)) with q; [by apply imm_dep | done..]. }
  assert (at_event h q (λ eq, ev_kind eq ≠ program_init)) as (eq & Heq & Hkq).
  { destruct (cf_in _ _ (an_free _ _ Han) q Hqp) as [eq Heq]. exists eq. split; [done|]. intros Hk.
    destruct Hky as (ey & Hey & Hky). apply causal_le_alt in Hyq as [->|Hyq]; [congruence|].
    apply causal_lt_alt in Hyq as (eq' & Heq' & r & Hr & _). assert (eq' = eq) as -> by congruence.
    unfold predecessors, ev_kind in *. by destruct (ev_data eq); try apply elem_of_nil in Hr. }
  destruct (decide (ev_kind ex ∈ [lock_destroy; condition_variable_destroy])) as [Hdes|Hdes].
  - destruct (di_sync _ _ Hdi x ex q Hxp Hex) as (tp & Htp & Hqt); [set_solver | done |].
    assert (imm h tp x) as Htx by (exists ex; split; [done | by apply thread_predecessor_pred]).
    destruct (wf_thread_pred _ _ (Hwf _ _ Hex) tp Htp) as (et & Het & Htt & Hkt & _).
    apply (IH (dep h tp)) with tp; [by apply imm_dep | done | | | by etrans | done].
    + apply (earlier_ran s (ev_tid ex) x tp ex et); try done. by apply tc_once.
    + etrans; [by apply rtc_once | done].
  - destruct (pred_needs h p e events Han He Hcl x ex q Hex Hq) as [Hn|(eq' & Heq' & Ht)];
      [by exists eq | done | apply Hdown; by eapply Hc|].
    apply Hdown. apply (earlier_ran s (ev_tid ex) x q ex eq'); try done. congruence.
Qed.

(** ** Events that cannot wait *)

(** What the event waits for is below its thread predecessor. *)
Definition waits_below x : Prop :=
  ∀ y, y ∈ needs x → ∃ tp, tpred h tp x ∧ causal_le h y tp.

Lemma below_ready s t x :
  closed s → vec t !! s t = Some x → waits_below x → can_step s t.
Proof.
  intros Hc Hx Hw. destruct (place_event h p e events Hcl t _ x Hx) as (Ht & Hxp & _).
  split_and!; [done | by apply lookup_lt_Some in Hx |]. exists x. split; [done|]. intros y Hy.
  destruct (Hw y Hy) as (tp & Htp & Hle).
  destruct (chain_tpred h p e events Hcl t _ x tp Hx Htp) as (j & Hj & Htj).
  destruct (place_event h p e events Hcl t _ tp Htj) as (_ & Htpp & _).
  apply (ran_down s Hc tp); [|done|done|].
  - apply (ran_place s t j tp Htj). lia.
  - by apply (needs_below h p e events Han He Hcl x y).
Qed.

Lemma le_decides x y : causal_le h x p → causal_le h y p →
  ∃ b, is_less_than_eq h x y = Ok b ∧ (b = true ↔ causal_le h x y).
Proof.
  intros Hx Hy. unfold is_less_than_eq. case_bool_decide as Heq.
  { exists true. split; [done|]. split; [|done]. intros _. by rewrite Heq. }
  destruct (is_less_than_decides h (λ x, causal_le h x p) Hwf (an_free _ _ Han) x y Hx Hy) as (b & -> & Hb).
  exists b. split; [done|]. rewrite Hb, causal_le_alt. naive_solver.
Qed.

Lemma waits_beyond_spec x ex l :
  causal_le h x p → h !! x = Some ex → is_Some (thread_predecessor ex) → (∀ y, y ∈ l → causal_le h y p) →
  ∃ b, waits_beyond h ex l = Ok b ∧
    (b = false → ∀ y, y ∈ l → ∃ tp, tpred h tp x ∧ causal_le h y tp).
Proof.
  intros Hx Hex [tp Htp] Hl. assert (causal_le h tp p) as Htpp.
  { etrans; [|exact Hx]. apply rtc_once. exists ex. split; [done | by apply thread_predecessor_pred]. }
  assert (∃ b, any_of (λ q, b ← is_less_than_eq h q tp; Ok (negb b)) l = Ok b ∧
    (b = false → ∀ y, y ∈ l → causal_le h y tp)) as (b & Hb & Hall).
  { induction l as [|y l IH]; cbn [any_of]; [exists false; split; [done | by intros _ y ?%elem_of_nil]|].
    destruct (le_decides y tp) as (b & -> & Hby); [apply Hl; left | done|]. rewrite !bind_Ok_l.
    destruct b; cbn [negb].
    - destruct IH as (b & -> & Hbl); [intros z Hz; apply Hl; by right|]. exists b. split; [done|].
      intros Hf z [->|Hz]%elem_of_cons; [by apply Hby | by apply Hbl].
    - exists true. done. }
  exists b. split.
  - unfold waits_beyond. rewrite Htp. destruct l; [simpl in Hb |- *; congruence | exact Hb].
  - intros Hf y Hy. exists tp. split; [by exists ex | by apply Hall].
Qed.

Lemma no_needs (P : Prop) y : y ∈ ([] : list eid) → P.
Proof. by intros ?%elem_of_nil. Qed.

(** [may_be_blocking] says no only if the event does not wait beyond its
    thread predecessor. *)
Lemma may_be_blocking_spec x : causal_le h x p →
  ∃ b, may_be_blocking h x = Ok b ∧ (b = false → waits_below x).
Proof.
  intros Hx. destruct (cf_in _ _ (an_free _ _ Han) x Hx) as [ex Hex].
  assert (∀ q, q ∈ predecessors ex → causal_le h q p) as Hpred.
  { intros q Hq. etrans; [|exact Hx]. apply rtc_once. by exists ex. }
  unfold may_be_blocking. rewrite (proj2 (deref_ok h x ex) Hex), bind_Ok_l. unfold waits_below, CsdProofs.needs.
  rewrite Hex. pose proof (waits_beyond_spec x ex) as Hwb. unfold thread_predecessor in Hwb.
  unfold predecessors in Hpred.
  destruct (ev_data ex) as [| | |tp j|c| | | |tp [l|] lid k| | | |tp l cps cid lid|tp np l cid lid k|tp cps cid|tp cps n cid] eqn:Hd;
    try (eexists; split; [done|]; intros _ y; by apply no_needs); try (by eexists; split; [done|]).
  - destruct (le_decides l tp) as (b & -> & Hb);
      [apply Hpred, two_predecessors_elem; by right | apply Hpred, two_predecessors_elem; by left|].
    rewrite bind_Ok_l. eexists. split; [done|]. intros Hf y [-> _]%other_thread_elem.
    exists tp. split; [exists ex; unfold thread_predecessor; by rewrite Hd|]. apply Hb. by destruct b.
  - apply Hwb; [done | done | by eexists |]. intros y Hy. apply Hpred. by right; right.
  - apply Hwb; [done | done | by eexists |]. intros y Hy. apply Hpred. by right.
  - apply Hwb; [done | done | by eexists |]. intros y Hy. apply Hpred. by right.
Qed.

(** Notifications and the events that wait for nothing. *)
Lemma synchronised_below x ex : causal_le h x p → h !! x = Some ex →
  ev_kind ex ∉ [thread_init; thread_join; lock_acquire; wait1; wait2] → waits_below x.
Proof.
  intros Hx Hex Hk y Hy. destruct (needs_pred h p e events Han He Hcl x ex y Hex Hy) as [Hp _].
  destruct (di_sync _ _ Hdi x ex y Hx Hex) as (tp & Htp & Hle); [|done|].
  - unfold CsdProofs.needs in Hy. rewrite Hex in Hy. unfold ev_kind in *.
    destruct (ev_data ex); try (by apply elem_of_nil in Hy); set_solver.
  - exists tp. split; [by exists ex | done].
Qed.

(** No event waits for a local one. *)
Lemma needs_nonlocal x y : causal_le h x p → y ∈ needs x → at_event h y (λ ey, ev_kind ey ≠ local).
Proof.
  intros Hx Hy. destruct (cf_in _ _ (an_free _ _ Han) x Hx) as [ex Hex].
  pose proof (wf_class _ _ (Hwf _ _ Hex)) as Hc. unfold class_ok in Hc.
  unfold CsdProofs.needs in Hy. rewrite Hex in Hy.
  assert (∀ ks (Φ : event → Prop), at_event h y (λ ey, kind_in ks ey ∧ Φ ey) → local ∉ ks →
    at_event h y (λ ey, ev_kind ey ≠ local)) as Hkind.
  { intros ks Φ (ey & Hey & Hk & _) Hn. exists ey. split; [done|]. intros Hl. unfold kind_in in Hk. by rewrite Hl in Hk. }
  assert (∀ cid cps, cond_preds_ok h cid cps → y ∈ cps → at_event h y (λ ey, ev_kind ey ≠ local)) as Hcond.
  { intros cid cps Hok Hin. eapply Hkind; [by apply Hok|]. set_solver. }
  destruct (ev_data ex) as [| | |tp j|c| | | |tp [l|] lid k| | | |tp l cps cid lid|tp np l cid lid k|tp cps cid|tp cps n cid] eqn:Hd;
    try by apply elem_of_nil in Hy.
  - apply list_elem_of_singleton in Hy as ->. destruct Hc as (ej & Hj & Hk & _). exists ej. by rewrite Hk.
  - destruct (h !! c) as [ec|] eqn:Hec; [|by apply elem_of_nil in Hy].
    destruct (kind_eqb (ev_kind ec) program_init); [by apply elem_of_nil in Hy|].
    apply list_elem_of_singleton in Hy as ->. eapply Hkind; [exact Hc|]. set_solver.
  - apply other_thread_elem in Hy as [-> _]. eapply Hkind; [exact Hc|]. set_solver.
  - by eapply Hcond; [apply Hc|].
  - destruct Hc as (_ & Hnp & Hl). apply elem_of_cons in Hy as [->|Hy].
    + eapply Hkind; [exact Hnp|]. set_solver.
    + apply other_thread_elem in Hy as [-> _]. eapply Hkind; [exact Hl|]. set_solver.
  - by eapply Hcond; [apply Hc|].
  - by eapply Hcond; [apply Hc|].
Qed.
End base.

(** ** The events the second analysis keeps

    The constructor of [csd_search_t] keeps, for every thread, the events that
    may wait, those that change a lock, and the last event before each event
    that may wait, which stands for the ones before it. *)

Section collect2.
Context {PL : Payload}.
Implicit Types (x y z q : eid) (t u : thread_id) (l R : list eid) (locked : smap N bool).

Context (h : heap) (p : eid) (e : event) (events : thread_events).
Hypothesis Hdi : disciplined h p.
Hypothesis He : h !! p = Some e.
Hypothesis Hcl : collected h p e events.
Let Han : analysable h p := di_analysable _ _ Hdi.
Let Hwf : wf_heap h := an_wf _ _ Han.

Abbreviation vec := (vec events).
Abbreviation threads := (threads events).

Definition nonlocal x : Prop := at_event h x (λ ex, ev_kind ex ≠ local).

(** The kinds of events that are always kept. *)
Definition keeps_kind (k : event_kind) : bool :=
  match k with
  | thread_init | thread_join | lock_acquire | lock_release | wait1 | wait2 => true
  | _ => false
  end.

Definition descending l : Prop :=
  ∀ i j x y, l !! i = Some x → l !! j = Some y → i < j → dep h y < dep h x.

(** The kept events [l] of the events [P] of a thread, latest first. *)
Record thins (P : eid → Prop) l : Prop := {
  th_in x : x ∈ l → P x;
  th_desc : descending l;
  th_kept x : P x → at_event h x (λ ex, keeps_kind (ev_kind ex) = true) → x ∈ l;
  th_back x y : x ∈ l → P y → nonlocal y → may_be_blocking h x = Ok true → dep h y < dep h x →
    ∃ z, z ∈ l ∧ dep h y ≤ dep h z < dep h x;
}.

Definition covers_all (P : eid → Prop) l : Prop :=
  ∀ y, P y → nonlocal y → ∃ z, z ∈ l ∧ dep h y ≤ dep h z.

Definition knows_locks locked (P : eid → Prop) : Prop :=
  ∀ x, P x → at_event h x (λ ex,
    takes_lock ex || frees_lock ex = true → is_Some (smap_find (ev_lid ex) locked)).

Definition larger locked locked' : Prop :=
  ∀ k, is_Some (smap_find k locked) → is_Some (smap_find k locked').

Lemma emplace_keys k (b : bool) locked : larger locked (smap_emplace k b locked) ∧
  is_Some (smap_find k (smap_emplace k b locked)).
Proof.
  unfold smap_emplace, smap_has, larger. destruct (smap_find k locked) as [v|] eqn:Hk; [split; [by intros k' | by exists v]|].
  split; [|rewrite smap_find_set_eq; eauto]. intros k' Hk'. destruct (decide (k = k')) as [<-|Hne].
  - rewrite smap_find_set_eq. eauto.
  - by rewrite smap_find_set_ne.
Qed.

Lemma note_keys ex locked : larger locked (note_lock ex locked) ∧
  (takes_lock ex || frees_lock ex = true → is_Some (smap_find (ev_lid ex) (note_lock ex locked))).
Proof.
  unfold note_lock. destruct (takes_lock ex || frees_lock ex); [|split; [by intros k' | done]].
  destruct (emplace_keys (ev_lid ex) false locked). auto.
Qed.

(** Putting an event in front of the kept ones. *)
Lemma thins_cons (P : eid → Prop) q l :
  (∀ x, P x → dep h x < dep h q) → thins P l →
  (may_be_blocking h q = Ok true → covers_all P l) → thins (λ x, x = q ∨ P x) (q :: l).
Proof.
  intros HP [Hin Hdesc Hkept Hback] Hcov. split.
  - intros x [->|Hx]%elem_of_cons; auto.
  - intros i j x y Hi Hj Hij. destruct j as [|j]; [lia|]. simpl in Hj. destruct i as [|i]; simpl in Hi.
    + injection Hi as <-. apply HP, Hin. by eapply list_elem_of_lookup_2.
    + apply (Hdesc i j); [done | done | lia].
  - intros x [->|Hx] Hk; [left | right; by apply Hkept].
  - intros x y [->|Hx]%elem_of_cons [->|Hy] Hny Hb Hlt; [lia | | |].
    + destruct (Hcov Hb y Hy Hny) as (z & Hz & Hd). exists z. split; [by right|].
      split; [done|]. by apply HP, Hin.
    + apply Hin, HP in Hx. lia.
    + destruct (Hback x y Hx Hy Hny Hb Hlt) as (z & Hz & Hd). exists z. split; [by right | done].
Qed.

(** Leaving an event out. *)
Lemma thins_skip (P : eid → Prop) q eq l :
  h !! q = Some eq → keeps_kind (ev_kind eq) = false → (∀ x, P x → dep h x < dep h q) →
  thins P l → thins (λ x, x = q ∨ P x) l.
Proof.
  intros Hq Hk HP [Hin Hdesc Hkept Hback]. split.
  - intros x Hx. right. by apply Hin.
  - done.
  - intros x [->|Hx] Hkx; [|by apply Hkept]. destruct Hkx as (eq' & Hq' & Hkx). congruence.
  - intros x y Hx [->|Hy] Hny Hb Hlt; [apply Hin, HP in Hx; lia | by apply (Hback x y)].
Qed.

Lemma keeps_next_spec l : (∀ x, x ∈ l → causal_le h x p) → ∃ b, keeps_next h l = Ok b.
Proof.
  intros Hl. unfold keeps_next. destruct (list.last l) as [q|] eqn:Hq; [|eauto].
  apply last_Some in Hq as [l' ->].
  destruct (may_be_blocking_spec h p Hdi q) as (b & Hb & _); [|eauto].
  apply Hl, elem_of_app. right. left.
Qed.

Lemma before_dep q q' x : tpred h q' q → thread_le h x q' → dep h x < dep h q.
Proof.
  intros Htp Hx. apply tpred_imm, imm_dep in Htp; [|done].
  apply thread_le_causal, causal_le_alt in Hx as [->|Hx]; [done|]. apply causal_lt_dep in Hx; [lia | done].
Qed.

Lemma thins_iff (P Q : eid → Prop) l : (∀ x, P x ↔ Q x) → thins P l → thins Q l.
Proof.
  intros HPQ [Hin Hdesc Hkept Hback]. split; [|done| |].
  - intros x Hx. by apply HPQ, Hin.
  - intros x Hx. by apply Hkept, HPQ.
  - intros x y Hx Hy. by apply Hback; [|apply HPQ].
Qed.

(** The events of [q]'s thread up to [q], seen from the thread predecessor. *)
Definition up_to (tp : option eid) x : Prop := ∃ q, tp = Some q ∧ thread_le h x q.

Lemma up_to_dep q eq x : h !! q = Some eq → up_to (thread_predecessor eq) x → dep h x < dep h q.
Proof. intros Hq (q' & Ht & Hx). apply (before_dep q q'); [by exists eq | done]. Qed.

Lemma up_to_iff q eq x : h !! q = Some eq → x = q ∨ up_to (thread_predecessor eq) x ↔ thread_le h x q.
Proof. intros Hq. by rewrite (thread_le_cons h q eq x Hq). Qed.

(** What the walk returns for the events [P] that it visits after having kept
    [l0]. *)
Record walked (P : eid → Prop) l0 locked l locked' : Prop := {
  wd_thins : thins P l;
  wd_covers : keeps_next h l0 = Ok true → covers_all P l;
  wd_larger : larger locked locked';
  wd_locks : knows_locks locked' P;
}.

Lemma walked_keep q eq l0 locked l locked' : h !! q = Some eq →
  walked (up_to (thread_predecessor eq)) (l0 ++ [q]) (note_lock eq locked) l locked' →
  walked (λ x, thread_le h x q) l0 locked (q :: l) locked'.
Proof.
  intros Hq [Hth Hcov Hlg Hlk]. pose proof (note_keys eq locked) as [Hn1 Hn2]. split.
  - eapply thins_iff; [intros x; by apply up_to_iff|].
    apply thins_cons; [intros x; by apply up_to_dep | done|]. intros Hb. apply Hcov.
    unfold keeps_next. by rewrite last_snoc.
  - intros _ y [->|Hy]%(up_to_iff q eq) Hny; [exists q; split; [left | done] | | done].
    exists q. split; [left|]. apply Nat.lt_le_incl. by eapply up_to_dep.
  - intros k Hk. by apply Hlg, Hn1.
  - intros x [->|Hx]%(up_to_iff q eq); [|by apply Hlk|done]. exists eq. split; [done|]. intros Hl.
    by apply Hlg, Hn2.
Qed.

Lemma walked_skip q eq l0 locked l locked' : h !! q = Some eq →
  keeps_kind (ev_kind eq) = false → (keeps_next h l0 = Ok true → ev_kind eq = local) →
  walked (up_to (thread_predecessor eq)) l0 (note_lock eq locked) l locked' →
  walked (λ x, thread_le h x q) l0 locked l locked'.
Proof.
  intros Hq Hk Hloc [Hth Hcov Hlg Hlk]. pose proof (note_keys eq locked) as [Hn1 Hn2]. split.
  - eapply thins_iff; [intros x; by apply up_to_iff|].
    apply (thins_skip _ q eq); [done | done | intros x; by apply up_to_dep | done].
  - intros Hkn y [->|Hy]%(up_to_iff q eq) Hny; [| by apply Hcov | done].
    destruct Hny as (eq' & Hq' & Hny). specialize (Hloc Hkn). congruence.
  - intros k Hkk. by apply Hlg, Hn1.
  - intros x [->|Hx]%(up_to_iff q eq); [|by apply Hlk|done]. exists eq. split; [done|]. intros Hl.
    by apply Hlg, Hn2.
Qed.

Lemma walked_none l0 locked : walked (up_to None) l0 locked [] locked.
Proof.
  assert (∀ x, ¬ up_to None x) as Hn by (by intros x (? & ? & _)).
  split; [|by intros _ y ?%Hn | by intros k | by intros x ?%Hn].
  split; [by intros x ?%elem_of_nil | by intros i j x y | by intros x ?%Hn|].
  by intros x y ?%elem_of_nil.
Qed.

Lemma walk_spec fuel : ∀ tp l0 locked,
  match tp with Some q => dep h q < fuel ∧ causal_le h q p | None => True end →
  (∀ x, x ∈ l0 → causal_le h x p) →
  ∃ l locked', collect_walk_2 h fuel tp l0 locked = Ok (l0 ++ l, locked') ∧
    walked (up_to tp) l0 locked l locked'.
Proof.
  induction fuel as [|fuel IH]; intros [q|] l0 locked Htp Hl0.
  1: lia.
  1, 3: exists [], locked; rewrite app_nil_r; split; [done | apply walked_none].
  destruct Htp as [Hd Hqp]. destruct (cf_in _ _ (an_free _ _ Han) q Hqp) as [eq Hq].
  cbn [collect_walk_2]. rewrite (proj2 (deref_ok h q eq) Hq), bind_Ok_l.
  assert (∀ l1, (∀ x, x ∈ l1 → causal_le h x p) → ∃ l locked',
    collect_walk_2 h fuel (thread_predecessor eq) l1 (note_lock eq locked) = Ok (l1 ++ l, locked') ∧
    walked (up_to (thread_predecessor eq)) l1 (note_lock eq locked) l locked') as Hrest.
  { intros l1 Hl1. apply IH; [|done]. destruct (thread_predecessor eq) as [q'|] eqn:Ht; [|done].
    assert (imm h q' q) as Hi by (exists eq; split; [done | by apply thread_predecessor_pred]).
    pose proof (imm_dep h q' q Hwf Hi). split; [lia|]. etrans; [by apply rtc_once | done]. }
  assert (∀ x, x ∈ l0 ++ [q] → causal_le h x p) as Hl0q.
  { intros x [?| ->%list_elem_of_singleton]%elem_of_app; auto. }
  assert (∀ P l locked', walked P l0 locked l locked' → (∀ x, P x ↔ up_to (Some q) x) →
    walked (up_to (Some q)) l0 locked l locked') as Hiff.
  { intros P l locked' [H1 H2 H3 H4] HP. split; [by eapply thins_iff | | done |].
    - intros Hk y Hy. by apply (H2 Hk y), HP.
    - intros x Hx. by apply H4, HP. }
  assert (∀ x, thread_le h x q ↔ up_to (Some q) x) as Hup.
  { intros x. unfold up_to. split; [by exists q | by intros (? & [= <-] & ?)]. }
  destruct (keeps_next_spec l0 Hl0) as [kn Hkn].
  assert (∃ b, match ev_kind eq with
      | local => Ok false
      | thread_init | thread_join | lock_acquire | lock_release | wait1 | wait2 => Ok true
      | _ => keeps_next h l0 end = Ok b ∧
    (b = false → keeps_kind (ev_kind eq) = false ∧ (keeps_next h l0 = Ok true → ev_kind eq = local)))
    as (keep & -> & Hkeep).
  { rewrite Hkn. destruct (ev_kind eq); eexists; (split; [done|]); try done; intros ->; split; done. }
  rewrite bind_Ok_l. destruct keep.
  - destruct (Hrest _ Hl0q) as (l & locked' & -> & Hw). exists (q :: l), locked'.
    rewrite <-app_assoc. split; [done|]. by eapply Hiff; [eapply walked_keep|].
  - destruct (Hkeep eq_refl) as [Hk Hloc]. destruct (Hrest _ Hl0) as (l & locked' & -> & Hw).
    exists l, locked'. split; [done|]. by eapply Hiff; [eapply walked_skip|].
Qed.
(** ** The constructor *)

(** The kept events of a thread. *)
Record keeps t R : Prop := {
  kp_thins : thins (λ x, x ∈ vec t) R;
  kp_covers : covers_all (λ x, x ∈ vec t) R;
}.

Lemma cone_threads t q : smap_find t (ev_cone e) = Some q → t ∈ threads.
Proof.
  intros Hq. destruct (cone_entry h p e Han He t q Hq) as [Hlt (eq & Heq & <- & Hk)].
  apply (event_place h p e events Hcl q eq); [apply causal_le_alt; by right | done | done].
Qed.

Lemma vec_cone t q x : smap_find t (ev_cone e) = Some q →
  x ∈ vec t ↔ t = ev_tid e ∧ x = p ∨ thread_le h x q.
Proof.
  intros Hq. rewrite (vec_elem h p e events Hcl t x) by (by eapply cone_threads).
  destruct (cone_entry h p e Han He t q Hq) as [Hlt (eq & Heq & Ht & Hk)].
  assert (causal_le h q p) as Hqp by (apply causal_le_alt; by right). split.
  - intros [Hx (ex & Hex & Hxt & Hxk)].
    destruct (cone_thread h p e Han He x ex Hx Hex Hxk) as [->|(q' & Hq' & Hle & _)].
    + left. split; congruence.
    + right. rewrite Hxt, Hq in Hq'. by injection Hq' as ->.
  - intros [[-> ->]|Hx].
    + split; [reflexivity|]. exists e. split_and!; [done | done | by eapply not_root].
    + split; [etrans; [by apply thread_le_causal | done]|].
      destruct (thread_le_tid h Hwf x q eq Heq Hx) as (ex & Hex & Hxt). exists ex.
      split_and!; [done | congruence|]. intros Hxk. apply (init_tid h Hwf x ex Hex) in Hxk.
      rewrite Hxt in Hxk. by apply (init_tid h Hwf q eq Heq) in Hxk.
Qed.

(** The first event of a thread is the last one kept. *)
Lemma keeps_last t R : t ∈ threads → keeps t R →
  ∃ f ef, list.last R = Some f ∧ h !! f = Some ef ∧ ev_kind ef = thread_init.
Proof.
  intros Ht [Hth _]. pose proof (len_pos h p e events Hcl t Ht) as Hlen.
  destruct (lookup_lt_is_Some_2 (vec t) 0 Hlen) as [f Hf].
  destruct (place_event h p e events Hcl t 0 f Hf) as (_ & Hfp & ef & Hef & _ & Hk).
  pose proof (vec_chain h p e events Hcl t Ht 0 f Hf) as (ef' & Hef' & Hn).
  assert (ef' = ef) as -> by congruence.
  destruct (creation_checked h p Han f ef Hfp Hef Hk Hn) as [Hki _].
  assert (f ∈ R) as HfR.
  { apply (th_kept _ _ Hth); [by eapply list_elem_of_lookup_2|]. exists ef. by rewrite Hki. }
  exists f, ef. split_and!; [|done|done].
  destruct (list.last R) as [b|] eqn:Hb; [|apply last_None in Hb as ->; by apply elem_of_nil in HfR].
  f_equal. rewrite last_lookup in Hb. apply list_elem_of_lookup in HfR as [i Hi].
  destruct (decide (i = pred (length R))) as [->|Hne]; [congruence|].
  pose proof (lookup_lt_Some _ _ _ Hi). exfalso.
  pose proof (th_desc _ _ Hth i (pred (length R)) f b Hi Hb ltac:(lia)) as Hlt.
  assert (b ∈ vec t) as [j Hj]%list_elem_of_lookup.
  { apply (th_in _ _ Hth). by eapply list_elem_of_lookup_2. }
  pose proof (proj2 (place_depth h p e events Han Hcl t 0 j f b Hf Hj) ltac:(lia)). lia.
Qed.

Lemma checked_back {A} t R (z : A) : t ∈ threads → keeps t R →
  (back ← in_range (list.last R); eb ← deref h back;
   _ ← cassert (kind_eqb (ev_kind eb) thread_init); Ok z) = Ok z.
Proof.
  intros Ht Hk. destruct (keeps_last t R Ht Hk) as (f & ef & -> & Hef & Hkf). cbn [in_range].
  rewrite bind_Ok_l, (proj2 (deref_ok h f ef) Hef), bind_Ok_l, Hkf. done.
Qed.

Lemma collect_thread_2_spec st t q :
  smap_find t (ev_cone e) = Some q → ∃ R locked',
  collect_thread_2 h p e st (t, q) =
    Ok (CsdSearch (smap_emplace t (R, length R) (cs_advancement st)) locked') ∧
  keeps t R ∧ larger (cs_locked st) locked' ∧ knows_locks locked' (λ x, x ∈ vec t).
Proof.
  intros Hq. destruct (cone_entry h p e Han He t q Hq) as [Hlt (eq & Heq & Ht & Hk)].
  assert (causal_le h q p) as Hqp by (apply causal_le_alt; by right).
  assert (t ∈ threads) as Htt by (by eapply cone_threads).
  assert (∀ x, thread_le h x q ↔ up_to (Some q) x) as Hup.
  { intros x. unfold up_to. split; [by exists q | by intros (? & [= <-] & ?)]. }
  unfold collect_thread_2. destruct (tid_eqb (ev_tid e) t) eqn:Hown.
  - apply tid_eqb_spec in Hown. rewrite <-Hown in Hq.
    pose proof (own_thread_later h p e Han He q Hq) as Hki. apply kind_eqb_ne in Hki. rewrite Hki.
    pose proof (own_entry h p e Han He q Hq) as Htp. rewrite Hown in Hq. cbn [negb orb cassert].
    rewrite bind_Ok_l, (proj2 (deref_ok h q eq) Heq), bind_Ok_l. cbv zeta.
    destruct (walk_spec (S (ev_depth eq)) (Some q) [p] (note_lock e (cs_locked st)))
      as (l & locked' & -> & [Hth Hcov Hlg Hlk]).
    { rewrite (dep_lookup _ _ _ Heq). split; [lia | done]. }
    { by intros x ->%list_elem_of_singleton. }
    rewrite bind_Ok_l. destruct (note_keys e (cs_locked st)) as [Hn1 Hn2].
    assert (∀ x, x ∈ vec t ↔ x = p ∨ up_to (Some q) x) as Hvec.
    { intros x. rewrite (vec_cone t q x Hq), Hup. split; [intros [[_ ?]|?]; auto|].
      intros [?|?]; [by left | by right]. }
    assert (keeps t (p :: l)) as Hkeep.
    { split.
      - eapply thins_iff; [intros x; symmetry; apply Hvec|]. apply thins_cons; [|done|exact Hcov].
        intros x Hx%Hup. by apply (before_dep p q).
      - intros y Hy Hny. exists p. split; [left|]. apply Hvec in Hy as [->|Hy%Hup]; [done|].
        apply Nat.lt_le_incl. by apply (before_dep p q). }
    cbn [app]. rewrite (checked_back t _ _ Htt Hkeep). exists (p :: l), locked'. split_and!; [done | done | |].
    + intros k Hkk. by apply Hlg, Hn1.
    + intros x [->|Hx]%Hvec; [|by apply Hlk]. exists e. split; [done|]. intros Hl. by apply Hlg, Hn2.
  - cbn [negb orb cassert]. rewrite bind_Ok_l, (proj2 (deref_ok h q eq) Heq), bind_Ok_l. cbv zeta.
    destruct (walk_spec (S (ev_depth eq)) (Some q) [] (cs_locked st))
      as (l & locked' & -> & [Hth Hcov Hlg Hlk]).
    { rewrite (dep_lookup _ _ _ Heq). split; [lia | done]. }
    { by intros x ?%elem_of_nil. }
    rewrite bind_Ok_l. cbn [app].
    assert (∀ x, x ∈ vec t ↔ up_to (Some q) x) as Hvec.
    { intros x. rewrite (vec_cone t q x Hq), Hup. split; [intros [[Hte _]|?]; [|done]|by right].
      by rewrite Hte, (proj2 (tid_eqb_spec _ _) eq_refl) in Hown. }
    assert (keeps t l) as Hkeep.
    { split; [eapply thins_iff; [intros x; symmetry; apply Hvec | done]|].
      intros y Hy. by apply Hcov, Hvec. }
    rewrite (checked_back t _ _ Htt Hkeep). exists l, locked'. split_and!; [done | done | done |].
    intros x Hx%Hvec. by apply Hlk.
Qed.

Lemma emplace_new {V} t (v : V) (m : smap thread_id V) :
  smap_find t m = None → smap_emplace t v m = smap_set t v m.
Proof. intros Hn. unfold smap_emplace. by rewrite Hn. Qed.

Lemma knows_larger locked locked' P : knows_locks locked P → larger locked locked' → knows_locks locked' P.
Proof. intros Hk Hl x Hx. destruct (Hk x Hx) as (ex & Hex & Hlk). exists ex. split; [done|]. auto. Qed.

(** The state of a thread when the search begins. *)
Definition begun st t : Prop := ∃ R,
  smap_find t (cs_advancement st) = Some (R, length R) ∧ keeps t R ∧
  knows_locks (cs_locked st) (λ x, x ∈ vec t).

Lemma collect_threads_2_spec (l : smap thread_id eid) : ∀ st,
  (∀ t q, (t, q) ∈ l → smap_find t (ev_cone e) = Some q) → NoDup l.*1 →
  (∀ t, t ∈ l.*1 → smap_find t (cs_advancement st) = None) → smap_sorted (cs_advancement st) →
  ∃ st', for_each (collect_thread_2 h p e) st l = Ok st' ∧ smap_sorted (cs_advancement st') ∧
    larger (cs_locked st) (cs_locked st') ∧ (∀ t, t ∈ l.*1 → begun st' t) ∧
    ∀ t, t ∉ l.*1 → smap_find t (cs_advancement st') = smap_find t (cs_advancement st).
Proof.
  induction l as [|[t q] l IH]; intros st Hl Hnd Hnew Hs; cbn [for_each].
  { exists st. split_and!; [done | done | by intros k | by intros t ?%elem_of_nil | done]. }
  simpl in Hnd. apply list.NoDup_cons in Hnd as [Ht Hnd].
  destruct (collect_thread_2_spec st t q) as (R & locked' & -> & Hk & Hlg & Hlk); [apply Hl; left|].
  rewrite bind_Ok_l, emplace_new by (apply Hnew; left).
  destruct (IH (CsdSearch (smap_set t (R, length R) (cs_advancement st)) locked'))
    as (st' & Hf & Hs' & Hlg' & Hin & Hout).
  - intros t' q' Ht'. apply Hl. by right.
  - done.
  - intros t' Ht'. simpl. rewrite smap_find_set_ne by (by intros ->). apply Hnew. by right.
  - by apply smap_set_sorted.
  - exists st'. split_and!; [done | done | intros k Hkk; by apply Hlg', Hlg | |].
    + intros t' [->|Ht']%elem_of_cons; [|by apply Hin]. exists R.
      rewrite Hout by done. simpl. rewrite smap_find_set_eq. split_and!; [done | done|].
      by apply (knows_larger locked').
    + intros t' [Hne Ht']%not_elem_of_cons. rewrite Hout by done. by apply smap_find_set_ne.
Qed.

(** The constructor prepares exactly the threads of the causes of [p]. *)
Record prepared st : Prop := {
  pr_sorted : smap_sorted (cs_advancement st);
  pr_begun t : t ∈ threads → begun st t;
  pr_none t : t ∉ threads → smap_find t (cs_advancement st) = None;
}.

(** The advancement with the kept events [K], [n] of which have not run. *)
Definition adv_kept (K : thread_id → list eid) (n : thread_id → nat) : advancement :=
  (λ '(t, _), (t, (K t, n t))) <$> events.

Lemma adv_kept_find K n t :
  smap_find t (adv_kept K n) = (λ _, (K t, n t)) <$> smap_find t events.
Proof.
  unfold adv_kept. clear Hcl. induction events as [|[u evs] m IH]; [done|]. simpl.
  destruct (std_less t u) eqn:H1; [done|]. destruct (std_less u t) eqn:H2; [exact IH|].
  destruct (less_cases t u) as [[-> _]|[[? _]|[_ [? _]]]]; [done | congruence..].
Qed.

Lemma adv_kept_sorted K n : smap_sorted (adv_kept K n).
Proof.
  pose proof (cl_sorted _ _ _ _ Hcl) as Hs. unfold adv_kept, smap_sorted in *. clear Hcl.
  induction Hs as [|[u evs] m Hs IH Hf]; simpl; constructor; [done|].
  apply Forall_fmap. eapply Forall_impl; [exact Hf|]. by intros [v ?].
Qed.

Lemma threads_find t : t ∉ threads → smap_find t events = None.
Proof.
  intros Ht. destruct (smap_find t events) as [v|] eqn:Hv; [|done].
  by destruct (in_threads h p e events Hcl t v Hv).
Qed.

Definition kept_of st t : list eid :=
  match smap_find t (cs_advancement st) with Some (R, _) => R | None => [] end.

Lemma prepared_advancement st : prepared st →
  cs_advancement st = adv_kept (kept_of st) (λ t, length (kept_of st t)).
Proof.
  intros [Hs Hb Hn]. apply smap_ext; [done | apply adv_kept_sorted|]. intros t. rewrite adv_kept_find.
  destruct (decide (t ∈ threads)) as [Ht|Ht].
  - rewrite (thread_vec_of h p e events Hcl t Ht). destruct (Hb t Ht) as (R & HR & _).
    unfold kept_of. by rewrite HR.
  - by rewrite (Hn t Ht), (threads_find t Ht).
Qed.

Lemma in_threads_cone t : t ∈ threads ↔ t = ev_tid e ∨ t ∈ (ev_cone e).*1.
Proof.
  pose proof (wf_cone _ _ (Hwf _ _ He)) as Hcone.
  assert (smap_sorted (ev_cone e)) as Hsc by apply (cone_for_sorted _ _ _ Hcone). split.
  - intros Ht. destruct (lookup_lt_is_Some_2 (vec t) 0 (len_pos h p e events Hcl t Ht)) as [f Hf].
    destruct (place_event h p e events Hcl t 0 f Hf) as (_ & Hfp & ef & Hef & <- & Hk).
    destruct (cone_thread h p e Han He f ef Hfp Hef Hk) as [->|(q & Hq & _)]; [left; congruence | right].
    apply smap_elem_find in Hq; [|done]. apply list_elem_of_fmap. by exists (ev_tid ef, q).
  - intros [->|([t' q] & -> & Hq)%list_elem_of_fmap].
    + apply (event_place h p e events Hcl p e); [reflexivity | done | by eapply not_root].
    + apply smap_elem_find in Hq; [|done]. by eapply cone_threads.
Qed.

Lemma own_only : smap_find (ev_tid e) (ev_cone e) = None →
  ev_kind e = thread_init ∧ keeps (ev_tid e) [p] ∧ ∀ x, x ∈ vec (ev_tid e) → x = p.
Proof.
  intros Hn. destruct (own_thread_first h p e Han He Hn) as (_ & Hk & _ & _ & Hin).
  assert (ev_tid e ∈ threads) as Ht by (apply in_threads_cone; by left).
  assert (∀ x, x ∈ vec (ev_tid e) ↔ x = p) as Hvec.
  { intros x. rewrite (vec_elem h p e events Hcl _ x Ht), <-Hin. apply list_elem_of_singleton. }
  split_and!; [done | | by intros x ?%Hvec]. split; [split|].
  - intros x ->%list_elem_of_singleton. by apply Hvec.
  - intros i j x y [-> _]%list_lookup_singleton_Some [-> _]%list_lookup_singleton_Some. lia.
  - intros x ->%Hvec _. left.
  - intros x y ->%list_elem_of_singleton ->%Hvec _ _. lia.
  - intros y ->%Hvec _. exists p. split; [left | done].
Qed.

Lemma new_csd_search_spec : 1 < compute_thread_count e →
  ∃ st, new_csd_search h p = Ok st ∧ prepared st.
Proof.
  intros Hcount. unfold new_csd_search. rewrite (proj2 (deref_ok h p e) He), bind_Ok_l.
  rewrite (proj2 (Nat.leb_gt _ _) Hcount).
  assert (smap_sorted (ev_cone e)) as Hsc by apply (cone_for_sorted _ _ _ (wf_cone _ _ (Hwf _ _ He))).
  set (st0 := if kind_eqb (ev_kind e) thread_init then _ else _).
  assert (smap_sorted (cs_advancement st0) ∧ cs_locked st0 = [] ∧
    (∀ t, t ≠ ev_tid e → smap_find t (cs_advancement st0) = None) ∧
    (∀ t, t ∈ (ev_cone e).*1 → smap_find t (cs_advancement st0) = None) ∧
    (smap_find (ev_tid e) (ev_cone e) = None → smap_find (ev_tid e) (cs_advancement st0) = Some ([p], 1)))
    as (Hs0 & Hl0 & Hne0 & Hc0 & Hown0).
  { unfold st0. destruct (kind_eqb (ev_kind e) thread_init) eqn:Hk; cbn [cs_advancement cs_locked].
    - apply kind_eqb_eq in Hk. rewrite emplace_new by done. split_and!.
      + apply smap_set_sorted, smap_sorted_nil.
      + done.
      + intros t Ht. by rewrite smap_find_set_ne.
      + intros t ([t' q] & -> & Hq)%list_elem_of_fmap. apply smap_elem_find in Hq; [|done]. cbn [fst].
        rewrite smap_find_set_ne; [done|]. intros Heq. rewrite <-Heq in Hq.
        by apply (own_thread_later h p e Han He q).
      + intros _. apply smap_find_set_eq.
    - split_and!; [apply smap_sorted_nil | done | done | done|]. intros Hn.
      destruct (own_only Hn) as [Hki _]. by rewrite Hki in Hk. }
  destruct (collect_threads_2_spec (ev_cone e) st0) as (st & -> & Hs & _ & Hin & Hout);
    [intros t q Ht; by apply smap_elem_find in Ht | by apply smap_sorted_nodup | done | done|].
  assert (prepared st) as Hpr.
  { split; [done | |].
    - intros t [->|Ht]%in_threads_cone; [|by apply Hin].
      destruct (decide (ev_tid e ∈ (ev_cone e).*1)) as [Ht|Ht]; [by apply Hin|].
      assert (smap_find (ev_tid e) (ev_cone e) = None) as Hn.
      { destruct (smap_find (ev_tid e) (ev_cone e)) as [q|] eqn:Hq; [|done].
        destruct Ht. apply smap_elem_find in Hq; [|done]. apply list_elem_of_fmap. by exists (ev_tid e, q). }
      destruct (own_only Hn) as (Hk & Hkeep & Hvec). exists [p]. rewrite Hout by done.
      split_and!; [by apply Hown0 | done|]. intros x ->%Hvec. exists e. split; [done|].
      unfold takes_lock, frees_lock. by rewrite Hk.
    - intros t Ht. rewrite in_threads_cone in Ht. rewrite Hout by tauto. apply Hne0. tauto. }
  rewrite bind_Ok_l. destruct (cl_first _ _ _ _ Hcl) as (v & ev' & Hev).
  exists st. split; [|done]. rewrite (prepared_advancement st Hpr). unfold adv_kept. by rewrite Hev.
Qed.
End collect2.
