(* ===== verification/Csd2Proofs.v ===== *)
(** * The searches of the second analysis

    A state of the search stands for a state of the threads with all their
    events: the events left out run together with the kept ones. Running a
    thread of the search runs the thread as far as possible, and reverting it
    restores the positions. *)

From stdpp Require Import base tactics list gmap numbers relations sorting.
From S2P Require Import Prelude StdMap ThreadId Event Comb CombEnum CombProofs Cone Alloc Causality.
From S2P Require Import Order Walks Unfolding Csd Schedule CsdProofs CsdProps Csd2 Csd2Base.

Section search2.
Context {PL : Payload}.
Implicit Types (x y z q : eid) (t u : thread_id) (s n : thread_id → nat) (st : csd_search_t).

Context (h : heap) (p : eid) (e : event) (events : thread_events) (K : thread_id → list eid).
Hypothesis Hdi : disciplined h p.
Hypothesis He : h !! p = Some e.
Hypothesis Hcl : collected h p e events.
Let Han : analysable h p := di_analysable _ _ Hdi.
Let Hwf : wf_heap h := an_wf _ _ Han.

Abbreviation vec := (vec events).
Abbreviation threads := (threads events).
Abbreviation len := (len events).
Abbreviation needs := (needs h).
Abbreviation ran := (ran h events).
Abbreviation ready := (ready h events).
Abbreviation can_step := (can_step threads len ready).
Abbreviation runs_to := (runs_to threads len ready).
Abbreviation degree := (degree threads len ready).
Abbreviation finished := (finished threads len).
Abbreviation remaining := (remaining threads len).
Abbreviation bounded := (bounded events).
Abbreviation closed := (closed h events).

Hypothesis HK : ∀ t, t ∈ threads → keeps h events t (K t).

(** ** Positions *)

(** The kept events that have run are the ones from [n t] on. *)
Definition placed s n t : Prop :=
  n t ≤ length (K t) ∧ ∀ i x, K t !! i = Some x → n t ≤ i ↔ ran s x.

(** The thread has ended, or its next event may wait. *)
Definition stops s t : Prop :=
  s t = len t ∨ ∃ x, vec t !! s t = Some x ∧ x ∈ K t ∧ may_be_blocking h x = Ok true.

Definition settled_at s n t : Prop := placed s n t ∧ stops s t.

Definition aligned s n : Prop := ∀ t, t ∈ threads → settled_at s n t.

Definition good n st : Prop :=
  cs_advancement st = adv_kept events K n ∧
  ∀ t, t ∈ threads → knows_locks h (cs_locked st) (λ x, x ∈ vec t).

Definition put n t (m : nat) : thread_id → nat := λ u, if decide (u = t) then m else n u.

Lemma put_eq n t m : put n t m t = m.
Proof. unfold put. by rewrite decide_True. Qed.

Lemma put_ne n t m u : u ≠ t → put n t m u = n u.
Proof. intros. unfold put. by rewrite decide_False. Qed.

Lemma kept_place t x : t ∈ threads → x ∈ K t → ∃ i, vec t !! i = Some x.
Proof.
  intros Ht Hx. apply list_elem_of_lookup.
  by apply (th_in _ _ _ (kp_thins _ _ _ _ (HK t Ht))).
Qed.

Lemma kept_order t i j x y : t ∈ threads → K t !! i = Some x → K t !! j = Some y → i < j → dep h y < dep h x.
Proof. intros Ht. apply (th_desc _ _ _ (kp_thins _ _ _ _ (HK t Ht))). Qed.

Lemma adv_find_kept n t : t ∈ threads → smap_find t (adv_kept events K n) = Some (K t, n t).
Proof. intros Ht. by rewrite adv_kept_find, (thread_vec_of h p e events Hcl t Ht). Qed.

Lemma good_at n st t : good n st → t ∈ threads → smap_at t (cs_advancement st) = Ok (K t, n t).
Proof. intros [Hadv _] Ht. unfold smap_at. by rewrite Hadv, adv_find_kept. Qed.

Lemma adv_kept_put n t m : t ∈ threads →
  smap_set t (K t, m) (adv_kept events K n) = adv_kept events K (put n t m).
Proof.
  intros Ht. apply smap_ext; [apply smap_set_sorted | |]; [by eapply adv_kept_sorted..|].
  intros u. destruct (decide (t = u)) as [<-|Hne].
  - by rewrite smap_find_set_eq, adv_find_kept, put_eq.
  - by rewrite smap_find_set_ne, !adv_kept_find, put_ne by done.
Qed.

Lemma good_put n st t m : good n st → t ∈ threads → good (put n t m) (set_position t (K t) m st).
Proof. intros [Hadv Hlk] Ht. split; [simpl; by rewrite Hadv, adv_kept_put | exact Hlk]. Qed.

Lemma adv_kept_ext n n' : (∀ t, t ∈ threads → n t = n' t) → adv_kept events K n = adv_kept events K n'.
Proof.
  intros Heq. unfold adv_kept. apply list_fmap_ext. intros i [t v] Hi. rewrite Heq; [done|].
  apply list_elem_of_fmap. exists (t, v). split; [done|]. by eapply list_elem_of_lookup_2.
Qed.

Lemma good_ext n n' st : (∀ t, t ∈ threads → n t = n' t) → good n st → good n' st.
Proof. intros Heq [Hadv Hlk]. split; [|done]. by rewrite Hadv, (adv_kept_ext n n'). Qed.

(** ** Locks *)

Lemma set_locked_good n st lid b :
  good n st → is_Some (smap_find lid (cs_locked st)) → ∃ st', set_locked lid b st = Ok st' ∧ good n st'.
Proof.
  intros [Hadv Hlk] [v Hv]. unfold set_locked, smap_at. rewrite Hv. cbn [in_range]. rewrite bind_Ok_l.
  eexists. split; [done|]. split; [done|]. intros t Ht x Hx. destruct (Hlk t Ht x Hx) as (ex & Hex & Hl).
  exists ex. split; [done|]. intros Hc. simpl. destruct (decide (lid = ev_lid ex)) as [->|Hne].
  - rewrite smap_find_set_eq. eauto.
  - rewrite smap_find_set_ne by done. by apply Hl.
Qed.

Lemma lock_known n st t x ex : good n st → t ∈ threads → x ∈ vec t → h !! x = Some ex →
  takes_lock ex || frees_lock ex = true → is_Some (smap_find (ev_lid ex) (cs_locked st)).
Proof.
  intros [_ Hlk] Ht Hx Hex Hl. destruct (Hlk t Ht x Hx) as (ex' & Hex' & Hk).
  assert (ex' = ex) as -> by congruence. auto.
Qed.

Lemma change_lock n st t x ex (b b' : bool) :
  good n st → t ∈ threads → x ∈ vec t → h !! x = Some ex →
  ∃ st', (if takes_lock ex then set_locked (ev_lid ex) b st
          else if frees_lock ex then set_locked (ev_lid ex) b' st else Ok st) = Ok st' ∧ good n st'.
Proof.
  intros Hg Ht Hx Hex. pose proof (lock_known n st t x ex Hg Ht Hx Hex) as Hl.
  destruct (takes_lock ex); [apply set_locked_good; auto|].
  destruct (frees_lock ex); [apply set_locked_good; auto | by exists st].
Qed.

(** ** Enabled events *)

(** An event that has run is covered by a kept one that has run. *)
Lemma ran_kept s n t y : t ∈ threads → settled_at s n t → y ∈ vec t → nonlocal h y → ran s y →
  ∃ k z, K t !! k = Some z ∧ n t ≤ k ∧ dep h y ≤ dep h z.
Proof.
  intros Ht [[_ Hpl] Hst] Hy Hny Hr. destruct (HK t Ht) as [Hth Hcov].
  assert (∀ z, z ∈ K t → ran s z → ∃ k, K t !! k = Some z ∧ n t ≤ k) as Hidx.
  { intros z [k Hk]%list_elem_of_lookup Hz. exists k. split; [done|]. by apply (Hpl k z). }
  destruct Hst as [Hend|(x & Hx & HxK & Hb)].
  - destruct (Hcov y Hy Hny) as (z & Hz & Hd). destruct (kept_place t z Ht Hz) as [j Hj].
    destruct (Hidx z Hz) as (k & Hk & Hle); [|by exists k, z].
    apply (ran_place h p e events Hdi Hcl s t j z Hj). rewrite Hend. by eapply lookup_lt_Some.
  - apply list_elem_of_lookup in Hy as [i Hi]. apply (ran_place h p e events Hdi Hcl s t i y Hi) in Hr.
    assert (dep h y < dep h x) as Hlt.
    { pose proof (chain_depth h (vec t) i (s t) y x Hwf (vec_chain h p e events Hcl t Ht) Hi Hx Hr). lia. }
    destruct (th_back _ _ _ Hth x y HxK) as (z & Hz & Hd & Hdx);
      [by eapply list_elem_of_lookup_2 | done | done | done |].
    destruct (kept_place t z Ht Hz) as [j Hj]. destruct (Hidx z Hz) as (k & Hk & Hle); [|by exists k, z].
    apply (ran_place h p e events Hdi Hcl s t j z Hj).
    destruct (decide (s t ≤ j)) as [Hge|]; [|lia].
    apply (place_depth h p e events Han Hcl t (s t) j x z Hx Hj) in Hge. lia.
Qed.

Lemma has_run_2_spec s n st y : good n st → causal_le h y p →
  at_event h y (λ ey, ev_kind ey ≠ program_init) → nonlocal h y → settled_at s n (event_tid h y) →
  ∃ b, has_run_2 h st y = Ok b ∧ (b = true ↔ ran s y).
Proof.
  intros Hg Hyp (ey & Hey & Hk) Hny Hset.
  destruct (event_place h p e events Hcl y ey Hyp Hey Hk) as (Ht & i & Hi).
  assert (event_tid h y = ev_tid ey) as Htid by (unfold event_tid; by rewrite Hey).
  rewrite Htid in Hset. pose proof (ran_kept s n _ y Ht Hset) as Hrk. destruct Hset as [[Hle Hpl] _].
  unfold has_run_2. rewrite (proj2 (deref_ok h y ey) Hey), bind_Ok_l, (good_at n st _ Hg Ht), bind_Ok_l.
  destruct (K (ev_tid ey) !! n (ev_tid ey)) as [q|] eqn:Hq.
  - destruct (kept_place _ q Ht) as [j Hj]; [by eapply list_elem_of_lookup_2|].
    destruct (place_event h p e events Hcl _ j q Hj) as (_ & _ & eq & Heq & _).
    rewrite (proj2 (deref_ok h q eq) Heq), bind_Ok_l. eexists. split; [done|].
    rewrite Nat.leb_le, <-(dep_lookup _ _ _ Hey), <-(dep_lookup _ _ _ Heq). split.
    + intros Hd. apply (ran_place h p e events Hdi Hcl s _ i y Hi).
      apply (place_depth h p e events Han Hcl _ i j y q Hi Hj) in Hd.
      pose proof (proj1 (Hpl _ q Hq) (le_n _)) as Hrq.
      apply (ran_place h p e events Hdi Hcl s _ j q Hj) in Hrq. lia.
    + intros Hr. destruct Hrk as (k & z & Hz & Hk' & Hd); [by eapply list_elem_of_lookup_2 | done | done |].
      etrans; [exact Hd|]. destruct (decide (n (ev_tid ey) = k)) as [<-|Hne]; [by simplify_eq|].
      pose proof (kept_order _ (n (ev_tid ey)) k q z Ht Hq Hz ltac:(lia)). lia.
  - exists false. split; [done|]. split; [done|]. intros Hr.
    destruct Hrk as (k & z & Hz & Hk' & Hd); [by eapply list_elem_of_lookup_2 | done | done |].
    apply lookup_ge_None in Hq. apply lookup_lt_Some in Hz. lia.
Qed.

(** The positions of the threads an event waits for are settled. *)
Definition answered s n x : Prop := ∀ y, y ∈ needs x → settled_at s n (event_tid h y).

Lemma needed_run s n st x y : good n st → causal_le h x p → answered s n x → y ∈ needs x →
  ∃ b, has_run_2 h st y = Ok b ∧ (b = true ↔ ran s y).
Proof.
  intros Hg Hx Ha Hy. destruct (needs_below h p e events Han He Hcl x y Hx Hy) as (_ & Hyp & Hk).
  apply (has_run_2_spec s n); [done | done | done | exact (needs_nonlocal h p e events Hdi He Hcl x y Hx Hy) | by apply Ha].
Qed.

Lemma needed_all s n st x l : good n st → causal_le h x p → answered s n x →
  (∀ y, y ∈ l → y ∈ needs x) →
  ∃ b, all_of (has_run_2 h st) l = Ok b ∧ (b = true ↔ ∀ y, y ∈ l → ran s y).
Proof.
  intros Hg Hx Ha. induction l as [|y l IH]; intros Hl; simpl.
  { exists true. split; [done|]. split; [|done]. by intros _ y ?%elem_of_nil. }
  destruct (needed_run s n st x y) as (b & -> & Hb); [done | done | done | apply Hl; left|].
  rewrite bind_Ok_l. destruct b.
  - destruct IH as (b & -> & Hbl); [intros z Hz; apply Hl; by right|]. exists b. split; [done|].
    rewrite Hbl. setoid_rewrite elem_of_cons. naive_solver.
  - exists false. split; [done|]. split; [done|]. intros Hall. apply Hb, Hall. left.
Qed.

Lemma needed_lock s n st x ex l : good n st → causal_le h x p → answered s n x → is_Some (h !! l) →
  (∀ y, y ∈ other_thread h ex l → y ∈ needs x) →
  ∃ b, lock_available_2 h st ex l = Ok b ∧ (b = true ↔ ∀ y, y ∈ other_thread h ex l → ran s y).
Proof.
  intros Hg Hx Ha [el Hel] Hn. unfold lock_available_2.
  rewrite (proj2 (deref_ok h l el) Hel), bind_Ok_l. unfold other_thread in *. rewrite Hel in *.
  destruct (tid_eqb (ev_tid el) (ev_tid ex)).
  - exists true. split; [done|]. split; [|done]. by intros _ y ?%elem_of_nil.
  - destruct (needed_run s n st x l) as (b & -> & Hb); [done | done | done | apply Hn; left|].
    exists b. split; [done|]. rewrite Hb. setoid_rewrite list_elem_of_singleton. naive_solver.
Qed.

Lemma enabled_2_spec s n st x : good n st → causal_le h x p → answered s n x →
  ∃ b, event_is_enabled_2 h st x = Ok b ∧ (b = true ↔ ∀ y, y ∈ needs x → ran s y).
Proof.
  intros Hg Hx Ha. destruct (cf_in _ _ (an_free _ _ Han) x Hx) as [ex Hex].
  pose proof (needed_run s n st x) as Hrun. pose proof (needed_all s n st x) as Hall.
  pose proof (needed_lock s n st x ex) as Hlock. pose proof (wf_class _ _ (Hwf _ _ Hex)) as Hc.
  pose proof (wf_preds _ _ (Hwf _ _ Hex)) as Hpred.
  unfold event_is_enabled_2. rewrite (proj2 (deref_ok h x ex) Hex), bind_Ok_l.
  unfold CsdProofs.needs in *. rewrite Hex in *. unfold class_ok in Hc. unfold predecessors in Hpred.
  assert (∃ b, Ok true = Ok b ∧ (b = true ↔ ∀ y, y ∈ ([] : list eid) → ran s y)) as Hnone.
  { exists true. split; [done|]. split; [|done]. by intros _ y ?%elem_of_nil. }
  assert (∀ y b, (b = true ↔ ran s y) → b = true ↔ ∀ z, z ∈ [y] → ran s z) as Hone.
  { intros y b ->. setoid_rewrite list_elem_of_singleton. naive_solver. }
  destruct (ev_data ex) as [| | |tp j|c| | | |tp [l|] lid k| | | |tp l cps cid lid|tp np l cid lid k|tp cps cid|tp cps m cid] eqn:Hd;
    try exact Hnone.
  - destruct (Hrun j) as (b & -> & Hb); [done | done | done | left|]. exists b. split; [done | by apply Hone].
  - destruct Hc as (ec & Hec & _). rewrite (proj2 (deref_ok h c ec) Hec), bind_Ok_l. rewrite Hec in *.
    destruct (kind_eqb (ev_kind ec) program_init); [exact Hnone|].
    destruct (Hrun c) as (b & -> & Hb); [done | done | done | left|]. exists b. split; [done | by apply Hone].
  - apply Hlock; [done.. | apply Hpred, two_predecessors_elem; by right | done].
  - by apply Hall.
  - destruct (Hrun np) as (b & -> & Hb); [done | done | done | left|]. rewrite bind_Ok_l. destruct b; cbn [negb].
    + destruct (Hlock l) as (b & -> & Hbl); [done.. | apply Hpred; right; right; left | by intros y ?; right|].
      exists b. split; [done|]. rewrite Hbl. setoid_rewrite elem_of_cons. naive_solver.
    + exists false. split; [done|]. split; [done|]. intros Hal. apply Hb, Hal. left.
  - by apply Hall.
  - by apply Hall.
Qed.

(** [event_preemption] refines [event_is_enabled_2]. *)
Lemma preemption_enabled st x ex b : h !! x = Some ex →
  (takes_lock ex = true → is_Some (smap_find (ev_lid ex) (cs_locked st))) →
  event_is_enabled_2 h st x = Ok b → ∃ r, event_preemption h st x = Ok r ∧ is_enabled_t r = b.
Proof.
  intros Hex Hl. unfold event_is_enabled_2, event_preemption.
  rewrite (proj2 (deref_ok h x ex) Hex), !bind_Ok_l.
  assert (∀ l b, takes_lock ex = true → lock_available_2 h st ex l = Ok b →
    ∃ r, lock_preemption h st ex l = Ok r ∧ is_enabled_t r = b) as Hlock.
  { intros l b' Hk Hb. unfold lock_preemption. rewrite Hb, bind_Ok_l. destruct b'; [by eexists|].
    destruct (Hl Hk) as [v Hv]. unfold smap_at. rewrite Hv. cbn [in_range]. rewrite bind_Ok_l.
    eexists. split; [done|]. by destruct v. }
  destruct (ev_data ex) as [| | |tp j|c| | | |tp [l|] lid k| | | |tp l cps cid lid|tp np l cid lid k|tp cps cid|tp cps m cid] eqn:Hd;
    try (intros [= <-]; by eexists).
  - intros ->. rewrite bind_Ok_l. eexists. split; [done|]. by destruct b.
  - intros (ec & -> & Hb)%bind_ok. rewrite bind_Ok_l. destruct (kind_eqb (ev_kind ec) program_init).
    + injection Hb as <-. by eexists.
    + rewrite Hb, bind_Ok_l. eexists. split; [done|]. by destruct b.
  - apply Hlock. unfold takes_lock, ev_kind. by rewrite Hd.
  - intros ->. rewrite bind_Ok_l. eexists. split; [done|]. by destruct b.
  - intros (b' & -> & Hb)%bind_ok. rewrite bind_Ok_l. destruct b'; cbn [negb] in *.
    + apply Hlock; [|done]. unfold takes_lock, ev_kind. by rewrite Hd.
    + injection Hb as <-. by eexists.
  - intros ->. rewrite bind_Ok_l. eexists. split; [done|]. by destruct b.
  - intros ->. rewrite bind_Ok_l. eexists. split; [done|]. by destruct b.
Qed.

Lemma preemption_spec s n st t x ex : good n st → t ∈ threads → x ∈ vec t → h !! x = Some ex →
  answered s n x →
  ∃ r, event_preemption h st x = Ok r ∧ (is_enabled_t r = true ↔ ∀ y, y ∈ needs x → ran s y).
Proof.
  intros Hg Ht Hx Hex Ha. apply (vec_elem h p e events Hcl t x Ht) in Hx as Hx'.
  destruct (enabled_2_spec s n st x Hg (proj1 Hx') Ha) as (b & Hb & Hran).
  destruct (preemption_enabled st x ex b Hex) as (r & Hr & <-); [|done|by exists r].
  intros Hl. apply (lock_known n st t x ex Hg Ht Hx Hex). by rewrite Hl.
Qed.

(** ** Running a thread *)

Lemma placed_same s s' n n' t : t ∈ threads → s t = s' t → n t = n' t → placed s n t → placed s' n' t.
Proof.
  intros Ht Hs Hn [Hle Hpl]. split; [by rewrite <-Hn|]. intros i x Hx. rewrite <-Hn, (Hpl i x Hx).
  destruct (kept_place t x Ht) as [j Hj]; [by eapply list_elem_of_lookup_2|].
  by rewrite !(ran_place h p e events Hdi Hcl _ t j x Hj), Hs.
Qed.

Lemma settled_same s s' n n' t : t ∈ threads → s t = s' t → n t = n' t → settled_at s n t → settled_at s' n' t.
Proof.
  intros Ht Hs Hn [Hpl Hst]. split; [by eapply placed_same|]. unfold stops in *. by rewrite <-Hs.
Qed.

(** Events that are left out run without waiting. *)
Lemma run_over t : t ∈ threads → ∀ k s, closed s → bounded s → s t + k ≤ len t →
  (∀ i x, s t ≤ i < s t + k → vec t !! i = Some x → x ∉ K t) →
  ∃ s', s' t = s t + k ∧ (∀ u, u ≠ t → s' u = s u) ∧ closed s' ∧ bounded s' ∧
    ∀ s'', runs_to t s' s'' → runs_to t s s''.
Proof.
  intros Ht. induction k as [|k IH]; intros s Hc Hb Hlen Hout.
  { exists s. split_and!; [lia | done..]. }
  destruct (lookup_lt_is_Some_2 (vec t) (s t)) as [x Hx]; [unfold len in Hlen; lia|].
  destruct (place_event h p e events Hcl t _ x Hx) as (_ & Hxp & ex & Hex & _).
  assert (can_step s t) as Hstep.
  { apply (below_ready h p e events Hdi He Hcl s t x Hc Hx), (synchronised_below h p e events Hdi He Hcl x ex);
      [done | done|]. intros Hk. apply (Hout (s t) x); [lia | done|].
    apply (th_kept _ _ _ (kp_thins _ _ _ _ (HK t Ht))); [by eapply list_elem_of_lookup_2|].
    exists ex. split; [done|]. repeat (apply elem_of_cons in Hk as [->|Hk]; [done|]). by apply elem_of_nil in Hk. }
  destruct (IH (step s t)) as (s' & Hs' & Hother & Hc' & Hb' & Hrun).
  - by apply (closed_step h p e events Hdi Hcl).
  - apply (bounded_step events s t Hb). lia.
  - rewrite step_eq. lia.
  - intros i y Hi. rewrite step_eq in Hi. apply Hout. lia.
  - exists s'. rewrite step_eq in Hs'. split_and!; [lia | | done | done|].
    + intros u Hu. by rewrite Hother, step_ne.
    + intros s'' Hr. apply runs_more; [done | by apply Hrun].
Qed.

(** After running the next kept event [x]. *)
Lemma placed_step s n t m x : t ∈ threads → placed s n t → n t = S m → K t !! m = Some x →
  vec t !! s t = Some x → placed (step s t) (put n t m) t.
Proof.
  intros Ht [Hle Hpl] Hn Hm Hx. split; rewrite put_eq; [lia|]. intros i z Hz.
  rewrite (ran_step h p e events Hdi Hcl s t x Hx z), <-(Hpl i z Hz), Hn.
  destruct (decide (i = m)) as [->|Hne]; [simplify_eq; split; auto|].
  split; [intros; left; lia|]. intros [?| ->]; [lia|].
  assert (i = m); [|done]. destruct (decide (i < m)) as [Hlt|]; [|destruct (decide (m < i)) as [Hlt|]; [|lia]].
  - pose proof (kept_order t i m x x Ht Hz Hm Hlt). lia.
  - pose proof (kept_order t m i x x Ht Hm Hz Hlt). lia.
Qed.

(** The next kept event, or the end of the thread. *)
Lemma gap s n t m : t ∈ threads → bounded s → placed s n t → n t = m →
  ∃ j, s t ≤ j ≤ len t ∧
    (∀ i x, s t ≤ i < j → vec t !! i = Some x → x ∉ K t) ∧
    match m with 0 => j = len t | S k => ∃ z, K t !! k = Some z ∧ vec t !! j = Some z end.
Proof.
  intros Ht Hb [Hle Hpl] Hn. assert (∀ i x, s t ≤ i → vec t !! i = Some x → x ∈ K t →
    ∃ a, K t !! a = Some x ∧ a < m) as Hleft.
  { intros i x Hi Hx [a Ha]%list_elem_of_lookup. exists a. split; [done|].
    destruct (decide (n t ≤ a)) as [Hge|]; [|lia]. apply (Hpl a x Ha) in Hge.
    apply (ran_place h p e events Hdi Hcl s t i x Hx) in Hge. lia. }
  destruct m as [|k].
  - exists (len t). split; [split; [apply Hb | done]|]. split; [|done]. intros i x [Hi _] Hx HxK.
    destruct (Hleft i x Hi Hx HxK) as (a & _ & Ha). lia.
  - destruct (lookup_lt_is_Some_2 (K t) k) as [z Hz]; [lia|].
    destruct (kept_place t z Ht) as [j Hj]; [by eapply list_elem_of_lookup_2|].
    assert (s t ≤ j) as Hsj.
    { destruct (decide (j < s t)) as [Hlt|]; [|lia]. apply (ran_place h p e events Hdi Hcl s t j z Hj) in Hlt.
      apply (Hpl k z Hz) in Hlt. lia. }
    exists j. split; [split; [done|]; apply lookup_lt_Some in Hj; unfold len; lia|].
    split; [|by exists z]. intros i x [Hi Hij] Hx HxK. destruct (Hleft i x Hi Hx HxK) as (a & Ha & Hak).
    pose proof (chain_depth h (vec t) i j x z Hwf (vec_chain h p e events Hcl t Ht) Hx Hj Hij) as Hd.
    destruct (decide (a = k)) as [->|Hne]; [simplify_eq; lia|].
    pose proof (kept_order t a k x z Ht Ha Hz ltac:(lia)). lia.
Qed.

(** The result of running thread [t]. *)
Record thread_advanced s n t st' (d : csd_t) s' n' : Prop := {
  ad_cost : (d ≤ 1)%N;
  ad_good : good n' st';
  ad_closed : closed s';
  ad_bounded : bounded s';
  ad_runs : runs_to t s s';
  ad_aligned : aligned s' n';
  ad_less : n' t < n t;
  ad_other u : u ≠ t → n' u = n u;
}.

Lemma answered_other s n t x : t ∈ threads → x ∈ vec t → (∀ u, u ∈ threads → u ≠ t → settled_at s n u) →
  answered s n x.
Proof.
  intros Ht Hx Hset y Hy. apply (vec_elem h p e events Hcl t x Ht) in Hx as [Hxp Hev].
  destruct (needs_below h p e events Han He Hcl x y Hxp Hy) as (_ & Hyp & ey & Hey & Hk).
  apply Hset.
  - unfold event_tid. rewrite Hey. by apply (event_place h p e events Hcl y ey).
  - rewrite <-(event_tid_spec h t x Hev). by apply (di_other _ _ Hdi).
Qed.

(** Running the next kept event [x] and everything up to the one after it. *)
Lemma run_kept t m s n x : t ∈ threads → closed s → bounded s → can_step s t → placed s n t →
  (∀ u, u ∈ threads → u ≠ t → settled_at s n u) → n t = S m → K t !! m = Some x → vec t !! s t = Some x →
  ∃ s', closed s' ∧ bounded s' ∧ (∀ s'', runs_to t s' s'' → runs_to t s s'') ∧
    placed s' (put n t m) t ∧ (∀ u, u ∈ threads → u ≠ t → settled_at s' (put n t m) u) ∧
    match m with 0 => s' t = len t | S k => ∃ z, K t !! k = Some z ∧ vec t !! s' t = Some z end.
Proof.
  intros Ht Hc Hb Hstep Hpl Hset Hn Hm Hx.
  pose proof (placed_step s n t m x Ht Hpl Hn Hm Hx) as Hpl1.
  pose proof (closed_step h p e events Hdi Hcl s t Hc Hstep) as Hc1.
  pose proof (bounded_step events s t Hb (proj1 (proj2 Hstep))) as Hb1.
  destruct (gap (step s t) _ t m Ht Hb1 Hpl1 (put_eq _ _ _)) as (j & Hj & Hout & Hnext).
  destruct (run_over t Ht (j - step s t t) (step s t)) as (s' & Hs' & Hother & Hc' & Hb' & Hrun);
    [done | done | lia | intros i y Hi; apply Hout; lia|].
  replace (step s t t + (j - step s t t)) with j in Hs' by lia.
  exists s'. split_and!; [done | done | | | |].
  - intros s'' Hr. apply runs_more; auto.
  - destruct Hpl1 as [Hle Hp]. split; [done|]. intros i z Hz. rewrite (Hp i z Hz).
    assert (z ∈ K t) as HzK by (by eapply list_elem_of_lookup_2).
    destruct (kept_place t z Ht HzK) as [a Ha]. rewrite !(ran_place h p e events Hdi Hcl _ t a z Ha), Hs'.
    split; [lia|]. intros Hlt. destruct (decide (a < step s t t)) as [|Hge]; [done|].
    destruct (Hout a z); [lia | done | done].
  - intros u Hu Hne. apply (settled_same s s' n (put n t m) u Hu); [|by rewrite put_ne | by apply Hset].
    by rewrite Hother, step_ne.
  - rewrite Hs'. exact Hnext.
Qed.

(** A thread stops in front of an event only if the event may wait. *)
Lemma stopped s t z : closed s → t ∈ threads → vec t !! s t = Some z → z ∈ K t → ¬ can_step s t → stops s t.
Proof.
  intros Hc Ht Hz HzK Hstuck. destruct (place_event h p e events Hcl t _ z Hz) as (_ & Hzp & _).
  right. exists z. split_and!; [done | done|].
  destruct (may_be_blocking_spec h p Hdi z Hzp) as (b & -> & Hbelow). destruct b; [done|].
  destruct Hstuck. apply (below_ready h p e events Hdi He Hcl s t z Hc Hz). by apply Hbelow.
Qed.

Lemma advance_loop_eq t (evs : list eid) k st :
  advance_thread_loop h t evs (S (S k)) st =
    (let st := set_position t evs (S k) st in
     ev ← in_range (evs !! k);
     enabled ← event_preemption h st ev;
     match enabled with
     | NONPREEMPTING_DISABLED => Ok (st, 0%N)
     | PREEMPTING_DISABLED => Ok (st, 1%N)
     | ENABLED => e ← deref h ev; st ← run_lock e st; advance_thread_loop h t evs (S k) st
     end).
Proof. reflexivity. Qed.

Lemma advance_loop_2 t : t ∈ threads → ∀ m s n st x,
  good n st → closed s → bounded s → can_step s t → placed s n t →
  (∀ u, u ∈ threads → u ≠ t → settled_at s n u) → n t = S m → K t !! m = Some x → vec t !! s t = Some x →
  ∃ st' d s' n', advance_thread_loop h t (K t) (S m) st = Ok (st', d) ∧ thread_advanced s n t st' d s' n'.
Proof.
  intros Ht. induction m as [|k IH]; intros s n st x Hg Hc Hb Hstep Hpl Hset Hn Hm Hx;
    destruct (run_kept t _ s n x Ht Hc Hb Hstep Hpl Hset Hn Hm Hx)
      as (s2 & Hc2 & Hb2 & Hrun & Hpl2 & Hset2 & Hnext).
  - exists (set_position t (K t) 0 st), 0%N, s2, (put n t 0). split; [done|].
    split; [lia | by apply good_put | done | done | | | rewrite put_eq; lia | intros; by apply put_ne].
    + apply Hrun, runs_stop. intros (_ & Hl & _). lia.
    + intros u Hu. destruct (decide (u = t)) as [->|Hne]; [|by apply Hset2]. by split; [|left].
  - destruct Hnext as (z & Hz & Hzj). pose proof (good_put n st t (S k) Hg Ht) as Hg1.
    rewrite advance_loop_eq. remember (S k) as m eqn:Hmk. rewrite Hz. cbn [in_range]. rewrite bind_Ok_l.
    destruct (place_event h p e events Hcl t _ z Hzj) as (_ & Hzp & ez & Hez & _).
    assert (z ∈ vec t) as Hzv by (by eapply list_elem_of_lookup_2).
    assert (z ∈ K t) as HzK by (by eapply list_elem_of_lookup_2).
    assert (answered s2 (put n t m) z) as Ha by (eapply answered_other; eauto).
    destruct (preemption_spec s2 _ _ t z ez Hg1 Ht Hzv Hez Ha) as (r & -> & Hr).
    rewrite bind_Ok_l. destruct (is_enabled_t r) eqn:Hre.
    + destruct r; try discriminate Hre. rewrite (proj2 (deref_ok h z ez) Hez), bind_Ok_l.
      destruct (change_lock _ _ t z ez true false Hg1 Ht Hzv Hez) as (st2 & Hlk & Hg2).
      unfold run_lock. rewrite Hlk, bind_Ok_l.
      assert (can_step s2 t) as Hstep2.
      { split_and!; [done | by apply lookup_lt_Some in Hzj |]. exists z. split; [done | by apply Hr]. }
      destruct (IH s2 (put n t m) st2 z) as (st' & d & s' & n' & Hl & [A1 A2 A3 A4 A5 A6 A7 A8]);
        [done | done | done | done | done | done | by rewrite put_eq | done | done |].
      exists st', d, s', n'. rewrite put_eq in A7. split; [exact Hl|].
      split; [done..| by apply Hrun | done | lia | intros u Hu; by rewrite A8, put_ne].
    + assert (¬ can_step s2 t) as Hstuck.
      { intros (_ & _ & z' & Hz' & Hn'). assert (z' = z) as -> by congruence. by apply Hr in Hn'. }
      exists (set_position t (K t) m st), (match r with NONPREEMPTING_DISABLED => 0 | _ => 1 end)%N, s2, (put n t m).
      split; [by destruct r|].
      split; [by destruct r | done | done | done | | | rewrite put_eq; lia | intros; by apply put_ne].
      * by apply Hrun, runs_stop.
      * intros u Hu. destruct (decide (u = t)) as [->|Hne]; [|by apply Hset2].
        split; [done | by apply (stopped s2 t z)].
Qed.

(** The next event of a thread is the next one kept. *)
Lemma next_kept s n t : t ∈ threads → settled_at s n t → s t < len t →
  ∃ m x, n t = S m ∧ K t !! m = Some x ∧ vec t !! s t = Some x.
Proof.
  intros Ht [[Hle Hpl] Hst] Hlt. destruct Hst as [Hend|(x & Hx & HxK & _)]; [lia|].
  apply list_elem_of_lookup in HxK as [i Hi].
  assert (¬ ran s x) as Hnr by (rewrite (ran_place h p e events Hdi Hcl s t _ x Hx); lia).
  assert (i < n t) as Hin by (destruct (decide (n t ≤ i)) as [?%(Hpl i x Hi)|]; [done | lia]).
  destruct (n t) as [|m] eqn:Hn; [lia|]. exists m, x. split_and!; [done | | done].
  destruct (decide (i = m)) as [->|Hne]; [done|]. destruct (lookup_lt_is_Some_2 (K t) m) as [z Hz]; [lia|].
  pose proof (kept_order t i m x z Ht Hi Hz ltac:(lia)) as Hd.
  destruct (kept_place t z Ht) as [j Hj]; [by eapply list_elem_of_lookup_2|].
  assert (¬ ran s z) as Hnz by (rewrite <-(Hpl m z Hz); lia).
  rewrite (ran_place h p e events Hdi Hcl s t j z Hj) in Hnz.
  pose proof (proj2 (place_depth h p e events Han Hcl t (s t) j x z Hx Hj) ltac:(lia)). lia.
Qed.

Lemma ended s n t : t ∈ threads → placed s n t → s t = len t → n t = 0.
Proof.
  intros Ht [Hle Hpl] Hend. destruct (n t) as [|m] eqn:Hn; [done|].
  destruct (lookup_lt_is_Some_2 (K t) m) as [z Hz]; [lia|].
  destruct (kept_place t z Ht) as [j Hj]; [by eapply list_elem_of_lookup_2|].
  assert (¬ ran s z) as Hnz by (rewrite <-(Hpl m z Hz); lia).
  rewrite (ran_place h p e events Hdi Hcl s t j z Hj) in Hnz. apply lookup_lt_Some in Hj. unfold len in Hend. lia.
Qed.

Lemma left_over s n t : t ∈ threads → bounded s → settled_at s n t → s t < len t ↔ 0 < n t.
Proof.
  intros Ht Hb Hset. split.
  - intros Hlt. destruct (next_kept s n t Ht Hset Hlt) as (m & x & -> & _). lia.
  - intros Hn. specialize (Hb t). destruct (decide (s t = len t)) as [Hend|]; [|lia].
    rewrite (ended s n t Ht (proj1 Hset) Hend) in Hn. lia.
Qed.

Lemma advance_thread_spec s n st t : good n st → closed s → bounded s → aligned s n → can_step s t →
  ∃ st' d s' n', advance_thread_2 h t st = Ok (st', d) ∧ thread_advanced s n t st' d s' n'.
Proof.
  intros Hg Hc Hb Hal Hstep. pose proof Hstep as (Ht & Hlt & Hrd).
  destruct (next_kept s n t Ht (Hal t Ht) Hlt) as (m & x & Hn & Hm & Hx).
  destruct (place_event h p e events Hcl t _ x Hx) as (_ & Hxp & ex & Hex & _).
  assert (x ∈ vec t) as Hxv by (by eapply list_elem_of_lookup_2).
  assert (∀ u, u ∈ threads → u ≠ t → settled_at s n u) as Hset by (intros u Hu _; by apply Hal).
  unfold advance_thread_2. rewrite (good_at n st t Hg Ht), bind_Ok_l, Hn.
  change (0 <? S m) with true. cbn [cassert]. rewrite bind_Ok_l. replace (S m - 1) with m by lia. rewrite Hm.
  cbn [in_range]. rewrite bind_Ok_l.
  destruct (preemption_spec s n st t x ex Hg Ht Hxv Hex) as (r & -> & Hr); [by eapply answered_other|].
  rewrite bind_Ok_l. rewrite (proj2 Hr).
  - cbn [cassert]. rewrite bind_Ok_l. by apply (advance_loop_2 t Ht m s n st x Hg Hc Hb Hstep (proj1 (Hal t Ht))).
  - destruct Hrd as (x' & Hx' & Hn'). by assert (x' = x) as <- by congruence.
Qed.

(** ** Reverting a thread *)

Lemma revert_loop_spec t : t ∈ threads → ∀ k n st, good n st → n t + k ≤ length (K t) →
  ∃ st', revert_thread_loop h t (K t) (n t) k st = Ok st' ∧ good (put n t (n t + k)) st'.
Proof.
  intros Ht. induction k as [|k IH]; intros n st Hg Hle; cbn [revert_thread_loop].
  { exists st. split; [done|]. apply (good_ext n); [|done]. intros u _.
    destruct (decide (u = t)) as [->|]; [rewrite put_eq; lia | by rewrite put_ne]. }
  destruct (lookup_lt_is_Some_2 (K t) (n t)) as [x Hx]; [lia|]. rewrite Hx. cbn [in_range]. rewrite bind_Ok_l.
  destruct (kept_place t x Ht) as [j Hj]; [by eapply list_elem_of_lookup_2|].
  destruct (place_event h p e events Hcl t j x Hj) as (_ & _ & ex & Hex & _).
  rewrite (proj2 (deref_ok h x ex) Hex), bind_Ok_l.
  destruct (change_lock n st t x ex false true Hg Ht) as (st1 & Hl & Hg1);
    [by eapply list_elem_of_lookup_2 | done|].
  unfold revert_lock. rewrite Hl, bind_Ok_l.
  destruct (IH (put n t (S (n t))) (set_position t (K t) (S (n t)) st1)) as (st' & Hr & Hg');
    [by apply good_put | rewrite put_eq; lia|]. rewrite put_eq in Hr, Hg'. exists st'. split; [done|].
  eapply good_ext; [|exact Hg']. intros u _. destruct (decide (u = t)) as [->|Hne].
  - rewrite !put_eq. lia.
  - by rewrite !put_ne.
Qed.

(** Reverting the thread that ran restores the positions. *)
Lemma revert_spec n n' st t : t ∈ threads → good n' st → n' t < n t → n t ≤ length (K t) →
  (∀ u, u ≠ t → n' u = n u) → ∃ st', revert_thread h t (n t) st = Ok st' ∧ good n st'.
Proof.
  intros Ht Hg Hlt Hle Hother. unfold revert_thread. rewrite (good_at n' st t Hg Ht), bind_Ok_l.
  rewrite (proj2 (Nat.ltb_lt _ _) Hlt), (proj2 (Nat.leb_le _ _) Hle). cbn [andb cassert]. rewrite bind_Ok_l.
  destruct (revert_loop_spec t Ht (n t - n' t) n' st Hg) as (st' & Hr & Hg'); [lia|].
  exists st'. split; [done|]. eapply good_ext; [|exact Hg']. intros u _.
  destruct (decide (u = t)) as [->|Hne]; [rewrite put_eq; lia | rewrite put_ne by done; by apply Hother].
Qed.

(** ** Choosing a thread *)

Lemma all_done_spec s n st : good n st → bounded s → aligned s n → all_done st = true ↔ finished s.
Proof.
  intros [Hadv _] Hb Hal. unfold all_done. rewrite Hadv, forallb_elem_of. split.
  - intros Hall t Ht. specialize (Hall (t, (K t, n t))). cbn [snd] in Hall. rewrite Nat.eqb_eq in Hall.
    destruct (decide (s t < len t)) as [Hlt|]; [|lia]. apply (left_over s n t Ht Hb (Hal t Ht)) in Hlt.
    rewrite Hall in Hlt; [lia|]. apply smap_elem_find; [by eapply adv_kept_sorted | by apply adv_find_kept].
  - intros Hf [t w] Hw. apply smap_elem_find in Hw; [|by eapply adv_kept_sorted].
    destruct (decide (t ∈ threads)) as [Ht|Ht].
    + rewrite adv_find_kept in Hw by done. injection Hw as <-. cbn [snd]. apply Nat.eqb_eq.
      apply (ended s n t Ht); [by apply Hal|]. specialize (Hf t Ht). specialize (Hb t). lia.
    + rewrite adv_kept_find, (threads_find h p e events Hcl t Ht) in Hw. done.
Qed.

Lemma switchable_2_spec s n st cur t : good n st → bounded s → aligned s n → t ∈ threads →
  ∃ b, switchable_2 h st cur t = Ok b ∧ (b = true ↔ t ≠ cur ∧ can_step s t).
Proof.
  intros Hg Hb Hal Ht. unfold switchable_2. rewrite (good_at n st t Hg Ht), bind_Ok_l.
  destruct (tid_eqb t cur) eqn:Hc; cbn [negb andb].
  { exists false. split; [done|]. split; [done|]. intros [Hne _]. by apply tid_eqb_spec in Hc. }
  assert (t ≠ cur) as Hne by (intros Heq; apply tid_eqb_spec in Heq; congruence).
  destruct (Nat.ltb_spec 0 (n t)) as [Hlt|Hge].
  - apply (left_over s n t Ht Hb (Hal t Ht)) in Hlt.
    destruct (next_kept s n t Ht (Hal t Ht) Hlt) as (m & x & Hn & Hm & Hx).
    destruct (place_event h p e events Hcl t _ x Hx) as (_ & Hxp & _).
    rewrite Hn. replace (S m - 1) with m by lia. rewrite Hm. cbn [in_range]. rewrite bind_Ok_l.
    destruct (enabled_2_spec s n st x Hg Hxp) as (b & -> & Hbx).
    { apply (answered_other s n t); [done | by eapply list_elem_of_lookup_2 | intros u Hu _; by apply Hal]. }
    exists b. split; [done|]. rewrite Hbx. split.
    + intros Hr. split; [done|]. split_and!; [done | done | by exists x].
    + intros (_ & _ & _ & x' & Hx' & Hr). by assert (x' = x) as <- by congruence.
  - exists false. split; [done|]. split; [done|]. intros (_ & _ & Hlt & _).
    apply (left_over s n t Ht Hb (Hal t Ht)) in Hlt. lia.
Qed.

(** ** The search with a limit *)

Definition limit_body_2 (cur : thread_id) (search : thread_id → csd_search_t → res (bool * csd_search_t))
    : option bool * csd_search_t → thread_id → res (option bool * csd_search_t) :=
  λ '(found, st) u,
    match found with
    | None => Ok (None, st)
    | Some possible =>
        sw ← switchable_2 h st cur u;
        if (sw : bool) then
          '(above, st) ← search u st;
          Ok (if (above : bool) then Some true else None, st)
        else Ok (Some possible, st)
    end.

Lemma limit_left_2 cur search l st : for_each (limit_body_2 cur search) (None, st) l = Ok (None, st).
Proof. induction l as [|u l IH]; [done | exact IH]. Qed.

(** Every execution that goes on with [u] exceeds the limit. *)
Definition exceeds s u (c limit : N) : Prop := ∀ k, degree s u k → (limit < c + N.of_nat k)%N.

Lemma limit_loop_2 s n cur c limit search : bounded s → aligned s n →
  (∀ u st, u ≠ cur → can_step s u → good n st →
    ∃ b st', search u st = Ok (b, st') ∧ good n st' ∧ (b = true → exceeds s u c limit)) →
  ∀ l possible st, (∀ u, u ∈ l → u ∈ threads) → good n st → ∃ found st',
    for_each (limit_body_2 cur search) (Some possible, st) l = Ok (found, st') ∧ good n st' ∧
    match found with
    | None => True
    | Some possible' =>
        (possible = true ∨ (∃ u, u ∈ l ∧ u ≠ cur ∧ can_step s u) → possible' = true) ∧
        ∀ u, u ∈ l → u ≠ cur → can_step s u → exceeds s u c limit
    end.
Proof.
  intros Hb Hal Hsearch. induction l as [|t l IH]; intros possible st Hl Hg; cbn [for_each limit_body_2].
  { exists (Some possible), st. split_and!; [done | done | | by intros u ?%elem_of_nil].
    setoid_rewrite elem_of_nil. naive_solver. }
  destruct (switchable_2_spec s n st cur t Hg Hb Hal) as (b & -> & Hbt); [apply Hl; left|]. rewrite bind_Ok_l.
  assert (∀ u, u ∈ l → u ∈ threads) as Hl' by (intros u Hu; apply Hl; by right). destruct b.
  - destruct (proj1 Hbt eq_refl) as [Hne Hc]. destruct (Hsearch t st Hne Hc Hg) as (above & st1 & -> & Hg1 & Hab).
    rewrite !bind_Ok_l. destruct above.
    + destruct (IH true st1 Hl' Hg1) as (found & st' & -> & Hg' & Hf). exists found, st'. split_and!; [done..|].
      destruct found as [possible'|]; [|done]. destruct Hf as [Hp Hw]. split; [auto|].
      intros u [->|Hu]%elem_of_cons; auto.
    + exists None, st1. by rewrite limit_left_2.
  - rewrite bind_Ok_l. assert (¬ (t ≠ cur ∧ can_step s t)) as Hn by (intros Hc; by apply Hbt in Hc).
    destruct (IH possible st Hl' Hg) as (found & st' & -> & Hg' & Hf). exists found, st'. split_and!; [done..|].
    destruct found as [possible'|]; [|done]. destruct Hf as [Hp Hw]. split.
    + intros [?|(u & [->|Hu]%elem_of_cons & Hu')]; apply Hp; [by left | by destruct Hn | right; by exists u].
    + intros u [->|Hu]%elem_of_cons Hne Hc; [by destruct Hn | by apply Hw].
Qed.

Lemma unfinished_degree t s s' k : runs_to t s s' → ¬ finished s' → degree s t k → 0 < k.
Proof.
  intros Hr Hnf Hk. destruct (degree_inv threads len ready (ready_mono h events) t s s' k Hr Hk)
    as [?|(u & k' & _ & _ & _ & Hk')]; [done | lia].
Qed.

Lemma keys_threads n st : good n st → smap_keys (cs_advancement st) = threads.
Proof.
  intros [-> _]. unfold adv_kept, CsdProofs.threads, smap_keys. rewrite <-list_fmap_compose.
  apply list_fmap_ext. by intros i [t v] _.
Qed.

Lemma is_above_spec fuel : ∀ s n st t cur limit,
  good n st → closed s → bounded s → aligned s n → can_step s t → remaining s ≤ fuel →
  (N.of_nat (remaining s) + cur < 2 ^ 64)%N →
  ∃ b st', is_above_search h fuel t st cur limit = Ok (b, st') ∧ good n st' ∧ (b = true → exceeds s t cur limit).
Proof.
  induction fuel as [|fuel IH]; intros s n st t cur limit Hg Hc Hb Hal Hstep Hf Hov;
    pose proof (threads_nodup h p e events Hcl) as Hnd;
    pose proof (remaining_step threads len ready s t Hnd Hstep) as Hrem; [lia|].
  pose proof Hstep as (Ht & _). cbn [is_above_search]. rewrite (good_at n st t Hg Ht), bind_Ok_l.
  destruct (advance_thread_spec s n st t Hg Hc Hb Hal Hstep)
    as (st1 & d & s' & n' & -> & [Hd Hg1 Hc1 Hb1 Hr Hal1 Hless Hother]). rewrite bind_Ok_l.
  assert (∀ r st2, good n' st2 → (r = true → exceeds s t cur limit) → ∃ b st', (st3 ← revert_thread h t (n t) st2;
    Ok (r, st3)) = Ok (b, st') ∧ good n st' ∧ (b = true → exceeds s t cur limit)) as Hback.
  { intros r st2 Hg2 Hex. destruct (revert_spec n n' st2 t Ht Hg2 Hless) as (st3 & -> & Hg3);
      [apply (Hal t Ht) | done|]. exists r, st3. done. }
  destruct (all_done st1) eqn:Hfin; [rewrite bind_Ok_l; by apply Hback|].
  assert (¬ finished s') as Hnf by (intros Hx%(all_done_spec s' n' st1 Hg1 Hb1 Hal1); congruence).
  assert (csd_add cur d = (cur + d)%N) as -> by (unfold csd_add, u64; apply N.mod_small; lia).
  destruct (N.ltb_spec limit (cur + d)) as [Hlim|Hlim].
  { rewrite bind_Ok_l. apply Hback; [done|]. intros _ k Hk. pose proof (unfinished_degree t s s' k Hr Hnf Hk). lia. }
  pose proof (remaining_runs_lt threads len ready t s s' Hnd Hstep Hr) as Hrl.
  rewrite (keys_threads n' st1 Hg1).
  destruct (limit_loop_2 s' n' t (cur + d)%N limit (λ u st, is_above_search h fuel u st (cur + d)%N limit) Hb1 Hal1)
    with threads false st1 as (found & st2 & Hloop & Hg2 & Hfound); [|done|done|].
  { intros u st2 _ Hcu Hg2. apply (IH s' n'); [done | done | done | done | done | lia | lia]. }
  unfold limit_body_2 in Hloop. rewrite Hloop, bind_Ok_l. destruct found as [possible|].
  - destruct Hfound as [Hp Hw]. rewrite Hp.
    2: { right. destruct (stuck_switch h p e events Han He Hcl t s s' Hr Hnf) as (u & Hne & Hcu).
         exists u. split_and!; [apply Hcu | done | done]. }
    cbn [cassert]. rewrite !bind_Ok_l. apply Hback; [done|]. intros _ k Hk.
    destruct (degree_inv threads len ready (ready_mono h events) t s s' k Hr Hk)
      as [?|(u & k' & Hne & Hcu & Hk' & Hle)]; [done|].
    specialize (Hw u (proj1 Hcu) Hne Hcu k' Hk'). lia.
  - rewrite bind_Ok_l. by apply Hback.
Qed.

(** ** The minimising search *)

Definition search_body_2 (cur : thread_id) (budget step : csd_t)
    (search : thread_id → csd_search_t → csd_t → res (csd_t * csd_search_t))
    : (csd_t + csd_t * bool) * csd_search_t → thread_id → res ((csd_t + csd_t * bool) * csd_search_t) :=
  λ '(found, st) u,
    match found with
    | inl csd => Ok (inl csd, st)
    | inr (csd, possible) =>
        sw ← switchable_2 h st cur u;
        if (sw : bool) then
          '(next, st) ← search u st (csd_sub (csd_sub csd 1%N) step);
          let next_csd := csd_add next step in
          if (next_csd <=? step)%N then
            _ ← cassert ((step <=? csd) && (csd <=? csd_add budget 1%N))%N;
            Ok (inl next_csd, st)
          else if (next_csd <? csd)%N then Ok (inr (next_csd, true), st)
          else Ok (inr (csd, true), st)
        else Ok (inr (csd, possible), st)
    end.

Lemma search_left_2 cur budget step search l csd st :
  for_each (search_body_2 cur budget step search) (inl csd, st) l = Ok (inl csd, st).
Proof. induction l as [|u l IH]; [done | exact IH]. Qed.

(** No execution that goes on with [u] has less than [r] switches. *)
Definition at_most s u (r : N) : Prop := ∀ k, degree s u k → (r ≤ N.of_nat k)%N.

Lemma csd_sub_small a b : (b ≤ a)%N → (a < 2 ^ 64)%N → csd_sub a b = (a - b)%N.
Proof.
  intros Hle Ha. unfold csd_sub, u64. replace (a + (2 ^ 64 - b))%N with (a - b + 1 * 2 ^ 64)%N by lia.
  rewrite N.Div0.mod_add. apply N.mod_small. lia.
Qed.

Lemma csd_add_small a b : (a + b < 2 ^ 64)%N → csd_add a b = (a + b)%N.
Proof. intros Ha. unfold csd_add, u64. by apply N.mod_small. Qed.

Lemma search_loop_2 s n cur budget d search : bounded s → aligned s n →
  (d ≤ 1)%N → (d ≤ budget)%N → (budget < 2 ^ 64 - 1)%N →
  (∀ u st b, u ≠ cur → can_step s u → good n st → (b < 2 ^ 64 - 1)%N →
    ∃ r st', search u st b = Ok (r, st') ∧ good n st' ∧ (r ≤ b + 1)%N ∧ at_most s u r) →
  ∀ l csd possible st, (∀ u, u ∈ l → u ∈ threads) → good n st → (d < csd ≤ budget + 1)%N →
  ∃ found st', for_each (search_body_2 cur budget d search) (inr (csd, possible), st) l = Ok (found, st') ∧
    good n st' ∧
    match found with
    | inl r => r = d
    | inr (csd', possible') =>
        (possible = true ∨ (∃ u, u ∈ l ∧ u ≠ cur ∧ can_step s u) → possible' = true) ∧
        (d < csd' ≤ csd)%N ∧
        ∀ u k, u ∈ l → u ≠ cur → can_step s u → degree s u k → (csd' ≤ N.of_nat k + d)%N
    end.
Proof.
  intros Hb Hal Hd Hdb Hbud Hsearch.
  induction l as [|t l IH]; intros csd possible st Hl Hg Hcsd; cbn [for_each search_body_2].
  { exists (inr (csd, possible)), st. split_and!; [done | done | | lia | lia | by intros u k ?%elem_of_nil].
    setoid_rewrite elem_of_nil. naive_solver. }
  destruct (switchable_2_spec s n st cur t Hg Hb Hal) as (b & -> & Hbt); [apply Hl; left|]. rewrite bind_Ok_l.
  assert (∀ u, u ∈ l → u ∈ threads) as Hl' by (intros u Hu; apply Hl; by right). destruct b.
  - destruct (proj1 Hbt eq_refl) as [Hne Hc].
    rewrite (csd_sub_small csd 1), (csd_sub_small (csd - 1) d) by lia.
    destruct (Hsearch t st (csd - 1 - d)%N Hne Hc Hg) as (r & st1 & -> & Hg1 & Hr & Hmin); [lia|].
    rewrite bind_Ok_l, (csd_add_small r d), (csd_add_small budget 1) by lia. cbv zeta.
    destruct (N.leb_spec (r + d) d) as [Hone|Hmore].
    + rewrite (proj2 (N.leb_le d csd)), (proj2 (N.leb_le csd (budget + 1))) by lia. cbn [andb cassert].
      rewrite !bind_Ok_l, search_left_2. exists (inl (r + d)%N), st1. split_and!; [done | done | lia].
    + assert (∀ csd', (d < csd' ≤ csd)%N → (csd' ≤ r + d)%N → ∃ found st',
        for_each (search_body_2 cur budget d search) (inr (csd', true), st1) l = Ok (found, st') ∧
        good n st' ∧ match found with
        | inl r => r = d
        | inr (csd2, possible') =>
            (possible = true ∨ (∃ u, u ∈ t :: l ∧ u ≠ cur ∧ can_step s u) → possible' = true) ∧
            (d < csd2 ≤ csd)%N ∧
            ∀ u k, u ∈ t :: l → u ≠ cur → can_step s u → degree s u k → (csd2 ≤ N.of_nat k + d)%N
        end) as Hgo.
      { intros csd' Hle Hrd. destruct (IH csd' true st1 Hl' Hg1) as (found & st' & -> & Hg' & Hf); [lia|].
        exists found, st'. split_and!; [done | done|]. destruct found as [|[csd2 possible']]; [done|].
        destruct Hf as (Hp & Hrange & Hw). split_and!; [auto | lia | lia|].
        intros u k [->|Hu]%elem_of_cons Hu1 Hu2 Hk; [|by apply (Hw u)]. specialize (Hmin k Hk). lia. }
      destruct (N.ltb_spec (r + d) csd); rewrite bind_Ok_l; apply Hgo; lia.
  - rewrite bind_Ok_l. assert (¬ (t ≠ cur ∧ can_step s t)) as Hn by (intros Hc; by apply Hbt in Hc).
    destruct (IH csd possible st Hl' Hg Hcsd) as (found & st' & -> & Hg' & Hf). exists found, st'.
    split_and!; [done..|]. destruct found as [|[csd2 possible']]; [done|].
    destruct Hf as (Hp & Hrange & Hw). split_and!; [| lia | lia|].
    + intros [?|(u & [->|Hu]%elem_of_cons & Hu')]; apply Hp; [by left | by destruct Hn | right; by exists u].
    + intros u k [->|Hu]%elem_of_cons Hu1 Hu2; [by destruct Hn | by apply Hw].
Qed.

Lemma compute_spec fuel : ∀ s n st t budget,
  good n st → closed s → bounded s → aligned s n → can_step s t → remaining s ≤ fuel →
  (budget < 2 ^ 64 - 1)%N →
  ∃ r st', compute_search h fuel t st budget = Ok (r, st') ∧ good n st' ∧ (r ≤ budget + 1)%N ∧ at_most s t r.
Proof.
  induction fuel as [|fuel IH]; intros s n st t budget Hg Hc Hb Hal Hstep Hf Hbud;
    pose proof (threads_nodup h p e events Hcl) as Hnd;
    pose proof (remaining_step threads len ready s t Hnd Hstep) as Hrem; [lia|].
  pose proof Hstep as (Ht & _). cbn [compute_search]. rewrite (good_at n st t Hg Ht), bind_Ok_l.
  destruct (advance_thread_spec s n st t Hg Hc Hb Hal Hstep)
    as (st1 & d & s' & n' & -> & [Hd Hg1 Hc1 Hb1 Hr Hal1 Hless Hother]). rewrite bind_Ok_l.
  assert (∀ (r : csd_t) st2, good n' st2 → (r ≤ budget + 1)%N → at_most s t r → ∃ r' st',
    (st3 ← revert_thread h t (n t) st2; Ok (r, st3)) = Ok (r', st') ∧ good n st' ∧
    (r' ≤ budget + 1)%N ∧ at_most s t r') as Hback.
  { intros r st2 Hg2 Hle Hex. destruct (revert_spec n n' st2 t Ht Hg2 Hless) as (st3 & -> & Hg3);
      [apply (Hal t Ht) | done|]. exists r, st3. done. }
  destruct (all_done st1) eqn:Hfin; [rewrite bind_Ok_l; apply Hback; [done | lia | intros k _; lia]|].
  assert (¬ finished s') as Hnf by (intros Hx%(all_done_spec s' n' st1 Hg1 Hb1 Hal1); congruence).
  assert (∀ k, degree s t k → 0 < k) as Hpos by (intros k; by apply (unfinished_degree t s s')).
  rewrite (csd_add_small budget 1) by lia. destruct (N.ltb_spec budget d) as [Hlim|Hlim].
  { rewrite bind_Ok_l. apply Hback; [done | lia|]. intros k Hk. specialize (Hpos k Hk). lia. }
  pose proof (remaining_runs_lt threads len ready t s s' Hnd Hstep Hr) as Hrl.
  rewrite (keys_threads n' st1 Hg1).
  destruct (search_loop_2 s' n' t budget d (λ u st b, compute_search h fuel u st b) Hb1 Hal1)
    with threads (budget + 1)%N false st1 as (found & st2 & Hloop & Hg2 & Hfound); [done | done | done | | done | done | lia |].
  { intros u st2 b _ Hcu Hg2 Hbb. apply (IH s' n'); [done | done | done | done | done | lia | done]. }
  unfold search_body_2 in Hloop. rewrite (csd_add_small budget 1) in Hloop by lia. rewrite Hloop, bind_Ok_l.
  destruct found as [r|[csd possible]].
  - rewrite bind_Ok_l. apply Hback; [done | lia|]. intros k Hk. specialize (Hpos k Hk). lia.
  - destruct Hfound as (Hp & Hrange & Hw). rewrite Hp.
    2: { right. destruct (stuck_switch h p e events Han He Hcl t s s' Hr Hnf) as (u & Hne & Hcu).
         exists u. split_and!; [apply Hcu | done | done]. }
    rewrite (proj2 (N.leb_le d csd)), (proj2 (N.leb_le csd (budget + 1))) by lia. cbn [andb cassert].
    rewrite !bind_Ok_l. apply Hback; [done | lia|]. intros k Hk.
    destruct (degree_inv threads len ready (ready_mono h events) t s s' k Hr Hk)
      as [?|(u & k' & Hne & Hcu & Hk' & Hle)]; [done|].
    specialize (Hw u k' (proj1 Hcu) Hne Hcu Hk'). lia.
Qed.
End search2.
