(* ===== verification/Csd2Props.v ===== *)
(** * What the second analysis of the context-switch degree guarantees

    For disciplined programs the analysis returns, and its result is at most
    the number of context switches of any execution: an event is not given up
    as above the limit when an execution within the limit exists. *)

From stdpp Require Import base tactics list gmap numbers relations sorting.
From S2P Require Import Prelude StdMap ThreadId Event Comb CombEnum CombProofs Cone Alloc Causality.
From S2P Require Import AllocProofs HeapExt Order Walks Demo Unfolding Configuration ColorProofs.
From S2P Require Import Scenario System Csd Schedule CsdProofs CsdProps Csd2 Csd2Base Csd2Proofs.

Section props.
Context {PL : Payload}.
Implicit Types (h : heap) (p : eid).

Section start.
Context (h : heap) (p : eid) (e : event) (events : thread_events) (st : csd_search_t).
Hypothesis Hdi : disciplined h p.
Hypothesis He : h !! p = Some e.
Hypothesis Hcl : collected h p e events.
Hypothesis Hpr : prepared h events st.
Let Han : analysable h p := di_analysable _ _ Hdi.

Abbreviation K := (kept_of st).
Abbreviation all_left := (λ t, length (K t)).
Abbreviation start := (λ _ : thread_id, 0).

Lemma start_keeps t : t ∈ threads events → keeps h events t (K t).
Proof.
  intros Ht. destruct (pr_begun _ _ _ Hpr t Ht) as (R & HR & Hk & _). unfold kept_of. by rewrite HR.
Qed.

Lemma start_good : good h events K all_left st.
Proof.
  split; [by apply (prepared_advancement h p e events Hcl)|].
  intros t Ht. by destruct (pr_begun _ _ _ Hpr t Ht) as (R & _ & _ & Hl).
Qed.

Lemma start_aligned : aligned h events K start all_left.
Proof.
  intros t Ht. split.
  - split; [done|]. intros i x Hx. apply lookup_lt_Some in Hx. split; [lia|].
    intros (u & j & _ & Hlt)%ran_stored. lia.
  - right. pose proof (start_keeps t Ht) as Hk. destruct (keeps_last h p e events Hdi Hcl t (K t) Ht Hk)
      as (f & ef & Hf & Hef & Hkf).
    assert (f ∈ K t) as HfK by (apply last_Some in Hf as [l ->]; apply elem_of_app; right; left).
    destruct (kept_place h events K start_keeps t f Ht HfK) as [j Hj].
    assert (thread_predecessor ef = None) as Htp by (unfold ev_kind, thread_predecessor in *; by destruct (ev_data ef)).
    exists f. split_and!; [|done|].
    + pose proof (vec_chain h p e events Hcl t Ht j f Hj) as Hc. destruct j as [|j]; [done|].
      destruct Hc as (q & _ & ef' & Hef' & Htq). congruence.
    + unfold may_be_blocking. rewrite (proj2 (deref_ok h f ef) Hef), bind_Ok_l. unfold ev_kind in Hkf.
      by destruct (ev_data ef).
Qed.

Lemma start_first : ∃ w adv, cs_advancement st = (initial_thread, w) :: adv.
Proof.
  rewrite (prepared_advancement h p e events Hcl st Hpr). destruct (cl_first _ _ _ _ Hcl) as (v & ev' & ->).
  by eexists _, _.
Qed.
End start.

Lemma single_thread h p e : h !! p = Some e → compute_thread_count e ≤ 1 → compute_thread_count e ≠ 0 →
  new_csd_search h p = Ok (CsdSearch [] []).
Proof.
  intros He Hone Hpos. unfold new_csd_search. rewrite (proj2 (deref_ok h p e) He), bind_Ok_l.
  rewrite (proj2 (Nat.leb_le _ _) Hone). by rewrite (proj2 (Nat.ltb_lt 0 _)) by lia.
Qed.

(** For an event of a disciplined program, [compute_csd_2] terminates
    without a failed assertion and returns at most the number of context
    switches of any execution of the event's causes. *)
Theorem compute_csd_2_bounded h p :
  disciplined h p → (N.of_nat (size h) < 2 ^ 64 - 1)%N →
  ∃ k, compute_csd_2 h p = Ok k ∧
    ∀ l, linearization h p l → (k ≤ N.of_nat (switch_count h l))%N.
Proof.
  intros Hdi Hsize. pose proof (di_analysable _ _ Hdi) as Han. destruct (an_event _ _ Han) as (e & He & Hk).
  destruct (collect_spec h p e Han He) as (events & Hev & Hcl). unfold compute_csd_2.
  destruct (decide (compute_thread_count e ≤ 1)) as [Hone|Hmore].
  { rewrite (single_thread h p e He Hone); [|by eapply thread_count_pos]. exists 0%N. split; [done|]. lia. }
  destruct (new_csd_search_spec h p e events Hdi He Hcl) as (st & -> & Hpr); [lia|]. rewrite bind_Ok_l.
  destruct (start_first h p e events st Hcl Hpr) as (w & adv & Hadv). rewrite Hadv.
  pose proof (remaining_size h p e events Han He Hcl) as Hrem.
  destruct (compute_spec h p e events (kept_of st) Hdi He Hcl (start_keeps h events st Hpr) (size h)
    (λ _, 0) (λ t, length (kept_of st t)) st initial_thread (2 ^ 64 - 2)%N) as (r & st' & -> & _ & _ & Hmin);
    [by eapply start_good | apply closed_start | apply start_bounded | by eapply start_aligned
    | by eapply first_can_step | done | lia |].
  exists r. split; [done|]. intros l Hl. apply Hmin. apply (degree_lin h p e events Han He Hcl). eauto.
Qed.

(** C37: for an event of a disciplined program, [is_above_csd_limit]
    terminates without a failed assertion, and it says yes only if every
    execution of the event's causes has more context switches than the
    limit. *)
Theorem is_above_csd_limit_safe h p limit :
  disciplined h p → (N.of_nat (size h) < 2 ^ 64)%N →
  ∃ b, is_above_csd_limit h p limit = Ok b ∧
    (b = true → ∀ l, linearization h p l → (limit < N.of_nat (switch_count h l))%N).
Proof.
  intros Hdi Hsize. pose proof (di_analysable _ _ Hdi) as Han. destruct (an_event _ _ Han) as (e & He & Hk).
  destruct (collect_spec h p e Han He) as (events & Hev & Hcl). unfold is_above_csd_limit, is_above_csd_limit_2.
  destruct (decide (compute_thread_count e ≤ 1)) as [Hone|Hmore].
  { rewrite (single_thread h p e He Hone); [|by eapply thread_count_pos]. by exists false. }
  destruct (new_csd_search_spec h p e events Hdi He Hcl) as (st & -> & Hpr); [lia|]. rewrite bind_Ok_l.
  destruct (start_first h p e events st Hcl Hpr) as (w & adv & Hadv). rewrite Hadv.
  pose proof (remaining_size h p e events Han He Hcl) as Hrem.
  destruct (is_above_spec h p e events (kept_of st) Hdi He Hcl (start_keeps h events st Hpr) (size h)
    (λ _, 0) (λ t, length (kept_of st t)) st initial_thread 0%N limit) as (b & st' & -> & _ & Hmin);
    [by eapply start_good | apply closed_start | apply start_bounded | by eapply start_aligned
    | by eapply first_can_step | done | lia |].
  exists b. split; [done|]. intros Hb l Hl.
  apply (Hmin Hb (switch_count h l)), (degree_lin h p e events Han He Hcl). eauto.
Qed.
End props.

(** ** The theorems on the example *)

Lemma demo_disciplined : disciplined demo 9.
Proof.
  assert (∀ x, causal_le demo x 9%N → x ∈ demo_conf) as Hsub.
  { intros x Hx. apply (cf_closed _ _ demo_conflict_free x 9%N); [|done].
    apply (bool_decide_unpack _). vm_compute. exact I. }
  split; [apply demo_analysable | |].
  - intros x ex q Hx%Hsub Hex Hk. exfalso. unfold demo_conf in Hx.
    repeat (apply elem_of_cons in Hx as [->|Hx]); [..|by apply elem_of_nil in Hx];
      vm_compute in Hex; injection Hex as <-; apply (bool_decide_pack _) in Hk; vm_compute in Hk; exact Hk.
  - intros x y Hx%Hsub Hy. unfold demo_conf in Hx.
    assert (Forall (λ x, Forall (λ y, event_tid demo y ≠ event_tid demo x) (needs demo x)) demo_conf) as Hall
      by (apply (bool_decide_unpack _); vm_compute; exact I).
    rewrite Forall_forall in Hall. specialize (Hall x Hx). rewrite Forall_forall in Hall. by apply Hall.
Qed.

Lemma compute_csd_2_bounded_witness :
  ∃ k, compute_csd_2 demo 9 = Ok k ∧
    ∀ l, linearization demo 9 l → (k ≤ N.of_nat (switch_count demo l))%N.
Proof. apply (compute_csd_2_bounded demo 9); [apply demo_disciplined | vm_compute; reflexivity]. Defined.

Lemma is_above_csd_limit_safe_witness :
  ∃ b, is_above_csd_limit demo 9 0 = Ok b ∧
    (b = true → ∀ l, linearization demo 9 l → (0 < N.of_nat (switch_count demo l))%N).
Proof.
  apply (is_above_csd_limit_safe demo 9 0); [apply demo_disciplined | vm_compute; reflexivity].
Defined.

Example demo_degree_2 : compute_csd_2 demo 9 = Ok 0%N ∧ is_above_csd_limit_2 demo 9 0 = Ok false.
Proof. split; vm_compute; reflexivity. Qed.

(** ** Where the second analysis of the context-switch degree goes wrong

    Three runs on which [csd2.cpp] does not return the least number of
    preemptive context switches. *)

(** The analyses of the last event of thread [t] of a run. *)
Definition analysed {A} (f : heap → eid → A) (ops : list operation) (t : thread_id) : res A :=
  '(u, c) ← checked_run 1 ops; p ← smap_at t (cf_thread_heads c); Ok (f (uf_heap u) p).

Definition tb : thread_id := [1; 1]%N.
Definition tc : thread_id := [1; 1; 1]%N.
Definition td : thread_id := [1; 1; 2]%N.
Definition te : thread_id := [1; 1; 2; 1]%N.

(** The second thread waits on a condition variable; the first one notifies
    it without holding the lock. *)
Definition notifies_first : list operation :=
  [CreateThread t1 tb; InitThread tb t1; CreateLock tb 1; AcquireLock tb 1; WaitBegin tb 2 1;
   SignalThread t1 2 tb].

(** A thread that notifies a waiting thread and then takes the lock makes
    the search of [csd2.cpp] fail. The notification, which has to wait for the
    other thread, is left out, and so is the creation of the other thread: the
    acquisition after them waits for the other thread, which waits for its
    creation, and no thread can advance. [compute_csd_1] returns two. *)
Theorem csd_2_stuck :
  analysed compute_csd_1 (notifies_first ++ [AcquireLock t1 1]) t1 = Ok (Ok 2%N) ∧
  analysed compute_csd_2 (notifies_first ++ [AcquireLock t1 1]) t1 = Ok (Err AssertFailed) ∧
  analysed (λ h p, is_above_csd_limit h p 2) (notifies_first ++ [AcquireLock t1 1]) t1 = Ok (Err AssertFailed).
Proof. split_and!; vm_compute; reflexivity. Qed.

(** When the first thread ends after the notification, the notification is
    left out as well, although it may block: the result is zero, as if the
    first thread could notify the second one before it waits. *)
Definition ended_run : list operation :=
  notifies_first ++ [ExitThread t1 false; WaitEnd tb 2 1; JoinThread tb t1].

Definition drops (x : eid) (t : thread_id) (h : heap) (p : eid) : res bool :=
  st ← new_csd_search h p; b ← may_be_blocking h x; Ok (b && negb (bool_decide (x ∈ kept_of st t))).

Theorem csd_2_drops_blocking :
  analysed (drops 8 t1) ended_run tb = Ok (Ok true) ∧
  analysed (λ h _, ev_kind <$> h !! 8%N) ended_run tb = Ok (Some signal) ∧
  analysed compute_csd_2 ended_run tb = Ok (Ok 0%N).
Proof. split_and!; vm_compute; reflexivity. Qed.

(** ** Preemptions of an execution *)

Section preemptions.
Context {PL : Payload}.
Implicit Types (h : heap) (x y p : eid) (l before after : list eid) (t : thread_id).

(** The last of the events [before], latest first, that takes or frees the
    lock takes it. *)
Definition lock_taken h before (lid : N) : bool :=
  match List.find (λ x, match h !! x with
    | Some ex => (takes_lock ex || frees_lock ex) && (ev_lid ex =? lid)%N
    | None => false end) before with
  | Some x => match h !! x with Some ex => takes_lock ex | None => false end
  | None => false
  end.

(** Leaving thread [t] is no preemption: it has no event left, or its next
    event waits for a thread to act or for a lock that is taken. *)
Definition gives_way h before after t : bool :=
  match List.find (λ x, tid_eqb (event_tid h x) t) after with
  | None => true
  | Some x =>
      let waits := negb (forallb (λ y, bool_decide (y ∈ before)) (needs h x)) in
      match h !! x with
      | Some ex =>
          match ev_data ex with
          | ThreadJoin _ _ | ThreadInit _ => waits
          | LockAcquire _ _ _ _ => waits && lock_taken h before (ev_lid ex)
          | Wait2 _ np _ _ _ _ => negb (bool_decide (np ∈ before)) || waits && lock_taken h before (ev_lid ex)
          | _ => false
          end
      | None => false
      end
  end.

Fixpoint preemptions h before l : nat :=
  match l with
  | x :: ((y :: _) as l') =>
      (if tid_eqb (event_tid h x) (event_tid h y) || gives_way h (x :: before) l' (event_tid h x)
       then 0 else 1) + preemptions h (x :: before) l'
  | _ => 0
  end.

(** ** Checking an execution *)

Definition is_root h x : bool :=
  match h !! x with Some ex => kind_eqb (ev_kind ex) program_init | None => false end.

(** Every event of [after] comes after its predecessors, and before an event
    it precedes or [p]. *)
Fixpoint in_order h p before after : bool :=
  match after with
  | [] => true
  | x :: after' =>
      match h !! x with
      | Some ex =>
          negb (is_root h x) && negb (bool_decide (x ∈ before)) &&
          forallb (λ q, is_root h q || bool_decide (q ∈ before)) (predecessors ex) &&
          (bool_decide (x = p) || existsb (λ y, match h !! y with
            | Some ey => bool_decide (x ∈ predecessors ey) | None => false end) after') &&
          in_order h p (before ++ [x]) after'
      | None => false
      end
  end.

Lemma is_root_spec h x : is_root h x = true ↔ at_event h x (λ ex, ev_kind ex = program_init).
Proof.
  unfold is_root, at_event. destruct (h !! x) as [ex|]; [|naive_solver]. rewrite kind_eqb_eq. naive_solver.
Qed.

(** What the check says about the position [l1 ++ x :: l2]. *)
Lemma in_order_spec h p l : ∀ before, NoDup before → in_order h p before l = true →
  NoDup (before ++ l) ∧ ∀ l1 x l2, l = l1 ++ x :: l2 → ∃ ex, h !! x = Some ex ∧ ev_kind ex ≠ program_init ∧
    (∀ q, q ∈ predecessors ex → is_root h q = true ∨ q ∈ before ++ l1) ∧
    (x = p ∨ ∃ y, y ∈ l2 ∧ imm h x y).
Proof.
  induction l as [|z l IH]; intros before Hnd Hb; cbn [in_order] in Hb.
  { rewrite app_nil_r. split; [done|]. intros l1 x l2 Heq. by apply app_cons_not_nil in Heq. }
  destruct (h !! z) as [ez|] eqn:Hez; [|done]. rewrite !andb_true_iff in Hb.
  destruct Hb as ((((Hr & Hnew) & Hp) & Hs) & Hb). apply negb_true_iff in Hr, Hnew.
  apply bool_decide_eq_false in Hnew.
  destruct (IH (before ++ [z])) as [Hnd' Hin]; [apply NoDup_app; split_and!; [done | | apply NoDup_singleton] | done |].
  { intros x Hx ->%list_elem_of_singleton. done. }
  rewrite <-app_assoc in Hnd'. split; [done|]. intros l1 x l2 Heq. destruct l1 as [|w l1].
  - injection Heq as <- <-. exists ez. split_and!; [done | | |].
    + intros Hk. unfold is_root in Hr. rewrite Hez, Hk in Hr. done.
    + intros q Hq. rewrite forallb_elem_of in Hp. specialize (Hp q Hq). rewrite app_nil_r.
      apply orb_true_iff in Hp as [?|?%bool_decide_eq_true]; auto.
    + apply orb_true_iff in Hs as [?%bool_decide_eq_true|Hs]; [by left | right].
      apply existsb_exists in Hs as (y & Hy%list_elem_of_In & Hxy). exists y. split; [done|].
      destruct (h !! y) as [ey|] eqn:Hey; [|done]. exists ey. split; [done|]. by apply bool_decide_eq_true in Hxy.
  - injection Heq as <- ->. destruct (Hin l1 x l2 eq_refl) as (ex & Hex & Hk & Hpred & Hsucc).
    rewrite <-app_assoc in Hpred. exists ex. by split_and!.
Qed.

Lemma in_order_linearization h p l :
  in_order h p [] l = true → p ∈ l → linearization h p l.
Proof.
  intros Hb Hpl. destruct (in_order_spec h p l [] (NoDup_nil_2) Hb) as [Hnd Hin]. simpl in *. split.
  - done.
  - intros x. split.
    + assert (∀ l2 l1, l = l1 ++ l2 → ∀ y, y ∈ l2 → causal_le h y p) as Hle.
      { induction l2 as [|z l2 IH]; intros l1 Heq y Hy; [by apply elem_of_nil in Hy|].
        assert (∀ w, w ∈ l2 → causal_le h w p) as Hrest.
        { apply (IH (l1 ++ [z])). by rewrite <-app_assoc. }
        apply elem_of_cons in Hy as [->|Hy]; [|by apply Hrest].
        destruct (Hin l1 z l2 Heq) as (ez & _ & _ & _ & [->|(w & Hw & Hi)]); [reflexivity|].
        etrans; [by apply rtc_once | by apply Hrest]. }
      intros Hx. split; [by apply (Hle l [])|]. apply list_elem_of_split in Hx as (l1 & l2 & Heq).
      destruct (Hin l1 x l2 Heq) as (ex & Hex & Hk & _). by exists ex.
    + intros [Hx Hk]. revert Hk. unfold causal_le in Hx. induction Hx as [|x z p' Hxz _ IH]; [done|].
      intros (ex & Hex & Hk). destruct Hxz as (ez & Hez & Hq).
      assert (z ∈ l) as Hz.
      { apply IH; [done..|]. exists ez. split; [done|]. intros Hkz. unfold predecessors, ev_kind in *.
        by destruct (ev_data ez); try apply elem_of_nil in Hq. }
      apply list_elem_of_split in Hz as (l1 & l2 & Heq).
      destruct (Hin l1 z l2 Heq) as (ez' & Hez' & _ & Hpred & _). assert (ez' = ez) as -> by congruence.
      destruct (Hpred x Hq) as [(ex' & Hex' & Hk')%is_root_spec|Hl1]; [congruence|].
      rewrite Heq. apply elem_of_app. by left.
  - intros l1 x l2 y Heq [(ey & Hey & Hk) Hy]. destruct (Hin l1 x l2 Heq) as (ex & Hex & _ & Hpred & _).
    assert (y ∈ predecessors ex) as Hyp.
    { destruct Hy as [(ex' & Hex' & Ht)|(ex' & Hex' & Hy & _)]; assert (ex' = ex) as -> by congruence;
        [by apply thread_predecessor_pred | done]. }
    destruct (Hpred y Hyp) as [(ey' & Hey' & Hk')%is_root_spec|?]; [congruence | done].
Qed.
End preemptions.

(** ** A lock taken by the first event after a switch *)

(** The lock is handed over from the first thread to the second and the
    fourth one, while each waits for a thread it has to let run. *)
Definition handed_over : list operation :=
  [CreateLock t1 1; AcquireLock t1 1; CreateThread t1 tb; InitThread tb t1; CreateThread tb tc;
   InitThread tc tb; ExitThread tc false; JoinThread t1 tc; ReleaseLock t1 1 false;
   AcquireLock tb 1; CreateThread tb td; InitThread td tb; CreateThread td te; InitThread te td;
   ExitThread te false; JoinThread tb te; ReleaseLock tb 1 false; AcquireLock td 1].

Definition handed_heap : heap :=
  match checked_run 1 handed_over with Ok (u, _) => uf_heap u | Err _ => ∅ end.

(** [advance_thread] does not record that the first event it runs takes or
    frees a lock, so the second thread's lock counts as free: the result is
    one, although the execution in the order of the run has no preemption. *)
Theorem csd_2_overcounts :
  compute_csd_2 handed_heap 20 = Ok 1%N ∧ is_above_csd_limit handed_heap 20 0 = Ok true ∧
  ∃ l, linearization handed_heap 20 l ∧ preemptions handed_heap [] l = 0.
Proof.
  split_and!; [vm_compute; reflexivity..|]. exists (N.of_nat <$> seq 2 19). split.
  - apply in_order_linearization; [vm_compute; reflexivity|].
    apply (bool_decide_eq_true_1 _). vm_compute. reflexivity.
  - vm_compute. reflexivity.
Qed.
