(* ===== verification/Erv.v ===== *)
(** * The order on local configurations ([lib/Por/erv.cpp])

    Events are compared by the size of their local configuration, then by its
    Parikh vector, the sorted list of its events, and then by its Foata normal
    form, the sorted lists of its minimal events, of the minimal events of
    the rest, and so on. The comparison functions return a negative number,
    zero or a positive number. *)

From Stdlib Require Import ZArith.
From stdpp Require Import base tactics list gmap numbers.
From S2P Require Import Prelude StdMap ThreadId Event Comb Cone Alloc Unfolding.

Section erv.
Context {PL : Payload}.
Implicit Types (h : heap) (e : event).

Fixpoint lex_compare {A B} (comp : A → B → res Z) (l1 : list A) (l2 : list B) : res Z :=
  match l1, l2 with
  | x :: l1', y :: l2' =>
      r ← comp x y;
      if bool_decide (r = 0%Z) then lex_compare comp l1' l2' else Ok r
  | [], [] => Ok 0%Z
  | [], _ :: _ => Ok (-1)%Z
  | _ :: _, [] => Ok 1%Z
  end.

Definition comp_event_total_order h (a b : eid) : res Z :=
  if bool_decide (a = b) then Ok 0%Z
  else
    ea ← deref h a; eb ← deref h b;
    if negb (kind_eqb (ev_kind ea) (ev_kind eb)) then
      Ok (if Nat.ltb (kind_index (ev_kind ea)) (kind_index (ev_kind eb)) then -1 else 1)%Z
    else if negb (ev_lid ea =? ev_lid eb)%N then
      Ok (if (ev_lid ea <? ev_lid eb)%N then -1 else 1)%Z
    else if negb (ev_cid ea =? ev_cid eb)%N then
      Ok (if (ev_cid ea <? ev_cid eb)%N then -1 else 1)%Z
    else if negb (tid_eqb (ev_tid ea) (ev_tid eb)) then
      Ok (if tid_lt (ev_tid ea) (ev_tid eb) then -1 else 1)%Z
    else
      Ok (if (md_id (ev_metadata ea) <? md_id (ev_metadata eb))%N then -1 else 1)%Z.

(** [parikh_vector] over a range of events. *)
Definition parikh_vector h (l : list eid) : res (list eid) :=
  std_sort (λ a b, r ← comp_event_total_order h a b; Ok (r <? 0)%Z) l.

Definition parikh_compare h (lhs rhs : list eid) : res Z :=
  lex_compare (comp_event_total_order h) lhs rhs.

(** [while(!C.empty())] of the constructor of [foata_normal_form]. *)
Fixpoint foata_loop h (fuel : nat) (C : comb) : res (list (list eid)) :=
  if comb_empty C then Ok []
  else
    match fuel with
    | O => Err OutOfFuel
    | S fuel' =>
        min ← comb_min h C;
        level ← parikh_vector h min;
        C' ← comb_remove_range h level C;
        rest ← foata_loop h fuel' C';
        Ok (level :: rest)
    end.

Definition foata_normal_form h (p : eid) : res (list (list eid)) :=
  l ← local_configuration h p true;
  C ← comb_of_range h l;
  C' ← comb_sort h C;
  foata_loop h (length l) C'.

(** [operator<] of [foata_normal_form]: the common prefix decides. *)
Fixpoint foata_less h (lhs rhs : list (list eid)) : res bool :=
  match lhs, rhs with
  | C1 :: lhs', C2 :: rhs' =>
      r ← parikh_compare h C1 C2;
      if bool_decide (r = 0%Z) then foata_less h lhs' rhs' else Ok (r <? 0)%Z
  | _, _ => Ok false
  end.

(** [event::local_configuration_size], which caches its result. *)
Definition set_lc_size (n : nat) e : event :=
  Event (ev_tid e) (ev_data e) (ev_cone e) (ev_depth e) (ev_color e) (ev_imm_cfl_color e)
    (ev_successors e) (ev_immediate_conflicts e) (ev_metadata e) (ev_is_cutoff e) n.

Definition local_configuration_size h (p : eid) : res (heap * nat) :=
  e ← deref h p;
  if Nat.eqb (ev_lc_size e) 0 then
    l ← local_configuration h p true;
    Ok (<[p := set_lc_size (length l) e]> h, length l)
  else Ok (h, ev_lc_size e).

Definition compare_adequate_total_order h (a b : eid) : res (heap * bool) :=
  '(h, asize) ← local_configuration_size h a;
  '(h, bsize) ← local_configuration_size h b;
  if Nat.eqb asize bsize then
    la ← local_configuration h a true;
    apv ← parikh_vector h la;
    lb ← local_configuration h b true;
    bpv ← parikh_vector h lb;
    r ← parikh_compare h apv bpv;
    if bool_decide (r = 0%Z) then
      afnf ← foata_normal_form h a;
      bfnf ← foata_normal_form h b;
      less ← foata_less h afnf bfnf;
      Ok (h, less)
    else Ok (h, (r <? 0)%Z)
  else Ok (h, Nat.ltb asize bsize).
End erv.
