(* ===== verification/ErvProofs.v ===== *)
(** * Proofs about the order on local configurations

    [comp_event_total_order] orders stored events by a key; the Parikh vector
    of an event is the sorted list of its local configuration, and the levels
    of its Foata normal form are the events of equal depth. *)

From Stdlib Require Import ZArith.
From stdpp Require Import base tactics list numbers sorting gmap relations.
From S2P Require Import Prelude StdMap ThreadId Event Comb CombEnum CombProofs Cone Alloc Causality.
From S2P Require Import AllocProofs HeapExt Order Walks Unfolding Erv.

(** ** Three-way comparisons

    Comparison functions that return a negative number, zero or a positive
    number, and their lexicographic extension to lists. *)

(** On [D], [cmp] decides equality, is antisymmetric and orders. *)
Record three_way {A : Type} (D : A → Prop) (cmp : A → A → Z) : Prop := {
  tw_eq x y : D x → D y → cmp x y = 0%Z ↔ x = y;
  tw_opp x y : D x → D y → (cmp y x < 0)%Z ↔ (0 < cmp x y)%Z;
  tw_trans x y z : D x → D y → D z → (cmp x y < 0)%Z → (cmp y z < 0)%Z → (cmp x z < 0)%Z;
}.

Section lexicographic.
Context {A : Type}.
Implicit Types (D : A → Prop) (cmp : A → A → Z) (l : list A).

Fixpoint lex cmp l1 l2 : Z :=
  match l1, l2 with
  | x :: l1', y :: l2' => if bool_decide (cmp x y = 0%Z) then lex cmp l1' l2' else cmp x y
  | [], [] => 0%Z
  | [], _ :: _ => (-1)%Z
  | _ :: _, [] => 1%Z
  end.

Lemma three_way_refl D cmp x : three_way D cmp → D x → cmp x x = 0%Z.
Proof. intros Ht Hx. by apply (tw_eq _ _ Ht). Qed.

Lemma lex_three_way D cmp : three_way D cmp → three_way (Forall D) (lex cmp).
Proof.
  intros Ht. split.
  - induction x as [|x l1 IH]; intros [|y l2] H1 H2; simpl; try done.
    apply Forall_cons in H1 as [Hx H1], H2 as [Hy H2]. case_bool_decide as Hc.
    + apply (tw_eq _ _ Ht x y Hx Hy) in Hc as ->. rewrite (IH l2 H1 H2). naive_solver.
    + split; [lia|]. intros [= -> ->]. destruct Hc. by apply (tw_eq _ _ Ht).
  - induction x as [|x l1 IH]; intros [|y l2] H1 H2; simpl; try lia.
    apply Forall_cons in H1 as [Hx H1], H2 as [Hy H2].
    assert (cmp y x = 0%Z ↔ cmp x y = 0%Z) as Hz.
    { rewrite (tw_eq _ _ Ht y x), (tw_eq _ _ Ht x y) by done. naive_solver. }
    case_bool_decide as Hc; case_bool_decide as Hc'; [by apply IH | tauto | tauto|].
    by apply (tw_opp _ _ Ht).
  - induction x as [|x l1 IH]; intros [|y l2] [|z l3] H1 H2 H3; simpl; try lia.
    apply Forall_cons in H1 as [Hx H1], H2 as [Hy H2], H3 as [Hz H3].
    repeat case_bool_decide; intros Hxy Hyz;
      repeat match goal with
      | H : cmp _ _ = 0%Z |- _ => apply (tw_eq _ _ Ht) in H; [subst | assumption..]
      end; try done; try by (rewrite (three_way_refl D cmp) in * by done; lia).
    + by apply (IH l2 l3).
    + pose proof (tw_opp _ _ Ht y z Hy Hz). lia.
    + by apply (tw_trans _ _ Ht x y z).
Qed.

(** Sorted lists with the same elements are equal. *)
Lemma sorted_unique D cmp l1 l2 :
  three_way D cmp → Forall D l1 → Forall D l2 →
  StronglySorted (λ x y, (cmp x y < 0)%Z) l1 → StronglySorted (λ x y, (cmp x y < 0)%Z) l2 →
  (∀ x, x ∈ l1 ↔ x ∈ l2) → l1 = l2.
Proof.
  intros Ht. revert l2. induction l1 as [|x l1 IH]; intros [|y l2] H1 H2 S1 S2 Hin.
  - done.
  - assert (y ∈ []) as Hy by (apply Hin; left). by apply elem_of_nil in Hy.
  - assert (x ∈ []) as Hx by (apply Hin; left). by apply elem_of_nil in Hx.
  - apply Forall_cons in H1 as [Hx H1], H2 as [Hy H2].
    apply StronglySorted_inv in S1 as [S1 F1], S2 as [S2 F2]. rewrite Forall_forall in F1, F2.
    assert (∀ z, D z → ¬ (cmp z z < 0)%Z) as Hirr.
    { intros z Hz. rewrite (three_way_refl D cmp z Ht Hz). lia. }
    assert (x = y) as ->.
    { assert (x ∈ y :: l2) as Hxy by (apply Hin; left). assert (y ∈ x :: l1) as Hyx by (apply Hin; left).
      apply elem_of_cons in Hxy as [?|Hxy]; [done|]. apply elem_of_cons in Hyx as [?|Hyx]; [done|].
      apply F2 in Hxy. apply F1 in Hyx. destruct (Hirr x Hx).
      by apply (tw_trans _ _ Ht x y x). }
    f_equal. apply IH; [done..|]. intros z. split; intros Hz.
    + assert (z ∈ y :: l2) as Hz' by (apply Hin; by right). apply elem_of_cons in Hz' as [->|?]; [|done].
      destruct (Hirr y Hy). by apply F1.
    + assert (z ∈ y :: l1) as Hz' by (apply Hin; by right). apply elem_of_cons in Hz' as [->|?]; [|done].
      destruct (Hirr y Hy). by apply F2.
Qed.
End lexicographic.

(** ** Events by their keys *)

Section keys.
Context {PL : Payload}.
Implicit Types (h : heap) (e : event) (a b p x : eid).

Definition order_key e : event_kind * (N * (N * (thread_id * N))) :=
  (ev_kind e, (ev_lid e, (ev_cid e, (ev_tid e, md_id (ev_metadata e))))).

Definition stored h p : Prop := is_Some (h !! p).

(** No two stored events have the same id. *)
Definition distinct_ids h : Prop := ∀ a b ea eb, h !! a = Some ea → h !! b = Some eb →
  md_id (ev_metadata ea) = md_id (ev_metadata eb) → a = b.

(** The result of [comp_event_total_order] on stored events. *)
Definition event_cmp h a b : Z :=
  if bool_decide (a = b) then 0%Z
  else
    match h !! a, h !! b with
    | Some ea, Some eb => if std_less (order_key ea) (order_key eb) then (-1)%Z else 1%Z
    | _, _ => 0%Z
    end.

Lemma pair_less_eq {A B} `{StdLessLaws A, StdLess B} (a : A) (b b' : B) :
  std_less (a, b) (a, b') = std_less b b'.
Proof. unfold std_less at 1, pair_less. simpl. by rewrite less_irrefl. Qed.

Lemma pair_less_ne {A B} `{StdLessLaws A, StdLess B} (a a' : A) (b b' : B) :
  a ≠ a' → std_less (a, b) (a', b') = std_less a a'.
Proof.
  intros Hne. unfold std_less at 1, pair_less. simpl.
  destruct (less_cases a a') as [(? & _)|[(-> & _)|(-> & E & _)]]; [done | done | by rewrite E].
Qed.

Lemma comp_spec h a b :
  stored h a → stored h b → comp_event_total_order h a b = Ok (event_cmp h a b).
Proof.
  intros [ea Ha] [eb Hb]. unfold comp_event_total_order, event_cmp, deref.
  case_bool_decide; [done|]. rewrite Ha, Hb. cbn [nonnull from_option mbind res_bind option_map].
  simpl. unfold order_key.
  destruct (kind_eqb (ev_kind ea) (ev_kind eb)) eqn:Ek; simpl.
  2:{ rewrite pair_less_ne; [done|]. intros E. by rewrite E, (proj2 (kind_eqb_eq _ _)) in Ek. }
  apply kind_eqb_eq in Ek. rewrite Ek, pair_less_eq.
  destruct (N.eqb_spec (ev_lid ea) (ev_lid eb)) as [El|El]; simpl; [|by rewrite pair_less_ne].
  rewrite El, pair_less_eq.
  destruct (N.eqb_spec (ev_cid ea) (ev_cid eb)) as [Ec|Ec]; simpl; [|by rewrite pair_less_ne].
  rewrite Ec, pair_less_eq.
  destruct (tid_eqb (ev_tid ea) (ev_tid eb)) eqn:Et; simpl.
  2:{ rewrite pair_less_ne; [done|]. intros E. by rewrite E, (proj2 (tid_eqb_spec _ _)) in Et. }
  apply tid_eqb_spec in Et. by rewrite Et, pair_less_eq.
Qed.

Lemma event_three_way h : distinct_ids h → three_way (stored h) (event_cmp h).
Proof.
  intros Hid.
  assert (∀ a b ea eb, h !! a = Some ea → h !! b = Some eb → a ≠ b →
    order_key ea ≠ order_key eb) as Hkey.
  { intros a b ea eb Ha Hb Hne [=]. by apply Hne, (Hid a b ea eb). }
  split.
  - intros a b [ea Ha] [eb Hb]. unfold event_cmp. rewrite Ha, Hb.
    case_bool_decide; [done|]. destruct (std_less _ _); done.
  - intros a b [ea Ha] [eb Hb]. unfold event_cmp. rewrite Ha, Hb.
    destruct (decide (a = b)) as [->|Hne]; [by rewrite !bool_decide_true|].
    rewrite !bool_decide_false by done. specialize (Hkey a b ea eb Ha Hb Hne).
    destruct (less_cases (order_key ea) (order_key eb)) as [(? & _)|[(-> & -> & _)|(-> & -> & _)]];
      [done | lia | lia].
  - intros a b c [ea Ha] [eb Hb] [ec Hc]. unfold event_cmp. rewrite Ha, Hb, Hc.
    repeat case_bool_decide; subst; try lia.
    + destruct (std_less (order_key ea) (order_key eb)) eqn:E; [|lia]. simplify_eq.
      rewrite (less_asym _ _ E). lia.
    + destruct (std_less (order_key ea) (order_key eb)) eqn:E1; [|lia].
      destruct (std_less (order_key eb) (order_key ec)) eqn:E2; [|lia].
      by rewrite (less_trans _ _ _ E1 E2).
Qed.

Lemma lex_compare_spec {A} (comp : A → A → res Z) (cmp : A → A → Z) (D : A → Prop) l1 l2 :
  (∀ x y : A, D x → D y → comp x y = Ok (cmp x y)) → Forall D l1 → Forall D l2 →
  lex_compare comp l1 l2 = Ok (lex cmp l1 l2).
Proof.
  intros Hc H1. revert l2. induction H1 as [|x l1 Hx H1 IH]; intros l2 H2; destruct H2; try done.
  cbn [lex_compare lex]. rewrite Hc, bind_Ok_l by done. case_bool_decide; auto.
Qed.

(** A Parikh vector is the strictly increasing list of its events. *)
Lemma parikh_vector_spec h l :
  distinct_ids h → Forall (stored h) l → NoDup l →
  ∃ v, parikh_vector h l = Ok v ∧ v ≡ₚ l ∧ StronglySorted (λ x y, (event_cmp h x y < 0)%Z) v.
Proof.
  intros Hid Hl Hnd. pose proof (event_three_way h Hid) as Ht. rewrite Forall_forall in Hl.
  destruct (std_sort_sorted (λ a b, r ← comp_event_total_order h a b; Ok (r <? 0)%Z)
    (λ a b, (event_cmp h a b <? 0)%Z) l) as (v & Hv & Hp & Hs).
  - intros x y Hx Hy. by rewrite comp_spec, bind_Ok_l by auto.
  - intros x y z Hx Hy Hz. rewrite !Z.ltb_ge. intros H1 H2.
    destruct (decide (event_cmp h z x < 0)%Z) as [Hzx|]; [|lia].
    destruct (decide (event_cmp h y x = 0)%Z) as [E|].
    { apply (tw_eq _ _ Ht) in E as ->; auto. }
    assert (event_cmp h x y < 0)%Z by (apply (tw_opp _ _ Ht); auto; lia).
    assert (event_cmp h z y < 0)%Z by (apply (tw_trans _ _ Ht z x y); auto). lia.
  - intros x y Hx Hy. rewrite Z.ltb_lt, Z.ltb_ge. intros Hxy.
    pose proof (proj1 (tw_opp _ _ Ht y x (Hl _ Hy) (Hl _ Hx)) Hxy). lia.
  - exists v. split_and!; [done | done |].
    assert (∀ x, x ∈ v → stored h x) as Hv' by (intros x Hx; apply Hl; by rewrite <-Hp).
    assert (NoDup v) as Hndv by (by rewrite Hp). clear -Hs Hv' Hndv Ht.
    induction Hs as [|x v Hs IH Hf]; constructor.
    + apply NoDup_cons in Hndv as [_ ?]. apply IH; [intros; apply Hv'; by right | done].
    + apply NoDup_cons in Hndv as [Hx _]. rewrite Forall_forall in Hf |- *. intros y Hy.
      specialize (Hf y Hy). apply Z.ltb_ge in Hf. assert (x ≠ y) as Hne by congruence.
      assert (stored h x) as Hsx by (apply Hv'; by left).
      assert (stored h y) as Hsy by (apply Hv'; by right).
      apply (tw_opp _ _ Ht y x Hsy Hsx). pose proof (tw_eq _ _ Ht y x Hsy Hsx) as He.
      assert (event_cmp h y x ≠ 0%Z) by (rewrite He; congruence). lia.
Qed.
End keys.

(** ** Removal from sorted combs *)

Section removal.
Context {PL : Payload} (h : heap).
Implicit Types (c : comb) (x e : eid).

Lemma comb_is_sorted_elem c :
  comb_is_sorted c = true ↔ ∀ tid t, (tid, t) ∈ c → t_sorted t = true.
Proof.
  unfold comb_is_sorted, smap_vals. rewrite forallb_forall. split.
  - intros Hs tid t Hin. apply Hs, list_elem_of_In, list_elem_of_fmap. by exists (tid, t).
  - intros Hs t ([tid t'] & -> & Hin)%list_elem_of_In%list_elem_of_fmap. by apply (Hs tid).
Qed.

Lemma comb_remove_from_spec c tid t e :
  comb_ok h c → comb_is_sorted c = true → smap_find tid c = Some t → on_thread h tid e →
  ∃ c', comb_remove_from tid e c = Ok c' ∧ comb_ok h c' ∧ comb_is_sorted c' = true ∧
    ∀ x, x ∈ comb_events c' ↔ x ≠ e ∧ x ∈ comb_events c.
Proof.
  intros Hc Hs Hf Hon. pose proof Hc as [Hsm Hok]. rewrite comb_is_sorted_elem in Hs.
  assert ((tid, t) ∈ c) as Hin by (by apply smap_elem_find).
  destruct (tooth_remove_spec h tid t e) as (t' & Ht' & Hok' & Hs' & Hx);
    [by apply Hok | by apply (Hs tid) |].
  unfold comb_remove_from, comb_tooth. rewrite Hf. cbn [default from_option id]. rewrite Ht', bind_Ok_l.
  set (c' := match t_events t' with [] => smap_erase tid c | _ => smap_set tid t' c end).
  assert (smap_sorted c') as Hsm'.
  { unfold c'. destruct (t_events t'); [by apply smap_erase_sorted | by apply smap_set_sorted]. }
  assert (∀ k u, (k, u) ∈ c' ↔ (k = tid ∧ u = t' ∧ t_events t' ≠ []) ∨ (k ≠ tid ∧ (k, u) ∈ c))
    as Hel.
  { intros k u. rewrite !smap_elem_find by done. unfold c'. destruct (decide (k = tid)) as [->|Hne].
    - destruct (t_events t'); [rewrite smap_find_erase_eq | rewrite smap_find_set_eq]; naive_solver.
    - destruct (t_events t'); [rewrite smap_find_erase_ne | rewrite smap_find_set_ne]; naive_solver. }
  exists c'. split; [done|]. split; [|split].
  - split; [done|]. intros k u [(-> & -> & ?)|[_ ?]]%Hel; [done | by apply Hok].
  - rewrite comb_is_sorted_elem. intros k u [(-> & -> & ?)|[_ ?]]%Hel; [done | by eapply Hs].
  - intros x. rewrite !comb_events_elem. split.
    + intros (k & u & [(-> & -> & _)|[Hne Hu]]%Hel & Hxu).
      { apply Hx in Hxu as [? ?]. eauto. }
      split; [|by eauto]. intros ->. destruct Hon as (ee & He & Ht).
      destruct (tok_thread h _ _ (proj1 (Hok _ _ Hu)) _ Hxu) as (ee' & He' & Ht2). congruence.
    + intros (Hne & k & u & Hu & Hxu). destruct (decide (k = tid)) as [->|Hk].
      * assert (u = t) as -> by (apply smap_elem_find in Hu; [congruence | done]).
        exists tid, t'. assert (x ∈ t_events t') as Hx' by (by apply Hx). split; [|done].
        apply Hel. left. split_and!; [done..|]. intros E. rewrite E in Hx'. by apply elem_of_nil in Hx'.
      * exists k, u. split; [|done]. apply Hel. by right.
Qed.

Lemma comb_remove_range_spec l c :
  Forall (stored h) l → comb_ok h c → comb_is_sorted c = true →
  ∃ c', comb_remove_range h l c = Ok c' ∧ comb_ok h c' ∧ comb_is_sorted c' = true ∧
    ∀ x, x ∈ comb_events c' ↔ x ∉ l ∧ x ∈ comb_events c.
Proof.
  intros Hl. revert c. unfold comb_remove_range.
  induction Hl as [|e l [ee He] Hl IH]; intros c Hc Hs; cbn [for_each].
  { exists c. split_and!; [done..|]. intros x. rewrite elem_of_nil. naive_solver. }
  rewrite (proj2 (deref_ok h e ee) He), bind_Ok_l.
  assert (on_thread h (ev_tid ee) e) as Hon by (by exists ee).
  destruct (smap_find (ev_tid ee) c) as [t|] eqn:Hf.
  - destruct (comb_remove_from_spec c (ev_tid ee) t e) as (c1 & Hc1 & Hok1 & Hs1 & Hx1); [done..|].
    assert (smap_has (ev_tid ee) c = true) as -> by (unfold smap_has; by rewrite Hf).
    rewrite Hc1, bind_Ok_l. destruct (IH c1) as (c' & Hc' & ? & ? & Hx'); [done..|].
    exists c'. split_and!; [done..|]. intros x. rewrite Hx', Hx1, not_elem_of_cons. tauto.
  - assert (smap_has (ev_tid ee) c = false) as -> by (unfold smap_has; by rewrite Hf).
    rewrite bind_Ok_l. destruct (IH c) as (c' & Hc' & ? & ? & Hx'); [done..|].
    exists c'. split_and!; [done..|]. intros x. rewrite Hx', not_elem_of_cons.
    enough (x ∈ comb_events c → x ≠ e) by tauto. intros Hxc ->.
    assert (e ∈ t_events (comb_tooth (ev_tid ee) c)) as Hin by (by apply (comb_tooth_elem h)).
    unfold comb_tooth in Hin. rewrite Hf in Hin. by apply elem_of_nil in Hin.
Qed.
End removal.

(** ** Local configurations *)

Section local.
Context {PL : Payload}.
Implicit Types (h : heap) (e : event) (a b p x : eid).

(** The events below [p], listed once each. *)
Definition lists_past h p (l : list eid) : Prop := NoDup l ∧ ∀ x, x ∈ l ↔ causal_le h x p.

Lemma lists_past_length h p l l' : lists_past h p l → lists_past h p l' → length l = length l'.
Proof.
  intros [Hn Hx] [Hn' Hx']. apply Permutation_length, NoDup_Permutation; [done..|].
  intros x. by rewrite Hx, Hx'.
Qed.

(** The causes of every stored event are free of conflicts, ids are distinct,
    and the cached sizes are right. [deduplicate] can reset an id
    (unfolding.h:98), so the distinct ids are an assumption about the
    unfolding and not an invariant. *)
Record comparable h : Prop := {
  cp_wf : wf_heap h;
  cp_free p : stored h p → conflict_free h (λ x, causal_le h x p);
  cp_creators p : stored h p → creators_first h (λ x, causal_le h x p);
  cp_ids : distinct_ids h;
  cp_sizes p e l : h !! p = Some e → ev_lc_size e ≠ 0 → lists_past h p l → ev_lc_size e = length l;
}.

Context (h : heap).
Hypothesis Hcp : comparable h.

Lemma past_stored p x : stored h p → causal_le h x p → stored h x.
Proof. intros Hp Hx. by apply (cf_in _ _ (cp_free _ Hcp p Hp)). Qed.

Lemma past_refl p : causal_le h p p.
Proof. apply causal_le_alt. by left. Qed.
#[local] Hint Resolve past_refl : core.

Lemma local_configuration_spec p :
  stored h p → ∃ l, local_configuration h p true = Ok l ∧ lists_past h p l.
Proof.
  intros Hp. destruct Hp as [e He]. assert (stored h p) as Hp by (by exists e).
  destruct (event_range_spec h _ (cp_wf _ Hcp) (cp_free _ Hcp p Hp) p e true true
    (cp_creators _ Hcp p Hp) (past_refl p) He) as (l & Hl & Hnd & Hx).
  exists l. split; [done|]. split; [done|]. intros x. rewrite Hx, causal_le_alt. naive_solver.
Qed.

(** The Parikh vector of the local configuration of an event. *)
Definition past_vector p : list eid :=
  match l ← local_configuration h p true; parikh_vector h l with Ok v => v | Err _ => [] end.

Definition increasing (l : list eid) : Prop := StronglySorted (λ x y, (event_cmp h x y < 0)%Z) l.

Lemma past_vector_spec p : stored h p →
  ∃ l, local_configuration h p true = Ok l ∧ parikh_vector h l = Ok (past_vector p) ∧
    length l = length (past_vector p) ∧
    Forall (stored h) (past_vector p) ∧ lists_past h p (past_vector p) ∧ increasing (past_vector p).
Proof.
  intros Hp. destruct (local_configuration_spec p Hp) as (l & Hl & Hnd & Hx).
  assert (Forall (stored h) l) as Hst.
  { apply Forall_forall. intros x Hxl. by eapply past_stored, Hx. }
  destruct (parikh_vector_spec h l (cp_ids _ Hcp) Hst Hnd) as (v & Hv & Hp' & Hs).
  assert (past_vector p = v) as -> by (unfold past_vector; by rewrite Hl, bind_Ok_l, Hv).
  exists l. split_and!; [done | done | by rewrite Hp' | by rewrite Hp' | | done].
  split; [by rewrite Hp' | intros x; by rewrite Hp'].
Qed.

Lemma past_vector_unique p l : stored h p → lists_past h p l → increasing l → l = past_vector p.
Proof.
  intros Hp [Hnd Hx] Hs. destruct (past_vector_spec p Hp) as (_ & _ & _ & _ & Hst & [_ Hx'] & Hs').
  eapply (sorted_unique (stored h) (event_cmp h)); [by apply event_three_way, cp_ids | | done..|].
  - apply Forall_forall. intros x Hxl. by eapply past_stored, Hx.
  - intros x. by rewrite Hx, Hx'.
Qed.

(** *** The Foata normal form *)

Lemma tight_pred p : stored h p → dep h p ≠ 0 → ∃ q, causal_lt h q p ∧ S (dep h q) = dep h p.
Proof.
  intros [e He] Hd. pose proof (dep_lookup h p e He) as Hde.
  destruct (wf_depth_tight _ _ (cp_wf _ Hcp p e He)) as [[_ ?]|(q & Hq & Hdq)]; [lia|].
  exists q. split; [|lia]. apply tc_once. by exists e.
Qed.

Lemma past_dep p x : causal_le h x p → dep h x ≤ dep h p.
Proof.
  intros [->|Hlt]%causal_le_alt; [done|].
  apply (causal_lt_dep h x p (cp_wf _ Hcp)) in Hlt. lia.
Qed.

Lemma depth_inhabited p d : stored h p → d ≤ dep h p → ∃ x, causal_le h x p ∧ dep h x = d.
Proof.
  remember (dep h p - d) as n eqn:Hn. revert p Hn. induction n as [|n IH]; intros p Hn Hp Hd.
  { exists p. split; [done | lia]. }
  destruct (tight_pred p Hp) as (q & Hq & Hdq); [lia|].
  assert (causal_le h q p) as Hqp by (apply causal_le_alt; by right).
  destruct (IH q) as (x & Hx & Hdx); [lia | by eapply past_stored | lia |].
  exists x. split; [by etrans | done].
Qed.

Lemma depth_below_length p l : stored h p → lists_past h p l → S (dep h p) ≤ length l.
Proof.
  intros Hp [_ Hx]. rewrite <-(length_fmap (dep h) l), <-(length_seq (S (dep h p)) 0).
  apply submseteq_length, NoDup_submseteq; [apply NoDup_seq|].
  intros d Hd%elem_of_seq. destruct (depth_inhabited p d Hp) as (x & Hxp & <-); [lia|].
  apply list_elem_of_fmap. exists x. by rewrite Hx.
Qed.

(** The events of depth [i] among the causes of [p], in increasing order. *)
Definition level p (i : nat) (l : list eid) : Prop :=
  increasing l ∧ ∀ x, x ∈ l ↔ causal_le h x p ∧ dep h x = i.

Section levels.
Context (p : eid) (Hp : stored h p).

Record remaining_comb (i : nat) (C : comb) : Prop := {
  rm_ok : comb_ok h C;
  rm_sorted : comb_is_sorted C = true;
  rm_events x : x ∈ comb_events C ↔ causal_le h x p ∧ i ≤ dep h x;
}.

Lemma comb_empty_spec C : comb_ok h C → comb_empty C = true ↔ ∀ x, x ∉ comb_events C.
Proof.
  intros [_ Hok]. destruct C as [|[tid t] C]; cbn [comb_empty].
  { split; [|done]. intros _ x. apply not_elem_of_nil. }
  split; [done|]. intros Hn. destruct (Hok tid t) as [_ Hne]; [by left|].
  destruct (t_events t) as [|x l] eqn:E; [done|]. destruct (Hn x).
  apply comb_events_elem. exists tid, t. split; [by left|]. rewrite E. by left.
Qed.

Lemma remaining_empty i C : remaining_comb i C → comb_empty C = true ↔ dep h p < i.
Proof.
  intros Hr. rewrite comb_empty_spec by apply Hr. setoid_rewrite (rm_events _ _ Hr). split.
  - intros Hn. destruct (decide (dep h p < i)); [done|]. destruct (Hn p). split; [done | lia].
  - intros Hd x [Hx Hi]. apply past_dep in Hx. lia.
Qed.

Lemma minimal_level i C : remaining_comb i C →
  ∃ m l, comb_min h C = Ok m ∧ parikh_vector h m = Ok l ∧ level p i l.
Proof.
  intros Hr. pose proof (rm_events _ _ Hr) as Hx. pose proof (cp_free _ Hcp p Hp) as HC.
  pose proof (cp_wf _ Hcp) as Hwf.
  assert (∀ x, x ∈ comb_events C → causal_le h x p) as Hin by (by intros x [? _]%Hx).
  destruct (comb_min_gen h C (lt_of h)) as (m & Hm & Hnd & Hxm);
    [apply Hr | intros; apply (lt_of_ok h _ Hwf HC); auto
    | intros x y z; intros; apply (lt_of_trans h _ Hwf HC x y z); auto |].
  assert (∀ x, x ∈ m ↔ causal_le h x p ∧ dep h x = i) as Hlev.
  { intros x. rewrite Hxm. split.
    - intros [[Hxp Hi]%Hx Hmin]. split; [done|].
      destruct (decide (dep h x = i)); [done|].
      destruct (tight_pred x) as (q & Hq & Hd); [by eapply past_stored | lia |].
      assert (causal_le h q p) as Hqp by (etrans; [apply causal_le_alt; by right | done]).
      assert (q ∈ comb_events C) as Hqc by (apply Hx; split; [done | lia]).
      specialize (Hmin q Hqc). by apply (lt_of_false h _ Hwf HC q x Hqp Hxp) in Hmin.
    - intros [Hxp Hd]. split; [apply Hx; split; [done | lia]|]. intros y Hy.
      apply (lt_of_false h _ Hwf HC); [by apply Hin | done |]. intros Hlt.
      apply (causal_lt_dep h _ _ Hwf) in Hlt. apply Hx in Hy as [_ ?]. lia. }
  assert (Forall (stored h) m) as Hst.
  { apply Forall_forall. intros x [Hxp _]%Hlev. by eapply past_stored. }
  destruct (parikh_vector_spec h m (cp_ids _ Hcp) Hst Hnd) as (l & Hl & Hpm & Hs).
  exists m, l. split_and!; [done | done |]. split; [done|]. intros x. by rewrite Hpm.
Qed.

Lemma remove_level i C l :
  remaining_comb i C → level p i l →
  ∃ C', comb_remove_range h l C = Ok C' ∧ remaining_comb (S i) C'.
Proof.
  intros Hr [_ Hl]. destruct (comb_remove_range_spec h l C) as (C' & HC' & Hok & Hs & Hx);
    [| apply Hr.. |].
  { apply Forall_forall. intros x [Hxp _]%Hl. by eapply past_stored. }
  exists C'. split; [done|]. split; [done | done |]. intros x.
  rewrite Hx, Hl, (rm_events _ _ Hr).
  split; [intros [Hn [? ?]]; split; [done|]; destruct (decide (dep h x = i)); [tauto | lia]|].
  intros [? ?]. split; [intros [_ ?]; lia | split; [done | lia]].
Qed.

Lemma foata_loop_spec fuel i C :
  remaining_comb i C → S (dep h p) - i ≤ fuel →
  ∃ ls, foata_loop h fuel C = Ok ls ∧ length ls = S (dep h p) - i ∧
    ∀ k l, ls !! k = Some l → level p (i + k) l.
Proof.
  revert i C. induction fuel as [|fuel IH]; intros i C Hr Hf; cbn [foata_loop];
    pose proof (remaining_empty i C Hr) as He; destruct (comb_empty C) eqn:E.
  - exists []. split_and!; [done | simpl; lia | done].
  - destruct (decide (dep h p < i)) as [Hd|]; [by apply He in Hd | lia].
  - exists []. split_and!; [done | | done]. assert (dep h p < i) by (by apply He). simpl. lia.
  - assert (¬ dep h p < i) by (intros Hd; by apply He in Hd).
    destruct (minimal_level i C Hr) as (m & l & -> & Hl & Hlev). rewrite bind_Ok_l, Hl, bind_Ok_l.
    destruct (remove_level i C l Hr Hlev) as (C' & -> & Hr'). rewrite bind_Ok_l.
    destruct (IH (S i) C' Hr') as (ls & -> & Hlen & Hls); [lia|]. rewrite bind_Ok_l.
    exists (l :: ls). split_and!; [done | simpl; lia |]. intros [|k] l'; simpl.
    + intros [= <-]. by rewrite Nat.add_0_r.
    + intros Hk. rewrite Nat.add_succ_r. by apply (Hls k).
Qed.

Lemma foata_normal_form_spec :
  ∃ ls, foata_normal_form h p = Ok ls ∧ length ls = S (dep h p) ∧
    ∀ k l, ls !! k = Some l → level p k l.
Proof.
  destruct (local_configuration_spec p Hp) as (l & Hl & Hpast). unfold foata_normal_form.
  rewrite Hl, bind_Ok_l. pose proof Hpast as [_ Hx].
  destruct (comb_of_range_spec h _ (cp_wf _ Hcp) (cp_free _ Hcp p Hp) l) as (C & -> & Hok & Hxc);
    [by intros x ?%Hx|].
  rewrite bind_Ok_l. destruct (comb_sort_spec h C Hok) as (C' & -> & Hok' & Hs & Hp').
  rewrite bind_Ok_l. destruct (foata_loop_spec (length l) 0 C') as (ls & Hls & Hlen & Hlev).
  - split; [done | done |]. intros x. unfold comb_events.
    rewrite <-(concat_perm_elem _ _ x Hp'). fold (comb_events C). rewrite Hxc, Hx.
    split; [intros ?; split; [done | lia] | by intros []].
  - rewrite Nat.sub_0_r. by apply depth_below_length.
  - exists ls. rewrite Hls, Hlen. split_and!; [done | lia |]. exact Hlev.
Qed.
End levels.
End local.
