(* ===== verification/ErvProps.v ===== *)
(** * The theorems about the order on local configurations *)

From Stdlib Require Import ZArith.
From stdpp Require Import base tactics list gmap numbers relations sorting.
From S2P Require Import Prelude StdMap ThreadId Event Comb CombEnum CombProofs Cone Alloc Causality.
From S2P Require Import AllocProofs HeapExt Order Walks Demo Independence Unfolding Configuration.
From S2P Require Import ColorProofs UnfoldingProofs DedupProofs Scenario Dependence Heads Booking.
From S2P Require Import ConfInv OpBase OpProofs OpCond Startup System TraceProofs SystemProps Erv.
From S2P Require Import ErvProofs.

(** ** The order on local configurations is total

    Caching the size of a local configuration does not change any comparison,
    and [compare_adequate_total_order] is a strict total order that agrees
    with causality. *)

(** ** The cached sizes *)

Section cache.
Context {PL : Payload}.
Implicit Types (h : heap) (e : event) (a b p x : eid).

(** Heaps that only differ in the cached sizes. *)
Definition uncached h : heap := set_lc_size 0 <$> h.
Definition recached h h' : Prop := uncached h = uncached h'.

#[export] Instance recached_equiv : Equivalence recached.
Proof. split; unfold recached; [intros ?; done | intros ??; done | intros ???; by etrans]. Qed.

Lemma recached_lookup h h' p e :
  recached h h' → h !! p = Some e →
  ∃ e', h' !! p = Some e' ∧ set_lc_size 0 e = set_lc_size 0 e'.
Proof.
  intros Hr He. assert (uncached h' !! p = Some (set_lc_size 0 e)) as H'.
  { rewrite <-Hr. unfold uncached. by rewrite lookup_fmap, He. }
  unfold uncached in H'. rewrite lookup_fmap in H'. destruct (h' !! p) as [e'|]; [|done].
  simpl in H'. exists e'. split; [done | congruence].
Qed.

Lemma recached_core e e' : set_lc_size 0 e = set_lc_size 0 e' → same_core e e'.
Proof. unfold set_lc_size. intros [=]. split; congruence. Qed.

Lemma recached_ext h h' : recached h h' → heap_ext h h'.
Proof.
  intros Hr p e He. destruct (recached_lookup h h' p e Hr He) as (e' & ? & ?).
  exists e'. split; [done | by apply recached_core].
Qed.

Lemma recached_stored h h' p : recached h h' → stored h p ↔ stored h' p.
Proof.
  intros Hr. split; intros [e He].
  - destruct (recached_lookup h h' p e Hr He) as (e' & ? & _). by exists e'.
  - symmetry in Hr. destruct (recached_lookup h' h p e Hr He) as (e' & ? & _). by exists e'.
Qed.

Lemma recached_le h h' x p :
  wf_heap h → recached h h' → stored h p → causal_le h' x p ↔ causal_le h x p.
Proof.
  intros Hwf Hr Hp. split; [|by apply ext_causal_le, recached_ext].
  exact (ext_causal_le_inv h h' (recached_ext h h' Hr) Hwf x p Hp).
Qed.

Lemma recached_data e e' : set_lc_size 0 e = set_lc_size 0 e' → ev_data e = ev_data e'.
Proof. unfold set_lc_size. by intros [=]. Qed.

Lemma recached_key e e' : set_lc_size 0 e = set_lc_size 0 e' → order_key e' = order_key e.
Proof. destruct e, e'. unfold set_lc_size. cbn. by intros [= -> -> -> -> -> -> -> -> -> ->]. Qed.

Lemma recached_cmp h h' a b :
  recached h h' → stored h a → stored h b → event_cmp h' a b = event_cmp h a b.
Proof.
  intros Hr [ea Ha] [eb Hb]. unfold event_cmp.
  destruct (recached_lookup h h' a ea Hr Ha) as (ea' & Ha' & Ea).
  destruct (recached_lookup h h' b eb Hr Hb) as (eb' & Hb' & Eb).
  by rewrite Ha, Hb, Ha', Hb', (recached_key _ _ Ea), (recached_key _ _ Eb).
Qed.

Lemma recached_past h h' p l :
  wf_heap h → recached h h' → stored h p → lists_past h' p l ↔ lists_past h p l.
Proof.
  intros Hwf Hr Hp. unfold lists_past. by setoid_rewrite (recached_le h h' _ p Hwf Hr Hp).
Qed.

(** The part of [comparable] that caching affects. *)
Definition sizes_right h : Prop := ∀ p e l,
  h !! p = Some e → ev_lc_size e ≠ 0 → lists_past h p l → ev_lc_size e = length l.

Lemma recached_comparable h h' :
  comparable h → recached h h' → sizes_right h' → comparable h'.
Proof.
  intros Hcp Hrec Hs. pose proof (recached_ext h h' Hrec) as Hext.
  assert (recached h' h) as Hr by done.
  pose proof (recached_ext h' h Hr) as Hback. pose proof (cp_wf _ Hcp) as Hwf.
  assert (∀ p, stored h' p → stored h p) as Hst by (intros p; by apply recached_stored).
  assert (∀ x p, stored h' p → causal_le h' x p ↔ causal_le h x p) as Hle.
  { intros x p Hp. by apply recached_le; [..|apply Hst]. }
  split.
  - apply (wf_heap_ext h h'); try done. intros p e' He'.
    destruct (Hback p e' He') as (e & He & _). congruence.
  - intros p Hp. pose proof (ext_conflict_free h h' _ Hwf Hext (cp_free _ Hcp p (Hst p Hp))) as Hf.
    destruct Hf as [H1 H2 H3 H4]. split.
    + intros x Hx%Hle; auto.
    + intros x y Hy Hxy. by etrans.
    + intros x y ex ey Hx%Hle Hy%Hle; auto. by apply H3.
    + intros x y q Hx%Hle Hy%Hle; auto. by apply (H4 x y q).
  - intros p Hp x c ex ec Hx%Hle Hex Hd Hec Hk; [|done].
    destruct (recached_lookup h' h x ex Hr Hex) as (ex0 & Hex0 & Ex).
    destruct (recached_lookup h' h c ec Hr Hec) as (ec0 & Hec0 & Ec).
    destruct (recached_core _ _ Ex) as [-> _ _ _], (recached_core _ _ Ec) as [-> _ _ _].
    apply recached_data in Ex, Ec.
    eapply (cp_creators _ Hcp p (Hst p Hp) x c ex0 ec0); [done | done | congruence | done|].
    unfold ev_kind in *. congruence.
  - intros a b ea eb Ha Hb Hid.
    destruct (recached_lookup h' h a ea Hr Ha) as (ea0 & Ha0 & Ea%recached_key).
    destruct (recached_lookup h' h b eb Hr Hb) as (eb0 & Hb0 & Eb%recached_key).
    apply (cp_ids _ Hcp a b ea0 eb0 Ha0 Hb0). unfold order_key in *. congruence.
  - exact Hs.
Qed.

Lemma recached_vector h h' p :
  comparable h → comparable h' → recached h h' → stored h p → past_vector h' p = past_vector h p.
Proof.
  intros Hcp Hcp' Hr Hp. symmetry. apply past_vector_unique; [done | by apply (recached_stored h) | |].
  - apply (recached_past h h' p _ (cp_wf _ Hcp) Hr Hp).
    by destruct (past_vector_spec h Hcp p Hp) as (_ & _ & _ & _ & _ & ? & _).
  - destruct (past_vector_spec h Hcp p Hp) as (_ & _ & _ & _ & Hst & _ & Hs).
    unfold increasing in *. induction Hs as [|x l Hs IH Hf]; constructor.
    + apply IH. by apply Forall_cons in Hst as [_ ?].
    + apply Forall_cons in Hst as [Hx Hst]. rewrite Forall_forall in *. intros y Hy.
      rewrite (recached_cmp h h') by auto. by apply Hf.
Qed.
End cache.

(** ** The comparison *)

Section order.
Context {PL : Payload}.
Implicit Types (h : heap) (e : event) (a b p x : eid).

Lemma local_configuration_size_spec h p :
  comparable h → stored h p →
  ∃ h', local_configuration_size h p = Ok (h', length (past_vector h p)) ∧
    recached h h' ∧ comparable h'.
Proof.
  intros Hcp Hp. pose proof Hp as [e He].
  destruct (past_vector_spec h Hcp p Hp) as (l & Hl & _ & Hlen & _ & Hpast & _).
  unfold local_configuration_size. rewrite (proj2 (deref_ok h p e) He), bind_Ok_l.
  destruct (Nat.eqb_spec (ev_lc_size e) 0) as [E|E].
  2:{ exists h. rewrite (cp_sizes _ Hcp p e _ He E Hpast). done. }
  rewrite Hl, bind_Ok_l, Hlen. eexists. split; [done|].
  assert (recached h (<[p:=set_lc_size (length (past_vector h p)) e]> h)) as Hr.
  { unfold recached, uncached. rewrite fmap_insert. symmetry. apply insert_id.
    by rewrite lookup_fmap, He. }
  split; [done|]. apply (recached_comparable h); [done | done |].
  intros q eq lq Hq Hne Hlq. assert (stored h q) as Hsq.
  { apply (recached_stored h _ q Hr). by exists eq. }
  apply (recached_past h _ q lq (cp_wf _ Hcp) Hr Hsq) in Hlq.
  destruct (decide (p = q)) as [->|Hpq].
  - rewrite lookup_insert_eq in Hq. injection Hq as <-. cbn. by eapply lists_past_length.
  - rewrite lookup_insert_ne in Hq by done. by apply (cp_sizes _ Hcp q eq lq).
Qed.

(** What the comparison decides. *)
Definition local_less h a b : bool :=
  let pa := past_vector h a in let pb := past_vector h b in
  if Nat.eqb (length pa) (length pb) then (lex (event_cmp h) pa pb <? 0)%Z
  else Nat.ltb (length pa) (length pb).

Lemma recached_less h h' a b :
  comparable h → comparable h' → recached h h' → stored h a → stored h b →
  local_less h' a b = local_less h a b.
Proof.
  intros Hcp Hcp' Hr Ha Hb. unfold local_less.
  rewrite !(recached_vector h h') by done.
  enough (lex (event_cmp h') (past_vector h a) (past_vector h b) =
    lex (event_cmp h) (past_vector h a) (past_vector h b)) as -> by done.
  destruct (past_vector_spec h Hcp a Ha) as (_ & _ & _ & _ & Sa & _).
  destruct (past_vector_spec h Hcp b Hb) as (_ & _ & _ & _ & Sb & _).
  revert Sb. generalize (past_vector h b). induction Sa as [|x l Hx Sa IH]; intros l' [|y l2 Hy Sb];
    [done..|]. cbn [lex]. by rewrite (recached_cmp h h'), IH.
Qed.

Lemma past_vector_inj h a b :
  comparable h → stored h a → stored h b → past_vector h a = past_vector h b → a = b.
Proof.
  intros Hcp Ha Hb E.
  destruct (past_vector_spec h Hcp a Ha) as (_ & _ & _ & _ & _ & [_ Xa] & _).
  destruct (past_vector_spec h Hcp b Hb) as (_ & _ & _ & _ & _ & [_ Xb] & _).
  assert (causal_le h a b) as Hab by (apply Xb; rewrite <-E; apply Xa, past_refl).
  assert (causal_le h b a) as Hba by (apply Xa; rewrite E; apply Xb, past_refl).
  apply causal_le_alt in Hab as [?|Hab]; [done|]. apply causal_le_alt in Hba as [?|Hba]; [done|].
  pose proof (causal_lt_dep h a b (cp_wf _ Hcp) Hab).
  pose proof (causal_lt_dep h b a (cp_wf _ Hcp) Hba). lia.
Qed.

Lemma vectors_three_way h :
  comparable h → three_way (Forall (stored h)) (lex (event_cmp h)).
Proof. intros Hcp. by apply lex_three_way, event_three_way, cp_ids. Qed.

Lemma foata_less_refl h ls :
  comparable h → Forall (Forall (stored h)) ls → foata_less h ls ls = Ok false.
Proof.
  intros Hcp. induction 1 as [|l ls Hl _ IH]; [done|]. cbn [foata_less]. unfold parikh_compare.
  rewrite (lex_compare_spec _ (event_cmp h) (stored h)) by (done || intros; by apply comp_spec).
  rewrite bind_Ok_l, (three_way_refl _ _ l (vectors_three_way h Hcp) Hl). by rewrite bool_decide_true.
Qed.

Lemma compare_spec h a b :
  comparable h → stored h a → stored h b →
  ∃ h', compare_adequate_total_order h a b = Ok (h', local_less h a b) ∧
    recached h h' ∧ comparable h'.
Proof.
  intros Hcp0 Ha0 Hb0. unfold compare_adequate_total_order.
  destruct (local_configuration_size_spec h a Hcp0 Ha0) as (h1 & -> & Hr1 & Hcp1).
  rewrite bind_Ok_l. assert (stored h1 b) as Hb1 by (by apply (recached_stored h)).
  destruct (local_configuration_size_spec h1 b Hcp1 Hb1) as (h2 & -> & Hr2 & Hcp).
  rewrite bind_Ok_l. assert (recached h h2) as Hr by (by etrans).
  assert (stored h2 a) as Ha by (by apply (recached_stored h)).
  assert (stored h2 b) as Hb by (by apply (recached_stored h)).
  rewrite <-(recached_less h h2), (recached_vector h h1) by done.
  rewrite <-(recached_vector h h2 a), <-(recached_vector h h2 b) by done. unfold local_less.
  destruct (past_vector_spec h2 Hcp a Ha) as (la & Hla & Hpa & _ & Sa & _).
  destruct (past_vector_spec h2 Hcp b Hb) as (lb & Hlb & Hpb & _ & Sb & _).
  destruct (Nat.eqb (length (past_vector h2 a)) (length (past_vector h2 b))) eqn:E; [|by eauto].
  rewrite Hla, bind_Ok_l, Hpa, bind_Ok_l, Hlb, bind_Ok_l, Hpb, bind_Ok_l. unfold parikh_compare.
  rewrite (lex_compare_spec _ (event_cmp h2) (stored h2)), bind_Ok_l
    by (done || intros; by apply comp_spec).
  case_bool_decide as Hz; [|by eauto]. rewrite Hz.
  apply (tw_eq _ _ (vectors_three_way h2 Hcp)) in Hz; [|done..].
  apply past_vector_inj in Hz as ->; [|done..].
  destruct (foata_normal_form_spec h2 Hcp b Hb) as (ls & Hls & _ & Hlev).
  rewrite Hls, !bind_Ok_l, foata_less_refl, bind_Ok_l; [by eauto | done |].
  apply Forall_lookup. intros k l Hk. apply Forall_forall. intros x Hx.
  apply (Hlev k l Hk) in Hx as [Hx _]. by eapply past_stored.
Qed.

(** *** The laws of the order *)

Section laws.
Context (h : heap).
Hypothesis Hcp : comparable h.

Lemma local_less_alt a b : stored h a → stored h b →
  local_less h a b = true ↔
    length (past_vector h a) < length (past_vector h b) ∨
    length (past_vector h a) = length (past_vector h b) ∧
      (lex (event_cmp h) (past_vector h a) (past_vector h b) < 0)%Z.
Proof.
  intros Ha Hb. unfold local_less. destruct (Nat.eqb_spec (length (past_vector h a)) (length (past_vector h b))).
  - rewrite Z.ltb_lt. lia.
  - rewrite Nat.ltb_lt. lia.
Qed.

Lemma local_less_irrefl a : stored h a → local_less h a a = false.
Proof.
  intros Ha. apply not_true_iff_false. rewrite local_less_alt by done.
  destruct (past_vector_spec h Hcp a Ha) as (_ & _ & _ & _ & Sa & _).
  rewrite (three_way_refl _ _ _ (vectors_three_way h Hcp) Sa). lia.
Qed.

Lemma local_less_trans a b c :
  stored h a → stored h b → stored h c →
  local_less h a b = true → local_less h b c = true → local_less h a c = true.
Proof.
  intros Ha Hb Hc. rewrite !local_less_alt by done.
  destruct (past_vector_spec h Hcp a Ha) as (_ & _ & _ & _ & Sa & _).
  destruct (past_vector_spec h Hcp b Hb) as (_ & _ & _ & _ & Sb & _).
  destruct (past_vector_spec h Hcp c Hc) as (_ & _ & _ & _ & Sc & _).
  pose proof (tw_trans _ _ (vectors_three_way h Hcp) _ _ _ Sa Sb Sc).
  intros [?|[? ?]] [?|[? ?]]; [left; lia | left; lia | left; lia | right; split; [lia | auto]].
Qed.

Lemma local_less_total a b :
  stored h a → stored h b → a = b ∨ local_less h a b = true ∨ local_less h b a = true.
Proof.
  intros Ha Hb. rewrite !local_less_alt by done.
  destruct (past_vector_spec h Hcp a Ha) as (_ & _ & _ & _ & Sa & _).
  destruct (past_vector_spec h Hcp b Hb) as (_ & _ & _ & _ & Sb & _).
  pose proof (tw_opp _ _ (vectors_three_way h Hcp) _ _ Sa Sb).
  pose proof (tw_eq _ _ (vectors_three_way h Hcp) _ _ Sa Sb) as Heq.
  destruct (decide (lex (event_cmp h) (past_vector h a) (past_vector h b) = 0%Z)) as [Hz|].
  { left. by apply (past_vector_inj h), Heq. }
  right. lia.
Qed.

Lemma local_less_causal a b : stored h b → causal_lt h a b → local_less h a b = true.
Proof.
  intros Hb Hab. assert (causal_le h a b) as Hle by (apply causal_le_alt; by right).
  assert (stored h a) as Ha by (by eapply past_stored).
  apply local_less_alt; [done..|]. left.
  destruct (past_vector_spec h Hcp a Ha) as (_ & _ & _ & _ & _ & [Na Xa] & _).
  destruct (past_vector_spec h Hcp b Hb) as (_ & _ & _ & _ & _ & [Nb Xb] & _).
  assert (b ∉ past_vector h a) as Hn.
  { intros Hba%Xa. apply (past_dep h Hcp) in Hba.
    pose proof (causal_lt_dep h a b (cp_wf _ Hcp) Hab). lia. }
  assert (length (b :: past_vector h a) ≤ length (past_vector h b)) as Hlen; [|simpl in Hlen; lia].
  apply submseteq_length, NoDup_submseteq; [by apply list.NoDup_cons|].
  intros x [->|Hx]%elem_of_cons; apply Xb; [apply past_refl | etrans; [by apply Xa | done]].
Qed.
End laws.
End order.

Section props.
Context {PL : Payload} {AL : Allocator}.
Implicit Types (h : heap) (a b p x : eid).

(** C39: on a heap whose stored events have conflict-free pasts, correctly
    cached sizes and pairwise distinct metadata ids,
    [compare_adequate_total_order] returns, at most fills the cache of sizes,
    and however the cache is filled it decides one strict total order, which
    puts every event after its causes and after the events with fewer causes.
    That the ids are distinct is a premise: [store_event] numbers the events,
    but [deduplicate] can reset the id of a stored event, and then the order on
    events is not even antisymmetric
    ([Findings.event_order_not_antisymmetric]). *)
Theorem compare_is_total_order h :
  wf_heap h → (∀ p, stored h p → conflict_free h (λ x, causal_le h x p)) →
  (∀ p, stored h p → creators_first h (λ x, causal_le h x p)) → distinct_ids h → sizes_right h →
  ∃ less : eid → eid → bool,
    (∀ h' a b, recached h h' → sizes_right h' → stored h a → stored h b →
      ∃ h'', compare_adequate_total_order h' a b = Ok (h'', less a b) ∧
        recached h h'' ∧ sizes_right h'') ∧
    (∀ a, stored h a → less a a = false) ∧
    (∀ a b c, stored h a → stored h b → stored h c →
      less a b = true → less b c = true → less a c = true) ∧
    (∀ a b, stored h a → stored h b → a = b ∨ less a b = true ∨ less b a = true) ∧
    (∀ a b, stored h b → causal_lt h a b → less a b = true) ∧
    (∀ a b la lb, stored h a → stored h b → lists_past h a la → lists_past h b lb →
      length la < length lb → less a b = true).
Proof.
  intros Hwf Hfree Hcr Hids Hsz. assert (comparable h) as Hcp by (by split).
  exists (local_less h). split_and!.
  - intros h' a b Hr Hs Ha Hb. pose proof (recached_comparable h h' Hcp Hr Hs) as Hcp'.
    destruct (compare_spec h' a b) as (h'' & Hc & Hr' & Hcp'');
      [done | by apply (recached_stored h) .. |].
    exists h''. rewrite Hc, (recached_less h h') by done.
    split; [done|]. split; [by etrans | exact (cp_sizes _ Hcp'')].
  - intros a. by apply local_less_irrefl.
  - intros a b c. by apply local_less_trans.
  - intros a b. by apply local_less_total.
  - intros a b. by apply local_less_causal.
  - intros a b la lb Ha Hb La Lb Hlen. apply local_less_alt; [done..|]. left.
    destruct (past_vector_spec h Hcp a Ha) as (_ & _ & _ & _ & _ & Pa & _).
    destruct (past_vector_spec h Hcp b Hb) as (_ & _ & _ & _ & _ & Pb & _).
    by rewrite (lists_past_length h a _ la Pa La), (lists_past_length h b _ lb Pb Lb).
Qed.

(** The Foata normal form of an event has one level per depth; level [k]
    lists exactly the events of depth [k] among the event and its causes, in
    increasing order. *)
Theorem foata_levels_exact h p :
  comparable h → stored h p →
  ∃ ls, foata_normal_form h p = Ok ls ∧ length ls = S (dep h p) ∧
    ∀ k l, ls !! k = Some l →
      StronglySorted (λ x y, comp_event_total_order h x y = Ok (-1)%Z) l ∧
      ∀ x, x ∈ l ↔ causal_le h x p ∧ dep h x = k.
Proof.
  intros Hcp Hp. destruct (foata_normal_form_spec h Hcp p Hp) as (ls & Hls & Hlen & Hlev).
  exists ls. split_and!; [done | done |]. intros k l Hk. destruct (Hlev k l Hk) as [Hs Hx].
  split; [|done]. assert (∀ x, x ∈ l → stored h x) as Hst.
  { intros x [Hxp _]%Hx. by eapply past_stored. }
  clear -Hs Hst. unfold increasing in Hs.
  induction Hs as [|x l Hs IH Hf]; constructor; [apply IH; intros; apply Hst; by right|].
  rewrite Forall_forall in *. intros y Hy. rewrite comp_spec; [|apply Hst; by (left || right)..].
  f_equal. specialize (Hf y Hy). unfold event_cmp in *. case_bool_decide; [lia|].
  destruct (h !! x), (h !! y); try lia. by destruct (std_less _ _).
Qed.

(** What is left to check for an unfolding. *)
Lemma unfolding_comparable u :
  uf_ok u → creators_first (uf_heap u) (λ x, x ∈ (map_to_list (uf_heap u)).*1) →
  NoDup ((λ pe, md_id (ev_metadata pe.2)) <$> map_to_list (uf_heap u)) →
  all_events (uf_heap u) (λ e, Nat.eqb (ev_lc_size e) 0) = true → comparable (uf_heap u).
Proof.
  intros Hok Hcr Hid Hsz. split.
  - apply Hok.
  - intros p [e He]. apply (uo_lc _ Hok p e He).
  - intros p [e He] x c ex ec _ Hex. apply (Hcr x c ex ec); [|done].
    apply list_elem_of_fmap. exists (x, ex). by rewrite elem_of_map_to_list.
  - intros a b ea eb Ha Hb Heq. rewrite <-elem_of_map_to_list in Ha, Hb.
    apply list_elem_of_lookup in Ha as [i Hi], Hb as [j Hj].
    assert (i = j) as <-.
    { eapply (NoDup_lookup _ i j _ Hid); rewrite list_lookup_fmap; [by rewrite Hi|].
      rewrite Hj. simpl. by rewrite Heq. }
    congruence.
  - intros p e l He Hne. by apply (all_events_spec _ _ p e), Nat.eqb_eq in Hsz.
Qed.
End props.

(** ** The order on the events of a run *)

Lemma after_comparable : comparable (uf_heap (after 16).1).
Proof.
  apply unfolding_comparable.
  - assert (conf_ok (after 16).1 (after 16).2) as []; [|done].
    apply (reachable_ok (state 16)); [reached | apply state_conf].
  - apply creators_first_b_spec. vm_compute. reflexivity.
  - by_compute.
  - vm_compute. reflexivity.
Qed.

Lemma after_stored n p :
  bool_decide (is_Some (uf_heap (after n).1 !! p)) = true → stored (uf_heap (after n).1) p.
Proof. apply bool_decide_eq_true_1. Qed.

(** An acquisition and the later acquisition by the other thread. *)
Lemma compare_is_total_order_witness :
  ∃ less : eid → eid → bool,
    (∃ h', compare_adequate_total_order (uf_heap (after 16).1) 7%N 9%N = Ok (h', less 7%N 9%N)) ∧
    (7%N = 9%N ∨ less 7%N 9%N = true ∨ less 9%N 7%N = true).
Proof.
  destruct (compare_is_total_order (uf_heap (after 16).1) (cp_wf _ after_comparable) (cp_free _ after_comparable)
    (cp_creators _ after_comparable) (cp_ids _ after_comparable) (cp_sizes _ after_comparable))
    as (less & Hc & _ & _ & Htot & _ & _).
  exists less. split.
  - destruct (Hc (uf_heap (after 16).1) 7%N 9%N) as (h' & H & _);
      [reflexivity | exact (cp_sizes _ after_comparable) | | | by exists h'];
      apply after_stored; vm_compute; reflexivity.
  - apply Htot; apply after_stored; vm_compute; reflexivity.
Defined.

Lemma foata_levels_exact_witness :
  ∃ ls, foata_normal_form (uf_heap (after 16).1) 12%N = Ok ls ∧
    ∀ k l, ls !! k = Some l → ∀ x, x ∈ l ↔
      causal_le (uf_heap (after 16).1) x 12%N ∧ dep (uf_heap (after 16).1) x = k.
Proof.
  destruct (foata_levels_exact (uf_heap (after 16).1) 12%N) as (ls & H & _ & Hl);
    [apply after_comparable | apply after_stored; vm_compute; reflexivity |].
  exists ls. split; [exact H|]. intros k l Hk. by apply Hl.
Defined.

(** The normal form of the [wait2] event. *)
Example wait2_foata : foata_normal_form (uf_heap (after 16).1) 12%N =
  Ok [[1]; [2]; [3]; [4; 5]; [7; 6]; [8]; [9]; [10]; [11]; [12]]%N.
Proof. vm_compute. reflexivity. Qed.
