(* ===== verification/AltProps.v ===== *)
(** * The alternatives the search returns are exactly those that fit *)

From stdpp Require Import base tactics list gmap numbers relations.
From S2P Require Import Prelude StdMap ThreadId Event Comb CombEnum CombProofs Cone Alloc Causality.
From S2P Require Import AllocProofs HeapExt Order Walks Demo Independence Unfolding Configuration.
From S2P Require Import Cex ColorProofs UnfoldingProofs DedupProofs Scenario Dependence Heads.
From S2P Require Import Booking ConfInv OpBase OpProofs OpCond Startup System TraceProofs.

(** ** Alternatives ([unfolding::compute_alternative])

    The search paints the configuration red and the excluded events blue and
    walks down from the immediate conflicts of an excluded event. It returns
    the first one that can extend the configuration without the excluded
    events. *)

Section alternative.
Context {PL : Payload} {AL : Allocator}.
Implicit Types (u : unfolding) (h : heap) (e : event) (p q w x y f : eid) (c D l W : list eid).

(** ** Painting events *)

Definition colour h p : option N := ev_color <$> h !! p.

(** The colours given out so far. *)
Definition colours_used u : Prop :=
  ∀ p k, colour (uf_heap u) p = Some k → (k ≤ uf_next_color u)%N.

(** Every member but the colour. *)
Definition but_colour e e' : Prop := set_color 0 e = set_color 0 e'.

#[export] Instance but_colour_equiv : Equivalence but_colour.
Proof. split; [by intros ? | by intros ? ? | intros ???; unfold but_colour; congruence]. Qed.

Definition repainted h h' : Prop := ∀ p, option_Forall2 but_colour (h !! p) (h' !! p).

#[export] Instance repainted_equiv : Equivalence repainted.
Proof.
  split; [by intros h p | by intros h h' H p | intros a b d H1 H2 p; etrans; [apply H1 | apply H2]].
Qed.

Lemma but_colour_fields e e' : but_colour e e' →
  frame_rel e e' ∧ ev_is_cutoff e = ev_is_cutoff e' ∧ ev_data e = ev_data e'.
Proof. intros [= ????]. repeat split; congruence. Qed.

Lemma repainted_lookup h h' p e : repainted h h' → h !! p = Some e →
  ∃ e', h' !! p = Some e' ∧ but_colour e e'.
Proof. intros Hr Hp. specialize (Hr p). rewrite Hp in Hr. inversion Hr; eauto. Qed.

Lemma repainted_frame h h' : repainted h h' → frame h h'.
Proof. intros Hr p. destruct (Hr p) as [e e' He|]; constructor. by apply but_colour_fields. Qed.

Lemma repainted_cut h h' x : repainted h h' → is_cut h x ↔ is_cut h' x.
Proof.
  intros Hr. assert (∀ a b, repainted a b → is_cut a x → is_cut b x) as Hgo.
  { intros a b Hab (e & He & Hc). destruct (repainted_lookup a b x e Hab He) as (e' & He' & Hb).
    apply but_colour_fields in Hb as (_ & Hb & _). exists e'. split; [done | congruence]. }
  split; apply Hgo; [done | by symmetry].
Qed.

Lemma repainted_ok u h' nc : uf_ok u → repainted (uf_heap u) h' →
  uf_ok (Unfolding h' (uf_events u) (uf_root u) (uf_size u) (uf_stats u) nc (uf_next_cfl_color u)).
Proof.
  intros Hok Hr. pose proof (repainted_frame _ _ Hr) as Hf. apply frame_uf_ok; [done | done |].
  intros x s. rewrite <-!(repainted_cut _ _ _ Hr), <-(frame_succ_of _ _ _ _ Hf). apply Hok.
Qed.

(** [u'] is [u] with the events of [l] painted in the new colour [k]. *)
Record painted_with u l (k : N) u' : Prop := {
  pw_repainted : repainted (uf_heap u) (uf_heap u');
  pw_colour p : is_Some (uf_heap u !! p) →
    colour (uf_heap u') p = if decide (p ∈ l) then Some k else colour (uf_heap u) p;
  pw_next : k = N.succ (uf_next_color u) ∧ uf_next_color u' = k;
  pw_root : uf_root u' = uf_root u;
  pw_ok : uf_ok u → uf_ok u';
}.

Lemma paint_all k l h : (∀ p, p ∈ l → is_Some (h !! p)) →
  ∃ h', for_each (λ h p, upd h p (set_color k)) h l = Ok h' ∧ repainted h h' ∧
    ∀ p, is_Some (h !! p) → colour h' p = if decide (p ∈ l) then Some k else colour h p.
Proof.
  induction l as [|x l IH] using rev_ind; intros Hl.
  { exists h. split_and!; [done | done |]. intros p _. rewrite decide_False; [done|]. apply not_elem_of_nil. }
  destruct IH as (h' & Hh & Hr & Hc); [intros p Hp; apply Hl, elem_of_app; by left|].
  destruct (Hl x) as [ex Hx]; [apply elem_of_app; right; left|].
  destruct (repainted_lookup h h' x ex Hr Hx) as (ex' & Hx' & Hb).
  rewrite for_each_app, Hh, bind_Ok_l. cbn [for_each]. rewrite (upd_ok h' x ex' _ Hx'), bind_Ok_l.
  eexists. split; [done|]. split.
  - etrans; [done|]. intros p. destruct (decide (x = p)) as [->|Hne].
    + rewrite lookup_insert_eq, Hx'. by constructor.
    + rewrite lookup_insert_ne by done. destruct (h' !! p); by constructor.
  - intros p Hp. unfold colour. destruct (decide (x = p)) as [->|Hne].
    + rewrite lookup_insert_eq, decide_True; [done|]. apply elem_of_app. right. left.
    + rewrite lookup_insert_ne by done. fold (colour h' p). rewrite Hc by done.
      destruct (decide (p ∈ l)) as [Hin|Hn].
      * rewrite decide_True; [done|]. apply elem_of_app. by left.
      * rewrite decide_False; [done|]. rewrite elem_of_app, list_elem_of_singleton. naive_solver.
Qed.

Lemma colorize_ok u l : (∀ p, p ∈ l → is_Some (uf_heap u !! p)) →
  ∃ u', colorize l u = Ok (u', N.succ (uf_next_color u)) ∧
    painted_with u l (N.succ (uf_next_color u)) u'.
Proof.
  intros Hl. unfold colorize. destruct (paint_all (N.succ (uf_next_color u)) l (uf_heap u) Hl)
    as (h' & -> & Hr & Hc). rewrite bind_Ok_l. eexists. split; [done|].
  split; simpl; [done | done | done | done |]. intros Hok. by apply repainted_ok.
Qed.

Lemma painted_used u l k u' : painted_with u l k u' → colours_used u → colours_used u'.
Proof.
  intros [Hr Hc [Hk Hn] _ _] Hu p k' Hp. assert (is_Some (uf_heap u !! p)) as Hs.
  { unfold colour in Hp. apply fmap_Some in Hp as (e & He & _). symmetry in Hr.
    destruct (repainted_lookup _ _ p e Hr He) as (e' & ? & _). by eauto. }
  rewrite Hc in Hp by done. destruct (decide (p ∈ l)); [simplify_eq; lia|].
  apply Hu in Hp. lia.
Qed.

(** ** The walk *)

(** [x] cannot be added to [c]: it is excluded or conflicts with [c]. *)
Definition blocked h c D x : Prop := x ∈ D ∨ ∃ y, y ∈ c ∧ conflicts_of h x y.

(** [f] needs a blocked event outside of [c]. *)
Definition blocked_below h c D f : Prop := ∃ x, causal_le h x f ∧ x ∉ c ∧ blocked h c D x.

Section search.
Context u c D (red blue : N) (Hok : uf_ok u).
Abbreviation h := (uf_heap u).
Hypothesis Hstored : ∀ x, x ∈ c → is_Some (h !! x).
Hypothesis Hclosed : ∀ x y, y ∈ c → causal_le h x y → x ∈ c.
Hypothesis Hred : ∀ p e, h !! p = Some e → ev_color e = red ↔ p ∈ c.
Hypothesis Hblue : ∀ p e, h !! p = Some e → ev_color e = blue ↔ p ∈ D.

Lemma conflict_stored x y : conflicts_of h x y → is_Some (h !! y).
Proof. intros Hc. apply (uo_conf _ Hok) in Hc as [_ (e & He & _)]. by eauto. Qed.

Lemma in_conflict_ok p : is_Some (h !! p) →
  ∃ b, in_immediate_conflict_with_color h p red = Ok b ∧ (b = true ↔ ∃ y, y ∈ c ∧ conflicts_of h p y).
Proof.
  intros [e He]. unfold in_immediate_conflict_with_color.
  rewrite (proj2 (deref_ok h p e) He), bind_Ok_l.
  assert (∀ y, y ∈ ev_immediate_conflicts e → is_Some (h !! y)) as Hst.
  { intros y Hy. apply (conflict_stored p). by exists e. }
  assert (∀ l, (∀ y, y ∈ l → is_Some (h !! y)) →
    ∃ b, any_of (λ q, eq ← deref h q; Ok (ev_color eq =? red)%N) l = Ok b ∧
      (b = true ↔ ∃ y, y ∈ c ∧ y ∈ l)) as Hany.
  { induction l as [|y l IH]; intros Hl; cbn [any_of].
    - exists false. split; [done|]. split; [done|]. by intros (y & _ & ?%elem_of_nil).
    - destruct (Hl y) as [ey Hy]; [left|]. rewrite (proj2 (deref_ok h y ey) Hy), !bind_Ok_l.
      destruct (N.eqb_spec (ev_color ey) red) as [Hr|Hr].
      + exists true. split; [done|]. split; [|done]. intros _. exists y.
        split; [by apply (Hred y ey) | left].
      + destruct IH as (b & -> & Hb); [intros z Hz; apply Hl; by right|]. exists b. split; [done|].
        rewrite Hb. split; intros (z & Hz & Hzl).
        * exists z. split; [done | by right].
        * apply elem_of_cons in Hzl as [->|Hzl]; [|by eauto]. by apply (Hred y ey) in Hz. }
  destruct (Hany _ Hst) as (b & Hb & Hbt). exists b. split; [done|]. rewrite Hbt. unfold conflicts_of.
  split; intros (y & Hy & Hin); exists y; (split; [done|]); [by exists e|].
  destruct Hin as (e' & He' & Hin). by assert (e' = e) as -> by congruence.
Qed.

(** The walk decides whether an event of a list is above a blocked one. *)
Definition walks l (k : nat) (b : bool) : Prop :=
  (b = true ↔ ∃ w, w ∈ l ∧ blocked_below h c D w) ∧
  ∀ fuel W, alternative_loop h red blue (k + fuel) (l ++ W) =
    if b then Ok true else alternative_loop h red blue fuel W.

Lemma walks_list l : (∀ w, w ∈ l → ∃ k b, walks [w] k b) → ∃ k b, walks l k b.
Proof.
  induction l as [|w l IH]; intros Hl.
  { exists 0, false. split; [|done]. split; [done|]. by intros (w & ?%elem_of_nil & _). }
  destruct (Hl w) as (k1 & b1 & Hb1 & Hr1); [left|].
  destruct IH as (k2 & b2 & Hb2 & Hr2); [intros x Hx; apply Hl; by right|].
  exists (k1 + k2), (b1 || b2). split.
  - rewrite orb_true_iff, Hb1, Hb2. setoid_rewrite elem_of_cons. split.
    + intros [(x & [->|[]%elem_of_nil] & Hbx)|(x & Hx & Hbx)];
        [exists w | exists x]; (split; [auto | done]).
    + intros (x & [->|Hx] & Hbx); [left; exists w; split; [by left | done] | right; eauto].
  - intros fuel W. rewrite <-Nat.add_assoc. etrans; [exact (Hr1 (k2 + fuel) (l ++ W))|].
    destruct b1; [done|]. apply Hr2.
Qed.

Lemma blocked_below_unfold w e : h !! w = Some e → w ∉ c → ¬ blocked h c D w →
  blocked_below h c D w ↔ ∃ q, imm0 h q w ∧ blocked_below h c D q.
Proof.
  intros He Hn Hb. pose proof (uo_wf _ Hok) as Hwf. split.
  - intros (x & [->|Hlt]%causal_le_alt & Hxn & Hx); [done|].
    apply causal_lt_alt in Hlt as (e' & He' & q & Hq & Hle).
    assert (imm h q w) as Hi by (by exists e').
    destruct (lc_cover h q w Hwf (uo_lc _ Hok) Hi) as (m & Hm & Hqm).
    exists m. split; [done|]. exists x. split_and!; [by etrans | done | done].
  - intros (q & Hq & x & Hle & Hx). exists x. split; [|done]. etrans; [done|].
    apply (imm0_exact h q w e Hwf He (uo_lc _ Hok w e He)) in Hq as [Hlt _]. apply causal_le_alt. by right.
Qed.

Lemma walks_event w : is_Some (h !! w) → ∃ k b, walks [w] k b.
Proof.
  remember (dep h w) as d eqn:Hd. revert w Hd. induction d as [d IH] using lt_wf_ind.
  intros w -> [e He]. pose proof (uo_wf _ Hok) as Hwf.
  destruct (decide (w ∈ c)) as [Hc|Hc].
  { exists 1, false. split.
    - split; [done|]. intros (x & ->%list_elem_of_singleton & y & Hle & Hn & _).
      destruct Hn. by apply (Hclosed y w).
    - intros fuel W. cbn [alternative_loop Nat.add app].
      rewrite (proj2 (deref_ok h w e) He), bind_Ok_l.
      by rewrite (proj2 (N.eqb_eq _ _) (proj2 (Hred w e He) Hc)). }
  assert (ev_color e ≠ red) as Hnr by (intros E; by apply (Hred w e He) in E).
  destruct (in_conflict_ok w) as (b0 & Hb0 & Hb0t); [by eauto|].
  destruct (decide (w ∈ D ∨ b0 = true)) as [Hbl|Hbl].
  { exists 1, true. split.
    - split; [|done]. intros _. exists w. split; [left|]. exists w. split_and!; [reflexivity | done |].
      destruct Hbl as [?|Hbt]; [by left | right; by apply Hb0t].
    - intros fuel W. cbn [alternative_loop Nat.add app].
      rewrite (proj2 (deref_ok h w e) He), bind_Ok_l, (proj2 (N.eqb_neq _ _) Hnr), Hb0.
      destruct (N.eqb_spec (ev_color e) blue) as [|Hnb]; rewrite bind_Ok_l; [done|].
      destruct Hbl as [HD| ->]; [by apply (Hblue w e He) in HD | done]. }
  assert (w ∉ D ∧ b0 = false) as [HnD ->] by (split; [tauto | destruct b0; [tauto | done]]).
  assert (¬ blocked h c D w) as Hnb by (intros [?|Hx]; [done | by apply Hb0t in Hx]).
  assert (∃ im, immediate_predecessors h e = Ok im ∧ ∀ x, x ∈ im ↔ imm0 h x w) as (im & Him & Hx).
  { destruct (uo_lc _ Hok w e He) as [Hf Hj _ _].
    destruct (immediate_predecessors_spec h _ Hwf Hf w e) as (im & Him & Hx); [reflexivity | done | done |].
    exists im. split; [done|]. intros x. rewrite Hx. symmetry. apply (imm0_exact h x w e Hwf He).
    by apply (uo_lc _ Hok). }
  destruct (walks_list (rev im)) as (k & b & Hb & Hrun).
  { intros q Hq. assert (imm0 h q w) as Hq0 by (apply Hx, list_elem_of_In; rewrite in_rev; by apply list_elem_of_In).
    apply (imm0_exact h q w e Hwf He (uo_lc _ Hok w e He)) in Hq0 as [Hlt _].
    apply (IH (dep h q)); [by apply causal_lt_dep | done |].
    apply (cf_in h (λ x, causal_le h x w)); [apply (lc_free _ _ _ (uo_lc _ Hok w e He))|].
    apply causal_le_alt. by right. }
  exists (S k), b. split.
  - rewrite Hb. transitivity (blocked_below h c D w).
    + rewrite (blocked_below_unfold w e He Hc Hnb). split; intros (q & Hq & Hbq); exists q; (split; [|done]).
      * apply Hx, list_elem_of_In. rewrite in_rev. by apply list_elem_of_In.
      * apply list_elem_of_In. rewrite <-in_rev. by apply list_elem_of_In, Hx.
    + split; [intros Hbw; exists w; split; [left | done]|]. by intros (x & ->%list_elem_of_singleton & ?).
  - intros fuel W. cbn [alternative_loop Nat.add app].
    rewrite (proj2 (deref_ok h w e) He), bind_Ok_l, (proj2 (N.eqb_neq _ _) Hnr), Hb0.
    rewrite (proj2 (N.eqb_neq (ev_color e) blue)) by (intros E; by apply (Hblue w e He) in E).
    rewrite bind_Ok_l, Him, bind_Ok_l. apply Hrun.
Qed.

(** With enough fuel the walk decides whether [f] is an alternative. *)
Lemma alternative_loop_ok f : is_Some (h !! f) →
  ∃ k b, (b = true ↔ blocked_below h c D f) ∧
    ∀ fuel, k ≤ fuel → alternative_loop h red blue fuel [f] = Ok b.
Proof.
  intros Hf. destruct (walks_event f Hf) as (k & b & Hb & Hrun). exists k, b. split.
  - rewrite Hb. split; [by intros (x & ->%list_elem_of_singleton & ?)|]. intros ?. exists f. split; [left | done].
  - intros fuel Hle. specialize (Hrun (fuel - k) []). rewrite app_nil_r in Hrun.
    replace (k + (fuel - k)) with fuel in Hrun by lia. rewrite Hrun. destruct b; [done|].
    by destruct (fuel - k).
Qed.
End search.

(** ** [compute_alternative] *)

Lemma find_if_ok (test : eid → res bool) (P : eid → Prop) l :
  (∀ x, x ∈ l → ∃ b, test x = Ok b ∧ (b = true ↔ P x)) →
  (∃ l1 x l2, find_if test l = Ok (Some x) ∧ l = l1 ++ x :: l2 ∧ P x ∧ ∀ y, y ∈ l1 → ¬ P y) ∨
  (find_if test l = Ok None ∧ ∀ y, y ∈ l → ¬ P y).
Proof.
  induction l as [|x l IH]; intros Hl; cbn [find_if].
  { right. split; [done|]. by intros y ?%elem_of_nil. }
  destruct (Hl x) as (b & -> & Hb); [left|]. rewrite bind_Ok_l. destruct b.
  { left. exists [], x, l. split_and!; [done | done | by apply Hb |]. by intros y ?%elem_of_nil. }
  assert (¬ P x) by (intros Hx; by apply Hb in Hx).
  destruct IH as [(l1 & y & l2 & Hf & -> & Hy & Hn)|[Hf Hn]]; [intros y Hy; apply Hl; by right| |].
  - left. exists (x :: l1), y, l2. split_and!; [done | done | done |].
    intros z [->|Hz]%elem_of_cons; auto.
  - right. split; [done|]. intros z [->|Hz]%elem_of_cons; auto.
Qed.

Lemma find_if_same (f g : eid → res bool) l : (∀ x, x ∈ l → f x = g x) → find_if f l = find_if g l.
Proof.
  induction l as [|x l IH]; intros Hl; cbn [find_if]; [done|]. rewrite (Hl x) by left.
  destruct (g x) as [[]|]; [done | | done]. apply IH. intros y Hy. apply Hl. by right.
Qed.

Lemma repainted_le h h' x y : repainted h h' → causal_le h x y ↔ causal_le h' x y.
Proof.
  intros Hr. split; apply ext_causal_le, frame_ext, repainted_frame; [done | by symmetry].
Qed.

Lemma repainted_conflicts h h' x y : repainted h h' → conflicts_of h x y ↔ conflicts_of h' x y.
Proof. intros Hr. by apply frame_conflicts, repainted_frame. Qed.

Lemma repainted_blocked h h' c D f : repainted h h' → blocked_below h c D f ↔ blocked_below h' c D f.
Proof.
  intros Hr. unfold blocked_below, blocked. setoid_rewrite (repainted_le h h' _ _ Hr).
  by setoid_rewrite (repainted_conflicts h h' _ _ Hr).
Qed.

Lemma repainted_stored h h' x : repainted h h' → is_Some (h !! x) ↔ is_Some (h' !! x).
Proof. intros Hr. specialize (Hr x). destruct Hr; split; by eauto using is_Some_None. Qed.

(** The events the search may be called with. *)
Record excludes u c D : Prop := {
  xc_ok : uf_ok u;
  xc_colours : colours_used u;
  xc_stored x : x ∈ c → is_Some (uf_heap u !! x);
  xc_closed x y : y ∈ c → causal_le (uf_heap u) x y → x ∈ c;
  xc_D d : d ∈ D → d ∉ c ∧ at_event (uf_heap u) d (λ e, ends_atomic_operation e = false);
}.

(** The result for the excluded event [d]. *)
Definition is_alternative u c D (d : eid) (j : option eid) : Prop :=
  match j with
  | Some f => conflicts_of (uf_heap u) d f ∧ ¬ is_cut (uf_heap u) f ∧ ¬ blocked_below (uf_heap u) c D f
  | None => ∀ f, conflicts_of (uf_heap u) d f → ¬ is_cut (uf_heap u) f → blocked_below (uf_heap u) c D f
  end.

(** The two colours after painting. *)
Lemma paint_both u c D : excludes u c D →
  ∃ u1 u2 red blue, colorize c u = Ok (u1, red) ∧ colorize D u1 = Ok (u2, blue) ∧ uf_ok u2 ∧
    colours_used u2 ∧ repainted (uf_heap u) (uf_heap u2) ∧ uf_root u2 = uf_root u ∧
    ∀ p e, uf_heap u2 !! p = Some e → (ev_color e = red ↔ p ∈ c) ∧ (ev_color e = blue ↔ p ∈ D).
Proof.
  intros [Hok Hu Hc Hcl HD].
  destruct (colorize_ok u c Hc) as (u1 & Hr1 & Hp1).
  pose proof (pw_repainted _ _ _ _ Hp1) as Hre1.
  destruct (colorize_ok u1 D) as (u2 & Hr2 & Hp2).
  { intros d Hd. apply (repainted_stored _ _ d Hre1). destruct (HD d Hd) as [_ (e & ? & _)]. by eauto. }
  pose proof (pw_repainted _ _ _ _ Hp2) as Hre2.
  exists u1, u2, (N.succ (uf_next_color u)), (N.succ (uf_next_color u1)).
  assert (colours_used u1) as Hu1 by (by eapply painted_used).
  split_and!; [done | done | by apply (pw_ok _ _ _ _ Hp2), (pw_ok _ _ _ _ Hp1) | by eapply painted_used
    | by etrans | by rewrite (pw_root _ _ _ _ Hp2), (pw_root _ _ _ _ Hp1) |].
  intros p e He. assert (is_Some (uf_heap u1 !! p)) as Hs1.
  { apply (repainted_stored _ _ p Hre2). by eauto. }
  assert (is_Some (uf_heap u !! p)) as Hs by (by apply (repainted_stored _ _ p Hre1)).
  pose proof (pw_colour _ _ _ _ Hp2 p Hs1) as E2. rewrite (pw_colour _ _ _ _ Hp1 p Hs) in E2.
  unfold colour at 1 in E2. rewrite He in E2. simpl in E2.
  destruct (pw_next _ _ _ _ Hp1) as [_ En]. rewrite En in E2 |- *.
  destruct Hs as [e0 He0]. pose proof (Hu p (ev_color e0)) as Hle.
  assert (colour (uf_heap u) p = Some (ev_color e0)) as Hc0 by (unfold colour; by rewrite He0).
  specialize (Hle Hc0). rewrite Hc0 in E2.
  destruct (decide (p ∈ D)) as [HpD|HpD].
  { injection E2 as ->. destruct (HD p HpD) as [Hn _]. split; split; try tauto; lia. }
  destruct (decide (p ∈ c)) as [Hpc|Hpc]; injection E2 as ->; split; split; try tauto; lia.
Qed.

Lemma exists_bound (P : nat → eid → Prop) l :
  (∀ x k k', P k x → k ≤ k' → P k' x) → (∀ x, x ∈ l → ∃ k, P k x) → ∃ k, ∀ x, x ∈ l → P k x.
Proof.
  intros Hm. induction l as [|x l IH]; intros Hl; [exists 0; by intros x ?%elem_of_nil|].
  destruct (Hl x) as [k1 H1]; [left|]. destruct IH as [k2 H2]; [intros y Hy; apply Hl; by right|].
  exists (k1 + k2). intros y [->|Hy]%elem_of_cons; [eapply Hm; [done | lia]|].
  eapply Hm; [by apply H2 | lia].
Qed.

(** The two searches over a painted unfolding [u2]. *)
Section painted.
Context u u2 c D (red blue : N) (Hx : excludes u c D) (Hok2 : uf_ok u2).
Context (Hre : repainted (uf_heap u) (uf_heap u2)).
Context (Hred : ∀ p e, uf_heap u2 !! p = Some e → ev_color e = red ↔ p ∈ c).
Context (Hblue : ∀ p e, uf_heap u2 !! p = Some e → ev_color e = blue ↔ p ∈ D).

Definition conflicting d : Prop := ∃ y, y ∈ c ∧ conflicts_of (uf_heap u) d y.

Lemma painted_closed x y : y ∈ c → causal_le (uf_heap u2) x y → x ∈ c.
Proof. intros Hy Hle. apply (xc_closed _ _ _ Hx x y Hy). by apply (repainted_le _ _ _ _ Hre). Qed.

Lemma painted_conflicting d e : uf_heap u2 !! d = Some e →
  ∃ b, in_immediate_conflict_with_color (uf_heap u2) d red = Ok b ∧ (b = true ↔ conflicting d).
Proof.
  intros He. destruct (in_conflict_ok u2 c red Hok2 Hred d) as (b & Hb & Hbt); [by eauto|].
  exists b. split; [done|]. rewrite Hbt. unfold conflicting.
  by setoid_rewrite (repainted_conflicts _ _ _ _ Hre).
Qed.

(** The test of the first search. *)
Definition free_test (d : eid) : res bool :=
  ed ← deref (uf_heap u2) d;
  _ ← cassert (negb (ends_atomic_operation ed));
  b ← in_immediate_conflict_with_color (uf_heap u2) d red; Ok (negb b).

Lemma free_test_ok d : d ∈ D → ∃ b, free_test d = Ok b ∧ (b = true ↔ ¬ conflicting d).
Proof.
  intros Hd. destruct (xc_D _ _ _ Hx d Hd) as [_ (e0 & He0 & Ha)].
  destruct (repainted_lookup _ _ d e0 Hre He0) as (e & He & (_ & _ & Hda)%but_colour_fields).
  destruct (painted_conflicting d e He) as (b & Hb & Hbt). unfold free_test.
  rewrite (proj2 (deref_ok _ d e) He), bind_Ok_l. unfold ends_atomic_operation in *. rewrite <-Hda, Ha.
  cbn [negb cassert]. rewrite bind_Ok_l, Hb, bind_Ok_l. exists (negb b). split; [done|].
  rewrite <-Hbt. destruct b; naive_solver.
Qed.

Lemma first_free : (∃ d, d ∈ D ∧ ¬ conflicting d) →
  ∃ D1 d D2 e, find_if free_test D = Ok (Some d) ∧ D = D1 ++ d :: D2 ∧ uf_heap u2 !! d = Some e ∧
    ¬ conflicting d ∧ ∀ x, x ∈ D1 → conflicting x.
Proof.
  intros (d0 & Hd0 & Hf0).
  destruct (find_if_ok free_test (λ d, ¬ conflicting d) D free_test_ok)
    as [(D1 & d & D2 & Hfind & HD & Hd & Hn)|[_ Hn]]; [|by destruct (Hn d0 Hd0)].
  assert (∀ x, x ∈ D → ∃ e, uf_heap u2 !! x = Some e) as Hst.
  { intros x Hxd. destruct (xc_D _ _ _ Hx x Hxd) as [_ (e0 & He0 & _)].
    destruct (repainted_lookup _ _ x e0 Hre He0) as (e & ? & _). by eauto. }
  destruct (Hst d) as [e He]; [rewrite HD; apply elem_of_app; right; left|].
  exists D1, d, D2, e. split_and!; [done..|]. intros x Hx1.
  destruct (Hst x) as [ex Hex]; [rewrite HD; apply elem_of_app; by left|].
  destruct (painted_conflicting x ex Hex) as ([] & _ & Hb); [by apply Hb|].
  destruct (Hn x Hx1). intros Hc. by apply Hb in Hc.
Qed.

(** The test of the second search. *)
Definition alternative_test fuel (f : eid) : res bool :=
  ef ← deref (uf_heap u2) f;
  _ ← cassert (negb (ev_color ef =? red)%N);
  if ev_is_cutoff ef then Ok false
  else b ← alternative_loop (uf_heap u2) red blue fuel [f]; Ok (negb b).

Definition suits f : Prop := ¬ is_cut (uf_heap u) f ∧ ¬ blocked_below (uf_heap u) c D f.

Lemma alternative_test_ok d f : ¬ conflicting d → conflicts_of (uf_heap u2) d f →
  ∃ k b, (b = true ↔ suits f) ∧ (b = false → ¬ is_cut (uf_heap u) f → blocked_below (uf_heap u) c D f) ∧
    ∀ fuel, k ≤ fuel → alternative_test fuel f = Ok b.
Proof.
  intros Hd Hc. destruct (conflict_stored u2 Hok2 d f Hc) as [ef Hef].
  assert (ev_color ef ≠ red) as Hnr.
  { intros E. apply (Hred f ef Hef) in E. apply Hd. exists f. split; [done|].
    by apply (repainted_conflicts _ _ _ _ Hre). }
  destruct (alternative_loop_ok u2 c D red blue Hok2 painted_closed Hred Hblue f)
    as (k & b & Hb & Hrun); [by eauto|].
  assert (is_cut (uf_heap u) f ↔ ev_is_cutoff ef = true) as Hcut.
  { rewrite (repainted_cut _ _ _ Hre). unfold is_cut, at_event. rewrite Hef. naive_solver. }
  rewrite <-(repainted_blocked _ _ _ _ _ Hre) in Hb.
  exists k, (negb (ev_is_cutoff ef) && negb b). split_and!.
  - rewrite andb_true_iff, !negb_true_iff. unfold suits. rewrite Hcut, <-Hb.
    destruct (ev_is_cutoff ef), b; naive_solver.
  - rewrite Hcut, <-Hb. destruct (ev_is_cutoff ef), b; naive_solver.
  - intros fuel Hf. unfold alternative_test. rewrite (proj2 (deref_ok _ f ef) Hef), bind_Ok_l.
    rewrite (proj2 (N.eqb_neq _ _) Hnr). cbn [negb cassert]. rewrite bind_Ok_l, Hrun by done.
    rewrite bind_Ok_l. by destruct (ev_is_cutoff ef).
Qed.

Lemma find_alternative d e : uf_heap u2 !! d = Some e → ¬ conflicting d →
  ∃ j k, is_alternative u c D d j ∧ ∀ fuel, k ≤ fuel →
    find_if (alternative_test fuel) (ev_immediate_conflicts e) = Ok j.
Proof.
  intros He Hd.
  assert (∀ f, f ∈ ev_immediate_conflicts e ↔ conflicts_of (uf_heap u2) d f) as Hcf.
  { intros f. split; [intros Hf; by exists e|]. intros (e' & He' & Hf).
    by assert (e' = e) as -> by congruence. }
  destruct (exists_bound (λ k f, ∃ b, (b = true ↔ suits f) ∧
    (b = false → ¬ is_cut (uf_heap u) f → blocked_below (uf_heap u) c D f) ∧
    ∀ fuel, k ≤ fuel → alternative_test fuel f = Ok b) (ev_immediate_conflicts e)) as [k Hk].
  { intros f k k' (b & Hb & Hb' & Ht) Hle. exists b. split_and!; [done | done |].
    intros fuel Hf. apply Ht. lia. }
  { intros f Hf%Hcf. by apply (alternative_test_ok d). }
  assert (∀ fuel, k ≤ fuel → find_if (alternative_test fuel) (ev_immediate_conflicts e) =
    find_if (alternative_test k) (ev_immediate_conflicts e)) as Hsame.
  { intros fuel Hle. apply find_if_same. intros f Hf. destruct (Hk f Hf) as (b & _ & _ & Ht).
    rewrite (Ht k) by lia. by apply Ht. }
  destruct (find_if_ok (alternative_test k) suits (ev_immediate_conflicts e))
    as [(l1 & f & l2 & Hf & Hl & [Hs1 Hs2] & _)|[Hf Hs]].
  - intros f Hf. destruct (Hk f Hf) as (b & Hb & _ & Ht). exists b. split; [by apply Ht | done].
  - exists (Some f), k. split; [|intros fuel Hle; by rewrite Hsame]. split_and!; [|done|done].
    apply (repainted_conflicts _ _ _ _ Hre), Hcf. rewrite Hl. apply elem_of_app. right. left.
  - exists None, k. split; [|intros fuel Hle; by rewrite Hsame]. intros f Hc Hnc.
    apply (repainted_conflicts _ _ _ _ Hre), Hcf in Hc. destruct (Hk f Hc) as ([] & Hb & Hb' & _); [|by apply Hb'].
    by destruct (Hs f Hc); apply Hb.
Qed.
End painted.

Lemma compute_alternative_ok u c D :
  excludes u c D → (∃ d, d ∈ D ∧ ¬ conflicting u c d) →
  ∃ D1 d D2 u' j k, D = D1 ++ d :: D2 ∧ ¬ conflicting u c d ∧ (∀ x, x ∈ D1 → conflicting u c x) ∧
    (∀ fuel, k ≤ fuel → compute_alternative fuel c D u = Ok (u', j)) ∧
    is_alternative u c D d j ∧
    uf_ok u' ∧ colours_used u' ∧ repainted (uf_heap u) (uf_heap u') ∧ uf_root u' = uf_root u.
Proof.
  intros Hx Hfree. destruct (paint_both u c D Hx) as
    (u1 & u2 & red & blue & Hp1 & Hp2 & Hok2 & Hu2 & Hre & Hroot & Hcol).
  assert (∀ p e, uf_heap u2 !! p = Some e → ev_color e = red ↔ p ∈ c) as Hred by (intros; by apply Hcol).
  assert (∀ p e, uf_heap u2 !! p = Some e → ev_color e = blue ↔ p ∈ D) as Hblue by (intros; by apply Hcol).
  destruct (first_free u u2 c D red blue Hx Hok2 Hre Hred Hblue Hfree) as (D1 & d & D2 & e & Hfind & HD & He & Hd & HD1).
  destruct (find_alternative u u2 c D red blue Hx Hok2 Hre Hred Hblue d e He Hd) as (j & k & Halt & Hj).
  exists D1, d, D2, u2, j, k. split_and!; [done..| | done | done | done | done | done].
  intros fuel Hf. unfold compute_alternative.
  assert (cassert (match D with [] => false | _ => true end) = Ok tt) as -> by (rewrite HD; by destruct D1).
  rewrite bind_Ok_l, Hp1, bind_Ok_l, Hp2, bind_Ok_l. cbv zeta.
  fold (free_test u2 red). rewrite Hfind, bind_Ok_l, (proj2 (deref_ok _ d e) He), bind_Ok_l.
  fold (alternative_test u2 red blue fuel). by rewrite Hj.
Qed.
End alternative.

Section properties.
Context {PL : Payload} {AL : Allocator}.
Implicit Types (u : unfolding) (c : configuration) (D : list eid).

Definition conflicts_with_conf u c (x : eid) : Prop :=
  ∃ y, in_conf u c y ∧ conflicts_of (uf_heap u) x y.

(** C10: in a reachable state [compute_alternative] returns, keeps the unfolding
    but for colours, and looks at the first excluded event [d] without an
    immediate conflict in the configuration. The result is an immediate
    conflict [f] of [d] that is no cutoff and whose causes outside of the
    configuration are neither excluded nor in immediate conflict with it. It
    can then be scheduled: its causes and the configuration together have one
    sequence of events per thread, and dependent events of the two are
    ordered. There is no result only if [d] has no such conflict. *)
Theorem compute_alternative_exact s c D :
  reachable_system s → c ∈ sy_confs s →
  let u := sy_unfolding s in
  colours_used u →
  (∀ d, d ∈ D → ¬ in_conf u c d ∧ at_event (uf_heap u) d (λ e, ends_atomic_operation e = false)) →
  (∃ d, d ∈ D ∧ ¬ conflicts_with_conf u c d) →
  ∃ D1 d D2 u' j k, D = D1 ++ d :: D2 ∧ ¬ conflicts_with_conf u c d ∧
    (∀ x, x ∈ D1 → conflicts_with_conf u c x) ∧
    (∀ fuel, k ≤ fuel → configuration_compute_alternative fuel c D u = Ok (u', j)) ∧
    match j with
    | Some f => conflicts_of (uf_heap u) d f ∧ ¬ is_cut (uf_heap u) f ∧
        (∀ x, causal_le (uf_heap u) x f → ¬ in_conf u c x → x ∉ D ∧ ¬ conflicts_with_conf u c x) ∧
        conflict_free (uf_heap u) (λ x, in_conf u c x ∨ causal_le (uf_heap u) x f) ∧
        ∀ x y ex ey, causal_le (uf_heap u) x f → in_conf u c y →
          uf_heap u !! x = Some ex → uf_heap u !! y = Some ey →
          is_independent_of (uf_heap u) ex ey = Ok false →
          causal_le (uf_heap u) x y ∨ causal_le (uf_heap u) y x
    | None => ∀ f, conflicts_of (uf_heap u) d f → ¬ is_cut (uf_heap u) f →
        ∃ x, causal_le (uf_heap u) x f ∧ ¬ in_conf u c x ∧ (x ∈ D ∨ conflicts_with_conf u c x)
    end ∧
    uf_ok u' ∧ colours_used u' ∧ repainted (uf_heap u) (uf_heap u') ∧ uf_root u' = uf_root u.
Proof.
  intros Hs Hcs u Hcol HD Hfree. pose proof (reachable_ok s Hs c Hcs) as Hcd.
  pose proof (reachable_separated s Hs) as Hsep. destruct (id Hcd) as [Hco Hsz Hne]. pose proof (conf_uf u c Hco) as Hok.
  destruct (events_spec u c Hco Hne) as (l & Hl & _ & Hx).
  assert (∀ d, conflicting u l d ↔ conflicts_with_conf u c d) as Hconf.
  { intros d. unfold conflicting, conflicts_with_conf. by setoid_rewrite Hx. }
  destruct (compute_alternative_ok u l D) as
    (D1 & d & D2 & u' & j & k & HD' & Hd & HD1 & Hrun & Halt & Hrest).
  - split; [apply Hco | done | | |].
    + intros x ?%Hx. by apply (conf_stored u c Hco).
    + intros x y Hy%Hx Hle. apply Hx. by eapply (conf_le u c Hco).
    + intros x Hxd. rewrite Hx. by apply HD.
  - destruct Hfree as (d & Hd & Hf). exists d. by rewrite Hconf.
  - exists D1, d, D2, u', j, k. split_and!; try apply Hrest; [done | by rewrite <-Hconf | | |].
    + intros x ?%HD1. by apply Hconf.
    + intros fuel Hf. unfold configuration_compute_alternative. rewrite Hl, bind_Ok_l. by apply Hrun.
    + destruct j as [f|]; simpl in Halt.
      * destruct Halt as (Hc & Hcut & Hb).
        assert (∀ x, causal_le (uf_heap u) x f → ¬ in_conf u c x →
          x ∉ D ∧ ¬ conflicts_with_conf u c x) as Hfit.
        { intros x Hle Hn. assert (¬ blocked (uf_heap u) l D x) as Hnb
            by (intros Hbl; apply Hb; exists x; by rewrite Hx).
          rewrite <-Hconf. split; intros ?; apply Hnb; [by left | by right]. }
        assert (∀ x, causal_le (uf_heap u) x f → ¬ in_conf u c x → ¬ conflicts_with_conf u c x) as Hfit'
          by (intros x Hle Hn; by apply Hfit).
        split_and!; [done | done | done | |].
        -- apply fitting_free; [done..|]. by apply (conflict_stored u Hok d f).
        -- intros x y ex ey. by apply fitting_ordered.
      * intros f Hc Hcut. destruct (Halt f Hc Hcut) as (x & Hle & Hn & Hb). exists x.
        rewrite Hx in Hn. rewrite <-Hconf. done.
Qed.
End properties.

(** ** Two threads that race for a lock *)

Ltac by_compute := refine (bool_decide_eq_true_1 _ _); vm_compute; reflexivity.

Definition t2 : thread_id := [1%N; 1%N].

(** The configuration before the lock is taken, in an unfolding that has the
    acquisition by [t1] and the one by [t2]: each is done in a configuration
    of its own. *)
Definition race : res (unfolding * list configuration) :=
  '(u, c) ← checked_run 1 [CreateThread t1 t2; InitThread t2 t1; CreateLock t1 1];
  '(u1, c1, _) ← perform (AcquireLock t1 1) u c;
  '(u2, c2, _) ← perform (AcquireLock t2 1) u1 (copy_configuration 3 (copy_configuration 2 c));
  Ok (u2, [c1; copy_configuration 2 c; c2]).

Lemma race_reachable u cs : race = Ok (u, cs) → reachable_system (System u cs).
Proof.
  unfold race. intros H. apply bind_ok in H as ([u0 c0] & H0 & H).
  apply bind_ok in H as ([[u1 c1] e1] & H1 & H). apply bind_ok in H as ([[u2 c2] f2] & H2 & H).
  injection H as <- <-.
  destruct (checked_run_reachable 1 [CreateThread t1 t2; InitThread t2 t1; CreateLock t1 1] u0 c0)
    as (s0 & Hi & Hr); [lia | done | exact H0|].
  exists s0. split; [done|]. etrans; [exact Hr|].
  eapply rtc_l; [apply (step_copy u0 [c0] 0 c0 2); reflexivity|].
  eapply rtc_l; [by apply (step_operation u0 _ 0 c0 (AcquireLock t1 1) u1 c1 e1)|].
  eapply rtc_l; [apply (step_copy u1 _ 1 (copy_configuration 2 c0) 3); reflexivity|].
  apply rtc_once.
  apply (step_operation u1 [c1; copy_configuration 2 c0; copy_configuration 3 (copy_configuration 2 c0)]
    2 (copy_configuration 3 (copy_configuration 2 c0)) (AcquireLock t2 1) u2 c2 f2); [reflexivity | done | exact H2].
Qed.

Definition race_state : system := match race with Ok (u, cs) => System u cs | Err _ => System (new_unfolding 0) [] end.
Definition race_unfolding : unfolding := sy_unfolding race_state.
Definition race_configuration : configuration :=
  default (Configuration 1 [] [] [] [] [] [] 0 0) (sy_confs race_state !! 1).

Lemma race_reached : reachable_system race_state.
Proof.
  assert (match race with Ok _ => true | Err _ => false end = true) as Hr by (vm_compute; reflexivity).
  unfold race_state. destruct race as [[u cs]|] eqn:Hrace; [by apply race_reachable | discriminate Hr].
Qed.

Lemma race_configured : race_configuration ∈ sy_confs race_state.
Proof.
  apply list_elem_of_lookup. exists 1. unfold race_configuration.
  assert (bool_decide (is_Some (sy_confs race_state !! 1)) = true) as Hs by (vm_compute; reflexivity).
  apply bool_decide_eq_true in Hs as [c Hc]. by rewrite Hc.
Qed.

Definition race_events : list eid :=
  match configuration_events race_unfolding race_configuration with Ok l => l | Err _ => [] end.

Lemma race_in x : in_conf race_unfolding race_configuration x ↔ x ∈ race_events.
Proof.
  destruct (reachable_ok _ race_reached _ race_configured) as [Hco _ Hne].
  destruct (events_spec _ _ Hco Hne) as (l & Hl & _ & Hx). unfold race_events, race_unfolding. by rewrite Hl.
Qed.

Lemma colours_used_b u :
  all_events (uf_heap u) (λ e, (ev_color e <=? uf_next_color u)%N) = true → colours_used u.
Proof.
  intros Ha p q Hp. unfold colour in Hp. apply fmap_Some in Hp as (e & He & ->).
  apply (all_events_spec _ _ p e Ha) in He. by apply N.leb_le.
Qed.

Definition conflicts_of_b (h : heap) (x y : eid) : bool :=
  match h !! x with Some e => bool_decide (y ∈ ev_immediate_conflicts e) | None => false end.

Lemma conflicts_of_b_spec h x y : conflicts_of h x y ↔ conflicts_of_b h x y = true.
Proof.
  unfold conflicts_of, at_event, conflicts_of_b. destruct (h !! x) as [e|].
  - rewrite bool_decide_eq_true. naive_solver.
  - naive_solver.
Qed.

Lemma race_free : ¬ conflicts_with_conf race_unfolding race_configuration 6.
Proof.
  intros (y & Hy%race_in & Hc%conflicts_of_b_spec).
  assert (forallb (λ y, negb (conflicts_of_b (uf_heap race_unfolding) 6 y)) race_events = true) as Hf
    by (vm_compute; reflexivity).
  rewrite forallb_forall in Hf. apply list_elem_of_In, Hf in Hy. rewrite Hc in Hy. discriminate Hy.
Qed.

(** The alternative to the acquisition by [t1] is the one by [t2]. *)
Lemma compute_alternative_exact_witness :
  ∃ u' k, (∀ fuel, k ≤ fuel → configuration_compute_alternative fuel race_configuration [6%N]
      race_unfolding = Ok (u', Some 7%N)) ∧
    conflict_free (uf_heap race_unfolding) (λ x, in_conf race_unfolding race_configuration x ∨
      causal_le (uf_heap race_unfolding) x 7%N).
Proof.
  destruct (compute_alternative_exact race_state race_configuration [6%N])
    as (D1 & d & D2 & u' & j & k & HD & _ & _ & Hrun & Hj & _).
  - exact race_reached.
  - exact race_configured.
  - apply colours_used_b. vm_compute. reflexivity.
  - intros d ->%list_elem_of_singleton. split.
    + rewrite race_in. by_compute.
    + destruct (uf_heap race_unfolding !! 6%N) as [e|] eqn:He; [|exfalso; vm_compute in He; discriminate He].
      exists e. split; [done|]. vm_compute in He. injection He as <-. reflexivity.
  - exists 6%N. split; [by left | exact race_free].
  - assert (j = Some 7%N) as ->.
    { specialize (Hrun (k + 10) ltac:(lia)).
      assert (∀ n, 10 ≤ n → ∃ v, configuration_compute_alternative n race_configuration [6%N]
        race_unfolding = Ok (v, Some 7%N)) as Hc.
      { intros n Hn. do 10 (destruct n as [|n]; [lia|]). vm_compute. eexists. reflexivity. }
      destruct (Hc (k + 10) ltac:(lia)) as [v Hv]. unfold race_unfolding in Hv. congruence. }
    exists u', k. split; [exact Hrun | apply Hj].
Defined.
