(* ===== verification/Node.v ===== *)
(** * The exploration tree ([include/por/node.h], [lib/Por/node.cpp])

    A node stands for a prefix of an execution. Its left child continues
    with the event of the node, its right child explores executions without
    that event. Nodes and the configurations they share are kept in stores
    by address; a configuration no node refers to any more stays in its
    store, which nothing can observe. The execution states of the executor
    are opaque. *)

From stdpp Require Import base tactics list gmap numbers.
From S2P Require Import Prelude StdMap ThreadId Event Comb Cone Alloc Unfolding Configuration Cex.
From S2P Require Import System.

Abbreviation nid := N (only parsing).

Section node.
Context {PL : Payload} {AL : Allocator} {St : Type}.

Record node := Node {
  nd_parent : option nid;
  nd_event : option eid;
  nd_C : option N;
  nd_standby_state : option St;
  nd_D : list eid;
  nd_left : option nid;
  nd_right : option nid;
  nd_is_sweep_node : bool;
}.

Record leaf := Leaf { lf_start : nid; lf_catch_up : list eid }.

(** The nodes, the shared configurations, the unfolding, and the next unused
    address. *)
Record tree := Tree {
  tr_nodes : gmap nid node;
  tr_confs : gmap N configuration;
  tr_unfolding : unfolding;
  tr_next : N;
}.

Implicit Types (t : tree) (n : nid) (nd : node).

Abbreviation tr_heap t := (uf_heap (tr_unfolding t)).

Definition node_at t n : res node := nonnull (tr_nodes t !! n).
Definition conf_at t (a : N) : res configuration := nonnull (tr_confs t !! a).

(** ** Assignments to members *)

Definition set_node t n nd : tree :=
  Tree (<[n := nd]> (tr_nodes t)) (tr_confs t) (tr_unfolding t) (tr_next t).

Definition with_event nd (e : eid) : node :=
  Node (nd_parent nd) (Some e) (nd_C nd) (nd_standby_state nd) (nd_D nd) (nd_left nd)
    (nd_right nd) (nd_is_sweep_node nd).
Definition with_C nd (a : option N) : node :=
  Node (nd_parent nd) (nd_event nd) a (nd_standby_state nd) (nd_D nd) (nd_left nd)
    (nd_right nd) (nd_is_sweep_node nd).
Definition with_standby nd (s : option St) : node :=
  Node (nd_parent nd) (nd_event nd) (nd_C nd) s (nd_D nd) (nd_left nd) (nd_right nd)
    (nd_is_sweep_node nd).
Definition with_left nd (l : option nid) : node :=
  Node (nd_parent nd) (nd_event nd) (nd_C nd) (nd_standby_state nd) (nd_D nd) l (nd_right nd)
    (nd_is_sweep_node nd).
Definition with_right nd (r : option nid) : node :=
  Node (nd_parent nd) (nd_event nd) (nd_C nd) (nd_standby_state nd) (nd_D nd) (nd_left nd) r
    (nd_is_sweep_node nd).
Definition with_sweep nd (b : bool) : node :=
  Node (nd_parent nd) (nd_event nd) (nd_C nd) (nd_standby_state nd) (nd_D nd) (nd_left nd)
    (nd_right nd) b.

Definition upd_node t n (f : node → node) : res tree :=
  nd ← node_at t n; Ok (set_node t n (f nd)).

(** [std::make_shared<por::configuration>(c)]. *)
Definition new_conf t (c : configuration) : tree * N :=
  let a := tr_next t in
  (Tree (tr_nodes t) (<[a := copy_configuration a c]> (tr_confs t)) (tr_unfolding t) (N.succ a), a).

(** [std::make_unique<node>]. *)
Definition new_node t nd : tree * nid :=
  let n := tr_next t in
  (Tree (<[n := nd]> (tr_nodes t)) (tr_confs t) (tr_unfolding t) (N.succ n), n).

(** The root constructor; the configuration has one startup thread. *)
Definition new_tree (garbage : N) : res (tree * nid) :=
  '(u, c) ← new_configuration garbage 1;
  Ok (Tree {[ 2%N := Node None None (Some 1%N) None [] None None true ]} {[ 1%N := c ]} u 3, 2%N).

(** ** Queries *)

Definition has_children nd : bool :=
  bool_decide (is_Some (nd_left nd)) || bool_decide (is_Some (nd_right nd)).

Definition is_left_child t n : res bool :=
  nd ← node_at t n;
  match nd_parent nd with
  | None => Ok true
  | Some p => pd ← node_at t p; Ok (bool_decide (nd_left pd = Some n))
  end.

Definition is_right_child t n : res bool :=
  nd ← node_at t n;
  match nd_parent nd with
  | None => Ok true
  | Some p => pd ← node_at t p; Ok (bool_decide (nd_right pd = Some n))
  end.

(** A child is stored at a higher address than its parent. *)
Definition path_fuel t : nat := N.to_nat (tr_next t).

(** [node_branch_iterator::operator++]. *)
Fixpoint branch_next t (fuel : nat) (n : option nid) : res (option nid) :=
  match n with
  | None => Ok None
  | Some n =>
      right ← is_right_child t n;
      nd ← node_at t n;
      if (right : bool) then
        match fuel with
        | O => Err OutOfFuel
        | S fuel' => branch_next t fuel' (nd_parent nd)
        end
      else Ok (nd_parent nd)
  end.

(** The sequence of [branch_begin()], [branch_end()]. *)
Fixpoint branch_from t (fuel : nat) (n : option nid) : res (list nid) :=
  match n with
  | None => Ok []
  | Some n =>
      match fuel with
      | O => Err OutOfFuel
      | S fuel' =>
          next ← branch_next t (path_fuel t) (Some n);
          rest ← branch_from t fuel' next;
          Ok (n :: rest)
      end
  end.

Definition branch t n : res (list nid) := branch_from t (path_fuel t) (Some n).

(** The event member of the second node of the branch. *)
Definition last_included_event t n : res (option eid) :=
  nd ← node_at t n;
  match nd_parent nd with
  | None => Ok (nd_event nd)
  | Some _ =>
      next ← branch_next t (path_fuel t) (Some n);
      m ← nonnull next;
      md ← node_at t m;
      Ok (nd_event md)
  end.

Definition rschedule t n : res (list eid) :=
  nd ← node_at t n;
  b ← branch t n;
  sched ← for_each (λ sched m,
            _ ← cassert (negb (m =? n)%N);
            md ← node_at t m;
            match nd_event md with
            | None => Err AssertFailed
            | Some e => Ok (sched ++ [e])
            end) [] (tail b);
  a ← nonnull (nd_C nd);
  _ ← conf_at t a;
  Ok (sched ++ [uf_root (tr_unfolding t)]).

Definition schedule t n : res (list eid) := l ← rschedule t n; Ok (rev l).

Fixpoint standby_distance t (fuel : nat) (n : nid) (result : nat) : res nat :=
  nd ← node_at t n;
  match nd_parent nd, nd_standby_state nd with
  | Some p, None =>
      match fuel with
      | O => Err OutOfFuel
      | S fuel' => standby_distance t fuel' p (S result)
      end
  | _, _ => Ok result
  end.

Definition distance_to_last_standby_state t n : res nat := standby_distance t (path_fuel t) n 0.

(** ** Children *)

Definition allocate_left_child t n : res (tree * nid) :=
  nd ← node_at t n;
  match nd_C nd with
  | Some a =>
      c ← conf_at t a;
      let '(t, a') := new_conf t c in
      Ok (new_node t (Node (Some n) None (Some a') None (nd_D nd) None None false))
  | None => Ok (new_node t (Node (Some n) None None None (nd_D nd) None None false))
  end.

Definition allocate_right_child t n (D : list eid) : res (tree * nid) :=
  nd ← node_at t n;
  Ok (new_node t (Node (Some n) None (nd_C nd) None D None None false)).

(** The assertions at the start of every [make_left_child]. *)
Definition assert_no_left nd : res unit :=
  _ ← cassert (negb (bool_decide (is_Some (nd_left nd))));
  cassert (negb (bool_decide (is_Some (nd_event nd)))).

(** [_left->_is_sweep_node = _is_sweep_node; _is_sweep_node = false]. *)
Definition propagate_sweep t n (l : nid) : res tree :=
  nd ← node_at t n;
  t ← upd_node t l (λ ld, with_sweep ld (nd_is_sweep_node nd));
  upd_node t n (λ nd, with_sweep nd false).

(** [make_left_child(event)]: a node without configuration. *)
Definition make_left_child_event t n (event : eid) : res (tree * nid) :=
  nd ← node_at t n;
  _ ← assert_no_left nd;
  '(t, l) ← allocate_left_child t n;
  t ← upd_node t n (λ nd, with_left nd (Some l));
  t ← upd_node t l (λ ld, with_C ld None);
  t ← upd_node t n (λ nd, with_event nd event);
  t ← propagate_sweep t n l;
  Ok (t, l).

(** [ex.configuration = c; c->commit(std::move(ex))] on a stored configuration. *)
Definition commit_at t (x : extension) (a : N) : res (tree * eid) :=
  c ← conf_at t a;
  '(u, c', p) ← commit (Extension (ex_event x) a (ex_index x)) (tr_unfolding t) c;
  Ok (Tree (tr_nodes t) (<[a := c']> (tr_confs t)) u (tr_next t), p).

Definition make_left_child t n (x : extension) (standby : option St) : res (tree * nid) :=
  nd ← node_at t n;
  _ ← assert_no_left nd;
  '(t, l) ← allocate_left_child t n;
  t ← upd_node t n (λ nd, with_left nd (Some l));
  ld ← node_at t l;
  a ← match nd_C ld with Some a => Ok a | None => Err AssertFailed end;
  _ ← cassert (bool_decide (nd_C nd = Some (ex_configuration x)));
  '(t, event) ← commit_at t x a;
  t ← upd_node t n (λ nd, with_event nd event);
  t ← (if bool_decide (is_Some standby) then upd_node t l (λ ld, with_standby ld standby)
       else Ok t);
  t ← propagate_sweep t n l;
  Ok (t, l).

(** [make_left_child(standby)], for the [thread_init] of the main thread. *)
Definition make_left_child_init t n (standby : option St) : res (tree * nid) :=
  nd ← node_at t n;
  _ ← assert_no_left nd;
  a ← match nd_C nd with Some a => Ok a | None => Err AssertFailed end;
  c ← conf_at t a;
  _ ← cassert (Nat.eqb (cf_size c) 2);
  _ ← cassert (bool_decide (nd_D nd = []));
  '(t, l) ← allocate_left_child t n;
  t ← upd_node t n (λ nd, with_left nd (Some l));
  ld ← node_at t l;
  la ← nonnull (nd_C ld);
  lc ← conf_at t la;
  _ ← cassert (Nat.eqb (cf_size lc) 2);
  event ← in_range (list.head (smap_vals (cf_thread_heads c)));
  t ← upd_node t n (λ nd, with_event nd event);
  e ← deref (tr_heap t) event;
  _ ← cassert (kind_eqb (ev_kind e) thread_init);
  t ← upd_node t l (λ ld, with_standby ld standby);
  Ok (t, l).

Definition make_right_child t n : res (tree * nid) :=
  nd ← node_at t n;
  _ ← cassert (negb (bool_decide (is_Some (nd_right nd))));
  event ← match nd_event nd with Some e => Ok e | None => Err AssertFailed end;
  '(t, r) ← allocate_right_child t n (nd_D nd ++ [event]);
  t ← upd_node t n (λ nd, with_right nd (Some r));
  t ← upd_node t r (λ rd, with_standby rd (nd_standby_state nd));
  Ok (t, r).

Definition make_right_local_child t n (x : extension) (standby : option St) : res (tree * nid) :=
  nd ← node_at t n;
  event ← match nd_event nd with Some e => Ok e | None => Err AssertFailed end;
  e ← deref (tr_heap t) event;
  _ ← cassert (kind_eqb (ev_kind e) local);
  '(t, r) ← make_right_child t n;
  make_left_child t r x standby.

(** ** Catching up *)

(** [while(n->_event != event && n->_event != nullptr) n = n->right_child()]. *)
Fixpoint find_branching t (fuel : nat) (event : eid) (n : nid) : res nid :=
  nd ← node_at t n;
  match nd_event nd with
  | None => Ok n
  | Some e =>
      if bool_decide (e = event) then Ok n
      else
        match fuel with
        | O => Err OutOfFuel
        | S fuel' => r ← nonnull (nd_right nd); find_branching t fuel' event r
        end
  end.

(** [n->_C = std::make_shared<...>(std::move(copy))] unless [_C] is set. *)
Definition adopt_configuration t (l : nid) (copy : configuration) : res tree :=
  ld ← node_at t l;
  match nd_C ld with
  | None => let '(t, a) := new_conf t copy in upd_node t l (λ ld, with_C ld (Some a))
  | Some a =>
      lc ← conf_at t a;
      _ ← cassert (Nat.eqb (cf_size copy) (cf_size lc));
      Ok t
  end.

(** Replays [next]; no node is returned when another event happened. *)
Definition node_catch_up t n (x : extension) (standby : option St) (next : eid)
    : res (tree * option nid) :=
  nd ← node_at t n;
  a ← nonnull (nd_C nd);
  c ← conf_at t a;
  let '(t, copy) := new_conf t c in
  '(t, event) ← commit_at t x copy;
  if negb (bool_decide (next = event)) then Ok (t, None)
  else
    m ← find_branching t (path_fuel t) event n;
    md ← node_at t m;
    _ ← cassert (bool_decide (nd_event md = Some event));
    l ← match nd_left md with Some l => Ok l | None => Err AssertFailed end;
    cc ← conf_at t copy;
    t ← adopt_configuration t l cc;
    ld ← node_at t l;
    t ← (if bool_decide (is_Some standby) && negb (bool_decide (is_Some (nd_standby_state ld)))
         then upd_node t l (λ ld, with_standby ld standby) else Ok t);
    Ok (t, Some l).

(** ** Right branches *)

(** [map.emplace(pred, event)] keeps the first event of a predecessor. *)
Definition extract_atomic_pairs (h : heap) (A : comb) : res (comb * smap eid eid) :=
  map ← for_each (λ map e,
          ee ← deref h e;
          Ok (if ends_atomic_operation ee then
                match atomic_predecessor ee with
                | Some pred => smap_emplace pred e map
                | None => map
                end
              else map)) [] (comb_events A);
  A ← for_each (λ A '(_, v), comb_remove h v A) A map;
  Ok (A, map).

(** The loop that inserts after an event of [min] the event that ends the
    atomic operation it starts. *)
Fixpoint insert_atomic (fuel : nat) (min : list eid) (pairs : smap eid eid)
    : res (list eid * smap eid eid) :=
  match min with
  | [] => Ok ([], pairs)
  | e :: rest =>
      match fuel with
      | O => Err OutOfFuel
      | S fuel' =>
          '(r, pairs') ←
            match smap_find e pairs with
            | Some v => insert_atomic fuel' (v :: rest) (smap_erase e pairs)
            | None => insert_atomic fuel' rest pairs
            end;
          Ok (e :: r, pairs')
      end
  end.

(** [while(!A.empty())]: the minimal events of [A] become left children. *)
Fixpoint branch_loop t (fuel : nat) (A : comb) (pairs : smap eid eid) n (catch_up : list eid)
    : res (tree * list eid) :=
  if comb_empty A then Ok (t, catch_up)
  else
    match fuel with
    | O => Err OutOfFuel
    | S fuel' =>
        A ← comb_sort (tr_heap t) A;
        min ← comb_min (tr_heap t) A;
        '(min, pairs) ← insert_atomic (length min + length pairs) min pairs;
        '(t, n, catch_up) ← for_each (λ '(t, n, catch_up) a,
            '(t, l) ← make_left_child_event t n a;
            ld ← node_at t l;
            p ← nonnull (nd_parent ld);
            pd ← node_at t p;
            _ ← cassert (bool_decide (nd_event pd = Some a));
            Ok (t, l, catch_up ++ [a])) (t, n, catch_up) min;
        A ← comb_remove_range (tr_heap t) min A;
        branch_loop t fuel' A pairs n catch_up
    end.

(** The closest node with a standby state. *)
Fixpoint find_standby t (fuel : nat) (s : nid) : res nid :=
  sd ← node_at t s;
  match nd_standby_state sd, nd_parent sd with
  | None, Some p =>
      match fuel with O => Err OutOfFuel | S fuel' => find_standby t fuel' p end
  | _, _ => Ok s
  end.

(** The events of a reversed schedule after [s_last], oldest first. *)
Fixpoint events_until (s_last : option eid) (rsched : list eid) (catch_up : list eid) : list eid :=
  match rsched with
  | [] => catch_up
  | r :: rest =>
      if bool_decide (Some r = s_last) then catch_up else events_until s_last rest (r :: catch_up)
  end.

Definition make_right_branch t n (A : comb) : res (tree * leaf) :=
  nd ← node_at t n;
  _ ← cassert (bool_decide (is_Some (nd_event nd)));
  _ ← cassert (bool_decide (is_Some (nd_parent nd)));
  '(t, r) ← make_right_child t n;
  s ← find_standby t (path_fuel t) n;
  s_last ← last_included_event t s;
  sched ← rschedule t n;
  let catch_up := events_until s_last sched [] in
  '(A, pairs) ← extract_atomic_pairs (tr_heap t) A;
  '(t, catch_up) ← branch_loop t (comb_size A) A pairs r catch_up;
  Ok (t, Leaf s catch_up).

(** The successor of kind [succ_kind] of every event of kind [kind]. *)
Definition atomic_successors_of (h : heap) (kind succ_kind : event_kind) (l : list eid)
    : res (list eid) :=
  for_each (λ acc e,
    ee ← deref h e;
    if kind_eqb (ev_kind ee) kind then
      found ← find_if (λ succ, es ← deref h succ; Ok (kind_eqb (ev_kind es) succ_kind))
                (ev_successors ee);
      Ok (acc ++ option_list found)
    else Ok acc) [] l.

(** [A := [j] \ C], with the events that end atomic operations of [A]. *)
Definition alternative_events (h : heap) (j : eid) (c : configuration) : res comb :=
  J ← cone_of_pred h j;
  A ← setminus h J (cone_of_configuration c);
  exits ← atomic_successors_of h lock_release thread_exit (comb_events A);
  inits ← atomic_successors_of h thread_create thread_init (comb_events A);
  for_each (λ A e, comb_insert h e A) A (exits ++ inits).

(** The kinds that have no immediate conflicts. *)
Definition assert_branching e : res unit :=
  _ ← cassert (negb (kind_eqb (ev_kind e) thread_create));
  _ ← cassert (negb (kind_eqb (ev_kind e) thread_init));
  _ ← cassert (negb (kind_eqb (ev_kind e) thread_exit));
  _ ← cassert (negb (kind_eqb (ev_kind e) lock_release));
  cassert (negb (ends_atomic_operation e)).

(** The body of the loop of [create_right_branches]; [fuel] bounds the search
    for an alternative. *)
Definition create_right_branch (fuel : nat) t n : res (tree * option leaf) :=
  nd ← node_at t n;
  if bool_decide (is_Some (nd_right nd)) then Ok (t, None)
  else
    event ← nonnull (nd_event nd);
    e ← deref (tr_heap t) event;
    if bool_decide (ev_immediate_conflicts e = []) then Ok (t, None)
    else
      _ ← assert_branching e;
      if kind_eqb (ev_kind e) local then Ok (t, None)
      else
        a ← match nd_C nd with Some a => Ok a | None => Err AssertFailed end;
        cfg ← conf_at t a;
        '(u, j) ← configuration_compute_alternative fuel cfg (nd_D nd ++ [event])
                    (tr_unfolding t);
        let t := Tree (tr_nodes t) (tr_confs t) u (tr_next t) in
        match j with
        | None => Ok (t, None)
        | Some j =>
            A ← alternative_events (tr_heap t) j cfg;
            '(t, l) ← make_right_branch t n A;
            Ok (t, Some l)
        end.

(** [B.front()->configuration().size() - 1]. *)
Definition branch_size t (B : list nid) : res nat :=
  front ← in_range (list.head B);
  fd ← node_at t front;
  a ← match nd_C fd with Some a => Ok a | None => Err AssertFailed end;
  c ← conf_at t a;
  Ok (cf_size c - 1).

Definition create_right_branches (fuel : nat) t (B : list nid) : res (tree * list leaf) :=
  complete ← match B with
             | [] => Ok true
             | _ => size ← branch_size t B; Ok (Nat.eqb (length B) size)
             end;
  if negb complete then Ok (t, [])
  else
    '(t, leaves) ← for_each (λ '(t, leaves) n,
        '(t, l) ← create_right_branch fuel t n; Ok (t, leaves ++ option_list l)) (t, []) B;
    _ ← match B with
        | [] => Ok tt
        | _ => size ← branch_size t B; cassert (Nat.eqb (length B) size)
        end;
    Ok (t, leaves).

(** ** Removing nodes *)

Definition delete_node t n : tree :=
  Tree (delete n (tr_nodes t)) (tr_confs t) (tr_unfolding t) (tr_next t).

(** [p->_left.reset()] or [p->_right.reset()] for a child without children. *)
Definition remove_child t (p : option nid) n : res tree :=
  match p with
  | None => Ok t
  | Some p =>
      pd ← node_at t p;
      if bool_decide (nd_left pd = Some n) then
        t ← upd_node t p (λ pd, with_left pd None); Ok (delete_node t n)
      else if bool_decide (nd_right pd = Some n) then
        t ← upd_node t p (λ pd, with_right pd None); Ok (delete_node t n)
      else Ok t
  end.

(** [p->_right.reset()] or [p->_left.reset()] in the destructor. The node has
    no children, and its parent does not hold it any more when its own
    destructor runs, which therefore does nothing. *)
Definition reset_in_parent t n : res tree :=
  nd ← node_at t n;
  right ← is_right_child t n;
  left ← is_left_child t n;
  match nd_parent nd with
  | None => Ok t
  | Some p =>
      if (right : bool) then
        t ← upd_node t p (λ pd, with_right pd None); Ok (delete_node t n)
      else if (left : bool) then
        t ← upd_node t p (λ pd, with_left pd None); Ok (delete_node t n)
      else Ok t
  end.

(** The post-order traversal of [~node]; the head of [S] is its top. *)
Fixpoint destroy_loop t (fuel : nat) (S : list nid) (n last : option nid) : res tree :=
  match n, S with
  | None, [] => Ok t
  | _, _ =>
      match fuel with
      | O => Err OutOfFuel
      | Datatypes.S fuel' =>
          match n, S with
          | Some m, _ =>
              md ← node_at t m;
              destroy_loop t fuel' (m :: S) (nd_left md) last
          | None, [] => Ok t
          | None, c :: S' =>
              cd ← node_at t c;
              if bool_decide (is_Some (nd_right cd)) && negb (bool_decide (last = nd_right cd))
              then destroy_loop t fuel' S (nd_right cd) last
              else
                _ ← cassert (negb (has_children cd));
                t ← reset_in_parent t c;
                destroy_loop t fuel' S' None (Some c)
          end
      end
  end.

(** [~node()], called for the root. *)
Definition destroy t n : res tree :=
  destroy_loop t (3 * size (tr_nodes t)) [] (Some n) None.

Fixpoint leftmost t (fuel : nat) n : res nid :=
  nd ← node_at t n;
  match nd_left nd with
  | None => Ok n
  | Some l => match fuel with O => Err OutOfFuel | S fuel' => leftmost t fuel' l end
  end.

Definition update_sweep_bit t n : res tree :=
  nd ← node_at t n;
  _ ← cassert (bool_decide (nd_left nd = None) && bool_decide (is_Some (nd_right nd)));
  r ← nonnull (nd_right nd);
  m ← leftmost t (path_fuel t) r;
  t ← upd_node t m (λ md, with_sweep md true);
  nd ← node_at t n;
  _ ← cassert (negb (nd_is_sweep_node nd));
  Ok t.

(** [while(n && !n->has_children())]. *)
Fixpoint remove_childless t (fuel : nat) (n : option nid) : res (tree * option nid) :=
  match n with
  | None => Ok (t, None)
  | Some m =>
      md ← node_at t m;
      if has_children md then Ok (t, Some m)
      else
        match fuel with
        | O => Err OutOfFuel
        | S fuel' =>
            t ← remove_child t (nd_parent md) m;
            remove_childless t fuel' (nd_parent md)
        end
  end.

Definition backtrack t n : res tree :=
  nd ← node_at t n;
  _ ← cassert (negb (has_children nd));
  if negb (nd_is_sweep_node nd) then Ok t
  else
    '(t, m) ← remove_childless t (S (path_fuel t)) (Some n);
    match m with
    | None => Ok t
    | Some m => update_sweep_bit t m
    end.
End node.

Abbreviation tr_heap t := (uf_heap (tr_unfolding t)).
