(* ===== verification/NodeInv.v ===== *)
(** * The invariant of the exploration tree

    Children point back to their parents and are younger, a right child
    shares the configuration of its parent, and the configuration of a left
    child has exactly one more event, the event of its parent. *)

From stdpp Require Import base tactics list gmap numbers relations.
From S2P Require Import Prelude StdMap ThreadId Event Comb CombEnum CombProofs Cone Alloc Causality.
From S2P Require Import AllocProofs HeapExt Order Walks Demo Independence Unfolding Configuration.
From S2P Require Import Cex ColorProofs UnfoldingProofs DedupProofs Scenario Dependence Heads.
From S2P Require Import Booking ConfInv OpBase OpProofs OpCond Startup System Node.

Section invariant.
Context {PL : Payload} {AL : Allocator} {St : Type}.
Implicit Types (t : tree (St := St)) (n l m r : nid) (nd ld rd : node (St := St)).
Implicit Types (u : unfolding) (c : configuration).

(** The events a node has executed; the root counts [program_init] only,
    although its configuration has the first event of the main thread too. *)
Definition executed r u n c (x : eid) : Prop :=
  if decide (n = r) then x = uf_root u else in_conf u c x.

Definition conf_of t nd c : Prop := ∃ a, nd_C nd = Some a ∧ tr_confs t !! a = Some c.

Record left_of r t n nd l ld : Prop := {
  lo_parent : nd_parent ld = Some n;
  lo_younger : (n < l)%N;
  lo_D : nd_D ld = nd_D nd;
  lo_event : is_Some (nd_event nd);
  lo_conf c' e : conf_of t ld c' → nd_event nd = Some e →
    ∃ c, conf_of t nd c ∧ ¬ executed r (tr_unfolding t) n c e ∧
      ∀ x, in_conf (tr_unfolding t) c' x ↔ x = e ∨ executed r (tr_unfolding t) n c x;
}.

Record right_of t n nd m rd : Prop := {
  ro_parent : nd_parent rd = Some n;
  ro_younger : (n < m)%N;
  ro_event : ∃ e, nd_event nd = Some e ∧ nd_D rd = nd_D nd ++ [e];
  ro_conf : nd_C rd = nd_C nd ∧ is_Some (nd_C nd);
}.

Record conf_entry t (a : N) c : Prop := {
  ce_bound : (a < tr_next t)%N;
  ce_addr : cf_addr c = a;
  ce_ok : configured (tr_unfolding t) c;
}.

Record tree_ok r t : Prop := {
  to_root : ∃ rd, tr_nodes t !! r = Some rd ∧ nd_parent rd = None ∧ nd_right rd = None ∧
    is_Some (nd_C rd);
  to_bound n nd : tr_nodes t !! n = Some nd → (n < tr_next t)%N;
  to_confs a c : tr_confs t !! a = Some c → conf_entry t a c;
  to_conf n nd a : tr_nodes t !! n = Some nd → nd_C nd = Some a → is_Some (tr_confs t !! a);
  to_parent n nd : tr_nodes t !! n = Some nd → n ≠ r → ∃ p pd, nd_parent nd = Some p ∧
    tr_nodes t !! p = Some pd ∧ (nd_left pd = Some n ∨ nd_right pd = Some n);
  to_left n nd l : tr_nodes t !! n = Some nd → nd_left nd = Some l →
    ∃ ld, tr_nodes t !! l = Some ld ∧ left_of r t n nd l ld;
  to_right n nd m : tr_nodes t !! n = Some nd → nd_right nd = Some m →
    ∃ rd, tr_nodes t !! m = Some rd ∧ right_of t n nd m rd;
  to_disjoint n nd l : tr_nodes t !! n = Some nd → nd_left nd = Some l → nd_right nd ≠ Some l;
  to_leaf n nd : tr_nodes t !! n = Some nd → nd_event nd = None →
    nd_left nd = None ∧ nd_right nd = None;
}.

Lemma ok_parent_lt r t n nd p : tree_ok r t → tr_nodes t !! n = Some nd → nd_parent nd = Some p →
  (p < n)%N ∧ n ≠ r ∧ is_Some (tr_nodes t !! p).
Proof.
  intros Hok Hn Hp. assert (n ≠ r) as Hne.
  { intros ->. destruct (to_root _ _ Hok) as (rd & ? & ? & _). congruence. }
  destruct (to_parent _ _ Hok n nd Hn Hne) as (p' & pd & Hp' & Hpd & Hor).
  assert (p' = p) as -> by congruence. split_and!; [|done|by eauto]. destruct Hor as [Hl|Hr].
  - by destruct (to_left _ _ Hok p pd n Hpd Hl) as (? & ? & []).
  - by destruct (to_right _ _ Hok p pd n Hpd Hr) as (? & ? & []).
Qed.

Lemma ok_parent_some r t n nd : tree_ok r t → tr_nodes t !! n = Some nd → n ≠ r →
  is_Some (nd_parent nd).
Proof. intros Hok Hn Hne. destruct (to_parent _ _ Hok n nd Hn Hne) as (? & ? & ? & _). by eauto. Qed.

Lemma ok_no_parent r t n nd : tree_ok r t → tr_nodes t !! n = Some nd → nd_parent nd = None → n = r.
Proof.
  intros Hok Hn Hp. destruct (decide (n = r)) as [|Hne]; [done|].
  destruct (to_parent _ _ Hok n nd Hn Hne) as (? & ? & ? & _). congruence.
Qed.

Lemma ok_conf_of r t n nd a : tree_ok r t → tr_nodes t !! n = Some nd → nd_C nd = Some a →
  ∃ c, tr_confs t !! a = Some c ∧ conf_of t nd c ∧ conf_entry t a c.
Proof.
  intros Hok Hn Ha. destruct (to_conf _ _ Hok n nd a Hn Ha) as [c Hc].
  exists c. split_and!; [done | by exists a | by apply (to_confs _ _ Hok)].
Qed.

Lemma conf_of_inj t nd c c' : conf_of t nd c → conf_of t nd c' → c = c'.
Proof. intros (a & ? & ?) (a' & ? & ?). congruence. Qed.

(** ** What operations leave alone *)

(** Configurations are kept up to their extension counters, the unfolding is
    extended, addresses are used up. *)
Record tree_ext t t' : Prop := {
  te_next : (tr_next t ≤ tr_next t')%N;
  te_confs a c : tr_confs t !! a = Some c → ∃ c', tr_confs t' !! a = Some c' ∧
    cf_thread_heads c' = cf_thread_heads c;
  te_heap : heap_ext (tr_heap t) (tr_heap t');
  te_root : uf_root (tr_unfolding t') = uf_root (tr_unfolding t);
}.

Lemma in_conf_heads u c c' x :
  cf_thread_heads c' = cf_thread_heads c → in_conf u c' x ↔ in_conf u c x.
Proof. unfold in_conf. by intros ->. Qed.

Lemma ext_in_conf t t' c x :
  tree_ext t t' → configured (tr_unfolding t) c →
  in_conf (tr_unfolding t') c x ↔ in_conf (tr_unfolding t) c x.
Proof. intros Hx Hc. apply kept_in; [apply Hc | apply Hx..]. Qed.

Lemma ext_executed r t t' n c x :
  tree_ext t t' → configured (tr_unfolding t) c →
  executed r (tr_unfolding t') n c x ↔ executed r (tr_unfolding t) n c x.
Proof.
  intros Hx Hc. unfold executed. destruct (decide (n = r)); [by rewrite (te_root _ _ Hx)|].
  by apply ext_in_conf.
Qed.

Lemma executed_heads r u n c c' x :
  cf_thread_heads c' = cf_thread_heads c → executed r u n c' x ↔ executed r u n c x.
Proof. intros Hh. unfold executed. destruct (decide (n = r)); [done | by apply in_conf_heads]. Qed.

Lemma ext_conf_of r t t' n nd c :
  tree_ok r t → tree_ext t t' → tr_nodes t !! n = Some nd → conf_of t' nd c →
  ∃ c0, conf_of t nd c0 ∧ cf_thread_heads c = cf_thread_heads c0 ∧ configured (tr_unfolding t) c0.
Proof.
  intros Hok Hx Hn (a & Ha & Hc). destruct (ok_conf_of r t n nd a Hok Hn Ha) as (c0 & Hc0 & Hof & He).
  exists c0. split_and!; [done | | apply He].
  destruct (te_confs _ _ Hx a c0 Hc0) as (c' & ? & ?). congruence.
Qed.

Lemma conf_of_ext t t' nd c : tree_ext t t' → conf_of t nd c →
  ∃ c', conf_of t' nd c' ∧ cf_thread_heads c' = cf_thread_heads c.
Proof.
  intros Hx (a & Ha & Hc). destruct (te_confs _ _ Hx a c Hc) as (c' & ? & ?).
  exists c'. split; [by exists a | done].
Qed.

(** Nodes that agree in all members but the standby state and the sweep bit. *)
Record same_shape nd nd' : Prop := {
  ss_parent : nd_parent nd' = nd_parent nd;
  ss_event : nd_event nd' = nd_event nd;
  ss_C : nd_C nd' = nd_C nd;
  ss_D : nd_D nd' = nd_D nd;
  ss_left : nd_left nd' = nd_left nd;
  ss_right : nd_right nd' = nd_right nd;
}.

#[export] Instance same_shape_equiv : Equivalence same_shape.
Proof.
  split; [intros ?; by split | by intros ?? []; split | intros ??? [] []; split; by etrans].
Qed.

(** The members of a node that its children and that its parent refer to. *)
Definition same_above nd nd' : Prop :=
  nd_event nd' = nd_event nd ∧ nd_C nd' = nd_C nd ∧ nd_D nd' = nd_D nd.
Definition same_below nd nd' : Prop :=
  nd_parent nd' = nd_parent nd ∧ nd_C nd' = nd_C nd ∧ nd_D nd' = nd_D nd.

Lemma same_shape_above nd nd' : same_shape nd nd' → same_above nd nd'.
Proof. by intros []. Qed.
Lemma same_shape_below nd nd' : same_shape nd nd' → same_below nd nd'.
Proof. by intros []. Qed.

Lemma conf_of_eq t nd nd' c : nd_C nd' = nd_C nd → conf_of t nd' c ↔ conf_of t nd c.
Proof. unfold conf_of. by intros ->. Qed.

Lemma ext_left_of r t t' n nd nd' l ld ld' :
  tree_ok r t → tree_ext t t' → same_above nd nd' → same_below ld ld' →
  tr_nodes t !! l = Some ld → left_of r t n nd l ld → left_of r t' n nd' l ld'.
Proof.
  intros Hok Hx (Ee & Ec & Ed) (Fp & Fc & Fd) Hl [H1 H2 H3 H4 H5]. split.
  - by rewrite Fp.
  - done.
  - by rewrite Ed, Fd.
  - by rewrite Ee.
  - intros c' e Hc' He. rewrite Ee in He. apply (conf_of_eq _ _ _ _ Fc) in Hc'.
    destruct (ext_conf_of r t t' l ld c' Hok Hx Hl Hc') as (c0' & Hc0' & Hh' & Hcd').
    destruct (H5 c0' e Hc0' He) as (c0 & Hc0 & Hne & Hin).
    destruct (conf_of_ext t t' nd c0 Hx Hc0) as (c & Hc & Hh).
    assert (configured (tr_unfolding t) c0) as Hcd.
    { destruct Hc0 as (a & _ & Ha). by apply (to_confs _ _ Hok a). }
    exists c. split; [by apply (conf_of_eq _ _ _ _ Ec)|]. split.
    + rewrite (executed_heads r _ n c0 c e Hh), (ext_executed r t t') by done. done.
    + intros x. rewrite (in_conf_heads _ c0' c' x Hh'), (ext_in_conf t t') by done.
      by rewrite Hin, (executed_heads r _ n c0 c x Hh), (ext_executed r t t').
Qed.

Lemma ext_right_of t t' n nd nd' m rd rd' :
  same_above nd nd' → same_below rd rd' → right_of t n nd m rd → right_of t' n nd' m rd'.
Proof.
  intros (Ee & Ec & Ed) (Fp & Fc & Fd) [H1 H2 H3 H4]. split; by rewrite ?Ee, ?Ec, ?Ed, ?Fp, ?Fc, ?Fd.
Qed.

(** ** Steps that keep the invariant *)

(** Only standby states, sweep bits, counters and the unfolding change. *)
Lemma ok_frame r t t' :
  tree_ok r t → tree_ext t t' →
  (∀ a c, tr_confs t' !! a = Some c → conf_entry t' a c) →
  (∀ n nd', tr_nodes t' !! n = Some nd' → ∃ nd, tr_nodes t !! n = Some nd ∧ same_shape nd nd') →
  (∀ n nd, tr_nodes t !! n = Some nd → ∃ nd', tr_nodes t' !! n = Some nd' ∧ same_shape nd nd') →
  tree_ok r t'.
Proof.
  intros Hok Hx Hce Hbw Hfw. split.
  - destruct (to_root _ _ Hok) as (rd & Hr & H1 & H2 & H3). destruct (Hfw r rd Hr) as (rd' & Hr' & []).
    exists rd'. split_and!; congruence.
  - intros n nd' Hn'. destruct (Hbw n nd' Hn') as (nd & Hn & _).
    pose proof (to_bound _ _ Hok n nd Hn). pose proof (te_next _ _ Hx). lia.
  - done.
  - intros n nd' a Hn' Ha. destruct (Hbw n nd' Hn') as (nd & Hn & Hs).
    rewrite (ss_C _ _ Hs) in Ha. destruct (to_conf _ _ Hok n nd a Hn Ha) as [c Hc].
    destruct (te_confs _ _ Hx a c Hc) as (c' & ? & _). by eauto.
  - intros n nd' Hn' Hne. destruct (Hbw n nd' Hn') as (nd & Hn & Hs).
    destruct (to_parent _ _ Hok n nd Hn Hne) as (p & pd & Hp & Hpd & Hor).
    destruct (Hfw p pd Hpd) as (pd' & Hpd' & Hsp). exists p, pd'.
    by rewrite (ss_parent _ _ Hs), (ss_left _ _ Hsp), (ss_right _ _ Hsp).
  - intros n nd' l Hn' Hl. destruct (Hbw n nd' Hn') as (nd & Hn & Hs). rewrite (ss_left _ _ Hs) in Hl.
    destruct (to_left _ _ Hok n nd l Hn Hl) as (ld & Hld & Hlo).
    destruct (Hfw l ld Hld) as (ld' & Hld' & Hsl). exists ld'. split; [done|].
    eapply (ext_left_of r t t' n nd nd' l ld ld');
      eauto using same_shape_above, same_shape_below.
  - intros n nd' m Hn' Hm. destruct (Hbw n nd' Hn') as (nd & Hn & Hs). rewrite (ss_right _ _ Hs) in Hm.
    destruct (to_right _ _ Hok n nd m Hn Hm) as (rd & Hrd & Hro).
    destruct (Hfw m rd Hrd) as (rd' & Hrd' & Hsr). exists rd'. split; [done|].
    eapply ext_right_of; eauto using same_shape_above, same_shape_below.
  - intros n nd' l Hn'. destruct (Hbw n nd' Hn') as (nd & Hn & Hs).
    rewrite (ss_left _ _ Hs), (ss_right _ _ Hs). by apply (to_disjoint _ _ Hok n).
  - intros n nd' Hn'. destruct (Hbw n nd' Hn') as (nd & Hn & Hs).
    rewrite (ss_event _ _ Hs), (ss_left _ _ Hs), (ss_right _ _ Hs). by apply (to_leaf _ _ Hok n).
Qed.

(** The nodes do not change at all. *)
Lemma ok_same_nodes r t t' :
  tree_ok r t → tree_ext t t' → tr_nodes t' = tr_nodes t →
  (∀ a c, tr_confs t' !! a = Some c → conf_entry t' a c) → tree_ok r t'.
Proof.
  intros Hok Hx En Hce. apply (ok_frame r t); [done | done | done | |]; rewrite En;
    intros n nd Hn; exists nd; (split; [done | reflexivity]).
Qed.

(** A new child [k] of [n]: the other nodes keep their shape. *)
Record new_child t t' n k nd nd' kd : Prop := {
  nc_ext : tree_ext t t';
  nc_confs a c : tr_confs t' !! a = Some c → conf_entry t' a c;
  nc_node : tr_nodes t !! n = Some nd;
  nc_new : (tr_next t ≤ k)%N ∧ (k < tr_next t')%N;
  nc_parent : nd_parent nd' = nd_parent nd ∧ nd_C nd' = nd_C nd ∧ nd_D nd' = nd_D nd;
  nc_child : nd_parent kd = Some n ∧ nd_event kd = None ∧ nd_left kd = None ∧ nd_right kd = None;
  nc_child_conf a : nd_C kd = Some a → is_Some (tr_confs t' !! a);
  nc_nodes m : tr_nodes t' !! m =
    if decide (m = k) then Some kd else if decide (m = n) then Some nd' else tr_nodes t !! m;
}.

Section new_child.
Context r t t' n k nd nd' kd (Hok : tree_ok r t) (Hnc : new_child t t' n k nd nd' kd).

Lemma new_child_unused m md : tr_nodes t !! m = Some md → m ≠ k.
Proof.
  intros Hm ->. pose proof (to_bound _ _ Hok k md Hm). destruct (nc_new _ _ _ _ _ _ _ Hnc). lia.
Qed.

Lemma new_child_old m md : tr_nodes t !! m = Some md →
  ∃ md', tr_nodes t' !! m = Some md' ∧ same_below md md' ∧ (m = n ∧ md' = nd' ∨ m ≠ n ∧ md' = md).
Proof.
  intros Hm. rewrite (nc_nodes _ _ _ _ _ _ _ Hnc).
  rewrite decide_False by (by eapply new_child_unused).
  destruct (decide (m = n)) as [->|Hne].
  - exists nd'. assert (md = nd) as -> by (pose proof (nc_node _ _ _ _ _ _ _ Hnc); congruence).
    split_and!; [done | apply Hnc | by left].
  - exists md. split_and!; [done | by split_and! | by right].
Qed.

Lemma new_child_inv m md' : tr_nodes t' !! m = Some md' →
  (m = k ∧ md' = kd) ∨ (m = n ∧ md' = nd') ∨ (m ≠ n ∧ m ≠ k ∧ tr_nodes t !! m = Some md').
Proof.
  rewrite (nc_nodes _ _ _ _ _ _ _ Hnc). destruct (decide (m = k)); [naive_solver|].
  destruct (decide (m = n)); naive_solver.
Qed.

Lemma new_child_left m md l : m ≠ n → tr_nodes t !! m = Some md → nd_left md = Some l →
  ∃ ld, tr_nodes t' !! l = Some ld ∧ left_of r t' m md l ld.
Proof.
  intros Hne Hm Hl. destruct (to_left _ _ Hok m md l Hm Hl) as (ld & Hld & Hlo).
  destruct (new_child_old l ld Hld) as (ld' & Hld' & Hb & _). exists ld'. split; [done|].
  eapply (ext_left_of r t t'); [done | apply Hnc | by split_and! | done | done | done].
Qed.

Lemma new_child_right m md s : m ≠ n → tr_nodes t !! m = Some md → nd_right md = Some s →
  ∃ rd, tr_nodes t' !! s = Some rd ∧ right_of t' m md s rd.
Proof.
  intros Hne Hm Hs. destruct (to_right _ _ Hok m md s Hm Hs) as (rd & Hrd & Hro).
  destruct (new_child_old s rd Hrd) as (rd' & Hrd' & Hb & _). exists rd'. split; [done|].
  eapply ext_right_of; [by split_and! | done | done].
Qed.

(** What is left to show concerns [n] and its children. *)
Lemma ok_new_child :
  (nd_left nd' = Some k ∨ nd_right nd' = Some k) →
  (∀ l, nd_left nd = Some l → nd_left nd' = Some l) →
  (∀ s, nd_right nd = Some s → nd_right nd' = Some s) →
  (n = r → nd_right nd' = None) →
  (nd_left nd' ≠ None → nd_right nd' ≠ None → nd_left nd' ≠ nd_right nd') →
  is_Some (nd_event nd') →
  (∀ l, nd_left nd' = Some l → ∃ ld, tr_nodes t' !! l = Some ld ∧ left_of r t' n nd' l ld) →
  (∀ s, nd_right nd' = Some s → ∃ rd, tr_nodes t' !! s = Some rd ∧ right_of t' n nd' s rd) →
  tree_ok r t'.
Proof.
  intros Hk Hkl Hkr Hroot Hdis Hev Hleft Hright.
  destruct (nc_parent _ _ _ _ _ _ _ Hnc) as (Hp & HC & HD). pose proof (nc_ext _ _ _ _ _ _ _ Hnc) as Hx.
  destruct (nc_child _ _ _ _ _ _ _ Hnc) as (Kp & Ke & Kl & Kr).
  assert (k ≠ r) as Hkr'.
  { destruct (to_root _ _ Hok) as (rd & Hr & _). intros E. by apply (new_child_unused r rd Hr). }
  split.
  - destruct (to_root _ _ Hok) as (rd & Hr & H1 & H2 & H3).
    destruct (new_child_old r rd Hr) as (rd' & Hr' & (E1 & E2 & E3) & Hor). exists rd'.
    split_and!; [done | congruence | | by rewrite E2].
    destruct Hor as [[E ->]|[_ ->]]; auto.
  - intros m md' [[-> ->]|[[-> ->]|(_ & _ & Hm)]]%new_child_inv; [apply Hnc| |].
    + pose proof (to_bound _ _ Hok n nd (nc_node _ _ _ _ _ _ _ Hnc)). pose proof (te_next _ _ Hx). lia.
    + pose proof (to_bound _ _ Hok m md' Hm). pose proof (te_next _ _ Hx). lia.
  - apply Hnc.
  - intros m md' a Hm Ha. assert (∀ m md, tr_nodes t !! m = Some md → nd_C md = Some a →
      is_Some (tr_confs t' !! a)) as Hold.
    { intros m0 md0 Hm0 Ha0. destruct (to_conf _ _ Hok m0 md0 a Hm0 Ha0) as [c Hc].
      destruct (te_confs _ _ Hx a c Hc) as (c' & ? & _). by eauto. }
    apply new_child_inv in Hm as [[-> ->]|[[-> ->]|(_ & _ & Hm)]];
      [by eapply nc_child_conf | eapply (Hold n nd); [apply Hnc | congruence] | by eapply Hold].
  - intros m md' Hm Hne. assert (∀ m md, tr_nodes t !! m = Some md → m ≠ r → ∃ p pd,
      nd_parent md = Some p ∧ tr_nodes t' !! p = Some pd ∧
      (nd_left pd = Some m ∨ nd_right pd = Some m)) as Hold.
    { intros m0 md0 Hm0 Hne0. destruct (to_parent _ _ Hok m0 md0 Hm0 Hne0) as (p & pd & Hpp & Hpd & Hor).
      destruct (new_child_old p pd Hpd) as (pd' & Hpd' & _ & Hcase). exists p, pd'. split_and!; [done..|].
      destruct Hcase as [[-> ->]|[_ ->]]; [|done].
      assert (pd = nd) as -> by (pose proof (nc_node _ _ _ _ _ _ _ Hnc); congruence). naive_solver. }
    apply new_child_inv in Hm as [[-> ->]|[[-> ->]|(_ & _ & Hm)]].
    + exists n, nd'. split_and!; [done | | done]. rewrite (nc_nodes _ _ _ _ _ _ _ Hnc).
      rewrite decide_False, decide_True by (done || by eapply new_child_unused, Hnc). done.
    + destruct (Hold n nd) as (p & pd & ? & ? & ?); [apply Hnc | done |]. exists p, pd. by rewrite Hp.
    + by apply Hold.
  - intros m md' l [[-> ->]|[[-> ->]|(? & ? & Hm)]]%new_child_inv Hl; [congruence | auto|].
    by apply new_child_left.
  - intros m md' s [[-> ->]|[[-> ->]|(? & ? & Hm)]]%new_child_inv Hs; [congruence | auto|].
    by apply new_child_right.
  - intros m md' l [[-> ->]|[[-> ->]|(? & ? & Hm)]]%new_child_inv Hl; [congruence | |].
    + intros Hr. by apply Hdis; congruence.
    + by apply (to_disjoint _ _ Hok m).
  - intros m md' [[-> ->]|[[-> ->]|(? & ? & Hm)]]%new_child_inv He; [done | |].
    + rewrite He in Hev. by destruct Hev.
    + by apply (to_leaf _ _ Hok m).
Qed.
End new_child.
End invariant.
