(* ===== verification/NodeOps.v ===== *)
(** * The operations on the tree keep its invariant *)

From stdpp Require Import base tactics list gmap numbers relations.
From S2P Require Import Prelude StdMap ThreadId Event Comb CombEnum CombProofs Cone Alloc Causality.
From S2P Require Import AllocProofs HeapExt Order Walks Demo Independence Unfolding Configuration.
From S2P Require Import Cex ColorProofs UnfoldingProofs DedupProofs Scenario Dependence Heads.
From S2P Require Import Booking ConfInv OpBase OpProofs OpCond Startup System Node NodeInv.

(** ** Committing to a copy *)

Section copies.
Context {PL : Payload} {AL : Allocator}.
Implicit Types (u : unfolding) (c : configuration).

Lemma update_heads_addr h p e c c' : update_heads h p e c = Ok c' → cf_addr c' = cf_addr c.
Proof.
  unfold update_heads. intros H. destruct (ev_kind e); res_inv; try done;
    repeat match goal with |- context [match ?x with _ => _ end] => destruct x end; done.
Qed.

Lemma commit_addr x u c u' c' p : commit x u c = Ok (u', c', p) → cf_addr c' = cf_addr c.
Proof.
  unfold commit. intros H. apply bind_ok in H as (_ & _ & H).
  apply bind_ok in H as ([[u1 unk] q] & _ & H). apply bind_ok in H as (e & _ & H).
  apply bind_ok in H as (c1 & Hc1 & H). apply update_heads_addr in Hc1.
  injection H as <- <- <-. done.
Qed.

Lemma copy_ok u c a : conf_ok u c → conf_ok u (copy_configuration a c).
Proof.
  intros [H1 H2 [] H4 H5 H6 H7 H8 H9 H10 H11 H12 H13 H14 H15 H16 H17 H18 H19]. by split.
Qed.

Lemma copy_committable u c a e : committable u c e → committable u (copy_configuration a c) e.
Proof. intros []. by split. Qed.

Lemma copy_configured u c a : configured u c → configured u (copy_configuration a c).
Proof. intros [H1 H2 H3]. split; [by apply copy_ok | done | done]. Qed.

Lemma ex_configured u c c' o x :
  configured u c → admissible u c o → apply_op (uf_heap u) c o = Ok (c', x) →
  configured u c' ∧ cf_thread_heads c' = cf_thread_heads c ∧ cf_addr c' = cf_addr c ∧
    cf_size c' = cf_size c ∧ ex_configuration x = cf_addr c.
Proof.
  intros [Hco Hsz Hne] Ha Hop.
  destruct (apply_op_proposes u c o Hco Ha c' x Hop) as [_ Hx].
  injection Hx as Hc' Hx'. rewrite Hx', Hc'. cbn.
  split_and!; try done. split; [exact (conf_ok_ex u c (ex_event x) Hco) | done | done].
Qed.

(** An extension that [c'] handed out, committed to a copy of [c']. *)
Lemma commit_copied u c o c' x a :
  conf_ok u c → admissible u c o → apply_op (uf_heap u) c o = Ok (c', x) →
  ∃ u'' c'' p,
    commit (Extension (ex_event x) a (ex_index x)) u (copy_configuration a c') = Ok (u'', c'', p) ∧
    performed u c u'' c'' p ∧ cf_addr c'' = a ∧
    at_event (uf_heap u'') p (same_core (ex_event x)).
Proof.
  intros Hco Ha Hop. destruct (apply_op_proposes u c o Hco Ha c' x Hop) as [Hcm Hx].
  injection Hx as Hc' Hx'. set (e := ex_event x) in *.
  assert (conf_ok u (copy_configuration a c')) as Hco'
    by (rewrite Hc'; by apply copy_ok, (conf_ok_ex u c e)).
  assert (committable u (copy_configuration a c') e) as Hcm'
    by (rewrite Hc'; by apply copy_committable, (committable_ex u c e e)).
  destruct (commit_spec u (copy_configuration a c') (Extension e a (ex_index x)))
    as (u'' & c'' & p & Hcom & Hok & Hext & Hat & Hnew & Hin & Hsz & Hroot);
    [done | done | done | by rewrite Hx', Hc' |].
  exists u'', c'', p.
  assert (∀ y, in_conf u (copy_configuration a c') y ↔ in_conf u c y) as Hsame
    by (intros y; by rewrite Hc').
  split_and!; [done | | by apply commit_addr in Hcom | done].
  split; try done.
  - by rewrite <-Hsame.
  - intros y. by rewrite Hin, Hsame.
  - rewrite Hsz, Hc'. done.
Qed.
End copies.

(** ** Reading and writing nodes *)

Section ops.
Context {PL : Payload} {AL : Allocator} {St : Type}.
Implicit Types (t : tree (St := St)) (n l m r : nid) (nd ld rd : node (St := St)).
Implicit Types (u : unfolding) (c : configuration).

Lemma node_at_ok t n nd : tr_nodes t !! n = Some nd → node_at t n = Ok nd.
Proof. unfold node_at. by intros ->. Qed.

Lemma node_at_inv t n nd : node_at t n = Ok nd → tr_nodes t !! n = Some nd.
Proof. unfold node_at. destruct (tr_nodes t !! n); simpl; congruence. Qed.

Lemma conf_at_ok t a c : tr_confs t !! a = Some c → conf_at t a = Ok c.
Proof. unfold conf_at. by intros ->. Qed.

Lemma conf_at_inv t a c : conf_at t a = Ok c → tr_confs t !! a = Some c.
Proof. unfold conf_at. destruct (tr_confs t !! a); simpl; congruence. Qed.

Lemma upd_node_ok t n nd f : tr_nodes t !! n = Some nd → upd_node t n f = Ok (set_node t n (f nd)).
Proof. intros Hn. unfold upd_node. by rewrite (node_at_ok t n nd Hn), bind_Ok_l. Qed.

Lemma set_node_eq t n nd : tr_nodes (set_node t n nd) !! n = Some nd.
Proof. apply lookup_insert_eq. Qed.

Lemma set_node_ne t n nd m : n ≠ m → tr_nodes (set_node t n nd) !! m = tr_nodes t !! m.
Proof. apply lookup_insert_ne. Qed.

Lemma new_node_lookup t nd m :
  tr_nodes (new_node t nd).1 !! m = if decide (m = tr_next t) then Some nd else tr_nodes t !! m.
Proof.
  unfold new_node. simpl. destruct (decide (m = tr_next t)) as [->|Hne];
    [apply lookup_insert_eq | by apply lookup_insert_ne].
Qed.

(** The parent and the child after a left child was made. *)
Definition left_parent nd l (e : eid) : node (St := St) :=
  Node (nd_parent nd) (Some e) (nd_C nd) (nd_standby_state nd) (nd_D nd) (Some l) (nd_right nd) false.
Definition left_node nd n (C : option N) (standby : option St) : node (St := St) :=
  Node (Some n) None C standby (nd_D nd) None None (nd_is_sweep_node nd).

Lemma assert_no_left_ok nd : nd_left nd = None → nd_event nd = None → assert_no_left nd = Ok tt.
Proof. intros Hl He. unfold assert_no_left. by rewrite Hl, He. Qed.

(** Looks up a node in a chain of updates. *)
Ltac node_lookup :=
  cbn; repeat first [rewrite lookup_insert_eq | rewrite lookup_insert_ne by (done || lia)];
  first [reflexivity | eassumption].

(** Runs reads and writes of nodes. *)
Ltac node_run :=
  repeat first [ rewrite bind_Ok_l
               | erewrite upd_node_ok by node_lookup
               | erewrite node_at_ok by node_lookup ].

Ltac node_cases :=
  intros; cbn; rewrite ?lookup_insert; repeat case_decide; subst; try congruence; try lia; try done.

(** The part of the invariant that does not concern nodes. *)
Definition confs_ok t : Prop := ∀ a c, tr_confs t !! a = Some c → conf_entry t a c.

Lemma new_conf_ext r t c :
  tree_ok r t → configured (tr_unfolding t) c → tree_ext t (new_conf t c).1 ∧
    confs_ok (new_conf t c).1.
Proof.
  intros Hok Hc. assert (tr_confs t !! tr_next t = None) as Hnone.
  { destruct (tr_confs t !! tr_next t) as [c0|] eqn:E; [|done].
    pose proof (ce_bound _ _ _ (to_confs _ _ Hok _ _ E)). lia. }
  split.
  - split; cbn; [lia | | done | done]. intros a c0 Ha. exists c0.
    rewrite lookup_insert_ne by congruence. done.
  - intros a c' Ha. cbn in Ha. rewrite lookup_insert in Ha. case_decide.
    + injection Ha as <-. subst a. split; cbn; [lia | done | by apply copy_configured].
    + destruct (to_confs _ _ Hok a c' Ha) as [H1 H2 H3]. split; cbn; [lia | done | done].
Qed.

Lemma tree_ext_refl t : tree_ext t t.
Proof. split; [lia | eauto | done | done]. Qed.

Lemma same_confs t t1 t' :
  tree_ext t t1 → confs_ok t1 → (tr_next t1 ≤ tr_next t')%N → tr_confs t' = tr_confs t1 →
  tr_unfolding t' = tr_unfolding t1 → tree_ext t t' ∧ confs_ok t'.
Proof.
  intros [H1 H2 H3 H4] Hce Hn Hc Hu. split.
  - split; [lia | by rewrite Hc | by rewrite Hu | by rewrite Hu].
  - intros a c. rewrite Hc. intros Ha. destruct (Hce a c Ha) as [E1 E2 E3].
    split; [lia | done | by rewrite Hu].
Qed.

Lemma make_left_child_event_eq r t n nd e :
  tree_ok r t → tr_nodes t !! n = Some nd → nd_event nd = None →
  ∃ t' l, make_left_child_event t n e = Ok (t', l) ∧
    new_child t t' n l nd (left_parent nd l e) (left_node nd n None None) ∧
    tr_unfolding t' = tr_unfolding t.
Proof.
  intros Hok Hn He. destruct (to_leaf _ _ Hok n nd Hn He) as [Hl Hr].
  pose proof (to_bound _ _ Hok n nd Hn) as Hb.
  unfold make_left_child_event, propagate_sweep.
  rewrite (node_at_ok t n nd Hn), bind_Ok_l, assert_no_left_ok, bind_Ok_l by done.
  unfold allocate_left_child. rewrite (node_at_ok t n nd Hn), bind_Ok_l.
  destruct (nd_C nd) as [a|] eqn:HC.
  - destruct (ok_conf_of r t n nd a Hok Hn HC) as (c & Hc & _ & Hce).
    rewrite (conf_at_ok t a c Hc), bind_Ok_l.
    destruct (new_conf_ext r t c Hok (ce_ok _ _ _ Hce)) as [Hx Hce'].
    unfold new_conf, new_node in *. cbn [tr_nodes tr_confs tr_unfolding tr_next fst snd] in *.
    node_run. do 2 eexists. split; [reflexivity|]. split; [|done].
    edestruct (same_confs t) as [Hx' Hce'']; [exact Hx | exact Hce' | | | |
      split; cbn; [exact Hx' | exact Hce'' | done | lia | by rewrite HC | done | done | node_cases]];
      cbn; [lia | done | done].
  - unfold new_node. rewrite bind_Ok_l. node_run. do 2 eexists. split; [reflexivity|].
    split; [|done]. edestruct (same_confs t t) as [Hx' Hce''];
      [apply tree_ext_refl | exact (to_confs _ _ Hok) | | | |
      split; cbn; [exact Hx' | exact Hce'' | done | lia | by rewrite HC | done | done | node_cases]];
      cbn; [lia | done | done].
Qed.

(** A new left child whose configuration, if any, has the event in addition. *)
Lemma ok_left_child r t t' n l nd nd' kd e :
  tree_ok r t → nd_event nd = None → new_child t t' n l nd nd' kd →
  nd_event nd' = Some e → nd_left nd' = Some l → nd_right nd' = nd_right nd → nd_D kd = nd_D nd →
  (∀ a, nd_C kd = Some a → ∃ c c', conf_of t' nd c ∧ tr_confs t' !! a = Some c' ∧
    ¬ executed r (tr_unfolding t') n c e ∧
    ∀ x, in_conf (tr_unfolding t') c' x ↔ x = e ∨ executed r (tr_unfolding t') n c x) →
  tree_ok r t'.
Proof.
  intros Hok He Hnc He' Hl' Hr' HD Hconf. pose proof (nc_node _ _ _ _ _ _ _ Hnc) as Hn.
  destruct (to_leaf _ _ Hok n nd Hn He) as [Hl Hr]. destruct (nc_parent _ _ _ _ _ _ _ Hnc) as (_ & HC & HD').
  apply (ok_new_child r t t' n l nd nd' kd Hok Hnc); rewrite ?Hl, ?Hl', ?Hr', ?Hr, ?He';
    [by left | done | done | done | done | by eauto | | done].
  intros l' [= <-]. exists kd. split; [by rewrite (nc_nodes _ _ _ _ _ _ _ Hnc), decide_True|].
  split; [apply Hnc | | congruence | rewrite He'; by eauto |].
  - pose proof (to_bound _ _ Hok n nd Hn). destruct (nc_new _ _ _ _ _ _ _ Hnc). lia.
  - intros c' e' (a & Ha & Hc') Hee. destruct (Hconf a Ha) as (c & c1 & Hc & Hc1 & Hne & Hin).
    assert (e' = e) as -> by congruence. assert (c1 = c') as -> by congruence.
    exists c. split_and!; [by apply (conf_of_eq _ _ _ _ HC) | done | done].
Qed.

Lemma make_left_child_event_ok r t n nd e :
  tree_ok r t → tr_nodes t !! n = Some nd → nd_event nd = None →
  ∃ t' l, make_left_child_event t n e = Ok (t', l) ∧ tree_ok r t' ∧
    new_child t t' n l nd (left_parent nd l e) (left_node nd n None None) ∧
    tr_unfolding t' = tr_unfolding t.
Proof.
  intros Hok Hn He. destruct (make_left_child_event_eq r t n nd e Hok Hn He) as (t' & l & H1 & H2 & H3).
  exists t', l. split_and!; [done | | done | done]. by eapply ok_left_child.
Qed.

(** A configuration that was stored at [b] and grew by [p]. *)
Lemma grown_conf r t t' b c0 c' p :
  tree_ok r t → configured (tr_unfolding t) c0 → (tr_next t ≤ b)%N → (b < tr_next t')%N →
  performed (tr_unfolding t) c0 (tr_unfolding t') c' p → cf_addr c' = b →
  (∀ a, a ≠ b → tr_confs t' !! a = tr_confs t !! a) → tr_confs t' !! b = Some c' →
  tree_ext t t' ∧ confs_ok t'.
Proof.
  intros Hok Hc0 Hb Hb' Hpf Haddr Hold Hnew. assert (tree_ext t t') as Hx.
  { split; [lia | | apply Hpf | apply Hpf]. intros a c Ha. exists c.
    pose proof (ce_bound _ _ _ (to_confs _ _ Hok a c Ha)). rewrite Hold by lia. done. }
  split; [done|]. intros a c Ha. destruct (decide (a = b)) as [->|Hne].
  - assert (c = c') as -> by congruence. split; [done | done | by eapply performed_ok].
  - rewrite Hold in Ha by done. destruct (to_confs _ _ Hok a c Ha) as [H1 H2 H3].
    split; [lia | done |]. apply (kept_ok (tr_unfolding t)); [done | apply Hpf..].
Qed.

Lemma executed_ne r u n c x : n ≠ r → executed r u n c x ↔ in_conf u c x.
Proof. intros Hne. unfold executed. by rewrite decide_False. Qed.

Lemma executed_root r u c x : executed r u r c x ↔ x = uf_root u.
Proof. unfold executed. by rewrite decide_True. Qed.

(** The tree after an extension of the configuration of [n] was committed to
    the configuration [b] of its new left child [l]. *)
Lemma left_committed r t t' n l nd a b c0 c c' p standby :
  tree_ok r t → n ≠ r → tr_nodes t !! n = Some nd → nd_event nd = None →
  nd_C nd = Some a → tr_confs t !! a = Some c → configured (tr_unfolding t) c0 →
  cf_thread_heads c = cf_thread_heads c0 →
  performed (tr_unfolding t) c0 (tr_unfolding t') c' p → cf_addr c' = b →
  (tr_next t ≤ b)%N ∧ (b < tr_next t')%N → (tr_next t ≤ l)%N ∧ (l < tr_next t')%N →
  (∀ a, tr_confs t' !! a = if decide (a = b) then Some c' else tr_confs t !! a) →
  (∀ m, tr_nodes t' !! m = if decide (m = l) then Some (left_node nd n (Some b) standby)
    else if decide (m = n) then Some (left_parent nd l p) else tr_nodes t !! m) →
  tree_ok r t' ∧
    new_child t t' n l nd (left_parent nd l p) (left_node nd n (Some b) standby) ∧
    tr_confs t' !! b = Some c' ∧ performed (tr_unfolding t) c0 (tr_unfolding t') c' p.
Proof.
  intros Hok Hnr Hn He HC Hc Hc0 Hh Hpf Haddr [Hb Hb'] Hl Hconfs Hnodes.
  assert (tr_confs t' !! b = Some c') as Hbc by (by rewrite Hconfs, decide_True).
  destruct (grown_conf r t t' b c0 c' p) as [Hx Hce]; [done..| |done|].
  { intros a0 Ha0. by rewrite Hconfs, decide_False. }
  assert (new_child t t' n l nd (left_parent nd l p) (left_node nd n (Some b) standby)) as Hnc.
  { split; try done. intros a0. cbn. intros [= <-]. by eauto. }
  split_and!; try done. eapply (ok_left_child r t t' n l nd); [done..|]. intros a0 [= <-].
  assert (tr_confs t' !! a = Some c) as Ha'.
  { rewrite Hconfs, decide_False; [done|]. pose proof (ce_bound _ _ _ (to_confs _ _ Hok a c Hc)). lia. }
  exists c, c'. split_and!; [by exists a | done | |].
  - rewrite executed_ne by done. rewrite (in_conf_heads _ c0 c p Hh), (ext_in_conf t t') by done. apply Hpf.
  - intros y. rewrite executed_ne, (pf_in _ _ _ _ _ Hpf), (in_conf_heads _ c0 c y Hh), (ext_in_conf t t') by done.
    done.
Qed.

(** [make_left_child] with an extension of the node's own configuration. *)
Lemma make_left_child_ok r t n nd a c0 o c x standby :
  tree_ok r t → n ≠ r → tr_nodes t !! n = Some nd → nd_event nd = None →
  nd_C nd = Some a → tr_confs t !! a = Some c →
  configured (tr_unfolding t) c0 → cf_addr c0 = a → admissible (tr_unfolding t) c0 o →
  apply_op (tr_heap t) c0 o = Ok (c, x) →
  ∃ t' l p b c', make_left_child t n x standby = Ok (t', l) ∧ tree_ok r t' ∧
    new_child t t' n l nd (left_parent nd l p) (left_node nd n (Some b) standby) ∧
    tr_confs t' !! b = Some c' ∧ performed (tr_unfolding t) c0 (tr_unfolding t') c' p.
Proof.
  intros Hok Hnr Hn He HC Hc Hc0 Haddr Ha Hop. destruct (to_leaf _ _ Hok n nd Hn He) as [Hl Hr].
  pose proof (to_bound _ _ Hok n nd Hn) as Hb.
  destruct (ex_configured _ c0 c o x Hc0 Ha Hop) as (Hcc & Hh & _ & _ & Hxc).
  destruct (commit_copied _ c0 o c x (tr_next t) (cd_ok _ _ Hc0) Ha Hop)
    as (u' & c' & p & Hcom & Hpf & Hca & _).
  assert (tr_next t ≠ a) as Hna by (pose proof (ce_bound _ _ _ (to_confs _ _ Hok a c Hc)); lia).
  unfold make_left_child, propagate_sweep.
  rewrite (node_at_ok t n nd Hn), bind_Ok_l, assert_no_left_ok, bind_Ok_l by done.
  unfold allocate_left_child. rewrite (node_at_ok t n nd Hn), bind_Ok_l, HC.
  rewrite (conf_at_ok t a c Hc), bind_Ok_l. unfold new_conf, new_node.
  cbn [tr_nodes tr_confs tr_unfolding tr_next fst snd]. node_run. cbn [nd_C]. node_run.
  rewrite Hxc, Haddr, (bool_decide_true (Some a = Some a)) by done. cbn [cassert]. rewrite bind_Ok_l.
  unfold commit_at, set_node. cbn [tr_nodes tr_confs tr_unfolding tr_next].
  erewrite conf_at_ok by (cbn; apply lookup_insert_eq). rewrite bind_Ok_l, Hcom, bind_Ok_l.
  cbv beta iota. set (b := tr_next t) in *.
  destruct standby as [st|]; cbn [bool_decide is_Some_dec]; node_run;
    (do 2 eexists; exists p, b, c'; split; [reflexivity|];
     apply (left_committed r t _ n _ nd a b c0 c c' p); try done; cbn; [lia | lia | |]; node_cases).
Qed.

(** *** The main thread *)

(** The two events of the root's configuration. *)
Lemma two_events u c tid p T :
  configured u c → cf_size c = 2 → cf_thread_heads c = (tid, p) :: T →
  p ≠ uf_root u ∧ ∀ x, in_conf u c x ↔ x = p ∨ x = uf_root u.
Proof.
  intros [Hco (l & Hnd & Hl & Hlen) _] Hsz HT. rewrite Hsz in Hlen.
  assert (smap_find tid (cf_thread_heads c) = Some p) as Hp.
  { rewrite HT. simpl. by rewrite less_irrefl. }
  assert (p ≠ uf_root u) as Hne.
  { intros ->. destruct (ho_head _ _ (co_heads _ _ Hco) tid _ Hp) as (e & He & Hk).
    destruct (uo_root _ (co_uf _ _ Hco)) as (e' & He' & Hk'). naive_solver congruence. }
  assert (in_conf u c p) as Hin by (by eapply conf_head).
  assert (in_conf u c (uf_root u)) as Hroot by (by left).
  split; [done|]. intros x. rewrite <-Hl in Hin, Hroot |- *. split; [|by intros [->| ->]].
  destruct l as [|a [|b [|]]]; try discriminate Hlen. intros Hx.
  rewrite !elem_of_cons in Hx, Hin, Hroot. rewrite elem_of_nil in Hx, Hin, Hroot.
  destruct Hx as [->|[->|[]]], Hin as [E1|[E1|[]]], Hroot as [E2|[E2|[]]]; auto; congruence.
Qed.

Definition init_parent nd l (e : eid) : node (St := St) :=
  Node (nd_parent nd) (Some e) (nd_C nd) (nd_standby_state nd) (nd_D nd) (Some l) (nd_right nd)
    (nd_is_sweep_node nd).
Definition init_node nd n (b : N) (standby : option St) : node (St := St) :=
  Node (Some n) None (Some b) standby (nd_D nd) None None false.

(** The tree after the root got its first child. *)
Lemma left_init r t t' l rd a b c p standby :
  tree_ok r t → tr_nodes t !! r = Some rd → nd_event rd = None → nd_C rd = Some a →
  tr_confs t !! a = Some c → p ≠ uf_root (tr_unfolding t) →
  (∀ x, in_conf (tr_unfolding t) c x ↔ x = p ∨ x = uf_root (tr_unfolding t)) →
  tr_unfolding t' = tr_unfolding t →
  (tr_next t ≤ b)%N ∧ (b < tr_next t')%N → (tr_next t ≤ l)%N ∧ (l < tr_next t')%N →
  (∀ a, tr_confs t' !! a = if decide (a = b) then Some (copy_configuration b c) else tr_confs t !! a) →
  (∀ m, tr_nodes t' !! m = if decide (m = l) then Some (init_node rd r b standby)
    else if decide (m = r) then Some (init_parent rd l p) else tr_nodes t !! m) →
  tree_ok r t' ∧ new_child t t' r l rd (init_parent rd l p) (init_node rd r b standby).
Proof.
  intros Hok Hr He HC Hc Hpr Hin Hu Hb Hl Hconfs Hnodes.
  pose proof (to_confs _ _ Hok a c Hc) as Hce.
  assert (tr_confs t' !! a = Some c) as Hac.
  { rewrite Hconfs, decide_False; [done|]. destruct Hce. lia. }
  assert (new_child t t' r l rd (init_parent rd l p) (init_node rd r b standby)) as Hnc.
  { split; try done.
    - split; [lia | | by rewrite Hu | by rewrite Hu]. intros a0 c0 Ha0. exists c0.
      pose proof (ce_bound _ _ _ (to_confs _ _ Hok a0 c0 Ha0)).
      by rewrite Hconfs, decide_False by lia.
    - intros a0 c0. rewrite Hconfs. case_decide as E.
      + intros [= <-]. subst a0. split; [lia | done | rewrite Hu; by apply copy_configured, Hce].
      + intros Ha0. destruct (to_confs _ _ Hok a0 c0 Ha0) as [H1 H2 H3].
        split; [lia | done | by rewrite Hu].
    - intros a0 [= <-]. rewrite Hconfs, decide_True by done. by eauto. }
  split; [|done]. eapply (ok_left_child r t t' r l rd); [done..|]. intros a0 [= <-].
  exists c, (copy_configuration b c). split; [by exists a|].
  split; [by rewrite Hconfs, decide_True|]. rewrite Hu. split.
  - by rewrite executed_root.
  - intros x. rewrite executed_root. exact (Hin x).
Qed.

(** [make_left_child] for the first event: it returns on the fresh root. *)
Lemma make_left_child_init_ok r t rd a c tid p T e standby :
  tree_ok r t → tr_nodes t !! r = Some rd → nd_event rd = None → nd_D rd = [] →
  nd_C rd = Some a → tr_confs t !! a = Some c → cf_size c = 2 →
  cf_thread_heads c = (tid, p) :: T → tr_heap t !! p = Some e → ev_kind e = thread_init →
  ∃ t' l b, make_left_child_init t r standby = Ok (t', l) ∧ tree_ok r t' ∧
    new_child t t' r l rd (init_parent rd l p) (init_node rd r b standby) ∧
    tr_unfolding t' = tr_unfolding t.
Proof.
  intros Hok Hr He HD HC Hc Hsz HT Hp Hk. pose proof (to_bound _ _ Hok r rd Hr) as Hb.
  destruct (to_leaf _ _ Hok r rd Hr He) as [Hl Hri].
  destruct (ok_conf_of r t r rd a Hok Hr HC) as (c1 & Hc1 & _ & Hce).
  assert (c1 = c) as -> by congruence. assert (tr_next t ≠ a) as Hna by (destruct Hce; lia).
  destruct (two_events _ c tid p T (ce_ok _ _ _ Hce) Hsz HT) as [Hpr Hin].
  destruct (new_conf_ext r t c Hok (ce_ok _ _ _ Hce)) as [Hx Hce'].
  unfold make_left_child_init.
  rewrite (node_at_ok t r rd Hr), bind_Ok_l, assert_no_left_ok, bind_Ok_l by done.
  rewrite HC, bind_Ok_l, (conf_at_ok t a c Hc), bind_Ok_l, Hsz, HD. cbn [cassert Nat.eqb].
  rewrite bind_Ok_l, bool_decide_true by done. cbn [cassert]. rewrite bind_Ok_l.
  unfold allocate_left_child. rewrite (node_at_ok t r rd Hr), bind_Ok_l, HC.
  rewrite (conf_at_ok t a c Hc), bind_Ok_l. unfold new_conf, new_node in *.
  cbn [tr_nodes tr_confs tr_unfolding tr_next fst snd] in *. node_run. cbn [nd_C nonnull]. node_run.
  unfold set_node. erewrite conf_at_ok by (cbn; apply lookup_insert_eq). rewrite bind_Ok_l.
  cbn [cf_size copy_configuration]. rewrite Hsz, HT. cbn. node_run. unfold set_node. cbn [tr_unfolding].
  rewrite (proj2 (deref_ok _ p e) Hp), bind_Ok_l, (proj2 (kind_eqb_eq _ _) Hk). cbn [cassert].
  rewrite bind_Ok_l. do 2 eexists. exists (tr_next t). split; [reflexivity|]. apply and_assoc.
  split; [|done]. apply (left_init r t _ _ rd a (tr_next t) c p); try done; cbn; [lia | lia | |];
    node_cases.
Qed.

(** *** Right children *)

Definition right_parent nd m : node (St := St) :=
  Node (nd_parent nd) (nd_event nd) (nd_C nd) (nd_standby_state nd) (nd_D nd) (nd_left nd) (Some m)
    (nd_is_sweep_node nd).
Definition right_node nd n (e : eid) : node (St := St) :=
  Node (Some n) None (nd_C nd) (nd_standby_state nd) (nd_D nd ++ [e]) None None false.

(** The tree after [n] got a right child. *)
Lemma right_added r t t' n m nd e :
  tree_ok r t → n ≠ r → tr_nodes t !! n = Some nd → nd_event nd = Some e → nd_right nd = None →
  is_Some (nd_C nd) → tr_unfolding t' = tr_unfolding t → tr_confs t' = tr_confs t →
  (tr_next t ≤ m)%N ∧ (m < tr_next t')%N →
  (∀ k, tr_nodes t' !! k = if decide (k = m) then Some (right_node nd n e)
    else if decide (k = n) then Some (right_parent nd m) else tr_nodes t !! k) →
  tree_ok r t' ∧ new_child t t' n m nd (right_parent nd m) (right_node nd n e).
Proof.
  intros Hok Hnr Hn He Hr HC Hu Hcs Hm Hnodes. pose proof (to_bound _ _ Hok n nd Hn) as Hb.
  destruct (same_confs t t t') as [Hx Hce];
    [apply tree_ext_refl | exact (to_confs _ _ Hok) | lia | done | done |].
  assert (new_child t t' n m nd (right_parent nd m) (right_node nd n e)) as Hnc.
  { split; try done. intros a Ha. rewrite Hcs. by apply (to_conf _ _ Hok n nd). }
  split; [|done]. apply (ok_new_child r t t' n m nd _ _ Hok Hnc); cbn; rewrite ?Hr, ?He;
    [by right | done | done | done | | by eauto | |].
  - intros _ _ E. destruct (to_left _ _ Hok n nd m Hn E) as (ld & Hld & _).
    pose proof (to_bound _ _ Hok _ _ Hld). lia.
  - intros l Hl. destruct (to_left _ _ Hok n nd l Hn Hl) as (ld & Hld & Hlo). exists ld.
    assert (l ≠ n) by (pose proof (lo_younger _ _ _ _ _ _ Hlo); lia).
    split; [rewrite Hnodes, !decide_False; try done; pose proof (to_bound _ _ Hok _ _ Hld); lia|].
    eapply (ext_left_of r t t'); [done | done | | | done | done]; by split_and!.
  - intros s [= <-]. exists (right_node nd n e). split; [by rewrite Hnodes, decide_True|].
    split; cbn; [done | lia | by eauto | done].
Qed.

Lemma make_right_child_ok r t n nd e :
  tree_ok r t → n ≠ r → tr_nodes t !! n = Some nd → nd_event nd = Some e → nd_right nd = None →
  is_Some (nd_C nd) →
  ∃ t' m, make_right_child t n = Ok (t', m) ∧ tree_ok r t' ∧
    new_child t t' n m nd (right_parent nd m) (right_node nd n e) ∧
    tr_unfolding t' = tr_unfolding t ∧ tr_confs t' = tr_confs t.
Proof.
  intros Hok Hnr Hn He Hr HC. pose proof (to_bound _ _ Hok n nd Hn) as Hb.
  unfold make_right_child. rewrite (node_at_ok t n nd Hn), bind_Ok_l, Hr, He.
  rewrite bool_decide_false by (by intros []). cbn [cassert negb]. rewrite !bind_Ok_l.
  unfold allocate_right_child. rewrite (node_at_ok t n nd Hn), bind_Ok_l.
  unfold new_node. rewrite bind_Ok_l. node_run. do 2 eexists. split; [reflexivity|].
  apply and_assoc. split; [|done].
  apply (right_added r t _ n (tr_next t) nd e); try done; cbn; [lia|]. node_cases.
  all: unfold right_parent; rewrite ?He; done.
Qed.

Lemma new_child_node t t' n k nd nd' kd : new_child t t' n k nd nd' kd →
  tr_nodes t' !! k = Some kd ∧ (n ≠ k → tr_nodes t' !! n = Some nd').
Proof.
  intros Hnc. split; rewrite (nc_nodes _ _ _ _ _ _ _ Hnc); [by rewrite decide_True|].
  intros Hne. by rewrite decide_False, decide_True.
Qed.

(** [make_right_local_child]: a sibling for the other branch of the program. *)
Lemma make_right_local_child_ok r t n nd e ee a c0 o c x standby :
  tree_ok r t → n ≠ r → tr_nodes t !! n = Some nd → nd_event nd = Some e →
  tr_heap t !! e = Some ee → ev_kind ee = local → nd_right nd = None →
  nd_C nd = Some a → tr_confs t !! a = Some c →
  configured (tr_unfolding t) c0 → cf_addr c0 = a → admissible (tr_unfolding t) c0 o →
  apply_op (tr_heap t) c0 o = Ok (c, x) →
  ∃ t1 m t' l p b c', make_right_local_child t n x standby = Ok (t', l) ∧ tree_ok r t1 ∧ tree_ok r t' ∧
    new_child t t1 n m nd (right_parent nd m) (right_node nd n e) ∧
    new_child t1 t' m l (right_node nd n e) (left_parent (right_node nd n e) l p)
      (left_node (right_node nd n e) m (Some b) standby) ∧
    tr_confs t' !! b = Some c' ∧ performed (tr_unfolding t) c0 (tr_unfolding t') c' p.
Proof.
  intros Hok Hnr Hn He Hee Hk Hr HC Hc Hc0 Haddr Ha Hop.
  unfold make_right_local_child. rewrite (node_at_ok t n nd Hn), bind_Ok_l, He, bind_Ok_l.
  rewrite (proj2 (deref_ok _ e ee) Hee), bind_Ok_l, (proj2 (kind_eqb_eq _ _) Hk). cbn [cassert].
  rewrite bind_Ok_l.
  destruct (make_right_child_ok r t n nd e) as (t1 & m & -> & Hok1 & Hnc & Hu & Hcs);
    [done..| by eauto |].
  rewrite bind_Ok_l. cbv beta iota. destruct (new_child_node _ _ _ _ _ _ _ Hnc) as [Hm _].
  destruct (make_left_child_ok r t1 m (right_node nd n e) a c0 o c x standby)
    as (t' & l & p & b & c' & -> & Hok' & Hnc' & Hb & Hpf); rewrite ?Hu, ?Hcs; try done.
  - intros ->. destruct (to_root _ _ Hok) as (rd & Hrd & _).
    by apply (new_child_unused r t t1 n r nd _ _ Hok Hnc r rd).
  - exists t1, m, t', l, p, b, c'. rewrite Hu in Hpf. done.
Qed.

(** *** Catching up *)

(** [m] is reached from [n] along right children. *)
Inductive right_chain t : nid → nid → Prop :=
  | rc_refl n : right_chain t n n
  | rc_step n nd k m : tr_nodes t !! n = Some nd → nd_right nd = Some k → right_chain t k m →
      right_chain t n m.

Lemma right_chain_conf r t n m nd md :
  tree_ok r t → right_chain t n m → tr_nodes t !! n = Some nd → tr_nodes t !! m = Some md →
  n ≠ r → nd_C md = nd_C nd ∧ m ≠ r.
Proof.
  intros Hok Hrc. revert nd. induction Hrc as [n|n nd0 k m Hn0 Hr _ IH]; intros nd Hn Hm Hne.
  { by assert (md = nd) as -> by congruence. }
  assert (nd0 = nd) as -> by congruence.
  destruct (to_right _ _ Hok n nd k Hn Hr) as (kd & Hk & [Hp _ _ [HC _]]).
  destruct (IH kd Hk Hm) as [E Hmr]; [|split; [congruence | done]].
  intros ->. destruct (to_root _ _ Hok) as (rd & ? & ? & _). congruence.
Qed.

(** The search returns; it stops at the event or at a node without event. *)
Lemma find_branching_inv r t event fuel n m :
  tree_ok r t → find_branching t fuel event n = Ok m →
  right_chain t n m ∧ ∃ md, tr_nodes t !! m = Some md ∧ (nd_event md = Some event ∨ nd_event md = None).
Proof.
  intros Hok. revert n. induction fuel as [|fuel IH]; intros n Hf; cbn [find_branching] in Hf;
    apply bind_ok in Hf as (nd & Hn%node_at_inv & Hf); destruct (nd_event nd) as [e|] eqn:He.
  - case_bool_decide; [|done]. simplify_eq. split; [constructor|]. exists nd. by rewrite He; auto.
  - simplify_eq. split; [constructor|]. exists nd. by rewrite He; auto.
  - case_bool_decide.
    + simplify_eq. split; [constructor|]. exists nd. by rewrite He; auto.
    + apply bind_ok in Hf as (k & Hk & Hf). destruct (nd_right nd) as [k'|] eqn:Hr; [|done].
      injection Hk as ->. destruct (IH k Hf) as [Hrc Hmd]. split; [by econstructor | done].
  - simplify_eq. split; [constructor|]. exists nd. by rewrite He; auto.
Qed.
End ops.
