(* ===== verification/NodeCatch.v ===== *)
(** * Catching up with a branch of the exploration tree *)

From stdpp Require Import base tactics list gmap numbers relations.
From S2P Require Import Prelude StdMap ThreadId Event Comb CombEnum CombProofs Cone Alloc Causality.
From S2P Require Import AllocProofs HeapExt Order Walks Demo Independence Unfolding Configuration.
From S2P Require Import Cex ColorProofs UnfoldingProofs DedupProofs Scenario Dependence Heads.
From S2P Require Import Booking ConfInv OpBase OpProofs OpCond Startup System Node NodeInv NodeOps.

Section catch_up.
Context {PL : Payload} {AL : Allocator} {St : Type}.
Implicit Types (t : tree (St := St)) (n l m k r : nid) (nd ld md : node (St := St)).
Implicit Types (u : unfolding) (c : configuration).

(** ** Finding the node of an event *)

(** [m] is the first node with [event] on the way from [n] along right children. *)
Inductive replays t (event : eid) : nid → nid → Prop :=
  | rp_here n nd : tr_nodes t !! n = Some nd → nd_event nd = Some event → replays t event n n
  | rp_right n nd e k m : tr_nodes t !! n = Some nd → nd_event nd = Some e → e ≠ event →
      nd_right nd = Some k → replays t event k m → replays t event n m.

Lemma replays_end t event n m : replays t event n m →
  ∃ md, tr_nodes t !! m = Some md ∧ nd_event md = Some event.
Proof. induction 1; [by eauto | done]. Qed.

Lemma replays_chain t event n m : replays t event n m → right_chain t n m.
Proof. induction 1; [constructor | by econstructor]. Qed.

Lemma find_branching_ok r t event n m fuel :
  tree_ok r t → replays t event n m → N.to_nat (m - n) ≤ fuel →
  (n ≤ m)%N ∧ find_branching t fuel event n = Ok m.
Proof.
  intros Hok Hrp. revert fuel. induction Hrp as [n nd Hn He|n nd e k m Hn He Hne Hr _ IH];
    intros fuel Hf.
  - split; [lia|]. destruct fuel; cbn [find_branching];
      by rewrite (node_at_ok t n nd Hn), bind_Ok_l, He, bool_decide_true.
  - destruct (to_right _ _ Hok n nd k Hn Hr) as (kd & Hk & Hro).
    pose proof (ro_younger _ _ _ _ _ Hro) as Hlt.
    destruct (IH (N.to_nat (m - k))) as [Hkm _]; [lia|].
    destruct fuel as [|fuel]; [lia|]. destruct (IH fuel) as [_ Hf']; [lia|].
    split; [lia|]. cbn [find_branching].
    rewrite (node_at_ok t n nd Hn), bind_Ok_l, He, bool_decide_false, Hr by done.
    cbn [nonnull]. by rewrite bind_Ok_l.
Qed.

(** ** A node gets its configuration *)

Lemma ok_adopt r t t' m md l ld ld' b c c' e :
  tree_ok r t → tree_ext t t' → confs_ok t' → m ≠ r →
  tr_nodes t !! m = Some md → nd_left md = Some l → nd_event md = Some e →
  tr_nodes t !! l = Some ld → nd_C ld = None →
  conf_of t' md c → tr_confs t' !! b = Some c' → ¬ in_conf (tr_unfolding t') c e →
  (∀ x, in_conf (tr_unfolding t') c' x ↔ x = e ∨ in_conf (tr_unfolding t') c x) →
  same_shape (with_C ld (Some b)) ld' →
  (∀ k, tr_nodes t' !! k = if decide (k = l) then Some ld' else tr_nodes t !! k) →
  tree_ok r t'.
Proof.
  intros Hok Hx Hce Hmr Hm Hl He Hld HC Hc Hb Hne Hin Hs Hnodes.
  destruct (to_left _ _ Hok m md l Hm Hl) as (ld0 & Hld0 & Hlo).
  assert (ld0 = ld) as -> by congruence.
  assert (nd_parent ld = Some m) as Hp by apply Hlo.
  assert (l ≠ r) as Hlr by (by eapply (ok_parent_lt r t)).
  assert (nd_right ld = None) as Hnr.
  { destruct (nd_right ld) as [s|] eqn:E; [|done].
    destruct (to_right _ _ Hok l ld s Hld E) as (? & ? & [_ _ _ [_ [? ?]]]). congruence. }
  assert (∀ k kd, tr_nodes t' !! k = Some kd → k ≠ l → tr_nodes t !! k = Some kd) as Hold.
  { intros k kd. rewrite Hnodes. by case_decide. }
  assert (∀ k kd, tr_nodes t !! k = Some kd → k ≠ l → tr_nodes t' !! k = Some kd) as Hnew.
  { intros k kd Hk Hkl. by rewrite Hnodes, decide_False. }
  assert (tr_nodes t' !! l = Some ld') as Hl' by (by rewrite Hnodes, decide_True).
  destruct Hs as [S1 S2 S3 S4 S5 S6]; cbn in S1, S2, S3, S4, S5, S6.
  split.
  - destruct (to_root _ _ Hok) as (rd & Hr & ? & ? & ?). exists rd. by rewrite Hnodes, decide_False.
  - intros k kd Hk. pose proof (te_next _ _ Hx). destruct (decide (k = l)) as [->|Hkl].
    + pose proof (to_bound _ _ Hok l ld Hld). lia.
    + pose proof (to_bound _ _ Hok k kd (Hold k kd Hk Hkl)). lia.
  - exact Hce.
  - intros k kd a Hk Ha. destruct (decide (k = l)) as [->|Hkl].
    + assert (kd = ld') as -> by congruence. assert (a = b) as -> by congruence. by eauto.
    + destruct (to_conf _ _ Hok k kd a (Hold k kd Hk Hkl) Ha) as [c1 Hc1].
      destruct (te_confs _ _ Hx a c1 Hc1) as (c2 & ? & _). by eauto.
  - intros k kd Hk Hkr.
    assert (∃ kd0, tr_nodes t !! k = Some kd0 ∧ nd_parent kd = nd_parent kd0) as (kd0 & Hk0 & ->).
    { destruct (decide (k = l)) as [->|Hkl]; [exists ld | by eauto].
      split; [done|]. assert (kd = ld') as -> by congruence. done. }
    destruct (to_parent _ _ Hok k kd0 Hk0 Hkr) as (p & pd & Hpp & Hpd & Hor). exists p.
    destruct (decide (p = l)) as [->|Hpl]; [|by eauto].
    exists ld'. assert (pd = ld) as -> by congruence. by rewrite S5, S6.
  - intros k kd s Hk Hks.
    destruct (decide (k = l)) as [->|Hkl].
    + assert (kd = ld') as -> by congruence. rewrite S5 in Hks.
      destruct (to_left _ _ Hok l ld s Hld Hks) as (sd & Hsd & Hso). exists sd.
      pose proof (lo_younger _ _ _ _ _ _ Hso) as Hlt. split; [apply Hnew; [done | lia]|].
      destruct Hso as [H1 H2 H3 H4 H5]. split; [done | done | congruence | congruence|].
      intros c1 e1 Hc1 He1. exfalso.
      destruct (ext_conf_of r t t' s sd c1 Hok Hx Hsd Hc1) as (c2 & Hc2 & _).
      rewrite S2 in He1. destruct (H5 c2 e1 Hc2 He1) as (c3 & (a & Ha & _) & _). congruence.
    + pose proof (Hold k kd Hk Hkl) as Hk0.
      destruct (to_left _ _ Hok k kd s Hk0 Hks) as (sd & Hsd & Hso).
      destruct (decide (s = l)) as [->|Hsl].
      * exists ld'. split; [done|]. assert (sd = ld) as -> by congruence.
        assert (k = m) as -> by (pose proof (lo_parent _ _ _ _ _ _ Hso); congruence).
        assert (kd = md) as -> by congruence.
        destruct Hso as [H1 H2 H3 H4 _]. split; [congruence | done | congruence | done |].
        intros c1 e1 (a & Ha & Hc1) He1. rewrite S3 in Ha.
        assert (c1 = c') as -> by congruence. assert (e1 = e) as -> by congruence.
        exists c. split; [done|]. rewrite executed_ne by done. split; [done|].
        intros x. by rewrite executed_ne.
      * exists sd. split; [by apply Hnew|].
        eapply (ext_left_of r t t' k kd kd s sd sd); [done | done | by split_and! | by split_and! | done | done].
  - intros k kd s Hk Hks. destruct (decide (k = l)) as [->|Hkl].
    { assert (kd = ld') as -> by congruence. congruence. }
    pose proof (Hold k kd Hk Hkl) as Hk0.
    destruct (to_right _ _ Hok k kd s Hk0 Hks) as (sd & Hsd & Hso).
    destruct (decide (s = l)) as [->|Hsl].
    + exfalso. assert (sd = ld) as -> by congruence. destruct Hso as [_ _ _ [E [? ?]]]. congruence.
    + exists sd. split; [by apply Hnew|].
      eapply (ext_right_of t t'); [by split_and! | by split_and! | done].
  - intros k kd s Hk Hks. destruct (decide (k = l)) as [->|Hkl].
    { assert (kd = ld') as -> by congruence. congruence. }
    by apply (to_disjoint _ _ Hok k kd); [apply Hold|].
  - intros k kd Hk Hke. destruct (decide (k = l)) as [->|Hkl].
    { assert (kd = ld') as -> by congruence. rewrite S5, S6. apply (to_leaf _ _ Hok l ld Hld). congruence. }
    by apply (to_leaf _ _ Hok k kd); [apply Hold|].
Qed.

(** ** The replay of an event *)

(** The copy of the node's configuration after the extension was committed. *)
Definition copied t (a : N) u c : tree (St := St) :=
  Tree (tr_nodes t) (<[a := c]> (tr_confs t)) u (N.succ (tr_next t)).

Lemma copied_ok r t c0 u' c' p :
  tree_ok r t → configured (tr_unfolding t) c0 → performed (tr_unfolding t) c0 u' c' p →
  cf_addr c' = tr_next t →
  tree_ok r (copied t (tr_next t) u' c') ∧ tree_ext t (copied t (tr_next t) u' c').
Proof.
  intros Hok Hc0 Hpf Haddr.
  destruct (grown_conf r t (copied t (tr_next t) u' c') (tr_next t) c0 c' p) as [Hx Hce];
    [done | done | done | cbn; lia | done | done | | by apply lookup_insert_eq |].
  { intros a Ha. cbn. by rewrite lookup_insert_ne. }
  split; [|done]. apply (ok_frame r t); [done | done | exact Hce | |];
    intros n nd Hn; exists nd; done.
Qed.

Lemma commit_copy_at t c x u' c' p :
  commit (Extension (ex_event x) (tr_next t) (ex_index x)) (tr_unfolding t)
    (copy_configuration (tr_next t) c) = Ok (u', c', p) →
  commit_at (new_conf t c).1 x (tr_next t) = Ok (copied t (tr_next t) u' c', p).
Proof.
  intros Hcom. unfold commit_at, new_conf, copied. cbn [fst].
  erewrite conf_at_ok by (cbn; apply lookup_insert_eq). rewrite bind_Ok_l. cbn [tr_unfolding].
  rewrite Hcom, bind_Ok_l. cbn. by rewrite insert_insert_eq.
Qed.

(** Two configurations with the same events have the same size. *)
Lemma same_events_size u c c' :
  configured u c → configured u c' → (∀ x, in_conf u c x ↔ in_conf u c' x) → cf_size c = cf_size c'.
Proof.
  intros [_ (l & Hn & Hl & Hlen) _] [_ (l' & Hn' & Hl' & Hlen') _] Hsame.
  rewrite <-Hlen, <-Hlen'. apply Permutation_length, NoDup_Permutation; [done..|].
  intros x. by rewrite Hl, Hl', Hsame.
Qed.

(** [adopt_configuration] gives the node the replayed configuration, unless
    it has one already, with the same events. *)
Lemma adopt_ok r t m md l ld c c' e :
  tree_ok r t → m ≠ r → tr_nodes t !! m = Some md → nd_left md = Some l → nd_event md = Some e →
  tr_nodes t !! l = Some ld → conf_of t md c → configured (tr_unfolding t) c' →
  ¬ in_conf (tr_unfolding t) c e →
  (∀ x, in_conf (tr_unfolding t) c' x ↔ x = e ∨ in_conf (tr_unfolding t) c x) →
  ∃ t' b cl, adopt_configuration t l c' = Ok t' ∧ tree_ok r t' ∧
    tr_unfolding t' = tr_unfolding t ∧
    (∀ k, tr_nodes t' !! k = if decide (k = l) then Some (with_C ld (Some b)) else tr_nodes t !! k) ∧
    tr_confs t' !! b = Some cl ∧
    (∀ x, in_conf (tr_unfolding t) cl x ↔ x = e ∨ in_conf (tr_unfolding t) c x).
Proof.
  intros Hok Hmr Hm Hl He Hld Hc Hcd Hne Hin. unfold adopt_configuration.
  rewrite (node_at_ok t l ld Hld), bind_Ok_l. destruct (nd_C ld) as [b|] eqn:HC.
  - destruct (ok_conf_of r t l ld b Hok Hld HC) as (cl & Hcl & Hof & Hce).
    rewrite (conf_at_ok t b cl Hcl), bind_Ok_l.
    destruct (to_left _ _ Hok m md l Hm Hl) as (ld0 & Hld0 & Hlo).
    assert (ld0 = ld) as -> by congruence.
    destruct (lo_conf _ _ _ _ _ _ Hlo cl e Hof He) as (c1 & Hc1 & _ & Hin1).
    assert (c1 = c) as -> by (by eapply conf_of_inj).
    assert (∀ x, in_conf (tr_unfolding t) cl x ↔ x = e ∨ in_conf (tr_unfolding t) c x) as Hin2.
    { intros x. by rewrite Hin1, executed_ne. }
    rewrite (same_events_size (tr_unfolding t) c' cl), Nat.eqb_refl; [|done | apply Hce|].
    2:{ intros x. by rewrite Hin, Hin2. }
    cbn [cassert]. rewrite bind_Ok_l. exists t, b, cl. split_and!; try done.
    intros k. case_decide as Hk; [|done]. subst k. rewrite Hld. f_equal. by destruct ld; cbn in *; subst.
  - destruct (new_conf_ext r t c' Hok Hcd) as [Hx Hce]. unfold new_conf in *. cbn [fst snd] in *.
    erewrite upd_node_ok by (cbn; eassumption). unfold set_node. cbn [tr_nodes tr_confs tr_unfolding tr_next].
    edestruct (same_confs t) as [Hx' Hce']; [exact Hx | exact Hce | | | |].
    4:{ eexists _, (tr_next t), (copy_configuration (tr_next t) c'). split; [reflexivity|].
        split; [|split; [done|split; [|split; [apply lookup_insert_eq | exact Hin]]]];
          [|intros k; cbn; rewrite lookup_insert; repeat case_decide; congruence].
        destruct Hc as (a & Ha & Hac).
        eapply (ok_adopt r t _ m md l ld (with_C ld (Some (tr_next t))) (tr_next t) c
          (copy_configuration (tr_next t) c') e); [done | exact Hx' | exact Hce' | done..| | | exact Hne | exact Hin | done | ].
        - exists a. split; [done|]. cbn. rewrite lookup_insert_ne; [done|].
          pose proof (ce_bound _ _ _ (to_confs _ _ Hok a c Hac)). lia.
        - apply lookup_insert_eq.
        - intros k. cbn. rewrite lookup_insert. repeat case_decide; congruence. }
    all: cbn; first [lia | reflexivity].
Qed.

(** What a successful replay of [p] does to the node [l]. *)
Record caught_up t t' l u' p c0 : Prop := {
  cu_unfolding : tr_unfolding t' = u';
  cu_others k : k ≠ l → tr_nodes t' !! k = tr_nodes t !! k;
  cu_node : ∃ ld ld' b cl, tr_nodes t !! l = Some ld ∧ tr_nodes t' !! l = Some ld' ∧
    nd_is_sweep_node ld' = nd_is_sweep_node ld ∧ nd_event ld' = nd_event ld ∧
    (is_Some (nd_standby_state ld) → is_Some (nd_standby_state ld')) ∧
    nd_C ld' = Some b ∧ tr_confs t' !! b = Some cl ∧
    ∀ x, in_conf u' cl x ↔ x = p ∨ in_conf u' c0 x;
}.

Lemma set_node_ok r t l ld ld' :
  tree_ok r t → tr_nodes t !! l = Some ld → same_shape ld ld' → tree_ok r (set_node t l ld').
Proof.
  intros Hok Hl Hs. destruct (same_confs t t (set_node t l ld')) as [Hx Hce];
    [apply tree_ext_refl | exact (to_confs _ _ Hok) | done | done | done |].
  apply (ok_frame r t); [done | exact Hx | exact Hce | |].
  - intros n nd. cbn. rewrite lookup_insert. case_decide as E.
    + subst n. intros [= <-]. by exists ld.
    + intros Hn. by exists nd.
  - intros n nd Hn. cbn. rewrite lookup_insert. case_decide as E.
    + subst n. assert (nd = ld) as -> by congruence. by exists ld'.
    + by exists nd.
Qed.

Lemma node_catch_up_ok r t n nd a c0 o c x standby next :
  tree_ok r t → n ≠ r → tr_nodes t !! n = Some nd → nd_C nd = Some a → tr_confs t !! a = Some c →
  configured (tr_unfolding t) c0 → cf_addr c0 = a → admissible (tr_unfolding t) c0 o →
  apply_op (tr_heap t) c0 o = Ok (c, x) →
  ∃ u' c' p, performed (tr_unfolding t) c0 u' c' p ∧
    (p ≠ next → ∃ t', node_catch_up t n x standby next = Ok (t', None) ∧ tree_ok r t' ∧
      tr_nodes t' = tr_nodes t ∧ tr_unfolding t' = u') ∧
    (p = next → ∀ m md l, replays t p n m → tr_nodes t !! m = Some md → nd_left md = Some l →
      ∃ t', node_catch_up t n x standby next = Ok (t', Some l) ∧ tree_ok r t' ∧
        caught_up t t' l u' p c0).
Proof.
  intros Hok Hnr Hn HC Hc Hc0 Haddr Ha Hop.
  destruct (ex_configured _ c0 c o x Hc0 Ha Hop) as (_ & Hh & _).
  destruct (commit_copied _ c0 o c x (tr_next t) (cd_ok _ _ Hc0) Ha Hop)
    as (u' & c' & p & Hcom & Hpf & Hca & _).
  destruct (copied_ok r t c0 u' c' p Hok Hc0 Hpf Hca) as [Hok1 Hx1].
  pose proof (commit_copy_at t c x u' c' p Hcom) as Hcat.
  set (t1 := copied t (tr_next t) u' c') in *.
  exists u', c', p. split; [done|].
  unfold node_catch_up. rewrite (node_at_ok t n nd Hn), bind_Ok_l, HC. cbn [nonnull].
  rewrite bind_Ok_l, (conf_at_ok t a c Hc), bind_Ok_l.
  assert (new_conf t c = ((new_conf t c).1, tr_next t)) as -> by done. cbv beta iota.
  rewrite Hcat, bind_Ok_l. cbv beta iota. split.
  - intros Hne. rewrite (bool_decide_false (next = p)) by done. cbn [negb]. by exists t1.
  - intros <- m md l Hrp Hm Hl. rewrite (bool_decide_true (p = p)) by done. cbn [negb].
    assert (replays t1 p n m) as Hrp1.
    { clear -Hrp. induction Hrp; [by econstructor | by eapply rp_right]. }
    destruct (replays_end t p n m Hrp) as (md0 & Hm0 & He). assert (md0 = md) as -> by congruence.
    destruct (right_chain_conf r t n m nd md Hok (replays_chain _ _ _ _ Hrp) Hn Hm Hnr) as [HCm Hmr].
    destruct (find_branching_ok r t1 p n m (path_fuel t1) Hok1 Hrp1) as [_ ->].
    { pose proof (to_bound _ _ Hok m md Hm). unfold path_fuel. cbn. lia. }
    rewrite bind_Ok_l, (node_at_ok t1 m md Hm), bind_Ok_l, He, (bool_decide_true (Some p = Some p)) by done.
    cbn [cassert]. rewrite bind_Ok_l, Hl, bind_Ok_l.
    erewrite conf_at_ok by (cbn; apply lookup_insert_eq). rewrite bind_Ok_l.
    destruct (to_left _ _ Hok m md l Hm Hl) as (ld & Hld & _).
    assert (configured u' c0) as Hc0' by (apply (kept_ok (tr_unfolding t)); [done | apply Hpf..]).
    assert (∀ y, in_conf u' c y ↔ in_conf (tr_unfolding t) c0 y) as Hcc.
    { intros y. rewrite (in_conf_heads u' c0 c y Hh). by apply (ext_in_conf t t1). }
    destruct (adopt_ok r t1 m md l ld c c' p) as (t2 & b & cl & -> & Hok2 & Hu2 & Hn2 & Hb & Hcl);
      try done.
    { exists a. split; [congruence|]. cbn. rewrite lookup_insert_ne; [done|].
      pose proof (ce_bound _ _ _ (to_confs _ _ Hok a c Hc)). lia. }
    { cbn. exact (performed_ok _ c0 u' c' p Hc0 Hpf). }
    { cbn. rewrite Hcc. apply Hpf. }
    { intros y. cbn. rewrite (pf_in _ _ _ _ _ Hpf), Hcc. done. }
    rewrite bind_Ok_l.
    assert (tr_nodes t2 !! l = Some (with_C ld (Some b))) as Hl2 by (by rewrite Hn2, decide_True).
    assert (∀ y, in_conf u' cl y ↔ y = p ∨ in_conf u' c0 y) as Hcl'.
    { intros y. rewrite <-(in_conf_heads u' c0 c y Hh). exact (Hcl y). }
    rewrite (node_at_ok t2 l _ Hl2), bind_Ok_l.
    destruct (bool_decide (is_Some standby) && _) eqn:Hsb.
    + apply andb_true_iff in Hsb as [Hsb _]. apply bool_decide_eq_true in Hsb. rewrite (upd_node_ok t2 l _ _ Hl2), bind_Ok_l. eexists. split; [reflexivity|].
      split; [by eapply set_node_ok|]. split; [done | |].
      * intros k Hk. cbn. by rewrite lookup_insert_ne, Hn2, decide_False.
      * exists ld. eexists _, b, cl. split_and!; [done | apply lookup_insert_eq | done..].
    + exists t2. split; [done|]. split; [done|]. split; [done | |].
      * intros k Hk. by rewrite Hn2, decide_False.
      * exists ld. eexists _, b, cl. split_and!; done.
Qed.
End catch_up.

(** ** Branches and schedules of the exploration tree

    The branch of a node leads to the root and leaves out every parent of a
    right child; the events of its nodes are the schedule that reaches the
    node. *)

Section schedule.
Context {PL : Payload} {AL : Allocator} {St : Type}.
Implicit Types (t : tree (St := St)) (n l m q r : nid) (nd ld md qd : node (St := St)).
Implicit Types (u : unfolding) (c : configuration) (e x : eid).

(** [q] is the node whose event was executed last before [n]. *)
Inductive up t : nid → nid → Prop :=
  | up_left n nd q qd : tr_nodes t !! n = Some nd → nd_parent nd = Some q →
      tr_nodes t !! q = Some qd → nd_left qd = Some n → up t n q
  | up_right n nd p pd q : tr_nodes t !! n = Some nd → nd_parent nd = Some p →
      tr_nodes t !! p = Some pd → nd_right pd = Some n → up t p q → up t n q.

(** The branch of a node and the events executed on it, latest first. *)
Inductive path r t : nid → list nid → list eid → Prop :=
  | path_root : path r t r [r] []
  | path_step n q qd e ms es : up t n q → tr_nodes t !! q = Some qd → nd_event qd = Some e →
      path r t q ms es → path r t n (n :: ms) (e :: es).

Section ok.
Context r t (Hok : tree_ok r t).

Lemma up_lt n q : up t n q → (q < n)%N ∧ n ≠ r.
Proof.
  induction 1 as [n nd q qd Hn Hp Hq Hl|n nd p pd q Hn Hp Hpd Hr _ [IH _]];
    destruct (ok_parent_lt r t n nd _ Hok Hn Hp) as (Hlt & Hne & _); split; try done; lia.
Qed.

Lemma up_exists n nd : tr_nodes t !! n = Some nd → n ≠ r → ∃ q, up t n q.
Proof.
  revert nd. induction (N.lt_wf_0 n) as [n _ IH]. intros nd Hn Hne.
  destruct (to_parent _ _ Hok n nd Hn Hne) as (p & pd & Hp & Hpd & [Hl|Hr]).
  - exists p. by eapply up_left.
  - destruct (ok_parent_lt r t n nd p Hok Hn Hp) as (Hlt & _ & _).
    assert (p ≠ r) as Hpr.
    { intros E. destruct (to_root _ _ Hok) as (rd & Hrd & _ & Hnone & _).
      rewrite E in Hpd. congruence. }
    destruct (IH p Hlt pd Hpd Hpr) as [q Hq]. exists q. by eapply up_right.
Qed.

(** A node shares its configuration with a left child of [q]. *)
Lemma up_conf n q nd : up t n q → tr_nodes t !! n = Some nd →
  ∃ qd l ld, tr_nodes t !! q = Some qd ∧ nd_left qd = Some l ∧ tr_nodes t !! l = Some ld ∧
    nd_C nd = nd_C ld ∧ left_of r t q qd l ld.
Proof.
  intros Hup. revert nd. induction Hup as [n nd0 q qd Hn0 Hp Hq Hl|n nd0 p pd q Hn0 Hp Hpd Hr _ IH];
    intros nd Hn; assert (nd0 = nd) as -> by congruence.
  - destruct (to_left _ _ Hok q qd n Hq Hl) as (ld & Hld & Hlo).
    assert (ld = nd) as -> by congruence. by exists qd, n, nd.
  - destruct (to_right _ _ Hok p pd n Hpd Hr) as (rd & Hrd & [_ _ _ [HC _]]).
    assert (rd = nd) as -> by congruence.
    destruct (IH pd Hpd) as (qd & l & ld & Hq & Hl & Hld & HC' & Hlo).
    exists qd, l, ld. split_and!; [done | done | done | congruence | done].
Qed.

Lemma up_inj n q q' : up t n q → up t n q' → q = q'.
Proof.
  intros H1. revert q'. induction H1 as [n nd q qd Hn Hp Hq Hl|n nd p pd q Hn Hp Hpd Hr _ IH];
    intros q' H2; inversion H2 as [? nd1 ? qd1 Hn1 Hp1 Hq1 Hl1|? nd1 p1 pd1 ? Hn1 Hp1 Hpd1 Hr1 Hup]; subst.
  - congruence.
  - assert (p1 = q) as -> by congruence. assert (pd1 = qd) as -> by congruence.
    by destruct (to_disjoint _ _ Hok q qd n Hq Hl).
  - assert (q' = p) as -> by congruence. assert (qd1 = pd) as -> by congruence.
    by destruct (to_disjoint _ _ Hok p pd n Hpd Hl1).
  - assert (p1 = p) as -> by congruence. by apply IH.
Qed.

Lemma path_exists n nd : tr_nodes t !! n = Some nd → ∃ ms es, path r t n ms es.
Proof.
  revert nd. induction (N.lt_wf_0 n) as [n _ IH]. intros nd Hn.
  destruct (decide (n = r)) as [->|Hne]; [exists [r], []; constructor|].
  destruct (up_exists n nd Hn Hne) as [q Hup]. destruct (up_lt n q Hup) as [Hlt _].
  destruct (up_conf n q nd Hup Hn) as (qd & l & ld & Hq & _ & _ & _ & Hlo).
  destruct (lo_event _ _ _ _ _ _ Hlo) as [e He]. destruct (IH q Hlt qd Hq) as (ms & es & Hp).
  exists (n :: ms), (e :: es). by eapply path_step.
Qed.

(** ** The iterator *)

Lemma is_right_child_ok n nd p pd : tr_nodes t !! n = Some nd → nd_parent nd = Some p →
  tr_nodes t !! p = Some pd → is_right_child t n = Ok (bool_decide (nd_right pd = Some n)).
Proof.
  intros Hn Hp Hpd. unfold is_right_child.
  by rewrite (node_at_ok t n nd Hn), bind_Ok_l, Hp, (node_at_ok t p pd Hpd), bind_Ok_l.
Qed.

Lemma branch_next_up n q fuel : up t n q → N.to_nat n ≤ fuel → branch_next t fuel (Some n) = Ok (Some q).
Proof.
  intros Hup. revert fuel. induction Hup as [n nd q qd Hn Hp Hq Hl|n nd p pd q Hn Hp Hpd Hr Hup IH];
    intros fuel Hf.
  - assert (branch_next t fuel (Some n) = (right ← is_right_child t n; nd ← node_at t n;
      if (right : bool) then match fuel with O => Err OutOfFuel | S f => branch_next t f (nd_parent nd) end
      else Ok (nd_parent nd))) as -> by (by destruct fuel).
    rewrite (is_right_child_ok n nd q qd), bind_Ok_l, (node_at_ok t n nd), bind_Ok_l by done.
    rewrite bool_decide_false by (by apply (to_disjoint _ _ Hok q qd n)). by rewrite Hp.
  - destruct (ok_parent_lt r t n nd p Hok Hn Hp) as (Hlt & _ & _).
    destruct fuel as [|fuel]; [lia|]. cbn [branch_next].
    rewrite (is_right_child_ok n nd p pd), bind_Ok_l, (node_at_ok t n nd), bind_Ok_l by done.
    rewrite bool_decide_true, Hp by done. apply IH. lia.
Qed.

Lemma branch_next_root fuel : 0 < fuel → branch_next t fuel (Some r) = Ok None.
Proof.
  intros Hf. destruct (to_root _ _ Hok) as (rd & Hr & Hp & _). destruct fuel as [|fuel]; [lia|].
  assert (is_right_child t r = Ok true) as Hright.
  { unfold is_right_child. by rewrite (node_at_ok t r rd Hr), bind_Ok_l, Hp. }
  cbn [branch_next]. rewrite Hright, bind_Ok_l, (node_at_ok t r rd Hr), bind_Ok_l, Hp.
  by destruct fuel.
Qed.

Lemma node_bound n nd : tr_nodes t !! n = Some nd → N.to_nat n < path_fuel t.
Proof. intros Hn. pose proof (to_bound _ _ Hok n nd Hn). unfold path_fuel. lia. Qed.

Lemma path_stored n ms es : path r t n ms es → is_Some (tr_nodes t !! n).
Proof.
  destruct 1 as [|n q qd e ms es Hup]; [destruct (to_root _ _ Hok) as (rd & ? & _); by eauto|].
  destruct Hup; by eauto.
Qed.

Lemma branch_path n ms es fuel : path r t n ms es → N.to_nat n < fuel → branch_from t fuel (Some n) = Ok ms.
Proof.
  intros Hp. revert fuel. induction Hp as [|n q qd e ms es Hup Hq He Hp IH]; intros fuel Hf;
    (destruct fuel as [|fuel]; [lia|]); cbn [branch_from].
  - destruct (to_root _ _ Hok) as (rd & Hr & _).
    rewrite branch_next_root, bind_Ok_l by (pose proof (node_bound r rd Hr); lia). by destruct fuel.
  - destruct (up_lt n q Hup) as [Hlt Hne].
    assert (∃ nd, tr_nodes t !! n = Some nd) as [nd Hn] by (destruct Hup; by eauto).
    rewrite (branch_next_up n q), bind_Ok_l by (pose proof (node_bound n nd Hn); (done || lia)).
    rewrite IH, bind_Ok_l by lia. done.
Qed.

Lemma path_above n ms es m : path r t n ms es → m ∈ tail ms → (m < n)%N.
Proof.
  intros Hp. revert m. induction Hp as [|n q qd e ms es Hup Hq He Hp IH]; intros m; cbn [tail].
  - by intros ?%elem_of_nil.
  - destruct (up_lt n q Hup) as [Hlt _]. intros Hm. destruct ms as [|m0 ms]; [by apply elem_of_nil in Hm|].
    assert (m0 = q) as -> by (by inversion Hp).
    apply elem_of_cons in Hm as [->|Hm]; [done|]. specialize (IH m Hm). lia.
Qed.

(** ** The schedule *)

(** The events of the nodes after the first of a branch. *)
Lemma path_events n ms es k : path r t k ms es → (k ≤ n)%N → ∀ acc,
  for_each (λ sched m,
    _ ← cassert (negb (m =? n)%N);
    md ← node_at t m;
    match nd_event md with None => Err AssertFailed | Some e => Ok (sched ++ [e]) end) acc (tail ms) =
  Ok (acc ++ es).
Proof.
  intros Hp. induction Hp as [|k q qd e ms es Hup Hq He Hp IH]; intros Hle acc; cbn [tail].
  { by rewrite app_nil_r. }
  destruct (up_lt k q Hup) as [Hlt _]. destruct ms as [|m0 ms]; [by inversion Hp|].
  assert (m0 = q) as -> by (by inversion Hp). cbn [for_each].
  rewrite (proj2 (N.eqb_neq q n)) by lia. cbn [negb cassert].
  rewrite bind_Ok_l, (node_at_ok t q qd Hq), bind_Ok_l, He, bind_Ok_l.
  cbn [tail] in IH. rewrite (IH ltac:(lia) (acc ++ [e])), <-app_assoc. done.
Qed.

Lemma rschedule_path n nd a ms es :
  path r t n ms es → tr_nodes t !! n = Some nd → nd_C nd = Some a →
  rschedule t n = Ok (es ++ [uf_root (tr_unfolding t)]).
Proof.
  intros Hp Hn HC. destruct (ok_conf_of r t n nd a Hok Hn HC) as (c & Hc & _).
  unfold rschedule, branch. rewrite (node_at_ok t n nd Hn), bind_Ok_l.
  rewrite (branch_path n ms es), bind_Ok_l by (done || by eapply node_bound).
  rewrite (path_events n ms es n Hp ltac:(lia) []), bind_Ok_l, HC. cbn [nonnull].
  by rewrite bind_Ok_l, (conf_at_ok t a c Hc), bind_Ok_l.
Qed.

Lemma schedule_path n nd a ms es :
  path r t n ms es → tr_nodes t !! n = Some nd → nd_C nd = Some a →
  schedule t n = Ok (rev (es ++ [uf_root (tr_unfolding t)])).
Proof. intros Hp Hn HC. unfold schedule. by rewrite (rschedule_path n nd a ms es), bind_Ok_l. Qed.

(** Every cause of an event of [s] comes after it in [s]. *)
Definition causes_after (h : heap) (s : list eid) : Prop :=
  ∀ (l2 : list eid) x (l1 : list eid), s = l2 ++ x :: l1 → ∀ y, causal_lt h y x → y ∈ l1.

Lemma nothing_below_root x c :
  configured (tr_unfolding t) c → ¬ causal_lt (tr_heap t) x (uf_root (tr_unfolding t)).
Proof.
  intros Hc Hlt. destruct (uo_root _ (co_uf _ _ (cd_ok _ _ Hc))) as (e & He & Hk).
  apply causal_lt_alt in Hlt as (e' & He' & q & Hq & _). assert (e' = e) as -> by congruence.
  unfold ev_kind in Hk. unfold predecessors in Hq. destruct (ev_data e); try discriminate Hk.
  by apply elem_of_nil in Hq.
Qed.

Lemma executed_closed n c x y :
  configured (tr_unfolding t) c → executed r (tr_unfolding t) n c x →
  causal_lt (tr_heap t) y x → executed r (tr_unfolding t) n c y.
Proof.
  intros Hc Hx Hlt. destruct (decide (n = r)) as [->|Hne].
  - apply executed_root in Hx as ->. by destruct (nothing_below_root y c Hc).
  - rewrite executed_ne in * by done. eapply (conf_le _ _ (cd_ok _ _ Hc)); [done|].
    apply causal_le_alt. by right.
Qed.

(** The events on the path of a node with a configuration. *)
Lemma path_executed n ms es nd c :
  path r t n ms es → tr_nodes t !! n = Some nd → conf_of t nd c →
  NoDup (es ++ [uf_root (tr_unfolding t)]) ∧
  (∀ x, x ∈ es ++ [uf_root (tr_unfolding t)] ↔ executed r (tr_unfolding t) n c x) ∧
  causes_after (tr_heap t) (es ++ [uf_root (tr_unfolding t)]).
Proof.
  intros Hp. revert nd c. induction Hp as [|n q qd e ms es Hup Hq He Hp IH]; intros nd c Hn Hc.
  - assert (configured (tr_unfolding t) c) as Hcd.
    { destruct Hc as (a & _ & Ha). by apply (to_confs _ _ Hok a). }
    cbn. split_and!; [apply NoDup_singleton | |].
    + intros x. by rewrite list_elem_of_singleton, executed_root.
    + intros l2 x l1 E y Hlt. destruct l2 as [|? [|]]; try discriminate E. injection E as <- <-.
      by destruct (nothing_below_root y c Hcd).
  - destruct (up_lt n q Hup) as [_ Hne].
    destruct (up_conf n q nd Hup Hn) as (qd' & l & ld & Hq' & Hl & Hld & HC & Hlo).
    assert (qd' = qd) as -> by congruence.
    assert (conf_of t ld c) as Hc' by (by apply (conf_of_eq t nd ld c (eq_sym HC))).
    assert (configured (tr_unfolding t) c) as Hcd.
    { destruct Hc as (a & _ & Ha). by apply (to_confs _ _ Hok a). }
    destruct (lo_conf _ _ _ _ _ _ Hlo c e Hc' He) as (c0 & Hc0 & Hnew & Hin).
    destruct (IH qd c0 Hq Hc0) as (Hnd & Hx & Hca). cbn. split_and!.
    + apply list.NoDup_cons. split; [by rewrite Hx | done].
    + intros x. by rewrite elem_of_cons, Hx, (executed_ne r _ n c x Hne), Hin.
    + intros l2 x l1 E y Hlt. destruct l2 as [|e' l2]; injection E as <- E.
      * rewrite <-E, Hx. assert (in_conf (tr_unfolding t) c y) as Hy.
        { eapply (conf_le _ _ (cd_ok _ _ Hcd)); [apply Hin; by left|]. apply causal_le_alt. by right. }
        apply Hin in Hy as [->|Hy]; [|done].
        by destruct (causal_lt_irrefl _ e (uo_wf _ (co_uf _ _ (cd_ok _ _ Hcd)))).
      * by apply (Hca l2 x l1 E).
Qed.
End ok.
End schedule.
