(* ===== verification/NodeBranch.v ===== *)
(** * Right branches

    [make_right_branch] adds the events of an alternative below a new right
    child, in an order in which they can be replayed, and returns what has to
    be replayed from the closest standby state. *)

From stdpp Require Import base tactics list gmap numbers relations.
From S2P Require Import Prelude StdMap ThreadId Event Comb CombEnum CombProofs Cone Alloc Causality.
From S2P Require Import AllocProofs HeapExt Order Walks Demo Independence Unfolding Configuration.
From S2P Require Import Cex ColorProofs UnfoldingProofs DedupProofs Scenario Dependence Heads.
From S2P Require Import Booking ConfInv OpBase OpProofs OpCond Startup System Erv ErvProofs Node.
From S2P Require Import NodeInv NodeOps NodeCatch.

(** ** The order in which a right branch replays its events

    Events are emitted when all their causes in the set have been; an event
    that ends an atomic operation follows the one that starts it directly. *)

Section order.
Context {PL : Payload} {AL : Allocator} (h : heap) (E : eid → Prop).
Implicit Types (x y p v : eid) (out w l : list eid) (pairs : smap eid eid).

(** [v] ends the atomic operation that [p] starts. *)
Definition atomic_pair p v : Prop :=
  E v ∧ ∃ ev, h !! v = Some ev ∧ ends_atomic_operation ev = true ∧ atomic_predecessor ev = Some p.

Definition ends_atomic v : Prop := at_event h v (λ ev, ends_atomic_operation ev = true).

(** Every cause in [E] of an event of the list comes before it. *)
Definition causes_before l : Prop :=
  ∀ (l1 : list eid) x (l2 : list eid), l = l1 ++ x :: l2 → ∀ y, E y → causal_lt h y x → y ∈ l1.

(** What the set has to satisfy: an event that ends an atomic operation has
    one cause, which is in the set and starts no other atomic operation. *)
Record atomic_ok : Prop := {
  ao_wf : wf_heap h;
  ao_stored x : E x → is_Some (h !! x);
  ao_pred v : E v → ends_atomic v → ∃ p, atomic_pair p v ∧ E p;
  ao_cause p v y : atomic_pair p v → causal_lt h y v → causal_le h y p;
  ao_below p v : atomic_pair p v → causal_lt h p v;
  ao_inj p v v' : atomic_pair p v → atomic_pair p v' → v = v';
}.

(** [out] has been emitted, [w] is to be emitted next. *)
Record emitting out w pairs : Prop := {
  em_nodup : NoDup (out ++ w);
  em_in x : x ∈ out ++ w → E x;
  em_causes : causes_before out;
  em_ready x y : x ∈ w → E y → causal_lt h y x → y ∈ out;
  em_sorted : smap_sorted pairs;
  em_pairs p v : smap_find p pairs = Some v ↔ atomic_pair p v ∧ p ∉ out;
  em_late p v : atomic_pair p v → v ∈ out ++ w → p ∈ out;
  em_next p v : atomic_pair p v → p ∈ out →
    (∃ l1 l2, out = l1 ++ p :: v :: l2) ∨ (∃ l1 w', out = l1 ++ [p] ∧ w = v :: w');
}.

Context (Hao : atomic_ok).

Lemma atomic_pair_inj p p' v : atomic_pair p v → atomic_pair p' v → p = p'.
Proof. intros (_ & e & He & _ & H1) (_ & e' & He' & _ & H2). congruence. Qed.

Lemma causes_before_snoc l x :
  causes_before l → (∀ y, E y → causal_lt h y x → y ∈ l) → causes_before (l ++ [x]).
Proof.
  intros Hl Hx l1 z l2 Heq y Hy Hlt.
  destruct (list.last l2) as [b|] eqn:Hlast.
  - apply last_Some in Hlast as [l2' ->].
    replace (l1 ++ z :: l2' ++ [b]) with ((l1 ++ z :: l2') ++ [b]) in Heq by (by rewrite <-app_assoc).
    apply app_inj_tail in Heq as [Heq _]. by eapply Hl.
  - apply last_None in Hlast as ->. apply app_inj_tail in Heq as [-> ->]. auto.
Qed.

(** Emitting [e]; the event that ends the operation [e] starts is next. *)
Lemma emit_step out e w pairs :
  emitting out (e :: w) pairs →
  match smap_find e pairs with
  | Some v => emitting (out ++ [e]) (v :: w) (smap_erase e pairs)
  | None => emitting (out ++ [e]) w pairs
  end.
Proof.
  intros Hem. pose proof (em_nodup _ _ _ Hem) as Hnd.
  apply NoDup_app in Hnd as (Hno & Hdis & Hnw). apply list.NoDup_cons in Hnw as [Hew Hnw].
  assert (e ∉ out) as Heo by (intros He; apply (Hdis e He); left).
  assert (causes_before (out ++ [e])) as Hcb.
  { apply causes_before_snoc; [apply Hem|]. intros y. apply (em_ready _ _ _ Hem). left. }
  assert (∀ p v, atomic_pair p v → p ∈ out ++ [e] → p ≠ e →
    ∃ l1 l2, out ++ [e] = l1 ++ p :: v :: l2) as Hnext.
  { intros p v Hpv Hp Hpe. apply elem_of_app in Hp as [Hp|Hp]; [|by apply list_elem_of_singleton in Hp].
    destruct (em_next _ _ _ Hem p v Hpv Hp) as [(l1 & l2 & ->)|(l1 & w' & -> & [= <- ->])].
    - exists l1, (l2 ++ [e]). by rewrite <-app_assoc.
    - exists l1, []. by rewrite <-app_assoc. }
  assert (∀ p v, atomic_pair p v → v ∈ (out ++ [e]) ++ w → p ∈ out ++ [e]) as Hlate.
  { intros p v Hpv Hv. apply elem_of_app. left. apply (em_late _ _ _ Hem p v Hpv).
    rewrite <-app_assoc in Hv. done. }
  destruct (smap_find e pairs) as [v|] eqn:Hf.
  - apply (em_pairs _ _ _ Hem) in Hf as [Hev _].
    assert (v ∉ out ++ e :: w) as Hv by (intros Hv; by apply Heo, (em_late _ _ _ Hem e v)).
    split.
    + rewrite <-app_assoc. cbn. rewrite not_elem_of_app, not_elem_of_cons in Hv.
      apply NoDup_app. split_and!; [done | |].
      * intros x Hx. specialize (Hdis x Hx). rewrite elem_of_cons in Hdis.
        rewrite !elem_of_cons. intros [->|[->|Hxw]]; tauto.
      * rewrite !list.NoDup_cons, elem_of_cons. split_and!; [|tauto|done].
        intros [<-|?]; tauto.
    + intros x. rewrite <-app_assoc. cbn. rewrite elem_of_app, !elem_of_cons. intros Hx.
      destruct (decide (x = v)) as [->|]; [apply Hev|]. apply (em_in _ _ _ Hem).
      rewrite elem_of_app, elem_of_cons. tauto.
    + done.
    + intros x y [->|Hx]%elem_of_cons Hy Hlt; apply elem_of_app.
      * apply (ao_cause Hao e v y Hev), causal_le_alt in Hlt as [->|Hlt]; [right; left|].
        left. apply (em_ready _ _ _ Hem e); [left | done | done].
      * left. apply (em_ready _ _ _ Hem x); [by right | done | done].
    + by apply smap_erase_sorted, Hem.
    + intros p v'. destruct (decide (p = e)) as [->|Hpe].
      * rewrite smap_find_erase_eq by apply Hem. split; [done|]. intros [_ Hn].
        destruct Hn. apply elem_of_app. right. left.
      * rewrite smap_find_erase_ne, (em_pairs _ _ _ Hem) by (done || apply Hem).
        rewrite not_elem_of_app, list_elem_of_singleton. tauto.
    + intros p v' Hpv. destruct (decide (v' = v)) as [->|Hvv].
      * intros _. assert (p = e) as -> by (by eapply atomic_pair_inj).
        apply elem_of_app. right. left.
      * intros Hv'. apply (Hlate p v' Hpv). rewrite elem_of_app in *. rewrite elem_of_cons in Hv'.
        tauto.
    + intros p v' Hpv Hp. destruct (decide (p = e)) as [->|Hpe]; [|left; by apply Hnext].
      assert (v' = v) as -> by (by eapply (ao_inj Hao)). right. by exists out, w.
  - assert (∀ v, ¬ atomic_pair e v) as Hno_pair.
    { intros v Hev. assert (smap_find e pairs = Some v) by (by apply (em_pairs _ _ _ Hem)). congruence. }
    split.
    + rewrite <-app_assoc. apply Hem.
    + intros x. rewrite <-app_assoc. apply Hem.
    + done.
    + intros x y Hx Hy Hlt. apply elem_of_app. left. apply (em_ready _ _ _ Hem x); [by right | done | done].
    + apply Hem.
    + intros p v. rewrite (em_pairs _ _ _ Hem), not_elem_of_app, list_elem_of_singleton.
      split; [|tauto]. intros [Hpv Hn]. split_and!; [done | done |]. intros ->. by eapply Hno_pair.
    + done.
    + intros p v Hpv Hp. left. apply Hnext; [done | done |]. intros ->. by eapply Hno_pair.
Qed.

Lemma smap_erase_length (m : smap eid eid) k v :
  smap_sorted m → smap_find k m = Some v → length m = S (length (smap_erase k m)).
Proof.
  intros Hs. induction m as [|[k' v'] m IH]; simpl; [done|].
  destruct (std_less k k'); [done|]. destruct (std_less k' k); [|done].
  intros Hf. simpl. f_equal. apply IH; [|done]. by inversion Hs.
Qed.

(** [insert_atomic] emits the list together with the ends of its operations. *)
Lemma insert_atomic_spec fuel out w pairs :
  emitting out w pairs → length w + length pairs ≤ fuel →
  ∃ l pairs', insert_atomic fuel w pairs = Ok (l, pairs') ∧ emitting (out ++ l) [] pairs' ∧
    ∀ x, x ∈ w → x ∈ l.
Proof.
  revert out w pairs. induction fuel as [|fuel IH]; intros out [|e w] pairs Hem Hf; cbn [insert_atomic].
  - exists [], pairs. rewrite app_nil_r. split_and!; [done | done | by intros ? ?%elem_of_nil].
  - simpl in Hf. lia.
  - exists [], pairs. rewrite app_nil_r. split_and!; [done | done | by intros ? ?%elem_of_nil].
  - pose proof (emit_step out e w pairs Hem) as Hst.
    destruct (smap_find e pairs) as [v|] eqn:Hfe.
    + pose proof (smap_erase_length pairs e v (em_sorted _ _ _ Hem) Hfe).
      destruct (IH (out ++ [e]) (v :: w) (smap_erase e pairs) Hst) as (l & ps & -> & Hem' & Hw);
        [simpl in *; lia|].
      rewrite bind_Ok_l. exists (e :: l), ps. rewrite <-app_assoc in Hem'. split_and!; [done | done |].
      intros x [->|Hx]%elem_of_cons; [left | right; apply Hw; by right].
    + destruct (IH (out ++ [e]) w pairs Hst) as (l & ps & -> & Hem' & Hw); [simpl in *; lia|].
      rewrite bind_Ok_l. exists (e :: l), ps. rewrite <-app_assoc in Hem'. split_and!; [done | done |].
      intros x [->|Hx]%elem_of_cons; [left | right; by apply Hw].
Qed.

(** ** The rounds of the loop *)

Context (K : eid → Prop) (HK : conflict_free h K) (HEK : ∀ x, E x → K x).

(** Between two rounds the comb holds what is left but for the events that
    end atomic operations. *)
Record round out (B : comb) pairs : Prop := {
  rd_emitting : emitting out [] pairs;
  rd_ok : comb_ok h B;
  rd_events x : x ∈ comb_events B ↔ E x ∧ ¬ ends_atomic x ∧ x ∉ out;
}.

Lemma ends_atomic_pair p v : atomic_pair p v → ends_atomic v.
Proof. intros (_ & e & He & H & _). by exists e. Qed.

(** The event that ends an atomic operation is out once the start is. *)
Lemma round_pair out B pairs p v : round out B pairs → atomic_pair p v → p ∈ out → v ∈ out.
Proof.
  intros Hr Hpv Hp. destruct (em_next _ _ _ (rd_emitting _ _ _ Hr) p v Hpv Hp) as
    [(l1 & l2 & ->)|(l1 & w' & _ & [=])]. apply elem_of_app. right. right. left.
Qed.

(** An event without a cause in the comb can be emitted. *)
Lemma round_ready out B pairs x : round out B pairs →
  (∀ y, y ∈ comb_events B → ¬ causal_lt h y x) → ∀ y, E y → causal_lt h y x → y ∈ out.
Proof.
  intros Hr Hmin y. remember (dep h y) as d eqn:Hd. revert y Hd.
  induction d as [d IH] using lt_wf_ind. intros y -> Hy Hlt.
  destruct (decide (y ∈ out)) as [|Hn]; [done|].
  assert (ends_atomic y ∨ ¬ ends_atomic y) as [He|He].
  { destruct (ao_stored Hao y Hy) as [ey Hey]. destruct (ends_atomic_operation ey) eqn:E1.
    - left. by exists ey.
    - right. intros (ey' & Hey' & E2). congruence. }
  - destruct (ao_pred Hao y Hy He) as (p & Hpy & Hp).
    pose proof (ao_below Hao p y Hpy) as Hb.
    apply (round_pair out B pairs p y Hr Hpy), (IH (dep h p)); [| done | done |].
    + by apply causal_lt_dep; [apply Hao|].
    + by etrans.
  - destruct (Hmin y); [|done]. by apply (rd_events _ _ _ Hr).
Qed.

Lemma list_minimum (f : eid → nat) l x : x ∈ l → ∃ y, y ∈ l ∧ ∀ z, z ∈ l → f y ≤ f z.
Proof.
  revert x. induction l as [|a l IH]; intros x Hx; [by apply elem_of_nil in Hx|].
  destruct l as [|b l].
  { exists a. split; [left|]. intros z Hz%list_elem_of_singleton. by subst. }
  destruct (IH b) as (y & Hy & Hmin); [left|]. destruct (decide (f a ≤ f y)).
  - exists a. split; [left|]. intros z [->|Hz]%elem_of_cons; [done|]. specialize (Hmin z Hz). lia.
  - exists y. split; [by right|]. intros z [->|Hz]%elem_of_cons; [lia|]. by apply Hmin.
Qed.

Lemma sorted_events B B' : Forall2 (≡ₚ) (t_events <$> smap_vals B) (t_events <$> smap_vals B') →
  ∀ x, x ∈ comb_events B ↔ x ∈ comb_events B'.
Proof. intros Hp x. by apply concat_perm_elem. Qed.

Lemma comb_size_lt B B' x : comb_ok h B → comb_ok h B' →
  (∀ y, y ∈ comb_events B' → y ∈ comb_events B) → x ∈ comb_events B → x ∉ comb_events B' →
  comb_size B' < comb_size B.
Proof.
  intros Hok Hok' Hsub Hx Hn.
  enough (length (x :: comb_events B') ≤ length (comb_events B)) by (unfold comb_size; simpl in *; lia).
  apply submseteq_length, NoDup_submseteq.
  - apply list.NoDup_cons. split; [done | by apply (comb_ok_nodup h)].
  - intros y [->|Hy]%elem_of_cons; auto.
Qed.

(** A round emits the minimal events and the ends of their operations. *)
Lemma round_step out B pairs : round out B pairs → comb_empty B = false →
  ∃ B1 min l pairs' B2, comb_sort h B = Ok B1 ∧ comb_min h B1 = Ok min ∧
    insert_atomic (length min + length pairs) min pairs = Ok (l, pairs') ∧
    comb_remove_range h l B1 = Ok B2 ∧ round (out ++ l) B2 pairs' ∧ comb_size B2 < comb_size B.
Proof.
  intros Hr Hne. pose proof (ao_wf Hao) as Hwf.
  destruct (comb_sort_spec h B (rd_ok _ _ _ Hr)) as (B1 & Hs & Hok1 & Hs1 & Hp1).
  pose proof (sorted_events _ _ Hp1) as Hx1.
  assert (∀ x, x ∈ comb_events B1 ↔ E x ∧ ¬ ends_atomic x ∧ x ∉ out) as Hev
    by (intros x; rewrite <-Hx1; apply Hr).
  assert (∀ x, x ∈ comb_events B1 → K x) as HBK by (intros x [? _]%Hev; auto).
  destruct (comb_min_gen h B1 (lt_of h)) as (min & Hm & Hnd & Hxm);
    [done | intros; apply (lt_of_ok h _ Hwf HK); auto
    | intros x y z; intros; apply (lt_of_trans h _ Hwf HK x y z); auto |].
  assert (∀ x, x ∈ min → x ∈ comb_events B ∧ ∀ y, y ∈ comb_events B → ¬ causal_lt h y x) as Hmin.
  { intros x [Hx Hm']%Hxm. split; [by apply Hx1|]. intros y Hy. apply Hx1 in Hy.
    apply (lt_of_false h _ Hwf HK); auto. }
  pose proof (rd_emitting _ _ _ Hr) as Hem.
  assert (emitting out min pairs) as Hem1.
  { split; try apply Hem.
    - apply NoDup_app. split_and!; [|intros x Hx Hxm'|done].
      + pose proof (em_nodup _ _ _ Hem) as H0. by rewrite app_nil_r in H0.
      + apply Hmin in Hxm' as [(_ & _ & ?)%(rd_events _ _ _ Hr) _]. done.
    - intros x [Hx|Hx]%elem_of_app.
      + apply (em_in _ _ _ Hem). rewrite app_nil_r. done.
      + by apply Hmin in Hx as [[? _]%(rd_events _ _ _ Hr) _].
    - intros x y Hx. apply Hmin in Hx as [_ Hx]. by apply (round_ready out B pairs).
    - intros p v Hpv [Hv|Hv]%elem_of_app.
      + apply (em_late _ _ _ Hem p v Hpv). by rewrite app_nil_r.
      + apply Hmin in Hv as [(_ & Hv & _)%(rd_events _ _ _ Hr) _]. destruct Hv.
        by eapply ends_atomic_pair.
    - intros p v Hpv Hp. left.
      destruct (em_next _ _ _ Hem p v Hpv Hp) as [|(? & ? & _ & [=])]; done. }
  destruct (insert_atomic_spec _ out min pairs Hem1 (le_n _)) as (l & ps & Hl & Hem2 & Hml).
  assert (∀ x, x ∈ l → E x) as HlE.
  { intros x Hx. apply (em_in _ _ _ Hem2). rewrite app_nil_r. apply elem_of_app. by right. }
  destruct (comb_remove_range_spec h l B1) as (B2 & HB2 & Hok2 & Hs2 & Hx2); [|done|done|].
  { apply Forall_forall. intros x Hx. apply (ao_stored Hao). auto. }
  exists B1, min, l, ps, B2. split_and!; [done | done | done | done | split; [done | done |] |].
  - intros x. rewrite Hx2, Hev, not_elem_of_app. tauto.
  - assert (∃ x, x ∈ comb_events B1) as (x0 & Hx0).
    { destruct (comb_events B1) as [|x0 ?] eqn:EB; [|exists x0; left].
      assert (comb_empty B = true); [|congruence]. apply (comb_empty_spec h B (rd_ok _ _ _ Hr)).
      intros x Hx. apply (Hx1 x) in Hx. revert Hx. apply not_elem_of_nil. }
    destruct (list_minimum (dep h) _ x0 Hx0) as (x & Hx & Hd).
    assert (x ∈ min) as Hxmin.
    { apply Hxm. split; [done|]. intros y Hy. apply (lt_of_false h _ Hwf HK); [auto..|].
      intros Hlt%(causal_lt_dep h _ _ Hwf). specialize (Hd y Hy). lia. }
    apply (comb_size_lt B B2 x); [apply Hr | done | | by apply Hx1 |].
    + intros y [_ Hy]%Hx2. by apply Hx1.
    + intros [Hnl _]%Hx2. by apply Hnl, Hml.
Qed.

(** *** What the events are emitted as *)

Record replay_order l : Prop := {
  ro_nodup : NoDup l;
  ro_events x : x ∈ l ↔ E x;
  ro_causes : causes_before l;
  ro_atomic p v : atomic_pair p v → ∃ l1 l2, l = l1 ++ p :: v :: l2;
}.

Lemma round_done out B pairs : round out B pairs → comb_empty B = true → replay_order out.
Proof.
  intros Hr He. rewrite (comb_empty_spec h B (rd_ok _ _ _ Hr)) in He.
  pose proof (rd_emitting _ _ _ Hr) as Hem.
  assert (∀ x, E x → x ∈ out) as Hall.
  { intros x Hx. destruct (decide (x ∈ out)) as [|Hn]; [done|].
    assert (¬ ¬ ends_atomic x) as Hnn by (intros H; by apply (He x), (rd_events _ _ _ Hr)).
    destruct (ao_stored Hao x Hx) as [ex Hex]. destruct (ends_atomic_operation ex) eqn:E1.
    - destruct (ao_pred Hao x Hx) as (p & Hpx & Hp); [by exists ex|].
      apply (round_pair out B pairs p x Hr Hpx).
      apply (round_ready out B pairs x Hr); [|done|by apply (ao_below Hao)].
      intros y Hy _. by apply (He y).
    - destruct Hnn. intros (ex' & Hex' & E2). congruence. }
  pose proof (em_nodup _ _ _ Hem) as Hnd. pose proof (em_in _ _ _ Hem) as Hin.
  rewrite app_nil_r in Hnd. split; [done | | apply Hem |].
  - intros x. split; [|by apply Hall]. intros Hx. apply Hin. by rewrite app_nil_r.
  - intros p v Hpv.
    destruct (em_next _ _ _ Hem p v Hpv) as [Hn|(l1 & w' & _ & [=])]; [|done].
    apply Hall. destruct Hpv as (Hv & ev & Hev & Ha & Hp).
    destruct (ao_pred Hao v Hv) as (p' & Hp' & HEp); [by exists ev|].
    assert (p = p') as -> by (eapply atomic_pair_inj; [|done]; by split; [|exists ev]). done.
Qed.

(** ** Taking out the ends of atomic operations *)

(** The pairs of the events seen so far. *)
Record pairs_of l pairs : Prop := {
  po_sorted : smap_sorted pairs;
  po_find p v : smap_find p pairs = Some v ↔ atomic_pair p v ∧ v ∈ l;
}.

Lemma pairs_of_step l pairs v ev :
  pairs_of l pairs → E v → h !! v = Some ev →
  pairs_of (l ++ [v])
    (if ends_atomic_operation ev then
       match atomic_predecessor ev with Some p => smap_emplace p v pairs | None => pairs end
     else pairs).
Proof.
  intros [Hs Hf] Hv Hev.
  assert ((∀ p, ¬ atomic_pair p v) → pairs_of (l ++ [v]) pairs) as Hsame.
  { intros Hn. split; [done|]. intros p w. rewrite Hf, elem_of_app, list_elem_of_singleton.
    split; [tauto|]. intros [Hp [?| ->]]; [done|]. by destruct (Hn p). }
  destruct (ends_atomic_operation ev) eqn:Ha;
    [destruct (atomic_predecessor ev) as [q|] eqn:Hq|].
  2, 3: apply Hsame; intros p (_ & ev' & Hev' & ? & ?); congruence.
  assert (atomic_pair q v) as Hqv by (split; [done | by exists ev]).
  split; [by apply smap_emplace_sorted|]. intros p w. unfold smap_emplace.
  rewrite elem_of_app, list_elem_of_singleton.
  destruct (smap_find q pairs) as [v'|] eqn:Hfq.
  - rewrite Hf. apply Hf in Hfq as [Hqv' Hin]. assert (v' = v) as -> by (by apply (ao_inj Hao q)).
    split; [tauto|]. intros [Hp [?| ->]]; done.
  - destruct (smap_find_set q p v pairs) as [[<- ->]|[Hne ->]].
    + split; [intros [= <-]; by auto|]. intros [Hw _]. f_equal. by apply (ao_inj Hao q).
    + rewrite Hf. split; [tauto|]. intros [Hp [?| ->]]; [done|].
      destruct Hne. by eapply atomic_pair_inj.
Qed.

Lemma collect_pairs l : (∀ x, x ∈ l → E x) →
  ∃ pairs, for_each (λ map e,
      ee ← deref h e;
      Ok (if ends_atomic_operation ee then
            match atomic_predecessor ee with
            | Some pred => smap_emplace pred e map
            | None => map
            end
          else map)) [] l = Ok pairs ∧ pairs_of l pairs.
Proof.
  induction l as [|v l IH] using rev_ind; intros Hl.
  { exists []. split; [done|]. split; [apply smap_sorted_nil|]. intros p v.
    rewrite elem_of_nil. split; [done | tauto]. }
  destruct IH as (pairs & Hp & Hps); [intros x Hx; apply Hl, elem_of_app; by left|].
  assert (E v) as Hv by (apply Hl, elem_of_app; right; left).
  destruct (ao_stored Hao v Hv) as [ev Hev].
  rewrite for_each_app, Hp, bind_Ok_l. cbn [for_each].
  rewrite (proj2 (deref_ok h v ev) Hev), !bind_Ok_l. eexists. split; [done|].
  by apply pairs_of_step.
Qed.

Lemma remove_all m B : Forall (λ '(_, v), stored h v) m → comb_ok h B → comb_is_sorted B = true →
  NoDup (smap_vals m) → (∀ v, v ∈ smap_vals m → v ∈ comb_events B) →
  ∃ B', for_each (λ A '(_, v), comb_remove h v A) B (m : smap eid eid) = Ok B' ∧ comb_ok h B' ∧
    comb_is_sorted B' = true ∧ ∀ x, x ∈ comb_events B' ↔ x ∉ smap_vals m ∧ x ∈ comb_events B.
Proof.
  intros Hm. revert B. induction Hm as [|[p v] m [ev Hev] Hm IH]; intros B Hok Hs Hnd Hin;
    cbn [for_each].
  { exists B. split_and!; [done..|]. intros x. unfold smap_vals. simpl. rewrite elem_of_nil. tauto. }
  unfold smap_vals in *. simpl in Hnd, Hin. apply list.NoDup_cons in Hnd as [Hv Hnd].
  assert (comb_remove h v B = comb_remove_from (ev_tid ev) v B) as ->
    by (unfold comb_remove; by rewrite (proj2 (deref_ok h v ev) Hev), bind_Ok_l).
  assert (on_thread h (ev_tid ev) v) as Hon by (by exists ev).
  assert (v ∈ t_events (comb_tooth (ev_tid ev) B)) as Ht
    by (apply (comb_tooth_elem h); [done | split; [apply Hin; left | done]]).
  destruct (smap_find (ev_tid ev) B) as [t|] eqn:Hf;
    [|unfold comb_tooth in Ht; rewrite Hf in Ht; by apply elem_of_nil in Ht].
  destruct (comb_remove_from_spec h B (ev_tid ev) t v) as (B1 & -> & Hok1 & Hs1 & Hx1); [done..|].
  rewrite bind_Ok_l. destruct (IH B1) as (B' & -> & Hok' & Hs' & Hx'); [done..| |].
  { intros x Hx. apply Hx1. split; [by intros ->|]. apply Hin. by right. }
  exists B'. split_and!; [done..|]. intros x. rewrite Hx', Hx1. simpl. rewrite not_elem_of_cons. tauto.
Qed.

Lemma extract_ok A : comb_ok h A → comb_is_sorted A = true → (∀ x, x ∈ comb_events A ↔ E x) →
  ∃ B pairs, extract_atomic_pairs h A = Ok (B, pairs) ∧ round [] B pairs.
Proof.
  intros Hok Hs HE. unfold extract_atomic_pairs.
  destruct (collect_pairs (comb_events A)) as (pairs & -> & Hps); [by intros x ?%HE|].
  rewrite bind_Ok_l. pose proof (po_sorted _ _ Hps) as Hsp.
  assert (∀ p v, (p, v) ∈ pairs ↔ atomic_pair p v) as Hel.
  { intros p v. rewrite smap_elem_find, (po_find _ _ Hps) by done. split; [tauto|].
    intros Hp. split; [done|]. apply HE, Hp. }
  assert (∀ v, v ∈ smap_vals pairs ↔ ∃ p, atomic_pair p v) as Hvals.
  { intros v. unfold smap_vals. rewrite list_elem_of_fmap. split.
    - intros ([p w] & -> & Hp). exists p. by apply Hel.
    - intros (p & Hp). exists (p, v). split; [done | by apply Hel]. }
  destruct (remove_all pairs A) as (B & -> & HokB & _ & HxB); [| done | done | | |].
  - apply Forall_forall. intros [p v] Hp%Hel. apply (ao_stored Hao), Hp.
  - pose proof (smap_sorted_nodup pairs Hsp) as Hnk. unfold smap_keys, smap_vals in *. clear -Hnk Hel.
    assert (∀ p v, (p, v) ∈ pairs → atomic_pair p v) as Hel' by (by intros ? ? ?%Hel). clear Hel.
    induction pairs as [|[p v] m IH]; simpl in *; [constructor|].
    apply list.NoDup_cons in Hnk as [Hp Hnk]. apply list.NoDup_cons.
    split; [|apply IH; [done | intros; apply Hel'; by right]].
    intros ([p' v'] & -> & Hin)%list_elem_of_fmap. apply Hp, list_elem_of_fmap.
    exists (p', v'). split; [|done]. simpl. apply (atomic_pair_inj p p' v'); apply Hel'; [left | by right].
  - intros v (p & Hv & _)%Hvals. by apply HE.
  - rewrite bind_Ok_l. exists B, pairs. split; [done|]. split; [split | done |].
    + constructor.
    + by intros x ?%elem_of_nil.
    + intros l1 x l2 Hl. by destruct l1.
    + by intros x y ?%elem_of_nil.
    + done.
    + intros p v. rewrite <-(smap_elem_find p v pairs), Hel by done. rewrite elem_of_nil. tauto.
    + by intros p v _ ?%elem_of_nil.
    + by intros p v _ ?%elem_of_nil.
    + intros x. rewrite HxB, Hvals, HE, elem_of_nil. split.
      * intros [Hn HEx]. split_and!; [done | | tauto]. intros Hx. destruct Hn.
        destruct (ao_pred Hao x HEx Hx) as (p & Hp & _). by exists p.
      * intros (HEx & Hn & _). split; [|done]. intros (p & Hp). by eapply Hn, ends_atomic_pair.
Qed.
End order.

Section branch.
Context {PL : Payload} {AL : Allocator} {St : Type}.
Implicit Types (t : tree (St := St)) (n l m q s k r : nid) (nd ld md qd kd : node (St := St)).
Implicit Types (e x : eid) (es ord cu : list eid) (ms : list nid).

(** ** Paths in a tree that grows *)

(** Paths of [t] are paths of [t']. *)
Definition keeps_paths r t t' : Prop := ∀ n ms es, path r t n ms es → path r t' n ms es.

#[export] Instance keeps_paths_preorder r : PreOrder (keeps_paths r).
Proof. split; [by intros t n ms es | intros t1 t2 t3 H1 H2 n ms es Hp; by apply H2, H1]. Qed.

Section grow.
Context r t t' n k nd nd' kd (Hok : tree_ok r t) (Hnc : new_child t t' n k nd nd' kd).
Hypothesis Hleft : ∀ l, nd_left nd = Some l → nd_left nd' = Some l.
Hypothesis Hright : ∀ m, nd_right nd = Some m → nd_right nd' = Some m.
Hypothesis Hevent : ∀ e, nd_event nd = Some e → nd_event nd' = Some e.

Lemma grow_node m md : tr_nodes t !! m = Some md → ∃ md', tr_nodes t' !! m = Some md' ∧
  nd_parent md' = nd_parent md ∧ (∀ l, nd_left md = Some l → nd_left md' = Some l) ∧
  (∀ l, nd_right md = Some l → nd_right md' = Some l) ∧
  (∀ e, nd_event md = Some e → nd_event md' = Some e).
Proof.
  intros Hm. destruct (new_child_old r t t' n k nd nd' kd Hok Hnc m md Hm)
    as (md' & Hm' & (Hp & _ & _) & [[-> ->]|[_ ->]]).
  - assert (md = nd) as -> by (pose proof (nc_node _ _ _ _ _ _ _ Hnc); congruence).
    exists nd'. split_and!; [done | done | exact Hleft | exact Hright | exact Hevent].
  - exists md. by split_and!.
Qed.

Lemma grow_up m q : up t m q → up t' m q.
Proof.
  induction 1 as [m md q qd Hm Hp Hq Hl|m md p pd q Hm Hp Hpd Hr _ IH].
  - destruct (grow_node m md Hm) as (md' & Hm' & Hp' & _).
    destruct (grow_node q qd Hq) as (qd' & Hq' & _ & Hl' & _).
    apply (up_left t' m md' q qd'); [done | by rewrite Hp' | done | by apply Hl'].
  - destruct (grow_node m md Hm) as (md' & Hm' & Hp' & _).
    destruct (grow_node p pd Hpd) as (pd' & Hpd' & _ & _ & Hr' & _).
    apply (up_right t' m md' p pd'); [done | by rewrite Hp' | done | by apply Hr' | done].
Qed.

Lemma grow_paths : keeps_paths r t t'.
Proof.
  intros m ms es. induction 1 as [|m q qd e ms es Hup Hq He Hp IH]; [constructor|].
  destruct (grow_node q qd Hq) as (qd' & Hq' & _ & _ & _ & He').
  eapply path_step; [by apply grow_up | done | by apply He' | done].
Qed.

Lemma grow_old : n ≠ k ∧ tr_nodes t' !! n = Some nd' ∧ tr_nodes t' !! k = Some kd.
Proof.
  pose proof (nc_node _ _ _ _ _ _ _ Hnc) as Hn. destruct (new_child_node _ _ _ _ _ _ _ Hnc) as [Hk Hn'].
  assert (n ≠ k) by (by eapply new_child_unused). auto.
Qed.

Lemma grow_left e ms es : path r t n ms es → nd_left nd' = Some k → nd_event nd' = Some e →
  path r t' k (k :: ms) (e :: es).
Proof.
  intros Hp Hl He. destruct grow_old as (_ & Hn' & Hk).
  apply (path_step r t' k n nd' e ms es); [|done | done | by apply grow_paths].
  apply (up_left t' k kd n nd'); [done | apply Hnc | done | done].
Qed.

Lemma grow_right ms es : n ≠ r → path r t n ms es → nd_right nd' = Some k →
  path r t' k (k :: tail ms) es.
Proof.
  intros Hne Hp Hr. destruct grow_old as (_ & Hn' & Hk). apply grow_paths in Hp.
  inversion Hp as [|? q qd e ms' es' Hup Hq He Hp']; subst; [done|].
  apply (path_step r t' k q qd e ms' es'); [|done | done | done].
  apply (up_right t' k kd n nd' q); [done | apply Hnc | done | done | done].
Qed.
End grow.

(** ** The first child of the root *)

(** The root has its event and its left child [f], which has a standby state;
    no other node than the root has the sweep bit. *)
Record first_ok r f t : Prop := {
  fo_root : ∃ rd, tr_nodes t !! r = Some rd ∧ is_Some (nd_event rd) ∧ nd_left rd = Some f;
  fo_first : ∃ fd, tr_nodes t !! f = Some fd ∧ is_Some (nd_standby_state fd);
  fo_sweep n nd : n ≠ r → tr_nodes t !! n = Some nd → nd_is_sweep_node nd = false;
}.

Lemma first_no_event r f t n nd :
  first_ok r f t → tr_nodes t !! n = Some nd → nd_event nd = None → n ≠ r.
Proof.
  intros Hf Hn He E. destruct (fo_root _ _ _ Hf) as (rd & Hr & [e Hre] & _). congruence.
Qed.

Lemma first_new_child r f t t' n k nd nd' kd :
  tree_ok r t → new_child t t' n k nd nd' kd → first_ok r f t →
  (∀ l, nd_left nd = Some l → nd_left nd' = Some l) →
  (∀ e, nd_event nd = Some e → nd_event nd' = Some e) →
  nd_standby_state nd' = nd_standby_state nd →
  (nd_is_sweep_node nd = false → nd_is_sweep_node nd' = false) → nd_is_sweep_node kd = false →
  first_ok r f t'.
Proof.
  intros Hok Hnc [(rd & Hr & [e He] & Hl) (fd & Hf & Hs) Hsw] Hleft Hev Hst Hsn Hsk.
  pose proof (nc_node _ _ _ _ _ _ _ Hnc) as Hn. split.
  - destruct (new_child_old r t t' n k nd nd' kd Hok Hnc r rd Hr) as (rd' & Hr' & _ & [[E ->]|[_ ->]]).
    + exists nd'. assert (rd = nd) as -> by congruence. split_and!; [done | | by apply Hleft].
      exists e. by apply Hev.
    + exists rd. split_and!; [done | by eauto | done].
  - destruct (new_child_old r t t' n k nd nd' kd Hok Hnc f fd Hf) as (fd' & Hf' & _ & [[E ->]|[_ ->]]).
    + exists nd'. split; [done|]. rewrite Hst. by assert (fd = nd) as <- by congruence.
    + by exists fd.
  - intros m md Hne Hm.
    destruct (new_child_inv t t' n k nd nd' kd Hnc m md Hm) as [[-> ->]|[[-> ->]|(_ & _ & Hm')]].
    + done.
    + by apply Hsn, (Hsw n).
    + by apply (Hsw m).
Qed.

(** ** The chain of left children *)

(** What adding nodes without configurations does to the tree. *)
Record extended r t t' : Prop := {
  xd_ok : tree_ok r t';
  xd_paths : keeps_paths r t t';
  xd_first f : first_ok r f t → first_ok r f t';
  xd_unfolding : tr_unfolding t' = tr_unfolding t;
}.

#[export] Instance extended_trans r : Transitive (extended r).
Proof. intros t1 t2 t3 [_ H1 H2 H3] [H0 H4 H5 H6]. split; [done | by etrans | auto | congruence]. Qed.

(** [k] is a leaf reached by [es] that must not execute [D]. *)
Definition leaf_at r t k es (D : list eid) : Prop :=
  (∃ ms, path r t k ms es) ∧ ∃ kd, tr_nodes t !! k = Some kd ∧ nd_event kd = None ∧ nd_D kd = D.

Lemma left_chain r w t n es D cu :
  tree_ok r t → leaf_at r t n es D →
  ∃ t' k, for_each (λ '(t, n, catch_up) a,
      '(t, l) ← make_left_child_event t n a;
      ld ← node_at t l;
      p ← nonnull (nd_parent ld);
      pd ← node_at t p;
      _ ← cassert (bool_decide (nd_event pd = Some a));
      Ok (t, l, catch_up ++ [a])) (t, n, cu) w = Ok (t', k, cu ++ w) ∧
    extended r t t' ∧ leaf_at r t' k (rev w ++ es) D.
Proof.
  revert t n es cu. induction w as [|a w IH]; intros t n es cu Hok Hleaf; cbn [for_each].
  { exists t, n. rewrite app_nil_r. split_and!; [done | by split | done]. }
  destruct Hleaf as ((ms & Hp) & nd & Hn & He & HD).
  destruct (make_left_child_event_ok r t n nd a Hok Hn He) as (t1 & l & Hrun & Hok1 & Hnc & Hu).
  destruct (to_leaf _ _ Hok n nd Hn He) as [Hl Hr].
  destruct (grow_old r t t1 n l nd (left_parent nd l a) (left_node nd n None None) Hok Hnc)
    as (Hne & Hn1 & Hl1).
  rewrite Hrun, bind_Ok_l, (node_at_ok t1 l _ Hl1), bind_Ok_l. cbn [left_node nd_parent nonnull].
  rewrite bind_Ok_l, (node_at_ok t1 n _ Hn1), bind_Ok_l. cbn [left_parent nd_event].
  rewrite bool_decide_true by done. cbn [cassert]. rewrite !bind_Ok_l.
  assert (extended r t t1) as Hext.
  { split; [done | | | done].
    - apply (grow_paths r t t1 n l nd _ _ Hok Hnc); simpl; congruence.
    - intros f Hf. assert (nd_is_sweep_node nd = false) as Hs
        by (apply (fo_sweep _ _ _ Hf n); [by eapply first_no_event | done]).
      apply (first_new_child r f t t1 n l nd _ _ Hok Hnc Hf); simpl; congruence. }
  destruct (IH t1 l (a :: es) (cu ++ [a]) Hok1) as (t' & k & Hrest & Hext' & Hleaf').
  { split; [exists (l :: ms)|exists (left_node nd n None None); by rewrite <-HD].
    apply (grow_left r t t1 n l nd _ _ Hok Hnc); simpl; congruence. }
  exists t', k. rewrite <-app_assoc in Hrest. split_and!; [done | by etrans |].
  cbn [rev]. by rewrite <-app_assoc.
Qed.

Lemma branch_loop_ok r K E A pairs fuel t n es D out cu :
  tree_ok r t → leaf_at r t n es D →
  atomic_ok (tr_heap t) E → conflict_free (tr_heap t) K → (∀ x, E x → K x) →
  round (tr_heap t) E out A pairs → comb_size A ≤ fuel →
  ∃ t' k ord, branch_loop t fuel A pairs n cu = Ok (t', cu ++ ord) ∧ extended r t t' ∧
    leaf_at r t' k (rev ord ++ es) D ∧ replay_order (tr_heap t) E (out ++ ord).
Proof.
  revert A pairs t n es out cu. induction fuel as [|fuel IH];
    intros A pairs t n es out cu Hok Hleaf Hao HK HEK Hrd Hf; cbn [branch_loop];
    destruct (comb_empty A) eqn:He.
  2:{ destruct A as [|[tid th] A]; [done|]. destruct (proj2 (rd_ok _ _ _ _ _ Hrd) tid th) as [_ Hne];
        [by left|]. unfold comb_size, comb_events in Hf. simpl in Hf. rewrite length_app in Hf.
      destruct (t_events th); [done | simpl in Hf; lia]. }
  1, 2: exists t, n, []; rewrite !app_nil_r; split_and!; [done | by split | done |
    by eapply round_done].
  destruct (round_step (tr_heap t) E Hao K HK HEK out A pairs Hrd He)
    as (B1 & min & w & ps & B2 & -> & Hmin & Hw & HB2 & Hrd' & Hlt).
  rewrite bind_Ok_l, Hmin, bind_Ok_l, Hw, bind_Ok_l.
  destruct (left_chain r w t n es D cu Hok Hleaf) as (t1 & k1 & -> & Hext1 & Hleaf1).
  pose proof (xd_ok _ _ _ Hext1) as Hok1. pose proof (xd_unfolding _ _ _ Hext1) as Hu1.
  rewrite bind_Ok_l, Hu1, HB2, bind_Ok_l.
  destruct (IH B2 ps t1 k1 (rev w ++ es) (out ++ w) (cu ++ w)) as
    (t' & k & ord & -> & Hext' & Hleaf' & Hro); rewrite ?Hu1; [done..| lia |].
  exists t', k, (w ++ ord). rewrite <-!app_assoc. split_and!; [done | by etrans | | ].
  - rewrite rev_app_distr, <-app_assoc. done.
  - rewrite Hu1, <-app_assoc in Hro. done.
Qed.

(** ** Catching up from the closest standby state *)

(** [s] is the closest node above [n], or [n], that has a standby state. *)
Inductive closest t : nid → nid → Prop :=
  | closest_here n nd : tr_nodes t !! n = Some nd → is_Some (nd_standby_state nd) → closest t n n
  | closest_up n nd p s : tr_nodes t !! n = Some nd → nd_standby_state nd = None →
      nd_parent nd = Some p → closest t p s → closest t n s.

Section catch_up.
Context r t (Hok : tree_ok r t).

Lemma find_standby_ok n s fuel : closest t n s → N.to_nat n ≤ fuel → find_standby t fuel n = Ok s.
Proof.
  intros Hc. revert fuel. induction Hc as [n nd Hn [st Hs]|n nd p s Hn Hs Hp _ IH]; intros fuel Hf.
  - destruct fuel; cbn [find_standby]; by rewrite (node_at_ok t n nd Hn), bind_Ok_l, Hs.
  - destruct (ok_parent_lt r t n nd p Hok Hn Hp) as (Hlt & _ & _).
    destruct fuel as [|fuel]; [lia|]. cbn [find_standby].
    rewrite (node_at_ok t n nd Hn), bind_Ok_l, Hs, Hp. apply IH. lia.
Qed.

Lemma path_inv n ms es : path r t n ms es → n ≠ r →
  ∃ q qd e ms' es', up t n q ∧ tr_nodes t !! q = Some qd ∧ nd_event qd = Some e ∧
    path r t q ms' es' ∧ es = e :: es'.
Proof. intros Hp Hne. destruct Hp as [|n q qd e ms es]; [done|]. by exists q, qd, e, ms, es. Qed.

(** The path of [n] runs through its standby node. *)
Lemma closest_path n s ms es : closest t n s → path r t n ms es →
  ∃ es2 es' ms', es = es2 ++ es' ∧ path r t s ms' es'.
Proof.
  intros Hc. revert ms es. induction Hc as [n nd Hn _|n nd p s Hn _ Hp _ IH]; intros ms es Hpath.
  { by exists [], es, ms. }
  destruct (ok_parent_lt r t n nd p Hok Hn Hp) as (_ & Hne & _).
  destruct (path_inv n ms es Hpath Hne) as (q & qd & e & ms' & es' & Hup & Hq & He & Hp' & ->).
  inversion Hup as [? nd1 ? qd1 Hn1 Hp1 Hq1 Hl1|? nd1 p1 pd1 ? Hn1 Hp1 Hpd1 Hr1 Hup1]; subst.
  - assert (q = p) as -> by congruence. destruct (IH _ _ Hp') as (es2 & es3 & ms3 & -> & Hs).
    by exists (e :: es2), es3, ms3.
  - assert (p1 = p) as -> by congruence. apply (IH (p :: ms')). by eapply path_step.
Qed.

Lemma last_included_ok s ms e es : path r t s ms (e :: es) → last_included_event t s = Ok (Some e).
Proof.
  inversion 1 as [|? q qd ? ms' ? Hup Hq He Hp]; subst. unfold last_included_event.
  assert (∃ sd p, tr_nodes t !! s = Some sd ∧ nd_parent sd = Some p) as (sd & p & Hs & Hpar)
    by (destruct Hup; by eauto).
  rewrite (node_at_ok t s sd Hs), bind_Ok_l, Hpar.
  rewrite (branch_next_up r t Hok s q), bind_Ok_l by (pose proof (node_bound r t Hok s sd Hs); (done || lia)).
  cbn [nonnull]. by rewrite bind_Ok_l, (node_at_ok t q qd Hq), bind_Ok_l, He.
Qed.
End catch_up.

Lemma events_until_app x es rest acc :
  x ∉ es → events_until (Some x) (es ++ x :: rest) acc = rev es ++ acc.
Proof.
  revert acc. induction es as [|y es IH]; intros acc Hx; cbn [events_until app].
  { by rewrite bool_decide_true. }
  apply not_elem_of_cons in Hx as [Hne Hx]. rewrite bool_decide_false by congruence.
  rewrite IH by done. cbn [rev]. by rewrite <-app_assoc.
Qed.

(** Every node but the root has one below the root. *)
Lemma closest_exists r f t n nd : tree_ok r t → first_ok r f t → tr_nodes t !! n = Some nd → n ≠ r →
  ∃ s, closest t n s ∧ s ≠ r.
Proof.
  intros Hok Hf. revert nd. induction (N.lt_wf_0 n) as [n _ IH]. intros nd Hn Hne.
  destruct (nd_standby_state nd) as [st|] eqn:Hs.
  { exists n. split; [|done]. apply (closest_here t n nd); by eauto. }
  destruct (to_parent _ _ Hok n nd Hn Hne) as (p & pd & Hp & Hpd & Hor).
  destruct (ok_parent_lt r t n nd p Hok Hn Hp) as (Hlt & _ & _).
  destruct (decide (p = r)) as [E|Hpr].
  - destruct (to_root _ _ Hok) as (rd & Hr & _ & Hright & _).
    destruct (fo_root _ _ _ Hf) as (rd' & Hr' & _ & Hl). destruct (fo_first _ _ _ Hf) as (fd & Hfd & [st Hst]).
    rewrite E in Hpd. assert (pd = rd ∧ rd' = rd) as [-> ->] by (split; congruence).
    destruct Hor as [Hl'|Hr'']; [|congruence]. assert (n = f) by congruence. congruence.
  - destruct (IH p Hlt pd Hpd Hpr) as (s & Hc & Hsr). exists s. split; [|done].
    by apply (closest_up t n nd p s).
Qed.

Lemma closest_grow r t t' n k nd nd' kd m s :
  tree_ok r t → new_child t t' n k nd nd' kd → nd_standby_state nd' = nd_standby_state nd →
  closest t m s → closest t' m s.
Proof.
  intros Hok Hnc Hst. assert (∀ m md, tr_nodes t !! m = Some md → ∃ md', tr_nodes t' !! m = Some md' ∧
    nd_parent md' = nd_parent md ∧ nd_standby_state md' = nd_standby_state md) as Hnode.
  { intros m0 md Hm. destruct (new_child_old r t t' n k nd nd' kd Hok Hnc m0 md Hm)
      as (md' & Hm' & (Hp & _ & _) & [[-> ->]|[_ ->]]); [|by eauto].
    assert (md = nd) as -> by (pose proof (nc_node _ _ _ _ _ _ _ Hnc); congruence). by eauto. }
  induction 1 as [m md Hm Hs|m md p s Hm Hs Hp _ IH];
    destruct (Hnode m md Hm) as (md' & Hm' & Hp' & Hs').
  - apply (closest_here t' m md'); [done | by rewrite Hs'].
  - apply (closest_up t' m md' p); [done | by rewrite Hs' | by rewrite Hp' | done].
Qed.

(** ** [make_right_branch] *)

(** The events of [A] as the right branch of [n] adds them. *)
Lemma make_right_branch_ok r K t n nd e a s A ms es :
  let E x := x ∈ comb_events A in
  tree_ok r t → n ≠ r → tr_nodes t !! n = Some nd → nd_event nd = Some e → nd_right nd = None →
  nd_C nd = Some a → closest t n s → s ≠ r → path r t n ms es →
  comb_ok (tr_heap t) A → comb_is_sorted A = true → atomic_ok (tr_heap t) E →
  conflict_free (tr_heap t) K → (∀ x, E x → K x) →
  ∃ t' k ord es2 es' ms', make_right_branch t n A = Ok (t', Leaf s (rev es2 ++ ord)) ∧
    extended r t t' ∧ replay_order (tr_heap t) E ord ∧
    leaf_at r t' k (rev ord ++ es) (nd_D nd ++ [e]) ∧
    es = es2 ++ es' ∧ path r t s ms' es'.
Proof.
  intros E Hok Hnr Hn He Hr HC Hcl Hsr Hp HA Hsort Hao HK HEK.
  destruct (make_right_child_ok r t n nd e Hok Hnr Hn He Hr) as (t1 & m & Hrun & Hok1 & Hnc & Hu & Hcs);
    [by eauto|].
  destruct (ok_conf_of r t n nd a Hok Hn HC) as (c & Hc & Hof & _).
  destruct (path_executed r t Hok n ms es nd c Hp Hn Hof) as (Hnd & _ & _).
  destruct (ok_parent_some r t n nd Hok Hn Hnr) as [p Hpar].
  assert (keeps_paths r t t1) as Hkp
    by (apply (grow_paths r t t1 n m nd _ _ Hok Hnc); simpl; congruence).
  destruct (grow_old r t t1 n m nd _ _ Hok Hnc) as (Hnm & Hn1 & Hm1).
  destruct (closest_path r t Hok n s ms es Hcl Hp) as (es2 & es' & ms' & Hes & Hps).
  destruct (path_inv r t s ms' es' Hps Hsr) as (q & qd & x & ms2 & es3 & _ & _ & _ & _ & Hes').
  unfold make_right_branch. rewrite (node_at_ok t n nd Hn), bind_Ok_l, He, Hpar.
  rewrite !bool_decide_true by eauto. cbn [cassert]. rewrite !bind_Ok_l, Hrun, bind_Ok_l.
  rewrite (find_standby_ok r t1 Hok1 n s), bind_Ok_l;
    [|by apply (closest_grow r t t1 n m nd _ _ n s Hok Hnc)
     | pose proof (node_bound r t1 Hok1 n _ Hn1); lia].
  rewrite (last_included_ok r t1 Hok1 s ms' x es3), bind_Ok_l by (apply Hkp; by rewrite <-Hes').
  rewrite (rschedule_path r t1 Hok1 n _ a ms es (Hkp _ _ _ Hp) Hn1 HC), bind_Ok_l, Hu.
  assert (events_until (Some x) (es ++ [uf_root (tr_unfolding t)]) [] = rev es2) as ->.
  { rewrite Hes, Hes', <-app_assoc. cbn [app]. rewrite events_until_app, app_nil_r; [done|].
    rewrite Hes, Hes', <-app_assoc in Hnd. apply NoDup_app in Hnd as (_ & Hd & _).
    intros Hx. apply (Hd x Hx). left. }
  destruct (extract_ok (tr_heap t) E Hao A HA Hsort) as (B & pairs & -> & Hrd); [done|].
  rewrite bind_Ok_l.
  destruct (branch_loop_ok r K E B pairs (comb_size B) t1 m es (nd_D nd ++ [e]) [] (rev es2))
    as (t' & k & ord & -> & Hext' & Hleaf & Hro); rewrite ?Hu; try done.
  { split; [|by exists (right_node nd n e)]. exists (m :: tail ms).
    apply (grow_right r t t1 n m nd _ _ Hok Hnc); simpl; congruence. }
  rewrite Hu in Hro. rewrite bind_Ok_l. exists t', k, ord, es2, es', ms'.
  split_and!; [done | | done | done | done | done].
  etrans; [|exact Hext']. split; [done | done | | done]. intros f Hf.
  apply (first_new_child r f t t1 n m nd _ _ Hok Hnc Hf); simpl; congruence.
Qed.
End branch.
