(* ===== verification/NodeRun.v ===== *)
(** * Exploring the tree

    The steps in which the executor builds and reads the tree: it extends a
    node by an operation on its configuration, forks a local choice, replays
    events, adds right branches, backtracks, and inserts events into the
    unfolding. Every tree that these steps reach satisfies [tree_ok]. *)

From stdpp Require Import base tactics list gmap numbers relations.
From S2P Require Import Prelude StdMap ThreadId Event Comb CombEnum CombProofs Cone Alloc Causality.
From S2P Require Import AllocProofs HeapExt Order Walks Demo Independence Unfolding Configuration.
From S2P Require Import Cex ColorProofs UnfoldingProofs DedupProofs Scenario Dependence Heads.
From S2P Require Import Booking ConfInv OpBase OpProofs OpCond Startup System TraceProofs AltProps.
From S2P Require Import Node NodeInv NodeOps NodeCatch NodeBranch.

Section run.
Context {PL : Payload} {AL : Allocator} {St : Type}.
Implicit Types (t : tree (St := St)) (n l m f r : nid) (nd ld rd : node (St := St)).
Implicit Types (u : unfolding) (c : configuration) (o : operation) (x : extension) (st : St).

(** ** Steps *)

Definition set_conf t (a : N) c : tree (St := St) :=
  Tree (tr_nodes t) (<[a := c]> (tr_confs t)) (tr_unfolding t) (tr_next t).

Definition set_unfolding t u : tree (St := St) :=
  Tree (tr_nodes t) (tr_confs t) u (tr_next t).

(** The configuration of [n] hands out the extension [x] for [o]. *)
Definition hands_out t n o t' x : Prop :=
  ∃ nd a c c', tr_nodes t !! n = Some nd ∧ nd_C nd = Some a ∧ tr_confs t !! a = Some c ∧
    admissible (tr_unfolding t) c o ∧ apply_op (tr_heap t) c o = Ok (c', x) ∧ t' = set_conf t a c'.

(** What a caller of [make_right_branch] passes. *)
Record branch_events (h : heap) (A : comb) : Prop := {
  be_ok : comb_ok h A;
  be_sorted : comb_is_sorted A = true;
  be_atomic : atomic_ok h (λ p, p ∈ comb_events A);
  be_free : ∃ K, conflict_free h K ∧ ∀ p, p ∈ comb_events A → K p;
}.

Inductive explores r t : tree → Prop :=
  | ex_extend n o t1 x standby t' l : n ≠ r → hands_out t n o t1 x →
      make_left_child t1 n x standby = Ok (t', l) → explores r t t'
  | ex_fork n o t1 x standby t' l : n ≠ r → hands_out t n o t1 x →
      make_right_local_child t1 n x standby = Ok (t', l) → explores r t t'
  | ex_catch_up n m md l o t1 x standby next t' k : n ≠ r → hands_out t n o t1 x →
      replays t next n m → tr_nodes t !! m = Some md → nd_left md = Some l →
      node_catch_up t1 n x standby next = Ok (t', k) → explores r t t'
  | ex_branch n A t' lf : branch_events (tr_heap t) A →
      make_right_branch t n A = Ok (t', lf) → explores r t t'
  | ex_backtrack n t' : backtrack t n = Ok t' → explores r t t'
  | ex_insert u : uf_ok u → heap_ext (tr_heap t) (uf_heap u) →
      uf_root u = uf_root (tr_unfolding t) → explores r t (set_unfolding t u).

(** The executor creates the root, which holds [program_init], and at once
    the child for the first event of the main thread, which always gets a
    standby state ([PorEventManager::shouldRegisterStandbyState]). *)
Definition started r f t : Prop :=
  ∃ garbage t0 st, new_tree garbage = Ok (t0, r) ∧ make_left_child_init t0 r (Some st) = Ok (t, f).

Definition reachable_tree r f t : Prop := ∃ t0, started r f t0 ∧ rtc (explores r) t0 t.

(** ** The invariant *)

Definition exploring r f t : Prop := tree_ok r t ∧ first_ok r f t.

Lemma set_conf_ok r t a c c' :
  tree_ok r t → tr_confs t !! a = Some c → configured (tr_unfolding t) c' → cf_addr c' = a →
  cf_thread_heads c' = cf_thread_heads c → tree_ok r (set_conf t a c').
Proof.
  intros Hok Ha Hc Haddr Hh.
  assert (tree_ext t (set_conf t a c')) as Hx.
  { split; cbn; [lia | | done | done]. intros b d Hb. rewrite lookup_insert. case_decide as E; [|by eauto].
    exists c'. split; [done|]. congruence. }
  apply (ok_same_nodes r t); [done | done | done |].
  intros b d. cbn. rewrite lookup_insert. case_decide as E.
  - intros [= <-]. split; [|congruence | done]. rewrite <-E. by apply (to_confs _ _ Hok a c).
  - intros Hb. by destruct (to_confs _ _ Hok b d Hb).
Qed.

Lemma handed_out r f t n o t1 x : exploring r f t → hands_out t n o t1 x →
  ∃ nd a c c', tr_nodes t !! n = Some nd ∧ nd_C nd = Some a ∧ tr_confs t !! a = Some c ∧
    tr_nodes t1 = tr_nodes t ∧ tr_unfolding t1 = tr_unfolding t ∧ tr_confs t1 !! a = Some c' ∧
    configured (tr_unfolding t) c ∧ cf_addr c = a ∧ admissible (tr_unfolding t) c o ∧
    apply_op (tr_heap t) c o = Ok (c', x) ∧ exploring r f t1.
Proof.
  intros [Hok Hf] (nd & a & c & c' & Hn & HC & Hc & Ha & Hop & ->).
  destruct (to_confs _ _ Hok a c Hc) as [_ Haddr Hcd].
  destruct (ex_configured _ c c' o x Hcd Ha Hop) as (Hcd' & Hh & Haddr' & _).
  exists nd, a, c, c'. split_and!; try done; [apply lookup_insert_eq | split].
  - apply (set_conf_ok r t a c c'); [done.. | congruence | done].
  - by destruct Hf.
Qed.

Lemma set_unfolding_ok r f t u : exploring r f t → uf_ok u → heap_ext (tr_heap t) (uf_heap u) →
  uf_root u = uf_root (tr_unfolding t) → exploring r f (set_unfolding t u).
Proof.
  intros [Hok Hf] Hu Hx Hr. split; [|by destruct Hf].
  assert (tree_ext t (set_unfolding t u)) as Hte by (split; cbn; [lia | eauto | done | done]).
  apply (ok_same_nodes r t); [done | done | done |].
  intros a c Ha. destruct (to_confs _ _ Hok a c Ha) as [H1 H2 H3].
  split; [done | done |]. by apply (kept_ok (tr_unfolding t)).
Qed.

(** [backtrack] leaves every tree as it is: only the root, which has a left
    child, has the sweep bit. *)
Lemma backtrack_nothing r f t n t' : exploring r f t → backtrack t n = Ok t' → t' = t.
Proof.
  intros [Hok Hf] Hb. unfold backtrack in Hb. apply bind_ok in Hb as (nd & Hn%node_at_inv & Hb).
  apply bind_ok in Hb as (v & Hc & Hb). destruct (decide (n = r)) as [->|Hne].
  - destruct (fo_root _ _ _ Hf) as (rd & Hr & _ & Hl). assert (rd = nd) as -> by congruence.
    unfold has_children in Hc. rewrite Hl, bool_decide_true in Hc by eauto. discriminate Hc.
  - rewrite (fo_sweep _ _ _ Hf n nd Hne Hn) in Hb. cbn in Hb. congruence.
Qed.

Lemma extend_explores r f t n nd e t' l C standby :
  exploring r f t → tree_ok r t' → n ≠ r → tr_nodes t !! n = Some nd → nd_event nd = None →
  new_child t t' n l nd (left_parent nd l e) (left_node nd n C standby) → exploring r f t'.
Proof.
  intros [Hok Hf] Hok' Hne Hn He Hnc. split; [done|].
  destruct (to_leaf _ _ Hok n nd Hn He) as [Hl _]. pose proof (fo_sweep _ _ _ Hf n nd Hne Hn) as Hs.
  apply (first_new_child r f t t' n l nd _ _ Hok Hnc Hf); simpl; congruence.
Qed.

Lemma fork_explores r f t n nd e t' m :
  exploring r f t → tree_ok r t' → tr_nodes t !! n = Some nd → nd_right nd = None →
  new_child t t' n m nd (right_parent nd m) (right_node nd n e) → exploring r f t'.
Proof.
  intros [Hok Hf] Hok' Hn Hr Hnc. split; [done|].
  apply (first_new_child r f t t' n m nd _ _ Hok Hnc Hf); simpl; congruence.
Qed.

(** *** What the assertions of the operations establish *)

Lemma cassert_true b v : cassert b = Ok v → b = true.
Proof. by destruct b. Qed.

Lemma make_left_child_leaf t n x (standby : option St) t' l :
  make_left_child t n x standby = Ok (t', l) → ∃ nd, tr_nodes t !! n = Some nd ∧ nd_event nd = None.
Proof.
  unfold make_left_child. intros H. apply bind_ok in H as (nd & Hn%node_at_inv & H).
  apply bind_ok in H as (v & Ha & _). unfold assert_no_left in Ha.
  apply bind_ok in Ha as (w & _ & Ha%cassert_true). exists nd. split; [done|].
  apply negb_true_iff, bool_decide_eq_false in Ha. destruct (nd_event nd); [|done]. by destruct Ha.
Qed.

Lemma make_right_child_free t n t' m : make_right_child t n = Ok (t', m) →
  ∃ nd e, tr_nodes t !! n = Some nd ∧ nd_right nd = None ∧ nd_event nd = Some e.
Proof.
  unfold make_right_child. intros H. apply bind_ok in H as (nd & Hn%node_at_inv & H).
  apply bind_ok in H as (v & Ha%cassert_true & H). apply bind_ok in H as (e & He & _).
  exists nd, e. split_and!; [done | | by destruct (nd_event nd); simplify_eq].
  apply negb_true_iff, bool_decide_eq_false in Ha. destruct (nd_right nd); [|done]. by destruct Ha.
Qed.

Lemma make_right_local_child_free t n x (standby : option St) t' l :
  make_right_local_child t n x standby = Ok (t', l) →
  ∃ nd e ee, tr_nodes t !! n = Some nd ∧ nd_right nd = None ∧ nd_event nd = Some e ∧
    tr_heap t !! e = Some ee ∧ ev_kind ee = local.
Proof.
  unfold make_right_local_child. intros H. apply bind_ok in H as (nd & Hn%node_at_inv & H).
  apply bind_ok in H as (e & He & H). apply bind_ok in H as (ee & Hee%deref_ok & H).
  apply bind_ok in H as (v & Hk%cassert_true & H). apply bind_ok in H as ([t1 m] & Hr & _).
  destruct (make_right_child_free t n t1 m Hr) as (nd' & e' & Hn' & Hright & He').
  exists nd', e', ee. assert (nd' = nd) as -> by congruence.
  assert (e' = e) as -> by (rewrite He' in He; congruence).
  split_and!; [done..|]. by apply kind_eqb_eq.
Qed.

Lemma make_right_branch_free t n A t' lf : make_right_branch t n A = Ok (t', lf) →
  ∃ nd e p a, tr_nodes t !! n = Some nd ∧ nd_right nd = None ∧ nd_event nd = Some e ∧
    nd_parent nd = Some p ∧ nd_C nd = Some a.
Proof.
  unfold make_right_branch. intros H. apply bind_ok in H as (nd & Hn%node_at_inv & H).
  apply bind_ok in H as (v & _ & H). apply bind_ok in H as (v' & Hp%cassert_true & H).
  apply bool_decide_eq_true in Hp as [p Hp]. apply bind_ok in H as ([t1 m] & Hr & H).
  destruct (make_right_child_free t n t1 m Hr) as (nd' & e & Hn' & Hright & He).
  assert (nd' = nd) as -> by congruence. apply bind_ok in H as (s & _ & H).
  apply bind_ok in H as (sl & _ & H). apply bind_ok in H as (sched & Hs & _).
  unfold rschedule in Hs. apply bind_ok in Hs as (nd1 & Hn1%node_at_inv & Hs).
  apply bind_ok in Hs as (b & _ & Hs). apply bind_ok in Hs as (sc & _ & Hs).
  apply bind_ok in Hs as (a & HC & _). exists nd, e, p, a. split_and!; try done.
  assert (nd_C nd1 = Some a) as HC1 by (destruct (nd_C nd1); simpl in HC; congruence).
  rewrite <-HC1. clear -Hr Hn Hn1. unfold make_right_child in Hr.
  rewrite (node_at_ok t n nd Hn), bind_Ok_l in Hr. apply bind_ok in Hr as (_ & _ & Hr).
  apply bind_ok in Hr as (e & _ & Hr). unfold allocate_right_child in Hr.
  rewrite (node_at_ok t n nd Hn), !bind_Ok_l in Hr. unfold new_node in Hr.
  unfold upd_node in Hr. apply bind_ok in Hr as (t2 & Ht2 & Hr).
  apply bind_ok in Ht2 as (nd2 & Hn2%node_at_inv & [= <-]).
  apply bind_ok in Hr as (t3 & Ht3 & [= <- <-]). apply bind_ok in Ht3 as (rd & Hrd%node_at_inv & [= <-]).
  cbn in *. rewrite !lookup_insert in *. repeat case_decide; simplify_eq; done.
Qed.

(** *** Every step keeps the invariant *)

Lemma extend_step r f t n o t1 x standby t' l :
  exploring r f t → n ≠ r → hands_out t n o t1 x → make_left_child t1 n x standby = Ok (t', l) →
  exploring r f t'.
Proof.
  intros He Hne Ho Hrun. destruct (handed_out r f t n o t1 x He Ho) as
    (nd & a & c & c' & Hn & HC & Hc & En & Eu & Hc1 & Hcd & Haddr & Ha & Hop & He1).
  destruct (make_left_child_leaf t1 n x standby t' l Hrun) as (nd' & Hn' & Hev).
  assert (nd' = nd) as -> by (rewrite En in Hn'; congruence). rewrite <-Eu in *.
  destruct (make_left_child_ok r t1 n nd a c o c' x standby (proj1 He1) Hne Hn' Hev HC Hc1 Hcd Haddr Ha Hop)
    as (t2 & l2 & p & b & c2 & Hrun2 & Hok2 & Hnc & _). rewrite Hrun in Hrun2. injection Hrun2 as <- <-.
  by eapply extend_explores.
Qed.

Lemma fork_step r f t n o t1 x standby t' l :
  exploring r f t → n ≠ r → hands_out t n o t1 x → make_right_local_child t1 n x standby = Ok (t', l) →
  exploring r f t'.
Proof.
  intros He Hne Ho Hrun. destruct (handed_out r f t n o t1 x He Ho) as
    (nd & a & c & c' & Hn & HC & Hc & En & Eu & Hc1 & Hcd & Haddr & Ha & Hop & He1).
  destruct (make_right_local_child_free t1 n x standby t' l Hrun) as (nd' & e & ee & Hn' & Hr & Hev & Hee & Hk).
  assert (nd' = nd) as -> by (rewrite En in Hn'; congruence). rewrite <-Eu in *.
  destruct (make_right_local_child_ok r t1 n nd e ee a c o c' x standby (proj1 He1) Hne Hn' Hev Hee Hk
    Hr HC Hc1 Hcd Haddr Ha Hop)
    as (t2 & m & t3 & l3 & p & b & c2 & Hrun2 & Hok2 & Hok3 & Hnc & Hnc' & _).
  rewrite Hrun in Hrun2. injection Hrun2 as <- <-.
  assert (exploring r f t2) as He2 by (by eapply fork_explores).
  apply (extend_explores r f t2 m (right_node nd n e) p t' l (Some b) standby); try done; [|apply Hnc'].
  eapply first_no_event; [exact (proj2 He2) | apply Hnc' | done].
Qed.

Lemma replays_same_nodes t t' (next : eid) n m :
  replays t next n m → tr_nodes t' = tr_nodes t → replays t' next n m.
Proof.
  intros Hrp E. induction Hrp as [n nd Hn Hev|n nd e k m Hn Hev Hne Hr _ IH]; rewrite <-E in Hn.
  - by apply (rp_here t' next n nd).
  - by apply (rp_right t' next n nd e k m).
Qed.

Lemma catch_up_step r f t n m md l o t1 x standby next t' k :
  exploring r f t → n ≠ r → hands_out t n o t1 x → replays t next n m → tr_nodes t !! m = Some md →
  nd_left md = Some l → node_catch_up t1 n x standby next = Ok (t', k) → exploring r f t'.
Proof.
  intros He Hne Ho Hrp Hm Hl Hrun. destruct (handed_out r f t n o t1 x He Ho) as
    (nd & a & c & c' & Hn & HC & Hc & En & Eu & Hc1 & Hcd & Haddr & Ha & Hop & He1).
  assert (replays t1 next n m) as Hrp1 by (by apply (replays_same_nodes t)).
  rewrite <-En in Hn, Hm. rewrite <-Eu in *.
  destruct (node_catch_up_ok r t1 n nd a c o c' x standby next (proj1 He1) Hne Hn HC Hc1 Hcd Haddr Ha Hop)
    as (u' & c2 & p & _ & Hother & Hsame). destruct (decide (p = next)) as [E|E].
  - rewrite E in Hsame. destruct (Hsame eq_refl m md l Hrp1 Hm Hl) as (t2 & Hrun2 & Hok2 & Hcu).
    rewrite Hrun in Hrun2. injection Hrun2 as <- _. split; [done|]. destruct (proj2 He1) as [Hroot Hfirst Hsw].
    destruct Hcu as [_ Hoth (ld & ld' & b & cl & Hld & Hld' & Hsw' & Hev' & Hst & _)].
    assert (l ≠ r) as Hlr.
    { destruct (to_left _ _ (proj1 He1) m md l Hm Hl) as (ld0 & Hld0 & Hlo). intros E'.
      destruct (to_root _ _ (proj1 He1)) as (rd & Hrd & Hpar & _).
      pose proof (lo_parent _ _ _ _ _ _ Hlo). congruence. }
    split.
    + by rewrite Hoth.
    + destruct (decide (f = l)) as [->|Hfl]; [|by rewrite Hoth]. exists ld'. split; [done|].
      destruct Hfirst as (fd & Hfd & Hfs). apply Hst. congruence.
    + intros q qd Hq Hqd. destruct (decide (q = l)) as [->|Hql].
      * assert (qd = ld') as -> by congruence. rewrite Hsw'. by apply (Hsw l).
      * rewrite Hoth in Hqd by done. by apply (Hsw q).
  - destruct (Hother E) as (t2 & Hrun2 & Hok2 & En2 & _). rewrite Hrun in Hrun2. injection Hrun2 as <- _.
    split; [done|]. destruct (proj2 He1). split; by rewrite En2.
Qed.

Lemma branch_step r f t n A t' lf :
  exploring r f t → branch_events (tr_heap t) A → make_right_branch t n A = Ok (t', lf) →
  exploring r f t'.
Proof.
  intros [Hok Hf] [HA Hs Hao (K & HK & HAK)] Hrun.
  destruct (make_right_branch_free t n A t' lf Hrun) as (nd & e & p & a & Hn & Hr & He & Hp & HC).
  destruct (ok_parent_lt r t n nd p Hok Hn Hp) as (_ & Hne & _).
  destruct (closest_exists r f t n nd Hok Hf Hn Hne) as (s & Hcl & Hsr).
  destruct (path_exists r t Hok n nd Hn) as (ms & es & Hpath).
  destruct (make_right_branch_ok r K t n nd e a s A ms es Hok Hne Hn He Hr HC Hcl Hsr Hpath HA Hs Hao HK HAK)
    as (t2 & k & ord & es2 & es' & ms' & Hrun2 & [Hok2 _ Hf2 _] & _).
  rewrite Hrun in Hrun2. injection Hrun2 as <- _. split; [done | by apply Hf2].
Qed.

Lemma explores_ok r f t t' : exploring r f t → explores r t t' → exploring r f t'.
Proof.
  intros He Hst. destruct Hst.
  - by eapply extend_step.
  - by eapply fork_step.
  - by eapply catch_up_step.
  - by eapply branch_step.
  - by assert (t' = t) as -> by (by eapply backtrack_nothing).
  - by apply set_unfolding_ok.
Qed.

(** *** The start *)

(** The configuration of one startup thread. *)
Lemma new_configuration_ok garbage :
  ∃ u c tid p e, new_configuration garbage 1 = Ok (u, c) ∧ configured u c ∧ cf_addr c = 1%N ∧
    cf_size c = 2 ∧ cf_thread_heads c = [(tid, p)] ∧ uf_heap u !! p = Some e ∧ ev_kind e = thread_init.
Proof.
  destruct (add_thread_ok _ (new_root_ok garbage)) as (cr & Hr & [Hok Hh Hst _] & Hl); [done|].
  simpl in Hl. unfold new_configuration, construct. rewrite Hr, bind_Ok_l.
  destruct (cr_thread_heads cr) as [|[tid p] [|]] eqn:HT; [done | | done].
  cbn [cassert]. rewrite bind_Ok_l.
  assert (smap_find tid [(tid, p)] = Some p) as Hp by (simpl; by rewrite less_irrefl).
  destruct (ho_head _ _ Hh tid p Hp) as (e & He & _ & Hk).
  do 2 eexists. exists tid, p, e. split; [done|]. split_and!; try done.
  - split; simpl; [| |done].
    + apply conf_ok_stats, conf_ok_stats. by apply startup_conf_ok.
    + apply sized_stats, sized_stats. by apply (startup_sized _ [(tid, p)]).
  - destruct (Hst p e (in_heads_head _ _ tid p Hp) He) as [Hd|[q Hd]]; unfold ev_kind in *;
      by rewrite Hd in *.
Qed.

Lemma new_tree_ok garbage :
  ∃ t c tid p e, new_tree garbage = Ok (t, 2%N) ∧ tree_ok 2 t ∧
    tr_nodes t = {[ 2%N := Node None None (Some 1%N) None [] None None true ]} ∧
    tr_confs t !! 1%N = Some c ∧ cf_size c = 2 ∧ cf_thread_heads c = [(tid, p)] ∧
    tr_heap t !! p = Some e ∧ ev_kind e = thread_init.
Proof.
  destruct (new_configuration_ok garbage) as (u & c & tid & p & e & Hc & Hcd & Ha & Hs & HT & He & Hk).
  unfold new_tree. rewrite Hc, bind_Ok_l. eexists _, c, tid, p, e. split; [done|].
  split_and!; try done. split; cbn.
  - eexists. split; [apply lookup_insert_eq|]. split_and!; by eauto.
  - intros n nd [<- _]%lookup_singleton_Some. done.
  - intros a d [<- <-]%lookup_singleton_Some. by split.
  - intros n nd a [<- <-]%lookup_singleton_Some [= <-]. exists c. apply lookup_insert_eq.
  - intros n nd [<- _]%lookup_singleton_Some. done.
  - intros n nd l [<- <-]%lookup_singleton_Some. done.
  - intros n nd l [<- <-]%lookup_singleton_Some. done.
  - intros n nd l [<- <-]%lookup_singleton_Some. done.
  - intros n nd [<- <-]%lookup_singleton_Some. done.
Qed.

Lemma start_ok garbage st : ∃ t0 t f, new_tree garbage = Ok (t0, 2%N) ∧
  make_left_child_init t0 2 (Some st) = Ok (t, f) ∧ exploring 2 f t.
Proof.
  destruct (new_tree_ok garbage) as (t0 & c & tid & p & e & Ht0 & Hok & En & Hc & Hs & HT & He & Hk).
  assert (tr_nodes t0 !! 2%N = Some (Node None None (Some 1%N) None [] None None true)) as Hr
    by (rewrite En; apply lookup_insert_eq).
  destruct (make_left_child_init_ok 2 t0 _ 1 c tid p [] e (Some st) Hok Hr)
    as (t & f & b & Hrun & Hok' & Hnc & _); [done..|].
  exists t0, t, f. split_and!; [done | done |]. split; [done|].
  destruct (grow_old 2 t0 t 2 f _ _ _ Hok Hnc) as (Hne & Hr' & Hf'). split.
  - eexists. split_and!; [exact Hr' | by eexists | done].
  - eexists. split; [exact Hf' | by eexists].
  - intros n nd Hn Hnd.
    destruct (new_child_inv t0 t 2 f _ _ _ Hnc n nd Hnd) as [[-> ->]|[[-> ->]|(_ & _ & Hn')]]; [done | done |].
    rewrite En in Hn'. apply lookup_singleton_Some in Hn' as [<- _]. done.
Qed.

Lemma started_ok r f t : started r f t → exploring r f t.
Proof.
  intros (garbage & t0 & st & Ht0 & Hrun). destruct (start_ok garbage st) as (t1 & t2 & f2 & H1 & H2 & He).
  rewrite Ht0 in H1. injection H1 as <- ->. rewrite Hrun in H2. by injection H2 as <- <-.
Qed.

Lemma reachable_exploring r f t : reachable_tree r f t → exploring r f t.
Proof.
  intros (t0 & Hst & Hrtc). apply started_ok in Hst. induction Hrtc as [|t t1 t2 Hstep _ IH]; [done|].
  by apply IH, (explores_ok r f t).
Qed.
End run.

(** ** A concrete exploration

    A checked driver extends one branch of a tree; the tree of a program with
    three threads is what the witnesses of the tree's theorems use. *)

Section driver.
Context {PL : Payload} {AL : Allocator}.
Implicit Types (t : tree (St := unit)) (n l f : nid) (o : operation).

Definition checked_hand_out t n o : res (tree (St := unit) * extension) :=
  nd ← node_at t n;
  a ← nonnull (nd_C nd);
  c ← conf_at t a;
  _ ← cassert (admissible_b (tr_unfolding t) c o);
  '(c', x) ← apply_op (tr_heap t) c o;
  Ok (set_conf t a c', x).

Lemma checked_hands_out t n o t1 x : checked_hand_out t n o = Ok (t1, x) → hands_out t n o t1 x.
Proof.
  unfold checked_hand_out. intros H. apply bind_ok in H as (nd & Hn%node_at_inv & H).
  apply bind_ok in H as (a & HC & H). apply bind_ok in H as (c & Hc%conf_at_inv & H).
  apply bind_ok in H as (v & Ha%cassert_true & H). apply bind_ok in H as ([c' x'] & Hop & H).
  injection H as <- <-. exists nd, a, c, c'. split_and!; try done.
  - destruct (nd_C nd); simpl in HC; congruence.
  - by apply admissible_b_spec.
Qed.

(** Extends the node by the operation. *)
Definition checked_extend (tn : tree (St := unit) * nid) o : res (tree (St := unit) * nid) :=
  _ ← cassert (negb (tn.2 =? 2)%N);
  '(t1, x) ← checked_hand_out tn.1 tn.2 o;
  make_left_child t1 tn.2 x None.

Definition explore (ops : list operation) : res (tree (St := unit) * nid) :=
  '(t0, r) ← new_tree 0;
  tn ← make_left_child_init t0 r (Some tt);
  for_each checked_extend tn ops.

Lemma explore_reachable ops t l : explore ops = Ok (t, l) → ∃ f, reachable_tree 2 f t.
Proof.
  unfold explore. intros H. apply bind_ok in H as ([t0 r] & H0 & H).
  apply bind_ok in H as ([t1 f] & H1 & H). exists f. exists t1.
  assert (r = 2%N) as ->.
  { destruct (new_tree_ok (St := unit) 0) as (t0' & c & tid & p & e & H0' & _). rewrite H0 in H0'. congruence. }
  split; [by exists 0%N, t0, tt|]. clear t0 H0 H1. revert t1 f H.
  induction ops as [|o ops IH]; intros t1 f H; cbn [for_each] in H; [by injection H as -> ->|].
  apply bind_ok in H as ([t2 n] & H1 & H). eapply rtc_l; [|by eapply IH].
  unfold checked_extend in H1. apply bind_ok in H1 as (v & Hne%cassert_true & H1). cbn [fst snd] in *.
  apply bind_ok in H1 as ([t1' x] & Ho%checked_hands_out & H1).
  apply (ex_extend 2 t1 f o t1' x None t2 n); [|done | done].
  apply negb_true_iff, N.eqb_neq in Hne. done.
Qed.
End driver.

Definition t2 : thread_id := [1%N; 1%N].
Definition t3 : thread_id := [1%N; 2%N].

(** A thread is created, which runs; then another one is created. *)
Definition steps : list operation :=
  [CreateThread t1 t2; InitThread t2 t1; LocalStep t2 [1%N]; CreateThread t1 t3; InitThread t3 t1].

Definition grown (k : nat) : tree (St := unit) :=
  match explore (take k steps) with Ok (t, _) => t | Err _ => Tree ∅ ∅ (new_unfolding 0) 0 end.
Definition grown_leaf (k : nat) : nid :=
  match explore (take k steps) with Ok (_, l) => l | Err _ => 0%N end.

Lemma grown_reachable (k : nat) :
  match explore (take k steps) with Ok _ => true | Err _ => false end = true →
  ∃ f, reachable_tree 2 f (grown k).
Proof.
  unfold grown. destruct (explore (take k steps)) as [[t l]|] eqn:He; [|done].
  intros _. by apply (explore_reachable (take k steps) t l).
Qed.

(** ** Checking the events of a branch *)

Section check.
Context {PL : Payload}.

Definition atomic_b (h : heap) (l : list eid) : bool :=
  forallb (λ v, match h !! v with
    | None => false
    | Some e =>
        if ends_atomic_operation e then
          match atomic_predecessor e with
          | None => false
          | Some p =>
              bool_decide (predecessors e = [p]) && bool_decide (p ∈ l) &&
              forallb (λ w, match h !! w with
                | None => true
                | Some e' => negb (ends_atomic_operation e') ||
                    negb (bool_decide (atomic_predecessor e' = Some p)) || bool_decide (w = v)
                end) l
          end
        else true
    end) l.

Lemma atomic_b_pair (h : heap) l p v : atomic_b h l = true → atomic_pair h (λ x, x ∈ l) p v →
  p ∈ l ∧ at_event h v (λ e, predecessors e = [p]) ∧
  ∀ w, atomic_pair h (λ x, x ∈ l) p w → w = v.
Proof.
  intros Hb (Hv & e & He & Ha & Hp). unfold atomic_b in Hb. rewrite forallb_elem_of in Hb.
  specialize (Hb v Hv). rewrite He, Ha, Hp in Hb. apply andb_true_iff in Hb as [Hb Hall].
  apply andb_true_iff in Hb as [H1 H2]. apply bool_decide_eq_true in H1, H2.
  split_and!; [done | by exists e |]. intros w (Hw & e' & He' & Ha' & Hp').
  rewrite forallb_elem_of in Hall. specialize (Hall w Hw). rewrite He', Ha', Hp' in Hall.
  rewrite bool_decide_true in Hall by done. by apply bool_decide_eq_true in Hall.
Qed.

Lemma atomic_b_spec (h : heap) l : wf_heap h → atomic_b h l = true → atomic_ok h (λ x, x ∈ l).
Proof.
  intros Hwf Hb. pose proof (atomic_b_pair h l) as Hpair. split.
  - done.
  - intros x Hx. unfold atomic_b in Hb. rewrite forallb_elem_of in Hb. specialize (Hb x Hx).
    destruct (h !! x); [by eauto | done].
  - intros v Hv (e & He & Ha). assert (∃ p, atomic_predecessor e = Some p) as [p Hp].
    { unfold atomic_b in Hb. rewrite forallb_elem_of in Hb. specialize (Hb v Hv). rewrite He, Ha in Hb.
      destruct (atomic_predecessor e); [by eauto | done]. }
    assert (atomic_pair h (λ x, x ∈ l) p v) as Hpv by (split; [done | by exists e]).
    exists p. split; [done|]. by apply (Hpair p v Hb).
  - intros p v y Hpv Hlt. destruct (Hpair p v Hb Hpv) as (_ & (e & He & Hp) & _).
    apply causal_lt_alt in Hlt as (e' & He' & q & Hq & Hle). assert (e' = e) as -> by congruence.
    rewrite Hp in Hq. by apply list_elem_of_singleton in Hq as ->.
  - intros p v Hpv. destruct (Hpair p v Hb Hpv) as (_ & (e & He & Hp) & _).
    apply tc_once. exists e. split; [done|]. rewrite Hp. left.
  - intros p v w Hv Hw. destruct (Hpair p v Hb Hv) as (_ & _ & Hu). symmetry. by apply Hu.
Qed.
End check.

(** The creation of the third thread, as the events of a right branch. *)
Definition third_thread : comb :=
  match comb_of_range (tr_heap (grown 5)) [6%N; 7%N] with Ok A => A | Err _ => [] end.

Lemma grown_wf : wf_heap (tr_heap (grown 5)).
Proof.
  destruct (grown_reachable 5) as [f Hr]; [vm_compute; reflexivity|].
  destruct (reachable_exploring 2 f _ Hr) as [Hok _].
  destruct (tr_confs (grown 5) !! 1%N) as [c|] eqn:Hc; [|exfalso; vm_compute in Hc; discriminate Hc].
  destruct (to_confs _ _ Hok 1%N c Hc) as [_ _ [Hco _ _]]. apply (conf_wf _ _ Hco).
Qed.

Definition executed_events : list eid := [1%N; 2%N; 3%N; 4%N; 5%N; 6%N; 7%N].

Lemma third_thread_executed x : x ∈ [6%N; 7%N] → x ∈ executed_events.
Proof.
  intros [->|Hx]%elem_of_cons; [|apply list_elem_of_singleton in Hx as ->];
    refine (bool_decide_eq_true_1 _ _); reflexivity.
Qed.

Lemma third_thread_events : branch_events (tr_heap (grown 5)) third_thread.
Proof.
  assert (conflict_free (tr_heap (grown 5)) (λ x, x ∈ executed_events)) as HK
    by (apply conflict_free_b_spec; vm_compute; reflexivity).
  destruct (comb_of_range_spec (tr_heap (grown 5)) _ grown_wf HK [6%N; 7%N] third_thread_executed)
    as (A & HA & Hok & Hx).
  assert (third_thread = A) as <- by (unfold third_thread; by rewrite HA).
  assert (comb_is_sorted third_thread = true) as Hs by (vm_compute; reflexivity).
  assert (atomic_b (tr_heap (grown 5)) (comb_events third_thread) = true) as Hat by (vm_compute; reflexivity).
  apply (Build_branch_events _ _ Hok Hs (atomic_b_spec _ _ grown_wf Hat)).
  exists (λ x, x ∈ executed_events). split; [exact HK|].
  intros x Hin. exact (third_thread_executed x (proj1 (Hx x) Hin)).
Qed.
