(* ===== verification/NodeDestroy.v ===== *)
(** * The destructor of the exploration tree

    The traversal visits every node below the root once, children first, and
    removes it from its parent; it needs no recursion and finds every node
    without children when it removes it. *)

From stdpp Require Import base tactics list gmap numbers relations.
From S2P Require Import Prelude StdMap ThreadId Event Comb CombEnum CombProofs Cone Alloc Causality.
From S2P Require Import AllocProofs HeapExt Order Walks Demo Independence Unfolding Configuration.
From S2P Require Import Cex ColorProofs UnfoldingProofs DedupProofs Scenario Dependence Heads.
From S2P Require Import Booking ConfInv OpBase OpProofs OpCond Startup System Node NodeInv NodeOps.

Section destroy.
Context {PL : Payload} {AL : Allocator} {St : Type}.
Implicit Types (t : tree (St := St)) (n l m p r : nid) (nd ld md pd : node (St := St)).
Implicit Types (last : option nid).

(** The parent without the child [m]. *)
Definition unlink pd m : node (St := St) :=
  if bool_decide (nd_right pd = Some m) then with_right pd None else with_left pd None.

(** [t'] is [t] without the childless node [m], a child of [p]. *)
Record removed t t' p m pd : Prop := {
  rv_node n : tr_nodes t' !! n =
    if decide (n = m) then None else if decide (n = p) then Some (unlink pd m) else tr_nodes t !! n;
  rv_confs : tr_confs t' = tr_confs t;
  rv_unfolding : tr_unfolding t' = tr_unfolding t;
  rv_next : tr_next t' = tr_next t;
}.

Lemma unlink_same pd m : same_above pd (unlink pd m) ∧ same_below pd (unlink pd m).
Proof. unfold unlink. case_bool_decide; by split_and!. Qed.

Lemma unlink_left pd m l : nd_left (unlink pd m) = Some l → nd_left pd = Some l.
Proof. unfold unlink. by case_bool_decide. Qed.

Lemma unlink_right pd m k : nd_right (unlink pd m) = Some k → nd_right pd = Some k.
Proof. unfold unlink. by case_bool_decide. Qed.

Section one.
Context r t t' p m pd md (Hok : tree_ok r t) (Hrv : removed t t' p m pd).
Context (Hm : tr_nodes t !! m = Some md) (Hpar : nd_parent md = Some p) (Hp : tr_nodes t !! p = Some pd).
Context (Hleaf : nd_left md = None ∧ nd_right md = None).

(** A node that is left was there before, with more children at most. *)
Lemma removed_inv n nd' : tr_nodes t' !! n = Some nd' → n ≠ m ∧ ∃ nd, tr_nodes t !! n = Some nd ∧
  (n = p ∧ nd' = unlink pd m ∧ nd = pd ∨ n ≠ p ∧ nd' = nd).
Proof.
  rewrite (rv_node _ _ _ _ _ Hrv). destruct (decide (n = m)) as [->|Hne]; [done|].
  destruct (decide (n = p)) as [->|Hnp].
  - intros [= <-]. split; [done|]. exists pd. auto.
  - intros Hn. split; [done|]. exists nd'. auto.
Qed.

Lemma removed_keeps n nd : tr_nodes t !! n = Some nd → n ≠ m →
  ∃ nd', tr_nodes t' !! n = Some nd' ∧ same_above nd nd' ∧ same_below nd nd' ∧
    (n = p ∧ nd' = unlink pd m ∧ nd = pd ∨ n ≠ p ∧ nd' = nd).
Proof.
  intros Hn Hne. rewrite (rv_node _ _ _ _ _ Hrv), decide_False by done.
  destruct (decide (n = p)) as [->|Hnp].
  - assert (nd = pd) as -> by congruence. exists (unlink pd m). destruct (unlink_same pd m) as [H1 H2].
    split_and!; [done | exact H1 | exact H2 | by left].
  - exists nd. split_and!; [done | by split_and! | by split_and! | by right].
Qed.

Lemma removed_child : nd_left pd = Some m ∨ nd_right pd = Some m.
Proof.
  destruct (to_parent _ _ Hok m md Hm) as (p' & pd' & Hp' & Hpd' & Hor).
  { intros E. destruct (to_root _ _ Hok) as (rd & Hr & Hn & _). congruence. }
  assert (p' = p) as -> by congruence. by assert (pd' = pd) as -> by congruence.
Qed.

Lemma unlinked n : nd_left (unlink pd m) = Some n ∨ nd_right (unlink pd m) = Some n ↔
  n ≠ m ∧ (nd_left pd = Some n ∨ nd_right pd = Some n).
Proof.
  pose proof removed_child as Hc. unfold unlink. case_bool_decide as E; simpl.
  - assert (nd_left pd ≠ Some m) as Hl by (intros Hl; by apply (to_disjoint _ _ Hok p pd m Hp Hl)).
    split; [intros [H|]; [|done]; split; [congruence | auto]|]. intros [Hne [?|?]]; [auto | congruence].
  - destruct Hc as [Hc|?]; [|done].
    split; [intros [|H]; [done|]; split; [congruence | auto]|]. intros [Hne [?|?]]; [congruence | auto].
Qed.

Lemma removed_ok : tree_ok r t'.
Proof.
  destruct (ok_parent_lt r t m md p Hok Hm Hpar) as (Hlt & Hmr & _).
  destruct (same_confs t t t') as [Hx Hce];
    [apply tree_ext_refl | exact (to_confs _ _ Hok) | by rewrite (rv_next _ _ _ _ _ Hrv)
    | apply Hrv | apply Hrv |].
  split.
  - destruct (to_root _ _ Hok) as (rd & Hr & H1 & H2 & H3).
    destruct (removed_keeps r rd Hr ltac:(congruence)) as (rd' & Hr' & (_ & Ec & _) & (Ep & _ & _) & Hor).
    exists rd'. split_and!; [done | congruence | | congruence].
    destruct Hor as [(E & -> & ->)|[_ ->]]; [|done].
    destruct (nd_right (unlink pd m)) as [k|] eqn:Ek; [|done]. apply unlink_right in Ek. congruence.
  - intros n nd' (_ & nd & Hn & _)%removed_inv. rewrite (rv_next _ _ _ _ _ Hrv).
    by apply (to_bound _ _ Hok n nd).
  - exact Hce.
  - intros n nd' a (_ & nd & Hn & Hor)%removed_inv Ha. rewrite (rv_confs _ _ _ _ _ Hrv).
    apply (to_conf _ _ Hok n nd a Hn). destruct Hor as [(_ & -> & ->)|[_ ->]]; [|done].
    destruct (unlink_same pd m) as [(_ & E & _) _]. congruence.
  - intros n nd' (Hnm & nd & Hn & Hor)%removed_inv Hne.
    destruct (to_parent _ _ Hok n nd Hn Hne) as (q & qd & Hq & Hqd & Hch).
    assert (q ≠ m) as Hqm by (intros E; rewrite E in Hqd; naive_solver congruence).
    destruct (removed_keeps q qd Hqd Hqm) as (qd' & Hqd' & _ & _ & Hor').
    exists q, qd'. split_and!; [|done|].
    + destruct Hor as [(_ & -> & ->)|[_ ->]]; [|done].
      destruct (unlink_same pd m) as [_ (E & _ & _)]. congruence.
    + destruct Hor' as [(_ & -> & ->)|[_ ->]]; [|done]. by apply unlinked.
  - intros n nd' l (Hnm & nd & Hn & Hor)%removed_inv Hl.
    assert (nd_left nd = Some l ∧ same_above nd nd' ∧ l ≠ m) as (Hl0 & Hsa & Hlm).
    { destruct Hor as [(-> & -> & ->)|[Hnp ->]].
      - split_and!; [by eapply unlink_left | apply unlink_same |]. by apply (unlinked l); left.
      - split_and!; [done | by split_and! |]. intros ->.
        destruct (to_left _ _ Hok n nd m Hn Hl) as (md' & Hm' & Hlo). pose proof (lo_parent _ _ _ _ _ _ Hlo).
        congruence. }
    destruct (to_left _ _ Hok n nd l Hn Hl0) as (ld & Hld & Hlo).
    destruct (removed_keeps l ld Hld Hlm) as (ld' & Hld' & _ & Hsb & _). exists ld'. split; [done|].
    by apply (ext_left_of r t t' n nd nd' l ld ld').
  - intros n nd' k (Hnm & nd & Hn & Hor)%removed_inv Hk.
    assert (nd_right nd = Some k ∧ same_above nd nd' ∧ k ≠ m) as (Hk0 & Hsa & Hkm).
    { destruct Hor as [(-> & -> & ->)|[Hnp ->]].
      - split_and!; [by eapply unlink_right | apply unlink_same |]. by apply (unlinked k); right.
      - split_and!; [done | by split_and! |]. intros ->.
        destruct (to_right _ _ Hok n nd m Hn Hk) as (md' & Hm' & Hro). pose proof (ro_parent _ _ _ _ _ Hro).
        congruence. }
    destruct (to_right _ _ Hok n nd k Hn Hk0) as (kd & Hkd & Hro).
    destruct (removed_keeps k kd Hkd Hkm) as (kd' & Hkd' & _ & Hsb & _). exists kd'. split; [done|].
    by apply (ext_right_of t t' n nd nd' k kd kd').
  - intros n nd' l (Hnm & nd & Hn & Hor)%removed_inv Hl Hr.
    apply (to_disjoint _ _ Hok n nd l Hn); destruct Hor as [(_ & -> & ->)|[_ ->]];
      eauto using unlink_left, unlink_right.
  - intros n nd' (Hnm & nd & Hn & Hor)%removed_inv He.
    destruct Hor as [(-> & -> & ->)|[Hnp ->]]; [|by apply (to_leaf _ _ Hok n nd)].
    destruct (unlink_same pd m) as [(E & _ & _) _]. rewrite E in He.
    destruct (to_leaf _ _ Hok p pd Hp He) as [H1 H2].
    pose proof (unlink_left pd m). pose proof (unlink_right pd m).
    destruct (nd_left (unlink pd m)), (nd_right (unlink pd m)); naive_solver congruence.
Qed.
End one.

Lemma reset_in_parent_ok r t p m pd md :
  tree_ok r t → tr_nodes t !! m = Some md → nd_parent md = Some p → tr_nodes t !! p = Some pd →
  ∃ t', reset_in_parent t m = Ok t' ∧ removed t t' p m pd.
Proof.
  intros Hok Hm Hpar Hp. destruct (ok_parent_lt r t m md p Hok Hm Hpar) as (Hlt & _ & _).
  assert (p ≠ m) as Hpm by lia.
  pose proof (removed_child r t p m pd md Hok Hm Hpar Hp) as Hc.
  unfold reset_in_parent, is_right_child, is_left_child, unlink.
  rewrite (node_at_ok t m md Hm), !bind_Ok_l, Hpar, (node_at_ok t p pd Hp), !bind_Ok_l.
  assert (∀ pd' n, tr_nodes (delete_node (set_node t p pd') m) !! n =
    if decide (n = m) then None else if decide (n = p) then Some pd' else tr_nodes t !! n) as Hdel.
  { intros pd' n. unfold delete_node, set_node. cbn. destruct (decide (n = m)) as [->|Hne].
    - apply lookup_delete_eq.
    - rewrite lookup_delete_ne by done. destruct (decide (n = p)) as [->|];
        [apply lookup_insert_eq | by apply lookup_insert_ne]. }
  destruct (decide (nd_right pd = Some m)) as [Hr|Hr].
  - rewrite (bool_decide_true (nd_right pd = Some m)), (upd_node_ok t p pd _ Hp), bind_Ok_l by done.
    eexists. split; [done|]. split; [|done..]. intros n. unfold unlink. rewrite bool_decide_true by done. apply Hdel.
  - destruct Hc as [Hc|?]; [|done].
    rewrite (bool_decide_false (nd_right pd = Some m)), (bool_decide_true (nd_left pd = Some m)) by done.
    rewrite (upd_node_ok t p pd _ Hp), bind_Ok_l. eexists. split; [done|]. split; [|done..].
    intros n. unfold unlink. rewrite bool_decide_false by done. apply Hdel.
Qed.

Lemma unlink_left_eq md l : nd_right md ≠ Some l → unlink md l = with_left md None.
Proof. intros H. unfold unlink. by rewrite bool_decide_false. Qed.

Lemma unlink_right_eq md k : nd_right md = Some k → unlink md k = with_right md None.
Proof. intros H. unfold unlink. by rewrite bool_decide_true. Qed.

(** ** The traversal *)

(** The node visited last is gone. *)
Definition gone t last : Prop := ∀ x, last = Some x → tr_nodes t !! x = None.

(** From [t] to [t'] in [k] rounds that start at [start]. *)
Record visited r t (start : option nid) last t' last' (k : nat) : Prop := {
  vs_run fuel S : destroy_loop t (k + fuel) S start last = destroy_loop t' fuel S None last';
  vs_ok : tree_ok r t';
  vs_gone : gone t' last';
  vs_next : tr_next t' = tr_next t;
  vs_cost : k + 3 * size (tr_nodes t') ≤ 3 * size (tr_nodes t);
}.

(** The subtree of [m], a child of [p], is removed. *)
Definition visits r t m last p pd : Prop :=
  ∃ t' k, visited r t (Some m) last t' (Some m) k ∧ tr_nodes t' !! p = Some (unlink pd m) ∧
    ∀ x, (x < m)%N → x ≠ p → tr_nodes t' !! x = tr_nodes t !! x.

Lemma removed_size r t t' p m pd md :
  tree_ok r t → tr_nodes t !! m = Some md → nd_parent md = Some p → tr_nodes t !! p = Some pd →
  removed t t' p m pd → S (size (tr_nodes t')) = size (tr_nodes t).
Proof.
  intros Hok Hm Hpar Hp Hrv. destruct (ok_parent_lt r t m md p Hok Hm Hpar) as (Hlt & _ & _).
  assert (tr_nodes t' = <[p := unlink pd m]> (delete m (tr_nodes t))) as ->.
  { apply map_eq. intros n. rewrite (rv_node _ _ _ _ _ Hrv). destruct (decide (n = m)) as [->|Hne].
    - rewrite lookup_insert_ne, lookup_delete_eq by lia. done.
    - destruct (decide (n = p)) as [->|]; [by rewrite lookup_insert_eq|].
      by rewrite lookup_insert_ne, lookup_delete_ne. }
  rewrite map_size_insert_Some by (rewrite lookup_delete_ne by lia; eauto).
  rewrite (map_size_delete_Some m (tr_nodes t)) by eauto.
  assert (size (tr_nodes t) ≠ 0) as Hsz; [|lia].
  intros Hz. apply map_size_empty_inv in Hz. rewrite Hz in Hm. by rewrite lookup_empty in Hm.
Qed.

Lemma visited_none r t last : tree_ok r t → gone t last → visited r t None last t last 0.
Proof. by split. Qed.

(** The left child of [m], if there is one. *)
Lemma visit_left r t m md last :
  tree_ok r t → gone t last → tr_nodes t !! m = Some md →
  (∀ l ld, (m < l)%N → tr_nodes t !! l = Some ld → nd_parent ld = Some m → visits r t l last m md) →
  ∃ t' last' k, visited r t (nd_left md) last t' last' k ∧
    tr_nodes t' !! m = Some (with_left md None) ∧
    ∀ x, (x < m)%N → tr_nodes t' !! x = tr_nodes t !! x.
Proof.
  intros Hok Hg Hm IH. destruct (nd_left md) as [l|] eqn:Hl.
  - destruct (to_left _ _ Hok m md l Hm Hl) as (ld & Hld & Hlo).
    pose proof (lo_younger _ _ _ _ _ _ Hlo) as Hlt.
    destruct (IH l ld Hlt Hld (lo_parent _ _ _ _ _ _ Hlo)) as (t' & k & Hv & Hm' & Hfr).
    rewrite unlink_left_eq in Hm' by (by apply (to_disjoint _ _ Hok m md l)).
    exists t', (Some l), k. split_and!; [done | done |]. intros x Hx. apply Hfr; lia.
  - exists t, last, 0. split_and!; [by apply visited_none | | done].
    rewrite Hm. f_equal. by destruct md; simpl in *; subst.
Qed.

(** With [m] on top of the stack: the right child, if there is one, then [m]. *)
Lemma visit_rest r t m md p pd last :
  tree_ok r t → gone t last → tr_nodes t !! m = Some md → nd_left md = None →
  nd_parent md = Some p → tr_nodes t !! p = Some pd →
  (∀ l ld, (m < l)%N → tr_nodes t !! l = Some ld → nd_parent ld = Some m → visits r t l last m md) →
  ∃ t' k, (∀ fuel S, destroy_loop t (k + fuel) (m :: S) None last = destroy_loop t' fuel S None (Some m)) ∧
    tree_ok r t' ∧ gone t' (Some m) ∧ tr_next t' = tr_next t ∧
    1 + k + 3 * size (tr_nodes t') ≤ 3 * size (tr_nodes t) ∧ tr_nodes t' !! p = Some (unlink pd m) ∧
    ∀ x, (x < m)%N → x ≠ p → tr_nodes t' !! x = tr_nodes t !! x.
Proof.
  intros Hok Hg Hm Hl Hpar Hp IH. destruct (ok_parent_lt r t m md p Hok Hm Hpar) as (Hlt & _ & _).
  (* Removing [m] once it has no children. *)
  assert (∀ t1 last1 md1, tree_ok r t1 → tr_nodes t1 !! m = Some md1 → nd_parent md1 = Some p →
    nd_left md1 = None → nd_right md1 = None → tr_nodes t1 !! p = Some pd →
    ∃ t', (∀ fuel S, destroy_loop t1 (1 + fuel) (m :: S) None last1 = destroy_loop t' fuel S None (Some m)) ∧
      tree_ok r t' ∧ removed t1 t' p m pd ∧ 1 + size (tr_nodes t') = size (tr_nodes t1)) as Hpop.
  { intros t1 last1 md1 Hok1 Hm1 Hpar1 Hl1 Hr1 Hp1.
    destruct (reset_in_parent_ok r t1 p m pd md1 Hok1 Hm1 Hpar1 Hp1) as (t' & Hres & Hrv).
    exists t'. split_and!; [|by apply (removed_ok r t1 t' p m pd md1)|done|by apply (removed_size r t1 t' p m pd md1)].
    intros fuel S. cbn [Nat.add destroy_loop]. rewrite (node_at_ok t1 m md1 Hm1), bind_Ok_l, Hr1.
    rewrite (bool_decide_false (is_Some None)) by (by intros []). cbn [andb].
    unfold has_children. rewrite Hl1, Hr1, !(bool_decide_false (is_Some None)) by (by intros []).
    cbn [orb negb cassert]. by rewrite bind_Ok_l, Hres, bind_Ok_l. }
  destruct (nd_right md) as [q|] eqn:Hr.
  - destruct (to_right _ _ Hok m md q Hm Hr) as (qd & Hqd & Hro).
    pose proof (ro_younger _ _ _ _ _ Hro) as Hmq.
    destruct (IH q qd Hmq Hqd (ro_parent _ _ _ _ _ Hro)) as (t1 & k1 & [R1 O1 G1 N1 C1] & Hm1 & Hfr1).
    rewrite (unlink_right_eq md q Hr) in Hm1.
    destruct (Hpop t1 (Some q) (with_right md None)) as (t' & Hrun & Hok' & Hrv & Hsz);
      [done | done | done | done | done | rewrite Hfr1; [done | lia | lia] |].
    exists t', (1 + k1 + 1). split_and!; [|done| | |lia| |].
    + intros fuel S. rewrite <-!Nat.add_assoc. cbn [Nat.add destroy_loop].
      rewrite (node_at_ok t m md Hm), bind_Ok_l, Hr.
      rewrite bool_decide_true, (bool_decide_false (last = Some q)) by
        (first [by eauto | intros E; specialize (Hg q E); congruence]).
      cbn [andb negb]. rewrite R1. apply Hrun.
    + intros x [= <-]. rewrite (rv_node _ _ _ _ _ Hrv). by rewrite decide_True.
    + by rewrite (rv_next _ _ _ _ _ Hrv).
    + rewrite (rv_node _ _ _ _ _ Hrv), decide_False, decide_True by (done || lia). done.
    + intros x Hx Hxp. rewrite (rv_node _ _ _ _ _ Hrv), !decide_False by (done || lia). apply Hfr1; lia.
  - destruct (Hpop t last md) as (t' & Hrun & Hok' & Hrv & Hsz); [done..|].
    exists t', 1. split_and!; [done | done | | |lia| |].
    + intros x [= <-]. rewrite (rv_node _ _ _ _ _ Hrv). by rewrite decide_True.
    + by rewrite (rv_next _ _ _ _ _ Hrv).
    + rewrite (rv_node _ _ _ _ _ Hrv), decide_False, decide_True by (done || lia). done.
    + intros x Hx Hxp. rewrite (rv_node _ _ _ _ _ Hrv), !decide_False by (done || lia). done.
Qed.

Lemma visit_subtree r d t m md p pd last :
  N.to_nat (tr_next t) - N.to_nat m ≤ d →
  tree_ok r t → gone t last → tr_nodes t !! m = Some md → nd_parent md = Some p →
  tr_nodes t !! p = Some pd → visits r t m last p pd.
Proof.
  revert t m md p pd last. induction d as [|d IH]; intros t m md p pd last Hd Hok Hg Hm Hpar Hp.
  { pose proof (to_bound _ _ Hok m md Hm). lia. }
  destruct (ok_parent_lt r t m md p Hok Hm Hpar) as (Hlt & _ & _).
  destruct (visit_left r t m md last Hok Hg Hm) as (t1 & last1 & k1 & [R1 O1 G1 N1 C1] & Hm1 & Hfr1).
  { intros l ld Hml Hld Hlp. apply (IH t l ld); try done. lia. }
  destruct (visit_rest r t1 m (with_left md None) p pd last1) as
    (t2 & k2 & R2 & O2 & G2 & N2 & C2 & Hp2 & Hfr2); try done.
  { rewrite Hfr1 by lia. done. }
  { intros l ld Hml Hld Hlp. apply (IH t1 l ld); try done. rewrite N1. lia. }
  exists t2, (1 + k1 + k2). split_and!; [split| |].
  - intros fuel S. rewrite <-!Nat.add_assoc. cbn [Nat.add destroy_loop].
    rewrite (node_at_ok t m md Hm), bind_Ok_l, R1. apply R2.
  - done.
  - done.
  - congruence.
  - lia.
  - done.
  - intros x Hx Hxp. rewrite Hfr2, Hfr1 by done. done.
Qed.

Lemma only_root r t rd : tree_ok r t → tr_nodes t !! r = Some rd → nd_left rd = None →
  tr_nodes t = {[ r := rd ]}.
Proof.
  intros Hok Hr Hl. apply map_eq. intros n. destruct (decide (n = r)) as [->|Hne].
  { by rewrite Hr, lookup_singleton_eq. }
  rewrite lookup_singleton_ne by done. revert Hne.
  induction (N.lt_wf_0 n) as [n _ IH]. intros Hne.
  destruct (tr_nodes t !! n) as [nd|] eqn:Hn; [|done].
  destruct (to_parent _ _ Hok n nd Hn Hne) as (p & pd & Hp & Hpd & Hor).
  destruct (ok_parent_lt r t n nd p Hok Hn Hp) as (Hlt & _ & _).
  destruct (decide (p = r)) as [E|Hpr].
  - destruct (to_root _ _ Hok) as (rd' & Hr' & _ & Hright & _). rewrite E in Hpd.
    destruct Hor; congruence.
  - rewrite (IH p Hlt Hpr) in Hpd. done.
Qed.

Lemma destroy_ok r t rd : tree_ok r t → tr_nodes t !! r = Some rd →
  ∃ t', destroy t r = Ok t' ∧ tr_nodes t' = {[ r := with_left rd None ]}.
Proof.
  intros Hok Hr. destruct (to_root _ _ Hok) as (rd' & Hr' & Hpar & Hright & _).
  assert (rd' = rd) as -> by congruence. unfold destroy.
  destruct (visit_left r t r rd None Hok ltac:(done) Hr) as (t1 & last1 & k1 & [R1 O1 G1 N1 C1] & Hr1 & _).
  { intros l ld _ Hld Hlp. apply (visit_subtree r _ t l ld r rd None (le_n _)); done. }
  assert (1 ≤ size (tr_nodes t1)) as Hsz.
  { destruct (size (tr_nodes t1)) eqn:E; [|lia]. apply map_size_empty_inv in E.
    rewrite E in Hr1. by rewrite lookup_empty in Hr1. }
  exists t1. split; [|by apply (only_root r t1 (with_left rd None))].
  replace (3 * size (tr_nodes t)) with (S (k1 + S (3 * size (tr_nodes t) - k1 - 2))) by lia.
  cbn [destroy_loop]. rewrite (node_at_ok t r rd Hr), bind_Ok_l, R1. cbn [destroy_loop].
  rewrite (node_at_ok t1 r _ Hr1), bind_Ok_l. cbn [with_left nd_right]. rewrite Hright.
  rewrite (bool_decide_false (is_Some None)) by (by intros []). cbn [andb].
  unfold has_children. cbn [with_left nd_left nd_right]. rewrite Hright.
  rewrite !(bool_decide_false (is_Some None)) by (by intros []). cbn [orb negb cassert].
  rewrite bind_Ok_l. unfold reset_in_parent, is_right_child, is_left_child.
  rewrite (node_at_ok t1 r _ Hr1), !bind_Ok_l. cbn [with_left nd_parent]. rewrite Hpar, !bind_Ok_l.
  by destruct (3 * size (tr_nodes t) - k1 - 2).
Qed.
End destroy.
