(* ===== verification/NodeProps.v ===== *)
(** * Properties of the exploration tree *)

From stdpp Require Import base tactics list gmap numbers relations.
From S2P Require Import Prelude StdMap ThreadId Event Comb CombEnum CombProofs Cone Alloc Causality.
From S2P Require Import AllocProofs HeapExt Order Walks Demo Independence Unfolding Configuration.
From S2P Require Import Cex ColorProofs UnfoldingProofs DedupProofs Scenario Dependence Heads.
From S2P Require Import Booking ConfInv OpBase OpProofs OpCond Startup System Node NodeInv NodeOps.
From S2P Require Import NodeCatch NodeBranch NodeRun NodeDestroy.

Section properties.
Context {PL : Payload} {AL : Allocator} {St : Type}.
Implicit Types (t : tree (St := St)) (n l m f r : nid) (nd ld rd pd : node (St := St)).
Implicit Types (u : unfolding) (c : configuration) (o : operation) (x : extension) (y z : eid).

(** C8: In every reachable tree a node is the left or the right child of an
    older node. A left child has the excluded events of its parent and, once
    it has a configuration, the events executed at the parent and the event
    of the parent, which was not executed there. A right child shares the
    configuration of its parent and also excludes the event of the parent.
    Every configuration satisfies its invariant. *)
Theorem tree_invariant r f t :
  reachable_tree r f t →
  (∀ n nd, tr_nodes t !! n = Some nd → n ≠ r → ∃ p pd e,
    nd_parent nd = Some p ∧ (p < n)%N ∧ tr_nodes t !! p = Some pd ∧ nd_event pd = Some e ∧
    ((nd_left pd = Some n ∧ nd_D nd = nd_D pd ∧
      ∀ c', conf_of t nd c' → ∃ c, conf_of t pd c ∧ ¬ executed r (tr_unfolding t) p c e ∧
        ∀ y, in_conf (tr_unfolding t) c' y ↔ y = e ∨ executed r (tr_unfolding t) p c y) ∨
     (nd_right pd = Some n ∧ nd_D nd = nd_D pd ++ [e] ∧ nd_C nd = nd_C pd))) ∧
  ∀ n nd a, tr_nodes t !! n = Some nd → nd_C nd = Some a →
    ∃ c, tr_confs t !! a = Some c ∧ configured (tr_unfolding t) c.
Proof.
  intros [Hok _]%reachable_exploring. split.
  - intros n nd Hn Hne. destruct (to_parent _ _ Hok n nd Hn Hne) as (p & pd & Hp & Hpd & Hor).
    destruct (ok_parent_lt r t n nd p Hok Hn Hp) as (Hlt & _ & _). destruct Hor as [Hl|Hr].
    + destruct (to_left _ _ Hok p pd n Hpd Hl) as (ld & Hld & [_ _ HD [e He] Hc]).
      assert (ld = nd) as -> by congruence. exists p, pd, e. split_and!; [done..|]. left. eauto.
    + destruct (to_right _ _ Hok p pd n Hpd Hr) as (rd & Hrd & [_ _ (e & He & HD) [HC _]]).
      assert (rd = nd) as -> by congruence. exists p, pd, e. split_and!; [done..|]. by right.
  - intros n nd a Hn HC. destruct (ok_conf_of r t n nd a Hok Hn HC) as (c & Hc & _ & Hce).
    exists c. split; [done | apply Hce].
Qed.

(** C7: In a reachable tree the schedule of a node lists exactly the events of
    its configuration, each once, every event after all its causes; its
    length is the size of the configuration. *)
Theorem schedule_exact r f t n nd c :
  reachable_tree r f t → tr_nodes t !! n = Some nd → n ≠ r → conf_of t nd c →
  ∃ s, schedule t n = Ok s ∧ NoDup s ∧ length s = cf_size c ∧
    (∀ y, y ∈ s ↔ in_conf (tr_unfolding t) c y) ∧
    ∀ before y after, s = before ++ y :: after → ∀ z, causal_lt (tr_heap t) z y → z ∈ before.
Proof.
  intros [Hok _]%reachable_exploring Hn Hne Hc. pose proof Hc as (a & HC & Ha).
  destruct (path_exists r t Hok n nd Hn) as (ms & es & Hp).
  destruct (path_executed r t Hok n ms es nd c Hp Hn Hc) as (Hnd & Hx & Hca).
  set (w := es ++ [uf_root (tr_unfolding t)]) in *. exists (rev w).
  assert (∀ y, y ∈ rev w ↔ in_conf (tr_unfolding t) c y) as Hin.
  { intros y. rewrite <-(executed_ne r _ n c y Hne), <-Hx, !list_elem_of_In. symmetry. apply in_rev. }
  assert (NoDup (rev w)) as Hndr by (by apply NoDup_ListNoDup, List.NoDup_rev, NoDup_ListNoDup).
  split_and!.
  - exact (schedule_path r t Hok n nd a ms es Hp Hn HC).
  - done.
  - destruct (cd_sized _ _ (ce_ok _ _ _ (to_confs _ _ Hok a c Ha))) as (l & Hndl & Hl & <-).
    apply Permutation_length, NoDup_Permutation; [done..|]. intros y. by rewrite Hin, Hl.
  - done.
  - intros before y after E z Hlt. assert (w = rev after ++ y :: rev before) as Ew.
    { rewrite <-(rev_involutive w), E, rev_app_distr. cbn [rev]. by rewrite <-app_assoc. }
    apply (Hca _ _ _ Ew) in Hlt. apply list_elem_of_In. rewrite in_rev. by apply list_elem_of_In.
Qed.

Lemma path_same_nodes r t t' n ms (es : list eid) :
  tr_nodes t' = tr_nodes t → path r t n ms es → path r t' n ms es.
Proof.
  intros E. assert (∀ n q, up t n q → up t' n q) as Hup.
  { induction 1 as [m md q qd Hm Hp Hq Hl|m md p pd q Hm Hp Hpd Hr _ IH].
    - apply (up_left t' m md q qd); by rewrite ?E.
    - apply (up_right t' m md p pd q); by rewrite ?E. }
  induction 1 as [|m q qd e ms es Hu Hq He _ IH]; [constructor|].
  apply (path_step r t' m q qd e ms es); rewrite ?E; auto.
Qed.

(** C12: In a reachable tree a node without event whose configuration admits
    an operation can be extended: [make_left_child] commits the operation and
    returns a new node whose schedule is the one of the node followed by the
    committed event, and the tree reached is reachable. *)
Theorem extension_reaches_schedule r f t n nd o t1 x standby (s : list eid) :
  reachable_tree r f t → tr_nodes t !! n = Some nd → n ≠ r → nd_event nd = None →
  hands_out t n o t1 x → schedule t n = Ok s →
  ∃ t' l p, make_left_child t1 n x standby = Ok (t', l) ∧ reachable_tree r f t' ∧
    p ∉ s ∧ schedule t' l = Ok (s ++ [p]).
Proof.
  intros Hre Hn Hne Hev Ho Hs. pose proof (reachable_exploring r f t Hre) as He.
  destruct (handed_out r f t n o t1 x He Ho) as
    (nd' & a & c1 & c' & Hn' & HC & Hc & En & Eu & Hc1 & Hcd & Haddr & Ha & Hop & He1).
  assert (nd' = nd) as -> by congruence. rewrite <-En in Hn. rewrite <-Eu in *.
  destruct (make_left_child_ok r t1 n nd a c1 o c' x standby (proj1 He1) Hne Hn Hev HC Hc1 Hcd Haddr Ha Hop)
    as (t' & l & p & b & c2 & Hrun & Hok' & Hnc & Hc2 & Hpf).
  destruct (path_exists r t (proj1 He) n nd Hn') as (ms & es & Hp).
  rewrite (schedule_path r t (proj1 He) n nd a ms es Hp Hn' HC) in Hs. injection Hs as <-.
  apply (path_same_nodes r t t1 n ms es En) in Hp.
  destruct (path_executed r t1 (proj1 He1) n ms es nd c' Hp Hn) as (_ & Hx & _); [by exists a|].
  destruct (grow_old r t1 t' n l nd _ _ (proj1 He1) Hnc) as (_ & _ & Hl').
  assert (path r t' l (l :: ms) (p :: es)) as Hpl.
  { destruct (to_leaf _ _ (proj1 He1) n nd Hn Hev) as [Hl Hr].
    apply (grow_left r t1 t' n l nd _ _ (proj1 He1) Hnc); simpl; congruence. }
  exists t', l, p. split_and!; [done | | |].
  - destruct Hre as (t0 & Hst & Hrtc). exists t0. split; [done|]. eapply rtc_r; [done|].
    by apply (ex_extend r t n o t1 x standby t' l).
  - intros Hin. apply (pf_new _ _ _ _ _ Hpf).
    destruct (ex_configured _ c1 c' o x Hcd Ha Hop) as (_ & Hh & _).
    rewrite <-(in_conf_heads _ c1 c' p Hh), <-(executed_ne r _ n c' p Hne), <-Hx, Eu.
    apply list_elem_of_In. rewrite in_rev. by apply list_elem_of_In.
  - rewrite (schedule_path r t' Hok' l _ b (l :: ms) (p :: es) Hpl Hl' eq_refl).
    rewrite (pf_root _ _ _ _ _ Hpf), Eu. by cbn [app rev].
Qed.

(** The events executed on the branch of a node, oldest first. *)
Definition reached_by r t n (s : list eid) : Prop :=
  ∃ ms es, path r t n ms es ∧ s = rev (es ++ [uf_root (tr_unfolding t)]).

(** C9: [make_right_branch] of a node of a reachable tree returns the closest
    node [start] with a standby state above it and the events to replay from
    there: those of the schedule of the node after [start], then the events of
    the comb, each once, every event after its causes in the comb, and an
    event that ends an atomic operation directly after the one that starts it.
    The new leaf is reached by exactly these events, and excludes the event
    of the node too. *)
Theorem right_branch_exact r f t n nd (e : eid) (a : N) A (s : list eid) :
  reachable_tree r f t → tr_nodes t !! n = Some nd → n ≠ r → nd_event nd = Some e →
  nd_right nd = None → nd_C nd = Some a → branch_events (tr_heap t) A → schedule t n = Ok s →
  ∃ t' start k kd (s1 s2 ord : list eid),
    make_right_branch t n A = Ok (t', Leaf start (s2 ++ ord)) ∧ reachable_tree r f t' ∧
    closest t n start ∧ s = s1 ++ s2 ∧ reached_by r t start s1 ∧
    replay_order (tr_heap t) (λ y, y ∈ comb_events A) ord ∧
    reached_by r t' k (s ++ ord) ∧
    tr_nodes t' !! k = Some kd ∧ nd_event kd = None ∧ nd_D kd = nd_D nd ++ [e].
Proof.
  intros Hre Hn Hne He Hr HC HA Hs. destruct (reachable_exploring r f t Hre) as [Hok Hf].
  destruct (closest_exists r f t n nd Hok Hf Hn Hne) as (start & Hcl & Hsr).
  destruct (path_exists r t Hok n nd Hn) as (ms & es & Hp).
  pose proof HA as [HA1 HA2 HA3 (K & HK & HAK)].
  destruct (make_right_branch_ok r K t n nd e a start A ms es Hok Hne Hn He Hr HC Hcl Hsr Hp HA1 HA2 HA3 HK HAK)
    as (t' & k & ord & es2 & es' & ms' & Hrun & Hext & Hro & ((msk & Hpk) & kd & Hk & Hke & HkD) & Hes & Hps).
  rewrite (schedule_path r t Hok n nd a ms es Hp Hn HC) in Hs. injection Hs as <-.
  exists t', start, k, kd, (rev (es' ++ [uf_root (tr_unfolding t)])), (rev es2), ord.
  split_and!; try done.
  - destruct Hre as (t0 & Hst & Hrtc). exists t0. split; [done|]. eapply rtc_r; [done|].
    by eapply (ex_branch r t n A t').
  - rewrite Hes, <-app_assoc. by rewrite rev_app_distr.
  - by exists ms', es'.
  - exists msk, (rev ord ++ es). split; [done|]. rewrite (xd_unfolding _ _ _ Hext), <-app_assoc.
    by rewrite (rev_app_distr (rev ord)), rev_involutive.
Qed.

(** C11: Replaying the next event of a branch in a reachable tree commits the
    event that happened to a copy of the configuration of the node. If another
    event than the expected one happened, no node is returned and the nodes
    stay as they are; otherwise the left child for the event is returned, and
    its configuration has exactly the events of the node and the event. *)
Theorem catch_up_exact r f t n nd o t1 x standby (next : eid) m md l :
  reachable_tree r f t → tr_nodes t !! n = Some nd → n ≠ r → hands_out t n o t1 x →
  replays t next n m → tr_nodes t !! m = Some md → nd_left md = Some l →
  ∃ c u' c' p t' res, conf_of t nd c ∧ performed (tr_unfolding t) c u' c' p ∧
    node_catch_up t1 n x standby next = Ok (t', res) ∧ reachable_tree r f t' ∧
    tr_unfolding t' = u' ∧
    (p ≠ next → res = None ∧ tr_nodes t' = tr_nodes t) ∧
    (p = next → res = Some l ∧ ∃ ld c'', tr_nodes t' !! l = Some ld ∧ conf_of t' ld c'' ∧
      ∀ y, in_conf u' c'' y ↔ in_conf u' c' y).
Proof.
  intros Hre Hn Hne Ho Hrp Hm Hl. pose proof (reachable_exploring r f t Hre) as He.
  destruct (handed_out r f t n o t1 x He Ho) as
    (nd' & a & c & c1 & Hn' & HC & Hc & En & Eu & Hc1 & Hcd & Haddr & Ha & Hop & He1).
  assert (nd' = nd) as -> by congruence. rewrite <-Eu in Hcd, Ha, Hop.
  assert (replays t1 next n m) as Hrp1 by (by apply (replays_same_nodes t)).
  assert (∀ t' k, node_catch_up t1 n x standby next = Ok (t', k) → reachable_tree r f t') as Hreach.
  { intros t' k Hrun. destruct Hre as (t0 & Hst & Hrtc). exists t0. split; [done|].
    eapply rtc_r; [done|]. by eapply (ex_catch_up r t n m md l o t1 x standby next t' k). }
  rewrite <-En in Hn, Hm.
  destruct (node_catch_up_ok r t1 n nd a c o c1 x standby next (proj1 He1) Hne Hn HC Hc1 Hcd Haddr Ha Hop)
    as (u' & c' & p & Hpf & Hother & Hsame).
  destruct (decide (p = next)) as [E|E].
  - destruct (Hsame E m md l) as (t' & Hrun & Hok' & [Hu' _ (ld & ld' & b & cl & _ & Hld' & _ & _ & _ & Hb & Hcl & Hin)]);
      [by rewrite E | done | done |].
    exists c, u', c', p, t', (Some l). rewrite <-Eu. split_and!; try done; [by exists a | by eapply Hreach|].
    intros _. split; [done|]. exists ld', cl. split_and!; [done | by exists b |].
    intros y. rewrite Hin, (pf_in _ _ _ _ _ Hpf). apply or_iff_compat_l.
    apply kept_in; [apply Hcd | apply Hpf..].
  - destruct (Hother E) as (t' & Hrun & Hok' & Hnodes & Hu').
    exists c, u', c', p, t', None. rewrite <-Eu. split_and!; try done; [by exists a | by eapply Hreach |].
    intros _. split; [done | congruence].
Qed.

(** C40: [backtrack] never removes a node: in a reachable tree only the root has
    the sweep bit, since [make_left_child] for the first event of the main
    thread does not pass it on, so [backtrack] returns without a change. *)
Theorem backtrack_removes_nothing r f t n t' :
  reachable_tree r f t → backtrack t n = Ok t' → t' = t.
Proof. intros Hre Hb. eapply backtrack_nothing; [by apply reachable_exploring | done]. Qed.

(** C13: The traversal in the destructor of the root of a reachable tree ends
    within three rounds for every node, finds every node without children
    when it removes it, and leaves no node but the root. *)
Theorem destroy_removes_all r f t :
  reachable_tree r f t →
  ∃ rd t', tr_nodes t !! r = Some rd ∧ destroy t r = Ok t' ∧
    tr_nodes t' = {[ r := with_left rd None ]}.
Proof.
  intros [Hok _]%reachable_exploring. destruct (to_root _ _ Hok) as (rd & Hr & _).
  destruct (destroy_ok r t rd Hok Hr) as (t' & Hd & Hn). by exists rd, t'.
Qed.
End properties.

(** ** The properties on a concrete tree *)

Ltac reached := apply grown_reachable; vm_compute; reflexivity.

(** Names the node stored at an address. *)
Ltac get_node k n nd H :=
  destruct (tr_nodes (grown k) !! n) as [nd|] eqn:H; [|exfalso; vm_compute in H; discriminate H].

Lemma tree_invariant_witness :
  ∃ f nd p pd e, tr_nodes (grown 5) !! 10%N = Some nd ∧ nd_parent nd = Some p ∧ (p < 10)%N ∧
    tr_nodes (grown 5) !! p = Some pd ∧ nd_event pd = Some e ∧ reachable_tree 2 f (grown 5).
Proof.
  assert (∃ f, reachable_tree 2 f (grown 5)) as [f Hr] by reached.
  get_node 5 10%N nd Hn. destruct (tree_invariant 2 f (grown 5) Hr) as [Hp _].
  destruct (Hp 10%N nd Hn ltac:(done)) as (p & pd & e & H1 & H2 & H3 & H4 & _).
  exists f, nd, p, pd, e. split_and!; done.
Defined.

Lemma schedule_exact_witness :
  schedule (grown 5) 14 = Ok [1; 2; 3; 4; 5; 6; 7]%N ∧
  ∃ nd c s, tr_nodes (grown 5) !! 14%N = Some nd ∧ conf_of (grown 5) nd c ∧
    schedule (grown 5) 14 = Ok s ∧ NoDup s ∧ length s = cf_size c.
Proof.
  split; [vm_compute; reflexivity|].
  assert (∃ f, reachable_tree 2 f (grown 5)) as [f Hr] by reached.
  get_node 5 14%N nd Hn.
  destruct (tr_confs (grown 5) !! 13%N) as [c|] eqn:Hc; [|exfalso; vm_compute in Hc; discriminate Hc].
  assert (conf_of (grown 5) nd c) as Hof.
  { exists 13%N. split; [|exact Hc]. clear Hc. vm_compute in Hn. injection Hn as <-. reflexivity. }
  destruct (schedule_exact 2 f (grown 5) 14 nd c Hr Hn ltac:(done) Hof) as (s & H1 & H2 & H3 & _).
  exists nd, c, s. split_and!; done.
Defined.

(** The extension the configuration of a node hands out. *)
Definition handed (k : nat) (n : nid) (o : operation) : res (tree (St := unit) * extension) :=
  checked_hand_out (grown k) n o.

Lemma extension_reaches_schedule_witness :
  ∃ t1 x t' l p, make_left_child t1 10 x (Some tt) = Ok (t', l) ∧
    schedule t' l = Ok ([1; 2; 3; 4; 5]%N ++ [p]).
Proof.
  assert (∃ f, reachable_tree 2 f (grown 3)) as [f Hr] by reached.
  get_node 3 10%N nd Hn.
  assert (nd_event nd = None) as He by (vm_compute in Hn; injection Hn as <-; reflexivity).
  destruct (handed 3 10 (CreateThread t1 t3)) as [[t x]|] eqn:Ho;
    [|exfalso; vm_compute in Ho; discriminate Ho].
  assert (schedule (grown 3) 10 = Ok [1; 2; 3; 4; 5]%N) as Hs by (vm_compute; reflexivity).
  destruct (extension_reaches_schedule 2 f (grown 3) 10 nd (CreateThread t1 t3) t x (Some tt)
    [1; 2; 3; 4; 5]%N Hr Hn ltac:(done) He (checked_hands_out _ _ _ _ _ Ho) Hs)
    as (t' & l & p & Hrun & _ & _ & Hs').
  exists t, x, t', l, p. split; [exact Hrun | exact Hs'].
Defined.

Lemma right_branch_exact_witness :
  ∃ t' start (s1 s2 ord : list eid),
    make_right_branch (grown 5) 8 third_thread = Ok (t', Leaf start (s2 ++ ord)) ∧
    [1; 2; 3; 4]%N = s1 ++ s2 ∧
    replay_order (tr_heap (grown 5)) (λ y, y ∈ comb_events third_thread) ord.
Proof.
  assert (∃ f, reachable_tree 2 f (grown 5)) as [f Hr] by reached.
  get_node 5 8%N nd Hn.
  assert (nd_event nd = Some 5%N ∧ nd_right nd = None ∧ nd_C nd = Some 7%N) as (He & Hri & HC)
    by (vm_compute in Hn; injection Hn as <-; split_and!; reflexivity).
  assert (schedule (grown 5) 8 = Ok [1; 2; 3; 4]%N) as Hs by (vm_compute; reflexivity).
  destruct (right_branch_exact 2 f (grown 5) 8 nd 5 7 third_thread [1; 2; 3; 4]%N Hr Hn ltac:(done)
    He Hri HC third_thread_events Hs)
    as (t' & start & k & kd & s1 & s2 & ord & H1 & _ & _ & H2 & _ & H3 & _).
  exists t', start, s1, s2, ord. split; [exact H1 | split; [exact H2 | exact H3]].
Defined.

Definition local_step : operation := LocalStep t2 [1%N].

Lemma catch_up_exact_witness :
  ∃ t x t' nd c, handed 5 8 local_step = Ok (t, x) ∧
    node_catch_up t 8 x None 5 = Ok (t', Some 10%N) ∧
    tr_nodes t' !! 10%N = Some nd ∧ conf_of t' nd c.
Proof.
  assert (∃ f, reachable_tree 2 f (grown 5)) as [f Hr] by reached.
  get_node 5 8%N nd Hn.
  assert (nd_event nd = Some 5%N ∧ nd_left nd = Some 10%N) as (He & Hl)
    by (vm_compute in Hn; injection Hn as <-; split; reflexivity).
  assert (('(t, x) ← handed 5 8 local_step; '(_, k) ← node_catch_up t 8 x None 5; Ok k) =
    Ok (Some 10%N)) as Hk by (vm_compute; reflexivity).
  destruct (handed 5 8 local_step) as [[t x]|] eqn:Ho; [|discriminate Hk].
  rewrite bind_Ok_l in Hk.
  destruct (catch_up_exact 2 f (grown 5) 8 nd local_step t x None 5 8 nd 10 Hr Hn
    ltac:(done) (checked_hands_out _ _ _ _ _ Ho) (rp_here _ _ _ _ Hn He) Hn Hl)
    as (c & u' & c' & p & t' & res & _ & _ & Hrun & _ & _ & Hne & Heq).
  rewrite Hrun, bind_Ok_l in Hk. injection Hk as ->.
  destruct (decide (p = 5%N)) as [Ep|Ep].
  - destruct (Heq Ep) as (_ & ld & c'' & Hld & Hc & _).
    exists t, x, t', ld, c''. split_and!; [reflexivity | exact Hrun | exact Hld | exact Hc].
  - destruct (Hne Ep) as [Habs _]. discriminate Habs.
Defined.

Lemma backtrack_removes_nothing_witness :
  ∃ t', backtrack (grown 5) 14 = Ok t' ∧ t' = grown 5.
Proof.
  assert (∃ f, reachable_tree 2 f (grown 5)) as [f Hr] by reached.
  destruct (backtrack (grown 5) 14) as [t'|] eqn:Hb; [|exfalso; vm_compute in Hb; discriminate Hb].
  exists t'. split; [reflexivity|]. exact (backtrack_removes_nothing 2 f (grown 5) 14 t' Hr Hb).
Defined.

Lemma destroy_removes_all_witness :
  size (tr_nodes (grown 5)) = 7 ∧ ∃ t', destroy (grown 5) 2 = Ok t' ∧ size (tr_nodes t') = 1.
Proof.
  split; [vm_compute; reflexivity|].
  assert (∃ f, reachable_tree 2 f (grown 5)) as [f Hr] by reached.
  destruct (destroy_removes_all 2 f (grown 5) Hr) as (rd & t' & _ & Hd & Hn).
  exists t'. split; [exact Hd|]. rewrite Hn. apply map_size_singleton.
Defined.
