(* ===== verification/Findings.v ===== *)
(** * Runs in which the code does not do what it means to

    Each run is evaluated; the theorems say where it goes wrong. *)

From stdpp Require Import base tactics list gmap numbers relations.
From S2P Require Import Prelude StdMap ThreadId Event Comb Cone Alloc Causality Order Demo.
From S2P Require Import Independence Unfolding Configuration Cex ColorProofs Scenario Heads ConfInv.
From S2P Require Import Erv.

Definition spawn (t : thread_id) : list operation := [CreateThread t1 t; InitThread t t1].
Definition blocks (t : thread_id) (l : lock_id_t) : list operation :=
  [AcquireLock t l; WaitBegin t 7 l].

(** Two threads wait on one condition variable and two other threads each
    signal one of them. *)
Definition two_signals : list operation :=
  spawn [1; 1]%N ++ spawn [1; 2]%N ++ spawn [1; 3]%N ++ spawn [1; 4]%N ++
  blocks [1; 1]%N 1 ++ blocks [1; 2]%N 2 ++
  [SignalThread [1; 3]%N 7 [1; 1]%N; SignalThread [1; 4]%N 7 [1; 2]%N].

Definition conflicting_heads (uc : unfolding * configuration) : bool :=
  let h := uf_heap uc.1 in
  existsb (λ tp, existsb (λ tq,
    match h !! (tp.2 : eid) with
    | Some e => bool_decide ((tq.2 : eid) ∈ ev_immediate_conflicts e)
    | None => false
    end) (cf_thread_heads uc.2)) (cf_thread_heads uc.2).

(** Signals that notify different threads are dependent for
    [is_independent_of], but [signal_thread] orders neither after the other:
    two heads of one configuration end up as immediate conflicts. *)
Theorem concurrent_signals_conflict :
  match run two_signals with
  | Ok uc => conflicting_heads uc
  | Err _ => false
  end = true.
Proof. vm_compute. reflexivity. Qed.

(** After a lock was created and destroyed, [can_acquire_lock] dereferences
    the null pointer that [last_of_lid] returns. *)
Theorem can_acquire_destroyed_lock :
  match run [CreateLock t1 3; DestroyLock t1 3] with
  | Ok (u, c) => can_acquire_lock (uf_heap u) c 3
  | Err f => Err f
  end = Err NullDeref.
Proof. vm_compute. reflexivity. Qed.

(** The code destroys a lock twice. *)
Theorem lock_destroyed_twice :
  match run [CreateLock t1 3; DestroyLock t1 3; DestroyLock t1 3] with
  | Ok (_, c) => cf_size c = 5
  | Err _ => False
  end.
Proof. vm_compute. reflexivity. Qed.

(** Constructing a configuration counts two unique [program_init] events,
    although the unfolding stores one. *)
Theorem program_init_counted_twice :
  match new_configuration 0 1 with
  | Ok (u, _) => nth (kind_index program_init) (st_unique_events (uf_stats u)) 0 = 2 ∧
      size (uf_heap u) = 2
  | Err _ => False
  end.
Proof. vm_compute. split; reflexivity. Qed.

(** Removing the first event of an unsorted tooth with more than three
    events calls [std::min] with the end iterator, which is dereferenced. *)
Theorem tooth_remove_front_undefined (a b c d : eid) (l : list eid) :
  tooth_remove a (Tooth (a :: b :: c :: d :: l) false) = Err UndefinedBehaviour.
Proof.
  unfold tooth_remove. simpl. rewrite bool_decide_false by set_solver.
  by rewrite (bool_decide_true (Some a = Some a)).
Qed.

(** Deduplicating an event rewrites the id of the stored event. *)
Theorem deduplicate_overwrites_id :
  match new_configuration 0 1 with
  | Ok (u, c) =>
      match alloc_thread_init (uf_heap u) t1 (uf_root u) with
      | Ok e =>
          match deduplicate e u with
          | Ok (u', unknown, p) => unknown = false ∧
              fmap (λ e, md_id (ev_metadata e)) (uf_heap u !! p) = Some 2%N ∧
              fmap (λ e, md_id (ev_metadata e)) (uf_heap u' !! p) = Some 0%N
          | Err _ => False
          end
      | Err _ => False
      end
  | Err _ => False
  end.
Proof. vm_compute. repeat split. Qed.

(** ** Conflicting extensions *)

Definition extensions_of (ops : list operation) : res (heap * configuration * list eid) :=
  '(u, c) ← run ops; '(u', cex) ← conflicting_extensions c false u; Ok (uf_heap u', c, cex).

(** A thread signals a waiting thread and then, with nobody left waiting, once
    more. *)
Definition signal_again : list operation :=
  spawn [1; 2]%N ++ blocks [1; 2]%N 1 ++ [SignalThread t1 7 [1; 2]%N; SignalThread t1 7 []].

(** A signal that wakes the same wait1 as the signal before it on its thread. *)
Definition wakes_again (h : heap) (q : eid) : bool :=
  match h !! q with
  | Some e =>
      match signal_wait_predecessor h e, thread_predecessor e ≫= λ t, h !! t with
      | Ok (Some w), Some et =>
          match signal_wait_predecessor h et with Ok (Some w') => (w =? w')%N | _ => false end
      | _, _ => false
      end
  | None => false
  end.

(** [cex_notification] looks for outstanding waits in the cone of the
    preceding event, which does not contain that event itself: after two
    signals in a row it extends the configuration by a signal that wakes a
    thread which its own predecessor has woken already. *)
Theorem signal_wakes_again :
  match extensions_of signal_again with
  | Ok (h, _, cex) => existsb (wakes_again h) cex
  | Err _ => false
  end = true.
Proof. vm_compute. reflexivity. Qed.

(** A waiting thread is signalled by a thread that does not hold the lock, and
    returns from waiting at once, or after a third thread used the lock. *)
Definition wait_signalled : list operation :=
  spawn [1; 2]%N ++ spawn [1; 3]%N ++ blocks [1; 2]%N 1 ++ [SignalThread t1 7 [1; 2]%N].
Definition wakes_at_once : list operation := wait_signalled ++ [WaitEnd [1; 2]%N 7 1].
Definition wakes_later : list operation :=
  wait_signalled ++ [AcquireLock [1; 3]%N 1; ReleaseLock [1; 3]%N 1 false; WaitEnd [1; 2]%N 7 1].

Definition wait2_events (h : heap) (l : list eid) : list event_data :=
  omap (λ q, match h !! q with
    | Some e => if kind_eqb (ev_kind e) wait2 then Some (ev_data e) else None
    | None => None
    end) l.

(** From the execution in which the thread wakes later, [cex_acquire] does
    not find the alternative in which it wakes at once: it skips the case
    that the last event on the lock before the notification is the thread's
    own wait1. *)
Theorem wait2_alternative_missed :
  match extensions_of wakes_later with
  | Ok (h, _, cex) => wait2_events h cex
  | Err _ => [ProgramInit]
  end = [] ∧
  match run wakes_at_once with
  | Ok (u, c) => wait2_events (uf_heap u) (smap_vals (cf_thread_heads c))
  | Err _ => []
  end = [Wait2 8 9 8 7 1 false].
Proof. split; vm_compute; reflexivity. Qed.

(** ** The order on events *)

(** The same operations on a configuration and then on the configuration it
    started from. *)
Definition run_twice (ops : list operation) : res (unfolding * configuration) :=
  '(u0, c0) ← new_configuration 0 1;
  '(u1, _) ← perform_all ops (u0, c0);
  perform_all ops (u1, c0).

Definition locked_twice : list operation :=
  [CreateLock t1 1; AcquireLock t1 1; ReleaseLock t1 1 false; AcquireLock t1 1].

(** Deduplicating an event resets the id of the stored event, and
    [comp_event_total_order] then puts each of two acquisitions after the
    other. *)
Theorem event_order_not_antisymmetric :
  match run_twice locked_twice with
  | Ok (u, c) => cf_size c = 6 ∧ comp_event_total_order (uf_heap u) 4 6 = Ok 1%Z ∧
      comp_event_total_order (uf_heap u) 6 4 = Ok 1%Z
  | Err _ => False
  end.
Proof. vm_compute. repeat split. Qed.
