(* ===== verification/ObjectAccesses.v ===== *)
(** * The accesses to one memory object

    lib/Core/RaceDetection/ObjectAccesses.{h,cpp}: the reads and writes of one
    thread to one object between two of its events, kept as a map of byte
    ranges for constant offsets and as a multimap for symbolic ones. The lists
    are shared between forked states and copied when one of them writes: the
    list is reached through an [Acquisition], whose [acquire] makes a private
    copy and whose [mut] asserts that there is one.

    An operation on a list takes the list and whether it is owned (its use
    count is 1) and returns both. Iterators of [std::map] are modelled by the
    key they point to ([None] is [end()]); a copy of the map has the same
    keys, so the translation [it = find(it->first)] after a copy keeps the
    key, and is undefined for [end()]. *)

From Stdlib Require Import Ascii.
From stdpp Require Import base tactics list numbers gmap.
From S2P Require Import Prelude StdMap ThreadId.

(** ** Memory accesses and what the race detector asks of its neighbours

    The data of lib/Core/RaceDetection/CommonTypes.h: kinds of access, the
    memory operation that the executor hands in and the result it gets back.
    Two classes state what the detector relies on: the expression library
    (offsets may be symbolic) and the solver. The [assert]s of the records'
    users are in the files that model these users. *)

Local Open Scope Z_scope.

(** ** Machine words: [std::size_t] is 64 bits wide *)

Definition word_size : Z := 2 ^ 64.
Definition wadd (a b : Z) : Z := (a + b) mod word_size.
Definition wsub (a b : Z) : Z := (a - b) mod word_size.

Lemma wadd_small a b : 0 ≤ a + b < word_size → wadd a b = a + b.
Proof. apply Z.mod_small. Qed.

Lemma wsub_small a b : 0 ≤ a - b < word_size → wsub a b = a - b.
Proof. apply Z.mod_small. Qed.

(** ** Kinds of access *)

Inductive AccessType : Set := UNKNOWN | WRITE | READ | ALLOC | FREE.

#[export] Instance AccessType_eq_dec : EqDecision AccessType.
Proof. solve_decision. Defined.

Definition isWrite (t : AccessType) : bool := bool_decide (t = WRITE).
Definition isRead (t : AccessType) : bool := bool_decide (t = READ).
Definition isAlloc (t : AccessType) : bool := bool_decide (t = ALLOC).
Definition isFree (t : AccessType) : bool := bool_decide (t = FREE).
Definition isAllocOrFree (t : AccessType) : bool :=
  bool_decide (t = ALLOC) || bool_decide (t = FREE).

(** What [operator<<] prints of a kind. *)
Definition print_AccessType (t : AccessType) : list ascii :=
  match t with
  | UNKNOWN => ["u"%char; "n"%char]
  | WRITE => ["w"%char]
  | READ => ["r"%char]
  | ALLOC => ["a"%char]
  | FREE => ["f"%char]
  end.

(** ** Expressions

    [ref<Expr>] is ordered by [Expr::compare], which is zero only for
    structurally equal expressions; [as_constant] is the dynamic cast to
    [ConstantExpr] followed by [getZExtValue]. *)
Class ExprLib := {
  expr : Type;
  expr_less :: StdLess expr;
  expr_less_laws :: StdLessLaws expr;
  as_constant : expr → option Z;
  createPointer : Z → expr;
  createZExtToPointerWidth : expr → expr;
  AddExpr : expr → expr → expr;
  UltExpr : expr → expr → expr;
  OrExpr : expr → expr → expr;
  AndExpr : expr → expr → expr;
  constant_true : expr;
}.

(** Structural equality, as [ref::operator==] decides it. *)
Definition expr_eqb `{ExprLib} (a b : expr) : bool := negb (std_less a b) && negb (std_less b a).

Lemma expr_eqb_eq `{ExprLib} (a b : expr) : expr_eqb a b = true ↔ a = b.
Proof.
  unfold expr_eqb. rewrite andb_true_iff, !negb_true_iff. split.
  - intros [??]. by apply less_total.
  - intros ->. by rewrite less_irrefl.
Qed.

(** The meaning of the constructors the detector uses, for an assignment of
    values to the symbolic bytes. *)
Class ExprSem `{ExprLib} := {
  assignment : Type;
  width : expr → Z;
  eval : assignment → expr → Z;
  eval_range a e : 0 ≤ eval a e < 2 ^ width e;
  eval_constant a e k : as_constant e = Some k → eval a e = k;
  eval_pointer a k : 0 ≤ k < word_size → eval a (createPointer k) = k;
  width_pointer k : width (createPointer k) = 64;
  eval_zext a e : width e ≤ 64 → eval a (createZExtToPointerWidth e) = eval a e;
  width_zext e : width (createZExtToPointerWidth e) = 64;
  eval_add a x y : width x = 64 → width y = 64 → eval a (AddExpr x y) = wadd (eval a x) (eval a y);
  width_add x y : width x = 64 → width y = 64 → width (AddExpr x y) = 64;
  eval_ult a x y : width x = 64 → width y = 64 →
    eval a (UltExpr x y) = if eval a x <? eval a y then 1 else 0;
  width_ult x y : width (UltExpr x y) = 1;
  eval_or a x y : width x = 1 → width y = 1 → eval a (OrExpr x y) = Z.lor (eval a x) (eval a y);
  width_or x y : width x = 1 → width y = 1 → width (OrExpr x y) = 1;
  eval_and a x y : width x = 1 → width y = 1 → eval a (AndExpr x y) = Z.land (eval a x) (eval a y);
  width_and x y : width x = 1 → width y = 1 → width (AndExpr x y) = 1;
  eval_true a : eval a constant_true = 1;
  width_true : width constant_true = 1;
}.

(** ** The solver

    No answer ([None]) when the query fails or times out. *)
Record SolverInterface `{ExprLib} := {
  mustBeTrue : expr → option bool;
  mustBeFalse : expr → option bool;
  mayBeTrue : expr → option bool;
  mayBeFalse : expr → option bool;
}.

(** Answers to boolean queries are right for the assignments that satisfy the
    path condition. *)
Record solver_sound `{ExprSem} (feasible : assignment → Prop) (s : SolverInterface) : Prop := {
  must_true e b : width e = 1 → mustBeTrue s e = Some b →
    if b then ∀ a, feasible a → eval a e ≠ 0 else ∃ a, feasible a ∧ eval a e = 0;
  must_false e b : width e = 1 → mustBeFalse s e = Some b →
    if b then ∀ a, feasible a → eval a e = 0 else ∃ a, feasible a ∧ eval a e ≠ 0;
  may_true e b : width e = 1 → mayBeTrue s e = Some b →
    if b then ∃ a, feasible a ∧ eval a e ≠ 0 else ∀ a, feasible a → eval a e = 0;
  may_false e b : width e = 1 → mayBeFalse s e = Some b →
    if b then ∃ a, feasible a ∧ eval a e = 0 else ∀ a, feasible a → eval a e ≠ 0;
}.

(** ** Operations and results *)

(** Instructions are pointers into the module; memory objects are told apart
    by their address, the key under which accesses are kept. *)
Abbreviation KInstruction := N (only parsing).
Record MemoryObject := { mo_address : Z }.

Record MemoryOperation `{ExprLib} := {
  op_instruction : option KInstruction;
  op_type : AccessType;
  op_tid : thread_id;
  op_object : option MemoryObject;
  op_offset : option expr;
  op_numBytes : Z;
}.

Record RaceDetectionResult `{ExprLib} := {
  rr_isRace : bool;
  rr_racingInstruction : option KInstruction;
  rr_racingThread : thread_id;
  rr_canBeSafe : bool;
  rr_conditionToBeSafe : option expr;
  rr_hasNewConstraints : bool;
  rr_newConstraints : option expr;
}.

(** The value-initialised result. *)
Definition no_race `{ExprLib} : RaceDetectionResult :=
  {| rr_isRace := false; rr_racingInstruction := None; rr_racingThread := [];
     rr_canBeSafe := false; rr_conditionToBeSafe := None;
     rr_hasNewConstraints := false; rr_newConstraints := None |}.

(** A race with [instruction] of [tid] whatever the symbolic values are. *)
Definition race_with `{ExprLib} (tid : thread_id) (instruction : option KInstruction)
    : RaceDetectionResult :=
  {| rr_isRace := true; rr_racingInstruction := instruction; rr_racingThread := tid;
     rr_canBeSafe := false; rr_conditionToBeSafe := None;
     rr_hasNewConstraints := false; rr_newConstraints := None |}.

(** ** Reads and writes *)

Definition isReadOrWrite (t : AccessType) : bool := isRead t || isWrite t.

Lemma isWrite_true t : isWrite t = true ↔ t = WRITE.
Proof. apply bool_decide_eq_true. Qed.
Lemma isRead_true t : isRead t = true ↔ t = READ.
Proof. apply bool_decide_eq_true. Qed.

(** For reads and writes one is the negation of the other. *)
Lemma read_or_write t : isReadOrWrite t = true → isRead t = negb (isWrite t).
Proof. by destruct t. Qed.

#[export] Instance Z_less : StdLess Z := Z.ltb.
#[export] Instance Z_less_laws : StdLessLaws Z.
Proof.
  split; unfold std_less, Z_less.
  - apply Z.ltb_irrefl.
  - intros a b c. rewrite !Z.ltb_lt. lia.
  - intros a b. rewrite !Z.ltb_ge. lia.
Qed.

(** [ConcreteAccess] and [SymbolicAccess] have the same fields; the constant
    begin or the base expression is the key of the container. *)
Record Access := { numBytes : Z; type : AccessType; instruction : option KInstruction }.

Definition cmap : Type := smap Z Access.
Bind Scope list_scope with cmap.

(** ** Iterators of [std::map] *)

(** [begin()]. *)
Definition cm_begin (m : cmap) : option Z :=
  match m with [] => None | (k, _) :: _ => Some k end.

(** [lower_bound(k)]: the first key that is not less than [k]. *)
Fixpoint lower_bound (k : Z) (m : cmap) : option Z :=
  match m with
  | [] => None
  | (k', _) :: m' => if k' <? k then lower_bound k m' else Some k'
  end.

(** [std::next(it)]. *)
Fixpoint it_next (k : Z) (m : cmap) : option Z :=
  match m with
  | [] => None
  | (k', _) :: m' => if k' =? k then cm_begin m' else it_next k m'
  end.

(** [std::prev(it)], undefined at [begin()]. *)
Fixpoint it_prev (it : option Z) (m : cmap) : res Z :=
  match m with
  | [] => Err UndefinedBehaviour
  | (k, _) :: m' =>
      if bool_decide (it = Some k) then Err UndefinedBehaviour
      else if bool_decide (it = cm_begin m') then Ok k
      else it_prev it m'
  end.

(** [it->second]. *)
Definition it_deref (k : Z) (m : cmap) : res Access :=
  match smap_find k m with Some a => Ok a | None => Err UndefinedBehaviour end.

(** ** Acquisition *)

(** [acquire] with a function that translates [it]: nothing happens to an
    owned list; [it->first] is undefined for [end()]. *)
Definition acquire_at (own : bool) (it : option Z) : res bool :=
  if own then Ok true
  else match it with Some _ => Ok true | None => Err UndefinedBehaviour end.

(** [mut()]. *)
Definition mut (own : bool) : res unit := cassert own.

Section accesses.
Context {EL : ExprLib}.
Implicit Types (m : cmap) (op : MemoryOperation) (own : bool).

Definition mmap : Type := list (expr * Access).
Bind Scope list_scope with mmap.

Record OperationList := { concrete : cmap; symbolic : mmap }.

(** The constructors of the two access classes. *)
Definition new_access (n : Z) op : res Access :=
  _ ← cassert (isRead (op_type op) || isWrite (op_type op));
  Ok {| numBytes := n; type := op_type op; instruction := op_instruction op |}.

(** Inserting an access for [incoming] with [n] bytes at [k], through
    [emplace_hint] or, to reuse its memory, through an extracted node: an
    existing key keeps its access. *)
Definition place own (k n : Z) op m : res cmap :=
  _ ← mut own; a ← new_access n op; Ok (smap_emplace k a m).

(** ** [registerConcreteMemoryOperation] *)

(** Where the method returns early or goes on, with the begin of what remains
    of the incoming range. *)
Inductive left_result : Type :=
  | LeftDone (own : bool) (m : cmap)
  | LeftGo (own : bool) (m : cmap) (incomingBegin : Z).

(** The access to the left of the incoming range [[b, e)]. *)
Definition left_conflict own m (it : option Z) (b e : Z) op : res left_result :=
  if negb (bool_decide (it = cm_begin m)) && negb (bool_decide (it = Some b)) then
    prevBegin ← it_prev it m;
    prev ← it_deref prevBegin m;
    let prevEnd := wadd prevBegin (numBytes prev) in
    if b <? prevEnd then
      if isWrite (type prev) || isRead (op_type op) then
        if e <=? prevEnd then Ok (LeftDone own m) else Ok (LeftGo own m prevEnd)
      else
        own' ← acquire_at own it;
        let prev' := {| numBytes := wsub b prevBegin; type := type prev;
                        instruction := instruction prev |} in
        let m1 := smap_set prevBegin prev' m in
        if e <? prevEnd then
          m2 ← place own' b (op_numBytes op) op m1;
          _ ← mut own';
          let acc := {| numBytes := wsub prevEnd e; type := type prev';
                        instruction := instruction prev' |} in
          Ok (LeftDone own' (smap_emplace e acc m2))
        else Ok (LeftGo own' m1 b)
    else Ok (LeftGo own m b)
  else Ok (LeftGo own m b).

(** The accesses that begin inside the incoming range, from the left to the
    right. *)
Fixpoint right_conflicts (fuel : nat) own m (it : option Z) (b e : Z) op : res (bool * cmap) :=
  match fuel with
  | O => Err OutOfFuel
  | S fuel' =>
      let finish :=
        (* an owned copy, and [it] translated by the case for [end()] *)
        m' ← place true b (wsub e b) op m; Ok (true, m') in
      match it with
      | None => finish
      | Some itBegin =>
          if itBegin <? e then
            acc ← it_deref itBegin m;
            let itEnd := wadd itBegin (numBytes acc) in
            let next := it_next itBegin m in
            if itBegin =? b then
              if isRead (op_type op) || isWrite (type acc) then
                if e <=? itEnd then Ok (own, m)
                else right_conflicts fuel' own m next itEnd e op
              else
                own' ← acquire_at own it;
                if itEnd =? e then
                  Ok (own', smap_set itBegin {| numBytes := numBytes acc; type := op_type op;
                                                instruction := op_instruction op |} m)
                else if itEnd <? e then
                  _ ← mut own';
                  right_conflicts fuel' own' (smap_erase itBegin m) next b e op
                else
                  _ ← cassert (e <? itEnd);
                  _ ← mut own';
                  m1 ← place own' b (wsub e b) op (smap_erase itBegin m);
                  (* the extracted node gets the key [e] and keeps its size *)
                  Ok (own', smap_emplace e acc m1)
            else
              _ ← cassert (b <? itBegin);
              if isWrite (op_type op) || isRead (type acc) then
                own' ← acquire_at own it;
                if itEnd <=? e then
                  _ ← mut own';
                  right_conflicts fuel' own' (smap_erase itBegin m) next b e op
                else
                  _ ← cassert (e <? itEnd);
                  m1 ← place own' b (wsub e b) op m;
                  (* the extracted node gets the key [e] and keeps its size *)
                  Ok (own', smap_emplace e acc (smap_erase itBegin m1))
              else
                m1 ← place own b (wsub itBegin b) op m;
                if e <=? itEnd then Ok (own, m1)
                else right_conflicts fuel' own m1 (it_next itBegin m1) itEnd e op
          else finish
      end
  end.

Definition registerConcreteMemoryOperation own m (incomingBegin : Z) op : res (bool * cmap) :=
  let incomingEnd := wadd incomingBegin (op_numBytes op) in
  let it := lower_bound incomingBegin m in
  l ← left_conflict own m it incomingBegin incomingEnd op;
  match l with
  | LeftDone own' m' => Ok (own', m')
  | LeftGo own' m' b =>
      _ ← cassert (match it with None => true | Some k => b <=? k end);
      right_conflicts (S (length m)) own' m' it b incomingEnd op
  end.

(** ** [registerSymbolicMemoryOperation] *)

(** [equal_range(k)]: the elements before, with and after the key. *)
Definition before_key (k : expr) (s : list (expr * Access)) : mmap := filter (λ p, std_less p.1 k = true) s.
Definition equal_range (k : expr) (s : list (expr * Access)) : mmap := filter (λ p, expr_eqb p.1 k = true) s.
Definition after_key (k : expr) (s : list (expr * Access)) : mmap := filter (λ p, std_less k p.1 = true) s.

(** Whether the tracked access makes the incoming one superfluous, and the
    other way round. *)
Definition subsumes (acc : Access) op : bool :=
  (op_numBytes op <=? numBytes acc) && (isWrite (type acc) || isRead (op_type op)).
Definition subsumed (acc : Access) op : bool :=
  (numBytes acc <=? op_numBytes op) && (isRead (type acc) || isWrite (op_type op)).

(** The loop over the equal range of an owned list: [kept] are the elements it
    went past, elements that the incoming access subsumes are extracted. The
    result tells whether the method returned from the loop, and what is left
    of the range. *)
Fixpoint symbolic_loop (kept rest : list Access) op : bool * list Access :=
  match rest with
  | [] => (false, kept)
  | acc :: rest' =>
      if subsumes acc op then (true, kept ++ rest)
      else if subsumed acc op then symbolic_loop kept rest' op
      else symbolic_loop (kept ++ [acc]) rest' op
  end.

(** The same loop on a shared list: it only looks, until it has to extract;
    [None] when it returns. *)
Fixpoint symbolic_scan (rest : list Access) op : option bool :=
  match rest with
  | [] => Some false
  | acc :: rest' =>
      if subsumes acc op then None
      else if subsumed acc op then Some true
      else symbolic_scan rest' op
  end.

(** The first extraction from a shared list acquires it instead, and starts
    again on the copy. *)
Definition symbolic_range own (range : list Access) op : bool * (bool * list Access) :=
  if own then (true, symbolic_loop [] range op)
  else match symbolic_scan range op with
       | None => (false, (true, range))
       | Some true => (true, symbolic_loop [] range op)
       | Some false => (false, (false, range))
       end.

Definition registerSymbolicMemoryOperation own (s : mmap) (k : expr) op : res (bool * mmap) :=
  let '(own', (returned, kept)) := symbolic_range own (equal_range k s).*2 op in
  let left := before_key k s ++ (pair k <$> kept) in
  if returned then Ok (own', left ++ after_key k s)
  else
    a ← new_access (op_numBytes op) op;
    Ok (true, left ++ (k, a) :: after_key k s).

(** ** [registerMemoryOperation] *)

Definition registerMemoryOperation own (l : OperationList) op : res (bool * OperationList) :=
  _ ← cassert (isRead (op_type op) || isWrite (op_type op));
  off ← nonnull (op_offset op);
  match as_constant off with
  | Some incomingOffset =>
      '(own', c) ← registerConcreteMemoryOperation own (concrete l) incomingOffset op;
      Ok (own', {| concrete := c; symbolic := symbolic l |})
  | None =>
      '(own', s) ← registerSymbolicMemoryOperation own (symbolic l) off op;
      Ok (own', {| concrete := concrete l; symbolic := s |})
  end.

(** ** Shared lists

    [std::shared_ptr<OperationList>]: a store of lists with their use
    counts. *)
Record shared_list := { use_count : nat; the_list : OperationList }.
#[local] Abbreviation store := (gmap N shared_list).

(** An address that no live list has. *)
Definition next_ptr (st : store) : N := map_fold (λ k _ n, N.max (k + 1) n) 0%N st.

Definition make_shared (l : OperationList) (st : store) : store * N :=
  let p := next_ptr st in (<[p := {| use_count := 1; the_list := l |}]> st, p).

(** Copying and dropping a pointer. *)
Definition retain (p : N) (st : store) : store :=
  match st !! p with
  | Some s => <[p := {| use_count := S (use_count s); the_list := the_list s |}]> st
  | None => st
  end.
Definition release (p : N) (st : store) : store :=
  match st !! p with
  | Some s =>
      match use_count s with
      | S (S n) => <[p := {| use_count := S n; the_list := the_list s |}]> st
      | _ => delete p st
      end
  | None => st
  end.

(** [registerMemoryOperation(std::shared_ptr<OperationList>& self, ...)]: when
    the list had to be acquired, [self] is replaced by the copy. *)
Definition register_shared (st : store) (self : N) op : res (store * N) :=
  s ← nonnull (st !! self);
  let own := Nat.eqb (use_count s) 1 in
  '(own', l) ← registerMemoryOperation own (the_list s) op;
  if own then Ok (<[self := {| use_count := 1; the_list := l |}]> st, self)
  else if (own' : bool) then let '(st', p) := make_shared l st in Ok (release self st', p)
  else Ok (st, self).

Record ObjectAccesses := { allocFreeInstruction : option KInstruction; accesses : option N }.

Definition new_ObjectAccesses : ObjectAccesses :=
  {| allocFreeInstruction := None; accesses := None |}.

Definition oa_isAllocOrFree (oa : ObjectAccesses) : bool :=
  match allocFreeInstruction oa with Some _ => true | None => false end.

Definition getAllocFreeInstruction (oa : ObjectAccesses) : res KInstruction :=
  match allocFreeInstruction oa with Some i => Ok i | None => Err AssertFailed end.

(** [accesses->concrete] and [accesses->symbolic] of an object without an
    allocation. *)
Definition object_list (st : store) (oa : ObjectAccesses) : res OperationList :=
  _ ← cassert (negb (oa_isAllocOrFree oa));
  p ← nonnull (accesses oa);
  s ← nonnull (st !! p);
  Ok (the_list s).
Definition getConcreteAccesses st oa : res cmap := concrete <$> object_list st oa.
Definition getSymbolicAccesses st oa : res mmap := symbolic <$> object_list st oa.

Definition trackMemoryOperation_object (st : store) (oa : ObjectAccesses) op
    : res (store * ObjectAccesses) :=
  _ ← cassert (negb (bool_decide (op_type op = UNKNOWN)));
  match allocFreeInstruction oa with
  | Some _ => Ok (st, oa)
  | None =>
      if isAllocOrFree (op_type op) then
        let st' := match accesses oa with Some p => release p st | None => st end in
        Ok (st', {| allocFreeInstruction := op_instruction op; accesses := None |})
      else
        let '(st1, p) :=
          match accesses oa with
          | Some p => (st, p)
          | None => make_shared {| concrete := []; symbolic := [] |} st
          end in
        '(st2, p') ← register_shared st1 p op;
        Ok (st2, {| allocFreeInstruction := None; accesses := Some p' |})
  end.
End accesses.

Abbreviation store := (gmap N shared_list).
