(* ===== verification/AccessProofs.v ===== *)
(** * The byte ranges tracked for constant offsets

    [registerConcreteMemoryOperation] against the set of bytes that a list
    tracks: on a list of disjoint ranges it never loses a byte, and it tracks
    exactly the bytes of the list and of the incoming access unless a tracked
    read reaches over the end of the access. *)

From stdpp Require Import base tactics list gmap numbers sorting.
From S2P Require Import Prelude StdMap ThreadId ObjectAccesses.

Local Open Scope Z_scope.

Section ranges.
Context {EL : ExprLib}.
Implicit Types (m : cmap) (op : MemoryOperation) (p q : Z * Access) (w : bool).

(** The first byte after an access. *)
Definition ends p : Z := p.1 + numBytes p.2.

(** Whether an access of kind [t] counts when only writes ([w]) are asked
    for. *)
Definition counts w (t : AccessType) : bool := negb w || isWrite t.

(** Byte [x] is tracked; with [w], as written. *)
Definition seen w m (x : Z) : Prop :=
  Exists (λ p, counts w (type p.2) = true ∧ p.1 ≤ x < ends p) m.

(** Well-formed lists: non-empty ranges of reads and writes inside the address
    space, from the left to the right and disjoint. *)
Record entry_ok p : Prop := {
  eo_begin : 0 ≤ p.1;
  eo_bytes : 0 < numBytes p.2;
  eo_end : ends p < word_size;
  eo_type : isReadOrWrite (type p.2) = true;
}.
Definition lies_before p q : Prop := ends p ≤ q.1.
Definition cm_ok m : Prop := StronglySorted lies_before m ∧ Forall entry_ok m.

(** A tracked access that begins inside the range [[b, e)], reaches over its
    end and gives way to an incoming access of kind [t]. *)
Definition straddles (b e : Z) (t : AccessType) p : Prop :=
  isWrite t || isRead (type p.2) = true ∧
  (b < p.1 ∨ b = p.1 ∧ isWrite t = true ∧ isRead (type p.2) = true) ∧
  p.1 < e < ends p.
Definition straddled m (b e : Z) (t : AccessType) : Prop := Exists (straddles b e t) m.

(** ** Lists cut at an iterator *)

Lemma cm_ok_app m1 m2 :
  cm_ok (m1 ++ m2) ↔ cm_ok m1 ∧ cm_ok m2 ∧ ∀ p q, p ∈ m1 → q ∈ m2 → ends p ≤ q.1.
Proof.
  unfold cm_ok. rewrite StronglySorted_app, Forall_app. unfold lies_before. naive_solver.
Qed.

Lemma cm_ok_cons p m : cm_ok (p :: m) ↔ entry_ok p ∧ cm_ok m ∧ ∀ q, q ∈ m → ends p ≤ q.1.
Proof.
  change (p :: m) with ([p] ++ m). rewrite cm_ok_app. split.
  - intros ([_ H1] & H2 & H3). split_and!; [by inversion H1 | done|].
    intros q Hq. apply H3; [by left | done].
  - intros (H1 & H2 & H3). split_and!; [|done|].
    + split; repeat (constructor; try done).
    + intros p' q ->%list_elem_of_singleton Hq. by apply H3.
Qed.

Lemma cm_ok_nil : cm_ok [].
Proof. split; constructor. Qed.

Lemma cm_ok_entry m p : cm_ok m → p ∈ m → entry_ok p.
Proof. intros [_ H] Hp. rewrite list.Forall_forall in H. auto. Qed.

Lemma seen_app w m1 m2 x : seen w (m1 ++ m2) x ↔ seen w m1 x ∨ seen w m2 x.
Proof. apply Exists_app. Qed.

Lemma seen_cons w p m x :
  seen w (p :: m) x ↔ (counts w (type p.2) = true ∧ p.1 ≤ x < ends p) ∨ seen w m x.
Proof. apply Exists_cons. Qed.

Lemma seen_nil w x : seen w [] x ↔ False.
Proof. apply Exists_nil. Qed.

(** Keys on the two sides of a cut. *)
Definition below_key (b : Z) m : Prop := Forall (λ p, p.1 < b) m.
Definition from_key (b : Z) m : Prop := Forall (λ p, b ≤ p.1) m.
Definition above_key (b : Z) m : Prop := Forall (λ p, b < p.1) m.

Lemma above_from b m : above_key b m → from_key b m.
Proof. intros H. eapply Forall_impl; [apply H|]. simpl. intros; lia. Qed.

Lemma find_cut k a m1 m2 : below_key k m1 → smap_find k (m1 ++ (k, a) :: m2) = Some a.
Proof.
  induction 1 as [|[k' a'] m1 Hk _ IH]; simpl in *; unfold std_less, Z_less.
  - by rewrite Z.ltb_irrefl.
  - rewrite (proj2 (Z.ltb_ge k k')), (proj2 (Z.ltb_lt k' k)) by lia. done.
Qed.

Lemma find_none k m1 m2 : below_key k m1 → above_key k m2 → smap_find k (m1 ++ m2) = None.
Proof.
  intros H1 H2. induction H1 as [|[k' a'] m1 Hk _ IH]; simpl in *.
  - destruct H2 as [|[k' a'] m2 Hk]; simpl in *; [done|]. unfold std_less, Z_less.
    by rewrite (proj2 (Z.ltb_lt k k')) by lia.
  - unfold std_less, Z_less in *. rewrite (proj2 (Z.ltb_ge k k')), (proj2 (Z.ltb_lt k' k)) by lia. done.
Qed.

Lemma erase_cut k a m1 m2 : below_key k m1 → smap_erase k (m1 ++ (k, a) :: m2) = m1 ++ m2.
Proof.
  induction 1 as [|[k' a'] m1 Hk _ IH]; simpl in *; unfold std_less, Z_less in *.
  - by rewrite Z.ltb_irrefl.
  - rewrite (proj2 (Z.ltb_ge k k')), (proj2 (Z.ltb_lt k' k)) by lia. by rewrite IH.
Qed.

Lemma set_cut k a a' m1 m2 :
  below_key k m1 → smap_set k a' (m1 ++ (k, a) :: m2) = m1 ++ (k, a') :: m2.
Proof.
  induction 1 as [|[k1 a1] m1 Hk _ IH]; simpl in *; unfold std_less, Z_less in *.
  - by rewrite Z.ltb_irrefl.
  - rewrite (proj2 (Z.ltb_ge k k1)), (proj2 (Z.ltb_lt k1 k)) by lia. by rewrite IH.
Qed.

Lemma set_new k a m1 m2 :
  below_key k m1 → above_key k m2 → smap_set k a (m1 ++ m2) = m1 ++ (k, a) :: m2.
Proof.
  intros H1 H2. induction H1 as [|[k1 a1] m1 Hk _ IH]; simpl in *.
  - destruct H2 as [|[k2 a2] m2 Hk]; simpl in *; [done|]. unfold std_less, Z_less.
    by rewrite (proj2 (Z.ltb_lt k k2)) by lia.
  - unfold std_less, Z_less in *. rewrite (proj2 (Z.ltb_ge k k1)), (proj2 (Z.ltb_lt k1 k)) by lia.
    by rewrite IH.
Qed.

Lemma emplace_cut k a m1 m2 :
  below_key k m1 → above_key k m2 → smap_emplace k a (m1 ++ m2) = m1 ++ (k, a) :: m2.
Proof.
  intros H1 H2. unfold smap_emplace. rewrite find_none by done. by apply set_new.
Qed.

Lemma next_cut k a m1 m2 : below_key k m1 → it_next k (m1 ++ (k, a) :: m2) = cm_begin m2.
Proof.
  induction 1 as [|[k' a'] m1 Hk _ IH]; simpl in *.
  - by rewrite Z.eqb_refl.
  - rewrite (proj2 (Z.eqb_neq k' k)) by lia. done.
Qed.

Lemma prev_cut k a m1 m2 :
  below_key k m1 → above_key k m2 → it_prev (cm_begin m2) (m1 ++ (k, a) :: m2) = Ok k.
Proof.
  intros H1 H2.
  assert (∀ k', k' ≤ k → cm_begin m2 ≠ Some k') as Hne.
  { destruct H2 as [|[k2 a2] m2 Hk]; simpl in *; [done|]. intros k' ? [=]. lia. }
  induction H1 as [|[k1 a1] m1 Hk H1 IH]; simpl in *.
  - rewrite bool_decide_eq_false_2, bool_decide_eq_true_2; [done..|]. apply Hne. lia.
  - rewrite !bool_decide_eq_false_2; [done| |apply Hne; lia].
    destruct H1 as [|[k2 a2] m1 Hk2]; simpl in *; apply Hne; lia.
Qed.

Lemma lower_bound_cut b m :
  StronglySorted lies_before m → Forall entry_ok m →
  ∃ m1 m2, m = m1 ++ m2 ∧ below_key b m1 ∧ from_key b m2 ∧ lower_bound b m = cm_begin m2.
Proof.
  induction m as [|[k a] m IH]; intros Hs Hok.
  { exists [], []. split_and!; [done | constructor | constructor | done]. }
  apply StronglySorted_inv in Hs as [Hs Hk]. inversion Hok as [|? ? Hka Hok']; subst. simpl.
  destruct (k <? b) eqn:Hkb.
  - apply Z.ltb_lt in Hkb. destruct (IH Hs Hok') as (m1 & m2 & -> & H1 & H2 & ->).
    exists ((k, a) :: m1), m2. split_and!; [done | by constructor | done | done].
  - apply Z.ltb_ge in Hkb. exists [], ((k, a) :: m).
    split_and!; [done | constructor | | done]. constructor; [done|].
    eapply Forall_impl; [apply Hk|]. intros [k' a'] Hl. unfold lies_before, ends in Hl. simpl in *.
    destruct Hka as [_ Hn _ _]. simpl in Hn. lia.
Qed.

(** What a well-formed list says of the accesses around one of them. *)
Lemma key_facts m1 k a m2 :
  cm_ok (m1 ++ (k, a) :: m2) →
  below_key k m1 ∧ above_key k m2 ∧ from_key (k + numBytes a) m2 ∧ entry_ok (k, a).
Proof.
  intros Hok. assert (entry_ok (k, a)) as Hka by (apply (cm_ok_entry _ _ Hok); set_solver).
  pose proof Hka as [H0 Hn _ _]. simpl in *.
  apply cm_ok_app in Hok as (H1 & (_ & _ & H4)%cm_ok_cons & H3).
  assert (from_key (k + numBytes a) m2) as Hf by (by apply list.Forall_forall).
  split_and!; [| |done|done].
  - apply list.Forall_forall. intros p Hp. assert (ends p ≤ k) by (apply (H3 p (k, a)); [done | by left]).
    destruct (cm_ok_entry _ _ H1 Hp) as [_ ? _ _]. unfold ends in *. lia.
  - eapply Forall_impl; [apply Hf|]. simpl. intros; lia.
Qed.

Lemma begin_cut m1 k a m2 :
  below_key k m1 → above_key k m2 → bool_decide (cm_begin m2 = cm_begin (m1 ++ (k, a) :: m2)) = false.
Proof.
  intros Hbel Habv. apply bool_decide_eq_false_2.
  destruct Hbel as [|[k1 a1] m1' Hk1]; simpl in *; (destruct Habv as [|[k2 a2] m2' Hk2]; simpl in *; [done|]);
    intros [=]; lia.
Qed.

(** A list cut before the position: the only access that may reach into the
    range is the last one on the left. *)
Lemma lower_cut m b :
  cm_ok m → 0 ≤ b →
  (∃ m2, m = m2 ∧ lower_bound b m = cm_begin m2 ∧ from_key b m2) ∨
  ∃ m1 k a m2, m = m1 ++ (k, a) :: m2 ∧ lower_bound b m = cm_begin m2 ∧ k < b ∧ from_key b m2.
Proof.
  intros [Hs Hok] H0. destruct (lower_bound_cut b m Hs Hok) as (m1 & m2 & -> & Hb & Hf & Hl).
  destruct m1 as [|[k a] m1 _] using rev_ind; [left; by exists m2|]. right. exists m1, k, a, m2.
  rewrite <-app_assoc in *. split_and!; [done | done | | done].
  apply Forall_app in Hb as [_ Hb]. by inversion Hb.
Qed.

(** ** What registering achieves *)

Record registered m (b e : Z) (t : AccessType) m' : Prop := {
  rg_kept w x : seen w m x ∨ counts w t = true ∧ b ≤ x < e → seen w m' x;
  rg_exact : ¬ straddled m b e t →
    cm_ok m' ∧ ∀ w x, seen w m' x → seen w m x ∨ counts w t = true ∧ b ≤ x < e;
}.

(** A step of the loop moves bytes between the list and what remains of the
    incoming range. *)
Lemma registered_step m b m1 b1 e t m' :
  registered m1 b1 e t m' →
  (∀ w x, seen w m x ∨ counts w t = true ∧ b ≤ x < e ↔
          seen w m1 x ∨ counts w t = true ∧ b1 ≤ x < e) →
  (straddled m1 b1 e t → straddled m b e t) →
  registered m b e t m'.
Proof.
  intros [Hk Hx] Heq Hst. split.
  - intros w x H. apply Hk. by apply Heq.
  - intros Hns. destruct Hx as [Hok Hx]; [naive_solver|]. split; [done|].
    intros w x H%Hx. by apply Heq.
Qed.

(** An exact result. *)
Lemma registered_exact m b e t m' :
  cm_ok m' → (∀ w x, seen w m' x ↔ seen w m x ∨ counts w t = true ∧ b ≤ x < e) →
  registered m b e t m'.
Proof. intros Hok H. split; naive_solver. Qed.

(** The access entered for an incoming operation. *)
Definition entered (n : Z) op : Access :=
  {| numBytes := n; type := op_type op; instruction := op_instruction op |}.

Lemma place_owned k n op m1 m2 :
  isReadOrWrite (op_type op) = true → below_key k m1 → above_key k m2 →
  place true k n op (m1 ++ m2) = Ok (m1 ++ (k, entered n op) :: m2).
Proof.
  intros Ht H1 H2. unfold place, mut, new_access, isReadOrWrite in *. rewrite Ht. cbn.
  by rewrite emplace_cut.
Qed.

Lemma counts_write t w : isWrite t = true → counts w t = true.
Proof. unfold counts. intros ->. by rewrite orb_true_r. Qed.

Lemma counts_read t w : isReadOrWrite t = true → isWrite t = false → counts w t = negb w.
Proof. unfold counts. intros _ ->. apply orb_false_r. Qed.

(** The stronger of two kinds counts whenever the weaker one does. *)
Lemma counts_stronger t t' w :
  isReadOrWrite t = true → isReadOrWrite t' = true →
  isWrite t' || isRead t = true → counts w t = true → counts w t' = true.
Proof. destruct t, t', w; done. Qed.

Lemma straddled_app m1 m2 b e t : straddled (m1 ++ m2) b e t ↔ straddled m1 b e t ∨ straddled m2 b e t.
Proof. apply Exists_app. Qed.

Lemma straddled_cons p m b e t :
  straddled (p :: m) b e t ↔ straddles b e t p ∨ straddled m b e t.
Proof. apply Exists_cons. Qed.

Lemma straddled_from m b b' e t : b ≤ b' → straddled m b' e t → straddled m b e t.
Proof.
  intros Hb H. eapply Exists_impl; [apply H|]. simpl. intros p (H1 & H2 & H3).
  split_and!; [done | | lia | lia]. destruct (decide (b < p.1)); [by left|].
  right. destruct H2 as [?|(? & ? & ?)]; [lia|]. split_and!; [lia | done..].
Qed.
End ranges.

#[export] Hint Rewrite @seen_app @seen_cons @seen_nil : ranges.

(** ** Registering an access with a constant offset

    The proof that [registerConcreteMemoryOperation] returns on every list of
    disjoint ranges and achieves [registered]: first the loop over the ranges
    that begin inside the access, then the range to its left. *)

Section loop.
Context {EL : ExprLib}.
Context (op : MemoryOperation) (e : Z).
Abbreviation t := (op_type op).
Context (Ht : isReadOrWrite t = true) (He : e < word_size).
Implicit Types (m : cmap) (p q : Z * Access) (w : bool).

(** The loop's position: what is left of the incoming range begins at [b]. *)
Record cut_at m1 m2 (b : Z) : Prop := {
  ct_ok : cm_ok (m1 ++ m2);
  ct_begin : 0 ≤ b;
  ct_left p : p ∈ m1 → ends p ≤ b;
  ct_right : from_key b m2;
}.

Lemma cut_below m1 m2 b : cut_at m1 m2 b → below_key b m1.
Proof.
  intros [Hok _ Hl _]. apply list.Forall_forall. intros p Hp. apply cm_ok_app in Hok as (Hok & _).
  destruct (cm_ok_entry _ _ Hok Hp) as [_ Hn _ _]. specialize (Hl p Hp). unfold ends in Hl. lia.
Qed.

Lemma below_weaken b b' m : b ≤ b' → below_key b m → below_key b' m.
Proof. intros Hb H. eapply Forall_impl; [apply H|]. simpl. intros; lia. Qed.

Lemma from_weaken b b' m : b' ≤ b → from_key b m → from_key b' m.
Proof. intros Hb H. eapply Forall_impl; [apply H|]. simpl. intros; lia. Qed.

(** What the position says of the access it points to. *)
Lemma cut_head m1 k a m2 b :
  cut_at m1 ((k, a) :: m2) b →
  below_key k m1 ∧ from_key (k + numBytes a) m2 ∧ above_key k m2 ∧ b ≤ k ∧ entry_ok (k, a).
Proof.
  intros Hc. pose proof (cut_below _ _ _ Hc) as Hb. destruct Hc as [Hok H0 Hl Hr].
  inversion Hr as [|? ? Hbk Hr']; subst. simpl in Hbk.
  apply cm_ok_app in Hok as (_ & Hok & _). apply cm_ok_cons in Hok as (Hka & _ & Hafter).
  assert (from_key (k + numBytes a) m2) as Hf by (by apply list.Forall_forall).
  split_and!; [by apply (below_weaken b) | done | | done | done].
  destruct Hka as [_ Hn _ _]. simpl in Hn. eapply Forall_impl; [apply Hf|]. simpl. intros; lia.
Qed.

(** Going past the access, or dropping it. *)
Lemma cut_past m1 k a m2 b :
  cut_at m1 ((k, a) :: m2) b → cut_at (m1 ++ [(k, a)]) m2 (k + numBytes a).
Proof.
  intros Hc. destruct (cut_head _ _ _ _ _ Hc) as (_ & Hf & _ & Hbk & [Hk Hn _ _]).
  simpl in *. destruct Hc as [Hok H0 Hl Hr]. split; [by rewrite <-app_assoc | lia | | done].
  intros p [Hp| ->%list_elem_of_singleton]%elem_of_app; [|done]. specialize (Hl p Hp). lia.
Qed.

Lemma cut_drop m1 k a m2 b : cut_at m1 ((k, a) :: m2) b → cut_at m1 m2 b.
Proof.
  intros Hc. destruct (cut_head _ _ _ _ _ Hc) as (_ & Hf & _ & Hbk & [Hk Hn _ _]).
  simpl in *. destruct Hc as [Hok H0 Hl Hr]. split; [|done|done|].
  - apply cm_ok_app in Hok as (H1 & [_ [H2 _]]%cm_ok_cons & H3). apply cm_ok_app.
    split_and!; [done..|]. intros p q Hp Hq. apply H3; [done | by right].
  - apply (from_weaken (k + numBytes a)); [lia | done].
Qed.

(** Entering an access for the bytes from [b] to [b'], before the accesses to
    the right. *)
Lemma cut_enter m1 m2 b b' :
  cut_at m1 m2 b → b < b' → b' < word_size → from_key b' m2 →
  cm_ok (m1 ++ (b, entered (b' - b) op) :: m2).
Proof.
  intros [Hok H0 Hl Hr] Hb Hb' Hf. apply cm_ok_app in Hok as (H1 & H2 & H3).
  unfold from_key in Hf. rewrite list.Forall_forall in Hf.
  apply cm_ok_app. split_and!; [done| |].
  - apply cm_ok_cons. split_and!; [|done|].
    + split; unfold ends; simpl; [done | lia | lia | done].
    + intros q Hq. unfold ends. simpl. specialize (Hf q Hq). lia.
  - intros p q Hp [->|Hq]%elem_of_cons; [by apply Hl | by apply H3].
Qed.

Lemma enter_seen w m1 m2 b b' x :
  seen w (m1 ++ (b, entered (b' - b) op) :: m2) x ↔
  seen w (m1 ++ m2) x ∨ counts w t = true ∧ b ≤ x < b'.
Proof.
  autorewrite with ranges. unfold ends, entered. simpl. 
  replace (b + (b' - b)) with b' by lia. tauto.
Qed.

(** ** The loop *)

(** The end of the loop: the rest of the range is entered. *)
Lemma finish_spec m1 m2 b :
  cut_at m1 m2 b → b < e → from_key e m2 →
  ∃ m', (m' ← place true b (wsub e b) op (m1 ++ m2); Ok (true, m')) = Ok (true, m') ∧
    registered (m1 ++ m2) b e t m'.
Proof.
  intros Hc Hb Hf. pose proof (ct_begin _ _ _ Hc). rewrite wsub_small by lia.
  rewrite place_owned; [|done|by apply (cut_below _ _ _ Hc)|].
  2:{ eapply Forall_impl; [apply Hf|]. simpl. intros; lia. }
  eexists. split; [done|]. apply registered_exact; [by apply cut_enter|].
  intros w x. apply enter_seen.
Qed.

(** The incoming access is already tracked from here to the end of [a], which
    is at least as strong. *)
Lemma covered_here m1 k a m2 w x :
  isRead t || isWrite (type a) = true → entry_ok (k, a) →
  counts w t = true → k ≤ x < k + numBytes a → seen w (m1 ++ (k, a) :: m2) x.
Proof.
  intros Hs [_ _ _ Hty] Hw Hx. apply seen_app. right. apply seen_cons. left. split; [|done].
  apply (counts_stronger t); [done..| |done]. by rewrite orb_comm.
Qed.

(** The tracked access lies inside the rest of the range and is not stronger. *)
Lemma covered_by m1 k a m2 b w x :
  isWrite t || isRead (type a) = true → entry_ok (k, a) → b ≤ k → k + numBytes a ≤ e →
  seen w (m1 ++ (k, a) :: m2) x ∨ counts w t = true ∧ b ≤ x < e ↔
  seen w (m1 ++ m2) x ∨ counts w t = true ∧ b ≤ x < e.
Proof.
  intros Hs [_ _ _ Hty] Hb Hke. autorewrite with ranges. unfold ends. simpl.
  assert (counts w (type a) = true → counts w t = true) by (by apply counts_stronger). 
  split; [|tauto]. intros [[?|[[? ?]|?]]|?]; [tauto| |tauto..]. right. split; [auto | lia].
Qed.

(** Making room for the rest of the range before a tracked access that reaches
    over its end: the tracked access is moved to the end. *)
Lemma split_spec m1 k a m2 b :
  cut_at m1 ((k, a) :: m2) b → b < e → straddles b e t (k, a) →
  registered (m1 ++ (k, a) :: m2) b e t (m1 ++ (b, entered (e - b) op) :: (e, a) :: m2).
Proof.
  intros Hc Hb (Hs & Hbk & Hke). unfold ends in Hke. simpl in *.
  destruct (cut_head _ _ _ _ _ Hc) as (_ & _ & _ & Hbk' & [_ _ _ Hty]).
  split.
  - intros w x. rewrite enter_seen. autorewrite with ranges. unfold ends. simpl.
    assert (counts w (type a) = true → counts w t = true) by (by apply counts_stronger).
    destruct (decide (x < e)); [|naive_solver lia].
    intros [[?|[[? ?]|?]]|?]; [tauto| |tauto|tauto]. right. split; [auto | lia].
  - intros []. apply straddled_app. right. apply straddled_cons. by left.
Qed.

(** ** The loop body

    The induction hypothesis of the loop, for what is right of the position. *)
Definition continues m2 : Prop := ∀ fuel m1 b,
  (length m2 < fuel)%nat → cut_at m1 m2 b → b < e →
  ∃ m', right_conflicts fuel true (m1 ++ m2) (cm_begin m2) b e op = Ok (true, m') ∧
    registered (m1 ++ m2) b e t m'.

(** Dropping an access that the incoming one covers. *)
Lemma drop_step fuel m1 k a m2 b :
  continues m2 → (length m2 < fuel)%nat → cut_at m1 ((k, a) :: m2) b → b < e →
  isWrite t || isRead (type a) = true → k + numBytes a ≤ e →
  ∃ m', right_conflicts fuel true (m1 ++ m2) (cm_begin m2) b e op = Ok (true, m') ∧
    registered (m1 ++ (k, a) :: m2) b e t m'.
Proof.
  intros IH Hfuel Hc Hb Hs Hle. destruct (cut_head _ _ _ _ _ Hc) as (_ & _ & _ & Hbk & Hka).
  destruct (IH fuel m1 b) as (m' & -> & Hr); [lia | by eapply cut_drop | lia|].
  eexists. split; [done|]. eapply registered_step; [exact Hr| |].
  - intros w x. by apply covered_by.
  - rewrite !straddled_app, straddled_cons. tauto.
Qed.

(** Going past an access that begins at the position and is as strong. *)
Lemma past_step fuel m1 a m2 b :
  continues m2 → (length m2 < fuel)%nat → cut_at m1 ((b, a) :: m2) b →
  isRead t || isWrite (type a) = true → b + numBytes a < e →
  ∃ m', right_conflicts fuel true (m1 ++ (b, a) :: m2) (cm_begin m2) (b + numBytes a) e op = Ok (true, m') ∧
    registered (m1 ++ (b, a) :: m2) b e t m'.
Proof.
  intros IH Hfuel Hc Hs Hlt. destruct (cut_head _ _ _ _ _ Hc) as (_ & _ & _ & _ & Hka).
  replace (m1 ++ (b, a) :: m2) with ((m1 ++ [(b, a)]) ++ m2) by (by rewrite <-app_assoc).
  destruct (IH fuel (m1 ++ [(b, a)]) (b + numBytes a)) as (m' & -> & Hr); [lia | by eapply cut_past | lia|].
  destruct Hka as [? ? ? ?]. simpl in *.
  eexists. split; [done|]. eapply registered_step; [exact Hr| |apply straddled_from; lia].
  intros w x. rewrite <-app_assoc. simpl.
  destruct (decide (x < b + numBytes a)); [|naive_solver lia]. split; [|naive_solver lia].
  intros [?|[Hw Hx]]; [tauto|]. left. apply covered_here; [done.. | lia].
Qed.

(** An access that begins at the position. *)
Lemma same_step fuel m1 a m2 b :
  continues m2 → (length m2 < fuel)%nat → cut_at m1 ((b, a) :: m2) b → b < e →
  ∃ m', right_conflicts (S fuel) true (m1 ++ (b, a) :: m2) (Some b) b e op = Ok (true, m') ∧
    registered (m1 ++ (b, a) :: m2) b e t m'.
Proof.
  intros IH Hfuel Hc Hb. destruct (cut_head _ _ _ _ _ Hc) as (Hbel & Hf & Habv & _ & Hka).
  pose proof (ct_begin _ _ _ Hc) as H0. pose proof Hka as [_ Hn Hend Hty]. unfold ends in Hend. simpl in Hn, Hend, Hty.
  cbn [right_conflicts]. rewrite (proj2 (Z.ltb_lt b e)) by lia. unfold it_deref.
  rewrite (find_cut b a m1 m2), bind_Ok_l by done. rewrite (next_cut b a m1 m2) by done.
  rewrite (wadd_small b (numBytes a)) by lia. cbn zeta. rewrite Z.eqb_refl.
  destruct (isRead t || isWrite (type a)) eqn:Hs.
  { destruct (Z.leb_spec e (b + numBytes a)) as [Hle|Hlt]; [|by apply past_step].
    eexists. split; [done|]. apply registered_exact; [apply Hc|].
    intros w x. split; [tauto|]. intros [?|[Hw Hx]]; [done|]. apply covered_here; [done..|lia]. }
  apply orb_false_iff in Hs as [Hrt Hwa]. rewrite read_or_write in Hrt by done. apply negb_false_iff in Hrt.
  assert (isRead (type a) = true) as Hra by (by rewrite read_or_write, Hwa).
  cbn [acquire_at]. rewrite bind_Ok_l. destruct (Z.eqb_spec (b + numBytes a) e) as [Heq|Hne].
  { rewrite set_cut by done. eexists. split; [done|].
    change {| numBytes := numBytes a; type := t; instruction := op_instruction op |} with (entered (numBytes a) op).
    replace (numBytes a) with (e - b) by lia. apply registered_exact.
    - apply cut_enter; [by eapply cut_drop | lia | done | by replace e with (b + numBytes a) by lia].
    - intros w x. rewrite enter_seen. symmetry. apply covered_by; [by rewrite Hrt | done | done | lia]. }
  cbn [mut cassert]. destruct (Z.ltb_spec (b + numBytes a) e) as [Hlt|Hge].
  { rewrite bind_Ok_l, erase_cut by done. apply drop_step; [done.. | by rewrite Hrt | lia]. }
  rewrite (proj2 (Z.ltb_lt e (b + numBytes a))) by lia. cbn [cassert].
  rewrite !bind_Ok_l, erase_cut, wsub_small by (done || lia). rewrite place_owned, bind_Ok_l by done.
  rewrite (cons_middle _ m1), app_assoc. rewrite emplace_cut; [rewrite <-app_assoc | |].
  - eexists. split; [done|]. simpl. apply split_spec; [done.. |]. unfold straddles, ends. simpl.
    rewrite Hrt, Hra. split_and!; [done | tauto | lia | lia].
  - apply Forall_app. split; [by apply (below_weaken b); [lia|] | by constructor].
  - eapply Forall_impl; [apply Hf|]. simpl. intros; lia.
Qed.

(** Entering the bytes before a stronger access, then going past it. *)
Lemma enter_step fuel m1 k a m2 b :
  continues m2 → (length m2 < fuel)%nat → cut_at m1 ((k, a) :: m2) b → b < k →
  isWrite t || isRead (type a) = false → k + numBytes a < e →
  let m := m1 ++ (b, entered (k - b) op) :: (k, a) :: m2 in
  ∃ m', right_conflicts fuel true m (cm_begin m2) (k + numBytes a) e op = Ok (true, m') ∧
    registered (m1 ++ (k, a) :: m2) b e t m'.
Proof.
  intros IH Hfuel Hc Hb Hs Hlt m. destruct (cut_head _ _ _ _ _ Hc) as (_ & Hf & _ & _ & Hka).
  pose proof (ct_begin _ _ _ Hc) as H0. pose proof Hka as [_ Hn Hend Hty]. unfold ends in Hend. simpl in Hn, Hend, Hty.
  assert (cut_at (m1 ++ [(b, entered (k - b) op)]) ((k, a) :: m2) k) as Hc'.
  { split; [rewrite <-app_assoc; apply cut_enter; [done | done | lia |] | lia | |].
    - constructor; [done|]. apply (from_weaken (k + numBytes a)); [lia | done].
    - intros p [Hp| ->%list_elem_of_singleton]%elem_of_app; [pose proof (ct_left _ _ _ Hc p Hp); lia|].
      unfold ends. simpl. lia.
    - constructor; [done|]. apply (from_weaken (k + numBytes a)); [lia | done]. }
  apply orb_false_iff in Hs as [Hwt Hra].
  assert (isRead t || isWrite (type a) = true) as Hs by (by rewrite read_or_write, Hwt).
  destruct (past_step fuel _ a m2 k IH Hfuel Hc' Hs Hlt) as (m' & Hm' & Hr).
  rewrite <-app_assoc in Hm', Hr. exists m'. split; [done|].
  eapply registered_step; [exact Hr| |].
  - intros w x. simpl. rewrite enter_seen. destruct (decide (x < k)); naive_solver lia.
  - simpl. rewrite !straddled_app, !straddled_cons. unfold straddles at 1. simpl. unfold ends. simpl.
    intros [Hm|[Hm|[Hm|Hm]]].
    + left. apply (straddled_from _ b k); [lia | done].
    + lia.
    + right. left. destruct Hm as (? & Hx & ?). split_and!; [done | left; simpl; lia | lia | lia].
    + right. right. apply (straddled_from _ b k); [lia | done].
Qed.

(** An access that begins after the position. *)
Lemma after_step fuel m1 k a m2 b :
  continues m2 → (length m2 < fuel)%nat → cut_at m1 ((k, a) :: m2) b → b < k < e →
  ∃ m', right_conflicts (S fuel) true (m1 ++ (k, a) :: m2) (Some k) b e op = Ok (true, m') ∧
    registered (m1 ++ (k, a) :: m2) b e t m'.
Proof.
  intros IH Hfuel Hc Hb. destruct (cut_head _ _ _ _ _ Hc) as (Hbel & Hf & Habv & _ & Hka).
  pose proof (ct_begin _ _ _ Hc) as H0. pose proof Hka as [_ Hn Hend Hty]. unfold ends in Hend. simpl in Hn, Hend, Hty.
  pose proof (cut_below _ _ _ Hc) as Hbb.
  assert (above_key b ((k, a) :: m2)) as Hab.
  { constructor; [simpl; lia|]. eapply Forall_impl; [apply Habv|]. simpl. intros; lia. }
  cbn [right_conflicts]. rewrite (proj2 (Z.ltb_lt k e)) by lia. unfold it_deref.
  rewrite (find_cut k a m1 m2), bind_Ok_l by done. rewrite (next_cut k a m1 m2) by done.
  rewrite (wadd_small k (numBytes a)) by lia. cbn zeta.
  rewrite (proj2 (Z.eqb_neq k b)), (proj2 (Z.ltb_lt b k)) by lia. cbn [cassert]. rewrite bind_Ok_l.
  destruct (isWrite t || isRead (type a)) eqn:Hs.
  - cbn [acquire_at]. rewrite bind_Ok_l. destruct (Z.leb_spec (k + numBytes a) e) as [Hle|Hlt].
    { cbn [mut cassert]. rewrite bind_Ok_l, erase_cut by done. apply drop_step; [done..|lia|done|done]. }
    rewrite (proj2 (Z.ltb_lt e (k + numBytes a))) by lia. cbn [cassert].
    rewrite wsub_small, !bind_Ok_l, place_owned, bind_Ok_l by (done || lia).
    rewrite (cons_middle _ m1), app_assoc, erase_cut. 2:{ apply Forall_app. split; [done|].
      constructor; [simpl; lia | constructor]. }
    rewrite emplace_cut; [rewrite <-app_assoc | |].
    + eexists. split; [done|]. simpl. apply split_spec; [done | lia|]. unfold straddles, ends. simpl.
      split_and!; [done | lia | lia | lia].
    + apply Forall_app. split; [apply (below_weaken b); [lia | done]|]. constructor; [simpl; lia | constructor].
    + eapply Forall_impl; [apply Hf|]. simpl. intros; lia.
  - rewrite wsub_small, place_owned, bind_Ok_l by (done || lia).
    destruct (Z.leb_spec e (k + numBytes a)) as [Hle|Hlt].
    + eexists. split; [done|]. apply registered_exact.
      * apply cut_enter; [done | lia | lia|]. constructor; [done|].
        apply (from_weaken (k + numBytes a)); [lia | done].
      * intros w x. rewrite enter_seen. destruct (decide (x < k)); [naive_solver lia|].
        split; [naive_solver lia|]. intros [?|[Hw Hx]]; [tauto|]. left.
        apply covered_here; [|done | done | lia]. apply orb_false_iff in Hs as [Hs _].
        by rewrite read_or_write, Hs.
    + replace (it_next k (m1 ++ (b, entered (k - b) op) :: (k, a) :: m2)) with (cm_begin m2).
      { apply enter_step; [done..|lia|done|lia]. }
      rewrite (cons_middle _ m1), app_assoc, next_cut; [done|]. apply Forall_app. split; [done|].
      constructor; [simpl; lia | constructor].
Qed.

Lemma right_spec m2 : continues m2.
Proof.
  induction m2 as [|[k a] m2 IH]; intros [|fuel] m1 b Hfuel Hc Hb; cbn [length] in Hfuel; [lia| |lia|].
  { apply finish_spec; [done..|constructor]. }
  destruct (cut_head _ _ _ _ _ Hc) as (_ & Hf & _ & Hbk & [_ Hn _ _]). simpl in Hn.
  cbn [cm_begin]. destruct (decide (k < e)) as [Hke|Hke].
  - destruct (decide (k = b)) as [->|Hne]; [apply same_step | apply after_step]; try done; lia.
  - cbn [right_conflicts]. rewrite (proj2 (Z.ltb_ge k e)) by lia. apply finish_spec; [done..|].
    constructor; [simpl; lia|]. apply (from_weaken (k + numBytes a)); [lia | done].
Qed.

(** ** The whole method *)

(** Shortening the access on the left, so that it ends at [b]. *)
Definition shortened (k b : Z) (a : Access) : Access :=
  {| numBytes := b - k; type := type a; instruction := instruction a |}.

Lemma shorten_seen w m1 k a m2 b x :
  k < b < k + numBytes a →
  seen w (m1 ++ (k, a) :: m2) x ↔
  seen w (m1 ++ (k, shortened k b a) :: m2) x ∨ counts w (type a) = true ∧ b ≤ x < k + numBytes a.
Proof.
  intros Hb. autorewrite with ranges. unfold ends, shortened. simpl.
  replace (k + (b - k)) with b by lia. destruct (decide (x < b)); intuition lia.
Qed.

(** The loop after the access on the left was skipped up to [b']. *)
Lemma go_spec m1 k a m2 b b' fuel :
  cm_ok (m1 ++ (k, a) :: m2) → k + numBytes a ≤ b' → 0 ≤ b ≤ b' → b' < e → from_key b' m2 →
  (length m2 < fuel)%nat →
  (∀ w x, counts w t = true → b ≤ x < b' → seen w (m1 ++ (k, a) :: m2) x) →
  ∃ m', right_conflicts fuel true (m1 ++ (k, a) :: m2) (cm_begin m2) b' e op = Ok (true, m') ∧
    registered (m1 ++ (k, a) :: m2) b e t m'.
Proof.
  intros Hok Hk Hb Hb' Hf Hfuel Hcov. rewrite (cons_middle _ m1), app_assoc in *.
  destruct (right_spec m2 fuel (m1 ++ [(k, a)]) b') as (m' & Hm' & Hr); [done | |done|].
  { split; [done | lia | | done]. apply cm_ok_app in Hok as (Hok & _). apply cm_ok_app in Hok as (_ & Hka & Hb1).
    intros p [Hp| ->%list_elem_of_singleton]%elem_of_app; [|done].
    assert (ends p ≤ k) by (apply (Hb1 p (k, a) Hp); by left).
    assert (entry_ok (k, a)) as [_ ? _ _] by (apply (cm_ok_entry _ _ Hka); by left). simpl in *. lia. }
  exists m'. split; [done|]. eapply registered_step; [exact Hr| |apply straddled_from; lia].
  intros w x. specialize (Hcov w x). destruct (decide (x < b')); [|naive_solver lia]. naive_solver lia.
Qed.

(** An incoming write that begins inside the tracked read on its left. *)
Lemma shorten_ok m1 k a m2 b :
  cm_ok (m1 ++ (k, a) :: m2) → k < b < k + numBytes a → cm_ok (m1 ++ (k, shortened k b a) :: m2).
Proof.
  intros (H1 & H2 & H3)%cm_ok_app Hb. apply cm_ok_cons in H2 as ([? ? Hend ?] & H2 & H4).
  unfold ends in *. simpl in *. apply cm_ok_app. split_and!; [done| |].
  - apply cm_ok_cons. split_and!; [|done|].
    + split; unfold ends, shortened; simpl; try done; lia.
    + intros q Hq. specialize (H4 q Hq). unfold ends, shortened. simpl. lia.
  - intros p q Hp [->|Hq]%elem_of_cons; [|apply H3; [done | by right]].
    apply (H3 p (k, a)); [done | by left].
Qed.

Lemma overwrite_spec m1 k a m2 b fuel :
  cm_ok (m1 ++ (k, a) :: m2) → k < b < k + numBytes a → b < e → from_key b m2 →
  k + numBytes a ≤ e → isWrite t = true → (length m2 < fuel)%nat →
  ∃ m', right_conflicts fuel true (m1 ++ (k, shortened k b a) :: m2) (cm_begin m2) b e op = Ok (true, m') ∧
    registered (m1 ++ (k, a) :: m2) b e t m'.
Proof.
  intros Hok Hb Hbe Hf Hke Hw Hfuel.
  assert (0 ≤ k) as H0.
  { assert (entry_ok (k, a)) as [? _ _ _]; [|done]. apply (cm_ok_entry _ _ Hok). set_solver. }
  destruct (go_spec m1 k (shortened k b a) m2 b b fuel) as (m' & Hm' & Hr);
    [by apply shorten_ok | unfold shortened; simpl; lia | lia | done | done | done | lia|].
  exists m'. split; [done|]. eapply registered_step; [exact Hr| |].
  - intros w x. rewrite (shorten_seen w m1 k a m2 b x) by lia.
    pose proof (counts_write t w Hw). naive_solver lia.
  - rewrite !straddled_app, !straddled_cons. unfold straddles, shortened, ends. simpl. intuition lia.
Qed.

(** An incoming write inside the tracked read on its left: the read is cut
    in two. *)
Lemma inside_spec m1 k a m2 b :
  cm_ok (m1 ++ (k, a) :: m2) → k < b → b < e < k + numBytes a → isWrite t = true →
  registered (m1 ++ (k, a) :: m2) b e t
    (m1 ++ (k, shortened k b a) :: (b, entered (e - b) op) ::
      (e, {| numBytes := k + numBytes a - e; type := type a; instruction := instruction a |}) :: m2).
Proof.
  intros Hok Hb Hbe Hw. pose proof (shorten_ok m1 k a m2 b Hok) as Hsh.
  apply cm_ok_app in Hok as (H1 & H2 & H3). apply cm_ok_cons in H2 as ([? ? Hend ?] & H2 & H4).
  unfold ends in *. simpl in *. apply registered_exact.
  - rewrite (cons_middle _ m1), app_assoc. apply cm_ok_app. split_and!.
    + rewrite (cons_middle _ m1), app_assoc in Hsh. apply cm_ok_app in Hsh; [apply Hsh | lia].
    + rewrite !cm_ok_cons. split_and!; try done.
      * split; unfold ends, entered; simpl; try done; lia.
      * split; unfold ends; simpl; try done; lia.
      * intros q Hq. specialize (H4 q Hq). unfold ends. simpl. lia.
      * intros q [->|Hq]%elem_of_cons; unfold ends, entered; simpl; [lia|]. specialize (H4 q Hq). lia.
    + intros p q [Hp| ->%list_elem_of_singleton]%elem_of_app Hq.
      * assert (ends p ≤ k) by (apply (H3 p (k, a) Hp); by left).
        apply elem_of_cons in Hq as [->|[->|Hq]%elem_of_cons]; simpl; [lia..|].
        specialize (H4 q Hq). lia.
      * unfold ends, shortened. simpl.
        apply elem_of_cons in Hq as [->|[->|Hq]%elem_of_cons]; simpl; [lia..|]. specialize (H4 q Hq). lia.
  - intros w x. rewrite (shorten_seen w m1 k a m2 b x) by lia. autorewrite with ranges.
    unfold ends, entered, shortened. simpl. pose proof (counts_write t w Hw).
    destruct (decide (x < e)); naive_solver lia.
Qed.

(** The step to the left, and the loop after it. *)
Lemma left_spec m1 k a m2 b :
  cm_ok (m1 ++ (k, a) :: m2) → k < b → b < e → from_key b m2 → e = b + op_numBytes op →
  ∃ m', (l ← left_conflict true (m1 ++ (k, a) :: m2) (cm_begin m2) b e op;
    match l with
    | LeftDone own' m' => Ok (own', m')
    | LeftGo own' m' b' =>
        _ ← cassert (match cm_begin m2 with None => true | Some k => b' <=? k end);
        right_conflicts (S (length (m1 ++ (k, a) :: m2))) own' m' (cm_begin m2) b' e op
    end) = Ok (true, m') ∧ registered (m1 ++ (k, a) :: m2) b e t m'.
Proof.
  intros Hok Hkb Hbe Hf Hlen.
  destruct (key_facts m1 k a m2 Hok) as (Hbel & Habv & Hfe & [H0 Hn Hend Hty]).
  unfold ends in Hend. simpl in H0, Hn, Hend, Hty.
  assert (∀ b', from_key b' m2 → match cm_begin m2 with None => true | Some k => b' <=? k end = true) as Has.
  { intros b' Hb'. destruct Hb' as [|[k2 a2] m2' Hk2]; [done|]. simpl in *. by apply Z.leb_le. }
  assert (length m2 < S (length (m1 ++ (k, a) :: m2)))%nat as Hfuel by (rewrite length_app; simpl; lia).
  unfold left_conflict. rewrite (begin_cut m1 k a m2 Hbel Habv).
  destruct (decide (cm_begin m2 = Some b)) as [Hit|Hit].
  { rewrite (bool_decide_eq_true_2 _ Hit). cbn [negb andb]. rewrite bind_Ok_l, Has by done. cbn [cassert]. rewrite bind_Ok_l.
    apply go_spec; try done; try lia. destruct m2 as [|[k2 a2] m2]; [done|]. injection Hit as ->.
    by inversion Hfe. }
  rewrite (bool_decide_eq_false_2 _ Hit). cbn [negb andb]. rewrite prev_cut, bind_Ok_l by done.
  unfold it_deref. rewrite find_cut, bind_Ok_l, wadd_small by (done || lia). cbn zeta.
  destruct (Z.ltb_spec b (k + numBytes a)) as [Hlt|Hge].
  2:{ rewrite bind_Ok_l, Has by done. cbn [cassert]. rewrite bind_Ok_l. apply go_spec; try done; lia. }
  destruct (isWrite (type a) || isRead t) eqn:Hs.
  { assert (∀ w x, counts w t = true → b ≤ x < k + numBytes a → seen w (m1 ++ (k, a) :: m2) x) as Hcov.
    { intros w x Hw Hx. apply covered_here; [by rewrite orb_comm | by split | done | lia]. }
    destruct (Z.leb_spec e (k + numBytes a)) as [Hle|Hlt'].
    - rewrite bind_Ok_l. eexists. split; [done|]. apply registered_exact; [done|].
      intros w x. split; [tauto|]. intros [?|[? ?]]; [done|]. apply Hcov; [done | lia].
    - rewrite bind_Ok_l, Has by done. cbn [cassert]. rewrite bind_Ok_l. apply go_spec; try done; lia. }
  apply orb_false_iff in Hs as [Hwa Hrt]. rewrite read_or_write in Hrt by done. apply negb_false_iff in Hrt.
  cbn [acquire_at]. rewrite bind_Ok_l, (wsub_small b k) by lia. rewrite set_cut by done.
  change {| numBytes := b - k; type := type a; instruction := instruction a |} with (shortened k b a).
  destruct (Z.ltb_spec e (k + numBytes a)) as [Hlt'|Hge'].
  - replace (m1 ++ (k, shortened k b a) :: m2) with ((m1 ++ [(k, shortened k b a)]) ++ m2) by (by rewrite <-app_assoc).
    assert (below_key b (m1 ++ [(k, shortened k b a)])) as Hb1.
    { apply Forall_app. split; [apply (below_weaken k); [lia | done] | by repeat constructor]. }
    assert (above_key e m2) as Hae by (eapply Forall_impl; [apply Hfe|]; simpl; intros; lia).
    assert (above_key b m2) as Hab by (eapply Forall_impl; [apply Hae|]; simpl; intros; lia).
    rewrite (place_owned b _ op (m1 ++ [(k, shortened k b a)]) m2), bind_Ok_l by done.
    cbn [mut cassert]. rewrite !bind_Ok_l, (wsub_small _ e) by lia.
    rewrite (cons_middle (b, _) _ m2), app_assoc, emplace_cut.
    + eexists. split; [done|]. rewrite <-!app_assoc. simpl. replace (op_numBytes op) with (e - b) by lia.
      by apply inside_spec.
    + apply Forall_app. split; [apply (below_weaken b); [lia | done] | by repeat constructor].
    + done.
  - rewrite bind_Ok_l, Has by done. cbn [cassert]. rewrite bind_Ok_l. by apply overwrite_spec.
Qed.
End loop.

(** [registerConcreteMemoryOperation] on an owned list of disjoint ranges. *)
Lemma register_concrete_spec {EL : ExprLib} op m b :
  isReadOrWrite (op_type op) = true → cm_ok m → 0 ≤ b → 0 < op_numBytes op →
  b + op_numBytes op < word_size →
  ∃ m', registerConcreteMemoryOperation true m b op = Ok (true, m') ∧
    registered m b (b + op_numBytes op) (op_type op) m'.
Proof.
  intros Ht Hok H0 Hn Hend. unfold registerConcreteMemoryOperation. rewrite wadd_small by lia. cbn zeta.
  destruct (lower_cut m b Hok H0) as [(m2 & -> & -> & Hf)|(m1 & k & a & m2 & -> & -> & Hk & Hf)].
  - unfold left_conflict. rewrite bool_decide_eq_true_2 by done. cbn [negb andb]. rewrite bind_Ok_l.
    assert (match cm_begin m2 with None => true | Some k => b <=? k end = true) as ->.
    { destruct Hf as [|[k a] ? ?]; [done|]. simpl in *. by apply Z.leb_le. }
    cbn [cassert]. rewrite bind_Ok_l.
    apply (right_spec op (b + op_numBytes op) Ht Hend m2 (S (length m2)) []); [lia | | lia].
    split; [done | done | | done]. by intros p ?%elem_of_nil.
  - apply left_spec; try done; lia.
Qed.
