(* ===== verification/SharedProofs.v ===== *)
(** * Shared lists and accesses with symbolic offsets

    Working on a shared list gives the result of working on a private copy,
    whenever it returns; and the multimap for symbolic offsets keeps, for
    every offset, the strongest accesses only. *)

From stdpp Require Import base tactics list gmap numbers sorting.
From S2P Require Import Prelude StdMap ThreadId ObjectAccesses AccessProofs.

Local Open Scope Z_scope.

(** ** Constant offsets *)

Section ownership.
Context {EL : ExprLib}.
Implicit Types (m : cmap) (op : MemoryOperation).

Lemma place_shared k n op m own m' :
  place own k n op m = Ok m' → own = true ∧ place true k n op m = Ok m'.
Proof. destruct own; [done|]. unfold place, mut. simpl. discriminate. Qed.

Lemma acquire_at_ok own it own' : acquire_at own it = Ok own' → own' = true.
Proof. unfold acquire_at. destruct own, it; naive_solver. Qed.

(** Case analysis that follows one run, with the same choices on the owned
    list. *)
Ltac same_run :=
  repeat match goal with
  | H : Ok _ = Ok _ |- _ => injection H as H; subst
  | H : Err _ = Ok _ |- _ => discriminate H
  | H : (_, _) = (_, _) |- _ => injection H as H; subst
  | H : mbind _ ?x = Ok _ |- _ =>
      let E := fresh "E" in
      apply bind_ok in H as (? & E & H);
      first [apply place_shared in E as [? E]; subst; rewrite E |
             apply acquire_at_ok in E as -> | rewrite E | idtac];
      cbn [mut cassert acquire_at]; rewrite ?bind_Ok_l
  | H : (if ?b then _ else _) = Ok _ |- _ => destruct b
  end.

Lemma right_shared op e : ∀ fuel own m it b o m',
  right_conflicts fuel own m it b e op = Ok (o, m') →
  right_conflicts fuel true m it b e op = Ok (true, m') ∧ (o = false → own = false ∧ m' = m).
Proof.
  induction fuel as [|fuel IH]; intros own m it b o m' H; [discriminate H|].
  cbn [right_conflicts] in *.
  destruct it as [k|]; [destruct (k <? e)|]; cbn zeta in *; same_run;
    try (split; [reflexivity | intros; first [done | discriminate]]);
    (match goal with H : right_conflicts _ _ _ _ _ _ _ = Ok _ |- _ =>
       destruct (IH _ _ _ _ _ _ H) as [-> Ho] end; split; [done|]; intros ->;
     destruct (Ho eq_refl) as [? ->]; first [done | discriminate]).
Qed.

Lemma left_shared own m it b e op r :
  left_conflict own m it b e op = Ok r →
  match r with
  | LeftDone o m' => left_conflict true m it b e op = Ok (LeftDone true m') ∧
      (o = false → own = false ∧ m' = m)
  | LeftGo o m' b' => left_conflict true m it b e op = Ok (LeftGo true m' b') ∧
      (o = false → own = false ∧ m' = m)
  end.
Proof.
  unfold left_conflict. intros H. destruct (_ && _); same_run;
    cbn zeta in *; same_run; (split; [reflexivity | intros; first [done | discriminate]]).
Qed.

(** A run on a shared list that returns has the result of the run on a copy;
    if it did not acquire the list, nothing has changed. *)
Lemma register_concrete_shared own m b op o m' :
  registerConcreteMemoryOperation own m b op = Ok (o, m') →
  registerConcreteMemoryOperation true m b op = Ok (true, m') ∧ (o = false → own = false ∧ m' = m).
Proof.
  unfold registerConcreteMemoryOperation. cbn zeta. intros (r & Hl & H)%bind_ok.
  apply left_shared in Hl. destruct r as [o1 m1|o1 m1 b1].
  - destruct Hl as [-> Ho]. rewrite bind_Ok_l. injection H as -> ->. done.
  - destruct Hl as [-> Ho]. rewrite bind_Ok_l. apply bind_ok in H as (? & -> & H). rewrite bind_Ok_l.
    apply right_shared in H as [-> Ho']. split; [done|]. intros ->. destruct (Ho' eq_refl) as [-> ->]. auto.
Qed.
End ownership.

(** ** Symbolic offsets *)

Section symbolic.
Context {EL : ExprLib}.
Implicit Types (s : mmap) (op : MemoryOperation) (a : Access) (k : expr) (n : Z) (t : AccessType).

(** The access [a] stands for every access of at most its size and strength
    at the same offset. *)
Definition stands_for a n t : Prop := n ≤ numBytes a ∧ isWrite (type a) || isRead t = true.

Definition sym_recorded s k n t : Prop := ∃ a, (k, a) ∈ s ∧ stands_for a n t.

(** No access of the list stands for another one. *)
Definition incomparable a a' : Prop :=
  ¬ stands_for a (numBytes a') (type a') ∧ ¬ stands_for a' (numBytes a) (type a).
Definition minimal (l : list Access) : Prop := StronglySorted incomparable l.

(** Well-formed multimaps: ordered by the key, reads and writes of at least one
    byte, minimal for every key. *)
Record mm_ok s : Prop := {
  mo_sorted : StronglySorted (λ p q, std_less q.1 p.1 = false) s;
  mo_entry p : p ∈ s → 0 < numBytes p.2 ∧ isReadOrWrite (type p.2) = true;
  mo_minimal k : minimal (equal_range k s).*2;
}.

Lemma mm_ok_nil : mm_ok [].
Proof. split; [constructor | by intros p ?%elem_of_nil | constructor]. Qed.

Lemma stands_for_trans a op n t :
  isReadOrWrite (op_type op) = true → isReadOrWrite t = true →
  subsumes a op = true → n ≤ op_numBytes op → isWrite (op_type op) || isRead t = true →
  stands_for a n t.
Proof.
  unfold subsumes, stands_for. rewrite andb_true_iff, Z.leb_le. intros Ho Ht [H1 H2] Hn Hs.
  split; [lia|]. by destruct (type a), (op_type op), t.
Qed.

(** *** The loop over the equal range *)

(** What the loop leaves of a range, whether it returns or not. *)
Record filtered (l r : list Access) op : Prop := {
  fi_sub : r `sublist_of` l;
  fi_gone a : a ∈ l → a ∈ r ∨ subsumed a op = true;
}.

Lemma symbolic_loop_spec op : ∀ rest kept,
  let '(returned, r) := symbolic_loop kept rest op in
  ∃ r', r = kept ++ r' ∧ filtered rest r' op ∧
    if (returned : bool) then ∃ a, a ∈ r' ∧ subsumes a op = true
    else ∀ a, a ∈ r' → subsumes a op = false ∧ subsumed a op = false.
Proof.
  induction rest as [|a rest IH]; intros kept; simpl.
  { exists []. rewrite app_nil_r. split_and!; [done | split; [done | set_solver] | set_solver]. }
  destruct (subsumes a op) eqn:E1.
  { exists (a :: rest). split_and!; [done | split; [done | tauto] |]. exists a. split; [by left | done]. }
  destruct (subsumed a op) eqn:E2.
  - specialize (IH kept). destruct (symbolic_loop kept rest op) as [returned r].
    destruct IH as (r' & -> & [Hs Hg] & Hr). exists r'. split_and!; [done | |done].
    split; [by constructor|]. intros a' [->|Ha']%elem_of_cons; auto.
  - specialize (IH (kept ++ [a])). destruct (symbolic_loop (kept ++ [a]) rest op) as [returned r].
    destruct IH as (r' & -> & [Hs Hg] & Hr). exists (a :: r'). rewrite <-app_assoc. split_and!; [done | |].
    + split; [by constructor|]. intros a' [->|Ha']%elem_of_cons; [left; by left|].
      destruct (Hg a' Ha'); [left; by right | by right].
    + destruct returned; [destruct Hr as (a' & ? & ?); exists a'; split; [by right | done]|].
      intros a' [->|Ha']%elem_of_cons; auto.
Qed.

Lemma symbolic_scan_spec op l :
  match symbolic_scan l op with
  | None => ∃ a, a ∈ l ∧ subsumes a op = true
  | Some true => True
  | Some false => ∀ a, a ∈ l → subsumes a op = false ∧ subsumed a op = false
  end.
Proof.
  induction l as [|a l IH]; simpl; [set_solver|]. destruct (subsumes a op) eqn:E1.
  { exists a. split; [by left | done]. }
  destruct (subsumed a op) eqn:E2; [done|]. destruct (symbolic_scan l op) as [[]|]; [done| |].
  - intros a' [->|Ha']%elem_of_cons; auto.
  - destruct IH as (a' & ? & ?). exists a'. split; [by right | done].
Qed.

Lemma symbolic_range_spec own l op :
  let '(o, (returned, r)) := symbolic_range own l op in
  filtered l r op ∧ (o = false → own = false ∧ r = l) ∧
  if (returned : bool) then ∃ a, a ∈ r ∧ subsumes a op = true
  else ∀ a, a ∈ r → subsumes a op = false ∧ subsumed a op = false.
Proof.
  pose proof (symbolic_loop_spec op l []) as Hl. pose proof (symbolic_scan_spec op l) as Hs.
  assert (filtered l l op) as Hll by (split; [done | tauto]).
  unfold symbolic_range. destruct own; [|destruct (symbolic_scan l op) as [[]|]]; try done;
    (destruct (symbolic_loop [] l op) as [returned r]; destruct Hl as (r' & -> & Hf & Hr); done).
Qed.

(** *** Sorted multimaps *)

Lemma filter_none {A} (P : A → Prop) `{∀ x, Decision (P x)} (l : list A) :
  (∀ x, x ∈ l → ¬ P x) → filter P l = [].
Proof.
  induction l as [|x l IH]; intros H'; [done|]. rewrite filter_cons_False; [|apply H'; by left].
  apply IH. intros y Hy. apply H'. by right.
Qed.

Lemma filter_all {A} (P : A → Prop) `{∀ x, Decision (P x)} (l : list A) :
  (∀ x, x ∈ l → P x) → filter P l = l.
Proof.
  induction l as [|x l IH]; intros H'; [done|]. rewrite filter_cons_True; [|apply H'; by left].
  f_equal. apply IH. intros y Hy. apply H'. by right.
Qed.

(** Whether a key is less than, equal to or greater than [k]. *)
Lemma key_filters k s :
  (∀ p, p ∈ s → std_less p.1 k = true) → before_key k s = s ∧ equal_range k s = [] ∧ after_key k s = [].
Proof.
  intros H. split_and!; [by apply filter_all | |]; apply filter_none; intros p Hp Hc;
    pose proof (H p Hp) as Hl.
  - apply expr_eqb_eq in Hc. by rewrite Hc, less_irrefl in Hl.
  - by rewrite (less_asym _ _ Hl) in Hc.
Qed.

Lemma key_filters_eq k s :
  (∀ p, p ∈ s → p.1 = k) → before_key k s = [] ∧ equal_range k s = s ∧ after_key k s = [].
Proof.
  intros H. split_and!; [|apply filter_all; intros p Hp; by apply expr_eqb_eq, H|];
    apply filter_none; intros p Hp Hc; by rewrite (H p Hp), less_irrefl in Hc.
Qed.

Lemma key_filters_gt k s :
  (∀ p, p ∈ s → std_less k p.1 = true) → before_key k s = [] ∧ equal_range k s = [] ∧ after_key k s = s.
Proof.
  intros H. split_and!; [| |by apply filter_all]; apply filter_none; intros p Hp Hc;
    pose proof (H p Hp) as Hl.
  - by rewrite (less_asym _ _ Hl) in Hc.
  - apply expr_eqb_eq in Hc. by rewrite Hc, less_irrefl in Hl.
Qed.

Lemma mm_split k s :
  StronglySorted (λ p q, std_less q.1 p.1 = false) s →
  s = before_key k s ++ equal_range k s ++ after_key k s.
Proof.
  induction s as [|[k' a] s IH]; intros Hs; [done|].
  apply StronglySorted_inv in Hs as [Hs Hk']. specialize (IH Hs). rewrite list.Forall_forall in Hk'.
  unfold before_key, equal_range, after_key in *. rewrite !filter_cons. simpl.
  destruct (less_cases k' k) as [(-> & E1 & E2)|[(E1 & E2 & ?)|(E1 & E2 & ?)]].
  - rewrite E1, (proj2 (expr_eqb_eq k k)) by done. simpl.
    assert (before_key k s = []) as Hb.
    { apply filter_none. intros p Hp Hc. specialize (Hk' p Hp). simpl in *. congruence. }
    unfold before_key in Hb. rewrite Hb in *. simpl in *. by f_equal.
  - rewrite E1, E2. destruct (expr_eqb k' k) eqn:E; [by apply expr_eqb_eq in E|]. simpl. by f_equal.
  - rewrite E1, E2. destruct (expr_eqb k' k) eqn:E; [by apply expr_eqb_eq in E|]. simpl.
    destruct (key_filters_gt k s) as (Hb & He & Ha).
    { intros p Hp. pose proof (Hk' p Hp) as Hn. simpl in Hn.
      destruct (less_cases k' p.1) as [(<- & _)|[(Hl & _)|(_ & Hl & _)]]; [done| |congruence].
      by eapply less_trans. }
    unfold before_key, equal_range, after_key in Hb, He, Ha. by rewrite Hb, He, Ha.
Qed.

Lemma minimal_sublist (l r : list Access) : r `sublist_of` l → minimal l → minimal r.
Proof.
  unfold minimal. induction 1 as [|a r l Hs IH|a r l Hs IH]; [done|..];
    intros [Hm Ha]%StronglySorted_inv; [|auto]. constructor; [auto|].
  rewrite list.Forall_forall in *. intros a' Ha'. apply Ha. by eapply elem_of_sublist.
Qed.

Lemma minimal_snoc l a :
  minimal l → (∀ a', a' ∈ l → incomparable a' a) → minimal (l ++ [a]).
Proof.
  intros Hm Ha. apply StronglySorted_app. split_and!; [|done|repeat constructor].
  intros a' a'' Ha' ->%list_elem_of_singleton. auto.
Qed.

(** *** Replacing the elements of one key *)

Section replace.
Context (s : mmap) (k : expr) (l : list Access).
Context (Hs : StronglySorted (λ p q, std_less q.1 p.1 = false) s).
Abbreviation s' := (before_key k s ++ (pair k <$> l) ++ after_key k s).

Lemma before_elem p : p ∈ before_key k s ↔ p ∈ s ∧ std_less p.1 k = true.
Proof. unfold before_key. rewrite list_elem_of_filter. tauto. Qed.
Lemma after_elem p : p ∈ after_key k s ↔ p ∈ s ∧ std_less k p.1 = true.
Proof. unfold after_key. rewrite list_elem_of_filter. tauto. Qed.
Lemma equal_elem p : p ∈ equal_range k s ↔ p ∈ s ∧ p.1 = k.
Proof. unfold equal_range. rewrite list_elem_of_filter, expr_eqb_eq. tauto. Qed.
Lemma equal_snd a : a ∈ (equal_range k s).*2 ↔ (k, a) ∈ s.
Proof.
  rewrite list_elem_of_fmap. split.
  - intros ([k' a'] & -> & [Hp Hk]%equal_elem). simpl in *. by subst.
  - intros Ha. exists (k, a). split; [done|]. by apply equal_elem.
Qed.

Lemma replaced_elem k' a :
  (k', a) ∈ s' ↔ (k' = k ∧ a ∈ l) ∨ (k' ≠ k ∧ (k', a) ∈ s).
Proof.
  rewrite !elem_of_app, before_elem, after_elem, list_elem_of_fmap. simpl.
  destruct (less_cases k' k) as [(-> & E1 & E2)|[(E1 & E2 & ?)|(E1 & E2 & ?)]]; rewrite ?E1, ?E2; naive_solver.
Qed.

Lemma replaced_sorted : StronglySorted (λ p q, std_less q.1 p.1 = false) s'.
Proof.
  rewrite (mm_split k s Hs), !StronglySorted_app in Hs. destruct Hs as (H1 & H2 & H3 & H4 & H5).
  apply StronglySorted_app. split_and!; [|done|apply StronglySorted_app; split_and!; [| |done]].
  - intros p q [Hp Hl]%before_elem Hq. apply less_asym.
    apply elem_of_app in Hq as [(a & -> & _)%list_elem_of_fmap|[_ Hq]%after_elem]; [done|].
    by eapply less_trans.
  - intros p q (a & -> & _)%list_elem_of_fmap [_ Hq]%after_elem. by apply less_asym.
  - clear. induction l as [|a l' IH]; simpl; [constructor|]. constructor; [done|].
    apply list.Forall_forall. intros p (a' & -> & _)%list_elem_of_fmap. apply less_irrefl.
Qed.

Lemma replaced_range : (equal_range k s').*2 = l.
Proof.
  unfold equal_range at 1. rewrite !filter_app.
  destruct (key_filters k (before_key k s)) as (_ & Hb & _); [by intros p [_ ?]%before_elem|].
  destruct (key_filters_gt k (after_key k s)) as (_ & Ha & _); [by intros p [_ ?]%after_elem|].
  destruct (key_filters_eq k (pair k <$> l)) as (_ & He & _); [by intros p (? & -> & _)%list_elem_of_fmap|].
  unfold equal_range in Hb, Ha, He. rewrite Hb, Ha, He, app_nil_r. simpl.
  rewrite <-list_fmap_compose. apply list_fmap_id.
Qed.

Lemma replaced_other k' : k' ≠ k → equal_range k' s' = equal_range k' s.
Proof.
  intros Hne. rewrite (mm_split k s Hs) at 3. unfold equal_range at 1 2. rewrite !filter_app. do 2 f_equal.
  rewrite !filter_none; [done | |].
  - intros p [_ Hp]%equal_elem Hc%expr_eqb_eq. congruence.
  - intros p (a & -> & _)%list_elem_of_fmap Hc%expr_eqb_eq. simpl in Hc. congruence.
Qed.

(** The new range keeps the multimap well-formed. *)
Lemma replaced_ok :
  mm_ok s → minimal l → (∀ a, a ∈ l → 0 < numBytes a ∧ isReadOrWrite (type a) = true) → mm_ok s'.
Proof.
  intros [_ Hentry Hmin] Hl He. split; [apply replaced_sorted | |].
  - intros [k' a] [[-> Ha]|[_ Ha]]%replaced_elem; [by apply He | by apply Hentry].
  - intros k'. destruct (decide (expr_eqb k' k = true)) as [->%expr_eqb_eq|Hne].
    + by rewrite replaced_range.
    + rewrite replaced_other; [done|]. intros ->. by rewrite (proj2 (expr_eqb_eq k k)) in Hne.
Qed.

(** What the new range records. *)
Lemma replaced_recorded op :
  isReadOrWrite (op_type op) = true → (∀ a, (k, a) ∈ s → isReadOrWrite (type a) = true) →
  (∀ a, a ∈ l → (k, a) ∈ s ∨ a = entered (op_numBytes op) op) →
  (∀ a, (k, a) ∈ s → a ∈ l ∨ subsumed a op = true) → (∃ a, a ∈ l ∧ subsumes a op = true) →
  ∀ k' n t, isReadOrWrite t = true →
    sym_recorded s' k' n t ↔ sym_recorded s k' n t ∨
      (k' = k ∧ n ≤ op_numBytes op ∧ isWrite (op_type op) || isRead t = true).
Proof.
  intros Hop Hrw Hl Hold (a0 & Ha0 & Hsu) k' n t Ht.
  assert (n ≤ op_numBytes op → isWrite (op_type op) || isRead t = true → sym_recorded s' k n t) as Hin.
  { intros Hn Hw. exists a0. split; [apply replaced_elem; by left | by apply (stands_for_trans a0 op)]. }
  split.
  - intros (a & [[-> Ha]|[_ Ha]]%replaced_elem & Hst); [|left; by exists a].
    destruct (Hl a Ha) as [Has| ->]; [left; by exists a | right; by destruct Hst].
  - intros [(a & Ha & Hst)|(-> & Hn & Hw)]; [|auto].
    destruct (decide (expr_eqb k' k = true)) as [->%expr_eqb_eq|Hne].
    + destruct (Hold a Ha) as [Hal|Hsb]; [exists a; split; [apply replaced_elem; by left | done]|].
      unfold subsumed in Hsb. rewrite andb_true_iff, Z.leb_le in Hsb. destruct Hsb as [Hnb Hsb], Hst as [Hn Hw].
      apply Hin; [lia|]. specialize (Hrw a Ha). by destruct (type a), (op_type op), t.
    + exists a. split; [|done]. apply replaced_elem. right. split; [|done].
      intros ->. by rewrite (proj2 (expr_eqb_eq k k)) in Hne.
Qed.
End replace.

(** [registerSymbolicMemoryOperation]: returns, keeps the multimap minimal and
    records exactly what was recorded before and what the incoming access
    stands for; a shared multimap that was not acquired is unchanged. *)
Lemma register_symbolic_spec own s k op :
  mm_ok s → isReadOrWrite (op_type op) = true → 0 < op_numBytes op →
  ∃ o s', registerSymbolicMemoryOperation own s k op = Ok (o, s') ∧ mm_ok s' ∧
    (o = false → own = false ∧ s' = s) ∧
    ∀ k' n t, isReadOrWrite t = true →
      sym_recorded s' k' n t ↔ sym_recorded s k' n t ∨
        (k' = k ∧ n ≤ op_numBytes op ∧ isWrite (op_type op) || isRead t = true).
Proof.
  intros Hok Ht Hn. pose proof Hok as [Hs Hentry Hmin]. unfold registerSymbolicMemoryOperation.
  pose proof (symbolic_range_spec own (equal_range k s).*2 op) as Hr.
  destruct (symbolic_range own (equal_range k s).*2 op) as [o [returned kept]].
  destruct Hr as ([Hsub Hgone] & Ho & Hret).
  assert (∀ a, a ∈ kept → (k, a) ∈ s) as Hkept.
  { intros a Ha. apply equal_snd. by eapply elem_of_sublist. }
  assert (∀ a, (k, a) ∈ s → a ∈ kept ∨ subsumed a op = true) as Hgone'.
  { intros a Ha. apply Hgone. by apply equal_snd. }
  assert (∀ a, (k, a) ∈ s → isReadOrWrite (type a) = true) as Hrw by (intros a Ha; by apply (Hentry (k, a))).
  assert (minimal kept) as Hmk by (by eapply minimal_sublist).
  destruct returned.
  - exists o. eexists. split; [done|]. rewrite <-app_assoc. split_and!.
    + apply replaced_ok; [done | done | done |]. intros a Ha. apply (Hentry (k, a)). auto.
    + intros E. destruct (Ho E) as [-> ->]. split; [done|]. rewrite (mm_split k s Hs) at 4. do 2 f_equal.
      rewrite <-list_fmap_compose. rewrite <-(list_fmap_id (equal_range k s)) at 2. apply list_fmap_ext.
      intros i [k' a] Hi. apply list_elem_of_lookup_2, equal_elem in Hi as [_ Hk]. simpl in *. by subst.
    + apply replaced_recorded; auto.
  - unfold new_access. change (isRead (op_type op) || isWrite (op_type op)) with (isReadOrWrite (op_type op)).
    rewrite Ht. cbn [cassert]. rewrite !bind_Ok_l. exists true. eexists. split; [done|].
    change {| numBytes := _; type := _; instruction := _ |} with (entered (op_numBytes op) op).
    replace ((before_key k s ++ (pair k <$> kept)) ++ (k, entered (op_numBytes op) op) :: after_key k s)
      with (before_key k s ++ (pair k <$> (kept ++ [entered (op_numBytes op) op])) ++ after_key k s)
      by (by rewrite fmap_app, <-!app_assoc).
    split_and!; [|done|].
    + apply replaced_ok; [done | done | |].
      * apply minimal_snoc; [done|]. intros a Ha. destruct (Hret a Ha) as [H1 H2].
        unfold subsumes, subsumed in H1, H2. unfold incomparable, stands_for, entered. simpl.
        rewrite <-!Z.leb_le, <-!andb_true_iff, H1, orb_comm, orb_comm in *.
        split; [done|]. by rewrite orb_comm, H2.
      * intros a [Ha| ->%list_elem_of_singleton]%elem_of_app; [apply (Hentry (k, a)); auto | done].
    + apply replaced_recorded; [done..| | |].
      * intros a [Ha| ->%list_elem_of_singleton]%elem_of_app; auto.
      * intros a [Ha|Ha]%Hgone'; [left; set_solver | by right].
      * exists (entered (op_numBytes op) op). split; [set_solver|]. unfold subsumes, entered. simpl.
        rewrite Z.leb_refl. simpl. by rewrite orb_comm.
Qed.
End symbolic.
