(* ===== verification/RaceDetection.v ===== *)
(** * The data race detector

    lib/Core/RaceDetection/{EpochMemoryAccesses.cpp, DataRaceDetection.h,
    DataRaceDetection.cpp} and [Executor::processMemoryAccess]. Per thread the
    detector keeps a list of epochs: an event of the thread, and the accesses
    the thread made after it and before its next event. A new access is
    compared with the epochs of the other threads that do not happen before
    it, first without the solver, then with one query.

    [h] and [heads] are the heap of events and the thread heads of the
    configuration of the state's node. The times in the statistics and the
    debug output are left out. *)

From stdpp Require Import base tactics list gmap numbers.
From S2P Require Import Prelude StdMap ThreadId Event ObjectAccesses.

Local Open Scope Z_scope.

Record Stats := {
  numTrackedAccesses : nat;
  numDataRacesChecks : nat;
  numFastPathRaceChecks : nat;
  numSolverRaceChecks : nat;
}.

Definition no_stats : Stats := {| numTrackedAccesses := 0; numDataRacesChecks := 0;
  numFastPathRaceChecks := 0; numSolverRaceChecks := 0 |}.
Definition inc_tracked (s : Stats) : Stats :=
  {| numTrackedAccesses := S (numTrackedAccesses s); numDataRacesChecks := numDataRacesChecks s;
     numFastPathRaceChecks := numFastPathRaceChecks s; numSolverRaceChecks := numSolverRaceChecks s |}.
Definition inc_checks (s : Stats) : Stats :=
  {| numTrackedAccesses := numTrackedAccesses s; numDataRacesChecks := S (numDataRacesChecks s);
     numFastPathRaceChecks := numFastPathRaceChecks s; numSolverRaceChecks := numSolverRaceChecks s |}.
Definition inc_fast (s : Stats) : Stats :=
  {| numTrackedAccesses := numTrackedAccesses s; numDataRacesChecks := numDataRacesChecks s;
     numFastPathRaceChecks := S (numFastPathRaceChecks s); numSolverRaceChecks := numSolverRaceChecks s |}.
Definition inc_solver (s : Stats) : Stats :=
  {| numTrackedAccesses := numTrackedAccesses s; numDataRacesChecks := numDataRacesChecks s;
     numFastPathRaceChecks := numFastPathRaceChecks s; numSolverRaceChecks := S (numSolverRaceChecks s) |}.

Section detector.
Context {PL : Payload} {EL : ExprLib}.
Implicit Types (st : store) (op : MemoryOperation) (tid : thread_id) (h : heap).

(** ** Epochs *)

#[local] Abbreviation EpochMemoryAccesses := (gmap Z ObjectAccesses).

(** Destroying an [ObjectAccesses] drops its list. *)
Definition destroy_object (oa : ObjectAccesses) st : store :=
  match accesses oa with Some p => release p st | None => st end.

Definition pruneDataForMemoryObject st (obj : MemoryObject) (m : EpochMemoryAccesses)
    : store * EpochMemoryAccesses :=
  match m !! mo_address obj with
  | Some oa => (destroy_object oa st, delete (mo_address obj) m)
  | None => (st, m)
  end.

Definition trackMemoryOperation st (m : EpochMemoryAccesses) op : res (store * EpochMemoryAccesses) :=
  obj ← nonnull (op_object op);
  let oa := default new_ObjectAccesses (m !! mo_address obj) in
  '(st', oa') ← trackMemoryOperation_object st oa op;
  Ok (st', <[mo_address obj := oa']> m).

Definition getMemoryAccessesOfThread (m : EpochMemoryAccesses) (mo : MemoryObject)
    : option ObjectAccesses := m !! mo_address mo.

(** ** The detector of one execution state *)

Abbreviation epochs := (list (eid * EpochMemoryAccesses)).

Record DataRaceDetection := { dr_accesses : smap thread_id epochs; dr_stats : Stats }.

Definition new_DataRaceDetection : DataRaceDetection :=
  {| dr_accesses := []; dr_stats := no_stats |}.

(** What all detectors share: the access lists and the global statistics. *)
Record shared := { sh_store : store; sh_stats : Stats }.

Definition set_accesses (acc : smap thread_id epochs) (d : DataRaceDetection) : DataRaceDetection :=
  {| dr_accesses := acc; dr_stats := dr_stats d |}.
Definition count (f : Stats → Stats) (d : DataRaceDetection) : DataRaceDetection :=
  {| dr_accesses := dr_accesses d; dr_stats := f (dr_stats d) |}.
Definition count_global (f : Stats → Stats) (s : shared) : shared :=
  {| sh_store := sh_store s; sh_stats := f (sh_stats s) |}.
Definition set_store st (s : shared) : shared := {| sh_store := st; sh_stats := sh_stats s |}.

(** [accesses[tid]], which enters an empty list for a new thread. *)
Definition getAccessListOfThread tid (d : DataRaceDetection) : DataRaceDetection * epochs :=
  (set_accesses (smap_emplace tid [] (dr_accesses d)) d, default [] (smap_find tid (dr_accesses d))).

(** [getAccessesAfter]: the last epoch of the thread, a new one if the thread
    has moved on to [ev]; the rest of the list and the accesses of the
    epoch. *)
Definition getAccessesAfter (l : epochs) (ev : eid) : epochs * EpochMemoryAccesses :=
  match reverse l with
  | (ev', m) :: r => if bool_decide (ev' = ev) then (reverse r, m) else (l, ∅)
  | [] => (l, ∅)
  end.

Definition trackAccess (heads : smap thread_id eid) (s : shared) (d : DataRaceDetection) op
    : res (shared * DataRaceDetection) :=
  _ ← cassert (match op_instruction op with Some _ => true | None => false end);
  _ ← cassert (match op_object op with Some _ => true | None => false end);
  _ ← cassert (negb (bool_decide (op_type op = UNKNOWN)));
  _ ← cassert (negb (tid_empty (op_tid op)));
  _ ← cassert (isAllocOrFree (op_type op) || (negb (op_numBytes op =? 0) &&
                 match op_offset op with Some _ => true | None => false end));
  ev ← match smap_find (op_tid op) heads with Some p => Ok p | None => Err AssertFailed end;
  obj ← nonnull (op_object op);
  let l := default [] (smap_find (op_tid op) (dr_accesses d)) in
  let '(before, acc) := getAccessesAfter l ev in
  if isFree (op_type op) then
    let '(st', acc') := pruneDataForMemoryObject (sh_store s) obj acc in
    Ok (set_store st' s,
        set_accesses (smap_set (op_tid op) (before ++ [(ev, acc')]) (dr_accesses d)) d)
  else
    '(st', acc') ← trackMemoryOperation (sh_store s) acc op;
    Ok (count_global inc_tracked (set_store st' s),
        count inc_tracked
          (set_accesses (smap_set (op_tid op) (before ++ [(ev, acc')]) (dr_accesses d)) d)).

(** ** The walk over the epochs of another thread *)

(** A loop body goes on with a state or returns from the method. *)
Inductive flow (S R : Type) : Type :=
  | Next (s : S)
  | Return (r : R).
Arguments Next {S R} s.
Arguments Return {S R} r.

(** [while (evt != nullptr && evt != target) { succ = evt; evt =
    evt->thread_predecessor(); }] *)
Fixpoint skip_events (fuel : nat) h (evt succ : option eid) (target : eid)
    : res (option eid * option eid) :=
  match fuel with
  | O => Err OutOfFuel
  | S fuel' =>
      match evt with
      | None => Ok (None, succ)
      | Some p =>
          if bool_decide (p = target) then Ok (Some p, succ)
          else e ← deref h p; skip_events fuel' h (thread_predecessor e) (Some p) target
      end
  end.

(** The number of steps the loop can take: the depth of the event and one for
    the null pointer. *)
Definition walk_fuel h (evt : option eid) : nat :=
  match evt with
  | Some p => match h !! p with Some e => S (S (ev_depth e)) | None => 1%nat end
  | None => 1%nat
  end.

(** The loop over [accessList] from the back: [body] is what the method does
    with the accesses of an epoch that does not happen before [cur]. *)
Fixpoint epochs_loop {S R} (body : S → EpochMemoryAccesses → res (flow S R)) h (cur : eid)
    (s : S) (evt succ : option eid) (l : epochs) : res (flow S R) :=
  match l with
  | [] => Ok (Next s)
  | (ev, m) :: l' =>
      '(evt', succ') ← skip_events (walk_fuel h evt) h evt succ ev;
      match evt' with
      | None => Ok (Next s)
      | Some _ =>
          ordered ← match succ' with Some x => is_less_than h x cur | None => Ok false end;
          if (ordered : bool) then Ok (Next s)
          else
            f ← body s m;
            match f with
            | Return r => Ok (Return r)
            | Next s' => epochs_loop body h cur s' evt' succ' l'
            end
      end
  end.

(** The loop over the other threads. *)
Fixpoint threads_loop {S R} (body : thread_id → S → EpochMemoryAccesses → res (flow S R)) h
    (self : thread_id) (cur : eid) (d : DataRaceDetection) (s : S) (heads : smap thread_id eid)
    : res (DataRaceDetection * flow S R) :=
  match heads with
  | [] => Ok (d, Next s)
  | (tid, head) :: heads' =>
      if tid_eqb tid self then threads_loop body h self cur d s heads'
      else
        let '(d', l) := getAccessListOfThread tid d in
        f ← epochs_loop (body tid) h cur s (Some head) None (reverse l);
        match f with
        | Return r => Ok (d', Return r)
        | Next s' => threads_loop body h self cur d' s' heads'
        end
  end.

(** ** [FastPath] *)

(** The elements from an iterator on. *)
Fixpoint it_rest (it : option Z) (m : cmap) : cmap :=
  match m with
  | [] => []
  | (k, a) :: m' => if bool_decide (it = Some k) then m else it_rest it m'
  end.

(** Whether one of two accesses writes. *)
Definition racing op (a : Access) : bool := isWrite (op_type op) || isWrite (type a).

(** The loop over the concrete accesses that begin inside the operation. *)
Fixpoint fast_right op (e : Z) (m : cmap) : option Access :=
  match m with
  | [] => None
  | (k, a) :: m' =>
      if k <? e then if racing op a then Some a else fast_right op e m' else None
  end.

(** The access before the operation's offset. *)
Definition fast_left op (o : Z) (it : option Z) (m : cmap) : res (option Access) :=
  if negb (bool_decide (it = Some o)) && negb (bool_decide (it = cm_begin m)) then
    k ← it_prev it m;
    prev ← it_deref k m;
    if racing op prev && (o <? wadd k (numBytes prev)) then Ok (Some prev) else Ok None
  else Ok None.

Definition fast_concrete tid op (o : Z) (safe : bool) (m : cmap) (s : mmap)
    : res (flow bool RaceDetectionResult) :=
  let it := lower_bound o m in
  prev ← fast_left op o it m;
  match prev with
  | Some a => Ok (Return (race_with tid (instruction a)))
  | None =>
      match fast_right op (wadd o (op_numBytes op)) (it_rest it m) with
      | Some a => Ok (Return (race_with tid (instruction a)))
      | None => Ok (Next (safe && negb (existsb (racing op) s.*2)))
      end
  end.

(** The first access of the equal range that is not a read beside a read. *)
Fixpoint fast_same op (l : list Access) : option Access :=
  match l with
  | [] => None
  | a :: l' => if isRead (op_type op) && isRead (type a) then fast_same op l' else Some a
  end.

Definition fast_symbolic tid op (off : expr) (safe : bool) (m : cmap) (s : mmap)
    : res (flow bool RaceDetectionResult) :=
  match fast_same op (equal_range off s).*2 with
  | Some a => Ok (Return (race_with tid (instruction a)))
  | None =>
      Ok (Next (safe && negb (existsb (racing op) (before_key off s).*2)
                     && negb (existsb (racing op) (after_key off s).*2)
                     && negb (existsb (racing op) m.*2)))
  end.

(** The instruction reported for a race with an allocation. *)
Definition any_instruction st (accessed : ObjectAccesses) : res (option KInstruction) :=
  if oa_isAllocOrFree accessed then Some <$> getAllocFreeInstruction accessed
  else
    m ← getConcreteAccesses st accessed;
    match m with
    | (_, a) :: _ => Ok (instruction a)
    | [] =>
        s ← getSymbolicAccesses st accessed;
        match s with
        | (_, a) :: _ => Ok (instruction a)
        | [] => Err UndefinedBehaviour
        end
    end.

(** One epoch; [safe] is [result.has_value()]. *)
Definition fast_body st op tid (safe : bool) (mem : EpochMemoryAccesses)
    : res (flow bool RaceDetectionResult) :=
  obj ← nonnull (op_object op);
  match getMemoryAccessesOfThread mem obj with
  | None => Ok (Next safe)
  | Some accessed =>
      if isAllocOrFree (op_type op) || oa_isAllocOrFree accessed then
        i ← any_instruction st accessed; Ok (Return (race_with tid i))
      else
        off ← nonnull (op_offset op);
        m ← getConcreteAccesses st accessed;
        s ← getSymbolicAccesses st accessed;
        match as_constant off with
        | Some o => fast_concrete tid op o safe m s
        | None => fast_symbolic tid op off safe m s
        end
  end.

Definition current_event (heads : smap thread_id eid) tid : res eid :=
  match smap_find tid heads with Some p => Ok p | None => Err AssertFailed end.

(** A result without value asks for the solver. *)
Definition FastPath h (heads : smap thread_id eid) st (d : DataRaceDetection) op
    : res (DataRaceDetection * option RaceDetectionResult) :=
  cur ← current_event heads (op_tid op);
  '(d', f) ← threads_loop (fast_body st op) h (op_tid op) cur d true heads;
  Ok (d', match f with
          | Return r => Some r
          | Next safe => if (safe : bool) then Some no_race else None
          end).

(** ** [SolverPath] *)

(** An access to check: its thread, offset, size and instruction. *)
Abbreviation candidate := (thread_id * expr * Z * option KInstruction)%type.

Definition candidate_of tid (off : expr) (a : Access) : candidate :=
  (tid, off, numBytes a, instruction a).

(** The candidates among the symbolic accesses of one epoch. The second
    assert is made for an operation with a symbolic offset. *)
Fixpoint symbolic_candidates tid op (off : expr) (asserted : bool) (s : mmap) : res (list candidate) :=
  match s with
  | [] => Ok []
  | (k, a) :: s' =>
      if racing op a then
        _ ← cassert (negb asserted || negb (expr_eqb off k));
        r ← symbolic_candidates tid op off asserted s';
        Ok (candidate_of tid k a :: r)
      else symbolic_candidates tid op off asserted s'
  end.

Fixpoint concrete_candidates tid op (m : cmap) : list candidate :=
  match m with
  | [] => []
  | (k, a) :: m' =>
      if racing op a then candidate_of tid (createPointer k) a :: concrete_candidates tid op m'
      else concrete_candidates tid op m'
  end.

Definition solver_body st op tid (found : list candidate) (mem : EpochMemoryAccesses)
    : res (flow (list candidate) Empty_set) :=
  obj ← nonnull (op_object op);
  match getMemoryAccessesOfThread mem obj with
  | None => Ok (Next found)
  | Some accessed =>
      _ ← cassert (negb (oa_isAllocOrFree accessed));
      off ← nonnull (op_offset op);
      s ← getSymbolicAccesses st accessed;
      match as_constant off with
      | Some _ => r ← symbolic_candidates tid op off false s; Ok (Next (found ++ r))
      | None =>
          m ← getConcreteAccesses st accessed;
          r ← symbolic_candidates tid op off true s;
          Ok (Next (found ++ concrete_candidates tid op m ++ r))
      end
  end.

(** That the operation and a candidate do not overlap. *)
Definition not_overlapping op (off : expr) (c : candidate) : expr :=
  let '(_, accessOffset, n, _) := c in
  let beginOfOp := createZExtToPointerWidth off in
  let endOfOp := AddExpr (createZExtToPointerWidth off) (createPointer (wsub (op_numBytes op) 1)) in
  let beginOfAccess := createZExtToPointerWidth accessOffset in
  let endOfAccess := AddExpr beginOfAccess (createPointer (wsub n 1)) in
  OrExpr (UltExpr endOfOp beginOfAccess) (UltExpr endOfAccess beginOfOp).

Definition is_safe_for_all op (off : expr) (cs : list candidate) : expr :=
  foldl (λ q c, AndExpr q (not_overlapping op off c)) constant_true cs.

(** The first candidate that the solver says may overlap. *)
Fixpoint racing_candidate (sv : SolverInterface) op (off : expr) (cs : list candidate)
    : option candidate :=
  match cs with
  | [] => None
  | c :: cs' =>
      match mayBeFalse sv (not_overlapping op off c) with
      | Some true => Some c
      | _ => racing_candidate sv op off cs'
      end
  end.

Definition solver_result (sv : SolverInterface) op (off : expr) (cs : list candidate)
    : option RaceDetectionResult :=
  let query := is_safe_for_all op off cs in
  match mustBeTrue sv query with
  | None => None
  | Some true =>
      Some {| rr_isRace := false; rr_racingInstruction := None; rr_racingThread := [];
              rr_canBeSafe := false; rr_conditionToBeSafe := None;
              rr_hasNewConstraints := true; rr_newConstraints := Some query |}
  | Some false =>
      match mayBeTrue sv query with
      | None => None
      | Some canBeSafe =>
          match racing_candidate sv op off cs with
          | None => None
          | Some (tid, _, _, i) =>
              Some {| rr_isRace := true; rr_racingInstruction := i; rr_racingThread := tid;
                      rr_canBeSafe := canBeSafe;
                      rr_conditionToBeSafe := if canBeSafe then Some query else None;
                      rr_hasNewConstraints := false; rr_newConstraints := None |}
          end
      end
  end.

Definition SolverPath h (heads : smap thread_id eid) st (sv : SolverInterface)
    (d : DataRaceDetection) op : res (DataRaceDetection * option RaceDetectionResult) :=
  cur ← current_event heads (op_tid op);
  '(d', f) ← threads_loop (solver_body st op) h (op_tid op) cur d [] heads;
  match (f : flow (list candidate) Empty_set) with
  | Return r => match r return res _ with end
  | Next cs =>
      _ ← cassert (match cs with [] => false | _ => true end);
      off ← nonnull (op_offset op);
      Ok (d', solver_result sv op off cs)
  end.

(** ** [isDataRace] *)

Definition isDataRace h (heads : smap thread_id eid) (sv : SolverInterface) (s : shared)
    (d : DataRaceDetection) op : res (shared * DataRaceDetection * option RaceDetectionResult) :=
  let s := count_global inc_checks s in
  let d := count inc_checks d in
  '(d1, easyResult) ← FastPath h heads (sh_store s) d op;
  match easyResult with
  | Some r => Ok (count_global inc_fast s, count inc_fast d1, Some r)
  | None =>
      '(d2, solverResult) ← SolverPath h heads (sh_store s) sv d1 op;
      Ok (count_global inc_solver s, count inc_solver d2, solverResult)
  end.

(** ** [Executor::processMemoryAccess] *)

(** What becomes of an access: it is safe without a check, it is safe under a
    new constraint, or the state is terminated for a race. *)
Inductive outcome : Type :=
  | Unchecked
  | Safe (newConstraints : option expr)
  | Terminated (racingThread : thread_id) (racingInstruction : option KInstruction).

(** [nthreads] is [state.threads.size()]. The branch for races that can be
    safe is switched off in the source ([canBeSafe && false]). *)
Definition processMemoryAccess (EnableDataRaceDetection : bool) (nthreads : nat) h
    (heads : smap thread_id eid) (sv : SolverInterface) (s : shared) (d : DataRaceDetection) op
    : res (shared * DataRaceDetection * outcome) :=
  if negb EnableDataRaceDetection || Nat.eqb nthreads 1 then Ok (s, d, Unchecked)
  else
    '(s1, d1, result) ← isDataRace h heads sv s d op;
    match result with
    | None => '(s2, d2) ← trackAccess heads s1 d1 op; Ok (s2, d2, Safe None)
    | Some r =>
        if rr_isRace r then Ok (s1, d1, Terminated (rr_racingThread r) (rr_racingInstruction r))
        else
          '(s2, d2) ← trackAccess heads s1 d1 op;
          Ok (s2, d2, Safe (if rr_hasNewConstraints r then rr_newConstraints r else None))
    end.

(** ** Forking

    The copy constructor of [ExecutionState] copies the detector; every access
    list gets one more owner. *)
Definition object_ptrs (m : EpochMemoryAccesses) : list N :=
  map_to_list m ≫= λ p, option_list (accesses p.2).
Definition epoch_ptrs (l : epochs) : list N := l ≫= λ p, object_ptrs p.2.
Definition detector_ptrs (d : DataRaceDetection) : list N := smap_vals (dr_accesses d) ≫= epoch_ptrs.

Definition copy_detector (d : DataRaceDetection) st : store := foldr retain st (detector_ptrs d).
Definition destroy_detector (d : DataRaceDetection) st : store := foldr release st (detector_ptrs d).
End detector.

Abbreviation EpochMemoryAccesses := (gmap Z ObjectAccesses).

Arguments Next {S R} s.
Arguments Return {S R} r.
