(* ===== verification/RaceWalk.v ===== *)
(** * The epochs that a check visits

    [epochs_loop] and [threads_loop] hand to their body exactly the epochs of
    the other threads that do not happen before the current event: those
    whose next event on the thread is not one of its causes. *)

From stdpp Require Import base tactics list gmap numbers relations sorting.
From S2P Require Import Prelude StdMap ThreadId Event Comb CombEnum CombProofs Cone Alloc Causality.
From S2P Require Import AllocProofs HeapExt Order Walks ObjectAccesses RaceDetection.

(** The loop body run on the accesses of several epochs. *)
Fixpoint body_loop {A S R} (body : S → A → res (flow S R)) (s : S) (l : list A) : res (flow S R) :=
  match l with
  | [] => Ok (Next s)
  | m :: l' =>
      f ← body s m;
      match f with Return r => Ok (Return r) | Next s' => body_loop body s' l' end
  end.

Lemma body_loop_app {A S R} (body : S → A → res (flow S R)) st l1 l2 :
  body_loop body st (l1 ++ l2) =
    (f ← body_loop body st l1;
     match f with Return r => Ok (Return r) | Next s' => body_loop body s' l2 end).
Proof.
  revert st. induction l1 as [|m l1 IH]; intros st; simpl; [done|].
  destruct (body st m) as [[s'|r]|f]; [apply IH | done..].
Qed.

Lemma body_loop_fmap {A B S R} (g : A → B) (body : S → B → res (flow S R)) st l :
  body_loop body st (g <$> l) = body_loop (λ s a, body s (g a)) st l.
Proof.
  revert st. induction l as [|m l IH]; intros st; simpl; [done|].
  destruct (body st (g m)) as [[s'|r]|f]; [apply IH | done..].
Qed.

Section walk.
Context {PL : Payload} {EL : ExprLib}.
Context (h : heap) (C : eid → Prop) (Hwf : wf_heap h) (HC : conflict_free h C).
Implicit Types (p q x y cur : eid) (s : option eid) (l r : list (eid * EpochMemoryAccesses)).

(** The successor of [x] on the thread that ends in [p], if it is not the
    last event. *)
Definition next_on p x (s : option eid) : Prop :=
  match s with None => x = p | Some y => tpred h x y ∧ thread_le h y p end.

(** The accesses after [x], up to its successor, do not happen before
    [cur]. *)
Definition open_epoch p cur x : Prop :=
  ∀ y, tpred h x y → thread_le h y p → ¬ causal_lt h y cur.

(** The events of a list of epochs, newest first, on the thread that ends in
    [p]. *)
Definition descending p r : Prop :=
  StronglySorted (λ a b, thread_le h b.1 a.1 ∧ b.1 ≠ a.1) r ∧ ∀ a, a ∈ r → thread_le h a.1 p.

Lemma tpred_dep x y : tpred h x y → (dep h x < dep h y)%nat.
Proof. intros H. by apply imm_dep, tpred_imm. Qed.

Lemma next_unique p x y y' :
  C p → tpred h x y → thread_le h y p → tpred h x y' → thread_le h y' p → y = y'.
Proof.
  intros Hp Hy Hyp Hy' Hyp'. apply (cf_thread _ _ HC y y' x); [| |done..];
    (eapply (cf_closed _ _ HC); [exact Hp | by apply thread_le_causal]).
Qed.

Lemma open_next p cur x s :
  C p → next_on p x s →
  open_epoch p cur x ↔ match s with None => True | Some y => ¬ causal_lt h y cur end.
Proof.
  intros Hp. destruct s as [y|]; simpl.
  - intros [Hy Hyp]. split; [intros Ho; by apply Ho|]. intros Hn y' Hy' Hyp'.
    by rewrite (next_unique p x y' y).
  - intros ->. split; [done|]. intros _ y Hy Hle%(thread_le_dep h Hwf). apply tpred_dep in Hy. lia.
Qed.

(** An epoch before one that happens before [cur] does so as well. *)
Lemma closed_before p cur x z :
  thread_le h z x → z ≠ x → thread_le h x p → ¬ open_epoch p cur x → ¬ open_epoch p cur z.
Proof.
  intros Hzx Hne Hxp Hn Ho. apply Hn. intros y Hy Hyp Hlt.
  unfold thread_le in Hzx. apply rtc_inv in Hzx as [->|(w & Hw & Hwx)]; [done|].
  apply (Ho w Hw); [by trans x|]. eapply causal_le_lt_trans; [|done].
  apply thread_le_causal. trans x; [done | by apply rtc_once].
Qed.

Lemma skip_spec fuel p q s x :
  thread_le h x q → thread_le h q p → next_on p q s → is_Some (h !! q) → (dep h q < fuel)%nat →
  ∃ s', skip_events fuel h (Some q) s x = Ok (Some x, s') ∧ next_on p x s'.
Proof.
  revert q s. induction fuel as [|fuel IH]; intros q s Hxq Hqp Hs [e He] Hf; [lia|].
  cbn [skip_events]. case_bool_decide as Heq; [subst; eauto|].
  rewrite (proj2 (deref_ok h q e) He), bind_Ok_l.
  apply (thread_le_cons h q e x He) in Hxq as [->|(q' & Hq' & Hle)]; [done|].
  assert (tpred h q' q) as Ht by (by exists e).
  destruct (tpred_exists h Hwf q e q' He Hq') as [Hq'' Hd]. rewrite Hq'.
  apply IH; [done | | | done | lia].
  - trans q; [by apply rtc_once | done].
  - by split.
Qed.

(** The loop visits the open epochs, which come first. *)
Lemma epochs_loop_spec p cur r : C p → C cur → ∀ q s,
  descending q r → thread_le h q p → next_on p q s →
  ∃ o rest, r = o ++ rest ∧ (∀ a, a ∈ o → open_epoch p cur a.1) ∧ (∀ a, a ∈ rest → ¬ open_epoch p cur a.1) ∧
    ∀ S R (body : S → EpochMemoryAccesses → res (flow S R)) st,
      epochs_loop body h cur st (Some q) s r = body_loop body st o.*2.
Proof.
  intros Hp Hcur. induction r as [|[x m] r IH]; intros q s [Hsort Hin] Hqp Hs.
  { exists [], []. split_and!; [done | by intros a ?%elem_of_nil.. | done]. }
  apply StronglySorted_inv in Hsort as [Hsort Hx]. rewrite list.Forall_forall in Hx.
  assert (thread_le h x q) as Hxq by (apply (Hin (x, m)); by left).
  assert (thread_le h x p) as Hxp by (by trans q).
  assert (∀ y, thread_le h y p → C y) as HCy.
  { intros y Hy. eapply (cf_closed _ _ HC); [exact Hp | by apply thread_le_causal]. }
  destruct (cf_in _ _ HC q) as [e He]; [auto|].
  destruct (skip_spec (S (S (ev_depth e))) p q s x) as (s' & Hskip & Hs'); try done.
  { rewrite (dep_lookup _ _ _ He). lia. }
  assert (∃ b, match s' with Some y => is_less_than h y cur | None => Ok false end = Ok b ∧
    if b then ¬ open_epoch p cur x else open_epoch p cur x) as (b & Eb & Hb).
  { pose proof (open_next p cur x s' Hp Hs') as Hiff. destruct s' as [y|].
    - destruct Hs' as [_ Hy]. destruct (is_less_than_decides h C Hwf HC y cur (HCy y Hy) Hcur) as (b & Hb & Hlt).
      exists b. split; [done|]. destruct b; [rewrite Hiff; naive_solver|]. apply Hiff. naive_solver.
    - exists false. split; [done|]. by apply Hiff. }
  assert (∀ S R (body : S → EpochMemoryAccesses → res (flow S R)) st,
    epochs_loop body h cur st (Some q) s ((x, m) :: r) =
      if b then Ok (Next st)
      else f ← body st m; match f with
        | Return a => Ok (Return a)
        | Next st' => epochs_loop body h cur st' (Some x) s' r end) as Hrun.
  { intros S R body st. cbn [epochs_loop]. unfold walk_fuel.
    by rewrite He, Hskip, bind_Ok_l, Eb, bind_Ok_l. }
  destruct b.
  - exists [], ((x, m) :: r). split_and!; [done | by intros a ?%elem_of_nil | |].
    2:{ intros. by rewrite Hrun. }
    intros a [->|Ha]%elem_of_cons; [exact Hb|]. destruct (Hx a Ha) as [Hle Hne].
    by apply (closed_before p cur x).
  - destruct (IH x s') as (o & rest & -> & Ho & Hr & Hrun'); [|done|done|].
    { split; [done|]. intros a Ha. apply (Hx a Ha). }
    exists ((x, m) :: o), rest. split_and!; [done | | done |].
    + intros a [->|Ha]%elem_of_cons; auto.
    + intros S R body st. rewrite Hrun, fmap_cons. cbn [body_loop snd].
      destruct (body st m) as [[st'|a]|f]; [|done..]. rewrite !bind_Ok_l. apply Hrun'.
Qed.

(** *** All threads *)

Context (heads : smap thread_id eid) (self : thread_id) (cur : eid).
Context (Hheads : ∀ t p, (t, p) ∈ heads → C p) (Hcur : C cur).
Implicit Types (d : DataRaceDetection) (t : thread_id).

Definition epochs_of d t : list (eid * EpochMemoryAccesses) := default [] (smap_find t (dr_accesses d)).

(** The epochs of every thread are in the order of the thread, up to its
    head. *)
Definition in_order d : Prop := ∀ t p, (t, p) ∈ heads → descending p (reverse (epochs_of d t)).

(** The accesses that are to be checked: those of the open epochs of the
    threads [hs]. *)
Definition concurrent_with d (hs : smap thread_id eid) t (m : EpochMemoryAccesses) : Prop :=
  t ≠ self ∧ ∃ p x, (t, p) ∈ hs ∧ (x, m) ∈ epochs_of d t ∧ open_epoch p cur x.

Lemma getAccessListOfThread_epochs d t t' :
  epochs_of (getAccessListOfThread t d).1 t' = epochs_of d t' ∧ (getAccessListOfThread t d).2 = epochs_of d t.
Proof.
  split; [|done]. unfold getAccessListOfThread, epochs_of. simpl. unfold smap_emplace.
  destruct (smap_find t (dr_accesses d)) eqn:E; [done|].
  destruct (smap_find_set t t' [] (dr_accesses d)) as [[-> ->]|[_ ->]]; [|done]. by rewrite E.
Qed.

(** [threads_loop] is the body run on the accesses to be checked. *)
Lemma threads_loop_spec hs d :
  (∀ t p, (t, p) ∈ hs → (t, p) ∈ heads) → in_order d →
  ∃ os, (∀ t m, (t, m) ∈ os ↔ concurrent_with d hs t m) ∧
    ∀ S R (body : thread_id → S → EpochMemoryAccesses → res (flow S R)) st,
      ∃ d', dr_stats d' = dr_stats d ∧ (∀ t, epochs_of d' t = epochs_of d t) ∧
      threads_loop body h self cur d st hs =
        (f ← body_loop (λ z a, body a.1 z a.2) st os; Ok (d', f)).
Proof.
  revert d. induction hs as [|[t p] hs IH]; intros d Hin Hd.
  { exists []. split; [|intros; by exists d]. intros t m. split; [by intros ?%elem_of_nil|].
    by intros (_ & p & x & ?%elem_of_nil & _). }
  assert (∀ t p, (t, p) ∈ hs → (t, p) ∈ heads) as Hin' by (intros; apply Hin; by right).
  cbn [threads_loop]. destruct (tid_eqb t self) eqn:Et.
  { apply tid_eqb_spec in Et as ->. destruct (IH d Hin' Hd) as (os & Hos & Hrun). exists os.
    split; [|done]. intros t m. rewrite Hos. unfold concurrent_with. setoid_rewrite elem_of_cons. naive_solver. }
  destruct (getAccessListOfThread t d) as [d1 l] eqn:Eg.
  assert (∀ t', epochs_of d1 t' = epochs_of d t') as Hd1.
  { intros t'. change d1 with (d1, l).1. rewrite <-Eg. apply getAccessListOfThread_epochs. }
  assert (dr_stats d1 = dr_stats d) as Hst1 by (unfold getAccessListOfThread in Eg; by injection Eg as <- <-).
  assert (l = epochs_of d t) as -> by (unfold getAccessListOfThread in Eg; by injection Eg as <- <-).
  assert ((t, p) ∈ heads) as Htp by (apply Hin; by left).
  destruct (epochs_loop_spec p cur (reverse (epochs_of d t)) (Hheads t p Htp) Hcur p None)
    as (o & rest & Hor & Ho & Hrest & Hrun); [by apply Hd | reflexivity | done|].
  destruct (IH d1 Hin') as (os & Hos & Hrun'); [intros t' p' Hp'; rewrite Hd1; by apply Hd|].
  exists ((pair t <$> o.*2) ++ os). split.
  - intros t' m. rewrite elem_of_app, Hos. unfold concurrent_with. setoid_rewrite elem_of_cons. rewrite Hd1.
    assert (t ≠ self) as Hts by (intros ->; by rewrite (proj2 (tid_eqb_spec self self)) in Et).
    assert (∀ a, a ∈ o ↔ a ∈ epochs_of d t ∧ open_epoch p cur a.1) as Hopen.
    { intros a. rewrite <-(elem_of_reverse a (epochs_of d t)), Hor, elem_of_app. specialize (Ho a). specialize (Hrest a). naive_solver. }
    split.
    + intros [Ha|]; [|naive_solver]. apply list_elem_of_fmap in Ha as (m1 & [= -> ->] & Ha).
      apply list_elem_of_fmap in Ha as ([x m2] & -> & Ha).
      apply Hopen in Ha as [Ha Hop]. split; [done|]. exists p, x. auto.
    + intros (Hne & p' & x & [[= -> ->]|Hp'] & Hx & Hop); [left|naive_solver].
      apply list_elem_of_fmap. exists m. split; [done|]. apply list_elem_of_fmap. exists (x, m).
      split; [done|]. by apply Hopen.
  - intros S R body st. rewrite Hrun, body_loop_app.
    rewrite (body_loop_fmap (pair t)). cbn [fst snd]. change (λ z a, body t z a) with (body t).
    destruct (body_loop (body t) st o.*2) as [[st'|a]|f]; rewrite ?bind_Ok_l, ?bind_Err_l.
    + destruct (Hrun' S R body st') as (d' & Hst & He & ->). exists d'. split_and!; [by rewrite Hst | | done].
      intros t'. by rewrite He.
    + exists d1. split_and!; [done..|]. by rewrite bind_Ok_l.
    + by exists d.
Qed.
End walk.
