(* ===== verification/RaceCheck.v ===== *)
(** * Races, and the check without the solver

    When two accesses race, as a property of one assignment of values to the
    symbolic bytes, and what [FastPath] finds out about the epochs it
    visits. *)

From stdpp Require Import base tactics list gmap numbers sorting.
From S2P Require Import Prelude StdMap ThreadId Event ObjectAccesses AccessProofs SharedProofs.
From S2P Require Import RaceDetection RaceWalk.

Local Open Scope Z_scope.

(** ** What is tracked *)

Section contents.
Context {PL : Payload} {EL : ExprLib}.
Implicit Types (st : store) (oa : ObjectAccesses) (l : OperationList) (op : MemoryOperation).

(** A list that stands for at least one access. *)
Record list_ok l : Prop := {
  lo_concrete : cm_ok (concrete l);
  lo_symbolic : mm_ok (symbolic l);
  lo_some : concrete l ≠ [] ∨ symbolic l ≠ [];
}.

(** The list of an object that was not allocated in the epoch. *)
Definition lists st oa l : Prop :=
  ∃ p s, accesses oa = Some p ∧ st !! p = Some s ∧ the_list s = l.

Definition object_ok st oa : Prop :=
  match allocFreeInstruction oa with
  | Some _ => accesses oa = None
  | None => ∃ l, lists st oa l ∧ list_ok l
  end.

Lemma object_list_ok st oa l : oa_isAllocOrFree oa = false → object_list st oa = Ok l ↔ lists st oa l.
Proof.
  unfold object_list, lists. intros ->. cbn [negb cassert]. rewrite bind_Ok_l. split.
  - intros (p & Hp & H)%bind_ok. apply bind_ok in H as (s & Hs & [= <-]).
    apply nonnull_ok in Hp. apply nonnull_ok in Hs. by exists p, s.
  - intros (p & s & -> & Hs & <-). cbn. rewrite Hs. done.
Qed.

Lemma lists_unique st oa l l' : lists st oa l → lists st oa l' → l = l'.
Proof. intros (p & s & H1 & H2 & <-) (p' & s' & H3 & H4 & <-). by simplify_eq. Qed.

Lemma object_ok_list st oa :
  object_ok st oa → oa_isAllocOrFree oa = false → ∃ l, lists st oa l ∧ list_ok l.
Proof. unfold object_ok, oa_isAllocOrFree. destruct (allocFreeInstruction oa); [discriminate|done]. Qed.

(** Every object of every epoch. *)
Definition detector_ok st (d : DataRaceDetection) : Prop := ∀ t x m a oa,
  (x, m) ∈ epochs_of d t → m !! a = Some oa → object_ok st oa.
End contents.

(** ** Races *)

Section races.
Context {PL : Payload} {EL : ExprLib} {ES : ExprSem}.
Implicit Types (st : store) (oa : ObjectAccesses) (l : OperationList) (op : MemoryOperation) (v : assignment).

Definition overlap (b n b' n' : Z) : Prop := b < b' + n' ∧ b' < b + n.

(** The accesses of a list, with their offsets under [v]. *)
Definition tracked_at v l (b : Z) (a : Access) : Prop :=
  (b, a) ∈ concrete l ∨ ∃ k, (k, a) ∈ symbolic l ∧ b = eval v k.

(** Some access overlaps the operation, and one of the two writes. *)
Definition collides v op (off : expr) l : Prop := ∃ b a,
  tracked_at v l b a ∧ racing op a = true ∧ overlap (eval v off) (op_numBytes op) b (numBytes a).

(** The operation races with the accesses of an epoch: an allocation races
    with everything. *)
Definition races v st op (m : EpochMemoryAccesses) : Prop := ∃ obj oa,
  op_object op = Some obj ∧ m !! mo_address obj = Some oa ∧
  (isAllocOrFree (op_type op) = true ∨ oa_isAllocOrFree oa = true ∨
   ∃ off l, op_offset op = Some off ∧ lists st oa l ∧ collides v op off l).

(** ** Accesses inside the address space *)

Context (feasible : assignment → Prop).

Definition in_bounds (off : expr) (n : Z) : Prop :=
  width off ≤ 64 ∧ 0 < n ∧ ∀ v, feasible v → eval v off + n < word_size.

Definition list_bounds l : Prop := ∀ k a, (k, a) ∈ symbolic l → in_bounds k (numBytes a).

(** An operation as the executor hands it in: [operation_ok]. *)
Record operation_ok op : Prop := {
  oo_object : is_Some (op_object op);
  oo_access : isAllocOrFree (op_type op) = true ∨
    isReadOrWrite (op_type op) = true ∧ ∃ off, op_offset op = Some off ∧ in_bounds off (op_numBytes op);
}.

(** The epoch's objects are well-formed and their accesses are in bounds. *)
Definition epoch_ok st (m : EpochMemoryAccesses) : Prop := ∀ a oa,
  m !! a = Some oa → object_ok st oa ∧ ∀ l, lists st oa l → list_bounds l.
End races.

(** ** Constant offsets *)

Section fast.
Context {PL : Payload} {EL : ExprLib}.
Implicit Types (op : MemoryOperation) (m : cmap) (a : Access).

Lemma it_rest_cut m1 m2 :
  StronglySorted lies_before (m1 ++ m2) → Forall entry_ok (m1 ++ m2) → it_rest (cm_begin m2) (m1 ++ m2) = m2.
Proof.
  intros Hs Hok. induction m1 as [|[k a] m1 IH]; simpl in *.
  - destruct m2 as [|[k a] m2]; simpl; [done|]. by rewrite bool_decide_eq_true_2.
  - apply StronglySorted_inv in Hs as [Hs Hk]. inversion Hok as [|? ? [_ Hn _ _] Hok']; subst. simpl in Hn.
    rewrite bool_decide_eq_false_2; [by apply IH|]. destruct m2 as [|[k2 a2] m2]; simpl; [done|]. intros [= ->].
    rewrite list.Forall_forall in Hk. assert (lies_before (k, a) (k, a2)) as Hb by (apply Hk; set_solver).
    unfold lies_before, ends in Hb. simpl in Hb. lia.
Qed.

Lemma fast_right_spec op o e m :
  cm_ok m → from_key o m → o < e →
  match fast_right op e m with
  | Some a => ∃ k, (k, a) ∈ m ∧ racing op a = true ∧ overlap o (e - o) k (numBytes a)
  | None => ∀ k a, (k, a) ∈ m → racing op a = true → ¬ overlap o (e - o) k (numBytes a)
  end.
Proof.
  induction m as [|[k a] m IH]; intros Hok Hf Hoe; simpl; [by intros k a ?%elem_of_nil|].
  apply cm_ok_cons in Hok as ([_ Hn _ _] & Hok & Hafter). inversion Hf as [|? ? Hk Hf']; subst. simpl in *.
  destruct (Z.ltb_spec k e) as [Hke|Hke].
  - destruct (racing op a) eqn:Hr.
    + exists k. split_and!; [by left | done |]. unfold overlap. lia.
    + specialize (IH Hok Hf' Hoe). destruct (fast_right op e m) as [a'|].
      * destruct IH as (k' & Hk' & Hrest). exists k'. split; [by right | done].
      * intros k' a' [[= -> ->]|Hin]%elem_of_cons; [congruence | by apply IH].
  - intros k' a' [[= -> ->]|Hin]%elem_of_cons _ [? ?]; [lia|]. specialize (Hafter _ Hin).
    unfold ends in Hafter. simpl in *. lia.
Qed.

(** The access to the left, the only one that can reach into the operation. *)
Lemma fast_left_spec op o m1 k a m2 :
  cm_ok (m1 ++ (k, a) :: m2) → k < o → from_key o m2 →
  fast_left op o (cm_begin m2) (m1 ++ (k, a) :: m2) =
    Ok (if racing op a && (o <? k + numBytes a) then Some a else None).
Proof.
  intros Hok Hk Hf. destruct (key_facts m1 k a m2 Hok) as (Hbel & Habv & Hfe & [? ? Hend _]).
  unfold ends in Hend. simpl in *. unfold fast_left.
  destruct (decide (cm_begin m2 = Some o)) as [Hit|Hit].
  - rewrite (bool_decide_eq_true_2 _ Hit). simpl. destruct m2 as [|[k2 a2] m2]; [done|]. injection Hit as ->.
    inversion Hfe as [|? ? Hle _]; subst. simpl in Hle. rewrite (proj2 (Z.ltb_ge o (k + numBytes a))) by lia.
    by rewrite andb_false_r.
  - rewrite (bool_decide_eq_false_2 _ Hit), (begin_cut m1 k a m2 Hbel Habv). cbn [negb andb].
    rewrite prev_cut, bind_Ok_l by done. unfold it_deref. rewrite find_cut, bind_Ok_l, wadd_small by (done || lia).
    by destruct (racing op a && (o <? k + numBytes a)).
Qed.

Definition hits op o (k : Z) a : Prop :=
  racing op a = true ∧ overlap o (op_numBytes op) k (numBytes a).

(** Both steps together decide whether some tracked range overlaps. *)
Lemma fast_concrete_spec tid op o safe m (s : mmap) :
  cm_ok m → 0 ≤ o → 0 < op_numBytes op → o + op_numBytes op < word_size →
  ∃ f, fast_concrete tid op o safe m s = Ok f ∧
  match f with
  | Return r => ∃ k a, (k, a) ∈ m ∧ hits op o k a ∧ r = race_with tid (instruction a)
  | Next safe' => safe' = safe && negb (existsb (racing op) s.*2) ∧ ∀ k a, (k, a) ∈ m → ¬ hits op o k a
  end.
Proof.
  intros Hok H0 Hn Hend. unfold fast_concrete. rewrite wadd_small by lia. cbn zeta.
  destruct (lower_cut m o Hok H0) as [(m2 & <- & Hl & Hf)|(m1 & k & a & m2 & -> & -> & Hk & Hf)].
  - unfold fast_left. rewrite Hl, (bool_decide_eq_true_2 (cm_begin m = cm_begin m)), andb_false_r by done.
    rewrite bind_Ok_l. pose proof (it_rest_cut [] m (proj1 Hok) (proj2 Hok)) as Hit. simpl in Hit. rewrite Hit.
    pose proof (fast_right_spec op o (o + op_numBytes op) m Hok Hf) as Hr.
    replace (o + op_numBytes op - o) with (op_numBytes op) in Hr by lia.
    destruct (fast_right op (o + op_numBytes op) m) as [a|]; eexists; (split; [done|]).
    + destruct Hr as (k & Hk & Hr); [lia|]. by exists k, a.
    + split; [done|]. intros k a Hin [? ?]. by apply (Hr ltac:(lia) k a).
  - rewrite fast_left_spec, bind_Ok_l by done. destruct (racing op a && _) eqn:Hra.
    { apply andb_true_iff in Hra as [Hra Hlt%Z.ltb_lt]. eexists. split; [done|]. exists k, a.
      split_and!; [set_solver | split; [done|] | done]. unfold overlap. lia. }
    pose proof Hok as (_ & (_ & Hok2 & _)%cm_ok_cons & _)%cm_ok_app.
    rewrite (cons_middle _ m1), app_assoc in Hok |- *. rewrite it_rest_cut by apply Hok.
    pose proof (fast_right_spec op o (o + op_numBytes op) m2 Hok2 Hf) as Hr.
    replace (o + op_numBytes op - o) with (op_numBytes op) in Hr by lia.
    destruct (fast_right op (o + op_numBytes op) m2) as [a'|]; eexists; (split; [done|]).
    { destruct Hr as (k' & Hk' & Hr); [lia|]. exists k', a'. split_and!; [set_solver | done..]. }
    split; [done|]. intros k' a' Hin [Hr' Ho].
    apply cm_ok_app in Hok as ((_ & _ & Hb)%cm_ok_app & _ & _).
    rewrite !elem_of_app, list_elem_of_singleton in Hin. destruct Hin as [[Hin|[= -> ->]]|Hin].
    + assert (ends (k', a') ≤ k) by (apply (Hb (k', a') (k, a)); [done | by left]).
      unfold ends, overlap in *. simpl in *. lia.
    + rewrite Hr', andb_true_l in Hra. apply Z.ltb_ge in Hra. unfold overlap in Ho. lia.
    + by apply (Hr ltac:(lia) k' a').
Qed.
End fast.

(** ** One epoch *)

Section verdict.
Context {PL : Payload} {EL : ExprLib} {ES : ExprSem}.
Context (feasible : assignment → Prop) (st : store) (op : MemoryOperation).
Implicit Types (oa : ObjectAccesses) (l : OperationList) (v : assignment) (m : EpochMemoryAccesses).

(** No access of the list collides with the operation whatever the symbolic
    values are. *)
Definition clear (off : expr) l : Prop :=
  match as_constant off with
  | Some o => ∀ k a, (k, a) ∈ concrete l → ¬ hits op o k a
  | None => ∀ a, (off, a) ∈ symbolic l → racing op a = false
  end.

(** Some access may collide with it. *)
Definition may_collide (off : expr) l : Prop :=
  (∃ k a, (k, a) ∈ symbolic l ∧ racing op a = true) ∨
  as_constant off = None ∧ ∃ k a, (k, a) ∈ concrete l ∧ racing op a = true.

(** The object of the operation in an epoch. *)
Definition accessed_in m oa : Prop := ∃ obj, op_object op = Some obj ∧ m !! mo_address obj = Some oa.

Definition settled m : Prop := ∀ oa, accessed_in m oa →
  isAllocOrFree (op_type op) = false ∧ oa_isAllocOrFree oa = false ∧
  ∀ off l, op_offset op = Some off → lists st oa l → clear off l.

Definition unsettled m : Prop := ∃ oa off l,
  accessed_in m oa ∧ op_offset op = Some off ∧ lists st oa l ∧ may_collide off l.

Lemma existsb_racing {K} (s : list (K * Access)) :
  existsb (racing op) s.*2 = true ↔ ∃ k a, (k, a) ∈ s ∧ racing op a = true.
Proof.
  rewrite existsb_exists. split.
  - intros (a & Ha & Hr). apply list_elem_of_In, list_elem_of_fmap in Ha as ([k a'] & -> & Ha). eauto.
  - intros (k & a & Ha & Hr). exists a. split; [|done]. apply list_elem_of_In, list_elem_of_fmap.
    by exists (k, a).
Qed.

Lemma fast_same_spec (l : list Access) :
  match fast_same op l with
  | Some a => a ∈ l ∧ isRead (op_type op) && isRead (type a) = false
  | None => ∀ a, a ∈ l → isRead (op_type op) && isRead (type a) = true
  end.
Proof.
  induction l as [|a l IH]; simpl; [by intros a ?%elem_of_nil|].
  destruct (isRead (op_type op) && isRead (type a)) eqn:E; [|split; [by left | done]].
  destruct (fast_same op l) as [a'|]; [destruct IH; split; [by right | done]|].
  intros a' [->|Ha]%elem_of_cons; auto.
Qed.

Lemma not_racing a :
  isReadOrWrite (op_type op) = true → isReadOrWrite (type a) = true →
  isRead (op_type op) && isRead (type a) = negb (racing op a).
Proof. unfold racing. by destruct (op_type op), (type a). Qed.

(** Equal offset expressions. *)
Lemma fast_symbolic_spec tid off safe (m : cmap) (s : mmap) :
  mm_ok s → isReadOrWrite (op_type op) = true →
  ∃ f, fast_symbolic tid op off safe m s = Ok f ∧
  match f with
  | Return r => ∃ a, (off, a) ∈ s ∧ racing op a = true ∧ r = race_with tid (instruction a)
  | Next safe' => (∀ a, (off, a) ∈ s → racing op a = false) ∧
      if (safe' : bool) then safe = true ∧ ¬ ((∃ k a, (k, a) ∈ s ∧ racing op a = true) ∨
                                              ∃ k a, (k, a) ∈ m ∧ racing op a = true)
      else safe = false ∨ (∃ k a, (k, a) ∈ s ∧ racing op a = true) ∨ ∃ k a, (k, a) ∈ m ∧ racing op a = true
  end.
Proof.
  intros [Hs Hentry _] Ht. unfold fast_symbolic.
  assert (∀ a, a ∈ (equal_range off s).*2 ↔ (off, a) ∈ s) as Heq by (intros a; apply equal_snd).
  assert (∀ a, (off, a) ∈ s → isReadOrWrite (type a) = true) as Hrw by (intros a Ha; by apply (Hentry (off, a))).
  pose proof (fast_same_spec (equal_range off s).*2) as Hf.
  destruct (fast_same op (equal_range off s).*2) as [a|]; eexists; (split; [done|]).
  - destruct Hf as [Ha%Heq Hr]. exists a. split_and!; [done | | done].
    rewrite not_racing in Hr by auto. by apply negb_false_iff in Hr.
  - assert (∀ a, (off, a) ∈ s → racing op a = false) as Hno.
    { intros a Ha. specialize (Hf a (proj2 (Heq a) Ha)). rewrite not_racing in Hf by auto.
      by apply negb_true_iff in Hf. }
    split; [done|]. destruct (_ && _) eqn:Hall.
    + rewrite !andb_true_iff, !negb_true_iff, <-!not_true_iff_false, !existsb_racing in Hall.
      setoid_rewrite before_elem in Hall. setoid_rewrite after_elem in Hall.
      destruct Hall as (((? & Hb) & Ha) & Hm). split; [done|]. intros [(k & a & Hin & Hr)|?]; [|done].
      destruct (less_cases k off) as [(-> & _)|[(Hl & _)|(_ & Hl & _)]]; [by rewrite Hno in Hr|..].
      * apply Hb. by exists k, a.
      * apply Ha. by exists k, a.
    + rewrite !andb_false_iff, !negb_false_iff, !existsb_racing in Hall.
      setoid_rewrite before_elem in Hall. setoid_rewrite after_elem in Hall. naive_solver.
Qed.

(** Deciding an epoch that is settled. *)
Lemma clear_safe off l v :
  in_bounds feasible off (op_numBytes op) → feasible v → clear off l → ¬ may_collide off l →
  ¬ collides v op off l.
Proof.
  unfold clear, may_collide. intros Hin Hv Hc Hno (b & a & [Hb|(k & Hk & ->)] & Hr & Ho).
  - destruct (as_constant off) as [o|] eqn:Eo; [|naive_solver]. apply (Hc b a Hb). split; [done|].
    by rewrite (eval_constant v off o Eo) in Ho.
  - apply Hno. left. eauto.
Qed.

Lemma settled_safe m v :
  operation_ok feasible op → feasible v → settled m → ¬ unsettled m → ¬ races v st op m.
Proof.
  intros [_ Hacc] Hv Hs Hn (obj & oa & Hobj & Hoa & Hr). assert (accessed_in m oa) as Ha by (by exists obj).
  destruct (Hs oa Ha) as (H1 & H2 & Hcl). destruct Hr as [?|[?|(off & l & Hoff & Hl & Hco)]]; [congruence..|].
  destruct Hacc as [?|(_ & off' & Hoff' & Hin)]; [congruence|].
  rewrite Hoff in Hoff'. injection Hoff' as <-. apply (clear_safe off l v Hin Hv); auto. intros Hm. apply Hn. by exists oa, off, l.
Qed.

(** The body of the loop on one epoch. *)
Lemma any_instruction_total oa : object_ok st oa → ∃ i, any_instruction st oa = Ok i.
Proof.
  intros Hok. unfold any_instruction. destruct (oa_isAllocOrFree oa) eqn:Ea.
  - unfold oa_isAllocOrFree, getAllocFreeInstruction in *. destruct (allocFreeInstruction oa); [|done]. cbn. eauto.
  - destruct (object_ok_list st oa Hok Ea) as (l & Hl & [_ _ Hs]). apply (object_list_ok _ _ _ Ea) in Hl.
    unfold getConcreteAccesses, getSymbolicAccesses. rewrite Hl. cbn.
    destruct (concrete l) as [|[k a] c]; [|eauto]. destruct (symbolic l) as [|[k a] c]; [naive_solver | eauto].
Qed.

(** The two cases of an offset, on the list of the object. *)
Lemma fast_list_spec tid off safe l :
  isReadOrWrite (op_type op) = true → in_bounds feasible off (op_numBytes op) → list_ok l →
  (∃ v, feasible v) →
  ∃ f, match as_constant off with
       | Some o => fast_concrete tid op o safe (concrete l) (symbolic l)
       | None => fast_symbolic tid op off safe (concrete l) (symbolic l)
       end = Ok f ∧
  match f with
  | Return r => (∃ i, r = race_with tid i) ∧ ∀ v, feasible v → collides v op off l
  | Next safe' => clear off l ∧
      if (safe' : bool) then safe = true ∧ ¬ may_collide off l else safe = false ∨ may_collide off l
  end.
Proof.
  intros Ht (Hw & Hn & Hend) [Hc Hs _] [v0 Hv0]. unfold clear, may_collide.
  destruct (as_constant off) as [o|] eqn:Eo.
  - pose proof (Hend v0 Hv0) as Hend0. pose proof (eval_range v0 off) as Hr0.
    rewrite (eval_constant v0 off o Eo) in Hend0, Hr0.
    destruct (fast_concrete_spec tid op o safe (concrete l) (symbolic l)) as (f & -> & Hf); [done | lia..|].
    exists f. split; [done|]. destruct f as [safe'|r].
    + destruct Hf as [-> Hf]. split; [done|]. destruct (_ && _) eqn:Hall.
      * rewrite andb_true_iff, negb_true_iff, <-not_true_iff_false, existsb_racing in Hall. naive_solver.
      * rewrite andb_false_iff, negb_false_iff, existsb_racing in Hall. naive_solver.
    + destruct Hf as (k & a & Hin & [Hr Ho] & ->). split; [eauto|]. intros v Hv. exists k, a.
      rewrite (eval_constant v off o Eo). split_and!; [by left | done..].
  - destruct (fast_symbolic_spec tid off safe (concrete l) (symbolic l) Hs Ht) as (f & -> & Hf).
    exists f. split; [done|]. destruct f as [safe'|r].
    { destruct Hf as [Hno Hsafe]. split; [done|]. destruct safe'; [destruct Hsafe; split; [done | tauto] | tauto]. }
    destruct Hf as (a & Hin & Hr & ->). split; [eauto|]. intros v Hv. exists (eval v off), a.
    split_and!; [right; by exists off | done |]. destruct (mo_entry _ Hs _ Hin) as [Hna _]. simpl in Hna.
    unfold overlap. lia.
Qed.

(** The body of the loop on one epoch. *)
Lemma fast_body_spec tid safe m :
  operation_ok feasible op → epoch_ok feasible st m → (∃ v, feasible v) →
  ∃ f, fast_body st op tid safe m = Ok f ∧
  match f with
  | Return r => rr_isRace r = true ∧ rr_racingThread r = tid ∧ rr_canBeSafe r = false ∧
      ∀ v, feasible v → races v st op m
  | Next safe' => settled m ∧
      if (safe' : bool) then safe = true ∧ ¬ unsettled m else safe = false ∨ unsettled m
  end.
Proof.
  intros [[obj Hobj] Hacc] Hm Hfe. unfold fast_body. rewrite Hobj. cbn [nonnull]. rewrite bind_Ok_l.
  unfold getMemoryAccessesOfThread. destruct (m !! mo_address obj) as [oa|] eqn:Hoa.
  2:{ eexists. split; [done|]. assert (∀ oa, ¬ accessed_in m oa) as Hno.
      { intros oa (obj' & ? & ?). by simplify_eq. }
      split; [intros oa Ha; by destruct (Hno oa)|]. destruct safe; [|by left]. split; [done|].
      intros (oa & _ & _ & Ha & _). by destruct (Hno oa). }
  destruct (Hm _ _ Hoa) as [Hok _].
  assert (accessed_in m oa) as Hacs by (by exists obj).
  assert (∀ oa', accessed_in m oa' → oa' = oa) as Huniq by (intros oa' (? & ? & ?); by simplify_eq).
  destruct (isAllocOrFree (op_type op) || oa_isAllocOrFree oa) eqn:Hal.
  { destruct (any_instruction_total oa Hok) as [i ->]. rewrite bind_Ok_l. eexists. split; [done|].
    split_and!; [done..|]. intros v _. exists obj, oa. split_and!; [done..|].
    apply orb_true_iff in Hal as [?|?]; auto. }
  apply orb_false_iff in Hal as [Hal1 Hal2].
  destruct Hacc as [?|(Ht & off & Hoff & Hin)]; [congruence|]. rewrite Hoff. cbn [nonnull]. rewrite bind_Ok_l.
  destruct (object_ok_list st oa Hok Hal2) as (l & Hl & Hlok).
  unfold getConcreteAccesses, getSymbolicAccesses. rewrite (proj2 (object_list_ok st oa l Hal2) Hl).
  cbn [fmap res_fmap]. rewrite !bind_Ok_l.
  destruct (fast_list_spec tid off safe l Ht Hin Hlok Hfe) as (f & -> & Hf). exists f. split; [done|].
  destruct f as [safe'|r].
  - destruct Hf as [Hcl Hsafe]. split.
    + intros oa' ->%Huniq. split_and!; [done..|]. intros off' l' Hoff' Hl'.
      rewrite Hoff in Hoff'. injection Hoff' as <-. by rewrite (lists_unique _ _ _ _ Hl' Hl).
    + destruct safe'; [|destruct Hsafe; [by left | right; by exists oa, off, l]].
      destruct Hsafe as [-> Hn]. split; [done|]. intros Hu. apply Hn. destruct Hu as (oa' & off' & l' & ->%Huniq & Hoff' & Hl' & Hu). rewrite Hoff in Hoff'. injection Hoff' as <-.
      by rewrite (lists_unique _ _ _ _ Hl' Hl) in Hu.
  - destruct Hf as [[i ->] Hco]. split_and!; [done..|]. intros v Hv. exists obj, oa. split_and!; [done..|].
    right. right. exists off, l. auto.
Qed.
End verdict.
