(* ===== verification/RaceDecide.v ===== *)
(** * [isDataRace] decides races

    Both paths together, over the configuration of a node: the answer is a
    race exactly if an access of an open epoch of another thread collides
    with the operation under some feasible assignment. *)

From stdpp Require Import base tactics list gmap numbers sorting relations.
From S2P Require Import Prelude StdMap ThreadId Event Comb CombEnum CombProofs Cone Alloc Causality.
From S2P Require Import AllocProofs HeapExt Order Walks ObjectAccesses AccessProofs SharedProofs.
From S2P Require Import RaceDetection RaceWalk RaceCheck.

(** ** The check with the solver

    The candidates that [SolverPath] collects after [FastPath] has given up,
    the meaning of the query it builds from them, and what both paths
    together decide. *)

Local Open Scope Z_scope.

Section solver.
Context {PL : Payload} {EL : ExprLib} {ES : ExprSem}.
Context (feasible : assignment → Prop) (st : store) (op : MemoryOperation).
Implicit Types (oa : ObjectAccesses) (l : OperationList) (v : assignment) (m : EpochMemoryAccesses).
Abbreviation candidate := (thread_id * expr * Z * option KInstruction)%type.
Implicit Types (c : candidate) (cs : list candidate).

(** ** [FastPath] on several epochs *)

Lemma fast_loop_spec os : ∀ safe,
  operation_ok feasible op → (∃ v, feasible v) → (∀ t m, (t, m) ∈ os → epoch_ok feasible st m) →
  ∃ f, body_loop (λ z a, fast_body st op a.1 z a.2) safe os = Ok f ∧
  match f with
  | Return r => ∃ m, (rr_racingThread r, m) ∈ os ∧ rr_isRace r = true ∧ rr_canBeSafe r = false ∧
      ∀ v, feasible v → races v st op m
  | Next safe' => (∀ t m, (t, m) ∈ os → settled st op m) ∧
      if (safe' : bool) then safe = true ∧ ∀ t m, (t, m) ∈ os → ¬ unsettled st op m
      else safe = false ∨ ∃ t m, (t, m) ∈ os ∧ unsettled st op m
  end.
Proof.
  induction os as [|[t m] os IH]; intros safe Hop Hfe Hok.
  { eexists. split; [done|]. split; [by intros t m ?%elem_of_nil|]. destruct safe; [|by left].
    split; [done | by intros t m ?%elem_of_nil]. }
  cbn [body_loop fst snd].
  destruct (fast_body_spec feasible st op t safe m Hop) as (f & -> & Hf); [apply (Hok t m); by left | done |].
  rewrite bind_Ok_l. destruct f as [safe1|r].
  2:{ eexists. split; [done|]. destruct Hf as (H1 & <- & H2 & H3). exists m. split_and!; [by left | done..]. }
  destruct Hf as [Hs Hf]. destruct (IH safe1 Hop Hfe) as (f & -> & Hf'); [intros; apply (Hok t0 m0); by right|].
  exists f. split; [done|]. destruct f as [safe'|r].
  - destruct Hf' as [Hs' Hf']. split.
    + intros t' m' [[= -> ->]|Hin]%elem_of_cons; eauto.
    + destruct safe', safe1; [|naive_solver| |].
      * destruct Hf' as [_ Hf'], Hf as [-> Hf]. split; [done|].
        intros t' m' [[= -> ->]|Hin]%elem_of_cons; eauto.
      * destruct Hf' as [|(t' & m' & Hin & Hu)]; [done|]. right. exists t', m'. split; [by right | done].
      * destruct Hf as [->|Hf]; [by left|]. right. exists t, m. split; [by left | done].
  - destruct Hf' as (m' & Hin & Hrest). exists m'. split; [by right | done].
Qed.

(** ** Candidates *)

Lemma exists_cons {K} (P : K → Access → Prop) k0 a0 (s : list (K * Access)) :
  (∃ k a, (k, a) ∈ (k0, a0) :: s ∧ P k a) ↔ P k0 a0 ∨ ∃ k a, (k, a) ∈ s ∧ P k a.
Proof.
  split.
  - intros (k & a & [[= -> ->]|Hin]%elem_of_cons & HP); [by left | right; eauto].
  - intros [HP|(k & a & Hin & HP)]; [exists k0, a0 | exists k, a]; (split; [|done]); [by left | by right].
Qed.

Lemma symbolic_candidates_spec tid off asserted (s : mmap) :
  (asserted = true → ∀ a, (off, a) ∈ s → racing op a = false) →
  ∃ r, symbolic_candidates tid op off asserted s = Ok r ∧
    ∀ c, c ∈ r ↔ ∃ k a, (k, a) ∈ s ∧ racing op a = true ∧ c = candidate_of tid k a.
Proof.
  induction s as [|[k a] s IH]; intros Hno; simpl.
  { exists []. split; [done|]. intros c. split; [by intros ?%elem_of_nil|]. by intros (k & a & ?%elem_of_nil & _). }
  destruct IH as (r & -> & Hr); [intros E a' Ha'; apply Hno; [done | by right]|].
  destruct (racing op a) eqn:Hra.
  - assert (negb asserted || negb (expr_eqb off k) = true) as ->.
    { destruct asserted; [|done]. simpl. apply negb_true_iff, not_true_iff_false. intros ->%expr_eqb_eq.
      by rewrite (Hno eq_refl a (list_elem_of_here _ _)) in Hra. }
    cbn [cassert]. rewrite !bind_Ok_l. eexists. split; [done|]. intros c.
    rewrite elem_of_cons, Hr, exists_cons, Hra. tauto.
  - eexists. split; [done|]. intros c. rewrite Hr, exists_cons, Hra. intuition congruence.
Qed.

Lemma concrete_candidates_spec tid (m : cmap) c :
  c ∈ concrete_candidates tid op m ↔
  ∃ k a, (k, a) ∈ m ∧ racing op a = true ∧ c = candidate_of tid (createPointer k) a.
Proof.
  induction m as [|[k a] m IH]; simpl.
  { split; [by intros ?%elem_of_nil|]. by intros (k & a & ?%elem_of_nil & _). }
  destruct (racing op a) eqn:Hra; rewrite ?elem_of_cons, IH, exists_cons, Hra; [tauto | intuition congruence].
Qed.

Definition cand_thread c : thread_id := let '(t, _, _, _) := c in t.

(** The candidate overlaps the operation at [off]. *)
Definition cand_collides (off : expr) v c : Prop :=
  let '(_, k, n, _) := c in overlap (eval v off) (op_numBytes op) (eval v k) n.

#[export] Instance cand_collides_dec off v c : Decision (cand_collides off v c).
Proof. destruct c as [[[t k] n] i]. unfold cand_collides, overlap. apply _. Defined.

Definition cand_bounds c : Prop := let '(_, k, n, _) := c in in_bounds feasible k n.

(** The candidates of one settled epoch are the accesses that may race. *)
Record candidates_of tid m cs : Prop := {
  cs_races off v : feasible v → op_offset op = Some off →
    races v st op m ↔ ∃ c, c ∈ cs ∧ cand_collides off v c;
  cs_thread c : c ∈ cs → cand_thread c = tid ∧ cand_bounds c;
  cs_some : unsettled st op m → cs ≠ [];
}.

Lemma concrete_bounds (m : cmap) k a :
  cm_ok m → (k, a) ∈ m → in_bounds feasible (createPointer k) (numBytes a) ∧
  ∀ v, eval v (createPointer k) = k.
Proof.
  intros Hok Hin. destruct (cm_ok_entry _ _ Hok Hin) as [H0 Hn Hend _]. unfold ends in Hend. simpl in *.
  assert (∀ v, eval v (createPointer k) = k) as He by (intros v; apply eval_pointer; lia).
  split; [|done]. unfold in_bounds. rewrite width_pointer. split_and!; [done | done|].
  intros v _. rewrite He. lia.
Qed.

(** What the candidates of a list say about collisions with it. *)
Lemma candidates_collide tid off l cs v :
  list_ok l → clear op off l →
  (∀ c, c ∈ cs ↔ (∃ k a, (k, a) ∈ symbolic l ∧ racing op a = true ∧ c = candidate_of tid k a) ∨
     as_constant off = None ∧
     ∃ k a, (k, a) ∈ concrete l ∧ racing op a = true ∧ c = candidate_of tid (createPointer k) a) →
  collides v op off l ↔ ∃ c, c ∈ cs ∧ cand_collides off v c.
Proof.
  intros [Hc _ _] Hcl Hcs. unfold collides, tracked_at, clear in *. split.
  - intros (b & a & [Hin|(k & Hin & ->)] & Hr & Ho).
    + destruct (as_constant off) as [o|] eqn:Eo.
      { destruct (Hcl b a Hin). split; [done|]. by rewrite (eval_constant v off o Eo) in Ho. }
      exists (candidate_of tid (createPointer b) a). split; [apply Hcs; right; eauto 6|].
      simpl. by rewrite (proj2 (concrete_bounds _ _ _ Hc Hin)).
    + exists (candidate_of tid k a). split; [apply Hcs; left; eauto | done].
  - intros (c & [(k & a & Hin & Hr & ->)|(_ & k & a & Hin & Hr & ->)]%Hcs & Ho); simpl in Ho.
    + exists (eval v k), a. split_and!; [right; eauto | done..].
    + rewrite (proj2 (concrete_bounds _ _ _ Hc Hin)) in Ho. exists k, a. split_and!; [by left | done..].
Qed.

(** The candidates collected from the list of one object. *)
Lemma list_candidates_spec tid found off l :
  clear op off l →
  ∃ cs, (match as_constant off with
      | Some _ => r ← symbolic_candidates tid op off false (symbolic l); Ok (Next (found ++ r))
      | None => r ← symbolic_candidates tid op off true (symbolic l);
          Ok (Next (found ++ concrete_candidates tid op (concrete l) ++ r))
      end : res (flow _ Empty_set)) = Ok (Next (found ++ cs)) ∧
    ∀ c, c ∈ cs ↔ (∃ k a, (k, a) ∈ symbolic l ∧ racing op a = true ∧ c = candidate_of tid k a) ∨
      as_constant off = None ∧
      ∃ k a, (k, a) ∈ concrete l ∧ racing op a = true ∧ c = candidate_of tid (createPointer k) a.
Proof.
  unfold clear. intros Hcl. destruct (as_constant off) as [o|] eqn:Eo.
  - destruct (symbolic_candidates_spec tid off false (symbolic l)) as (r & -> & Hr); [done|].
    exists r. rewrite bind_Ok_l. split; [done|]. intros c. rewrite Hr. naive_solver.
  - destruct (symbolic_candidates_spec tid off true (symbolic l)) as (r & -> & Hr); [done|].
    exists (concrete_candidates tid op (concrete l) ++ r). rewrite bind_Ok_l. split; [done|].
    intros c. rewrite elem_of_app, Hr, concrete_candidates_spec. tauto.
Qed.

(** The body of the loop on one epoch that [FastPath] has left open. *)
Lemma solver_body_spec tid found m :
  operation_ok feasible op → epoch_ok feasible st m → settled st op m →
  ∃ cs, solver_body st op tid found m = Ok (Next (found ++ cs)) ∧ candidates_of tid m cs.
Proof.
  intros [[obj Hobj] Hacc] Hm Hs. unfold solver_body. rewrite Hobj. cbn [nonnull]. rewrite bind_Ok_l.
  unfold getMemoryAccessesOfThread. destruct (m !! mo_address obj) as [oa|] eqn:Hoa.
  2:{ exists []. rewrite app_nil_r. split; [done|]. split.
      - intros off v _ _. split; [|by intros (c & ?%elem_of_nil & _)]. intros (obj' & oa & ? & ? & _). by simplify_eq.
      - by intros c ?%elem_of_nil.
      - intros (oa & _ & _ & (obj' & ? & ?) & _). by simplify_eq. }
  assert (accessed_in op m oa) as Hacs by (by exists obj).
  assert (∀ oa', accessed_in op m oa' → oa' = oa) as Huniq by (intros oa' (? & ? & ?); by simplify_eq).
  destruct (Hs oa Hacs) as (Hal1 & Hal2 & Hcl). destruct (Hm _ _ Hoa) as [Hok Hbounds].
  destruct Hacc as [?|(Ht & off & Hoff & Hin)]; [congruence|].
  destruct (object_ok_list st oa Hok Hal2) as (l & Hl & Hlok). specialize (Hcl off l Hoff Hl).
  rewrite Hal2, Hoff. cbn [negb cassert nonnull]. rewrite !bind_Ok_l.
  unfold getConcreteAccesses, getSymbolicAccesses. rewrite (proj2 (object_list_ok st oa l Hal2) Hl).
  cbn [fmap res_fmap]. rewrite !bind_Ok_l.
  destruct (list_candidates_spec tid found off l Hcl) as (cs & Hcs & Helem).
  exists cs. split; [by destruct (as_constant off)|].
  assert (∀ off' l', op_offset op = Some off' → lists st oa l' → off' = off ∧ l' = l) as Hsame.
  { intros off' l' Hoff' Hl'. split; [congruence | by eapply lists_unique]. }
  split.
  - intros off' v Hv Hoff'. assert (off' = off) as -> by congruence.
    rewrite <-(candidates_collide tid off l cs v Hlok Hcl Helem). split.
    + intros (obj' & oa' & Hobj' & Hoa' & Hr). simplify_eq.
      destruct Hr as [?|[?|(off'' & l'' & Hx & Hy & Hco)]]; [congruence..|]. by destruct (Hsame _ _ Hx Hy) as [-> ->].
    + intros Hco. exists obj, oa. split_and!; [done..|]. right. right. eauto.
  - intros c [(k & a & Hk & _ & ->)|(_ & k & a & Hk & _ & ->)]%Helem; (split; [done|]); simpl.
    + by apply (Hbounds l Hl).
    + by apply (concrete_bounds _ _ _ (lo_concrete _ Hlok)).
  - intros (oa' & off' & l' & ->%Huniq & Hoff' & Hl' & Hmay). destruct (Hsame _ _ Hoff' Hl') as [-> ->].
    assert (∃ c, c ∈ cs) as [c Hc]; [|by intros ->; apply elem_of_nil in Hc].
    destruct Hmay as [(k & a & Hk & Hr)|(Hn & k & a & Hk & Hr)].
    + exists (candidate_of tid k a). apply Helem. left. eauto.
    + exists (candidate_of tid (createPointer k) a). apply Helem. right. eauto 6.
Qed.

(** All epochs. *)
Record all_candidates (os : list (thread_id * EpochMemoryAccesses)) cs : Prop := {
  ac_races off v : feasible v → op_offset op = Some off →
    (∃ t m, (t, m) ∈ os ∧ races v st op m) ↔ ∃ c, c ∈ cs ∧ cand_collides off v c;
  ac_from off v c : feasible v → op_offset op = Some off → c ∈ cs → cand_collides off v c →
    ∃ m, (cand_thread c, m) ∈ os ∧ races v st op m;
  ac_bounds c : c ∈ cs → cand_bounds c;
  ac_some : (∃ t m, (t, m) ∈ os ∧ unsettled st op m) → cs ≠ [];
}.

Lemma solver_loop_spec os : ∀ found,
  operation_ok feasible op → (∀ t m, (t, m) ∈ os → epoch_ok feasible st m ∧ settled st op m) →
  ∃ cs, body_loop (λ z a, solver_body st op a.1 z a.2) found os = Ok (Next (found ++ cs)) ∧
    all_candidates os cs.
Proof.
  induction os as [|[t m] os IH]; intros found Hop Hos.
  { exists []. rewrite app_nil_r. split; [done|]. split.
    - intros off v _ _. split; [intros (t & m & ?%elem_of_nil & _) | intros (c & ?%elem_of_nil & _)]; done.
    - by intros off v c _ _ ?%elem_of_nil.
    - by intros c ?%elem_of_nil.
    - by intros (t & m & ?%elem_of_nil & _). }
  cbn [body_loop fst snd]. destruct (Hos t m) as [Hm Hs]; [by left|].
  destruct (solver_body_spec t found m Hop Hm Hs) as (cs1 & -> & [H1 H2 H3]). rewrite bind_Ok_l.
  destruct (IH (found ++ cs1) Hop) as (cs2 & -> & [H4 H5 H6 H7]); [intros t' m' Hin; apply (Hos t' m'); by right|].
  exists (cs1 ++ cs2). rewrite app_assoc. split; [done|]. split.
  - intros off v Hv Hoff. setoid_rewrite elem_of_cons. setoid_rewrite elem_of_app. split.
    + intros (t' & m' & [[= -> ->]|Hin] & Hr).
      * apply (H1 off v Hv Hoff) in Hr as (c & ? & ?). eauto.
      * destruct (proj1 (H4 off v Hv Hoff)) as (c & ? & ?); eauto.
    + intros (c & [Hc|Hc] & Hco).
      * exists t, m. split; [by left|]. apply (H1 off v Hv Hoff). eauto.
      * destruct (proj2 (H4 off v Hv Hoff)) as (t' & m' & ? & ?); eauto.
  - intros off v c Hv Hoff [Hc|Hc]%elem_of_app Hco.
    + destruct (H2 c Hc) as [-> _]. exists m. split; [by left|]. apply (H1 off v Hv Hoff). eauto.
    + destruct (H5 off v c Hv Hoff Hc Hco) as (m' & ? & ?). exists m'. split; [by right | done].
  - intros c [Hc|Hc]%elem_of_app; [by apply H2 | by apply H6].
  - intros (t' & m' & [[= -> ->]|Hin]%elem_of_cons & Hu) [E1 E2]%app_nil; [by apply H3 | apply H7; eauto].
Qed.

(** ** The query *)

Lemma query_width off c : width (not_overlapping op off c) = 1.
Proof.
  destruct c as [[[t k] n] i]. simpl. apply width_or; apply width_ult.
Qed.

(** The last bytes, as the query computes them. *)
Lemma last_byte v k n :
  width k ≤ 64 → 0 < n → eval v k + n < word_size →
  eval v (AddExpr (createZExtToPointerWidth k) (createPointer (wsub n 1))) = eval v k + n - 1 ∧
  width (AddExpr (createZExtToPointerWidth k) (createPointer (wsub n 1))) = 64.
Proof.
  intros Hw Hn Hend. pose proof (eval_range v k) as [H0 _].
  split; [|apply width_add; [apply width_zext | apply width_pointer]].
  rewrite eval_add by (apply width_zext || apply width_pointer).
  rewrite eval_zext by done. rewrite wsub_small by lia. rewrite eval_pointer by lia.
  rewrite wadd_small; lia.
Qed.

Lemma query_one off v c :
  feasible v → in_bounds feasible off (op_numBytes op) → cand_bounds c →
  eval v (not_overlapping op off c) ≠ 0 ↔ ¬ cand_collides off v c.
Proof.
  destruct c as [[[t k] n] i]. intros Hv (Hw & Hn & Hend) (Hwk & Hnk & Hendk).
  specialize (Hend v Hv). specialize (Hendk v Hv). simpl.
  destruct (last_byte v off (op_numBytes op)) as [E1 W1]; [done..|].
  destruct (last_byte v k n) as [E2 W2]; [done..|].
  rewrite eval_or by apply width_ult. rewrite !eval_ult by (done || apply width_zext).
  rewrite E1, E2, !eval_zext by done. unfold overlap.
  destruct (Z.ltb_spec (eval v off + op_numBytes op - 1) (eval v k));
    destruct (Z.ltb_spec (eval v k + n - 1) (eval v off));
    rewrite ?Z.lor_0_r, ?Z.lor_0_l, ?Z.lor_diag; split; intros; lia.
Qed.

Lemma safe_width off cs : width (is_safe_for_all op off cs) = 1.
Proof.
  unfold is_safe_for_all. assert (width constant_true = 1) as Hw by apply width_true. revert Hw.
  generalize constant_true. induction cs as [|c cs IH]; intros e Hw; simpl; [done|].
  apply IH, width_and; [done | apply query_width].
Qed.

Lemma query_all off v cs :
  feasible v → in_bounds feasible off (op_numBytes op) → (∀ c, c ∈ cs → cand_bounds c) →
  eval v (is_safe_for_all op off cs) ≠ 0 ↔ ∀ c, c ∈ cs → ¬ cand_collides off v c.
Proof.
  intros Hv Hin. unfold is_safe_for_all. induction cs as [|c cs IH] using rev_ind; intros Hb.
  { simpl. rewrite eval_true. split; [by intros _ c ?%elem_of_nil | lia]. }
  pose proof (safe_width off cs) as Hw. unfold is_safe_for_all in Hw.
  rewrite foldl_app. simpl. assert (∀ c, c ∈ cs → cand_bounds c) as Hb' by (intros; apply Hb; set_solver).
  specialize (IH Hb') as Hev. rewrite eval_and by (done || apply query_width).
  pose proof (query_one off v c Hv Hin (Hb c ltac:(set_solver))) as Hc.
  assert (∀ e, width e = 1 → eval v e = 0 ∨ eval v e = 1) as Hbit.
  { intros e He. pose proof (eval_range v e) as Hr. rewrite He in Hr. lia. }
  transitivity (eval v (foldl (λ q c, AndExpr q (not_overlapping op off c)) constant_true cs) ≠ 0 ∧
    eval v (not_overlapping op off c) ≠ 0).
  { destruct (Hbit _ Hw) as [->| ->], (Hbit _ (query_width off c)) as [->| ->];
      rewrite ?Z.land_0_r, ?Z.land_0_l, ?Z.land_diag; lia. }
  rewrite Hev, Hc. setoid_rewrite elem_of_app. setoid_rewrite list_elem_of_singleton. naive_solver.
Qed.

(** ** The answer *)

Definition answers (sv : SolverInterface) : Prop := ∀ e, width e = 1 →
  is_Some (mustBeTrue sv e) ∧ is_Some (mayBeTrue sv e) ∧ is_Some (mayBeFalse sv e).

Lemma racing_candidate_spec sv off cs :
  match racing_candidate sv op off cs with
  | Some c => c ∈ cs ∧ mayBeFalse sv (not_overlapping op off c) = Some true
  | None => ∀ c, c ∈ cs → mayBeFalse sv (not_overlapping op off c) ≠ Some true
  end.
Proof.
  induction cs as [|c cs IH]; simpl; [by intros c ?%elem_of_nil|].
  destruct (mayBeFalse sv (not_overlapping op off c)) as [[]|] eqn:E; [split; [by left | done]|..];
    (destruct (racing_candidate sv op off cs) as [c'|]; [destruct IH; split; [by right | done]|]);
    intros c' [->|Hc']%elem_of_cons; (congruence || auto).
Qed.

(** What the detector promises of a result for the candidates. *)
Record decides off cs (r : RaceDetectionResult) : Prop := {
  dc_race : rr_isRace r = true ↔ ∃ v c, feasible v ∧ c ∈ cs ∧ cand_collides off v c;
  dc_thread : rr_isRace r = true → ∃ v c, feasible v ∧ c ∈ cs ∧ cand_collides off v c ∧
    rr_racingThread r = cand_thread c;
  dc_safe : rr_isRace r = true →
    rr_canBeSafe r = true ↔ ∃ v, feasible v ∧ ∀ c, c ∈ cs → ¬ cand_collides off v c;
}.

Lemma solver_result_spec sv off cs :
  solver_sound feasible sv → in_bounds feasible off (op_numBytes op) → (∀ c, c ∈ cs → cand_bounds c) →
  match solver_result sv op off cs with
  | Some r => decides off cs r
  | None => ¬ answers sv
  end.
Proof.
  intros Hsv Hin Hb. unfold solver_result.
  assert (∀ v, feasible v → eval v (is_safe_for_all op off cs) ≠ 0 ↔ ∀ c, c ∈ cs → ¬ cand_collides off v c)
    as Hall by (intros v Hv; by apply query_all).
  destruct (mustBeTrue sv (is_safe_for_all op off cs)) as [[]|] eqn:E1.
  - apply (must_true _ _ Hsv _ _ (safe_width off cs)) in E1. split; [|done..]. split; [done|].
    intros (v & c & Hv & Hc & Hco). by destruct (proj1 (Hall v Hv) (E1 v Hv) c Hc).
  - apply (must_true _ _ Hsv _ _ (safe_width off cs)) in E1 as (v0 & Hv0 & E1).
    pose proof (racing_candidate_spec sv off cs) as Hrc.
    destruct (mayBeTrue sv (is_safe_for_all op off cs)) as [b|] eqn:E2;
      [|intros Hans; destruct (Hans (is_safe_for_all op off cs) (safe_width off cs)) as (_ & [? ?] & _); congruence].
    apply (may_true _ _ Hsv _ _ (safe_width off cs)) in E2.
    destruct (racing_candidate sv op off cs) as [c|] eqn:Ec.
    + destruct Hrc as [Hc Hmay]. apply (may_false _ _ Hsv _ _ (query_width off c)) in Hmay as (v1 & Hv1 & Hz).
      assert (∃ v c', feasible v ∧ c' ∈ cs ∧ cand_collides off v c' ∧ cand_thread c = cand_thread c') as Hex.
      { exists v1, c. split_and!; [done..| |done]. pose proof (query_one off v1 c Hv1 Hin (Hb c Hc)) as Hq.
        rewrite Hz in Hq. destruct (decide (cand_collides off v1 c)) as [H|H]; [done|]. by destruct (proj2 Hq H). }
      destruct c as [[[t k] n] i]. split; simpl.
      * split; [|done]. intros _. destruct Hex as (v & c' & ? & ? & ? & _). eauto.
      * intros _. destruct Hex as (v & c' & ? & ? & ? & ?). eauto 6.
      * intros _. destruct b; (split; [|done || idtac]).
        -- intros _. destruct E2 as (v & Hv & Hq). exists v. split; [done|]. by apply Hall.
        -- done.
        -- intros (v & Hv & Hno). by destruct (proj2 (Hall v Hv) Hno (E2 v Hv)).
    + intros Hans.
      assert (∀ c, c ∈ cs → ¬ cand_collides off v0 c) as Hno; [|by destruct (proj2 (Hall v0 Hv0) Hno)].
      intros c Hc. apply (query_one off v0 c Hv0 Hin (Hb c Hc)).
      destruct (Hans (not_overlapping op off c) (query_width off c)) as (_ & _ & [b' Hb']). pose proof (Hrc c Hc) as Hne.
      destruct b'; [congruence|]. by apply (may_false _ _ Hsv _ _ (query_width off c) Hb').
  - intros Hans. destruct (Hans (is_safe_for_all op off cs) (safe_width off cs)) as ([? ?] & _). congruence.
Qed.
End solver.

Local Close Scope Z_scope.

Section decide.
Context {PL : Payload} {EL : ExprLib} {ES : ExprSem}.
Context (h : heap) (C : eid → Prop) (Hwf : wf_heap h) (HC : conflict_free h C).
Context (heads : smap thread_id eid) (Hheads : ∀ t p, (t, p) ∈ heads → C p).
Context (feasible : assignment → Prop) (Hfe : ∃ v, feasible v).
Implicit Types (st : store) (op : MemoryOperation) (d : DataRaceDetection) (v : assignment) (sv : SolverInterface).

(** What the detector maintains about its epochs. *)
Record detector_inv st d : Prop := {
  di_order : in_order h heads d;
  di_epochs t x m : (x, m) ∈ epochs_of d t → epoch_ok feasible st m;
}.

(** The accesses of other threads that do not happen before the current event
    [cur] of the operating thread. *)
Definition unordered op cur d t (m : EpochMemoryAccesses) : Prop :=
  concurrent_with h (op_tid op) cur d heads t m.

(** What a result says about the races of the operation. *)
Record race_verdict st op cur d (r : RaceDetectionResult) : Prop := {
  rv_race : rr_isRace r = true ↔ ∃ t m v, unordered op cur d t m ∧ feasible v ∧ races v st op m;
  rv_thread : rr_isRace r = true → ∃ m v, unordered op cur d (rr_racingThread r) m ∧ feasible v ∧ races v st op m;
  rv_safe : rr_isRace r = true →
    rr_canBeSafe r = true ↔ ∃ v, feasible v ∧ ∀ t m, unordered op cur d t m → ¬ races v st op m;
}.

Lemma same_epochs_order d d' : (∀ t, epochs_of d' t = epochs_of d t) → in_order h heads d → in_order h heads d'.
Proof. intros He Ho t p Hp. rewrite He. by apply Ho. Qed.

Lemma same_epochs_unordered d d' op cur t m :
  (∀ t, epochs_of d' t = epochs_of d t) → unordered op cur d' t m ↔ unordered op cur d t m.
Proof. intros He. unfold unordered, concurrent_with. by rewrite He. Qed.

Lemma verdict_epochs st op cur d d' r :
  (∀ t, epochs_of d' t = epochs_of d t) → race_verdict st op cur d' r → race_verdict st op cur d r.
Proof.
  intros He [H1 H2 H3]. assert (∀ t m, unordered op cur d' t m ↔ unordered op cur d t m) as Hiff.
  { intros t m. by apply same_epochs_unordered. }
  split; [setoid_rewrite <-Hiff; apply H1 | setoid_rewrite <-Hiff; apply H2 | setoid_rewrite <-Hiff; apply H3].
Qed.

(** [FastPath]: the verdict, or what is left for the solver. *)
Lemma fast_path_spec st d op cur :
  smap_find (op_tid op) heads = Some cur → C cur → detector_inv st d → operation_ok feasible op →
  ∃ d' res, FastPath h heads st d op = Ok (d', res) ∧ dr_stats d' = dr_stats d ∧
    (∀ t, epochs_of d' t = epochs_of d t) ∧
  match res with
  | Some r => race_verdict st op cur d r
  | None => (∀ t m, unordered op cur d t m → settled st op m) ∧
      ∃ t m, unordered op cur d t m ∧ unsettled st op m
  end.
Proof.
  intros Hself Hcur [Hord Hep] Hop. unfold FastPath, current_event. rewrite Hself, bind_Ok_l.
  destruct (threads_loop_spec h C Hwf HC heads (op_tid op) cur Hheads Hcur heads d) as (os & Hos & Hrun); [done..|].
  destruct (Hrun _ _ (fast_body st op) true) as (d' & Hst & He & ->).
  destruct (fast_loop_spec feasible st op os true Hop Hfe) as (f & -> & Hf).
  { intros t m (_ & p & x & _ & Hx & _)%Hos. by eapply Hep. }
  rewrite !bind_Ok_l. exists d'. eexists. split_and!; [done..|]. destruct f as [[]|r].
  - destruct Hf as [Hs [_ Hu]].
    assert (∀ t m v, unordered op cur d t m → feasible v → ¬ races v st op m) as Hsafe.
    { intros t m v Hm%Hos Hv. apply (settled_safe feasible); eauto. }
    split; try done. split; [done|]. intros (t & m & v & Hm & Hv & Hr). by destruct (Hsafe t m v Hm Hv).
  - destruct Hf as [Hs [|(t & m & Hm & Hu)]]; [done|]. split.
    + intros t' m' Hm'%Hos. eauto.
    + exists t, m. split; [by apply Hos | done].
  - destruct Hf as (m & Hm%Hos & Hrace & Hsafe & Hr). destruct Hfe as [v0 Hv0]. split.
    + split; [|done]. intros _. exists (rr_racingThread r), m, v0. auto.
    + intros _. exists m, v0. auto.
    + intros _. rewrite Hsafe. split; [done|]. intros (v & Hv & Hno). by destruct (Hno _ _ Hm (Hr v Hv)).
Qed.

(** [SolverPath] after [FastPath] has given up. *)
Lemma solver_path_spec st d op cur sv :
  smap_find (op_tid op) heads = Some cur → C cur → detector_inv st d → operation_ok feasible op →
  solver_sound feasible sv →
  (∀ t m, unordered op cur d t m → settled st op m) →
  (∃ t m, unordered op cur d t m ∧ unsettled st op m) →
  ∃ d' res, SolverPath h heads st sv d op = Ok (d', res) ∧ dr_stats d' = dr_stats d ∧
    (∀ t, epochs_of d' t = epochs_of d t) ∧
  match res with Some r => race_verdict st op cur d r | None => ¬ answers sv end.
Proof.
  intros Hself Hcur [Hord Hep] Hop Hsv Hset Hun. unfold SolverPath, current_event. rewrite Hself, bind_Ok_l.
  destruct (threads_loop_spec h C Hwf HC heads (op_tid op) cur Hheads Hcur heads d) as (os & Hos & Hrun); [done..|].
  destruct (Hrun _ _ (solver_body st op) []) as (d' & Hst & He & ->).
  destruct (solver_loop_spec feasible st op os [] Hop) as (cs & Hloop & [Hra Hfrom Hbd Hsome]).
  { intros t m Hm%Hos. split; [|by eapply Hset]. destruct Hm as (_ & p & x & _ & Hx & _). by eapply Hep. }
  rewrite Hloop, !bind_Ok_l. cbn [app]. destruct cs as [|c0 cs].
  { exfalso. apply Hsome; [|done]. destruct Hun as (t & m & Hm%Hos & Hu). eauto. }
  assert (∃ off, op_offset op = Some off ∧ in_bounds feasible off (op_numBytes op)) as (off & Hoff & Hin).
  { destruct Hun as (t & m & Hm & (oa & off & l & Hacs & Hoff & _)).
    destruct (Hset t m Hm oa Hacs) as (Hal & _). destruct Hop as [_ [?|(_ & off' & ? & ?)]]; [congruence|]. eauto. }
  cbn [cassert]. rewrite Hoff. cbn [nonnull]. rewrite !bind_Ok_l. exists d'. eexists. split_and!; [done..|].
  pose proof (solver_result_spec feasible op sv off (c0 :: cs) Hsv Hin Hbd) as Hres.
  destruct (solver_result sv op off (c0 :: cs)) as [r|]; [|done]. destruct Hres as [H1 H2 H3]. split.
  - rewrite H1. split.
    + intros (v & c & Hv & Hc & Hco). destruct (Hfrom off v c Hv Hoff Hc Hco) as (m & Hm%Hos & Hr). eauto 6.
    + intros (t & m & v & Hm%Hos & Hv & Hr). destruct (proj1 (Hra off v Hv Hoff)) as (c & ? & ?); eauto.
  - intros (v & c & Hv & Hc & Hco & ->)%H2. destruct (Hfrom off v c Hv Hoff Hc Hco) as (m & Hm%Hos & Hr). eauto.
  - intros Hr%H3. rewrite Hr. split; intros (v & Hv & Hno); exists v; (split; [done|]).
    + intros t m Hm%Hos Hrm. destruct (proj1 (Hra off v Hv Hoff)) as (c & Hc & Hco); [eauto|]. by apply (Hno c).
    + intros c Hc Hco. destruct (Hfrom off v c Hv Hoff Hc Hco) as (m & Hm%Hos & Hrm). by apply (Hno (cand_thread c) m).
Qed.

Lemma detector_inv_count st d f : detector_inv st d → detector_inv st (count f d).
Proof. intros [H1 H2]. split; [exact H1 | exact H2]. Qed.

(** [isDataRace]. *)
Lemma is_data_race_spec sv sh d op cur :
  smap_find (op_tid op) heads = Some cur → C cur → detector_inv (sh_store sh) d →
  operation_ok feasible op → solver_sound feasible sv →
  ∃ sh' d' res, isDataRace h heads sv sh d op = Ok (sh', d', res) ∧ sh_store sh' = sh_store sh ∧
    (∀ t, epochs_of d' t = epochs_of d t) ∧
  match res with Some r => race_verdict (sh_store sh) op cur d r | None => ¬ answers sv end.
Proof.
  intros Hself Hcur Hinv Hop Hsv. unfold isDataRace. cbn zeta.
  apply (detector_inv_count _ _ inc_checks) in Hinv. pose proof Hinv as [Hord Hep].
  destruct (fast_path_spec (sh_store sh) (count inc_checks d) op cur) as (d1 & res & Hfast & Hst1 & He1 & Hres); [done..|].
  cbn [sh_store count_global]. rewrite Hfast, bind_Ok_l. destruct res as [r|].
  - do 3 eexists. split_and!; [done | done | |].
    + exact He1.
    + by apply (verdict_epochs _ _ _ d (count inc_checks d)).
  - destruct Hres as [Hset Hun].
    assert (detector_inv (sh_store sh) d1) as Hinv1.
    { split; [by eapply same_epochs_order|]. intros t x m. rewrite He1. apply Hep. }
    destruct (solver_path_spec (sh_store sh) d1 op cur sv) as (d2 & res & Hsol & Hst2 & He2 & Hres); try done.
    { intros t m Hm. apply (Hset t). by apply (same_epochs_unordered (count inc_checks d) d1). }
    { destruct Hun as (t & m & Hm & Hu). exists t, m. split; [|done].
      by apply (same_epochs_unordered (count inc_checks d) d1). }
    rewrite Hsol, bind_Ok_l. do 3 eexists. split_and!; [done | done | |].
    + intros t. etrans; [exact (He2 t) | exact (He1 t)].
    + destruct res as [r|]; [|done]. by apply (verdict_epochs _ _ _ d d1).
Qed.
End decide.
