(* ===== verification/Tracking.v ===== *)
(** * What tracking an access records

    [trackAccess] in terms of bytes: a byte of an object counts as accessed by
    a thread after one of its events exactly if it did so before or the new
    access covers it; the lists of other owners stay as they are. *)

From stdpp Require Import base tactics list gmap numbers sorting.
From S2P Require Import Prelude StdMap ThreadId Event ObjectAccesses AccessProofs SharedProofs.
From S2P Require Import RaceDetection RaceWalk RaceCheck.

(** ** Lists shared between forked states

    The store of access lists counts the owners of every list. Registering an
    access through one owner leaves what the others see unchanged: a list
    with several owners is copied first. *)

Section store.
Context {EL : ExprLib}.
Implicit Types (st : store) (refs R : list N) (p q : N) (op : MemoryOperation).

(** The pointers to the lists are [refs]: every list is there, with as many
    owners as it has pointers. *)
Definition counted st refs : Prop := ∀ p,
  match st !! p with
  | Some s => p ∈ refs ∧ use_count s = count_occ N.eq_dec refs p
  | None => p ∉ refs
  end.

(** The pointers [R] lead to the same lists. *)
Definition keeps st st' R : Prop := ∀ p s, p ∈ R → st !! p = Some s →
  ∃ s', st' !! p = Some s' ∧ the_list s' = the_list s.

Lemma counted_empty : counted ∅ [].
Proof. intros p. rewrite lookup_empty. apply not_elem_of_nil. Qed.

Lemma counted_perm st refs refs' : refs ≡ₚ refs' → counted st refs → counted st refs'.
Proof.
  intros Hp H p. specialize (H p). destruct (st !! p); [|by rewrite <-Hp].
  destruct H as [Hin ->]. split; [by rewrite <-Hp|]. by apply (proj1 (Permutation_count_occ N.eq_dec refs refs')).
Qed.

#[export] Instance counted_proper st : Proper ((≡ₚ) ==> iff) (counted st).
Proof. intros refs refs' Hp. split; by apply counted_perm. Qed.

Lemma counted_lookup st refs p : counted st refs → p ∈ refs → ∃ s, st !! p = Some s.
Proof. intros H Hp. specialize (H p). destruct (st !! p); [eauto | done]. Qed.

Lemma keeps_refl st R : keeps st st R.
Proof. intros p s _ Hs. eauto. Qed.

Lemma keeps_trans st1 st2 st3 R : keeps st1 st2 R → keeps st2 st3 R → keeps st1 st3 R.
Proof.
  intros H1 H2 p s Hp Hs. destruct (H1 p s Hp Hs) as (s2 & Hs2 & <-).
  destruct (H2 p s2 Hp Hs2) as (s3 & Hs3 & <-). eauto.
Qed.

Lemma keeps_sub st st' R R' : (∀ p, p ∈ R' → p ∈ R) → keeps st st' R → keeps st st' R'.
Proof. intros Hs H p s Hp. apply H. auto. Qed.

Lemma next_ptr_bound st p s : st !! p = Some s → (p < next_ptr st)%N.
Proof.
  unfold next_ptr. revert p s. induction st as [|q s st Hq IH] using map_ind; intros p s' Hp.
  { by rewrite lookup_empty in Hp. }
  rewrite map_fold_insert_L; [|intros; lia | done].
  destruct (decide (q = p)) as [->|Hne]; [lia|].
  rewrite lookup_insert_ne in Hp by done. specialize (IH p s' Hp). lia.
Qed.

Lemma next_ptr_free st : st !! next_ptr st = None.
Proof. destruct (st !! next_ptr st) eqn:E; [|done]. apply next_ptr_bound in E. lia. Qed.

(** A new list. *)
Lemma make_shared_spec st R l st' p :
  counted st R → make_shared l st = (st', p) →
  p ∉ R ∧ counted st' (p :: R) ∧ keeps st st' R ∧ st' !! p = Some {| use_count := 1; the_list := l |}.
Proof.
  intros H [= <- <-]. pose proof (next_ptr_free st) as Hf. pose proof (H (next_ptr st)) as Hn. rewrite Hf in Hn.
  split_and!; [done| | |by rewrite lookup_insert_eq].
  - intros q. destruct (decide (q = next_ptr st)) as [->|Hne].
    + rewrite lookup_insert_eq. split; [by left|]. simpl. destruct (N.eq_dec _ _); [|done].
      rewrite (proj1 (count_occ_not_In N.eq_dec R _)); [done|]. by rewrite <-list_elem_of_In.
    + rewrite lookup_insert_ne by done. specialize (H q). simpl. destruct (N.eq_dec _ _); [congruence|].
      destruct (st !! q); set_solver.
  - intros q s Hq Hs. rewrite lookup_insert_ne by congruence. eauto.
Qed.

(** Dropping a pointer. *)
Lemma release_spec st R p :
  counted st (p :: R) → counted (release p st) R ∧ keeps st (release p st) R.
Proof.
  intros H. pose proof (H p) as Hp. unfold release. destruct (st !! p) as [s|] eqn:Es; [|set_solver].
  destruct Hp as [_ Hp]. simpl in Hp. destruct (N.eq_dec p p) as [_|]; [|done].
  assert (∀ q, q ≠ p → match st !! q with
    | Some s => q ∈ R ∧ use_count s = count_occ N.eq_dec R q | None => q ∉ R end) as Hother.
  { intros q Hne. specialize (H q). simpl in H. destruct (N.eq_dec p q); [congruence|]. destruct (st !! q); set_solver. }
  destruct (count_occ N.eq_dec R p) as [|n] eqn:Ec.
  - assert (p ∉ R) as HpR by (rewrite list_elem_of_In; by apply (count_occ_not_In N.eq_dec)).
    rewrite Hp. split.
    + intros q. destruct (decide (q = p)) as [->|Hne]; [by rewrite lookup_delete_eq|].
      rewrite lookup_delete_ne by done. by apply Hother.
    + intros q s' Hq Hs'. rewrite lookup_delete_ne by (intros ->; done). eauto.
  - rewrite Hp. split.
    + intros q. destruct (decide (q = p)) as [->|Hne]; [|rewrite lookup_insert_ne by done; by apply Hother].
      rewrite lookup_insert_eq. split; [|by rewrite Ec]. rewrite list_elem_of_In. apply (count_occ_In N.eq_dec). lia.
    + intros q s' Hq Hs'. destruct (decide (q = p)) as [->|Hne]; [|rewrite lookup_insert_ne by done; eauto].
      rewrite lookup_insert_eq. simplify_eq. eauto.
Qed.

(** Copying a pointer. *)
Lemma retain_spec st R p :
  counted st R → p ∈ R → counted (retain p st) (p :: R) ∧ keeps st (retain p st) R.
Proof.
  intros H Hp. destruct (counted_lookup _ _ _ H Hp) as [s Es]. unfold retain. rewrite Es. split.
  - intros q. simpl. specialize (H q). destruct (decide (q = p)) as [->|Hne].
    + rewrite lookup_insert_eq. rewrite Es in H. destruct H as [_ ->]. destruct (N.eq_dec p p); [|done].
      split; [by left | done].
    + rewrite lookup_insert_ne by done. destruct (N.eq_dec p q); [congruence|]. destruct (st !! q); set_solver.
  - intros q s' Hq Hs'. destruct (decide (q = p)) as [->|Hne]; [|rewrite lookup_insert_ne by done; eauto].
    rewrite lookup_insert_eq. simplify_eq. eauto.
Qed.

(** Writing through the only owner. *)
Lemma update_spec st R p l s :
  counted st (p :: R) → st !! p = Some s → use_count s = 1%nat →
  p ∉ R ∧ counted (<[p := {| use_count := 1; the_list := l |}]> st) (p :: R) ∧
  keeps st (<[p := {| use_count := 1; the_list := l |}]> st) R.
Proof.
  intros H Hs Hu. pose proof (H p) as Hp. rewrite Hs, Hu in Hp. destruct Hp as [_ Hp]. simpl in Hp.
  destruct (N.eq_dec p p) as [_|]; [|done]. injection Hp as Hp. symmetry in Hp.
  assert (p ∉ R) as HpR by (rewrite list_elem_of_In; by apply (count_occ_not_In N.eq_dec)).
  split_and!; [done| |].
  - intros q. specialize (H q). destruct (decide (q = p)) as [->|Hne]; [|by rewrite lookup_insert_ne].
    rewrite lookup_insert_eq. rewrite Hs in H. destruct H as [? ?]. split; [done|]. simpl in *. congruence.
  - intros q s' Hq Hs'. rewrite lookup_insert_ne by (intros ->; done). eauto.
Qed.

(** An owned list stays owned. *)
Lemma register_owned l op o l' : registerMemoryOperation true l op = Ok (o, l') → o = true.
Proof.
  unfold registerMemoryOperation. intros (? & _ & H)%bind_ok. apply bind_ok in H as (off & _ & H).
  destruct (as_constant off); apply bind_ok in H as ([o1 y] & Hr & [= <- <-]).
  - apply register_concrete_shared in Hr as [_ Ho]. destruct o1; [done|]. by destruct (Ho eq_refl).
  - unfold registerSymbolicMemoryOperation, symbolic_range in Hr.
    destruct (symbolic_loop _ _ _) as [[] kept]; [by injection Hr|]. apply bind_ok in Hr as (? & _ & Hr).
    by injection Hr.
Qed.

(** [registerMemoryOperation] through a shared pointer: the other owners keep
    their list; the pointer leads to the updated list, or to the same one if
    it was not acquired. *)
Lemma register_shared_spec st R self op st' p' :
  counted st (self :: R) → register_shared st self op = Ok (st', p') →
  ∃ s o l' s', st !! self = Some s ∧
    registerMemoryOperation (Nat.eqb (use_count s) 1) (the_list s) op = Ok (o, l') ∧
    st' !! p' = Some s' ∧ the_list s' = (if o then l' else the_list s) ∧
    counted st' (p' :: R) ∧ keeps st st' R.
Proof.
  intros H. unfold register_shared. intros (s & Hs%nonnull_ok & Hr)%bind_ok.
  apply bind_ok in Hr as ([o l'] & Hreg & Hr). exists s, o, l'.
  destruct (Nat.eqb_spec (use_count s) 1) as [Hu|Hu].
  - pose proof (register_owned _ _ _ _ Hreg) as ->. injection Hr as <- <-.
    destruct (update_spec st R self l' s H Hs Hu) as (_ & Hc & Hk).
    eexists. split_and!; [done | done | apply lookup_insert_eq | done | done | done].
  - destruct o.
    + destruct (make_shared l' st) as [st1 p1] eqn:Em. injection Hr as <- <-.
      destruct (make_shared_spec _ _ _ _ _ H Em) as (Hnew & Hc & Hk & Hp).
      assert (counted st1 (self :: p1 :: R)) as Hc' by (eapply counted_perm; [apply perm_swap | done]).
      destruct (release_spec _ _ _ Hc') as [Hc2 Hk2]. destruct (Hk2 p1 _ (list_elem_of_here _ _) Hp) as (s' & Hs' & Hl').
      exists s'. split_and!; try done. eapply keeps_trans; [eapply keeps_sub; [|exact Hk]; set_solver|].
      eapply keeps_sub; [|exact Hk2]. set_solver.
    + injection Hr as <- <-. exists s. split_and!; try done. apply keeps_refl.
Qed.

(** ** Objects *)

Definition ptr_of (oa : ObjectAccesses) : list N := option_list (accesses oa).

(** What tracking does to an object: its list is updated, unless it is one
    already allocated in the epoch; or the operation allocates it. *)
Inductive tracked st (oa : ObjectAccesses) op st' (oa' : ObjectAccesses) : Prop :=
  | tracked_allocated : oa_isAllocOrFree oa = true → oa' = oa → tracked st oa op st' oa'
  | tracked_alloc :
      oa_isAllocOrFree oa = false → isAllocOrFree (op_type op) = true →
      oa' = {| allocFreeInstruction := op_instruction op; accesses := None |} → tracked st oa op st' oa'
  | tracked_access own l o l' p' s' :
      oa_isAllocOrFree oa = false → isAllocOrFree (op_type op) = false →
      match accesses oa with
      | Some p => ∃ s, st !! p = Some s ∧ l = the_list s
      | None => l = {| concrete := []; symbolic := [] |}
      end →
      registerMemoryOperation own l op = Ok (o, l') →
      st' !! p' = Some s' → the_list s' = (if o then l' else l) →
      oa' = {| allocFreeInstruction := None; accesses := Some p' |} → tracked st oa op st' oa'.

Lemma track_object_spec st R oa op st' oa' :
  counted st (ptr_of oa ++ R) → trackMemoryOperation_object st oa op = Ok (st', oa') →
  counted st' (ptr_of oa' ++ R) ∧ keeps st st' R ∧ tracked st oa op st' oa'.
Proof.
  intros H. unfold trackMemoryOperation_object. intros (? & _ & Ht)%bind_ok.
  unfold ptr_of in *. destruct (allocFreeInstruction oa) as [i|] eqn:Ea.
  { injection Ht as <- <-. split_and!; [done | apply keeps_refl|]. apply tracked_allocated; [|done].
    unfold oa_isAllocOrFree. by rewrite Ea. }
  assert (oa_isAllocOrFree oa = false) as Hal by (unfold oa_isAllocOrFree; by rewrite Ea).
  destruct (isAllocOrFree (op_type op)) eqn:Eop.
  { injection Ht as <- <-. destruct (accesses oa) as [p|] eqn:Ep; simpl in *.
    - destruct (release_spec _ _ _ H). split_and!; [done..|]. by apply tracked_alloc.
    - split_and!; [done | apply keeps_refl|]. by apply tracked_alloc. }
  destruct (accesses oa) as [p|] eqn:Ep; simpl in H.
  - apply bind_ok in Ht as ([st2 p'] & Hr & [= <- <-]).
    destruct (register_shared_spec _ _ _ _ _ _ H Hr) as (s & o & l' & s' & Hs & Hreg & Hs' & Hl' & Hc & Hk).
    split_and!; [done..|]. eapply tracked_access; try done. rewrite Ep. eauto.
  - destruct (make_shared _ st) as [st1 p] eqn:Em.
    destruct (make_shared_spec _ _ _ _ _ H Em) as (Hnew & Hc & Hk & Hp).
    apply bind_ok in Ht as ([st2 p'] & Hr & [= <- <-]).
    destruct (register_shared_spec _ _ _ _ _ _ Hc Hr) as (s & o & l' & s' & Hs & Hreg & Hs' & Hl' & Hc' & Hk').
    assert (s = {| use_count := 1; the_list := {| concrete := []; symbolic := [] |} |}) as -> by congruence.
    split_and!; [done | by eapply keeps_trans|]. eapply tracked_access; try done. by rewrite Ep.
Qed.
End store.

Local Open Scope Z_scope.

(** ** Bytes of a list *)

Section bytes.
Context {PL : Payload} {EL : ExprLib} {ES : ExprSem}.
Implicit Types (st : store) (oa : ObjectAccesses) (l : OperationList) (op : MemoryOperation) (v : assignment).

Definition sym_touched v (s : mmap) (w : bool) (x : Z) : Prop := ∃ k a,
  (k, a) ∈ s ∧ counts w (type a) = true ∧ eval v k ≤ x < eval v k + numBytes a.

Definition list_touched v l (w : bool) (x : Z) : Prop :=
  seen w (concrete l) x ∨ sym_touched v (symbolic l) w x.

(** An allocation counts as an access to every byte. *)
Definition object_touched v st oa (w : bool) (x : Z) : Prop :=
  oa_isAllocOrFree oa = true ∨ ∃ l, lists st oa l ∧ list_touched v l w x.

(** The bytes of an operation. *)
Definition op_touches v op (w : bool) (x : Z) : Prop :=
  isAllocOrFree (op_type op) = true ∨
  ∃ off, op_offset op = Some off ∧ counts w (op_type op) = true ∧ eval v off ≤ x < eval v off + op_numBytes op.

Definition strength (w : bool) : AccessType := if w then WRITE else READ.

Lemma sym_touched_recorded v s w x :
  sym_touched v s w x ↔ ∃ k, eval v k ≤ x ∧ sym_recorded s k (x - eval v k + 1) (strength w).
Proof.
  unfold sym_touched, sym_recorded, stands_for. split.
  - intros (k & a & Hin & Hc & Hx). exists k. split; [lia|]. exists a. split_and!; [done | lia|].
    unfold counts in Hc. destruct w; simpl in *; [by rewrite Hc | by rewrite orb_true_r].
  - intros (k & Hk & a & Hin & Hn & Hw). exists k, a. split_and!; [done | | lia | lia].
    unfold counts. destruct w; simpl in *; [by rewrite orb_false_r in Hw | done].
Qed.

Lemma counts_strength w t :
  isReadOrWrite t = true → isWrite t || isRead (strength w) = true ↔ counts w t = true.
Proof. by destruct w, t. Qed.

(** Well-formed lists, possibly empty. *)
Definition lists_wf l : Prop := cm_ok (concrete l) ∧ mm_ok (symbolic l).

(** An access with a constant offset that no tracked access straddles; see
    [registered]. *)
Definition unstraddled l op : Prop := ∀ off o,
  op_offset op = Some off → as_constant off = Some o →
  ¬ straddled (concrete l) o (o + op_numBytes op) (op_type op).

(** Whether a multimap has changed or not, the accesses recorded are the old
    ones and the new one. *)
Lemma symbolic_touched own s k op o s' v w x :
  mm_ok s → isReadOrWrite (op_type op) = true → 0 < op_numBytes op →
  registerSymbolicMemoryOperation own s k op = Ok (o, s') →
  mm_ok s' ∧ (o = false → s' = s) ∧
  (sym_touched v s' w x ↔ sym_touched v s w x ∨
    counts w (op_type op) = true ∧ eval v k ≤ x < eval v k + op_numBytes op).
Proof.
  intros Hs Ht Hn Hr. destruct (register_symbolic_spec own s k op Hs Ht Hn) as (o' & s1 & Hr' & Hok & Ho & Hrec).
  rewrite Hr in Hr'. injection Hr' as <- <-. split_and!; [done | naive_solver|].
  rewrite !sym_touched_recorded. assert (isReadOrWrite (strength w) = true) as Hw by (by destruct w). split.
  - intros (k' & Hk' & [?|(-> & Hle & Hst)]%Hrec); [left; eauto| |done].
    right. split; [by apply counts_strength | lia].
  - intros [(k' & Hk' & Hold)|[Hc Hx]].
    + exists k'. split; [done|]. apply Hrec; [done | by left].
    + exists k. split; [lia|]. apply Hrec; [done|]. right. split_and!; [done | lia | by apply counts_strength].
Qed.

(** Where the elements of the multimap come from, and that it is not empty. *)
Lemma symbolic_elems own s k op o s' :
  registerSymbolicMemoryOperation own s k op = Ok (o, s') →
  (∀ k' a, (k', a) ∈ s' → (k', a) ∈ s ∨ k' = k ∧ numBytes a = op_numBytes op) ∧ s' ≠ [].
Proof.
  unfold registerSymbolicMemoryOperation. pose proof (symbolic_range_spec own (equal_range k s).*2 op) as Hr.
  destruct (symbolic_range own (equal_range k s).*2 op) as [o1 [returned kept]].
  destruct Hr as ([Hsub _] & _ & Hret).
  assert (∀ k' a, (k', a) ∈ before_key k s ++ (pair k <$> kept) → (k', a) ∈ s) as Hleft.
  { intros k' a [[? _]%before_elem|Hin]%elem_of_app; [done|].
    apply list_elem_of_fmap in Hin as (a' & [= -> ->] & Ha). apply equal_snd. by eapply elem_of_sublist. }
  destruct returned.
  - intros [= <- <-]. split.
    + intros k' a [Hin|[? _]%after_elem]%elem_of_app; [left; by apply Hleft | by left].
    + destruct Hret as (a & Ha & _). intros [[_ E]%app_nil _]%app_nil. by destruct kept; [apply elem_of_nil in Ha|].
  - intros (a0 & Hnew & [= <- <-])%bind_ok. unfold new_access in Hnew. apply bind_ok in Hnew as (? & _ & [= <-]).
    split; [|by intros [_ E]%app_nil].
    intros k' a [Hin|[[= -> ->]|[? _]%after_elem]%elem_of_cons]%elem_of_app; [left; by apply Hleft | by right | by left].
Qed.

Lemma register_list_spec feasible own l op o l' off :
  (∃ v, feasible v) → lists_wf l → isReadOrWrite (op_type op) = true → op_offset op = Some off →
  in_bounds feasible off (op_numBytes op) → unstraddled l op →
  registerMemoryOperation own l op = Ok (o, l') →
  let l1 := if o then l' else l in
  list_ok l1 ∧ (∀ k a, (k, a) ∈ symbolic l1 → (k, a) ∈ symbolic l ∨ k = off ∧ numBytes a = op_numBytes op) ∧
  ∀ v w x, list_touched v l1 w x ↔ list_touched v l w x ∨
    counts w (op_type op) = true ∧ eval v off ≤ x < eval v off + op_numBytes op.
Proof.
  intros [v0 Hv0] [Hc Hs] Ht Hoff (Hw & Hn & Hend) Hst. unfold registerMemoryOperation.
  intros (z & _ & H)%bind_ok. clear z. rewrite Hoff in H. cbn [nonnull] in H. rewrite bind_Ok_l in H.
  destruct (as_constant off) as [b|] eqn:Eb; apply bind_ok in H as ([o1 y] & Hr & [= <- <-]).
  - pose proof (eval_range v0 off) as H0. specialize (Hend v0 Hv0). rewrite (eval_constant v0 off b Eb) in H0, Hend.
    apply register_concrete_shared in Hr as [Hr Ho].
    destruct (register_concrete_spec op (concrete l) b) as (m' & Hr' & [Hk Hx]); [done..|lia|done|done|].
    rewrite Hr in Hr'. injection Hr' as <-. destruct (Hx (Hst off b Hoff Eb)) as [Hok Hex].
    assert (∀ v w x, list_touched v {| concrete := y; symbolic := symbolic l |} w x ↔ list_touched v l w x ∨
      counts w (op_type op) = true ∧ eval v off ≤ x < eval v off + op_numBytes op) as Hto.
    { intros v w x. rewrite (eval_constant v off b Eb). unfold list_touched. simpl. specialize (Hk w x).
      specialize (Hex w x). tauto. }
    assert (y ≠ []) as Hne.
    { intros ->. specialize (Hk false b). rewrite seen_nil in Hk. apply Hk. right. split; [done | lia]. }
    destruct o1; [|destruct (Ho eq_refl) as [_ ->]]; (split_and!; [|tauto|]).
    + by split; [| |left].
    + apply Hto.
    + by split; [| |left].
    + destruct l. apply Hto.
  - destruct (symbolic_elems _ _ _ _ _ _ Hr) as [Hel Hne].
    assert (mm_ok y ∧ (o1 = false → y = symbolic l)) as [Hok Ho].
    { by destruct (symbolic_touched own (symbolic l) off op o1 y v0 false 0 Hs Ht Hn Hr) as (? & ? & _). }
    assert (∀ v w x, list_touched v {| concrete := concrete l; symbolic := y |} w x ↔ list_touched v l w x ∨
      counts w (op_type op) = true ∧ eval v off ≤ x < eval v off + op_numBytes op) as Hto.
    { intros v w x. destruct (symbolic_touched own (symbolic l) off op o1 y v w x Hs Ht Hn Hr) as (_ & _ & Hx).
      unfold list_touched. simpl. tauto. }
    destruct o1; [|rewrite (Ho eq_refl) in *]; (split_and!; [|done || tauto|]).
    + by split; [| |right].
    + apply Hto.
    + by split; [| |right].
    + destruct l. apply Hto.
Qed.

(** ** Objects *)

(** No tracked access of the object straddles the operation. *)
Definition object_unstraddled st oa op : Prop := ∀ l, lists st oa l → unstraddled l op.

(** The list that is updated. *)
Lemma tracked_list st oa l :
  (object_ok st oa ∨ oa = new_ObjectAccesses) → oa_isAllocOrFree oa = false →
  match accesses oa with
  | Some p => ∃ s, st !! p = Some s ∧ l = the_list s
  | None => l = {| concrete := []; symbolic := [] |}
  end →
  lists_wf l ∧ (lists st oa l ∨ l = {| concrete := []; symbolic := [] |}) ∧
  ∀ v w x, (∃ l0, lists st oa l0 ∧ list_touched v l0 w x) ↔ list_touched v l w x.
Proof.
  intros Hok Hal Hl. destruct Hok as [Hok| ->].
  - destruct (object_ok_list st oa Hok Hal) as (l0 & Hl0 & [Hc Hs _]).
    assert (l = l0) as ->.
    { destruct Hl0 as (p & s & Hp & Hs0 & <-). rewrite Hp in Hl. destruct Hl as (s' & ? & ->). by simplify_eq. }
    split_and!; [done | by left|]. intros v w x. split; [|eauto]. intros (l1 & Hl1 & Hx).
    by rewrite (lists_unique _ _ _ _ Hl0 Hl1).
  - simpl in Hl. subst l. split_and!; [split; [apply cm_ok_nil | apply mm_ok_nil] | by right|].
    intros v w x. unfold list_touched, sym_touched. simpl. rewrite seen_nil. split.
    + by intros (l0 & (p & s & Hp & _) & _).
    + intros [[]|(k & a & ?%elem_of_nil & _)]. done.
Qed.

Lemma track_object_touched feasible st oa op st' oa' :
  tracked st oa op st' oa' → (∃ v, feasible v) → operation_ok feasible op → is_Some (op_instruction op) →
  (object_ok st oa ∨ oa = new_ObjectAccesses) → object_unstraddled st oa op →
  (∀ l, lists st oa l → list_bounds feasible l) →
  object_ok st' oa' ∧ (∀ l, lists st' oa' l → list_bounds feasible l) ∧
  ∀ v w x, object_touched v st' oa' w x ↔ object_touched v st oa w x ∨ op_touches v op w x.
Proof.
  intros Htr Hfe [_ Hop] [i Hi] Hok Hst Hb. destruct Htr as [Hal ->|Hal Hop' ->|own l o l' p' s' Hal Hop' Hl Hr Hs' Hl' ->].
  - assert (accesses oa = None) as Hacc.
    { destruct Hok as [Hok| ->]; [|done]. unfold object_ok, oa_isAllocOrFree in *. by destruct (allocFreeInstruction oa). }
    split_and!.
    + unfold object_ok, oa_isAllocOrFree in *. by destruct (allocFreeInstruction oa).
    + intros l (p & s & Hp & _). congruence.
    + intros v w x. unfold object_touched. tauto.
  - split_and!.
    + unfold object_ok. simpl. by rewrite Hi.
    + by intros l (p & s & Hp & _).
    + intros v w x. unfold object_touched, op_touches. rewrite Hop'. unfold oa_isAllocOrFree at 1. simpl. rewrite Hi. tauto.
  - destruct Hop as [?|(Ht & off & Hoff & Hin)]; [congruence|].
    destruct (tracked_list st oa l Hok Hal Hl) as (Hwf & Hlists & Hto).
    assert (unstraddled l op) as Hus.
    { destruct Hlists as [Hls| ->]; [by apply Hst|]. intros off' b' _ _. by intros ?%Exists_nil. }
    destruct (register_list_spec feasible own l op o l' off Hfe Hwf Ht Hoff Hin Hus Hr) as (Hok' & Hel & Hto').
    assert (∀ l1, lists st' {| allocFreeInstruction := None; accesses := Some p' |} l1 ↔ l1 = if o then l' else l) as Hone.
    { intros l1. split.
      - intros (p & s & [= <-] & Hs & <-). congruence.
      - intros ->. exists p', s'. auto. }
    split_and!.
    + unfold object_ok. simpl. exists (if o then l' else l). split; [by apply Hone | exact Hok'].
    + intros l1 ->%Hone k a [Hin'|[-> ->]]%Hel; [|done]. destruct Hlists as [Hls| ->]; [by apply (Hb l) | by apply elem_of_nil in Hin'].
    + intros v w x. unfold object_touched, op_touches. setoid_rewrite Hone. rewrite Hto, Hal, Hop', Hoff.
      unfold oa_isAllocOrFree. simpl. specialize (Hto' v w x).
      assert ((∃ off0, Some off = Some off0 ∧ counts w (op_type op) = true ∧ eval v off0 ≤ x < eval v off0 + op_numBytes op)
        ↔ counts w (op_type op) = true ∧ eval v off ≤ x < eval v off + op_numBytes op) as -> by naive_solver.
      split.
      * intros [?|(l0 & -> & Hx)]; [done|]. apply Hto' in Hx as [?|?]; tauto.
      * intros [[?|?]|[?|?]]; [done| |done|]; right; exists (if o then l' else l); (split; [reflexivity|]);
          apply Hto'; tauto.
Qed.
End bytes.

(** ** [trackAccess] on the detector of one state

    Which epoch and object of the detector change, what stays of the store for
    the other objects and the other states, and what the detector has recorded
    afterwards. *)

Local Close Scope Z_scope.

(** ** Pointers of a detector *)

Section pointers.
Context {PL : Payload} {EL : ExprLib}.
Implicit Types (m : EpochMemoryAccesses) (oa : ObjectAccesses) (d : DataRaceDetection) (t : thread_id).

Lemma object_ptrs_insert a oa m : object_ptrs (<[a := oa]> m) ≡ₚ ptr_of oa ++ object_ptrs (delete a m).
Proof.
  unfold object_ptrs. rewrite <-insert_delete_eq, map_to_list_insert by apply lookup_delete_eq.
  by rewrite bind_cons.
Qed.

Lemma object_ptrs_split a m :
  object_ptrs m ≡ₚ ptr_of (default new_ObjectAccesses (m !! a)) ++ object_ptrs (delete a m).
Proof.
  destruct (m !! a) as [oa|] eqn:E; simpl.
  - rewrite <-object_ptrs_insert. by rewrite insert_id.
  - by rewrite delete_id.
Qed.

Lemma object_ptr_elem m a oa p : m !! a = Some oa → p ∈ ptr_of oa → p ∈ object_ptrs m.
Proof. intros Hm Hp. rewrite (object_ptrs_split a m), Hm. set_solver. Qed.

Lemma smap_split_perm {V} k (l : smap thread_id V) :
  smap_sorted l →
  l ≡ₚ match smap_find k l with Some v => [(k, v)] | None => [] end ++ smap_erase k l ∧
  ∀ v, smap_set k v l ≡ₚ (k, v) :: smap_erase k l.
Proof.
  intros Hs. induction l as [|[k' v'] l IH]; simpl; [done|].
  apply StronglySorted_inv in Hs as [Hs Hk']. destruct (IH Hs) as [IH1 IH2]. clear IH.
  destruct (less_cases k k') as [(-> & E1 & E2)|[(E1 & E2 & ?)|(E1 & E2 & ?)]]; rewrite ?E1, ?E2.
  - done.
  - done.
  - split.
    + rewrite IH1 at 1. by rewrite Permutation_middle.
    + intros v. rewrite IH2. apply perm_swap.
Qed.

Definition other_ptrs t d : list N := smap_vals (smap_erase t (dr_accesses d)) ≫= epoch_ptrs.

Lemma detector_ptrs_split t d :
  smap_sorted (dr_accesses d) → detector_ptrs d ≡ₚ epoch_ptrs (epochs_of d t) ++ other_ptrs t d.
Proof.
  intros Hs. unfold detector_ptrs, other_ptrs, epochs_of, smap_vals.
  rewrite (proj1 (smap_split_perm t (dr_accesses d) Hs)) at 1. rewrite fmap_app, bind_app.
  destruct (smap_find t (dr_accesses d)) as [l|]; simpl; [|done]. by rewrite app_nil_r.
Qed.

Lemma detector_ptrs_set t l d :
  smap_sorted (dr_accesses d) →
  detector_ptrs (set_accesses (smap_set t l (dr_accesses d)) d) ≡ₚ epoch_ptrs l ++ other_ptrs t d.
Proof.
  intros Hs. unfold detector_ptrs, other_ptrs, smap_vals. simpl.
  by rewrite (proj2 (smap_split_perm t (dr_accesses d) Hs) l).
Qed.

Lemma epoch_ptrs_snoc before (ev : eid) m : epoch_ptrs (before ++ [(ev, m)]) = epoch_ptrs before ++ object_ptrs m.
Proof. unfold epoch_ptrs. rewrite bind_app. simpl. by rewrite app_nil_r. Qed.

Lemma epoch_ptr_elem (l : list (eid * EpochMemoryAccesses)) x m a oa p :
  (x, m) ∈ l → m !! a = Some oa → p ∈ ptr_of oa → p ∈ epoch_ptrs l.
Proof.
  intros Hl Hm Hp. unfold epoch_ptrs. apply list_elem_of_bind. exists (x, m).
  split; [by eapply object_ptr_elem | done].
Qed.

Lemma other_ptr_elem d t t' x m a oa p :
  smap_sorted (dr_accesses d) → t' ≠ t → (x, m) ∈ epochs_of d t' → m !! a = Some oa → p ∈ ptr_of oa →
  p ∈ other_ptrs t d.
Proof.
  intros Hs Hne Hx Hm Hp. unfold other_ptrs, epochs_of in *.
  destruct (smap_find t' (dr_accesses d)) as [l|] eqn:El; [|by apply elem_of_nil in Hx].
  apply list_elem_of_bind. exists l. split; [by eapply epoch_ptr_elem|].
  unfold smap_vals. apply list_elem_of_fmap. exists (t', l). split; [done|].
  apply smap_elem_find; [by apply smap_erase_sorted|]. by rewrite smap_find_erase_ne.
Qed.

(** ** The epoch that is changed *)

Lemma getAccessesAfter_spec (l : list (eid * EpochMemoryAccesses)) ev before acc :
  getAccessesAfter l ev = (before, acc) →
  l = before ++ [(ev, acc)] ∨
  before = l ∧ acc = ∅ ∧ match reverse l with (ev', _) :: _ => ev' ≠ ev | [] => True end.
Proof.
  unfold getAccessesAfter. destruct (reverse l) as [|[ev' m] r] eqn:Er; [intros [= <- <-]; by right|].
  case_bool_decide as Heq; intros [= <- <-]; [left | by right].
  subst. rewrite <-(reverse_involutive l), Er. by rewrite reverse_cons.
Qed.

Lemma getAccessesAfter_ptrs l ev before acc :
  getAccessesAfter l ev = (before, acc) → epoch_ptrs l ≡ₚ epoch_ptrs before ++ object_ptrs acc.
Proof.
  intros [->|(-> & -> & _)]%getAccessesAfter_spec.
  - by rewrite epoch_ptrs_snoc.
  - unfold object_ptrs. rewrite map_to_list_empty. simpl. by rewrite app_nil_r.
Qed.
End pointers.

(** ** The whole method *)

Section track.
Context {PL : Payload} {EL : ExprLib}.
Implicit Types (st : store) (m : EpochMemoryAccesses) (oa : ObjectAccesses) (d : DataRaceDetection) (t : thread_id).
Implicit Types (op : MemoryOperation) (R : list N) (sh : shared) (heads : smap thread_id eid).

(** What [trackAccess] does: the last epoch of the thread, new if the thread
    has moved on to [ev], gets the access; [R] are the pointers of other
    detectors. *)
Record access_tracked heads st d op st' d' R (ev : eid) (obj : MemoryObject)
    (before : list (eid * EpochMemoryAccesses)) (acc acc' : EpochMemoryAccesses) : Prop := {
  at_head : smap_find (op_tid op) heads = Some ev;
  at_object : op_object op = Some obj;
  at_instruction : is_Some (op_instruction op);
  at_epoch : getAccessesAfter (epochs_of d (op_tid op)) ev = (before, acc);
  at_epochs : epochs_of d' (op_tid op) = before ++ [(ev, acc')];
  at_others t : t ≠ op_tid op → epochs_of d' t = epochs_of d t;
  at_sorted : smap_sorted (dr_accesses d');
  at_counted : counted st' (detector_ptrs d' ++ R);
  at_keeps : keeps st st' ((object_ptrs (delete (mo_address obj) acc) ++ epoch_ptrs before ++
    other_ptrs (op_tid op) d) ++ R);
  at_access : if isFree (op_type op) then acc' = delete (mo_address obj) acc
    else ∃ oa', acc' = <[mo_address obj := oa']> acc ∧
      tracked st (default new_ObjectAccesses (acc !! mo_address obj)) op st' oa';
}.

Lemma set_epochs_of d t l t' :
  epochs_of (set_accesses (smap_set t l (dr_accesses d)) d) t' = if bool_decide (t = t') then l else epochs_of d t'.
Proof.
  unfold epochs_of. simpl. destruct (smap_find_set t t' l (dr_accesses d)) as [[-> ->]|[Hne ->]].
  - by rewrite bool_decide_eq_true_2.
  - by rewrite bool_decide_eq_false_2.
Qed.

Lemma epochs_of_count f d t : epochs_of (count f d) t = epochs_of d t.
Proof. done. Qed.

Lemma track_access_spec heads sh d op sh' d' R :
  counted (sh_store sh) (detector_ptrs d ++ R) → smap_sorted (dr_accesses d) →
  trackAccess heads sh d op = Ok (sh', d') →
  ∃ ev obj before acc acc',
    access_tracked heads (sh_store sh) d op (sh_store sh') d' R ev obj before acc acc'.
Proof.
  intros Hc Hs. unfold trackAccess. intros H. 
  apply bind_ok in H as (? & Hi%cassert_ok & H). apply bind_ok in H as (? & _ & H).
  apply bind_ok in H as (? & _ & H). apply bind_ok in H as (? & _ & H). apply bind_ok in H as (? & _ & H).
  apply bind_ok in H as (ev & Hev & H). apply bind_ok in H as (obj & Hobj%nonnull_ok & H).
  assert (smap_find (op_tid op) heads = Some ev) as Hhead.
  { destruct (smap_find (op_tid op) heads); [by injection Hev as -> | done]. }
  fold (epochs_of d (op_tid op)) in H.
  destruct (getAccessesAfter (epochs_of d (op_tid op)) ev) as [before acc] eqn:Hga.
  pose proof (getAccessesAfter_ptrs _ _ _ _ Hga) as Hep.
  set (a := mo_address obj) in *. set (oa := default new_ObjectAccesses (acc !! a)).
  set (rest := object_ptrs (delete a acc) ++ epoch_ptrs before ++ other_ptrs (op_tid op) d).
  assert (counted (sh_store sh) (ptr_of oa ++ rest ++ R)) as Hc1.
  { eapply counted_perm; [|exact Hc]. rewrite (detector_ptrs_split (op_tid op) d Hs), Hep, (object_ptrs_split a acc).
    fold oa. unfold rest. solve_Permutation. }
  assert (∀ st' acc' oa' d1, object_ptrs acc' ≡ₚ ptr_of oa' ++ object_ptrs (delete a acc) →
    dr_accesses d1 = smap_set (op_tid op) (before ++ [(ev, acc')]) (dr_accesses d) →
    counted st' (ptr_of oa' ++ rest ++ R) → counted st' (detector_ptrs d1 ++ R)) as Hback.
  { intros st' acc' oa' d1 Hp Hd1 Hc'. eapply counted_perm; [|exact Hc'].
    change (detector_ptrs d1) with (smap_vals (dr_accesses d1) ≫= epoch_ptrs). rewrite Hd1.
    change (smap_vals _ ≫= epoch_ptrs) with
      (detector_ptrs (set_accesses (smap_set (op_tid op) (before ++ [(ev, acc')]) (dr_accesses d)) d)).
    rewrite detector_ptrs_set, epoch_ptrs_snoc, Hp by done. unfold rest. solve_Permutation. }
  exists ev, obj, before, acc. destruct (isFree (op_type op)) eqn:Hf.
  - destruct (pruneDataForMemoryObject (sh_store sh) obj acc) as [st1 acc'] eqn:Ep. injection H as <- <-. exists acc'.
    assert (acc' = delete a acc ∧ counted st1 (rest ++ R) ∧ keeps (sh_store sh) st1 (rest ++ R)) as (-> & Hc2 & Hk).
    { unfold pruneDataForMemoryObject in Ep. fold a in Ep. unfold oa in Hc1.
      destruct (acc !! a) as [oa0|] eqn:Ea; injection Ep as <- <-; simpl in Hc1.
      - unfold destroy_object, ptr_of in *. split; [done|]. destruct (accesses oa0) as [p|]; simpl in Hc1.
        + apply (release_spec _ _ _ Hc1).
        + split; [done | apply keeps_refl].
      - rewrite delete_id by done. split_and!; [done..|apply keeps_refl]. }
    split; try done.
    + by destruct (op_instruction op).
    + by rewrite set_epochs_of, bool_decide_eq_true_2.
    + intros t Hne. by rewrite set_epochs_of, bool_decide_eq_false_2.
    + simpl. by apply smap_set_sorted.
    + apply (Hback st1 (delete a acc) new_ObjectAccesses); [done | done | exact Hc2].
    + by rewrite Hf.
  - apply bind_ok in H as ([st1 acc'] & Ht & H). injection H as <- <-. exists acc'.
    unfold trackMemoryOperation in Ht. rewrite Hobj in Ht. cbn [nonnull] in Ht. rewrite bind_Ok_l in Ht.
    apply bind_ok in Ht as ([st2 oa'] & Ht & [= <- <-]).
    destruct (track_object_spec _ _ _ _ _ _ Hc1 Ht) as (Hc2 & Hk & Htr).
    split; try done.
    + by destruct (op_instruction op).
    + by rewrite epochs_of_count, set_epochs_of, bool_decide_eq_true_2.
    + intros t Hne. by rewrite epochs_of_count, set_epochs_of, bool_decide_eq_false_2.
    + simpl. by apply smap_set_sorted.
    + apply (Hback st2 (<[a := oa']> acc) oa'); [apply object_ptrs_insert | done..].
    + rewrite Hf. by exists oa'.
Qed.
End track.
