(* ===== verification/Monitor.v ===== *)
(** * Recording the accesses of one execution state

    A byte of an object is [touched] by a thread after one of its events if
    the detector holds an access to it. The lemmas say how [trackAccess]
    changes this relation for the state itself, and that other states keep
    theirs. *)

From stdpp Require Import base tactics list gmap numbers relations sorting.
From S2P Require Import Prelude StdMap ThreadId Event Comb CombEnum CombProofs Cone Alloc Causality.
From S2P Require Import AllocProofs HeapExt Order Walks ObjectAccesses AccessProofs SharedProofs.
From S2P Require Import RaceDetection RaceWalk RaceCheck RaceDecide Tracking.

Local Open Scope Z_scope.

(** ** What other owners see *)

Section kept.
Context {PL : Payload} {EL : ExprLib} {ES : ExprSem}.
Implicit Types (st : store) (m : EpochMemoryAccesses) (oa : ObjectAccesses) (d : DataRaceDetection) (R : list N).

(** The pointers lead to lists. *)
Definition live st R : Prop := ∀ p, p ∈ R → is_Some (st !! p).

Lemma counted_live st refs R : counted st refs → (∀ p, p ∈ R → p ∈ refs) → live st R.
Proof. intros Hc Hs p Hp. destruct (counted_lookup _ _ _ Hc (Hs p Hp)) as [s Hs']. eauto. Qed.

Lemma keeps_lists st st' R oa l :
  live st R → keeps st st' R → (∀ p, p ∈ ptr_of oa → p ∈ R) → lists st' oa l ↔ lists st oa l.
Proof.
  intros Hc Hk Hin. unfold lists. split.
  - intros (p & s' & Hp & Hs' & <-). assert (p ∈ R) as HpR by (apply Hin; unfold ptr_of; rewrite Hp; set_solver).
    destruct (Hc p HpR) as [s Hs]. destruct (Hk p s HpR Hs) as (s1 & ? & ?). simplify_eq. eauto.
  - intros (p & s & Hp & Hs & <-). assert (p ∈ R) as HpR by (apply Hin; unfold ptr_of; rewrite Hp; set_solver).
    destruct (Hk p s HpR Hs) as (s1 & ? & <-). eauto 6.
Qed.

Lemma keeps_touched st st' R oa v w x :
  live st R → keeps st st' R → (∀ p, p ∈ ptr_of oa → p ∈ R) →
  object_touched v st' oa w x ↔ object_touched v st oa w x.
Proof.
  intros Hc Hk Hin. unfold object_touched.
  assert (∀ l, lists st' oa l ↔ lists st oa l) as Hl by (intros l; by eapply keeps_lists).
  setoid_rewrite Hl. done.
Qed.

Lemma keeps_object_ok st st' R oa :
  live st R → keeps st st' R → (∀ p, p ∈ ptr_of oa → p ∈ R) → object_ok st oa → object_ok st' oa.
Proof.
  intros Hc Hk Hin. unfold object_ok. destruct (allocFreeInstruction oa); [done|].
  intros (l & Hl & Hok). exists l. split; [|done]. by eapply keeps_lists.
Qed.

Lemma keeps_epoch_ok feasible st st' R m :
  live st R → keeps st st' R → (∀ a oa p, m !! a = Some oa → p ∈ ptr_of oa → p ∈ R) →
  epoch_ok feasible st m → epoch_ok feasible st' m.
Proof.
  intros Hc Hk Hin Hm a oa Ha. destruct (Hm a oa Ha) as [Hok Hb].
  split; [apply (keeps_object_ok st st' R); eauto|]. intros l Hl. apply Hb.
  apply (keeps_lists st st' R oa l Hc Hk); eauto.
Qed.
End kept.

(** ** The detector's record *)

Section record.
Context {PL : Payload} {EL : ExprLib} {ES : ExprSem}.
Context (feasible : assignment → Prop) (Hfe : ∃ v, feasible v).
Implicit Types (st : store) (m : EpochMemoryAccesses) (oa : ObjectAccesses) (d : DataRaceDetection) (t : thread_id).
Implicit Types (op : MemoryOperation) (R : list N) (h : heap) (heads : smap thread_id eid).

Definition touched v st d t (x : eid) (a : Z) (w : bool) (b : Z) : Prop := ∃ m oa,
  (x, m) ∈ epochs_of d t ∧ m !! a = Some oa ∧ object_touched v st oa w b.

(** The accesses of a state so far: the event after which, and the
    operation. *)
Definition history : Type := list (eid * MemoryOperation).

Definition touched_by v (H : history) t (x : eid) (a : Z) (w : bool) (b : Z) : Prop := ∃ op obj,
  (x, op) ∈ H ∧ op_tid op = t ∧ op_object op = Some obj ∧ mo_address obj = a ∧ op_touches v op w b.

(** What is known of the detector of a state: [R] are the pointers of the
    other states. *)
Record monitored h heads st R d (H : history) : Prop := {
  mt_counted : counted st (detector_ptrs d ++ R);
  mt_sorted : smap_sorted (dr_accesses d);
  mt_inv : detector_inv h heads feasible st d;
  mt_known t : epochs_of d t ≠ [] → is_Some (smap_find t heads);
  mt_record v t x a w b : touched v st d t x a w b ↔ touched_by v H t x a w b;
}.

(** Forgetting the accesses of a thread to an object in one epoch. *)
Definition forgets t (x : eid) (a : Z) (e : eid * MemoryOperation) : bool :=
  tid_eqb (op_tid e.2) t && bool_decide (e.1 = x) &&
  match op_object e.2 with Some o => mo_address o =? a | None => false end.
Definition forget t (x : eid) (a : Z) (H : list (eid * MemoryOperation)) : history :=
  filter (λ e, forgets t x a e = false) H.

Lemma forgets_spec t x a y op obj :
  op_object op = Some obj → forgets t x a (y, op) = false ↔ ¬ (op_tid op = t ∧ y = x ∧ mo_address obj = a).
Proof.
  intros Ho. unfold forgets. cbn [fst snd]. rewrite Ho.
  rewrite <-not_true_iff_false, !andb_true_iff, tid_eqb_spec, bool_decide_eq_true, Z.eqb_eq. tauto.
Qed.

Lemma touched_by_forget v H t x a t' x' a' w b :
  touched_by v (forget t x a H) t' x' a' w b ↔
  touched_by v H t' x' a' w b ∧ ¬ (t' = t ∧ x' = x ∧ a' = a).
Proof.
  unfold touched_by, forget. setoid_rewrite list_elem_of_filter. split.
  - intros (op & obj & [Hf Hin] & <- & Ho & <- & Hto). apply (forgets_spec _ _ _ _ _ obj Ho) in Hf. eauto 10.
  - intros [(op & obj & Hin & <- & Ho & <- & Hto) Hne]. exists op, obj. split; [|done].
    split; [by apply (forgets_spec _ _ _ _ _ obj Ho) | done].
Qed.

(** One access tracked by the state, with the facts about its neighbours. *)
Section one.
Context (h : heap) (heads : smap thread_id eid) (st st' : store) (R : list N) (d d' : DataRaceDetection).
Context (H : history) (op : MemoryOperation) (ev : eid) (obj : MemoryObject).
Context (before : list (eid * EpochMemoryAccesses)) (acc acc' : EpochMemoryAccesses).
Context (Hm : monitored h heads st R d H) (Ht : access_tracked heads st d op st' d' R ev obj before acc acc').
Abbreviation tid := (op_tid op).
Abbreviation addr := (mo_address obj).
Abbreviation others := ((object_ptrs (delete addr acc) ++ epoch_ptrs before ++ other_ptrs tid d) ++ R).

Lemma others_live : live st others.
Proof.
  apply (counted_live st (detector_ptrs d ++ R)); [apply Hm|]. intros p.
  rewrite (detector_ptrs_split tid d (mt_sorted _ _ _ _ _ _ Hm)),
    (getAccessesAfter_ptrs _ _ _ _ (at_epoch _ _ _ _ _ _ _ _ _ _ _ _ Ht)), (object_ptrs_split addr acc).
  set_solver.
Qed.

(** The epochs of the thread before and after. *)
Lemma old_epochs x m :
  (x, m) ∈ epochs_of d tid → (x, m) ∈ before ∨ x = ev ∧ m = acc.
Proof.
  destruct (getAccessesAfter_spec _ _ _ _ (at_epoch _ _ _ _ _ _ _ _ _ _ _ _ Ht)) as [->|(-> & _ & _)]; [set_solver | by left].
Qed.

Lemma before_epochs x m : (x, m) ∈ before → (x, m) ∈ epochs_of d tid.
Proof.
  destruct (getAccessesAfter_spec _ _ _ _ (at_epoch _ _ _ _ _ _ _ _ _ _ _ _ Ht)) as [->|(-> & _ & _)]; set_solver.
Qed.

Lemma acc_epochs : acc = ∅ ∨ (ev, acc) ∈ epochs_of d tid.
Proof.
  destruct (getAccessesAfter_spec _ _ _ _ (at_epoch _ _ _ _ _ _ _ _ _ _ _ _ Ht)) as [->|(_ & -> & _)]; [right; set_solver | by left].
Qed.

Context (Hwf : wf_heap h) (Hsh : smap_sorted heads).

Lemma Hhead : (tid, ev) ∈ heads.
Proof. apply smap_elem_find; [done | apply Ht]. Qed.

(** The last epoch is the one of the head. *)
Lemma before_older x m : (x, m) ∈ before → thread_le h x ev ∧ x ≠ ev.
Proof.
  intros Hx. destruct (di_order _ _ _ _ _ (mt_inv _ _ _ _ _ _ Hm) tid ev Hhead) as [Hsort Hle].
  assert ((x, m) ∈ reverse (epochs_of d tid)) as Hx' by (rewrite elem_of_reverse; by apply before_epochs).
  split; [by apply (Hle (x, m))|].
  destruct (getAccessesAfter_spec _ _ _ _ (at_epoch _ _ _ _ _ _ _ _ _ _ _ _ Ht)) as [E|(E1 & _ & Hlast)].
  - rewrite E, reverse_app in Hsort. apply StronglySorted_inv in Hsort as [_ Hall].
    rewrite list.Forall_forall in Hall. apply (Hall (x, m)). by rewrite elem_of_reverse.
  - subst before. destruct (reverse (epochs_of d tid)) as [|[y my] r] eqn:Er; [by apply elem_of_nil in Hx'|].
    intros ->. apply elem_of_cons in Hx' as [[= -> ->]|Hx']; [done|].
    apply StronglySorted_inv in Hsort as [_ Hall]. rewrite list.Forall_forall in Hall.
    destruct (Hall _ Hx') as [Hley Hney]. simpl in *.
    assert (thread_le h y ev) as Hyev by (apply (Hle (y, my)); by left).
    apply thread_le_inv in Hley as [->|(q & Hq & Hle')]; [done|].
    apply (thread_le_dep h Hwf) in Hle', Hyev. apply tpred_dep in Hq; [lia | done].
Qed.

Lemma new_order : in_order h heads d'.
Proof.
  intros t p Hp. destruct (decide (t = tid)) as [->|Hne].
  2:{ rewrite (at_others _ _ _ _ _ _ _ _ _ _ _ _ Ht t Hne). by apply (mt_inv _ _ _ _ _ _ Hm). }
  assert (p = ev) as ->.
  { pose proof (at_head _ _ _ _ _ _ _ _ _ _ _ _ Ht) as He. apply smap_elem_find in Hp; [congruence | done]. }
  rewrite (at_epochs _ _ _ _ _ _ _ _ _ _ _ _ Ht), reverse_app. simpl. split.
  - constructor.
    + destruct (di_order _ _ _ _ _ (mt_inv _ _ _ _ _ _ Hm) tid ev Hhead) as [Hsort _].
      destruct (getAccessesAfter_spec _ _ _ _ (at_epoch _ _ _ _ _ _ _ _ _ _ _ _ Ht)) as [E|(-> & _ & _)]; [|done].
      rewrite E, reverse_app in Hsort. by apply StronglySorted_inv in Hsort as [? _].
    + apply list.Forall_forall. intros [x m] Hx. apply (before_older x m). by rewrite elem_of_reverse in Hx.
  - intros [x m] [[= -> ->]|Hx]%elem_of_cons; [reflexivity|]. apply (before_older x m). by rewrite elem_of_reverse in Hx.
Qed.

Lemma new_known t : epochs_of d' t ≠ [] → is_Some (smap_find t heads).
Proof.
  destruct (decide (t = tid)) as [->|Hne]; [rewrite (at_head _ _ _ _ _ _ _ _ _ _ _ _ Ht); eauto|].
  rewrite (at_others _ _ _ _ _ _ _ _ _ _ _ _ Ht t Hne). apply Hm.
Qed.

(** An object other than the operation's, in an epoch of the detector. *)
Lemma new_object t x m a oa :
  (x, m) ∈ epochs_of d' t → m !! a = Some oa → ¬ (t = tid ∧ x = ev ∧ a = addr) →
  (∃ m0, (x, m0) ∈ epochs_of d t ∧ m0 !! a = Some oa) ∧
  (object_ok st oa → object_ok st' oa) ∧ (∀ l, lists st' oa l ↔ lists st oa l) ∧
  ∀ v w b, object_touched v st' oa w b ↔ object_touched v st oa w b.
Proof.
  intros Hx Ha Hne.
  assert (∃ m0, (x, m0) ∈ epochs_of d t ∧ m0 !! a = Some oa ∧
    ∀ p, p ∈ ptr_of oa → p ∈ others) as (m0 & Hx0 & Ha0 & Hp).
  { destruct (decide (t = tid)) as [->|Hnt].
    - rewrite (at_epochs _ _ _ _ _ _ _ _ _ _ _ _ Ht) in Hx. apply elem_of_app in Hx as [Hx|Hx].
      + exists m. split_and!; [by apply before_epochs | done|]. intros p Hp. rewrite !elem_of_app. left. right. left.
        by apply (epoch_ptr_elem before x m a oa).
      + apply list_elem_of_singleton in Hx as [= -> ->]. assert (a ≠ addr) as Hna by naive_solver.
        assert (acc !! a = Some oa) as Hacc.
        { pose proof (at_access _ _ _ _ _ _ _ _ _ _ _ _ Ht) as Hac. destruct (isFree (op_type op)).
          - rewrite Hac, lookup_delete_ne in Ha; [done | congruence].
          - destruct Hac as (oa' & -> & _). by rewrite lookup_insert_ne in Ha. }
        exists acc. split_and!; [|done|].
        * destruct acc_epochs as [E|]; [|done]. by rewrite E, lookup_empty in Hacc.
        * intros p Hp. rewrite !elem_of_app. left. left. apply (object_ptr_elem _ a oa); [|done].
          rewrite lookup_delete_ne; [done | congruence].
    - rewrite (at_others _ _ _ _ _ _ _ _ _ _ _ _ Ht t Hnt) in Hx. exists m. split_and!; [done..|].
      intros p Hp. rewrite !elem_of_app. left. right. right.
      by apply (other_ptr_elem d tid t x m a oa p (mt_sorted _ _ _ _ _ _ Hm)). }
  pose proof others_live as Hlive. pose proof (at_keeps _ _ _ _ _ _ _ _ _ _ _ _ Ht) as Hk.
  split_and!; [eauto | by apply (keeps_object_ok st st' others) | |]; intros.
  - by apply (keeps_lists st st' others).
  - by apply (keeps_touched st st' others).
Qed.

(** And the other way round. *)
Lemma old_object t x m a oa :
  (x, m) ∈ epochs_of d t → m !! a = Some oa → ¬ (t = tid ∧ x = ev ∧ a = addr) →
  ∃ m', (x, m') ∈ epochs_of d' t ∧ m' !! a = Some oa.
Proof.
  intros Hx Ha Hne. destruct (decide (t = tid)) as [->|Hnt].
  - rewrite (at_epochs _ _ _ _ _ _ _ _ _ _ _ _ Ht). destruct (old_epochs x m Hx) as [Hb|[-> ->]].
    + exists m. split; [set_solver | done].
    + exists acc'. split; [set_solver|]. assert (a ≠ addr) as Hna by naive_solver.
      pose proof (at_access _ _ _ _ _ _ _ _ _ _ _ _ Ht) as Hac. destruct (isFree (op_type op)).
      * rewrite Hac, lookup_delete_ne; [done | congruence].
      * destruct Hac as (oa' & -> & _). by rewrite lookup_insert_ne.
  - rewrite (at_others _ _ _ _ _ _ _ _ _ _ _ _ Ht t Hnt). eauto.
Qed.

(** The object of the operation before the access. *)
Lemma acc_object oa : acc !! addr = Some oa → object_ok st oa ∧ ∀ l, lists st oa l → list_bounds feasible l.
Proof.
  intros Ha. destruct acc_epochs as [E|Hin]; [by rewrite E, lookup_empty in Ha|].
  by apply (di_epochs _ _ _ _ _ (mt_inv _ _ _ _ _ _ Hm) tid ev acc Hin addr oa).
Qed.

(** The last epoch holds the operation's object afterwards. *)
Lemma new_epoch_unique x m : (x, m) ∈ epochs_of d' tid → x = ev → m = acc'.
Proof.
  rewrite (at_epochs _ _ _ _ _ _ _ _ _ _ _ _ Ht). intros [Hx|Hx]%elem_of_app ->.
  - by destruct (before_older ev m Hx).
  - by apply list_elem_of_singleton in Hx as [= ->].
Qed.

Lemma acc_epoch_unique x m : (x, m) ∈ epochs_of d tid → x = ev → m = acc.
Proof. intros [Hx|[_ ->]]%old_epochs ->; [|done]. by destruct (before_older ev m Hx). Qed.

Lemma new_epoch : (ev, acc') ∈ epochs_of d' tid.
Proof. rewrite (at_epochs _ _ _ _ _ _ _ _ _ _ _ _ Ht). set_solver. Qed.

(** What the detector has recorded outside the operation's object and
    epoch. *)
Lemma touched_elsewhere v t x a w b :
  ¬ (t = tid ∧ x = ev ∧ a = addr) → touched v st' d' t x a w b ↔ touched v st d t x a w b.
Proof.
  intros Hne. split.
  - intros (m & oa & Hx & Ha & Hto). destruct (new_object t x m a oa Hx Ha Hne) as ((m0 & ? & ?) & _ & _ & Hiff).
    exists m0, oa. split_and!; [done..|]. by apply Hiff.
  - intros (m & oa & Hx & Ha & Hto). destruct (old_object t x m a oa Hx Ha Hne) as (m' & Hx' & Ha').
    destruct (new_object t x m' a oa Hx' Ha' Hne) as (_ & _ & _ & Hiff). exists m', oa. split_and!; [done..|]. by apply Hiff.
Qed.

(** An epoch of the new detector is well-formed if the operation's object
    is. *)
Lemma new_epochs_ok t x m :
  (∀ oa, acc' !! addr = Some oa → object_ok st' oa ∧ ∀ l, lists st' oa l → list_bounds feasible l) →
  (x, m) ∈ epochs_of d' t → epoch_ok feasible st' m.
Proof.
  intros Hobj Hx a oa Ha. destruct (decide (t = tid ∧ x = ev ∧ a = addr)) as [(-> & Hev & ->)|Hne].
  - rewrite (new_epoch_unique x m Hx Hev) in Ha. by apply Hobj.
  - destruct (new_object t x m a oa Hx Ha Hne) as ((m0 & Hx0 & Ha0) & Hok & Hl & _).
    destruct (di_epochs _ _ _ _ _ (mt_inv _ _ _ _ _ _ Hm) t x m0 Hx0 a oa Ha0) as [Hok0 Hb0].
    split; [auto|]. intros l Hl'. apply Hb0. by apply Hl.
Qed.

(** Whether two histories agree on an object in an epoch. *)
Lemma touched_by_cons v t x a w b :
  touched_by v ((ev, op) :: H) t x a w b ↔
  touched_by v H t x a w b ∨ (t = tid ∧ x = ev ∧ a = addr ∧ op_touches v op w b).
Proof.
  pose proof (at_object _ _ _ _ _ _ _ _ _ _ _ _ Ht) as Hobj. unfold touched_by. split.
  - intros (op' & obj' & [[= -> ->]|Hin]%elem_of_cons & <- & Ho & <- & Hto).
    + right. rewrite Hobj in Ho. injection Ho as <-. done.
    + left. exists op', obj'. auto.
  - intros [(op' & obj' & Hin & Hrest)|(-> & -> & -> & Hto)].
    + exists op', obj'. split; [by right | done].
    + exists op, obj. split_and!; [by left | done..].
Qed.

Lemma monitored_access :
  isFree (op_type op) = false → operation_ok feasible op →
  (∀ oa, acc !! addr = Some oa → object_unstraddled st oa op) →
  monitored h heads st' R d' ((ev, op) :: H).
Proof.
  intros Hf Hop Hst. pose proof (at_access _ _ _ _ _ _ _ _ _ _ _ _ Ht) as Hac. rewrite Hf in Hac.
  destruct Hac as (oa' & Hacc' & Htr).
  destruct (track_object_touched feasible st (default new_ObjectAccesses (acc !! addr)) op st' oa' Htr Hfe Hop)
    as (Hok' & Hb' & Hto').
  { apply Ht. }
  { destruct (acc !! addr) as [oa|] eqn:E; [left; by apply acc_object | by right]. }
  { destruct (acc !! addr) as [oa|] eqn:E; [by apply Hst|]. by intros l (p & s & Hp & _). }
  { destruct (acc !! addr) as [oa|] eqn:E; [by apply acc_object|]. by intros l (p & s & Hp & _). }
  split; [apply Ht | apply Ht | split; [apply new_order|] | apply new_known |].
  - intros t x m. apply new_epochs_ok. intros oa. rewrite Hacc', lookup_insert_eq. by intros [= <-].
  - intros v t x a w b. rewrite touched_by_cons, <-(mt_record _ _ _ _ _ _ Hm).
    destruct (decide (t = tid ∧ x = ev ∧ a = addr)) as [(-> & -> & ->)|Hne];
      [|rewrite touched_elsewhere by done; tauto].
    transitivity (object_touched v st' oa' w b).
    { split; [|intros Hto; exists acc', oa'; split_and!; [apply new_epoch | by rewrite Hacc', lookup_insert_eq | done]].
      intros (m & oa & Hx & Ha & Hto). rewrite (new_epoch_unique ev m Hx eq_refl), Hacc', lookup_insert_eq in Ha.
      by injection Ha as <-. }
    rewrite Hto'. transitivity (touched v st d tid ev addr w b ∨ op_touches v op w b); [|tauto].
    apply or_iff_compat_r. split.
    + destruct (acc !! addr) as [oa|] eqn:E; simpl.
      * intros Hto. exists acc, oa. split_and!; [|done|done]. destruct acc_epochs as [Ee|]; [|done].
        by rewrite Ee, lookup_empty in E.
      * intros [?|(l & (p & s & Hp & _) & _)]; done.
    + intros (m & oa & Hx & Ha & Hto). rewrite (acc_epoch_unique ev m Hx eq_refl) in Ha. by rewrite Ha.
Qed.
(** [FREE] removes the object from the epoch. *)
Lemma monitored_free :
  isFree (op_type op) = true → monitored h heads st' R d' (forget tid ev addr H).
Proof.
  intros Hf. pose proof (at_access _ _ _ _ _ _ _ _ _ _ _ _ Ht) as Hac. rewrite Hf in Hac.
  split; [apply Ht | apply Ht | split; [apply new_order|] | apply new_known |].
  - intros t x m. apply new_epochs_ok. intros oa. by rewrite Hac, lookup_delete_eq.
  - intros v t x a w b. rewrite touched_by_forget, <-(mt_record _ _ _ _ _ _ Hm).
    destruct (decide (t = tid ∧ x = ev ∧ a = addr)) as [(-> & -> & ->)|Hne];
      [|rewrite touched_elsewhere by done; tauto].
    split; [|naive_solver]. intros (m & oa & Hx & Ha & _).
    by rewrite (new_epoch_unique ev m Hx eq_refl), Hac, lookup_delete_eq in Ha.
Qed.
End one.

(** ** The other states *)

Lemma detector_ptr_elem d t x m a oa p :
  smap_sorted (dr_accesses d) → (x, m) ∈ epochs_of d t → m !! a = Some oa → p ∈ ptr_of oa → p ∈ detector_ptrs d.
Proof.
  intros Hs Hx Ha Hp. rewrite (detector_ptrs_split t d Hs), elem_of_app. left. by eapply epoch_ptr_elem.
Qed.

(** A state keeps its record when the store changes outside its lists. *)
Lemma monitored_kept h heads st st' R R' d H :
  monitored h heads st R d H → counted st' (detector_ptrs d ++ R') → keeps st st' (detector_ptrs d) →
  monitored h heads st' R' d H.
Proof.
  intros [Hc Hs [Hord Hep] Hkn Hrec] Hc' Hk.
  assert (live st (detector_ptrs d)) as Hlive by (eapply counted_live; [exact Hc | set_solver]).
  assert (∀ t x m a oa p, (x, m) ∈ epochs_of d t → m !! a = Some oa → p ∈ ptr_of oa → p ∈ detector_ptrs d) as Hin
    by (intros; by eapply detector_ptr_elem).
  split; [done | done | split; [done|] | done |].
  - intros t x m Hx. apply (keeps_epoch_ok feasible st st' (detector_ptrs d)); eauto.
  - intros v t x a w b. rewrite <-Hrec. unfold touched.
    assert (∀ m oa, (x, m) ∈ epochs_of d t → m !! a = Some oa →
      object_touched v st' oa w b ↔ object_touched v st oa w b) as Hiff.
    { intros m oa Hx Ha. apply (keeps_touched st st' (detector_ptrs d)); eauto. }
    split; intros (m & oa & Hx & Ha & Hto); exists m, oa; (split_and!; [done..|]); by apply (Hiff m oa).
Qed.

(** The same detector up to empty lists of epochs. *)
Lemma monitored_same h heads st R d d' H :
  monitored h heads st R d H → smap_sorted (dr_accesses d') → detector_ptrs d' ≡ₚ detector_ptrs d →
  (∀ t, epochs_of d' t = epochs_of d t) → monitored h heads st R d' H.
Proof.
  intros [Hc Hs [Hord Hep] Hkn Hrec] Hs' Hp He. split; [| done | split | |].
  - eapply counted_perm; [|exact Hc]. by rewrite Hp.
  - intros t p Hp'. rewrite He. by apply Hord.
  - intros t x m. rewrite He. apply Hep.
  - intros t. rewrite He. apply Hkn.
  - intros v t x a w b. rewrite <-Hrec. unfold touched. by rewrite He.
Qed.

End record.

(** ** Races as conflicts between logged accesses

    What [isDataRace] decides about the lists of the detector, in terms of the
    history of the state: two accesses conflict if they share a byte that one
    of them writes, where allocating an object counts as writing all of it. *)

Section conflicts.
Context {PL : Payload} {EL : ExprLib} {ES : ExprSem}.
Implicit Types (st : store) (m : EpochMemoryAccesses) (oa : ObjectAccesses) (op : MemoryOperation) (v : assignment).

(** Two sets of bytes, given with ([w]) and without the condition that the byte
    is written, have a byte in common that is written on one side. *)
Definition clash (f g : bool → Z → Prop) : Prop := ∃ b w, f w b ∧ g (negb w) b.

(** The accesses of a list cover bytes. *)
Lemma tracked_touched v l b a x w :
  tracked_at v l b a → counts w (type a) = true → b ≤ x < b + numBytes a → list_touched v l w x.
Proof.
  intros [Hin|(k & Hin & ->)] Hw Hx.
  - left. apply Exists_exists. by exists (b, a).
  - right. by exists k, a.
Qed.

Lemma touched_tracked v l w x :
  list_touched v l w x →
  ∃ b a, tracked_at v l b a ∧ counts w (type a) = true ∧ b ≤ x < b + numBytes a.
Proof.
  intros [([b a] & Hin & Hw & Hx)%Exists_exists|(k & a & Hin & Hw & Hx)].
  - exists b, a. split_and!; [by left | done | apply Hx..].
  - exists (eval v k), a. split_and!; [right; by exists k | done | lia..].
Qed.

Lemma tracked_bytes v l b a : list_ok l → tracked_at v l b a → 0 < numBytes a.
Proof.
  intros [Hc Hs _] [Hin|(k & Hin & _)].
  - by apply (eo_bytes (b, a)), (cm_ok_entry (concrete l)).
  - apply (mo_entry _ Hs (k, a) Hin).
Qed.

Lemma list_ok_touched v l : list_ok l → ∃ x, list_touched v l false x.
Proof.
  intros Hl. assert (∃ b a, tracked_at v l b a) as (b & a & Ht).
  { unfold tracked_at. destruct (lo_some _ Hl) as [Hne|Hne].
    - destruct (concrete l) as [|[b a] r]; [done|]. exists b, a. left. by left.
    - destruct (symbolic l) as [|[k a] r]; [done|]. exists (eval v k), a. right. exists k. split; [by left | done]. }
  exists b. apply (tracked_touched v l b a b false Ht); [done|]. pose proof (tracked_bytes v l b a Hl Ht). lia.
Qed.

Lemma object_ok_touched v st oa : object_ok st oa → ∃ x, object_touched v st oa false x.
Proof.
  intros Hok. destruct (oa_isAllocOrFree oa) eqn:E; [exists 0; by left|].
  destruct (object_ok_list st oa Hok E) as (l & Hl & Hlo). destruct (list_ok_touched v l Hlo) as [x Hx].
  exists x. right. eauto.
Qed.

Lemma racing_counts op a :
  racing op a = true ↔ isWrite (op_type op) = true ∨ isWrite (type a) = true.
Proof. apply orb_true_iff. Qed.

(** A collision with a list is a conflict over a byte. *)
Lemma collides_clash v op off l :
  list_ok l → isAllocOrFree (op_type op) = false → op_offset op = Some off → 0 < op_numBytes op →
  collides v op off l ↔ clash (op_touches v op) (list_touched v l).
Proof.
  intros Hl Hal Hoff Hn. unfold collides, clash, op_touches. rewrite Hal, Hoff. split.
  - intros (b & a & Ht & Hr & [Ho1 Ho2]).
    assert (∃ x, eval v off ≤ x < eval v off + op_numBytes op ∧ b ≤ x < b + numBytes a) as (x & Hx & Hx').
    { pose proof (tracked_bytes v l b a Hl Ht). destruct (Z.le_ge_cases (eval v off) b) as [?|?].
      - exists b. lia.
      - exists (eval v off). lia. }
    exists x. apply racing_counts in Hr as [Hw|Hw]; [exists true | exists false]; (split; [right; exists off|]).
    + split_and!; [done | exact Hw | lia..].
    + by apply (tracked_touched v l b a).
    + split_and!; [done | done | lia..].
    + by apply (tracked_touched v l b a).
  - intros (x & w & [?|(off' & [= <-] & Hw & Hx)] & Hto); [done|].
    apply touched_tracked in Hto as (b & a & Ht & Hc & Hb). exists b, a.
    split_and!; [done | apply racing_counts | unfold overlap; lia]. destruct w; [by left | by right].
Qed.

(** The races with an epoch. *)
Lemma races_clash feasible v st op m :
  operation_ok feasible op → feasible v → epoch_ok feasible st m →
  races v st op m ↔ ∃ obj oa, op_object op = Some obj ∧ m !! mo_address obj = Some oa ∧
    clash (op_touches v op) (object_touched v st oa).
Proof.
  intros [_ Hop] Hv Hm. unfold races. f_equiv; intros obj. f_equiv; intros oa. split.
  - intros (Hobj & Ha & Hr). split_and!; [done..|]. destruct (Hm _ _ Ha) as [Hok _].
    destruct (object_ok_touched v st oa Hok) as [x Hx]. unfold clash.
    destruct (isAllocOrFree (op_type op)) eqn:Eop.
    { exists x, true. split; [by left | done]. }
    destruct (oa_isAllocOrFree oa) eqn:Eoa.
    { destruct Hop as [?|(_ & off & Hoff & _ & Hn & _)]; [congruence|]. exists (eval v off), false.
      split; [|by left]. right. exists off. split_and!; [done | done | lia..]. }
    destruct Hr as [?|[?|(off & l & Hoff & Hl & Hc)]]; [done..|].
    destruct (object_ok_list st oa Hok Eoa) as (l' & Hl' & Hlo). rewrite <-(lists_unique _ _ _ _ Hl Hl') in Hlo.
    destruct Hop as [?|(_ & off' & Hoff' & _ & Hn & _)]; [congruence|].
    apply (collides_clash v op off l Hlo Eop Hoff Hn) in Hc as (b & w & Hb & Hto). exists b, w.
    split; [done|]. right. by exists l.
  - intros (Hobj & Ha & b & w & Hb & Hto). split_and!; [done..|]. destruct (Hm _ _ Ha) as [Hok _].
    destruct (isAllocOrFree (op_type op)) eqn:Eop; [by left|].
    destruct (oa_isAllocOrFree oa) eqn:Eoa; [by right; left|]. right. right.
    destruct (object_ok_list st oa Hok Eoa) as (l & Hl & Hlo).
    destruct Hop as [?|(_ & off & Hoff & _ & Hn & _)]; [congruence|]. exists off, l. split_and!; [done..|].
    apply (collides_clash v op off l Hlo Eop Hoff Hn). exists b, w. split; [done|].
    destruct Hto as [?|(l' & Hl' & Hto)]; [congruence|]. by rewrite (lists_unique _ _ _ _ Hl Hl').
Qed.

(** ** Against the history *)

(** Two operations on the same object that share a byte that one of them
    writes, for the symbolic values [v]. *)
Definition conflict v op op' : Prop := ∃ obj obj',
  op_object op = Some obj ∧ op_object op' = Some obj' ∧ mo_address obj = mo_address obj' ∧
  clash (op_touches v op) (op_touches v op').

(** The access that another thread made after its event [x] does not happen
    before [cur]: the next event of that thread is not among the causes. *)
Definition unsynchronised h (heads : smap thread_id eid) (cur : eid) op (x : eid) op' : Prop :=
  op_tid op' ≠ op_tid op ∧ ∃ p, smap_find (op_tid op') heads = Some p ∧ open_epoch h p cur x.

Definition races_with feasible h heads cur (H : history) op op' : Prop := ∃ x v,
  (x, op') ∈ H ∧ unsynchronised h heads cur op x op' ∧ feasible v ∧ conflict v op op'.

Context (feasible : assignment → Prop) (h : heap) (heads : smap thread_id eid) (st : store) (R : list N).
Context (d : DataRaceDetection) (H : history) (Hm : monitored feasible h heads st R d H).
Context (Hsh : smap_sorted heads).

Lemma unordered_races op cur t v :
  operation_ok feasible op → feasible v →
  (∃ m, unordered h heads op cur d t m ∧ races v st op m) ↔
  ∃ x op', (x, op') ∈ H ∧ op_tid op' = t ∧ unsynchronised h heads cur op x op' ∧ conflict v op op'.
Proof.
  intros Hop Hv. unfold unordered, concurrent_with.
  assert (∀ x m, (x, m) ∈ epochs_of d t → epoch_ok feasible st m) as Hok by apply (mt_inv _ _ _ _ _ _ _ Hm).
  split.
  - intros (m & (Hne & p & x & Hp & Hx & Hopen) & Hr).
    apply (races_clash feasible v st op m Hop Hv) in Hr as (obj & oa & Hobj & Ha & b & w & Hb & Hto); [|by eauto].
    assert (touched_by v H t x (mo_address obj) (negb w) b) as (op' & obj' & Hin & Ht' & Hobj' & Haddr & Hw').
    { apply (mt_record _ _ _ _ _ _ _ Hm). by exists m, oa. }
    exists x, op'. split_and!; [done..| |].
    + split; [congruence|]. exists p. split; [|done]. rewrite Ht'. by apply smap_elem_find.
    + exists obj, obj'. split_and!; [done..|]. by exists b, w.
  - intros (x & op' & Hin & <- & (Hne & p & Hp & Hopen) & obj & obj' & Hobj & Hobj' & Haddr & b & w & Hb & Hto).
    assert (touched v st d (op_tid op') x (mo_address obj) (negb w) b) as (m & oa & Hx & Ha & Hw').
    { apply (mt_record _ _ _ _ _ _ _ Hm). by exists op', obj'. }
    exists m. split.
    + split; [done|]. exists p, x. split_and!; [by apply smap_elem_find | done..].
    + apply (races_clash feasible v st op m Hop Hv); [by eauto|].
      exists obj, oa. split_and!; [done..|]. by exists b, w.
Qed.
End conflicts.
