(* ===== verification/World.v ===== *)
(** * Worlds of watching execution states

    Execution states over one unfolding, each with a configuration, a path
    condition, a race detector and the history of its accesses: the steps of
    such a world, its invariant, and that every step keeps it. *)

From stdpp Require Import base tactics list gmap numbers relations sorting.
From S2P Require Import Prelude StdMap ThreadId Event Comb CombEnum CombProofs Cone Alloc Causality.
From S2P Require Import AllocProofs HeapExt Order Walks Demo Independence Unfolding Configuration.
From S2P Require Import ColorProofs UnfoldingProofs DedupProofs Scenario Dependence Heads Booking.
From S2P Require Import ConfInv OpBase OpProofs OpCond Startup System NodeOps ObjectAccesses.
From S2P Require Import AccessProofs SharedProofs RaceDetection RaceWalk RaceCheck RaceDecide.
From S2P Require Import Tracking Monitor.

(** ** Execution states that watch for data races

    Execution states over one unfolding, each with its configuration, path
    condition and race detector; the lists of accesses are shared between the
    detectors of states that forked from each other. A state performs events,
    accesses memory through [processMemoryAccess], forks, narrows its path
    condition and terminates. As long as no access straddles another one of
    its thread ([undisturbed]), each detector has recorded exactly what the
    history of its own state holds. *)

(** ** The checks leave the detector's lists alone *)

Section unchanged.
Context {PL : Payload} {EL : ExprLib}.
Implicit Types (d : DataRaceDetection) (t : thread_id).

(** The same pointers in a sorted map. *)
Definition same_lists d d' : Prop :=
  smap_sorted (dr_accesses d) → smap_sorted (dr_accesses d') ∧ detector_ptrs d' ≡ₚ detector_ptrs d.

Lemma same_lists_refl d : same_lists d d.
Proof. done. Qed.

Lemma same_lists_trans d1 d2 d3 : same_lists d1 d2 → same_lists d2 d3 → same_lists d1 d3.
Proof. intros H1 H2 Hs. destruct (H1 Hs) as [Hs2 Hp]. destruct (H2 Hs2) as [? ->]. done. Qed.

Lemma same_lists_get t d : same_lists d (getAccessListOfThread t d).1.
Proof.
  intros Hs. unfold getAccessListOfThread, smap_emplace. simpl.
  destruct (smap_find t (dr_accesses d)) as [l|] eqn:E; [by destruct d|]. split; [by apply smap_set_sorted|].
  rewrite detector_ptrs_set by done. rewrite (detector_ptrs_split t d Hs). unfold epochs_of. by rewrite E.
Qed.

Lemma threads_loop_lists {S R} (body : thread_id → S → EpochMemoryAccesses → res (flow S R)) h self cur hs d s d' f :
  threads_loop body h self cur d s hs = Ok (d', f) → same_lists d d'.
Proof.
  revert d s. induction hs as [|[t p] hs IH]; intros d s; cbn [threads_loop].
  { intros [= <- _]. apply same_lists_refl. }
  destruct (tid_eqb t self); [apply IH|].
  destruct (getAccessListOfThread t d) as [d1 l] eqn:Eg.
  assert (same_lists d d1) as H1 by (change d1 with (d1, l).1; rewrite <-Eg; apply same_lists_get).
  intros ([s'|r] & _ & H)%bind_ok.
  - eapply same_lists_trans; [exact H1 | by eapply IH].
  - by injection H as <- _.
Qed.

Lemma isDataRace_lists h heads sv sh d op sh' d' r :
  isDataRace h heads sv sh d op = Ok (sh', d', r) → same_lists d d'.
Proof.
  unfold isDataRace. cbn zeta. intros ([d1 easy] & Hf & H)%bind_ok.
  assert (same_lists d d1) as H1.
  { unfold FastPath in Hf. apply bind_ok in Hf as (cur & _ & Hf). apply bind_ok in Hf as ([d2 f] & Hf & [= <- _]).
    exact (threads_loop_lists _ _ _ _ _ (count inc_checks d) _ _ _ Hf). }
  destruct easy as [r1|]; [by injection H as <- <- <-|]. apply bind_ok in H as ([d2 r2] & Hs & H).
  injection H as <- <- <-. eapply same_lists_trans; [exact H1|].
  unfold SolverPath in Hs. apply bind_ok in Hs as (cur & _ & Hs). apply bind_ok in Hs as ([d3 f] & Hs & Hr).
  destruct f as [cs|[]]. apply bind_ok in Hr as (? & _ & Hr). apply bind_ok in Hr as (? & _ & [= <- _]).
  exact (threads_loop_lists _ _ _ _ _ _ _ _ _ Hs).
Qed.
End unchanged.

(** ** Copying and destroying a detector *)

Section lifetime.
Context {PL : Payload} {EL : ExprLib}.
Implicit Types (st : store) (R l : list N).

Lemma retain_all st R l :
  counted st R → (∀ p, p ∈ l → p ∈ R) →
  counted (foldr retain st l) (l ++ R) ∧ keeps st (foldr retain st l) R.
Proof.
  intros Hc. induction l as [|p l IH]; intros Hin; simpl; [split; [done | apply keeps_refl]|].
  destruct IH as [IHc IHk]; [intros q Hq; apply Hin; by right|].
  destruct (retain_spec _ _ p IHc) as [Hc' Hk']; [rewrite elem_of_app; right; apply Hin; by left|].
  split; [done|]. eapply keeps_trans; [exact IHk|]. eapply keeps_sub; [|exact Hk']. set_solver.
Qed.

Lemma release_all st R l :
  counted st (l ++ R) → counted (foldr release st l) R ∧ keeps st (foldr release st l) R.
Proof.
  revert R. induction l as [|p l IH]; intros R Hc; simpl in *; [split; [done | apply keeps_refl]|].
  destruct (IH (p :: R)) as [IHc IHk]; [eapply counted_perm; [|exact Hc]; by rewrite Permutation_middle|].
  destruct (release_spec _ _ _ IHc) as [Hc' Hk']. split; [done|].
  eapply keeps_trans; [|exact Hk']. eapply keeps_sub; [|exact IHk]. set_solver.
Qed.
End lifetime.

(** ** The record moves with the configuration *)

Section moving.
Context {PL : Payload} {EL : ExprLib} {ES : ExprSem}.
Implicit Types (h : heap) (heads : smap thread_id eid).

Lemma ext_tpred h h' q p : heap_ext h h' → tpred h q p → tpred h' q p.
Proof.
  intros Hext (e & Hp & Ht). destruct (Hext p e Hp) as (e' & Hp' & Hs).
  exists e'. by rewrite <-(thread_predecessor_proper _ _ Hs).
Qed.

Lemma ext_thread_le h h' x y : heap_ext h h' → thread_le h x y → thread_le h' x y.
Proof. intros Hext. apply (rtc_congruence (λ x, x)). intros ??. by apply ext_tpred. Qed.

Lemma sorted_weaken {A} (P Q : relation A) l :
  (∀ a b, P a b → Q a b) → StronglySorted P l → StronglySorted Q l.
Proof.
  intros HPQ. induction 1 as [|a l Hl IH Ha]; constructor; [done|]. eapply Forall_impl; [exact Ha | apply HPQ].
Qed.

(** Events are appended to threads. *)
Lemma monitored_moved feasible h h' heads heads' st R d H :
  heap_ext h h' → smap_sorted heads → smap_sorted heads' →
  (∀ t p, smap_find t heads = Some p → ∃ p', smap_find t heads' = Some p' ∧ thread_le h' p p') →
  monitored feasible h heads st R d H → monitored feasible h' heads' st R d H.
Proof.
  intros Hext Hs Hs' Hmv [Hc Hsd [Hord Hep] Hkn Hrec]. split; [done | done | split; [|done] | | done].
  - intros t p' Hp'. destruct (decide (epochs_of d t = [])) as [->|Hne].
    { split; [constructor | by intros a ?%elem_of_nil]. }
    destruct (Hkn t Hne) as [p Hp]. destruct (Hmv t p Hp) as (p2 & Hp2 & Hle).
    apply smap_elem_find in Hp'; [|done]. assert (p2 = p') as -> by congruence.
    destruct (Hord t p) as [Hsort Hbound]; [by apply smap_elem_find|]. split.
    + eapply sorted_weaken; [|exact Hsort]. intros a b [? ?]. split; [by apply (ext_thread_le h) | done].
    + intros a Ha. trans p; [|done]. by apply (ext_thread_le h), Hbound.
  - intros t Hne. destruct (Hkn t Hne) as [p Hp]. destruct (Hmv t p Hp) as (p' & ? & _). eauto.
Qed.

Lemma monitored_narrowed (feasible feasible' : assignment → Prop) h heads st R d H :
  (∀ v, feasible' v → feasible v) → monitored feasible h heads st R d H → monitored feasible' h heads st R d H.
Proof.
  intros Hsub [Hc Hsd [Hord Hep] Hkn Hrec]. split; [done | done | split; [done|] | done | done].
  intros t x m Hx a oa Ha. destruct (Hep t x m Hx a oa Ha) as [Hok Hb]. split; [done|].
  intros l Hl k acc Hin. destruct (Hb l Hl k acc Hin) as (? & ? & Hend). split_and!; [done..|]. auto.
Qed.

Lemma monitored_new feasible h heads R : counted ∅ R → monitored feasible h heads ∅ R new_DataRaceDetection [].
Proof.
  intros Hc. split; [done | constructor | split | done |].
  - intros t p Hp. split; [constructor | by intros a ?%elem_of_nil].
  - by intros t x m ?%elem_of_nil.
  - intros v t x a w b. split; [by intros (m & oa & ?%elem_of_nil & _) | by intros (op & obj & ?%elem_of_nil & _)].
Qed.
End moving.

Section world.
Context {PL : Payload} {AL : Allocator} {EL : ExprLib} {ES : ExprSem}.
Implicit Types (u : unfolding) (c : configuration) (o : operation) (op : MemoryOperation).
Implicit Types (st : store) (sh : shared) (d : DataRaceDetection).

(** An execution state as far as races are concerned, with the accesses it
    has made. *)
Record xstate := XState {
  xs_conf : configuration;
  xs_path : assignment → Prop;
  xs_det : DataRaceDetection;
  xs_hist : history;
}.
Implicit Types (x y : xstate) (xs : list xstate).

Record world := World { wo_unfolding : unfolding; wo_shared : shared; wo_states : list xstate }.

Abbreviation hp := uf_heap.
Abbreviation heads_of x := (cf_thread_heads (xs_conf x)).

(** The history after an access at [ev]. As in [trackAccess], a [FREE] removes
    what its thread did to the object since [ev] and is not itself kept. *)
Definition log (ev : eid) op (H : history) : history :=
  if isFree (op_type op) then
    match op_object op with Some obj => forget (op_tid op) ev (mo_address obj) H | None => H end
  else (ev, op) :: H.

(** No access of the current epoch straddles the new one, see [straddles]: the
    code keeps the size of an access that it moves to the end of a new one
    (ObjectAccesses.cpp:118 and 143), and then records bytes that were not
    accessed. *)
Definition undisturbed st d (ev : eid) op : Prop := ∀ obj m oa,
  op_object op = Some obj → (ev, m) ∈ epochs_of d (op_tid op) → m !! mo_address obj = Some oa →
  object_unstraddled st oa op.

(** A new constraint narrows the path condition. *)
Definition assuming (e : option expr) (path : assignment → Prop) : assignment → Prop :=
  λ v, path v ∧ match e with Some e => eval v e ≠ 0%Z | None => True end.

Inductive world_step : relation world :=
  | world_event u sh xs i x o u' c' p :
      xs !! i = Some x → admissible u (xs_conf x) o → perform o u (xs_conf x) = Ok (u', c', p) →
      world_step (World u sh xs)
        (World u' sh (<[i := XState c' (xs_path x) (xs_det x) (xs_hist x)]> xs))
  | world_insert u sh xs e u' unknown p :
      new_event_ok (hp u) e → deduplicate e u = Ok (u', unknown, p) →
      world_step (World u sh xs) (World u' sh xs)
  | world_access u sh xs i x op sv n ev sh' d' nc :
      xs !! i = Some x → smap_find (op_tid op) (heads_of x) = Some ev →
      operation_ok (xs_path x) op → solver_sound (xs_path x) sv →
      undisturbed (sh_store sh) (xs_det x) ev op →
      processMemoryAccess true n (hp u) (heads_of x) sv sh (xs_det x) op = Ok (sh', d', Safe nc) →
      (∃ v, assuming nc (xs_path x) v) →
      world_step (World u sh xs)
        (World u sh' (<[i := XState (xs_conf x) (assuming nc (xs_path x)) d' (log ev op (xs_hist x))]> xs))
  | world_race u sh xs i x op sv n ev sh' d' t instr :
      xs !! i = Some x → smap_find (op_tid op) (heads_of x) = Some ev → operation_ok (xs_path x) op → solver_sound (xs_path x) sv →
      processMemoryAccess true n (hp u) (heads_of x) sv sh (xs_det x) op = Ok (sh', d', Terminated t instr) →
      world_step (World u sh xs)
        (World u (set_store (destroy_detector d' (sh_store sh')) sh') (delete i xs))
  | world_fork u sh xs i x addr :
      xs !! i = Some x →
      world_step (World u sh xs)
        (World u (set_store (copy_detector (xs_det x) (sh_store sh)) sh)
           (xs ++ [XState (copy_configuration addr (xs_conf x)) (xs_path x) (xs_det x) (xs_hist x)]))
  | world_branch u sh xs i x (path : assignment → Prop) :
      xs !! i = Some x → (∀ v, path v → xs_path x v) → (∃ v, path v) →
      world_step (World u sh xs)
        (World u sh (<[i := XState (xs_conf x) path (xs_det x) (xs_hist x)]> xs))
  | world_end u sh xs i x :
      xs !! i = Some x →
      world_step (World u sh xs)
        (World u (set_store (destroy_detector (xs_det x) (sh_store sh)) sh) (delete i xs)).

(** One state without accesses. *)
Inductive world_initial : world → Prop :=
  | world_start u c (path : assignment → Prop) stats :
      initial (System u [c]) → (∃ v, path v) →
      world_initial (World u {| sh_store := ∅; sh_stats := stats |} [XState c path new_DataRaceDetection []]).

Definition reachable_world (w : world) : Prop := ∃ w0, world_initial w0 ∧ rtc world_step w0 w.

(** ** The invariant *)

(** A state with the record of its accesses; [R] are the pointers of the other
    states. *)
Record watched u st x (R : list N) : Prop := {
  wd_conf : configured u (xs_conf x);
  wd_path : ∃ v, xs_path x v;
  wd_record : monitored (xs_path x) (hp u) (heads_of x) st R (xs_det x) (xs_hist x);
}.

Definition refs xs : list N := xs ≫= λ x, detector_ptrs (xs_det x).

Record world_ok u st xs : Prop := {
  wk_unfolding : uf_ok u;
  wk_counted : counted st (refs xs);
  wk_states x : x ∈ xs → ∃ R, watched u st x R;
}.

Lemma refs_delete i x xs : xs !! i = Some x → refs xs ≡ₚ detector_ptrs (xs_det x) ++ refs (delete i xs).
Proof. intros Hi. unfold refs. by rewrite (delete_Permutation xs i x Hi) at 1. Qed.

Lemma delete_insert_list i y xs : delete i (<[i := y]> xs) = delete i xs.
Proof. revert i. induction xs as [|z xs IH]; intros [|i]; simpl; [done..|]. by rewrite IH. Qed.

Lemma refs_insert i x xs y :
  xs !! i = Some x → refs (<[i := y]> xs) ≡ₚ detector_ptrs (xs_det y) ++ refs (delete i xs).
Proof.
  intros Hi. assert (<[i := y]> xs !! i = Some y) as Hy by (apply list_lookup_insert_eq; by eapply lookup_lt_Some).
  rewrite (refs_delete i y _ Hy). by rewrite delete_insert_list.
Qed.

Lemma delete_elem i (z : xstate) xs : z ∈ delete i xs → z ∈ xs.
Proof. intros Hz. eapply elem_of_sublist; [exact Hz | apply sublist_delete]. Qed.

Lemma elem_delete_or i x z xs : xs !! i = Some x → z ∈ xs → z = x ∨ z ∈ delete i xs.
Proof. intros Hi. by rewrite (delete_Permutation xs i x Hi), elem_of_cons at 1. Qed.

Lemma refs_elem z xs : z ∈ xs → ∃ R, refs xs ≡ₚ detector_ptrs (xs_det z) ++ R.
Proof. intros [i Hi]%list_elem_of_lookup_1. exists (refs (delete i xs)). by apply refs_delete. Qed.

(** The states that stay keep their record as long as their lists do. *)
Lemma world_ok_intro u st xs u' st' xs' :
  world_ok u st xs → uf_ok u' → heap_ext (hp u) (hp u') → uf_root u' = uf_root u →
  counted st' (refs xs') →
  (∀ z, z ∈ xs' → z ∈ xs ∧ keeps st st' (detector_ptrs (xs_det z)) ∨ ∃ R, watched u' st' z R) →
  world_ok u' st' xs'.
Proof.
  intros [Hu Hc Hxs] Hu' Hext Hroot Hc' Hcases. split; [done..|]. intros z Hz.
  destruct (Hcases z Hz) as [[Hold Hk]|?]; [|done]. destruct (Hxs z Hold) as (R & [Hcd Hp Hm]).
  destruct (refs_elem z xs' Hz) as [R' HR']. exists R'. split; [by eapply kept_ok | done|].
  assert (smap_sorted (heads_of z)) as Hs by apply (cd_ok _ _ Hcd).
  apply (monitored_moved _ (hp u) _ (heads_of z)); [done..| |].
  - intros t p Htp. exists p. split; [done | reflexivity].
  - apply (monitored_kept _ Hp _ _ st st' R); [done | by rewrite <-HR' | done].
Qed.

(** One state changes. *)
Lemma world_ok_update u st xs i x u' st' y :
  world_ok u st xs → xs !! i = Some x → uf_ok u' → heap_ext (hp u) (hp u') → uf_root u' = uf_root u →
  counted st' (detector_ptrs (xs_det y) ++ refs (delete i xs)) → keeps st st' (refs (delete i xs)) →
  (∃ R, watched u' st' y R) → world_ok u' st' (<[i := y]> xs).
Proof.
  intros Hok Hi Hu' Hext Hroot Hc Hk Hy. apply (world_ok_intro u st xs); [done..| |].
  - eapply counted_perm; [|exact Hc]. by rewrite (refs_insert i x).
  - intros z Hz. destruct (elem_delete_or i y z (<[i := y]> xs)) as [->|Hz']; [|done|by right|left].
    { apply list_lookup_insert_eq. by eapply lookup_lt_Some. }
    rewrite delete_insert_list in Hz'. split; [by eapply delete_elem|].
    destruct (refs_elem z _ Hz') as [R' HR']. eapply keeps_sub; [|exact Hk]. intros p Hp. rewrite HR'. set_solver.
Qed.

(** One state ends. *)
Lemma world_ok_delete u st xs i st' :
  world_ok u st xs → counted st' (refs (delete i xs)) → keeps st st' (refs (delete i xs)) →
  world_ok u st' (delete i xs).
Proof.
  intros Hok Hc Hk. apply (world_ok_intro u st xs); [done | apply Hok | | done | done|].
  { intros p e Hp. by exists e. }
  intros z Hz. left. split; [by eapply delete_elem|]. destruct (refs_elem z _ Hz) as [R' HR'].
  eapply keeps_sub; [|exact Hk]. intros p Hp. rewrite HR'. set_solver.
Qed.

(** The record of a state of a world, with the pointers of the others. *)
Lemma world_state u st xs i x :
  world_ok u st xs → xs !! i = Some x → watched u st x (refs (delete i xs)).
Proof.
  intros Hok Hi. destruct (wk_states _ _ _ Hok x) as (R & [Hcd Hp Hm]); [by eapply list_elem_of_lookup_2|].
  split; [done..|]. apply (monitored_kept _ Hp _ _ st st R); [done | | apply keeps_refl].
  eapply counted_perm; [|apply Hok]. by apply refs_delete.
Qed.

(** [isDataRace] on a watched state. *)
Lemma watched_check u sh x R sv op cur :
  watched u (sh_store sh) x R → smap_find (op_tid op) (heads_of x) = Some cur →
  operation_ok (xs_path x) op → solver_sound (xs_path x) sv →
  ∃ sh' d' res, isDataRace (hp u) (heads_of x) sv sh (xs_det x) op = Ok (sh', d', res) ∧
    sh_store sh' = sh_store sh ∧
    monitored (xs_path x) (hp u) (heads_of x) (sh_store sh) R d' (xs_hist x) ∧
    detector_ptrs d' ≡ₚ detector_ptrs (xs_det x) ∧ (∀ t, epochs_of d' t = epochs_of (xs_det x) t) ∧
  match res with
  | Some r => race_verdict (hp u) (heads_of x) (xs_path x) (sh_store sh) op cur (xs_det x) r
  | None => ¬ answers sv
  end.
Proof.
  intros [[Hco _ _] Hp Hm] Hcur Hop Hsv.
  destruct (is_data_race_spec (hp u) (in_conf u (xs_conf x)) (conf_wf u _ Hco) (conf_free u _ Hco) (heads_of x))
    with (feasible := xs_path x) (sv := sv) (sh := sh) (d := xs_det x) (op := op) (cur := cur)
    as (sh' & d' & res & Hr & Hst & He & Hres); [|done|done|by eapply conf_head|apply Hm|done|done|].
  { intros t p Htp. apply (conf_head u _ t). apply smap_elem_find; [apply Hco | done]. }
  exists sh', d', res. split_and!; [done..| | |done|done].
  - destruct (isDataRace_lists _ _ _ _ _ _ _ _ _ Hr (mt_sorted _ _ _ _ _ _ _ Hm)).
    by eapply monitored_same.
  - by destruct (isDataRace_lists _ _ _ _ _ _ _ _ _ Hr (mt_sorted _ _ _ _ _ _ _ Hm)).
Qed.
(** A tracked access enters the history of its own state and leaves the lists
    of the others alone. *)
Lemma watched_track u sh x R op ev sh' d' :
  watched u (sh_store sh) x R → smap_find (op_tid op) (heads_of x) = Some ev →
  operation_ok (xs_path x) op → undisturbed (sh_store sh) (xs_det x) ev op →
  trackAccess (heads_of x) sh (xs_det x) op = Ok (sh', d') →
  monitored (xs_path x) (hp u) (heads_of x) (sh_store sh') R d' (log ev op (xs_hist x)) ∧
  keeps (sh_store sh) (sh_store sh') R.
Proof.
  intros [[Hco _ _] Hp Hm] Hev Hop Hun Htr.
  destruct (track_access_spec _ _ _ _ _ _ R (mt_counted _ _ _ _ _ _ _ Hm) (mt_sorted _ _ _ _ _ _ _ Hm) Htr)
    as (ev' & obj & before & acc & acc' & Hat).
  assert (ev' = ev) as -> by (pose proof (at_head _ _ _ _ _ _ _ _ _ _ _ _ Hat); congruence).
  assert (smap_sorted (heads_of x)) as Hs by apply Hco. pose proof (conf_wf u _ Hco) as Hwf.
  pose proof (at_object _ _ _ _ _ _ _ _ _ _ _ _ Hat) as Hobj. split.
  - unfold log. rewrite Hobj. destruct (isFree (op_type op)) eqn:Hf.
    + by eapply monitored_free.
    + eapply monitored_access; [done..| |]; [done|]. intros oa Hoa.
      destruct (acc_epochs _ Hp _ _ _ _ _ _ _ _ _ _ _ _ _ _ Hm Hat) as [->|Hin]; [by rewrite lookup_empty in Hoa|].
      by apply (Hun obj acc oa).
  - eapply keeps_sub; [|apply Hat]. set_solver.
Qed.

(** The verdicts of [processMemoryAccess]. *)
Lemma watched_access u sh x R sv n op cur sh' d' out :
  watched u (sh_store sh) x R → smap_find (op_tid op) (heads_of x) = Some cur →
  operation_ok (xs_path x) op → solver_sound (xs_path x) sv →
  (∀ nc, out = Safe nc → undisturbed (sh_store sh) (xs_det x) cur op) →
  processMemoryAccess true n (hp u) (heads_of x) sv sh (xs_det x) op = Ok (sh', d', out) →
  keeps (sh_store sh) (sh_store sh') R ∧
  monitored (xs_path x) (hp u) (heads_of x) (sh_store sh') R d'
    (match out with Safe _ => log cur op (xs_hist x) | _ => xs_hist x end).
Proof.
  intros Hw Hcur Hop Hsv Hun. unfold processMemoryAccess. cbn [negb orb].
  destruct (Nat.eqb n 1); [intros [= <- <- <-]; split; [apply keeps_refl | apply Hw]|].
  destruct (watched_check u sh x R sv op cur Hw Hcur Hop Hsv) as (sh1 & d1 & res & -> & Hst & Hm1 & Hp1 & He & _).
  rewrite bind_Ok_l.
  set (y := XState (xs_conf x) (xs_path x) d1 (xs_hist x)).
  assert (watched u (sh_store sh1) y R) as Hw1 by (split; [apply Hw | apply Hw | by rewrite Hst]).
  assert (∀ nc sh2 d2, out = Safe nc → trackAccess (heads_of x) sh1 d1 op = Ok (sh2, d2) →
    keeps (sh_store sh) (sh_store sh2) R ∧
    monitored (xs_path x) (hp u) (heads_of x) (sh_store sh2) R d2 (log cur op (xs_hist x))) as Htr.
  { intros nc sh2 d2 Hout Ht. rewrite <-Hst. destruct (watched_track u sh1 y R op cur sh2 d2); try done.
    intros obj m oa. simpl. rewrite He, Hst. by apply (Hun nc). }
  destruct res as [r|].
  - destruct (rr_isRace r).
    + intros [= <- <- <-]. rewrite Hst. split; [apply keeps_refl | done].
    + intros ([sh2 d2] & Ht & [= <- <- <-])%bind_ok. by eapply Htr.
  - intros ([sh2 d2] & Ht & [= <- <- <-])%bind_ok. by eapply Htr.
Qed.
(** The new heads of a configuration that performed an event. *)
Lemma performed_heads u c u' c' p t q :
  conf_ok u c → performed u c u' c' p → smap_find t (cf_thread_heads c) = Some q →
  ∃ q', smap_find t (cf_thread_heads c') = Some q' ∧ thread_le (hp u') q q'.
Proof.
  intros Hco Hpf Hq. pose proof (pf_ok _ _ _ _ _ Hpf) as Hco'.
  assert (in_conf u' c' q) as Hin by (apply (pf_in _ _ _ _ _ Hpf); right; by eapply conf_head).
  destruct (ext_is_event _ _ (pf_ext _ _ _ _ _ Hpf) _ _ (ho_head _ _ (conf_heads u c Hco) _ _ Hq)) as (e & He & <- & Hk).
  destruct (ho_last _ _ (conf_heads u' c' Hco') q e Hin He Hk) as (q' & Hq' & _).
  exists q'. split; [done|]. by eapply (head_last u' c' Hco').
Qed.

Lemma same_unfolding u : heap_ext (hp u) (hp u).
Proof. intros p e Hp. by exists e. Qed.

Lemma world_start_ok u c path stats :
  initial (System u [c]) → (∃ v : assignment, path v) →
  world_ok u (sh_store {| sh_store := ∅; sh_stats := stats |}) [XState c path new_DataRaceDetection []].
Proof.
  intros Hi Hp. assert (configured u c) as Hcd by (apply (initial_ok _ Hi); by left). split.
  - apply (cd_ok _ _ Hcd).
  - apply counted_empty.
  - intros x ->%list_elem_of_singleton. exists []. split; [done..|]. apply monitored_new, counted_empty.
Qed.

(** *** Steps *)

Lemma event_ok u st xs i x o u' c' p :
  world_ok u st xs → xs !! i = Some x → admissible u (xs_conf x) o →
  perform o u (xs_conf x) = Ok (u', c', p) →
  world_ok u' st (<[i := XState c' (xs_path x) (xs_det x) (xs_hist x)]> xs).
Proof.
  intros Hok Hi Ha Hp. destruct (world_state _ _ _ _ _ Hok Hi) as [Hcd Hpath Hm].
  pose proof (perform_spec o u _ u' c' p (cd_ok _ _ Hcd) Ha Hp) as Hpf.
  apply (world_ok_update u st xs i x); [done | done | apply Hpf | apply Hpf | apply Hpf | apply Hm | apply keeps_refl|].
  eexists. split; [by eapply performed_ok | done|].
  apply (monitored_moved _ (hp u) _ (heads_of x)); [apply Hpf | apply (cd_ok _ _ Hcd) | apply Hpf | | exact Hm].
  intros t q. apply (performed_heads u _ u' c' p); [apply Hcd | done].
Qed.

Lemma insert_ok u st xs e u' unknown p :
  world_ok u st xs → new_event_ok (hp u) e → deduplicate e u = Ok (u', unknown, p) → world_ok u' st xs.
Proof.
  intros Hok Hne Hd. destruct (deduplicate_spec e u (wk_unfolding _ _ _ Hok) Hne) as (u2 & k2 & p2 & Hd2 & Hdd).
  rewrite Hd in Hd2. injection Hd2 as <- <- <-.
  apply (world_ok_intro u st xs); [done | apply Hdd | apply Hdd | apply Hdd | apply Hok|].
  intros z Hz. left. split; [done | apply keeps_refl].
Qed.

Lemma access_ok u sh xs i x op sv n ev sh' d' nc :
  world_ok u (sh_store sh) xs → xs !! i = Some x → smap_find (op_tid op) (heads_of x) = Some ev →
  operation_ok (xs_path x) op → solver_sound (xs_path x) sv → undisturbed (sh_store sh) (xs_det x) ev op →
  processMemoryAccess true n (hp u) (heads_of x) sv sh (xs_det x) op = Ok (sh', d', Safe nc) →
  (∃ v, assuming nc (xs_path x) v) →
  world_ok u (sh_store sh') (<[i := XState (xs_conf x) (assuming nc (xs_path x)) d' (log ev op (xs_hist x))]> xs).
Proof.
  intros Hok Hi Hev Hop Hsv Hun Hr Hp. pose proof (world_state _ _ _ _ _ Hok Hi) as Hw.
  destruct (watched_access _ _ _ _ _ _ _ _ _ _ _ Hw Hev Hop Hsv (λ _ _, Hun) Hr) as [Hk Hm].
  apply (world_ok_update u (sh_store sh) xs i x); [done | done | apply Hok | apply same_unfolding | done | apply Hm | done|].
  eexists. split; [apply Hw | done|]. eapply monitored_narrowed; [|exact Hm]. by intros v [? _].
Qed.

Lemma race_ok u sh xs i x op sv n ev sh' d' t instr :
  world_ok u (sh_store sh) xs → xs !! i = Some x → smap_find (op_tid op) (heads_of x) = Some ev →
  operation_ok (xs_path x) op → solver_sound (xs_path x) sv →
  processMemoryAccess true n (hp u) (heads_of x) sv sh (xs_det x) op = Ok (sh', d', Terminated t instr) →
  world_ok u (destroy_detector d' (sh_store sh')) (delete i xs).
Proof.
  intros Hok Hi Hev Hop Hsv Hr. pose proof (world_state _ _ _ _ _ Hok Hi) as Hw.
  destruct (watched_access u sh x _ sv n op ev sh' d' (Terminated t instr) Hw Hev Hop Hsv) as [Hk Hm]; [done..|].
  destruct (release_all _ _ _ (mt_counted _ _ _ _ _ _ _ Hm)) as [Hc' Hk'].
  apply (world_ok_delete u (sh_store sh)); [done | done | by eapply keeps_trans].
Qed.

Lemma end_ok u st xs i x :
  world_ok u st xs → xs !! i = Some x → world_ok u (destroy_detector (xs_det x) st) (delete i xs).
Proof.
  intros Hok Hi. destruct (world_state _ _ _ _ _ Hok Hi) as [_ _ Hm].
  destruct (release_all _ _ _ (mt_counted _ _ _ _ _ _ _ Hm)). by apply (world_ok_delete u st).
Qed.

Lemma fork_ok u st xs i x addr :
  world_ok u st xs → xs !! i = Some x →
  world_ok u (copy_detector (xs_det x) st)
    (xs ++ [XState (copy_configuration addr (xs_conf x)) (xs_path x) (xs_det x) (xs_hist x)]).
Proof.
  intros Hok Hi. destruct (world_state _ _ _ _ _ Hok Hi) as [Hcd Hp Hm].
  set (y := XState _ _ _ _).
  assert (∀ z, z ∈ xs → ∀ p, p ∈ detector_ptrs (xs_det z) → p ∈ refs xs) as Hin.
  { intros z Hz p Hpz. destruct (refs_elem z xs Hz) as [R ->]. set_solver. }
  assert (x ∈ xs) as Hx by (by eapply list_elem_of_lookup_2).
  destruct (retain_all st (refs xs) (detector_ptrs (xs_det x)) (wk_counted _ _ _ Hok) (Hin x Hx)) as [Hc Hk].
  assert (refs (xs ++ [y]) ≡ₚ detector_ptrs (xs_det x) ++ refs xs) as Hrefs.
  { unfold refs. rewrite bind_app, Permutation_app_comm. simpl. by rewrite app_nil_r. }
  apply (world_ok_intro u st xs); [done | apply Hok | apply same_unfolding | done | by rewrite Hrefs|].
  intros z [Hz| ->%list_elem_of_singleton]%elem_of_app; [left | right].
  - split; [done|]. eapply keeps_sub; [by apply Hin | exact Hk].
  - exists (refs xs). split; [split; [apply copy_ok, Hcd | apply Hcd | apply Hcd] | done|].
    apply (monitored_kept _ Hp _ _ st _ (refs (delete i xs))); [done | exact Hc |].
    eapply keeps_sub; [by apply (Hin x) | exact Hk].
Qed.

Lemma branch_ok u st xs i x (path : assignment → Prop) :
  world_ok u st xs → xs !! i = Some x → (∀ v, path v → xs_path x v) → (∃ v, path v) →
  world_ok u st (<[i := XState (xs_conf x) path (xs_det x) (xs_hist x)]> xs).
Proof.
  intros Hok Hi Hsub Hp. destruct (world_state _ _ _ _ _ Hok Hi) as [Hcd _ Hm].
  apply (world_ok_update u st xs i x); [done | done | apply Hok | apply same_unfolding | done | apply Hm | apply keeps_refl|].
  eexists. split; [done..|]. by eapply monitored_narrowed.
Qed.

Definition world_inv (w : world) : Prop := world_ok (wo_unfolding w) (sh_store (wo_shared w)) (wo_states w).

Lemma world_step_ok w w' : world_inv w → world_step w w' → world_inv w'.
Proof.
  unfold world_inv. intros Hok Hst. destruct Hst; simpl in *.
  - by eapply event_ok.
  - by eapply insert_ok.
  - by eapply access_ok.
  - by eapply race_ok.
  - by eapply fork_ok.
  - by eapply branch_ok.
  - by apply end_ok.
Qed.

Lemma reachable_world_ok w : reachable_world w → world_inv w.
Proof.
  intros (w0 & H0 & Hr). assert (world_inv w0) as Hok by (destruct H0; by apply world_start_ok).
  clear H0. induction Hr as [|w0 w1 w Hst _ IH]; [done|]. apply IH. by eapply world_step_ok.
Qed.
End world.
