(* ===== verification/RaceDemo.v ===== *)
(** * Executable worlds

    Expressions over one symbolic value, a solver that enumerates the values
    the path condition allows, and a checked driver: it takes a step of a
    world only when executable checks of the step's premises succeed, so every
    world it returns is reachable. *)

From stdpp Require Import base tactics list gmap numbers countable relations.
From S2P Require Import Prelude StdMap ThreadId Event Comb CombEnum CombProofs Cone Alloc Causality.
From S2P Require Import AllocProofs HeapExt Order Walks Demo Independence Unfolding Configuration.
From S2P Require Import Scenario Dependence Heads Booking ConfInv OpBase OpCond Startup System.
From S2P Require Import ObjectAccesses AccessProofs SharedProofs RaceDetection RaceWalk RaceCheck.
From S2P Require Import RaceDecide Tracking Monitor World.

Local Open Scope Z_scope.

(** ** Expressions *)

Inductive sexpr : Set :=
  | SPtr (k : Z)
  | STrue
  | SVar
  | SZext (e : sexpr)
  | SAdd (a b : sexpr)
  | SUlt (a b : sexpr)
  | SOr (a b : sexpr)
  | SAnd (a b : sexpr).

#[export] Instance sexpr_eq_dec : EqDecision sexpr.
Proof. solve_decision. Defined.

Fixpoint sexpr_tree (e : sexpr) : gen_tree Z :=
  match e with
  | SPtr k => GenLeaf k
  | STrue => GenNode 0 []
  | SVar => GenNode 1 []
  | SZext e => GenNode 2 [sexpr_tree e]
  | SAdd a b => GenNode 3 [sexpr_tree a; sexpr_tree b]
  | SUlt a b => GenNode 4 [sexpr_tree a; sexpr_tree b]
  | SOr a b => GenNode 5 [sexpr_tree a; sexpr_tree b]
  | SAnd a b => GenNode 6 [sexpr_tree a; sexpr_tree b]
  end.

Fixpoint tree_sexpr (t : gen_tree Z) : sexpr :=
  match t with
  | GenLeaf k => SPtr k
  | GenNode 0 _ => STrue
  | GenNode 2 [t] => SZext (tree_sexpr t)
  | GenNode 3 [a; b] => SAdd (tree_sexpr a) (tree_sexpr b)
  | GenNode 4 [a; b] => SUlt (tree_sexpr a) (tree_sexpr b)
  | GenNode 5 [a; b] => SOr (tree_sexpr a) (tree_sexpr b)
  | GenNode 6 [a; b] => SAnd (tree_sexpr a) (tree_sexpr b)
  | GenNode _ _ => SVar
  end.

#[export] Instance sexpr_countable : Countable sexpr.
Proof. refine (inj_countable' sexpr_tree tree_sexpr _). intros e. induction e; simpl; congruence. Defined.

#[export] Instance sexpr_less : StdLess sexpr := λ a b, (encode a <? encode b)%positive.

#[export] Instance sexpr_less_laws : StdLessLaws sexpr.
Proof.
  split; unfold std_less, sexpr_less.
  - intros a. apply Pos.ltb_irrefl.
  - intros a b c. rewrite !Pos.ltb_lt. lia.
  - intros a b. rewrite !Pos.ltb_ge. intros ??. apply (inj encode). lia.
Qed.

#[export] Instance sexpr_lib : ExprLib := {|
  expr := sexpr;
  as_constant e := match e with SPtr k => Some (k mod word_size) | STrue => Some 1 | _ => None end;
  createPointer := SPtr;
  createZExtToPointerWidth := SZext;
  AddExpr := SAdd; UltExpr := SUlt; OrExpr := SOr; AndExpr := SAnd;
  constant_true := STrue;
|}.

Definition swidth (e : sexpr) : Z :=
  match e with SPtr _ | SZext _ | SAdd _ _ => 64 | SVar => 32 | _ => 1 end.

(** The symbolic value has 32 bits. *)
Fixpoint seval (a : Z) (e : sexpr) : Z :=
  match e with
  | SPtr k => k mod word_size
  | STrue => 1
  | SVar => a mod 2 ^ 32
  | SZext e => seval a e mod word_size
  | SAdd x y => wadd (seval a x) (seval a y)
  | SUlt x y => if seval a x <? seval a y then 1 else 0
  | SOr x y => Z.lor (seval a x) (seval a y) mod 2
  | SAnd x y => Z.land (seval a x) (seval a y) mod 2
  end.

Lemma seval_range a e : 0 ≤ seval a e < 2 ^ swidth e.
Proof.
  destruct e; simpl; unfold wadd, word_size; try (apply Z.mod_pos_bound; lia); try lia.
  by destruct (seval a e1 <? seval a e2).
Qed.

Lemma bit_cases a e : swidth e = 1 → seval a e = 0 ∨ seval a e = 1.
Proof. intros Hw. pose proof (seval_range a e) as H. rewrite Hw in H. lia. Qed.

#[export] Instance sexpr_sem : ExprSem.
Proof.
  refine {| assignment := Z; width := (swidth : expr → Z); eval := (seval : Z → expr → Z) |}; try done.
  - apply seval_range.
  - intros a e k. by destruct e; simpl; intros [= <-].
  - intros a k Hk. by apply Z.mod_small.
  - intros a e Hw. simpl. pose proof (seval_range a e) as [H0 H1]. apply Z.mod_small. split; [done|].
    eapply Z.lt_le_trans; [exact H1|]. by apply Z.pow_le_mono_r.
  - intros a x y Hx Hy. simpl. by destruct (bit_cases a x Hx) as [->| ->], (bit_cases a y Hy) as [->| ->].
  - intros a x y Hx Hy. simpl. by destruct (bit_cases a x Hx) as [->| ->], (bit_cases a y Hy) as [->| ->].
Defined.

(** ** A solver *)

(** The values that the path condition allows. *)
Definition enum_path (vs : list Z) : assignment → Prop := λ v, v ∈ vs.

Definition enum_solver (vs : list Z) : SolverInterface := {|
  mustBeTrue e := Some (forallb (λ v, negb (seval v e =? 0)) vs);
  mustBeFalse e := Some (forallb (λ v, seval v e =? 0) vs);
  mayBeTrue e := Some (existsb (λ v, negb (seval v e =? 0)) vs);
  mayBeFalse e := Some (existsb (λ v, seval v e =? 0) vs);
|}.

Lemma forallb_or_exists {A} (f : A → bool) l :
  if forallb f l then ∀ v, v ∈ l → f v = true else ∃ v, v ∈ l ∧ f v = false.
Proof.
  induction l as [|x l IH]; simpl; [by intros v ?%elem_of_nil|]. destruct (f x) eqn:Ex; simpl.
  - destruct (forallb f l); [by intros v [->|?]%elem_of_cons; auto|]. destruct IH as (v & ? & ?). exists v.
    split; [by right | done].
  - exists x. split; [by left | done].
Qed.

Lemma existsb_or_none {A} (f : A → bool) l :
  if existsb f l then ∃ v, v ∈ l ∧ f v = true else ∀ v, v ∈ l → f v = false.
Proof.
  pose proof (forallb_or_exists (λ v, negb (f v)) l) as H. assert (existsb f l = negb (forallb (λ v, negb (f v)) l)) as ->.
  { clear. induction l as [|x l IH]; simpl; [done|]. rewrite IH. by destruct (f x). }
  destruct (forallb _ l); simpl.
  - intros v Hv. by apply negb_true_iff, H.
  - destruct H as (v & Hv & Hf). exists v. split; [done|]. by apply negb_false_iff.
Qed.

(** Enumeration is sound for every path condition with these values. *)
Lemma enum_sound (path : assignment → Prop) vs :
  (∀ v, path v ↔ v ∈ vs) → solver_sound path (enum_solver vs).
Proof.
  intros Hp. split; intros e b _ [= <-].
  - pose proof (forallb_or_exists (λ v, negb (seval v e =? 0)) vs) as H. simpl.
    destruct (forallb _ vs); [intros a Ha%Hp; by apply Z.eqb_neq, negb_true_iff, H|].
    destruct H as (v & ?%Hp & ?%negb_false_iff%Z.eqb_eq). eauto.
  - pose proof (forallb_or_exists (λ v, seval v e =? 0) vs) as H. simpl.
    destruct (forallb _ vs); [intros a Ha%Hp; by apply Z.eqb_eq, H|].
    destruct H as (v & ?%Hp & ?%Z.eqb_neq). eauto.
  - pose proof (existsb_or_none (λ v, negb (seval v e =? 0)) vs) as H. simpl.
    destruct (existsb _ vs); [|intros a Ha%Hp; by apply Z.eqb_eq, negb_false_iff, H].
    destruct H as (v & ?%Hp & ?%negb_true_iff%Z.eqb_neq). eauto.
  - pose proof (existsb_or_none (λ v, seval v e =? 0) vs) as H. simpl.
    destruct (existsb _ vs); [|intros a Ha%Hp; by apply Z.eqb_neq, H].
    destruct H as (v & ?%Hp & ?%Z.eqb_eq). eauto.
Qed.

(** ** The driver *)

Definition operation_ok_b (vs : list Z) (op : MemoryOperation) : bool :=
  bool_decide (is_Some (op_object op)) &&
  (isAllocOrFree (op_type op) ||
   isReadOrWrite (op_type op) &&
   match op_offset op with
   | Some off => (swidth off <=? 64) && (0 <? op_numBytes op) &&
       forallb (λ v, seval v off + op_numBytes op <? word_size) vs
   | None => false
   end).

Lemma operation_ok_b_spec (path : assignment → Prop) vs op :
  (∀ v, path v → v ∈ vs) → operation_ok_b vs op = true → operation_ok path op.
Proof.
  intros Hp. unfold operation_ok_b. rewrite andb_true_iff, bool_decide_eq_true. intros [Ho Ha]. split; [done|].
  apply orb_true_iff in Ha as [Ha|[Hr Ha]%andb_true_iff]; [by left | right]. split; [done|].
  destruct (op_offset op) as [off|]; [|done]. exists off. split; [done|].
  apply andb_true_iff in Ha as [[Hw%Z.leb_le Hn%Z.ltb_lt]%andb_true_iff Hv]. split_and!; [done..|].
  intros v Hv'%Hp. rewrite forallb_forall in Hv. apply Z.ltb_lt, Hv, list_elem_of_In, Hv'.
Qed.

Definition straddles_b (b e : Z) (t : AccessType) (p : Z * Access) : bool :=
  (isWrite t || isRead (type p.2)) &&
  ((b <? p.1) || (b =? p.1) && isWrite t && isRead (type p.2)) && (p.1 <? e) && (e <? ends p).

Definition undisturbed_b (st : store) (d : DataRaceDetection) (op : MemoryOperation) : bool :=
  forallb (λ xm, forallb (λ p, match st !! p with
    | Some s => match op_offset op with
        | Some off => match as_constant off with
            | Some o => negb (existsb (straddles_b o (o + op_numBytes op) (op_type op)) (concrete (the_list s)))
            | None => true
            end
        | None => true
        end
    | None => true
    end) (object_ptrs xm.2)) (epochs_of d (op_tid op)).

Lemma undisturbed_b_spec st d ev op : undisturbed_b st d op = true → undisturbed st d ev op.
Proof.
  unfold undisturbed_b. rewrite forallb_elem_of. intros Hb obj m oa Hobj Hx Ha l (p & s & Hp & Hs & <-) off o Hoff Ho.
  specialize (Hb (ev, m) Hx). rewrite forallb_elem_of in Hb. specialize (Hb p). rewrite Hs, Hoff, Ho in Hb.
  intros ([k a] & Hin & Hw & Hk & He)%Exists_exists.
  assert (existsb (straddles_b o (o + op_numBytes op) (op_type op)) (concrete (the_list s)) = true) as Hex.
  { apply existsb_exists. exists (k, a). split; [by apply list_elem_of_In|]. unfold straddles_b. simpl in *.
    rewrite Hw, (proj2 (Z.ltb_lt _ _) (proj1 He)), (proj2 (Z.ltb_lt _ _) (proj2 He)), !andb_true_r. simpl.
    apply orb_true_iff. destruct Hk as [Hk|(-> & Hw' & Hr)]; [left; by apply Z.ltb_lt | right].
    by rewrite Z.eqb_refl, Hw', Hr. }
  rewrite Hex in Hb. apply (Bool.diff_false_true). apply Hb. eapply object_ptr_elem; [exact Ha|].
  unfold ptr_of. rewrite Hp. by left.
Qed.

Inductive action : Type :=
  | Do (i : nat) (o : operation)
  | Touch (i : nat) (op : MemoryOperation)
  | Fork (i : nat) (addr : N)
  | End (i : nat).

Definition state_at (w : world) (i : nat) : res xstate := in_range (wo_states w !! i).

Definition drive (vs : list Z) (w : world) (a : action) : res world :=
  let 'World u sh xs := w in
  match a with
  | Do i o =>
      x ← state_at w i;
      _ ← cassert (admissible_b u (xs_conf x) o);
      '(u', c', _) ← perform o u (xs_conf x);
      Ok (World u' sh (<[i := XState c' (xs_path x) (xs_det x) (xs_hist x)]> xs))
  | Touch i op =>
      x ← state_at w i;
      ev ← in_range (smap_find (op_tid op) (cf_thread_heads (xs_conf x)));
      _ ← cassert (operation_ok_b vs op && undisturbed_b (sh_store sh) (xs_det x) op);
      '(sh', d', out) ← processMemoryAccess true 2 (uf_heap u) (cf_thread_heads (xs_conf x)) (enum_solver vs) sh (xs_det x) op;
      match out with
      | Safe None => Ok (World u sh' (<[i := XState (xs_conf x) (assuming None (xs_path x)) d' (log ev op (xs_hist x))]> xs))
      | _ => Err AssertFailed
      end
  | Fork i addr =>
      x ← state_at w i;
      Ok (World u (set_store (copy_detector (xs_det x) (sh_store sh)) sh)
        (xs ++ [XState (copy_configuration addr (xs_conf x)) (xs_path x) (xs_det x) (xs_hist x)]))
  | End i =>
      x ← state_at w i;
      Ok (World u (set_store (destroy_detector (xs_det x) (sh_store sh)) sh) (delete i xs))
  end.

Definition same_path (vs : list Z) (w : world) : Prop :=
  ∀ x, x ∈ wo_states w → ∀ v, xs_path x v ↔ v ∈ vs.

Lemma state_at_ok w i x : state_at w i = Ok x ↔ wo_states w !! i = Some x.
Proof. unfold state_at, in_range. destruct (wo_states w !! i); naive_solver. Qed.

Lemma same_path_insert vs u sh u' sh' xs i x y :
  same_path vs (World u sh xs) → xs !! i = Some x → (∀ v, xs_path y v ↔ xs_path x v) →
  same_path vs (World u' sh' (<[i := y]> xs)).
Proof.
  intros Hs Hi Hy z Hz v. simpl in Hz. apply list_elem_of_lookup_1 in Hz as [j Hj].
  apply list_lookup_insert_Some in Hj as [(-> & <- & _)|[_ Hj]].
  - rewrite Hy. apply Hs. simpl. by eapply list_elem_of_lookup_2.
  - apply Hs. simpl. by eapply list_elem_of_lookup_2.
Qed.

Lemma drive_step vs w a w' :
  vs ≠ [] → same_path vs w → drive vs w a = Ok w' → world_step w w' ∧ same_path vs w'.
Proof.
  intros Hvs Hp. destruct w as [u sh xs]. destruct a as [i o|i op|i addr|i]; cbn [drive];
    intros (x & Hi%state_at_ok & H)%bind_ok; simpl in Hi.
  - apply bind_ok in H as (? & Ha%cassert_ok & H). apply bind_ok in H as ([[u' c'] p] & Hpf & [= <-]).
    split; [|by eapply same_path_insert]. eapply world_event; [done | by apply admissible_b_spec | done].
  - apply bind_ok in H as (ev & Hev & H). apply bind_ok in H as (? & [Ho Hu]%cassert_ok%andb_true_iff & H).
    apply bind_ok in H as ([[sh' d'] out] & Hr & H). destruct out as [|[]|]; try done. injection H as <-.
    assert (∀ v, xs_path x v ↔ v ∈ vs) as Hx by (apply (Hp x); by eapply list_elem_of_lookup_2).
    split; [|eapply same_path_insert; [done..|]; intros v; unfold assuming; simpl; tauto].
    eapply world_access; [done | | | by apply (enum_sound _ vs) | by apply undisturbed_b_spec | exact Hr|].
    + unfold in_range in Hev. by destruct (smap_find _ _); [injection Hev as ->|].
    + apply (operation_ok_b_spec _ vs); [by intros v Hv%Hx | done].
    + destruct vs as [|v vs]; [done|]. exists v. split; [|done]. apply Hx. by left.
  - injection H as <-. split; [by eapply world_fork|].
    intros z [Hz| ->%list_elem_of_singleton]%elem_of_app; [by apply Hp|]. simpl. apply Hp.
    by eapply list_elem_of_lookup_2.
  - injection H as <-. split; [by eapply world_end|]. intros z Hz. apply Hp. by eapply delete_elem.
Qed.

(** ** Deciding what a history has touched *)

Definition touched_by_b (v : Z) (H : history) (t : thread_id) (e : eid) (a : Z) (w : bool) (b : Z) : bool :=
  existsb (λ '(e', op), (e' =? e)%N && tid_eqb (op_tid op) t &&
    match op_object op with Some obj => mo_address obj =? a | None => false end &&
    (isAllocOrFree (op_type op) ||
     match op_offset op with
     | Some off => counts w (op_type op) && (seval v off <=? b) && (b <? seval v off + op_numBytes op)
     | None => false
     end)) H.

Lemma touched_by_b_spec v H t e a w b : touched_by_b v H t e a w b = true ↔ touched_by v H t e a w b.
Proof.
  unfold touched_by_b, touched_by, op_touches. rewrite existsb_exists. split.
  - intros ([e' op] & Hin%list_elem_of_In & Hb). rewrite !andb_true_iff, orb_true_iff in Hb.
    destruct Hb as [[[->%N.eqb_eq Ht%tid_eqb_spec] Ho] Hto]. destruct (op_object op) as [obj|] eqn:Eo; [|done].
    exists op, obj. split_and!; [done..|by apply Z.eqb_eq|]. destruct Hto as [?|Hto]; [by left | right].
    destruct (op_offset op) as [off|]; [|done]. exists off. rewrite !andb_true_iff, Z.leb_le, Z.ltb_lt in Hto. tauto.
  - intros (op & obj & Hin & <- & Ho & <- & Hto). exists (e, op). split; [by apply list_elem_of_In|].
    rewrite Ho, N.eqb_refl, (proj2 (tid_eqb_spec _ _) eq_refl), Z.eqb_refl. cbn [andb]. apply orb_true_iff.
    destruct Hto as [?|(off & -> & Hc & H1 & H2)]; [by left | right].
    apply andb_true_iff. rewrite Z.ltb_lt, andb_true_iff, Z.leb_le. done.
Qed.

(** A world from a program with one startup thread. *)
Definition drive_all (vs : list Z) (actions : list action) : res world :=
  r ← add_threads 1 (new_configuration_root 0);
  '(u, c) ← construct 1 r;
  for_each (drive vs) (World u {| sh_store := ∅; sh_stats := no_stats |}
    [XState c (enum_path vs) new_DataRaceDetection []]) actions.

Lemma drive_all_reachable vs actions w : vs ≠ [] → drive_all vs actions = Ok w → reachable_world w ∧ same_path vs w.
Proof.
  intros Hvs (r & Hr & H)%bind_ok. apply bind_ok in H as ([u c] & Hc & H).
  set (w0 := World _ _ _) in H.
  assert (world_initial w0) as H0.
  { apply world_start; [eapply start; [exact Hr | exact Hc | lia | done]|]. destruct vs as [|v vs]; [done|].
    exists v. by left. }
  assert (same_path vs w0) as Hp by (intros x ->%list_elem_of_singleton v; done).
  assert (rtc world_step w0 w ∧ same_path vs w) as [? ?]; [|split; [by exists w0 | done]].
  clear H0 Hr Hc. revert Hp H. generalize w0. clear w0. induction actions as [|a actions IH]; intros w0 Hp H; simpl in H.
  { injection H as ->. split; [constructor | done]. }
  apply bind_ok in H as (w1 & Ha & H). destruct (drive_step vs w0 a w1 Hvs Hp Ha) as [Hst Hp1].
  destruct (IH w1 Hp1 H). split; [by eapply rtc_l | done].
Qed.
