(* ===== verification/AccessProps.v ===== *)
(** * The theorems about access lists

    What [registerConcreteMemoryOperation] and [registerSymbolicMemoryOperation]
    record, and runs on which the former goes wrong. *)

From stdpp Require Import base tactics list gmap numbers sorting.
From S2P Require Import Prelude StdMap ThreadId Event Comb Cone Alloc Demo Unfolding Configuration.
From S2P Require Import Scenario System ObjectAccesses AccessProofs SharedProofs RaceDetection.
From S2P Require Import RaceCheck World RaceDemo.

Local Open Scope Z_scope.

Section properties.
Context {EL : ExprLib}.
Implicit Types (op : MemoryOperation) (m : cmap) (s : mmap).

(** C17: registering a read or write of constant offset in an owned list of
    disjoint ranges returns and forgets no byte, neither that it was accessed
    nor that it was written; unless a tracked access straddles the end of the
    incoming one, the new list is again one of disjoint ranges in the address
    space and has recorded exactly the old bytes and the new ones. On a list
    shared with other states a run that returns has the same result, and
    leaves the list unchanged if it did not copy it. *)
Theorem register_concrete_exact op m b :
  isReadOrWrite (op_type op) = true → cm_ok m → 0 ≤ b → 0 < op_numBytes op → b + op_numBytes op < word_size →
  (∃ m', registerConcreteMemoryOperation true m b op = Ok (true, m') ∧
    (∀ w x, seen w m x ∨ counts w (op_type op) = true ∧ b ≤ x < b + op_numBytes op → seen w m' x) ∧
    (¬ straddled m b (b + op_numBytes op) (op_type op) → cm_ok m' ∧
      ∀ w x, seen w m' x ↔ seen w m x ∨ counts w (op_type op) = true ∧ b ≤ x < b + op_numBytes op)) ∧
  ∀ o m', registerConcreteMemoryOperation false m b op = Ok (o, m') →
    registerConcreteMemoryOperation true m b op = Ok (true, m') ∧ (o = false → m' = m).
Proof.
  intros Ht Hok H0 Hn He. split.
  - destruct (register_concrete_spec op m b Ht Hok H0 Hn He) as (m' & Hr & [Hk Hx]).
    exists m'. split_and!; [done..|]. intros Hs. destruct (Hx Hs) as [Hok' Hex]. split; [done|].
    intros w x. split; [apply Hex | apply Hk].
  - intros o m' Hr. apply register_concrete_shared in Hr as [Hr Ho]. split; [done|]. intros Ho'. by apply Ho.
Qed.

(** C20: registering a read or write of symbolic offset returns, keeps the
    multimap ordered and free of accesses that another one of the same offset
    stands for, and afterwards stands for exactly the accesses it stood for
    before and those that the new one covers: the same offset, no more bytes,
    and a read if the new access is one. A shared multimap that was not copied
    is unchanged. *)
Theorem register_symbolic_exact own s k op :
  mm_ok s → isReadOrWrite (op_type op) = true → 0 < op_numBytes op →
  ∃ o s', registerSymbolicMemoryOperation own s k op = Ok (o, s') ∧ mm_ok s' ∧
    (o = false → own = false ∧ s' = s) ∧
    ∀ k' n t, isReadOrWrite t = true →
      sym_recorded s' k' n t ↔ sym_recorded s k' n t ∨
        (k' = k ∧ n ≤ op_numBytes op ∧ isWrite (op_type op) || isRead t = true).
Proof. apply register_symbolic_spec. Qed.
End properties.

(** ** Runs *)

Definition the_object : MemoryObject := {| mo_address := 64 |}.

Definition access (t : thread_id) (k : AccessType) (off : sexpr) (n : Z) (i : N) : MemoryOperation :=
  {| op_instruction := Some i; op_type := k; op_tid := t; op_object := Some the_object;
     op_offset := Some off; op_numBytes := n |}.

(** Registers accesses, given by kind, begin and size, in an owned list. *)
Definition registers (l : list (AccessType * Z * Z)) : res cmap :=
  for_each (λ m '(t, b, n),
    '(_, m') ← registerConcreteMemoryOperation true m b (access t1 t (SPtr b) n 0); Ok m') [] l.

Definition entry (b n : Z) (t : AccessType) : Z * Access :=
  (b, {| numBytes := n; type := t; instruction := Some 0%N |}).

Ltac decided := first [refine (bool_decide_eq_true_1 _ _); vm_compute; reflexivity
                      | refine (bool_decide_eq_false_1 _ _); vm_compute; reflexivity].

Lemma two_ranges_ok : cm_ok [entry 0 8 READ; entry 8 4 WRITE].
Proof.
  apply cm_ok_cons. split_and!; [split; decided| |intros q ->%list_elem_of_singleton; decided].
  apply cm_ok_cons. split_and!; [split; decided | apply cm_ok_nil | by intros q ?%elem_of_nil].
Qed.

(** A write in the middle of a read: the ranges are split. *)
Lemma register_concrete_exact_witness :
  let op := access t1 WRITE (SPtr 2) 4 0 in
  ∃ m', registerConcreteMemoryOperation true [entry 0 8 READ; entry 8 4 WRITE] 2 op = Ok (true, m') ∧
    cm_ok m' ∧ seen true m' 5 ∧ ¬ seen true m' 6 ∧ seen false m' 6.
Proof.
  intros op. assert (cm_ok [entry 0 8 READ; entry 8 4 WRITE]) as Hok by apply two_ranges_ok.
  destruct (register_concrete_exact op [entry 0 8 READ; entry 8 4 WRITE] 2) as [(m' & Hr & _ & Hx) _];
    [reflexivity | exact Hok | done | done | done|].
  destruct Hx as [Hok' Hex]; [unfold straddled, straddles; decided|].
  exists m'. split; [exact Hr|]. split; [exact Hok'|]. rewrite !Hex. simpl. unfold seen. repeat split.
  - right. split; [reflexivity | lia].
  - decided.
  - left. decided.
Defined.

Definition var : @expr sexpr_lib := SVar.

Definition sym_entry (n : Z) (t : AccessType) : @expr sexpr_lib * Access :=
  (var, {| numBytes := n; type := t; instruction := Some 0%N |}).

(** A write of four bytes stands for the read of two bytes before it. *)
Lemma register_symbolic_exact_witness :
  ∃ o s', registerSymbolicMemoryOperation true [sym_entry 2 READ] var (access t1 WRITE SVar 4 0) = Ok (o, s') ∧
    mm_ok s' ∧ sym_recorded s' var 2 READ ∧ sym_recorded s' var 4 WRITE.
Proof.
  destruct (register_symbolic_exact true [sym_entry 2 READ] var (access t1 WRITE SVar 4 0))
    as (o & s' & Hr & Hok & _ & Hrec); [|reflexivity|done|].
  { split.
    - repeat constructor.
    - intros p ->%list_elem_of_singleton. done.
    - intros k. unfold equal_range. rewrite filter_cons. case_decide; repeat constructor. }
  exists o, s'. split; [exact Hr|]. split; [exact Hok|]. rewrite !Hrec by reflexivity. split; right; repeat split; done.
Defined.

(** ** Where the recorded bytes go wrong *)

(** A tracked access that is cut at the end of an incoming one keeps its
    number of bytes when it moves there. The read of the bytes 0 to 7, cut by
    a write of 0 to 3, is then tracked as eight bytes from 4 on, over the
    write of byte 8, although nobody read byte 11. Further accesses run into
    the overlap: one sequence loses the bytes 9 to 11 of its fourth access,
    another one fails an assertion. *)
Theorem split_keeps_size :
  (∃ m, registers [(READ, 0, 8); (WRITE, 8, 1); (WRITE, 0, 4)] = Ok m ∧
    entry 4 8 READ ∈ m ∧ entry 8 1 WRITE ∈ m ∧ seen false m 11) ∧
  (∃ m, registers [(READ, 0, 8); (WRITE, 8, 1); (WRITE, 0, 4); (READ, 5, 7); (WRITE, 6, 2)] = Ok m ∧
    ¬ seen false m 10) ∧
  registers [(READ, 0, 8); (WRITE, 8, 4); (WRITE, 0, 4); (READ, 5, 8)] = Err AssertFailed.
Proof.
  split_and!; [eexists; split_and!; [vm_compute; reflexivity|..] .. | vm_compute; reflexivity];
    [unfold entry; repeat constructor.. | unfold seen; decided | unfold seen; decided].
Qed.
