(* ===== verification/RaceProps.v ===== *)
(** * The theorems about data race detection

    What [isDataRace] and [processMemoryAccess] guarantee in every reachable
    world, and what the detectors of forked states share. *)

From stdpp Require Import base tactics list gmap numbers relations sorting.
From S2P Require Import Prelude StdMap ThreadId Event Comb CombEnum CombProofs Cone Alloc Causality.
From S2P Require Import AllocProofs HeapExt Order Walks Demo Independence Unfolding Configuration.
From S2P Require Import Scenario Dependence Heads Booking ConfInv OpBase OpCond Startup System.
From S2P Require Import ObjectAccesses AccessProofs SharedProofs RaceDetection RaceWalk RaceCheck.
From S2P Require Import RaceDecide Tracking Monitor World RaceDemo AccessProps.

Section properties.
Context {PL : Payload} {AL : Allocator} {EL : ExprLib} {ES : ExprSem}.
Implicit Types (w : world) (x : xstate) (op : MemoryOperation) (sv : SolverInterface).

Abbreviation heap_of w := (uf_heap (wo_unfolding w)).
Abbreviation heads_in x := (cf_thread_heads (xs_conf x)).

(** [op] of a state whose operating thread is at [cur] races with [op'] of its
    history. *)
Abbreviation races_in w x cur op op' :=
  (races_with (xs_path x) (heap_of w) (heads_in x) cur (xs_hist x) op op').

(** What a result says about the races with the state's history. *)
Record exact_result w x cur op (r : RaceDetectionResult) : Prop := {
  er_race : rr_isRace r = true ↔ ∃ op', races_in w x cur op op';
  er_thread : rr_isRace r = true → ∃ op', op_tid op' = rr_racingThread r ∧ races_in w x cur op op';
  er_safe : rr_isRace r = true → rr_canBeSafe r = true ↔
    ∃ v, xs_path x v ∧ ∀ e op', (e, op') ∈ xs_hist x →
      unsynchronised (heap_of w) (heads_in x) cur op e op' → ¬ conflict v op op';
}.

Lemma reachable_state w x : reachable_world w → x ∈ wo_states w →
  ∃ R, watched (wo_unfolding w) (sh_store (wo_shared w)) x R.
Proof. intros Hw Hx. by apply (reachable_world_ok w Hw). Qed.

Lemma verdict_exact w x R cur op r :
  watched (wo_unfolding w) (sh_store (wo_shared w)) x R → operation_ok (xs_path x) op →
  race_verdict (heap_of w) (heads_in x) (xs_path x) (sh_store (wo_shared w)) op cur (xs_det x) r →
  exact_result w x cur op r.
Proof.
  intros [[Hco _ _] _ Hm] Hop [Hrace Hthread Hsafe].
  assert (smap_sorted (heads_in x)) as Hs by apply Hco.
  pose proof (λ t v, unordered_races _ _ _ _ _ _ _ Hm Hs op cur t v Hop) as Hur.
  assert (∀ t m v, unordered (heap_of w) (heads_in x) op cur (xs_det x) t m → xs_path x v →
    races v (sh_store (wo_shared w)) op m → ∃ op', op_tid op' = t ∧ races_in w x cur op op') as Hto.
  { intros t m v Hm' Hv Hr. destruct (proj1 (Hur t v Hv)) as (e & op' & ? & ? & ? & ?); [by exists m|].
    exists op'. split; [done|]. by exists e, v. }
  split.
  - rewrite Hrace. split.
    + intros (t & m & v & ? & ? & ?). destruct (Hto t m v) as (op' & _ & ?); [done..|]. by exists op'.
    + intros (op' & e & v & Hin & Hc & Hv & Hcf). destruct (proj2 (Hur (op_tid op') v Hv)) as (m & ? & ?); [by exists e, op'|].
      by exists (op_tid op'), m, v.
  - intros (m & v & ? & ? & ?)%Hthread. by apply (Hto _ m v).
  - intros Hr%Hsafe. rewrite Hr. split; intros (v & Hv & Hno); exists v; (split; [done|]).
    + intros e op' Hin Hc Hcf. destruct (proj2 (Hur (op_tid op') v Hv)) as (m & ? & ?); [by exists e, op'|]. by apply (Hno (op_tid op') m).
    + intros t m Hm' Hrm. destruct (proj1 (Hur t v Hv)) as (e & op' & ? & ? & ? & ?); [by exists m|]. by apply (Hno e op').
Qed.

(** C5: in every reachable world, however the states forked, shared access
    lists and terminated, [isDataRace] returns for every operation that the
    executor may hand in. Unless the solver failed to answer, the result is a
    race exactly if, for some values the path condition allows, the operation
    conflicts with an access that another thread of the same state made and
    that does not happen before it; it names a thread that made such an
    access, and says that the race can be avoided exactly if some allowed
    values avoid all of them. The worlds are those of [world_step]: events
    respect [admissible], and no access so far straddles the end of a new one
    of its own thread and epoch ([undisturbed]). *)
Theorem race_check_exact w x op sv cur :
  reachable_world w → x ∈ wo_states w → smap_find (op_tid op) (heads_in x) = Some cur →
  operation_ok (xs_path x) op → solver_sound (xs_path x) sv →
  ∃ sh' d' res, isDataRace (heap_of w) (heads_in x) sv (wo_shared w) (xs_det x) op = Ok (sh', d', res) ∧
  match res with
  | Some r => exact_result w x cur op r
  | None => ¬ answers sv
  end.
Proof.
  intros Hw Hx Hcur Hop Hsv. destruct (reachable_state w x Hw Hx) as [R HR].
  destruct (watched_check _ _ _ _ sv op cur HR Hcur Hop Hsv) as (sh' & d' & res & Hr & _ & _ & _ & _ & Hres).
  exists sh', d', res. split; [done|]. destruct res as [r|]; [|done]. by eapply verdict_exact.
Qed.

(** C6: in every reachable world with more than one thread and a solver that
    answers, [processMemoryAccess] terminates the state exactly if the
    operation races with an access of the state's history, and reports a
    thread that made such an access; in particular an access that it lets
    through races with none. The worlds are those of [world_step], in which no
    access straddles the end of a new one of its own thread and epoch
    ([undisturbed]), and the history leaves out the accesses that a [FREE] of
    the same thread and epoch removed ([log]). *)
Theorem access_outcome_exact w x op sv cur n :
  reachable_world w → x ∈ wo_states w → smap_find (op_tid op) (heads_in x) = Some cur →
  operation_ok (xs_path x) op → solver_sound (xs_path x) sv → answers sv → n ≠ 1 →
  let outcome_of := processMemoryAccess true n (heap_of w) (heads_in x) sv (wo_shared w) (xs_det x) op in
  ((∃ op', races_in w x cur op op') ↔ ∃ sh' d' t i, outcome_of = Ok (sh', d', Terminated t i)) ∧
  ∀ sh' d' t i, outcome_of = Ok (sh', d', Terminated t i) →
    ∃ op', op_tid op' = t ∧ races_in w x cur op op'.
Proof.
  intros Hw Hx Hcur Hop Hsv Hans Hn outcome_of. destruct (reachable_state w x Hw Hx) as [R HR].
  destruct (watched_check _ _ _ _ sv op cur HR Hcur Hop Hsv) as (sh1 & d1 & [r|] & Hr & _ & _ & _ & _ & Hres); [|done].
  pose proof (verdict_exact w x R cur op r HR Hop Hres) as [Hrace Hthread _].
  assert (outcome_of = if rr_isRace r then Ok (sh1, d1, Terminated (rr_racingThread r) (rr_racingInstruction r))
    else '(s2, d2) ← trackAccess (heads_in x) sh1 d1 op;
      Ok (s2, d2, Safe (if rr_hasNewConstraints r then rr_newConstraints r else None))) as Hout.
  { unfold outcome_of, processMemoryAccess. cbn [negb orb]. rewrite (proj2 (Nat.eqb_neq n 1) Hn). by rewrite Hr, bind_Ok_l. }
  assert (∀ sh' d' t i, outcome_of = Ok (sh', d', Terminated t i) → rr_isRace r = true ∧ t = rr_racingThread r) as Hterm.
  { intros sh' d' t i Ho. rewrite Hout in Ho. destruct (rr_isRace r); [by injection Ho as _ _ <- _|].
    by apply bind_ok in Ho as ([s2 d2] & _ & [=]). }
  split; [split|].
  - intros Hex%Hrace. rewrite Hout, Hex. by exists sh1, d1, (rr_racingThread r), (rr_racingInstruction r).
  - intros (sh' & d' & t & i & [Hrt _]%Hterm). by apply Hrace.
  - intros sh' d' t i [Hrt ->]%Hterm. auto.
Qed.

(** C16: as long as no access straddles the end of a new one of its own thread
    and epoch (the premise [undisturbed] of [world_step]; [split_keeps_size]
    in [AccessProps] shows that the code records other bytes otherwise), the
    detector of a state in every reachable world has recorded exactly the
    accesses in the history of this state: per thread and event after which,
    object, byte, and whether it was written, for all symbolic values. The
    history holds all accesses of the state but those to an object that the
    same thread freed later in the same epoch, and the [FREE] itself, which
    [trackAccess] drops ([log]). Forked states, which share their lists until
    one of them writes, do not see each other's accesses. *)
Theorem detector_records_history w x :
  reachable_world w → x ∈ wo_states w →
  ∀ v t e a written b,
    touched v (sh_store (wo_shared w)) (xs_det x) t e a written b ↔ touched_by v (xs_hist x) t e a written b.
Proof. intros Hw Hx. destruct (reachable_state w x Hw Hx) as [R [_ _ Hm]]. apply Hm. Qed.

(** C18: in every reachable world the use count of every access list is the
    number of objects in the detectors of all states that point to it, every
    such pointer leads to a list, and no list is left without owner. *)
Theorem access_lists_owned w p :
  reachable_world w →
  match sh_store (wo_shared w) !! p with
  | Some s => p ∈ refs (wo_states w) ∧ use_count s = count_occ N.eq_dec (refs (wo_states w)) p
  | None => p ∉ refs (wo_states w)
  end.
Proof. intros Hw. apply (wk_counted _ _ _ (reachable_world_ok w Hw)). Qed.

(** C19: as long as no access straddles the end of a new one of its own thread
    and epoch (the premise [undisturbed] of [world_step], without which
    [split_keeps_size] in [AccessProps] shows overlapping lists), the detector
    of every state in every reachable world is well-formed: the epochs of a
    thread are distinct events of the thread, in its order up to its head; an
    object that was allocated in an epoch has no list there, every other
    object has a list with at least one access, whose constant ranges are
    non-empty, disjoint and in order, and whose symbolic accesses are ordered
    by the expression, without one that another stands for. *)
Theorem detector_well_formed w x t e m :
  reachable_world w → x ∈ wo_states w → (e, m) ∈ epochs_of (xs_det x) t →
  (∃ head, smap_find t (heads_in x) = Some head ∧ descending (heap_of w) head (reverse (epochs_of (xs_det x) t))) ∧
  ∀ a oa, m !! a = Some oa → object_ok (sh_store (wo_shared w)) oa.
Proof.
  intros Hw Hx He. destruct (reachable_state w x Hw Hx) as [R [[Hco _ _] _ [_ _ [Hord Hep] Hkn _]]]. split.
  - destruct (Hkn t) as [p Hp]; [intros E; rewrite E in He; by apply elem_of_nil in He|].
    exists p. split; [done|]. apply Hord. apply smap_elem_find; [apply Hco | done].
  - intros a oa Ha. by apply (Hep t e m He a oa Ha).
Qed.
End properties.

(** ** A program with two threads, forked once

    Thread [t1] writes the bytes 4 to 7 of an object; the state forks, and the
    copy also writes the bytes 0 and 1 and reads two bytes at a symbolic
    offset. Both run beside thread [t2]. *)

Definition values : list Z := [0; 1; 2; 3; 4; 5; 6; 7; 8]%Z.

Definition demo_actions : list action :=
  [ Do 0 (CreateThread t1 t2); Do 0 (InitThread t2 t1);
    Touch 0 (access t1 WRITE (SPtr 4) 4 1);
    Fork 0 2;
    Touch 1 (access t1 WRITE (SPtr 0) 2 2);
    Touch 1 (access t1 READ SVar 2 3) ].

Definition no_world : world := World (new_unfolding 0) {| sh_store := ∅; sh_stats := no_stats |} [].
Definition driven (actions : list action) : world :=
  match drive_all values actions with Ok w => w | Err _ => no_world end.
Definition driven_ok (actions : list action) : bool :=
  match drive_all values actions with Ok _ => true | Err _ => false end.
Definition driven_state (actions : list action) (i : nat) : xstate :=
  default (XState (Configuration 1 [] [] [] [] [] [] 0 0) (enum_path values) new_DataRaceDetection [])
    (wo_states (driven actions) !! i).

Lemma driven_reachable actions :
  driven_ok actions = true → reachable_world (driven actions) ∧ same_path values (driven actions).
Proof.
  unfold driven_ok, driven. destruct (drive_all values actions) as [w|] eqn:E; [intros _ | done].
  by apply (drive_all_reachable values actions).
Qed.

Lemma driven_elem actions i :
  bool_decide (is_Some (wo_states (driven actions) !! i)) = true → driven_state actions i ∈ wo_states (driven actions).
Proof.
  intros [x Hx]%bool_decide_eq_true. unfold driven_state. rewrite Hx. by eapply list_elem_of_lookup_2.
Qed.

Lemma driven_path actions i v :
  driven_ok actions = true → bool_decide (is_Some (wo_states (driven actions) !! i)) = true →
  xs_path (driven_state actions i) v ↔ v ∈ values.
Proof. intros Hok Hi. by apply (driven_reachable actions Hok), driven_elem. Qed.

Ltac runs := vm_compute; reflexivity.

(** The check of an operation in a driven world. *)
Abbreviation check_in actions i op :=
  (isDataRace (uf_heap (wo_unfolding (driven actions))) (cf_thread_heads (xs_conf (driven_state actions i)))
    (enum_solver values) (wo_shared (driven actions)) (xs_det (driven_state actions i)) op).

(** What [processMemoryAccess] makes of it. *)
Abbreviation outcome_in actions i op :=
  (processMemoryAccess true 2 (uf_heap (wo_unfolding (driven actions)))
    (cf_thread_heads (xs_conf (driven_state actions i))) (enum_solver values) (wo_shared (driven actions))
    (xs_det (driven_state actions i)) op).

Definition terminates (r : res (shared * DataRaceDetection * outcome)) : bool :=
  match r with Ok (_, _, Terminated _ _) => true | _ => false end.

Lemma enum_answers vs : answers (enum_solver vs).
Proof. intros e _. simpl. eauto. Qed.

(** [t2] reads one byte at the symbolic offset: a race with the first state's
    write for some values and not for others. *)
Lemma race_check_exact_witness :
  ∃ sh' d' r, check_in demo_actions 0 (access t2 READ SVar 1 7) = Ok (sh', d', Some r) ∧
    rr_isRace r = true ∧ rr_canBeSafe r = true ∧
    exact_result (driven demo_actions) (driven_state demo_actions 0) 4%N (access t2 READ SVar 1 7) r.
Proof.
  destruct (race_check_exact (driven demo_actions) (driven_state demo_actions 0) (access t2 READ SVar 1 7)
    (enum_solver values) 4%N) as (sh' & d' & res & Hr & Hres).
  - apply driven_reachable. runs.
  - apply driven_elem. runs.
  - runs.
  - apply (operation_ok_b_spec _ values); [|runs]. intros v Hx. refine (proj1 (driven_path _ _ _ _ _) Hx); runs.
  - apply enum_sound. intros v. apply driven_path; runs.
  - assert (match check_in demo_actions 0 (access t2 READ SVar 1 7) with
      | Ok (_, _, Some r) => rr_isRace r && rr_canBeSafe r | _ => false end = true) as Hc by runs.
    rewrite Hr in Hc. destruct res as [r|]; [|discriminate Hc]. apply andb_true_iff in Hc as [H1 H2].
    exists sh', d', r. split; [exact Hr|]. split; [exact H1|]. split; [exact H2|]. exact Hres.
Defined.

(** In the copy a read of byte 0 races, in the original it does not. *)
Lemma access_outcome_exact_witness :
  (∃ op', races_with (xs_path (driven_state demo_actions 1)) (uf_heap (wo_unfolding (driven demo_actions)))
    (cf_thread_heads (xs_conf (driven_state demo_actions 1))) 4%N (xs_hist (driven_state demo_actions 1))
    (access t2 READ (SPtr 0) 1 7) op') ∧
  ¬ ∃ op', races_with (xs_path (driven_state demo_actions 0)) (uf_heap (wo_unfolding (driven demo_actions)))
    (cf_thread_heads (xs_conf (driven_state demo_actions 0))) 4%N (xs_hist (driven_state demo_actions 0))
    (access t2 READ (SPtr 0) 1 7) op'.
Proof.
  assert (∀ i, i = 0 ∨ i = 1 → reachable_world (driven demo_actions) ∧
    driven_state demo_actions i ∈ wo_states (driven demo_actions) ∧
    smap_find t2 (cf_thread_heads (xs_conf (driven_state demo_actions i))) = Some 4%N ∧
    operation_ok (xs_path (driven_state demo_actions i)) (access t2 READ (SPtr 0) 1 7) ∧
    solver_sound (xs_path (driven_state demo_actions i)) (enum_solver values)) as Hprem.
  { intros i Hi. assert (∀ v, xs_path (driven_state demo_actions i) v ↔ v ∈ values) as Hv
      by (intros v; destruct Hi as [->| ->]; apply driven_path; runs).
    split; [apply driven_reachable; runs|]. split; [destruct Hi as [->| ->]; apply driven_elem; runs|].
    split; [destruct Hi as [->| ->]; runs|]. split; [|by apply enum_sound].
    apply (operation_ok_b_spec _ values); [|runs]. intros v Hx. exact (proj1 (Hv v) Hx). }
  split.
  - destruct (Hprem 1 (or_intror eq_refl)) as (H1 & H2 & H3 & H4 & H5).
    destruct (access_outcome_exact (driven demo_actions) (driven_state demo_actions 1) (access t2 READ (SPtr 0) 1 7)
      (enum_solver values) 4%N 2 H1 H2 H3 H4 H5) as [[_ Hback] _]; [apply enum_answers | lia|]. apply Hback.
    assert (terminates (outcome_in demo_actions 1 (access t2 READ (SPtr 0) 1 7)) = true) as Ht by runs.
    destruct (outcome_in demo_actions 1 (access t2 READ (SPtr 0) 1 7)) as [[[sh' d'] [| |t i]]|];
      [discriminate Ht | discriminate Ht | exists sh', d', t, i; reflexivity | discriminate Ht].
  - destruct (Hprem 0 (or_introl eq_refl)) as (H1 & H2 & H3 & H4 & H5).
    destruct (access_outcome_exact (driven demo_actions) (driven_state demo_actions 0) (access t2 READ (SPtr 0) 1 7)
      (enum_solver values) 4%N 2 H1 H2 H3 H4 H5) as [[Hforth _] _]; [apply enum_answers | lia|].
    intros Hex. destruct (Hforth Hex) as (sh' & d' & t & i & Ho).
    assert (terminates (outcome_in demo_actions 0 (access t2 READ (SPtr 0) 1 7)) = false) as Ht by runs.
    rewrite Ho in Ht. discriminate Ht.
Defined.

(** Byte 0 was written in the copy only. *)
Lemma detector_records_history_witness :
  touched 0%Z (sh_store (wo_shared (driven demo_actions))) (xs_det (driven_state demo_actions 1)) t1 3%N 64 true 0 ∧
  ¬ touched 0%Z (sh_store (wo_shared (driven demo_actions))) (xs_det (driven_state demo_actions 0)) t1 3%N 64 true 0.
Proof.
  assert (touched_by_b 0 (xs_hist (driven_state demo_actions 1)) t1 3%N 64 true 0 = true) as H1 by runs.
  assert (touched_by_b 0 (xs_hist (driven_state demo_actions 0)) t1 3%N 64 true 0 = false) as H0 by runs.
  split.
  - apply (detector_records_history (driven demo_actions) (driven_state demo_actions 1));
      [apply driven_reachable; runs | apply driven_elem; runs | exact (proj1 (touched_by_b_spec _ _ _ _ _ _ _) H1)].
  - intros Hto. apply (detector_records_history (driven demo_actions) (driven_state demo_actions 0)) in Hto;
      [|apply driven_reachable; runs | apply driven_elem; runs].
    apply touched_by_b_spec in Hto. rewrite H0 in Hto. discriminate Hto.
Defined.

(** Both states own their list alone after the copy has written; before, the
    list has two owners. *)
Lemma access_lists_owned_witness :
  match sh_store (wo_shared (driven (take 4 demo_actions))) !! 0%N with
  | Some s => 0%N ∈ refs (wo_states (driven (take 4 demo_actions))) ∧ use_count s = 2
  | None => False
  end.
Proof.
  pose proof (access_lists_owned (driven (take 4 demo_actions)) 0%N) as H.
  assert (bool_decide (is_Some (sh_store (wo_shared (driven (take 4 demo_actions))) !! 0%N)) = true) as Hs by runs.
  destruct (sh_store (wo_shared (driven (take 4 demo_actions))) !! 0%N) as [s|]; [|discriminate Hs].
  destruct H as [H1 H2]; [apply driven_reachable; runs|]. split; [exact H1|]. rewrite H2. runs.
Defined.

Lemma detector_well_formed_witness :
  ∃ e m, (e, m) ∈ epochs_of (xs_det (driven_state demo_actions 1)) t1 ∧ is_Some (m !! 64%Z) ∧
    ∀ a oa, m !! a = Some oa → object_ok (sh_store (wo_shared (driven demo_actions))) oa.
Proof.
  assert (match epochs_of (xs_det (driven_state demo_actions 1)) t1 with
    | (_, m) :: _ => bool_decide (is_Some (m !! 64%Z)) | [] => false end = true) as Hb by runs.
  destruct (epochs_of (xs_det (driven_state demo_actions 1)) t1) as [|[e m] l] eqn:E; [discriminate Hb|].
  exists e, m. split; [left|]. split; [by apply bool_decide_eq_true in Hb|].
  apply (detector_well_formed (driven demo_actions) (driven_state demo_actions 1) t1 e m);
    [apply driven_reachable; runs | apply driven_elem; runs|]. rewrite E. left.
Defined.

(** ** Where a shared list is not acquired *)

(** Thread [t1] makes one access, then the state forks or not. *)
Definition forked_after (k : AccessType) (b n : Z) (fork : bool) : list action :=
  [ Do 0 (CreateThread t1 t2); Do 0 (InitThread t2 t1); Touch 0 (access t1 k (SPtr b) n 1) ] ++
  (if fork then [Fork 0 2] else []).

Definition passes (r : res (shared * DataRaceDetection * outcome)) : bool :=
  match r with Ok (_, _, Safe _) => true | _ => false end.
Definition fails_with (f : fault) (r : res (shared * DataRaceDetection * outcome)) : bool :=
  match r with Ok _ => false | Err f' => bool_decide (f' = f) end.

(** An access that conflicts with an earlier one of its own thread is
    recorded without failure, but not after the state has forked, while the
    access list is shared: a read over the begin of a tracked write modifies
    the list without having acquired it, which fails the assertion of
    [mut()]; a write into the end of the last tracked read dereferences the
    end iterator when it acquires the list. *)
Theorem shared_list_not_acquired :
  let read := access t1 READ (SPtr 4) 8 2 in
  let write := access t1 WRITE (SPtr 4) 8 2 in
  (∀ fork, reachable_world (driven (forked_after WRITE 8 4 fork)) ∧ reachable_world (driven (forked_after READ 0 8 fork))) ∧
  passes (outcome_in (forked_after WRITE 8 4 false) 0 read) = true ∧
  fails_with AssertFailed (outcome_in (forked_after WRITE 8 4 true) 0 read) = true ∧
  passes (outcome_in (forked_after READ 0 8 false) 0 write) = true ∧
  fails_with UndefinedBehaviour (outcome_in (forked_after READ 0 8 true) 0 write) = true.
Proof.
  intros read write. split; [|split_and!; runs].
  intros [|]; (split; apply driven_reachable; runs).
Qed.
