(* ===== verification/Solver.v ===== *)
(** * The solver chain

    include/klee/Solver/{Solver.h, SolverImpl.h, IncompleteSolver.h},
    lib/Solver/{Solver.cpp, SolverImpl.cpp, IncompleteSolver.cpp,
    ValidatingSolver.cpp, AssignmentValidatingSolver.cpp, CachingSolver.cpp}
    and lib/Core/TimingSolver.cpp, lib/Core/RaceDetection/StateBoundTimingSolver.h.
    A solver is a stack of implementations: each may answer a query itself,
    ask the one below and keep a state of its own. A method that returns false
    has no answer, [None].

    Statistics other than the cache counters and logging are left out. *)

From stdpp Require Import base tactics list numbers gmap.
From Stdlib Require Import Strings.Byte.
From S2P Require Import Prelude StdMap ThreadId ObjectAccesses.

Local Open Scope Z_scope.

(** ** What the solvers use of the expression library *)

Abbreviation uchar := Byte.byte.

Definition Z_of_uchar (x : uchar) : Z := Z.of_N (Byte.to_N x).

(** [Assignment::bindings_ty], for arrays of bytes. *)
Abbreviation bindings A := (gmap A (list uchar)).

Class QueryLib `{ExprLib} := {
  getWidth : expr → Z;
  createIsZero : expr → expr;
  (** [ConstantExpr::create(value, width)]. *)
  constant : Z → Z → expr;
  EqExpr : expr → expr → expr;
  NeExpr : expr → expr → expr;
  UleExpr : expr → expr → expr;
  LShrExpr : expr → expr → expr;
  (** [ConstraintManager::simplifyExpr]. *)
  simplifyExpr : list expr → expr → expr;

  Array : Type;
  Array_eq_dec :: EqDecision Array;
  Array_countable :: Countable Array;
  isConstantArray : Array → bool;
  arr_size : Array → nat;
  (** [ReadExpr::create(UpdateList(array, 0), index)]. *)
  readByte : Array → Z → expr;

  (** What [findReads] collects, the reads in update lists included, and
      [updates.root], [!updates.head.isNull()] and [index] of a read. *)
  ReadExpr : Type;
  findReads : expr → list ReadExpr;
  read_root : ReadExpr → Array;
  read_updated : ReadExpr → bool;
  read_index : ReadExpr → expr;
  findSymbolicObjects : list expr → list Array;

  (** [AssignmentEvaluator], for an assignment with [allowFreeValues]. *)
  evaluate : bool → bindings Array → expr → expr;
}.

(** [ConstantExpr::isTrue], for the constant with value [k]. *)
Definition isTrue `{QueryLib} (e : expr) (k : Z) : bool := (getWidth e =? 1) && (k =? 1).

(** ** Queries and implementations *)

Section solver.
Context {EL : ExprLib} {QL : QueryLib}.

Record Query := { constraints : list expr; query : expr }.

Definition withExpr (q : Query) (e : expr) : Query := {| constraints := constraints q; query := e |}.
Definition negateExpr (q : Query) : Query := withExpr q (createIsZero (query q)).

Inductive Validity : Set := VTrue | VFalse | VUnknown.

(** The virtual methods of [SolverImpl], over the state of the object and of
    those below it. *)
Record SolverImpl := {
  si_state : Type;
  computeTruth : Query → si_state → res (option bool * si_state);
  computeValidity : Query → si_state → res (option Validity * si_state);
  computeValue : Query → si_state → res (option expr * si_state);
  (** [Some None] if there is no solution. *)
  computeInitialValues : Query → list Array → si_state → res (option (option (list (list uchar))) * si_state);
  setCoreSolverTimeout : Z → si_state → si_state;
}.

(** [SolverImpl::computeValidity], for implementations that do not override
    it. *)
Definition default_validity {S} (truth : Query → S → res (option bool * S)) (q : Query) (s : S)
    : res (option Validity * S) :=
  '(isTrue, s) ← truth q s;
  match isTrue with
  | None => Ok (None, s)
  | Some true => Ok (Some VTrue, s)
  | Some false =>
      '(isFalse, s) ← truth (negateExpr q) s;
      match isFalse with
      | None => Ok (None, s)
      | Some b => Ok (Some (if (b : bool) then VFalse else VUnknown), s)
      end
  end.

(** ** [Solver] *)

Section facade.
Context (impl : SolverImpl).
Implicit Types (s : si_state impl) (q : Query).

Definition solver_evaluate q s : res (option Validity * si_state impl) :=
  _ ← cassert (getWidth (query q) =? 1);
  match as_constant (query q) with
  | Some k => Ok (Some (if isTrue (query q) k then VTrue else VFalse), s)
  | None => computeValidity impl q s
  end.

Definition solver_mustBeTrue q s : res (option bool * si_state impl) :=
  _ ← cassert (getWidth (query q) =? 1);
  match as_constant (query q) with
  | Some k => Ok (Some (isTrue (query q) k), s)
  | None => computeTruth impl q s
  end.

Definition solver_mustBeFalse q s : res (option bool * si_state impl) := solver_mustBeTrue (negateExpr q) s.

(** The answer to the opposite question. *)
Definition opposite {S} (r : res (option bool * S)) : res (option bool * S) :=
  '(b, s) ← r; Ok (option_map negb b, s).

Definition solver_mayBeTrue q s : res (option bool * si_state impl) := opposite (solver_mustBeFalse q s).
Definition solver_mayBeFalse q s : res (option bool * si_state impl) := opposite (solver_mustBeTrue q s).

(** [cast<ConstantExpr>] fails an assertion for other expressions. *)
Definition solver_getValue q s : res (option expr * si_state impl) :=
  match as_constant (query q) with
  | Some _ => Ok (Some (query q), s)
  | None =>
      '(tmp, s) ← computeValue impl q s;
      match tmp with
      | None => Ok (None, s)
      | Some e => _ ← cassert (match as_constant e with Some _ => true | None => false end); Ok (Some e, s)
      end
  end.

(** [hasSolution] is not initialised; whatever it is then, a failed query
    has no result. *)
Definition solver_getInitialValues q (objects : list Array) s : res (option (list (list uchar)) * si_state impl) :=
  '(r, s) ← computeInitialValues impl q objects s;
  Ok (match r with Some (Some values) => Some values | _ => None end, s).

(** *** [getRange] *)

(** An answer, or the assertion [success] fails. *)
Definition must_answer {A} (r : option A) : res A :=
  match r with Some a => Ok a | None => Err AssertFailed end.

(** The binary searches: [ask mid] tells to go on to the left of [mid]. *)
Fixpoint search (fuel : nat) (ask : Z → si_state impl → res (option bool * si_state impl)) (lo hi : Z) s
    : res (Z * si_state impl) :=
  match fuel with
  | O => Err OutOfFuel
  | S fuel' =>
      if lo <? hi then
        let mid := lo + (hi - lo) / 2 in
        '(r, s) ← ask mid s;
        res ← must_answer r;
        if (res : bool) then search fuel' ask lo mid s else search fuel' ask (mid + 1) hi s
      else Ok (lo, s)
  end.

(** [bits64::maxValueOfNBits]. *)
Definition maxValueOfNBits (n : Z) : res Z :=
  _ ← cassert (n <=? 64);
  Ok (if n =? 0 then 0 else Z.shiftr (word_size - 1) (64 - n)).

(** The searches halve an interval of 64-bit numbers; [bits] is only set in
    the loop, to the last [lo]. *)
Definition getRange q s : res (expr * expr * si_state impl) :=
  let e := query q in
  let width := getWidth e in
  '(min, max, s) ←
    (if width =? 1 then
       '(r, s) ← solver_evaluate q s;
       v ← must_answer r;
       Ok (match v with VTrue => (1, 1, s) | VFalse => (0, 0, s) | VUnknown => (0, 1, s) end)
     else match as_constant e with
     | Some k => _ ← cassert (width <=? 64); Ok (k, k, s)
     | None =>
         '(bits, s) ← search 65 (λ mid s, solver_mustBeTrue
             (withExpr q (EqExpr (LShrExpr e (constant mid width)) (constant 0 width))) s) 0 width s;
         '(r, s) ← solver_mayBeTrue (withExpr q (EqExpr e (constant 0 width))) s;
         zero ← must_answer r;
         '(min, s) ←
           (if (zero : bool) then Ok (0, s)
            else
              hi ← maxValueOfNBits bits;
              search 65 (λ mid s, solver_mayBeTrue (withExpr q (UleExpr e (constant mid width))) s) 0 hi s);
         hi ← maxValueOfNBits bits;
         '(max, s) ← search 65 (λ mid s, solver_mustBeTrue (withExpr q (UleExpr e (constant mid width))) s) min hi s;
         Ok (min, max, s)
     end);
  Ok (constant min width, constant max width, s).
End facade.

(** ** Incomplete solvers *)

Inductive PartialValidity : Set := MustBeTrue | MustBeFalse | MayBeTrue | MayBeFalse | TrueOrFalse | PVNone.

Definition negatePartialValidity (pv : PartialValidity) : res PartialValidity :=
  match pv with
  | MustBeTrue => Ok MustBeFalse
  | MustBeFalse => Ok MustBeTrue
  | MayBeTrue => Ok MayBeFalse
  | MayBeFalse => Ok MayBeTrue
  | TrueOrFalse => Ok TrueOrFalse
  | PVNone => Err AssertFailed
  end.

Definition pv_none (pv : PartialValidity) : bool := match pv with PVNone => true | _ => false end.
Definition pv_true (pv : PartialValidity) : bool := match pv with MustBeTrue => true | _ => false end.

(** The class [IncompleteSolver]; its solvers have no state. *)
Record IncompleteSolver := {
  is_computeTruth : Query → PartialValidity;
  is_computeValidity : Query → PartialValidity;
  is_computeValue : Query → option expr;
  is_computeInitialValues : Query → list Array → option (option (list (list uchar)));
}.

(** [IncompleteSolver::computeValidity], for solvers that do not override
    it. *)
Definition incomplete_validity (truth : Query → PartialValidity) (q : Query) : PartialValidity :=
  let trueResult := truth q in
  if pv_true trueResult then MustBeTrue
  else
    let falseResult := truth (negateExpr q) in
    if pv_true falseResult then MustBeFalse
    else match negb (pv_none trueResult), negb (pv_none falseResult) with
         | true, true => TrueOrFalse
         | true, false => MayBeFalse
         | false, true => MayBeTrue
         | false, false => PVNone
         end.

(** [StagedSolverImpl]. *)
Section staged.
Context (primary : IncompleteSolver) (secondary : SolverImpl).
Implicit Types (s : si_state secondary) (q : Query).

Definition staged_truth q s : res (option bool * si_state secondary) :=
  let trueResult := is_computeTruth primary q in
  if negb (pv_none trueResult) then Ok (Some (pv_true trueResult), s)
  else computeTruth secondary q s.

Definition staged_validity q s : res (option Validity * si_state secondary) :=
  match is_computeValidity primary q with
  | MustBeTrue => Ok (Some VTrue, s)
  | MustBeFalse => Ok (Some VFalse, s)
  | TrueOrFalse => Ok (Some VUnknown, s)
  | MayBeTrue =>
      '(tmp, s) ← computeTruth secondary q s;
      Ok (option_map (λ b : bool, if b then VTrue else VUnknown) tmp, s)
  | MayBeFalse =>
      '(tmp, s) ← computeTruth secondary (negateExpr q) s;
      Ok (option_map (λ b : bool, if b then VFalse else VUnknown) tmp, s)
  | PVNone => computeValidity secondary q s
  end.

Definition staged_value q s : res (option expr * si_state secondary) :=
  match is_computeValue primary q with
  | Some e => Ok (Some e, s)
  | None => computeValue secondary q s
  end.

Definition staged_initial q objects s : res (option (option (list (list uchar))) * si_state secondary) :=
  match is_computeInitialValues primary q objects with
  | Some r => Ok (Some r, s)
  | None => computeInitialValues secondary q objects s
  end.

Definition StagedSolver : SolverImpl := {|
  si_state := si_state secondary; computeTruth := staged_truth; computeValidity := staged_validity;
  computeValue := staged_value; computeInitialValues := staged_initial; setCoreSolverTimeout := setCoreSolverTimeout secondary |}.
End staged.

(** ** [ValidatingSolver] *)

Section validating.
Context (solver oracle : SolverImpl).
Abbreviation st := (si_state solver * si_state oracle)%type.
Implicit Types (q : Query) (s : st).

#[export] Instance Validity_eq_dec : EqDecision Validity.
Proof. solve_decision. Defined.

Definition validating_truth q s : res (option bool * st) :=
  '(isValid, s1) ← computeTruth solver q s.1;
  match isValid with
  | None => Ok (None, (s1, s.2))
  | Some isValid =>
      '(answer, s2) ← computeTruth oracle q s.2;
      match answer with
      | None => Ok (None, (s1, s2))
      | Some answer => _ ← cassert (Bool.eqb isValid answer); Ok (Some isValid, (s1, s2))
      end
  end.

Definition validating_validity q s : res (option Validity * st) :=
  '(result, s1) ← computeValidity solver q s.1;
  match result with
  | None => Ok (None, (s1, s.2))
  | Some result =>
      '(answer, s2) ← computeValidity oracle q s.2;
      match answer with
      | None => Ok (None, (s1, s2))
      | Some answer => _ ← cassert (bool_decide (result = answer)); Ok (Some result, (s1, s2))
      end
  end.

Definition validating_value q s : res (option expr * st) :=
  '(result, s1) ← computeValue solver q s.1;
  match result with
  | None => Ok (None, (s1, s.2))
  | Some result =>
      '(answer, s2) ← computeTruth oracle (withExpr q (NeExpr (query q) result)) s.2;
      match answer with
      | None => Ok (None, (s1, s2))
      | Some answer => _ ← cassert (negb answer); Ok (Some result, (s1, s2))
      end
  end.

(** The bindings as constraints. *)
Definition binding_constraints (array : Array) (data : list uchar) : list expr :=
  imap (λ j x, EqExpr (readByte array (Z.of_nat j)) (constant (Z_of_uchar x) 8)) (take (arr_size array) data).
Definition bindings_of (objects : list Array) (values : list (list uchar)) : list expr :=
  concat (zip_with binding_constraints objects values).

(** The constraints and the negated query as one expression. *)
Definition conjunction q : expr :=
  fold_left AndExpr (constraints q) (createIsZero (query q)).

Definition validating_initial q objects s : res (option (option (list (list uchar))) * st) :=
  '(r, s1) ← computeInitialValues solver q objects s.1;
  match r with
  | None => Ok (None, (s1, s.2))
  | Some r =>
      let q' := match r with
                | Some values => {| constraints := bindings_of objects values; query := conjunction q |}
                | None => q
                end in
      '(answer, s2) ← computeTruth oracle q' s.2;
      match answer with
      | None => Ok (None, (s1, s2))
      | Some answer => _ ← cassert answer; Ok (Some r, (s1, s2))
      end
  end.

Definition ValidatingSolver : SolverImpl := {|
  si_state := st; computeTruth := validating_truth; computeValidity := validating_validity;
  computeValue := validating_value; computeInitialValues := validating_initial;
  setCoreSolverTimeout := λ t s, (setCoreSolverTimeout solver t s.1, s.2) |}.
End validating.

(** ** [Assignment] and [AssignmentValidatingSolver] *)

(** [Assignment(objects, values)]: [std::map::insert] keeps the first
    binding. *)
Definition assignment_of (objects : list Array) (values : list (list uchar)) : bindings Array :=
  fold_left (λ b p, match b !! p.1 with Some _ => b | None => <[p.1 := p.2]> b end) (zip objects values) ∅.

(** [ConstantExpr::isFalse]. *)
Definition isFalse (e : expr) (k : Z) : bool := (getWidth e =? 1) && (k =? 0).

(** [Expr::isTrue], which is false for other than constants; its assertion
    that the expression is boolean holds of constraints and queries. *)
Definition isTrue_expr (e : expr) : bool := match as_constant e with Some k => isTrue e k | None => false end.

Definition satisfies (b : bindings Array) (es : list expr) : bool :=
  forallb (λ e, isTrue_expr (evaluate false b e)) es.

Section assignment_validating.
Context (solver : SolverImpl).

(** The checks; a failing one ends the program with [abort]. The
    [hasSolution] of a failed query is taken to be false. *)
Definition check_constraint (b : bindings Array) (e : expr) : bool :=
  let r := evaluate true b e in match as_constant r with Some k => negb (isFalse r k) | None => false end.
Definition check_query (b : bindings Array) (e : expr) : bool :=
  let r := evaluate true b e in match as_constant r with Some k => negb (isTrue r k) | None => false end.

Definition avs_initial (q : Query) (objects : list Array) (s : si_state solver)
    : res (option (option (list (list uchar))) * si_state solver) :=
  '(r, s) ← computeInitialValues solver q objects s;
  match r with
  | Some (Some values) =>
      let b := assignment_of objects values in
      _ ← cassert (forallb (check_constraint b) (constraints q));
      _ ← cassert (check_query b (query q));
      Ok (r, s)
  | _ => Ok (r, s)
  end.

Definition AssignmentValidatingSolver : SolverImpl := {|
  si_state := si_state solver; computeTruth := computeTruth solver; computeValidity := computeValidity solver;
  computeValue := computeValue solver; computeInitialValues := avs_initial;
  setCoreSolverTimeout := setCoreSolverTimeout solver |}.
End assignment_validating.

(** ** [CachingSolver] *)

Section caching.
Context (solver : SolverImpl).

Abbreviation CacheEntry := (list expr * expr)%type.

Definition constraints_eqb (a b : list expr) : bool :=
  Nat.eqb (length a) (length b) && forallb (λ p, expr_eqb p.1 p.2) (zip a b).
Definition entry_eqb (a b : CacheEntry) : bool := constraints_eqb a.1 b.1 && expr_eqb a.2 b.2.

Record caching_state := {
  cache : list (CacheEntry * PartialValidity);
  queryCacheHits : nat;
  queryCacheMisses : nat;
  below : si_state solver;
}.
Implicit Types (s : caching_state) (q : Query).

Definition set_below (b : si_state solver) s : caching_state :=
  {| cache := cache s; queryCacheHits := queryCacheHits s; queryCacheMisses := queryCacheMisses s; below := b |}.
Definition hit s : caching_state :=
  {| cache := cache s; queryCacheHits := S (queryCacheHits s); queryCacheMisses := queryCacheMisses s; below := below s |}.
Definition miss s : caching_state :=
  {| cache := cache s; queryCacheHits := queryCacheHits s; queryCacheMisses := S (queryCacheMisses s); below := below s |}.

Definition canonicalizeQuery (originalQuery : expr) : expr * bool :=
  let negatedQuery := createIsZero originalQuery in
  if std_less originalQuery negatedQuery then (originalQuery, false) else (negatedQuery, true).

(** [cache.find(ce)]. *)
Fixpoint cache_find (ce : CacheEntry) (c : list (CacheEntry * PartialValidity)) : option PartialValidity :=
  match c with
  | [] => None
  | (ce', pv) :: c' => if entry_eqb ce ce' then Some pv else cache_find ce c'
  end.

Definition negated_if (negationUsed : bool) (pv : PartialValidity) : res PartialValidity :=
  if negationUsed then negatePartialValidity pv else Ok pv.

Definition cacheLookup q s : res (option PartialValidity) :=
  let '(canonicalQuery, negationUsed) := canonicalizeQuery (query q) in
  match cache_find (constraints q, canonicalQuery) (cache s) with
  | Some pv => Some <$> negated_if negationUsed pv
  | None => Ok None
  end.

(** [unordered_map::insert] leaves an existing element alone. *)
Definition cacheInsert q (result : PartialValidity) s : res caching_state :=
  let '(canonicalQuery, negationUsed) := canonicalizeQuery (query q) in
  cachedResult ← negated_if negationUsed result;
  let ce := (constraints q, canonicalQuery) in
  Ok (match cache_find ce (cache s) with
      | Some _ => s
      | None => {| cache := (ce, cachedResult) :: cache s; queryCacheHits := queryCacheHits s;
                   queryCacheMisses := queryCacheMisses s; below := below s |}
      end).

Definition ask_truth q s : res (option bool * caching_state) :=
  '(r, b) ← computeTruth solver q (below s); Ok (r, set_below b s).

Definition caching_validity q s : res (option Validity * caching_state) :=
  cached ← cacheLookup q s;
  match cached with
  | Some MustBeTrue => Ok (Some VTrue, hit s)
  | Some MustBeFalse => Ok (Some VFalse, hit s)
  | Some TrueOrFalse => Ok (Some VUnknown, hit s)
  | Some MayBeTrue =>
      '(tmp, s) ← ask_truth q (miss s);
      match tmp with
      | None => Ok (None, s)
      | Some true => s ← cacheInsert q MustBeTrue s; Ok (Some VTrue, s)
      | Some false => s ← cacheInsert q TrueOrFalse s; Ok (Some VUnknown, s)
      end
  | Some MayBeFalse =>
      '(tmp, s) ← ask_truth (negateExpr q) (miss s);
      match tmp with
      | None => Ok (None, s)
      | Some true => s ← cacheInsert q MustBeFalse s; Ok (Some VFalse, s)
      | Some false => s ← cacheInsert q TrueOrFalse s; Ok (Some VUnknown, s)
      end
  | Some PVNone => Err AssertFailed
  | None =>
      '(result, b) ← computeValidity solver q (below (miss s));
      let s := set_below b (miss s) in
      match result with
      | None => Ok (None, s)
      | Some v =>
          s ← cacheInsert q (match v with VTrue => MustBeTrue | VFalse => MustBeFalse | VUnknown => TrueOrFalse end) s;
          Ok (Some v, s)
      end
  end.

Definition caching_truth q s : res (option bool * caching_state) :=
  cached ← cacheLookup q s;
  match cached with
  | Some MustBeTrue => Ok (Some true, hit s)
  | Some MustBeFalse | Some MayBeFalse | Some TrueOrFalse | Some PVNone => Ok (Some false, hit s)
  | _ =>
      '(r, s) ← ask_truth q (miss s);
      match r with
      | None => Ok (None, s)
      | Some isValid =>
          s ← cacheInsert q
            (if (isValid : bool) then MustBeTrue
             else match cached with Some _ => TrueOrFalse | None => MayBeFalse end) s;
          Ok (Some isValid, s)
      end
  end.

Definition caching_value q s : res (option expr * caching_state) :=
  '(r, b) ← computeValue solver q (below (miss s)); Ok (r, set_below b (miss s)).

Definition caching_initial q objects s : res (option (option (list (list uchar))) * caching_state) :=
  '(r, b) ← computeInitialValues solver q objects (below (miss s)); Ok (r, set_below b (miss s)).

Definition CachingSolver : SolverImpl := {|
  si_state := caching_state; computeTruth := caching_truth; computeValidity := caching_validity;
  computeValue := caching_value; computeInitialValues := caching_initial;
  setCoreSolverTimeout := λ t s, set_below (setCoreSolverTimeout solver t (below s)) s |}.

(** The cache of a new solver is empty. *)
Definition new_caching (b : si_state solver) : caching_state :=
  {| cache := []; queryCacheHits := 0; queryCacheMisses := 0; below := b |}.
End caching.

(** ** [TimingSolver] *)

Section timing.
Context (impl : SolverImpl) (simplifyExprs : bool).
Implicit Types (cs : list expr) (e : expr) (s : si_state impl).

Definition timed_query cs e : Query :=
  {| constraints := cs; query := if simplifyExprs then simplifyExpr cs e else e |}.

Definition ts_evaluate cs e s : res (option Validity * si_state impl) :=
  match as_constant e with
  | Some k => Ok (Some (if isTrue e k then VTrue else VFalse), s)
  | None => solver_evaluate impl (timed_query cs e) s
  end.

Definition ts_mustBeTrue cs e s : res (option bool * si_state impl) :=
  match as_constant e with
  | Some k => Ok (Some (isTrue e k), s)
  | None => solver_mustBeTrue impl (timed_query cs e) s
  end.

Definition ts_mustBeFalse cs e s : res (option bool * si_state impl) := ts_mustBeTrue cs (createIsZero e) s.
Definition ts_mayBeTrue cs e s : res (option bool * si_state impl) := opposite (ts_mustBeFalse cs e s).
Definition ts_mayBeFalse cs e s : res (option bool * si_state impl) := opposite (ts_mustBeTrue cs e s).

Definition ts_getValue cs e s : res (option expr * si_state impl) :=
  match as_constant e with
  | Some _ => Ok (Some e, s)
  | None => solver_getValue impl (timed_query cs e) s
  end.

Definition ts_getInitialValues cs (objects : list Array) s : res (option (list (list uchar)) * si_state impl) :=
  match objects with
  | [] => Ok (Some [], s)
  | _ => solver_getInitialValues impl {| constraints := cs; query := constant 0 1 |} objects s
  end.

Definition ts_getRange cs e s : res (expr * expr * si_state impl) :=
  getRange impl {| constraints := cs; query := e |} s.

(** ** [StateBoundTimingSolver]

    Every question is asked with a timeout, which is reset afterwards. *)
Definition with_timeout {A} (timeout : Z) (ask : si_state impl → res (option A * si_state impl)) s
    : res (option A * si_state impl) :=
  '(r, s) ← ask (setCoreSolverTimeout impl timeout s); Ok (r, setCoreSolverTimeout impl 0 s).

Definition sb_mustBeTrue timeout cs e s : res (option bool * si_state impl) := with_timeout timeout (ts_mustBeTrue cs e) s.
Definition sb_mustBeFalse timeout cs e s : res (option bool * si_state impl) := with_timeout timeout (ts_mustBeFalse cs e) s.
Definition sb_mayBeTrue timeout cs e s : res (option bool * si_state impl) := with_timeout timeout (ts_mayBeTrue cs e) s.
Definition sb_mayBeFalse timeout cs e s : res (option bool * si_state impl) := with_timeout timeout (ts_mayBeFalse cs e) s.
End timing.
End solver.
