(* ===== verification/SolverProofs.v ===== *)
(** * What the solvers promise

    The contract of [SolverImpl] as its header documents it, that every solver
    of the chain keeps it if those below it do, what [Solver], [TimingSolver]
    and [StateBoundTimingSolver] promise over an implementation that keeps
    it, and the exactness of [getRange]. *)

From stdpp Require Import base tactics list numbers gmap.
From Stdlib Require Import Strings.Byte.
From S2P Require Import Prelude StdMap ThreadId ObjectAccesses Solver.

Local Open Scope Z_scope.

(** ** The bytes an expression reads *)

Section touched.
Context {EL : ExprLib} {QL : QueryLib}.

(** The bytes of [re]: one, or all of the array for a symbolic index. *)
Definition read_touches (re : ReadExpr) (array : Array) (i : Z) : Prop :=
  read_root re = array ∧ isConstantArray array && negb (read_updated re) = false ∧
  match as_constant (read_index re) with Some k => i = k | None => True end.

Definition reads_at (reads : list ReadExpr) (array : Array) (i : Z) : Prop :=
  ∃ re, re ∈ reads ∧ read_touches re array i.

Definition in_array (array : Array) (i : Z) : Prop := 0 ≤ i < Z.of_nat (arr_size array).

(** The byte that an assignment binds. *)
Definition bound (b : bindings Array) (array : Array) (i : Z) : option uchar :=
  ds ← b !! array; ds !! Z.to_nat i.
End touched.

(** The meaning of the expressions that the solvers build. *)
Class QuerySem `{ES : ExprSem} {QL : QueryLib} := {
  get_width e : getWidth e = width e;
  eval_is_zero v e : eval v (createIsZero e) = if eval v e =? 0 then 1 else 0;
  width_is_zero e : width (createIsZero e) = 1;
  is_zero_constant e k : as_constant e = Some k → as_constant (createIsZero e) = Some (if k =? 0 then 1 else 0);
  is_zero_symbolic e : width e = 1 → as_constant e = None → as_constant (createIsZero e) = None;
  eval_const v k w : 0 ≤ k < 2 ^ w → eval v (constant k w) = k;
  width_const k w : 0 ≤ w → width (constant k w) = w;
  eval_eq v x y : width x = width y → eval v (EqExpr x y) = if eval v x =? eval v y then 1 else 0;
  width_eq x y : width (EqExpr x y) = 1;
  eval_ne v x y : width x = width y → eval v (NeExpr x y) = if eval v x =? eval v y then 0 else 1;
  width_ne x y : width (NeExpr x y) = 1;
  eval_ule v x y : width x = width y → eval v (UleExpr x y) = if eval v x <=? eval v y then 1 else 0;
  width_ule x y : width (UleExpr x y) = 1;
  eval_lshr v x y : width x = width y → eval v (LShrExpr x y) = Z.shiftr (eval v x) (eval v y);
  width_lshr x y : width (LShrExpr x y) = width x;
  eval_simplify cs v e : (∀ c, c ∈ cs → eval v c ≠ 0) → eval v (simplifyExpr cs e) = eval v e;
  width_simplify cs e : width (simplifyExpr cs e) = width e;
  as_constant_const k w : 0 ≤ k < 2 ^ w → as_constant (constant k w) = Some k;

  (** An assignment gives symbolic arrays any bytes; a value depends on the
      bytes that are read. *)
  byte : assignment → Array → Z → uchar;
  byte_constant v v' array i : isConstantArray array = true → byte v array i = byte v' array i;
  assigned (f : Array → Z → uchar) :
    ∃ v, ∀ array i, isConstantArray array = false → in_array array i → byte v array i = f array i;
  eval_reads v v' e :
    (∀ array i, reads_at (findReads e) array i → in_array array i → byte v array i = byte v' array i) →
    eval v e = eval v' e;
  index_width e re : re ∈ findReads e → getWidth (read_index re) ≤ 32;
  index_in_array e re k : re ∈ findReads e → as_constant (read_index re) = Some k → in_array (read_root re) k;
  reads_constant e k : as_constant e = Some k → findReads e = [];
  reads_is_zero e array i : width e = 1 →
    reads_at (findReads (createIsZero e)) array i ↔ reads_at (findReads e) array i;
  symbolic_objects es e array i : e ∈ es → reads_at (findReads e) array i → isConstantArray array = false →
    array ∈ findSymbolicObjects es;
  (** Expressions that read nothing are folded. *)
  folded e : (∀ array i, ¬ reads_at (findReads e) array i) → as_constant e ≠ None;
  (** The evaluator yields the value if the bytes are bound; the others are
      zero unless free values are allowed. *)
  evaluated free b e v :
    (∀ array i, reads_at (findReads e) array i → isConstantArray array = false → in_array array i →
      match bound b array i with Some x => byte v array i = x | None => free = false ∧ byte v array i = x00 end) →
    as_constant (evaluate free b e) = Some (eval v e);
  width_evaluated free b e : width (evaluate free b e) = width e;
}.

Section contract.
Context {EL : ExprLib} {ES : ExprSem} {QL : QueryLib} {QS : QuerySem}.
Implicit Types (q : Query) (v : assignment) (e : expr) (cs : list expr).

(** ** The contract *)

Definition holds v cs : Prop := ∀ c, c ∈ cs → eval v c ≠ 0.
Definition satisfiable cs : Prop := ∃ v, holds v cs.

Definition true_in v e : bool := negb (eval v e =? 0).

(** The query has the truth value [b] for all assignments the constraints
    allow, or for some. *)
Definition always q (b : bool) : Prop := ∀ v, holds v (constraints q) → true_in v (query q) = b.
Definition sometimes q (b : bool) : Prop := ∃ v, holds v (constraints q) ∧ true_in v (query q) = b.

Definition truth_is q (b : bool) : Prop := if b then always q true else sometimes q false.
Definition validity_is q (r : Validity) : Prop :=
  match r with VTrue => always q true | VFalse => always q false | VUnknown => sometimes q true ∧ sometimes q false end.
Definition value_is q e : Prop := ∃ k, as_constant e = Some k ∧ width e = width (query q) ∧
  ∃ v, holds v (constraints q) ∧ eval v (query q) = k.

(** The queries that implementations are given. *)
Record posed q : Prop := {
  po_bool : width (query q) = 1;
  po_symbolic : as_constant (query q) = None;
  po_sat : satisfiable (constraints q);
}.

(** A method that returns keeps the state's invariant, and its answer, if it
    has one, is right. *)
Definition delivers {S A} (inv : S → Prop) (right : A → Prop) (m : res (option A * S)) : Prop :=
  ∃ r s, m = Ok (r, s) ∧ inv s ∧ ∀ a, r = Some a → right a.

Record impl_ok (I : SolverImpl) (inv : si_state I → Prop) : Prop := {
  io_truth q s : posed q → inv s → delivers inv (truth_is q) (computeTruth I q s);
  io_validity q s : posed q → inv s → delivers inv (validity_is q) (computeValidity I q s);
  io_value q s : as_constant (query q) = None → satisfiable (constraints q) → inv s →
    delivers inv (value_is q) (computeValue I q s);
  io_timeout t s : inv s → inv (setCoreSolverTimeout I t s);
}.

(** *** Initial values *)

(** The values of [objects] are those of [v]. *)
Definition values_of v (objects : list Array) (values : list (list uchar)) : Prop :=
  ∀ o ds, (o, ds) ∈ zip objects values → isConstantArray o = false →
    ∀ i : nat, (i < arr_size o)%nat → ds !! i = Some (byte v o (Z.of_nat i)).

(** A counterexample for the query, or there is none. *)
Definition initial_is q (objects : list Array) (r : option (list (list uchar))) : Prop :=
  match r with
  | None => always q true
  | Some values =>
      Forall2 (λ o ds, length ds = arr_size o) objects values ∧
      ∃ v, holds v (constraints q) ∧ true_in v (query q) = false ∧ values_of v objects values
  end.

(** The queries: the constraints hold no constant false, and [objects] all
    the symbolic arrays. *)
Record askable q (objects : list Array) : Prop := {
  ak_bool : width (query q) = 1;
  ak_constant : as_constant (query q) = None ∨ as_constant (query q) = Some 0;
  ak_constraints c k : c ∈ constraints q → as_constant c = Some k → k ≠ 0;
  ak_objects e array i : e ∈ query q :: constraints q → reads_at (findReads e) array i →
    isConstantArray array = false → array ∈ objects;
}.

Definition values_ok (I : SolverImpl) (inv : si_state I → Prop) : Prop :=
  ∀ q objects s, askable q objects → inv s → delivers inv (initial_is q objects) (computeInitialValues I q objects s).

(** A solver that does not fail. *)
Definition answering (I : SolverImpl) (inv : si_state I → Prop) : Prop :=
  (∀ q s, posed q → inv s → ∃ b s', computeTruth I q s = Ok (Some b, s')) ∧
  ∀ q s, posed q → inv s → ∃ b s', computeValidity I q s = Ok (Some b, s').

(** ** Queries *)

Lemma true_in_spec v e : true_in v e = true ↔ eval v e ≠ 0.
Proof. unfold true_in. by rewrite negb_true_iff, Z.eqb_neq. Qed.

Lemma true_in_is_zero v e : true_in v (createIsZero e) = negb (true_in v e).
Proof. unfold true_in. rewrite eval_is_zero. by destruct (eval v e =? 0). Qed.

Lemma true_in_ext v e e' : eval v e = eval v e' → true_in v e = true_in v e'.
Proof. unfold true_in. by intros ->. Qed.

Lemma negb_eq (a b : bool) : negb a = b ↔ a = negb b.
Proof. by destruct a, b. Qed.

Lemma negate_always q b : always (negateExpr q) b ↔ always q (negb b).
Proof. unfold always. simpl. by do 2 (apply forall_proper; intros ?); rewrite true_in_is_zero, negb_eq. Qed.

Lemma negate_sometimes q b : sometimes (negateExpr q) b ↔ sometimes q (negb b).
Proof. unfold sometimes. simpl. f_equiv; intros v. by rewrite true_in_is_zero, negb_eq. Qed.

Lemma negate_posed q : posed q → posed (negateExpr q).
Proof. intros [Hw Hs Hsat]. split; [apply width_is_zero | by apply is_zero_symbolic | done]. Qed.

Lemma always_sometimes q b : satisfiable (constraints q) → always q b → sometimes q b.
Proof. intros [v Hv] H. exists v. auto. Qed.

Lemma always_not q b : sometimes q (negb b) → ¬ always q b.
Proof. intros (v & Hv & Ht) H. specialize (H v Hv). rewrite H in Ht. by destruct b. Qed.

(** There is one right answer. *)
Lemma truth_unique q b b' : truth_is q b → truth_is q b' → b = b'.
Proof. destruct b, b'; simpl; try done; intros H1 H2; exfalso; [by apply (always_not q true) | by apply (always_not q true)]. Qed.

Lemma validity_unique q r r' : satisfiable (constraints q) → validity_is q r → validity_is q r' → r = r'.
Proof.
  intros Hsat. destruct r, r'; simpl; try done; intros H1 H2; exfalso.
  - by apply (always_not q true); [apply always_sometimes|].
  - destruct H2. by apply (always_not q true).
  - by apply (always_not q true); [apply always_sometimes|].
  - destruct H2. by apply (always_not q false).
  - destruct H1. by apply (always_not q true).
  - destruct H1. by apply (always_not q false).
Qed.

(** ** Methods *)

Section delivers.
Context {S A : Type}.
Implicit Types (inv : S → Prop) (right : A → Prop).

Lemma delivers_ok inv right r s : inv s → (∀ a, r = Some a → right a) → delivers inv right (Ok (r, s)).
Proof. intros Hi Hr. by exists r, s. Qed.

Lemma delivers_none inv right s : inv s → delivers inv right (Ok (None, s)).
Proof. intros Hi. by apply delivers_ok. Qed.

Lemma delivers_some inv right a s : inv s → right a → delivers inv right (Ok (Some a, s)).
Proof. intros Hi Ha. apply delivers_ok; [done|]. by intros ? [= <-]. Qed.

Lemma delivers_weaken inv right right' m :
  delivers inv right m → (∀ a, right a → right' a) → delivers inv right' m.
Proof. intros (r & s & -> & Hi & Hr) Hw. apply delivers_ok; [done|]. eauto. Qed.

(** What is done with an answer. *)
Lemma delivers_bind {S' B} inv right (inv' : S' → Prop) (right' : B → Prop) m f :
  delivers inv right m →
  (∀ s, inv s → delivers inv' right' (f (None, s))) →
  (∀ a s, inv s → right a → delivers inv' right' (f (Some a, s))) →
  delivers inv' right' (m ≫= f).
Proof.
  intros (r & s & -> & Hi & Hr) Hn Hs. rewrite bind_Ok_l. destruct r as [a|]; [|auto]. apply Hs; auto.
Qed.
End delivers.

(** ** [SolverImpl] and [StagedSolverImpl] *)

Lemma default_validity_ok {S} (inv : S → Prop) truth q s :
  (∀ q s, posed q → inv s → delivers inv (truth_is q) (truth q s)) →
  posed q → inv s → delivers inv (validity_is q) (default_validity truth q s).
Proof.
  intros Ht Hq Hs. unfold default_validity. eapply delivers_bind; [by apply Ht | by apply delivers_none|].
  intros [|] s1 Hs1 Hb; [by apply delivers_some|].
  eapply delivers_bind; [apply Ht; [by apply negate_posed | done] | by apply delivers_none|].
  intros [|] s2 Hs2 Hb'; apply delivers_some; simpl in *; try done.
  - by apply negate_always in Hb'.
  - split; [|done]. by apply negate_sometimes in Hb'.
Qed.

(** What a partial answer says. *)
Definition partly q (pv : PartialValidity) : Prop :=
  match pv with
  | MustBeTrue => always q true
  | MustBeFalse => always q false
  | MayBeTrue => sometimes q true
  | MayBeFalse => sometimes q false
  | TrueOrFalse => sometimes q true ∧ sometimes q false
  | PVNone => True
  end.

(** [computeTruth] of an incomplete solver does not answer [MayBeTrue]. *)
Record incomplete_ok (I : IncompleteSolver) : Prop := {
  ic_truth q : posed q → partly q (is_computeTruth I q) ∧ is_computeTruth I q ≠ MayBeTrue;
  ic_validity q : posed q → partly q (is_computeValidity I q);
  ic_value q e : as_constant (query q) = None → satisfiable (constraints q) →
    is_computeValue I q = Some e → value_is q e;
  ic_initial q objects r : askable q objects → is_computeInitialValues I q objects = Some r → initial_is q objects r;
}.

(** Anything but [MustBeTrue] and no answer means that the query can be
    false. *)
Lemma partly_truth q pv :
  satisfiable (constraints q) → partly q pv → pv ≠ MayBeTrue → pv_none pv = false → truth_is q (pv_true pv).
Proof.
  intros Hsat. destruct pv; simpl; try done; [|by intros [_ ?]]. intros H _ _. by apply always_sometimes.
Qed.

Lemma incomplete_validity_ok (truth : Query → PartialValidity) q :
  (∀ q, posed q → partly q (truth q) ∧ truth q ≠ MayBeTrue) → posed q → partly q (incomplete_validity truth q).
Proof.
  intros Ht Hq. pose proof (po_sat _ Hq) as Hsat. unfold incomplete_validity.
  destruct (Ht q Hq) as [H1 H1']. destruct (Ht (negateExpr q) (negate_posed q Hq)) as [H2 H2'].
  pose proof (partly_truth q (truth q) Hsat H1 H1') as P1.
  pose proof (partly_truth (negateExpr q) (truth (negateExpr q)) Hsat H2 H2') as P2.
  destruct (truth q); simpl in *; try done; (destruct (truth (negateExpr q)); simpl in *; try done);
    rewrite ?negate_always, ?negate_sometimes in *; simpl in *; try (split; by auto); try by auto.
Qed.

Lemma staged_ok (P : IncompleteSolver) (I : SolverImpl) inv :
  incomplete_ok P → impl_ok I inv → impl_ok (StagedSolver P I) inv.
Proof.
  intros [Pt Pv Pe _] [It Iv Ie Itm]. split; [| | |done]; simpl.
  - intros q s Hq Hs. unfold staged_truth. destruct (Pt q Hq) as [Hp Hn].
    destruct (pv_none (is_computeTruth P q)) eqn:E; simpl; [by apply It|]. apply delivers_some; [done|].
    apply partly_truth; [apply Hq | done..].
  - intros q s Hq Hs. unfold staged_validity. pose proof (Pv q Hq) as Hp.
    destruct (is_computeValidity P q); simpl in Hp; try (by apply delivers_some); [| |by apply Iv].
    + eapply delivers_bind; [by apply It | by apply delivers_none|]. intros [|] s1 Hs1 Hb; by apply delivers_some.
    + eapply delivers_bind; [apply It; [by apply negate_posed | done] | by apply delivers_none|].
      intros [|] s1 Hs1 Hb; apply delivers_some; simpl in *; try done.
      * by apply negate_always in Hb.
      * split; [by apply negate_sometimes in Hb | done].
  - intros q s Hc Hsat Hs. unfold staged_value. destruct (is_computeValue P q) as [e|] eqn:E; [|by apply Ie].
    apply delivers_some; [done|]. by apply (Pe q).
Qed.

Lemma staged_initial_ok (P : IncompleteSolver) (I : SolverImpl) inv :
  incomplete_ok P → values_ok I inv → values_ok (StagedSolver P I) inv.
Proof.
  intros HP HI q objects s Hq Hs. simpl. unfold staged_initial.
  destruct (is_computeInitialValues P q objects) as [r|] eqn:E; [|by apply HI].
  apply delivers_some; [done|]. by eapply ic_initial.
Qed.

(** ** [Assignment] and [AssignmentValidatingSolver] *)

Lemma assignment_of_spec objects values :
  length objects = length values →
  (∀ o ds, assignment_of objects values !! o = Some ds → (o, ds) ∈ zip objects values) ∧
  ∀ o, o ∈ objects → is_Some (assignment_of objects values !! o).
Proof.
  unfold assignment_of. intros Hl.
  assert (∀ l (b : bindings Array), let r := fold_left (λ b p, match b !! p.1 with Some _ => b | None => <[p.1 := p.2]> b end) l b in
    (∀ o ds, r !! o = Some ds → b !! o = Some ds ∨ (o, ds) ∈ l) ∧
    (∀ o, is_Some (b !! o) ∨ o ∈ l.*1 → is_Some (r !! o))) as Hf.
  { induction l as [|[o' ds'] l IH]; intros b; simpl.
    - split; [auto|]. intros o [?|Hin]; [done|]. by apply not_elem_of_nil in Hin.
    - destruct (b !! o') as [ds0|] eqn:E; [destruct (IH b) as [H1 H2] | destruct (IH (<[o' := ds']> b)) as [H1 H2]]; split.
      + intros o ds [?|?]%H1; [by left | right; by right].
      + intros o Ho. apply H2. rewrite elem_of_cons in Ho. destruct Ho as [?|[->|?]]; [by left | left; by rewrite E | by right].
      + intros o ds [[[<- <-]|[_ ?]]%lookup_insert_Some|?]%H1; [right; left | by left | right; by right].
      + intros o Ho. apply H2. rewrite elem_of_cons in Ho. rewrite lookup_insert_is_Some'. destruct Ho as [?|[->|?]]; auto. }
  destruct (Hf (zip objects values) ∅) as [H1 H2]. split.
  - intros o ds [H|?]%H1; [by rewrite lookup_empty in H | done].
  - intros o Ho. apply H2. right. by rewrite fst_zip by lia.
Qed.

(** Under the assignment of such values an expression that reads only
    [objects] has the value it has in [v]. *)
Lemma evaluate_values free v objects values e :
  Forall2 (λ o ds, length ds = arr_size o) objects values → values_of v objects values →
  (∀ array i, reads_at (findReads e) array i → isConstantArray array = false → array ∈ objects) →
  as_constant (evaluate free (assignment_of objects values) e) = Some (eval v e).
Proof.
  intros Hl Hv Hin. apply evaluated. intros array i Ht Hc Hi.
  destruct (assignment_of_spec objects values (Forall2_length _ _ _ Hl)) as [H1 H2].
  destruct (H2 array (Hin array i Ht Hc)) as [ds Hds]. pose proof (Hv array ds (H1 _ _ Hds) Hc (Z.to_nat i)) as Hb.
  unfold in_array in Hi. unfold bound. rewrite Hds. simpl. rewrite Hb by lia. by rewrite Z2Nat.id by lia.
Qed.

Lemma avs_ok I inv : impl_ok I inv → impl_ok (AssignmentValidatingSolver I) inv.
Proof. intros [It Iv Ie Itm]. by split. Qed.

(** The checks succeed. *)
Lemma avs_initial_ok I inv : values_ok I inv → values_ok (AssignmentValidatingSolver I) inv.
Proof.
  intros HI q objects s Hq Hs. simpl. unfold avs_initial.
  eapply delivers_bind; [by apply HI | by intros; apply delivers_none|].
  intros [values|] s1 Hs1 Hr; [|by apply delivers_some]. pose proof Hr as (Hl & v & Hv & Hf & Hval).
  assert (∀ e, e ∈ query q :: constraints q →
    as_constant (evaluate true (assignment_of objects values) e) = Some (eval v e)) as He.
  { intros e He. apply evaluate_values; [done | done|]. intros array i. by eapply ak_objects. }
  assert (forallb (check_constraint (assignment_of objects values)) (constraints q) = true) as ->.
  { apply forallb_forall. intros c Hc%list_elem_of_In. unfold check_constraint, isFalse. rewrite He by (by right).
    specialize (Hv c Hc). destruct (Z.eqb_spec (eval v c) 0); [done|]. by rewrite andb_false_r. }
  cbn [cassert]. rewrite bind_Ok_l. unfold check_query, isTrue. rewrite He by left.
  unfold true_in in Hf. apply negb_false_iff, Z.eqb_eq in Hf. rewrite Hf, andb_false_r. cbn [negb cassert]. rewrite bind_Ok_l.
  by apply delivers_some.
Qed.

(** ** [ValidatingSolver] *)

(** Whatever the solver answers: an answer that passes is right, since the
    oracle's is. *)
Lemma validating_sound (I O : SolverImpl) invO q s :
  impl_ok O invO → posed q → invO s.2 →
  (∀ b s', computeTruth (ValidatingSolver I O) q s = Ok (Some b, s') → truth_is q b) ∧
  ∀ r s', computeValidity (ValidatingSolver I O) q s = Ok (Some r, s') → validity_is q r.
Proof.
  intros [Ot Ov _ _] Hq Hs. split; intros b s'; simpl.
  - unfold validating_truth. intros ([[b1|] s1] & _ & H)%bind_ok; [|by injection H].
    apply bind_ok in H as ([[b2|] s2] & Ho & H); [|by injection H].
    apply bind_ok in H as (? & Heq%cassert_ok%eqb_prop & [= <- _]). subst b2.
    destruct (Ot q s.2 Hq Hs) as (r & s3 & Ho' & _ & Hr). rewrite Ho in Ho'. injection Ho' as <- _. by apply Hr.
  - unfold validating_validity. intros ([[b1|] s1] & _ & H)%bind_ok; [|by injection H].
    apply bind_ok in H as ([[b2|] s2] & Ho & H); [|by injection H].
    apply bind_ok in H as (? & Heq%cassert_ok%bool_decide_eq_true & [= <- _]). subst b2.
    destruct (Ov q s.2 Hq Hs) as (r & s3 & Ho' & _ & Hr). rewrite Ho in Ho'. injection Ho' as <- _. by apply Hr.
Qed.

(** If both keep the contract the assertions hold. The oracle must also be
    right about constants: [NeExpr] may yield one. *)
Lemma validating_ok (I O : SolverImpl) invI invO :
  (∀ q k s, as_constant (query q) = Some k → width (query q) = 1 → satisfiable (constraints q) → invO s →
    delivers invO (truth_is q) (computeTruth O q s)) →
  impl_ok I invI → impl_ok O invO → impl_ok (ValidatingSolver I O) (λ s, invI s.1 ∧ invO s.2).
Proof.
  intros Hconst [It Iv Ie Itm] [Ot Ov _ _]. split; simpl.
  - intros q s Hq [H1 H2]. unfold validating_truth. eapply delivers_bind; [by apply It | by intros; apply delivers_none|].
    intros b s1 Hs1 Hb. eapply delivers_bind; [by apply Ot | by intros; apply delivers_none|].
    intros b' s2 Hs2 Hb'. rewrite (truth_unique q b b' Hb Hb'), eqb_reflx. cbn [cassert]. rewrite bind_Ok_l.
    by apply delivers_some; [|rewrite <-(truth_unique q b b' Hb Hb')].
  - intros q s Hq [H1 H2]. unfold validating_validity. eapply delivers_bind; [by apply Iv | by intros; apply delivers_none|].
    intros b s1 Hs1 Hb. eapply delivers_bind; [by apply Ov | by intros; apply delivers_none|].
    intros b' s2 Hs2 Hb'. rewrite (validity_unique q b b' (po_sat _ Hq) Hb Hb'), bool_decide_eq_true_2 by done.
    cbn [cassert]. rewrite bind_Ok_l. apply delivers_some; [done|].
    by rewrite <-(validity_unique q b b' (po_sat _ Hq) Hb Hb').
  - intros q s Hc Hsat [H1 H2]. unfold validating_value. eapply delivers_bind; [by apply Ie | by intros; apply delivers_none|].
    intros e s1 Hs1 He. pose proof He as (k & Hk & Hwe & v & Hv & Hev).
    set (q' := withExpr q (NeExpr (query q) e)).
    assert (delivers invO (truth_is q') (computeTruth O q' s.2)) as Hq'.
    { destruct (as_constant (query q')) as [c|] eqn:Hq'; [apply (Hconst q' c); auto; apply width_ne|].
      apply Ot; [|done]. split; [apply width_ne | done..]. }
    eapply delivers_bind; [exact Hq' | by intros; apply delivers_none|].
    intros b s2 Hs2 Hb.
    assert (b = false) as ->.
    { apply (truth_unique q' b false Hb). exists v. split; [done|]. unfold true_in. simpl. rewrite eval_ne by done.
      rewrite (eval_constant v e k Hk), Hev, Z.eqb_refl. done. }
    cbn [negb cassert]. rewrite bind_Ok_l. by apply delivers_some.
  - intros t s [H1 H2]. split; [by apply Itm | done].
Qed.

(** ** [CachingSolver] *)

Section caching.
Context (I : SolverImpl) (inv : si_state I → Prop) (HI : impl_ok I inv).
Implicit Types (s : caching_state I).

Definition entry_right (ce : list expr * expr) (pv : PartialValidity) : Prop :=
  pv ≠ PVNone ∧ (satisfiable ce.1 → partly {| constraints := ce.1; query := ce.2 |} pv).

Record caching_inv s : Prop := {
  ci_below : inv (below I s);
  ci_cache ce pv : (ce, pv) ∈ cache I s → entry_right ce pv;
}.

Lemma constraints_eqb_eq a b : constraints_eqb a b = true ↔ a = b.
Proof.
  unfold constraints_eqb. rewrite andb_true_iff, Nat.eqb_eq. revert b.
  induction a as [|x a IH]; intros [|y b]; simpl; try naive_solver lia.
  rewrite andb_true_iff, expr_eqb_eq. specialize (IH b). split.
  - intros (? & -> & ?). f_equal. apply IH. split; [lia | done].
  - intros [= -> ->]. destruct (proj2 IH eq_refl). auto.
Qed.

Lemma entry_eqb_eq a b : entry_eqb a b = true ↔ a = b.
Proof.
  unfold entry_eqb. rewrite andb_true_iff, constraints_eqb_eq, expr_eqb_eq. destruct a, b. simpl. naive_solver.
Qed.

Lemma cache_find_elem ce c pv : cache_find ce c = Some pv → (ce, pv) ∈ c.
Proof.
  induction c as [|[ce' pv'] c IH]; simpl; [done|]. destruct (entry_eqb ce ce') eqn:E.
  - apply entry_eqb_eq in E as ->. intros [= ->]. by left.
  - intros H. right. by apply IH.
Qed.

Lemma negate_partly q pv pv' :
  negatePartialValidity pv = Ok pv' → partly (negateExpr q) pv ↔ partly q pv'.
Proof.
  destruct pv; intros [= <-]; simpl; rewrite ?negate_always, ?negate_sometimes; simpl; try done. tauto.
Qed.

(** The entry for a query stands for it or for its negation. *)
Lemma canonical_spec q :
  let '(e, n) := canonicalizeQuery (query q) in
  ∀ pv, pv ≠ PVNone → ∃ pv', negated_if n pv = Ok pv' ∧ pv' ≠ PVNone ∧
    (partly (withExpr q e) pv ↔ partly q pv') ∧ (partly q pv ↔ partly (withExpr q e) pv').
Proof.
  unfold canonicalizeQuery. destruct (std_less _ _); simpl.
  - intros pv Hp. exists pv. destruct q. done.
  - intros pv Hp. change (withExpr q (createIsZero (query q))) with (negateExpr q).
    destruct pv; try done; (eexists; split_and!; [done | done | by apply negate_partly |]);
      simpl; rewrite ?negate_always, ?negate_sometimes; simpl; try done; tauto.
Qed.

Lemma lookup_ok q s :
  satisfiable (constraints q) → caching_inv s →
  ∃ r, cacheLookup I q s = Ok r ∧ ∀ pv, r = Some pv → pv ≠ PVNone ∧ partly q pv.
Proof.
  intros Hsat [_ Hc]. unfold cacheLookup. pose proof (canonical_spec q) as Hcan.
  destruct (canonicalizeQuery (query q)) as [e n].
  destruct (cache_find (constraints q, e) (cache I s)) as [pv|] eqn:E; [|by exists None].
  destruct (Hc _ _ (cache_find_elem _ _ _ E)) as [Hn Hp]. destruct (Hcan pv Hn) as (pv' & -> & Hn' & Hiff & _).
  exists (Some pv'). split; [done|]. intros ? [= <-]. split; [done|]. apply Hiff, Hp, Hsat.
Qed.

Lemma insert_entry_ok q pv s :
  caching_inv s → pv ≠ PVNone → (satisfiable (constraints q) → partly q pv) →
  ∃ s', cacheInsert I q pv s = Ok s' ∧ caching_inv s'.
Proof.
  intros Hs Hn Hp. unfold cacheInsert. pose proof (canonical_spec q) as Hcan.
  destruct (canonicalizeQuery (query q)) as [e n]. destruct (Hcan pv Hn) as (pv' & -> & Hn' & _ & Hiff).
  rewrite bind_Ok_l. destruct (cache_find _ _); [by exists s|]. eexists. split; [done|]. destruct Hs as [Hb Hc].
  split; [done|]. simpl. intros ce pv1 [[= -> ->]|Hin]%elem_of_cons; [|by apply Hc]. split; [done|].
  simpl. intros Hsat. apply Hiff. auto.
Qed.

Lemma caching_miss s : caching_inv s → caching_inv (miss I s).
Proof. intros [? ?]. by split. Qed.
Lemma caching_hit s : caching_inv s → caching_inv (hit I s).
Proof. intros [? ?]. by split. Qed.
Lemma caching_below s b : caching_inv s → inv b → caching_inv (set_below I b s).
Proof. intros [? ?] ?. by split. Qed.

Lemma ask_ok q s : posed q → caching_inv s → delivers caching_inv (truth_is q) (ask_truth I q s).
Proof.
  intros Hq Hs. unfold ask_truth. eapply delivers_bind; [apply HI; [done | apply Hs]| |].
  - intros b Hb. apply delivers_none. by apply caching_below.
  - intros a b Hb Ha. apply delivers_some; [by apply caching_below | done].
Qed.

(** An answer that is entered into the cache. *)
Lemma insert_returns {A} (right : A → Prop) q pv s a :
  caching_inv s → pv ≠ PVNone → partly q pv → right a →
  delivers caching_inv right (s' ← cacheInsert I q pv s; Ok (Some a, s')).
Proof.
  intros Hs Hn Hp Ha. destruct (insert_entry_ok q pv s Hs Hn (λ _, Hp)) as (s' & -> & Hs'). by apply delivers_some.
Qed.

Lemma caching_ok : impl_ok (CachingSolver I) caching_inv.
Proof.
  split; simpl.
  - intros q s Hq Hs. unfold caching_truth. destruct (lookup_ok q s (po_sat _ Hq) Hs) as (r & -> & Hr).
    rewrite bind_Ok_l. pose proof (po_sat _ Hq) as Hsat.
    assert (∀ pv, pv ≠ PVNone → (sometimes q false → partly q pv) →
      delivers caching_inv (truth_is q) ('(r, s) ← ask_truth I q (miss I s);
        match r with None => Ok (None, s) | Some isValid =>
          s ← cacheInsert I q (if (isValid : bool) then MustBeTrue else pv) s; Ok (Some isValid, s) end)) as Hask.
    { intros pv Hn Hp. eapply delivers_bind; [apply ask_ok; [done | by apply caching_miss] | by intros; apply delivers_none|].
      intros [|] s1 Hs1 Hb; apply insert_returns; auto. }
    destruct r as [pv|]; [|by apply Hask]. destruct (Hr pv eq_refl) as [Hn Hp].
    destruct pv; simpl in Hp; try done;
      try (apply delivers_some; [by apply caching_hit | simpl; try done; try apply Hp; by apply always_sometimes]).
    by apply Hask.
  - intros q s Hq Hs. unfold caching_validity. destruct (lookup_ok q s (po_sat _ Hq) Hs) as (r & -> & Hr).
    rewrite bind_Ok_l. destruct r as [pv|].
    + destruct (Hr pv eq_refl) as [Hn Hp]. destruct pv; simpl in Hp; try done;
        try (apply delivers_some; [by apply caching_hit | done]).
      * eapply delivers_bind; [apply ask_ok; [done | by apply caching_miss] | by intros; apply delivers_none|].
        intros [|] s1 Hs1 Hb; apply insert_returns; try done.
      * eapply delivers_bind; [apply ask_ok; [by apply negate_posed | by apply caching_miss] | by intros; apply delivers_none|].
        intros [|] s1 Hs1 Hb; simpl in Hb; [apply negate_always in Hb | apply negate_sometimes in Hb];
          apply insert_returns; try done.
    + eapply delivers_bind; [apply HI; [done | apply Hs]| |].
      * intros b Hb. apply delivers_none. by apply caching_below; [apply caching_miss|].
      * intros v b Hb Hv. apply insert_returns; [by apply caching_below; [apply caching_miss|] | by destruct v | | done].
        by destruct v.
  - intros q s Hc Hsat Hs. unfold caching_value. eapply delivers_bind; [apply HI; [done | done | apply Hs]| |].
    + intros b Hb. apply delivers_none. by apply caching_below; [apply caching_miss|].
    + intros a b Hb Ha. apply delivers_some; [by apply caching_below; [apply caching_miss|] | done].
  - intros t s Hs. apply caching_below; [done|]. apply HI, Hs.
Qed.

Lemma caching_initial_ok : values_ok I inv → values_ok (CachingSolver I) caching_inv.
Proof.
  intros Hin q objects s Hq Hs. simpl. unfold caching_initial. eapply delivers_bind; [apply Hin; [done | apply Hs]| |].
  - intros b Hb. apply delivers_none. by apply caching_below; [apply caching_miss|].
  - intros a b Hb Ha. apply delivers_some; [by apply caching_below; [apply caching_miss|] | done].
Qed.
End caching.
End contract.

(** * The interfaces of the chain *)

Section facade.
Context {EL : ExprLib} {ES : ExprSem} {QL : QueryLib} {QS : QuerySem}.
Context (I : SolverImpl) (inv : si_state I → Prop) (HI : impl_ok I inv).
Implicit Types (q : Query) (v : assignment) (e : expr) (cs : list expr) (s : si_state I).

(** What the answers to the four questions say. *)
Definition may_be_true q (b : bool) : Prop := if b then sometimes q true else always q false.

Lemma constant_truth q k :
  width (query q) = 1 → as_constant (query q) = Some k →
  always q (isTrue (query q) k).
Proof.
  intros Hw Hk v _. unfold isTrue, true_in. rewrite get_width, Hw, (eval_constant v _ k Hk). simpl.
  pose proof (eval_range v (query q)) as H. rewrite Hw, (eval_constant v _ k Hk) in H.
  assert (k = 0 ∨ k = 1) as [->| ->] by lia; done.
Qed.

Lemma always_truth q b : satisfiable (constraints q) → always q b → truth_is q b.
Proof. destruct b; simpl; [done|]. apply always_sometimes. Qed.

Lemma must_be_true_ok q s :
  width (query q) = 1 → satisfiable (constraints q) → inv s → delivers inv (truth_is q) (solver_mustBeTrue I q s).
Proof.
  intros Hw Hsat Hs. unfold solver_mustBeTrue. rewrite get_width, Hw. cbn [cassert Z.eqb Pos.eqb]. rewrite bind_Ok_l.
  destruct (as_constant (query q)) as [k|] eqn:Hk; [|by apply HI].
  apply delivers_some; [done|]. by apply always_truth, constant_truth.
Qed.

Lemma evaluate_ok q s :
  width (query q) = 1 → satisfiable (constraints q) → inv s → delivers inv (validity_is q) (solver_evaluate I q s).
Proof.
  intros Hw Hsat Hs. unfold solver_evaluate. rewrite get_width, Hw. cbn [cassert Z.eqb Pos.eqb]. rewrite bind_Ok_l.
  destruct (as_constant (query q)) as [k|] eqn:Hk; [|by apply HI]. apply delivers_some; [done|].
  pose proof (constant_truth q k Hw Hk) as H. by destruct (isTrue (query q) k).
Qed.

Lemma must_be_false_ok q s :
  satisfiable (constraints q) → inv s →
  delivers inv (truth_is (negateExpr q)) (solver_mustBeFalse I q s).
Proof. intros Hsat Hs. apply must_be_true_ok; [apply width_is_zero | done..]. Qed.

Lemma opposite_ok {S} (inv' : S → Prop) (right right' : bool → Prop) m :
  delivers inv' right m → (∀ b, right b → right' (negb b)) → delivers inv' right' (opposite m).
Proof.
  intros Hm Hr. unfold opposite. eapply delivers_bind; [exact Hm | by intros; apply delivers_none|].
  intros b s Hs Hb. apply delivers_some; auto.
Qed.

Lemma may_be_true_negated q b : truth_is (negateExpr q) b → may_be_true q (negb b).
Proof. destruct b; simpl; [by rewrite negate_always | by rewrite negate_sometimes]. Qed.

Lemma may_be_true_ok q s :
  satisfiable (constraints q) → inv s → delivers inv (may_be_true q) (solver_mayBeTrue I q s).
Proof. intros Hsat Hs. eapply opposite_ok; [by apply must_be_false_ok | apply may_be_true_negated]. Qed.

(** ** [TimingSolver] and [StateBoundTimingSolver] *)

Context (simplifyExprs : bool).

Lemma timed_eval cs e v : holds v cs → eval v (query (timed_query simplifyExprs cs e)) = eval v e.
Proof. intros Hv. unfold timed_query. simpl. destruct simplifyExprs; [|done]. by apply eval_simplify. Qed.

Lemma timed_width cs e : width (query (timed_query simplifyExprs cs e)) = width e.
Proof. unfold timed_query. simpl. destruct simplifyExprs; [apply width_simplify | done]. Qed.

Abbreviation asking cs e := {| constraints := cs; query := e |}.

Lemma timed_truth cs e b : truth_is (timed_query simplifyExprs cs e) b → truth_is (asking cs e) b.
Proof.
  destruct b; simpl.
  - intros H v Hv. rewrite <-(H v Hv). apply true_in_ext. symmetry. by apply timed_eval.
  - intros (v & Hv & Ht). exists v. split; [done|]. rewrite <-Ht. apply true_in_ext. symmetry. by apply timed_eval.
Qed.

Lemma ts_must_be_true_ok cs e s :
  width e = 1 → satisfiable cs → inv s → delivers inv (truth_is (asking cs e)) (ts_mustBeTrue I simplifyExprs cs e s).
Proof.
  intros Hw Hsat Hs. unfold ts_mustBeTrue. destruct (as_constant e) as [k|] eqn:Hk.
  - apply delivers_some; [done|]. by apply always_truth, (constant_truth (asking cs e)).
  - eapply delivers_weaken; [|apply timed_truth]. apply must_be_true_ok; [by rewrite timed_width | done..].
Qed.

Lemma ts_must_be_false_ok cs e s :
  satisfiable cs → inv s → delivers inv (truth_is (negateExpr (asking cs e))) (ts_mustBeFalse I simplifyExprs cs e s).
Proof. intros Hsat Hs. apply ts_must_be_true_ok; [apply width_is_zero | done..]. Qed.

Lemma with_timeout_ok {A} timeout (right : A → Prop) ask s :
  (∀ s, inv s → delivers inv right (ask s)) → inv s → delivers inv right (with_timeout I timeout ask s).
Proof.
  intros Ha Hs. unfold with_timeout. eapply delivers_bind; [apply Ha; by apply HI| |].
  - intros s1 Hs1. apply delivers_none. by apply HI.
  - intros a s1 Hs1 Hr. apply delivers_some; [by apply HI | done].
Qed.

Definition path_of cs : assignment → Prop := λ v, holds v cs.

(** The interface that the race detector is given in state [s]; [None] also
    stands for a method that fails an assertion. *)
Definition answer_of {A S} (m : res (option A * S)) : option A := match m with Ok (r, _) => r | Err _ => None end.
Definition bound_interface (timeout : Z) cs s : SolverInterface := {|
  mustBeTrue e := answer_of (sb_mustBeTrue I simplifyExprs timeout cs e s);
  mustBeFalse e := answer_of (sb_mustBeFalse I simplifyExprs timeout cs e s);
  mayBeTrue e := answer_of (sb_mayBeTrue I simplifyExprs timeout cs e s);
  mayBeFalse e := answer_of (sb_mayBeFalse I simplifyExprs timeout cs e s);
|}.

Lemma delivers_answer {A S} (inv' : S → Prop) (right : A → Prop) m a :
  delivers inv' right m → answer_of m = Some a → right a.
Proof. intros (r & s & -> & _ & Hr). apply Hr. Qed.

Lemma always_eval cs e : always (asking cs e) true ↔ ∀ v, path_of cs v → eval v e ≠ 0.
Proof. unfold always, path_of. simpl. by setoid_rewrite true_in_spec. Qed.

Lemma never_eval cs e : always (asking cs e) false ↔ ∀ v, path_of cs v → eval v e = 0.
Proof.
  unfold always, path_of, true_in. simpl. by setoid_rewrite negb_false_iff; setoid_rewrite Z.eqb_eq.
Qed.

Lemma sometimes_eval cs e : sometimes (asking cs e) true ↔ ∃ v, path_of cs v ∧ eval v e ≠ 0.
Proof. unfold sometimes, path_of. simpl. by setoid_rewrite true_in_spec. Qed.

Lemma sometimes_not_eval cs e : sometimes (asking cs e) false ↔ ∃ v, path_of cs v ∧ eval v e = 0.
Proof.
  unfold sometimes, path_of, true_in. simpl. by setoid_rewrite negb_false_iff; setoid_rewrite Z.eqb_eq.
Qed.

Lemma bound_interface_sound timeout cs s :
  satisfiable cs → inv s → solver_sound (path_of cs) (bound_interface timeout cs s).
Proof.
  intros Hsat Hs. split; intros e b Hw; simpl; intros Ha.
  - eapply delivers_answer in Ha; [|apply with_timeout_ok; [intros; by apply ts_must_be_true_ok | done]].
    destruct b; [by apply always_eval | by apply sometimes_not_eval].
  - eapply delivers_answer in Ha; [|apply with_timeout_ok; [intros; by apply ts_must_be_false_ok | done]].
    destruct b; simpl in Ha; [apply negate_always in Ha; by apply never_eval | apply negate_sometimes in Ha; by apply sometimes_eval].
  - eapply delivers_answer in Ha; [|apply with_timeout_ok; [intros; eapply opposite_ok; [by apply ts_must_be_false_ok | apply may_be_true_negated] | done]].
    destruct b; simpl in Ha; [by apply sometimes_eval | by apply never_eval].
  - eapply delivers_answer in Ha; [|apply with_timeout_ok; [intros; eapply (opposite_ok _ _ (λ b, truth_is (asking cs e) (negb b)));
      [by apply ts_must_be_true_ok | by intros []] | done]].
    destruct b; simpl in Ha; [by apply sometimes_not_eval | by apply always_eval].
Qed.
End facade.

(** ** [getRange] *)

Section range.
Context {EL : ExprLib} {ES : ExprSem} {QL : QueryLib} {QS : QuerySem}.
Context (I : SolverImpl) (inv : si_state I → Prop) (HI : impl_ok I inv) (HA : answering I inv).
Implicit Types (q : Query) (v : assignment) (e : expr) (cs : list expr) (s : si_state I).

(** A method that answers. *)
Definition answers_with {S A} (inv' : S → Prop) (right : A → Prop) (m : res (option A * S)) : Prop :=
  ∃ a (s0 : S), m = Ok (Some a, s0) ∧ inv' s0 ∧ right a.

Lemma must_be_true_answers q s :
  width (query q) = 1 → satisfiable (constraints q) → inv s → answers_with inv (truth_is q) (solver_mustBeTrue I q s).
Proof.
  intros Hw Hsat Hs. destruct (must_be_true_ok I inv HI q s Hw Hsat Hs) as (r & s' & Hr & Hs' & Ha).
  assert (∃ b, r = Some b) as [b ->]; [|exists b, s'; auto].
  unfold solver_mustBeTrue in Hr. rewrite get_width, Hw in Hr. cbn [cassert Z.eqb Pos.eqb] in Hr. rewrite bind_Ok_l in Hr.
  destruct (as_constant (query q)) as [k|] eqn:Hk; [injection Hr as <- <-; eauto|].
  destruct HA as [Ht _]. destruct (Ht q s) as (b & s1 & Hb); [by split | done|]. rewrite Hb in Hr. injection Hr as <- <-. eauto.
Qed.

Lemma evaluate_answers q s :
  width (query q) = 1 → satisfiable (constraints q) → inv s → answers_with inv (validity_is q) (solver_evaluate I q s).
Proof.
  intros Hw Hsat Hs. destruct (evaluate_ok I inv HI q s Hw Hsat Hs) as (r & s' & Hr & Hs' & Ha).
  assert (∃ b, r = Some b) as [b ->]; [|exists b, s'; auto].
  unfold solver_evaluate in Hr. rewrite get_width, Hw in Hr. cbn [cassert Z.eqb Pos.eqb] in Hr. rewrite bind_Ok_l in Hr.
  destruct (as_constant (query q)) as [k|] eqn:Hk; [injection Hr as <- <-; eauto|].
  destruct HA as [_ Ht]. destruct (Ht q s) as (b & s1 & Hb); [by split | done|]. rewrite Hb in Hr. injection Hr as <- <-. eauto.
Qed.

Lemma may_be_true_answers q s :
  satisfiable (constraints q) → inv s → answers_with inv (may_be_true q) (solver_mayBeTrue I q s).
Proof.
  intros Hsat Hs. unfold solver_mayBeTrue, solver_mustBeFalse, opposite.
  destruct (must_be_true_answers (negateExpr q) s) as (b & s' & -> & Hs' & Hb); [apply width_is_zero | done..|].
  rewrite bind_Ok_l. exists (negb b), s'. split_and!; [done..|]. by apply may_be_true_negated.
Qed.

(** The search ends where the answers change from no to yes. *)
Lemma halving_spec (P N : Z → Prop) ask fuel : ∀ lo hi s,
  (∀ m s, lo ≤ m < hi → inv s → answers_with inv (λ b : bool, if b then P m else N m) (ask m s)) →
  0 ≤ lo ≤ hi → hi - lo < 2 ^ Z.of_nat fuel → P hi → inv s →
  ∃ m s', search I (S fuel) ask lo hi s = Ok (m, s') ∧ inv s' ∧ lo ≤ m ≤ hi ∧ P m ∧ (m = lo ∨ N (m - 1)).
Proof.
  induction fuel as [|fuel IH]; intros lo hi s Hask Hlo Hf HP Hs.
  - assert (lo = hi) as -> by lia. cbn [search]. rewrite Z.ltb_irrefl. exists hi, s. split_and!; auto; lia.
  - remember (S fuel) as f. cbn [search]. destruct (Z.ltb_spec lo hi) as [Hlt|Hge].
    2:{ assert (lo = hi) as -> by lia. exists hi, s. split_and!; auto; lia. }
    subst f. rewrite Nat2Z.inj_succ, Z.pow_succ_r in Hf by lia.
    assert (0 ≤ (hi - lo) / 2 < hi - lo) as Hhalf.
    { split; [apply Z.div_pos; lia | apply Z.div_lt; lia]. }
    assert ((hi - lo) / 2 < 2 ^ Z.of_nat fuel) as Hh2 by (apply Z.div_lt_upper_bound; lia).
    assert (hi - lo - (hi - lo) / 2 - 1 < 2 ^ Z.of_nat fuel) as Hh3.
    { pose proof (Z.div_mod (hi - lo) 2 ltac:(lia)). pose proof (Z.mod_pos_bound (hi - lo) 2 ltac:(lia)). lia. }
    cbn zeta. set (mid := lo + (hi - lo) / 2).
    destruct (Hask mid s) as (b & s1 & -> & Hs1 & Hb); [lia | done|]. rewrite bind_Ok_l. cbn [must_answer]. rewrite bind_Ok_l.
    destruct b.
    + destruct (IH lo mid s1) as (m & s' & -> & ? & ? & ? & ?); [|lia|lia|done|done|].
      { intros m s' Hm. apply Hask. lia. }
      exists m, s'. split_and!; auto; lia.
    + destruct (IH (mid + 1) hi s1) as (m & s' & -> & ? & ? & ? & Hm); [|lia|lia|done|done|].
      { intros m s' Hm. apply Hask. lia. }
      exists m, s'. split_and!; [done|done|lia|lia|done|]. right. destruct Hm as [->|Hm]; [|done].
      by replace (mid + 1 - 1) with mid by lia.
Qed.

Lemma maxValueOfNBits_spec n : 0 ≤ n ≤ 64 → maxValueOfNBits n = Ok (2 ^ n - 1).
Proof.
  intros Hn. unfold maxValueOfNBits. rewrite (proj2 (Z.leb_le n 64)) by lia. cbn [cassert]. rewrite bind_Ok_l.
  destruct (Z.eqb_spec n 0) as [->|Hne]; [done|]. f_equal. unfold word_size.
  rewrite Z.shiftr_div_pow2 by lia. assert (2 ^ 64 = 2 ^ n * 2 ^ (64 - n)) as -> by (rewrite <-Z.pow_add_r by lia; f_equal; lia).
  assert (0 < 2 ^ (64 - n)) by (apply Z.pow_pos_nonneg; lia).
  replace (2 ^ n * 2 ^ (64 - n) - 1) with (2 ^ (64 - n) * (2 ^ n - 1) + (2 ^ (64 - n) - 1)) by lia.
  rewrite Z.add_comm, (Z.mul_comm (2 ^ (64 - n))), Z.div_add by lia. rewrite Z.div_small by lia. lia.
Qed.

(** *** The questions *)

Definition values_within q (lo hi : Z) : Prop := ∀ v, holds v (constraints q) → lo ≤ eval v (query q) ≤ hi.
Definition attains q (P : Z → Prop) : Prop := ∃ v, holds v (constraints q) ∧ P (eval v (query q)).
Definition everywhere q (P : Z → Prop) : Prop := ∀ v, holds v (constraints q) → P (eval v (query q)).

Lemma answers_weaken {S A} (inv' : S → Prop) (r r' : A → Prop) m :
  answers_with inv' r m → (∀ a, r a → r' a) → answers_with inv' r' m.
Proof. intros (a & s & Hm & Hs & Ha) Hr. exists a, s. auto. Qed.

(** A question about [f] of the query's value. *)
Lemma ask_always q e (f : Z → bool) s :
  width e = 1 → (∀ v, true_in v e = f (eval v (query q))) → satisfiable (constraints q) → inv s →
  answers_with inv (λ b : bool, if b then everywhere q (λ x, f x = true) else attains q (λ x, f x = false))
    (solver_mustBeTrue I (withExpr q e) s).
Proof.
  intros Hw Hf Hsat Hs. eapply answers_weaken; [by apply must_be_true_answers|].
  intros [|]; simpl; unfold always, sometimes, everywhere, attains; simpl; by setoid_rewrite Hf.
Qed.

Lemma ask_sometimes q e (f : Z → bool) s :
  (∀ v, true_in v e = f (eval v (query q))) → satisfiable (constraints q) → inv s →
  answers_with inv (λ b : bool, if b then attains q (λ x, f x = true) else everywhere q (λ x, f x = false))
    (solver_mayBeTrue I (withExpr q e) s).
Proof.
  intros Hf Hsat Hs. eapply answers_weaken; [by apply may_be_true_answers|].
  intros [|]; simpl; unfold always, sometimes, everywhere, attains; simpl; by setoid_rewrite Hf.
Qed.

Lemma true_in_if v e (b : bool) : eval v e = (if b then 1 else 0) → true_in v e = b.
Proof. unfold true_in. intros ->. by destruct b. Qed.

Lemma fits_width k w : 0 ≤ k < 2 ^ w → 0 ≤ w.
Proof. intros Hk. destruct (Z.le_gt_cases 0 w) as [?|Hn]; [done|]. rewrite Z.pow_neg_r in Hk by done. lia. Qed.

Lemma true_in_ule v e k w :
  width e = w → 0 ≤ k < 2 ^ w → true_in v (UleExpr e (constant k w)) = (eval v e <=? k).
Proof. intros Hw Hk. apply true_in_if. rewrite eval_ule, eval_const by (rewrite ?width_const by (by eapply fits_width); done). done. Qed.

Lemma true_in_eq v e k w :
  width e = w → 0 ≤ k < 2 ^ w → true_in v (EqExpr e (constant k w)) = (eval v e =? k).
Proof. intros Hw Hk. apply true_in_if. rewrite eval_eq, eval_const by (rewrite ?width_const by (by eapply fits_width); done). done. Qed.

Lemma true_in_bits v e k w :
  width e = w → 0 ≤ k < 2 ^ w → 0 < w →
  true_in v (EqExpr (LShrExpr e (constant k w)) (constant 0 w)) = (eval v e <? 2 ^ k).
Proof.
  intros Hw Hk Hw0. rewrite true_in_eq by (rewrite ?width_lshr; auto; lia).
  rewrite eval_lshr, eval_const by (rewrite ?width_const by (by eapply fits_width); done). rewrite Z.shiftr_div_pow2 by lia.
  pose proof (eval_range v e). assert (0 < 2 ^ k) by (apply Z.pow_pos_nonneg; lia).
  destruct (Z.ltb_spec (eval v e) (2 ^ k)); [by rewrite Z.div_small by lia|].
  apply Z.eqb_neq. assert (1 ≤ eval v e / 2 ^ k) by (apply Z.div_le_lower_bound; lia). lia.
Qed.

(** *** The searches *)

Lemma search_65 (P N : Z → Prop) ask lo hi s :
  (∀ m s, lo ≤ m < hi → inv s → answers_with inv (λ b : bool, if b then P m else N m) (ask m s)) →
  0 ≤ lo ≤ hi → hi < 2 ^ 64 → P hi → inv s →
  ∃ m s', search I 65 ask lo hi s = Ok (m, s') ∧ inv s' ∧ lo ≤ m ≤ hi ∧ P m ∧ (m = lo ∨ N (m - 1)).
Proof. intros Ha Hl Hh HP Hs. apply (halving_spec P N ask 64 lo hi s); auto. change (Z.of_nat 64) with 64. lia. Qed.

Section wide.
Context q (w : Z) (Hw : width (query q) = w) (Hb : 1 < w ≤ 64) (Hsat : satisfiable (constraints q)).

Lemma below_pow k : 0 ≤ k ≤ 64 → 2 ^ k ≤ 2 ^ 64.
Proof. intros Hk. apply Z.pow_le_mono_r; lia. Qed.

Lemma search_bits s :
  inv s → ∃ n s', search I 65 (λ mid s, solver_mustBeTrue I
      (withExpr q (EqExpr (LShrExpr (query q) (constant mid w)) (constant 0 w))) s) 0 w s = Ok (n, s') ∧
    inv s' ∧ 0 ≤ n ≤ w ∧ values_within q 0 (2 ^ n - 1).
Proof.
  intros Hs.
  destruct (search_65 (λ n, values_within q 0 (2 ^ n - 1)) (λ _, True) (λ mid s, solver_mustBeTrue I
      (withExpr q (EqExpr (LShrExpr (query q) (constant mid w)) (constant 0 w))) s) 0 w s)
    as (n & s' & Hn & Hs' & Hl & Hr & _); [|lia|pose proof (Z.pow_gt_lin_r 2 64); lia| |done|by exists n, s'].
  - intros m s0 Hm Hs0. pose proof (Z.pow_gt_lin_r 2 w ltac:(lia) ltac:(lia)).
    eapply answers_weaken;
      [apply (ask_always q _ (λ x, x <? 2 ^ m)); [apply width_eq | intros v; apply true_in_bits; auto; lia | done..]|].
    intros [|]; [|done]. intros He v Hv. specialize (He v Hv). apply Z.ltb_lt in He.
    pose proof (eval_range v (query q)). lia.
  - intros v Hv. pose proof (eval_range v (query q)). rewrite Hw in *. lia.
Qed.

(** The least value, below a bound. *)
Lemma search_min n s :
  inv s → 0 ≤ n ≤ w → values_within q 0 (2 ^ n - 1) →
  ∃ k s', search I 65 (λ mid s, solver_mayBeTrue I (withExpr q (UleExpr (query q) (constant mid w))) s)
      0 (2 ^ n - 1) s = Ok (k, s') ∧ inv s' ∧ 0 ≤ k ≤ 2 ^ n - 1 ∧ attains q (λ x, x ≤ k) ∧ everywhere q (λ x, k ≤ x).
Proof.
  intros Hs Hn Hr. pose proof (below_pow n ltac:(lia)). assert (0 < 2 ^ n) by (apply Z.pow_pos_nonneg; lia).
  assert (2 ^ n ≤ 2 ^ w) by (apply Z.pow_le_mono_r; lia).
  destruct (search_65 (λ k, attains q (λ x, x ≤ k)) (λ k, everywhere q (λ x, k < x))
      (λ mid s, solver_mayBeTrue I (withExpr q (UleExpr (query q) (constant mid w))) s) 0 (2 ^ n - 1) s)
    as (k & s' & Hk & Hs' & Hl & HP & HN); [|lia|lia| |done|].
  - intros m s0 Hm Hs0. eapply answers_weaken;
      [apply (ask_sometimes q _ (λ x, x <=? m)); [intros v; apply true_in_ule; auto; lia | done..]|].
    intros [|]; [intros (v & Hv & Hx) | intros He v Hv]; [exists v; split; [done | by apply Z.leb_le]|].
    specialize (He v Hv). by apply Z.leb_gt in He.
  - destruct Hsat as [v Hv]. exists v. split; [done|]. by apply Hr.
  - exists k, s'. split_and!; auto; try lia. intros v Hv. destruct HN as [->|HN].
    + pose proof (eval_range v (query q)). lia.
    + specialize (HN v Hv). cbn beta in HN. lia.
Qed.

(** The greatest value, above the least. *)
Lemma search_max n lo s :
  inv s → 0 ≤ n ≤ w → values_within q 0 (2 ^ n - 1) → attains q (λ x, x = lo) → everywhere q (λ x, lo ≤ x) →
  ∃ k s', search I 65 (λ mid s, solver_mustBeTrue I (withExpr q (UleExpr (query q) (constant mid w))) s)
      lo (2 ^ n - 1) s = Ok (k, s') ∧ inv s' ∧ attains q (λ x, x = k) ∧ everywhere q (λ x, x ≤ k).
Proof.
  intros Hs Hn Hr (v0 & Hv0 & Hlo) Hmin. pose proof (below_pow n ltac:(lia)). assert (0 < 2 ^ n) by (apply Z.pow_pos_nonneg; lia).
  assert (2 ^ n ≤ 2 ^ w) by (apply Z.pow_le_mono_r; lia). pose proof (Hr v0 Hv0).
  destruct (search_65 (λ k, everywhere q (λ x, x ≤ k)) (λ k, attains q (λ x, k < x))
      (λ mid s, solver_mustBeTrue I (withExpr q (UleExpr (query q) (constant mid w))) s) lo (2 ^ n - 1) s)
    as (k & s' & Hk & Hs' & Hl & HP & HN); [|lia|lia| |done|].
  - intros m s0 Hm Hs0. eapply answers_weaken;
      [apply (ask_always q _ (λ x, x <=? m)); [apply width_ule | intros v; apply true_in_ule; auto; lia | done..]|].
    intros [|]; [intros He v Hv | intros (v & Hv & Hx); exists v; split; [done | by apply Z.leb_gt]].
    specialize (He v Hv). by apply Z.leb_le in He.
  - intros v Hv. by apply Hr.
  - exists k, s'. split_and!; auto. destruct HN as [->|(v & Hv & Hx)]; [by exists v0|].
    exists v. split; [done|]. specialize (HP v Hv). cbn beta in *. lia.
Qed.
End wide.

(** Both bounds are values of the query, and there is none outside. *)
Definition range_is q (lo hi : Z) : Prop :=
  attains q (λ x, x = lo) ∧ attains q (λ x, x = hi) ∧ values_within q lo hi.

Lemma range_constant q k :
  satisfiable (constraints q) → as_constant (query q) = Some k → range_is q k k.
Proof.
  intros [v Hv] Hk. split_and!; [by exists v; split; [|apply eval_constant]..|].
  intros v' _. rewrite (eval_constant v' _ k Hk). lia.
Qed.

Lemma range_bool q r : width (query q) = 1 → satisfiable (constraints q) → validity_is q r →
  range_is q (match r with VTrue => 1 | _ => 0 end) (match r with VFalse => 0 | _ => 1 end).
Proof.
  intros Hw [v0 Hv0] Hr.
  assert (∀ v b, true_in v (query q) = b → eval v (query q) = if b then 1 else 0) as Hbool.
  { intros v b. pose proof (eval_range v (query q)) as Hx. rewrite Hw in Hx. unfold true_in. intros <-.
    destruct (Z.eqb_spec (eval v (query q)) 0); simpl in *; lia. }
  destruct r; simpl in Hr.
  - split_and!; [by exists v0; split; [|apply (Hbool v0 true), Hr]..|]. intros v Hv. rewrite (Hbool v true) by auto. lia.
  - split_and!; [by exists v0; split; [|apply (Hbool v0 false), Hr]..|]. intros v Hv. rewrite (Hbool v false) by auto. lia.
  - destruct Hr as [(v & Hv & Ht) (v' & Hv' & Ht')]. split_and!.
    + exists v'. split; [done|]. by apply (Hbool v' false).
    + exists v. split; [done|]. by apply (Hbool v true).
    + intros x _. pose proof (eval_range x (query q)) as Hx. rewrite Hw in Hx. lia.
Qed.

Lemma getRange_spec q s :
  1 ≤ width (query q) ≤ 64 → satisfiable (constraints q) → inv s →
  ∃ lo hi s', getRange I q s = Ok (constant lo (width (query q)), constant hi (width (query q)), s') ∧ inv s' ∧ range_is q lo hi.
Proof.
  intros Hb Hsat Hs. unfold getRange. rewrite get_width. destruct (Z.eqb_spec (width (query q)) 1) as [H1|H1].
  - destruct (evaluate_answers q s H1 Hsat Hs) as (r & s' & -> & Hs' & Hr). rewrite bind_Ok_l. cbn [must_answer].
    do 2 rewrite bind_Ok_l. pose proof (range_bool q r H1 Hsat Hr) as Hrange. destruct r; by eexists _, _, s'.
  - destruct (as_constant (query q)) as [k|] eqn:Hk.
    { rewrite (proj2 (Z.leb_le _ 64)) by lia. cbn [cassert]. do 2 rewrite bind_Ok_l. exists k, k, s. auto using range_constant. }
    remember (width (query q)) as w eqn:Hw. symmetry in Hw. assert (1 < w ≤ 64) as Hb' by lia. clear Hb H1.
    destruct (search_bits q w Hw Hb' Hsat s Hs) as (n & s1 & -> & Hs1 & Hn & Hr). rewrite bind_Ok_l.
    destruct (ask_sometimes q (EqExpr (query q) (constant 0 w)) (λ x, x =? 0) s1) as (z & s2 & -> & Hs2 & Hz); [|done..|].
    { intros v. apply true_in_eq; [done|]. split; [lia|]. apply Z.pow_pos_nonneg; lia. }
    rewrite bind_Ok_l. cbn [must_answer]. rewrite bind_Ok_l, maxValueOfNBits_spec by lia.
    assert (∃ lo s3, (if z then Ok (0, s2) else
        hi ← Ok (2 ^ n - 1); search I 65 (λ mid s, solver_mayBeTrue I (withExpr q (UleExpr (query q) (constant mid w))) s) 0 hi s2)
        = Ok (lo, s3) ∧ inv s3 ∧ attains q (λ x, x = lo) ∧ everywhere q (λ x, lo ≤ x)) as (lo & s3 & Hlo & Hs3 & Ha & He).
    { destruct z.
      - exists 0, s2. split_and!; [done|done| |].
        + destruct Hz as (v & Hv & Hx%Z.eqb_eq). by exists v.
        + intros v Hv. apply (Hr v Hv).
      - rewrite bind_Ok_l. destruct (search_min q w Hw Hb' Hsat n s2 Hs2 Hn Hr) as (lo & s3 & -> & Hs3 & _ & (v & Hv & Hx) & He).
        exists lo, s3. split_and!; [done|done| |done]. exists v. split; [done|]. specialize (He v Hv). cbn beta in *. lia. }
    rewrite Hlo. do 2 rewrite bind_Ok_l.
    destruct (search_max q w Hw Hb' Hsat n lo s3 Hs3 Hn Hr Ha He) as (hi & s4 & -> & Hs4 & Ha' & He').
    do 2 rewrite bind_Ok_l. exists lo, hi, s4. split_and!; [done|done|]. split_and!; [done|done|].
    intros v Hv. split; [by apply He | by apply He'].
Qed.
End range.
