(* ===== verification/Independent.v ===== *)
(** * Independent constraints

    lib/Solver/IndependentSolver.cpp: the solver that passes on only the
    constraints that are connected with a query through the bytes they
    read. *)

From stdpp Require Import base tactics list numbers gmap.
From Stdlib Require Import Strings.Byte.
From S2P Require Import Prelude StdMap ThreadId ObjectAccesses Solver.

Local Open Scope Z_scope.

(** ** [DenseSet] *)

Section DenseSet.
Abbreviation DenseSet := (gset Z).

(** [add]: after the first new element the rest is inserted unseen. *)
Definition dense_add (b s : DenseSet) : bool * DenseSet :=
  fold_left (λ '(modified, s) x,
    if (modified : bool) || negb (bool_decide (x ∈ s)) then (true, {[ x ]} ∪ s) else (false, s))
    (elements b) (false, s).

Definition dense_intersects (s b : DenseSet) : bool := existsb (λ x, bool_decide (x ∈ b)) (elements s).
End DenseSet.

Abbreviation DenseSet := (gset Z).

(** ** [IndependentElementSet] *)

Section independent.
Context {EL : ExprLib} {QL : QueryLib}.

Record IndependentElementSet := {
  ies_elements : gmap Array DenseSet;
  wholeObjects : gset Array;
  exprs : list expr;
}.
Implicit Types (a b : IndependentElementSet).

(** One read, in the constructor. [getZExtValue(32)] asserts that the index
    has at most 32 bits. *)
Definition track (a : IndependentElementSet) (re : ReadExpr) : res IndependentElementSet :=
  let array := read_root re in
  if isConstantArray array && negb (read_updated re) then Ok a
  else if bool_decide (array ∈ wholeObjects a) then Ok a
  else match as_constant (read_index re) with
  | Some k =>
      _ ← cassert (getWidth (read_index re) <=? 32);
      let dis := default ∅ (ies_elements a !! array) in
      Ok {| ies_elements := <[array := {[ k ]} ∪ dis]> (ies_elements a);
            wholeObjects := wholeObjects a; exprs := exprs a |}
  | None =>
      Ok {| ies_elements := delete array (ies_elements a);
            wholeObjects := {[ array ]} ∪ wholeObjects a; exprs := exprs a |}
  end.

(** [IndependentElementSet(e)]. *)
Definition elements_of (e : expr) : res IndependentElementSet :=
  for_each track {| ies_elements := ∅; wholeObjects := ∅; exprs := [e] |} (findReads e).

Definition ies_intersects (a b : IndependentElementSet) : bool :=
  existsb (λ array, bool_decide (array ∈ wholeObjects b) || bool_decide (is_Some (ies_elements b !! array)))
    (elements (wholeObjects a)) ||
  existsb (λ p : Array * DenseSet,
    bool_decide (p.1 ∈ wholeObjects b) ||
    match ies_elements b !! p.1 with Some d => dense_intersects p.2 d | None => false end)
    (map_to_list (ies_elements a)).

(** The loop over [b.wholeObjects], then the one over [b.elements]. *)
Definition add_whole (st : bool * IndependentElementSet) (array : Array) : bool * IndependentElementSet :=
  let '(modified, a) := st in
  if bool_decide (is_Some (ies_elements a !! array)) then
    (true, {| ies_elements := delete array (ies_elements a);
              wholeObjects := {[ array ]} ∪ wholeObjects a; exprs := exprs a |})
  else if negb (bool_decide (array ∈ wholeObjects a)) then
    (true, {| ies_elements := ies_elements a; wholeObjects := {[ array ]} ∪ wholeObjects a; exprs := exprs a |})
  else (modified, a).

Definition add_elements (st : bool * IndependentElementSet) (p : Array * DenseSet) : bool * IndependentElementSet :=
  let '(modified, a) := st in
  let '(array, d) := p in
  if bool_decide (array ∈ wholeObjects a) then (modified, a)
  else match ies_elements a !! array with
  | None =>
      (true, {| ies_elements := <[array := d]> (ies_elements a); wholeObjects := wholeObjects a; exprs := exprs a |})
  | Some d' =>
      let '(m, d'') := dense_add d d' in
      (modified || m,
       {| ies_elements := <[array := d'']> (ies_elements a); wholeObjects := wholeObjects a; exprs := exprs a |})
  end.

Definition ies_add (b a : IndependentElementSet) : bool * IndependentElementSet :=
  let a := {| ies_elements := ies_elements a; wholeObjects := wholeObjects a; exprs := exprs a ++ exprs b |} in
  fold_left add_elements (map_to_list (ies_elements b))
    (fold_left add_whole (elements (wholeObjects b)) (false, a)).

(** ** [getIndependentConstraints] *)

Abbreviation item := (expr * IndependentElementSet)%type.

Fixpoint worklist_of (constraints : list expr) : res (list item) :=
  match constraints with
  | [] => Ok []
  | c :: cs => a ← elements_of c; rest ← worklist_of cs; Ok ((c, a) :: rest)
  end.

(** One pass over the work list: [done], the closure, [result] and the new
    work list. *)
Fixpoint slice_pass (worklist : list item) (done : bool) (eltsClosure : IndependentElementSet)
    (result : list expr) (newWorklist : list item) : bool * IndependentElementSet * list expr * list item :=
  match worklist with
  | [] => (done, eltsClosure, result, newWorklist)
  | it :: rest =>
      if ies_intersects it.2 eltsClosure then
        let '(modified, eltsClosure) := ies_add it.2 eltsClosure in
        slice_pass rest (done && negb modified) eltsClosure (result ++ [it.1]) newWorklist
      else slice_pass rest done eltsClosure result (newWorklist ++ [it])
  end.

Fixpoint slice_loop (fuel : nat) (worklist : list item) (eltsClosure : IndependentElementSet) (result : list expr)
    : res (IndependentElementSet * list expr) :=
  match fuel with
  | O => Err OutOfFuel
  | S fuel' =>
      let '(done, eltsClosure, result, newWorklist) := slice_pass worklist true eltsClosure result [] in
      if (done : bool) then Ok (eltsClosure, result) else slice_loop fuel' newWorklist eltsClosure result
  end.

(** A pass that is not the last takes a constraint off the work list. *)
Definition getIndependentConstraints (q : Query) : res (IndependentElementSet * list expr) :=
  eltsClosure ← elements_of (query q);
  worklist ← worklist_of (constraints q);
  slice_loop (S (length worklist)) worklist eltsClosure [].

(** ** [getAllIndependentConstraintsSets] *)

Fixpoint sets_of (es : list expr) : res (list IndependentElementSet) :=
  match es with
  | [] => Ok []
  | e :: es => a ← elements_of e; rest ← sets_of es; Ok (a :: rest)
  end.

(** The inner loop: merges what intersects into [current]. *)
Fixpoint merge_into (current : IndependentElementSet) (factors : list IndependentElementSet) (doneLoop : bool)
    (keep : list IndependentElementSet) : bool * IndependentElementSet * list IndependentElementSet :=
  match factors with
  | [] => (doneLoop, current, keep)
  | compare :: factors =>
      if ies_intersects current compare then
        let '(modified, current) := ies_add compare current in
        merge_into current factors (doneLoop && negb modified) keep
      else merge_into current factors doneLoop (keep ++ [compare])
  end.

Fixpoint merge_pass (fuel : nat) (factors : list IndependentElementSet) (doneLoop : bool) (dones : list IndependentElementSet)
    : res (bool * list IndependentElementSet) :=
  match factors, fuel with
  | [], _ => Ok (doneLoop, dones)
  | _ :: _, O => Err OutOfFuel
  | current :: factors, S fuel' =>
      let '(doneLoop, current, keep) := merge_into current factors doneLoop [] in
      merge_pass fuel' keep doneLoop (dones ++ [current])
  end.

Fixpoint merge_loop (fuel : nat) (factors : list IndependentElementSet) : res (list IndependentElementSet) :=
  match fuel with
  | O => Err OutOfFuel
  | S fuel' =>
      '(doneLoop, dones) ← merge_pass (length factors) factors true [];
      if (doneLoop : bool) then Ok dones else merge_loop fuel' dones
  end.

Definition getAllIndependentConstraintsSets (q : Query) : res (list IndependentElementSet) :=
  es ← match as_constant (query q) with
       | Some k => _ ← cassert ((getWidth (query q) =? 1) && (k =? 0)); Ok (constraints q)
       | None => Ok (createIsZero (query q) :: constraints q)
       end;
  factors ← sets_of es;
  merge_loop (S (length factors)) factors.

(** ** [IndependentSolver] *)

Section solver.
Context (solver : SolverImpl).

Definition sliced {A} (ask : Query → si_state solver → res (option A * si_state solver)) (q : Query) (s : si_state solver)
    : res (option A * si_state solver) :=
  '(_, required) ← getIndependentConstraints q;
  ask {| constraints := required; query := query q |} s.

(** *** Initial values *)

(** The arrays of a factor, in the order of [thisSeen]. *)
Definition calculateArrayReferences (ie : IndependentElementSet) : list Array :=
  elements (dom (ies_elements ie) ∪ wholeObjects ie).

(** Entering a factor's values for one array: those of its elements where
    there are values already. *)
Definition copy_element (new data : list uchar) (index : Z) : res (list uchar) :=
  x ← in_range (new !! Z.to_nat index);
  _ ← in_range (data !! Z.to_nat index);
  Ok (<[Z.to_nat index := x]> data).

Definition enter (it : IndependentElementSet) (retMap : bindings Array) (p : Array * list uchar) : res (bindings Array) :=
  let '(array, new) := p in
  match retMap !! array with
  | Some data =>
      _ ← cassert (Nat.eqb (length data) (length new));
      data ← for_each (copy_element new) data (elements (default ∅ (ies_elements it !! array)));
      Ok (<[array := data]> retMap)
  | None => Ok (<[array := new]> retMap)
  end.

(** The loop over the factors: no answer, no solution, or all values. *)
Fixpoint solve_factors (factors : list IndependentElementSet) (retMap : bindings Array) (s : si_state solver)
    : res (option (option (bindings Array)) * si_state solver) :=
  match factors with
  | [] => Ok (Some (Some retMap), s)
  | it :: factors =>
      let arraysInFactor := calculateArrayReferences it in
      _ ← cassert (negb (Nat.eqb (length (exprs it)) 0));
      if Nat.eqb (length arraysInFactor) 0 then solve_factors factors retMap s
      else
        '(r, s) ← computeInitialValues solver {| constraints := exprs it; query := constant 0 1 |} arraysInFactor s;
        match r with
        | None => Ok (None, s)
        | Some None => Ok (Some None, s)
        | Some (Some tempValues) =>
            _ ← cassert (Nat.eqb (length tempValues) (length arraysInFactor));
            retMap ← for_each (enter it) retMap (zip arraysInFactor tempValues);
            solve_factors factors retMap s
        end
  end.

(** [cast<ConstantExpr>] of an evaluated expression. *)
Definition evaluated_constant (assign : bindings Array) (e : expr) : res (expr * Z) :=
  let r := evaluate true assign e in
  match as_constant r with Some k => Ok (r, k) | None => Err AssertFailed end.

Fixpoint constraints_true (assign : bindings Array) (cs : list expr) : res bool :=
  match cs with
  | [] => Ok true
  | c :: cs =>
      '(r, k) ← evaluated_constant assign c;
      if isFalse r k then Ok false else constraints_true assign cs
  end.

(** [std::map::insert] keeps the bindings of [objects]. *)
Definition assertCreatedPointEvaluatesToTrue (q : Query) (objects : list Array) (values : list (list uchar))
    (retMap : bindings Array) : res bool :=
  let assign := assignment_of objects values ∪ retMap in
  ok ← constraints_true assign (constraints q);
  if negb ok then Ok false
  else
    '(r, k) ← evaluated_constant assign (createIsZero (query q));
    Ok (isTrue r k).

Definition independent_initial (q : Query) (objects : list Array) (s : si_state solver)
    : res (option (option (list (list uchar))) * si_state solver) :=
  factors ← getAllIndependentConstraintsSets q;
  '(r, s) ← solve_factors factors ∅ s;
  match r with
  | None => Ok (None, s)
  | Some None => Ok (Some None, s)
  | Some (Some retMap) =>
      let values := map (λ arr, default (replicate (arr_size arr) x00) (retMap !! arr)) objects in
      ok ← assertCreatedPointEvaluatesToTrue q objects values retMap;
      _ ← cassert ok;
      Ok (Some (Some values), s)
  end.

Definition IndependentSolver : SolverImpl := {|
  si_state := si_state solver;
  computeTruth := sliced (computeTruth solver);
  computeValidity := sliced (computeValidity solver);
  computeValue := sliced (computeValue solver);
  computeInitialValues := independent_initial;
  setCoreSolverTimeout := setCoreSolverTimeout solver |}.
End solver.
End independent.
