(* ===== verification/IndependentProofs.v ===== *)
(** * Independent constraints: proofs

    The sets of an [IndependentElementSet] are the bytes that its expressions
    read; constraints that share no byte with a query, directly or through
    others, do not matter for it; and the factors that
    [getAllIndependentConstraintsSets] splits a query into share no byte, so
    that their solutions together are one of the query. *)

From stdpp Require Import base tactics list numbers gmap.
From Stdlib Require Import Strings.Byte.
From S2P Require Import Prelude StdMap ThreadId ObjectAccesses Solver SolverProofs Independent.

Local Open Scope Z_scope.

Section element_sets.
Context {EL : ExprLib} {ES : ExprSem} {QL : QueryLib} {QS : QuerySem}.
Implicit Types (a b : IndependentElementSet) (array : Array) (i : Z).

Definition touches a array i : Prop :=
  array ∈ wholeObjects a ∨ ∃ d, ies_elements a !! array = Some d ∧ i ∈ d.

#[export] Instance touches_dec a array i : Decision (touches a array i).
Proof.
  destruct (decide (array ∈ wholeObjects a)) as [H|H]; [by left; left|].
  destruct (ies_elements a !! array) as [d|] eqn:E.
  - destruct (decide (i ∈ d)); [left; right; eauto|right]. intros [?|(d' & Hd & ?)]; [done|]. congruence.
  - right. intros [?|(d' & Hd & ?)]; [done|]. congruence.
Defined.

Record ies_wf a : Prop := {
  wf_disjoint array : array ∈ wholeObjects a → ies_elements a !! array = None;
  wf_inhabited array d : ies_elements a !! array = Some d → ∃ i, i ∈ d;
  wf_in_array array d i : ies_elements a !! array = Some d → i ∈ d → in_array array i;
}.

Lemma dense_add_spec (b s : DenseSet) :
  (dense_add b s).2 = b ∪ s ∧ ((dense_add b s).1 = false → b ⊆ s).
Proof.
  unfold dense_add.
  assert (∀ l m (s : DenseSet), let r := fold_left (λ '(modified, s) x,
    if (modified : bool) || negb (bool_decide (x ∈ s)) then (true, {[ x ]} ∪ s) else (false, s)) l (m, s) in
    r.2 = list_to_set l ∪ s ∧ (r.1 = false → m = false ∧ list_to_set l ⊆ s)) as H.
  { induction l as [|x l IH]; intros m t; simpl.
    { split; [by rewrite (left_id_L ∅ (∪))|]. intros ->. split; [done|]. apply empty_subseteq. }
    destruct (m || _) eqn:E; [destruct (IH true ({[x]} ∪ t)) as [H1 H2] | destruct (IH false t) as [H1 H2]].
    - rewrite H1. split; [set_solver|]. intros Hf. by destruct (H2 Hf).
    - apply orb_false_iff in E as [-> E%negb_false_iff%bool_decide_eq_true]. rewrite H1. split; [set_solver|].
      intros Hf. destruct (H2 Hf). set_solver. }
  destruct (H (elements b) false s) as [H1 H2]. rewrite list_to_set_elements_L in H1, H2. split; [done|]. intros Hf. by destruct (H2 Hf).
Qed.

Lemma dense_intersects_spec (s b : DenseSet) : dense_intersects s b = true ↔ ∃ i, i ∈ s ∧ i ∈ b.
Proof.
  unfold dense_intersects. rewrite existsb_exists. split; intros (x & H1 & H2); exists x.
  - apply bool_decide_eq_true in H2. by apply list_elem_of_In, elem_of_elements in H1.
  - rewrite bool_decide_eq_true. by rewrite <-list_elem_of_In, elem_of_elements.
Qed.

(** ** Updates

    [T] is touched in addition; [false] is returned only if it was before. *)
Definition extends_by (T : Array → Z → Prop) (st st' : bool * IndependentElementSet) : Prop :=
  ies_wf st.2 → ies_wf st'.2 ∧ exprs st'.2 = exprs st.2 ∧
  (∀ array i, touches st'.2 array i ↔ touches st.2 array i ∨ T array i) ∧
  (st'.1 = false → st.1 = false ∧ ∀ array i, T array i → touches st.2 array i).

Lemma extends_by_fold {A} (f : bool * IndependentElementSet → A → bool * IndependentElementSet) (T : A → Array → Z → Prop) l :
  (∀ x st, x ∈ l → extends_by (T x) st (f st x)) →
  ∀ st, extends_by (λ array i, ∃ x, x ∈ l ∧ T x array i) st (fold_left f l st).
Proof.
  induction l as [|x l IH]; intros Hf st Hwf; simpl.
  - split_and!; [done | done | |].
    + intros array i. split; [auto|]. intros [?|(x & Hx & _)]; [done|]. by apply not_elem_of_nil in Hx.
    + intros Hm. split; [done|]. intros array i (x & Hx & _). by apply not_elem_of_nil in Hx.
  - destruct (Hf x st ltac:(left) Hwf) as (Hwf1 & He1 & Ht1 & Hm1).
    destruct (IH (λ y st Hy, Hf y st ltac:(by right)) _ Hwf1) as (Hwf2 & He2 & Ht2 & Hm2). split_and!; [done|congruence| |].
    + intros array i. rewrite Ht2, Ht1. split.
      * intros [[?|?]|(y & ? & ?)]; [by left | right; exists x; split; [left|done] | right; exists y; split; [by right|done]].
      * intros [?|(y & [->|?]%elem_of_cons & ?)]; [auto..|]. right. eauto.
    + intros H. destruct (Hm2 H) as [H1 H2], (Hm1 H1) as [H3 H4]. split; [done|].
      intros array i (y & [->|Hy]%elem_of_cons & HT); [by apply H4|].
      destruct (proj1 (Ht1 array i) (H2 array i (ex_intro _ y (conj Hy HT)))); auto.
Qed.

Lemma wf_whole a array :
  ies_wf a → ies_wf {| ies_elements := delete array (ies_elements a); wholeObjects := {[ array ]} ∪ wholeObjects a; exprs := exprs a |}.
Proof.
  intros [Hd Hi Hr]. split; simpl.
  - intros x [->%elem_of_singleton|Hx]%elem_of_union; [apply lookup_delete_eq|].
    destruct (decide (x = array)) as [->|Hn]; [apply lookup_delete_eq|]. rewrite lookup_delete_ne by done. auto.
  - intros x d [_ Hx]%lookup_delete_Some. eauto.
  - intros x d i [_ Hx]%lookup_delete_Some. eauto.
Qed.

Lemma touches_whole a array x i :
  touches {| ies_elements := delete array (ies_elements a); wholeObjects := {[ array ]} ∪ wholeObjects a; exprs := exprs a |} x i
  ↔ touches a x i ∨ x = array.
Proof.
  unfold touches. simpl. rewrite elem_of_union, elem_of_singleton. setoid_rewrite lookup_delete_Some.
  destruct (decide (x = array)); naive_solver.
Qed.

Lemma wf_elements a array d :
  ies_wf a → array ∉ wholeObjects a → (∃ i, i ∈ d) → (∀ i, i ∈ d → in_array array i) →
  ies_wf {| ies_elements := <[array := d]> (ies_elements a); wholeObjects := wholeObjects a; exprs := exprs a |}.
Proof.
  intros [Hd Hi Hr] Hn He Hb. split; simpl.
  - intros x Hx. rewrite lookup_insert_ne by (intros ->; done). auto.
  - intros x d' [[-> ->]|[_ Hx]]%lookup_insert_Some; eauto.
  - intros x d' i [[-> ->]|[_ Hx]]%lookup_insert_Some; eauto.
Qed.

Lemma touches_elements a array d x i :
  array ∉ wholeObjects a →
  touches {| ies_elements := <[array := d]> (ies_elements a); wholeObjects := wholeObjects a; exprs := exprs a |} x i
  ↔ (x ≠ array ∧ touches a x i) ∨ (x = array ∧ i ∈ d).
Proof.
  intros Hn. unfold touches. simpl. setoid_rewrite lookup_insert_Some. destruct (decide (x = array)) as [->|]; naive_solver.
Qed.

Lemma whole_deleted a array : ies_wf a → array ∈ wholeObjects a → delete array (ies_elements a) = ies_elements a.
Proof. intros [Hd _ _] Hin. apply delete_id. by apply Hd. Qed.

Lemma add_whole_extends array st : extends_by (λ x _, x = array) st (add_whole st array).
Proof.
  intros Hwf. destruct st as [m a]. unfold add_whole. simpl in Hwf.
  case_bool_decide as He; [|case_bool_decide as Hin]; simpl.
  - split_and!; [by apply wf_whole | done | intros; apply touches_whole | done].
  - split_and!; [done|done| |].
    + intros x i. split; [auto|]. intros [?| ->]; [done|]. by left.
    + intros ->. split; [done|]. intros x i ->. by left.
  - assert (ies_elements a = delete array (ies_elements a)) as Hdel.
    { symmetry. apply delete_id. by apply eq_None_not_Some. }
    rewrite Hdel. split_and!; [by apply wf_whole | done | intros; apply touches_whole | done].
Qed.

Lemma add_elements_extends p st :
  (∃ i, i ∈ p.2) → (∀ i, i ∈ p.2 → in_array p.1 i) → extends_by (λ x i, x = p.1 ∧ i ∈ p.2) st (add_elements st p).
Proof.
  intros Hp Hr Hwf. destruct st as [m a], p as [array d]. unfold add_elements. simpl in *.
  case_bool_decide as Hin; simpl.
  - split_and!; [done|done| |].
    + intros x i. split; [auto|]. intros [?|[-> _]]; [done|]. by left.
    + intros ->. split; [done|]. intros x i [-> _]. by left.
  - destruct (ies_elements a !! array) as [d'|] eqn:E; simpl.
    + destruct (dense_add_spec d d') as [Hs Hm]. destruct (dense_add d d') as [m' d'']. simpl in *. subst d''.
      split_and!; [apply wf_elements; auto; [destruct Hp as [i Hi]; exists i; set_solver|] | done | |].
      { intros i [?|?]%elem_of_union; [by apply Hr | by eapply wf_in_array]. }
      * intros x i. rewrite touches_elements by done. unfold touches. destruct (decide (x = array)) as [->|]; [|naive_solver].
        rewrite elem_of_union. split; [naive_solver|]. intros [[?|(d1 & Hd1 & ?)]|[_ ?]]; naive_solver.
      * intros [-> ->]%orb_false_iff. split; [done|]. intros x i [-> Hi]. right. exists d'. split; [done|]. by apply Hm.
    + split_and!; [by apply wf_elements | done | | done].
      intros x i. rewrite touches_elements by done. unfold touches. destruct (decide (x = array)) as [->|]; naive_solver.
Qed.

Lemma add_spec b a :
  ies_wf a → ies_wf b →
  let r := ies_add b a in
  ies_wf r.2 ∧ exprs r.2 = exprs a ++ exprs b ∧
  (∀ array i, touches r.2 array i ↔ touches a array i ∨ touches b array i) ∧
  (r.1 = false → ∀ array i, touches b array i → touches a array i).
Proof.
  intros Ha Hb. unfold ies_add.
  set (a' := {| ies_elements := ies_elements a; wholeObjects := wholeObjects a; exprs := exprs a ++ exprs b |}).
  assert (ies_wf a') as Ha' by (destruct Ha; by split).
  destruct (extends_by_fold add_whole (λ array x _, x = array) (elements (wholeObjects b))
    (λ array st _, add_whole_extends array st) (false, a') Ha') as (Hwf1 & He1 & Ht1 & Hm1).
  destruct (extends_by_fold add_elements (λ (p : Array * DenseSet) x i, x = p.1 ∧ i ∈ p.2) (map_to_list (ies_elements b)))
    with (st := fold_left add_whole (elements (wholeObjects b)) (false, a')) as (Hwf2 & He2 & Ht2 & Hm2); [|done|].
  { intros [array d] st Hin. apply elem_of_map_to_list in Hin. apply add_elements_extends; simpl; [exact (wf_inhabited b Hb array d Hin) | intros i; exact (wf_in_array b Hb array d i Hin)]. }
  cbn zeta. assert (∀ array i, (∃ x, x ∈ elements (wholeObjects b) ∧ array = x) ∨
      (∃ p, p ∈ map_to_list (ies_elements b) ∧ array = p.1 ∧ i ∈ p.2) ↔ touches b array i) as Htb.
  { intros array i. unfold touches. setoid_rewrite elem_of_elements. split.
    - intros [(x & ? & ->)|([x d] & Hin & -> & ?)]; [by left|]. right. apply elem_of_map_to_list in Hin. eauto.
    - intros [?|(d & ? & ?)]; [eauto|]. right. exists (array, d). by rewrite elem_of_map_to_list. }
  split_and!; [done | by rewrite He2, He1 | |].
  - intros array i. rewrite Ht2, Ht1, <-Htb. change (touches (false, a').2 array i) with (touches a array i). tauto.
  - intros Hf array i Hb'. destruct (Hm2 Hf) as [H1 H2], (Hm1 H1) as [_ H4]. apply Htb in Hb' as [H|H]; [by apply H4|].
    destruct (proj1 (Ht1 array i) (H2 array i H)) as [|H']; [done|]. by apply H4.
Qed.

(** Two sets intersect if they share a byte. *)
Lemma intersects_spec a b :
  ies_wf a → ies_wf b → ies_intersects a b = true ↔ ∃ array i, touches a array i ∧ touches b array i.
Proof.
  intros Ha Hb. unfold ies_intersects. rewrite orb_true_iff, !existsb_exists. split.
  - intros [(x & Hx & H)|([x d] & Hx & H)]; apply list_elem_of_In in Hx; simpl in *.
    + apply elem_of_elements in Hx. rewrite orb_true_iff, !bool_decide_eq_true in H.
      destruct H as [H|[d Hd]]; [exists x, 0; by split; left|].
      destruct (wf_inhabited _ Hb _ _ Hd) as [i Hi]. exists x, i. split; [by left | right; eauto].
    + apply elem_of_map_to_list in Hx. rewrite orb_true_iff, bool_decide_eq_true in H.
      destruct H as [H|H]; [destruct (wf_inhabited _ Ha _ _ Hx) as [i Hi]; exists x, i; split; [right; eauto | by left]|].
      destruct (ies_elements b !! x) as [d'|] eqn:E; [|done]. apply dense_intersects_spec in H as (i & ? & ?).
      exists x, i. split; right; eauto.
  - intros (x & i & [H1|(d & Hd & Hi)] & H2).
    + left. exists x. rewrite <-list_elem_of_In, elem_of_elements. split; [done|]. rewrite orb_true_iff, !bool_decide_eq_true.
      destruct H2 as [?|(d & ? & ?)]; eauto.
    + right. exists (x, d). rewrite <-list_elem_of_In, elem_of_map_to_list. split; [done|]. simpl.
      rewrite orb_true_iff, bool_decide_eq_true. destruct H2 as [?|(d' & Hd' & ?)]; [by left|]. right. rewrite Hd'.
      apply dense_intersects_spec. eauto.
Qed.

(** ** The constructor *)

Lemma track_spec a re :
  ies_wf a → getWidth (read_index re) ≤ 32 → (∀ k, as_constant (read_index re) = Some k → in_array (read_root re) k) →
  ∃ a', track a re = Ok a' ∧ ies_wf a' ∧ exprs a' = exprs a ∧
    ∀ array i, touches a' array i ↔ touches a array i ∨ read_touches re array i.
Proof.
  intros Ha Hw Hr. unfold track, read_touches. destruct (isConstantArray (read_root re) && _) eqn:Ec.
  { exists a. split_and!; auto. intros array i. split; [auto|]. intros [?|(<- & ? & _)]; [done | congruence]. }
  case_bool_decide as Hin.
  { exists a. split_and!; auto. intros array i. split; [auto|]. intros [?|(<- & _)]; [done | by left]. }
  destruct (as_constant (read_index re)) as [k|] eqn:Ek.
  - rewrite (proj2 (Z.leb_le _ 32)) by done. cbn [cassert]. rewrite bind_Ok_l. eexists. split_and!; [done| |done|].
    + apply wf_elements; auto; [exists k; set_solver|]. intros i [->%elem_of_singleton|Hi]%elem_of_union; [by apply Hr|].
      destruct (ies_elements a !! read_root re) as [d|] eqn:E; [by eapply wf_in_array | by apply elem_of_empty in Hi].
    + intros array i. rewrite touches_elements by done. unfold touches.
      destruct (decide (array = read_root re)) as [->|]; [|naive_solver].
      rewrite elem_of_union, elem_of_singleton.
      destruct (ies_elements a !! read_root re) as [d|] eqn:E; simpl; naive_solver set_solver.
  - eexists. split_and!; [done | by apply wf_whole | done|].
    intros array i. rewrite touches_whole. naive_solver.
Qed.

Lemma track_all_spec reads : ∀ a,
  ies_wf a → (∀ re, re ∈ reads → getWidth (read_index re) ≤ 32 ∧
    ∀ k, as_constant (read_index re) = Some k → in_array (read_root re) k) →
  ∃ a', for_each track a reads = Ok a' ∧ ies_wf a' ∧ exprs a' = exprs a ∧
    ∀ array i, touches a' array i ↔ touches a array i ∨ reads_at reads array i.
Proof.
  induction reads as [|re reads IH]; intros a Ha Hw; simpl.
  - exists a. split_and!; auto. intros array i. split; [auto|]. intros [?|(re & Hre & _)]; [done|]. by apply not_elem_of_nil in Hre.
  - destruct (track_spec a re Ha (proj1 (Hw re ltac:(left))) (proj2 (Hw re ltac:(left)))) as (a1 & -> & Ha1 & He1 & Ht1). rewrite bind_Ok_l.
    destruct (IH a1 Ha1) as (a2 & -> & Ha2 & He2 & Ht2); [intros; apply Hw; by right|].
    exists a2. split_and!; [done|done|congruence|]. intros array i. rewrite Ht2, Ht1. unfold reads_at.
    setoid_rewrite elem_of_cons. naive_solver.
Qed.

Lemma elements_of_spec e :
  ∃ a, elements_of e = Ok a ∧ ies_wf a ∧ exprs a = [e] ∧
    ∀ array i, touches a array i ↔ reads_at (findReads e) array i.
Proof.
  unfold elements_of. destruct (track_all_spec (findReads e) {| ies_elements := ∅; wholeObjects := ∅; exprs := [e] |})
    as (a & Hok & Ha & He & Ht).
  - split; simpl; [intros array H; by apply elem_of_empty in H | intros array d H; by rewrite lookup_empty in H
      | intros array d i H; by rewrite lookup_empty in H].
  - intros re Hre. split; [by eapply index_width | intros k; by eapply index_in_array].
  - exists a. split_and!; auto. intros array i. rewrite Ht. split; [|auto]. intros [[H|(d & H & _)]|H]; [..|done].
    + by apply elem_of_empty in H.
    + simpl in H. by rewrite lookup_empty in H.
Qed.
End element_sets.

(** ** Slicing *)

Section slicing.
Context {EL : ExprLib} {ES : ExprSem} {QL : QueryLib} {QS : QuerySem}.
Implicit Types (a b : IndependentElementSet) (array : Array) (i : Z) (c e : expr) (q : Query).

Abbreviation reads_byte e := (reads_at (findReads e)).

(** Expressions that read a byte in common, and the constraints connected
    with [e]. *)
Definition shares e c : Prop := ∃ array i, reads_byte e array i ∧ reads_byte c array i.

Inductive connected (cs : list expr) (e : expr) : expr → Prop :=
  | connected_direct c : c ∈ cs → shares e c → connected cs e c
  | connected_through c c' : connected cs e c → c' ∈ cs → shares c c' → connected cs e c'.

Lemma connected_in cs e c : connected cs e c → c ∈ cs.
Proof. by destruct 1. Qed.

Definition item_ok (it : expr * IndependentElementSet) : Prop :=
  ies_wf it.2 ∧ ∀ array i, touches it.2 array i ↔ reads_byte it.1 array i.

Lemma worklist_spec cs : ∃ wl, worklist_of cs = Ok wl ∧ wl.*1 = cs ∧ Forall item_ok wl.
Proof.
  induction cs as [|c cs (wl & IH & Hf & Hok)]; simpl; [by exists []|].
  destruct (elements_of_spec c) as (a & -> & Ha & _ & Ht). rewrite bind_Ok_l, IH, bind_Ok_l.
  eexists. split_and!; [done | by rewrite fmap_cons, Hf | by constructor].
Qed.

Definition covers_expr a e : Prop := ∀ array i, reads_byte e array i → touches a array i.
Definition misses a e : Prop := ∀ array i, reads_byte e array i → ¬ touches a array i.

(** The closure holds only bytes of the query and of connected
    constraints. *)
Definition grounded cs e a : Prop :=
  ∀ array i, touches a array i → reads_byte e array i ∨ ∃ c, connected cs e c ∧ reads_byte c array i.

Lemma item_connected cs e a it :
  item_ok it → ies_wf a → it.1 ∈ cs → grounded cs e a → ies_intersects it.2 a = true → connected cs e it.1.
Proof.
  intros [Hwf Ht] Ha Hin Hg (array & i & H1 & H2)%intersects_spec; [|done..]. apply Ht in H1.
  destruct (Hg array i H2) as [H|(c & Hc & H)]; [apply connected_direct | eapply connected_through]; eauto; by exists array, i.
Qed.

Lemma item_misses a it : item_ok it → ies_wf a → ies_intersects it.2 a = false → misses a it.1.
Proof.
  intros [Hwf Ht] Ha Hf array i Hr Hta. apply Ht in Hr.
  assert (ies_intersects it.2 a = true); [|congruence]. apply intersects_spec; eauto.
Qed.

(** What a pass does, from [worklist] to what it takes and leaves. *)
Record passed cs e (worklist : list (expr * IndependentElementSet)) a a' (taken : list expr)
    (rest : list (expr * IndependentElementSet)) : Prop := {
  pa_wf : ies_wf a';
  pa_grows array i : touches a array i → touches a' array i;
  pa_taken c : c ∈ taken → covers_expr a' c ∧ connected cs e c;
  pa_grounded : grounded cs e a';
  pa_split c : c ∈ worklist.*1 ↔ c ∈ taken ∨ c ∈ rest.*1;
  pa_rest : Forall item_ok rest;
  pa_length : (length taken + length rest = length worklist)%nat;
}.

Lemma slice_pass_spec cs e wl : ∀ d a result new,
  Forall item_ok wl → (∀ c, c ∈ wl.*1 → c ∈ cs) → ies_wf a → grounded cs e a →
  ∃ a' taken rest d', slice_pass wl d a result new = (d', a', result ++ taken, new ++ rest) ∧
    passed cs e wl a a' taken rest ∧
    (d' = true → d = true ∧ (∀ array i, touches a' array i → touches a array i) ∧ ∀ c, c ∈ rest.*1 → misses a' c) ∧
    (d' = false → d = false ∨ taken ≠ []).
Proof.
  induction wl as [|it wl IH]; intros d a result new Hok Hin Ha Hg; simpl.
  { exists a, [], [], d. rewrite !app_nil_r. split; [done|]. split_and!.
    - split; simpl; auto; [intros c H; by apply not_elem_of_nil in H | intros c; rewrite elem_of_nil; tauto].
    - intros ->. split_and!; auto. intros c H. by apply not_elem_of_nil in H.
    - auto. }
  apply Forall_cons in Hok as [Hit Hok]. destruct (ies_intersects it.2 a) eqn:Ei.
  - pose proof (item_connected cs e a it Hit Ha (Hin _ ltac:(left)) Hg Ei) as Hc.
    destruct (add_spec it.2 a Ha (proj1 Hit)) as (Hwf & _ & Ht & Hm). destruct (ies_add it.2 a) as [m a1]. simpl in Hwf, Ht, Hm.
    assert (grounded cs e a1) as Hg1.
    { intros array i [H|H]%Ht; [by apply Hg|]. right. exists it.1. split; [done|]. by apply Hit. }
    destruct (IH (d && negb m) a1 (result ++ [it.1]) new) as (a' & taken & rest & d' & -> & [P1 P2 P3 P4 P5 P6 P7] & Ht' & Hf');
      [done | intros; apply Hin; by right | done..|].
    exists a', (it.1 :: taken), rest, d'. rewrite <-app_assoc. split; [done|]. split_and!.
    + split; simpl; [done | | | done | | done | lia].
      * intros array i H. apply P2, Ht. by left.
      * intros c [->|H]%elem_of_cons; [|by apply P3]. split; [|done]. intros array i H. apply P2, Ht. right. by apply Hit.
      * intros c. rewrite !elem_of_cons, P5. tauto.
    + intros H. destruct (Ht' H) as ([-> Hn%negb_true_iff]%andb_true_iff & Hs & Hr). split_and!; [done| |done].
      intros array i Htc. destruct (proj1 (Ht array i) (Hs array i Htc)); [done|]. by apply Hm.
    + intros _. by right.
  - destruct (IH d a result (new ++ [it])) as (a' & taken & rest & d' & -> & [P1 P2 P3 P4 P5 P6 P7] & Ht' & Hf');
      [done | intros; apply Hin; by right | done..|].
    exists a', taken, (it :: rest), d'. rewrite <-app_assoc. split; [done|]. split_and!.
    + split; simpl; [done..| | by constructor | lia]. intros c. rewrite !elem_of_cons, P5. tauto.
    + intros H. destruct (Ht' H) as (-> & Hs & Hr). split_and!; [done..|]. simpl. intros c [->|Hc]%elem_of_cons; [|by apply Hr].
      intros array i H1 H2. exact (item_misses a it Hit Ha Ei array i H1 (Hs array i H2)).
    + done.
Qed.

Lemma slice_loop_spec cs e fuel : ∀ wl a result,
  Forall item_ok wl → (∀ c, c ∈ wl.*1 → c ∈ cs) → ies_wf a → grounded cs e a → (length wl < fuel)%nat →
  ∃ a' taken rest, slice_loop fuel wl a result = Ok (a', result ++ taken) ∧ passed cs e wl a a' taken rest ∧
    ∀ c, c ∈ rest.*1 → misses a' c.
Proof.
  induction fuel as [|fuel IH]; intros wl a result Hok Hin Ha Hg Hf; [lia|]. cbn [slice_loop].
  destruct (slice_pass_spec cs e wl true a result [] Hok Hin Ha Hg)
    as (a1 & taken & rest & d & -> & Hp & Hd & Hn). simpl. destruct d.
  - exists a1, taken, rest. split_and!; [done..|]. by apply Hd.
  - pose proof Hp as [P1 P2 P3 P4 P5 P6 P7].
    assert (length taken ≠ 0%nat) as Hl. { destruct (Hn eq_refl) as [?|H]; [done|]. by destruct taken. }
    destruct (IH rest a1 (result ++ taken) P6) as (a2 & taken2 & rest2 & -> & [R1 R2 R3 R4 R5 R6 R7] & Hm);
      [intros c Hc; apply Hin, P5; by right | done | done | lia|].
    exists a2, (taken ++ taken2), rest2. rewrite <-app_assoc. split_and!; [done| |done].
    split; [done | auto | | done | | done | rewrite length_app; lia].
    + intros c [[H1 H2]%P3|H]%elem_of_app; [|by apply R3]. split; [|done]. intros array i H. apply R2. by apply H1.
    + intros c. rewrite elem_of_app, P5, R5. tauto.
Qed.

(** The required constraints are those connected with the query. *)
Lemma independent_spec q :
  ∃ a required, getIndependentConstraints q = Ok (a, required) ∧
    covers_expr a (query q) ∧ (∀ c, c ∈ required ↔ connected (constraints q) (query q) c) ∧
    ∀ c, c ∈ constraints q → covers_expr a c ∧ c ∈ required ∨ misses a c.
Proof.
  unfold getIndependentConstraints. destruct (elements_of_spec (query q)) as (a0 & -> & Ha0 & _ & Ht0). rewrite bind_Ok_l.
  destruct (worklist_spec (constraints q)) as (wl & -> & Hwl & Hok). rewrite bind_Ok_l.
  destruct (slice_loop_spec (constraints q) (query q) (S (length wl)) wl a0 []) as (a & req & rest & Hl & Hp & Hm);
    [done | intros c; by rewrite Hwl | done | intros array i H; left; by apply Ht0 | lia|].
  destruct Hp as [P1 P2 P3 P4 P5 _ _]. rewrite Hwl in P5.
  assert (covers_expr a (query q)) as Hcov by (intros array i H; apply P2; by apply Ht0).
  assert (∀ c e, c ∈ constraints q → covers_expr a e → shares e c → c ∈ req) as Hcon.
  { intros c e Hc He (array & i & H1 & H2). apply P5 in Hc as [?|Hr]; [done|]. exfalso. exact (Hm c Hr array i H2 (He array i H1)). }
  exists a, req. split_and!; [done|done| |].
  - intros c. split; [by intros [_ ?]%P3|]. induction 1 as [c Hc Hs|c c' Hc IH Hc' Hs]; [by apply (Hcon c (query q))|].
    apply (Hcon c' c); [done| |done]. by apply P3.
  - intros c [Hc|Hc]%P5; [left; by split; [apply P3|] | right; by apply Hm].
Qed.

(** Two assignments can be mixed. *)
Lemma mixed (T : Array → Z → bool) (v v' : assignment) :
  ∃ w, ∀ array i, in_array array i → byte w array i = byte (if T array i then v else v') array i.
Proof.
  destruct (assigned (λ array i, byte (if T array i then v else v') array i)) as [w Hw]. exists w. intros array i Hi.
  destruct (isConstantArray array) eqn:E; [by apply byte_constant | by apply Hw].
Qed.

(** An assignment for the required constraints can be extended to one for
    all. *)
Lemma slice_extend q :
  satisfiable (constraints q) →
  ∃ a required, getIndependentConstraints q = Ok (a, required) ∧ (∀ c, c ∈ required → c ∈ constraints q) ∧
    ∀ v, holds v required → ∃ w, holds w (constraints q) ∧ eval w (query q) = eval v (query q).
Proof.
  intros [v0 Hv0]. destruct (independent_spec q) as (a & req & Hok & Hq & Hreq & Hall).
  exists a, req. split_and!; [done | intros c H; apply Hreq in H; by eapply connected_in|].
  intros v Hv. destruct (mixed (λ array i, bool_decide (touches a array i)) v v0) as [w Hw].
  assert (∀ e, covers_expr a e → eval w e = eval v e) as Hin.
  { intros e He. apply eval_reads. intros array i Hr Hi. rewrite Hw by done. by rewrite bool_decide_eq_true_2 by (by apply He). }
  assert (∀ e, misses a e → eval w e = eval v0 e) as Hout.
  { intros e He. apply eval_reads. intros array i Hr Hi. rewrite Hw by done. by rewrite bool_decide_eq_false_2 by (by apply He). }
  exists w. split; [|by apply Hin]. intros c Hc. destruct (Hall c Hc) as [[H1 H2]|H]; [rewrite Hin by done; by apply Hv|].
  rewrite Hout by done. by apply Hv0.
Qed.

Lemma holds_subset v cs cs' : (∀ c, c ∈ cs' → c ∈ cs) → holds v cs → holds v cs'.
Proof. intros H Hv c Hc. by apply Hv, H. Qed.

(** The slice has the answers of the whole query. *)
Lemma slice_always q req (b : bool) :
  (∀ c, c ∈ req → c ∈ constraints q) →
  (∀ v, holds v req → ∃ w, holds w (constraints q) ∧ eval w (query q) = eval v (query q)) →
  (always {| constraints := req; query := query q |} b ↔ always q b) ∧
  (sometimes {| constraints := req; query := query q |} b ↔ sometimes q b).
Proof.
  intros Hsub Hext. split; split.
  - intros H v Hv. apply H. simpl. by eapply holds_subset.
  - intros H v Hv. destruct (Hext v Hv) as (w & Hw & He). simpl. rewrite <-(H w Hw).
    unfold true_in. by rewrite He.
  - intros (v & Hv & Ht). destruct (Hext v Hv) as (w & Hw & He). exists w. split; [done|]. rewrite <-Ht. unfold true_in. simpl. by rewrite He.
  - intros (v & Hv & Ht). exists v. split; [|done]. simpl. by eapply holds_subset.
Qed.

Lemma independent_ok I inv : impl_ok I inv → impl_ok (IndependentSolver I) inv.
Proof.
  intros [It Iv Ie Itm]. split; simpl; [| | |done]; unfold sliced.
  - intros q s [Hw Hs Hsat] Hi. destruct (slice_extend q Hsat) as (a & req & -> & Hsub & Hext). rewrite bind_Ok_l.
    eapply delivers_weaken; [apply It; [|done]|].
    + split; [done..|]. destruct Hsat as [v Hv]. exists v. by eapply holds_subset.
    + intros [|]; [apply (slice_always q req true Hsub Hext) | apply (slice_always q req false Hsub Hext)].
  - intros q s [Hw Hs Hsat] Hi. destruct (slice_extend q Hsat) as (a & req & -> & Hsub & Hext). rewrite bind_Ok_l.
    eapply delivers_weaken; [apply Iv; [|done]|].
    + split; [done..|]. destruct Hsat as [v Hv]. exists v. by eapply holds_subset.
    + destruct (slice_always q req true Hsub Hext) as [Ha Hs'], (slice_always q req false Hsub Hext) as [Hf Hs''].
      intros [| |]; [apply Ha | apply Hf|]. intros [H1 H2]. split; [by apply Hs' | by apply Hs''].
  - intros q s Hs Hsat Hi. destruct (slice_extend q Hsat) as (a & req & -> & Hsub & Hext). rewrite bind_Ok_l.
    eapply delivers_weaken; [apply Ie; [done| |done]|].
    + destruct Hsat as [v Hv]. exists v. by eapply holds_subset.
    + intros e (k & Hk & Hwe & v & Hv & He). exists k. split_and!; [done..|]. destruct (Hext v Hv) as (w & Hw & Hew).
      exists w. split; [done|]. by rewrite Hew.
Qed.
End slicing.

(** ** Factors *)

Section factors.
Context {EL : ExprLib} {ES : ExprSem} {QL : QueryLib} {QS : QuerySem}.
Implicit Types (a b : IndependentElementSet) (array : Array) (i : Z) (c e : expr) (q : Query).

(** A factor touches the bytes of its expressions. *)
Record factor_ok a : Prop := {
  fo_wf : ies_wf a;
  fo_touches array i : touches a array i ↔ ∃ e, e ∈ exprs a ∧ reads_at (findReads e) array i;
  fo_exprs : exprs a ≠ [];
}.

Definition apart a b : Prop := ∀ array i, touches a array i → touches b array i → False.

(** The factors of [fs], in whatever order, hold the expressions [es]. *)
Definition splits (fs : list IndependentElementSet) (es : list expr) : Prop :=
  Forall factor_ok fs ∧ concat (map exprs fs) ≡ₚ es.

Lemma sets_of_spec es : ∃ fs, sets_of es = Ok fs ∧ splits fs es ∧ length fs = length es.
Proof.
  induction es as [|e es (fs & IH & [Hok Hp] & Hl)]; simpl; [exists []; split_and!; [done | split; [constructor | done] | done]|].
  destruct (elements_of_spec e) as (a & -> & Ha & He & Ht). rewrite bind_Ok_l, IH, bind_Ok_l.
  eexists. split_and!; [done| |simpl; congruence]. split; [constructor; [|done]|].
  - split; [done| |by rewrite He]. intros array i. rewrite Ht, He. setoid_rewrite list_elem_of_singleton. naive_solver.
  - simpl. rewrite He. simpl. by rewrite Hp.
Qed.

Lemma merged_ok a b : factor_ok a → factor_ok b → factor_ok (ies_add b a).2.
Proof.
  intros [Ha Hat Hae] [Hb Hbt _]. destruct (add_spec b a Ha Hb) as (Hwf & He & Ht & _). split; [done| |].
  - intros array i. rewrite Ht, He, Hat, Hbt. setoid_rewrite elem_of_app. naive_solver.
  - rewrite He. intros H. by apply app_eq_nil in H as [? _].
Qed.

Lemma apart_intersects a b : factor_ok a → factor_ok b → ies_intersects a b = false → apart a b.
Proof.
  intros Ha Hb Hf array i H1 H2. assert (ies_intersects a b = true); [|congruence].
  apply intersects_spec; [apply Ha | apply Hb | eauto].
Qed.

(** Merging into [a]: what is kept is apart from the result if no merge has
    changed it. *)
Lemma merge_into_spec fs : ∀ a d keep,
  factor_ok a → Forall factor_ok fs →
  ∃ d' a' rest, merge_into a fs d keep = (d', a', keep ++ rest) ∧ factor_ok a' ∧ Forall factor_ok rest ∧
    exprs a' ++ concat (map exprs rest) ≡ₚ exprs a ++ concat (map exprs fs) ∧ (length rest ≤ length fs)%nat ∧
    (∀ b, b ∈ rest → b ∈ fs) ∧
    (d' = true → d = true ∧ (∀ array i, touches a' array i → touches a array i) ∧ ∀ b, b ∈ rest → apart a' b) ∧
    (d' = false → d = false ∨ (length rest < length fs)%nat).
Proof.
  induction fs as [|b fs IH]; intros a d keep Ha Hok; simpl.
  { exists d, a, []. rewrite app_nil_r. split_and!; auto. intros ->. split_and!; auto. intros b H. by apply not_elem_of_nil in H. }
  apply Forall_cons in Hok as [Hb Hok]. destruct (ies_intersects a b) eqn:Ei.
  - pose proof (merged_ok a b Ha Hb) as Hm. destruct (add_spec b a (fo_wf _ Ha) (fo_wf _ Hb)) as (_ & He & Ht & Hf).
    destruct (ies_add b a) as [m a1]. simpl in Hm, He, Ht, Hf.
    destruct (IH a1 (d && negb m) keep Hm Hok) as (d' & a' & rest & -> & Ha' & Hr & Hp & Hl & Hin & Hd & Hd').
    exists d', a', rest. split_and!; [done | done | done | | lia | | |].
    + rewrite Hp, He, <-app_assoc. done.
    + intros x Hx. right. by apply Hin.
    + intros H. destruct (Hd H) as ([-> Hn%negb_true_iff]%andb_true_iff & Hs & Hap). split_and!; [done| |done].
      intros array i Htc. destruct (proj1 (Ht array i) (Hs array i Htc)); [done|]. by apply Hf.
    + intros _. right. lia.
  - destruct (IH a d (keep ++ [b]) Ha Hok) as (d' & a' & rest & -> & Ha' & Hr & Hp & Hl & Hin & Hd & Hd').
    exists d', a', (b :: rest). rewrite <-app_assoc. split_and!; [done | done | by constructor | | simpl; lia | | |]; simpl.
    + rewrite <-(Permutation_app_swap_app (exprs b)), Hp. by rewrite Permutation_app_swap_app.
    + intros x [->|Hx]%elem_of_cons; [left | right; by apply Hin].
    + intros H. destruct (Hd H) as (-> & Hs & Hap). split_and!; [done..|].
      intros x [->|Hx]%elem_of_cons; [|by apply Hap]. intros array i H1 H2.
      exact (apart_intersects a b Ha Hb Ei array i (Hs array i H1) H2).
    + intros H. destruct (Hd' H); [by left | right; lia].
Qed.

Definition all_apart (fs : list IndependentElementSet) : Prop := ForallOrdPairs apart fs.

Lemma merge_pass_spec fuel : ∀ fs d dones,
  Forall factor_ok fs → (length fs ≤ fuel)%nat →
  ∃ d' out, merge_pass fuel fs d dones = Ok (d', dones ++ out) ∧ Forall factor_ok out ∧
    concat (map exprs out) ≡ₚ concat (map exprs fs) ∧ (length out ≤ length fs)%nat ∧
    (∀ x, d' = true → (∀ b, b ∈ fs → apart x b) → ∀ b, b ∈ out → apart x b) ∧
    (d' = true → d = true ∧ all_apart out) ∧ (d' = false → d = false ∨ (length out < length fs)%nat).
Proof.
  induction fuel as [|fuel IH]; intros fs d dones Hok Hl.
  { destruct fs; [|simpl in Hl; lia]. exists d, []. rewrite app_nil_r. split_and!; auto. split; [done | constructor]. }
  destruct fs as [|a fs].
  { exists d, []. rewrite app_nil_r. split_and!; auto. split; [done | constructor]. }
  cbn [merge_pass]. apply Forall_cons in Hok as [Ha Hok].
  destruct (merge_into_spec fs a d [] Ha Hok) as (d1 & a1 & rest & -> & Ha1 & Hr & Hp & Hlr & Hin & Hd & Hd'). simpl.
  simpl in Hl. destruct (IH rest d1 (dones ++ [a1]) Hr ltac:(lia)) as (d2 & out & -> & Ho & Hpo & Hlo & Hx & Hdo & Hdo').
  exists d2, (a1 :: out). rewrite <-app_assoc. split_and!; [done | by constructor | | simpl; lia | | |]; simpl.
  - by rewrite Hpo, Hp.
  - intros x Ht Hap b [->|Hb]%elem_of_cons; [|].
    + destruct (Hdo Ht) as [H1 _]. destruct (Hd H1) as (_ & Hs & _). intros array i H1' H2'.
      exact (Hap a ltac:(left) array i H1' (Hs array i H2')).
    + apply Hx; [done | | done]. intros y Hy. apply Hap. right. by apply Hin.
  - intros Ht. destruct (Hdo Ht) as [H1 H2], (Hd H1) as (H3 & _ & H4). split; [done|]. constructor; [|done].
    apply list.Forall_forall. intros b Hb. by apply (Hx a1 Ht).
  - intros Hf. destruct (Hdo' Hf) as [H|H]; [|right; lia]. destruct (Hd' H); [by left | right; lia].
Qed.

Lemma merge_loop_spec fuel : ∀ fs,
  Forall factor_ok fs → (length fs < fuel)%nat →
  ∃ out, merge_loop fuel fs = Ok out ∧ Forall factor_ok out ∧ concat (map exprs out) ≡ₚ concat (map exprs fs) ∧ all_apart out.
Proof.
  induction fuel as [|fuel IH]; intros fs Hok Hl; [lia|]. cbn [merge_loop].
  destruct (merge_pass_spec (length fs) fs true [] Hok (le_n _)) as (d & out & -> & Ho & Hp & Hlo & _ & Hd & Hd').
  rewrite bind_Ok_l. simpl. destruct d; [exists out; split_and!; auto; by apply Hd|].
  destruct (Hd' eq_refl) as [?|Hlt]; [done|]. destruct (IH out Ho ltac:(lia)) as (out' & -> & ? & Hp' & ?).
  exists out'. split_and!; auto. by rewrite Hp'.
Qed.

(** The expressions a counterexample has to satisfy. *)
Definition to_satisfy q : list expr :=
  match as_constant (query q) with Some _ => constraints q | None => createIsZero (query q) :: constraints q end.

Lemma all_factors_spec q :
  (as_constant (query q) ≠ None → width (query q) = 1 ∧ as_constant (query q) = Some 0) →
  ∃ fs, getAllIndependentConstraintsSets q = Ok fs ∧ splits fs (to_satisfy q) ∧ all_apart fs.
Proof.
  intros Hc. unfold getAllIndependentConstraintsSets, to_satisfy.
  assert (∀ es, ∃ fs, (factors ← sets_of es; merge_loop (S (length factors)) factors) = Ok fs ∧ splits fs es ∧ all_apart fs) as H.
  { intros es. destruct (sets_of_spec es) as (fs & -> & [Hok Hp] & Hl). rewrite bind_Ok_l.
    destruct (merge_loop_spec (S (length fs)) fs Hok ltac:(lia)) as (out & -> & ? & Hp' & ?).
    exists out. split_and!; auto. split; [done|]. by rewrite Hp'. }
  destruct (as_constant (query q)) as [k|] eqn:E.
  - destruct Hc as [Hw [= ->]]; [done|]. rewrite get_width, Hw. cbn [cassert Z.eqb Pos.eqb andb]. rewrite !bind_Ok_l. apply H.
  - rewrite bind_Ok_l. apply H.
Qed.

(** ** Initial values *)

(** *** Entering the values of a factor *)

Lemma copy_elements_spec new l : ∀ data : list uchar,
  length data = length new → (∀ i, i ∈ l → 0 ≤ i < Z.of_nat (length new)) →
  ∃ data', for_each (copy_element new) data l = Ok data' ∧ length data' = length new ∧
    ∀ j : nat, data' !! j = if decide (Z.of_nat j ∈ l) then new !! j else data !! j.
Proof.
  induction l as [|i l IH]; intros data Hl Hin; cbn [for_each].
  { exists data. split_and!; [done..|]. intros j. by rewrite decide_False by apply not_elem_of_nil. }
  assert (0 ≤ i < Z.of_nat (length new)) as Hi by (apply Hin; left).
  destruct (lookup_lt_is_Some_2 new (Z.to_nat i)) as [x Hx]; [lia|].
  destruct (lookup_lt_is_Some_2 data (Z.to_nat i)) as [y Hy]; [lia|].
  assert (copy_element new data i = Ok (<[Z.to_nat i := x]> data)) as -> by (unfold copy_element; by rewrite Hx, Hy).
  rewrite bind_Ok_l.
  destruct (IH (<[Z.to_nat i := x]> data)) as (data' & -> & Hl' & Hd); [by rewrite length_insert | intros; apply Hin; by right|].
  exists data'. split_and!; [done..|]. intros j. rewrite Hd. destruct (decide (Z.of_nat j ∈ l)).
  - by rewrite decide_True by (by right).
  - destruct (decide (Z.to_nat i = j)) as [<-|Hne].
    + rewrite list_lookup_insert_eq by lia. rewrite decide_True; [by rewrite Hx|]. rewrite Z2Nat.id by lia. left.
    + rewrite list_lookup_insert_ne by done. rewrite decide_False; [done|]. intros [Hj|?]%elem_of_cons; [lia | done].
Qed.

(** The values of an array afterwards. *)
Definition merged_in a (m m' : bindings Array) (array : Array) (new : list uchar) : Prop :=
  ∃ ds, m' !! array = Some ds ∧ length ds = arr_size array ∧
    ∀ j : nat, ds !! j =
      if decide (is_Some (m !! array) ∧ ¬ Z.of_nat j ∈ default ∅ (ies_elements a !! array)) then m !! array ≫= (.!! j) else new !! j.

Lemma enter_spec a (m : bindings Array) array new :
  ies_wf a → (∀ ds, m !! array = Some ds → length ds = arr_size array) → length new = arr_size array →
  ∃ m', enter a m (array, new) = Ok m' ∧ merged_in a m m' array new ∧ ∀ array', array' ≠ array → m' !! array' = m !! array'.
Proof.
  intros Ha Hm Hn. unfold enter, merged_in. destruct (m !! array) as [data|] eqn:E.
  - specialize (Hm _ eq_refl). rewrite (proj2 (Nat.eqb_eq _ _)) by congruence. cbn [cassert]. rewrite bind_Ok_l.
    destruct (copy_elements_spec new (elements (default ∅ (ies_elements a !! array))) data) as (data' & -> & Hl & Hd);
      [congruence| |].
    { intros i Hi%elem_of_elements. rewrite Hn. destruct (ies_elements a !! array) as [d|] eqn:Ed; [|by apply elem_of_empty in Hi].
      exact (wf_in_array a Ha array d i Ed Hi). }
    rewrite bind_Ok_l. eexists. split_and!; [done| |intros array' Hne; by rewrite lookup_insert_ne by done].
    exists data'. split_and!; [by rewrite lookup_insert_eq | congruence|]. intros j. rewrite Hd. simpl.
    destruct (decide (Z.of_nat j ∈ elements _)) as [Hj|Hj]; rewrite elem_of_elements in Hj.
    + by rewrite decide_False by tauto.
    + by rewrite decide_True by (split; [by eexists | done]).
  - eexists. split_and!; [done| |intros array' Hne; by rewrite lookup_insert_ne by done].
    exists new. split_and!; [by rewrite lookup_insert_eq | done|]. intros j. rewrite decide_False; [done|]. by intros [[? ?] _].
Qed.

Lemma enter_all_spec a l : ∀ m : bindings Array,
  ies_wf a → NoDup l.*1 → (∀ array ds, m !! array = Some ds → length ds = arr_size array) →
  (∀ array new, (array, new) ∈ l → length new = arr_size array) →
  ∃ m', for_each (enter a) m l = Ok m' ∧ (∀ array new, (array, new) ∈ l → merged_in a m m' array new) ∧
    ∀ array, array ∉ l.*1 → m' !! array = m !! array.
Proof.
  induction l as [|[array new] l IH]; intros m Ha Hnd Hm Hl; cbn [for_each].
  { exists m. split_and!; [done | | done]. intros array new Hin. by apply not_elem_of_nil in Hin. }
  rewrite fmap_cons in Hnd. apply NoDup_cons in Hnd as [Hnotin Hnd]. simpl in Hnotin.
  destruct (enter_spec a m array new Ha (Hm array) (Hl array new ltac:(left))) as (m1 & -> & He & Hother). rewrite bind_Ok_l.
  destruct (IH m1 Ha Hnd) as (m2 & -> & Hent & Hrest); [| intros; apply Hl; by right |].
  { intros x ds Hx. destruct (decide (x = array)) as [->|Hne]; [|rewrite Hother in Hx by done; by eapply Hm].
    destruct He as (ds' & Hds & Hlen & _). congruence. }
  exists m2. split_and!; [done| |].
  - intros x n [[= -> ->]|Hin]%elem_of_cons.
    + destruct He as (ds & Hds & H'). exists ds. split; [|done]. by rewrite Hrest.
    + destruct (Hent x n Hin) as (ds & Hds & Hlen & Hj). exists ds. split_and!; [done..|]. intros j. rewrite Hj.
      rewrite Hother; [done|]. intros ->. apply Hnotin. apply list_elem_of_fmap. by exists (array, n).
  - intros x [Hne Hx]%not_elem_of_cons. rewrite Hrest by done. by apply Hother.
Qed.

Lemma array_references a array :
  array ∈ calculateArrayReferences a ↔ array ∈ wholeObjects a ∨ is_Some (ies_elements a !! array).
Proof. unfold calculateArrayReferences. rewrite elem_of_elements, elem_of_union, elem_of_dom. tauto. Qed.

Lemma touches_references a array i : touches a array i → array ∈ calculateArrayReferences a.
Proof. intros [?|(d & ? & ?)]; apply array_references; [by left | right; by eexists]. Qed.

Lemma references_touched a array : ies_wf a → array ∈ calculateArrayReferences a → ∃ i, touches a array i.
Proof.
  intros Ha [?|[d Hd]]%array_references; [exists 0; by left|]. destruct (wf_inhabited a Ha array d Hd) as [i Hi].
  exists i. right. eauto.
Qed.

(** *** The factors *)

(** [ps]: the factors solved so far, each with an assignment. *)
Record solved (ps : list (IndependentElementSet * assignment)) (m : bindings Array) : Prop := {
  so_size array ds : m !! array = Some ds → length ds = arr_size array;
  so_bytes f v array i : (f, v) ∈ ps → touches f array i → isConstantArray array = false → in_array array i →
    bound m array i = Some (byte v array i);
  so_origin array : is_Some (m !! array) → ∃ f v, (f, v) ∈ ps ∧ array ∈ calculateArrayReferences f;
  so_holds f v : (f, v) ∈ ps → ies_wf f ∧ holds v (exprs f);
}.

Lemma bound_lookup (m : bindings Array) array ds i : m !! array = Some ds → bound m array i = ds !! Z.to_nat i.
Proof. unfold bound. by intros ->. Qed.

Lemma zip_keys {A B} (l : list A) (k : list B) x : length l = length k → x ∈ l → ∃ y, (x, y) ∈ zip l k.
Proof.
  intros Hl Hin. assert (x ∈ (zip l k).*1) as H by (by rewrite fst_zip by lia).
  apply list_elem_of_fmap in H as ([x' y] & -> & ?). by exists y.
Qed.

Lemma zip_related {A B} (P : A → B → Prop) (l : list A) (k : list B) x y : Forall2 P l k → (x, y) ∈ zip l k → P x y.
Proof.
  induction 1 as [|a b l k Hab Hlk IH]; simpl; [intros H; by apply not_elem_of_nil in H|].
  by intros [[= -> ->]|?]%elem_of_cons; [|apply IH].
Qed.

Lemma enter_factor ps m f v values :
  solved ps m → factor_ok f → (∀ g u, (g, u) ∈ ps → apart g f) → holds v (exprs f) →
  Forall2 (λ o ds, length ds = arr_size o) (calculateArrayReferences f) values → values_of v (calculateArrayReferences f) values →
  ∃ m', for_each (enter f) m (zip (calculateArrayReferences f) values) = Ok m' ∧ solved ((f, v) :: ps) m'.
Proof.
  intros [Hsz Hby Hor Hho] Hf Hap Hv Hlen Hval. pose proof (Forall2_length _ _ _ Hlen) as Hl.
  destruct (enter_all_spec f (zip (calculateArrayReferences f) values) m) as (m' & Hm' & Hent & Hrest);
    [apply Hf | rewrite fst_zip by lia; apply NoDup_elements | done | |].
  { intros array new Hin. exact (zip_related _ _ _ array new Hlen Hin). }
  rewrite fst_zip in Hrest by lia. exists m'. split; [done|].
  assert (∀ array, array ∈ calculateArrayReferences f → ∃ new, (array, new) ∈ zip (calculateArrayReferences f) values ∧ merged_in f m m' array new) as Hent'.
  { intros array Hin. destruct (zip_keys (calculateArrayReferences f) values array Hl Hin) as [new Hnew]. eauto. }
  split.
  - intros array ds Hds. destruct (decide (array ∈ calculateArrayReferences f)) as [Hin|Hn].
    + destruct (Hent' array Hin) as (new & _ & ds' & Hds' & Hlen' & _). congruence.
    + rewrite Hrest in Hds by done. by eapply Hsz.
  - intros g u array i [[= -> ->]|Hin]%elem_of_cons Ht Hc Hi; unfold in_array in Hi.
    + destruct (Hent' array (touches_references _ _ _ Ht)) as (new & Hnew & ds & Hds & _ & Hj).
      rewrite (bound_lookup _ _ _ _ Hds), Hj, decide_False.
      * rewrite (Hval array new Hnew Hc) by lia. by rewrite Z2Nat.id by lia.
      * rewrite Z2Nat.id by lia. intros [Hsome Hni]. destruct Ht as [Hw|(d & Hd & ?)]; [|by rewrite Hd in Hni].
        destruct (Hor array Hsome) as (g & w & Hg & Hga). destruct (references_touched g array) as [k Hk]; [by eapply Hho | done|].
        exact (Hap g w Hg array k Hk (or_introl Hw)).
    + pose proof (Hby g u array i Hin Ht Hc Hi) as Hb. destruct (decide (array ∈ calculateArrayReferences f)) as [Hr|Hn].
      2:{ unfold bound in *. by rewrite Hrest. }
      destruct (Hent' array Hr) as (new & Hnew & ds & Hds & _ & Hj). rewrite (bound_lookup _ _ _ _ Hds), Hj, decide_True; [exact Hb|].
      unfold bound in Hb. destruct (m !! array) as [ds0|]; [|done]. split; [by eexists|]. rewrite Z2Nat.id by lia.
      intros Hd. apply (Hap g u Hin array i Ht). right. destruct (ies_elements f !! array) as [d|]; [eauto | by apply elem_of_empty in Hd].
  - intros array Hs. destruct (decide (array ∈ calculateArrayReferences f)) as [Hr|Hn]; [exists f, v; split; [left | done]|].
    rewrite Hrest in Hs by done. destruct (Hor array Hs) as (g & u & ? & ?). exists g, u. split; [by right | done].
  - intros g u [[= -> ->]|Hin]%elem_of_cons; [split; [apply Hf | done] | by eapply Hho].
Qed.

Context (I : SolverImpl) (inv : si_state I → Prop) (HI : values_ok I inv).
Implicit Types (s : si_state I).

Abbreviation factor_query f := {| constraints := exprs f; query := constant 0 1 |}.

Lemma factor_askable f :
  factor_ok f → (∀ e k, e ∈ exprs f → as_constant e = Some k → k ≠ 0) → askable (factor_query f) (calculateArrayReferences f).
Proof.
  intros [_ Ht _] Hk. split; simpl.
  - by apply width_const.
  - right. by apply as_constant_const.
  - done.
  - intros e array i [->|He]%elem_of_cons Hr _.
    + rewrite (reads_constant _ 0) in Hr by (by apply as_constant_const). destruct Hr as (re & Hre & _). by apply not_elem_of_nil in Hre.
    + eapply touches_references, Ht. eauto.
Qed.

(** What is known after the loop. *)
Definition factors_right (fs : list IndependentElementSet) (ps : list (IndependentElementSet * assignment)) (r : option (bindings Array)) : Prop :=
  match r with
  | None => ∃ f, f ∈ fs ∧ ∀ v, ¬ holds v (exprs f)
  | Some m => ∃ ps', solved ps' m ∧ (∀ p, p ∈ ps → p ∈ ps') ∧
      ∀ f, f ∈ fs → calculateArrayReferences f = [] ∨ ∃ v, (f, v) ∈ ps'
  end.

Lemma factors_right_cons f fs ps ps' r :
  factors_right fs ps' r → (∀ p, p ∈ ps → p ∈ ps') → calculateArrayReferences f = [] ∨ (∃ v, (f, v) ∈ ps') →
  factors_right (f :: fs) ps r.
Proof.
  intros Hr Hsub Hf. destruct r as [m|]; simpl in *.
  - destruct Hr as (ps'' & Hs & Hsub' & Hall). exists ps''. split_and!; [done | auto|].
    intros g [->|Hg]%elem_of_cons; [|by apply Hall]. destruct Hf as [?|[v ?]]; [by left | right; eauto].
  - destruct Hr as (g & Hg & Hn). exists g. split; [by right | done].
Qed.

Lemma solve_factors_ok fs : ∀ ps m s,
  Forall factor_ok fs → all_apart fs → (∀ f g u, f ∈ fs → (g, u) ∈ ps → apart g f) → solved ps m →
  (∀ f e k, f ∈ fs → e ∈ exprs f → as_constant e = Some k → k ≠ 0) → inv s →
  delivers inv (factors_right fs ps) (solve_factors I fs m s).
Proof.
  induction fs as [|f fs IH]; intros ps m s Hok Hpair Hap Hs Hk Hi; cbn [solve_factors].
  { apply delivers_some; [done|]. exists ps. split_and!; auto. intros f Hf. by apply not_elem_of_nil in Hf. }
  apply Forall_cons in Hok as [Hf Hok]. inversion Hpair as [|? ? Hhead Hpair']; subst.
  assert (Nat.eqb (length (exprs f)) 0 = false) as ->.
  { apply Nat.eqb_neq. intros Hl%nil_length_inv. by apply (fo_exprs _ Hf). }
  cbn [negb cassert]. rewrite bind_Ok_l. destruct (Nat.eqb_spec (length (calculateArrayReferences f)) 0) as [Hz|Hz].
  - eapply delivers_weaken; [apply (IH ps m s); auto; [intros; eapply Hap; [by right | done] | intros; eapply Hk; [by right | done..]]|].
    intros r Hr. apply (factors_right_cons f fs ps ps r Hr); [done|]. left. by apply nil_length_inv.
  - eapply delivers_bind; [apply HI; [apply factor_askable; [done | intros; eapply Hk; [left | done..]] | done]|by intros; apply delivers_none|].
    intros [values|] s1 Hs1 Hr; simpl in Hr.
    + destruct Hr as (Hlen & v & Hv & _ & Hval). rewrite (proj2 (Nat.eqb_eq _ _)) by (by rewrite (Forall2_length _ _ _ Hlen)).
      cbn [cassert]. rewrite bind_Ok_l.
      destruct (enter_factor ps m f v values) as (m' & -> & Hs'); [done | done | intros; eapply Hap; [left | done] | done..|].
      rewrite bind_Ok_l. eapply delivers_weaken; [apply (IH ((f, v) :: ps) m' s1); auto|].
      * intros g h u Hg [[= -> ->]|Hh]%elem_of_cons; [exact (proj1 (list.Forall_forall _ _) Hhead _ Hg)|].
        eapply Hap; [by right | done].
      * intros; eapply Hk; [by right | done..].
      * intros r Hr. apply (factors_right_cons f fs ps ((f, v) :: ps) r Hr); [by right | right; exists v; left].
    + apply delivers_some; [done|]. exists f. split; [left|]. intros v Hv. specialize (Hr v Hv). unfold true_in in Hr. simpl in Hr.
      by rewrite eval_const in Hr.
Qed.

(** *** The point *)

Lemma to_satisfy_constraints q c : c ∈ constraints q → c ∈ to_satisfy q.
Proof. unfold to_satisfy. destruct (as_constant (query q)); [done | by right]. Qed.

(** The counterexamples are the assignments that satisfy these
    expressions. *)
Lemma to_satisfy_holds q objects v :
  askable q objects → holds v (to_satisfy q) ↔ holds v (constraints q) ∧ true_in v (query q) = false.
Proof.
  intros [_ Hc _ _]. unfold to_satisfy, true_in. rewrite negb_false_iff, Z.eqb_eq. destruct Hc as [Hc|Hc]; rewrite Hc.
  - unfold holds. setoid_rewrite elem_of_cons. split.
    + intros H. split; [auto|]. specialize (H _ (or_introl eq_refl)). rewrite eval_is_zero in H.
      by destruct (Z.eqb_spec (eval v (query q)) 0).
    + intros [H1 H2] c [->|Hin]; [|auto]. by rewrite eval_is_zero, H2.
  - pose proof (eval_constant v _ 0 Hc). tauto.
Qed.

Lemma to_satisfy_nonfalse q objects e k : askable q objects → e ∈ to_satisfy q → as_constant e = Some k → k ≠ 0.
Proof.
  intros [Hw Hc Hk _]. unfold to_satisfy. destruct (as_constant (query q)) as [k'|] eqn:E; [apply Hk|].
  intros [->|He]%elem_of_cons; [|by apply Hk]. by rewrite is_zero_symbolic.
Qed.

Lemma elem_concat {A B} (f : A → list B) l x : x ∈ concat (map f l) ↔ ∃ y, y ∈ l ∧ x ∈ f y.
Proof.
  rewrite list_elem_of_In, in_concat. split.
  - intros (k & (y & <- & Hy)%in_map_iff & Hx). exists y. by rewrite !list_elem_of_In.
  - intros (y & Hy & Hx). exists (f y). rewrite in_map_iff, <-!list_elem_of_In. split; [|done]. exists y. by rewrite <-list_elem_of_In.
Qed.

(** The bytes of the result. *)
Definition point (m : bindings Array) (v : assignment) : Prop :=
  ∀ array i, isConstantArray array = false → in_array array i → byte v array i = default x00 (bound m array i).

Lemma point_exists m : ∃ v, point m v.
Proof. destruct (assigned (λ array i, default x00 (bound m array i))) as [v Hv]. by exists v. Qed.

Section point.
Context q (objects : list Array) (Hq : askable q objects) (fs : list IndependentElementSet) (Hsp : splits fs (to_satisfy q)).
Context ps (m : bindings Array) (Hs : solved ps m) (v : assignment) (Hv : point m v).
Context (Hall : ∀ f, f ∈ fs → calculateArrayReferences f = [] ∨ ∃ u, (f, u) ∈ ps).

Lemma factor_of e : e ∈ to_satisfy q → ∃ f, f ∈ fs ∧ factor_ok f ∧ e ∈ exprs f.
Proof.
  destruct Hsp as [Hok Hp]. rewrite <-Hp, elem_concat. intros (f & Hf & He).
  exists f. split_and!; [done | exact (proj1 (list.Forall_forall _ _) Hok _ Hf) | done].
Qed.

(** The touched bytes are bound. *)
Lemma point_bound e array i :
  e ∈ to_satisfy q → reads_at (findReads e) array i → isConstantArray array = false → in_array array i →
  bound m array i = Some (byte v array i).
Proof.
  intros He Ht Hc Hi. destruct (factor_of e He) as (f & Hf & Hok & Hef).
  assert (touches f array i) as Htf by (apply fo_touches; eauto).
  destruct (Hall f Hf) as [Hnil|[u Hu]].
  { apply touches_references in Htf. rewrite Hnil in Htf. by apply not_elem_of_nil in Htf. }
  pose proof (so_bytes _ _ Hs f u array i Hu Htf Hc Hi) as Hb. rewrite Hb. f_equal. rewrite (Hv array i Hc Hi), Hb. done.
Qed.

Lemma point_holds : holds v (to_satisfy q).
Proof.
  intros e He. destruct (factor_of e He) as (f & Hf & Hok & Hef). destruct (Hall f Hf) as [Hnil|[u Hu]].
  - destruct (as_constant e) as [k|] eqn:E.
    + rewrite (eval_constant v e k E). by eapply to_satisfy_nonfalse.
    + exfalso. apply (folded e); [|done]. intros array i Ht. assert (touches f array i) as Htf by (apply fo_touches; eauto).
      apply touches_references in Htf. rewrite Hnil in Htf. by apply not_elem_of_nil in Htf.
  - rewrite (eval_reads v u e); [by eapply (so_holds _ _ Hs)|]. intros array i Ht Hi. destruct (isConstantArray array) eqn:Hc; [by apply byte_constant|].
    rewrite (Hv array i Hc Hi), (so_bytes _ _ Hs f u array i Hu); [done | apply fo_touches; eauto | done..].
Qed.

Definition point_values : list (list uchar) := map (λ arr, default (replicate (arr_size arr) x00) (m !! arr)) objects.

Lemma point_values_elem o ds : (o, ds) ∈ zip objects point_values → ds = default (replicate (arr_size o) x00) (m !! o).
Proof.
  unfold point_values. clear Hq. induction objects as [|o' l IH]; simpl; [intros H; by apply not_elem_of_nil in H|].
  intros [[= -> ->]|H]%elem_of_cons; [done | by apply IH].
Qed.

Lemma point_values_of : values_of v objects point_values.
Proof.
  intros o ds Hin Hc i Hi. rewrite (point_values_elem o ds Hin). rewrite (Hv o (Z.of_nat i) Hc) by (unfold in_array; lia).
  unfold bound. rewrite Nat2Z.id. destruct (m !! o) as [d|] eqn:E; simpl.
  - destruct (lookup_lt_is_Some_2 d i) as [x Hx]; [by rewrite (so_size _ _ Hs o d E)|]. by rewrite Hx.
  - by apply lookup_replicate_2.
Qed.

Lemma point_sizes : Forall2 (λ o ds, length ds = arr_size o) objects point_values.
Proof.
  unfold point_values. clear Hq. induction objects as [|o l IH]; simpl; constructor; [|done].
  destruct (m !! o) as [d|] eqn:E; simpl; [by eapply so_size | apply length_replicate].
Qed.

(** The created point evaluates to what [v] does. *)
Lemma point_evaluates e :
  (∀ array i, reads_at (findReads e) array i → ∃ e', e' ∈ to_satisfy q ∧ reads_at (findReads e') array i) →
  as_constant (evaluate true (assignment_of objects point_values ∪ m) e) = Some (eval v e).
Proof.
  intros He. apply evaluated. intros array i Ht Hc Hi. destruct (He array i Ht) as (e' & He' & Ht').
  pose proof (point_bound e' array i He' Ht' Hc Hi) as Hb. destruct (m !! array) as [d|] eqn:E; [|unfold bound in Hb; by rewrite E in Hb].
  assert (bound (assignment_of objects point_values ∪ m) array i = Some (byte v array i)) as ->; [|done].
  rewrite <-Hb. unfold bound. rewrite lookup_union, E. destruct (assignment_of objects point_values !! array) as [d'|] eqn:E'; [|done].
  destruct (assignment_of_spec objects point_values) as [H1 _]; [unfold point_values; by rewrite length_map|].
  apply H1, point_values_elem in E' as ->. by rewrite E.
Qed.

Lemma created_point : assertCreatedPointEvaluatesToTrue q objects point_values m = Ok true.
Proof.
  pose proof point_holds as Hh. apply (to_satisfy_holds q objects v Hq) in Hh as [Hcs Hf].
  unfold assertCreatedPointEvaluatesToTrue. set (assign := assignment_of objects point_values ∪ m).
  assert (∀ cs, (∀ c, c ∈ cs → c ∈ constraints q) → constraints_true assign cs = Ok true) as Htrue.
  { induction cs as [|c cs IH]; intros Hsub; cbn [constraints_true]; [done|]. unfold evaluated_constant, assign.
    assert (c ∈ constraints q) as Hc by (apply Hsub; left).
    rewrite point_evaluates by (intros array i Ht; exists c; split; [by apply to_satisfy_constraints | done]).
    rewrite bind_Ok_l. unfold isFalse. specialize (Hcs c Hc). destruct (Z.eqb_spec (eval v c) 0); [done|]. rewrite andb_false_r.
    apply IH. intros; apply Hsub; by right. }
  rewrite Htrue by done. rewrite bind_Ok_l. cbn [negb]. unfold evaluated_constant, assign. rewrite point_evaluates.
  - rewrite bind_Ok_l. f_equal. unfold isTrue. rewrite get_width, width_evaluated, width_is_zero, eval_is_zero. simpl.
    unfold true_in in Hf. apply negb_false_iff in Hf. by rewrite Hf.
  - intros array i Ht. destruct (ak_constant _ _ Hq) as [Hc|Hc].
    + exists (createIsZero (query q)). split; [|done]. unfold to_satisfy. rewrite Hc. left.
    + apply (proj1 (reads_is_zero _ _ _ (ak_bool _ _ Hq))) in Ht. rewrite (reads_constant _ 0 Hc) in Ht. destruct Ht as (re & Hre & _). by apply not_elem_of_nil in Hre.
Qed.
End point.

Lemma independent_initial_ok : values_ok (IndependentSolver I) inv.
Proof.
  intros q objects s Hq Hs. simpl. unfold independent_initial.
  destruct (all_factors_spec q) as (fs & -> & Hsp & Hap).
  { intros Hc. split; [apply Hq|]. by destruct (ak_constant _ _ Hq). }
  rewrite bind_Ok_l. pose proof Hsp as [Hok Hp].
  assert (∀ f e, f ∈ fs → e ∈ exprs f → e ∈ to_satisfy q) as Hin.
  { intros f e Hf He. rewrite <-Hp. apply elem_concat. eauto. }
  eapply delivers_bind.
  - apply (solve_factors_ok fs [] ∅ s); [done | done | intros f g u _ H; by apply not_elem_of_nil in H | | | done].
    + split.
      * intros array ds H. by rewrite lookup_empty in H.
      * intros f v array i H. by apply not_elem_of_nil in H.
      * intros array [ds H]. by rewrite lookup_empty in H.
      * intros f v H. by apply not_elem_of_nil in H.
    + intros f e k Hf He. eapply to_satisfy_nonfalse; [done|]. by eapply Hin.
  - intros; by apply delivers_none.
  - intros [m|] s1 Hs1 Hr; simpl in Hr.
    + destruct Hr as (ps & Hsol & _ & Hall). destruct (point_exists m) as [v Hv].
      cbn zeta. change (map _ objects) with (point_values objects m).
      rewrite (created_point q objects Hq fs Hsp ps m Hsol v Hv Hall), bind_Ok_l. cbn [cassert]. rewrite bind_Ok_l.
      apply delivers_some; [done|]. split; [by eapply point_sizes|]. exists v.
      pose proof (point_holds q objects Hq fs Hsp ps m Hsol v Hv Hall) as Hh.
      apply (to_satisfy_holds q objects v Hq) in Hh as [? ?]. split_and!; [done..|]. by eapply point_values_of.
    + apply delivers_some; [done|]. destruct Hr as (f & Hf & Hn). intros v Hv. apply not_false_iff_true. intros Ht.
      apply (Hn v). intros e He. apply (proj2 (to_satisfy_holds q objects v Hq) (conj Hv Ht)). by eapply Hin.
Qed.
End factors.
