(* ===== verification/MapOfSets.v ===== *)
(** * Maps from sets

    include/klee/Internal/ADT/MapOfSets.h: a trie over the sorted elements of
    the sets, with searches for subsets and supersets of a set. A
    [std::set<K>] is the strictly sorted list of its elements. *)

From stdpp Require Import base tactics list sorting.
From S2P Require Import Prelude StdMap.

Section MapOfSets.
Context {K V : Type} `{StdLessLaws K} `{!Inhabited V}.
Implicit Types (k x : K) (s l : list K) (v : V) (p : V → bool).

(** ** Operations *)

Inductive Node := mkNode (value : V) (isEndOfSet : bool) (children : list (K * Node)).

Definition node_value (n : Node) : V := let '(mkNode v _ _) := n in v.
Definition isEndOfSet (n : Node) : bool := let '(mkNode _ e _) := n in e.
Definition children (n : Node) : smap K Node := let '(mkNode _ _ ch) := n in ch.

(** [Node()], which is also the root of an empty map. *)
Definition new_trie : Node := mkNode inhabitant false [].

Fixpoint mos_insert (set : list K) (value : V) (n : Node) : Node :=
  match set with
  | [] => mkNode value true (children n)
  | element :: set =>
      let n' := default new_trie (smap_find element (children n)) in
      mkNode (node_value n) (isEndOfSet n) (smap_set element (mos_insert set value n') (children n))
  end.

Fixpoint mos_lookup (set : list K) (n : Node) : option V :=
  match set with
  | [] => if isEndOfSet n then Some (node_value n) else None
  | element :: set =>
      match smap_find element (children n) with
      | Some n' => mos_lookup set n'
      | None => None
      end
  end.

(** The elements from the first that is not below [k]. *)
Fixpoint not_below (k : K) (l : list K) : list K :=
  match l with
  | [] => []
  | x :: l' => if std_less x k then not_below k l' else l
  end.

(** The loops of [findSubset] and [findSuperset], over the children of a
    node; [find] is the recursive call. *)
Section loops.
Context (find : Node → list K → option V).

(** Walks along the children and the set, whose first element is [*it]. A
    child below [*it] is passed over, by [lower_bound] at first and by the
    last inner loop later. *)
Fixpoint subset_loop (children : list (K * Node)) (set : list K) : option V :=
  match children, set with
  | (k, child) :: children', it :: _ =>
      if std_less k it then subset_loop children' set
      else match not_below k set with
      | [] => None
      | it :: set' =>
          if std_less k it then subset_loop children' (it :: set')
          else
            match find child set' with
            | Some res => Some res
            | None => match set' with [] => None | _ :: _ => subset_loop children' set' end
            end
      end
  | _, _ => None
  end.

Fixpoint first_child (set : list K) (children : list (K * Node)) : option V :=
  match children with
  | [] => None
  | (_, child) :: children' =>
      match find child set with Some res => Some res | None => first_child set children' end
  end.

(** The child that [lower_bound] finds, if its key is [begin]. *)
Fixpoint mid_child (begin : K) (next : list K) (children : list (K * Node)) : option V :=
  match children with
  | [] => None
  | (k, child) :: children' =>
      if std_less k begin then mid_child begin next children'
      else if std_less begin k then None
      else find child next
  end.
End loops.

Fixpoint findSubset (p : V → bool) (n : Node) (set : list K) {struct n} : option V :=
  let '(mkNode value isEndOfSet children) := n in
  if isEndOfSet && p value then Some value
  else subset_loop (findSubset p) children set.

(** All the children are searched for the whole set, those after [begin]
    too. *)
Fixpoint findSuperset (p : V → bool) (n : Node) (set : list K) {struct n} : option V :=
  let '(mkNode value isEndOfSet children) := n in
  match set with
  | [] => if isEndOfSet && p value then Some value else first_child (findSuperset p) [] children
  | begin :: next =>
      match first_child (findSuperset p) set children with
      | Some res => Some res
      | None => mid_child (findSuperset p) begin next children
      end
  end.

(** ** Well-formed maps *)

Inductive node_wf : Node → Prop :=
  | node_wf_intro v e ch : smap_sorted ch → Forall (λ c : K * Node, node_wf c.2) ch → node_wf (mkNode v e ch).

Definition sorted_set (s : list K) : Prop := StronglySorted (λ a b, std_less a b = true) s.

Lemma new_trie_wf : node_wf new_trie.
Proof. constructor; [apply smap_sorted_nil | constructor]. Qed.

Lemma child_wf n k c : node_wf n → smap_find k (children n) = Some c → node_wf c.
Proof.
  intros Hn Hf. destruct Hn as [v e ch Hs Hall]. apply smap_elem_find in Hf; [|done].
  exact (proj1 (list.Forall_forall _ _) Hall _ Hf).
Qed.

Lemma insert_wf s v : ∀ n, node_wf n → node_wf (mos_insert s v n).
Proof.
  induction s as [|k s IH]; intros n Hn; simpl; [destruct Hn; by constructor|].
  assert (node_wf (default new_trie (smap_find k (children n)))) as Hc.
  { destruct (smap_find k (children n)) as [c|] eqn:E; simpl; [by eapply child_wf | apply new_trie_wf]. }
  apply IH in Hc. destruct Hn as [v' e ch Hs Hall]. simpl in *. constructor; [by apply smap_set_sorted|].
  apply list.Forall_forall. intros [k' c'] Hin. simpl. apply smap_elem_find in Hin; [|by apply smap_set_sorted].
  destruct (less_cases k k') as [(<- & _ & _)|Hk]; [rewrite smap_find_set_eq in Hin; congruence|].
  rewrite smap_find_set_ne in Hin by tauto. apply smap_elem_find in Hin; [|done].
  exact (proj1 (list.Forall_forall _ _) Hall _ Hin).
Qed.

(** ** Insertion and lookup *)

Lemma lookup_new s : mos_lookup s new_trie = None.
Proof. by destruct s. Qed.

Lemma lookup_default k s n :
  mos_lookup (k :: s) n = mos_lookup s (default new_trie (smap_find k (children n))).
Proof. simpl. destruct (smap_find k (children n)); [done|]. by rewrite lookup_new. Qed.

Lemma lookup_insert_spec s v : ∀ n s',
  (s' = s → mos_lookup s' (mos_insert s v n) = Some v) ∧
  (s' ≠ s → mos_lookup s' (mos_insert s v n) = mos_lookup s' n).
Proof.
  induction s as [|k s IH]; intros n s'.
  - destruct n as [v' e ch]. destruct s' as [|k' s']; simpl; done.
  - destruct s' as [|k' s']; [by destruct n|].
    assert (mos_lookup (k' :: s') (mos_insert (k :: s) v n) =
      match smap_find k' (smap_set k (mos_insert s v (default new_trie (smap_find k (children n)))) (children n)) with
      | Some c => mos_lookup s' c | None => None end) as -> by done.
    destruct (less_cases k k') as [(-> & _ & _)|Hk].
    + rewrite smap_find_set_eq. destruct (IH (default new_trie (smap_find k' (children n))) s') as [H1 H2].
      rewrite lookup_default. split; [intros [= ->]; auto | intros Hne; apply H2; congruence].
    + assert (k ≠ k') by tauto. rewrite smap_find_set_ne by done. split; [congruence | done].
Qed.

Lemma list_less_dec s s' : {s = s'} + {s ≠ s'}.
Proof.
  refine (list_eq_dec s s'). intros x y. destruct (std_less x y) eqn:E1; [right; by apply less_ne|].
  destruct (std_less y x) eqn:E2; [right; intros ->; by rewrite less_irrefl in E2 | left; by apply less_total].
Defined.

(** ** Subsets *)

Lemma Node_ind' (P : Node → Prop) :
  (∀ v e ch, Forall (λ c : K * Node, P c.2) ch → P (mkNode v e ch)) → ∀ n, P n.
Proof.
  intros HP. fix IH 1. intros [v e ch]. apply HP. induction ch as [|[k c] ch IHch]; constructor; [apply IH | exact IHch].
Qed.

Lemma not_below_sublist k l : sublist (not_below k l) l.
Proof. induction l as [|x l IH]; simpl; [done|]. destruct (std_less x k); [by apply sublist_cons | done]. Qed.

Lemma not_below_sorted k l : sorted_set l → sorted_set (not_below k l).
Proof. intros Hs. induction Hs as [|x l Hs IH Hall]; simpl; [constructor|]. destruct (std_less x k); [done | by constructor]. Qed.

(** Nothing is lost for keys that are not below [k]. *)
Lemma not_below_keeps k k' s l :
  std_less k' k = false → sublist (k' :: s) l → sublist (k' :: s) (not_below k l).
Proof.
  intros Hk. induction l as [|x l IH]; simpl; [done|]. intros Hs. destruct (std_less x k) eqn:E; [|done].
  apply IH. apply sublist_cons_r in Hs as [?|(s' & [= <- <-] & _)]; [done|]. congruence.
Qed.

Lemma sorted_head k x l s : sorted_set (x :: l) → std_less k x = true → ¬ sublist (k :: s) (x :: l).
Proof.
  intros Hs Hk Hsub. apply StronglySorted_inv in Hs as [_ Hall].
  assert (k ∈ x :: l) as [->|Hin]%elem_of_cons; [|by rewrite less_irrefl in Hk|].
  { eapply elem_of_submseteq; [|by apply sublist_submseteq]. left. }
  pose proof (proj1 (list.Forall_forall _ _) Hall k Hin) as Hxk. simpl in Hxk.
  pose proof (less_trans _ _ _ Hk Hxk) as Hc. by rewrite less_irrefl in Hc.
Qed.

Lemma not_below_head k l x l' : not_below k l = x :: l' → std_less x k = false.
Proof. induction l as [|y l IH]; simpl; [done|]. destruct (std_less y k) eqn:E; [done|]. by intros [= <- _]. Qed.

(** A later key is not the first element. *)
Lemma sublist_later k k' s l : std_less k k' = true → sublist (k' :: s) (k :: l) → sublist (k' :: s) l.
Proof. intros Hk [?|(s' & [= <- <-] & _)]%sublist_cons_r; [done|]. by rewrite less_irrefl in Hk. Qed.

Lemma sublist_uncons k s l : sublist (k :: s) (k :: l) → sublist s l.
Proof.
  intros [Hs|(s' & [= <-] & ?)]%sublist_cons_r; [|done]. trans (k :: s); [by apply sublist_cons | done].
Qed.

Section subset_loop.
Context (find : Node → list K → option V) (p : V → bool).

(** What a search promises for a node. *)
Definition subset_right (n : Node) : Prop := ∀ set, sorted_set set →
  match find n set with
  | Some v => ∃ s, mos_lookup s n = Some v ∧ p v = true ∧ sublist s set
  | None => ∀ s v, mos_lookup s n = Some v → sublist s set → p v = false
  end.

Lemma subset_loop_right ch : ∀ set,
  smap_sorted ch → Forall (λ c : K * Node, subset_right c.2) ch → sorted_set set →
  match subset_loop find ch set with
  | Some v => ∃ k c s, (k, c) ∈ ch ∧ mos_lookup s c = Some v ∧ p v = true ∧ sublist (k :: s) set
  | None => ∀ k c s v, (k, c) ∈ ch → mos_lookup s c = Some v → sublist (k :: s) set → p v = false
  end.
Proof.
  induction ch as [|[k c] ch IH]; intros set Hch Hall Hset; simpl.
  { intros k c s v Hin. by apply not_elem_of_nil in Hin. }
  apply Forall_cons in Hall as [Hc Hall]. apply StronglySorted_inv in Hch as [Hch Hgt].
  assert (∀ k' c', (k', c') ∈ ch → std_less k k' = true) as Hgt'.
  { intros k' c' Hin. exact (proj1 (list.Forall_forall _ _) Hgt _ Hin). }
  destruct set as [|it set]; [intros k1 c1 s v _ _ Hs; by apply sublist_nil_r in Hs|].
  destruct (std_less k it) eqn:Hki.
  { specialize (IH (it :: set) Hch Hall Hset). destruct (subset_loop find ch (it :: set)) as [v|].
    - destruct IH as (k1 & c1 & s & H1 & H2). exists k1, c1, s. split; [by right | done].
    - intros k1 c1 s v [[= -> ->]|Hin]%elem_of_cons Hl Hs; [by apply sorted_head in Hs | by eapply IH]. }
  pose proof (not_below_sublist k (it :: set)) as Hnb. pose proof (not_below_sorted k _ Hset) as Hnbs.
  assert (∀ k1 c1 s, (k1, c1) ∈ (k, c) :: ch → sublist (k1 :: s) (it :: set) → sublist (k1 :: s) (not_below k (it :: set))) as Hkeep.
  { intros k1 c1 s [[= -> ->]|Hin]%elem_of_cons Hs; (apply not_below_keeps; [|done]); [apply less_irrefl|].
    eapply less_asym, Hgt', Hin. }
  destruct (not_below k (it :: set)) as [|it' set'] eqn:Enb.
  { intros k1 c1 s v Hin _ Hs. apply Hkeep with (c1 := c1) in Hs; [|done]. by apply sublist_nil_r in Hs. }
  destruct (std_less k it') eqn:Hki'.
  { specialize (IH (it' :: set') Hch Hall Hnbs). destruct (subset_loop find ch (it' :: set')) as [v|].
    - destruct IH as (k1 & c1 & s & H1 & H2 & H3 & H4). exists k1, c1, s. split_and!; [by right | done | done | by trans (it' :: set')].
    - intros k1 c1 s v Hin Hl Hs. apply Hkeep with (c1 := c1) in Hs; [|done].
      apply elem_of_cons in Hin as [[= -> ->]|Hin]; [by apply sorted_head in Hs | by eapply IH]. }
  assert (it' = k) as -> by (apply less_total; [by eapply not_below_head | done]).
  pose proof Hnbs as Hset'. apply StronglySorted_inv in Hset' as [Hset' _].
  specialize (Hc set' Hset'). simpl in Hc. destruct (find c set') as [v|].
  { destruct Hc as (s & Hl & Hp & Hs). exists k, c, s. split_and!; [left | done | done|]. trans (k :: set'); [|done]. by apply sublist_skip. }
  assert (∀ k1 c1 s, (k1, c1) ∈ ch → sublist (k1 :: s) (k :: set') → sublist (k1 :: s) set') as Hlater.
  { intros k1 c1 s Hin. apply sublist_later. by eapply Hgt'. }
  assert (∀ s v, mos_lookup s c = Some v → sublist (k :: s) (k :: set') → p v = false) as Hhere.
  { intros s v Hl Hs. apply (Hc s v Hl). by eapply sublist_uncons. }
  destruct set' as [|x set'].
  { intros k1 c1 s v Hin Hl Hs. apply Hkeep with (c1 := c1) in Hs; [|done].
    apply elem_of_cons in Hin as [[= -> ->]|Hin]; [by eapply Hhere|]. apply Hlater with (c1 := c1) in Hs; [|done]. by apply sublist_nil_r in Hs. }
  specialize (IH (x :: set') Hch Hall Hset'). destruct (subset_loop find ch (x :: set')) as [v|].
  - destruct IH as (k1 & c1 & s & H1 & H2 & H3 & H4). exists k1, c1, s. split_and!; [by right | done | done|].
    trans (k :: x :: set'); [by apply sublist_cons | done].
  - intros k1 c1 s v Hin Hl Hs. apply Hkeep with (c1 := c1) in Hs; [|done].
    apply elem_of_cons in Hin as [[= -> ->]|Hin]; [by eapply Hhere|]. eapply IH; [done | done|]. by eapply Hlater.
Qed.
End subset_loop.

(** The value of a subset that satisfies [p] is found, if there is one. *)
Lemma findSubset_spec p n set :
  node_wf n → sorted_set set →
  match findSubset p n set with
  | Some v => ∃ s, mos_lookup s n = Some v ∧ p v = true ∧ sublist s set
  | None => ∀ s v, mos_lookup s n = Some v → sublist s set → p v = false
  end.
Proof.
  revert set. induction n as [v e ch IH] using Node_ind'. intros set Hwf Hset. cbn [findSubset].
  inversion Hwf as [v' e' ch' Hs Hch]; subst. destruct (e && p v) eqn:E.
  { apply andb_true_iff in E as [-> Hp]. exists []. split_and!; [done | done | apply sublist_nil_l]. }
  assert (Forall (λ c : K * Node, subset_right (findSubset p) p c.2) ch) as Hright.
  { apply list.Forall_forall. intros c Hin set' Hset'.
    exact (proj1 (list.Forall_forall _ _) IH c Hin set' (proj1 (list.Forall_forall _ _) Hch c Hin) Hset'). }
  pose proof (subset_loop_right (findSubset p) p ch set Hs Hright Hset) as Hl.
  destruct (subset_loop (findSubset p) ch set) as [w|].
  - destruct Hl as (k & c & s & Hin & Hlk & Hp & Hsub). exists (k :: s). split_and!; [|done|done]. simpl.
    apply smap_elem_find in Hin; [|done]. by rewrite Hin.
  - intros [|k s] w Hlk Hsub; simpl in Hlk; [destruct e; [|done]; injection Hlk as ->; exact E|].
    destruct (smap_find k ch) as [c|] eqn:Ef; [|done]. eapply Hl; [|done..]. by apply smap_elem_find.
Qed.

(** ** Supersets *)

Lemma first_child_spec find set ch :
  match first_child find set ch with
  | Some v => ∃ k c, (k, c) ∈ ch ∧ find c set = Some v
  | None => ∀ k c, (k, c) ∈ ch → find c set = None
  end.
Proof.
  induction ch as [|[k c] ch IH]; simpl; [intros k c Hin; by apply not_elem_of_nil in Hin|].
  destruct (find c set) as [v|] eqn:E; [exists k, c; split; [left | done]|].
  destruct (first_child find set ch) as [v|].
  - destruct IH as (k' & c' & ? & ?). exists k', c'. split; [by right | done].
  - intros k' c' [[= -> ->]|Hin]%elem_of_cons; [done | by eapply IH].
Qed.

Lemma mid_child_spec find k next ch :
  smap_sorted ch → mid_child find k next ch = match smap_find k ch with Some c => find c next | None => None end.
Proof.
  induction ch as [|[k' c] ch IH]; intros Hs; simpl; [done|]. apply StronglySorted_inv in Hs as [Hs _].
  destruct (less_cases k k') as [(-> & E1 & E2)|[(E1 & E2 & _)|(E1 & E2 & _)]]; rewrite ?E1, ?E2; auto.
Qed.

(** For sorted lists this is inclusion. *)
Lemma sorted_sublist s l : sorted_set s → sorted_set l → (∀ x, x ∈ s → x ∈ l) → sublist s l.
Proof.
  intros Hs Hl. revert s Hs. induction Hl as [|y l Hl IH Hy]; intros s Hs Hin.
  { destruct s as [|x s]; [done|]. destruct (not_elem_of_nil x). apply Hin. left. }
  destruct s as [|x s]; [apply sublist_nil_l|]. apply StronglySorted_inv in Hs as [Hs Hx].
  rewrite list.Forall_forall in Hx. assert (x ∈ y :: l) as Hxl by (apply Hin; left).
  destruct (less_cases x y) as [(-> & _ & _)|Hne].
  - apply sublist_skip, IH; [done|]. intros z Hz. assert (z ∈ y :: l) as [->|?]%elem_of_cons by (apply Hin; by right); [|done].
    specialize (Hx _ Hz). by rewrite less_irrefl in Hx.
  - apply sublist_cons, IH; [by constructor; [|apply list.Forall_forall]|]. intros z Hz.
    apply elem_of_cons in Hxl as [->|Hxl]; [tauto|]. assert (z ∈ y :: l) as [->|?]%elem_of_cons by (by apply Hin); [|done].
    apply elem_of_cons in Hz as [->|Hz]; [done|]. specialize (Hx _ Hz).
    pose proof (proj1 (list.Forall_forall _ _) Hy x Hxl) as Hyx. simpl in Hyx.
    pose proof (less_trans _ _ _ Hx Hyx) as Hc. by rewrite less_irrefl in Hc.
Qed.

Lemma sublist_elem s l x : sublist s l → x ∈ s → x ∈ l.
Proof. intros Hs Hx. eapply elem_of_submseteq; [done | by apply sublist_submseteq]. Qed.

Section superset.
Context (p : V → bool).

Definition superset_right (n : Node) (set : list K) (r : option V) : Prop :=
  match r with
  | Some v => ∃ s, mos_lookup s n = Some v ∧ p v = true ∧ sublist set s
  | None => ∀ s v, mos_lookup s n = Some v → sublist set s → p v = false
  end.

(** A superset that the node [n] stores under [k :: s]. *)
Lemma child_superset n k c set set' v :
  smap_find k (children n) = Some c → superset_right c set (Some v) → (∀ s, sublist set s → sublist set' (k :: s)) →
  superset_right n set' (Some v).
Proof.
  intros Hf (s & Hlk & Hp & Hsub) Hs. exists (k :: s). split_and!; [|done|by apply Hs]. simpl. by rewrite Hf.
Qed.

(** The value of a superset that satisfies [p] is found, if there is one. *)
Lemma findSuperset_spec n : ∀ set, node_wf n → superset_right n set (findSuperset p n set).
Proof.
  induction n as [v e ch IH] using Node_ind'. intros set Hwf. cbn [findSuperset].
  inversion Hwf as [v' e' ch' Hs Hch]; subst.
  assert (∀ k c, (k, c) ∈ ch ↔ smap_find k ch = Some c) as Hfind by (intros; by apply smap_elem_find).
  assert (∀ k c set, smap_find k ch = Some c → superset_right c set (findSuperset p c set)) as Hc.
  { intros k c set' Hin%Hfind. apply (proj1 (list.Forall_forall _ _) IH (k, c) Hin).
    exact (proj1 (list.Forall_forall _ _) Hch _ Hin). }
  pose proof (first_child_spec (findSuperset p) set ch) as Hfirst. destruct set as [|b next].
  - destruct (e && p v) eqn:E.
    { apply andb_true_iff in E as [-> Hp]. by exists []. }
    destruct (first_child (findSuperset p) [] ch) as [w|].
    + destruct Hfirst as (k & c & Hin%Hfind & Hf). eapply child_superset; [done | | intros; apply sublist_nil_l].
      rewrite <-Hf. by eapply Hc.
    + intros [|k s] w Hlk Hsub; simpl in Hlk; [destruct e; [|done]; injection Hlk as ->; exact E|].
      destruct (smap_find k ch) as [c|] eqn:Ef; [|done]. pose proof (Hc k c [] Ef) as H'.
      rewrite (Hfirst k c) in H' by (by apply Hfind). eapply H'; [done | apply sublist_nil_l].
  - rewrite mid_child_spec by done. destruct (first_child (findSuperset p) (b :: next) ch) as [w|].
    + destruct Hfirst as (k & c & Hin%Hfind & Hf). eapply child_superset; [done | | intros; by apply sublist_cons].
      rewrite <-Hf. by eapply Hc.
    + destruct (match smap_find b ch with Some c => findSuperset p c next | None => None end) as [w|] eqn:Em.
      { destruct (smap_find b ch) as [c|] eqn:Eb; [|done]. eapply (child_superset (mkNode v e ch) b c next); [done | | intros; by apply sublist_skip].
        rewrite <-Em. by eapply Hc. }
      intros [|k s] w Hlk Hsub; [by apply sublist_nil_r in Hsub|]. simpl in Hlk.
      destruct (smap_find k ch) as [c|] eqn:Ek; [|done]. apply sublist_cons_r in Hsub as [Hsub|(s' & [= <- <-] & Hsub)].
      * pose proof (Hc k c (b :: next) Ek) as H'. rewrite (Hfirst k c) in H' by (by apply Hfind). by eapply H'.
      * rewrite Ek in Em. pose proof (Hc b c next Ek) as H'. rewrite Em in H'. by eapply H'.
Qed.
End superset.

(** A map built by insertions, the last of which comes first. *)
Lemma mos_entries (entries : list (list K * V)) :
  Forall (λ kv, sorted_set kv.1) entries →
  let m := fold_right (λ kv, mos_insert kv.1 kv.2) new_trie entries in
  node_wf m ∧ (∀ s v, mos_lookup s m = Some v ↔ ∃ before after, entries = before ++ (s, v) :: after ∧ s ∉ before.*1) ∧
  ∀ s v, mos_lookup s m = Some v → sorted_set s.
Proof.
  induction 1 as [|[s0 v0] entries Hs0 Hall (Hwf & Hlk & Hso)]; cbn zeta; simpl.
  { split_and!; [apply new_trie_wf | | intros s v; by rewrite lookup_new]. intros s v. rewrite lookup_new. split; [done|].
    intros (before & after & Hnil & _). by destruct before. }
  simpl in Hs0. split_and!; [by apply insert_wf| |].
  - intros s v. destruct (lookup_insert_spec s0 v0 (fold_right (λ kv, mos_insert kv.1 kv.2) new_trie entries) s) as [H1 H2].
    destruct (list_less_dec s s0) as [->|Hne].
    + rewrite H1 by done. split; [intros [= ->]; exists [], entries; split; [done | apply not_elem_of_nil]|].
      intros ([|p before] & after & [= <- Heq] & Hn); [done|]. destruct Hn. simpl. left.
    + rewrite H2, Hlk by done. split.
      * intros (before & after & -> & Hn). exists ((s0, v0) :: before), after. split; [done|]. simpl. by apply not_elem_of_cons.
      * intros ([|p before] & after & [= <- Heq] & Hn); [done|]. exists before, after. split; [done|].
        by apply not_elem_of_cons in Hn as [_ ?].
  - intros s v Hl. destruct (list_less_dec s s0) as [->|Hne]; [done|].
    rewrite (proj2 (lookup_insert_spec s0 v0 _ s) Hne) in Hl. by eapply Hso.
Qed.
End MapOfSets.
