(* ===== verification/SolverChain.v ===== *)
(** * Counterexample caching and the whole chain

    lib/Solver/CexCachingSolver.cpp and lib/Solver/ConstructSolverChain.cpp.
    The caching solver answers from assignments it has seen: a superset of a
    query's constraints has a solution that is one of the query's, a subset
    without a solution leaves the query without one. Statistics are left
    out. *)

From stdpp Require Import base tactics list numbers gmap.
From Stdlib Require Import Strings.Byte.
From S2P Require Import Prelude StdMap ThreadId ObjectAccesses Solver SolverProofs Independent.
From S2P Require Import IndependentProofs MapOfSets.

Local Open Scope Z_scope.

(** ** [CexCachingSolver] *)

Record cex_options := {
  CexCacheTryAll : bool;
  CexCacheSuperSet : bool;
  CexCacheExperimental : bool;
  DebugCexCacheCheckBinding : bool;
}.

Section cex.
Context {EL : ExprLib} {QL : QueryLib} (o : cex_options) (solver : SolverImpl).
(** [AssignmentLessThan]. *)
Context {BL : StdLess (bindings Array)}.

Abbreviation Assignment := (bindings Array).

(** [std::set<ref<Expr>>], as the list of its elements. *)
Definition key_insert (e : expr) (key : sset expr) : sset expr := sset_insert e key.
Definition key_set (es : list expr) : sset expr := fold_left (λ key e, key_insert e key) es [].

(** A null [Assignment *] stands for a set without solution. *)
Record ccs_state := {
  cex_cache : @Node expr (option Assignment);
  assignmentsTable : sset Assignment;
  cex_below : si_state solver;
}.
Implicit Types (s : ccs_state) (q : Query).

Definition cex_set_below (b : si_state solver) s : ccs_state :=
  {| cex_cache := cex_cache s; assignmentsTable := assignmentsTable s; cex_below := b |}.

Definition nullAssignment (a : option Assignment) : bool := match a with None => true | Some _ => false end.
Definition nonNullAssignment (a : option Assignment) : bool := negb (nullAssignment a).
Definition nullOrSatisfyingAssignment (key : list expr) (a : option Assignment) : bool :=
  match a with None => true | Some b => satisfies b key end.

(** The first result that is there. *)
Definition or_else {A} (a b : option A) : option A := match a with Some _ => a | None => b end.

Definition searchForAssignment (key : sset expr) s : option (option Assignment) :=
  let elements := smap_keys key in
  or_else (mos_lookup elements (cex_cache s))
    (let superset := if CexCacheSuperSet o then findSuperset nonNullAssignment (cex_cache s) elements else None in
     if CexCacheTryAll o then
       or_else superset (or_else (findSubset nullAssignment (cex_cache s) elements)
         (option_map Some (List.find (λ a, satisfies a elements) (smap_keys (assignmentsTable s)))))
     else or_else superset (findSubset (nullOrSatisfyingAssignment elements) (cex_cache s) elements)).

(** The key, and the cached result. *)
Definition lookupAssignment q s : sset expr * option (option Assignment) :=
  let key := key_set (constraints q) in
  let neg := createIsZero (query q) in
  match as_constant neg with
  | Some k => if isFalse neg k then (key, Some None) else (key, searchForAssignment key s)
  | None => let key := key_insert neg key in (key, searchForAssignment key s)
  end.

(** [klee_error] ends the program. *)
Definition getAssignment q s : res (option (option Assignment) * ccs_state) :=
  match lookupAssignment q s with
  | (_, Some result) => Ok (Some result, s)
  | (key, None) =>
      let objects := findSymbolicObjects (smap_keys key) in
      '(r, b) ← computeInitialValues solver q objects (cex_below s);
      match r with
      | None => Ok (None, cex_set_below b s)
      | Some r =>
          let binding := option_map (assignment_of objects) r in
          _ ← cassert (negb (DebugCexCacheCheckBinding o) ||
                match binding with Some a => satisfies a (smap_keys key) | None => true end);
          Ok (Some binding,
              {| cex_cache := mos_insert (smap_keys key) binding (cex_cache s);
                 assignmentsTable := match binding with Some a => sset_insert a (assignmentsTable s) | None => assignmentsTable s end;
                 cex_below := b |})
      end
  end.

Definition withFalse q : Query := withExpr q (constant 0 1).

(** [a->evaluate(e)], which must be a constant. *)
Definition evaluate_closed (a : Assignment) (e : expr) : res (expr * Z) :=
  let r := evaluate false a e in
  match as_constant r with Some k => Ok (r, k) | None => Err AssertFailed end.

Definition cex_validity q s : res (option Validity * ccs_state) :=
  '(a, s) ← getAssignment (withFalse q) s;
  match a with
  | None => Ok (None, s)
  | Some a =>
      a ← match a with Some a => Ok a | None => Err AssertFailed end;
      '(r, k) ← evaluate_closed a (query q);
      if isTrue r k then
        '(a, s) ← getAssignment q s;
        Ok (option_map (λ a, if nullAssignment a then VTrue else VUnknown) a, s)
      else
        '(a, s) ← getAssignment (negateExpr q) s;
        Ok (option_map (λ a, if nullAssignment a then VFalse else VUnknown) a, s)
  end.

Definition cex_truth q s : res (option bool * ccs_state) :=
  let known_false := match (lookupAssignment (negateExpr q) s).2 with Some None => true | _ => false end in
  if CexCacheExperimental o && known_false then Ok (None, s)
  else
    '(a, s) ← getAssignment q s;
    Ok (option_map nullAssignment a, s).

Definition cex_value q s : res (option expr * ccs_state) :=
  '(a, s) ← getAssignment (withFalse q) s;
  match a with
  | None => Ok (None, s)
  | Some a =>
      a ← match a with Some a => Ok a | None => Err AssertFailed end;
      '(r, _) ← evaluate_closed a (query q);
      Ok (Some r, s)
  end.

Definition cex_initial q (objects : list Array) s : res (option (option (list (list uchar))) * ccs_state) :=
  '(a, s) ← getAssignment q s;
  Ok (option_map (option_map (λ a : Assignment,
        map (λ os, default (replicate (arr_size os) x00) (a !! os)) objects)) a, s).

Definition CexCachingSolver : SolverImpl := {|
  si_state := ccs_state; computeTruth := cex_truth; computeValidity := cex_validity;
  computeValue := cex_value; computeInitialValues := cex_initial;
  setCoreSolverTimeout := λ t s, cex_set_below (setCoreSolverTimeout solver t (cex_below s)) s |}.

Definition new_cex (b : si_state solver) : ccs_state :=
  {| cex_cache := new_trie; assignmentsTable := []; cex_below := b |}.
End cex.

(** ** The contract is kept *)

Section cex_proofs.
Context {EL : ExprLib} {ES : ExprSem} {QL : QueryLib} {QS : QuerySem} {BL : StdLess (bindings Array)}
  {BLL : StdLessLaws (bindings Array)}.
Context (o : cex_options) (I : SolverImpl) (inv : si_state I → Prop) (HI : impl_ok I inv) (HN : values_ok I inv).
Context (Hdebug : DebugCexCacheCheckBinding o = false).
Implicit Types (s : ccs_state I) (q : Query) (es : list expr) (e : expr) (v : assignment).

(** What an assignment or its absence says of a set. *)
Definition fitting (b : bindings Array) : Prop := ∀ array ds, b !! array = Some ds → length ds = arr_size array.
Definition solution_right es (a : option (bindings Array)) : Prop :=
  match a with
  | None => ∀ v, ¬ holds v es
  | Some b => fitting b ∧ ∀ v, point b v → holds v es
  end.

Record cex_inv s : Prop := {
  cx_below : inv (cex_below I s);
  cx_wf : node_wf (cex_cache I s);
  cx_cache es a : mos_lookup es (cex_cache I s) = Some a → solution_right es a;
  cx_table b : b ∈ smap_keys (assignmentsTable I s) → fitting b;
}.

(** *** Keys *)

Lemma key_insert_elem e e' (k : sset expr) :
  smap_sorted k → smap_sorted (key_insert e k) ∧ (e' ∈ smap_keys (key_insert e k) ↔ e' = e ∨ e' ∈ smap_keys k).
Proof.
  intros Hk. assert (smap_sorted (key_insert e k)) as Hs by (by apply smap_emplace_sorted). split; [done|].
  assert (∀ (m : sset expr) x, smap_sorted m → x ∈ smap_keys m ↔ sset_has x m = true) as Hhas.
  { intros m x Hm. unfold smap_keys, sset_has, smap_has. rewrite list_elem_of_fmap. split.
    - intros ([y []] & -> & Hin). apply smap_elem_find in Hin; [|done]. simpl. by rewrite Hin.
    - destruct (smap_find x m) as [[]|] eqn:E; [|done]. intros _. exists (x, tt). split; [done|]. by apply smap_elem_find. }
  rewrite !Hhas by done. unfold key_insert. rewrite sset_has_insert. naive_solver.
Qed.

Lemma key_set_spec es : smap_sorted (key_set es) ∧ ∀ e, e ∈ smap_keys (key_set es) ↔ e ∈ es.
Proof.
  unfold key_set. assert (∀ (k : sset expr), smap_sorted k →
    let k' := fold_left (λ key e, key_insert e key) es k in
    smap_sorted k' ∧ ∀ e, e ∈ smap_keys k' ↔ e ∈ smap_keys k ∨ e ∈ es) as H.
  { induction es as [|x es IH]; intros k Hk; simpl; [split; [done|]; intros e; rewrite elem_of_nil; tauto|].
    destruct (key_insert_elem x x k Hk) as [Hs _]. destruct (IH _ Hs) as [H1 H2]. split; [done|].
    intros e. rewrite H2, elem_of_cons. destruct (key_insert_elem x e k Hk) as [_ ->]. tauto. }
  destruct (H [] (smap_sorted_nil)) as [H1 H2]. split; [done|]. intros e. rewrite H2. simpl. rewrite elem_of_nil. tauto.
Qed.

Lemma keys_sorted (k : sset expr) : smap_sorted k → sorted_set (smap_keys k).
Proof.
  unfold smap_sorted, sorted_set, smap_keys. induction 1 as [|p k Hs IH Hall]; rewrite ?fmap_cons; constructor; [done|].
  apply list.Forall_forall. intros x (y & -> & Hy)%list_elem_of_fmap. exact (proj1 (list.Forall_forall _ _) Hall y Hy).
Qed.

(** *** Searching *)

Lemma holds_sublist v es es' : sublist es es' → holds v es' → holds v es.
Proof. intros Hsub Hv e He. apply Hv. eapply elem_of_submseteq; [done | by apply sublist_submseteq]. Qed.

Lemma point_evaluate b v e : point b v → as_constant (evaluate false b e) = Some (eval v e).
Proof.
  intros Hp. apply evaluated. intros array i Ht Hc Hi. rewrite (Hp array i Hc Hi). by destruct (bound b array i).
Qed.

Lemma satisfies_right b es v : satisfies b es = true → point b v → holds v es.
Proof.
  intros Hs Hp e He. unfold satisfies in Hs. rewrite forallb_forall in Hs. specialize (Hs e (proj1 (list_elem_of_In _ _) He)).
  unfold isTrue_expr, isTrue in Hs. rewrite (point_evaluate b v e Hp) in Hs. apply andb_true_iff in Hs as [_ ?%Z.eqb_eq]. lia.
Qed.

Lemma or_else_some {A} (a b : option A) x : or_else a b = Some x → a = Some x ∨ (a = None ∧ b = Some x).
Proof. destruct a; simpl; auto. Qed.

Lemma search_right k s a :
  smap_sorted k → cex_inv s → searchForAssignment o I k s = Some a → solution_right (smap_keys k) a.
Proof.
  intros Hk [_ Hwf Hc Ht]. pose proof (keys_sorted k Hk) as Hks. unfold searchForAssignment. cbn zeta.
  intros [Hl|[_ Hr]]%or_else_some; [by apply Hc|].
  assert (∀ a, (if CexCacheSuperSet o then findSuperset nonNullAssignment (cex_cache I s) (smap_keys k) else None) = Some a →
    solution_right (smap_keys k) a) as Hsup.
  { destruct (CexCacheSuperSet o); [|done]. intros a' Ha. pose proof (findSuperset_spec nonNullAssignment _ (smap_keys k) Hwf) as H.
    rewrite Ha in H. destruct H as (es & Hes & Hnn & Hsub). destruct a' as [b|]; [|done]. destruct (Hc _ _ Hes) as [Hfit Hp].
    split; [done|]. intros v Hv. eapply holds_sublist; [done|]. by apply Hp. }
  assert (∀ p a, (∀ b, p (Some b) = true → satisfies b (smap_keys k) = true) →
    findSubset p (cex_cache I s) (smap_keys k) = Some a → solution_right (smap_keys k) a) as Hsub.
  { intros p a' Hp Ha. pose proof (findSubset_spec p _ (smap_keys k) Hwf Hks) as H. rewrite Ha in H.
    destruct H as (es & Hes & Hpa & Hsub). pose proof (Hc _ _ Hes) as Hr'. destruct a' as [b|]; simpl in *.
    - split; [apply Hr'|]. intros v Hv. eapply satisfies_right; [|done]. by apply Hp.
    - intros v Hv. apply (Hr' v). by eapply holds_sublist. }
  destruct (CexCacheTryAll o).
  - apply or_else_some in Hr as [?|[_ Hr]]; [by apply Hsup|]. apply or_else_some in Hr as [Hr|[_ Hr]]; [by eapply (Hsub nullAssignment); [|exact Hr]|].
    destruct (List.find _ _) as [b|] eqn:Ef; [|done]. injection Hr as <-. apply find_some in Ef as [Hin Hs].
    split; [apply Ht; by apply list_elem_of_In|]. intros v. by apply satisfies_right.
  - apply or_else_some in Hr as [?|[_ Hr]]; [by apply Hsup|]. by eapply (Hsub (nullOrSatisfyingAssignment (smap_keys k))); [|exact Hr].
Qed.

(** *** [getAssignment] *)

(** The questions it is asked. *)
Record assignable q : Prop := {
  as_bool : width (query q) = 1;
  as_const : as_constant (query q) = None ∨ as_constant (query q) = Some 0;
  as_nonfalse c k : c ∈ constraints q → as_constant c = Some k → k ≠ 0;
}.

Lemma lookup_key q s :
  assignable q → ∃ k, smap_sorted k ∧ (∀ e, e ∈ smap_keys k ↔ e ∈ to_satisfy q) ∧
    lookupAssignment o I q s = (k, searchForAssignment o I k s).
Proof.
  intros [Hw Hc _]. destruct (key_set_spec (constraints q)) as [Hs He]. unfold lookupAssignment, to_satisfy. cbn zeta.
  destruct Hc as [Hc|Hc]; rewrite Hc.
  - rewrite (is_zero_symbolic _ Hw Hc). destruct (key_insert_elem (createIsZero (query q)) (query q) _ Hs) as [Hs' _].
    eexists. split_and!; [exact Hs' | | done]. intros e. rewrite elem_of_cons, <-He.
    by destruct (key_insert_elem (createIsZero (query q)) e _ Hs) as [_ ->].
  - rewrite (is_zero_constant _ 0 Hc). unfold isFalse. simpl. rewrite andb_false_r. by eexists.
Qed.

Definition assignment_right q (a : option (bindings Array)) : Prop :=
  match a with
  | None => always q true
  | Some b => fitting b ∧ ∀ v, point b v → holds v (constraints q) ∧ true_in v (query q) = false
  end.

Lemma assignable_askable q objects :
  assignable q → (∀ e array i, e ∈ to_satisfy q → reads_at (findReads e) array i → isConstantArray array = false → array ∈ objects) →
  askable q objects.
Proof.
  intros [Hw Hc Hf] Ho. split; [done..|]. intros e array i [->|He]%elem_of_cons Ht Ha.
  - destruct Hc as [Hc|Hc].
    + apply (Ho (createIsZero (query q)) array i); [unfold to_satisfy; rewrite Hc; left | | done].
      by apply (proj2 (reads_is_zero _ _ _ Hw)).
    + rewrite (reads_constant _ 0 Hc) in Ht. destruct Ht as (re & Hre & _). by apply not_elem_of_nil in Hre.
  - eapply Ho; [|done..]. by apply to_satisfy_constraints.
Qed.

Lemma solution_assignment q es a :
  assignable q → (∀ e, e ∈ es ↔ e ∈ to_satisfy q) → solution_right es a ↔ assignment_right q a.
Proof.
  intros Hq He. assert (askable q (findSymbolicObjects (to_satisfy q))) as Hak.
  { apply assignable_askable; [done|]. intros; by eapply symbolic_objects. }
  assert (∀ v, holds v es ↔ holds v (constraints q) ∧ true_in v (query q) = false) as Hh.
  { intros v. rewrite <-(to_satisfy_holds q _ v Hak). unfold holds. by setoid_rewrite He. }
  destruct a as [b|]; simpl; setoid_rewrite Hh; [done|]. unfold always. split.
  - intros H v Hv. apply not_false_iff_true. intros Ht. by apply (H v).
  - intros H v [Hv Ht]. specialize (H v Hv). congruence.
Qed.

(** The assignment that the solver below has found. *)
Lemma values_point q objects es values :
  initial_is q objects (Some values) → assignable q → askable q objects → (∀ e, e ∈ es ↔ e ∈ to_satisfy q) →
  (∀ e array i, e ∈ es → reads_at (findReads e) array i → isConstantArray array = false → array ∈ objects) →
  solution_right es (Some (assignment_of objects values)).
Proof.
  intros (Hl & v0 & Hv0 & Hf & Hval) Hq Hak He Ho. pose proof (Forall2_length _ _ _ Hl) as Hlen.
  destruct (assignment_of_spec objects values Hlen) as [H1 H2]. split.
  - intros array ds Hds. by eapply (zip_related _ _ _ _ _ Hl), H1.
  - intros v Hv e Hin. rewrite (eval_reads v v0 e).
    + apply (proj2 (to_satisfy_holds q objects v0 Hak) (conj Hv0 Hf)). by apply He.
    + intros array i Ht Hi. destruct (isConstantArray array) eqn:Hc; [by apply byte_constant|]. rewrite (Hv array i Hc Hi).
      destruct (H2 array (Ho e array i Hin Ht Hc)) as [ds Hds]. rewrite (bound_lookup _ _ _ _ Hds).
      unfold in_array in Hi. rewrite (Hval array ds (H1 _ _ Hds) Hc) by lia. simpl. by rewrite Z2Nat.id by lia.
Qed.

Lemma getAssignment_ok q s :
  assignable q → cex_inv s → delivers cex_inv (assignment_right q) (getAssignment o I q s).
Proof.
  intros Hq Hs. unfold getAssignment. destruct (lookup_key q s Hq) as (k & Hk & He & ->).
  destruct (searchForAssignment o I k s) as [a|] eqn:Ea.
  { apply delivers_some; [done|]. apply (solution_assignment q (smap_keys k) a Hq He). by eapply search_right. }
  set (objects := findSymbolicObjects (smap_keys k)).
  assert (askable q objects) as Hak.
  { apply assignable_askable; [done|]. intros e array i Hin. eapply symbolic_objects. by apply He. }
  eapply delivers_bind; [apply HN; [done | apply Hs]| |].
  { intros b Hb. apply delivers_none. destruct Hs. by split. }
  intros r b Hb Hr. rewrite Hdebug. cbn [negb orb cassert]. rewrite bind_Ok_l.
  assert (solution_right (smap_keys k) (option_map (assignment_of objects) r)) as Hsol.
  { destruct r as [values|]; [eapply values_point; eauto; intros e array i Hin; by eapply symbolic_objects|].
    by apply (solution_assignment q (smap_keys k) None Hq He). }
  apply delivers_some; [|by apply (solution_assignment q (smap_keys k) _ Hq He)].
  destruct Hs as [_ Hwf Hc Ht]. split; simpl; [done | by apply insert_wf| |].
  - intros es a Hl. destruct (lookup_insert_spec (smap_keys k) (option_map (assignment_of objects) r) (cex_cache I s) es) as [H1 H2].
    destruct (constraints_eqb es (smap_keys k)) eqn:Heq.
    + apply constraints_eqb_eq in Heq as ->. rewrite H1 in Hl by done. by injection Hl as <-.
    + rewrite H2 in Hl; [by apply Hc|]. intros Hes. apply constraints_eqb_eq in Hes. congruence.
  - destruct r as [values|]; simpl in *; [|done]. intros b' (p & -> & Hp)%list_elem_of_fmap.
    unfold sset_insert, smap_emplace in Hp. destruct (smap_find _ _) in Hp; [by apply Ht, list_elem_of_fmap_2|].
    apply smap_set_elem in Hp as [->|Hp]; [apply Hsol | by apply Ht, list_elem_of_fmap_2].
Qed.

(** *** The methods *)

Lemma satisfiable_nonfalse es c k : satisfiable es → c ∈ es → as_constant c = Some k → k ≠ 0.
Proof. intros [v Hv] Hc Hk. specialize (Hv c Hc). by rewrite (eval_constant v c k Hk) in Hv. Qed.

Lemma posed_assignable q : posed q → assignable q.
Proof. intros [Hw Hc Hsat]. split; [done | by left|]. intros c k. by apply satisfiable_nonfalse. Qed.

Lemma false_assignable q : satisfiable (constraints q) → assignable (withFalse q).
Proof.
  intros Hsat. split; simpl; [by apply width_const | right; by apply as_constant_const|]. intros c k. by apply satisfiable_nonfalse.
Qed.

Lemma counterexample_sometimes q b : assignment_right q (Some b) → sometimes q false.
Proof. intros [_ Hp]. destruct (point_exists b) as [v Hv]. destruct (Hp v Hv). by exists v. Qed.

Lemma truth_of_assignment q a : assignment_right q a → truth_is q (nullAssignment a).
Proof. destruct a as [b|]; [apply counterexample_sometimes | done]. Qed.

(** The assignment for the constraints alone, and a value under it. *)
Lemma some_assignment {A} (right : A → Prop) q s (f : bindings Array → ccs_state I → res (option A * ccs_state I)) :
  satisfiable (constraints q) → cex_inv s →
  (∀ b s v, cex_inv s → point b v → holds v (constraints q) → delivers cex_inv right (f b s)) →
  delivers cex_inv right ('(a, s) ← getAssignment o I (withFalse q) s;
    match a with
    | None => Ok (None, s)
    | Some a => a ← match a with Some a => Ok a | None => Err AssertFailed end; f a s
    end).
Proof.
  intros Hsat Hs Hf. eapply delivers_bind; [apply getAssignment_ok; [by apply false_assignable | done] | by intros; apply delivers_none|].
  intros [b|] s1 Hs1 Ha.
  - rewrite bind_Ok_l. destruct (point_exists b) as [v Hv]. apply (Hf b s1 v); [done | done|]. by apply Ha.
  - exfalso. destruct Hsat as [v Hv]. specialize (Ha v Hv). unfold true_in in Ha. simpl in Ha. by rewrite eval_const in Ha.
Qed.

Lemma evaluate_point b v e :
  point b v → evaluate_closed b e = Ok (evaluate false b e, eval v e).
Proof. intros Hv. unfold evaluate_closed. by rewrite (point_evaluate b v e Hv). Qed.

Lemma cex_truth_ok q s : posed q → cex_inv s → delivers cex_inv (truth_is q) (cex_truth o I q s).
Proof.
  intros Hq Hs. unfold cex_truth. destruct (CexCacheExperimental o && _); [by apply delivers_none|].
  eapply delivers_bind; [apply getAssignment_ok; [by apply posed_assignable | done] | by intros; apply delivers_none|].
  intros a s1 Hs1 Ha. apply delivers_some; [done|]. by apply truth_of_assignment.
Qed.

Lemma cex_validity_ok q s : posed q → cex_inv s → delivers cex_inv (validity_is q) (cex_validity o I q s).
Proof.
  intros Hq Hs. apply some_assignment; [apply Hq | done|]. intros b s1 v Hs1 Hv Hh.
  rewrite (evaluate_point b v _ Hv), bind_Ok_l. unfold isTrue. rewrite get_width, width_evaluated, (po_bool _ Hq). simpl.
  pose proof (eval_range v (query q)) as Hr. rewrite (po_bool _ Hq) in Hr. destruct (Z.eqb_spec (eval v (query q)) 1) as [H1|H1].
  - assert (sometimes q true) as Ht. { exists v. split; [done|]. unfold true_in. by rewrite H1. }
    eapply delivers_bind; [apply getAssignment_ok; [by apply posed_assignable | done] | by intros; apply delivers_none|].
    intros a s2 Hs2 Ha. apply delivers_some; [done|]. destruct a as [b'|]; [split; [done | by eapply counterexample_sometimes] | done].
  - assert (sometimes q false) as Hf. { exists v. split; [done|]. unfold true_in. by replace (eval v (query q)) with 0 by lia. }
    eapply delivers_bind; [apply getAssignment_ok; [by apply posed_assignable, negate_posed | done] | by intros; apply delivers_none|].
    intros a s2 Hs2 Ha. apply delivers_some; [done|]. destruct a as [b'|]; [|by apply negate_always in Ha].
    apply counterexample_sometimes in Ha. split; [by apply negate_sometimes in Ha | done].
Qed.

Lemma cex_value_ok q s :
  as_constant (query q) = None → satisfiable (constraints q) → cex_inv s → delivers cex_inv (value_is q) (cex_value o I q s).
Proof.
  intros Hc Hsat Hs. apply some_assignment; [done..|]. intros b s1 v Hs1 Hv Hh.
  rewrite (evaluate_point b v _ Hv), bind_Ok_l. apply delivers_some; [done|]. exists (eval v (query q)).
  split_and!; [by apply point_evaluate | apply width_evaluated | by exists v].
Qed.

Lemma cex_ok : impl_ok (CexCachingSolver o I) cex_inv.
Proof.
  split; [apply cex_truth_ok | apply cex_validity_ok | apply cex_value_ok|].
  intros t s [H1 H2 H3 H4]. split; simpl; [by apply HI | done..].
Qed.

Lemma cex_initial_ok : values_ok (CexCachingSolver o I) cex_inv.
Proof.
  intros q objects s Hq Hs. simpl. unfold cex_initial. assert (assignable q) as Hq' by (destruct Hq; by split).
  eapply delivers_bind; [by apply getAssignment_ok | by intros; apply delivers_none|].
  intros [b|] s1 Hs1 Ha; (apply delivers_some; [done|]); [|done]. simpl. destruct Ha as [Hfit Hp].
  destruct (point_exists b) as [v Hv]. destruct (Hp v Hv) as [Hh Ht].
  assert (∀ os, length (default (replicate (arr_size os) x00) (b !! os)) = arr_size os) as Hlen.
  { intros os. destruct (b !! os) as [ds|] eqn:E; simpl; [by apply (Hfit _ _ E) | apply length_replicate]. }
  split.
  - clear -Hlen. induction objects; simpl; by constructor.
  - exists v. split_and!; [done..|]. intros os ds Hin Hc i Hi. rewrite (point_values_elem objects b os ds Hin).
    rewrite (Hv os (Z.of_nat i) Hc) by (unfold in_array; lia). unfold bound. rewrite Nat2Z.id. specialize (Hlen os).
    destruct (b !! os) as [d|]; simpl in *; [|by apply lookup_replicate_2].
    destruct (lookup_lt_is_Some_2 d i) as [x Hx]; [lia|]. by rewrite Hx.
Qed.

Lemma new_cex_inv b : inv b → cex_inv (new_cex I b).
Proof.
  intros Hb. split; simpl; [done | apply new_trie_wf | intros es a; by rewrite lookup_new|].
  intros a Ha. by apply not_elem_of_nil in Ha.
Qed.
End cex_proofs.

(** ** [constructSolverChain]

    A solver object is an implementation with its state. The logging layers,
    which pass every query on, are left out, and so is
    [DebugValidateSolver], whose oracle shares its state with the chain. *)

Section chain.
Context {EL : ExprLib} {QL : QueryLib} {BL : StdLess (bindings Array)}.

Record SolverObj := { so_impl : SolverImpl; so_state : si_state so_impl }.

Record chain_options := {
  UseAssignmentValidatingSolver : bool;
  UseFastCexSolver : bool;
  UseCexCache : bool;
  UseBranchCache : bool;
  UseIndependentSolver : bool;
  cex_opts : cex_options;
  (** [DebugCrossCheckCoreSolverWith]: the oracle, if any. *)
  CrossCheckWith : option SolverObj;
}.

Definition createAssignmentValidatingSolver (s : SolverObj) : SolverObj :=
  {| so_impl := AssignmentValidatingSolver (so_impl s); so_state := so_state s |}.
Definition createFastCexSolver (fastCex : IncompleteSolver) (s : SolverObj) : SolverObj :=
  {| so_impl := StagedSolver fastCex (so_impl s); so_state := so_state s |}.
Definition createCexCachingSolver (o : cex_options) (s : SolverObj) : SolverObj :=
  {| so_impl := CexCachingSolver o (so_impl s); so_state := new_cex (so_impl s) (so_state s) |}.
Definition createCachingSolver (s : SolverObj) : SolverObj :=
  {| so_impl := CachingSolver (so_impl s); so_state := new_caching (so_impl s) (so_state s) |}.
Definition createIndependentSolver (s : SolverObj) : SolverObj :=
  {| so_impl := IndependentSolver (so_impl s); so_state := so_state s |}.
Definition createValidatingSolver (s oracle : SolverObj) : SolverObj :=
  {| so_impl := ValidatingSolver (so_impl s) (so_impl oracle); so_state := (so_state s, so_state oracle) |}.

Definition constructSolverChain (o : chain_options) (fastCex : IncompleteSolver) (coreSolver : SolverObj) : SolverObj :=
  let solver := coreSolver in
  let solver := if UseAssignmentValidatingSolver o then createAssignmentValidatingSolver solver else solver in
  let solver := if UseFastCexSolver o then createFastCexSolver fastCex solver else solver in
  let solver := if UseCexCache o then createCexCachingSolver (cex_opts o) solver else solver in
  let solver := if UseBranchCache o then createCachingSolver solver else solver in
  let solver := if UseIndependentSolver o then createIndependentSolver solver else solver in
  match CrossCheckWith o with Some oracle => createValidatingSolver solver oracle | None => solver end.
End chain.

Section chain_proofs.
Context {EL : ExprLib} {ES : ExprSem} {QL : QueryLib} {QS : QuerySem} {BL : StdLess (bindings Array)}
  {BLL : StdLessLaws (bindings Array)}.

(** An object that keeps the contract from its state on. *)
Definition trusted (s : SolverObj) : Prop := ∃ inv, impl_ok (so_impl s) inv ∧ values_ok (so_impl s) inv ∧ inv (so_state s).

(** An oracle is also asked about constants. *)
Definition oracle_trusted (s : SolverObj) : Prop := ∃ inv, impl_ok (so_impl s) inv ∧ inv (so_state s) ∧
  ∀ q k t, as_constant (query q) = Some k → width (query q) = 1 → satisfiable (constraints q) → inv t →
    delivers inv (truth_is q) (computeTruth (so_impl s) q t).

Lemma trusted_if (b : bool) (f : SolverObj → SolverObj) s :
  trusted s → (trusted s → trusted (f s)) → trusted (if b then f s else s).
Proof. destruct b; auto. Qed.

Lemma chain_trusted o fastCex core :
  trusted core → incomplete_ok fastCex → DebugCexCacheCheckBinding (cex_opts o) = false → CrossCheckWith o = None →
  trusted (constructSolverChain o fastCex core).
Proof.
  intros Hcore Hfast Hdebug Hnone. unfold constructSolverChain. rewrite Hnone. cbn zeta.
  repeat (apply trusted_if; [|intros (inv & H1 & H2 & H3)]); [done|..].
  - exists inv. split_and!; [by apply avs_ok | by apply avs_initial_ok | done].
  - exists inv. split_and!; [by apply staged_ok | by apply staged_initial_ok | done].
  - exists (cex_inv _ inv). split_and!; [by apply cex_ok | by apply cex_initial_ok | by apply new_cex_inv].
  - exists (caching_inv _ inv). split_and!; [by apply caching_ok | by apply caching_initial_ok | split; [done|]].
    intros ce pv H. by apply not_elem_of_nil in H.
  - exists inv. split_and!; [by apply independent_ok | by apply independent_initial_ok | done].
Qed.

(** With a cross-check on top. *)
Lemma chain_checked o fastCex core :
  trusted core → incomplete_ok fastCex → DebugCexCacheCheckBinding (cex_opts o) = false →
  (∀ oracle, CrossCheckWith o = Some oracle → oracle_trusted oracle) →
  let s := constructSolverChain o fastCex core in ∃ inv, impl_ok (so_impl s) inv ∧ inv (so_state s).
Proof.
  intros Hcore Hfast Hdebug Horacle. cbn zeta.
  destruct o as [o1 o2 o3 o4 o5 o6 [oracle|]]; simpl in *.
  - destruct (chain_trusted (Build_chain_options o1 o2 o3 o4 o5 o6 None) fastCex core) as (inv & H1 & _ & H3); [done..|].
    destruct (Horacle oracle eq_refl) as (invO & O1 & O2 & O3).
    exists (λ s, inv s.1 ∧ invO s.2). split; [|done]. by apply validating_ok.
  - destruct (chain_trusted (Build_chain_options o1 o2 o3 o4 o5 o6 None) fastCex core) as (inv & H1 & _ & H3); [done..|]. eauto.
Qed.
End chain_proofs.
