(* ===== verification/SolverProps.v ===== *)
(** * The solver chain: properties

    The claims about the solvers, and an expression library over two symbolic
    bytes with a solver that enumerates them, at which the claims are
    applied. *)

From stdpp Require Import base tactics list gmap numbers countable.
From Stdlib Require Import Strings.Byte.
From S2P Require Import Prelude StdMap ThreadId ObjectAccesses Solver SolverProofs Independent.
From S2P Require Import IndependentProofs MapOfSets SolverChain.

Local Open Scope Z_scope.

(** ** Expressions over two bytes *)

Inductive dop : Set := DAdd | DUlt | DOr | DAnd | DEq | DNe | DUle | DLShr.

Inductive dexpr : Set :=
  | DConst (k : Z) (w : N)
  | DRead (array : bool)
  | DIsZero (e : dexpr)
  | DZext (e : dexpr)
  | DBin (op : dop) (x y : dexpr).

#[export] Instance dop_eq_dec : EqDecision dop.
Proof. solve_decision. Defined.
#[export] Instance dexpr_eq_dec : EqDecision dexpr.
Proof. solve_decision. Defined.

Definition dop_number (op : dop) : nat :=
  match op with DAdd => 0 | DUlt => 1 | DOr => 2 | DAnd => 3 | DEq => 4 | DNe => 5 | DUle => 6 | DLShr => 7 end%nat.
Definition number_dop (n : nat) : dop :=
  match n with 0 => DAdd | 1 => DUlt | 2 => DOr | 3 => DAnd | 4 => DEq | 5 => DNe | 6 => DUle | _ => DLShr end%nat.

Fixpoint dexpr_tree (e : dexpr) : gen_tree (Z * N + bool) :=
  match e with
  | DConst k w => GenLeaf (inl (k, w))
  | DRead a => GenLeaf (inr a)
  | DIsZero e => GenNode 0 [dexpr_tree e]
  | DZext e => GenNode 1 [dexpr_tree e]
  | DBin op x y => GenNode (2 + dop_number op) [dexpr_tree x; dexpr_tree y]
  end.
Fixpoint tree_dexpr (t : gen_tree (Z * N + bool)) : dexpr :=
  match t with
  | GenLeaf (inl (k, w)) => DConst k w
  | GenLeaf (inr a) => DRead a
  | GenNode 0 [t] => DIsZero (tree_dexpr t)
  | GenNode _ [t] => DZext (tree_dexpr t)
  | GenNode (S (S n)) [x; y] => DBin (number_dop n) (tree_dexpr x) (tree_dexpr y)
  | GenNode _ _ => DRead false
  end.

#[export] Instance dexpr_countable : Countable dexpr.
Proof.
  refine (inj_countable' dexpr_tree tree_dexpr _). intros e. induction e as [| | | |op]; simpl; try congruence.
  destruct op; simpl; congruence.
Defined.

(** The order of an encoding. *)
Definition code_less {A} `{Countable A} (a b : A) : bool := (encode a <? encode b)%positive.
Lemma code_less_laws {A} `{Countable A} : @StdLessLaws A code_less.
Proof.
  split; unfold std_less, code_less.
  - intros a. apply Pos.ltb_irrefl.
  - intros a b c. rewrite !Pos.ltb_lt. lia.
  - intros a b. rewrite !Pos.ltb_ge. intros ??. apply (inj encode). lia.
Qed.

#[export] Instance dexpr_less : StdLess dexpr := code_less.
#[export] Instance dexpr_less_laws : StdLessLaws dexpr := code_less_laws.

#[export] Instance uchar_eq_dec : EqDecision uchar := Byte.byte_eq_dec.
#[export] Instance uchar_countable : Countable uchar.
Proof. refine (inj_countable Byte.to_N Byte.of_N Byte.of_to_N). Defined.
#[export] Instance bindings_less : StdLess (bindings bool) := code_less.
#[export] Instance bindings_less_laws : StdLessLaws (bindings bool) := code_less_laws.

Fixpoint dwidth (e : dexpr) : Z :=
  match e with
  | DConst _ w => Z.of_N w
  | DRead _ => 8
  | DIsZero _ => 1
  | DZext _ => 64
  | DBin DAdd _ _ => 64
  | DBin DLShr x _ => dwidth x
  | DBin _ _ _ => 1
  end.

Definition b2z (b : bool) : Z := if b then 1 else 0.

Definition dop_value (op : dop) (x y : Z) : Z :=
  match op with
  | DAdd => wadd x y
  | DUlt => b2z (x <? y)
  | DOr => Z.lor x y mod 2
  | DAnd => Z.land x y mod 2
  | DEq => b2z (x =? y)
  | DNe => b2z (negb (x =? y))
  | DUle => b2z (x <=? y)
  | DLShr => Z.shiftr x y
  end.

(** An assignment gives a byte to each of the arrays. *)
Definition dbyte (v : uchar * uchar) (array : bool) (_ : Z) : uchar := if array then v.2 else v.1.

Fixpoint deval (v : uchar * uchar) (e : dexpr) : Z :=
  match e with
  | DConst k w => k mod 2 ^ Z.of_N w
  | DRead a => Z_of_uchar (dbyte v a 0)
  | DIsZero e => b2z (deval v e =? 0)
  | DZext e => deval v e mod word_size
  | DBin op x y => dop_value op (deval v x) (deval v y)
  end.

Fixpoint dreads (e : dexpr) : list bool :=
  match e with
  | DConst _ _ => []
  | DRead a => [a]
  | DIsZero e | DZext e => dreads e
  | DBin _ x y => dreads x ++ dreads y
  end.

(** Expressions without reads count as constants. *)
Definition dconstant (e : dexpr) : option Z := match dreads e with [] => Some (deval (x00, x00) e) | _ => None end.

#[export] Instance dlib : ExprLib := {|
  expr := dexpr; as_constant := dconstant;
  createPointer k := DConst k 64; createZExtToPointerWidth := DZext;
  AddExpr := DBin DAdd; UltExpr := DBin DUlt; OrExpr := DBin DOr; AndExpr := DBin DAnd;
  constant_true := DConst 1 1;
|}.

Definition dbound (b : bindings bool) (a : bool) : option uchar := ds ← b !! a; ds !! 0%nat.

(** All bytes are given, or zero. *)
Definition devaluate (free : bool) (b : bindings bool) (e : dexpr) : dexpr :=
  if negb free || forallb (λ a, bool_decide (is_Some (dbound b a))) (dreads e)
  then DConst (deval (default x00 (dbound b false), default x00 (dbound b true)) e) (Z.to_N (dwidth e))
  else e.

#[export] Instance dquery : QueryLib := {|
  getWidth := (dwidth : expr → Z); createIsZero := (DIsZero : expr → expr); constant k w := (DConst k (Z.to_N w) : expr);
  EqExpr := (DBin DEq : expr → expr → expr); NeExpr := (DBin DNe : expr → expr → expr);
  UleExpr := (DBin DUle : expr → expr → expr); LShrExpr := (DBin DLShr : expr → expr → expr);
  simplifyExpr _ e := e;
  Array := bool; isConstantArray _ := false; arr_size _ := 1%nat; readByte a _ := (DRead a : expr);
  ReadExpr := bool; findReads := (dreads : expr → list bool); read_root a := a; read_updated _ := false;
  read_index _ := (DConst 0 32 : expr); findSymbolicObjects es := remove_dups (concat (map dreads es));
  evaluate := (devaluate : bool → bindings bool → expr → expr);
|}.

Lemma dwidth_nonneg e : 0 ≤ dwidth e.
Proof. induction e as [| | | |[]]; simpl; lia. Qed.

Lemma b2z_range b : 0 ≤ b2z b < 2 ^ 1.
Proof. destruct b; simpl; lia. Qed.

Lemma uchar_range x : 0 ≤ Z_of_uchar x < 2 ^ 8.
Proof. unfold Z_of_uchar. pose proof (Byte.to_N_bounded x). change (2 ^ 8) with 256. lia. Qed.

Lemma deval_range v e : 0 ≤ deval v e < 2 ^ dwidth e.
Proof.
  induction e as [k w|a|e IH|e IH|op x IHx y IHy]; simpl.
  - apply Z.mod_pos_bound, Z.pow_pos_nonneg; lia.
  - apply uchar_range.
  - apply b2z_range.
  - apply Z.mod_pos_bound. done.
  - destruct op; simpl; try apply b2z_range; try (apply Z.mod_pos_bound; done). rewrite Z.shiftr_div_pow2 by lia.
    assert (0 < 2 ^ deval v y) by (apply Z.pow_pos_nonneg; lia).
    split; [apply Z.div_pos; lia|]. eapply Z.le_lt_trans; [|apply IHx]. apply Z.div_le_upper_bound; nia.
Qed.

Lemma deval_reads v v' e : (∀ a, a ∈ dreads e → dbyte v a 0 = dbyte v' a 0) → deval v e = deval v' e.
Proof.
  induction e as [k w|a|e IH|e IH|op x IHx y IHy]; simpl; intros H; [done | | by rewrite IH | by rewrite IH|].
  - rewrite H by left. done.
  - rewrite IHx, IHy; [done | intros a Ha; apply H, elem_of_app; by right | intros a Ha; apply H, elem_of_app; by left].
Qed.

Lemma dconstant_eval v e k : dconstant e = Some k → deval v e = k.
Proof.
  unfold dconstant. destruct (dreads e) eqn:E; [|done]. intros [= <-]. apply deval_reads. rewrite E. intros a Ha. by apply not_elem_of_nil in Ha.
Qed.

Lemma bool_cases v e : dwidth e = 1 → deval v e = 0 ∨ deval v e = 1.
Proof. intros Hw. pose proof (deval_range v e) as H. rewrite Hw in H. lia. Qed.

#[export] Instance dsem : ExprSem.
Proof.
  refine {| assignment := uchar * uchar; width := (dwidth : expr → Z); eval := (deval : uchar * uchar → expr → Z) |}; try done.
  - apply deval_range.
  - intros v e k. apply dconstant_eval.
  - intros v k Hk. by apply Z.mod_small.
  - intros v e Hw. simpl. pose proof (deval_range v e) as [H0 H1]. apply Z.mod_small. split; [done|].
    eapply Z.lt_le_trans; [exact H1|]. by apply Z.pow_le_mono_r.
  - intros v x y Hx Hy. simpl. by destruct (bool_cases v x Hx) as [->| ->], (bool_cases v y Hy) as [->| ->].
  - intros v x y Hx Hy. simpl. by destruct (bool_cases v x Hx) as [->| ->], (bool_cases v y Hy) as [->| ->].
Defined.

Lemma dtouched e a i : reads_at (findReads (e : expr)) a i ↔ a ∈ dreads e ∧ i = 0.
Proof.
  unfold reads_at, read_touches. simpl. split.
  - by intros (re & Hre & -> & _ & ->).
  - intros [Ha ->]. by exists a.
Qed.

Lemma dbound_bound b a : bound b a 0 = dbound b a.
Proof. done. Qed.

Lemma to_N_const k w : 0 ≤ k < 2 ^ w → 0 ≤ w → k mod 2 ^ Z.of_N (Z.to_N w) = k.
Proof. intros Hk Hw. rewrite Z2N.id by done. by apply Z.mod_small. Qed.

#[export] Instance dqsem : QuerySem.
Proof.
  refine {| byte := (dbyte : assignment → Array → Z → uchar) |}; try done.
  - intros e k. simpl. unfold dconstant. simpl. by destruct (dreads e); intros [= <-].
  - intros e Hw. simpl. unfold dconstant. simpl. by destruct (dreads e).
  - intros v k w Hk. simpl. apply to_N_const; [done|]. destruct (Z.le_gt_cases 0 w); [done|].
    rewrite Z.pow_neg_r in Hk by done. lia.
  - intros k w Hw. simpl. by rewrite Z2N.id.
  - intros v x y _. simpl. by destruct (deval v x =? deval v y).
  - intros k w Hk. simpl. unfold dconstant. simpl. f_equal. apply to_N_const; [done|]. destruct (Z.le_gt_cases 0 w); [done|].
    rewrite Z.pow_neg_r in Hk by done. lia.
  - intros f. exists (f false 0, f true 0). intros a i _ Hi. assert (i = 0) as -> by (unfold in_array in Hi; simpl in Hi; lia). by destruct a.
  - intros v v' e H. apply deval_reads. intros a Ha. apply (H a 0); [by apply dtouched | done].
  - intros e re k _ [= <-]. done.
  - intros e k. simpl. unfold dconstant. by destruct (dreads e).
  - intros es e a i He Ha%dtouched _. simpl. apply elem_of_remove_dups, elem_concat. exists e. naive_solver.
  - intros e H. simpl. unfold dconstant. destruct (dreads e) as [|a l] eqn:E; [done|]. exfalso. apply (H a 0), dtouched. rewrite E. split; [left | done].
  - intros free b e v H. simpl. unfold devaluate.
    assert (negb free || forallb (λ a, bool_decide (is_Some (dbound b a))) (dreads e) = true) as ->.
    { destruct free; [|done]. simpl. apply forallb_forall. intros a Ha%list_elem_of_In. apply bool_decide_eq_true.
      specialize (H a 0 (proj2 (dtouched e a 0) (conj Ha eq_refl)) eq_refl). rewrite dbound_bound in H.
      destruct (dbound b a); [by eexists|]. by destruct H. }
    unfold dconstant. cbn [dreads]. f_equal. cbn [deval]. rewrite to_N_const; [|apply deval_range | apply dwidth_nonneg].
    apply deval_reads. intros a Ha. specialize (H a 0 (proj2 (dtouched e a 0) (conj Ha eq_refl)) eq_refl). rewrite dbound_bound in H.
    assert (dbyte v a 0 = default x00 (dbound b a)) as ->.
    { destruct (dbound b a); by apply H. }
    by destruct a.
  - intros free b e. simpl. unfold devaluate. destruct (_ || _); [|done]. simpl. apply Z2N.id, dwidth_nonneg.
Defined.

(** ** A solver *)

Definition all_bytes : list uchar := omap Byte.of_N (map N.of_nat (seq 0 256)).
Definition all_values : list assignment := list_prod all_bytes all_bytes.

Lemma all_values_elem (v : assignment) : v ∈ all_values.
Proof.
  assert (∀ x, In x all_bytes) as Hb.
  { intros x. apply list_elem_of_In, list_elem_of_omap. exists (Byte.to_N x). split; [|apply Byte.of_to_N].
    apply list_elem_of_fmap. exists (N.to_nat (Byte.to_N x)). rewrite N2Nat.id. split; [done|].
    pose proof (Byte.to_N_bounded x). apply elem_of_seq. lia. }
  destruct v as [x y]. apply list_elem_of_In. by apply in_prod.
Qed.

Definition holds_in (cs : list expr) (v : assignment) : bool := forallb (λ c, true_in v c) cs.

Lemma holds_in_spec cs v : holds_in cs v = true ↔ holds v cs.
Proof.
  unfold holds_in, holds. rewrite forallb_forall. setoid_rewrite true_in_spec. by setoid_rewrite list_elem_of_In.
Qed.

Definition enum_truth (q : Query) (s : Z) : res (option bool * Z) :=
  Ok (Some (forallb (λ v, negb (holds_in (constraints q) v) || true_in v (query q)) all_values), s).
Definition enum_value (q : Query) (s : Z) : res (option expr * Z) :=
  Ok (match List.find (holds_in (constraints q)) all_values with
      | Some v => Some (constant (eval v (query q)) (width (query q)))
      | None => None
      end, s).
Definition enum_initial (q : Query) (objects : list Array) (s : Z) : res (option (option (list (list uchar))) * Z) :=
  Ok (Some (match List.find (λ v, holds_in (constraints q) v && negb (true_in v (query q))) all_values with
            | Some v => Some (map (λ a, [dbyte v a 0]) objects)
            | None => None
            end), s).

(** Its state is the timeout. *)
Definition enum_core : SolverImpl := {|
  si_state := Z; computeTruth := enum_truth; computeValidity := default_validity enum_truth;
  computeValue := enum_value; computeInitialValues := enum_initial; setCoreSolverTimeout := λ t _, t |}.

Definition any (_ : Z) : Prop := True.

Lemma enum_truth_ok q s : delivers any (truth_is q) (enum_truth q s).
Proof.
  apply delivers_some; [done|]. destruct (forallb _ all_values) eqn:E; simpl.
  - intros v Hv. rewrite forallb_forall in E. specialize (E v (proj1 (list_elem_of_In _ _) (all_values_elem v))).
    by rewrite (proj2 (holds_in_spec _ _) Hv) in E.
  - apply not_true_iff_false in E. rewrite forallb_forall in E.
    destruct (List.find (λ v, holds_in (constraints q) v && negb (true_in v (query q))) all_values) as [v|] eqn:F.
    + apply find_some in F as [_ [Hh Ht]%andb_true_iff]. exists v. split; [by apply holds_in_spec | by apply negb_true_iff in Ht].
    + destruct E. intros v Hv. pose proof (find_none _ _ F v Hv) as H. simpl in H. by destruct (holds_in _ _), (true_in _ _).
Qed.

Lemma enum_ok : impl_ok enum_core any.
Proof.
  split; simpl; [intros; apply enum_truth_ok | | | done].
  - intros q s Hq Hs. apply (default_validity_ok any); [intros; apply enum_truth_ok | done..].
  - intros q s Hc Hsat _. unfold enum_value. destruct (List.find _ _) as [v|] eqn:F; [|by apply delivers_none].
    apply delivers_some; [done|]. apply find_some in F as [_ Hh%holds_in_spec]. exists (deval v (query q)).
    pose proof (deval_range v (query q)) as Hr. split_and!; [| apply width_const, dwidth_nonneg | by exists v].
    by apply as_constant_const.
Qed.


Lemma enum_answering : answering enum_core any.
Proof.
  assert (∀ q s, ∃ b, enum_truth q s = Ok (Some b, s)) as Ht by (intros q s; eexists; reflexivity).
  split; intros q s _ _; cbn [computeTruth computeValidity enum_core si_state].
  - destruct (Ht q s) as [b ->]. by exists b, s.
  - unfold default_validity. destruct (Ht q s) as [b ->]. rewrite bind_Ok_l. destruct b; [by eexists _, _|].
    destruct (Ht (negateExpr q) s) as [b ->]. rewrite bind_Ok_l. by eexists _, _.
Qed.






(** ** The claims *)

Section claims.
Context {EL : ExprLib} {ES : ExprSem} {QL : QueryLib} {QS : QuerySem} {BL : StdLess (bindings Array)}
  {BLL : StdLessLaws (bindings Array)}.


(** C22: The slice that the independent solver passes on is exact:
    [getIndependentConstraints] returns the constraints that are connected
    with the query by a chain of expressions of which each reads a byte in
    common with the next, and no others, and if the constraints can hold the
    query has the same truth value, the same validity and the same values
    under them as under all the constraints. *)
Theorem independent_slice_exact (q : Query) :
  satisfiable (constraints q) →
  ∃ elts required, getIndependentConstraints q = Ok (elts, required) ∧
    (∀ c, c ∈ required ↔ connected (constraints q) (query q) c) ∧
    let slice := {| constraints := required; query := query q |} in
    (∀ b, truth_is slice b ↔ truth_is q b) ∧ (∀ r, validity_is slice r ↔ validity_is q r) ∧
    ∀ e, value_is slice e ↔ value_is q e.
Proof.
  intros Hsat. destruct (independent_spec q) as (a & req & Hok & _ & Hreq & _).
  destruct (slice_extend q Hsat) as (a' & req' & Hok' & Hsub & Hext). rewrite Hok in Hok'. injection Hok' as <- <-.
  exists a, req. split_and!; [done | done|]. cbn zeta.
  destruct (slice_always q req true Hsub Hext) as [Ht Hts], (slice_always q req false Hsub Hext) as [Hf Hfs]. split_and!.
  - intros [|]; done.
  - intros [| |]; simpl; [done..|]. by rewrite Hts, Hfs.
  - intros e. split; intros (k & Hk & Hw & v & Hv & He); exists k; (split_and!; [done..|]).
    + destruct (Hext v Hv) as (w & Hw' & Hew). exists w. split; [done|]. simpl in He. congruence.
    + exists v. split; [|done]. by eapply holds_subset.
Qed.


(** C24: [Solver::getRange] is exact: for an expression of at most 64 bits,
    constraints that can hold and a solver that answers, its three binary
    searches end, no assertion fails, and the result is the least and the
    greatest value that the constraints allow. *)
Theorem get_range_exact (I : SolverImpl) (inv : si_state I → Prop) (q : Query) (s : si_state I) :
  impl_ok I inv → answering I inv → 1 ≤ width (query q) ≤ 64 → satisfiable (constraints q) → inv s →
  ∃ lo hi s', getRange I q s = Ok (constant lo (width (query q)), constant hi (width (query q)), s') ∧ inv s' ∧
    range_is q lo hi.
Proof. intros HI HA Hw Hsat Hs. by apply getRange_spec. Qed.
End claims.

(** C25: The map of sets finds what it stores: in a map built by insertions
    [lookup] yields the value last inserted for a set, [findSubset] yields
    the value of a subset that satisfies the predicate and nothing exactly if
    there is no such subset, and [findSuperset] does the same for
    supersets. *)
Theorem set_search_exact {K V : Type} `{StdLessLaws K} `{!Inhabited V} (entries : list (list K * V)) (p : V → bool) (set : list K) :
  Forall (λ kv, sorted_set kv.1) entries → sorted_set set →
  let m := fold_right (λ kv, mos_insert kv.1 kv.2) new_trie entries in
  let stored s v := sorted_set s ∧ ∃ before after, entries = before ++ (s, v) :: after ∧ s ∉ before.*1 in
  (∀ s v, sorted_set s → mos_lookup s m = Some v ↔ stored s v) ∧
  match findSubset p m set with
  | Some v => p v = true ∧ ∃ s, stored s v ∧ ∀ x, x ∈ s → x ∈ set
  | None => ∀ s v, stored s v → (∀ x, x ∈ s → x ∈ set) → p v = false
  end ∧
  match findSuperset p m set with
  | Some v => p v = true ∧ ∃ s, stored s v ∧ ∀ x, x ∈ set → x ∈ s
  | None => ∀ s v, stored s v → (∀ x, x ∈ set → x ∈ s) → p v = false
  end.
Proof.
  intros Hsorted Hset. cbn zeta. destruct (mos_entries entries Hsorted) as (Hwf & Hlk & Hs).
  split_and!.
  - intros s v Hss. rewrite Hlk. tauto.
  - pose proof (findSubset_spec p _ set Hwf Hset) as Hf. destruct (findSubset p _ set) as [v|].
    + destruct Hf as (s & Hl & Hp & Hsub). split; [done|]. exists s. split; [split; [by eapply Hs | by apply Hlk]|].
      intros x. by apply sublist_elem.
    + intros s v [Hss Hst] Hin. apply (Hf s v); [by apply Hlk | by apply sorted_sublist].
  - pose proof (findSuperset_spec p _ set Hwf) as Hf. destruct (findSuperset p _ set) as [v|].
    + destruct Hf as (s & Hl & Hp & Hsub). split; [done|]. exists s. split; [split; [by eapply Hs | by apply Hlk]|].
      intros x. by apply sublist_elem.
    + intros s v [Hss Hst] Hin. apply (Hf s v); [by apply Hlk | by apply sorted_sublist].
Qed.

(** ** Witnesses *)



Definition dval (x y : uchar) : @assignment dlib dsem := (x, y).

(** Both bytes are at most 9; is the first at most 7? *)
Definition le_const (a : bool) (k : Z) : expr := (DBin DUle (DRead a) (DConst k 8) : expr).
Definition demo_query : Query := {| constraints := [le_const false 9; le_const true 9]; query := le_const false 7 |}.

Lemma demo_satisfiable : satisfiable (constraints demo_query).
Proof. exists (dval x00 x00). intros c [->|[->|[]%not_elem_of_nil]%elem_of_cons]%elem_of_cons; done. Defined.

Lemma independent_slice_exact_witness :
  ∃ elts required, getIndependentConstraints demo_query = Ok (elts, required) ∧
    (∀ c, c ∈ required ↔ connected (constraints demo_query) (query demo_query) c) ∧
    let slice := {| constraints := required; query := query demo_query |} in
    (∀ b, truth_is slice b ↔ truth_is demo_query b) ∧ (∀ r, validity_is slice r ↔ validity_is demo_query r) ∧
    ∀ e, value_is slice e ↔ value_is demo_query e.
Proof. exact (independent_slice_exact demo_query demo_satisfiable). Defined.

(** The constraint on the other byte is left out. *)
Example demo_slice : (λ r, match r with Ok (_, required) => required | Err _ => [] end) (getIndependentConstraints demo_query) = [le_const false 9].
Proof. vm_compute. reflexivity. Qed.



(** The first byte is between 3 and 9. *)
Definition demo_range : Query :=
  {| constraints := [le_const false 9; (DBin DUle (DConst 3 8) (DRead false) : expr)]; query := (DRead false : expr) |}.

Lemma get_range_exact_witness :
  ∃ lo hi s', getRange enum_core demo_range 0 = Ok (constant lo 8, constant hi 8, s') ∧ any s' ∧ range_is demo_range lo hi.
Proof.
  apply (get_range_exact enum_core any demo_range 0 enum_ok enum_answering); [split; discriminate | | exact Logic.I].
  exists (dval x05 x00). intros c [->|[->|[]%not_elem_of_nil]%elem_of_cons]%elem_of_cons; done.
Defined.

Definition demo_entries : list (list Z * Z) := [([1; 2], 10); ([1; 3; 4], 20); ([2], 3)].

Lemma set_search_exact_witness :
  let m := fold_right (λ kv, mos_insert kv.1 kv.2) new_trie demo_entries in
  let stored s v := sorted_set s ∧ ∃ before after, demo_entries = before ++ (s, v) :: after ∧ s ∉ before.*1 in
  (∀ s v, sorted_set s → mos_lookup s m = Some v ↔ stored s v) ∧
  match findSubset (Z.ltb 5) m [1; 2; 3] with
  | Some v => Z.ltb 5 v = true ∧ ∃ s, stored s v ∧ ∀ x, x ∈ s → x ∈ [1; 2; 3]
  | None => ∀ s v, stored s v → (∀ x, x ∈ s → x ∈ [1; 2; 3]) → Z.ltb 5 v = false
  end ∧
  match findSuperset (Z.ltb 5) m [1; 2; 3] with
  | Some v => Z.ltb 5 v = true ∧ ∃ s, stored s v ∧ ∀ x, x ∈ [1; 2; 3] → x ∈ s
  | None => ∀ s v, stored s v → (∀ x, x ∈ [1; 2; 3] → x ∈ s) → Z.ltb 5 v = false
  end.
Proof. apply (set_search_exact demo_entries (Z.ltb 5) [1; 2; 3]); repeat constructor. Defined.

(** ** Where the caches fall short *)

Section caches.
Context {EL : ExprLib} {QL : QueryLib} (I : SolverImpl).
Implicit Types (q : Query) (s : caching_state I).

Lemma lookup_insert_same q s pv pv' s1 s2 :
  cacheLookup I q s = Ok (Some pv) → cache I s1 = cache I s → cacheInsert I q pv' s1 = Ok s2 → cache I s2 = cache I s.
Proof.
  unfold cacheLookup, cacheInsert. destruct (canonicalizeQuery (query q)) as [e n]. intros Hl Hc Hi. rewrite Hc in Hi.
  destruct (cache_find (constraints q, e) (cache I s)); [|done]. apply bind_ok in Hi as (pv1 & _ & [= <-]). done.
Qed.

(** A result that completes a partial entry is not stored: [insert] leaves
    the entry as it is, and the next query of this kind asks again. *)
Theorem partial_entry_stays q s pv r s' :
  cacheLookup I q s = Ok (Some pv) → caching_validity I q s = Ok (r, s') → cache I s' = cache I s.
Proof.
  intros Hl. unfold caching_validity. rewrite Hl, bind_Ok_l.
  assert (∀ q' t1 t2 b, ask_truth I q' t1 = Ok (b, t2) → cache I t2 = cache I t1) as Hask.
  { intros q' t1 t2 b. unfold ask_truth. intros ([r1 b1] & _ & [= <- <-])%bind_ok. done. }
  destruct pv; try (by intros [= <- <-]).
  - intros ([[[|]|] t] & Ha%Hask & H)%bind_ok; try (by injection H as <- <-);
      apply bind_ok in H as (t2 & Hi & [= <- <-]); by eapply lookup_insert_same.
  - intros ([[[|]|] t] & Ha%Hask & H)%bind_ok; try (by injection H as <- <-);
      apply bind_ok in H as (t2 & Hi & [= <- <-]); by eapply lookup_insert_same.
Qed.
End caches.

(** With [CexCacheExperimental], [computeTruth] reports failure where the
    cache shows that the query is false. *)
Theorem experimental_reports_failure {EL : ExprLib} {QL : QueryLib} {BL : StdLess (bindings Array)}
    (o : cex_options) (I : SolverImpl) (q : Query) (s : ccs_state I) :
  CexCacheExperimental o = true → (lookupAssignment o I (negateExpr q) s).2 = Some None → cex_truth o I q s = Ok (None, s).
Proof. intros Ho Hl. unfold cex_truth. by rewrite Ho, Hl. Qed.
